(* ===== verification/_CoqProject ===== *)
-Q . S2P
Prelude.v
StateM.v
Vma.v
FastIdiv.v
FastSdiv.v
GlContext.v
GlFloat.v
GlDepth.v
GlScissor.v
GlStencil.v
GlBlend.v
GlSteps.v
GlPrimitive.v
GlViewport.v
GlFog.v
GlRaster.v
GlState.v
GlLegal.v
GlLegalRaster.v
GlProps.v
HashTable.v
Probe.v
HashTableProof.v
HashTableMap.v
HashTableProps.v
HashSet.v
Arrays.v
RegAlloc.v
RegAllocSet.v
RegAllocGraph.v
RegAllocSimplify.v
RegAllocSelect.v
RegAllocProps.v
Bigmath.v
Nir.v
NirInt64.v
NirIdivConst.v
RbTree.v
RbAbs.v
RbHeap.v
RbInsert.v
RbRemove.v
RbTreeProps.v
RbSearch.v
UQueue.v
UQueueRing.v
UQueueInv.v
UQueueSteps.v
UQueueCalls.v
UQueueTrace.v
UQueueLive.v
UQueueProps.v
Bitset.v
UVector.v
HalfFloat.v
NirCfg.v
Dominators.v
NirImpl.v
NirDominance.v
NirDomTree.v
NirDomFrontier.v
NirDomProps.v
NirWorklist.v
NirLiveness.v
NirLiveFacts.v
NirLiveProps.v
NirInterfere.v
Ralloc.v
RallocForest.v
RallocLinks.v
RallocReparent.v
RallocHeap.v
RallocOps.v
RallocProps.v
RallocLinear.v
RallocArena.v
RallocStrings.v
Slab.v
SlabHeap.v
SlabProps.v
