(* ===== verification/Prelude.v ===== *)
(** * A verification development for Mesa 3D

    Mesa is a set of graphics drivers over shared C libraries.  This
    development verifies parts of the C core that the drivers share: data
    structures and algorithms of src/util, the control flow analyses and two
    passes of the compiler middle end (src/compiler/nir) and groups of state of
    the OpenGL context (src/mesa/main).  Paths below are relative to
    src/src of the repository.

    ** How the code is modelled

    Definitions keep the names of the source and are executable.  A C integer
    is a [Z] with its wrap-around written out ([wrap], [swrap], [u32], [i32],
    [u64], [i64]); bit operations are those of [Z].  A function that asserts or
    loops returns an [outcome]: [Ret], [Assert_failed] or [Out_of_fuel]; a
    theorem that it is [Ret] says that no assertion fails and that the loop
    ends within its rounds.  Structs are records with the update notation
    [r <| f := v |>]; memory is explicit where the code shares it (the nodes of
    the red-black tree, the fences and barriers of the job queue, the arrays of
    the register allocator, the blocks of a NIR function, the headers and bytes
    of the memory contexts).  Code that changes such a memory at every step is
    written in the monad of StateM.

    ** Parts, files, and what is proved

    Prelude: machine integers, [outcome], record update, tactics and hints,
    general lemmas.  StateM: the state and error monad with its weakest
    preconditions.  Arrays: C arrays and the bit sets of util/bitset.h.
    Bitset: the rest of util/bitset.h; its range
    operations change exactly the bits of the range, within one word.

    - Virtual addresses (util/vma.c): Vma.  The heap is its list of holes, from
      high to low.  Allocation finds a block whenever one exists, freeing adds
      exactly the block, the two are inverse, and in every state that clients
      reach by allocating and freeing their own blocks each address has one
      owner.

    - Division by constants (util/fast_idiv_by_const.c and .h): FastIdiv,
      FastSdiv.  The magic number computations end within their fuel of 64
      rounds, and the documented instruction sequences give the exact quotient
      at all widths.  Compiler users: NirIdivConst
      (compiler/nir/nir_opt_idiv_const.c) and NirInt64
      (compiler/nir/nir_lower_int64.c) over the integer opcodes in Nir
      (nir_opcodes.py).  A builder call is the value that the emitted
      instruction computes; the replaced and the emitted code compute equal
      values.  The loop of the 64-bit division is unrolled 32 times, as the
      source emits it.  Bigmath: util/bigmath.h, multi-word sums and products.

    - State of the OpenGL context (mesa/main/blend.c, depth.c, stencil.c,
      scissor.c, points.c, lines.c, polygon.c, viewport.c,
      conservativeraster.c, multisample.c, hint.c, fog.c): GlContext has the
      members of [gl_context] they use, with errors and flushing; GlSteps the
      contract of a setter; GlFloat the conversions of floating-point values;
      GlDepth, GlScissor, GlStencil, GlBlend, GlPrimitive (points, lines,
      polygons), GlViewport (viewports, conservative rasterisation) and GlFog
      (fog, hints, samples) one definition per entry point.  GlRaster proves
      the contract for the last three; GlState has the command type and the
      theorems that hold for all commands (an erroneous command has no effect,
      stored vertices are drawn under the state of their time, the driver is
      told of changes).  GlLegal and GlLegalRaster prove that checked commands
      keep the state legal, GlProps the behaviour of single entry points and
      where the source departs from its contract.  These departures limit the
      general theorems: the setters of conservative rasterisation change state
      before they flush ([orderly]); a driver without a flag for window
      rectangles or conservative rasterisation is not told of their changes
      ([reportable]), and separate blend equations do not mark the constant of
      the advanced blend mode ([untold]); a [first + count] that wraps and
      floats out of range for enumerants pass the validation ([checked]).
      The events of a context ([Trace]) record array accesses out of bounds
      and undefined conversions.

    - Hash tables and sets (util/hash_table.c, util/set.c): HashTable has the
      functions; Probe proves that double hashing over a prime size visits
      every slot; HashTableProof relates every operation to the contents;
      HashTableMap is the refinement of an association list, HashTableProps
      resizing, iteration with removal and the 64-bit keys; HashSet carries the
      results over to the set.  Probing gets as many rounds as the table has
      slots, the recursion between insertion and resizing a depth of 2; both
      are proved to be enough.  The theorems hold for up to 2^30 operations, so
      that the 32-bit counters and the table of sizes suffice.

    - Register allocator (util/register_allocate.c): RegAlloc has every
      function; RegAllocSet the register sets and the values p and q,
      RegAllocGraph the interference graph, RegAllocSimplify and
      RegAllocSelect the two phases, RegAllocProps the theorems: colourings are
      valid (the registers a client forces are kept unchecked), trivially
      colourable graphs succeed.  The number of nodes times
      the number of registers is below [UINT_MAX], so that the 32-bit totals
      are exact; simplification gets as many rounds as there are nodes and one
      more, since every round but the last pushes a node.

    - Red-black tree (util/rb_tree.c and .h): RbTree has every function on a
      store of nodes; RbAbs is the algorithm on trees as data, RbHeap the link
      between trees and the store, RbInsert and RbRemove the fix-up loops,
      RbTreeProps the theorems on insertion and removal, RbSearch those on
      traversal, search, sequences of operations and the decision of the
      invariant.  Loops get one round more than the store has nodes;
      searches are shown to take at most 2 log2 (n + 1) + 1.

    - Job queue (util/u_queue.c and .h, the barrier of util/u_thread.h):
      UQueue has the ring, the fences and the threads as program counters that
      any schedule moves ([exec], [step]), with spurious wake-ups and timeouts;
      UQueueRing relates the ring to a sequence, UQueueInv states the
      invariant, UQueueSteps and UQueueCalls prove it for threads and clients,
      UQueueTrace the order of jobs and [util_queue_finish],
      UQueueLive the measure and the absence of deadlock, UQueueProps the
      theorems.  A queue has fewer than 2^31 - 8 slots and 2^31 threads, so
      that its [int] members do not overflow; loops over the ring get as many
      rounds as it has slots.  The theorems on order and progress are about a
      queue that was not told to terminate; what goes wrong at termination with
      a full ring is shown at the end of UQueueProps.

    - Control flow of NIR (compiler/nir): NirCfg has the control flow lists of
      nir.h and the edges that nir_control_flow.c keeps for them; Dominators is
      the theory of dominance on finite graphs; NirImpl a function
      implementation with its blocks.  NirDominance has every computation of
      nir_dominance.c; NirDomTree and NirDomFrontier prove the
      loops, NirDomProps that immediate dominators, frontiers and the numbered
      tree are those of the graph, so that [nir_block_dominates] and
      [nir_dominance_lca] decide dominance and find the least common dominator.
      A walk up the tree gets as many rounds as there are blocks and the outer
      loop two more, since after as many sweeps as there are blocks nothing
      changes.  NirWorklist is nir_worklist.c, a ring of blocks that is a
      deque without repetition.  NirLiveness has nir_liveness.c; NirLiveFacts
      and NirLiveProps prove that the fixed point is reached within one visit
      per block and per bit that can still be set, NirInterfere that it is
      exactly the existence of a path to a use, and what the interference test
      decides.

    - Vectors and half floats of util: UVector (u_vector.c and .h, with the
      instruction worklist of nir_worklist.h) is a queue of elements in a ring
      that grows by powers of two, with 32-bit positions that wrap; a walk
      over the ring gets as many rounds as it has slots.  HalfFloat
      (half_float.c) converts to the nearest half, ties to even, and back
      without change; its bounds on the conversion to and from integers are
      those of the 16-bit format.

    - Memory contexts (util/ralloc.c): Ralloc has the headers and every
      operation on blocks; RallocForest is the abstract state, an ordered
      forest of blocks; RallocLinks relates it to the sibling and parent
      pointers, RallocReparent, RallocHeap and RallocOps prove the operations
      one by one, with the effects of the C library's string functions on the
      bytes of the blocks; RallocProps proves that every sequence of calls
      refines the forest and that freeing a block frees exactly its subtree,
      each destructor once and before its block.  RallocStrings has the
      contents of strings; RallocLinear has the linear allocator and
      RallocArena that its pieces lie in their buffers and apart from each
      other.  Loops over children get one round more than there are headers,
      the recursion of [unsafe_free] one call per block, a walk over a string
      one round more than there are bytes, a walk over linear buffers one more
      than there are buffers.  A size plus the 48 bytes of the header is below
      2^64; linear pieces are below 2^31 - 16 bytes, beyond which the 32-bit
      sums of the source wrap (shown in RallocArena).

    - Slab allocator (util/slab.c and .h): Slab has every function, cut into
      the steps that threads on different pools may interleave; SlabHeap has
      the invariant of the pages, of the lists of elements and of the counters
      of orphaned pages, and that each function keeps it; SlabProps that no
      step of any interleaving fails, that users never share an object and
      that no page leaks.  A loop over pages or elements gets one round more
      than there are pages or elements.  A page is below 2^32 bytes; beyond it
      the product of the source wraps (shown in SlabProps).

    Interactions: the NIR passes call the magic number computations; the set
    reuses the results on tables; the allocator uses the bit sets; all entry
    points of the GL state go through the errors and the flushing of GlContext;
    [util_queue_finish] is itself a client of the queue and of the barrier;
    liveness uses the worklist of blocks, the bit sets and the control flow
    edges; the interference test uses both liveness and dominance.

    ** Assumptions

    Memory allocation succeeds, except where the model has the failure: in
    [util_queue_init] and u_vector.c, in ralloc.c, where the answers of the C
    library are an argument ([supply]), and in slab.c.  The destructors of
    ralloc.c do not call back into it.  Function pointers of a caller (hash and comparison
    functions, the register selection callback, job functions) are parameters
    or opaque; the hypotheses on them are in the statements.  C library and
    kernel primitives (mutex, condition variable, futex) behave as documented.
    The clients of the job queue follow [call_allowed]: a fence that is added
    is signalled, its addresses are not null, and the queue is destroyed by
    the last client.  Those of the slab allocator follow [allowed]: one call at
    a time on a pool, and only objects in use are freed.

    ** Not modelled

    Hardware drivers, window systems and kernel interfaces (no specification
    in the repository); the GLSL and SPIR-V front ends (C++ or driven by
    generated tables); floating-point pipelines; display lists, textures,
    buffers, framebuffers and shaders of mesa/main; the instructions of NIR
    beyond their definitions and uses, and its other passes; disk cache,
    configuration files; generated and vendored code.  Of the modelled
    components: the allocation of list nodes and tables,
    [_mesa_key_string_equal], [_mesa_get_render_format], the polygon stipple,
    queries of sample positions and counts, the error log, the dumps of
    nir_dominance.c as text, thread names, affinity, clocks and the exit
    handler's list of the job queue, the mutex variant of its fences. *)

From stdpp Require Import base list numbers.
From Stdlib Require Import ZArith Lia.

(** ** Machine integers *)

Declare Scope c_scope.
Delimit Scope c_scope with C.

#[local] Open Scope Z_scope.

(** [wrap w x] is the value a [w]-bit unsigned object holds after being
    assigned [x]; [swrap w x] is the two's complement reading of the same
    bits. *)
Definition wrap (w x : Z) : Z := x mod 2 ^ w.
Definition swrap (w x : Z) : Z :=
  let u := x mod 2 ^ w in if u <? 2 ^ (w - 1) then u else u - 2 ^ w.

Abbreviation u32 := (wrap 32).
Abbreviation u64 := (wrap 64).
Abbreviation i32 := (swrap 32).
Abbreviation i64 := (swrap 64).

(** The values a [w]-bit unsigned (signed) object can hold. *)
Definition in_u (w x : Z) : Prop := 0 <= x < 2 ^ w.
Definition in_s (w x : Z) : Prop := - 2 ^ (w - 1) <= x < 2 ^ (w - 1).

Lemma wrap_small w x : 0 <= x < 2 ^ w -> wrap w x = x.
Proof. apply Z.mod_small. Qed.

Lemma wrap_range w x : 0 <= w -> 0 <= wrap w x < 2 ^ w.
Proof. intros. apply Z.mod_pos_bound, Z.pow_pos_nonneg; lia. Qed.

Lemma wrap_once w x : 0 <= w -> 2 ^ w <= x < 2 * 2 ^ w -> wrap w x = x - 2 ^ w.
Proof.
  intros Hw Hx. unfold wrap.
  rewrite <- (Z.mod_small (x - 2 ^ w) (2 ^ w)) by lia.
  rewrite <- (Z_mod_plus_full (x - 2 ^ w) 1). f_equal. lia.
Qed.

Lemma wrap_idem w x : wrap w (wrap w x) = wrap w x.
Proof. apply Zmod_mod. Qed.

Lemma wrap_add_l w x y : wrap w (wrap w x + y) = wrap w (x + y).
Proof. apply Zplus_mod_idemp_l. Qed.

Lemma wrap_add_r w x y : wrap w (x + wrap w y) = wrap w (x + y).
Proof. apply Zplus_mod_idemp_r. Qed.

Lemma wrap_sub_l w x y : wrap w (wrap w x - y) = wrap w (x - y).
Proof. apply Zminus_mod_idemp_l. Qed.

Lemma wrap_sub_r w x y : wrap w (x - wrap w y) = wrap w (x - y).
Proof. apply Zminus_mod_idemp_r. Qed.

Lemma wrap_mul_l w x y : wrap w (wrap w x * y) = wrap w (x * y).
Proof. apply Zmult_mod_idemp_l. Qed.

Lemma wrap_mul_r w x y : wrap w (x * wrap w y) = wrap w (x * y).
Proof. apply Zmult_mod_idemp_r. Qed.

Create Rewrite HintDb wrap.
#[export] Hint Rewrite wrap_idem wrap_add_l wrap_add_r wrap_sub_l wrap_sub_r
  wrap_mul_l wrap_mul_r : wrap.

(** ** Outcomes of code with assertions and loops

    A C function whose body contains [assert]s or an unbounded loop returns
    an [outcome]: its value, a failed assertion, or the mark that the fuel
    given to the model's loop did not suffice. *)
Inductive outcome (A : Type) : Type :=
| Ret (a : A)
| Assert_failed
| Out_of_fuel.
Arguments Ret {A} a.
Arguments Assert_failed {A}.
Arguments Out_of_fuel {A}.

Definition obind {A B} (m : outcome A) (k : A -> outcome B) : outcome B :=
  match m with
  | Ret a => k a
  | Assert_failed => Assert_failed
  | Out_of_fuel => Out_of_fuel
  end.

Definition omap_out {A B} (f : A -> B) (m : outcome A) : outcome B :=
  obind m (fun a => Ret (f a)).

(** [assert(b); k] *)
Definition c_assert {A} (b : bool) (k : outcome A) : outcome A :=
  if b then k else Assert_failed.

Notation "'let!' p := m 'in' k" := (obind m (fun p => k))
  (at level 10, p pattern, m at level 100, k at level 200) : c_scope.
Notation "'assert!' b ;; k" := (c_assert b k)
  (at level 100, b at next level, right associativity) : c_scope.

Lemma obind_Ret {A B} (m : outcome A) (k : A -> outcome B) b :
  obind m k = Ret b <-> exists a, m = Ret a /\ k a = Ret b.
Proof.
  destruct m; simpl; split; try (intros [? [? ?]]); try congruence.
  intros. eexists. split; [reflexivity | assumption].
Qed.

Lemma c_assert_Ret {A} b (k : outcome A) a :
  c_assert b k = Ret a <-> b = true /\ k = Ret a.
Proof. destruct b; simpl; split; try (intros [? ?]); auto; congruence. Qed.

Lemma c_assert_true {A} b (k : outcome A) : b = true -> c_assert b k = k.
Proof. now intros ->. Qed.

(** ** Tactics *)

(** Turn the boolean integer comparisons of the hypotheses and the goal into
    propositions. *)
Ltac zbool :=
  repeat match goal with
  | H : (_ =? _) = true |- _ => apply Z.eqb_eq in H
  | H : (_ =? _) = false |- _ => apply Z.eqb_neq in H
  | H : (_ <? _) = true |- _ => apply Z.ltb_lt in H
  | H : (_ <? _) = false |- _ => apply Z.ltb_ge in H
  | H : (_ <=? _) = true |- _ => apply Z.leb_le in H
  | H : (_ <=? _) = false |- _ => apply Z.leb_gt in H
  | H : (_ >? _) = _ |- _ => rewrite Z.gtb_ltb in H
  | H : (_ >=? _) = _ |- _ => rewrite Z.geb_leb in H
  | H : _ && _ = true |- _ => apply andb_true_iff in H; destruct H
  | H : _ || _ = false |- _ => apply orb_false_iff in H; destruct H
  | H : negb _ = true |- _ => apply negb_true_iff in H
  | H : negb _ = false |- _ => apply negb_false_iff in H
  end.

(** Case analysis on the first test of an integer comparison in the goal,
    with the resulting fact in the context. *)
Ltac zcase :=
  match goal with
  | |- context [?x =? ?y] => destruct (Z.eqb_spec x y)
  | |- context [?x <? ?y] => destruct (Z.ltb_spec x y)
  | |- context [?x <=? ?y] => destruct (Z.leb_spec x y)
  | |- context [?x >? ?y] => rewrite (Z.gtb_ltb x y); destruct (Z.ltb_spec y x)
  | |- context [?x >=? ?y] => rewrite (Z.geb_leb x y); destruct (Z.leb_spec y x)
  end.

(** Reflexive transitive closure of a step relation: the states a component
    can reach. *)
Inductive star {S : Type} (step : S -> S -> Prop) : S -> S -> Prop :=
| star_refl s : star step s s
| star_step s1 s2 s3 : step s1 s2 -> star step s2 s3 -> star step s1 s3.

(** An invariant of a step relation holds in every reachable state. *)
Lemma star_invariant {S : Type} (step : S -> S -> Prop) (I : S -> Prop) :
  (forall s s', step s s' -> I s -> I s') ->
  forall s s', star step s s' -> I s -> I s'.
Proof. intros Hstep s s' Hs. induction Hs; eauto. Qed.

(** ** Record update

    [r <| field := v |>] is the C assignment to one member of a structure.
    A record type opts in with an [Eta] instance, its constructor applied to
    its own projections; the updater of a field is then computed. *)
Class Eta (R : Type) := eta : R -> R.
Class Update {R T : Type} (proj : R -> T) := update : (T -> T) -> R -> R.

Ltac build_update :=
  lazymatch goal with
  | |- @Update ?R ?T ?proj =>
      let f := fresh "f" in
      let r := fresh "r" in
      intros f r;
      let whole := eval hnf in (@eta R _ r) in
      lazymatch eval pattern (proj r) in whole with
      | ?ctx _ => let t := eval cbv beta in (ctx (f (proj r))) in exact t
      end
  end.

#[export] Hint Extern 1 (@Update _ _ _) => build_update : typeclass_instances.

Notation "r <| proj := v |>" := (update (proj := proj) (fun _ => v) r)
  (at level 1, left associativity, proj at level 0, v at level 200) : c_scope.
