(* ===== verification/StateM.v ===== *)
(** * Code with state and errors

    A C function that changes a structure in place and may fail an assertion,
    with the rules of its total correctness: [wp m Q s] says that [m] returns
    from the state [s], with a value and a state that satisfy [Q]. *)

From stdpp Require Import base tactics.
From S2P Require Import Prelude.

Definition ST (S A : Type) : Type := S -> outcome (A * S).

Section state.
Context {S : Type}.

Definition ret {A} (a : A) : ST S A := fun s => Ret (a, s).
Definition bind {A B} (m : ST S A) (k : A -> ST S B) : ST S B := fun s => obind (m s) (fun '(a, s) => k a s).
Definition m_assert (b : bool) : ST S unit := fun s => if b then Ret (tt, s) else Assert_failed.
Definition out_of_fuel {A} : ST S A := fun _ => Out_of_fuel.

Definition wp {A} (m : ST S A) (Q : A -> S -> Prop) (s : S) : Prop :=
  match m s with Ret (a, s') => Q a s' | _ => False end.

Lemma wp_ret {A} (a : A) Q s : Q a s -> wp (ret a) Q s.
Proof. done. Qed.

Lemma wp_bind {A B} (m : ST S A) (k : A -> ST S B) Q s : wp m (fun a s' => wp (k a) Q s') s -> wp (bind m k) Q s.
Proof. unfold wp, bind. destruct (m s) as [[a s']| |]; cbn; done. Qed.

Lemma wp_mono {A} (m : ST S A) (Q Q' : A -> S -> Prop) s : wp m Q s -> (forall a s', Q a s' -> Q' a s') -> wp m Q' s.
Proof. unfold wp. destruct (m s) as [[a s']| |]; auto. Qed.

Lemma wp_assert b Q s : b = true -> Q tt s -> wp (m_assert b) Q s.
Proof. intros ->. done. Qed.

Lemma wp_intro {A} (m : ST S A) Q s a s' : m s = Ret (a, s') -> Q a s' -> wp m Q s.
Proof. unfold wp. by intros ->. Qed.

Lemma wp_elim {A} (m : ST S A) Q s : wp m Q s -> exists a s', m s = Ret (a, s') /\ Q a s'.
Proof. unfold wp. destruct (m s) as [[a s']| |]; [eauto | done..]. Qed.
End state.

Declare Scope state_scope.
Delimit Scope state_scope with state.
Notation "'let*' x := m 'in' k" := (bind m (fun x => k)) (at level 10, x pattern, m at level 100, k at level 200) : state_scope.
Notation "m ;; k" := (bind m (fun _ => k)) (at level 100, k at level 200, right associativity) : state_scope.
Notation "'when' b m" := (if b then m else ret tt) (at level 10, b at next level, m at level 0) : state_scope.
