(* ===== verification/Vma.v ===== *)
(** * The virtual address allocator of [src/util/vma.c]

    A heap is the list of the free ranges ("holes") of a 64-bit address
    space, kept from the highest to the lowest.  The file models
    [util_vma_heap_init], [util_vma_heap_validate], [util_vma_heap_alloc],
    [util_vma_heap_free] and [util_vma_heap_finish] with every assertion and
    every 64-bit wrap-around, and relates them to the set of free addresses. *)

From stdpp Require Import base list.
From Stdlib Require Import ZArith Lia.
From S2P Require Import Prelude.
#[local] Open Scope Z_scope.
#[local] Open Scope c_scope.

Record util_vma_hole := Hole { offset : Z; size : Z }.

(** The list [heap->holes], from the head link on. *)
Record util_vma_heap := Heap { holes : list util_vma_hole }.

#[export] Instance util_vma_hole_eq_dec : EqDecision util_vma_hole.
Proof. solve_decision. Defined.

(** [util_vma_heap_validate]: [first] says that the hole is
    [heap->holes.next], [prev_offset] is the loop's variable. *)
Fixpoint validate_loop (first : bool) (prev_offset : Z)
    (hs : list util_vma_hole) : bool :=
  match hs with
  | [] => true
  | hole :: rest =>
      (offset hole >? 0) && (size hole >? 0) &&
      (if first then
         (u64 (size hole + offset hole) =? 0) ||
         (u64 (size hole + offset hole) >? offset hole)
       else
         (u64 (size hole + offset hole) >? offset hole) &&
         (u64 (size hole + offset hole) <? prev_offset)) &&
      validate_loop false (offset hole) rest
  end.

Definition util_vma_heap_validate (heap : util_vma_heap) : bool :=
  validate_loop true 0 (holes heap).

(** The loop of [util_vma_heap_alloc].  [Ret (Some (hs', off))] is a return
    from inside the loop, with the list the iteration leaves behind;
    [Ret None] is the loop running off the end of the list. *)
Fixpoint alloc_loop (hs : list util_vma_hole) (sz alignment : Z)
    : outcome (option (list util_vma_hole * Z)) :=
  match hs with
  | [] => Ret None
  | hole :: rest =>
      let continue :=
        let! r := alloc_loop rest sz alignment in
        Ret (match r with
             | Some (rest', off) => Some (hole :: rest', off)
             | None => None
             end) in
      if sz >? size hole then continue else
      let off := u64 (u64 (size hole - sz) + offset hole) in
      let off := u64 ((off / alignment) * alignment) in
      if off <? offset hole then continue else
      if (off =? offset hole) && (sz =? size hole) then
        Ret (Some (rest, off))
      else
      assert! (u64 (off - offset hole) <=? u64 (size hole - sz)) ;;
      let waste := u64 (u64 (size hole - sz) - u64 (off - offset hole)) in
      if waste =? 0 then
        Ret (Some (Hole (offset hole) (u64 (size hole - sz)) :: rest, off))
      else if off =? offset hole then
        Ret (Some (Hole (u64 (offset hole + sz)) (u64 (size hole - sz)) :: rest, off))
      else
        let high_hole := Hole (u64 (off + sz)) waste in
        let hole' := Hole (offset hole) (u64 (off - offset hole)) in
        Ret (Some (high_hole :: hole' :: rest, off))
  end.

Definition util_vma_heap_alloc (heap : util_vma_heap) (sz alignment : Z)
    : outcome (util_vma_heap * Z) :=
  assert! (sz >? 0) ;;
  assert! (alignment >? 0) ;;
  assert! (util_vma_heap_validate heap) ;;
  let! r := alloc_loop (holes heap) sz alignment in
  match r with
  | Some (hs', off) =>
      assert! (util_vma_heap_validate (Heap hs')) ;;
      Ret (Heap hs', off)
  | None => Ret (heap, 0)
  end.

(** The search loop of [util_vma_heap_free]: the holes above [off], nearest
    first (so that [high_hole] is the head), and the remaining holes (so that
    [low_hole] is the head). *)
Fixpoint find_holes (above : list util_vma_hole) (hs : list util_vma_hole)
    (off : Z) : list util_vma_hole * list util_vma_hole :=
  match hs with
  | [] => (above, [])
  | hole :: rest =>
      if offset hole <=? off then (above, hs)
      else find_holes (hole :: above) rest off
  end.

(** The update of the hole list in [util_vma_heap_free]: merge the freed
    range with the neighbours it touches, or link a new hole. *)
Definition free_holes (above below : list util_vma_hole) (off sz : Z)
    (low_adjacent high_adjacent : bool) : list util_vma_hole :=
  match above, below with
  | h :: above', l :: below' =>
      if low_adjacent && high_adjacent then
        rev above' ++ Hole (offset l) (u64 (size l + u64 (sz + size h))) :: below'
      else if low_adjacent then
        rev above ++ Hole (offset l) (u64 (size l + sz)) :: below'
      else if high_adjacent then
        rev above' ++ Hole off (u64 (size h + sz)) :: below
      else rev above ++ Hole off sz :: below
  | [], l :: below' =>
      if low_adjacent then Hole (offset l) (u64 (size l + sz)) :: below'
      else Hole off sz :: below
  | h :: above', [] =>
      if high_adjacent then rev above' ++ [Hole off (u64 (size h + sz))]
      else rev above ++ [Hole off sz]
  | [], [] => [Hole off sz]
  end.

Definition util_vma_heap_free (heap : util_vma_heap) (off sz : Z)
    : outcome util_vma_heap :=
  assert! (off >? 0) ;;
  assert! (sz >? 0) ;;
  assert! ((u64 (off + sz) =? 0) || (u64 (off + sz) >? off)) ;;
  assert! (util_vma_heap_validate heap) ;;
  let '(above, below) := find_holes [] (holes heap) off in
  let high_hole := head above in
  let low_hole := head below in
  assert! (match high_hole with
           | Some h => u64 (off + sz) <=? offset h
           | None => true
           end) ;;
  let high_adjacent := match high_hole with
                       | Some h => u64 (off + sz) =? offset h
                       | None => false
                       end in
  assert! (match low_hole with
           | Some l => (u64 (offset l + size l) >? offset l) &&
                       (u64 (offset l + size l) <=? off)
           | None => true
           end) ;;
  let low_adjacent := match low_hole with
                      | Some l => u64 (offset l + size l) =? off
                      | None => false
                      end in
  let hs' := free_holes above below off sz low_adjacent high_adjacent in
  assert! (util_vma_heap_validate (Heap hs')) ;;
  Ret (Heap hs').

Definition util_vma_heap_init (start sz : Z) : outcome util_vma_heap :=
  util_vma_heap_free (Heap []) start sz.

(** [util_vma_heap_finish] releases every hole; the result lists the objects
    passed to [free], in order. *)
Definition util_vma_heap_finish (heap : util_vma_heap) : list util_vma_hole :=
  holes heap.

Example alloc_top_down :
  (let! h := util_vma_heap_init 4096 (2 ^ 64 - 4096) in
   util_vma_heap_alloc h 100 64)
  = Ret (Heap [Hole (2 ^ 64 - 128 + 100) 28; Hole 4096 (2 ^ 64 - 4096 - 128)],
         2 ^ 64 - 128).
Proof. vm_compute. reflexivity. Qed.

(** ** Well-formed hole lists and the set of free addresses *)

(** Holes are non-empty, above address 0, sorted from high to low, and no two
    of them touch; all of them end strictly below [bound]. *)
Fixpoint wf_below (bound : Z) (hs : list util_vma_hole) : Prop :=
  match hs with
  | [] => True
  | h :: rest =>
      0 < offset h /\ 0 < size h /\ offset h + size h < bound /\
      wf_below (offset h) rest
  end.

(** The first hole may end at the top of the address space. *)
Definition heap_wf (heap : util_vma_heap) : Prop :=
  wf_below (2 ^ 64 + 1) (holes heap).

Definition in_hole (h : util_vma_hole) (a : Z) : Prop :=
  offset h <= a < offset h + size h.

Definition free_in (hs : list util_vma_hole) (a : Z) : Prop :=
  Exists (fun h => in_hole h a) hs.

(** The address [a] is free in [heap]. *)
Definition free_addr (heap : util_vma_heap) (a : Z) : Prop :=
  free_in (holes heap) a.

(** The addresses of the block of [sz] bytes at [off]. *)
Definition in_block (off sz a : Z) : Prop := off <= a < off + sz.

Lemma free_in_nil a : free_in [] a <-> False.
Proof. unfold free_in. rewrite Exists_nil. tauto. Qed.

Lemma free_in_cons h hs a : free_in (h :: hs) a <-> in_hole h a \/ free_in hs a.
Proof. apply Exists_cons. Qed.

Lemma free_in_app hs1 hs2 a : free_in (hs1 ++ hs2) a <-> free_in hs1 a \/ free_in hs2 a.
Proof. apply Exists_app. Qed.

Create Rewrite HintDb vma.
#[export] Hint Rewrite free_in_nil free_in_cons free_in_app : vma.

Ltac vma_simpl :=
  autorewrite with vma in *; unfold in_hole, in_block in *; simpl in *.

Lemma wf_below_mono b b' hs : wf_below b hs -> b <= b' -> wf_below b' hs.
Proof. destruct hs; simpl; intuition lia. Qed.

Lemma wf_below_bound b hs a : wf_below b hs -> free_in hs a -> 0 < a < b - 1.
Proof.
  revert b. induction hs as [|h hs IH]; intros b Hwf Ha; vma_simpl; [tauto|].
  destruct Hwf as (? & ? & ? & Hwf), Ha as [Ha|Ha]; [lia|].
  specialize (IH _ Hwf Ha). lia.
Qed.

(** The validation loop accepts exactly the well-formed lists. *)
Lemma validate_loop_wf hs :
  Forall (fun h => in_u 64 (offset h) /\ in_u 64 (size h)) hs ->
  forall b, b <= 2 ^ 64 -> validate_loop false b hs = true <-> wf_below b hs.
Proof.
  unfold in_u, wrap. induction 1 as [|h hs [Ho Hs] _ IH]; intros b Hb; simpl; [tauto|].
  rewrite !andb_true_iff, (IH (offset h)) by lia.
  rewrite !Z.gtb_lt, Z.ltb_lt. change (wrap 64) with u64.
  destruct (Z_lt_ge_dec (size h + offset h) (2 ^ 64)).
  - rewrite wrap_small by lia. intuition lia.
  - rewrite (wrap_once 64) by lia. intuition lia.
Qed.

Lemma validate_wf heap :
  Forall (fun h => in_u 64 (offset h) /\ in_u 64 (size h)) (holes heap) ->
  util_vma_heap_validate heap = true <-> heap_wf heap.
Proof.
  unfold util_vma_heap_validate, heap_wf. destruct heap as [[|h hs]]; simpl; [tauto|].
  intros HF. inversion HF as [|? ? [Ho Hs] HF']; subst. unfold in_u in *.
  rewrite !andb_true_iff, orb_true_iff, validate_loop_wf by (assumption || lia).
  rewrite !Z.gtb_lt, Z.eqb_eq.
  destruct (Z_lt_ge_dec (size h + offset h) (2 ^ 64)).
  - rewrite wrap_small by lia. intuition lia.
  - rewrite (wrap_once 64) by lia. intuition lia.
Qed.

Lemma wf_below_u64 b hs :
  b <= 2 ^ 64 + 1 -> wf_below b hs ->
  Forall (fun h => in_u 64 (offset h) /\ in_u 64 (size h)) hs.
Proof.
  revert b. induction hs as [|h hs IH]; intros b Hb; simpl; constructor.
  - unfold in_u. lia.
  - apply (IH (offset h)); intuition lia.
Qed.

Lemma heap_wf_validate heap : heap_wf heap -> util_vma_heap_validate heap = true.
Proof.
  intros H. apply validate_wf; [|assumption].
  eapply wf_below_u64; [|exact H]. lia.
Qed.

(** A run of free addresses lies in the first hole or below it. *)
Lemma run_split b h hs a sz :
  wf_below b (h :: hs) -> 0 < sz ->
  (forall x, in_block a sz x -> free_in (h :: hs) x) ->
  (offset h <= a /\ a + sz <= offset h + size h) \/
  (forall x, in_block a sz x -> free_in hs x).
Proof.
  intros (Ho & Hs & Hb & Hwf) Hsz Hrun.
  assert (Hlow : forall x, free_in (h :: hs) x -> x <> offset h - 1).
  { intros x Hx. vma_simpl. destruct Hx as [Hx|Hx]; [lia|].
    apply (wf_below_bound _ _ _ Hwf) in Hx. lia. }
  assert (Hhigh : forall x, free_in (h :: hs) x -> x < offset h + size h).
  { intros x Hx. vma_simpl. destruct Hx as [Hx|Hx]; [lia|].
    apply (wf_below_bound _ _ _ Hwf) in Hx. lia. }
  destruct (Z_le_gt_dec (offset h) a).
  - left. split; [lia|].
    specialize (Hhigh (a + sz - 1) (Hrun (a + sz - 1) ltac:(unfold in_block; lia))). lia.
  - right. intros x Hx.
    assert (x < offset h).
    { destruct (Z_lt_ge_dec x (offset h)); [lia|].
      exfalso. apply (Hlow (offset h - 1)); [|reflexivity].
      apply Hrun. unfold in_block in *. lia. }
    specialize (Hrun x Hx). vma_simpl. destruct Hrun; [lia|assumption].
Qed.

(** Two well-formed lists with the same free addresses are equal: the
    representation is canonical. *)
Lemma wf_canonical hs1 hs2 b1 b2 :
  wf_below b1 hs1 -> wf_below b2 hs2 ->
  (forall a, free_in hs1 a <-> free_in hs2 a) -> hs1 = hs2.
Proof.
  revert hs2 b1 b2.
  induction hs1 as [|[o1 s1] hs1 IH]; intros [|[o2 s2] hs2] b1 b2 H1 H2 Heq;
    [reflexivity | | |].
  - exfalso. specialize (Heq o2). vma_simpl. lia.
  - exfalso. specialize (Heq o1). vma_simpl. lia.
  - destruct H1 as (? & ? & ? & H1), H2 as (? & ? & ? & H2); simpl in *.
    assert (B1 : forall a, free_in hs1 a -> a < o1 - 1)
      by (intros a Ha; apply (wf_below_bound _ _ _ H1) in Ha; lia).
    assert (B2 : forall a, free_in hs2 a -> a < o2 - 1)
      by (intros a Ha; apply (wf_below_bound _ _ _ H2) in Ha; lia).
    assert (Hs : forall a, (o1 <= a < o1 + s1 \/ free_in hs1 a) <->
                           (o2 <= a < o2 + s2 \/ free_in hs2 a))
      by (intros a; specialize (Heq a); vma_simpl; exact Heq).
    assert (o1 + s1 <= o2 + s2)
      by (destruct (proj1 (Hs (o1 + s1 - 1))) as [?|Hf]; [lia | lia | apply B2 in Hf; lia]).
    assert (o2 + s2 <= o1 + s1)
      by (destruct (proj2 (Hs (o2 + s2 - 1))) as [?|Hf]; [lia | lia | apply B1 in Hf; lia]).
    assert (o1 <= o2)
      by (destruct (Z_le_gt_dec o1 o2) as [?|?]; [lia|];
          destruct (proj2 (Hs (o1 - 1))) as [?|Hf]; [lia | lia | apply B1 in Hf; lia]).
    assert (o2 <= o1)
      by (destruct (Z_le_gt_dec o2 o1) as [?|?]; [lia|];
          destruct (proj1 (Hs (o2 - 1))) as [?|Hf]; [lia | lia | apply B2 in Hf; lia]).
    assert (o2 = o1) by lia.
    subst o2. f_equal; [f_equal; lia|].
    apply (IH hs2 o1 o1 H1 H2). intros a. specialize (Hs a).
    split; intros Ha.
    + pose proof (B1 _ Ha). intuition lia.
    + pose proof (B2 _ Ha). intuition lia.
Qed.

(** Equality of lists of holes, down to equations between integers. *)
Ltac hole_eq :=
  match goal with
  | |- @eq (list util_vma_hole) _ _ => apply f_equal2
  | |- @eq util_vma_hole _ _ => apply f_equal2
  end.

(** ** Allocation *)

(** All of the block is free. *)
Definition block_free (hs : list util_vma_hole) (off sz : Z) : Prop :=
  forall x, in_block off sz x -> free_in hs x.

(** What taking the block out of a list of holes leaves. *)
Definition carved (b : Z) (hs hs' : list util_vma_hole) (off sz : Z) : Prop :=
  wf_below b hs' /\ 0 < off /\ block_free hs off sz /\
  forall a, free_in hs' a <-> free_in hs a /\ ~ in_block off sz a.

Lemma carved_skip b h hs hs' off sz :
  wf_below b (h :: hs) -> carved (offset h) hs hs' off sz ->
  carved b (h :: hs) (h :: hs') off sz.
Proof.
  intros (? & ? & ? & Hwf) (Hwf' & ? & Hfree & Heq).
  split; [now simpl|]. split; [assumption|]. split.
  - intros x Hx. apply free_in_cons. auto.
  - intros a. rewrite !free_in_cons, Heq. split; [|tauto].
    intros [Ha|[Ha Hn]]; [|tauto]. split; [tauto|]. intros Hin.
    apply Hfree, (wf_below_bound _ _ _ Hwf) in Hin. unfold in_hole in Ha. lia.
Qed.

(** Splitting a hole around the block: the part above it, the block, and the
    part below it; an empty part leaves no hole. *)
Lemma carved_here b h hs off sz parts :
  wf_below b (h :: hs) -> 0 < sz -> offset h <= off ->
  off + sz <= offset h + size h ->
  parts = (if decide (off + sz = offset h + size h) then []
           else [Hole (off + sz) (offset h + size h - (off + sz))]) ++
          (if decide (off = offset h) then [] else [Hole (offset h) (off - offset h)]) ->
  carved b (h :: hs) (parts ++ hs) off sz.
Proof.
  intros (Ho & Hs & Hb & Hwf) Hsz Hlo Hhi ->.
  assert (Hlow : forall a, free_in hs a -> a < offset h - 1)
    by (intros a Ha; apply (wf_below_bound _ _ _ Hwf) in Ha; lia).
  unfold carved, block_free. split; [|split; [lia|split]].
  - repeat case_decide; simpl; repeat split; try lia; auto;
      eapply wf_below_mono; eauto; lia.
  - intros x Hx. vma_simpl. lia.
  - intros a. specialize (Hlow a).
    repeat case_decide; vma_simpl; intuition lia.
Qed.

Lemma aligned_down_max x al a :
  0 < al -> a mod al = 0 -> a <= x -> a <= x / al * al.
Proof.
  intros Hal Ha Hle. rewrite (Z_div_exact_full_2 a al) by lia.
  rewrite (Z.mul_comm al). apply Z.mul_le_mono_nonneg_r; [lia|].
  now apply Z.div_le_mono.
Qed.

(** What the allocation loop promises: either no aligned block of the
    requested size is free, or one has been taken out. *)
Definition alloc_ok (b : Z) (hs : list util_vma_hole) (sz al : Z)
    (r : outcome (option (list util_vma_hole * Z))) : Prop :=
  (r = Ret None /\ forall a, a mod al = 0 -> ~ block_free hs a sz) \/
  (exists hs' off, r = Ret (Some (hs', off)) /\
                   off mod al = 0 /\ carved b hs hs' off sz).

Lemma alloc_continue b h hs sz al r :
  wf_below b (h :: hs) -> 0 < sz ->
  (forall a, a mod al = 0 -> offset h <= a -> ~ a + sz <= offset h + size h) ->
  alloc_ok (offset h) hs sz al r ->
  alloc_ok b (h :: hs) sz al
    (let! r := r in
     Ret (match r with
          | Some (rest', off) => Some (h :: rest', off)
          | None => None
          end)).
Proof.
  intros Hwf Hsz Hno [[-> Hn]|(hs' & off & -> & Hoff & Hc)]; simpl.
  - left. split; [reflexivity|]. intros a Ha Hf.
    destruct (run_split _ _ _ _ _ Hwf Hsz Hf) as [[? ?]|?];
      [eapply Hno | eapply Hn]; eauto.
  - right. exists (h :: hs'), off. eauto using carved_skip.
Qed.

Lemma alloc_loop_spec hs b sz al :
  wf_below b hs -> b <= 2 ^ 64 + 1 -> 0 < sz < 2 ^ 64 -> 0 < al < 2 ^ 64 ->
  alloc_ok b hs sz al (alloc_loop hs sz al).
Proof.
  revert b. induction hs as [|h hs IH]; intros b Hwf Hb Hsz Hal.
  { left. split; [reflexivity|]. intros a _ Hf.
    apply (free_in_nil a), Hf. unfold in_block. lia. }
  pose proof Hwf as (Ho & Hs & Hhb & Hwf').
  specialize (IH _ Hwf' ltac:(lia) Hsz Hal).
  simpl. rewrite Z.gtb_ltb. destruct (Z.ltb_spec (size h) sz) as [Hbig|Hfit].
  { apply alloc_continue; auto; intros; lia. }
  rewrite (wrap_small 64 (size h - sz)) by lia.
  rewrite (wrap_small 64 (size h - sz + offset h)) by lia.
  set (top := size h - sz + offset h).
  pose proof (Z.mul_div_le top al ltac:(lia)) as Hdown. rewrite Z.mul_comm in Hdown.
  pose proof (Z.div_pos top al ltac:(unfold top; lia) ltac:(lia)).
  rewrite (wrap_small 64 (top / al * al)) by (unfold top in *; nia).
  set (off := top / al * al) in *.
  assert (off mod al = 0) by apply Z_mod_mult.
  destruct (Z.ltb_spec off (offset h)) as [Hlow|Hok].
  { apply alloc_continue; auto; try lia. intros a Ha Hle Hend.
    pose proof (aligned_down_max top al a ltac:(lia) Ha ltac:(unfold top; lia)).
    unfold off in *. lia. }
  right. rewrite (wrap_small 64 (off - offset h)) by lia.
  rewrite (wrap_small 64 (size h - sz - (off - offset h))) by lia.
  assert (Hend : off + sz <= offset h + size h) by lia.
  destruct (Z.eqb_spec off (offset h)), (Z.eqb_spec sz (size h)); simpl;
    rewrite ?c_assert_true by (apply Z.leb_le; lia);
    repeat zcase; try lia; do 2 eexists; (split; [reflexivity|]; split; [assumption|]).
  - apply (carved_here b h hs off sz []); auto; try lia.
    rewrite !decide_True by lia. reflexivity.
  - apply (carved_here b h hs off sz [_]); auto; try lia.
    rewrite decide_False, decide_True by lia. cbn. rewrite wrap_small by lia.
    repeat hole_eq; reflexivity || lia.
  - apply (carved_here b h hs off sz [_]); auto; try lia.
    rewrite decide_True, decide_False by lia. cbn. repeat hole_eq; reflexivity || lia.
  - apply (carved_here b h hs off sz [_; _]); auto; try lia.
    rewrite !decide_False by lia. cbn. rewrite wrap_small by lia.
    repeat hole_eq; reflexivity || lia.
Qed.

(** ** Freeing *)

Lemma find_holes_spec above hs off above' below :
  find_holes above hs off = (above', below) ->
  exists mid, above' = rev mid ++ above /\ hs = mid ++ below /\
    Forall (fun h => off < offset h) mid /\
    match below with [] => True | l :: _ => offset l <= off end.
Proof.
  revert above. induction hs as [|h hs IH]; intros above; simpl.
  - intros [= <- <-]. exists []. auto.
  - destruct (Z.leb_spec (offset h) off).
    + intros [= <- <-]. exists []. auto.
    + intros (mid & -> & -> & Hf & Hb)%IH. exists (h :: mid). simpl.
      rewrite <- app_assoc. auto using Forall_cons.
Qed.

Lemma wf_below_app b hs1 hs2 :
  wf_below b (hs1 ++ hs2) <->
  wf_below b hs1 /\
  wf_below (match last hs1 with Some h => offset h | None => b end) hs2.
Proof.
  revert b. induction hs1 as [|h hs1 IH]; intros b; [simpl; tauto|].
  cbn [app wf_below]. rewrite IH, last_cons. destruct (last hs1); tauto.
Qed.

(** What giving the block back adds to the list of holes. *)
Definition returned (hs hs' : list util_vma_hole) (off sz : Z) : Prop :=
  wf_below (2 ^ 64 + 1) hs' /\
  forall a, free_in hs' a <-> free_in hs a \/ in_block off sz a.

(** Only the holes next to the block change. *)
Lemma returned_suffix pre hs hs' off sz :
  wf_below (2 ^ 64 + 1) (pre ++ hs) ->
  (forall b, wf_below b hs -> wf_below b hs' /\
     forall a, free_in hs' a <-> free_in hs a \/ in_block off sz a) ->
  returned (pre ++ hs) (pre ++ hs') off sz.
Proof.
  intros [Hpre Hhs]%wf_below_app Hloc. destruct (Hloc _ Hhs) as [Hwf Heq].
  split; [now apply wf_below_app|].
  intros a. rewrite !free_in_app, Heq. tauto.
Qed.

(** A step of the case analysis on the neighbours: the local change of the
    list is arithmetic on the bounds. *)
Ltac vma_local :=
  let b := fresh "b" in let Hb := fresh "Hb" in intros b Hb;
  cbn [wf_below app offset size] in *;
  split; [intuition (try lia; eauto using wf_below_mono with lia)
         | intros a; vma_simpl; intuition lia].

Lemma wf_below_Forall b hs :
  wf_below b hs ->
  Forall (fun h => 0 < offset h /\ 0 < size h /\ offset h + size h < b) hs.
Proof.
  revert b. induction hs as [|h hs IH]; intros b; simpl; constructor; [tauto|].
  apply (Forall_impl _ _ _ (IH (offset h) ltac:(tauto))). intros; lia.
Qed.

(** The neighbours of a block that is not free lie beside it. *)
Lemma neighbours_disjoint b hs off sz :
  wf_below b hs -> 0 < sz -> (forall a, in_block off sz a -> ~ free_in hs a) ->
  Forall (fun h => 0 < offset h /\ 0 < size h /\ offset h + size h < b /\
                   (off < offset h -> off + sz <= offset h) /\
                   (offset h <= off -> offset h + size h <= off)) hs.
Proof.
  intros Hwf Hsz Hdisj. apply wf_below_Forall in Hwf.
  rewrite Forall_forall in *. intros h Hin. destruct (Hwf _ Hin) as (? & ? & ?).
  repeat split; auto; intros Hlt; apply Z.nlt_ge; intros Hgt.
  - apply (Hdisj (offset h)); [unfold in_block; lia|].
    apply Exists_exists. exists h. unfold in_hole. split; [assumption|lia].
  - apply (Hdisj off); [unfold in_block; lia|].
    apply Exists_exists. exists h. unfold in_hole. split; [assumption|lia].
Qed.

(** The facts about the neighbours that the search establishes. *)
Definition beside (off sz : Z) (high low : option util_vma_hole) : Prop :=
  (forall h, high = Some h -> 0 < size h /\ offset h + size h <= 2 ^ 64 /\
                              off < offset h /\ off + sz <= offset h) /\
  (forall l, low = Some l -> 0 < offset l /\ 0 < size l /\
                             offset l <= off /\ offset l + size l <= off).

Lemma free_holes_returned above below off sz :
  wf_below (2 ^ 64 + 1) (rev above ++ below) ->
  0 < off -> 0 < sz -> off + sz <= 2 ^ 64 ->
  beside off sz (head above) (head below) ->
  returned (rev above ++ below)
    (free_holes above below off sz
       (match head below with Some l => offset l + size l =? off | None => false end)
       (match head above with Some h => off + sz =? offset h | None => false end))
    off sz.
Proof.
  intros Hwf Hoff Hsz Hend [Hh Hl].
  destruct above as [|h above], below as [|l below]; cbn [head rev] in *;
    try specialize (Hh _ eq_refl); try specialize (Hl _ eq_refl);
    rewrite <- ?app_assoc in *; cbn [app] in *; unfold free_holes; cbn [rev].
  - split; [simpl; lia|]. intros a. vma_simpl. tauto.
  - zcase; (split; [simpl in *; rewrite ?wrap_small by lia; intuition lia|]);
      intros a; vma_simpl; rewrite ?wrap_small by lia; intuition lia.
  - zcase; rewrite <- ?app_assoc; cbn [app]; apply returned_suffix; try assumption;
      rewrite ?wrap_small by lia; vma_local.
  - repeat zcase; cbn [andb]; rewrite <- ?app_assoc; cbn [app];
      apply returned_suffix; try assumption;
      rewrite ?(wrap_small 64 (sz + size h)), ?wrap_small by lia; vma_local.
Qed.

(** A block that ends at or below 2^64 passes the wrap-around assertion. *)
Lemma block_end_ok off sz :
  0 < off -> 0 < sz -> off + sz <= 2 ^ 64 ->
  (u64 (off + sz) =? 0) || (u64 (off + sz) >? off) = true.
Proof.
  intros. destruct (Z.eq_dec (off + sz) (2 ^ 64)) as [->|]; [reflexivity|].
  rewrite wrap_small, orb_true_iff, Z.gtb_lt by lia. lia.
Qed.

Lemma util_vma_heap_free_spec heap off sz :
  heap_wf heap -> 0 < off -> 0 < sz -> off + sz <= 2 ^ 64 ->
  (forall a, in_block off sz a -> ~ free_addr heap a) ->
  exists heap', util_vma_heap_free heap off sz = Ret heap' /\
                returned (holes heap) (holes heap') off sz.
Proof.
  intros Hwf Hoff Hsz Hend Hdisj. unfold util_vma_heap_free.
  rewrite (heap_wf_validate _ Hwf). unfold heap_wf, free_addr in *.
  destruct (find_holes [] (holes heap) off) as [above below] eqn:Hfind.
  apply find_holes_spec in Hfind as (mid & Habove & Hhs & Hmid & Hbelow).
  rewrite app_nil_r in Habove. rewrite Hhs in *.
  pose proof (neighbours_disjoint _ _ _ _ Hwf Hsz Hdisj) as [Hhi Hlo]%Forall_app.
  assert (Hmid' : mid = rev above) by (rewrite Habove; symmetry; apply rev_involutive).
  clear Habove Hhs. subst mid.
  assert (Hb : beside off sz (head above) (head below)).
  { split.
    - intros h Hh. destruct above as [|h' above]; [discriminate|]. injection Hh as ->.
      simpl in *. apply Forall_app in Hmid as [_ Hmid], Hhi as [_ Hhi].
      apply Forall_cons in Hmid as [? _], Hhi as [? _]. intuition lia.
    - intros l Hl. destruct below as [|l' below]; [discriminate|]. injection Hl as ->.
      apply Forall_cons in Hlo as [? _]. intuition lia. }
  pose proof (free_holes_returned _ _ _ _ Hwf Hoff Hsz Hend Hb) as Hret.
  destruct Hb as [Hh Hl].
  eexists (Heap _). split; [|exact Hret].
  rewrite !(c_assert_true (_ >? 0)) by (apply Z.gtb_lt; lia).
  rewrite (c_assert_true (_ || _)) by now apply block_end_ok.
  rewrite (c_assert_true true) by reflexivity.
  destruct (head above) as [h|]; [specialize (Hh _ eq_refl)|];
    (destruct (head below) as [l|]; [specialize (Hl _ eq_refl)|]);
    rewrite ?(wrap_small 64 (off + sz)), ?(wrap_small 64 (offset l + size l)) by lia;
    rewrite !c_assert_true; try reflexivity; try (apply heap_wf_validate, Hret);
    rewrite ?andb_true_iff, ?Z.gtb_lt, ?Z.leb_le; lia.
Qed.

(** ** The contract of the allocator *)

Lemma util_vma_heap_alloc_spec heap sz al :
  heap_wf heap -> 0 < sz < 2 ^ 64 -> 0 < al < 2 ^ 64 ->
  exists heap' off,
    util_vma_heap_alloc heap sz al = Ret (heap', off) /\ heap_wf heap' /\
    ((off = 0 /\ heap' = heap /\
      forall a, a mod al = 0 ->
        ~ (forall x, in_block a sz x -> free_addr heap x)) \/
     (0 < off /\ off + sz <= 2 ^ 64 /\ off mod al = 0 /\
      (forall x, in_block off sz x -> free_addr heap x) /\
      forall x, free_addr heap' x <-> free_addr heap x /\ ~ in_block off sz x)).
Proof.
  intros Hwf Hsz Hal. unfold util_vma_heap_alloc.
  rewrite !(c_assert_true (_ >? 0)) by (apply Z.gtb_lt; lia).
  rewrite (c_assert_true (util_vma_heap_validate heap)) by now apply heap_wf_validate.
  destruct (alloc_loop_spec _ _ _ _ Hwf ltac:(reflexivity) Hsz Hal)
    as [[-> Hno]|(hs' & off & -> & Hmod & Hwf' & Hoff & Hfree & Heq)]; simpl.
  - exists heap, 0. auto 6.
  - exists (Heap hs'), off. rewrite c_assert_true by now apply heap_wf_validate.
    split; [reflexivity|]. split; [assumption|]. right. split; [assumption|].
    split; [|auto].
    assert (Hlast : in_block off sz (off + sz - 1)) by (unfold in_block; lia).
    apply Hfree, (wf_below_bound _ _ _ Hwf) in Hlast. lia.
Qed.

(** C18: on a well-formed heap, [util_vma_heap_alloc] passes all its
    assertions and keeps the heap well-formed.  It returns 0, the heap
    unchanged, exactly when no aligned run of [sz] free addresses exists;
    otherwise it returns the aligned start of a block that was free, lies
    below 2^64, and is the only thing removed from the free addresses. *)
Theorem util_vma_heap_alloc_correct heap sz al :
  heap_wf heap -> 0 < sz < 2 ^ 64 -> 0 < al < 2 ^ 64 ->
  exists heap' off,
    util_vma_heap_alloc heap sz al = Ret (heap', off) /\ heap_wf heap' /\
    ((off = 0 /\ heap' = heap /\
      forall a, a mod al = 0 ->
        ~ (forall x, in_block a sz x -> free_addr heap x)) \/
     (0 < off /\ off + sz <= 2 ^ 64 /\ off mod al = 0 /\
      (forall x, in_block off sz x -> free_addr heap x) /\
      forall x, free_addr heap' x <-> free_addr heap x /\ ~ in_block off sz x)).
Proof. apply util_vma_heap_alloc_spec. Qed.

Lemma util_vma_heap_alloc_correct_witness :
  heap_wf (Heap [Hole 4096 8192]) /\
  exists heap' off,
    util_vma_heap_alloc (Heap [Hole 4096 8192]) 100 64 = Ret (heap', off) /\
    heap_wf heap'.
Proof.
  assert (H : heap_wf (Heap [Hole 4096 8192])) by (cbv; intuition congruence).
  split; [exact H|].
  destruct (util_vma_heap_alloc_correct (Heap [Hole 4096 8192]) 100 64 H
              ltac:(lia) ltac:(lia)) as (h & o & E & W & _).
  exists h, o. split; assumption.
Defined.

(** C19: giving back a block none of whose addresses is free passes all
    assertions, merges as needed to keep the heap well-formed, and adds
    exactly the block to the free addresses. *)
Theorem util_vma_heap_free_correct heap off sz :
  heap_wf heap -> 0 < off -> 0 < sz -> off + sz <= 2 ^ 64 ->
  (forall a, in_block off sz a -> ~ free_addr heap a) ->
  exists heap', util_vma_heap_free heap off sz = Ret heap' /\ heap_wf heap' /\
    forall a, free_addr heap' a <-> free_addr heap a \/ in_block off sz a.
Proof.
  intros Hwf Hoff Hsz Hend Hdisj.
  destruct (util_vma_heap_free_spec _ _ _ Hwf Hoff Hsz Hend Hdisj)
    as (heap' & -> & Hwf' & Heq). eauto.
Qed.

Lemma util_vma_heap_free_correct_witness :
  exists heap', util_vma_heap_free (Heap [Hole 8192 100; Hole 4096 64]) 4160 4032 = Ret heap' /\
    heap_wf heap'.
Proof.
  destruct (util_vma_heap_free_correct (Heap [Hole 8192 100; Hole 4096 64]) 4160 4032)
    as (h & E & W & _).
  - cbv; intuition congruence.
  - lia.
  - lia.
  - lia.
  - intros a Ha Hf. unfold free_addr in Hf. cbn [holes] in Hf. vma_simpl. lia.
  - exists h. split; assumption.
Defined.

(** A block that was allocated can be freed again, and that restores the
    very list of holes the heap had before. *)
Theorem vma_alloc_free_roundtrip heap sz al heap' off :
  heap_wf heap -> 0 < sz < 2 ^ 64 -> 0 < al < 2 ^ 64 ->
  util_vma_heap_alloc heap sz al = Ret (heap', off) -> off <> 0 ->
  util_vma_heap_free heap' off sz = Ret heap.
Proof.
  intros Hwf Hsz Hal Halloc Hne. unfold util_vma_heap_alloc in Halloc.
  rewrite !(c_assert_true (_ >? 0)) in Halloc by (apply Z.gtb_lt; lia).
  rewrite (heap_wf_validate _ Hwf) in Halloc. cbn [c_assert] in Halloc.
  destruct (alloc_loop_spec _ _ _ _ Hwf ltac:(reflexivity) Hsz Hal)
    as [[E _]|(hs1 & off1 & E & _ & Hwf1 & Hoff & Hfree & Heq)];
    rewrite E in Halloc; simpl in Halloc; [congruence|].
  apply c_assert_Ret in Halloc as [_ [= <- ->]].
  assert (Hend : off + sz <= 2 ^ 64).
  { assert (Hlast : in_block off sz (off + sz - 1)) by (unfold in_block; lia).
    apply Hfree, (wf_below_bound _ _ _ Hwf) in Hlast. lia. }
  destruct (util_vma_heap_free_spec (Heap hs1) off sz Hwf1 Hoff (proj1 Hsz) Hend)
    as ([hs2] & -> & Hwf2 & Heq2).
  { intros a Ha. unfold free_addr. simpl. rewrite Heq. tauto. }
  destruct heap as [hs]. do 2 f_equal. eapply wf_canonical; [exact Hwf2 | exact Hwf |].
  intros a. simpl in *. rewrite Heq2, Heq. unfold block_free in Hfree.
  specialize (Hfree a). split; [tauto|].
  unfold in_block in *. destruct (Z_lt_ge_dec a off), (Z_lt_ge_dec a (off + sz)); intuition lia.
Qed.

Lemma vma_alloc_free_roundtrip_witness :
  util_vma_heap_free (Heap [Hole 12260 28; Hole 4096 8064]) 12160 100
  = Ret (Heap [Hole 4096 8192]).
Proof.
  apply (vma_alloc_free_roundtrip (Heap [Hole 4096 8192]) 100 128).
  - cbv; intuition congruence.
  - lia.
  - lia.
  - vm_compute. reflexivity.
  - lia.
Defined.

(** ** Clients of the allocator

    A client holds a heap and the list of the blocks it has been given and
    not yet returned. *)
Definition client := (util_vma_heap * list (Z * Z))%type.

Inductive client_step : client -> client -> Prop :=
| step_alloc heap live sz al heap' off :
    0 < sz < 2 ^ 64 -> 0 < al < 2 ^ 64 ->
    util_vma_heap_alloc heap sz al = Ret (heap', off) -> off <> 0 ->
    client_step (heap, live) (heap', (off, sz) :: live)
| step_alloc_fail heap live sz al heap' :
    0 < sz < 2 ^ 64 -> 0 < al < 2 ^ 64 ->
    util_vma_heap_alloc heap sz al = Ret (heap', 0) ->
    client_step (heap, live) (heap', live)
| step_free heap live1 off sz live2 heap' :
    util_vma_heap_free heap off sz = Ret heap' ->
    client_step (heap, live1 ++ (off, sz) :: live2) (heap', live1 ++ live2).

#[export] Instance in_block_dec off sz a : Decision (in_block off sz a).
Proof. unfold in_block. apply _. Defined.

#[export] Instance free_addr_dec heap a : Decision (free_addr heap a).
Proof. unfold free_addr, free_in, in_hole. apply _. Defined.

(** How many owners an address has: the free list, and each live block that
    contains it. *)
Definition owners (heap : util_vma_heap) (live : list (Z * Z)) (a : Z) : nat :=
  ((if decide (free_addr heap a) then 1 else 0) +
   length (filter (fun b => in_block b.1 b.2 a) live))%nat.

(** Every address of the managed range has one owner, every other address
    has none. *)
Definition client_ok (start total : Z) (c : client) : Prop :=
  heap_wf c.1 /\
  Forall (fun b => 0 < b.1 /\ 0 < b.2 /\ b.1 + b.2 <= 2 ^ 64) c.2 /\
  forall a, owners c.1 c.2 a = if decide (in_block start total a) then 1%nat else 0%nat.

Lemma owners_free_move heap heap' live1 live2 off sz a :
  (free_addr heap' a <-> free_addr heap a \/ in_block off sz a) ->
  (in_block off sz a -> ~ free_addr heap a) ->
  owners heap' (live1 ++ live2) a = owners heap (live1 ++ (off, sz) :: live2) a.
Proof.
  intros Heq Hdisj. unfold owners. rewrite !filter_app, filter_cons, !length_app. simpl.
  repeat case_decide; simpl; lia || tauto.
Qed.

Lemma live_not_free start total heap live off sz a :
  client_ok start total (heap, live) -> In (off, sz) live ->
  in_block off sz a -> ~ free_addr heap a.
Proof.
  intros (_ & _ & Hown) (l1 & l2 & ->)%in_split Hin Hfree. specialize (Hown a).
  unfold owners in Hown. cbn [fst snd] in Hown.
  rewrite filter_app, filter_cons, length_app, decide_True in Hown by assumption.
  cbn [fst snd] in Hown. rewrite decide_True in Hown by assumption.
  simpl in Hown. case_decide; lia.
Qed.

Lemma client_step_ok start total c c' :
  client_step c c' -> client_ok start total c -> client_ok start total c'.
Proof.
  intros Hstep Hok. pose proof Hok as (Hwf & Hlive & Hown).
  destruct Hstep as [heap live sz al heap' off Hsz Hal E Hne
                    |heap live sz al heap' Hsz Hal E
                    |heap l1 off sz l2 heap' E]; cbn [fst snd] in *.
  - destruct (util_vma_heap_alloc_spec heap sz al Hwf Hsz Hal)
      as (h & o & E' & Hwf' & [(-> & _)|(Hoff & Hend & _ & Hfree & Heq)]);
      rewrite E in E'; injection E' as -> ->; [congruence|].
    split; [assumption|]. split; [constructor; [simpl; lia|assumption]|].
    intros a. rewrite <- Hown. simpl.
    symmetry. apply (owners_free_move h heap [] live).
    + rewrite Heq. specialize (Hfree a). unfold in_block in *.
      destruct (Z_lt_ge_dec a o), (Z_lt_ge_dec a (o + sz)); intuition lia.
    + rewrite Heq. tauto.
  - destruct (util_vma_heap_alloc_spec heap sz al Hwf Hsz Hal)
      as (h & o & E' & Hwf' & [(-> & -> & _)|(Hoff & _)]);
      rewrite E in E'; injection E' as ->; [assumption|lia].
  - pose proof Hlive as [H1 [(Hoff & Hsz & Hend) H2]%Forall_cons]%Forall_app.
    cbn [fst snd] in *.
    assert (Hnf : forall a, in_block off sz a -> ~ free_addr heap a).
    { intros a. eapply live_not_free; [exact Hok|]. apply in_elt. }
    destruct (util_vma_heap_free_spec _ _ _ Hwf Hoff Hsz Hend Hnf)
      as (h & E' & Hwf' & Heq). rewrite E in E'. injection E' as <-.
    split; [assumption|]. split; [now apply Forall_app|].
    intros a. rewrite <- Hown. simpl. apply owners_free_move; [apply Heq | apply Hnf].
Qed.

Lemma client_init_ok start total heap :
  0 < start -> 0 < total -> start + total <= 2 ^ 64 ->
  util_vma_heap_init start total = Ret heap -> client_ok start total (heap, []).
Proof.
  intros Hs Ht He E. destruct (util_vma_heap_free_spec (Heap []) start total)
    as (h & E' & Hwf' & Heq); try assumption; [exact I| |].
  { intros a _. unfold free_addr. simpl. now rewrite free_in_nil. }
  unfold util_vma_heap_init in E. rewrite E in E'. injection E' as <-.
  split; [assumption|]. split; [constructor|].
  intros a. unfold owners. simpl. specialize (Heq a). cbn [holes] in Heq.
  rewrite free_in_nil in Heq. unfold free_addr.
  repeat case_decide; tauto.
Qed.

(** C11: starting from a fresh heap over [start, start + total), in every state
    that any sequence of allocations and frees of live blocks can reach, each
    address of the range is either free or inside exactly one live block
    (never both, and never in two blocks), and no other address is handed
    out.  Moreover every live block can be freed without tripping an
    assertion. *)
Theorem vma_clients_never_overlap start total heap c :
  0 < start -> 0 < total -> start + total <= 2 ^ 64 ->
  util_vma_heap_init start total = Ret heap ->
  star client_step (heap, []) c ->
  (forall a, owners c.1 c.2 a = if decide (in_block start total a) then 1%nat else 0%nat) /\
  (forall off sz, In (off, sz) c.2 -> exists heap', util_vma_heap_free c.1 off sz = Ret heap').
Proof.
  intros Hs Ht He E Hstar.
  assert (Hok : client_ok start total c).
  { eapply star_invariant; [apply client_step_ok | exact Hstar | now apply client_init_ok]. }
  split; [apply Hok|]. intros off sz Hin. destruct c as [h live]; cbn [fst snd] in *.
  pose proof Hok as (Hwf & Hlive & _). rewrite List.Forall_forall in Hlive.
  destruct (Hlive _ Hin) as (? & ? & ?).
  destruct (util_vma_heap_free_spec h off sz Hwf) as (h' & E' & _); eauto.
  intros a. eapply live_not_free; eauto.
Qed.

Lemma vma_clients_never_overlap_witness :
  owners (Heap [Hole 12260 28; Hole 4096 8064]) [(12160, 100)] 12200 = 1%nat.
Proof.
  destruct (vma_clients_never_overlap 4096 8192 (Heap [Hole 4096 8192])
              (Heap [Hole 12260 28; Hole 4096 8064], [(12160, 100)])) as [H _].
  - lia.
  - lia.
  - lia.
  - vm_compute. reflexivity.
  - eapply star_step; [|apply star_refl].
    apply (step_alloc _ [] 100 128); [lia | lia | vm_compute; reflexivity | lia].
  - apply (H 12200).
Defined.
