(* ===== verification/FastIdiv.v ===== *)
(** * Division by constants: [src/util/fast_idiv_by_const.c]

    [util_compute_fast_udiv_info] and [util_compute_fast_sdiv_info] compute
    the "magic" multiplier and shifts that replace a division by a constant;
    [util_fast_udiv32] and its variants (in the header) apply them.  All
    [uint64_t] arithmetic of the source is written with its wrap-around; the
    loops run on fuel, and the theorems show that the fuel suffices. *)

From Stdlib Require Import Bool ZArith Lia Znumtheory Zpow_facts.
From S2P Require Import Prelude.
#[local] Open Scope bool_scope.
#[local] Open Scope Z_scope.
#[local] Open Scope c_scope.

(** ** Helpers from [bitscan.h] and [u_math.h] *)

Definition util_is_power_of_two_or_zero64 (v : Z) : bool :=
  Z.land v (u64 (v - 1)) =? 0.

(** The portable branch of [util_logbase2_64]. *)
Definition util_logbase2_64 (n : Z) : Z :=
  let pos := 0 in
  let '(n, pos) := if n >=? Z.shiftl 1 32 then (Z.shiftr n 32, pos + 32) else (n, pos) in
  let '(n, pos) := if n >=? Z.shiftl 1 16 then (Z.shiftr n 16, pos + 16) else (n, pos) in
  let '(n, pos) := if n >=? Z.shiftl 1 8 then (Z.shiftr n 8, pos + 8) else (n, pos) in
  let '(n, pos) := if n >=? Z.shiftl 1 4 then (Z.shiftr n 4, pos + 4) else (n, pos) in
  let '(n, pos) := if n >=? Z.shiftl 1 2 then (Z.shiftr n 2, pos + 2) else (n, pos) in
  if n >=? Z.shiftl 1 1 then pos + 1 else pos.

(** ** Unsigned division *)

Record util_fast_udiv_info := UdivInfo {
  multiplier : Z;   (* uint64_t *)
  pre_shift : Z;    (* unsigned *)
  post_shift : Z;   (* unsigned *)
  increment : Z     (* int, 0 or 1 *)
}.

(** [for (tmp = D; tmp > 0; tmp >>= 1) ceil_log_2_D += 1;] *)
Fixpoint bit_length_loop (fuel : nat) (tmp ceil_log_2_D : Z) : outcome Z :=
  if tmp >? 0 then
    match fuel with
    | O => Out_of_fuel
    | S fuel => bit_length_loop fuel (Z.shiftr tmp 1) (ceil_log_2_D + 1)
    end
  else Ret ceil_log_2_D.

(** The variables of the search loop of [util_compute_fast_udiv_info]. *)
Record search := Search {
  exponent : Z;
  quotient : Z;
  remainder : Z;
  down_multiplier : Z;
  down_exponent : Z;
  has_magic_down : bool
}.

(** [for (exponent = 0; ; exponent++) { ... }] *)
Fixpoint udiv_loop (fuel : nat) (D extra_shift ceil_log_2_D : Z) (s : search)
    : outcome search :=
  match fuel with
  | O => Out_of_fuel
  | S fuel =>
      let '(q, r) :=
        if remainder s >=? u64 (D - remainder s) then
          (u64 (u64 (quotient s * 2) + 1), u64 (u64 (remainder s * 2) - D))
        else (u64 (quotient s * 2), u64 (remainder s * 2)) in
      let e := exponent s in
      if (e + extra_shift >=? ceil_log_2_D) ||
         (u64 (D - r) <=? u64 (Z.shiftl 1 (e + extra_shift)))
      then Ret (Search e q r (down_multiplier s) (down_exponent s) (has_magic_down s))
      else
        let s' :=
          if negb (has_magic_down s) && (r <=? u64 (Z.shiftl 1 (e + extra_shift)))
          then Search (e + 1) q r q e true
          else Search (e + 1) q r (down_multiplier s) (down_exponent s) (has_magic_down s) in
        udiv_loop fuel D extra_shift ceil_log_2_D s'
  end.

(** [while ((shifted_D & 1) == 0) { shifted_D >>= 1; pre_shift += 1; }] *)
Fixpoint strip_zeros_loop (fuel : nat) (shifted_D pre : Z) : outcome (Z * Z) :=
  if Z.land shifted_D 1 =? 0 then
    match fuel with
    | O => Out_of_fuel
    | S fuel => strip_zeros_loop fuel (Z.shiftr shifted_D 1) (pre + 1)
    end
  else Ret (shifted_D, pre).

(** The body of [util_compute_fast_udiv_info]; [depth] bounds the nesting of
    its recursive call. *)
Fixpoint compute_fast_udiv (depth : nat) (D num_bits UINT_BITS : Z)
    : outcome util_fast_udiv_info :=
  match depth with
  | O => Out_of_fuel
  | S depth =>
  assert! ((num_bits >? 0) && (num_bits <=? UINT_BITS)) ;;
  assert! (negb (D =? 0)) ;;
  if util_is_power_of_two_or_zero64 D then
    let div_shift := util_logbase2_64 D in
    if negb (div_shift =? 0) then
      Ret (UdivInfo (u64 (Z.shiftl 1 (UINT_BITS - div_shift))) 0 0 0)
    else
      Ret (UdivInfo (if UINT_BITS =? 64 then 2 ^ 64 - 1
                     else u64 (u64 (Z.shiftl 1 UINT_BITS) - 1)) 0 0 1)
  else
  let extra_shift := u32 (UINT_BITS - num_bits) in
  let initial_power_of_2 := u64 (Z.shiftl 1 (UINT_BITS - 1)) in
  let! ceil_log_2_D := bit_length_loop 64 D 0 in
  let! s := udiv_loop 65 D extra_shift ceil_log_2_D
              (Search 0 (initial_power_of_2 / D) (initial_power_of_2 mod D) 0 0 false) in
  if exponent s <? ceil_log_2_D then
    Ret (UdivInfo (u64 (quotient s + 1)) 0 (exponent s) 0)
  else if negb (Z.land D 1 =? 0) then
    assert! (has_magic_down s) ;;
    Ret (UdivInfo (down_multiplier s) 0 (down_exponent s) 1)
  else
    let! (shifted_D, pre) := strip_zeros_loop 64 D 0 in
    let! result := compute_fast_udiv depth shifted_D (u32 (num_bits - pre)) UINT_BITS in
    assert! ((increment result =? 0) && (pre_shift result =? 0)) ;;
    Ret (UdivInfo (multiplier result) pre (post_shift result) (increment result))
  end.

(** The recursion is at most one level deep. *)
Definition util_compute_fast_udiv_info (D num_bits UINT_BITS : Z)
    : outcome util_fast_udiv_info :=
  compute_fast_udiv 2 D num_bits UINT_BITS.

(** ** Applying the magic numbers (the header's inline functions) *)

Definition util_fast_udiv32 (n : Z) (info : util_fast_udiv_info) : Z :=
  let n := Z.shiftr n (pre_shift info) in
  let n := u32 (Z.shiftr (u64 (u64 (n + increment info) * multiplier info)) 32) in
  Z.shiftr n (post_shift info).

Definition util_fast_udiv32_nuw (n : Z) (info : util_fast_udiv_info) : outcome Z :=
  assert! (negb (n =? 2 ^ 32 - 1)) ;;
  let n := Z.shiftr n (pre_shift info) in
  let n := u32 (n + increment info) in
  let n := u32 (Z.shiftr (u64 (n * multiplier info)) 32) in
  Ret (Z.shiftr n (post_shift info)).

Definition util_fast_udiv32_u31_d_not_one (n : Z) (info : util_fast_udiv_info) : outcome Z :=
  assert! (pre_shift info =? 0) ;;
  assert! (increment info =? 0) ;;
  let n := u32 (Z.shiftr (u64 (n * multiplier info)) 32) in
  Ret (Z.shiftr n (post_shift info)).

Example udiv_info_7 : util_compute_fast_udiv_info 7 32 32 = Ret (UdivInfo 1227133513 0 1 1).
Proof. vm_compute. reflexivity. Qed.

Example udiv_info_28 : util_compute_fast_udiv_info 28 32 32 = Ret (UdivInfo 613566757 2 0 0).
Proof. vm_compute. reflexivity. Qed.

(** ** Bit-level helpers *)

Lemma testbit_log2 n : 0 < n -> Z.testbit n (Z.log2 n) = true.
Proof. apply Z.bit_log2. Qed.

Lemma is_power_of_two_spec D :
  0 < D < 2 ^ 64 -> util_is_power_of_two_or_zero64 D = true <-> D = 2 ^ Z.log2 D.
Proof.
  intros HD. unfold util_is_power_of_two_or_zero64.
  rewrite (wrap_small 64 (D - 1)), Z.eqb_eq by lia.
  pose proof (Z.log2_spec D ltac:(lia)) as [Hlo Hhi].
  pose proof (Z.log2_nonneg D).
  split; intros H0.
  - destruct (Z.eq_dec D (2 ^ Z.log2 D)) as [|Hne]; [assumption|exfalso].
    assert (Hb : Z.testbit (Z.land D (D - 1)) (Z.log2 D) = true).
    { rewrite Z.land_spec, testbit_log2 by lia. simpl.
      replace (Z.log2 D) with (Z.log2 (D - 1)) by (apply Z.log2_unique; lia).
      apply testbit_log2. lia. }
    rewrite H0, Z.bits_0 in Hb. discriminate.
  - rewrite H0 at 1 2. rewrite <- Z.ones_equiv || rewrite Z.sub_1_r, <- Z.ones_equiv.
    rewrite Z.land_ones by lia. apply Z_mod_same_full.
Qed.

(** One halving step of [util_logbase2_64]. *)
Lemma log2_shiftr n k :
  0 <= k -> 2 ^ k <= n -> Z.log2 (Z.shiftr n k) + k = Z.log2 n.
Proof.
  intros Hk Hn. rewrite Z.log2_shiftr by (pose proof (Z.pow_pos_nonneg 2 k); lia).
  pose proof (Z.log2_le_mono _ _ Hn) as H. rewrite Z.log2_pow2 in H by lia. lia.
Qed.

Lemma shiftr_lt n a b : 0 <= a -> 0 <= b -> 0 <= n < 2 ^ (a + b) -> 0 <= Z.shiftr n a < 2 ^ b.
Proof.
  intros Ha Hb Hn. rewrite Z.shiftr_div_pow2 by lia. rewrite Z.pow_add_r in Hn by lia.
  pose proof (Z.pow_pos_nonneg 2 a ltac:(lia) Ha).
  split; [apply Z.div_pos; lia|]. apply Z.div_lt_upper_bound; lia.
Qed.

Lemma logbase2_step n pos k :
  0 <= k -> 0 <= n < 2 ^ (k + k) ->
  exists n' pos', (if n >=? Z.shiftl 1 k then (Z.shiftr n k, pos + k) else (n, pos)) = (n', pos') /\
    0 <= n' < 2 ^ k /\ pos' + Z.log2 n' = pos + Z.log2 n.
Proof.
  intros Hk Hn. rewrite Z.shiftl_1_l. rewrite Z.geb_leb.
  destruct (Z.leb_spec (2 ^ k) n) as [Hle|Hlt]; do 2 eexists; (split; [reflexivity|]).
  - pose proof (log2_shiftr n k Hk Hle). pose proof (shiftr_lt n k k Hk Hk Hn). lia.
  - lia.
Qed.

Lemma util_logbase2_64_log2 n : 0 <= n < 2 ^ 64 -> util_logbase2_64 n = Z.log2 n.
Proof.
  intros Hn. unfold util_logbase2_64.
  destruct (logbase2_step n 0 32 ltac:(lia) Hn) as (n1 & p1 & -> & H1 & E1).
  destruct (logbase2_step n1 p1 16 ltac:(lia) H1) as (n2 & p2 & -> & H2 & E2).
  destruct (logbase2_step n2 p2 8 ltac:(lia) H2) as (n3 & p3 & -> & H3 & E3).
  destruct (logbase2_step n3 p3 4 ltac:(lia) H3) as (n4 & p4 & -> & H4 & E4).
  destruct (logbase2_step n4 p4 2 ltac:(lia) H4) as (n5 & p5 & -> & H5 & E5).
  assert (n5 = 0 \/ n5 = 1 \/ n5 = 2 \/ n5 = 3) as C by lia.
  destruct C as [-> | [-> | [-> | ->]]]; simpl in *; lia.
Qed.

Lemma shiftr_1_lt n (fuel : nat) :
  0 <= n < 2 ^ Z.of_nat (S fuel) -> 0 <= Z.shiftr n 1 < 2 ^ Z.of_nat fuel.
Proof.
  intros Hn. rewrite Nat2Z.inj_succ, <- Z.add_1_l in Hn.
  apply shiftr_lt; try assumption; lia.
Qed.

Lemma bit_length_loop_spec fuel tmp c :
  0 <= tmp < 2 ^ Z.of_nat fuel ->
  bit_length_loop fuel tmp c = Ret (if tmp =? 0 then c else c + Z.log2 tmp + 1).
Proof.
  revert tmp c. induction fuel as [|fuel IH]; intros tmp c Ht.
  - assert (tmp = 0) as -> by (change (2 ^ Z.of_nat 0) with 1 in Ht; lia). reflexivity.
  - cbn [bit_length_loop]. rewrite Z.gtb_ltb.
    destruct (Z.ltb_spec 0 tmp) as [Hpos|Hz].
    + rewrite IH by now apply shiftr_1_lt.
      destruct (Z.eqb_spec tmp 0); [lia|]. f_equal.
      destruct (Z.eqb_spec (Z.shiftr tmp 1) 0) as [E|E].
      * rewrite Z.shiftr_div_pow2 in E by lia.
        assert (tmp = 1) as -> by (Z.div_mod_to_equations; lia). simpl. lia.
      * assert (2 <= tmp).
        { destruct (Z.eq_dec tmp 1) as [->|]; [now compute in E|lia]. }
        pose proof (log2_shiftr tmp 1). lia.
    + assert (tmp = 0) as -> by lia. reflexivity.
Qed.

Lemma land_1_odd x : Z.land x 1 = x mod 2.
Proof. change 1 with (Z.ones 1) at 1. now rewrite Z.land_ones by lia. Qed.

Lemma strip_zeros_loop_spec fuel D pre :
  0 < D < 2 ^ Z.of_nat fuel ->
  exists k odd, strip_zeros_loop fuel D pre = Ret (odd, pre + k) /\
    0 <= k /\ 0 < odd /\ odd mod 2 = 1 /\ D = odd * 2 ^ k.
Proof.
  revert D pre. induction fuel as [|fuel IH]; intros D pre HD.
  - change (2 ^ Z.of_nat 0) with 1 in HD. lia.
  - cbn [strip_zeros_loop]. rewrite land_1_odd.
    destruct (Z.eqb_spec (D mod 2) 0) as [E|E].
    + assert (Hd : D = 2 * Z.shiftr D 1).
      { rewrite Z.shiftr_div_pow2 by lia. Z.div_mod_to_equations. lia. }
      pose proof (shiftr_1_lt D fuel ltac:(lia)).
      destruct (IH (Z.shiftr D 1) (pre + 1) ltac:(lia)) as (k & o & -> & Hk & Ho & Hodd & Hs).
      exists (k + 1), o. split; [do 2 f_equal; lia|]. rewrite Z.pow_add_r by lia. lia.
    + exists 0, D. rewrite Z.add_0_r, Z.mul_1_r. pose proof (Z.mod_pos_bound D 2). auto with lia.
Qed.

(** ** The arithmetic of round-up and round-down multipliers *)

(** The quotient of a product is fixed by two bounds. *)
Lemma div_between x y k : 0 < y -> y * k <= x < y * (k + 1) -> x / y = k.
Proof. intros Hy Hb. symmetry. apply (Z.div_unique_pos x y k (x - y * k)); lia. Qed.

Lemma mul_cancel_le D a b : 0 < D -> D * a <= D * b -> a <= b.
Proof. intros. nia. Qed.

Lemma mul_cancel_lt D a b : 0 < D -> D * a < D * b -> a < b.
Proof. intros. nia. Qed.

(** [m] rounds [p / D] up by [delta / D]. *)
Lemma round_up_div p D m delta n :
  0 < p -> 0 < D -> m * D = p + delta -> 0 <= delta -> 0 <= n -> n * delta < p ->
  m * n / p = n / D.
Proof.
  intros Hp HD Hm Hdelta Hn Hsmall.
  pose proof (Z.div_mod n D ltac:(lia)) as Hdm.
  pose proof (Z.mod_pos_bound n D HD) as Hmod.
  set (k := n / D) in *. set (r := n mod D) in *.
  assert (Heq : D * (m * n) = p * n + delta * n) by nia.
  apply div_between; [assumption|]. split.
  - apply (mul_cancel_le D); [assumption|]. rewrite Heq, Hdm at 1. nia.
  - apply (mul_cancel_lt D); [assumption|]. rewrite Heq.
    assert (p * n + delta * n < p * (n + 1)) by nia.
    assert (n + 1 <= D * (k + 1)) by lia. nia.
Qed.

(** [m] rounds [p / D] down by [rem / D]; the numerator is incremented. *)
Lemma round_down_div p D m rem x :
  0 < p -> 0 < D -> m * D = p - rem -> 0 < rem -> 0 < x -> x * rem <= p ->
  m * x / p = (x - 1) / D.
Proof.
  intros Hp HD Hm Hrem Hx Hsmall.
  pose proof (Z.div_mod (x - 1) D ltac:(lia)) as Hdm.
  pose proof (Z.mod_pos_bound (x - 1) D HD) as Hmod.
  set (k := (x - 1) / D) in *. set (r := (x - 1) mod D) in *.
  assert (Heq : D * (m * x) = p * x - rem * x) by nia.
  apply div_between; [assumption|]. split.
  - apply (mul_cancel_le D); [assumption|]. rewrite Heq.
    assert (p * (x - 1) <= p * x - rem * x) by nia.
    assert (D * k <= x - 1) by lia. nia.
  - apply (mul_cancel_lt D); [assumption|]. rewrite Heq.
    assert (x <= D * (k + 1)) by lia. nia.
Qed.

(** The same multiplier without the increment, for a numerator that [D] does
    not divide. *)
Lemma round_down_div_nodiv p D m rem n :
  0 < p -> 0 < D -> m * D = p - rem -> 0 < rem -> 0 < n -> n * rem <= p ->
  n mod D <> 0 -> m * n / p = n / D.
Proof.
  intros Hp HD Hm Hrem Hn Hsmall Hnd.
  rewrite (round_down_div p D m rem n) by assumption.
  pose proof (Z.div_mod n D ltac:(lia)). pose proof (Z.mod_pos_bound n D HD).
  symmetry. apply (Z.div_unique_pos (n - 1) D (n / D) (n mod D - 1)); lia.
Qed.

Lemma shiftr_shiftr_div x a b :
  0 <= a -> 0 <= b -> Z.shiftr (Z.shiftr x a) b = x / 2 ^ (a + b).
Proof. intros. rewrite Z.shiftr_shiftr, Z.shiftr_div_pow2 by lia. reflexivity. Qed.

(** A divisor of a power of two is a power of two. *)
Lemma pow2_mod_nonzero D k : 0 < D -> 0 <= k -> D <> 2 ^ Z.log2 D -> 2 ^ k mod D <> 0.
Proof.
  intros HD Hk Hne Hz. apply Z.mod_divide in Hz; [|lia].
  destruct (Zdivide_power_2 D 2 k) as [j ->]; try assumption; try lia.
  { apply prime_alt, Z.prime_2. }
  destruct (Z_le_gt_dec 0 j).
  - rewrite Z.log2_pow2 in Hne by lia. congruence.
  - rewrite Z.pow_neg_r in HD by lia. lia.
Qed.

(** Doubling a quotient and a remainder. *)
Lemma double_quotient p D :
  0 < D -> 0 <= p ->
  2 * p / D = 2 * (p / D) + (if D <=? 2 * (p mod D) then 1 else 0) /\
  (2 * p) mod D = 2 * (p mod D) - (if D <=? 2 * (p mod D) then D else 0).
Proof.
  intros HD Hp. pose proof (Z.div_mod p D ltac:(lia)). pose proof (Z.mod_pos_bound p D HD).
  assert (Hq : 2 * p / D = 2 * (p / D) + (if D <=? 2 * (p mod D) then 1 else 0)).
  { destruct (Z.leb_spec D (2 * (p mod D))); symmetry.
    - apply (Z.div_unique_pos _ _ _ (2 * (p mod D) - D)); lia.
    - apply (Z.div_unique_pos _ _ _ (2 * (p mod D))); lia. }
  split; [exact Hq|]. rewrite Z.mod_eq, Hq by lia.
  destruct (Z.leb_spec D (2 * (p mod D))); lia.
Qed.

(** ** The search loop *)

Section UdivLoop.
Context (D W extra L : Z).
Context (HD : 0 < D < 2 ^ 64) (HW : 1 <= W) (HL : L <= 64).

(** Quotient and remainder of [2^(W+e)] by [D]. *)
Definition pow_quo (e : Z) : Z := 2 ^ (W + e) / D.
Definition pow_rem (e : Z) : Z := 2 ^ (W + e) mod D.

(** The loop's exit test. *)
Definition up_ok (e : Z) : Prop := L <= e + extra \/ D - pow_rem e <= 2 ^ (e + extra).

(** What the loop knows about the round-down multiplier before exponent [e]. *)
Definition down_ok (e : Z) (s : search) : Prop :=
  if has_magic_down s then
    0 <= down_exponent s < e /\
    down_multiplier s = u64 (pow_quo (down_exponent s)) /\
    pow_rem (down_exponent s) <= 2 ^ (down_exponent s + extra)
  else forall i, 0 <= i < e -> 2 ^ (i + extra) < pow_rem i.

(** The state before the iteration for exponent [e]. *)
Definition search_at (e : Z) (s : search) : Prop :=
  exponent s = e /\ quotient s = u64 (pow_quo (e - 1)) /\
  remainder s = pow_rem (e - 1) /\ down_ok e s.

Lemma pow_rem_range e : 0 <= pow_rem e < D.
Proof. apply Z.mod_pos_bound. lia. Qed.

Lemma search_double e s q r :
  0 <= e -> search_at e s ->
  (if remainder s >=? u64 (D - remainder s) then
     (u64 (u64 (quotient s * 2) + 1), u64 (u64 (remainder s * 2) - D))
   else (u64 (quotient s * 2), u64 (remainder s * 2))) = (q, r) ->
  q = u64 (pow_quo e) /\ r = pow_rem e.
Proof.
  intros He (_ & Hq & Hr & _) Heq.
  pose proof (pow_rem_range (e - 1)) as Hrange. rewrite Hq, Hr in Heq.
  rewrite (wrap_small 64 (D - _)), Z.geb_leb in Heq by lia.
  destruct (double_quotient (2 ^ (W + (e - 1))) D) as [E1 E2]; [lia | apply Z.pow_nonneg; lia|].
  replace (2 * 2 ^ (W + (e - 1))) with (2 ^ (W + e)) in E1, E2
    by (rewrite <- Z.pow_succ_r by lia; f_equal; lia).
  fold (pow_quo e) (pow_quo (e - 1)) (pow_rem (e - 1)) in E1.
  fold (pow_rem e) (pow_rem (e - 1)) in E2.
  destruct (Z.leb_spec (D - pow_rem (e - 1)) (pow_rem (e - 1)));
    destruct (Z.leb_spec D (2 * pow_rem (e - 1))); try lia;
    injection Heq as <- <-; rewrite E1, E2; autorewrite with wrap.
  - split; [f_equal; lia|]. rewrite wrap_small; lia.
  - split; [f_equal; lia|]. rewrite wrap_small; lia.
Qed.

Lemma udiv_loop_spec fuel e s :
  0 <= e -> search_at e s -> (Z.to_nat (L - extra - e) < fuel)%nat ->
  exists s', udiv_loop fuel D extra L s = Ret s' /\
    e <= exponent s' /\ quotient s' = u64 (pow_quo (exponent s')) /\
    up_ok (exponent s') /\ (forall i, e <= i < exponent s' -> ~ up_ok i) /\
    down_ok (exponent s') s'.
Proof.
  revert e s. induction fuel as [|fuel IH]; intros e s He Hs Hfuel; [lia|].
  cbn [udiv_loop].
  destruct (if remainder s >=? _ then _ else _) as [q r] eqn:Hqr.
  destruct (search_double e s q r He Hs Hqr) as [-> ->]. clear Hqr.
  pose proof Hs as (He' & _ & _ & Hdown). rewrite He'.
  pose proof (pow_rem_range e) as Hr.
  rewrite (wrap_small 64 (D - pow_rem e)), Z.shiftl_1_l, Z.geb_leb by lia.
  destruct (Z.leb_spec L (e + extra)) as [Hend|Hnot]; cbn [orb].
  { eexists. split; [reflexivity|]. cbn. split; [lia|]. split; [reflexivity|].
    split; [now left|]. split; [intros i Hi; lia|]. exact Hdown. }
  rewrite (wrap_small 64 (2 ^ (e + extra))) by
    (split; [apply Z.pow_nonneg | apply Z.pow_lt_mono_r]; lia).
  destruct (Z.leb_spec (D - pow_rem e) (2 ^ (e + extra))) as [Hup|Hnup].
  { eexists. split; [reflexivity|]. cbn. split; [lia|]. split; [reflexivity|].
    split; [now right|]. split; [intros i Hi; lia|]. exact Hdown. }
  match goal with |- exists s', udiv_loop _ _ _ _ ?s1 = _ /\ _ =>
    assert (Hs1 : search_at (e + 1) s1) end.
  { unfold search_at, down_ok in *.
    replace (e + 1 - 1) with e by lia.
    destruct (has_magic_down s); cbn [negb andb].
    - cbn. intuition lia.
    - destruct (Z.leb_spec (pow_rem e) (2 ^ (e + extra))); cbn; [intuition lia|].
      repeat split; try reflexivity. intros i Hi.
      destruct (Z.eq_dec i e) as [->|]; [assumption|]. apply Hdown. lia. }
  destruct (IH (e + 1) _ ltac:(lia) Hs1 ltac:(lia)) as (s' & -> & H1 & H2 & H3 & H4 & H5).
  exists s'. split; [reflexivity|]. split; [lia|]. split; [assumption|].
  split; [assumption|]. split; [|assumption].
  intros i Hi. destruct (Z.eq_dec i e) as [->|]; [|apply H4; lia].
  unfold up_ok. lia.
Qed.
End UdivLoop.

(** ** What the magic numbers promise *)

(** The instruction sequence of the header's comment, with a double-width
    product: pre-shift, increment, multiply, shift by the word size,
    post-shift. *)
Definition udiv_seq (W : Z) (info : util_fast_udiv_info) (n : Z) : Z :=
  Z.shiftr (Z.shiftr ((Z.shiftr n (pre_shift info) + increment info) * multiplier info) W)
           (post_shift info).

(** The variant whose increment saturates at the largest [W]-bit value. *)
Definition udiv_sat_seq (W : Z) (info : util_fast_udiv_info) (n : Z) : Z :=
  Z.shiftr (Z.shiftr (Z.min (Z.shiftr n (pre_shift info) + increment info) (2 ^ W - 1)
                      * multiplier info) W)
           (post_shift info).

Record udiv_ok (D N W : Z) (info : util_fast_udiv_info) : Prop := {
  ok_multiplier : 0 < multiplier info < 2 ^ W;
  ok_pre : 0 <= pre_shift info < W;
  ok_post : 0 <= post_shift info < W;
  ok_incr : increment info = 0 \/ (increment info = 1 /\ pre_shift info = 0);
  ok_seq : forall n, 0 <= n < 2 ^ N -> udiv_seq W info n = n / D;
  ok_sat : 1 < D -> forall n, 0 <= n < 2 ^ N -> udiv_sat_seq W info n = n / D;
  ok_spare : N < W -> 1 < D -> pre_shift info = 0 /\ increment info = 0
}.

(** Without an increment the two variants agree. *)
Lemma udiv_ok_no_incr D N W info :
  0 < D -> N <= W -> increment info = 0 -> 0 < multiplier info < 2 ^ W ->
  0 <= pre_shift info < W -> 0 <= post_shift info < W ->
  (N < W -> pre_shift info = 0) ->
  (forall n, 0 <= n < 2 ^ N ->
     (n / 2 ^ pre_shift info) * multiplier info / 2 ^ (W + post_shift info) = n / D) ->
  udiv_ok D N W info.
Proof.
  intros HD HN Hi Hm Hpre Hpost Hsp Hseq.
  assert (Hseq' : forall n, 0 <= n < 2 ^ N -> udiv_seq W info n = n / D).
  { intros n Hn. unfold udiv_seq. rewrite Hi, Z.add_0_r, shiftr_shiftr_div by lia.
    rewrite Z.shiftr_div_pow2 by lia. now apply Hseq. }
  split; auto. intros _ n Hn. rewrite <- (Hseq' n Hn). unfold udiv_sat_seq, udiv_seq.
  rewrite Z.min_l; [reflexivity|]. rewrite Hi, Z.shiftr_div_pow2 by lia.
  pose proof (Z.pow_le_mono_r 2 N W ltac:(lia) HN).
  pose proof (Z.pow_pos_nonneg 2 (pre_shift info) ltac:(lia) (proj1 Hpre)).
  pose proof (Z.div_le_upper_bound n (2 ^ pre_shift info) n). nia.
Qed.

Lemma non_pow2_bounds D :
  0 < D -> D <> 2 ^ Z.log2 D -> 2 ^ Z.log2 D < D < 2 ^ (Z.log2 D + 1) /\ 1 <= Z.log2 D.
Proof.
  intros HD Hne. pose proof (Z.log2_spec D HD) as [H1 H2].
  replace (Z.succ (Z.log2 D)) with (Z.log2 D + 1) in H2 by lia.
  split; [lia|]. pose proof (Z.log2_nonneg D).
  destruct (Z.eq_dec (Z.log2 D) 0) as [E|]; [|lia].
  rewrite E in *. change (2 ^ 0) with 1 in *. change (2 ^ (0 + 1)) with 2 in *. lia.
Qed.

Section UdivCases.
Context (D N W : Z).
Context (HD : 0 < D < 2 ^ W) (HW : 1 <= W <= 64) (HN : 0 < N <= W).
Context (Hnp : D <> 2 ^ Z.log2 D).

Abbreviation L := (Z.log2 D + 1).
Abbreviation quo := (pow_quo D W).
Abbreviation rem := (pow_rem D W).

(** Where the search ends. *)
Definition search_end (s : search) : Prop :=
  0 <= exponent s /\ quotient s = u64 (quo (exponent s)) /\
  up_ok D W (W - N) L (exponent s) /\
  (forall i, 0 <= i < exponent s -> ~ up_ok D W (W - N) L i) /\
  down_ok D W (W - N) (exponent s) s.

Lemma log2_lt_W : Z.log2 D < W.
Proof. apply Z.log2_lt_pow2; lia. Qed.

Lemma D_lt_64 : 0 < D < 2 ^ 64.
Proof. pose proof (Z.pow_le_mono_r 2 W 64 ltac:(lia) ltac:(lia)). lia. Qed.

Lemma compute_reach depth :
  exists s, search_end s /\
  compute_fast_udiv (S depth) D N W =
    (if exponent s <? L then
       Ret (UdivInfo (u64 (quotient s + 1)) 0 (exponent s) 0)
     else if negb (Z.land D 1 =? 0) then
       assert! (has_magic_down s) ;;
       Ret (UdivInfo (down_multiplier s) 0 (down_exponent s) 1)
     else
       let! (shifted_D, pre) := strip_zeros_loop 64 D 0 in
       let! result := compute_fast_udiv depth shifted_D (u32 (N - pre)) W in
       assert! ((increment result =? 0) && (pre_shift result =? 0)) ;;
       Ret (UdivInfo (multiplier result) pre (post_shift result) (increment result))).
Proof.
  pose proof D_lt_64 as HD64. pose proof log2_lt_W as HLW.
  pose proof (non_pow2_bounds D ltac:(lia) Hnp) as [Hb HL1].
  cbn [compute_fast_udiv].
  rewrite (c_assert_true ((N >? 0) && (N <=? W))) by
    (rewrite andb_true_iff, Z.gtb_lt, Z.leb_le; lia).
  rewrite c_assert_true by (rewrite negb_true_iff, Z.eqb_neq; lia).
  destruct (util_is_power_of_two_or_zero64 D) eqn:Hp;
    [apply is_power_of_two_spec in Hp; [contradiction|assumption]|].
  rewrite (wrap_small 32 (W - N)) by lia.
  rewrite bit_length_loop_spec by (change (Z.of_nat 64) with 64; lia).
  destruct (Z.eqb_spec D 0); [lia|]. cbn [obind]. rewrite Z.add_0_l, Z.shiftl_1_l.
  rewrite (wrap_small 64 (2 ^ (W - 1))) by
    (split; [apply Z.pow_nonneg | apply Z.pow_lt_mono_r]; lia).
  set (s0 := Search 0 (2 ^ (W - 1) / D) (2 ^ (W - 1) mod D) 0 0 false).
  assert (Hs0 : search_at D W (W - N) 0 s0).
  { unfold search_at, down_ok, pow_quo, pow_rem. cbn.
    replace (W + -1) with (W - 1) by lia. split; [reflexivity|]. split.
    - symmetry. apply wrap_small. split; [apply Z.div_pos; lia|].
      apply Z.div_lt_upper_bound; [lia|].
      pose proof (Z.pow_lt_mono_r 2 (W - 1) 64 ltac:(lia) ltac:(lia) ltac:(lia)). nia.
    - split; [reflexivity|]. intros i Hi; lia. }
  destruct (udiv_loop_spec D W (W - N) L HD64 (proj1 HW) ltac:(lia) 65 0 s0)
    as (s & -> & H1 & H2 & H3 & H4 & H5); [lia | exact Hs0 | lia |].
  exists s. split; [|reflexivity]. repeat split; assumption || lia.
Qed.

(** The multiplier of an exponent below [L] fits the word. *)
Lemma quo_bound e : 0 <= e < L -> 0 < quo e + 1 < 2 ^ W.
Proof.
  intros He. pose proof log2_lt_W as HLW.
  pose proof (non_pow2_bounds D ltac:(lia) Hnp) as [Hb HL1].
  pose proof (Z.pow_le_mono_r 2 e (Z.log2 D) ltac:(lia) ltac:(lia)) as Hpe.
  pose proof (Z.pow_pos_nonneg 2 e ltac:(lia) ltac:(lia)).
  pose proof (Z.pow_pos_nonneg 2 W ltac:(lia) ltac:(lia)).
  assert (2 ^ Z.log2 D + 1 < 2 ^ W).
  { pose proof (Z.pow_le_mono_r 2 (Z.log2 D) (W - 1) ltac:(lia) ltac:(lia)) as H1.
    pose proof (Z.pow_le_mono_r 2 1 (W - 1) ltac:(lia) ltac:(lia)) as H2.
    assert (2 ^ W = 2 * 2 ^ (W - 1)) by (rewrite <- Z.pow_succ_r by lia; f_equal; lia).
    change (2 ^ 1) with 2 in H2. lia. }
  unfold pow_quo. assert (0 <= 2 ^ (W + e) / D) by (apply Z.div_pos; [apply Z.pow_nonneg|]; lia).
  assert (2 ^ (W + e) / D < 2 ^ W - 1); [|lia].
  apply Z.div_lt_upper_bound; [lia|]. rewrite Z.pow_add_r by lia. nia.
Qed.

Lemma quo_rem e : quo e * D = 2 ^ (W + e) - rem e.
Proof. unfold pow_quo, pow_rem. pose proof (Z.div_mod (2 ^ (W + e)) D). lia. Qed.

(** Round up: the exit test makes the excess too small to matter. *)
Lemma up_case s :
  search_end s -> exponent s < L ->
  udiv_ok D N W (UdivInfo (u64 (quotient s + 1)) 0 (exponent s) 0).
Proof.
  intros (He & Hq & Hup & _ & _) HeL. set (e := exponent s) in *.
  pose proof (quo_bound e ltac:(lia)) as Hqb. pose proof log2_lt_W as HLW.
  pose proof (pow_rem_range D W D_lt_64 e) as Hr.
  pose proof (Z.pow_le_mono_r 2 W 64 ltac:(lia) ltac:(lia)).
  rewrite Hq, wrap_add_l, wrap_small by lia.
  apply udiv_ok_no_incr; cbn; try lia. intros n Hn.
  rewrite Z.div_1_r, Z.mul_comm.
  pose proof (quo_rem e). pose proof (Z.pow_pos_nonneg 2 (W + e) ltac:(lia) ltac:(lia)).
  apply (round_up_div (2 ^ (W + e)) D (quo e + 1) (D - rem e)); try lia.
  - assert (D - rem e <= 2 ^ (e + (W - N))).
    { destruct Hup as [Hup|Hup]; [|assumption].
      pose proof (non_pow2_bounds D ltac:(lia) Hnp) as [Hb _].
      pose proof (Z.pow_le_mono_r 2 L (e + (W - N)) ltac:(lia) Hup). lia. }
    replace (2 ^ (W + e)) with (2 ^ N * 2 ^ (e + (W - N)))
      by (rewrite <- Z.pow_add_r by lia; f_equal; lia).
    pose proof (Z.pow_pos_nonneg 2 N ltac:(lia) ltac:(lia)). nia.
Qed.

(** With spare bits in the word, rounding up always works. *)
Lemma spare_bits_up s : search_end s -> N < W -> exponent s < L.
Proof.
  intros (He & _ & _ & Hmin & _) HNW. pose proof (Z.log2_nonneg D).
  destruct (Z_lt_ge_dec (exponent s) L) as [|Hge]; [assumption|exfalso].
  apply (Hmin (exponent s - 1)); [lia|]. left. lia.
Qed.

(** When rounding up fails at every exponent below [L], the word is full. *)
Lemma full_word s : search_end s -> L <= exponent s -> N = W.
Proof.
  intros Hs He. destruct (Z.eq_dec N W) as [|]; [assumption|].
  pose proof (spare_bits_up s Hs ltac:(lia)). lia.
Qed.

Lemma up_fails s i :
  search_end s -> L <= exponent s -> 0 <= i < L -> 2 ^ i < D - rem i.
Proof.
  intros Hs He Hi. pose proof (full_word s Hs He).
  destruct Hs as (_ & _ & _ & Hmin & _). specialize (Hmin i ltac:(lia)).
  unfold up_ok in Hmin. replace (i + (W - N)) with i in Hmin by lia. lia.
Qed.

(** ... and then a round-down multiplier has been found on the way. *)
Lemma magic_down_found s :
  search_end s -> L <= exponent s ->
  has_magic_down s = true /\ 0 <= down_exponent s < L /\
  down_multiplier s = quo (down_exponent s) /\
  rem (down_exponent s) <= 2 ^ down_exponent s.
Proof.
  intros Hs He. pose proof (full_word s Hs He) as HNW.
  pose proof (up_fails s (Z.log2 D) Hs He) as Hlast.
  pose proof (Z.log2_nonneg D). specialize (Hlast ltac:(lia)).
  pose proof (non_pow2_bounds D ltac:(lia) Hnp) as [Hb _].
  rewrite Z.pow_add_r in Hb by lia. change (2 ^ 1) with 2 in Hb.
  destruct Hs as (_ & _ & Hup & Hmin & Hdown). unfold down_ok in Hdown.
  replace (W - N) with 0 in * by lia.
  assert (Hexp : exponent s = L).
  { destruct (Z.eq_dec (exponent s) L); [assumption|].
    exfalso. apply (Hmin L); [lia|]. left. lia. }
  destruct (has_magic_down s).
  - destruct Hdown as (Hd & Hm & Hr). rewrite Hexp in Hd. rewrite Z.add_0_r in Hr.
    pose proof (quo_bound _ Hd). pose proof (Z.pow_le_mono_r 2 W 64 ltac:(lia) ltac:(lia)).
    assert (0 <= quo (down_exponent s)) by
      (apply Z.div_pos; [apply Z.pow_nonneg|]; lia).
    rewrite wrap_small in Hm by lia. auto.
  - specialize (Hdown (Z.log2 D) ltac:(lia)). rewrite Z.add_0_r in Hdown. lia.
Qed.

(** Then [D] does not divide the largest numerator, so saturation is exact. *)
Lemma sat_nodiv s :
  search_end s -> L <= exponent s -> (2 ^ W - 1) mod D <> 0.
Proof.
  intros Hs He Hz. pose proof (Z.log2_nonneg D).
  pose proof (up_fails s (Z.log2 D) Hs He ltac:(lia)) as Hlast.
  pose proof (non_pow2_bounds D ltac:(lia) Hnp) as [Hb HL1].
  rewrite (Z.pow_add_r 2 _ 1) in Hb by lia. change (2 ^ 1) with 2 in Hb.
  assert (Hr : rem (Z.log2 D) = 2 ^ Z.log2 D); [|lia].
  unfold pow_rem. rewrite Z.pow_add_r by lia.
  replace (2 ^ W) with ((2 ^ W - 1) + 1) by lia.
  rewrite <- Z.mul_mod_idemp_l, <- Z.add_mod_idemp_l, Hz by lia.
  rewrite Z.mul_mod_idemp_l, Z.mul_1_l by lia. apply Z.mod_small. lia.
Qed.

Lemma odd_case s :
  search_end s -> L <= exponent s ->
  udiv_ok D N W (UdivInfo (down_multiplier s) 0 (down_exponent s) 1).
Proof.
  intros Hs He. pose proof (full_word s Hs He) as HNW.
  destruct (magic_down_found s Hs He) as (_ & Hd & -> & Hr).
  pose proof (sat_nodiv s Hs He) as Hnd. set (d := down_exponent s) in *.
  pose proof (quo_bound d Hd) as Hqb. pose proof log2_lt_W as HLW. pose proof (quo_rem d) as Hqr.
  pose proof (pow_rem_range D W D_lt_64 d) as Hrr.
  assert (Hr0 : rem d <> 0) by (apply pow2_mod_nonzero; lia || assumption).
  pose proof (Z.pow_pos_nonneg 2 d ltac:(lia) ltac:(lia)).
  pose proof (Z.pow_pos_nonneg 2 W ltac:(lia) ltac:(lia)).
  assert (Hpow : 2 ^ (W + d) = 2 ^ W * 2 ^ d) by (apply Z.pow_add_r; lia).
  assert (Hsat : forall n, 0 <= n < 2 ^ W -> quo d * (n + 1) / 2 ^ (W + d) = n / D).
  { intros n Hn. rewrite (round_down_div _ D (quo d) (rem d)) by nia.
    f_equal. lia. }
  split; cbn; auto; try lia.
  - assert (quo d <> 0); [|lia]. intros E. rewrite E in Hqr.
    assert (2 ^ (W + d) = rem d) by lia. nia.
  - intros n Hn. unfold udiv_seq. cbn [pre_shift increment multiplier post_shift].
    rewrite Z.shiftr_0_r, shiftr_shiftr_div, Z.mul_comm by lia. apply Hsat. now rewrite <- HNW.
  - intros _ n Hn. rewrite HNW in Hn. unfold udiv_sat_seq. cbn [pre_shift increment multiplier post_shift].
    rewrite Z.shiftr_0_r, shiftr_shiftr_div, Z.mul_comm by lia.
    destruct (Z.eq_dec n (2 ^ W - 1)) as [->|].
    + rewrite Z.min_r by lia.
      apply (round_down_div_nodiv _ D (quo d) (rem d)); nia || assumption.
    + rewrite Z.min_l by lia. now apply Hsat.
Qed.
End UdivCases.

(** Even divisors: shift the numerator, then divide by the odd part. *)
Lemma even_case D W o k info :
  0 < o -> 1 <= k < W -> D = o * 2 ^ k ->
  udiv_ok o (W - k) W info -> increment info = 0 -> pre_shift info = 0 ->
  udiv_ok D W W (UdivInfo (multiplier info) k (post_shift info) 0).
Proof.
  intros Ho Hk HDo [Hm Hpre Hpost _ Hseq _ _] Hi Hp.
  pose proof (Z.pow_pos_nonneg 2 k ltac:(lia) ltac:(lia)).
  apply udiv_ok_no_incr; cbn; try lia. intros n Hn.
  specialize (Hseq (n / 2 ^ k)). unfold udiv_seq in Hseq.
  rewrite Hi, Hp, Z.shiftr_0_r, Z.add_0_r, shiftr_shiftr_div in Hseq by lia.
  rewrite Hseq.
  - rewrite Z.div_div, HDo by lia. f_equal. lia.
  - split; [apply Z.div_pos; lia|]. apply Z.div_lt_upper_bound; [lia|].
    rewrite <- Z.pow_add_r by lia. replace (k + (W - k)) with W by lia. lia.
Qed.

Lemma pow2_case D N W :
  0 < D < 2 ^ W -> 1 <= W <= 64 -> 0 < N <= W -> D = 2 ^ Z.log2 D ->
  exists info, compute_fast_udiv 2 D N W = Ret info /\ udiv_ok D N W info.
Proof.
  intros HD HW HN Hp. pose proof (Z.pow_le_mono_r 2 W 64 ltac:(lia) ltac:(lia)).
  pose proof (Z.log2_nonneg D).
  assert (HLW : Z.log2 D < W) by (apply Z.log2_lt_pow2; lia).
  cbn [compute_fast_udiv].
  rewrite (c_assert_true ((N >? 0) && (N <=? W))) by
    (rewrite andb_true_iff, Z.gtb_lt, Z.leb_le; lia).
  rewrite c_assert_true by (rewrite negb_true_iff, Z.eqb_neq; lia).
  rewrite (proj2 (is_power_of_two_spec D ltac:(lia)) Hp).
  rewrite util_logbase2_64_log2 by lia.
  destruct (Z.eqb_spec (Z.log2 D) 0) as [E|E]; cbn [negb]; eexists; (split; [reflexivity|]).
  - rewrite E in Hp. change (2 ^ 0) with 1 in Hp. subst D.
    assert (HM : (if W =? 64 then 2 ^ 64 - 1 else u64 (u64 (Z.shiftl 1 W) - 1)) = 2 ^ W - 1).
    { destruct (Z.eqb_spec W 64) as [->|]; [reflexivity|].
      rewrite Z.shiftl_1_l, wrap_sub_l. apply wrap_small. lia. }
    rewrite HM. pose proof (Z.pow_le_mono_r 2 1 W ltac:(lia) ltac:(lia)) as H1.
    change (2 ^ 1) with 2 in H1.
    pose proof (Z.pow_le_mono_r 2 N W ltac:(lia) ltac:(lia)).
    split; cbn; try lia; auto. intros n Hn. unfold udiv_seq. cbn [pre_shift increment multiplier post_shift].
    rewrite !Z.shiftr_0_r, Z.shiftr_div_pow2, Z.div_1_r by lia.
    symmetry. apply (Z.div_unique_pos _ _ _ (2 ^ W - (n + 1))); lia.
  - set (k := Z.log2 D) in *.
    assert (Hpow : 2 ^ W = 2 ^ k * 2 ^ (W - k)) by (rewrite <- Z.pow_add_r by lia; f_equal; lia).
    pose proof (Z.pow_pos_nonneg 2 (W - k) ltac:(lia) ltac:(lia)).
    pose proof (Z.pow_lt_mono_r 2 (W - k) W ltac:(lia) ltac:(lia) ltac:(lia)).
    rewrite Z.shiftl_1_l, wrap_small by lia.
    apply udiv_ok_no_incr; cbn; try lia. intros n Hn.
    rewrite Z.div_1_r, Z.add_0_r, Hpow, Z.div_mul_cancel_r by lia. now rewrite <- Hp.
Qed.

Lemma compute_fast_udiv_spec D N W :
  0 < D < 2 ^ W -> 1 <= W <= 64 -> 0 < N <= W ->
  exists info, util_compute_fast_udiv_info D N W = Ret info /\ udiv_ok D N W info.
Proof.
  intros HD HW HN. unfold util_compute_fast_udiv_info.
  destruct (Z.eq_dec D (2 ^ Z.log2 D)) as [Hp|Hnp]; [now apply pow2_case|].
  destruct (compute_reach D N W HD HW HN Hnp 1) as (s & Hs & ->).
  destruct (Z.ltb_spec (exponent s) (Z.log2 D + 1)) as [Hlt|Hge].
  { eexists. split; [reflexivity|]. now apply up_case. }
  assert (N = W) as -> by (eapply full_word; eassumption).
  rewrite land_1_odd. destruct (Z.eqb_spec (D mod 2) 0) as [Heven|Hodd]; cbn [negb].
  - destruct (strip_zeros_loop_spec 64 D 0) as (k & o & -> & Hk & Ho & Hodd & HDo).
    { pose proof (Z.pow_le_mono_r 2 W 64 ltac:(lia) ltac:(lia)).
      change (Z.of_nat 64) with 64. lia. }
    cbn [obind]. rewrite Z.add_0_l.
    assert (Hk1 : 1 <= k).
    { destruct (Z.eq_dec k 0) as [->|]; [|lia]. rewrite Z.mul_1_r in HDo. subst o. lia. }
    pose proof (Z.pow_pos_nonneg 2 k ltac:(lia) ltac:(lia)) as Hpk.
    assert (HkW : k < W).
    { apply (Z.pow_lt_mono_r_iff 2); nia. }
    assert (Hno : o <> 2 ^ Z.log2 o).
    { intros E. pose proof (Z.log2_nonneg o).
      assert (HDp : D = 2 ^ (Z.log2 o + k)) by (rewrite Z.pow_add_r by lia; lia).
      apply Hnp. rewrite HDp at 2. rewrite Z.log2_pow2 by lia. exact HDp. }
    rewrite (wrap_small 32 (W - k)) by lia.
    destruct (compute_reach o (W - k) W ltac:(nia) HW ltac:(lia) Hno 0) as (s1 & Hs1 & ->).
    assert (Hl : exponent s1 < Z.log2 o + 1) by (eapply spare_bits_up; eassumption || lia).
    rewrite (proj2 (Z.ltb_lt _ _) Hl). cbn [obind c_assert]. cbn.
    eexists. split; [reflexivity|].
    apply (even_case D W o k (UdivInfo (u64 (quotient s1 + 1)) 0 (exponent s1) 0));
      try assumption; try reflexivity; try lia.
    apply up_case; assumption || nia || lia.
  - assert (has_magic_down s = true) as -> by (eapply magic_down_found; eassumption).
    eexists. split; [reflexivity|]. now apply odd_case.
Qed.

(** C20: for every word size up to 64 bits, every numerator width that fits it
    and every non-zero divisor, [util_compute_fast_udiv_info] terminates and
    passes its assertions, and its result satisfies the invariants the header
    states (a non-zero multiplier that fits the word, at most one of
    pre-shift and increment).  The documented instruction sequence then
    computes the exact quotient of every numerator of that width; so does the
    variant with a saturating increment, unless the divisor is 1. *)
Theorem util_compute_fast_udiv_info_correct D N W :
  0 < D < 2 ^ W -> 1 <= W <= 64 -> 0 < N <= W ->
  exists info, util_compute_fast_udiv_info D N W = Ret info /\
    0 < multiplier info < 2 ^ W /\
    (increment info = 0 \/ (increment info = 1 /\ pre_shift info = 0)) /\
    (forall n, 0 <= n < 2 ^ N -> udiv_seq W info n = n / D) /\
    (1 < D -> forall n, 0 <= n < 2 ^ N -> udiv_sat_seq W info n = n / D).
Proof.
  intros HD HW HN. destruct (compute_fast_udiv_spec D N W HD HW HN) as (info & E & []).
  exists info. auto 6.
Qed.

Lemma util_compute_fast_udiv_info_correct_witness :
  exists info, util_compute_fast_udiv_info 7 32 32 = Ret info /\
    udiv_seq 32 info 4294967295 = 613566756.
Proof.
  destruct (util_compute_fast_udiv_info_correct 7 32 32 ltac:(lia) ltac:(lia) ltac:(lia))
    as (info & E & _ & _ & H & _).
  exists info. split; [exact E|]. rewrite H by lia. reflexivity.
Defined.

(** The 64-bit product of the 32-bit helpers does not wrap. *)
Lemma mul_high32 x m :
  0 <= x <= 2 ^ 32 -> 0 < m < 2 ^ 32 ->
  u32 (Z.shiftr (u64 (x * m)) 32) = Z.shiftr (x * m) 32.
Proof.
  intros Hx Hm. rewrite (wrap_small 64) by nia. apply wrap_small.
  apply (shiftr_lt _ 32 32); nia.
Qed.

Lemma preshift_range info n :
  0 <= pre_shift info < 32 -> increment info = 0 \/ (increment info = 1 /\ pre_shift info = 0) ->
  0 <= n < 2 ^ 32 ->
  0 <= Z.shiftr n (pre_shift info) + increment info <= n + 1 /\
  (n < 2 ^ 32 - 1 -> Z.shiftr n (pre_shift info) + increment info < 2 ^ 32).
Proof.
  intros Hp Hi Hn. rewrite Z.shiftr_div_pow2 by lia.
  pose proof (Z.pow_pos_nonneg 2 (pre_shift info) ltac:(lia) (proj1 Hp)).
  pose proof (Z.div_le_upper_bound n (2 ^ pre_shift info) n ltac:(lia) ltac:(nia)).
  pose proof (Z.div_pos n (2 ^ pre_shift info)). lia.
Qed.

(** The header's 32-bit helpers divide correctly by every divisor:
    [util_fast_udiv32] for every numerator, [util_fast_udiv32_nuw] for every
    numerator but the largest, and [util_fast_udiv32_u31_d_not_one], whose
    magic numbers are computed for 31-bit numerators, for every 31-bit
    numerator and every divisor above 1 (its two assertions hold). *)
Theorem util_fast_udiv32_correct D n :
  0 < D < 2 ^ 32 -> 0 <= n < 2 ^ 32 ->
  exists info info31,
    util_compute_fast_udiv_info D 32 32 = Ret info /\
    util_compute_fast_udiv_info D 31 32 = Ret info31 /\
    util_fast_udiv32 n info = n / D /\
    (n <> 2 ^ 32 - 1 -> util_fast_udiv32_nuw n info = Ret (n / D)) /\
    (n < 2 ^ 31 -> 1 < D -> util_fast_udiv32_u31_d_not_one n info31 = Ret (n / D)).
Proof.
  intros HD Hn.
  destruct (compute_fast_udiv_spec D 32 32 HD ltac:(lia) ltac:(lia)) as (info & E & []).
  destruct (preshift_range info n ok_pre0 ok_incr0 Hn) as [Hr Hr'].
  assert (E31 : exists info31, util_compute_fast_udiv_info D 31 32 = Ret info31 /\
                  udiv_ok D 31 32 info31) by (apply compute_fast_udiv_spec; lia).
  destruct E31 as (info31 & E31 & []).
  exists info, info31. split; [assumption|]. split; [assumption|]. split; [|split].
  - rewrite <- (ok_seq0 n Hn). unfold util_fast_udiv32, udiv_seq.
    rewrite (wrap_small 64 (_ + _)), mul_high32 by lia. reflexivity.
  - intros Hne. rewrite <- (ok_seq0 n Hn). unfold util_fast_udiv32_nuw, udiv_seq.
    rewrite c_assert_true by (rewrite negb_true_iff, Z.eqb_neq; lia).
    specialize (Hr' ltac:(lia)).
    rewrite (wrap_small 32 (_ + _)), mul_high32 by lia. reflexivity.
  - intros Hn31 HD1. destruct (ok_spare1 ltac:(lia) HD1) as [Hp Hi].
    rewrite <- (ok_seq1 n (conj (proj1 Hn) Hn31)).
    unfold util_fast_udiv32_u31_d_not_one, udiv_seq. rewrite Hp, Hi.
    rewrite !(c_assert_true (0 =? 0)), mul_high32, Z.shiftr_0_r, Z.add_0_r by (reflexivity || lia).
    reflexivity.
Qed.

Lemma util_fast_udiv32_correct_witness :
  exists info info31,
    util_compute_fast_udiv_info 7 32 32 = Ret info /\
    util_compute_fast_udiv_info 7 31 32 = Ret info31 /\
    util_fast_udiv32 100 info = 100 / 7.
Proof.
  destruct (util_fast_udiv32_correct 7 100 ltac:(lia) ltac:(lia)) as (i & j & E & F & H & _).
  exists i, j. auto.
Defined.
