(* ===== verification/FastSdiv.v ===== *)
(** * Signed division by constants: [util_compute_fast_sdiv_info]

    The signed half of [src/util/fast_idiv_by_const.c]: Warren's algorithm
    for the magic multiplier of a signed division, with the instruction
    sequence documented in the header. *)

From Stdlib Require Import Bool ZArith Lia Znumtheory Zpow_facts.
From S2P Require Import Prelude FastIdiv.
#[local] Open Scope bool_scope.
#[local] Open Scope Z_scope.
#[local] Open Scope c_scope.

Record util_fast_sdiv_info := SdivInfo {
  smultiplier : Z;   (* int64_t *)
  sshift : Z         (* unsigned *)
}.

Definition sign_extend (x SINT_BITS : Z) : Z :=
  Z.shiftr (i64 (Z.shiftl x (64 - SINT_BITS))) (64 - SINT_BITS).

(** The variables of the [do ... while] loop. *)
Record warren := Warren {
  wexponent : Z;
  quotient1 : Z;
  remainder1 : Z;
  quotient2 : Z;
  remainder2 : Z
}.

(** Doubling one quotient/remainder pair modulo [d]. *)
Definition double_step (q r d : Z) : Z * Z :=
  let q := u64 (q * 2) in
  let r := u64 (r * 2) in
  if r >=? d then (u64 (q + 1), u64 (r - d)) else (q, r).

Fixpoint sdiv_loop (fuel : nat) (abs_d abs_test_numer : Z) (s : warren) : outcome warren :=
  match fuel with
  | O => Out_of_fuel
  | S fuel =>
      let e := wexponent s + 1 in
      let '(q1, r1) := double_step (quotient1 s) (remainder1 s) abs_test_numer in
      let '(q2, r2) := double_step (quotient2 s) (remainder2 s) abs_d in
      let delta := u64 (abs_d - r2) in
      let s' := Warren e q1 r1 q2 r2 in
      if (q1 <? delta) || ((q1 =? delta) && (r1 =? 0))
      then sdiv_loop fuel abs_d abs_test_numer s'
      else Ret s'
  end.

Definition util_compute_fast_sdiv_info (D SINT_BITS : Z) : outcome util_fast_sdiv_info :=
  assert! (negb (D =? 0)) ;;
  assert! (negb (D =? 1) && negb (D =? -1)) ;;
  let abs_d := u64 (if D <? 0 then i64 (- D) else D) in
  let e := SINT_BITS - 1 in
  let initial_power_of_2 := u64 (Z.shiftl 1 e) in
  let tmp := u64 (initial_power_of_2 + (if D <? 0 then 1 else 0)) in
  let abs_test_numer := u64 (u64 (tmp - 1) - tmp mod abs_d) in
  let! s := sdiv_loop 64 abs_d abs_test_numer
              (Warren e (initial_power_of_2 / abs_test_numer)
                        (initial_power_of_2 mod abs_test_numer)
                        (initial_power_of_2 / abs_d)
                        (initial_power_of_2 mod abs_d)) in
  let m := sign_extend (i64 (u64 (quotient2 s + 1))) SINT_BITS in
  let m := if D <? 0 then i64 (- m) else m in
  Ret (SdivInfo m (u32 (wexponent s - SINT_BITS))).

(** The instruction sequence of the header's comment on [W]-bit registers,
    with a double-width product. *)
Definition sdiv_seq (W D : Z) (info : util_fast_sdiv_info) (n : Z) : Z :=
  let m := smultiplier info in
  let result := swrap W (Z.shiftr (m * n) W) in
  let result := if (D >? 0) && (m <? 0) then swrap W (result + n) else result in
  let result := if (D <? 0) && (m >? 0) then swrap W (result - n) else result in
  let result := if sshift info >? 0 then Z.shiftr result (sshift info) else result in
  swrap W (result + (if result <? 0 then 1 else 0)).

Example sdiv_info_7 : util_compute_fast_sdiv_info 7 32 = Ret (SdivInfo (-1840700269) 2).
Proof. vm_compute. reflexivity. Qed.

Example sdiv_info_m3 : util_compute_fast_sdiv_info (-3) 64 = Ret (SdivInfo 6148914691236517205 1).
Proof. vm_compute. reflexivity. Qed.

(** ** Two's complement *)

Lemma swrap_small w x : 1 <= w -> - 2 ^ (w - 1) <= x < 2 ^ (w - 1) -> swrap w x = x.
Proof.
  intros Hw Hx. unfold swrap.
  assert (Hp : 2 ^ w = 2 * 2 ^ (w - 1)) by (rewrite <- Z.pow_succ_r by lia; f_equal; lia).
  destruct (Z_lt_ge_dec x 0).
  - rewrite <- (Z_mod_plus_full x 1), Z.mod_small by lia.
    destruct (Z.ltb_spec (x + 1 * 2 ^ w) (2 ^ (w - 1))); lia.
  - rewrite Z.mod_small by lia. destruct (Z.ltb_spec x (2 ^ (w - 1))); lia.
Qed.

Lemma swrap_cong w x y : x mod 2 ^ w = y mod 2 ^ w -> swrap w x = swrap w y.
Proof. unfold swrap. now intros ->. Qed.

Lemma swrap_range w x : 1 <= w -> - 2 ^ (w - 1) <= swrap w x < 2 ^ (w - 1).
Proof.
  intros Hw. unfold swrap.
  assert (Hp : 2 ^ w = 2 * 2 ^ (w - 1)) by (rewrite <- Z.pow_succ_r by lia; f_equal; lia).
  pose proof (Z.pow_pos_nonneg 2 (w - 1) ltac:(lia) ltac:(lia)).
  pose proof (Z.mod_pos_bound x (2 ^ w) ltac:(lia)).
  destruct (Z.ltb_spec (x mod 2 ^ w) (2 ^ (w - 1))); lia.
Qed.

Lemma swrap_mod w x : (swrap w x) mod 2 ^ w = x mod 2 ^ w.
Proof.
  unfold swrap. destruct (_ <? _); [apply Zmod_mod|].
  rewrite <- (Z_mod_plus_full _ 1). rewrite Z.mul_1_l, Z.sub_add. apply Zmod_mod.
Qed.

Lemma swrap_swrap_add w x y : swrap w (swrap w x + y) = swrap w (x + y).
Proof.
  apply swrap_cong. rewrite <- Zplus_mod_idemp_l, swrap_mod. apply Zplus_mod_idemp_l.
Qed.

Lemma swrap_mul_pow2 w k x :
  0 <= k < w -> swrap w (x * 2 ^ k) = swrap (w - k) x * 2 ^ k.
Proof.
  intros Hk. unfold swrap.
  assert (E1 : 2 ^ w = 2 ^ (w - k) * 2 ^ k) by (rewrite <- Z.pow_add_r by lia; f_equal; lia).
  assert (E2 : 2 ^ (w - 1) = 2 ^ (w - k - 1) * 2 ^ k) by (rewrite <- Z.pow_add_r by lia; f_equal; lia).
  pose proof (Z.pow_pos_nonneg 2 k ltac:(lia) ltac:(lia)).
  rewrite E1, E2, Zmult_mod_distr_r.
  destruct (Z.ltb_spec (x mod 2 ^ (w - k) * 2 ^ k) (2 ^ (w - k - 1) * 2 ^ k));
    destruct (Z.ltb_spec (x mod 2 ^ (w - k)) (2 ^ (w - k - 1))); nia.
Qed.

Lemma sign_extend_swrap x W : 1 <= W <= 64 -> sign_extend x W = swrap W x.
Proof.
  intros HW. unfold sign_extend. rewrite Z.shiftl_mul_pow2, Z.shiftr_div_pow2 by lia.
  rewrite swrap_mul_pow2 by lia. rewrite Z.div_mul by (apply Z.pow_nonzero; lia).
  f_equal. lia.
Qed.

(** ** The loop

    [t] is the source's [tmp], [anc] its [abs_test_numer]. *)

Section SdivLoop.
Context (W ad t anc : Z).
Context (HW : 3 <= W <= 64) (Had : 2 <= ad <= 2 ^ (W - 1)) (Had64 : ad < 2 ^ 63).
Context (Ht : t = 2 ^ (W - 1) \/ t = 2 ^ (W - 1) + 1).
Context (Hanc : anc = t - 1 - t mod ad).

(** The error of the multiplier [2^e / ad + 1]. *)
Definition delta (e : Z) : Z := ad - 2 ^ e mod ad.

(** The loop enters its body for exponent [e]. *)
Definition entered (e : Z) : Prop := e = W \/ 2 ^ (e - 1) <= anc * delta (e - 1).

Lemma pow_half : 2 ^ W = 2 * 2 ^ (W - 1) /\ 4 <= 2 ^ (W - 1) <= 2 ^ 63.
Proof.
  split; [rewrite <- Z.pow_succ_r by lia; f_equal; lia|].
  split; [change 4 with (2 ^ 2)|]; apply Z.pow_le_mono_r; lia.
Qed.

Lemma anc_range : 2 <= anc /\ ad - 1 <= anc <= t - 1.
Proof.
  pose proof pow_half. pose proof (Z.mod_pos_bound t ad ltac:(lia)).
  pose proof (Z.div_mod t ad ltac:(lia)).
  assert (1 <= t / ad) by (apply Z.div_le_lower_bound; lia). nia.
Qed.

Lemma delta_range e : 1 <= delta e <= ad.
Proof. unfold delta. pose proof (Z.mod_pos_bound (2 ^ e) ad ltac:(lia)). lia. Qed.

Lemma pow_succ' e : 1 <= e -> 2 ^ e = 2 * 2 ^ (e - 1).
Proof. intros. rewrite <- Z.pow_succ_r by lia. f_equal. lia. Qed.

Lemma mul_delta e : (2 ^ e / ad + 1) * ad = 2 ^ e + delta e.
Proof. unfold delta. pose proof (Z.div_mod (2 ^ e) ad ltac:(lia)). lia. Qed.

Lemma quotient1_fits e : W <= e -> entered e -> 2 ^ e / anc < 2 ^ 64.
Proof.
  pose proof anc_range as (Ha2 & Ha & _). intros He [->|Hen].
  - apply Z.div_lt_upper_bound; [lia|].
    assert (2 ^ W <= 2 ^ 64) by (apply Z.pow_le_mono_r; lia). nia.
  - apply Z.div_lt_upper_bound; [lia|]. rewrite pow_succ' by lia.
    pose proof (delta_range (e - 1)). nia.
Qed.

Lemma t_divisible_delta e : 1 <= e -> t = 2 ^ (W - 1) + 1 -> t mod ad = 0 -> delta e <= ad - 1.
Proof.
  intros He Ht1 Hdiv. unfold delta.
  enough (2 ^ e mod ad <> 0) by (pose proof (Z.mod_pos_bound (2 ^ e) ad); lia).
  apply pow2_mod_nonzero; [lia|lia|]. intros Hpow.
  apply Z.mod_divide in Hdiv; [|lia]. destruct Hdiv as [k Hk].
  pose proof (Z.log2_nonneg ad). assert (Z.log2 ad <> 0) by (intros E; rewrite E in Hpow; simpl in Hpow; lia).
  rewrite (pow_succ' (Z.log2 ad)) in Hpow by lia.
  rewrite (pow_succ' (W - 1)) in Ht1 by lia.
  generalize dependent (2 ^ (Z.log2 ad - 1)). intros a Hpow.
  assert (t = 2 * (k * a)) by nia. lia.
Qed.

Lemma multiplier_fits e : W <= e -> entered e -> 2 ^ e / ad + 1 < 2 ^ W.
Proof.
  destruct pow_half as [Ep Hp]. pose proof anc_range as (Ha2 & Ha & Hat). intros He Hen.
  enough (2 ^ e < ad * (2 ^ W - 1)) by (apply Z.lt_add_lt_sub_r, Z.div_lt_upper_bound; lia).
  destruct Hen as [->|Hen]; [nia|].
  pose proof (delta_range (e - 1)) as Hd. rewrite (pow_succ' e) by lia.
  destruct (Z_le_gt_dec anc (2 ^ (W - 1) - 1)).
  - nia.
  - pose proof (Z.mod_pos_bound t ad ltac:(lia)).
    pose proof (t_divisible_delta (e - 1) ltac:(lia) ltac:(lia) ltac:(lia)). nia.
Qed.

Lemma double_step_ok e d :
  0 <= e -> 0 < d <= 2 ^ 63 -> 2 ^ (e + 1) / d < 2 ^ 64 ->
  double_step (2 ^ e / d) (2 ^ e mod d) d = (2 ^ (e + 1) / d, 2 ^ (e + 1) mod d).
Proof.
  intros He Hd. rewrite Z.pow_add_r, Z.pow_1_r, (Z.mul_comm _ 2) by lia. intros Hfit.
  destruct (double_quotient (2 ^ e) d) as [E1 E2]; [lia|apply Z.pow_nonneg; lia|].
  rewrite E1 in Hfit |- *. rewrite E2. unfold double_step.
  pose proof (Z.mod_pos_bound (2 ^ e) d ltac:(lia)) as Hr.
  assert (0 <= 2 ^ e / d) by (apply Z.div_pos; [apply Z.pow_nonneg|]; lia).
  rewrite (wrap_small 64 (2 ^ e mod d * 2)) by lia.
  rewrite Z.geb_leb, (Z.mul_comm (2 ^ e mod d) 2), (Z.mul_comm _ 2).
  destruct (Z.leb_spec d (2 * (2 ^ e mod d))).
  - rewrite (wrap_small 64 (2 * _)), !wrap_small by lia. reflexivity.
  - rewrite !wrap_small by lia. f_equal; lia.
Qed.

(** The loop test compares [2^e] with [anc * delta e]. *)
Lemma continue_test e :
  0 <= e ->
  (2 ^ e / anc <? delta e) || ((2 ^ e / anc =? delta e) && (2 ^ e mod anc =? 0))
  = (2 ^ e <=? anc * delta e).
Proof.
  intros He. pose proof anc_range. pose proof (Z.div_mod (2 ^ e) anc ltac:(lia)).
  pose proof (Z.mod_pos_bound (2 ^ e) anc ltac:(lia)).
  apply eq_iff_eq_true. rewrite orb_true_iff, andb_true_iff, Z.ltb_lt, !Z.eqb_eq, Z.leb_le.
  split; [nia|]. intros Hle. destruct (Z.lt_trichotomy (2 ^ e / anc) (delta e)) as [|[E|]]; nia.
Qed.

Definition warren_at (e : Z) : warren :=
  Warren e (2 ^ e / anc) (2 ^ e mod anc) (2 ^ e / ad) (2 ^ e mod ad).

(** The loop returns the first exponent whose error is small enough. *)
Lemma sdiv_loop_spec fuel e :
  W - 1 <= e -> 2 * W - 1 <= e + Z.of_nat fuel -> entered (e + 1) ->
  exists p, sdiv_loop fuel ad anc (warren_at e) = Ret (warren_at p) /\
    W <= p <= Z.max (e + 1) (2 * W - 1) /\ entered p /\ anc * delta p < 2 ^ p.
Proof.
  revert e. induction fuel as [|fuel IH]; intros e He Hfuel Hen.
  - exfalso. destruct pow_half as [Ep Hp]. pose proof anc_range.
    pose proof (delta_range e). destruct Hen as [|Hen]; [lia|].
    rewrite Z.add_simpl_r in Hen.
    assert (2 ^ (W + (W - 1)) <= 2 ^ e) as Hbig by (apply Z.pow_le_mono_r; lia).
    rewrite Z.pow_add_r in Hbig by lia. nia.
  - assert (Ha : 0 < anc <= 2 ^ 63) by (pose proof anc_range; pose proof pow_half; lia).
    assert (Hq2 : 2 ^ (e + 1) / ad < 2 ^ 64).
    { pose proof (multiplier_fits (e + 1) ltac:(lia) Hen).
      assert (2 ^ W <= 2 ^ 64) by (apply Z.pow_le_mono_r; lia). lia. }
    cbn [sdiv_loop warren_at quotient1 quotient2 remainder1 remainder2 wexponent].
    rewrite !double_step_ok by first [lia | apply quotient1_fits; lia || assumption].
    pose proof (delta_range (e + 1)). fold (delta (e + 1)).
    rewrite (wrap_small 64 (delta (e + 1))), continue_test by lia.
    destruct (Z.leb_spec (2 ^ (e + 1)) (anc * delta (e + 1))).
    + destruct (IH (e + 1)) as (p & Hl & Hp & Hrest);
        [lia | lia | right; now rewrite Z.add_simpl_r |].
      exists p. split; [exact Hl|]. split; [|exact Hrest].
      destruct (Z_le_gt_dec (2 * W - 1) (e + 1)) as [Hbig|]; [exfalso|lia].
      destruct pow_half as [Ep Hp']. pose proof anc_range.
      assert (2 ^ (W + (W - 1)) <= 2 ^ (e + 1)) as Hb by (apply Z.pow_le_mono_r; lia).
      rewrite Z.pow_add_r in Hb by lia. nia.
    + exists (e + 1). repeat split; lia || assumption.
Qed.

(** ** The arithmetic of the multiplier *)

Context (p : Z) (Hp : W <= p) (Hexit : anc * delta p < 2 ^ p).

(** The rounding error never reaches the next multiple of [ad]... *)
Lemma error_small x : 0 <= x <= t - 1 -> 2 ^ p * (x mod ad) + delta p * x < 2 ^ p * ad.
Proof.
  intros Hx. pose proof (delta_range p). pose proof anc_range as (_ & Ha & _).
  pose proof (Z.mod_pos_bound x ad ltac:(lia)). pose proof (Z.mod_pos_bound t ad ltac:(lia)) as Htm.
  destruct (Z_le_gt_dec x anc); [nia|].
  assert (Hc : x mod ad = x - (anc + 1)).
  { pose proof (Z.div_mod t ad ltac:(lia)).
    symmetry. apply (Z.mod_unique_pos x ad (t / ad)); lia. }
  rewrite Hc in *. nia.
Qed.

(** ... and a numerator of magnitude [2^(W-1)] may reach it, not exceed it. *)
Lemma error_bounded x : 0 <= x <= 2 ^ (W - 1) -> 2 ^ p * (x mod ad) + delta p * x <= 2 ^ p * ad.
Proof.
  intros Hx. destruct (Z_le_gt_dec x (t - 1)); [pose proof (error_small x); lia|].
  pose proof (delta_range p). pose proof anc_range as (_ & Ha & _).
  assert (Hxt : x = t) by lia. assert (Hpt : t = 2 ^ (W - 1)) by lia. rewrite Hxt in *.
  pose proof (Z.mod_pos_bound t ad ltac:(lia)) as Htm.
  destruct (Z.eq_dec (t mod ad) (ad - 1)) as [Hlast|]; [|nia].
  set (j := p - W + 1). pose proof (Z.pow_nonneg 2 j ltac:(lia)) as Hj0.
  assert (Hpj : 2 ^ p = t * 2 ^ j) by (rewrite Hpt, <- Z.pow_add_r by lia; f_equal; lia).
  enough (delta p <= 2 ^ j) by (pose proof (Z.mul_le_mono_nonneg_r (delta p) (2 ^ j) t); lia).
  destruct (Z_le_gt_dec (delta p) (2 ^ j)) as [|Hgt]; [assumption|exfalso].
  assert (Hdiv : (ad | delta p - 2 ^ j)).
  { unfold delta. pose proof (Z.div_mod (2 ^ p) ad ltac:(lia)).
    pose proof (Z.div_mod t ad ltac:(lia)).
    assert (Et : t + 1 = ad * (t / ad + 1)) by lia.
    apply (f_equal (Z.mul (2 ^ j))) in Et.
    exists (1 + 2 ^ p / ad - (t / ad + 1) * 2 ^ j). lia. }
  apply Z.divide_pos_le in Hdiv; lia.
Qed.

Definition magic : Z := 2 ^ p / ad + 1.

Lemma magic_mul x : ad * (magic * x) = 2 ^ p * x + delta p * x.
Proof. unfold magic. pose proof (mul_delta p). nia. Qed.

(** Rounding down gives the quotient of a nonnegative numerator. *)
Lemma magic_floor x : 0 <= x <= t - 1 -> magic * x / 2 ^ p = x / ad.
Proof.
  intros Hx. pose proof (Z.pow_pos_nonneg 2 p ltac:(lia) ltac:(lia)).
  pose proof (delta_range p). pose proof (magic_mul x). pose proof (error_small x Hx).
  pose proof (Z.div_mod x ad ltac:(lia)). pose proof (Z.mod_pos_bound x ad ltac:(lia)).
  apply div_between; [assumption|].
  split; [apply (mul_cancel_le ad) | apply (mul_cancel_lt ad)]; nia.
Qed.

(** Rounding the negated product down gives one less than the quotient. *)
Lemma magic_floor_neg x : 0 < x <= 2 ^ (W - 1) -> (- (magic * x)) / 2 ^ p = - (x / ad) - 1.
Proof.
  intros Hx. pose proof (Z.pow_pos_nonneg 2 p ltac:(lia) ltac:(lia)).
  pose proof (delta_range p). pose proof (magic_mul x).
  pose proof (error_bounded x ltac:(lia)).
  pose proof (Z.div_mod x ad ltac:(lia)). pose proof (Z.mod_pos_bound x ad ltac:(lia)).
  apply div_between; [assumption|].
  split; [apply (mul_cancel_le ad) | apply (mul_cancel_lt ad)]; nia.
Qed.

Lemma magic_not_half : magic <> 2 ^ (W - 1).
Proof.
  intros E. destruct pow_half as [Ep Hpw]. pose proof (delta_range p). pose proof (mul_delta p) as Hm.
  fold magic in Hm. rewrite E in Hm.
  assert (Hpj : 2 ^ p = 2 ^ (W - 1) * (2 * 2 ^ (p - W))).
  { rewrite <- Z.pow_succ_r, <- Z.pow_add_r by lia. f_equal. lia. }
  assert (Hk : delta p = 2 ^ (W - 1) * (ad - 2 * 2 ^ (p - W))) by nia.
  assert (Hone : ad - 2 * 2 ^ (p - W) = 1) by nia.
  rewrite Hone in Hk. rewrite (pow_succ' (W - 1)) in * by lia. lia.
Qed.

End SdivLoop.

(** ** The instruction sequence *)

Section SdivSeq.
Context (W D M s n : Z).
Context (HW : 3 <= W <= 64) (HD : D <> 0) (Hs : 0 <= s).
Context (HM : 1 <= M < 2 ^ W) (HMhalf : M <> 2 ^ (W - 1)) (Hn : in_s W n).

(** The multiplier as stored, and as meant. *)
Definition stored : Z := if D <? 0 then i64 (- swrap W M) else swrap W M.
Definition meant : Z := if D <? 0 then - M else M.

Lemma stored_cases :
  stored = meant /\ M < 2 ^ (W - 1) \/
  stored = meant + (if D <? 0 then 2 ^ W else - 2 ^ W) /\ 2 ^ (W - 1) < M.
Proof.
  destruct (pow_half W HW) as [Ep Hp]. unfold stored, meant.
  assert (E : swrap W M = if M <? 2 ^ (W - 1) then M else M - 2 ^ W)
    by (unfold swrap; now rewrite (Z.mod_small M) by lia).
  rewrite E. destruct (Z.ltb_spec M (2 ^ (W - 1))); [left|right]; destruct (D <? 0);
    rewrite ?(swrap_small 64) by lia; lia.
Qed.

Lemma meant_range : - 2 ^ (W - 1) <= meant * n / 2 ^ W < 2 ^ (W - 1).
Proof.
  destruct (pow_half W HW) as [Ep Hp]. unfold in_s in Hn. unfold meant.
  split; [apply Z.div_le_lower_bound | apply Z.div_lt_upper_bound]; try lia;
    destruct (D <? 0); nia.
Qed.

(** The high half of the product, corrected when the stored multiplier has
    the wrong sign, is that of the meant multiplier. *)
Lemma corrected_high_half :
  (let result := swrap W (Z.shiftr (stored * n) W) in
   let result := if (D >? 0) && (stored <? 0) then swrap W (result + n) else result in
   if (D <? 0) && (stored >? 0) then swrap W (result - n) else result)
  = meant * n / 2 ^ W.
Proof.
  destruct (pow_half W HW) as [Ep Hp]. pose proof meant_range as Hr.
  assert (HP : 2 ^ W <> 0) by lia. cbv zeta. rewrite Z.shiftr_div_pow2 by lia.
  destruct stored_cases as [[-> HMb]|[-> HMb]]; unfold meant in *;
    rewrite !Z.gtb_ltb; destruct (Z.ltb_spec D 0); destruct (Z.ltb_spec 0 D); try lia; cbn [andb];
    repeat (match goal with |- context [if ?x <? ?y then _ else _] => destruct (Z.ltb_spec x y) end);
    try lia.
  - rewrite swrap_small; [reflexivity | lia | exact Hr].
  - rewrite swrap_small; [reflexivity | lia | exact Hr].
  - replace ((- M + 2 ^ W) * n) with (- M * n + n * 2 ^ W) by ring.
    rewrite Z.div_add by lia. unfold Z.sub. rewrite swrap_swrap_add.
    rewrite <- Z.add_assoc, Z.add_opp_diag_r, Z.add_0_r, swrap_small by lia. reflexivity.
  - replace ((M + - 2 ^ W) * n) with (M * n + - n * 2 ^ W) by ring.
    rewrite Z.div_add by lia. rewrite swrap_swrap_add.
    rewrite <- Z.add_assoc, Z.add_opp_diag_l, Z.add_0_r, swrap_small by lia. reflexivity.
Qed.

Lemma sdiv_seq_floor :
  sdiv_seq W D (SdivInfo stored s) n =
  let q := meant * n / 2 ^ (W + s) in swrap W (q + (if q <? 0 then 1 else 0)).
Proof.
  unfold sdiv_seq. cbn [smultiplier sshift]. pose proof corrected_high_half as E.
  cbv zeta in E |- *. rewrite E. rewrite Z.gtb_ltb.
  replace (if 0 <? s then Z.shiftr (meant * n / 2 ^ W) s else meant * n / 2 ^ W)
    with (meant * n / 2 ^ (W + s)); [reflexivity|].
  rewrite Z.pow_add_r, <- Z.div_div by (lia || apply Z.pow_pos_nonneg; lia).
  destruct (Z.ltb_spec 0 s); [now rewrite Z.shiftr_div_pow2 by lia|].
  replace s with 0 by lia. apply Z.div_1_r.
Qed.

End SdivSeq.

(** Truncating division through magnitudes. *)
Lemma quot_magnitude n D :
  D <> 0 -> Z.quot n D = (if eqb (n <? 0) (D <? 0) then Z.abs n / Z.abs D else - (Z.abs n / Z.abs D)).
Proof.
  intros HD. rewrite Z.quot_div by assumption.
  destruct (Z.ltb_spec n 0); destruct (Z.ltb_spec D 0); cbn [eqb].
  - rewrite !Z.sgn_neg by lia. lia.
  - rewrite Z.sgn_neg, Z.sgn_pos by lia. lia.
  - rewrite (Z.sgn_neg D) by lia. destruct (Z.eq_dec n 0) as [->|].
    + cbn. rewrite Z.div_0_l; lia.
    + rewrite Z.sgn_pos by lia. lia.
  - rewrite (Z.sgn_pos D) by lia. destruct (Z.eq_dec n 0) as [->|].
    + cbn. rewrite Z.div_0_l; lia.
    + rewrite Z.sgn_pos by lia. lia.
Qed.

(** The divisors the source's comment admits, less the one whose magnitude
    does not fit an [int64_t]. *)
Definition sdiv_divisor (W D : Z) : Prop :=
  in_s W D /\ - 2 ^ 63 < D /\ D <> 0 /\ D <> 1 /\ D <> -1.

Section SdivCorrect.
Context (W D : Z) (HW : 3 <= W <= 64) (HD : sdiv_divisor W D).

#[local] Abbreviation ad := (Z.abs D).
#[local] Abbreviation t := (2 ^ (W - 1) + (if D <? 0 then 1 else 0)).
#[local] Abbreviation anc := (t - 1 - t mod ad).

Lemma divisor_magnitude : 2 <= ad <= 2 ^ (W - 1) /\ ad < 2 ^ 63.
Proof.
  destruct HD as ([Hlo Hhi] & Hmin & H0 & H1 & H2).
  destruct (pow_half W HW). lia.
Qed.

Lemma t_cases : t = 2 ^ (W - 1) \/ t = 2 ^ (W - 1) + 1.
Proof. destruct (D <? 0); lia. Qed.

(** What [util_compute_fast_sdiv_info] returns, in closed form. *)
Lemma compute_fast_sdiv_spec :
  exists p, W <= p /\ p <= 2 * W - 1 /\ entered W ad anc p /\ anc * delta ad p < 2 ^ p /\
    util_compute_fast_sdiv_info D W = Ret (SdivInfo (stored W D (magic ad p)) (p - W)).
Proof.
  destruct divisor_magnitude as [Had Had64]. destruct (pow_half W HW) as [Ep Hp].
  destruct (anc_range W ad t anc HW Had t_cases eq_refl) as (Ha2 & Ha & Hat).
  destruct HD as (_ & Hmin & H0 & H1 & H2).
  pose proof t_cases as Htc. pose proof (Z.mod_pos_bound t ad ltac:(lia)).
  destruct (sdiv_loop_spec W ad t anc HW Had Had64 t_cases eq_refl 64 (W - 1))
    as (p & Hl & Hpr & Hen & Hex); [lia | lia | left; lia |].
  exists p. do 2 (split; [lia|]). split; [exact Hen|]. split; [exact Hex|].
  unfold util_compute_fast_sdiv_info.
  rewrite !c_assert_true by (destruct (Z.eqb_spec D 0), (Z.eqb_spec D 1), (Z.eqb_spec D (-1)); auto; lia).
  assert (Habs : u64 (if D <? 0 then i64 (- D) else D) = ad).
  { destruct (Z.ltb_spec D 0); [rewrite swrap_small by lia|]; rewrite wrap_small; lia. }
  rewrite Habs, Z.shiftl_1_l, (wrap_small 64 (2 ^ (W - 1))), (wrap_small 64 t) by lia.
  rewrite (wrap_small 64 (t - 1)), (wrap_small 64 anc) by lia.
  change (Warren _ _ _ _ _) with (warren_at ad anc (W - 1)). rewrite Hl. cbn [obind warren_at quotient2 wexponent].
  fold (magic ad p). assert (Hm : magic ad p < 2 ^ W) by (apply (multiplier_fits W ad t anc); auto using t_cases; lia).
  assert (0 <= 2 ^ p / ad) by (apply Z.div_pos; [apply Z.pow_nonneg|]; lia).
  assert (2 ^ W <= 2 ^ 64) by (apply Z.pow_le_mono_r; lia).
  rewrite sign_extend_swrap by lia. unfold magic in *. rewrite (wrap_small 64 (_ + 1)), (wrap_small 32) by lia.
  do 2 f_equal. unfold stored.
  assert (E : swrap W (i64 (2 ^ p / ad + 1)) = swrap W (2 ^ p / ad + 1)).
  { apply swrap_cong. rewrite <- (Z.mod_mod_divide (i64 _) (2 ^ 64)), swrap_mod.
    - apply Z.mod_mod_divide. exists (2 ^ (64 - W)). rewrite <- Z.pow_add_r by lia. f_equal. lia.
    - exists (2 ^ (64 - W)). rewrite <- Z.pow_add_r by lia. f_equal. lia. }
  now rewrite E.
Qed.

(** The floor of the scaled product, incremented when negative, is the
    truncated quotient. *)
Lemma floor_fix p n :
  W <= p -> anc * delta ad p < 2 ^ p -> in_s W n ->
  (let q := meant D (magic ad p) * n / 2 ^ p in q + (if q <? 0 then 1 else 0)) = Z.quot n D.
Proof.
  intros Hp Hex [Hlo Hhi]. destruct divisor_magnitude as [Had Had64].
  destruct HD as (_ & _ & H0 & _ & _). rewrite quot_magnitude by assumption.
  pose proof (magic_floor W ad t anc HW Had Had64 t_cases eq_refl p Hp Hex) as Hf.
  pose proof (magic_floor_neg W ad t anc HW Had Had64 t_cases eq_refl p Hp Hex) as Hg.
  pose proof (Z.div_pos (Z.abs n) ad ltac:(lia) ltac:(lia)) as Hq. pose proof t_cases.
  unfold meant. cbv zeta. destruct (Z.ltb_spec n 0); destruct (Z.ltb_spec D 0); cbn [eqb].
  - replace (- magic ad p * n) with (magic ad p * Z.abs n) by (rewrite (Z.abs_neq n) by lia; ring).
    rewrite Hf by lia. zcase; lia.
  - replace (magic ad p * n) with (- (magic ad p * Z.abs n)) by (rewrite (Z.abs_neq n) by lia; ring).
    rewrite Hg by lia. zcase; lia.
  - destruct (Z.eq_dec n 0) as [->|]; [now rewrite Z.mul_0_r, !Z.div_0_l by lia|].
    replace (- magic ad p * n) with (- (magic ad p * Z.abs n)) by (rewrite (Z.abs_eq n) by lia; ring).
    rewrite Hg by lia. zcase; lia.
  - replace (magic ad p * n) with (magic ad p * Z.abs n) by (rewrite (Z.abs_eq n) by lia; ring).
    rewrite Hf by lia. zcase; lia.
Qed.

Lemma sdiv_seq_spec :
  exists info, util_compute_fast_sdiv_info D W = Ret info /\
    in_s W (smultiplier info) /\ 0 <= sshift info < W /\
    forall n, in_s W n -> sdiv_seq W D info n = Z.quot n D.
Proof.
  destruct compute_fast_sdiv_spec as (p & Hp & Hp2 & Hen & Hex & ->).
  eexists. split; [reflexivity|]. cbn [smultiplier sshift]. split; [|split; [lia|]].
  { destruct divisor_magnitude as [Had Had64]. destruct (pow_half W HW) as [Ep Hpw].
    assert (0 <= 2 ^ p / ad) by (apply Z.div_pos; [apply Z.pow_nonneg|]; lia).
    assert (HM : 1 <= magic ad p < 2 ^ W).
    { split; [unfold magic; lia|]. apply (multiplier_fits W ad t anc); auto using t_cases; lia. }
    unfold in_s. destruct (stored_cases W D (magic ad p) HW HM) as [[-> Hm]|[-> Hm]].
    - apply (magic_not_half W ad t); auto using t_cases.
    - unfold meant. destruct (D <? 0); lia.
    - unfold meant. destruct (D <? 0); lia. }
  intros n Hn. destruct divisor_magnitude as [Had Had64]. destruct (pow_half W HW) as [Ep Hpw].
  assert (0 <= 2 ^ p / ad) by (apply Z.div_pos; [apply Z.pow_nonneg|]; lia).
  destruct HD as (HDr & _ & H0 & H1 & H2).
  rewrite sdiv_seq_floor; auto; [|lia | | ].
  - replace (W + (p - W)) with p by lia. pose proof (floor_fix p n Hp Hex Hn) as E.
    cbv zeta in E |- *. rewrite E. apply swrap_small; [lia|].
    destruct Hn, HDr. rewrite quot_magnitude by assumption.
    assert (Z.abs n / ad <= 2 ^ (W - 1) / 2).
    { etransitivity; [apply (Z.div_le_compat_l (Z.abs n) 2 ad); lia|]. apply Z.div_le_mono; lia. }
    assert (2 ^ (W - 1) / 2 < 2 ^ (W - 1)) by (apply Z.div_lt; lia).
    pose proof (Z.div_pos (Z.abs n) ad). destruct (eqb _ _); lia.
  - split; [unfold magic; lia|]. apply (multiplier_fits W ad t anc); auto using t_cases; lia.
  - apply (magic_not_half W ad t); auto using t_cases.
Qed.

End SdivCorrect.

(** C36: for every width of 3 to 64 bits and every divisor other than 0, 1
    and -1 that fits the width (and whose magnitude fits an [int64_t]),
    [util_compute_fast_sdiv_info] trips no assertion, its loop ends within
    64 rounds, and the documented instruction sequence with the magic numbers
    it returns computes the truncated quotient of every signed numerator. *)
Theorem util_compute_fast_sdiv_info_correct W D :
  3 <= W <= 64 -> sdiv_divisor W D ->
  exists info, util_compute_fast_sdiv_info D W = Ret info /\
    forall n, in_s W n -> sdiv_seq W D info n = Z.quot n D.
Proof. intros HW HD. destruct (sdiv_seq_spec W D HW HD) as (info & E & _ & _ & H). eauto. Qed.

Lemma util_compute_fast_sdiv_info_correct_witness :
  exists info, util_compute_fast_sdiv_info (-7) 32 = Ret info /\
    sdiv_seq 32 (-7) info (-100) = 14.
Proof.
  destruct (util_compute_fast_sdiv_info_correct 32 (-7)) as (info & Hi & Hn);
    [lia | unfold sdiv_divisor, in_s; lia |].
  exists info. split; [exact Hi|]. rewrite Hn; [reflexivity | unfold in_s; lia].
Defined.
