(* ===== verification/GlContext.v ===== *)
(** * The GL context: state, errors, flushing

    The part of [struct gl_context] (src/mesa/main/mtypes.h) that the entry
    points of blend.c, depth.c, stencil.c, scissor.c, lines.c, points.c,
    polygon.c, viewport.c, conservativeraster.c, multisample.c, hint.c and
    fog.c read and write, with [_mesa_error] (errors.c), [_mesa_GetError]
    (getstring.c), the [FLUSH_VERTICES] macro (context.h) and the state
    validation it triggers.

    The context a C function mutates through its pointer is passed and
    returned.  What a driver can observe is recorded in order in [Trace]:
    draws of stored vertices, calls through the driver function table, errors,
    accesses outside an array of the context and conversions whose result C
    leaves undefined. *)

From Stdlib Require Import Bool ZArith List Lia SpecFloat.
From S2P Require Import Prelude.
Import ListNotations.
#[local] Open Scope bool_scope.
#[local] Open Scope Z_scope.
#[local] Open Scope c_scope.

(** ** Scalars

    [GLenum16] members truncate what is assigned to them.  Floating-point
    values are IEEE specifications: only comparisons are applied to them. *)
Abbreviation GLenum16 := Z.
Abbreviation GLfloat := spec_float.
Abbreviation GLdouble := spec_float.
Definition e16 (x : Z) : GLenum16 := wrap 16 x.

(** 0.0 and 1.0 at the precision of a [float] (24 bits) and a [double] (53
    bits). *)
Definition f32_0 : GLfloat := S754_zero false.
Definition f32_1 : GLfloat := S754_finite false 8388608 (-23).
Definition f64_0 : GLdouble := S754_zero false.
Definition f64_1 : GLdouble := S754_finite false 4503599627370496 (-52).

(** [#define CLAMP(X, MIN, MAX) ((X)>(MIN) ? ((X)>(MAX) ? (MAX) : (X)) : (MIN))] *)
Definition CLAMP (x lo hi : spec_float) : spec_float :=
  if SFltb lo x then (if SFltb hi x then hi else x) else lo.

Record vec4 := Vec4 { v0 : GLfloat; v1 : GLfloat; v2 : GLfloat; v3 : GLfloat }.

Definition vec4_map (f : GLfloat -> GLfloat) (v : vec4) : vec4 :=
  Vec4 (f (v0 v)) (f (v1 v)) (f (v2 v)) (f (v3 v)).

(** [TEST_EQ_4V] compares with floating-point equality. *)
Definition TEST_EQ_4V (a b : vec4) : bool :=
  SFeqb (v0 a) (v0 b) && SFeqb (v1 a) (v1 b) && SFeqb (v2 a) (v2 b) && SFeqb (v3 a) (v3 b).

(** A [switch] on an enum whose cases are [l]. *)
Definition one_of (x : Z) (l : list Z) : bool := existsb (Z.eqb x) l.

(** ** Attribute groups *)

(** One element of [gl_colorbuffer_attrib::Blend]. *)
Record blend_attrib := BlendAttrib {
  SrcRGB : GLenum16;
  DstRGB : GLenum16;
  SrcA : GLenum16;
  DstA : GLenum16;
  EquationRGB : GLenum16;
  EquationA : GLenum16;
  _UsesDualSrc : bool
}.

Record gl_colorbuffer_attrib := ColorbufferAttrib {
  ClearIndex : Z;
  ClearColor : vec4;
  IndexMask : Z;
  ColorMask : Z;               (* 4 bits per draw buffer *)
  DrawBuffer0 : GLenum16;
  AlphaEnabled : bool;
  AlphaFunc : GLenum16;
  AlphaRefUnclamped : GLfloat;
  AlphaRef : GLfloat;
  BlendEnabled : Z;
  BlendColorUnclamped : vec4;
  BlendColor : vec4;
  Blend : list blend_attrib;   (* MAX_DRAW_BUFFERS elements *)
  _BlendFuncPerBuffer : bool;
  _BlendEquationPerBuffer : bool;
  _AdvancedBlendMode : Z;
  BlendCoherent : bool;
  IndexLogicOpEnabled : bool;
  ColorLogicOpEnabled : bool;
  LogicOp : GLenum16;
  _LogicOp : Z;
  DitherFlag : bool;
  _ClampFragmentColor : bool;
  ClampFragmentColor : GLenum16;
  ClampReadColor : GLenum16;
  sRGBEnabled : bool
}.

Record gl_depthbuffer_attrib := DepthbufferAttrib {
  Func : GLenum16;
  DepthClear : GLdouble;
  Test : bool;
  Mask : Z;                    (* GLboolean, stored as passed *)
  BoundsTest : bool;
  BoundsMin : GLfloat;
  BoundsMax : GLfloat
}.

(** Element 0 of each array is the front face, 1 the GL 2.0 back face, 2 the
    EXT_stencil_two_side back face. *)
Record gl_stencil_attrib := StencilAttrib {
  Enabled : bool;
  TestTwoSide : bool;
  ActiveFace : Z;
  _BackFace : Z;
  Function_ : list GLenum16;
  FailFunc : list GLenum16;
  ZPassFunc : list GLenum16;
  ZFailFunc : list GLenum16;
  Ref : list Z;
  ValueMask : list Z;
  WriteMask : list Z;
  StencilClear : Z
}.

Record gl_scissor_rect := ScissorRect { X : Z; Y : Z; Width : Z; Height : Z }.

Record gl_scissor_attrib := ScissorAttrib {
  EnableFlags : Z;
  ScissorArray : list gl_scissor_rect;   (* MAX_VIEWPORTS elements *)
  NumWindowRects : Z;
  WindowRectMode : GLenum16;
  WindowRects : list gl_scissor_rect     (* MAX_WINDOW_RECTANGLES elements *)
}.

(** The members of [gl_light_attrib] that [glClampColor] sets. *)
Record gl_light_attrib := LightAttrib {
  ClampVertexColor : GLenum16;
  _ClampVertexColor : bool
}.

Record gl_line_attrib := LineAttrib {
  Line_SmoothFlag : bool;
  Line_StippleFlag : bool;
  StipplePattern : Z;
  StippleFactor : Z;
  Line_Width : GLfloat
}.

Record vec3 := Vec3 { Params_0 : GLfloat; Params_1 : GLfloat; Params_2 : GLfloat }.

Record gl_point_attrib := PointAttrib {
  Point_Size : GLfloat;
  Params : vec3;
  MinSize : GLfloat;
  MaxSize : GLfloat;
  Threshold : GLfloat;
  Point_SmoothFlag : bool;
  _Attenuated : bool;
  PointSprite : bool;
  CoordReplace : Z;
  SpriteRMode : GLenum16;
  SpriteOrigin : GLenum16
}.

(** [FrontMode] and [BackMode] are 32-bit [GLenum]s. *)
Record gl_polygon_attrib := PolygonAttrib {
  FrontFace : GLenum16;
  FrontMode : Z;
  BackMode : Z;
  CullFlag : bool;
  Polygon_SmoothFlag : bool;
  Polygon_StippleFlag : bool;
  CullFaceMode : GLenum16;
  OffsetFactor : GLfloat;
  OffsetUnits : GLfloat;
  OffsetClamp : GLfloat;
  OffsetPoint : bool;
  OffsetLine : bool;
  OffsetFill : bool
}.

Record gl_viewport_attrib := ViewportAttrib {
  Vp_X : GLfloat;
  Vp_Y : GLfloat;
  Vp_Width : GLfloat;
  Vp_Height : GLfloat;
  Near : GLfloat;
  Far : GLfloat
}.

(** The members of [gl_transform_attrib] that [glClipControl] sets. *)
Record gl_transform_attrib := TransformAttrib {
  ClipOrigin : GLenum16;
  ClipDepthMode : GLenum16
}.

Record gl_multisample_attrib := MultisampleAttrib {
  Multisample_Enabled : bool;
  SampleAlphaToCoverage : bool;
  SampleAlphaToOne : bool;
  SampleCoverage : bool;
  SampleCoverageInvert : Z;
  SampleShading : bool;
  SampleMask : bool;
  SampleCoverageValue : GLfloat;
  MinSampleShadingValue : GLfloat;
  SampleMaskValue : Z
}.

Record gl_hint_attrib := HintAttrib {
  PerspectiveCorrection : GLenum16;
  PointSmooth : GLenum16;
  LineSmooth : GLenum16;
  PolygonSmooth : GLenum16;
  Hint_Fog : GLenum16;
  TextureCompression : GLenum16;
  GenerateMipmap : GLenum16;
  FragmentShaderDerivative : GLenum16
}.

Record gl_fog_attrib := FogAttrib {
  Fog_Enabled : bool;
  ColorSumEnabled : bool;
  _PackedMode : Z;
  _PackedEnabledMode : Z;
  Fog_ColorUnclamped : vec4;
  Fog_Color : vec4;
  Density : GLfloat;
  Fog_Start : GLfloat;
  Fog_End : GLfloat;
  Fog_Index : GLfloat;
  Fog_Mode : GLenum16;
  FogCoordinateSource : GLenum16;
  FogDistanceMode : GLenum16
}.

(** [gl_context::SubpixelPrecisionBias], [ConservativeRasterDilate] and
    [ConservativeRasterMode]. *)
Record conservative_params := ConservativeParams {
  SubpixelPrecisionBias : Z * Z;
  ConservativeRasterDilate : GLfloat;
  ConservativeRasterMode : GLenum16
}.

Record gl_attribs := Attribs {
  Color : gl_colorbuffer_attrib;
  Depth : gl_depthbuffer_attrib;
  Stencil : gl_stencil_attrib;
  Scissor : gl_scissor_attrib;
  Light : gl_light_attrib;
  Line : gl_line_attrib;
  Point : gl_point_attrib;
  Polygon : gl_polygon_attrib;
  ViewportArray : list gl_viewport_attrib;   (* MAX_VIEWPORTS elements *)
  Transform : gl_transform_attrib;
  Multisample : gl_multisample_attrib;
  Hint_ : gl_hint_attrib;
  Fog : gl_fog_attrib;
  Conservative : conservative_params
}.

Definition MAX_DRAW_BUFFERS : nat := 8.
Definition MAX_VIEWPORTS : nat := 16.
Definition MAX_WINDOW_RECTANGLES : nat := 8.

#[export] Instance eta_blend : Eta blend_attrib := fun r =>
  BlendAttrib (SrcRGB r) (DstRGB r) (SrcA r) (DstA r) (EquationRGB r) (EquationA r) (_UsesDualSrc r).
#[export] Instance eta_color : Eta gl_colorbuffer_attrib := fun r =>
  ColorbufferAttrib (ClearIndex r) (ClearColor r) (IndexMask r) (ColorMask r) (DrawBuffer0 r)
    (AlphaEnabled r) (AlphaFunc r) (AlphaRefUnclamped r) (AlphaRef r) (BlendEnabled r)
    (BlendColorUnclamped r) (BlendColor r) (Blend r) (_BlendFuncPerBuffer r)
    (_BlendEquationPerBuffer r) (_AdvancedBlendMode r) (BlendCoherent r)
    (IndexLogicOpEnabled r) (ColorLogicOpEnabled r) (LogicOp r) (_LogicOp r) (DitherFlag r)
    (_ClampFragmentColor r) (ClampFragmentColor r) (ClampReadColor r) (sRGBEnabled r).
#[export] Instance eta_depth : Eta gl_depthbuffer_attrib := fun r =>
  DepthbufferAttrib (Func r) (DepthClear r) (Test r) (Mask r) (BoundsTest r) (BoundsMin r) (BoundsMax r).
#[export] Instance eta_stencil : Eta gl_stencil_attrib := fun r =>
  StencilAttrib (Enabled r) (TestTwoSide r) (ActiveFace r) (_BackFace r) (Function_ r) (FailFunc r)
    (ZPassFunc r) (ZFailFunc r) (Ref r) (ValueMask r) (WriteMask r) (StencilClear r).
#[export] Instance eta_scissor : Eta gl_scissor_attrib := fun r =>
  ScissorAttrib (EnableFlags r) (ScissorArray r) (NumWindowRects r) (WindowRectMode r) (WindowRects r).
#[export] Instance eta_light : Eta gl_light_attrib := fun r =>
  LightAttrib (ClampVertexColor r) (_ClampVertexColor r).
#[export] Instance eta_line : Eta gl_line_attrib := fun r =>
  LineAttrib (Line_SmoothFlag r) (Line_StippleFlag r) (StipplePattern r) (StippleFactor r) (Line_Width r).
#[export] Instance eta_point : Eta gl_point_attrib := fun r =>
  PointAttrib (Point_Size r) (Params r) (MinSize r) (MaxSize r) (Threshold r) (Point_SmoothFlag r)
    (_Attenuated r) (PointSprite r) (CoordReplace r) (SpriteRMode r) (SpriteOrigin r).
#[export] Instance eta_polygon : Eta gl_polygon_attrib := fun r =>
  PolygonAttrib (FrontFace r) (FrontMode r) (BackMode r) (CullFlag r) (Polygon_SmoothFlag r)
    (Polygon_StippleFlag r) (CullFaceMode r) (OffsetFactor r) (OffsetUnits r) (OffsetClamp r)
    (OffsetPoint r) (OffsetLine r) (OffsetFill r).
#[export] Instance eta_viewport : Eta gl_viewport_attrib := fun r =>
  ViewportAttrib (Vp_X r) (Vp_Y r) (Vp_Width r) (Vp_Height r) (Near r) (Far r).
#[export] Instance eta_transform : Eta gl_transform_attrib := fun r =>
  TransformAttrib (ClipOrigin r) (ClipDepthMode r).
#[export] Instance eta_multisample : Eta gl_multisample_attrib := fun r =>
  MultisampleAttrib (Multisample_Enabled r) (SampleAlphaToCoverage r) (SampleAlphaToOne r)
    (SampleCoverage r) (SampleCoverageInvert r) (SampleShading r) (SampleMask r)
    (SampleCoverageValue r) (MinSampleShadingValue r) (SampleMaskValue r).
#[export] Instance eta_hint : Eta gl_hint_attrib := fun r =>
  HintAttrib (PerspectiveCorrection r) (PointSmooth r) (LineSmooth r) (PolygonSmooth r) (Hint_Fog r)
    (TextureCompression r) (GenerateMipmap r) (FragmentShaderDerivative r).
#[export] Instance eta_fog : Eta gl_fog_attrib := fun r =>
  FogAttrib (Fog_Enabled r) (ColorSumEnabled r) (_PackedMode r) (_PackedEnabledMode r)
    (Fog_ColorUnclamped r) (Fog_Color r) (Density r) (Fog_Start r) (Fog_End r) (Fog_Index r)
    (Fog_Mode r) (FogCoordinateSource r) (FogDistanceMode r).
#[export] Instance eta_conservative : Eta conservative_params := fun r =>
  ConservativeParams (SubpixelPrecisionBias r) (ConservativeRasterDilate r) (ConservativeRasterMode r).
#[export] Instance eta_attribs : Eta gl_attribs := fun r =>
  Attribs (Color r) (Depth r) (Stencil r) (Scissor r) (Light r) (Line r) (Point r) (Polygon r)
    (ViewportArray r) (Transform r) (Multisample r) (Hint_ r) (Fog r) (Conservative r).

(** ** What a context is created with *)

Inductive gl_api := API_OPENGL_COMPAT | API_OPENGLES | API_OPENGLES2 | API_OPENGL_CORE.

Definition gl_api_eqb (a b : gl_api) : bool :=
  match a, b with
  | API_OPENGL_COMPAT, API_OPENGL_COMPAT | API_OPENGLES, API_OPENGLES
  | API_OPENGLES2, API_OPENGLES2 | API_OPENGL_CORE, API_OPENGL_CORE => true
  | _, _ => false
  end.

(** The members of [gl_extensions], [gl_constants], [gl_driver_flags] and
    [dd_function_table] that are read; of a function pointer only whether it
    is set. *)
Record gl_env := Env {
  API : gl_api;
  Version : Z;
  ExtVersion : Z;
  ARB_blend_func_extended : bool;
  ARB_draw_buffers_blend : bool;
  ARB_color_buffer_float : bool;
  EXT_blend_minmax : bool;
  EXT_blend_equation_separate : bool;
  EXT_stencil_two_side : bool;
  KHR_blend_equation_advanced : bool;
  ARB_clip_control : bool;
  ARB_fragment_shader : bool;
  ARB_point_sprite : bool;
  ARB_polygon_offset_clamp : bool;
  ARB_sample_shading : bool;
  ARB_texture_multisample : bool;
  ARB_viewport_array : bool;
  EXT_point_parameters : bool;
  NV_conservative_raster : bool;
  NV_conservative_raster_dilate : bool;
  NV_conservative_raster_pre_snap_triangles : bool;
  NV_fill_rectangle : bool;
  NV_fog_distance : bool;
  NV_point_sprite : bool;
  OES_sample_variables : bool;
  OES_viewport_array : bool;
  MaxDrawBuffers : Z;
  MaxViewports : Z;
  MaxWindowRectangles : Z;
  MaxPointSize : GLfloat;
  MaxPointSizeAA : GLfloat;
  MaxViewportWidth : Z;
  MaxViewportHeight : Z;
  ViewportBounds : GLfloat * GLfloat;               (* Min, Max *)
  ContextFlags : Z;
  MaxSubpixelPrecisionBiasBits : Z;
  ConservativeRasterDilateRange : GLfloat * GLfloat;
  NewBlend : Z;
  NewBlendColor : Z;
  NewAlphaTest : Z;
  NewLogicOp : Z;
  NewColorMask : Z;
  NewDepth : Z;
  NewStencil : Z;
  NewScissorRect : Z;
  NewWindowRectangles : Z;
  NewClipControl : Z;
  NewLineState : Z;
  NewPolygonState : Z;
  NewViewport : Z;
  NewSampleMask : Z;
  NewSampleShading : Z;
  NewNvConservativeRasterizationParams : Z;
  has_BlendFuncSeparate : bool;
  has_BlendEquationSeparate : bool;
  has_BlendColor : bool;
  has_AlphaFunc : bool;
  has_LogicOpcode : bool;
  has_ColorMask : bool;
  has_DepthFunc : bool;
  has_DepthMask : bool;
  has_StencilFuncSeparate : bool;
  has_StencilMaskSeparate : bool;
  has_StencilOpSeparate : bool;
  has_Scissor : bool;
  has_LineWidth : bool;
  has_LineStipple : bool;
  has_PointSize : bool;
  has_PointParameterfv : bool;
  has_CullFace : bool;
  has_FrontFace : bool;
  has_PolygonMode : bool;
  has_PolygonOffset : bool;
  has_Viewport : bool;
  has_DepthRange : bool;
  has_Fogfv : bool;
  doubleBufferMode : bool;
  no_error_enabled : bool
}.

Definition _mesa_is_desktop_gl (e : gl_env) : bool :=
  gl_api_eqb (API e) API_OPENGL_COMPAT || gl_api_eqb (API e) API_OPENGL_CORE.

Definition _mesa_is_gles (e : gl_env) : bool :=
  gl_api_eqb (API e) API_OPENGLES || gl_api_eqb (API e) API_OPENGLES2.

Definition _mesa_is_gles3 (e : gl_env) : bool :=
  gl_api_eqb (API e) API_OPENGLES2 && (Version e >=? 30).

(** A row of the extension table: the version from which each API has the
    extension; [x] is [~0] in a byte. *)
Definition has_extension (cap : gl_env -> bool) (GLL GLC ES1 ES2 : Z) (e : gl_env) : bool :=
  cap e && (ExtVersion e >=?
    match API e with
    | API_OPENGL_COMPAT => GLL
    | API_OPENGL_CORE => GLC
    | API_OPENGLES => ES1
    | API_OPENGLES2 => ES2
    end).

Definition no_version : Z := 255.

Definition _mesa_has_KHR_blend_equation_advanced : gl_env -> bool :=
  has_extension KHR_blend_equation_advanced 0 0 no_version 0.
Definition _mesa_has_ARB_viewport_array : gl_env -> bool :=
  has_extension ARB_viewport_array 0 0 no_version no_version.
Definition _mesa_has_OES_viewport_array : gl_env -> bool :=
  has_extension OES_viewport_array no_version no_version no_version 31.
Definition _mesa_has_ARB_sample_shading : gl_env -> bool :=
  has_extension ARB_sample_shading 0 0 no_version no_version.
Definition _mesa_has_OES_sample_shading : gl_env -> bool :=
  has_extension OES_sample_variables no_version no_version no_version 30.

(** ** The context *)

(** Calls through [ctx->Driver]. *)
Inductive driver_call :=
| Drv_BlendFuncSeparate (sfactorRGB dfactorRGB sfactorA dfactorA : Z)
| Drv_BlendEquationSeparate (modeRGB modeA : Z)
| Drv_BlendColor (color : vec4)
| Drv_AlphaFunc (func : Z) (ref : GLfloat)
| Drv_LogicOpcode (op : Z)
| Drv_ColorMask (red green blue alpha : Z)
| Drv_DepthFunc (func : Z)
| Drv_DepthMask (flag : Z)
| Drv_StencilFuncSeparate (face func ref mask : Z)
| Drv_StencilMaskSeparate (face mask : Z)
| Drv_StencilOpSeparate (face fail zfail zpass : Z)
| Drv_Scissor
| Drv_LineWidth (width : GLfloat)
| Drv_LineStipple (factor pattern : Z)
| Drv_PointSize (size : GLfloat)
| Drv_PointParameterfv (pname : Z) (params : vec3)
| Drv_CullFace (mode : Z)
| Drv_FrontFace (mode : Z)
| Drv_PolygonMode (face mode : Z)
| Drv_PolygonOffset (factor units clamp : GLfloat)
| Drv_Viewport
| Drv_DepthRange
| Drv_Fogfv (pname : Z) (params : vec4).

Inductive event :=
| EvDraw (s : gl_attribs)        (* the stored vertices are drawn under [s] *)
| EvDriver (d : driver_call)
| EvError (e : Z)
| EvOutOfBounds (index : Z)      (* an array of the context is overrun *)
| EvUndefined (x : GLfloat).     (* converted to an integer type that lacks its value *)

(** Of [gl_framebuffer] what the clamping state is derived from. *)
Record gl_framebuffer := Framebuffer {
  _AllColorBuffersFixedPoint : bool;
  _HasSNormOrFloatColorBuffer : bool;
  _IntegerBuffers : Z
}.

(** [Validated] is a ghost: the rendering state the driver was last asked to
    draw with. *)
Record gl_context := Context {
  env : gl_env;
  DrawBuffer : option gl_framebuffer;
  NeedFlush : Z;
  NewState : Z;
  NewDriverState : Z;
  ErrorValue : Z;
  Attr : gl_attribs;
  Validated : gl_attribs;
  Trace : list event
}.

#[export] Instance eta_context : Eta gl_context := fun r =>
  Context (env r) (DrawBuffer r) (NeedFlush r) (NewState r) (NewDriverState r) (ErrorValue r)
    (Attr r) (Validated r) (Trace r).

Definition emit (e : event) (ctx : gl_context) : gl_context :=
  ctx <| Trace := Trace ctx ++ [e] |>.

(** [if (ctx->Driver.F) ctx->Driver.F(ctx, ...);] *)
Definition call_driver (has : gl_env -> bool) (d : driver_call) (ctx : gl_context) : gl_context :=
  if has (env ctx) then emit (EvDriver d) ctx else ctx.

Definition upd_Color (f : gl_colorbuffer_attrib -> gl_colorbuffer_attrib) (ctx : gl_context) : gl_context :=
  ctx <| Attr := (Attr ctx) <| Color := f (Color (Attr ctx)) |> |>.
Definition upd_Depth (f : gl_depthbuffer_attrib -> gl_depthbuffer_attrib) (ctx : gl_context) : gl_context :=
  ctx <| Attr := (Attr ctx) <| Depth := f (Depth (Attr ctx)) |> |>.
Definition upd_Stencil (f : gl_stencil_attrib -> gl_stencil_attrib) (ctx : gl_context) : gl_context :=
  ctx <| Attr := (Attr ctx) <| Stencil := f (Stencil (Attr ctx)) |> |>.
Definition upd_Scissor (f : gl_scissor_attrib -> gl_scissor_attrib) (ctx : gl_context) : gl_context :=
  ctx <| Attr := (Attr ctx) <| Scissor := f (Scissor (Attr ctx)) |> |>.
Definition upd_Light (f : gl_light_attrib -> gl_light_attrib) (ctx : gl_context) : gl_context :=
  ctx <| Attr := (Attr ctx) <| Light := f (Light (Attr ctx)) |> |>.

(** Assignment to the attributes as a whole; the groups of the primitives and
    of the viewport are assigned through it. *)
Definition upd_Attr (f : gl_attribs -> gl_attribs) (ctx : gl_context) : gl_context :=
  ctx <| Attr := f (Attr ctx) |>.
Abbreviation upd_Line f := (upd_Attr (fun r => r <| Line := f (Line r) |>)).
Abbreviation upd_Point f := (upd_Attr (fun r => r <| Point := f (Point r) |>)).
Abbreviation upd_Polygon f := (upd_Attr (fun r => r <| Polygon := f (Polygon r) |>)).
Abbreviation upd_Viewports f := (upd_Attr (fun r => r <| ViewportArray := f (ViewportArray r) |>)).
Abbreviation upd_Transform f := (upd_Attr (fun r => r <| Transform := f (Transform r) |>)).
Abbreviation upd_Multisample f := (upd_Attr (fun r => r <| Multisample := f (Multisample r) |>)).
Abbreviation upd_Hint f := (upd_Attr (fun r => r <| Hint_ := f (Hint_ r) |>)).
Abbreviation upd_Fog f := (upd_Attr (fun r => r <| Fog := f (Fog r) |>)).
Abbreviation upd_Conservative f := (upd_Attr (fun r => r <| Conservative := f (Conservative r) |>)).

(** ** Errors *)

Definition GL_NO_ERROR := 0.
Definition GL_INVALID_ENUM := 0x500.
Definition GL_INVALID_VALUE := 0x501.
Definition GL_INVALID_OPERATION := 0x502.
Definition GL_OUT_OF_MEMORY := 0x505.

(** The effect of [_mesa_error] on the context: the first error sticks. *)
Definition _mesa_error (error : Z) (ctx : gl_context) : gl_context :=
  let ctx := emit (EvError error) ctx in
  if ErrorValue ctx =? GL_NO_ERROR then ctx <| ErrorValue := e16 error |> else ctx.

(** [_mesa_GetError] outside [glBegin]/[glEnd]. *)
Definition _mesa_GetError (ctx : gl_context) : Z * gl_context :=
  let e := ErrorValue ctx in
  let e := if no_error_enabled (env ctx) && negb (e =? GL_OUT_OF_MEMORY) then GL_NO_ERROR else e in
  (e, ctx <| ErrorValue := GL_NO_ERROR |>).

(** ** Flushing *)

Definition FLUSH_STORED_VERTICES := 0x1.
Definition FLUSH_UPDATE_CURRENT := 0x2.

(** The members that no draw depends on: clear values, the colour clamp of
    [glReadPixels], the face that [glStencilFunc] and friends address, and the
    fog mode that [_PackedEnabledMode] is derived from. *)
Definition rendering (a : gl_attribs) : gl_attribs :=
  a <| Color := (Color a) <| ClampReadColor := 0 |> |>
    <| Depth := (Depth a) <| DepthClear := f64_0 |> |>
    <| Stencil := (Stencil a) <| StencilClear := 0 |> <| ActiveFace := 0 |> |>
    <| Fog := (Fog a) <| _PackedMode := 0 |> |>.

(** [vbo_exec_FlushVertices] outside [glBegin]/[glEnd]: the stored vertices
    are drawn, which makes the driver validate the state marked dirty, and
    the flush bits are cleared. *)
Definition vbo_exec_FlushVertices (flags : Z) (ctx : gl_context) : gl_context :=
  let s := rendering (Attr ctx) in
  (emit (EvDraw s) ctx)
    <| Validated := s |> <| NewState := 0 |> <| NewDriverState := 0 |>
    <| NeedFlush := Z.ldiff (NeedFlush ctx) (Z.lor FLUSH_UPDATE_CURRENT flags) |>.

Definition FLUSH_VERTICES (newstate : Z) (ctx : gl_context) : gl_context :=
  let ctx :=
    if negb (Z.land (NeedFlush ctx) FLUSH_STORED_VERTICES =? 0)
    then vbo_exec_FlushVertices FLUSH_STORED_VERTICES ctx else ctx in
  ctx <| NewState := Z.lor (NewState ctx) newstate |>.

Definition _NEW_COLOR := 2 ^ 3.
Definition _NEW_DEPTH := 2 ^ 4.
Definition _NEW_FOG := 2 ^ 6.
Definition _NEW_HINT := 2 ^ 7.
Definition _NEW_LIGHT := 2 ^ 8.
Definition _NEW_LINE := 2 ^ 9.
Definition _NEW_POINT := 2 ^ 11.
Definition _NEW_POLYGON := 2 ^ 12.
Definition _NEW_SCISSOR := 2 ^ 14.
Definition _NEW_STENCIL := 2 ^ 15.
Definition _NEW_TRANSFORM := 2 ^ 17.
Definition _NEW_VIEWPORT := 2 ^ 18.
Definition _NEW_MULTISAMPLE := 2 ^ 24.
Definition _NEW_FRAG_CLAMP := 2 ^ 29.

(** The idiom every setter starts with: [FLUSH_VERTICES(ctx, flag ? 0 : bit);
    ctx->NewDriverState |= flag;] *)
Definition flush_for (flag : gl_env -> Z) (bit : Z) (ctx : gl_context) : gl_context :=
  let ctx := FLUSH_VERTICES (if flag (env ctx) =? 0 then bit else 0) ctx in
  ctx <| NewDriverState := Z.lor (NewDriverState ctx) (flag (env ctx)) |>.

(** ** Arrays of the context *)

Definition nth_Z {A} (d : A) (l : list A) (i : Z) : A := nth (Z.to_nat i) l d.

Fixpoint upd_nth {A} (n : nat) (f : A -> A) (l : list A) : list A :=
  match l, n with
  | [], _ => []
  | x :: l, O => f x :: l
  | x :: l, S n => x :: upd_nth n f l
  end.

(** [l[i] = f(l[i])] *)
Definition upd_Z {A} (i : Z) (f : A -> A) (l : list A) : list A := upd_nth (Z.to_nat i) f l.

(** Code [k] that accesses element [i] of an array of [n] elements: outside
    the array the access is recorded and nothing else is said about it. *)
Definition at_index (n : nat) (i : Z) (k : gl_context -> gl_context) (ctx : gl_context) : gl_context :=
  if (0 <=? i) && (i <? Z.of_nat n) then k ctx else emit (EvOutOfBounds i) ctx.

(** [for (i = from; i < to; i++) body(i)] *)
Definition for_range (from to : Z) (body : Z -> gl_context -> gl_context) (ctx : gl_context) : gl_context :=
  fold_left (fun c i => body (from + Z.of_nat i) c) (seq 0 (Z.to_nat (to - from))) ctx.
