(* ===== verification/GlFloat.v ===== *)
(** * Floating-point conversions and arithmetic of the GL state setters

    A [float] has 24 bits of precision and a [double] 53. *)

From Stdlib Require Import Bool ZArith List Lia SpecFloat.
From S2P Require Import Prelude GlContext.
Import ListNotations.
#[local] Open Scope bool_scope.
#[local] Open Scope Z_scope.
#[local] Open Scope c_scope.

(** Conversions between the floating-point types. *)
Definition to_format (prec emax : Z) (x : spec_float) : spec_float :=
  match x with
  | S754_finite s m e => binary_normalize prec emax (if s then Zneg m else Zpos m) e s
  | _ => x
  end.
Definition float_of_double : GLdouble -> GLfloat := to_format 24 128.
Definition double_of_float : GLfloat -> GLdouble := to_format 53 1024.

(** [(GLfloat) n] *)
Definition float_of_int (n : Z) : GLfloat := binary_normalize 24 128 n 0 false.

(** The integer part, which conversion to an integer type gives when the type
    has it; C leaves the other conversions undefined. *)
Definition truncate (x : GLfloat) : option Z :=
  match x with
  | S754_zero _ => Some 0
  | S754_finite s m e =>
      let n := if 0 <=? e then Zpos m * 2 ^ e else Zpos m / 2 ^ (- e) in
      Some (if s then - n else n)
  | _ => None
  end.

(** [T v = (T) x; k(v)] for an integer type [T] from [lo] to [hi]. *)
Definition converted (lo hi : Z) (x : GLfloat) (k : Z -> gl_context -> gl_context)
    (ctx : gl_context) : gl_context :=
  match truncate x with
  | Some v => if (lo <=? v) && (v <=? hi) then k v ctx else emit (EvUndefined x) ctx
  | None => emit (EvUndefined x) ctx
  end.
Definition to_GLenum : GLfloat -> (Z -> gl_context -> gl_context) -> gl_context -> gl_context :=
  converted 0 (2 ^ 32 - 1).
Definition to_GLint : GLfloat -> (Z -> gl_context -> gl_context) -> gl_context -> gl_context :=
  converted (- 2 ^ 31) (2 ^ 31 - 1).
Definition to_GLenum16 : GLfloat -> (Z -> gl_context -> gl_context) -> gl_context -> gl_context :=
  converted 0 (2 ^ 16 - 1).

(** [#define MIN2( A, B ) ( (A)<(B) ? (A) : (B) )] and its sibling. *)
Definition MIN2 (a b : spec_float) : spec_float := if SFltb a b then a else b.
Definition MAX2 (a b : spec_float) : spec_float := if SFltb b a then a else b.

(** Arithmetic. *)
Definition f32_add : GLfloat -> GLfloat -> GLfloat := SFadd 24 128.
Definition f32_mul : GLfloat -> GLfloat -> GLfloat := SFmul 24 128.
Definition f64_add : GLdouble -> GLdouble -> GLdouble := SFadd 53 1024.
Definition f64_sub : GLdouble -> GLdouble -> GLdouble := SFsub 53 1024.
Definition f64_mul : GLdouble -> GLdouble -> GLdouble := SFmul 53 1024.
Definition f64_div : GLdouble -> GLdouble -> GLdouble := SFdiv 53 1024.
Definition f32_half : GLfloat := S754_finite false 8388608 (-24).
Definition f64_half : GLdouble := S754_finite false 4503599627370496 (-53).

(** [#define INT_TO_FLOAT(I) ((GLfloat) ((2.0F * (I) + 1.0F) * (1.0F/4294967294.0)))] *)
Definition INT_TO_FLOAT (i : Z) : GLfloat :=
  let x := f32_add (f32_mul (float_of_int 2) (float_of_int i)) f32_1 in
  let y := f64_div f64_1 (binary_normalize 53 1024 4294967294 0 false) in
  float_of_double (f64_mul (double_of_float x) y).

(** Four (three) values through a pointer. *)
Definition vec4_of (v : list GLfloat) : vec4 :=
  Vec4 (nth 0 v f32_0) (nth 1 v f32_0) (nth 2 v f32_0) (nth 3 v f32_0).

Definition TEST_EQ_3V (a b : vec3) : bool :=
  SFeqb (Params_0 a) (Params_0 b) && SFeqb (Params_1 a) (Params_1 b) && SFeqb (Params_2 a) (Params_2 b).

(** ** Facts *)

Lemma SFcompare_antisym x y : SFcompare y x = option_map CompOpp (SFcompare x y).
Proof.
  destruct x as [[]|[]| |[] m e], y as [[]|[]| |[] n f]; try reflexivity; cbn;
    rewrite (Z.compare_antisym e f); destruct (Z.compare e f) eqn:E; cbn; try reflexivity;
    rewrite (Pos.compare_cont_antisym m n Eq); destruct (Pos.compare_cont Eq m n); reflexivity.
Qed.

Lemma SFltb_asym x y : SFltb x y = true -> SFltb y x = false.
Proof.
  unfold SFltb. rewrite (SFcompare_antisym x y). destruct (SFcompare x y) as [[]|]; [discriminate | reflexivity | discriminate..].
Qed.

Lemma SFltb_irrefl x : SFltb x x = false.
Proof. destruct (SFltb x x) eqn:E; [now apply SFltb_asym in E as E'; rewrite E in E' | reflexivity]. Qed.

(** Rounding keeps the sign. *)
Lemma binary_round_aux_sign prec emax m e l :
  let x := binary_round_aux prec emax false m e l in
  x = S754_nan \/ x = S754_zero false \/ x = S754_infinity false \/ exists m e, x = S754_finite false m e.
Proof.
  unfold binary_round_aux. destruct (shr_fexp _ _ m e l) as [r f]. destruct (shr_fexp _ _ _ f _) as [q g].
  destruct (shr_m q); [tauto | destruct (g <=? _); eauto 6 | tauto].
Qed.

Lemma float_of_int_nonneg n : 0 <= n -> SFltb (float_of_int n) f32_0 = false.
Proof.
  intros Hn. unfold float_of_int, binary_normalize. destruct n as [|n|n]; [reflexivity | | lia].
  unfold binary_round. destruct (shl_align n 0 _) as [m e].
  destruct (binary_round_aux_sign 24 128 (Zpos m) e loc_Exact) as [E|[E|[E|(k & f & E)]]]; rewrite E; reflexivity.
Qed.

(** A comparison for equality with a number tells the integer part. *)
Lemma SFeqb_finite x m e : SFeqb x (S754_finite false m e) = true -> x = S754_finite false m e.
Proof.
  unfold SFeqb. destruct x as [[]|[]| |[] n f]; cbn; try discriminate.
  destruct (Z.compare_spec f e) as [->| |]; try discriminate.
  change (Pos.compare_cont Eq n m) with (Pos.compare n m).
  destruct (Pos.compare_spec n m) as [->| |]; try discriminate. reflexivity.
Qed.

Lemma CLAMP_unit x : SFleb f32_0 (CLAMP x f32_0 f32_1) = true /\ SFleb (CLAMP x f32_0 f32_1) f32_1 = true.
Proof.
  unfold CLAMP. destruct (SFltb f32_0 x) eqn:E0; [|split; reflexivity].
  destruct (SFltb f32_1 x) eqn:E1; [split; reflexivity|]. split.
  - revert E0. unfold SFltb, SFleb. destruct (SFcompare f32_0 x) as [[]|]; [discriminate | reflexivity | discriminate..].
  - revert E0 E1. unfold SFltb, SFleb. rewrite (SFcompare_antisym f32_1 x).
    destruct (SFcompare f32_1 x) as [[]|] eqn:E; try reflexivity; try discriminate.
    destruct x as [[]|[]| |[] m e]; discriminate.
Qed.
