(* ===== verification/GlDepth.v ===== *)
(** * Depth buffer state: src/mesa/main/depth.c *)

From Stdlib Require Import Bool ZArith List Lia SpecFloat.
From S2P Require Import Prelude GlContext GlFloat.
Import ListNotations.
#[local] Open Scope bool_scope.
#[local] Open Scope Z_scope.
#[local] Open Scope c_scope.

Definition GL_NEVER := 0x200.
Definition GL_LESS := 0x201.
Definition GL_EQUAL := 0x202.
Definition GL_LEQUAL := 0x203.
Definition GL_GREATER := 0x204.
Definition GL_NOTEQUAL := 0x205.
Definition GL_GEQUAL := 0x206.
Definition GL_ALWAYS := 0x207.

Definition _mesa_ClearDepth (depth : GLdouble) (ctx : gl_context) : gl_context :=
  upd_Depth (fun d => d <| DepthClear := CLAMP depth f64_0 f64_1 |>) ctx.

Definition _mesa_ClearDepthf (depth : GLfloat) (ctx : gl_context) : gl_context :=
  _mesa_ClearDepth (double_of_float depth) ctx.

Definition legal_depth_func (func : Z) : bool :=
  one_of func [GL_LESS; GL_GEQUAL; GL_LEQUAL; GL_GREATER; GL_NOTEQUAL; GL_EQUAL; GL_ALWAYS; GL_NEVER].

Definition depth_func (func : Z) (no_error : bool) (ctx : gl_context) : gl_context :=
  if Func (Depth (Attr ctx)) =? func then ctx else
  if negb no_error && negb (legal_depth_func func) then _mesa_error GL_INVALID_ENUM ctx else
  let ctx := flush_for NewDepth _NEW_DEPTH ctx in
  let ctx := upd_Depth (fun d => d <| Func := e16 func |>) ctx in
  call_driver has_DepthFunc (Drv_DepthFunc func) ctx.

Definition _mesa_DepthFunc_no_error (func : Z) (ctx : gl_context) : gl_context :=
  depth_func func true ctx.

Definition _mesa_DepthFunc (func : Z) (ctx : gl_context) : gl_context :=
  depth_func func false ctx.

Definition _mesa_DepthMask (flag : Z) (ctx : gl_context) : gl_context :=
  if Mask (Depth (Attr ctx)) =? flag then ctx else
  let ctx := flush_for NewDepth _NEW_DEPTH ctx in
  let ctx := upd_Depth (fun d => d <| Mask := flag |>) ctx in
  call_driver has_DepthMask (Drv_DepthMask flag) ctx.

Definition _mesa_DepthBoundsEXT (zmin zmax : GLdouble) (ctx : gl_context) : gl_context :=
  if SFltb zmax zmin then _mesa_error GL_INVALID_VALUE ctx else
  let zmin := CLAMP zmin f64_0 f64_1 in
  let zmax := CLAMP zmax f64_0 f64_1 in
  if SFeqb (double_of_float (BoundsMin (Depth (Attr ctx)))) zmin &&
     SFeqb (double_of_float (BoundsMax (Depth (Attr ctx)))) zmax then ctx else
  let ctx := flush_for NewDepth _NEW_DEPTH ctx in
  upd_Depth (fun d => d <| BoundsMin := float_of_double zmin |>
                        <| BoundsMax := float_of_double zmax |>) ctx.

Definition _mesa_init_depth (ctx : gl_context) : gl_context :=
  upd_Depth (fun d => d <| Test := false |> <| DepthClear := f64_1 |>
                        <| Func := GL_LESS |> <| Mask := 1 |>) ctx.
