(* ===== verification/GlScissor.v ===== *)
(** * Scissor state: src/mesa/main/scissor.c *)

From Stdlib Require Import Bool ZArith List Lia.
From S2P Require Import Prelude GlContext.
Import ListNotations.
#[local] Open Scope bool_scope.
#[local] Open Scope Z_scope.
#[local] Open Scope c_scope.

Definition GL_INCLUSIVE_EXT := 0x8F10.
Definition GL_EXCLUSIVE_EXT := 0x8F11.

Definition rect0 : gl_scissor_rect := ScissorRect 0 0 0 0.

Definition rect_eqb (a b : gl_scissor_rect) : bool :=
  (X a =? X b) && (Y a =? Y b) && (Width a =? Width b) && (Height a =? Height b).

(** The rectangle's four members are passed as one [gl_scissor_rect]. *)
Definition set_scissor_no_notify (idx : Z) (r : gl_scissor_rect) (ctx : gl_context) : gl_context :=
  at_index MAX_VIEWPORTS idx (fun ctx =>
    if rect_eqb r (nth_Z rect0 (ScissorArray (Scissor (Attr ctx))) idx) then ctx else
    let ctx := flush_for NewScissorRect _NEW_SCISSOR ctx in
    upd_Scissor (fun s => s <| ScissorArray := upd_Z idx (fun _ => r) (ScissorArray s) |>) ctx) ctx.

Definition scissor (r : gl_scissor_rect) (ctx : gl_context) : gl_context :=
  let ctx := for_range 0 (MaxViewports (env ctx)) (fun i => set_scissor_no_notify i r) ctx in
  call_driver has_Scissor Drv_Scissor ctx.

Definition _mesa_Scissor_no_error (x y width height : Z) (ctx : gl_context) : gl_context :=
  scissor (ScissorRect x y width height) ctx.

Definition _mesa_Scissor (x y width height : Z) (ctx : gl_context) : gl_context :=
  if (width <? 0) || (height <? 0) then _mesa_error GL_INVALID_VALUE ctx else
  scissor (ScissorRect x y width height) ctx.

Definition _mesa_set_scissor (idx : Z) (r : gl_scissor_rect) (ctx : gl_context) : gl_context :=
  let ctx := set_scissor_no_notify idx r ctx in
  call_driver has_Scissor Drv_Scissor ctx.

(** [rect] is the caller's array; the index [i + first] is computed in
    [unsigned]. *)
Definition scissor_array (first count : Z) (rect : list gl_scissor_rect) (ctx : gl_context) : gl_context :=
  let ctx := for_range 0 count (fun i => set_scissor_no_notify (u32 (i + first)) (nth_Z rect0 rect i)) ctx in
  call_driver has_Scissor Drv_Scissor ctx.

Definition _mesa_ScissorArrayv_no_error (first count : Z) (v : list gl_scissor_rect) (ctx : gl_context) : gl_context :=
  scissor_array first count v ctx.

(** [first] is a [GLuint] and [count] a [GLsizei]: their sum is unsigned. *)
Definition _mesa_ScissorArrayv (first count : Z) (v : list gl_scissor_rect) (ctx : gl_context) : gl_context :=
  if u32 (first + count) >? MaxViewports (env ctx) then _mesa_error GL_INVALID_VALUE ctx else
  if existsb (fun r => (Width r <? 0) || (Height r <? 0)) (firstn (Z.to_nat count) v)
  then _mesa_error GL_INVALID_VALUE ctx else
  scissor_array first count v ctx.

Definition scissor_indexed_err (index : Z) (r : gl_scissor_rect) (ctx : gl_context) : gl_context :=
  if index >=? MaxViewports (env ctx) then _mesa_error GL_INVALID_VALUE ctx else
  if (Width r <? 0) || (Height r <? 0) then _mesa_error GL_INVALID_VALUE ctx else
  _mesa_set_scissor index r ctx.

Definition _mesa_ScissorIndexed_no_error (index left bottom width height : Z) (ctx : gl_context) : gl_context :=
  _mesa_set_scissor index (ScissorRect left bottom width height) ctx.

Definition _mesa_ScissorIndexed (index left bottom width height : Z) (ctx : gl_context) : gl_context :=
  scissor_indexed_err index (ScissorRect left bottom width height) ctx.

(** [v] points to four integers. *)
Definition rect_of (v : list Z) : gl_scissor_rect :=
  ScissorRect (nth 0 v 0) (nth 1 v 0) (nth 2 v 0) (nth 3 v 0).

Definition _mesa_ScissorIndexedv_no_error (index : Z) (v : list Z) (ctx : gl_context) : gl_context :=
  _mesa_set_scissor index (rect_of v) ctx.

Definition _mesa_ScissorIndexedv (index : Z) (v : list Z) (ctx : gl_context) : gl_context :=
  scissor_indexed_err index (rect_of v) ctx.

(** [memcpy(dst, src, count)] on the front of an array. *)
Definition copy_front {A} (src dst : list A) : list A := src ++ skipn (length src) dst.

(** [box] is the caller's array of rectangles; [count] is compared with
    [MaxWindowRectangles] as an unsigned value. *)
Definition _mesa_WindowRectanglesEXT (mode count : Z) (box : list gl_scissor_rect) (ctx : gl_context) : gl_context :=
  if negb (mode =? GL_INCLUSIVE_EXT) && negb (mode =? GL_EXCLUSIVE_EXT)
  then _mesa_error GL_INVALID_ENUM ctx else
  if count <? 0 then _mesa_error GL_INVALID_VALUE ctx else
  if count >? MaxWindowRectangles (env ctx) then _mesa_error GL_INVALID_VALUE ctx else
  let newval := firstn (Z.to_nat count) box in
  if existsb (fun r => (Width r <? 0) || (Height r <? 0)) newval
  then _mesa_error GL_INVALID_VALUE ctx else
  let ctx := FLUSH_VERTICES 0 ctx in
  let ctx := ctx <| NewDriverState := Z.lor (NewDriverState ctx) (NewWindowRectangles (env ctx)) |> in
  upd_Scissor (fun s => s <| WindowRects := copy_front newval (WindowRects s) |>
                          <| NumWindowRects := count |> <| WindowRectMode := e16 mode |>) ctx.

Definition _mesa_init_scissor (ctx : gl_context) : gl_context :=
  let ctx := upd_Scissor (fun s => s <| EnableFlags := 0 |> <| WindowRectMode := GL_EXCLUSIVE_EXT |>) ctx in
  for_range 0 (Z.of_nat MAX_VIEWPORTS) (fun i => set_scissor_no_notify i rect0) ctx.
