(* ===== verification/GlStencil.v ===== *)
(** * Stencil state: src/mesa/main/stencil.c *)

From Stdlib Require Import Bool ZArith List Lia.
From S2P Require Import Prelude GlContext GlDepth.
Import ListNotations.
#[local] Open Scope bool_scope.
#[local] Open Scope Z_scope.
#[local] Open Scope c_scope.

Definition GL_ZERO := 0.
Definition GL_KEEP := 0x1E00.
Definition GL_REPLACE := 0x1E01.
Definition GL_INCR := 0x1E02.
Definition GL_DECR := 0x1E03.
Definition GL_INVERT := 0x150A.
Definition GL_INCR_WRAP := 0x8507.
Definition GL_DECR_WRAP := 0x8508.
Definition GL_FRONT := 0x404.
Definition GL_BACK := 0x405.
Definition GL_FRONT_AND_BACK := 0x408.

Definition validate_stencil_op (op : Z) : bool :=
  one_of op [GL_KEEP; GL_ZERO; GL_REPLACE; GL_INCR; GL_DECR; GL_INVERT; GL_INCR_WRAP; GL_DECR_WRAP].

Definition validate_stencil_func (func : Z) : bool :=
  one_of func [GL_NEVER; GL_LESS; GL_LEQUAL; GL_GREATER; GL_GEQUAL; GL_EQUAL; GL_NOTEQUAL; GL_ALWAYS].

(** [ctx->Stencil.array[face]] *)
Definition st (array : gl_stencil_attrib -> list Z) (face : Z) (ctx : gl_context) : Z :=
  nth_Z 0 (array (Stencil (Attr ctx))) face.

Definition set_at (face v : Z) (l : list Z) : list Z := upd_Z face (fun _ => v) l.

Definition _mesa_ClearStencil (s : Z) (ctx : gl_context) : gl_context :=
  upd_Stencil (fun r => r <| StencilClear := u32 s |>) ctx.

(** The three assignments of [glStencilFunc] to one face. *)
Definition store_func (face func ref mask : Z) (r : gl_stencil_attrib) : gl_stencil_attrib :=
  r <| Function_ := set_at face (e16 func) (Function_ r) |>
    <| Ref := set_at face ref (Ref r) |>
    <| ValueMask := set_at face mask (ValueMask r) |>.

(** The three assignments of [glStencilOp] to one face. *)
Definition store_op (face fail zfail zpass : Z) (r : gl_stencil_attrib) : gl_stencil_attrib :=
  r <| ZFailFunc := set_at face (e16 zfail) (ZFailFunc r) |>
    <| ZPassFunc := set_at face (e16 zpass) (ZPassFunc r) |>
    <| FailFunc := set_at face (e16 fail) (FailFunc r) |>.

Definition store_mask (face mask : Z) (r : gl_stencil_attrib) : gl_stencil_attrib :=
  r <| WriteMask := set_at face mask (WriteMask r) |>.

(** [Function[face] == func && ValueMask[face] == mask && Ref[face] == ref] *)
Definition same_func (face func ref mask : Z) (ctx : gl_context) : bool :=
  (st Function_ face ctx =? func) && (st ValueMask face ctx =? mask) && (st Ref face ctx =? ref).

Definition same_op (face fail zfail zpass : Z) (ctx : gl_context) : bool :=
  (st ZFailFunc face ctx =? zfail) && (st ZPassFunc face ctx =? zpass) && (st FailFunc face ctx =? fail).

Definition _mesa_StencilFuncSeparateATI (frontfunc backfunc ref mask : Z) (ctx : gl_context) : gl_context :=
  if negb (validate_stencil_func frontfunc) then _mesa_error GL_INVALID_ENUM ctx else
  if negb (validate_stencil_func backfunc) then _mesa_error GL_INVALID_ENUM ctx else
  if same_func 0 frontfunc ref mask ctx && same_func 1 backfunc ref mask ctx then ctx else
  let ctx := flush_for NewStencil _NEW_STENCIL ctx in
  let ctx := upd_Stencil (fun r => store_func 1 backfunc ref mask (store_func 0 frontfunc ref mask r)) ctx in
  let ctx := call_driver has_StencilFuncSeparate (Drv_StencilFuncSeparate GL_FRONT frontfunc ref mask) ctx in
  call_driver has_StencilFuncSeparate (Drv_StencilFuncSeparate GL_BACK backfunc ref mask) ctx.

(** [ctx->Stencil.TestTwoSide ? GL_FRONT : GL_FRONT_AND_BACK] *)
Definition front_face (ctx : gl_context) : Z :=
  if TestTwoSide (Stencil (Attr ctx)) then GL_FRONT else GL_FRONT_AND_BACK.

(** [if (has && ctx->Stencil.TestTwoSide) call] *)
Definition call_driver_two_side (has : gl_env -> bool) (d : driver_call) (ctx : gl_context) : gl_context :=
  if TestTwoSide (Stencil (Attr ctx)) then call_driver has d ctx else ctx.

Definition stencil_func (func ref mask : Z) (ctx : gl_context) : gl_context :=
  let face := ActiveFace (Stencil (Attr ctx)) in
  if negb (face =? 0) then
    if same_func face func ref mask ctx then ctx else
    let ctx := flush_for NewStencil _NEW_STENCIL ctx in
    let ctx := upd_Stencil (store_func face func ref mask) ctx in
    call_driver_two_side has_StencilFuncSeparate (Drv_StencilFuncSeparate GL_BACK func ref mask) ctx
  else
    if same_func 0 func ref mask ctx && same_func 1 func ref mask ctx then ctx else
    let ctx := flush_for NewStencil _NEW_STENCIL ctx in
    let ctx := upd_Stencil (fun r => store_func 1 func ref mask (store_func 0 func ref mask r)) ctx in
    call_driver has_StencilFuncSeparate (Drv_StencilFuncSeparate (front_face ctx) func ref mask) ctx.

Definition _mesa_StencilFunc_no_error (func ref mask : Z) (ctx : gl_context) : gl_context :=
  stencil_func func ref mask ctx.

Definition _mesa_StencilFunc (func ref mask : Z) (ctx : gl_context) : gl_context :=
  if negb (validate_stencil_func func) then _mesa_error GL_INVALID_ENUM ctx else
  stencil_func func ref mask ctx.

Definition _mesa_StencilMask (mask : Z) (ctx : gl_context) : gl_context :=
  let face := ActiveFace (Stencil (Attr ctx)) in
  if negb (face =? 0) then
    if st WriteMask face ctx =? mask then ctx else
    let ctx := flush_for NewStencil _NEW_STENCIL ctx in
    let ctx := upd_Stencil (store_mask face mask) ctx in
    call_driver_two_side has_StencilMaskSeparate (Drv_StencilMaskSeparate GL_BACK mask) ctx
  else
    if (st WriteMask 0 ctx =? mask) && (st WriteMask 1 ctx =? mask) then ctx else
    let ctx := flush_for NewStencil _NEW_STENCIL ctx in
    let ctx := upd_Stencil (fun r => store_mask 1 mask (store_mask 0 mask r)) ctx in
    call_driver has_StencilMaskSeparate (Drv_StencilMaskSeparate (front_face ctx) mask) ctx.

Definition stencil_op (fail zfail zpass : Z) (ctx : gl_context) : gl_context :=
  let face := ActiveFace (Stencil (Attr ctx)) in
  if negb (face =? 0) then
    if same_op face fail zfail zpass ctx then ctx else
    let ctx := flush_for NewStencil _NEW_STENCIL ctx in
    let ctx := upd_Stencil (store_op face fail zfail zpass) ctx in
    call_driver_two_side has_StencilOpSeparate (Drv_StencilOpSeparate GL_BACK fail zfail zpass) ctx
  else
    if same_op 0 fail zfail zpass ctx && same_op 1 fail zfail zpass ctx then ctx else
    let ctx := flush_for NewStencil _NEW_STENCIL ctx in
    let ctx := upd_Stencil (fun r => store_op 1 fail zfail zpass (store_op 0 fail zfail zpass r)) ctx in
    call_driver has_StencilOpSeparate (Drv_StencilOpSeparate (front_face ctx) fail zfail zpass) ctx.

Definition _mesa_StencilOp_no_error (fail zfail zpass : Z) (ctx : gl_context) : gl_context :=
  stencil_op fail zfail zpass ctx.

Definition _mesa_StencilOp (fail zfail zpass : Z) (ctx : gl_context) : gl_context :=
  if negb (validate_stencil_op fail) then _mesa_error GL_INVALID_ENUM ctx else
  if negb (validate_stencil_op zfail) then _mesa_error GL_INVALID_ENUM ctx else
  if negb (validate_stencil_op zpass) then _mesa_error GL_INVALID_ENUM ctx else
  stencil_op fail zfail zpass ctx.

Definition _mesa_ActiveStencilFaceEXT (face : Z) (ctx : gl_context) : gl_context :=
  if negb (EXT_stencil_two_side (env ctx)) then _mesa_error GL_INVALID_OPERATION ctx else
  if (face =? GL_FRONT) || (face =? GL_BACK) then
    upd_Stencil (fun r => r <| ActiveFace := if face =? GL_FRONT then 0 else 2 |>) ctx
  else _mesa_error GL_INVALID_ENUM ctx.

(** One of the two blocks of [stencil_op_separate]; the result also says
    whether [set] was assigned. *)
Definition set_op_face (i sfail zfail zpass : Z) (ctx : gl_context) : bool * gl_context :=
  if same_op i sfail zfail zpass ctx then (false, ctx) else
  let ctx := flush_for NewStencil _NEW_STENCIL ctx in
  (true, upd_Stencil (store_op i sfail zfail zpass) ctx).

Definition stencil_op_separate (face sfail zfail zpass : Z) (ctx : gl_context) : gl_context :=
  let '(set0, ctx) := if negb (face =? GL_BACK) then set_op_face 0 sfail zfail zpass ctx else (false, ctx) in
  let '(set1, ctx) := if negb (face =? GL_FRONT) then set_op_face 1 sfail zfail zpass ctx else (false, ctx) in
  if set0 || set1 then
    call_driver has_StencilOpSeparate (Drv_StencilOpSeparate face sfail zfail zpass) ctx
  else ctx.

Definition _mesa_StencilOpSeparate_no_error (face sfail zfail zpass : Z) (ctx : gl_context) : gl_context :=
  stencil_op_separate face sfail zfail zpass ctx.

(** [face] is one of the three faces. *)
Definition legal_face (face : Z) : bool := one_of face [GL_FRONT; GL_BACK; GL_FRONT_AND_BACK].

Definition _mesa_StencilOpSeparate (face sfail zfail zpass : Z) (ctx : gl_context) : gl_context :=
  if negb (validate_stencil_op sfail) then _mesa_error GL_INVALID_ENUM ctx else
  if negb (validate_stencil_op zfail) then _mesa_error GL_INVALID_ENUM ctx else
  if negb (validate_stencil_op zpass) then _mesa_error GL_INVALID_ENUM ctx else
  if negb (legal_face face) then _mesa_error GL_INVALID_ENUM ctx else
  stencil_op_separate face sfail zfail zpass ctx.

Definition stencil_func_separate (face func ref mask : Z) (ctx : gl_context) : gl_context :=
  let ctx := flush_for NewStencil _NEW_STENCIL ctx in
  let ctx := if negb (face =? GL_BACK) then upd_Stencil (store_func 0 func ref mask) ctx else ctx in
  let ctx := if negb (face =? GL_FRONT) then upd_Stencil (store_func 1 func ref mask) ctx else ctx in
  call_driver has_StencilFuncSeparate (Drv_StencilFuncSeparate face func ref mask) ctx.

Definition _mesa_StencilFuncSeparate_no_error (face func ref mask : Z) (ctx : gl_context) : gl_context :=
  stencil_func_separate face func ref mask ctx.

Definition _mesa_StencilFuncSeparate (face func ref mask : Z) (ctx : gl_context) : gl_context :=
  if negb (legal_face face) then _mesa_error GL_INVALID_ENUM ctx else
  if negb (validate_stencil_func func) then _mesa_error GL_INVALID_ENUM ctx else
  stencil_func_separate face func ref mask ctx.

Definition stencil_mask_separate (face mask : Z) (ctx : gl_context) : gl_context :=
  let ctx := flush_for NewStencil _NEW_STENCIL ctx in
  let ctx := if negb (face =? GL_BACK) then upd_Stencil (store_mask 0 mask) ctx else ctx in
  let ctx := if negb (face =? GL_FRONT) then upd_Stencil (store_mask 1 mask) ctx else ctx in
  call_driver has_StencilMaskSeparate (Drv_StencilMaskSeparate face mask) ctx.

Definition _mesa_StencilMaskSeparate_no_error (face mask : Z) (ctx : gl_context) : gl_context :=
  stencil_mask_separate face mask ctx.

Definition _mesa_StencilMaskSeparate (face mask : Z) (ctx : gl_context) : gl_context :=
  if negb (legal_face face) then _mesa_error GL_INVALID_ENUM ctx else
  stencil_mask_separate face mask ctx.

Definition _mesa_init_stencil (ctx : gl_context) : gl_context :=
  upd_Stencil (fun _ =>
    StencilAttrib false false 0 1
      [GL_ALWAYS; GL_ALWAYS; GL_ALWAYS] [GL_KEEP; GL_KEEP; GL_KEEP]
      [GL_KEEP; GL_KEEP; GL_KEEP] [GL_KEEP; GL_KEEP; GL_KEEP]
      [0; 0; 0] [0xFF; 0xFF; 0xFF] [0xFF; 0xFF; 0xFF] 0) ctx.
