(* ===== verification/GlBlend.v ===== *)
(** * Colour buffer state: src/mesa/main/blend.c and blend.h *)

From Stdlib Require Import Bool ZArith List Lia SpecFloat.
From S2P Require Import Prelude GlContext GlDepth GlStencil.
Import ListNotations.
#[local] Open Scope bool_scope.
#[local] Open Scope Z_scope.
#[local] Open Scope c_scope.

(** ** Enumerants *)

Definition GL_ONE := 1.
Definition GL_SRC_COLOR := 0x300.
Definition GL_ONE_MINUS_SRC_COLOR := 0x301.
Definition GL_SRC_ALPHA := 0x302.
Definition GL_ONE_MINUS_SRC_ALPHA := 0x303.
Definition GL_DST_ALPHA := 0x304.
Definition GL_ONE_MINUS_DST_ALPHA := 0x305.
Definition GL_DST_COLOR := 0x306.
Definition GL_ONE_MINUS_DST_COLOR := 0x307.
Definition GL_SRC_ALPHA_SATURATE := 0x308.
Definition GL_CONSTANT_COLOR := 0x8001.
Definition GL_ONE_MINUS_CONSTANT_COLOR := 0x8002.
Definition GL_CONSTANT_ALPHA := 0x8003.
Definition GL_ONE_MINUS_CONSTANT_ALPHA := 0x8004.
Definition GL_SRC1_ALPHA := 0x8589.
Definition GL_SRC1_COLOR := 0x88F9.
Definition GL_ONE_MINUS_SRC1_COLOR := 0x88FA.
Definition GL_ONE_MINUS_SRC1_ALPHA := 0x88FB.
Definition GL_FUNC_ADD := 0x8006.
Definition GL_MIN := 0x8007.
Definition GL_MAX := 0x8008.
Definition GL_FUNC_SUBTRACT := 0x800A.
Definition GL_FUNC_REVERSE_SUBTRACT := 0x800B.
Definition GL_MULTIPLY_KHR := 0x9294.
Definition GL_SCREEN_KHR := 0x9295.
Definition GL_OVERLAY_KHR := 0x9296.
Definition GL_DARKEN_KHR := 0x9297.
Definition GL_LIGHTEN_KHR := 0x9298.
Definition GL_COLORDODGE_KHR := 0x9299.
Definition GL_COLORBURN_KHR := 0x929A.
Definition GL_HARDLIGHT_KHR := 0x929B.
Definition GL_SOFTLIGHT_KHR := 0x929C.
Definition GL_DIFFERENCE_KHR := 0x929E.
Definition GL_EXCLUSION_KHR := 0x92A0.
Definition GL_HSL_HUE_KHR := 0x92AD.
Definition GL_HSL_SATURATION_KHR := 0x92AE.
Definition GL_HSL_COLOR_KHR := 0x92AF.
Definition GL_HSL_LUMINOSITY_KHR := 0x92B0.
Definition GL_CLEAR := 0x1500.
Definition GL_AND := 0x1501.
Definition GL_AND_REVERSE := 0x1502.
Definition GL_COPY := 0x1503.
Definition GL_AND_INVERTED := 0x1504.
Definition GL_NOOP := 0x1505.
Definition GL_XOR := 0x1506.
Definition GL_OR := 0x1507.
Definition GL_NOR := 0x1508.
Definition GL_EQUIV := 0x1509.
Definition GL_OR_REVERSE := 0x150B.
Definition GL_COPY_INVERTED := 0x150C.
Definition GL_OR_INVERTED := 0x150D.
Definition GL_NAND := 0x150E.
Definition GL_SET := 0x150F.
Definition GL_TRUE := 1.
Definition GL_FALSE := 0.
Definition GL_FIXED_ONLY_ARB := 0x891D.
Definition GL_CLAMP_VERTEX_COLOR_ARB := 0x891A.
Definition GL_CLAMP_FRAGMENT_COLOR_ARB := 0x891B.
Definition GL_CLAMP_READ_COLOR_ARB := 0x891C.

(** [enum gl_advanced_blend_mode] *)
Definition BLEND_NONE := 0.
Definition BLEND_MULTIPLY := 0x1.
Definition BLEND_SCREEN := 0x2.
Definition BLEND_OVERLAY := 0x4.
Definition BLEND_DARKEN := 0x8.
Definition BLEND_LIGHTEN := 0x10.
Definition BLEND_COLORDODGE := 0x20.
Definition BLEND_COLORBURN := 0x40.
Definition BLEND_HARDLIGHT := 0x80.
Definition BLEND_SOFTLIGHT := 0x100.
Definition BLEND_DIFFERENCE := 0x200.
Definition BLEND_EXCLUSION := 0x400.
Definition BLEND_HSL_HUE := 0x800.
Definition BLEND_HSL_SATURATION := 0x1000.
Definition BLEND_HSL_COLOR := 0x2000.
Definition BLEND_HSL_LUMINOSITY := 0x4000.

(** [enum gl_logicop_mode] *)
Definition COLOR_LOGICOP_CLEAR := 0.
Definition COLOR_LOGICOP_NOR := 1.
Definition COLOR_LOGICOP_AND_INVERTED := 2.
Definition COLOR_LOGICOP_COPY_INVERTED := 3.
Definition COLOR_LOGICOP_AND_REVERSE := 4.
Definition COLOR_LOGICOP_INVERT := 5.
Definition COLOR_LOGICOP_XOR := 6.
Definition COLOR_LOGICOP_NAND := 7.
Definition COLOR_LOGICOP_AND := 8.
Definition COLOR_LOGICOP_EQUIV := 9.
Definition COLOR_LOGICOP_NOOP := 10.
Definition COLOR_LOGICOP_OR_INVERTED := 11.
Definition COLOR_LOGICOP_COPY := 12.
Definition COLOR_LOGICOP_OR_REVERSE := 13.
Definition COLOR_LOGICOP_OR := 14.
Definition COLOR_LOGICOP_SET := 15.

(** ** Blend factors *)

Definition constant_factors : list Z :=
  [GL_CONSTANT_COLOR; GL_ONE_MINUS_CONSTANT_COLOR; GL_CONSTANT_ALPHA; GL_ONE_MINUS_CONSTANT_ALPHA].
Definition src1_factors : list Z :=
  [GL_SRC1_COLOR; GL_SRC1_ALPHA; GL_ONE_MINUS_SRC1_COLOR; GL_ONE_MINUS_SRC1_ALPHA].

Definition legal_src_factor (e : gl_env) (factor : Z) : bool :=
  if one_of factor [GL_SRC_COLOR; GL_ONE_MINUS_SRC_COLOR; GL_ZERO; GL_ONE; GL_DST_COLOR;
                    GL_ONE_MINUS_DST_COLOR; GL_SRC_ALPHA; GL_ONE_MINUS_SRC_ALPHA; GL_DST_ALPHA;
                    GL_ONE_MINUS_DST_ALPHA; GL_SRC_ALPHA_SATURATE] then true
  else if one_of factor constant_factors then
    _mesa_is_desktop_gl e || gl_api_eqb (API e) API_OPENGLES2
  else if one_of factor src1_factors then
    negb (gl_api_eqb (API e) API_OPENGLES) && ARB_blend_func_extended e
  else false.

Definition legal_dst_factor (e : gl_env) (factor : Z) : bool :=
  if one_of factor [GL_DST_COLOR; GL_ONE_MINUS_DST_COLOR; GL_ZERO; GL_ONE; GL_SRC_COLOR;
                    GL_ONE_MINUS_SRC_COLOR; GL_SRC_ALPHA; GL_ONE_MINUS_SRC_ALPHA; GL_DST_ALPHA;
                    GL_ONE_MINUS_DST_ALPHA] then true
  else if one_of factor constant_factors then
    _mesa_is_desktop_gl e || gl_api_eqb (API e) API_OPENGLES2
  else if factor =? GL_SRC_ALPHA_SATURATE then
    (negb (gl_api_eqb (API e) API_OPENGLES) && ARB_blend_func_extended e) || _mesa_is_gles3 e
  else if one_of factor src1_factors then
    negb (gl_api_eqb (API e) API_OPENGLES) && ARB_blend_func_extended e
  else false.

(** Either the factors are legal, or the context after the error. *)
Definition validate_blend_factors (sfactorRGB dfactorRGB sfactorA dfactorA : Z) (ctx : gl_context)
    : bool * gl_context :=
  let e := env ctx in
  if negb (legal_src_factor e sfactorRGB) then (false, _mesa_error GL_INVALID_ENUM ctx) else
  if negb (legal_dst_factor e dfactorRGB) then (false, _mesa_error GL_INVALID_ENUM ctx) else
  if negb (sfactorA =? sfactorRGB) && negb (legal_src_factor e sfactorA)
  then (false, _mesa_error GL_INVALID_ENUM ctx) else
  if negb (dfactorA =? dfactorRGB) && negb (legal_dst_factor e dfactorA)
  then (false, _mesa_error GL_INVALID_ENUM ctx) else (true, ctx).

Definition blend_factor_is_dual_src (factor : Z) : bool :=
  (factor =? GL_SRC1_COLOR) || (factor =? GL_SRC1_ALPHA) ||
  (factor =? GL_ONE_MINUS_SRC1_COLOR) || (factor =? GL_ONE_MINUS_SRC1_ALPHA).

Definition blend0 : blend_attrib := BlendAttrib 0 0 0 0 0 0 false.

(** [ctx->Color.Blend[buf]] *)
Definition blend_at (buf : Z) (ctx : gl_context) : blend_attrib :=
  nth_Z blend0 (Blend (Color (Attr ctx))) buf.

Definition upd_blend (buf : Z) (f : blend_attrib -> blend_attrib) (ctx : gl_context) : gl_context :=
  upd_Color (fun c => c <| Blend := upd_Z buf f (Blend c) |>) ctx.

Definition uses_dual_src (b : blend_attrib) : bool :=
  blend_factor_is_dual_src (SrcRGB b) || blend_factor_is_dual_src (DstRGB b) ||
  blend_factor_is_dual_src (SrcA b) || blend_factor_is_dual_src (DstA b).

Definition update_uses_dual_src (buf : Z) (ctx : gl_context) : gl_context :=
  upd_blend buf (fun b => b <| _UsesDualSrc := uses_dual_src b |>) ctx.

Definition num_buffers (e : gl_env) : Z :=
  if ARB_draw_buffers_blend e then MaxDrawBuffers e else 1.

(** [for (buf = 0; buf < n; buf++) if (!p(Blend[buf])) return false; return true] *)
Definition all_buffers (n : Z) (p : blend_attrib -> bool) (ctx : gl_context) : bool :=
  forallb p (firstn (Z.to_nat n) (Blend (Color (Attr ctx)))).

Definition same_factors (sfactorRGB dfactorRGB sfactorA dfactorA : Z) (b : blend_attrib) : bool :=
  (SrcRGB b =? sfactorRGB) && (DstRGB b =? dfactorRGB) && (SrcA b =? sfactorA) && (DstA b =? dfactorA).

Definition skip_blend_state_update (sfactorRGB dfactorRGB sfactorA dfactorA : Z) (ctx : gl_context) : bool :=
  if _BlendFuncPerBuffer (Color (Attr ctx)) then
    all_buffers (num_buffers (env ctx)) (same_factors sfactorRGB dfactorRGB sfactorA dfactorA) ctx
  else same_factors sfactorRGB dfactorRGB sfactorA dfactorA (blend_at 0 ctx).

Definition store_factors (sfactorRGB dfactorRGB sfactorA dfactorA : Z) (b : blend_attrib) : blend_attrib :=
  b <| SrcRGB := e16 sfactorRGB |> <| DstRGB := e16 dfactorRGB |>
    <| SrcA := e16 sfactorA |> <| DstA := e16 dfactorA |>.

Definition blend_func_separate (sfactorRGB dfactorRGB sfactorA dfactorA : Z) (ctx : gl_context) : gl_context :=
  let ctx := flush_for NewBlend _NEW_COLOR ctx in
  let numBuffers := num_buffers (env ctx) in
  let ctx := for_range 0 numBuffers (fun buf =>
               upd_blend buf (store_factors sfactorRGB dfactorRGB sfactorA dfactorA)) ctx in
  let ctx := update_uses_dual_src 0 ctx in
  let ctx := for_range 1 numBuffers (fun buf ctx =>
               upd_blend buf (fun b => b <| _UsesDualSrc := _UsesDualSrc (blend_at 0 ctx) |>) ctx) ctx in
  let ctx := upd_Color (fun c => c <| _BlendFuncPerBuffer := false |>) ctx in
  call_driver has_BlendFuncSeparate (Drv_BlendFuncSeparate sfactorRGB dfactorRGB sfactorA dfactorA) ctx.

Definition _mesa_BlendFunc (sfactor dfactor : Z) (ctx : gl_context) : gl_context :=
  if skip_blend_state_update sfactor dfactor sfactor dfactor ctx then ctx else
  let '(ok, ctx) := validate_blend_factors sfactor dfactor sfactor dfactor ctx in
  if negb ok then ctx else
  blend_func_separate sfactor dfactor sfactor dfactor ctx.

Definition _mesa_BlendFunc_no_error (sfactor dfactor : Z) (ctx : gl_context) : gl_context :=
  if skip_blend_state_update sfactor dfactor sfactor dfactor ctx then ctx else
  blend_func_separate sfactor dfactor sfactor dfactor ctx.

Definition _mesa_BlendFuncSeparate (sfactorRGB dfactorRGB sfactorA dfactorA : Z) (ctx : gl_context) : gl_context :=
  if skip_blend_state_update sfactorRGB dfactorRGB sfactorA dfactorA ctx then ctx else
  let '(ok, ctx) := validate_blend_factors sfactorRGB dfactorRGB sfactorA dfactorA ctx in
  if negb ok then ctx else
  blend_func_separate sfactorRGB dfactorRGB sfactorA dfactorA ctx.

Definition _mesa_BlendFuncSeparate_no_error (sfactorRGB dfactorRGB sfactorA dfactorA : Z) (ctx : gl_context) : gl_context :=
  if skip_blend_state_update sfactorRGB dfactorRGB sfactorA dfactorA ctx then ctx else
  blend_func_separate sfactorRGB dfactorRGB sfactorA dfactorA ctx.

Definition blend_func_separatei (buf sfactorRGB dfactorRGB sfactorA dfactorA : Z) (no_error : bool)
    (ctx : gl_context) : gl_context :=
  if negb no_error && negb (ARB_draw_buffers_blend (env ctx)) then _mesa_error GL_INVALID_OPERATION ctx else
  if negb no_error && (buf >=? MaxDrawBuffers (env ctx)) then _mesa_error GL_INVALID_VALUE ctx else
  at_index MAX_DRAW_BUFFERS buf (fun ctx =>
    if same_factors sfactorRGB dfactorRGB sfactorA dfactorA (blend_at buf ctx) then ctx else
    let '(ok, ctx) := if no_error then (true, ctx)
                      else validate_blend_factors sfactorRGB dfactorRGB sfactorA dfactorA ctx in
    if negb ok then ctx else
    let ctx := flush_for NewBlend _NEW_COLOR ctx in
    let ctx := upd_blend buf (store_factors sfactorRGB dfactorRGB sfactorA dfactorA) ctx in
    let ctx := update_uses_dual_src buf ctx in
    upd_Color (fun c => c <| _BlendFuncPerBuffer := true |>) ctx) ctx.

Definition _mesa_BlendFuncSeparateiARB_no_error (buf sfactorRGB dfactorRGB sfactorA dfactorA : Z)
    (ctx : gl_context) : gl_context :=
  blend_func_separatei buf sfactorRGB dfactorRGB sfactorA dfactorA true ctx.

Definition _mesa_BlendFuncSeparateiARB (buf sfactorRGB dfactorRGB sfactorA dfactorA : Z)
    (ctx : gl_context) : gl_context :=
  blend_func_separatei buf sfactorRGB dfactorRGB sfactorA dfactorA false ctx.

Definition _mesa_BlendFunciARB_no_error (buf sfactor dfactor : Z) (ctx : gl_context) : gl_context :=
  _mesa_BlendFuncSeparateiARB_no_error buf sfactor dfactor sfactor dfactor ctx.

Definition _mesa_BlendFunciARB (buf sfactor dfactor : Z) (ctx : gl_context) : gl_context :=
  _mesa_BlendFuncSeparateiARB buf sfactor dfactor sfactor dfactor ctx.

(** ** Blend equations *)

Definition legal_simple_blend_equation (e : gl_env) (mode : Z) : bool :=
  if one_of mode [GL_FUNC_ADD; GL_FUNC_SUBTRACT; GL_FUNC_REVERSE_SUBTRACT] then true
  else if one_of mode [GL_MIN; GL_MAX] then EXT_blend_minmax e
  else false.

Definition advanced_blend_modes : list (Z * Z) :=
  [(GL_MULTIPLY_KHR, BLEND_MULTIPLY); (GL_SCREEN_KHR, BLEND_SCREEN);
   (GL_OVERLAY_KHR, BLEND_OVERLAY); (GL_DARKEN_KHR, BLEND_DARKEN);
   (GL_LIGHTEN_KHR, BLEND_LIGHTEN); (GL_COLORDODGE_KHR, BLEND_COLORDODGE);
   (GL_COLORBURN_KHR, BLEND_COLORBURN); (GL_HARDLIGHT_KHR, BLEND_HARDLIGHT);
   (GL_SOFTLIGHT_KHR, BLEND_SOFTLIGHT); (GL_DIFFERENCE_KHR, BLEND_DIFFERENCE);
   (GL_EXCLUSION_KHR, BLEND_EXCLUSION); (GL_HSL_HUE_KHR, BLEND_HSL_HUE);
   (GL_HSL_SATURATION_KHR, BLEND_HSL_SATURATION); (GL_HSL_COLOR_KHR, BLEND_HSL_COLOR);
   (GL_HSL_LUMINOSITY_KHR, BLEND_HSL_LUMINOSITY)].

Definition advanced_blend_mode_from_gl_enum (mode : Z) : Z :=
  match find (fun p => mode =? fst p) advanced_blend_modes with
  | Some p => snd p
  | None => BLEND_NONE
  end.

Definition advanced_blend_mode (e : gl_env) (mode : Z) : Z :=
  if _mesa_has_KHR_blend_equation_advanced e then advanced_blend_mode_from_gl_enum mode else BLEND_NONE.

Definition _mesa_get_advanced_blend_sh_constant (blend_enabled mode : Z) : Z :=
  if negb (blend_enabled =? 0) then mode else BLEND_NONE.

Definition _mesa_advanded_blend_sh_constant_changed (new_blend_enabled new_mode : Z) (ctx : gl_context) : bool :=
  negb (_mesa_get_advanced_blend_sh_constant new_blend_enabled new_mode =?
        _mesa_get_advanced_blend_sh_constant (BlendEnabled (Color (Attr ctx)))
                                             (_AdvancedBlendMode (Color (Attr ctx)))).

Definition _mesa_flush_vertices_for_blend_state (ctx : gl_context) : gl_context :=
  if NewBlend (env ctx) =? 0 then FLUSH_VERTICES _NEW_COLOR ctx
  else
    let ctx := FLUSH_VERTICES 0 ctx in
    ctx <| NewDriverState := Z.lor (NewDriverState ctx) (NewBlend (env ctx)) |>.

Definition _mesa_flush_vertices_for_blend_adv (new_blend_enabled new_mode : Z) (ctx : gl_context) : gl_context :=
  if _mesa_has_KHR_blend_equation_advanced (env ctx) &&
     _mesa_advanded_blend_sh_constant_changed new_blend_enabled new_mode ctx then
    let ctx := FLUSH_VERTICES _NEW_COLOR ctx in
    ctx <| NewDriverState := Z.lor (NewDriverState ctx) (NewBlend (env ctx)) |>
  else _mesa_flush_vertices_for_blend_state ctx.

Definition same_equations (modeRGB modeA : Z) (b : blend_attrib) : bool :=
  (EquationRGB b =? modeRGB) && (EquationA b =? modeA).

Definition store_equations (modeRGB modeA : Z) (b : blend_attrib) : blend_attrib :=
  b <| EquationRGB := e16 modeRGB |> <| EquationA := e16 modeA |>.

(** The test for a change at the head of [_mesa_BlendEquation] and of
    [blend_equation_separate]. *)
Definition equations_changed (modeRGB modeA : Z) (ctx : gl_context) : bool :=
  if _BlendEquationPerBuffer (Color (Attr ctx)) then
    negb (all_buffers (num_buffers (env ctx)) (same_equations modeRGB modeA) ctx)
  else negb (same_equations modeRGB modeA (blend_at 0 ctx)).

Definition _mesa_BlendEquation (mode : Z) (ctx : gl_context) : gl_context :=
  let numBuffers := num_buffers (env ctx) in
  let advanced_mode := advanced_blend_mode (env ctx) mode in
  if negb (equations_changed mode mode ctx) then ctx else
  if negb (legal_simple_blend_equation (env ctx) mode) && (advanced_mode =? BLEND_NONE)
  then _mesa_error GL_INVALID_ENUM ctx else
  let ctx := _mesa_flush_vertices_for_blend_adv (BlendEnabled (Color (Attr ctx))) advanced_mode ctx in
  let ctx := for_range 0 numBuffers (fun buf => upd_blend buf (store_equations mode mode)) ctx in
  let ctx := upd_Color (fun c => c <| _BlendEquationPerBuffer := false |>
                                   <| _AdvancedBlendMode := advanced_mode |>) ctx in
  call_driver has_BlendEquationSeparate (Drv_BlendEquationSeparate mode mode) ctx.

Definition blend_equationi (buf mode advanced_mode : Z) (ctx : gl_context) : gl_context :=
  at_index MAX_DRAW_BUFFERS buf (fun ctx =>
    if same_equations mode mode (blend_at buf ctx) then ctx else
    let ctx := _mesa_flush_vertices_for_blend_adv (BlendEnabled (Color (Attr ctx))) advanced_mode ctx in
    let ctx := upd_blend buf (store_equations mode mode) ctx in
    let ctx := upd_Color (fun c => c <| _BlendEquationPerBuffer := true |>) ctx in
    if buf =? 0 then upd_Color (fun c => c <| _AdvancedBlendMode := advanced_mode |>) ctx else ctx) ctx.

Definition _mesa_BlendEquationiARB_no_error (buf mode : Z) (ctx : gl_context) : gl_context :=
  blend_equationi buf mode (advanced_blend_mode (env ctx) mode) ctx.

Definition _mesa_BlendEquationiARB (buf mode : Z) (ctx : gl_context) : gl_context :=
  let advanced_mode := advanced_blend_mode (env ctx) mode in
  if buf >=? MaxDrawBuffers (env ctx) then _mesa_error GL_INVALID_VALUE ctx else
  if negb (legal_simple_blend_equation (env ctx) mode) && (advanced_mode =? BLEND_NONE)
  then _mesa_error GL_INVALID_ENUM ctx else
  blend_equationi buf mode advanced_mode ctx.

Definition blend_equation_separate (modeRGB modeA : Z) (no_error : bool) (ctx : gl_context) : gl_context :=
  let numBuffers := num_buffers (env ctx) in
  if negb (equations_changed modeRGB modeA ctx) then ctx else
  if negb no_error && (negb (modeRGB =? modeA) && negb (EXT_blend_equation_separate (env ctx)))
  then _mesa_error GL_INVALID_OPERATION ctx else
  if negb no_error && negb (legal_simple_blend_equation (env ctx) modeRGB)
  then _mesa_error GL_INVALID_ENUM ctx else
  if negb no_error && negb (legal_simple_blend_equation (env ctx) modeA)
  then _mesa_error GL_INVALID_ENUM ctx else
  let ctx := _mesa_flush_vertices_for_blend_state ctx in
  let ctx := for_range 0 numBuffers (fun buf => upd_blend buf (store_equations modeRGB modeA)) ctx in
  let ctx := upd_Color (fun c => c <| _BlendEquationPerBuffer := false |>
                                   <| _AdvancedBlendMode := BLEND_NONE |>) ctx in
  call_driver has_BlendEquationSeparate (Drv_BlendEquationSeparate modeRGB modeA) ctx.

Definition _mesa_BlendEquationSeparate_no_error (modeRGB modeA : Z) (ctx : gl_context) : gl_context :=
  blend_equation_separate modeRGB modeA true ctx.

Definition _mesa_BlendEquationSeparate (modeRGB modeA : Z) (ctx : gl_context) : gl_context :=
  blend_equation_separate modeRGB modeA false ctx.

Definition blend_equation_separatei (buf modeRGB modeA : Z) (no_error : bool) (ctx : gl_context) : gl_context :=
  at_index MAX_DRAW_BUFFERS buf (fun ctx =>
    if same_equations modeRGB modeA (blend_at buf ctx) then ctx else
    if negb no_error && negb (legal_simple_blend_equation (env ctx) modeRGB)
    then _mesa_error GL_INVALID_ENUM ctx else
    if negb no_error && negb (legal_simple_blend_equation (env ctx) modeA)
    then _mesa_error GL_INVALID_ENUM ctx else
    let ctx := _mesa_flush_vertices_for_blend_state ctx in
    let ctx := upd_blend buf (store_equations modeRGB modeA) ctx in
    upd_Color (fun c => c <| _BlendEquationPerBuffer := true |>
                          <| _AdvancedBlendMode := BLEND_NONE |>) ctx) ctx.

Definition _mesa_BlendEquationSeparateiARB_no_error (buf modeRGB modeA : Z) (ctx : gl_context) : gl_context :=
  blend_equation_separatei buf modeRGB modeA true ctx.

Definition _mesa_BlendEquationSeparateiARB (buf modeRGB modeA : Z) (ctx : gl_context) : gl_context :=
  if buf >=? MaxDrawBuffers (env ctx) then _mesa_error GL_INVALID_VALUE ctx else
  blend_equation_separatei buf modeRGB modeA false ctx.

(** ** Blend colour, alpha test, logic op *)

Definition clampf (x : GLfloat) : GLfloat := CLAMP x f32_0 f32_1.

Definition _mesa_BlendColor (tmp : vec4) (ctx : gl_context) : gl_context :=
  if TEST_EQ_4V tmp (BlendColorUnclamped (Color (Attr ctx))) then ctx else
  let ctx := flush_for NewBlendColor _NEW_COLOR ctx in
  let ctx := upd_Color (fun c => c <| BlendColorUnclamped := tmp |>
                                   <| BlendColor := vec4_map clampf tmp |>) ctx in
  call_driver has_BlendColor (Drv_BlendColor (BlendColor (Color (Attr ctx)))) ctx.

Definition _mesa_AlphaFunc (func : Z) (ref : GLfloat) (ctx : gl_context) : gl_context :=
  if (AlphaFunc (Color (Attr ctx)) =? func) && SFeqb (AlphaRefUnclamped (Color (Attr ctx))) ref then ctx else
  if one_of func [GL_NEVER; GL_LESS; GL_EQUAL; GL_LEQUAL; GL_GREATER; GL_NOTEQUAL; GL_GEQUAL; GL_ALWAYS] then
    let ctx := flush_for NewAlphaTest _NEW_COLOR ctx in
    let ctx := upd_Color (fun c => c <| AlphaFunc := e16 func |> <| AlphaRefUnclamped := ref |>
                                     <| AlphaRef := clampf ref |>) ctx in
    call_driver has_AlphaFunc (Drv_AlphaFunc func (AlphaRef (Color (Attr ctx)))) ctx
  else _mesa_error GL_INVALID_ENUM ctx.

Definition color_logicop_mapping : list Z :=
  [COLOR_LOGICOP_CLEAR; COLOR_LOGICOP_AND; COLOR_LOGICOP_AND_REVERSE; COLOR_LOGICOP_COPY;
   COLOR_LOGICOP_AND_INVERTED; COLOR_LOGICOP_NOOP; COLOR_LOGICOP_XOR; COLOR_LOGICOP_OR;
   COLOR_LOGICOP_NOR; COLOR_LOGICOP_EQUIV; COLOR_LOGICOP_INVERT; COLOR_LOGICOP_OR_REVERSE;
   COLOR_LOGICOP_COPY_INVERTED; COLOR_LOGICOP_OR_INVERTED; COLOR_LOGICOP_NAND; COLOR_LOGICOP_SET].

Definition legal_logic_op (opcode : Z) : bool :=
  one_of opcode [GL_CLEAR; GL_SET; GL_COPY; GL_COPY_INVERTED; GL_NOOP; GL_INVERT; GL_AND; GL_NAND;
                 GL_OR; GL_NOR; GL_XOR; GL_EQUIV; GL_AND_REVERSE; GL_AND_INVERTED; GL_OR_REVERSE;
                 GL_OR_INVERTED].

Definition logic_op (opcode : Z) (no_error : bool) (ctx : gl_context) : gl_context :=
  if LogicOp (Color (Attr ctx)) =? opcode then ctx else
  if negb no_error && negb (legal_logic_op opcode) then _mesa_error GL_INVALID_ENUM ctx else
  let ctx := flush_for NewLogicOp _NEW_COLOR ctx in
  let ctx := upd_Color (fun c => c <| LogicOp := e16 opcode |>
                                   <| _LogicOp := nth_Z 0 color_logicop_mapping (Z.land opcode 0x0f) |>) ctx in
  call_driver has_LogicOpcode (Drv_LogicOpcode (_LogicOp (Color (Attr ctx)))) ctx.

Definition _mesa_LogicOp (opcode : Z) (ctx : gl_context) : gl_context := logic_op opcode false ctx.

Definition _mesa_LogicOp_no_error (opcode : Z) (ctx : gl_context) : gl_context := logic_op opcode true ctx.

(** ** Masks *)

Definition _mesa_IndexMask (mask : Z) (ctx : gl_context) : gl_context :=
  if IndexMask (Color (Attr ctx)) =? mask then ctx else
  let ctx := flush_for NewColorMask _NEW_COLOR ctx in
  upd_Color (fun c => c <| IndexMask := mask |>) ctx.

(** [for (i = 1; i < num_buffers; i++) mask |= mask0 << (i * 4);] in 32 bits *)
Definition _mesa_replicate_colormask (mask0 num_buffers : Z) : Z :=
  fold_left (fun mask i => Z.lor mask (u32 (Z.shiftl mask0 (Z.of_nat i * 4))))
            (seq 1 (Z.to_nat num_buffers - 1)) mask0.

Definition GET_COLORMASK (mask buf : Z) : Z := Z.land (Z.shiftr mask (4 * buf)) 0xf.

(** [!!x] of a [GLboolean] *)
Definition b2z (x : Z) : Z := if x =? 0 then 0 else 1.

Definition pack_mask (red green blue alpha : Z) : Z :=
  Z.lor (Z.lor (Z.lor (b2z red) (Z.shiftl (b2z green) 1)) (Z.shiftl (b2z blue) 2)) (Z.shiftl (b2z alpha) 3).

Definition _mesa_ColorMask (red green blue alpha : Z) (ctx : gl_context) : gl_context :=
  let mask := _mesa_replicate_colormask (pack_mask red green blue alpha) (MaxDrawBuffers (env ctx)) in
  if ColorMask (Color (Attr ctx)) =? mask then ctx else
  let ctx := flush_for NewColorMask _NEW_COLOR ctx in
  let ctx := upd_Color (fun c => c <| ColorMask := mask |>) ctx in
  call_driver has_ColorMask (Drv_ColorMask red green blue alpha) ctx.

Definition _mesa_ColorMaski (buf red green blue alpha : Z) (ctx : gl_context) : gl_context :=
  if buf >=? MaxDrawBuffers (env ctx) then _mesa_error GL_INVALID_VALUE ctx else
  let mask := pack_mask red green blue alpha in
  if GET_COLORMASK (ColorMask (Color (Attr ctx))) buf =? mask then ctx else
  let ctx := flush_for NewColorMask _NEW_COLOR ctx in
  upd_Color (fun c =>
    let m := Z.ldiff (ColorMask c) (u32 (Z.shiftl 0xf (4 * buf))) in
    c <| ColorMask := Z.lor m (u32 (Z.shiftl mask (4 * buf))) |>) ctx.

(** ** Colour clamping *)

(** The assertion is that [clamp] is one of the three values. *)
Definition get_clamp_color (fb : option gl_framebuffer) (clamp : Z) : outcome bool :=
  if (clamp =? GL_TRUE) || (clamp =? GL_FALSE) then Ret (negb (clamp =? 0)) else
  assert! (clamp =? GL_FIXED_ONLY_ARB) ;;
  match fb with
  | None => Ret true
  | Some fb => Ret (_AllColorBuffersFixedPoint fb)
  end.

Definition _mesa_get_clamp_fragment_color (fb : option gl_framebuffer) (ctx : gl_context) : outcome bool :=
  get_clamp_color fb (ClampFragmentColor (Color (Attr ctx))).

Definition _mesa_get_clamp_vertex_color (fb : option gl_framebuffer) (ctx : gl_context) : outcome bool :=
  get_clamp_color fb (ClampVertexColor (Light (Attr ctx))).

Definition _mesa_get_clamp_read_color (fb : option gl_framebuffer) (ctx : gl_context) : outcome bool :=
  get_clamp_color fb (ClampReadColor (Color (Attr ctx))).

Definition _mesa_update_clamp_fragment_color (drawFb : option gl_framebuffer) (ctx : gl_context) : outcome gl_context :=
  let skip := match drawFb with
              | None => true
              | Some fb => negb (_HasSNormOrFloatColorBuffer fb) || negb (_IntegerBuffers fb =? 0)
              end in
  if skip then Ret (upd_Color (fun c => c <| _ClampFragmentColor := false |>) ctx)
  else
    let! b := _mesa_get_clamp_fragment_color drawFb ctx in
    Ret (upd_Color (fun c => c <| _ClampFragmentColor := b |>) ctx).

Definition _mesa_update_clamp_vertex_color (drawFb : option gl_framebuffer) (ctx : gl_context) : outcome gl_context :=
  let! b := _mesa_get_clamp_vertex_color drawFb ctx in
  Ret (upd_Light (fun l => l <| _ClampVertexColor := b |>) ctx).

Definition _mesa_ClampColor (target clamp : Z) (ctx : gl_context) : outcome gl_context :=
  if (Version (env ctx) <=? 30) && negb (ARB_color_buffer_float (env ctx))
  then Ret (_mesa_error GL_INVALID_OPERATION ctx) else
  if negb (clamp =? GL_TRUE) && negb (clamp =? GL_FALSE) && negb (clamp =? GL_FIXED_ONLY_ARB)
  then Ret (_mesa_error GL_INVALID_ENUM ctx) else
  if target =? GL_CLAMP_VERTEX_COLOR_ARB then
    if gl_api_eqb (API (env ctx)) API_OPENGL_CORE then Ret (_mesa_error GL_INVALID_ENUM ctx) else
    let ctx := FLUSH_VERTICES _NEW_LIGHT ctx in
    let ctx := upd_Light (fun l => l <| ClampVertexColor := e16 clamp |>) ctx in
    _mesa_update_clamp_vertex_color (DrawBuffer ctx) ctx
  else if target =? GL_CLAMP_FRAGMENT_COLOR_ARB then
    if gl_api_eqb (API (env ctx)) API_OPENGL_CORE then Ret (_mesa_error GL_INVALID_ENUM ctx) else
    let ctx := FLUSH_VERTICES _NEW_FRAG_CLAMP ctx in
    let ctx := upd_Color (fun c => c <| ClampFragmentColor := e16 clamp |>) ctx in
    _mesa_update_clamp_fragment_color (DrawBuffer ctx) ctx
  else if target =? GL_CLAMP_READ_COLOR_ARB then
    Ret (upd_Color (fun c => c <| ClampReadColor := e16 clamp |>) ctx)
  else Ret (_mesa_error GL_INVALID_ENUM ctx).

(** ** Initialisation *)

(** The context is zeroed before; the members set here are those of the
    source. *)
Definition _mesa_init_color (ctx : gl_context) : gl_context :=
  let e := env ctx in
  let zero4 := Vec4 f32_0 f32_0 f32_0 f32_0 in
  upd_Color (fun c =>
    ColorbufferAttrib 0 zero4 (2 ^ 32 - 1) 0xffffffff
      (if doubleBufferMode e || _mesa_is_gles e then GL_BACK else GL_FRONT)
      false GL_ALWAYS (AlphaRefUnclamped c) f32_0 0 zero4 zero4
      (map (fun b => b <| SrcRGB := GL_ONE |> <| DstRGB := GL_ZERO |> <| SrcA := GL_ONE |>
                       <| DstA := GL_ZERO |> <| EquationRGB := GL_FUNC_ADD |>
                       <| EquationA := GL_FUNC_ADD |>) (Blend c))
      (_BlendFuncPerBuffer c) (_BlendEquationPerBuffer c) (_AdvancedBlendMode c) true
      false false GL_COPY COLOR_LOGICOP_COPY true
      false (if gl_api_eqb (API e) API_OPENGL_COMPAT then GL_FIXED_ONLY_ARB else GL_FALSE)
      GL_FIXED_ONLY_ARB (_mesa_is_gles e)) ctx.
