(* ===== verification/GlSteps.v ===== *)
(** * How a state setter may change the context

    The contract shared by the entry points that set state: before a setter
    changes anything a draw depends on, it draws the stored vertices under the
    old state; and what it changes it marks dirty, for the driver to validate
    at the next draw.  [good] states this of a pair of contexts, [good_but] the
    same with groups of state excepted that a setter fails to mark; the lemmas
    below establish it for the pieces the setters are made of. *)

From Stdlib Require Import Bool ZArith List Lia.
From S2P Require Import Prelude GlContext GlBlend.
Import ListNotations.
#[local] Open Scope bool_scope.
#[local] Open Scope Z_scope.
#[local] Open Scope c_scope.

(** ** Groups of state and their dirty bits *)

Inductive group :=
| G_Blend | G_BlendColor | G_AlphaTest | G_LogicOp | G_ColorMask | G_FragClamp
| G_Depth | G_Stencil | G_ScissorRect | G_WindowRects | G_Light
| G_Line | G_Point | G_Polygon | G_Viewport | G_ClipControl | G_SampleMask | G_SampleShading
| G_Hint | G_Fog | G_Conservative | G_AdvancedBlend.

(** The shader constant of the advanced blend mode. *)
Definition sh_constant (a : gl_attribs) : Z :=
  _mesa_get_advanced_blend_sh_constant (BlendEnabled (Color a)) (_AdvancedBlendMode (Color a)).

(** [a] and [b] agree on the members of a group; of the advanced blend mode
    the shaders see a constant. *)
Definition same_group (g : group) (a b : gl_attribs) : Prop :=
  match g with
  | G_Blend => Blend (Color a) = Blend (Color b) /\
      _BlendFuncPerBuffer (Color a) = _BlendFuncPerBuffer (Color b) /\
      _BlendEquationPerBuffer (Color a) = _BlendEquationPerBuffer (Color b) /\
      _AdvancedBlendMode (Color a) = _AdvancedBlendMode (Color b)
  | G_BlendColor => BlendColorUnclamped (Color a) = BlendColorUnclamped (Color b) /\
      BlendColor (Color a) = BlendColor (Color b)
  | G_AlphaTest => AlphaFunc (Color a) = AlphaFunc (Color b) /\
      AlphaRefUnclamped (Color a) = AlphaRefUnclamped (Color b) /\
      AlphaRef (Color a) = AlphaRef (Color b)
  | G_LogicOp => LogicOp (Color a) = LogicOp (Color b) /\ _LogicOp (Color a) = _LogicOp (Color b)
  | G_ColorMask => IndexMask (Color a) = IndexMask (Color b) /\ ColorMask (Color a) = ColorMask (Color b)
  | G_FragClamp => ClampFragmentColor (Color a) = ClampFragmentColor (Color b) /\
      _ClampFragmentColor (Color a) = _ClampFragmentColor (Color b)
  | G_Depth => Depth a = Depth b
  | G_Stencil => Stencil a = Stencil b
  | G_ScissorRect => ScissorArray (Scissor a) = ScissorArray (Scissor b)
  | G_WindowRects => NumWindowRects (Scissor a) = NumWindowRects (Scissor b) /\
      WindowRectMode (Scissor a) = WindowRectMode (Scissor b) /\
      WindowRects (Scissor a) = WindowRects (Scissor b)
  | G_Light => Light a = Light b
  | G_Line => Line a = Line b
  | G_Point => Point a = Point b
  | G_Polygon => Polygon a = Polygon b
  | G_Viewport => ViewportArray a = ViewportArray b
  | G_ClipControl => Transform a = Transform b
  | G_SampleMask => SampleCoverageValue (Multisample a) = SampleCoverageValue (Multisample b) /\
      SampleCoverageInvert (Multisample a) = SampleCoverageInvert (Multisample b) /\
      SampleMaskValue (Multisample a) = SampleMaskValue (Multisample b)
  | G_SampleShading => MinSampleShadingValue (Multisample a) = MinSampleShadingValue (Multisample b)
  | G_Hint => Hint_ a = Hint_ b
  | G_Fog => Fog a = Fog b
  | G_Conservative => Conservative a = Conservative b
  | G_AdvancedBlend => sh_constant a = sh_constant b
  end.

(** The driver's flag for a group, and the bit of [NewState] used when the
    driver has none. *)
Definition flag_of (g : group) : gl_env -> Z :=
  match g with
  | G_Blend => NewBlend
  | G_BlendColor => NewBlendColor
  | G_AlphaTest => NewAlphaTest
  | G_LogicOp => NewLogicOp
  | G_ColorMask => NewColorMask
  | G_Depth => NewDepth
  | G_Stencil => NewStencil
  | G_ScissorRect => NewScissorRect
  | G_WindowRects => NewWindowRectangles
  | G_Line => NewLineState
  | G_Polygon => NewPolygonState
  | G_Viewport => NewViewport
  | G_ClipControl => NewClipControl
  | G_SampleMask => NewSampleMask
  | G_SampleShading => NewSampleShading
  | G_Conservative => NewNvConservativeRasterizationParams
  | G_FragClamp | G_Light | G_Point | G_Hint | G_Fog | G_AdvancedBlend => fun _ => 0
  end.

Definition bit_of (g : group) : Z :=
  match g with
  | G_Blend | G_BlendColor | G_AlphaTest | G_LogicOp | G_ColorMask | G_AdvancedBlend => _NEW_COLOR
  | G_FragClamp => _NEW_FRAG_CLAMP
  | G_Depth => _NEW_DEPTH
  | G_Stencil => _NEW_STENCIL
  | G_ScissorRect => _NEW_SCISSOR
  | G_WindowRects | G_Conservative => 0
  | G_Light => _NEW_LIGHT
  | G_Line => _NEW_LINE
  | G_Point => _NEW_POINT
  | G_Polygon => _NEW_POLYGON
  | G_Viewport => _NEW_VIEWPORT
  | G_ClipControl => Z.lor _NEW_TRANSFORM _NEW_VIEWPORT
  | G_SampleMask | G_SampleShading => _NEW_MULTISAMPLE
  | G_Hint => _NEW_HINT
  | G_Fog => _NEW_FOG
  end.

(** All bits of [m] are set in [x]. *)
Definition has_bits (x m : Z) : Prop := Z.land x m = m.

Definition dirty (g : group) (ctx : gl_context) : Prop :=
  if flag_of g (env ctx) =? 0 then has_bits (NewState ctx) (bit_of g)
  else has_bits (NewDriverState ctx) (flag_of g (env ctx)).

(** There is a way to tell the driver of a change.  The window rectangles and
    the parameters of conservative rasterisation have no bit in [NewState], so
    only a driver with a flag for them is told; the constant of the advanced
    blend mode exists where the extension does. *)
Definition reportable (e : gl_env) (g : group) : Prop :=
  match g with
  | G_WindowRects | G_Conservative => flag_of g e <> 0
  | G_AdvancedBlend => _mesa_has_KHR_blend_equation_advanced e = true
  | _ => True
  end.

(** What the driver last drew with is up to date, or the group is marked
    dirty. *)
Definition synced (g : group) (ctx : gl_context) : Prop :=
  reportable (env ctx) g -> same_group g (Validated ctx) (rendering (Attr ctx)) \/ dirty g ctx.

(** Vertices are waiting to be drawn. *)
Definition vertices_stored (ctx : gl_context) : Prop :=
  Z.land (NeedFlush ctx) FLUSH_STORED_VERTICES <> 0.

Definition not_error (e : event) : Prop := match e with EvError _ => False | _ => True end.

Definition in_bounds (e : event) : Prop :=
  match e with EvOutOfBounds _ | EvUndefined _ => False | _ => True end.

(** Neither an error nor undefined behaviour. *)
Definition quiet (e : event) : Prop := not_error e /\ in_bounds e.

(** A good step; the driver is told of its changes, but for the groups of [X]. *)
Record good_but (X : group -> Prop) (a b : gl_context) : Prop := {
  good_env : env b = env a;
  good_buffer : DrawBuffer b = DrawBuffer a;
  good_error : ErrorValue b = ErrorValue a;
  good_trace : exists t, Trace b = Trace a ++ t /\ Forall not_error t /\
    (vertices_stored a ->
       In (EvDraw (rendering (Attr a))) t \/
       (rendering (Attr b) = rendering (Attr a) /\ vertices_stored b));
  good_sync : forall g, ~ X g -> synced g a -> synced g b
}.

Definition none : group -> Prop := fun _ => False.
Abbreviation good := (good_but none).

(** A call either fails with an error and no other effect, or is good. *)
Definition step_ok_but (X : group -> Prop) (a b : gl_context) : Prop := (exists e, b = _mesa_error e a) \/ good_but X a b.
Abbreviation step_ok := (step_ok_but none).

Lemma good_refl {X} a : good_but X a a.
Proof.
  constructor; auto. exists []. rewrite app_nil_r. auto.
Qed.

Lemma good_trans {X} a b c : good_but X a b -> good_but X b c -> good_but X a c.
Proof.
  intros [E1 B1 R1 (t1 & T1 & N1 & F1) S1] [E2 B2 R2 (t2 & T2 & N2 & F2) S2].
  constructor; try congruence; [|auto].
  exists (t1 ++ t2). split; [rewrite T2, T1, app_assoc; reflexivity|].
  split; [apply Forall_app; auto|]. intros Hv.
  destruct (F1 Hv) as [Hin|[Hr Hv']]; [left; apply in_or_app; auto|].
  destruct (F2 Hv') as [Hin|[Hr' Hv'']].
  - left. rewrite <- Hr. apply in_or_app; auto.
  - right. split; [congruence | assumption].
Qed.

Lemma step_ok_refl {X} a : step_ok_but X a a.
Proof. right. apply good_refl. Qed.

Lemma step_ok_error {X} e a : step_ok_but X a (_mesa_error e a).
Proof. left. eauto. Qed.

Lemma good_weaken X a b : good a b -> good_but X a b.
Proof. intros []. constructor; auto. Qed.

Lemma step_ok_weaken X a b : step_ok a b -> step_ok_but X a b.
Proof. intros [H|H]; [now left | right; now apply good_weaken]. Qed.

(** ** After the flush

    A change of the advanced blend mode is one of the blend state too. *)
Definition within (g g' : group) : Prop := g' = g \/ (g = G_AdvancedBlend /\ g' = G_Blend).

Lemma within_dec g g' : {within g g'} + {~ within g g'}.
Proof. unfold within. destruct g, g'; first [left; tauto | right; intros [H|[H H']]; discriminate]. Defined.

(** [confined g a b]: from [a] to [b] only members of group [g], and members
    no draw depends on, are changed; nothing is drawn and no dirty bit is
    cleared. *)
Record confined (g : group) (a b : gl_context) : Prop := {
  conf_env : env b = env a;
  conf_buffer : DrawBuffer b = DrawBuffer a;
  conf_error : ErrorValue b = ErrorValue a;
  conf_need : NeedFlush b = NeedFlush a;
  conf_new : exists m, NewState b = Z.lor (NewState a) m;
  conf_drv : exists m, NewDriverState b = Z.lor (NewDriverState a) m;
  conf_valid : Validated b = Validated a;
  conf_trace : exists t, Trace b = Trace a ++ t /\ Forall not_error t;
  conf_same : forall g', ~ within g g' -> same_group g' (rendering (Attr a)) (rendering (Attr b))
}.

Lemma same_group_refl g a : same_group g a a.
Proof. destruct g; simpl; auto. Qed.

Lemma same_group_trans g a b c : same_group g a b -> same_group g b c -> same_group g a c.
Proof. destruct g; simpl; intuition congruence. Qed.

(** [x |= m] for some [m]. *)
Lemma more_refl x : exists m, x = Z.lor x m.
Proof. exists 0. now rewrite Z.lor_0_r. Qed.

Lemma more_trans x y z : (exists m, y = Z.lor x m) -> (exists m, z = Z.lor y m) -> exists m, z = Z.lor x m.
Proof. intros [m ->] [n ->]. exists (Z.lor m n). symmetry. apply Z.lor_assoc. Qed.

Lemma confined_refl g a : confined g a a.
Proof.
  constructor; auto using same_group_refl, more_refl. exists []. now rewrite app_nil_r.
Qed.

Lemma confined_trans g a b c : confined g a b -> confined g b c -> confined g a c.
Proof.
  intros [] []. constructor; try congruence; [now apply (more_trans _ (NewState b)) | now apply (more_trans _ (NewDriverState b)) | |].
  - destruct conf_trace0 as (t1 & T1 & N1), conf_trace1 as (t2 & T2 & N2).
    exists (t1 ++ t2). rewrite T2, T1, app_assoc. split; [reflexivity | now apply Forall_app].
  - intros g' Hg. eapply same_group_trans; eauto.
Qed.

Lemma confined_emit g e a : not_error e -> confined g a (emit e a).
Proof.
  intros He. constructor; auto using same_group_refl, more_refl. exists [e]. auto.
Qed.

Lemma confined_driver g has d a : confined g a (call_driver has d a).
Proof.
  unfold call_driver. destruct (has _); [now apply confined_emit | apply confined_refl].
Qed.

Lemma confined_attr g a attr :
  (forall g', ~ within g g' -> same_group g' (rendering (Attr a)) (rendering attr)) ->
  confined g a (a <| Attr := attr |>).
Proof. intros H. constructor; auto using more_refl. exists []. now rewrite app_nil_r. Qed.

(** Marking more state dirty. *)
Lemma confined_NewState g m a : confined g a (a <| NewState := Z.lor (NewState a) m |>).
Proof. constructor; cbn; eauto using same_group_refl, more_refl. exists []. now rewrite app_nil_r. Qed.

Lemma confined_NewDriverState g m a : confined g a (a <| NewDriverState := Z.lor (NewDriverState a) m |>).
Proof. constructor; cbn; eauto using same_group_refl, more_refl. exists []. now rewrite app_nil_r. Qed.

Lemma confined_for g from to body a :
  (forall i c, confined g c (body i c)) -> confined g a (for_range from to body a).
Proof.
  intros Hb. unfold for_range. generalize (seq 0 (Z.to_nat (to - from))). intros l.
  revert a. induction l as [|i l IH]; intros a; simpl; [apply confined_refl|].
  eapply confined_trans; [apply Hb | apply IH].
Qed.

(** Assignments to the members of one attribute group. *)
Lemma confined_upd_Color g a f :
  (forall attr g', ~ within g g' -> same_group g' (rendering attr) (rendering (attr <| Color := f (Color attr) |>))) ->
  confined g a (upd_Color f a).
Proof. intros H. apply (confined_attr g a). auto. Qed.

Lemma confined_upd_Depth g a f :
  (forall attr g', ~ within g g' -> same_group g' (rendering attr) (rendering (attr <| Depth := f (Depth attr) |>))) ->
  confined g a (upd_Depth f a).
Proof. intros H. apply (confined_attr g a). auto. Qed.

Lemma confined_upd_Stencil g a f :
  (forall attr g', ~ within g g' -> same_group g' (rendering attr) (rendering (attr <| Stencil := f (Stencil attr) |>))) ->
  confined g a (upd_Stencil f a).
Proof. intros H. apply (confined_attr g a). auto. Qed.

Lemma confined_upd_Scissor g a f :
  (forall attr g', ~ within g g' -> same_group g' (rendering attr) (rendering (attr <| Scissor := f (Scissor attr) |>))) ->
  confined g a (upd_Scissor f a).
Proof. intros H. apply (confined_attr g a). auto. Qed.

Lemma confined_upd_Light g a f :
  (forall attr g', ~ within g g' -> same_group g' (rendering attr) (rendering (attr <| Light := f (Light attr) |>))) ->
  confined g a (upd_Light f a).
Proof. intros H. apply (confined_attr g a). auto. Qed.

Lemma confined_upd_Attr g a f :
  (forall attr g', ~ within g g' -> same_group g' (rendering attr) (rendering (f attr))) -> confined g a (upd_Attr f a).
Proof. intros H. apply (confined_attr g a). auto. Qed.

(** Peel the last assignment, driver call or loop off a [confined] goal; an
    explicit assignment is checked to leave the other groups alone. *)
Ltac others := intros ? [] Hg; first [exfalso; apply Hg; unfold within; tauto | cbn; auto].
Ltac assign :=
  lazymatch goal with
  | |- confined _ ?a ?a => apply confined_refl
  | |- confined ?g ?a (call_driver ?h ?d ?b) => apply (confined_trans g a b); [|apply confined_driver]
  | |- confined ?g ?a (upd_Color ?f ?b) => apply (confined_trans g a b); [|apply confined_upd_Color; others]
  | |- confined ?g ?a (upd_Depth ?f ?b) => apply (confined_trans g a b); [|apply confined_upd_Depth; others]
  | |- confined ?g ?a (upd_Stencil ?f ?b) => apply (confined_trans g a b); [|apply confined_upd_Stencil; others]
  | |- confined ?g ?a (upd_Scissor ?f ?b) => apply (confined_trans g a b); [|apply confined_upd_Scissor; others]
  | |- confined ?g ?a (upd_Light ?f ?b) => apply (confined_trans g a b); [|apply confined_upd_Light; others]
  | |- confined ?g ?a (upd_Attr ?f ?b) => apply (confined_trans g a b); [|apply confined_upd_Attr; others]
  | |- confined ?g ?a (for_range ?x ?y ?f ?b) =>
      apply (confined_trans g a b); [|apply confined_for; intros ? ?]
  end.

(** ** The flush *)

(** [flushed g a b]: [b] is [a] after the flush that precedes a change of
    group [g]. *)
Record flushed (g : group) (a b : gl_context) : Prop := {
  fl_env : env b = env a;
  fl_buffer : DrawBuffer b = DrawBuffer a;
  fl_error : ErrorValue b = ErrorValue a;
  fl_attr : Attr b = Attr a;
  fl_dirty : forall g', within g g' -> reportable (env a) g' -> dirty g' b;
  fl_sync : forall g', synced g' a -> synced g' b;
  fl_trace : exists t, Trace b = Trace a ++ t /\ Forall quiet t /\
    (vertices_stored a -> In (EvDraw (rendering (Attr a))) t)
}.

Lemma has_bits_lor_l x m n : has_bits x m -> has_bits (Z.lor x n) m.
Proof.
  unfold has_bits. intros H. apply Z.bits_inj'. intros i Hi.
  rewrite <- H, !Z.land_spec, Z.lor_spec.
  destruct (Z.testbit x i), (Z.testbit m i), (Z.testbit n i); reflexivity.
Qed.

Lemma has_bits_lor_r x m : has_bits (Z.lor x m) m.
Proof.
  unfold has_bits. apply Z.bits_inj'. intros i Hi. rewrite Z.land_spec, Z.lor_spec.
  destruct (Z.testbit x i), (Z.testbit m i); reflexivity.
Qed.

(** Setting more dirty bits. *)
Lemma synced_more g a news newd :
  synced g a ->
  synced g (a <| NewState := Z.lor (NewState a) news |>
              <| NewDriverState := Z.lor (NewDriverState a) newd |>).
Proof.
  intros H Hr. destruct (H Hr) as [Hs|Hd]; [left; exact Hs|right].
  unfold dirty in *. cbn. destruct (_ =? 0); now apply has_bits_lor_l.
Qed.

Lemma validated_synced g a : Validated a = rendering (Attr a) -> synced g a.
Proof. intros E _. left. rewrite E. apply same_group_refl. Qed.

(** The bits that a flush for [g] has to set. *)
Definition marks (e : gl_env) (news newd : Z) (g : group) : Prop :=
  if flag_of g e =? 0 then has_bits news (bit_of g) else has_bits newd (flag_of g e).

(** [FLUSH_VERTICES] and the update of [NewDriverState] after it mark [g]
    dirty if they set the bits. *)
Lemma flush_flushed g news newd a :
  (forall g', within g g' -> reportable (env a) g' -> marks (env a) news newd g') ->
  flushed g a (let b := FLUSH_VERTICES news a in
               b <| NewDriverState := Z.lor (NewDriverState b) newd |>).
Proof.
  intros Hbits. cbv zeta. unfold FLUSH_VERTICES.
  set (d := if negb _ then vbo_exec_FlushVertices FLUSH_STORED_VERTICES a else a).
  assert (Hd : env d = env a /\ DrawBuffer d = DrawBuffer a /\ ErrorValue d = ErrorValue a /\
               Attr d = Attr a /\ (forall g', synced g' a -> synced g' d)).
  { unfold d. destruct (negb _); cbn; repeat split; auto.
    intros g' _. apply validated_synced. reflexivity. }
  destruct Hd as (He & Hb & Hr & Ha & Hs).
  constructor; cbn; try assumption.
  - intros g' Hw Hrep. specialize (Hbits g' Hw Hrep). unfold dirty, marks in *. cbn. rewrite He.
    destruct (_ =? 0); rewrite Z.lor_comm; now apply has_bits_lor_l.
  - intros g' H. apply (synced_more g' d news newd). auto.
  - unfold d, vertices_stored. destruct (Z.eqb_spec (Z.land (NeedFlush a) FLUSH_STORED_VERTICES) 0) as [E|E].
    + exists []. cbn. rewrite app_nil_r. repeat split; auto.
    + exists [EvDraw (rendering (Attr a))]. cbn. repeat split; auto. repeat constructor.
Qed.

(** For all groups but the advanced blend mode. *)
Lemma flush_flushed_one g news newd a : g <> G_AdvancedBlend -> marks (env a) news newd g ->
  flushed g a (let b := FLUSH_VERTICES news a in
               b <| NewDriverState := Z.lor (NewDriverState b) newd |>).
Proof. intros Hg Hm. apply flush_flushed. intros g' [->|[-> _]] _; [exact Hm | contradiction]. Qed.

Lemma FLUSH_env n a : env (FLUSH_VERTICES n a) = env a.
Proof. unfold FLUSH_VERTICES. destruct (negb _); reflexivity. Qed.

Lemma has_bits_refl x : has_bits x x.
Proof. apply Z.land_diag. Qed.

(** The common idiom, for every group that has both kinds of bits. *)
Lemma flush_for_flushed g a : g <> G_AdvancedBlend -> flushed g a (flush_for (flag_of g) (bit_of g) a).
Proof.
  intros Hg. unfold flush_for. cbv zeta. rewrite FLUSH_env. apply flush_flushed_one; [exact Hg|].
  unfold marks. destruct (_ =? 0); apply has_bits_refl.
Qed.

(** Dirty bits are not cleared. *)
Lemma confined_dirty g a b h : confined g a b -> dirty h a -> dirty h b.
Proof.
  intros []. unfold dirty. destruct conf_new0 as [m ->], conf_drv0 as [n ->]. rewrite conf_env0.
  destruct (_ =? 0); apply has_bits_lor_l.
Qed.

Lemma synced_confined g a b h : (within g h -> reportable (env a) h -> dirty h a) -> synced h a -> confined g a b -> synced h b.
Proof.
  intros Hd Hs Hc Hr. pose proof Hc as []. rewrite conf_env0 in Hr. destruct (within_dec g h) as [Hw|Hw].
  - right. apply (confined_dirty g a b h Hc). auto.
  - destruct (Hs Hr) as [Hsame|Hd']; [left | right; now apply (confined_dirty g a b h Hc)].
    rewrite conf_valid0. eapply same_group_trans; eauto.
Qed.

(** A flush for a group followed by changes confined to another is good, but
    for the second group if it is not marked. *)
Lemma good_flush_but X g g' a b c : flushed g a b -> confined g' b c ->
  (forall h, ~ X h -> within g' h -> reportable (env a) h -> dirty h b) -> good_but X a c.
Proof.
  intros [] Hc Hd. pose proof Hc as [].
  constructor; try congruence.
  - destruct fl_trace0 as (t & T & N & F), conf_trace0 as (t' & T' & N').
    exists (t ++ t'). rewrite T', T, app_assoc. split; [reflexivity|].
    split; [apply Forall_app; split; [revert N; apply Forall_impl; now intros ? []|exact N']|]. intros Hv. left. apply in_or_app. auto.
  - intros h Hx H. apply (synced_confined g' b); auto. rewrite fl_env0. auto.
Qed.

(** A flush for a group followed by changes confined to the group is good. *)
Lemma good_flush g a b c : flushed g a b -> confined g b c -> good a c.
Proof. intros Hf Hc. apply (good_flush_but none g g a b c Hf Hc). intros h _. apply (fl_dirty _ _ _ Hf). Qed.

(** A change of members no draw depends on is good without a flush. *)
Lemma good_attr a attr : rendering attr = rendering (Attr a) -> good a (a <| Attr := attr |>).
Proof.
  intros E. constructor; auto.
  - exists []. rewrite app_nil_r. cbn. auto.
  - intros g _ H Hr. destruct (H Hr) as [Hs|Hd]; [left; cbn; now rewrite E | now right].
Qed.

Lemma good_emit {X} e a : not_error e -> good_but X a (emit e a).
Proof.
  intros He. constructor; auto. exists [e]. cbn. auto.
Qed.

Lemma good_driver {X} has d a : good_but X a (call_driver has d a).
Proof. unfold call_driver. destruct (has _); [now apply good_emit | apply good_refl]. Qed.

Lemma good_at_index n i k a : (forall c, good c (k c)) -> good a (at_index n i k a).
Proof. intros H. unfold at_index. destruct (_ && _); [apply H | now apply good_emit]. Qed.

Lemma step_ok_at_index {X} n i k a : (forall c, step_ok_but X c (k c)) -> step_ok_but X a (at_index n i k a).
Proof. intros H. unfold at_index. destruct (_ && _); [apply H | right; now apply good_emit]. Qed.

Lemma good_for from to body a :
  (forall i c, good c (body i c)) -> good a (for_range from to body a).
Proof.
  intros Hb. unfold for_range. generalize (seq 0 (Z.to_nat (to - from))). intros l.
  revert a. induction l as [|i l IH]; intros a; simpl; [apply good_refl|].
  eapply good_trans; [apply Hb | apply IH].
Qed.

(** [FLUSH_VERTICES] alone, for the groups without a driver flag. *)
Lemma flush_only_flushed g a :
  g <> G_AdvancedBlend -> (forall e, flag_of g e = 0) -> flushed g a (FLUSH_VERTICES (bit_of g) a).
Proof.
  intros Hg Hf. pose proof (flush_flushed_one g (bit_of g) 0 a Hg) as H. cbv zeta in H. unfold marks in H.
  rewrite Hf, Z.lor_0_r in H. specialize (H (has_bits_refl _)).
  revert H. generalize (FLUSH_VERTICES (bit_of g) a). now intros [] H.
Qed.

(** ** Late flushes

    What is left of the contract when the change comes before the flush: the
    driver is told, but stored vertices are drawn under the new state. *)
Record lawful_but (X : group -> Prop) (a b : gl_context) : Prop := {
  lawful_env : env b = env a;
  lawful_error : ErrorValue b = ErrorValue a;
  lawful_trace : exists t, Trace b = Trace a ++ t /\ Forall not_error t;
  lawful_sync : forall g, ~ X g -> synced g a -> synced g b
}.
Abbreviation lawful := (lawful_but none).

Lemma good_lawful {X} a b : good_but X a b -> lawful_but X a b.
Proof. intros [He _ Hr (t & Ht & Hn & _) Hs]. constructor; eauto. Qed.

Lemma late_lawful g news newd a attr :
  g <> G_AdvancedBlend -> (forall g', ~ within g g' -> same_group g' (rendering (Attr a)) (rendering attr)) ->
  (reportable (env a) g -> marks (env a) news newd g) ->
  lawful a (let b := FLUSH_VERTICES news (a <| Attr := attr |>) in
            b <| NewDriverState := Z.lor (NewDriverState b) newd |>).
Proof.
  intros Hg Hsame Hbits. set (c := a <| Attr := attr |>).
  assert (Hbits' : forall g', within g g' -> reportable (env c) g' -> marks (env c) news newd g').
  { intros g' [->|[-> _]] Hr; [exact (Hbits Hr) | contradiction]. }
  pose proof (flush_flushed g news newd c Hbits') as F.
  destruct F as [He _ Hr _ _ _ (t & Ht & Hq & _)]. constructor; cbv zeta in *; [exact He | exact Hr | |].
  - exists t. split; [exact Ht|]. revert Hq. apply Forall_impl. now intros ? [].
  - intros h _ Hs. unfold FLUSH_VERTICES. destruct (negb _).
    + refine (synced_more h (vbo_exec_FlushVertices _ c) news newd _). now apply validated_synced.
    + pose (d := a <| NewState := Z.lor (NewState a) news |>
                   <| NewDriverState := Z.lor (NewDriverState a) newd |>).
      refine (synced_confined g d _ h _ _ (confined_attr g d attr Hsame)).
      * intros Hw Hrep. specialize (Hbits' h Hw Hrep). unfold dirty, marks in *. cbn.
        change (env c) with (env a) in Hbits'. destruct (flag_of h (env a) =? 0); rewrite Z.lor_comm; now apply has_bits_lor_l.
      * exact (synced_more h a news newd Hs).
Qed.

Create HintDb gl.
#[export] Hint Resolve good_refl step_ok_refl step_ok_error confined_refl confined_driver good_driver
  confined_NewState confined_NewDriverState : gl.

(** Case analysis on the tests of a setter; the error exits and the early
    returns are closed at once. *)
Ltac setter :=
  cbv zeta;
  repeat match goal with
  | |- step_ok_but _ ?a (if ?b then _ else _) => destruct b
  | |- step_ok_but _ _ _ => solve [auto with gl nocore]
  end.

(** A flush for group [g], then assignments confined to [g]. *)
Ltac flushed_by H :=
  let t := type of H in
  lazymatch t with
  | flushed ?g _ ?b => revert H; generalize b; intros ? H; apply (good_flush g _ _ _ H); clear H
  end.
Ltac flush g :=
  match goal with
  | |- step_ok ?a _ => right; flush g
  | |- good ?a _ =>
      let H := fresh in
      pose proof (flush_for_flushed g a ltac:(discriminate)) as H; cbn [flag_of bit_of] in H; flushed_by H
  end.

(** The same where only [NewState] is marked. *)
Ltac flush_only g :=
  match goal with
  | |- step_ok ?a _ => right; flush_only g
  | |- good ?a _ =>
      let H := fresh in
      pose proof (flush_only_flushed g a ltac:(discriminate) (fun _ => eq_refl)) as H; cbn [bit_of] in H; flushed_by H
  end.
