(* ===== verification/GlPrimitive.v ===== *)
(** * Points, lines and polygons: src/mesa/main/points.c, lines.c, polygon.c

    The polygon stipple, which is read through the pixel transfer functions,
    is not modelled. *)

From Stdlib Require Import Bool ZArith List Lia SpecFloat.
From S2P Require Import Prelude GlContext GlFloat GlStencil GlBlend.
Import ListNotations.
#[local] Open Scope bool_scope.
#[local] Open Scope Z_scope.
#[local] Open Scope c_scope.

Definition GL_CONTEXT_FLAG_FORWARD_COMPATIBLE_BIT := 1.

(** ** lines.c *)

Definition line_width (width : GLfloat) (no_error : bool) (ctx : gl_context) : gl_context :=
  if SFeqb (Line_Width (Line (Attr ctx))) width then ctx else
  if negb no_error && SFleb width f32_0 then _mesa_error GL_INVALID_VALUE ctx else
  if negb no_error && gl_api_eqb (API (env ctx)) API_OPENGL_CORE
     && negb (Z.land (ContextFlags (env ctx)) GL_CONTEXT_FLAG_FORWARD_COMPATIBLE_BIT =? 0)
     && SFltb f32_1 width
  then _mesa_error GL_INVALID_VALUE ctx else
  let ctx := flush_for NewLineState _NEW_LINE ctx in
  let ctx := upd_Line (fun l => l <| Line_Width := width |>) ctx in
  call_driver has_LineWidth (Drv_LineWidth width) ctx.

Definition _mesa_LineWidth_no_error (width : GLfloat) (ctx : gl_context) : gl_context :=
  line_width width true ctx.

Definition _mesa_LineWidth (width : GLfloat) (ctx : gl_context) : gl_context :=
  line_width width false ctx.

(** [CLAMP] on integers. *)
Definition CLAMP_int (x lo hi : Z) : Z := if lo <? x then (if hi <? x then hi else x) else lo.

Definition _mesa_LineStipple (factor pattern : Z) (ctx : gl_context) : gl_context :=
  let factor := CLAMP_int factor 1 256 in
  if (StippleFactor (Line (Attr ctx)) =? factor) && (StipplePattern (Line (Attr ctx)) =? pattern)
  then ctx else
  let ctx := flush_for NewLineState _NEW_LINE ctx in
  let ctx := upd_Line (fun l => l <| StippleFactor := factor |> <| StipplePattern := pattern |>) ctx in
  call_driver has_LineStipple (Drv_LineStipple factor pattern) ctx.

Definition _mesa_init_line (ctx : gl_context) : gl_context :=
  upd_Line (fun l => l <| Line_SmoothFlag := false |> <| Line_StippleFlag := false |>
                       <| Line_Width := f32_1 |> <| StipplePattern := 0xffff |>
                       <| StippleFactor := 1 |>) ctx.

(** ** points.c *)

Definition GL_POINT_SIZE_MIN_EXT := 0x8126.
Definition GL_POINT_SIZE_MAX_EXT := 0x8127.
Definition GL_POINT_FADE_THRESHOLD_SIZE_EXT := 0x8128.
Definition GL_DISTANCE_ATTENUATION_EXT := 0x8129.
Definition GL_POINT_SPRITE_R_MODE_NV := 0x8863.
Definition GL_POINT_SPRITE_COORD_ORIGIN := 0x8CA0.
Definition GL_LOWER_LEFT := 0x8CA1.
Definition GL_UPPER_LEFT := 0x8CA2.
Definition GL_S := 0x2000.
Definition GL_R := 0x2002.

Definition point_size (size : GLfloat) (no_error : bool) (ctx : gl_context) : gl_context :=
  if SFeqb (Point_Size (Point (Attr ctx))) size then ctx else
  if negb no_error && SFleb size f32_0 then _mesa_error GL_INVALID_VALUE ctx else
  let ctx := FLUSH_VERTICES _NEW_POINT ctx in
  let ctx := upd_Point (fun p => p <| Point_Size := size |>) ctx in
  call_driver has_PointSize (Drv_PointSize size) ctx.

Definition _mesa_PointSize_no_error (size : GLfloat) (ctx : gl_context) : gl_context :=
  point_size size true ctx.

Definition _mesa_PointSize (size : GLfloat) (ctx : gl_context) : gl_context :=
  point_size size false ctx.

(** [Params[0] != 1.0F || Params[1] != 0.0F || Params[2] != 0.0F] *)
Definition attenuated (p : vec3) : bool :=
  negb (SFeqb (Params_0 p) f32_1) || negb (SFeqb (Params_1 p) f32_0) || negb (SFeqb (Params_2 p) f32_0).

(** The cases for [MinSize], [MaxSize] and [Threshold]: [get] reads the member
    and [set] assigns it. *)
Definition point_limit (get : gl_point_attrib -> GLfloat) (set : gl_point_attrib -> gl_point_attrib)
    (x : GLfloat) (notify : gl_context -> gl_context) (ctx : gl_context) : gl_context :=
  if SFltb x f32_0 then _mesa_error GL_INVALID_VALUE ctx else
  if SFeqb (get (Point (Attr ctx))) x then ctx else
  let ctx := FLUSH_VERTICES _NEW_POINT ctx in
  notify (upd_Point set ctx).

(** The cases for [SpriteRMode] and [SpriteOrigin]. *)
Definition point_mode (supported : bool) (legal : list Z) (get : gl_point_attrib -> GLenum16)
    (set : Z -> gl_point_attrib -> gl_point_attrib)
    (x : GLfloat) (notify : gl_context -> gl_context) (ctx : gl_context) : gl_context :=
  if supported then
    to_GLenum x (fun value ctx =>
      if negb (one_of value legal) then _mesa_error GL_INVALID_VALUE ctx else
      if get (Point (Attr ctx)) =? value then ctx else
      let ctx := FLUSH_VERTICES _NEW_POINT ctx in
      notify (upd_Point (set value) ctx)) ctx
  else _mesa_error GL_INVALID_ENUM ctx.

Definition _mesa_PointParameterfv (pname : Z) (params : vec3) (ctx : gl_context) : outcome gl_context :=
  let e := env ctx in
  assert! negb (ARB_point_sprite e || NV_point_sprite e) || EXT_point_parameters e ;;
  Ret (
    if negb (EXT_point_parameters e) then _mesa_error GL_INVALID_OPERATION ctx else
    let notify := call_driver has_PointParameterfv (Drv_PointParameterfv pname params) in
    if pname =? GL_DISTANCE_ATTENUATION_EXT then
      if TEST_EQ_3V (Params (Point (Attr ctx))) params then ctx else
      let ctx := FLUSH_VERTICES _NEW_POINT ctx in
      notify (upd_Point (fun p => p <| Params := params |> <| _Attenuated := attenuated params |>) ctx)
    else if pname =? GL_POINT_SIZE_MIN_EXT then
      point_limit MinSize (fun p => p <| MinSize := Params_0 params |>) (Params_0 params) notify ctx
    else if pname =? GL_POINT_SIZE_MAX_EXT then
      point_limit MaxSize (fun p => p <| MaxSize := Params_0 params |>) (Params_0 params) notify ctx
    else if pname =? GL_POINT_FADE_THRESHOLD_SIZE_EXT then
      point_limit Threshold (fun p => p <| Threshold := Params_0 params |>) (Params_0 params) notify ctx
    else if pname =? GL_POINT_SPRITE_R_MODE_NV then
      point_mode (_mesa_is_desktop_gl e && NV_point_sprite e) [GL_ZERO; GL_S; GL_R] SpriteRMode
        (fun v p => p <| SpriteRMode := e16 v |>) (Params_0 params) notify ctx
    else if pname =? GL_POINT_SPRITE_COORD_ORIGIN then
      point_mode ((gl_api_eqb (API e) API_OPENGL_COMPAT && (Version e >=? 20)) || gl_api_eqb (API e) API_OPENGL_CORE)
        [GL_LOWER_LEFT; GL_UPPER_LEFT] SpriteOrigin
        (fun v p => p <| SpriteOrigin := e16 v |>) (Params_0 params) notify ctx
    else _mesa_error GL_INVALID_ENUM ctx).

Definition _mesa_PointParameteri (pname param : Z) (ctx : gl_context) : outcome gl_context :=
  _mesa_PointParameterfv pname (Vec3 (float_of_int param) f32_0 f32_0) ctx.

(** [rest] is what the second and third elements of the local array hold when
    they are not set. *)
Definition _mesa_PointParameteriv (rest : GLfloat * GLfloat) (pname : Z) (params : Z * Z * Z)
    (ctx : gl_context) : outcome gl_context :=
  let '(a, b, c) := params in
  let rest := if pname =? GL_DISTANCE_ATTENUATION_EXT then (float_of_int b, float_of_int c) else rest in
  _mesa_PointParameterfv pname (Vec3 (float_of_int a) (fst rest) (snd rest)) ctx.

Definition _mesa_PointParameterf (pname : Z) (param : GLfloat) (ctx : gl_context) : outcome gl_context :=
  _mesa_PointParameterfv pname (Vec3 param f32_0 f32_0) ctx.

Definition _mesa_init_point (ctx : gl_context) : gl_context :=
  let e := env ctx in
  upd_Point (fun p => p <| Point_SmoothFlag := false |> <| Point_Size := f32_1 |>
    <| Params := Vec3 f32_1 f32_0 f32_0 |> <| _Attenuated := false |> <| MinSize := f32_0 |>
    <| MaxSize := MAX2 (MaxPointSize e) (MaxPointSizeAA e) |> <| Threshold := f32_1 |>
    <| PointSprite := gl_api_eqb (API e) API_OPENGL_CORE || gl_api_eqb (API e) API_OPENGLES2 |>
    <| SpriteRMode := GL_ZERO |> <| SpriteOrigin := GL_UPPER_LEFT |> <| CoordReplace := 0 |>) ctx.

(** ** polygon.c *)

Definition GL_CW := 0x0900.
Definition GL_CCW := 0x0901.
Definition GL_POINT := 0x1B00.
Definition GL_LINE := 0x1B01.
Definition GL_FILL := 0x1B02.
Definition GL_FILL_RECTANGLE_NV := 0x933C.

Definition cull_face (mode : Z) (no_error : bool) (ctx : gl_context) : gl_context :=
  if CullFaceMode (Polygon (Attr ctx)) =? mode then ctx else
  if negb no_error && negb (mode =? GL_FRONT) && negb (mode =? GL_BACK) && negb (mode =? GL_FRONT_AND_BACK)
  then _mesa_error GL_INVALID_ENUM ctx else
  let ctx := flush_for NewPolygonState _NEW_POLYGON ctx in
  let ctx := upd_Polygon (fun p => p <| CullFaceMode := e16 mode |>) ctx in
  call_driver has_CullFace (Drv_CullFace mode) ctx.

Definition _mesa_CullFace_no_error (mode : Z) (ctx : gl_context) : gl_context := cull_face mode true ctx.
Definition _mesa_CullFace (mode : Z) (ctx : gl_context) : gl_context := cull_face mode false ctx.

(** [front_face] of polygon.c. *)
Definition polygon_front_face (mode : Z) (no_error : bool) (ctx : gl_context) : gl_context :=
  if FrontFace (Polygon (Attr ctx)) =? mode then ctx else
  if negb no_error && negb (mode =? GL_CW) && negb (mode =? GL_CCW)
  then _mesa_error GL_INVALID_ENUM ctx else
  let ctx := flush_for NewPolygonState _NEW_POLYGON ctx in
  let ctx := upd_Polygon (fun p => p <| FrontFace := e16 mode |>) ctx in
  call_driver has_FrontFace (Drv_FrontFace mode) ctx.

Definition _mesa_FrontFace_no_error (mode : Z) (ctx : gl_context) : gl_context := polygon_front_face mode true ctx.
Definition _mesa_FrontFace (mode : Z) (ctx : gl_context) : gl_context := polygon_front_face mode false ctx.

Definition legal_polygon_mode (e : gl_env) (mode : Z) : bool :=
  if one_of mode [GL_POINT; GL_LINE; GL_FILL] then true
  else if mode =? GL_FILL_RECTANGLE_NV then NV_fill_rectangle e
  else false.

Definition polygon_mode (face mode : Z) (no_error : bool) (ctx : gl_context) : gl_context :=
  let notify := call_driver has_PolygonMode (Drv_PolygonMode face mode) in
  if negb no_error && negb (legal_polygon_mode (env ctx) mode) then _mesa_error GL_INVALID_ENUM ctx else
  if face =? GL_FRONT then
    if negb no_error && gl_api_eqb (API (env ctx)) API_OPENGL_CORE then _mesa_error GL_INVALID_ENUM ctx else
    if FrontMode (Polygon (Attr ctx)) =? mode then ctx else
    let ctx := flush_for NewPolygonState _NEW_POLYGON ctx in
    notify (upd_Polygon (fun p => p <| FrontMode := mode |>) ctx)
  else if face =? GL_FRONT_AND_BACK then
    if (FrontMode (Polygon (Attr ctx)) =? mode) && (BackMode (Polygon (Attr ctx)) =? mode) then ctx else
    let ctx := flush_for NewPolygonState _NEW_POLYGON ctx in
    notify (upd_Polygon (fun p => p <| FrontMode := mode |> <| BackMode := mode |>) ctx)
  else if face =? GL_BACK then
    if negb no_error && gl_api_eqb (API (env ctx)) API_OPENGL_CORE then _mesa_error GL_INVALID_ENUM ctx else
    if BackMode (Polygon (Attr ctx)) =? mode then ctx else
    let ctx := flush_for NewPolygonState _NEW_POLYGON ctx in
    notify (upd_Polygon (fun p => p <| BackMode := mode |>) ctx)
  else if negb no_error then _mesa_error GL_INVALID_ENUM ctx else ctx.

Definition _mesa_PolygonMode_no_error (face mode : Z) (ctx : gl_context) : gl_context :=
  polygon_mode face mode true ctx.
Definition _mesa_PolygonMode (face mode : Z) (ctx : gl_context) : gl_context :=
  polygon_mode face mode false ctx.

Definition _mesa_polygon_offset_clamp (factor units clamp : GLfloat) (ctx : gl_context) : gl_context :=
  let p := Polygon (Attr ctx) in
  if SFeqb (OffsetFactor p) factor && SFeqb (OffsetUnits p) units && SFeqb (OffsetClamp p) clamp then ctx else
  let ctx := flush_for NewPolygonState _NEW_POLYGON ctx in
  let ctx := upd_Polygon (fun p => p <| OffsetFactor := factor |> <| OffsetUnits := units |>
                                     <| OffsetClamp := clamp |>) ctx in
  call_driver has_PolygonOffset (Drv_PolygonOffset factor units clamp) ctx.

Definition _mesa_PolygonOffset (factor units : GLfloat) (ctx : gl_context) : gl_context :=
  _mesa_polygon_offset_clamp factor units f32_0 ctx.

Definition _mesa_PolygonOffsetClampEXT (factor units clamp : GLfloat) (ctx : gl_context) : gl_context :=
  if negb (ARB_polygon_offset_clamp (env ctx)) then _mesa_error GL_INVALID_OPERATION ctx else
  _mesa_polygon_offset_clamp factor units clamp ctx.

Definition _mesa_init_polygon (ctx : gl_context) : gl_context :=
  upd_Polygon (fun p => p <| CullFlag := false |> <| CullFaceMode := GL_BACK |> <| FrontFace := GL_CCW |>
    <| FrontMode := GL_FILL |> <| BackMode := GL_FILL |> <| Polygon_SmoothFlag := false |>
    <| Polygon_StippleFlag := false |> <| OffsetFactor := f32_0 |> <| OffsetUnits := f32_0 |>
    <| OffsetClamp := f32_0 |> <| OffsetPoint := false |> <| OffsetLine := false |>
    <| OffsetFill := false |>) ctx.
