(* ===== verification/GlViewport.v ===== *)
(** * Viewports and conservative rasterisation: src/mesa/main/viewport.c and
    conservativeraster.c *)

From Stdlib Require Import Bool ZArith List Lia SpecFloat.
From S2P Require Import Prelude GlContext GlFloat GlPrimitive.
Import ListNotations.
#[local] Open Scope bool_scope.
#[local] Open Scope Z_scope.
#[local] Open Scope c_scope.

Definition GL_NEGATIVE_ONE_TO_ONE := 0x935E.
Definition GL_ZERO_TO_ONE := 0x935F.

Record gl_viewport_inputs := ViewportInputs {
  In_X : GLfloat;
  In_Y : GLfloat;
  In_Width : GLfloat;
  In_Height : GLfloat
}.

Definition inputs0 : gl_viewport_inputs := ViewportInputs f32_0 f32_0 f32_0 f32_0.
Definition viewport0 : gl_viewport_attrib := ViewportAttrib f32_0 f32_0 f32_0 f32_0 f32_0 f32_0.

Definition clamp_viewport (e : gl_env) (v : gl_viewport_inputs) : gl_viewport_inputs :=
  let width := MIN2 (In_Width v) (float_of_int (MaxViewportWidth e)) in
  let height := MIN2 (In_Height v) (float_of_int (MaxViewportHeight e)) in
  if _mesa_has_ARB_viewport_array e || _mesa_has_OES_viewport_array e then
    let bound x := CLAMP x (fst (ViewportBounds e)) (snd (ViewportBounds e)) in
    ViewportInputs (bound (In_X v)) (bound (In_Y v)) width height
  else ViewportInputs (In_X v) (In_Y v) width height.

Definition same_viewport (v : gl_viewport_inputs) (r : gl_viewport_attrib) : bool :=
  SFeqb (Vp_X r) (In_X v) && SFeqb (Vp_Width r) (In_Width v) &&
  SFeqb (Vp_Y r) (In_Y v) && SFeqb (Vp_Height r) (In_Height v).

Definition store_viewport (v : gl_viewport_inputs) (r : gl_viewport_attrib) : gl_viewport_attrib :=
  r <| Vp_X := In_X v |> <| Vp_Width := In_Width v |> <| Vp_Y := In_Y v |> <| Vp_Height := In_Height v |>.

Definition viewport_at (idx : Z) (ctx : gl_context) : gl_viewport_attrib :=
  nth_Z viewport0 (ViewportArray (Attr ctx)) idx.

Definition set_viewport_no_notify (idx : Z) (v : gl_viewport_inputs) (ctx : gl_context) : gl_context :=
  at_index MAX_VIEWPORTS idx (fun ctx =>
    if same_viewport v (viewport_at idx ctx) then ctx else
    let ctx := flush_for NewViewport _NEW_VIEWPORT ctx in
    upd_Viewports (upd_Z idx (store_viewport v)) ctx) ctx.

Definition viewport (x y width height : Z) (ctx : gl_context) : gl_context :=
  let input := ViewportInputs (float_of_int x) (float_of_int y) (float_of_int width) (float_of_int height) in
  let input := clamp_viewport (env ctx) input in
  let ctx := for_range 0 (MaxViewports (env ctx)) (fun i => set_viewport_no_notify i input) ctx in
  call_driver has_Viewport Drv_Viewport ctx.

Definition _mesa_Viewport_no_error (x y width height : Z) (ctx : gl_context) : gl_context :=
  viewport x y width height ctx.

Definition _mesa_Viewport (x y width height : Z) (ctx : gl_context) : gl_context :=
  if (width <? 0) || (height <? 0) then _mesa_error GL_INVALID_VALUE ctx else
  viewport x y width height ctx.

Definition _mesa_set_viewport (idx : Z) (v : gl_viewport_inputs) (ctx : gl_context) : gl_context :=
  let v := clamp_viewport (env ctx) v in
  let ctx := set_viewport_no_notify idx v ctx in
  call_driver has_Viewport Drv_Viewport ctx.

(** One round of the loop of [viewport_array]: the caller's array is clamped
    in place. *)
Definition viewport_round (first : Z) (s : gl_context * list gl_viewport_inputs) (i : nat)
    : gl_context * list gl_viewport_inputs :=
  let '(ctx, inputs) := s in
  let v := clamp_viewport (env ctx) (nth i inputs inputs0) in
  (set_viewport_no_notify (u32 (Z.of_nat i + first)) v ctx, upd_nth i (fun _ => v) inputs).

(** The result holds the caller's array. *)
Definition viewport_array (first count : Z) (inputs : list gl_viewport_inputs) (ctx : gl_context)
    : gl_context * list gl_viewport_inputs :=
  let '(ctx, inputs) := fold_left (viewport_round first) (seq 0 (Z.to_nat count)) (ctx, inputs) in
  (call_driver has_Viewport Drv_Viewport ctx, inputs).

Definition _mesa_ViewportArrayv_no_error (first count : Z) (v : list gl_viewport_inputs) (ctx : gl_context)
    : gl_context * list gl_viewport_inputs :=
  viewport_array first count v ctx.

Definition negative_size (v : gl_viewport_inputs) : bool :=
  SFltb (In_Width v) f32_0 || SFltb (In_Height v) f32_0.

Definition _mesa_ViewportArrayv (first count : Z) (v : list gl_viewport_inputs) (ctx : gl_context)
    : gl_context * list gl_viewport_inputs :=
  if u32 (first + count) >? MaxViewports (env ctx) then (_mesa_error GL_INVALID_VALUE ctx, v) else
  if existsb negative_size (firstn (Z.to_nat count) v) then (_mesa_error GL_INVALID_VALUE ctx, v) else
  viewport_array first count v ctx.

Definition viewport_indexed_err (index : Z) (v : gl_viewport_inputs) (ctx : gl_context) : gl_context :=
  if index >=? MaxViewports (env ctx) then _mesa_error GL_INVALID_VALUE ctx else
  if negative_size v then _mesa_error GL_INVALID_VALUE ctx else
  _mesa_set_viewport index v ctx.

Definition _mesa_ViewportIndexedf_no_error (index : Z) (x y w h : GLfloat) (ctx : gl_context) : gl_context :=
  _mesa_set_viewport index (ViewportInputs x y w h) ctx.

Definition _mesa_ViewportIndexedf (index : Z) (x y w h : GLfloat) (ctx : gl_context) : gl_context :=
  viewport_indexed_err index (ViewportInputs x y w h) ctx.

(** [v] points to four values. *)
Definition inputs_of (v : list GLfloat) : gl_viewport_inputs :=
  ViewportInputs (nth 0 v f32_0) (nth 1 v f32_0) (nth 2 v f32_0) (nth 3 v f32_0).

Definition _mesa_ViewportIndexedfv_no_error (index : Z) (v : list GLfloat) (ctx : gl_context) : gl_context :=
  _mesa_set_viewport index (inputs_of v) ctx.

Definition _mesa_ViewportIndexedfv (index : Z) (v : list GLfloat) (ctx : gl_context) : gl_context :=
  viewport_indexed_err index (inputs_of v) ctx.

(** ** Depth ranges *)

Definition store_depth_range (nearval farval : GLdouble) (r : gl_viewport_attrib) : gl_viewport_attrib :=
  r <| Near := float_of_double (CLAMP nearval f64_0 f64_1) |>
    <| Far := float_of_double (CLAMP farval f64_0 f64_1) |>.

Definition set_depth_range_no_notify (idx : Z) (nearval farval : GLdouble) (ctx : gl_context) : gl_context :=
  at_index MAX_VIEWPORTS idx (fun ctx =>
    if SFeqb (double_of_float (Near (viewport_at idx ctx))) nearval &&
       SFeqb (double_of_float (Far (viewport_at idx ctx))) farval then ctx else
    let ctx := FLUSH_VERTICES _NEW_VIEWPORT ctx in
    let ctx := ctx <| NewDriverState := Z.lor (NewDriverState ctx) (NewViewport (env ctx)) |> in
    upd_Viewports (upd_Z idx (store_depth_range nearval farval)) ctx) ctx.

Definition _mesa_set_depth_range (idx : Z) (nearval farval : GLdouble) (ctx : gl_context) : gl_context :=
  let ctx := set_depth_range_no_notify idx nearval farval ctx in
  call_driver has_DepthRange Drv_DepthRange ctx.

Definition _mesa_DepthRange (nearval farval : GLdouble) (ctx : gl_context) : gl_context :=
  let ctx := for_range 0 (MaxViewports (env ctx)) (fun i => set_depth_range_no_notify i nearval farval) ctx in
  call_driver has_DepthRange Drv_DepthRange ctx.

Definition _mesa_DepthRangef (nearval farval : GLfloat) (ctx : gl_context) : gl_context :=
  _mesa_DepthRange (double_of_float nearval) (double_of_float farval) ctx.

Definition depth_range_arrayv (first count : Z) (v : list (GLdouble * GLdouble)) (ctx : gl_context) : gl_context :=
  let ctx := for_range 0 count (fun i =>
    let '(n, f) := nth_Z (f64_0, f64_0) v i in set_depth_range_no_notify (u32 (i + first)) n f) ctx in
  call_driver has_DepthRange Drv_DepthRange ctx.

Definition _mesa_DepthRangeArrayv_no_error (first count : Z) (v : list (GLdouble * GLdouble)) (ctx : gl_context)
    : gl_context :=
  depth_range_arrayv first count v ctx.

Definition _mesa_DepthRangeArrayv (first count : Z) (v : list (GLdouble * GLdouble)) (ctx : gl_context) : gl_context :=
  if u32 (first + count) >? MaxViewports (env ctx) then _mesa_error GL_INVALID_VALUE ctx else
  depth_range_arrayv first count v ctx.

Definition _mesa_DepthRangeArrayfvOES (first count : Z) (v : list (GLfloat * GLfloat)) (ctx : gl_context) : gl_context :=
  if u32 (first + count) >? MaxViewports (env ctx) then _mesa_error GL_INVALID_VALUE ctx else
  let ctx := for_range 0 count (fun i =>
    let '(n, f) := nth_Z (f32_0, f32_0) v i in
    set_depth_range_no_notify (u32 (i + first)) (double_of_float n) (double_of_float f)) ctx in
  call_driver has_DepthRange Drv_DepthRange ctx.

Definition _mesa_DepthRangeIndexed_no_error (index : Z) (nearval farval : GLdouble) (ctx : gl_context) : gl_context :=
  _mesa_set_depth_range index nearval farval ctx.

Definition _mesa_DepthRangeIndexed (index : Z) (nearval farval : GLdouble) (ctx : gl_context) : gl_context :=
  if index >=? MaxViewports (env ctx) then _mesa_error GL_INVALID_VALUE ctx else
  _mesa_set_depth_range index nearval farval ctx.

Definition _mesa_DepthRangeIndexedfOES (index : Z) (nearval farval : GLfloat) (ctx : gl_context) : gl_context :=
  _mesa_DepthRangeIndexed index (double_of_float nearval) (double_of_float farval) ctx.

Definition _mesa_init_viewport (ctx : gl_context) : gl_context :=
  let ctx := upd_Transform (fun t => t <| ClipOrigin := GL_LOWER_LEFT |>
                                       <| ClipDepthMode := GL_NEGATIVE_ONE_TO_ONE |>) ctx in
  let ctx := for_range 0 (Z.of_nat MAX_VIEWPORTS) (fun i =>
    upd_Viewports (upd_Z i (fun r => r <| Vp_X := f32_0 |> <| Vp_Y := f32_0 |> <| Vp_Width := f32_0 |>
      <| Vp_Height := f32_0 |> <| Near := f32_0 |> <| Far := f32_1 |>))) ctx in
  upd_Conservative (fun c => c <| SubpixelPrecisionBias := (0, 0) |>) ctx.

(** ** Clip control *)

Definition set_clip_origin (origin : Z) (ctx : gl_context) : gl_context :=
  let ctx := upd_Transform (fun t => t <| ClipOrigin := e16 origin |>) ctx in
  let ctx :=
    if negb (NewPolygonState (env ctx) =? 0)
    then ctx <| NewDriverState := Z.lor (NewDriverState ctx) (NewPolygonState (env ctx)) |>
    else ctx <| NewState := Z.lor (NewState ctx) _NEW_POLYGON |> in
  call_driver has_FrontFace (Drv_FrontFace (FrontFace (Polygon (Attr ctx)))) ctx.

Definition set_clip_depth_mode (depth : Z) (ctx : gl_context) : gl_context :=
  let ctx := upd_Transform (fun t => t <| ClipDepthMode := e16 depth |>) ctx in
  call_driver has_DepthRange Drv_DepthRange ctx.

Definition clip_control (origin depth : Z) (no_error : bool) (ctx : gl_context) : gl_context :=
  if (ClipOrigin (Transform (Attr ctx)) =? origin) && (ClipDepthMode (Transform (Attr ctx)) =? depth)
  then ctx else
  if negb no_error && negb (origin =? GL_LOWER_LEFT) && negb (origin =? GL_UPPER_LEFT)
  then _mesa_error GL_INVALID_ENUM ctx else
  if negb no_error && negb (depth =? GL_NEGATIVE_ONE_TO_ONE) && negb (depth =? GL_ZERO_TO_ONE)
  then _mesa_error GL_INVALID_ENUM ctx else
  let ctx := flush_for NewClipControl (Z.lor _NEW_TRANSFORM _NEW_VIEWPORT) ctx in
  let ctx := if negb (ClipOrigin (Transform (Attr ctx)) =? origin) then set_clip_origin origin ctx else ctx in
  if negb (ClipDepthMode (Transform (Attr ctx)) =? depth) then set_clip_depth_mode depth ctx else ctx.

Definition _mesa_ClipControl_no_error (origin depth : Z) (ctx : gl_context) : gl_context :=
  clip_control origin depth true ctx.

Definition _mesa_ClipControl (origin depth : Z) (ctx : gl_context) : gl_context :=
  if negb (ARB_clip_control (env ctx)) then _mesa_error GL_INVALID_OPERATION ctx else
  clip_control origin depth false ctx.

(** The scale and the translation of the [i]-th viewport transform. *)
Definition _mesa_get_viewport_xform (i : Z) (ctx : gl_context)
    : (GLfloat * GLfloat * GLfloat) * (GLfloat * GLfloat * GLfloat) :=
  let v := viewport_at i ctx in
  let half_width := f32_mul f32_half (Vp_Width v) in
  let half_height := f32_mul f32_half (Vp_Height v) in
  let n := double_of_float (Near v) in
  let f := double_of_float (Far v) in
  let scale1 :=
    if ClipOrigin (Transform (Attr ctx)) =? GL_UPPER_LEFT then SFopp half_height else half_height in
  let '(scale2, translate2) :=
    if ClipDepthMode (Transform (Attr ctx)) =? GL_NEGATIVE_ONE_TO_ONE
    then (f64_mul f64_half (f64_sub f n), f64_mul f64_half (f64_add n f))
    else (f64_sub f n, n) in
  ((half_width, scale1, float_of_double scale2),
   (f32_add half_width (Vp_X v), f32_add half_height (Vp_Y v), float_of_double translate2)).

(** ** Conservative rasterisation *)

(** [FLUSH_VERTICES(ctx, 0); ctx->NewDriverState |= ...]: both setters assign
    before they flush. *)
Definition flush_conservative (ctx : gl_context) : gl_context :=
  let ctx := FLUSH_VERTICES 0 ctx in
  ctx <| NewDriverState := Z.lor (NewDriverState ctx) (NewNvConservativeRasterizationParams (env ctx)) |>.

Definition subpixel_precision_bias (xbits ybits : Z) (ctx : gl_context) : gl_context :=
  let ctx := upd_Conservative (fun c => c <| SubpixelPrecisionBias := (xbits, ybits) |>) ctx in
  flush_conservative ctx.

Definition _mesa_SubpixelPrecisionBiasNV_no_error (xbits ybits : Z) (ctx : gl_context) : gl_context :=
  subpixel_precision_bias xbits ybits ctx.

Definition _mesa_SubpixelPrecisionBiasNV (xbits ybits : Z) (ctx : gl_context) : gl_context :=
  if negb (NV_conservative_raster (env ctx)) then _mesa_error GL_INVALID_OPERATION ctx else
  if xbits >? MaxSubpixelPrecisionBiasBits (env ctx) then _mesa_error GL_INVALID_VALUE ctx else
  if ybits >? MaxSubpixelPrecisionBiasBits (env ctx) then _mesa_error GL_INVALID_VALUE ctx else
  subpixel_precision_bias xbits ybits ctx.

Definition GL_CONSERVATIVE_RASTER_DILATE_NV := 0x9379.
Definition GL_CONSERVATIVE_RASTER_MODE_NV := 0x954D.
Definition GL_CONSERVATIVE_RASTER_MODE_POST_SNAP_NV := 0x954E.
Definition GL_CONSERVATIVE_RASTER_MODE_PRE_SNAP_TRIANGLES_NV := 0x954F.

Definition conservative_raster_parameter (pname : Z) (param : GLfloat) (no_error : bool) (ctx : gl_context)
    : gl_context :=
  let e := env ctx in
  let invalid_pname_enum := if negb no_error then _mesa_error GL_INVALID_ENUM ctx else ctx in
  if negb no_error && negb (NV_conservative_raster_dilate e) &&
     negb (NV_conservative_raster_pre_snap_triangles e)
  then _mesa_error GL_INVALID_OPERATION ctx else
  if pname =? GL_CONSERVATIVE_RASTER_DILATE_NV then
    if negb no_error && negb (NV_conservative_raster_dilate e) then invalid_pname_enum else
    if negb no_error && SFltb param f32_0 then _mesa_error GL_INVALID_VALUE ctx else
    let v := CLAMP param (fst (ConservativeRasterDilateRange e)) (snd (ConservativeRasterDilateRange e)) in
    flush_conservative (upd_Conservative (fun c => c <| ConservativeRasterDilate := v |>) ctx)
  else if pname =? GL_CONSERVATIVE_RASTER_MODE_NV then
    if negb no_error && negb (NV_conservative_raster_pre_snap_triangles e) then invalid_pname_enum else
    if negb no_error && negb (SFeqb param (float_of_int GL_CONSERVATIVE_RASTER_MODE_POST_SNAP_NV)) &&
       negb (SFeqb param (float_of_int GL_CONSERVATIVE_RASTER_MODE_PRE_SNAP_TRIANGLES_NV))
    then _mesa_error GL_INVALID_ENUM ctx else
    to_GLenum16 param (fun mode ctx =>
      flush_conservative (upd_Conservative (fun c => c <| ConservativeRasterMode := mode |>) ctx)) ctx
  else invalid_pname_enum.

Definition _mesa_ConservativeRasterParameteriNV_no_error (pname param : Z) (ctx : gl_context) : gl_context :=
  conservative_raster_parameter pname (float_of_int param) true ctx.
Definition _mesa_ConservativeRasterParameteriNV (pname param : Z) (ctx : gl_context) : gl_context :=
  conservative_raster_parameter pname (float_of_int param) false ctx.
Definition _mesa_ConservativeRasterParameterfNV_no_error (pname : Z) (param : GLfloat) (ctx : gl_context) : gl_context :=
  conservative_raster_parameter pname param true ctx.
Definition _mesa_ConservativeRasterParameterfNV (pname : Z) (param : GLfloat) (ctx : gl_context) : gl_context :=
  conservative_raster_parameter pname param false ctx.

Definition _mesa_init_conservative_raster (ctx : gl_context) : gl_context :=
  upd_Conservative (fun c => c <| ConservativeRasterDilate := f32_0 |>
    <| ConservativeRasterMode := GL_CONSERVATIVE_RASTER_MODE_POST_SNAP_NV |>) ctx.
