(* ===== verification/GlFog.v ===== *)
(** * Fog, hints and sample masks: src/mesa/main/fog.c, hint.c, multisample.c

    Of multisample.c the entry points that set state. *)

From Stdlib Require Import Bool ZArith List Lia SpecFloat.
From S2P Require Import Prelude GlContext GlFloat GlBlend.
Import ListNotations.
#[local] Open Scope bool_scope.
#[local] Open Scope Z_scope.
#[local] Open Scope c_scope.

(** ** multisample.c *)

Definition _mesa_SampleCoverage (value : GLfloat) (invert : Z) (ctx : gl_context) : gl_context :=
  let value := CLAMP value f32_0 f32_1 in
  if (SampleCoverageInvert (Multisample (Attr ctx)) =? invert) &&
     SFeqb (SampleCoverageValue (Multisample (Attr ctx))) value then ctx else
  let ctx := flush_for NewSampleMask _NEW_MULTISAMPLE ctx in
  upd_Multisample (fun m => m <| SampleCoverageValue := value |> <| SampleCoverageInvert := invert |>) ctx.

Definition _mesa_init_multisample (ctx : gl_context) : gl_context :=
  upd_Multisample (fun m => m <| Multisample_Enabled := true |> <| SampleAlphaToCoverage := false |>
    <| SampleAlphaToOne := false |> <| SampleCoverage := false |> <| SampleCoverageValue := f32_1 |>
    <| SampleCoverageInvert := 0 |> <| SampleShading := false |> <| MinSampleShadingValue := f32_0 |>
    <| SampleMask := false |> <| SampleMaskValue := 0xffffffff |>) ctx.

Definition sample_maski (mask : Z) (ctx : gl_context) : gl_context :=
  if SampleMaskValue (Multisample (Attr ctx)) =? mask then ctx else
  let ctx := flush_for NewSampleMask _NEW_MULTISAMPLE ctx in
  upd_Multisample (fun m => m <| SampleMaskValue := mask |>) ctx.

Definition _mesa_SampleMaski_no_error (index mask : Z) (ctx : gl_context) : gl_context := sample_maski mask ctx.

Definition _mesa_SampleMaski (index mask : Z) (ctx : gl_context) : gl_context :=
  if negb (ARB_texture_multisample (env ctx)) then _mesa_error GL_INVALID_OPERATION ctx else
  if negb (index =? 0) then _mesa_error GL_INVALID_VALUE ctx else
  sample_maski mask ctx.

Definition min_sample_shading (value : GLfloat) (ctx : gl_context) : gl_context :=
  let value := CLAMP value f32_0 f32_1 in
  if SFeqb (MinSampleShadingValue (Multisample (Attr ctx))) value then ctx else
  let ctx := flush_for NewSampleShading _NEW_MULTISAMPLE ctx in
  upd_Multisample (fun m => m <| MinSampleShadingValue := value |>) ctx.

Definition _mesa_MinSampleShading_no_error (value : GLfloat) (ctx : gl_context) : gl_context :=
  min_sample_shading value ctx.

Definition _mesa_MinSampleShading (value : GLfloat) (ctx : gl_context) : gl_context :=
  if negb (_mesa_has_ARB_sample_shading (env ctx)) && negb (_mesa_has_OES_sample_shading (env ctx))
  then _mesa_error GL_INVALID_OPERATION ctx else
  min_sample_shading value ctx.

(** ** hint.c *)

Definition GL_DONT_CARE := 0x1100.
Definition GL_FASTEST := 0x1101.
Definition GL_NICEST := 0x1102.
Definition GL_PERSPECTIVE_CORRECTION_HINT := 0x0C50.
Definition GL_POINT_SMOOTH_HINT := 0x0C51.
Definition GL_LINE_SMOOTH_HINT := 0x0C52.
Definition GL_POLYGON_SMOOTH_HINT := 0x0C53.
Definition GL_FOG_HINT := 0x0C54.
Definition GL_GENERATE_MIPMAP_HINT_SGIS := 0x8192.
Definition GL_TEXTURE_COMPRESSION_HINT_ARB := 0x84EF.
Definition GL_FRAGMENT_SHADER_DERIVATIVE_HINT_ARB := 0x8B8B.

(** One case of the switch of [_mesa_Hint]: [supported] is the test before
    [goto invalid_target], [get] reads the member and [set] assigns it. *)
Definition hint_case (supported : bool) (get : gl_hint_attrib -> GLenum16)
    (set : gl_hint_attrib -> gl_hint_attrib) (mode : Z) (ctx : gl_context) : gl_context :=
  if negb supported then _mesa_error GL_INVALID_ENUM ctx else
  if get (Hint_ (Attr ctx)) =? mode then ctx else
  let ctx := FLUSH_VERTICES _NEW_HINT ctx in
  upd_Hint set ctx.

Definition _mesa_Hint (target mode : Z) (ctx : gl_context) : gl_context :=
  let e := env ctx in
  let fixed_function := gl_api_eqb (API e) API_OPENGL_COMPAT || gl_api_eqb (API e) API_OPENGLES in
  if negb (mode =? GL_NICEST) && negb (mode =? GL_FASTEST) && negb (mode =? GL_DONT_CARE)
  then _mesa_error GL_INVALID_ENUM ctx else
  if target =? GL_FOG_HINT then
    hint_case fixed_function Hint_Fog (fun h => h <| Hint_Fog := e16 mode |>) mode ctx
  else if target =? GL_LINE_SMOOTH_HINT then
    hint_case (_mesa_is_desktop_gl e || gl_api_eqb (API e) API_OPENGLES) LineSmooth
      (fun h => h <| LineSmooth := e16 mode |>) mode ctx
  else if target =? GL_PERSPECTIVE_CORRECTION_HINT then
    hint_case fixed_function PerspectiveCorrection (fun h => h <| PerspectiveCorrection := e16 mode |>) mode ctx
  else if target =? GL_POINT_SMOOTH_HINT then
    hint_case fixed_function PointSmooth (fun h => h <| PointSmooth := e16 mode |>) mode ctx
  else if target =? GL_POLYGON_SMOOTH_HINT then
    hint_case (_mesa_is_desktop_gl e) PolygonSmooth (fun h => h <| PolygonSmooth := e16 mode |>) mode ctx
  else if target =? GL_TEXTURE_COMPRESSION_HINT_ARB then
    hint_case (_mesa_is_desktop_gl e) TextureCompression (fun h => h <| TextureCompression := e16 mode |>) mode ctx
  else if target =? GL_GENERATE_MIPMAP_HINT_SGIS then
    hint_case (negb (gl_api_eqb (API e) API_OPENGL_CORE)) GenerateMipmap
      (fun h => h <| GenerateMipmap := e16 mode |>) mode ctx
  else if target =? GL_FRAGMENT_SHADER_DERIVATIVE_HINT_ARB then
    hint_case (negb (gl_api_eqb (API e) API_OPENGLES || negb (ARB_fragment_shader e))) FragmentShaderDerivative
      (fun h => h <| FragmentShaderDerivative := e16 mode |>) mode ctx
  else _mesa_error GL_INVALID_ENUM ctx.

Definition _mesa_init_hint (ctx : gl_context) : gl_context :=
  upd_Hint (fun h => h <| PerspectiveCorrection := GL_DONT_CARE |> <| PointSmooth := GL_DONT_CARE |>
    <| LineSmooth := GL_DONT_CARE |> <| PolygonSmooth := GL_DONT_CARE |> <| Hint_Fog := GL_DONT_CARE |>
    <| TextureCompression := GL_DONT_CARE |> <| GenerateMipmap := GL_DONT_CARE |>
    <| FragmentShaderDerivative := GL_DONT_CARE |>) ctx.

(** ** fog.c *)

Definition GL_FOG_INDEX := 0x0B61.
Definition GL_FOG_DENSITY := 0x0B62.
Definition GL_FOG_START := 0x0B63.
Definition GL_FOG_END := 0x0B64.
Definition GL_FOG_MODE := 0x0B65.
Definition GL_FOG_COLOR := 0x0B66.
Definition GL_FOG_COORDINATE_SOURCE_EXT := 0x8450.
Definition GL_FOG_COORDINATE_EXT := 0x8451.
Definition GL_FRAGMENT_DEPTH_EXT := 0x8452.
Definition GL_FOG_DISTANCE_MODE_NV := 0x855A.
Definition GL_EYE_RADIAL_NV := 0x855B.
Definition GL_EYE_PLANE_ABSOLUTE_NV := 0x855C.
Definition GL_EYE_PLANE := 0x2502.
Definition GL_EXP := 0x0800.
Definition GL_EXP2 := 0x0801.
Definition GL_LINEAR := 0x2601.

(** [enum gl_fog_mode]. *)
Definition FOG_NONE := 0.
Definition FOG_LINEAR := 1.
Definition FOG_EXP := 2.
Definition FOG_EXP2 := 3.

(** The packed mode of an enumerant that [GL_FOG_MODE] accepts. *)
Definition packed_mode (m : Z) : option Z :=
  if m =? GL_LINEAR then Some FOG_LINEAR
  else if m =? GL_EXP then Some FOG_EXP
  else if m =? GL_EXP2 then Some FOG_EXP2
  else None.

Definition fog_mode (m : Z) (notify : gl_context -> gl_context) (ctx : gl_context) : gl_context :=
  match packed_mode m with
  | None => _mesa_error GL_INVALID_ENUM ctx
  | Some p =>
      let ctx := upd_Fog (fun f => f <| _PackedMode := p |>) ctx in
      if Fog_Mode (Fog (Attr ctx)) =? m then ctx else
      let ctx := FLUSH_VERTICES _NEW_FOG ctx in
      notify (upd_Fog (fun f => f <| Fog_Mode := e16 m |>
        <| _PackedEnabledMode := if Fog_Enabled f then _PackedMode f else FOG_NONE |>) ctx)
  end.

(** The cases that assign one number: [get] reads the member and [set] assigns
    it. *)
Definition fog_number (get : gl_fog_attrib -> GLfloat) (set : gl_fog_attrib -> gl_fog_attrib)
    (x : GLfloat) (notify : gl_context -> gl_context) (ctx : gl_context) : gl_context :=
  if SFeqb (get (Fog (Attr ctx))) x then ctx else
  let ctx := FLUSH_VERTICES _NEW_FOG ctx in
  notify (upd_Fog set ctx).

(** The cases that assign an enumerant. *)
Definition fog_enum (supported : bool) (legal : list Z) (get : gl_fog_attrib -> GLenum16)
    (set : Z -> gl_fog_attrib -> gl_fog_attrib)
    (x : GLfloat) (notify : gl_context -> gl_context) (ctx : gl_context) : gl_context :=
  to_GLint x (fun v ctx =>
    let p := u32 v in
    if negb supported || negb (one_of p legal) then _mesa_error GL_INVALID_ENUM ctx else
    if get (Fog (Attr ctx)) =? p then ctx else
    let ctx := FLUSH_VERTICES _NEW_FOG ctx in
    notify (upd_Fog (set p) ctx)) ctx.

Definition fog_color (params : vec4) (notify : gl_context -> gl_context) (ctx : gl_context) : gl_context :=
  if TEST_EQ_4V (Fog_Color (Fog (Attr ctx))) params then ctx else
  let ctx := FLUSH_VERTICES _NEW_FOG ctx in
  notify (upd_Fog (fun f => f <| Fog_ColorUnclamped := params |>
                              <| Fog_Color := vec4_map clampf params |>) ctx).

Definition _mesa_Fogfv (pname : Z) (params : vec4) (ctx : gl_context) : gl_context :=
  let e := env ctx in
  let x := v0 params in
  let compat := gl_api_eqb (API e) API_OPENGL_COMPAT in
  let notify := call_driver has_Fogfv (Drv_Fogfv pname params) in
  if pname =? GL_FOG_MODE then to_GLint x (fun v => fog_mode (u32 v) notify) ctx
  else if pname =? GL_FOG_DENSITY then
    if SFltb x f32_0 then _mesa_error GL_INVALID_VALUE ctx else
    fog_number Density (fun f => f <| Density := x |>) x notify ctx
  else if pname =? GL_FOG_START then fog_number Fog_Start (fun f => f <| Fog_Start := x |>) x notify ctx
  else if pname =? GL_FOG_END then fog_number Fog_End (fun f => f <| Fog_End := x |>) x notify ctx
  else if pname =? GL_FOG_INDEX then
    if negb compat then _mesa_error GL_INVALID_ENUM ctx else
    fog_number Fog_Index (fun f => f <| Fog_Index := x |>) x notify ctx
  else if pname =? GL_FOG_COLOR then fog_color params notify ctx
  else if pname =? GL_FOG_COORDINATE_SOURCE_EXT then
    fog_enum compat [GL_FOG_COORDINATE_EXT; GL_FRAGMENT_DEPTH_EXT] FogCoordinateSource
      (fun p f => f <| FogCoordinateSource := e16 p |>) x notify ctx
  else if pname =? GL_FOG_DISTANCE_MODE_NV then
    fog_enum (compat && NV_fog_distance e) [GL_EYE_RADIAL_NV; GL_EYE_PLANE; GL_EYE_PLANE_ABSOLUTE_NV]
      FogDistanceMode (fun p f => f <| FogDistanceMode := e16 p |>) x notify ctx
  else _mesa_error GL_INVALID_ENUM ctx.

Definition _mesa_Fogf (pname : Z) (param : GLfloat) (ctx : gl_context) : gl_context :=
  _mesa_Fogfv pname (Vec4 param f32_0 f32_0 f32_0) ctx.

Definition _mesa_Fogi (pname param : Z) (ctx : gl_context) : gl_context :=
  _mesa_Fogfv pname (Vec4 (float_of_int param) f32_0 f32_0 f32_0) ctx.

(** [params] points to as many integers as [pname] needs; [rest] is what the
    elements of the local array hold when they are not set. *)
Definition _mesa_Fogiv (rest : vec4) (pname : Z) (params : list Z) (ctx : gl_context) : gl_context :=
  let p :=
    if one_of pname [GL_FOG_MODE; GL_FOG_DENSITY; GL_FOG_START; GL_FOG_END; GL_FOG_INDEX;
                     GL_FOG_COORDINATE_SOURCE_EXT; GL_FOG_DISTANCE_MODE_NV]
    then Vec4 (float_of_int (nth 0 params 0)) (v1 rest) (v2 rest) (v3 rest)
    else if pname =? GL_FOG_COLOR then vec4_of (map INT_TO_FLOAT (firstn 4 params))
    else Vec4 f32_0 f32_0 f32_0 f32_0 in
  _mesa_Fogfv pname p ctx.

Definition _mesa_init_fog (ctx : gl_context) : gl_context :=
  let zero := Vec4 f32_0 f32_0 f32_0 f32_0 in
  upd_Fog (fun f => f <| Fog_Enabled := false |> <| Fog_Mode := GL_EXP |> <| _PackedMode := FOG_EXP |>
    <| _PackedEnabledMode := FOG_NONE |> <| Fog_Color := zero |> <| Fog_ColorUnclamped := zero |>
    <| Fog_Index := f32_0 |> <| Density := f32_1 |> <| Fog_Start := f32_0 |> <| Fog_End := f32_1 |>
    <| ColorSumEnabled := false |> <| FogCoordinateSource := GL_FRAGMENT_DEPTH_EXT |>
    <| FogDistanceMode := GL_EYE_PLANE_ABSOLUTE_NV |>) ctx.
