(* ===== verification/GlRaster.v ===== *)
(** * Commands on the state of primitives, viewports, fog and samples

    The entry points of lines.c, points.c, polygon.c, viewport.c,
    conservativeraster.c, multisample.c, hint.c and fog.c as one command type,
    and that each of them keeps the contract of GlSteps; the setters of
    conservative rasterisation keep it but for the order of change and flush. *)

From Stdlib Require Import Bool ZArith List Lia SpecFloat.
From S2P Require Import Prelude GlContext GlSteps GlFloat GlPrimitive GlViewport GlFog.
Import ListNotations.
#[local] Open Scope bool_scope.
#[local] Open Scope Z_scope.
#[local] Open Scope c_scope.

Inductive raster_command :=
| LineWidth (width : GLfloat)
| LineWidth_no_error (width : GLfloat)
| LineStipple (factor pattern : Z)
| PointSize (size : GLfloat)
| PointSize_no_error (size : GLfloat)
| PointParameteri (pname param : Z)
| PointParameteriv (rest : GLfloat * GLfloat) (pname : Z) (params : Z * Z * Z)
| PointParameterf (pname : Z) (param : GLfloat)
| PointParameterfv (pname : Z) (params : vec3)
| CullFace (mode : Z)
| CullFace_no_error (mode : Z)
| FrontFace_ (mode : Z)
| FrontFace_no_error (mode : Z)
| PolygonMode (face mode : Z)
| PolygonMode_no_error (face mode : Z)
| PolygonOffset (factor units : GLfloat)
| PolygonOffsetClampEXT (factor units clamp : GLfloat)
| Viewport (x y width height : Z)
| Viewport_no_error (x y width height : Z)
| ViewportArrayv (first count : Z) (v : list gl_viewport_inputs)
| ViewportArrayv_no_error (first count : Z) (v : list gl_viewport_inputs)
| ViewportIndexedf (index : Z) (x y w h : GLfloat)
| ViewportIndexedf_no_error (index : Z) (x y w h : GLfloat)
| ViewportIndexedfv (index : Z) (v : list GLfloat)
| ViewportIndexedfv_no_error (index : Z) (v : list GLfloat)
| DepthRange (nearval farval : GLdouble)
| DepthRangef (nearval farval : GLfloat)
| DepthRangeArrayv (first count : Z) (v : list (GLdouble * GLdouble))
| DepthRangeArrayv_no_error (first count : Z) (v : list (GLdouble * GLdouble))
| DepthRangeArrayfvOES (first count : Z) (v : list (GLfloat * GLfloat))
| DepthRangeIndexed (index : Z) (nearval farval : GLdouble)
| DepthRangeIndexed_no_error (index : Z) (nearval farval : GLdouble)
| DepthRangeIndexedfOES (index : Z) (nearval farval : GLfloat)
| ClipControl (origin depth : Z)
| ClipControl_no_error (origin depth : Z)
| SubpixelPrecisionBiasNV (xbits ybits : Z)
| SubpixelPrecisionBiasNV_no_error (xbits ybits : Z)
| ConservativeRasterParameteriNV (pname param : Z)
| ConservativeRasterParameteriNV_no_error (pname param : Z)
| ConservativeRasterParameterfNV (pname : Z) (param : GLfloat)
| ConservativeRasterParameterfNV_no_error (pname : Z) (param : GLfloat)
| SampleCoverage_ (value : GLfloat) (invert : Z)
| SampleMaski (index mask : Z)
| SampleMaski_no_error (index mask : Z)
| MinSampleShading (value : GLfloat)
| MinSampleShading_no_error (value : GLfloat)
| Hint (target mode : Z)
| Fogf (pname : Z) (param : GLfloat)
| Fogi (pname param : Z)
| Fogiv (rest : vec4) (pname : Z) (params : list Z)
| Fogfv (pname : Z) (params : vec4).

Definition exec_raster (c : raster_command) (ctx : gl_context) : outcome gl_context :=
  match c with
  | LineWidth w => Ret (_mesa_LineWidth w ctx)
  | LineWidth_no_error w => Ret (_mesa_LineWidth_no_error w ctx)
  | LineStipple f p => Ret (_mesa_LineStipple f p ctx)
  | PointSize s => Ret (_mesa_PointSize s ctx)
  | PointSize_no_error s => Ret (_mesa_PointSize_no_error s ctx)
  | PointParameteri n p => _mesa_PointParameteri n p ctx
  | PointParameteriv r n p => _mesa_PointParameteriv r n p ctx
  | PointParameterf n p => _mesa_PointParameterf n p ctx
  | PointParameterfv n p => _mesa_PointParameterfv n p ctx
  | CullFace m => Ret (_mesa_CullFace m ctx)
  | CullFace_no_error m => Ret (_mesa_CullFace_no_error m ctx)
  | FrontFace_ m => Ret (_mesa_FrontFace m ctx)
  | FrontFace_no_error m => Ret (_mesa_FrontFace_no_error m ctx)
  | PolygonMode f m => Ret (_mesa_PolygonMode f m ctx)
  | PolygonMode_no_error f m => Ret (_mesa_PolygonMode_no_error f m ctx)
  | PolygonOffset f u => Ret (_mesa_PolygonOffset f u ctx)
  | PolygonOffsetClampEXT f u c => Ret (_mesa_PolygonOffsetClampEXT f u c ctx)
  | Viewport x y w h => Ret (_mesa_Viewport x y w h ctx)
  | Viewport_no_error x y w h => Ret (_mesa_Viewport_no_error x y w h ctx)
  | ViewportArrayv f c v => Ret (fst (_mesa_ViewportArrayv f c v ctx))
  | ViewportArrayv_no_error f c v => Ret (fst (_mesa_ViewportArrayv_no_error f c v ctx))
  | ViewportIndexedf i x y w h => Ret (_mesa_ViewportIndexedf i x y w h ctx)
  | ViewportIndexedf_no_error i x y w h => Ret (_mesa_ViewportIndexedf_no_error i x y w h ctx)
  | ViewportIndexedfv i v => Ret (_mesa_ViewportIndexedfv i v ctx)
  | ViewportIndexedfv_no_error i v => Ret (_mesa_ViewportIndexedfv_no_error i v ctx)
  | DepthRange n f => Ret (_mesa_DepthRange n f ctx)
  | DepthRangef n f => Ret (_mesa_DepthRangef n f ctx)
  | DepthRangeArrayv f c v => Ret (_mesa_DepthRangeArrayv f c v ctx)
  | DepthRangeArrayv_no_error f c v => Ret (_mesa_DepthRangeArrayv_no_error f c v ctx)
  | DepthRangeArrayfvOES f c v => Ret (_mesa_DepthRangeArrayfvOES f c v ctx)
  | DepthRangeIndexed i n f => Ret (_mesa_DepthRangeIndexed i n f ctx)
  | DepthRangeIndexed_no_error i n f => Ret (_mesa_DepthRangeIndexed_no_error i n f ctx)
  | DepthRangeIndexedfOES i n f => Ret (_mesa_DepthRangeIndexedfOES i n f ctx)
  | ClipControl o d => Ret (_mesa_ClipControl o d ctx)
  | ClipControl_no_error o d => Ret (_mesa_ClipControl_no_error o d ctx)
  | SubpixelPrecisionBiasNV x y => Ret (_mesa_SubpixelPrecisionBiasNV x y ctx)
  | SubpixelPrecisionBiasNV_no_error x y => Ret (_mesa_SubpixelPrecisionBiasNV_no_error x y ctx)
  | ConservativeRasterParameteriNV n p => Ret (_mesa_ConservativeRasterParameteriNV n p ctx)
  | ConservativeRasterParameteriNV_no_error n p => Ret (_mesa_ConservativeRasterParameteriNV_no_error n p ctx)
  | ConservativeRasterParameterfNV n p => Ret (_mesa_ConservativeRasterParameterfNV n p ctx)
  | ConservativeRasterParameterfNV_no_error n p => Ret (_mesa_ConservativeRasterParameterfNV_no_error n p ctx)
  | SampleCoverage_ v i => Ret (_mesa_SampleCoverage v i ctx)
  | SampleMaski i m => Ret (_mesa_SampleMaski i m ctx)
  | SampleMaski_no_error i m => Ret (_mesa_SampleMaski_no_error i m ctx)
  | MinSampleShading v => Ret (_mesa_MinSampleShading v ctx)
  | MinSampleShading_no_error v => Ret (_mesa_MinSampleShading_no_error v ctx)
  | Hint t m => Ret (_mesa_Hint t m ctx)
  | Fogf n p => Ret (_mesa_Fogf n p ctx)
  | Fogi n p => Ret (_mesa_Fogi n p ctx)
  | Fogiv r n p => Ret (_mesa_Fogiv r n p ctx)
  | Fogfv n p => Ret (_mesa_Fogfv n p ctx)
  end.

(** ** Single setters *)

Lemma step_ok_undefined x a : step_ok a (emit (EvUndefined x) a).
Proof. right. now apply good_emit. Qed.

Lemma step_ok_converted lo hi x k a : (forall v, step_ok a (k v a)) -> step_ok a (converted lo hi x k a).
Proof.
  intros H. unfold converted. destruct (truncate x); [destruct (_ && _)|]; auto using step_ok_undefined.
Qed.

Lemma line_width_ok w ne a : step_ok a (line_width w ne a).
Proof. unfold line_width. setter. flush G_Line. repeat assign. Qed.

Lemma LineStipple_ok f p a : step_ok a (_mesa_LineStipple f p a).
Proof. unfold _mesa_LineStipple. setter. flush G_Line. repeat assign. Qed.

Lemma point_size_ok s ne a : step_ok a (point_size s ne a).
Proof. unfold point_size. setter. flush_only G_Point. repeat assign. Qed.

Lemma point_limit_ok get set x d a :
  step_ok a (point_limit get set x (call_driver has_PointParameterfv d) a).
Proof. unfold point_limit. setter. flush_only G_Point. repeat assign. Qed.

Lemma point_mode_ok s l get set x d a :
  step_ok a (point_mode s l get set x (call_driver has_PointParameterfv d) a).
Proof.
  unfold point_mode. setter. apply step_ok_converted. intros v. setter. flush_only G_Point. repeat assign.
Qed.

#[export] Hint Resolve line_width_ok LineStipple_ok point_size_ok point_limit_ok point_mode_ok : gl.

Lemma PointParameterfv_ok n p a b : _mesa_PointParameterfv n p a = Ret b -> step_ok a b.
Proof.
  unfold _mesa_PointParameterfv. cbv zeta. unfold c_assert. destruct (_ || _); [|discriminate].
  intros H. injection H as <-. setter. flush_only G_Point. repeat assign.
Qed.

Lemma cull_face_ok m ne a : step_ok a (cull_face m ne a).
Proof. unfold cull_face. setter. flush G_Polygon. repeat assign. Qed.

Lemma polygon_front_face_ok m ne a : step_ok a (polygon_front_face m ne a).
Proof. unfold polygon_front_face. setter. flush G_Polygon. repeat assign. Qed.

Lemma polygon_mode_ok f m ne a : step_ok a (polygon_mode f m ne a).
Proof. unfold polygon_mode. setter; flush G_Polygon; repeat assign. Qed.

Lemma polygon_offset_clamp_ok f u c a : step_ok a (_mesa_polygon_offset_clamp f u c a).
Proof. unfold _mesa_polygon_offset_clamp. setter. flush G_Polygon. repeat assign. Qed.

Lemma SampleCoverage_ok v i a : step_ok a (_mesa_SampleCoverage v i a).
Proof. unfold _mesa_SampleCoverage. setter. flush G_SampleMask. repeat assign. Qed.

Lemma sample_maski_ok m a : step_ok a (sample_maski m a).
Proof. unfold sample_maski. setter. flush G_SampleMask. repeat assign. Qed.

Lemma min_sample_shading_ok v a : step_ok a (min_sample_shading v a).
Proof. unfold min_sample_shading. setter. flush G_SampleShading. repeat assign. Qed.

Lemma hint_case_ok s get set m a : step_ok a (hint_case s get set m a).
Proof. unfold hint_case. setter. flush_only G_Hint. repeat assign. Qed.

(** The packed mode is assigned before the flush, but no draw depends on it. *)
Lemma fog_mode_ok m d a : step_ok a (fog_mode m (call_driver has_Fogfv d) a).
Proof.
  unfold fog_mode. destruct (packed_mode m) as [p|]; [|auto with gl]. cbv zeta. right.
  match goal with |- good _ (if (Fog_Mode (Fog (Attr ?c)) =? m) then _ else _) =>
    apply (good_trans a c); [now apply good_attr | generalize c] end.
  intros b. destruct (_ =? m); [apply good_refl|]. flush_only G_Fog. repeat assign.
Qed.

Lemma fog_number_ok get set x d a : step_ok a (fog_number get set x (call_driver has_Fogfv d) a).
Proof. unfold fog_number. setter. flush_only G_Fog. repeat assign. Qed.

Lemma fog_enum_ok s l get set x d a : step_ok a (fog_enum s l get set x (call_driver has_Fogfv d) a).
Proof. unfold fog_enum. apply step_ok_converted. intros v. setter. flush_only G_Fog. repeat assign. Qed.

Lemma fog_color_ok p d a : step_ok a (fog_color p (call_driver has_Fogfv d) a).
Proof. unfold fog_color. setter. flush_only G_Fog. repeat assign. Qed.

#[export] Hint Resolve cull_face_ok polygon_front_face_ok polygon_mode_ok polygon_offset_clamp_ok
  SampleCoverage_ok sample_maski_ok min_sample_shading_ok hint_case_ok fog_number_ok fog_enum_ok
  fog_color_ok : gl.

Lemma Hint_ok t m a : step_ok a (_mesa_Hint t m a).
Proof. unfold _mesa_Hint. setter. Qed.

Lemma Fogfv_ok n p a : step_ok a (_mesa_Fogfv n p a).
Proof. unfold _mesa_Fogfv. setter. apply step_ok_converted. intros v. apply fog_mode_ok. Qed.

(** ** Viewports *)

Lemma set_viewport_good i v a : good a (set_viewport_no_notify i v a).
Proof.
  unfold set_viewport_no_notify. apply good_at_index. intros c.
  destruct (same_viewport _ _); [apply good_refl|]. cbv zeta. flush G_Viewport. repeat assign.
Qed.

Lemma depth_range_flushed a :
  flushed G_Viewport a (let b := FLUSH_VERTICES _NEW_VIEWPORT a in
    b <| NewDriverState := Z.lor (NewDriverState b) (NewViewport (env a)) |>).
Proof. apply flush_flushed_one; [discriminate|]. unfold marks. cbn. destruct (_ =? 0); apply has_bits_refl. Qed.

Lemma set_depth_range_good i n f a : good a (set_depth_range_no_notify i n f a).
Proof.
  unfold set_depth_range_no_notify. apply good_at_index. clear a. intros a.
  destruct (_ && _); [apply good_refl|]. cbv zeta. rewrite FLUSH_env.
  pose proof (depth_range_flushed a) as H. cbv zeta in H. flushed_by H. repeat assign.
Qed.

Lemma viewport_rounds_good f l : forall a v, good a (fst (fold_left (viewport_round f) l (a, v))).
Proof.
  induction l as [|i l IH]; intros a v; [apply good_refl|]. cbn [fold_left viewport_round].
  eapply good_trans; [apply set_viewport_good | apply IH].
Qed.

Lemma notified_ok has d a b : good a b -> step_ok a (call_driver has d b).
Proof. intros H. right. eapply good_trans; [exact H | apply good_driver]. Qed.

Lemma viewport_ok x y w h a : step_ok a (viewport x y w h a).
Proof. apply notified_ok, good_for. intros. apply set_viewport_good. Qed.

Lemma set_viewport_ok i v a : step_ok a (_mesa_set_viewport i v a).
Proof. apply notified_ok, set_viewport_good. Qed.

Lemma viewport_array_ok f c v a : step_ok a (fst (viewport_array f c v a)).
Proof.
  unfold viewport_array. pose proof (viewport_rounds_good f (seq 0 (Z.to_nat c)) a v) as H.
  destruct (fold_left _ _ _) as [b w]. now apply notified_ok.
Qed.

Lemma ViewportArrayv_ok f c v a : step_ok a (fst (_mesa_ViewportArrayv f c v a)).
Proof.
  unfold _mesa_ViewportArrayv. destruct (_ >? _); [apply step_ok_error|].
  destruct (existsb _ _); [apply step_ok_error | apply viewport_array_ok].
Qed.

Lemma set_depth_range_ok i n f a : step_ok a (_mesa_set_depth_range i n f a).
Proof. apply notified_ok, set_depth_range_good. Qed.

Lemma DepthRange_ok n f a : step_ok a (_mesa_DepthRange n f a).
Proof. apply notified_ok, good_for. intros. apply set_depth_range_good. Qed.

Lemma depth_range_arrayv_ok f c v a : step_ok a (depth_range_arrayv f c v a).
Proof. apply notified_ok, good_for. intros i b. destruct (nth_Z _ _ _). apply set_depth_range_good. Qed.

Lemma DepthRangeArrayfvOES_ok f c v a : step_ok a (_mesa_DepthRangeArrayfvOES f c v a).
Proof.
  unfold _mesa_DepthRangeArrayfvOES. setter. apply notified_ok, good_for. intros i b.
  destruct (nth_Z _ _ _). apply set_depth_range_good.
Qed.

#[export] Hint Resolve Hint_ok Fogfv_ok viewport_ok set_viewport_ok viewport_array_ok ViewportArrayv_ok
  set_depth_range_ok DepthRange_ok depth_range_arrayv_ok DepthRangeArrayfvOES_ok : gl.

Lemma viewport_indexed_ok i v a : step_ok a (viewport_indexed_err i v a).
Proof. unfold viewport_indexed_err. setter. Qed.

(** The change of origin marks the polygon state dirty as well. *)
Lemma set_clip_origin_confined o a : confined G_ClipControl a (set_clip_origin o a).
Proof.
  unfold set_clip_origin. cbv zeta. assign.
  destruct (negb _); (eapply confined_trans; [|first [apply confined_NewDriverState | apply confined_NewState]]);
    repeat assign.
Qed.

Lemma set_clip_depth_mode_confined d a : confined G_ClipControl a (set_clip_depth_mode d a).
Proof. unfold set_clip_depth_mode. cbv zeta. repeat assign. Qed.

Lemma clip_control_ok o d ne a : step_ok a (clip_control o d ne a).
Proof.
  unfold clip_control. setter; flush G_ClipControl.
  all: try (eapply confined_trans; [|apply set_clip_depth_mode_confined]).
  all: try destruct (negb _); auto using set_clip_origin_confined, confined_refl.
Qed.

#[export] Hint Resolve viewport_indexed_ok clip_control_ok : gl.

(** ** Conservative rasterisation *)

Definition failed_or_lawful_but (X : group -> Prop) (a b : gl_context) : Prop :=
  (exists e, b = _mesa_error e a) \/ lawful_but X a b.
Abbreviation failed_or_lawful := (failed_or_lawful_but none).

Lemma step_ok_lawful {X} a b : step_ok_but X a b -> failed_or_lawful_but X a b.
Proof. intros [H|H]; [now left | right; now apply good_lawful]. Qed.

Lemma conservative_lawful f a : failed_or_lawful a (flush_conservative (upd_Conservative f a)).
Proof.
  right. unfold flush_conservative. rewrite FLUSH_env.
  refine (late_lawful G_Conservative 0 (NewNvConservativeRasterizationParams (env a)) a _ _ _ _); [discriminate| |].
  - intros [] Hg; first [exfalso; apply Hg; unfold within; tauto | cbn; auto].
  - unfold marks. cbn. intros Hflag.
    destruct (Z.eqb_spec (NewNvConservativeRasterizationParams (env a)) 0); [contradiction | apply has_bits_refl].
Qed.

Ltac lawful_setter :=
  cbv zeta;
  repeat match goal with
  | |- failed_or_lawful_but _ ?a (if ?b then _ else _) => destruct b
  | |- failed_or_lawful_but _ ?a ?a => apply step_ok_lawful, step_ok_refl
  | |- failed_or_lawful_but _ ?a (_mesa_error _ ?a) => apply step_ok_lawful, step_ok_error
  | |- failed_or_lawful_but _ ?a (flush_conservative _) => apply conservative_lawful
  end.

Lemma SubpixelPrecisionBias_lawful x y a : failed_or_lawful a (_mesa_SubpixelPrecisionBiasNV x y a).
Proof. unfold _mesa_SubpixelPrecisionBiasNV, subpixel_precision_bias. lawful_setter. Qed.

Lemma conservative_raster_parameter_lawful n p ne a : failed_or_lawful a (conservative_raster_parameter n p ne a).
Proof.
  unfold conservative_raster_parameter, to_GLenum16, converted. lawful_setter.
  all: destruct (truncate p); [destruct (_ && _)|]; lawful_setter; apply step_ok_lawful, step_ok_undefined.
Qed.

(** ** All commands *)

(** The setter flushes before it changes anything. *)
Definition raster_orderly (c : raster_command) : Prop :=
  match c with
  | SubpixelPrecisionBiasNV _ _ | SubpixelPrecisionBiasNV_no_error _ _
  | ConservativeRasterParameteriNV _ _ | ConservativeRasterParameteriNV_no_error _ _
  | ConservativeRasterParameterfNV _ _ | ConservativeRasterParameterfNV_no_error _ _ => False
  | _ => True
  end.

Lemma exec_raster_step_ok c a b : raster_orderly c -> exec_raster c a = Ret b -> step_ok a b.
Proof.
  intros Ho. destruct c; cbn [exec_raster raster_orderly] in *; try contradiction;
    try apply PointParameterfv_ok; try (intros H; injection H as <-).
  all: try solve [auto with gl nocore].
  all: unfold _mesa_LineWidth, _mesa_LineWidth_no_error, _mesa_PointSize, _mesa_PointSize_no_error,
         _mesa_CullFace, _mesa_CullFace_no_error, _mesa_FrontFace, _mesa_FrontFace_no_error, _mesa_PolygonMode,
         _mesa_PolygonMode_no_error, _mesa_PolygonOffset, _mesa_PolygonOffsetClampEXT, _mesa_Viewport,
         _mesa_ViewportIndexedf, _mesa_ViewportIndexedf_no_error, _mesa_ViewportIndexedfv,
         _mesa_ViewportIndexedfv_no_error, _mesa_DepthRangef, _mesa_DepthRangeArrayv, _mesa_DepthRangeIndexedfOES,
         _mesa_DepthRangeIndexed, _mesa_ClipControl, _mesa_ClipControl_no_error,
         _mesa_SampleMaski, _mesa_MinSampleShading, _mesa_Fogf, _mesa_Fogi, _mesa_Fogiv; try solve [setter].
  destruct params as [[? ?] ?]. cbn [_mesa_PointParameteriv]. apply PointParameterfv_ok.
Qed.

Lemma exec_raster_lawful c a b : exec_raster c a = Ret b -> failed_or_lawful a b.
Proof.
  intros H. assert (Ho : raster_orderly c \/ ~ raster_orderly c) by (destruct c; cbn; tauto).
  destruct Ho as [Ho|Ho]; [now apply step_ok_lawful, (exec_raster_step_ok c)|].
  destruct c; cbn in Ho; try tauto; cbn [exec_raster] in H; injection H as <-;
    first [apply SubpixelPrecisionBias_lawful | apply conservative_lawful
          | apply conservative_raster_parameter_lawful].
Qed.
