(* ===== verification/GlState.v ===== *)
(** * Commands on the state of a context

    The entry points of blend.c, depth.c, stencil.c and scissor.c and those of
    GlRaster as one command type, with the theorems that hold across all of
    them: a command that raises an error has no other effect, stored vertices
    are drawn under the state in force when they were stored (the setters of
    conservative rasterisation excluded, [orderly]), and the driver is told of
    changes (with the limits [reportable] and [untold]). *)

From Stdlib Require Import Bool ZArith List Lia SpecFloat.
From S2P Require Import Prelude GlContext GlSteps GlDepth GlStencil GlScissor GlBlend GlRaster.
Import ListNotations.
#[local] Open Scope bool_scope.
#[local] Open Scope Z_scope.
#[local] Open Scope c_scope.

Inductive gl_command :=
| BlendFunc_ (s d : Z)
| BlendFunc_no_error (s d : Z)
| BlendFuncSeparate_ (sRGB dRGB sA dA : Z)
| BlendFuncSeparate_no_error (sRGB dRGB sA dA : Z)
| BlendFunci (buf s d : Z)
| BlendFunci_no_error (buf s d : Z)
| BlendFuncSeparatei (buf sRGB dRGB sA dA : Z)
| BlendFuncSeparatei_no_error (buf sRGB dRGB sA dA : Z)
| BlendEquation_ (mode : Z)
| BlendEquationi (buf mode : Z)
| BlendEquationi_no_error (buf mode : Z)
| BlendEquationSeparate_ (modeRGB modeA : Z)
| BlendEquationSeparate_no_error (modeRGB modeA : Z)
| BlendEquationSeparatei (buf modeRGB modeA : Z)
| BlendEquationSeparatei_no_error (buf modeRGB modeA : Z)
| BlendColor_ (color : vec4)
| AlphaFunc_ (func : Z) (ref : GLfloat)
| LogicOp_ (opcode : Z)
| LogicOp_no_error (opcode : Z)
| IndexMask_ (mask : Z)
| ColorMask_ (red green blue alpha : Z)
| ColorMaski (buf red green blue alpha : Z)
| ClampColor (target clamp : Z)
| ClearDepth_ (depth : GLdouble)
| ClearDepthf (depth : GLfloat)
| DepthFunc_ (func : Z)
| DepthFunc_no_error (func : Z)
| DepthMask_ (flag : Z)
| DepthBoundsEXT (zmin zmax : GLdouble)
| ClearStencil (s : Z)
| StencilFuncSeparateATI (front back ref mask : Z)
| StencilFunc (func ref mask : Z)
| StencilFunc_no_error (func ref mask : Z)
| StencilMask (mask : Z)
| StencilOp (fail zfail zpass : Z)
| StencilOp_no_error (fail zfail zpass : Z)
| ActiveStencilFaceEXT (face : Z)
| StencilOpSeparate (face sfail zfail zpass : Z)
| StencilOpSeparate_no_error (face sfail zfail zpass : Z)
| StencilFuncSeparate (face func ref mask : Z)
| StencilFuncSeparate_no_error (face func ref mask : Z)
| StencilMaskSeparate (face mask : Z)
| StencilMaskSeparate_no_error (face mask : Z)
| Scissor_ (x y width height : Z)
| Scissor_no_error (x y width height : Z)
| ScissorArrayv (first count : Z) (v : list gl_scissor_rect)
| ScissorArrayv_no_error (first count : Z) (v : list gl_scissor_rect)
| ScissorIndexed (index left bottom width height : Z)
| ScissorIndexed_no_error (index left bottom width height : Z)
| ScissorIndexedv (index : Z) (v : list Z)
| ScissorIndexedv_no_error (index : Z) (v : list Z)
| WindowRectanglesEXT (mode count : Z) (box : list gl_scissor_rect)
| Raster (c : raster_command).

Definition exec (c : gl_command) (ctx : gl_context) : outcome gl_context :=
  match c with
  | BlendFunc_ s d => Ret (_mesa_BlendFunc s d ctx)
  | BlendFunc_no_error s d => Ret (_mesa_BlendFunc_no_error s d ctx)
  | BlendFuncSeparate_ a b c d => Ret (_mesa_BlendFuncSeparate a b c d ctx)
  | BlendFuncSeparate_no_error a b c d => Ret (_mesa_BlendFuncSeparate_no_error a b c d ctx)
  | BlendFunci buf s d => Ret (_mesa_BlendFunciARB buf s d ctx)
  | BlendFunci_no_error buf s d => Ret (_mesa_BlendFunciARB_no_error buf s d ctx)
  | BlendFuncSeparatei buf a b c d => Ret (_mesa_BlendFuncSeparateiARB buf a b c d ctx)
  | BlendFuncSeparatei_no_error buf a b c d => Ret (_mesa_BlendFuncSeparateiARB_no_error buf a b c d ctx)
  | BlendEquation_ mode => Ret (_mesa_BlendEquation mode ctx)
  | BlendEquationi buf mode => Ret (_mesa_BlendEquationiARB buf mode ctx)
  | BlendEquationi_no_error buf mode => Ret (_mesa_BlendEquationiARB_no_error buf mode ctx)
  | BlendEquationSeparate_ a b => Ret (_mesa_BlendEquationSeparate a b ctx)
  | BlendEquationSeparate_no_error a b => Ret (_mesa_BlendEquationSeparate_no_error a b ctx)
  | BlendEquationSeparatei buf a b => Ret (_mesa_BlendEquationSeparateiARB buf a b ctx)
  | BlendEquationSeparatei_no_error buf a b => Ret (_mesa_BlendEquationSeparateiARB_no_error buf a b ctx)
  | BlendColor_ v => Ret (_mesa_BlendColor v ctx)
  | AlphaFunc_ func ref => Ret (_mesa_AlphaFunc func ref ctx)
  | LogicOp_ op => Ret (_mesa_LogicOp op ctx)
  | LogicOp_no_error op => Ret (_mesa_LogicOp_no_error op ctx)
  | IndexMask_ m => Ret (_mesa_IndexMask m ctx)
  | ColorMask_ r g b a => Ret (_mesa_ColorMask r g b a ctx)
  | ColorMaski buf r g b a => Ret (_mesa_ColorMaski buf r g b a ctx)
  | ClampColor t c => _mesa_ClampColor t c ctx
  | ClearDepth_ d => Ret (_mesa_ClearDepth d ctx)
  | ClearDepthf d => Ret (_mesa_ClearDepthf d ctx)
  | DepthFunc_ f => Ret (_mesa_DepthFunc f ctx)
  | DepthFunc_no_error f => Ret (_mesa_DepthFunc_no_error f ctx)
  | DepthMask_ b => Ret (_mesa_DepthMask b ctx)
  | DepthBoundsEXT a b => Ret (_mesa_DepthBoundsEXT a b ctx)
  | ClearStencil s => Ret (_mesa_ClearStencil s ctx)
  | StencilFuncSeparateATI f b r m => Ret (_mesa_StencilFuncSeparateATI f b r m ctx)
  | StencilFunc f r m => Ret (_mesa_StencilFunc f r m ctx)
  | StencilFunc_no_error f r m => Ret (_mesa_StencilFunc_no_error f r m ctx)
  | StencilMask m => Ret (_mesa_StencilMask m ctx)
  | StencilOp a b c => Ret (_mesa_StencilOp a b c ctx)
  | StencilOp_no_error a b c => Ret (_mesa_StencilOp_no_error a b c ctx)
  | ActiveStencilFaceEXT f => Ret (_mesa_ActiveStencilFaceEXT f ctx)
  | StencilOpSeparate f a b c => Ret (_mesa_StencilOpSeparate f a b c ctx)
  | StencilOpSeparate_no_error f a b c => Ret (_mesa_StencilOpSeparate_no_error f a b c ctx)
  | StencilFuncSeparate f a b c => Ret (_mesa_StencilFuncSeparate f a b c ctx)
  | StencilFuncSeparate_no_error f a b c => Ret (_mesa_StencilFuncSeparate_no_error f a b c ctx)
  | StencilMaskSeparate f m => Ret (_mesa_StencilMaskSeparate f m ctx)
  | StencilMaskSeparate_no_error f m => Ret (_mesa_StencilMaskSeparate_no_error f m ctx)
  | Scissor_ x y w h => Ret (_mesa_Scissor x y w h ctx)
  | Scissor_no_error x y w h => Ret (_mesa_Scissor_no_error x y w h ctx)
  | ScissorArrayv f c v => Ret (_mesa_ScissorArrayv f c v ctx)
  | ScissorArrayv_no_error f c v => Ret (_mesa_ScissorArrayv_no_error f c v ctx)
  | ScissorIndexed i l b w h => Ret (_mesa_ScissorIndexed i l b w h ctx)
  | ScissorIndexed_no_error i l b w h => Ret (_mesa_ScissorIndexed_no_error i l b w h ctx)
  | ScissorIndexedv i v => Ret (_mesa_ScissorIndexedv i v ctx)
  | ScissorIndexedv_no_error i v => Ret (_mesa_ScissorIndexedv_no_error i v ctx)
  | WindowRectanglesEXT m c b => Ret (_mesa_WindowRectanglesEXT m c b ctx)
  | Raster c => exec_raster c ctx
  end.

(** A run of commands; a failed assertion ends it. *)
Fixpoint exec_all (cs : list gl_command) (ctx : gl_context) : outcome gl_context :=
  match cs with
  | [] => Ret ctx
  | c :: cs => let! ctx := exec c ctx in exec_all cs ctx
  end.

(** ** Every command is a good step or an error *)

Lemma depth_func_ok func ne a : step_ok a (depth_func func ne a).
Proof. unfold depth_func. setter. flush G_Depth. repeat assign. Qed.

Lemma DepthMask_ok flag a : step_ok a (_mesa_DepthMask flag a).
Proof. unfold _mesa_DepthMask. setter. flush G_Depth. repeat assign. Qed.

Lemma DepthBounds_ok zmin zmax a : step_ok a (_mesa_DepthBoundsEXT zmin zmax a).
Proof. unfold _mesa_DepthBoundsEXT. setter. flush G_Depth. repeat assign. Qed.

Lemma ClearDepth_ok d a : step_ok a (_mesa_ClearDepth d a).
Proof. right. now apply good_attr. Qed.

Lemma ClearStencil_ok s a : step_ok a (_mesa_ClearStencil s a).
Proof. right. now apply good_attr. Qed.

Lemma stencil_func_ok f r m a : step_ok a (stencil_func f r m a).
Proof.
  unfold stencil_func, call_driver_two_side. setter; flush G_Stencil; repeat assign.
Qed.

Lemma StencilMask_ok m a : step_ok a (_mesa_StencilMask m a).
Proof.
  unfold _mesa_StencilMask, call_driver_two_side. setter; flush G_Stencil; repeat assign.
Qed.

Lemma stencil_op_ok f zf zp a : step_ok a (stencil_op f zf zp a).
Proof.
  unfold stencil_op, call_driver_two_side. setter; flush G_Stencil; repeat assign.
Qed.

Lemma StencilFuncSeparateATI_ok f b r m a : step_ok a (_mesa_StencilFuncSeparateATI f b r m a).
Proof. unfold _mesa_StencilFuncSeparateATI. setter. flush G_Stencil. repeat assign. Qed.

Lemma ActiveStencilFace_ok f a : step_ok a (_mesa_ActiveStencilFaceEXT f a).
Proof. unfold _mesa_ActiveStencilFaceEXT. setter. right. now apply good_attr. Qed.

Lemma set_op_face_good i sf zf zp a : good a (snd (set_op_face i sf zf zp a)).
Proof.
  unfold set_op_face. destruct (same_op _ _ _ _ _); [apply good_refl|]. cbn [snd].
  flush G_Stencil. repeat assign.
Qed.

Lemma stencil_op_separate_ok f sf zf zp a : step_ok a (stencil_op_separate f sf zf zp a).
Proof.
  right. unfold stencil_op_separate.
  destruct (if negb (f =? GL_BACK) then _ else _) as [s0 c0] eqn:E0.
  destruct (if negb (f =? GL_FRONT) then _ else _) as [s1 c1] eqn:E1.
  assert (H0 : good a c0).
  { replace c0 with (snd (s0, c0)) by reflexivity. rewrite <- E0.
    clear. destruct (negb _); [apply set_op_face_good | apply good_refl]. }
  assert (H1 : good c0 c1).
  { replace c1 with (snd (s1, c1)) by reflexivity. rewrite <- E1.
    clear. destruct (negb _); [apply set_op_face_good | apply good_refl]. }
  pose proof (good_trans _ _ _ H0 H1) as H.
  destruct (s0 || s1); [eapply good_trans; [exact H | apply good_driver] | exact H].
Qed.

Lemma stencil_func_separate_ok f fn r m a : step_ok a (stencil_func_separate f fn r m a).
Proof. unfold stencil_func_separate. cbv zeta. flush G_Stencil. repeat destruct (negb _); repeat assign. Qed.

Lemma stencil_mask_separate_ok f m a : step_ok a (stencil_mask_separate f m a).
Proof. unfold stencil_mask_separate. cbv zeta. flush G_Stencil. repeat destruct (negb _); repeat assign. Qed.

#[export] Hint Resolve depth_func_ok DepthMask_ok DepthBounds_ok ClearDepth_ok ClearStencil_ok
  stencil_func_ok StencilMask_ok stencil_op_ok StencilFuncSeparateATI_ok ActiveStencilFace_ok
  stencil_op_separate_ok stencil_func_separate_ok stencil_mask_separate_ok : gl.

(** Scissor and window rectangles. *)
Lemma set_scissor_no_notify_good i r a : good a (set_scissor_no_notify i r a).
Proof.
  unfold set_scissor_no_notify. apply good_at_index. intros c.
  destruct (rect_eqb _ _); [apply good_refl|]. cbv zeta. flush G_ScissorRect. repeat assign.
Qed.

Lemma scissor_ok r a : step_ok a (scissor r a).
Proof.
  right. eapply good_trans; [|apply good_driver]. apply good_for. intros.
  apply set_scissor_no_notify_good.
Qed.

Lemma set_scissor_ok i r a : step_ok a (_mesa_set_scissor i r a).
Proof. right. eapply good_trans; [apply set_scissor_no_notify_good | apply good_driver]. Qed.

Lemma scissor_array_ok f c v a : step_ok a (scissor_array f c v a).
Proof.
  right. eapply good_trans; [|apply good_driver]. apply good_for. intros.
  apply set_scissor_no_notify_good.
Qed.

#[export] Hint Resolve scissor_ok set_scissor_ok scissor_array_ok : gl.

Lemma scissor_indexed_ok i r a : step_ok a (scissor_indexed_err i r a).
Proof. unfold scissor_indexed_err. setter. Qed.

(** The window rectangles have no bit of their own in [NewState]. *)
Lemma flush_windows_flushed a :
  flushed G_WindowRects a (let b := FLUSH_VERTICES 0 a in
                           b <| NewDriverState := Z.lor (NewDriverState b) (NewWindowRectangles (env a)) |>).
Proof.
  apply flush_flushed. intros g' [->|[[=] _]]. unfold marks. cbn. intros Hflag.
  destruct (Z.eqb_spec (NewWindowRectangles (env a)) 0); [contradiction | apply has_bits_refl].
Qed.

Lemma WindowRectangles_ok m c b a : step_ok a (_mesa_WindowRectanglesEXT m c b a).
Proof.
  unfold _mesa_WindowRectanglesEXT. setter. right.
  rewrite FLUSH_env. pose proof (flush_windows_flushed a) as H. cbv zeta in H. flushed_by H. repeat assign.
Qed.

(** Blend state. *)
Lemma upd_blend_confined i f a : confined G_Blend a (upd_blend i f a).
Proof. unfold upd_blend. repeat assign. Qed.

#[export] Hint Resolve scissor_indexed_ok upd_blend_confined : gl.

Lemma blend_func_separate_ok s d sa da a : good a (blend_func_separate s d sa da a).
Proof.
  unfold blend_func_separate, update_uses_dual_src. cbv zeta. flush G_Blend.
  do 3 assign; [eapply confined_trans; [|apply upd_blend_confined]; assign; [assign|] |];
    apply upd_blend_confined.
Qed.

Lemma validate_blend_factors_cases s d sa da a :
  (let '(ok, b) := validate_blend_factors s d sa da a in
   (ok = true /\ b = a) \/ (ok = false /\ exists e, b = _mesa_error e a)).
Proof. unfold validate_blend_factors. repeat destruct (_ && _) || destruct (negb _); eauto. Qed.

Lemma validated_step s d sa da a (k : gl_context -> gl_context) :
  (forall b, step_ok b (k b)) ->
  step_ok a (let '(ok, c) := validate_blend_factors s d sa da a in if negb ok then c else k c).
Proof.
  intros Hk. pose proof (validate_blend_factors_cases s d sa da a) as H.
  destruct (validate_blend_factors _ _ _ _ _) as [ok c].
  destruct H as [[-> ->]|[-> [e ->]]]; [apply Hk | apply step_ok_error].
Qed.

Lemma blend_func_step s d sa da a : step_ok a (blend_func_separate s d sa da a).
Proof. right. apply blend_func_separate_ok. Qed.

#[export] Hint Resolve blend_func_step : gl.

Lemma BlendFuncSeparate_ok s d sa da a : step_ok a (_mesa_BlendFuncSeparate s d sa da a).
Proof. unfold _mesa_BlendFuncSeparate. setter. apply validated_step. auto with gl. Qed.

Lemma BlendFuncSeparate_ne_ok s d sa da a : step_ok a (_mesa_BlendFuncSeparate_no_error s d sa da a).
Proof. unfold _mesa_BlendFuncSeparate_no_error. setter. Qed.

Lemma blend_func_separatei_ok buf s d sa da ne a : step_ok a (blend_func_separatei buf s d sa da ne a).
Proof.
  unfold blend_func_separatei. setter. apply step_ok_at_index. clear a. intros a.
  destruct (same_factors _ _ _ _ _); [apply step_ok_refl|].
  destruct ne; [cbn [negb] | apply validated_step; clear a; intros a];
    unfold update_uses_dual_src; cbv zeta; flush G_Blend; assign;
    repeat (eapply confined_trans; [|apply upd_blend_confined]); apply confined_refl.
Qed.

Lemma flush_blend_state_flushed a : flushed G_Blend a (_mesa_flush_vertices_for_blend_state a).
Proof.
  unfold _mesa_flush_vertices_for_blend_state. destruct (Z.eqb_spec (NewBlend (env a)) 0) as [E|E].
  - pose proof (flush_flushed_one G_Blend _NEW_COLOR 0 a) as H. cbv zeta in H. unfold marks in H.
    cbn [flag_of bit_of] in H. rewrite E in H. specialize (H ltac:(discriminate) (has_bits_refl _)).
    rewrite Z.lor_0_r in H. revert H. generalize (FLUSH_VERTICES _NEW_COLOR a). now intros [] H.
  - cbv zeta. rewrite FLUSH_env. apply (flush_flushed_one G_Blend); [discriminate|]. unfold marks. cbn.
    destruct (Z.eqb_spec (NewBlend (env a)) 0); [contradiction | apply has_bits_refl].
Qed.

(** The constant that the shaders see does not change. *)
Definition adv_unchanged (m : Z) (a : gl_context) : Prop :=
  _mesa_get_advanced_blend_sh_constant (BlendEnabled (Color (Attr a))) m = sh_constant (Attr a).

(** The flush marks the constant, unless it does not change. *)
Lemma flush_blend_adv_flushed m a :
  let b := _mesa_flush_vertices_for_blend_adv (BlendEnabled (Color (Attr a))) m a in
  flushed G_AdvancedBlend a b \/ (adv_unchanged m a /\ flushed G_Blend a b).
Proof.
  cbv zeta. unfold _mesa_flush_vertices_for_blend_adv. destruct (_mesa_has_KHR_blend_equation_advanced (env a)) eqn:Ex; cbn [andb].
  - destruct (_mesa_advanded_blend_sh_constant_changed _ m a) eqn:Ec.
    + left. rewrite FLUSH_env. apply flush_flushed. unfold marks.
      intros g' [->|[_ ->]] _; cbn; [|destruct (_ =? 0)]; apply has_bits_refl.
    + right. split; [|apply flush_blend_state_flushed]. apply negb_false_iff in Ec. now apply Z.eqb_eq in Ec.
  - left. destruct (flush_blend_state_flushed a) as [H1 H2 H3 H4 H5 H6 H7]. constructor; try assumption.
    intros g' [->|[_ ->]] Hr; [cbn in Hr; congruence|]. apply H5; [now left | exact I].
Qed.

Lemma flush_adv_some m a : exists g, flushed g a (_mesa_flush_vertices_for_blend_adv (BlendEnabled (Color (Attr a))) m a).
Proof. destruct (flush_blend_adv_flushed m a) as [H|[_ H]]; eauto. Qed.

(** Changes of the blend state and of the advanced blend mode. *)
Lemma upd_blend_adv i f a : confined G_AdvancedBlend a (upd_blend i f a).
Proof. unfold upd_blend. repeat assign. Qed.

Lemma confined_shrink a b :
  confined G_AdvancedBlend a b -> sh_constant (Attr b) = sh_constant (Attr a) -> confined G_Blend a b.
Proof.
  intros [] E. constructor; try assumption. intros g' Hg. destruct (within_dec G_AdvancedBlend g') as [[->|[_ ->]]|Hw]; [|exfalso; apply Hg; now left|auto].
  cbn. symmetry. exact E.
Qed.

(** The flush for a new mode [m], and changes after it. *)
Lemma good_flush_adv m a c :
  let b := _mesa_flush_vertices_for_blend_adv (BlendEnabled (Color (Attr a))) m a in
  confined G_AdvancedBlend b c ->
  (sh_constant (Attr c) = sh_constant (Attr a) \/
   sh_constant (Attr c) = _mesa_get_advanced_blend_sh_constant (BlendEnabled (Color (Attr a))) m) ->
  good a c.
Proof.
  intros b Hc Hsh. destruct (flush_blend_adv_flushed m a) as [Hf|[Hu Hf]]; [now apply (good_flush _ _ _ _ Hf)|].
  apply (good_flush _ _ _ _ Hf), confined_shrink; [exact Hc|]. rewrite (fl_attr _ _ _ Hf). unfold adv_unchanged in Hu.
  destruct Hsh; congruence.
Qed.

Lemma for_range_enabled from to f a :
  BlendEnabled (Color (Attr (for_range from to (fun i => upd_blend i f) a))) = BlendEnabled (Color (Attr a)).
Proof.
  unfold for_range. generalize (seq 0 (Z.to_nat (to - from))). intros l. revert a.
  induction l as [|i l IH]; intros a; simpl; [reflexivity|]. now rewrite IH.
Qed.

Lemma flush_adv_attr en m a : Attr (_mesa_flush_vertices_for_blend_adv en m a) = Attr a.
Proof.
  unfold _mesa_flush_vertices_for_blend_adv, _mesa_flush_vertices_for_blend_state, FLUSH_VERTICES.
  repeat match goal with |- context [if ?x then _ else _] => destruct x end; reflexivity.
Qed.

Lemma call_driver_same_attr has d a : Attr (call_driver has d a) = Attr a.
Proof. unfold call_driver. now destruct (has _). Qed.

Lemma BlendEquation_ok m a : step_ok a (_mesa_BlendEquation m a).
Proof.
  unfold _mesa_BlendEquation. setter. right. apply (good_flush_adv (advanced_blend_mode (env a) m)).
  - do 3 assign; [assign | apply upd_blend_adv].
  - right. rewrite call_driver_same_attr. unfold sh_constant. cbn [upd_Color Attr Color update BlendEnabled _AdvancedBlendMode].
    now rewrite for_range_enabled, flush_adv_attr.
Qed.

Lemma blend_equationi_ok buf m adv a : step_ok a (blend_equationi buf m adv a).
Proof.
  unfold blend_equationi. apply step_ok_at_index. clear a. intros a. setter; right; apply (good_flush_adv adv).
  - do 2 assign; apply upd_blend_adv.
  - right. unfold sh_constant. cbn [upd_blend upd_Color Attr Color update BlendEnabled _AdvancedBlendMode]. now rewrite flush_adv_attr.
  - assign. apply upd_blend_adv.
  - left. unfold sh_constant. cbn [upd_blend upd_Color Attr Color update BlendEnabled _AdvancedBlendMode]. now rewrite flush_adv_attr.
Qed.

(** The commands that reset the advanced blend mode without marking it. *)
Definition advanced : group -> Prop := fun g => g = G_AdvancedBlend.

Lemma good_flush_reset a c : confined G_AdvancedBlend (_mesa_flush_vertices_for_blend_state a) c -> good_but advanced a c.
Proof.
  intros Hc. pose proof (flush_blend_state_flushed a) as Hf. apply (good_flush_but _ _ _ _ _ _ Hf Hc).
  intros h Hx [->|[_ ->]] Hr; [exfalso; now apply Hx|]. now apply (fl_dirty _ _ _ Hf); [left|].
Qed.

Lemma blend_equation_separate_ok x y ne a : step_ok_but advanced a (blend_equation_separate x y ne a).
Proof.
  unfold blend_equation_separate. setter. right. apply good_flush_reset.
  do 3 assign; [assign | apply upd_blend_adv].
Qed.

Lemma blend_equation_separatei_ok buf x y ne a : step_ok_but advanced a (blend_equation_separatei buf x y ne a).
Proof.
  unfold blend_equation_separatei. apply step_ok_at_index. clear a. intros a. setter.
  right. apply good_flush_reset. assign. apply upd_blend_adv.
Qed.

Lemma BlendColor_ok v a : step_ok a (_mesa_BlendColor v a).
Proof. unfold _mesa_BlendColor. setter. flush G_BlendColor. repeat assign. Qed.

Lemma AlphaFunc_ok f r a : step_ok a (_mesa_AlphaFunc f r a).
Proof. unfold _mesa_AlphaFunc. setter. flush G_AlphaTest. repeat assign. Qed.

Lemma logic_op_ok op ne a : step_ok a (logic_op op ne a).
Proof. unfold logic_op. setter. flush G_LogicOp. repeat assign. Qed.

Lemma IndexMask_ok m a : step_ok a (_mesa_IndexMask m a).
Proof. unfold _mesa_IndexMask. setter. flush G_ColorMask. repeat assign. Qed.

Lemma ColorMask_ok r g b al a : step_ok a (_mesa_ColorMask r g b al a).
Proof. unfold _mesa_ColorMask. setter. flush G_ColorMask. repeat assign. Qed.

Lemma ColorMaski_ok buf r g b al a : step_ok a (_mesa_ColorMaski buf r g b al a).
Proof. unfold _mesa_ColorMaski. setter. flush G_ColorMask. repeat assign. Qed.

Lemma ClampColor_ok t c a b : _mesa_ClampColor t c a = Ret b -> step_ok a b.
Proof.
  unfold _mesa_ClampColor, _mesa_update_clamp_vertex_color, _mesa_update_clamp_fragment_color. cbv zeta.
  pose proof (flush_only_flushed G_Light a ltac:(discriminate) (fun _ => eq_refl)) as HL.
  pose proof (flush_only_flushed G_FragClamp a ltac:(discriminate) (fun _ => eq_refl)) as HF.
  cbn [bit_of] in HL, HF. revert HL HF.
  generalize (FLUSH_VERTICES _NEW_LIGHT a), (FLUSH_VERTICES _NEW_FRAG_CLAMP a). intros l f HL HF.
  repeat match goal with
  | |- (if ?x then _ else _) = _ -> _ => destruct x
  end; intros H; try (apply obind_Ret in H; destruct H as (v & _ & H)); injection H as <-; auto with gl.
  - right. apply (good_flush _ _ _ _ HL). repeat assign.
  - right. apply (good_flush _ _ _ _ HF). repeat assign.
  - right. apply (good_flush _ _ _ _ HF). repeat assign.
  - right. now apply good_attr.
Qed.

#[export] Hint Resolve BlendFuncSeparate_ok BlendFuncSeparate_ne_ok blend_func_separatei_ok
  BlendEquation_ok blend_equationi_ok blend_equation_separate_ok blend_equation_separatei_ok
  BlendColor_ok AlphaFunc_ok logic_op_ok IndexMask_ok ColorMask_ok ColorMaski_ok : gl.

(** The command changes the group without telling the driver: the commands
    that set separate equations turn the advanced blend mode off without
    [_NEW_COLOR]. *)
Definition untold (c : gl_command) (g : group) : Prop :=
  match c with
  | BlendEquationSeparate_ _ _ | BlendEquationSeparate_no_error _ _
  | BlendEquationSeparatei _ _ _ | BlendEquationSeparatei_no_error _ _ _ => advanced g
  | _ => False
  end.

(** The command flushes before it changes anything: all but the setters of
    conservative rasterisation. *)
Definition orderly (c : gl_command) : Prop :=
  match c with
  | Raster c => raster_orderly c
  | _ => True
  end.

Lemma exec_step_ok c a b : orderly c -> exec c a = Ret b -> step_ok_but (untold c) a b.
Proof.
  intros Ho. destruct c; cbn [exec untold orderly] in *; try (intros H; injection H as <-).
  all: try (first [apply blend_equation_separate_ok | apply blend_equation_separatei_ok]).
  all: try (unfold _mesa_BlendEquationSeparateiARB; setter; apply blend_equation_separatei_ok).
  all: try (intros H; apply step_ok_weaken; now apply exec_raster_step_ok in H).
  all: try (intros H; apply step_ok_weaken; now apply ClampColor_ok in H).
  all: apply step_ok_weaken.
  all: try solve [auto with gl nocore].
  all: try apply WindowRectangles_ok.
  all: try apply (BlendFuncSeparate_ok s d s d).
  all: try apply (BlendFuncSeparate_ne_ok s d s d).
  all: unfold _mesa_BlendFunciARB, _mesa_BlendFunciARB_no_error, _mesa_BlendFuncSeparateiARB,
         _mesa_BlendFuncSeparateiARB_no_error, _mesa_BlendEquationiARB, _mesa_BlendEquationiARB_no_error,
         _mesa_LogicOp, _mesa_LogicOp_no_error, _mesa_ClearDepthf, _mesa_DepthFunc,
         _mesa_DepthFunc_no_error, _mesa_StencilFunc, _mesa_StencilOp, _mesa_StencilOpSeparate,
         _mesa_StencilFuncSeparate, _mesa_StencilMaskSeparate, _mesa_Scissor, _mesa_Scissor_no_error,
         _mesa_ScissorArrayv, _mesa_ScissorIndexed, _mesa_ScissorIndexed_no_error,
         _mesa_ScissorIndexedv, _mesa_ScissorIndexedv_no_error; setter.
Qed.

(** ** Errors *)

Lemma error_fields e a :
  env (_mesa_error e a) = env a /\ Attr (_mesa_error e a) = Attr a /\
  NeedFlush (_mesa_error e a) = NeedFlush a /\ NewState (_mesa_error e a) = NewState a /\
  NewDriverState (_mesa_error e a) = NewDriverState a /\ Validated (_mesa_error e a) = Validated a /\
  Trace (_mesa_error e a) = Trace a ++ [EvError e].
Proof. unfold _mesa_error. cbn. destruct (_ =? _); cbn; tauto. Qed.

Lemma lawful_weaken X a b : failed_or_lawful a b -> failed_or_lawful_but X a b.
Proof. intros [H|[]]; [now left | right; constructor; auto]. Qed.

Lemma exec_lawful c a b : exec c a = Ret b -> failed_or_lawful_but (untold c) a b.
Proof.
  intros H. destruct c; try (apply step_ok_lawful, exec_step_ok; [exact I | exact H]).
  apply lawful_weaken. exact (exec_raster_lawful _ a b H).
Qed.

(** C35: a command that raises a GL error has no other effect: the context
    after it is the context before it with the error recorded (the sticky
    error value and the report).  A command that raises none leaves the error
    value alone and reports nothing. *)
Theorem erroneous_command_has_no_effect c a b :
  exec c a = Ret b ->
  (exists e, b = _mesa_error e a) \/
  (ErrorValue b = ErrorValue a /\ exists t, Trace b = Trace a ++ t /\ Forall not_error t).
Proof.
  intros H. destruct (exec_lawful c a b H) as [He|[_ Hr Ht _]]; auto.
Qed.

(** ** Runs of commands *)

(** What a run of commands guarantees: stored vertices are either still
    stored, with the rendering state unchanged, or were drawn under the state
    in force at the start. *)
Definition run_ok (a b : gl_context) : Prop :=
  exists t, Trace b = Trace a ++ t /\
    (vertices_stored a ->
       In (EvDraw (rendering (Attr a))) t \/
       (rendering (Attr b) = rendering (Attr a) /\ vertices_stored b)).

Lemma run_ok_refl a : run_ok a a.
Proof. exists []. rewrite app_nil_r. auto. Qed.

Lemma run_ok_step X a b : step_ok_but X a b -> run_ok a b.
Proof.
  intros [[e ->]|[_ _ _ (t & Gt & _ & Gf) _]]; [|exists t; auto].
  destruct (error_fields e a) as (He & Ha & Hn & Hs & Hd & Hv & Ht).
  exists [EvError e]. split; [assumption|]. intros H. right. unfold vertices_stored. rewrite Hn, Ha. auto.
Qed.

Lemma run_ok_trans a b c : run_ok a b -> run_ok b c -> run_ok a c.
Proof.
  intros (t1 & T1 & F1) (t2 & T2 & F2).
  exists (t1 ++ t2). split; [rewrite T2, T1, app_assoc; reflexivity|]. intros Hv.
  destruct (F1 Hv) as [Hin|[Hr Hv']]; [left; apply in_or_app; auto|].
  destruct (F2 Hv') as [Hin|[Hr' Hv'']].
  - left. rewrite <- Hr. apply in_or_app; auto.
  - right. split; [congruence | assumption].
Qed.

Lemma exec_all_run_ok cs : forall a b, Forall orderly cs -> exec_all cs a = Ret b -> run_ok a b.
Proof.
  induction cs as [|c cs IH]; cbn [exec_all]; intros a b Ho H.
  - injection H as <-. apply run_ok_refl.
  - apply obind_Ret in H. destruct H as (m & Hm & H). inversion_clear Ho.
    apply (run_ok_trans a m b); [|now apply IH]. apply (run_ok_step (untold c)). now apply (exec_step_ok c).
Qed.

(** C14: whatever commands follow, vertices that are stored in the context
    when they start are drawn under the rendering state in force at that
    moment, or are still stored and the rendering state has not changed.  No
    setter lets a later state apply to earlier vertices, apart from those of
    conservative rasterisation, which [orderly] excludes. *)
Theorem stored_vertices_keep_their_state cs a b :
  Forall orderly cs -> vertices_stored a -> exec_all cs a = Ret b ->
  exists t, Trace b = Trace a ++ t /\
    (In (EvDraw (rendering (Attr a))) t \/
     (rendering (Attr b) = rendering (Attr a) /\ vertices_stored b)).
Proof.
  intros Ho Hv H. destruct (exec_all_run_ok cs a b Ho H) as (t & Ht & Hf). eauto.
Qed.

Lemma error_synced e a g : synced g a -> synced g (_mesa_error e a).
Proof.
  destruct (error_fields e a) as (He & Ha & Hn & Hs & Hd & Hv & Ht). unfold synced, dirty. now rewrite He, Ha, Hs, Hd, Hv.
Qed.

(** C34: the driver is told of changes.  For each group of state: if the
    driver was up to date or the group marked dirty, then after any commands
    the group is as the driver was last asked to draw with it, or is marked
    dirty, in [NewDriverState] when the driver has a flag for the group and in
    [NewState] when it has none; for the constant that shaders see of the
    advanced blend mode, in [NewState].  Two limits are part of the
    statement.  [reportable], in [synced]: window rectangles and the
    parameters of conservative rasterisation have no bit in [NewState], and a
    driver without a flag for them is told nothing.  [untold]: the commands
    that set separate blend equations turn the advanced blend mode off without
    marking its constant, so that the claim for this one group is about runs
    without them. *)
Theorem driver_is_told_of_changes g cs a b :
  (forall c, In c cs -> ~ untold c g) -> synced g a -> exec_all cs a = Ret b -> synced g b.
Proof.
  revert a. induction cs as [|c cs IH]; cbn [exec_all]; intros a Hu Hs H; [now injection H as <-|].
  apply obind_Ret in H. destruct H as (m & Hm & H).
  apply (IH m); [intros c' Hc; apply Hu; now right | | exact H].
  destruct (exec_lawful c a m Hm) as [[e ->]|[_ _ _ Hsync]]; [now apply error_synced|].
  apply Hsync; [apply Hu; now left | exact Hs].
Qed.
