(* ===== verification/GlLegal.v ===== *)
(** * Legality of the state of a context

    The invariant the entry points maintain: every enumerant stored in the
    context is one its setter accepts, derived members ([_UsesDualSrc],
    [_LogicOp], the clamped references) agree with what they are derived
    from, [_AdvancedBlendMode] is a mode the context supports (it need not be
    that of the equation in force), and the "not per buffer" flags are only set while all active
    buffers agree.  Checked commands preserve it and stay within the arrays of
    the context. *)

From Stdlib Require Import Bool ZArith List Lia SpecFloat.
From S2P Require Import Prelude GlContext GlSteps GlDepth GlFloat GlStencil GlScissor GlBlend.
From S2P Require Import GlPrimitive GlViewport GlFog GlState.
Import ListNotations.
#[local] Open Scope bool_scope.
#[local] Open Scope Z_scope.
#[local] Open Scope c_scope.

(** What a driver must provide. *)
Definition env_wf (e : gl_env) : Prop :=
  1 <= MaxDrawBuffers e <= Z.of_nat MAX_DRAW_BUFFERS /\
  1 <= MaxViewports e <= Z.of_nat MAX_VIEWPORTS /\
  0 <= MaxWindowRectangles e <= Z.of_nat MAX_WINDOW_RECTANGLES /\
  (0 <= MaxViewportWidth e /\ 0 <= MaxViewportHeight e /\ 0 <= MaxSubpixelPrecisionBiasBits e) /\
  (SFltb (MaxPointSize e) f32_0 = false /\ SFltb (MaxPointSizeAA e) f32_0 = false) /\
  negb (ARB_point_sprite e || NV_point_sprite e) || EXT_point_parameters e = true.

Definition legal_factors (e : gl_env) (s d sa da : Z) : bool :=
  legal_src_factor e s && legal_dst_factor e d && legal_src_factor e sa && legal_dst_factor e da.

Definition legal_equation (e : gl_env) (mode : Z) : bool :=
  legal_simple_blend_equation e mode || negb (advanced_blend_mode e mode =? BLEND_NONE).

Record legal_blend (e : gl_env) (b : blend_attrib) : Prop := {
  lb_factors : legal_factors e (SrcRGB b) (DstRGB b) (SrcA b) (DstA b) = true;
  lb_equations : legal_equation e (EquationRGB b) = true /\ legal_equation e (EquationA b) = true;
  lb_dual : _UsesDualSrc b = uses_dual_src b
}.

Definition factors_of (b : blend_attrib) : Z * Z * Z * Z := (SrcRGB b, DstRGB b, SrcA b, DstA b).
Definition equations_of (b : blend_attrib) : Z * Z := (EquationRGB b, EquationA b).

(** The active buffers agree with the first one. *)
Definition uniform {A} (f : blend_attrib -> A) (n : Z) (l : list blend_attrib) : Prop :=
  Forall (fun b => f b = f (nth 0 l blend0)) (firstn (Z.to_nat n) l).

Definition legal_clamp (c : Z) : bool := one_of c [GL_TRUE; GL_FALSE; GL_FIXED_ONLY_ARB].

Record legal_color (e : gl_env) (c : gl_colorbuffer_attrib) : Prop := {
  lc_length : length (Blend c) = MAX_DRAW_BUFFERS;
  lc_blend : Forall (legal_blend e) (Blend c);
  lc_funcs : _BlendFuncPerBuffer c = false -> uniform factors_of (num_buffers e) (Blend c);
  lc_equations : _BlendEquationPerBuffer c = false -> uniform equations_of (num_buffers e) (Blend c);
  lc_logic : legal_logic_op (LogicOp c) = true /\
             _LogicOp c = nth_Z 0 color_logicop_mapping (Z.land (LogicOp c) 0x0f);
  lc_alpha : validate_stencil_func (AlphaFunc c) = true /\ AlphaRef c = clampf (AlphaRefUnclamped c);
  lc_color : BlendColor c = vec4_map clampf (BlendColorUnclamped c);
  lc_clamp : legal_clamp (ClampFragmentColor c) = true /\ legal_clamp (ClampReadColor c) = true;
  lc_advanced : exists mode, _AdvancedBlendMode c = advanced_blend_mode e mode
}.

Definition legal_depth (d : gl_depthbuffer_attrib) : Prop := legal_depth_func (Func d) = true.

Record legal_stencil (s : gl_stencil_attrib) : Prop := {
  ls_face : ActiveFace s = 0 \/ ActiveFace s = 2;
  ls_lengths : length (Function_ s) = 3%nat /\ length (FailFunc s) = 3%nat /\
    length (ZPassFunc s) = 3%nat /\ length (ZFailFunc s) = 3%nat /\ length (Ref s) = 3%nat /\
    length (ValueMask s) = 3%nat /\ length (WriteMask s) = 3%nat;
  ls_func : Forall (fun f => validate_stencil_func f = true) (Function_ s);
  ls_fail : Forall (fun f => validate_stencil_op f = true) (FailFunc s);
  ls_zpass : Forall (fun f => validate_stencil_op f = true) (ZPassFunc s);
  ls_zfail : Forall (fun f => validate_stencil_op f = true) (ZFailFunc s)
}.

Definition nonneg_rect (r : gl_scissor_rect) : Prop := 0 <= Width r /\ 0 <= Height r.

Record legal_scissor (e : gl_env) (s : gl_scissor_attrib) : Prop := {
  lsc_length : length (ScissorArray s) = MAX_VIEWPORTS;
  lsc_rects : Forall nonneg_rect (ScissorArray s);
  lsc_windows : length (WindowRects s) = MAX_WINDOW_RECTANGLES;
  lsc_count : 0 <= NumWindowRects s <= MaxWindowRectangles e;
  lsc_used : Forall nonneg_rect (firstn (Z.to_nat (NumWindowRects s)) (WindowRects s));
  lsc_mode : one_of (WindowRectMode s) [GL_INCLUSIVE_EXT; GL_EXCLUSIVE_EXT] = true
}.

(** A forward-compatible core context, in which wide lines are an error. *)
Definition forward_core (e : gl_env) : bool :=
  gl_api_eqb (API e) API_OPENGL_CORE &&
  negb (Z.land (ContextFlags e) GL_CONTEXT_FLAG_FORWARD_COMPATIBLE_BIT =? 0).

(** The setters refuse some values but let NaN pass, so that a width or a size
    is only known not to be at most 0. *)
Record legal_line (e : gl_env) (l : gl_line_attrib) : Prop := {
  ll_width : SFleb (Line_Width l) f32_0 = false;
  ll_wide : forward_core e = true -> SFltb f32_1 (Line_Width l) = false;
  ll_factor : 1 <= StippleFactor l <= 256
}.

Record legal_point (p : gl_point_attrib) : Prop := {
  lp_size : SFleb (Point_Size p) f32_0 = false;
  lp_limits : SFltb (MinSize p) f32_0 = false /\ SFltb (MaxSize p) f32_0 = false /\ SFltb (Threshold p) f32_0 = false;
  lp_attenuated : _Attenuated p = attenuated (Params p);
  lp_rmode : one_of (SpriteRMode p) [GL_ZERO; GL_S; GL_R] = true;
  lp_origin : one_of (SpriteOrigin p) [GL_LOWER_LEFT; GL_UPPER_LEFT] = true
}.

(** In a core context the two faces have one mode. *)
Record legal_polygon (e : gl_env) (p : gl_polygon_attrib) : Prop := {
  lpg_front : one_of (FrontFace p) [GL_CW; GL_CCW] = true;
  lpg_cull : one_of (CullFaceMode p) [GL_FRONT; GL_BACK; GL_FRONT_AND_BACK] = true;
  lpg_modes : legal_polygon_mode e (FrontMode p) = true /\ legal_polygon_mode e (BackMode p) = true;
  lpg_core : API e = API_OPENGL_CORE -> FrontMode p = BackMode p
}.

(** A size is not negative and not above [max]; a depth is a clamped one. *)
Definition legal_extent (max : Z) (x : GLfloat) : Prop :=
  SFltb x f32_0 = false /\ SFltb (float_of_int max) x = false.
Definition clamped_depth (x : GLfloat) : Prop := exists d, x = float_of_double (CLAMP d f64_0 f64_1).

Record legal_viewport (e : gl_env) (v : gl_viewport_attrib) : Prop := {
  lv_width : legal_extent (MaxViewportWidth e) (Vp_Width v);
  lv_height : legal_extent (MaxViewportHeight e) (Vp_Height v);
  lv_range : clamped_depth (Near v) /\ clamped_depth (Far v)
}.

Definition legal_viewports (e : gl_env) (l : list gl_viewport_attrib) : Prop :=
  length l = MAX_VIEWPORTS /\ Forall (legal_viewport e) l.

Definition legal_transform (t : gl_transform_attrib) : Prop :=
  one_of (ClipOrigin t) [GL_LOWER_LEFT; GL_UPPER_LEFT] = true /\
  one_of (ClipDepthMode t) [GL_NEGATIVE_ONE_TO_ONE; GL_ZERO_TO_ONE] = true.

Definition in_unit (x : GLfloat) : Prop := SFleb f32_0 x = true /\ SFleb x f32_1 = true.

Definition legal_multisample (m : gl_multisample_attrib) : Prop :=
  in_unit (SampleCoverageValue m) /\ in_unit (MinSampleShadingValue m).

Definition legal_hint (h : gl_hint_attrib) : Prop :=
  Forall (fun m => one_of m [GL_NICEST; GL_FASTEST; GL_DONT_CARE] = true)
    [PerspectiveCorrection h; PointSmooth h; LineSmooth h; PolygonSmooth h; Hint_Fog h;
     TextureCompression h; GenerateMipmap h; FragmentShaderDerivative h].

Record legal_fog (f : gl_fog_attrib) : Prop := {
  lf_mode : packed_mode (Fog_Mode f) = Some (_PackedMode f);
  lf_packed : _PackedEnabledMode f = if Fog_Enabled f then _PackedMode f else FOG_NONE;
  lf_density : SFltb (Density f) f32_0 = false;
  lf_source : one_of (FogCoordinateSource f) [GL_FOG_COORDINATE_EXT; GL_FRAGMENT_DEPTH_EXT] = true;
  lf_distance : one_of (FogDistanceMode f) [GL_EYE_RADIAL_NV; GL_EYE_PLANE; GL_EYE_PLANE_ABSOLUTE_NV] = true
}.

Definition legal_conservative (e : gl_env) (c : conservative_params) : Prop :=
  fst (SubpixelPrecisionBias c) <= MaxSubpixelPrecisionBiasBits e /\
  snd (SubpixelPrecisionBias c) <= MaxSubpixelPrecisionBiasBits e /\
  one_of (ConservativeRasterMode c)
    [GL_CONSERVATIVE_RASTER_MODE_POST_SNAP_NV; GL_CONSERVATIVE_RASTER_MODE_PRE_SNAP_TRIANGLES_NV] = true.

Definition legal_raster (e : gl_env) (a : gl_attribs) : Prop :=
  legal_line e (Line a) /\ legal_point (Point a) /\ legal_polygon e (Polygon a) /\
  legal_viewports e (ViewportArray a) /\ legal_transform (Transform a) /\
  legal_multisample (Multisample a) /\ legal_hint (Hint_ a) /\ legal_fog (Fog a) /\
  legal_conservative e (Conservative a).

Record legal (ctx : gl_context) : Prop := {
  lg_env : env_wf (env ctx);
  lg_color : legal_color (env ctx) (Color (Attr ctx));
  lg_depth : legal_depth (Depth (Attr ctx));
  lg_stencil : legal_stencil (Stencil (Attr ctx));
  lg_scissor : legal_scissor (env ctx) (Scissor (Attr ctx));
  lg_light : legal_clamp (ClampVertexColor (Light (Attr ctx))) = true;
  lg_raster : legal_raster (env ctx) (Attr ctx)
}.

(** ** Safe steps

    A step from a legal context to a legal one, inside the arrays. *)
Definition safe (a b : gl_context) : Prop :=
  legal a -> legal b /\ env b = env a /\ exists t, Trace b = Trace a ++ t /\ Forall in_bounds t.

Lemma safe_refl a : safe a a.
Proof. intros H. repeat split; try apply H. exists []. now rewrite app_nil_r. Qed.

Lemma safe_trans a b c : safe a b -> safe b c -> safe a c.
Proof.
  intros H1 H2 Ha. destruct (H1 Ha) as (Hb & E1 & t1 & T1 & N1).
  destruct (H2 Hb) as (Hc & E2 & t2 & T2 & N2). split; [assumption|]. split; [congruence|].
  exists (t1 ++ t2). rewrite T2, T1, app_assoc. split; [reflexivity | now apply Forall_app].
Qed.

(** Legality only reads the environment and the attributes. *)
Lemma legal_ext a b : env b = env a -> Attr b = Attr a -> legal a -> legal b.
Proof. intros He Ha []. constructor; rewrite ?He, ?Ha; assumption. Qed.

Lemma safe_ext a b t :
  env b = env a -> Attr b = Attr a -> Trace b = Trace a ++ t -> Forall in_bounds t -> safe a b.
Proof. intros He Ha Ht Hn H. split; [eapply legal_ext; eauto | eauto]. Qed.

Lemma safe_emit e a : in_bounds e -> safe a (emit e a).
Proof. intros H. apply (safe_ext _ _ [e]); auto. Qed.

Lemma safe_driver has d a : safe a (call_driver has d a).
Proof. unfold call_driver. destruct (has _); [now apply safe_emit | apply safe_refl]. Qed.

Lemma safe_error e a : safe a (_mesa_error e a).
Proof.
  destruct (error_fields e a) as (He & Ha & _ & _ & _ & _ & Ht).
  apply (safe_ext _ _ [EvError e]); auto. repeat constructor.
Qed.

Lemma safe_flushed g a b : flushed g a b -> safe a b.
Proof.
  intros [He _ _ Ha _ _ (t & Ht & Hq & _)]. apply (safe_ext _ _ t); auto.
  revert Hq. apply Forall_impl. now intros ? [].
Qed.

Lemma safe_if (b : bool) a x y :
  (b = true -> safe a x) -> (b = false -> safe a y) -> safe a (if b then x else y).
Proof. destruct b; auto. Qed.

(** Assignments to one attribute group. *)
Lemma safe_upd_Color f a :
  (legal a -> legal_color (env a) (f (Color (Attr a)))) -> safe a (upd_Color f a).
Proof.
  intros H Ha. split; [|split; [reflexivity|exists []; now rewrite app_nil_r]].
  specialize (H Ha). destruct Ha. constructor; assumption.
Qed.

Lemma safe_upd_Depth f a : (legal a -> legal_depth (f (Depth (Attr a)))) -> safe a (upd_Depth f a).
Proof.
  intros H Ha. split; [|split; [reflexivity|exists []; now rewrite app_nil_r]].
  specialize (H Ha). destruct Ha. constructor; assumption.
Qed.

Lemma safe_upd_Stencil f a :
  (legal a -> legal_stencil (f (Stencil (Attr a)))) -> safe a (upd_Stencil f a).
Proof.
  intros H Ha. split; [|split; [reflexivity|exists []; now rewrite app_nil_r]].
  specialize (H Ha). destruct Ha. constructor; assumption.
Qed.

Lemma safe_upd_Scissor f a :
  (legal a -> legal_scissor (env a) (f (Scissor (Attr a)))) -> safe a (upd_Scissor f a).
Proof.
  intros H Ha. split; [|split; [reflexivity|exists []; now rewrite app_nil_r]].
  specialize (H Ha). destruct Ha. constructor; assumption.
Qed.

Lemma safe_upd_Light f a :
  (legal a -> legal_clamp (ClampVertexColor (f (Light (Attr a)))) = true) -> safe a (upd_Light f a).
Proof.
  intros H Ha. split; [|split; [reflexivity|exists []; now rewrite app_nil_r]].
  specialize (H Ha). destruct Ha. constructor; assumption.
Qed.

(** Peel the last operation off a [safe] goal. *)
Ltac peel :=
  lazymatch goal with
  | |- safe ?a ?a => apply safe_refl
  | |- safe ?a (_mesa_error _ ?a) => apply safe_error
  | |- safe ?a (call_driver ?h ?d ?b) => apply (safe_trans a b); [|apply safe_driver]
  | |- safe ?a (upd_Color ?f ?b) => apply (safe_trans a b); [|apply safe_upd_Color]
  | |- safe ?a (upd_Depth ?f ?b) => apply (safe_trans a b); [|apply safe_upd_Depth]
  | |- safe ?a (upd_Stencil ?f ?b) => apply (safe_trans a b); [|apply safe_upd_Stencil]
  | |- safe ?a (upd_Scissor ?f ?b) => apply (safe_trans a b); [|apply safe_upd_Scissor]
  | |- safe ?a (upd_Light ?f ?b) => apply (safe_trans a b); [|apply safe_upd_Light]
  | |- safe ?a (if ?x then _ else _) => let E := fresh "E" in destruct x eqn:E
  end.

(** Case analysis on the tests only. *)
Ltac branch :=
  lazymatch goal with
  | |- safe ?a ?a => apply safe_refl
  | |- safe ?a (_mesa_error _ ?a) => apply safe_error
  | |- safe ?a (if ?x then _ else _) => let E := fresh "E" in destruct x eqn:E
  end.

(** Abstract the context after [flush_for]. *)
Ltac sflush g :=
  match goal with
  | |- safe ?a _ =>
      let H := fresh in
      pose proof (flush_for_flushed g a ltac:(discriminate)) as H; cbn [flag_of bit_of] in H;
      lazymatch type of H with
      | flushed _ _ ?b =>
          let Ee := fresh "Eenv" in let Ea := fresh "Eattr" in
          pose proof (fl_env _ _ _ H) as Ee; pose proof (fl_attr _ _ _ H) as Ea;
          apply (safe_trans a b); [exact (safe_flushed _ _ _ H)|];
          revert Ee Ea; generalize b; intros ? Ee Ea; clear H
      end
  end.

(** ** Enumerants fit their 16-bit members *)

Lemma one_of_In x l : one_of x l = true <-> In x l.
Proof.
  unfold one_of. rewrite existsb_exists. split.
  - intros (y & Hy & E). apply Z.eqb_eq in E. now subst.
  - intros H. exists x. split; [assumption | apply Z.eqb_refl].
Qed.

Lemma e16_listed l x : forallb (fun y => e16 y =? y) l = true -> one_of x l = true -> e16 x = x.
Proof.
  intros Hl Hx. apply one_of_In in Hx. rewrite forallb_forall in Hl. now apply Z.eqb_eq, Hl.
Qed.

(** Split a legality test made of [one_of] tests and show that the value fits. *)
Ltac fits :=
  repeat match goal with
  | H : (if one_of ?x ?l then _ else _) = true |- _ => let E := fresh in destruct (one_of x l) eqn:E
  | H : (if ?x =? ?y then _ else _) = true |- _ => let E := fresh in destruct (Z.eqb_spec x y) as [E|E]; [subst|]
  | H : one_of ?x ?l = true |- _ => apply (e16_listed l x); [vm_compute; reflexivity | exact H]
  | H : false = true |- _ => discriminate H
  | |- e16 ?x = ?x => is_ground x; reflexivity
  end.

Lemma src_factor_fits e f : legal_src_factor e f = true -> e16 f = f.
Proof. unfold legal_src_factor. intros H. fits. Qed.

Lemma dst_factor_fits e f : legal_dst_factor e f = true -> e16 f = f.
Proof. unfold legal_dst_factor. intros H. fits. Qed.

Lemma depth_func_fits f : legal_depth_func f = true -> e16 f = f.
Proof. unfold legal_depth_func. intros H. fits. Qed.

Lemma stencil_func_fits f : validate_stencil_func f = true -> e16 f = f.
Proof. unfold validate_stencil_func. intros H. fits. Qed.

Lemma stencil_op_fits f : validate_stencil_op f = true -> e16 f = f.
Proof. unfold validate_stencil_op. intros H. fits. Qed.

Lemma logic_op_fits f : legal_logic_op f = true -> e16 f = f.
Proof. unfold legal_logic_op. intros H. fits. Qed.

Lemma clamp_fits f : legal_clamp f = true -> e16 f = f.
Proof. unfold legal_clamp. intros H. fits. Qed.

Lemma simple_equation_fits e f : legal_simple_blend_equation e f = true -> e16 f = f.
Proof. unfold legal_simple_blend_equation. intros H. fits. Qed.

Lemma advanced_mode_listed m :
  advanced_blend_mode_from_gl_enum m <> BLEND_NONE -> In m (map fst advanced_blend_modes).
Proof.
  unfold advanced_blend_mode_from_gl_enum. destruct (find _ _) as [[x y]|] eqn:F; [|congruence].
  intros _. apply find_some in F. destruct F as [Hin Heq]. cbn [fst] in Heq. apply Z.eqb_eq in Heq.
  subst. now apply (in_map fst) in Hin.
Qed.

Lemma equation_fits e m : legal_equation e m = true -> e16 m = m.
Proof.
  unfold legal_equation. intros H. apply orb_true_iff in H. destruct H as [H|H].
  - now apply (simple_equation_fits e).
  - apply negb_true_iff, Z.eqb_neq in H. unfold advanced_blend_mode in H.
    destruct (_mesa_has_KHR_blend_equation_advanced e); [|congruence].
    apply advanced_mode_listed, one_of_In in H.
    revert H. apply e16_listed. vm_compute. reflexivity.
Qed.

(** ** Depth, stencil *)

Lemma depth_func_safe f a : safe a (depth_func f false a).
Proof.
  unfold depth_func. cbv zeta. repeat branch. sflush G_Depth. repeat peel. intros _.
  unfold legal_depth. cbn. apply negb_false_iff in E0. now rewrite depth_func_fits.
Qed.

Lemma DepthMask_safe b a : safe a (_mesa_DepthMask b a).
Proof. unfold _mesa_DepthMask. cbv zeta. repeat branch. sflush G_Depth. repeat peel. apply lg_depth. Qed.

Lemma DepthBounds_safe x y a : safe a (_mesa_DepthBoundsEXT x y a).
Proof. unfold _mesa_DepthBoundsEXT. cbv zeta. repeat branch. sflush G_Depth. repeat peel. apply lg_depth. Qed.

Lemma ClearDepth_safe d a : safe a (_mesa_ClearDepth d a).
Proof. unfold _mesa_ClearDepth. repeat peel. apply lg_depth. Qed.

Lemma upd_nth_length {A} n (f : A -> A) l : length (upd_nth n f l) = length l.
Proof. revert n. induction l as [|x l IH]; intros [|n]; simpl; auto. Qed.

Lemma upd_nth_Forall {A} (P : A -> Prop) n f l :
  (forall x, P x -> P (f x)) -> Forall P l -> Forall P (upd_nth n f l).
Proof.
  intros Hf Hl. revert n. induction Hl as [|x l Hx Hl IH]; intros [|n]; simpl; auto.
Qed.

Lemma set_at_length i v l : length (set_at i v l) = length l.
Proof. apply upd_nth_length. Qed.

Lemma set_at_Forall (P : Z -> Prop) i v l : P v -> Forall P l -> Forall P (set_at i v l).
Proof. intros Hv. apply upd_nth_Forall. auto. Qed.

Lemma store_func_legal i f r m s :
  validate_stencil_func f = true -> legal_stencil s -> legal_stencil (store_func i f r m s).
Proof.
  intros Hf []. constructor; cbn; rewrite ?set_at_length; auto.
  apply set_at_Forall; [now rewrite stencil_func_fits | assumption].
Qed.

Lemma store_op_legal i f zf zp s :
  validate_stencil_op f = true -> validate_stencil_op zf = true -> validate_stencil_op zp = true ->
  legal_stencil s -> legal_stencil (store_op i f zf zp s).
Proof.
  intros Hf Hzf Hzp []. constructor; cbn; rewrite ?set_at_length; auto;
    apply set_at_Forall; auto; now rewrite stencil_op_fits.
Qed.

Lemma store_mask_legal i m s : legal_stencil s -> legal_stencil (store_mask i m s).
Proof. intros []. constructor; cbn; rewrite ?set_at_length; auto. Qed.

#[export] Hint Resolve store_func_legal store_op_legal store_mask_legal lg_stencil : gl.

Lemma stencil_func_safe f r m a : validate_stencil_func f = true -> safe a (stencil_func f r m a).
Proof.
  intros Hf. unfold stencil_func, call_driver_two_side. cbv zeta.
  repeat branch; sflush G_Stencil; repeat peel; auto 6 with gl.
Qed.

Lemma stencil_op_safe f zf zp a :
  validate_stencil_op f = true -> validate_stencil_op zf = true -> validate_stencil_op zp = true ->
  safe a (stencil_op f zf zp a).
Proof.
  intros Hf Hzf Hzp. unfold stencil_op, call_driver_two_side. cbv zeta.
  repeat branch; sflush G_Stencil; repeat peel; auto 6 with gl.
Qed.

Lemma StencilMask_safe m a : safe a (_mesa_StencilMask m a).
Proof.
  unfold _mesa_StencilMask, call_driver_two_side. cbv zeta.
  repeat branch; sflush G_Stencil; repeat peel; auto 6 with gl.
Qed.

Lemma StencilFuncSeparateATI_safe f b r m a : safe a (_mesa_StencilFuncSeparateATI f b r m a).
Proof.
  unfold _mesa_StencilFuncSeparateATI. cbv zeta. repeat branch. zbool.
  sflush G_Stencil; repeat peel; auto 6 with gl.
Qed.

Lemma set_op_face_safe i sf zf zp a :
  validate_stencil_op sf = true -> validate_stencil_op zf = true -> validate_stencil_op zp = true ->
  safe a (snd (set_op_face i sf zf zp a)).
Proof.
  intros Hf Hzf Hzp. unfold set_op_face. destruct (same_op _ _ _ _ _); [apply safe_refl|]. cbv zeta. cbn [snd].
  sflush G_Stencil. repeat peel. auto with gl.
Qed.

Lemma stencil_op_separate_safe f sf zf zp a :
  validate_stencil_op sf = true -> validate_stencil_op zf = true -> validate_stencil_op zp = true ->
  safe a (stencil_op_separate f sf zf zp a).
Proof.
  intros Hf Hzf Hzp. unfold stencil_op_separate.
  destruct (if negb (f =? GL_BACK) then _ else _) as [s0 c0] eqn:E0.
  destruct (if negb (f =? GL_FRONT) then _ else _) as [s1 c1] eqn:E1.
  assert (H0 : safe a c0).
  { replace c0 with (snd (s0, c0)) by reflexivity. rewrite <- E0. clear E0 E1.
    destruct (negb _); [now apply set_op_face_safe | apply safe_refl]. }
  assert (H1 : safe c0 c1).
  { replace c1 with (snd (s1, c1)) by reflexivity. rewrite <- E1. clear E0 E1.
    destruct (negb _); [now apply set_op_face_safe | apply safe_refl]. }
  apply (safe_trans _ _ _ H0), (safe_trans _ _ _ H1).
  destruct (s0 || s1); [apply safe_driver | apply safe_refl].
Qed.

Lemma stencil_func_separate_safe f fn r m a :
  validate_stencil_func fn = true -> safe a (stencil_func_separate f fn r m a).
Proof.
  intros Hf. unfold stencil_func_separate. cbv zeta. sflush G_Stencil. repeat peel; auto 6 with gl.
Qed.

Lemma stencil_mask_separate_safe f m a : safe a (stencil_mask_separate f m a).
Proof. unfold stencil_mask_separate. cbv zeta. sflush G_Stencil. repeat peel; auto 6 with gl. Qed.

Lemma ClearStencil_safe s a : safe a (_mesa_ClearStencil s a).
Proof. unfold _mesa_ClearStencil. repeat peel. intros []. destruct lg_stencil0. now constructor. Qed.

Lemma ActiveStencilFace_safe f a : safe a (_mesa_ActiveStencilFaceEXT f a).
Proof.
  unfold _mesa_ActiveStencilFaceEXT. repeat peel. intros []. destruct lg_stencil0.
  constructor; auto. cbn. destruct (_ =? _); auto.
Qed.

(** ** Scissor *)

Lemma at_index_safe n i k a :
  0 <= i < Z.of_nat n -> safe a (k a) -> safe a (at_index n i k a).
Proof.
  intros Hi Hk. unfold at_index.
  destruct (Z.leb_spec 0 i), (Z.ltb_spec i (Z.of_nat n)); try lia. exact Hk.
Qed.

Lemma set_scissor_no_notify_safe i r a :
  0 <= i < Z.of_nat MAX_VIEWPORTS -> nonneg_rect r -> safe a (set_scissor_no_notify i r a).
Proof.
  intros Hi Hr. unfold set_scissor_no_notify. apply at_index_safe; [assumption|].
  cbv zeta. repeat branch. sflush G_ScissorRect. repeat peel. intros [].
  destruct lg_scissor0. constructor; auto; cbn.
  - unfold upd_Z. now rewrite upd_nth_length.
  - now apply upd_nth_Forall.
Qed.

(** A loop whose body is safe at every index it reaches. *)
Lemma for_range_safe from to body a :
  (forall i c, env c = env a -> from <= i < to -> safe c (body i c)) ->
  safe a (for_range from to body a).
Proof.
  intros Hb. unfold for_range.
  assert (Hl : Forall (fun k => from <= from + Z.of_nat k < to) (seq 0 (Z.to_nat (to - from)))).
  { apply Forall_forall. intros k Hk. apply in_seq in Hk. lia. }
  revert Hl. generalize (seq 0 (Z.to_nat (to - from))). intros l Hl.
  enough (H : forall c, env c = env a -> safe c (fold_left (fun c k => body (from + Z.of_nat k) c) l c))
    by (apply H; reflexivity).
  induction Hl as [|k l Hk Hl IH]; intros c Hc; simpl; [apply safe_refl|].
  intros Hleg. destruct (Hb _ c Hc Hk Hleg) as (H1 & E1 & T1).
  apply (safe_trans c _ _ (Hb _ c Hc Hk)); [|assumption]. apply IH. congruence.
Qed.

Lemma set_scissor_safe i r a :
  0 <= i < Z.of_nat MAX_VIEWPORTS -> nonneg_rect r -> safe a (_mesa_set_scissor i r a).
Proof.
  intros. unfold _mesa_set_scissor. cbv zeta. peel. now apply set_scissor_no_notify_safe.
Qed.

Lemma with_legal a b : (legal a -> safe a b) -> safe a b.
Proof. intros H Ha. now apply H. Qed.

Lemma scissor_safe r a : nonneg_rect r -> safe a (scissor r a).
Proof.
  intros Hr. apply with_legal. intros [(_ & Hv & _) _ _ _ _ _ _].
  unfold scissor. cbv zeta. peel. apply for_range_safe. intros. apply set_scissor_no_notify_safe; [lia | assumption].
Qed.

Lemma scissor_indexed_safe i r a : 0 <= i -> safe a (scissor_indexed_err i r a).
Proof.
  intros Hi. apply with_legal. intros [(_ & Hv & _) _ _ _ _ _ _].
  unfold scissor_indexed_err. repeat peel. zbool. apply set_scissor_safe; [lia | split; lia].
Qed.

(** A loop with a negative count. *)
Lemma for_range_empty c body a : c <= 0 -> for_range 0 c body a = a.
Proof. intros Hc. unfold for_range. replace (Z.to_nat (c - 0)) with O by lia. reflexivity. Qed.

(** [glScissorArrayv] with rectangles to read and a sum that does not wrap. *)
Lemma ScissorArrayv_safe f c v a :
  0 <= f -> f + c < 2 ^ 32 -> c <= Z.of_nat (length v) -> safe a (_mesa_ScissorArrayv f c v a).
Proof.
  intros Hf Hw Hlen. apply with_legal. intros [(_ & Hv & _) _ _ _ _ _ _].
  unfold _mesa_ScissorArrayv, scissor_array. cbv zeta. destruct (Z.le_gt_cases c 0) as [Hc|Hc].
  { rewrite for_range_empty by exact Hc. do 2 peel; try apply safe_error. peel. apply safe_refl. }
  rewrite (wrap_small 32 (f + c)) by lia.
  do 2 peel; try apply safe_error. zbool. peel. apply for_range_safe. intros i c0 _ Hi.
  rewrite wrap_small by lia. apply set_scissor_no_notify_safe; [lia|].
  unfold nth_Z. rewrite <- (firstn_skipn (Z.to_nat c) v), app_nth1 by (rewrite length_firstn; lia).
  assert (Hin : In (nth (Z.to_nat i) (firstn (Z.to_nat c) v) rect0) (firstn (Z.to_nat c) v))
    by (apply nth_In; rewrite length_firstn; lia).
  revert Hin. generalize (nth (Z.to_nat i) (firstn (Z.to_nat c) v) rect0). intros r Hin.
  destruct (Z_lt_ge_dec (Width r) 0), (Z_lt_ge_dec (Height r) 0); [| | |split; lia].
  all: exfalso; apply not_true_iff_false in E0; apply E0, existsb_exists; exists r; split; [assumption|];
    apply orb_true_iff; rewrite !Z.ltb_lt; auto.
Qed.

Lemma Scissor_safe x y w h a : safe a (_mesa_Scissor x y w h a).
Proof. unfold _mesa_Scissor. repeat peel. zbool. apply scissor_safe. split; cbn; lia. Qed.

Lemma WindowRectangles_safe m c b a :
  c <= Z.of_nat (length b) -> safe a (_mesa_WindowRectanglesEXT m c b a).
Proof.
  intros Hlen. apply with_legal. intros Hleg. pose proof Hleg as [(_ & _ & Hm & _) _ _ _ Hs _ _].
  unfold _mesa_WindowRectanglesEXT. cbv zeta. do 4 (peel; [apply safe_error|]). zbool.
  rewrite FLUSH_env. pose proof (flush_windows_flushed a) as Hf. cbv zeta in Hf. pose proof (fl_env _ _ _ Hf) as Ef. revert Hf Ef.
  match goal with |- flushed _ _ ?x -> _ => generalize x end. intros f Hf Ef.
  apply (safe_trans _ _ _ (safe_flushed _ _ _ Hf)). peel; [apply safe_refl|]. intros [_ _ _ _ [] _ _].
  set (w := firstn (Z.to_nat c) b) in *.
  assert (Hl : length w = Z.to_nat c) by (unfold w; rewrite length_firstn; lia).
  constructor; cbn; auto.
  - unfold copy_front. rewrite length_app, length_skipn, lsc_windows0, Hl. lia.
  - rewrite Ef. lia.
  - unfold copy_front. rewrite firstn_app, Hl, Nat.sub_diag, firstn_O, app_nil_r, firstn_all2 by lia.
    apply Forall_forall. intros r Hr. apply not_true_iff_false in E2.
    destruct (Z_lt_ge_dec (Width r) 0), (Z_lt_ge_dec (Height r) 0); [| | |split; lia].
    all: exfalso; apply E2, existsb_exists; exists r; split; [assumption|];
      apply orb_true_iff; rewrite !Z.ltb_lt; auto.
  - assert (Hmode : one_of m [GL_INCLUSIVE_EXT; GL_EXCLUSIVE_EXT] = true).
    { apply andb_false_iff in E. cbn. destruct (m =? GL_INCLUSIVE_EXT), (m =? GL_EXCLUSIVE_EXT); simpl in *;
      intuition congruence. }
    now rewrite (e16_listed [GL_INCLUSIVE_EXT; GL_EXCLUSIVE_EXT] m).
Qed.

(** ** Blend state

    The loops over the buffers, in closed form. *)

Definition map_front {A} (n : nat) (f : A -> A) (l : list A) : list A := map f (firstn n l) ++ skipn n l.

Definition upd_each {A} (f : A -> A) (s : list nat) (l : list A) : list A :=
  fold_left (fun l i => upd_nth i f l) s l.

Lemma upd_each_S {A} (f : A -> A) s x l : upd_each f (map S s) (x :: l) = x :: upd_each f s l.
Proof. revert l. induction s as [|i s IH]; intros l; [reflexivity | apply IH]. Qed.

Lemma upd_each_seq {A} (f : A -> A) n l : upd_each f (seq 0 n) l = map_front n f l.
Proof.
  revert l. induction n as [|n IH]; intros l; [reflexivity|].
  cbn [seq]. rewrite <- seq_shift. destruct l as [|x l].
  - unfold map_front. cbn. clear. generalize (seq 0 n). intros s. induction s; auto.
  - change (upd_each f (0%nat :: map S (seq 0 n)) (x :: l)) with (upd_each f (map S (seq 0 n)) (f x :: l)).
    rewrite upd_each_S, IH. reflexivity.
Qed.

Lemma upd_Color_id a : upd_Color (fun c => c) a = a.
Proof. destruct a as [? ? ? ? ? ? [] ? ?]. reflexivity. Qed.

Lemma upd_Color_ext f g a : f (Color (Attr a)) = g (Color (Attr a)) -> upd_Color f a = upd_Color g a.
Proof. unfold upd_Color. now intros ->. Qed.

Lemma upd_Color_comp f g a : upd_Color f (upd_Color g a) = upd_Color (fun c => f (g c)) a.
Proof. reflexivity. Qed.

Lemma Blend_over c l l' : c <| Blend := l |> <| Blend := l' |> = c <| Blend := l' |>.
Proof. reflexivity. Qed.

Lemma Blend_get c l : Blend (c <| Blend := l |>) = l.
Proof. reflexivity. Qed.

Lemma Blend_id c : c <| Blend := Blend c |> = c.
Proof. now destruct c. Qed.

Lemma for_upd_blend n f a :
  for_range 0 n (fun buf => upd_blend buf f) a =
  upd_Color (fun c => c <| Blend := map_front (Z.to_nat n) f (Blend c) |>) a.
Proof.
  unfold for_range. rewrite Z.sub_0_r.
  transitivity (upd_Color (fun c => c <| Blend := upd_each f (seq 0 (Z.to_nat n)) (Blend c) |>) a).
  2: { apply upd_Color_ext. now rewrite upd_each_seq. }
  generalize (seq 0 (Z.to_nat n)). intros s. revert a. induction s as [|i s IH]; intros a.
  - cbn. rewrite <- (upd_Color_id a) at 1. apply upd_Color_ext. now rewrite Blend_id.
  - cbn [fold_left]. rewrite IH. rewrite Z.add_0_l. unfold upd_blend, upd_Z. rewrite Nat2Z.id. reflexivity.
Qed.

(** The second loop copies the flag of buffer 0 to the others. *)
Definition set_dual (v : bool) (b : blend_attrib) : blend_attrib := b <| _UsesDualSrc := v |>.

Lemma for_copy_dual n a b0 rest :
  Blend (Color (Attr a)) = b0 :: rest ->
  for_range 1 n (fun buf ctx =>
    upd_blend buf (fun b => b <| _UsesDualSrc := _UsesDualSrc (blend_at 0 ctx) |>) ctx) a =
  upd_Color (fun c => c <| Blend := b0 :: map_front (Z.to_nat (n - 1)) (set_dual (_UsesDualSrc b0)) rest |>) a.
Proof.
  intros Hb. unfold for_range. rewrite <- upd_each_seq.
  generalize (seq 0 (Z.to_nat (n - 1))). intros s. revert a rest Hb.
  induction s as [|i s IH]; intros a rest Hb.
  - cbn. rewrite <- (upd_Color_id a) at 1. apply upd_Color_ext. now rewrite <- Hb, Blend_id.
  - cbn [fold_left].
    assert (E : upd_blend (1 + Z.of_nat i) (fun b => b <| _UsesDualSrc := _UsesDualSrc (blend_at 0 a) |>) a
              = upd_Color (fun c => c <| Blend := b0 :: upd_nth i (set_dual (_UsesDualSrc b0)) rest |>) a).
    { unfold upd_blend, blend_at, upd_Z, nth_Z. rewrite Hb. apply upd_Color_ext. rewrite Hb.
      replace (Z.to_nat (1 + Z.of_nat i)) with (S i) by lia. reflexivity. }
    rewrite E, (IH _ (upd_nth i (set_dual (_UsesDualSrc b0)) rest)) by reflexivity. reflexivity.
Qed.

(** What [glBlendFuncSeparate] makes of one buffer's state. *)
Definition set_factors (s d sa da : Z) (b : blend_attrib) : blend_attrib :=
  let b := store_factors s d sa da b in b <| _UsesDualSrc := uses_dual_src b |>.

(** Setting the factors, then the flag, of the first [k] elements. *)
Lemma map_front_dual s d sa da k b0 rest :
  map_front k (set_dual (_UsesDualSrc (set_factors s d sa da b0)))
    (map_front k (store_factors s d sa da) rest) =
  map_front k (set_factors s d sa da) rest.
Proof.
  unfold map_front. rewrite firstn_app, skipn_app, length_map.
  assert (E : (k - length (firstn k rest) = 0)%nat \/ skipn k rest = []).
  { rewrite length_firstn. destruct (Nat.le_gt_cases k (length rest)); [left; lia|].
    right. apply skipn_all2. lia. }
  assert (E1 : firstn k (map (store_factors s d sa da) (firstn k rest)) = map (store_factors s d sa da) (firstn k rest))
    by (apply firstn_all2; rewrite length_map, length_firstn; lia).
  assert (E2 : skipn k (map (store_factors s d sa da) (firstn k rest)) = [])
    by (apply skipn_all2; rewrite length_map, length_firstn; lia).
  rewrite E1, E2. destruct E as [E|E]; rewrite E.
  - rewrite firstn_O, app_nil_r, skipn_O, map_map. reflexivity.
  - rewrite firstn_nil, skipn_nil, !app_nil_r, map_map. reflexivity.
Qed.

Lemma blend_func_separate_spec s d sa da a :
  1 <= num_buffers (env a) -> Blend (Color (Attr a)) <> [] ->
  exists f, flushed G_Blend a f /\
    blend_func_separate s d sa da a =
    call_driver has_BlendFuncSeparate (Drv_BlendFuncSeparate s d sa da)
      (upd_Color (fun c => c <| Blend := map_front (Z.to_nat (num_buffers (env a))) (set_factors s d sa da) (Blend c) |>
                             <| _BlendFuncPerBuffer := false |>) f).
Proof.
  intros Hn Hb. exists (flush_for NewBlend _NEW_COLOR a).
  pose proof (flush_for_flushed G_Blend a ltac:(discriminate)) as Hf. cbn [flag_of bit_of] in Hf.
  split; [exact Hf|]. unfold blend_func_separate, update_uses_dual_src. cbv zeta.
  rewrite (fl_env _ _ _ Hf). rewrite <- (fl_attr _ _ _ Hf) in Hb.
  revert Hb. generalize (flush_for NewBlend _NEW_COLOR a) as f. clear Hf. intros f Hb.
  rewrite for_upd_blend. f_equal.
  destruct (Blend (Color (Attr f))) as [|b0 rest] eqn:Ef; [contradiction|].
  remember (num_buffers (env a)) as n eqn:En. clear En.
  replace (Z.to_nat n) with (S (Z.to_nat (n - 1))) by lia.
  rewrite (for_copy_dual n _ (set_factors s d sa da b0)
    (map_front (Z.to_nat (n - 1)) (store_factors s d sa da) rest)).
  2: { cbn. rewrite Ef. reflexivity. }
  unfold upd_blend. rewrite !upd_Color_comp. apply upd_Color_ext. rewrite Ef, !Blend_over, map_front_dual.
  reflexivity.
Qed.

Lemma map_front_length {A} n (f : A -> A) l : length (map_front n f l) = length l.
Proof.
  unfold map_front. rewrite length_app, length_map, <- length_app, firstn_skipn. reflexivity.
Qed.

Lemma map_front_Forall {A} (P : A -> Prop) n f l :
  (forall x, P x -> P (f x)) -> Forall P l -> Forall P (map_front n f l).
Proof.
  intros Hf Hl. unfold map_front. rewrite <- (firstn_skipn n l) in Hl.
  apply Forall_app in Hl. destruct Hl as [H1 H2]. apply Forall_app. split; [|assumption].
  apply Forall_map. revert H1. now apply Forall_impl.
Qed.

Lemma map_map_front {A B} (g : A -> B) n f l : (forall x, g (f x) = g x) -> map g (map_front n f l) = map g l.
Proof.
  intros H. unfold map_front. rewrite map_app, map_map, (map_ext _ g), <- map_app, firstn_skipn; auto.
Qed.

Lemma map_upd_nth {A B} (g : A -> B) n f l : (forall x, g (f x) = g x) -> map g (upd_nth n f l) = map g l.
Proof.
  intros H. revert n. induction l as [|x l IH]; intros [|n]; simpl; rewrite ?H, ?IH; reflexivity.
Qed.

(** Uniformity only reads the projection. *)
Lemma uniform_map {A} (g : blend_attrib -> A) n l l' : map g l' = map g l -> uniform g n l -> uniform g n l'.
Proof.
  intros E H. unfold uniform in *.
  apply (Forall_map g (fun y => y = g (nth 0 l blend0))) in H.
  apply (Forall_map g (fun y => y = g (nth 0 l' blend0))).
  rewrite <- firstn_map in H |- *. rewrite E.
  rewrite <- (map_nth g l' blend0 0), E, (map_nth g l blend0 0). exact H.
Qed.

Lemma uniform_all {A} (g : blend_attrib -> A) n f l v :
  1 <= n -> l <> [] -> (forall x, g (f x) = v) -> uniform g n (map_front (Z.to_nat n) f l).
Proof.
  intros Hn Hl Hv. unfold uniform, map_front.
  destruct l as [|b l]; [contradiction|].
  replace (Z.to_nat n) with (S (Z.to_nat (n - 1))) by lia. set (k := Z.to_nat (n - 1)).
  cbn [firstn skipn map app nth]. rewrite Hv. constructor; [apply Hv|].
  apply Forall_forall. intros x Hx.
  rewrite firstn_app, length_map in Hx. apply in_app_or in Hx. destruct Hx as [Hx|Hx].
  - rewrite firstn_all2 in Hx by (rewrite length_map, length_firstn; lia).
    apply in_map_iff in Hx. destruct Hx as (y & <- & _). apply Hv.
  - rewrite length_firstn in Hx. destruct (Nat.le_gt_cases k (length l)).
    + replace (k - Nat.min k (length l))%nat with 0%nat in Hx by lia. destruct Hx.
    + rewrite skipn_all2 in Hx by lia. rewrite firstn_nil in Hx. destruct Hx.
Qed.

Lemma validate_blend_factors_spec s d sa da a :
  validate_blend_factors s d sa da a =
  if legal_factors (env a) s d sa da then (true, a) else (false, _mesa_error GL_INVALID_ENUM a).
Proof.
  unfold validate_blend_factors, legal_factors.
  destruct (legal_src_factor (env a) s) eqn:Es; [|reflexivity].
  destruct (legal_dst_factor (env a) d) eqn:Ed; [|reflexivity]. cbn [negb andb].
  destruct (Z.eqb_spec sa s) as [->|]; [rewrite Es|destruct (legal_src_factor (env a) sa); [|reflexivity]];
    cbn [negb andb];
    (destruct (Z.eqb_spec da d) as [->|]; [rewrite Ed|destruct (legal_dst_factor (env a) da)]; reflexivity).
Qed.

Lemma num_buffers_range e : env_wf e -> 1 <= num_buffers e <= Z.of_nat MAX_DRAW_BUFFERS.
Proof. intros (H & _). unfold num_buffers. destruct (ARB_draw_buffers_blend e); cbn in *; lia. Qed.

Lemma blend_nonempty e c : legal_color e c -> Blend c <> [].
Proof. intros [H]. intros E. rewrite E in H. discriminate. Qed.

Lemma factors_stored e s d sa da b :
  legal_factors e s d sa da = true -> factors_of (set_factors s d sa da b) = (s, d, sa, da).
Proof.
  unfold legal_factors. intros H. zbool. unfold factors_of. cbn.
  rewrite (src_factor_fits e s), (src_factor_fits e sa), (dst_factor_fits e d), (dst_factor_fits e da)
    by assumption. reflexivity.
Qed.

Lemma set_factors_legal e s d sa da b :
  legal_factors e s d sa da = true -> legal_blend e b -> legal_blend e (set_factors s d sa da b).
Proof.
  intros H []. constructor; [|assumption|reflexivity].
  pose proof (factors_stored e s d sa da b H) as E. unfold factors_of in E. congruence.
Qed.

Lemma store_equations_legal e x y b :
  legal_equation e x = true -> legal_equation e y = true -> legal_blend e b -> legal_blend e (store_equations x y b).
Proof.
  intros Hx Hy []. constructor; [assumption| |assumption].
  cbn. now rewrite (equation_fits e x), (equation_fits e y) by assumption.
Qed.

(** An assignment to the blend group, given what it does to the buffers and
    the two flags. *)
Lemma legal_color_blend e c l pf pe adv :
  legal_color e c -> length l = length (Blend c) -> Forall (legal_blend e) l ->
  (pf = false -> uniform factors_of (num_buffers e) l) ->
  (pe = false -> uniform equations_of (num_buffers e) l) -> (exists mode, adv = advanced_blend_mode e mode) ->
  legal_color e (c <| Blend := l |> <| _BlendFuncPerBuffer := pf |>
                   <| _BlendEquationPerBuffer := pe |> <| _AdvancedBlendMode := adv |>).
Proof.
  intros [] Hl Hb Hu1 Hu2 Hadv. constructor; [cbn; now rewrite Hl | ..]; assumption.
Qed.

(** The same, for a goal in which fewer members are assigned. *)
Ltac blend_group l pf pe adv :=
  match goal with
  | |- legal_color ?e _ =>
      match goal with H : legal_color e ?c |- _ => apply (legal_color_blend e c l pf pe adv); [exact H|..] end
  end.

Lemma blend_func_separate_safe s d sa da a :
  legal_factors (env a) s d sa da = true -> safe a (blend_func_separate s d sa da a).
Proof.
  intros Hl. apply with_legal. intros Ha. pose proof Ha as [Hwf Hc _ _ _ _ _].
  pose proof (num_buffers_range _ Hwf) as Hn. pose proof (blend_nonempty _ _ Hc) as Hne.
  destruct (blend_func_separate_spec s d sa da a ltac:(lia) Hne) as (f & Hf & ->).
  apply (safe_trans _ _ _ (safe_flushed _ _ _ Hf)). peel. peel; [apply safe_refl|]. intros _.
  rewrite (fl_attr _ _ _ Hf), (fl_env _ _ _ Hf). set (c := Color (Attr a)) in *. pose proof Hc as [].
  blend_group (map_front (Z.to_nat (num_buffers (env a))) (set_factors s d sa da) (Blend c))
    false (_BlendEquationPerBuffer c) (_AdvancedBlendMode c); [apply map_front_length | ..].
  - apply map_front_Forall; [|assumption]. intros b. now apply set_factors_legal.
  - intros _. apply (uniform_all _ _ _ _ (s, d, sa, da)); [lia | assumption|].
    intros b. now apply (factors_stored (env a)).
  - intros He. apply (uniform_map _ _ (Blend c)); [now apply map_map_front | auto].
  - assumption.
Qed.

Lemma BlendFuncSeparate_safe s d sa da a : safe a (_mesa_BlendFuncSeparate s d sa da a).
Proof.
  unfold _mesa_BlendFuncSeparate. rewrite validate_blend_factors_spec. branch; [apply safe_refl|].
  destruct (legal_factors _ _ _ _ _) eqn:El; [now apply blend_func_separate_safe | apply safe_error].
Qed.

Lemma upd_blend_compose i f g a : upd_blend i f (upd_blend i g a) = upd_blend i (fun b => f (g b)) a.
Proof.
  unfold upd_blend. rewrite upd_Color_comp. apply upd_Color_ext. rewrite Blend_over, Blend_get.
  enough (E : forall l : list blend_attrib, upd_Z i f (upd_Z i g l) = upd_Z i (fun b => f (g b)) l)
    by (rewrite E; reflexivity).
  intros l. unfold upd_Z. generalize (Z.to_nat i). clear. intros n. revert n.
  induction l as [|b l IH]; intros [|n]; simpl; rewrite ?IH; reflexivity.
Qed.

Lemma blend_func_separatei_safe buf s d sa da a :
  0 <= buf -> safe a (blend_func_separatei buf s d sa da false a).
Proof.
  intros Hbuf. apply with_legal. intros Ha. pose proof Ha as [Hwf Hc _ _ _ _ _].
  destruct Hwf as (Hmax & _).
  unfold blend_func_separatei. do 2 (branch; [apply safe_error|]). cbn [negb andb] in *. zbool.
  apply at_index_safe; [lia|]. rewrite validate_blend_factors_spec. branch; [apply safe_refl|].
  destruct (legal_factors _ _ _ _ _) eqn:El; [|apply safe_error]. cbn [negb]. cbv zeta.
  sflush G_Blend. unfold update_uses_dual_src. rewrite upd_blend_compose.
  unfold upd_blend. rewrite upd_Color_comp. peel; [apply safe_refl|]. intros _.
  rewrite Eattr, Eenv. set (c := Color (Attr a)) in *. pose proof Hc as [].
  blend_group (upd_Z buf (set_factors s d sa da) (Blend c)) true
    (_BlendEquationPerBuffer c) (_AdvancedBlendMode c); [apply upd_nth_length | ..].
  - apply upd_nth_Forall; [|assumption]. intros b. now apply (set_factors_legal (env a) s d sa da b).
  - discriminate.
  - intros He. apply (uniform_map _ _ (Blend c)); [now apply map_upd_nth | auto].
  - assumption.
Qed.

Lemma equations_stored e x y b :
  legal_equation e x = true -> legal_equation e y = true ->
  equations_of (store_equations x y b) = (x, y).
Proof.
  intros Hx Hy. unfold equations_of. cbn. now rewrite (equation_fits e x), (equation_fits e y).
Qed.

Lemma store_all_equations_legal e x y adv c :
  env_wf e -> legal_color e c -> legal_equation e x = true -> legal_equation e y = true ->
  (exists mode, adv = advanced_blend_mode e mode) ->
  legal_color e (c <| Blend := map_front (Z.to_nat (num_buffers e)) (store_equations x y) (Blend c) |>
                   <| _BlendEquationPerBuffer := false |> <| _AdvancedBlendMode := adv |>).
Proof.
  intros Hwf Hc Hx Hy Hadv. pose proof (num_buffers_range _ Hwf) as Hn.
  pose proof (blend_nonempty _ _ Hc) as Hne. pose proof Hc as [].
  blend_group (map_front (Z.to_nat (num_buffers e)) (store_equations x y) (Blend c))
    (_BlendFuncPerBuffer c) false adv; [apply map_front_length | ..].
  - apply map_front_Forall; [|assumption]. intros b. now apply store_equations_legal.
  - intros He. apply (uniform_map _ _ (Blend c)); [now apply map_map_front | auto].
  - intros _. apply (uniform_all _ _ _ _ (x, y)); [lia | assumption|].
    intros b. now apply (equations_stored e).
  - exact Hadv.
Qed.

Lemma store_equations_at_legal e i x y adv c :
  legal_color e c -> legal_equation e x = true -> legal_equation e y = true ->
  (exists mode, adv = advanced_blend_mode e mode) ->
  legal_color e (c <| Blend := upd_Z i (store_equations x y) (Blend c) |>
                   <| _BlendEquationPerBuffer := true |> <| _AdvancedBlendMode := adv |>).
Proof.
  intros Hc Hx Hy Hadv. pose proof Hc as [].
  blend_group (upd_Z i (store_equations x y) (Blend c)) (_BlendFuncPerBuffer c) true adv;
    [apply upd_nth_length | ..].
  - apply upd_nth_Forall; [|assumption]. intros b. now apply store_equations_legal.
  - intros He. apply (uniform_map _ _ (Blend c)); [now apply map_upd_nth | auto].
  - discriminate.
  - exact Hadv.
Qed.

(** No advanced mode is in force. *)
Lemma no_advanced e : exists mode, BLEND_NONE = advanced_blend_mode e mode.
Proof. exists 0. unfold advanced_blend_mode. now destruct (_mesa_has_KHR_blend_equation_advanced e). Qed.

Lemma simple_is_legal e m : legal_simple_blend_equation e m = true -> legal_equation e m = true.
Proof. unfold legal_equation. now intros ->. Qed.

(** Abstract the context after one of the flushes for blend state. *)
Ltac sflush_blend L :=
  let H := fresh in
  pose proof L as H;
  lazymatch type of H with
  | flushed _ ?a ?b =>
      let Ee := fresh "Eenv" in let Ea := fresh "Eattr" in
      pose proof (fl_env _ _ _ H) as Ee; pose proof (fl_attr _ _ _ H) as Ea;
      apply (safe_trans a b); [exact (safe_flushed _ _ _ H)|];
      revert Ee Ea; generalize b; intros ? Ee Ea; clear H
  end.

Lemma BlendEquation_safe m a : safe a (_mesa_BlendEquation m a).
Proof.
  apply with_legal. intros [Hwf Hc _ _ _ _ _]. unfold _mesa_BlendEquation. cbv zeta. repeat branch.
  destruct (flush_adv_some (advanced_blend_mode (env a) m) a) as [g Hg]. sflush_blend Hg. clear g Hg.
  rewrite for_upd_blend, upd_Color_comp. peel. peel; [apply safe_refl|]. intros _. rewrite Eattr, Eenv.
  assert (legal_equation (env a) m = true) by (unfold legal_equation; destruct (legal_simple_blend_equation _ _);
    [reflexivity | cbn in E0; now rewrite E0]).
  apply store_all_equations_legal; eauto.
Qed.

Lemma blend_equationi_safe buf m a :
  0 <= buf < Z.of_nat MAX_DRAW_BUFFERS -> legal_equation (env a) m = true ->
  safe a (blend_equationi buf m (advanced_blend_mode (env a) m) a).
Proof.
  intros Hbuf Hm. apply with_legal. intros [Hwf Hc _ _ _ _ _]. unfold blend_equationi.
  apply at_index_safe; [assumption|]. cbv zeta. branch; [apply safe_refl|].
  destruct (flush_adv_some (advanced_blend_mode (env a) m) a) as [g Hg]. sflush_blend Hg. clear g Hg.
  unfold upd_blend. rewrite !upd_Color_comp.
  branch; (peel; [apply safe_refl|]); intros _; rewrite Eattr, Eenv.
  - apply store_equations_at_legal; eauto.
  - apply (store_equations_at_legal (env a) buf m m (_AdvancedBlendMode (Color (Attr a)))); auto. apply Hc.
Qed.

Lemma blend_equation_separate_safe x y a : safe a (blend_equation_separate x y false a).
Proof.
  apply with_legal. intros [Hwf Hc _ _ _ _ _]. unfold blend_equation_separate. cbv zeta. repeat branch.
  cbn [negb andb] in *. zbool. sflush_blend (flush_blend_state_flushed a).
  rewrite for_upd_blend, upd_Color_comp. peel. peel; [apply safe_refl|]. intros _. rewrite Eattr, Eenv.
  apply store_all_equations_legal; auto using simple_is_legal, no_advanced.
Qed.

Lemma blend_equation_separatei_safe buf x y a :
  0 <= buf < Z.of_nat MAX_DRAW_BUFFERS -> safe a (blend_equation_separatei buf x y false a).
Proof.
  intros Hbuf. apply with_legal. intros [Hwf Hc _ _ _ _ _]. unfold blend_equation_separatei.
  apply at_index_safe; [assumption|]. cbv zeta. repeat branch. cbn [negb andb] in *. zbool.
  sflush_blend (flush_blend_state_flushed a). unfold upd_blend. rewrite !upd_Color_comp.
  peel; [apply safe_refl|]. intros _. rewrite Eattr, Eenv.
  apply store_equations_at_legal; auto using simple_is_legal, no_advanced.
Qed.

(** ** Blend colour, alpha test, logic op, masks, clamping *)

Lemma BlendColor_safe v a : safe a (_mesa_BlendColor v a).
Proof.
  unfold _mesa_BlendColor. cbv zeta. repeat branch. sflush G_BlendColor. repeat peel.
  intros [_ [] _ _ _ _ _]. now constructor.
Qed.

Lemma AlphaFunc_safe f r a : safe a (_mesa_AlphaFunc f r a).
Proof.
  unfold _mesa_AlphaFunc. cbv zeta. repeat branch. sflush G_AlphaTest. repeat peel.
  intros [_ [] _ _ _ _ _]. constructor; auto. split; [|reflexivity]. cbn.
  assert (Hf : validate_stencil_func f = true).
  { unfold validate_stencil_func. apply one_of_In. apply one_of_In in E0. cbn in *. tauto. }
  now rewrite stencil_func_fits.
Qed.

Lemma logic_op_safe op a : safe a (logic_op op false a).
Proof.
  unfold logic_op. cbv zeta. repeat branch. cbn [negb andb] in *. zbool. sflush G_LogicOp. repeat peel.
  intros [_ [] _ _ _ _ _]. constructor; auto. cbn. now rewrite logic_op_fits.
Qed.

Lemma IndexMask_safe m a : safe a (_mesa_IndexMask m a).
Proof.
  unfold _mesa_IndexMask. cbv zeta. repeat branch. sflush G_ColorMask. repeat peel.
  intros [_ [] _ _ _ _ _]. now constructor.
Qed.

Lemma ColorMask_safe r g b al a : safe a (_mesa_ColorMask r g b al a).
Proof.
  unfold _mesa_ColorMask. cbv zeta. repeat branch. sflush G_ColorMask. repeat peel.
  intros [_ [] _ _ _ _ _]. now constructor.
Qed.

Lemma ColorMaski_safe i r g b al a : safe a (_mesa_ColorMaski i r g b al a).
Proof.
  unfold _mesa_ColorMaski. cbv zeta. repeat branch. sflush G_ColorMask. repeat peel.
  intros [_ [] _ _ _ _ _]. now constructor.
Qed.

(** The assertion of [get_clamp_color] holds of every legal value. *)
Lemma get_clamp_color_Ret fb c : legal_clamp c = true -> exists v, get_clamp_color fb c = Ret v.
Proof.
  intros H. apply one_of_In in H. unfold get_clamp_color.
  destruct H as [<-|[<-|[<-|[]]]]; cbn; eauto. destruct fb; eauto.
Qed.

Lemma ClampColor_safe t c a : legal a -> exists b, _mesa_ClampColor t c a = Ret b /\ safe a b.
Proof.
  intros [Hwf Hc _ _ _ Hl _]. unfold _mesa_ClampColor, _mesa_update_clamp_vertex_color,
    _mesa_update_clamp_fragment_color, _mesa_get_clamp_vertex_color, _mesa_get_clamp_fragment_color. cbv zeta.
  destruct ((_ <=? 30) && _); [eauto using safe_error|].
  destruct (negb _ && negb _ && negb _) eqn:Ec; [eauto using safe_error|].
  assert (Hleg : legal_clamp c = true).
  { apply one_of_In. cbn. destruct (Z.eqb_spec c GL_TRUE), (Z.eqb_spec c GL_FALSE), (Z.eqb_spec c GL_FIXED_ONLY_ARB);
    auto; discriminate. }
  destruct (t =? GL_CLAMP_VERTEX_COLOR_ARB).
  { destruct (gl_api_eqb _ _); [eauto using safe_error|].
    pose proof (flush_only_flushed G_Light a ltac:(discriminate) (fun _ => eq_refl)) as Hf. cbn [bit_of] in Hf.
    revert Hf. generalize (FLUSH_VERTICES _NEW_LIGHT a). intros f Hf. cbn.
    rewrite (clamp_fits c Hleg). destruct (get_clamp_color_Ret (DrawBuffer f) c Hleg) as [v ->].
    eexists. split; [reflexivity|]. apply (safe_trans _ _ _ (safe_flushed _ _ _ Hf)).
    repeat peel; intros _; assumption. }
  destruct (t =? GL_CLAMP_FRAGMENT_COLOR_ARB).
  { destruct (gl_api_eqb _ _); [eauto using safe_error|].
    pose proof (flush_only_flushed G_FragClamp a ltac:(discriminate) (fun _ => eq_refl)) as Hf. cbn [bit_of] in Hf.
    revert Hf. generalize (FLUSH_VERTICES _NEW_FRAG_CLAMP a). intros f Hf. rewrite (clamp_fits c Hleg).
    assert (Hcol : forall r, legal_color (env f) r -> legal_color (env f) (r <| ClampFragmentColor := c |>))
      by (intros r []; constructor; auto; cbn; tauto).
    destruct (match DrawBuffer f with Some _ => _ | None => _ end).
    - eexists. split; [reflexivity|]. apply (safe_trans _ _ _ (safe_flushed _ _ _ Hf)).
      repeat peel; intros []; [now apply Hcol | destruct lg_color0; now constructor].
    - cbn [Attr upd_Color Color ClampFragmentColor]. destruct (get_clamp_color_Ret (DrawBuffer f) c Hleg) as [v Hv].
      exists (upd_Color (fun r => r <| _ClampFragmentColor := v |>) (upd_Color (fun r => r <| ClampFragmentColor := c |>) f)).
      split; [change (obind (get_clamp_color (DrawBuffer f) c) (fun b =>
        Ret (upd_Color (fun r => r <| _ClampFragmentColor := b |>)
               (upd_Color (fun r => r <| ClampFragmentColor := c |>) f))) =
        Ret (upd_Color (fun r => r <| _ClampFragmentColor := v |>) (upd_Color (fun r => r <| ClampFragmentColor := c |>) f)));
        now rewrite Hv|].
      apply (safe_trans _ _ _ (safe_flushed _ _ _ Hf)).
      repeat peel; intros []; [now apply Hcol | destruct lg_color0; now constructor]. }
  destruct (t =? GL_CLAMP_READ_COLOR_ARB); [|eauto using safe_error].
  eexists. split; [reflexivity|]. peel; [apply safe_refl|]. rewrite (clamp_fits c Hleg).
  intros [_ [] _ _ _ _ _]. constructor; auto. cbn. tauto.
Qed.
