(* ===== verification/GlLegalRaster.v ===== *)
(** * Legality of the state of primitives, viewports, fog and samples

    The validating entry points of GlRaster keep the invariant of GlLegal. *)

From Stdlib Require Import Bool ZArith List Lia SpecFloat.
From S2P Require Import Prelude GlContext GlSteps GlFloat GlStencil GlBlend GlPrimitive GlViewport.
From S2P Require Import GlFog GlRaster GlState GlLegal GlDepth GlScissor.
Import ListNotations.
#[local] Open Scope bool_scope.
#[local] Open Scope Z_scope.
#[local] Open Scope c_scope.

(** ** Assignments to one group *)

Lemma safe_upd_Attr f a :
  (forall r, Color (f r) = Color r /\ Depth (f r) = Depth r /\ Stencil (f r) = Stencil r /\
             Scissor (f r) = Scissor r /\ Light (f r) = Light r) ->
  (legal a -> legal_raster (env a) (f (Attr a))) -> safe a (upd_Attr f a).
Proof.
  intros Hf H Ha. split; [|split; [reflexivity | exists []; now rewrite app_nil_r]].
  specialize (H Ha). destruct Ha, (Hf (Attr a)) as (E1 & E2 & E3 & E4 & E5).
  constructor; cbn; rewrite ?E1, ?E2, ?E3, ?E4, ?E5; assumption.
Qed.

(** The other groups are legal as before. *)
Ltac raster_part :=
  intros H; apply safe_upd_Attr; [now repeat split|]; intros Ha; specialize (H Ha);
  destruct (lg_raster _ Ha) as (? & ? & ? & ? & ? & ? & ? & ? & ?); unfold legal_raster;
  repeat match goal with |- _ /\ _ => split end; assumption.

Lemma safe_upd_Line f a : (legal a -> legal_line (env a) (f (Line (Attr a)))) -> safe a (upd_Line f a).
Proof. raster_part. Qed.
Lemma safe_upd_Point f a : (legal a -> legal_point (f (Point (Attr a)))) -> safe a (upd_Point f a).
Proof. raster_part. Qed.
Lemma safe_upd_Polygon f a : (legal a -> legal_polygon (env a) (f (Polygon (Attr a)))) -> safe a (upd_Polygon f a).
Proof. raster_part. Qed.
Lemma safe_upd_Viewports f a :
  (legal a -> legal_viewports (env a) (f (ViewportArray (Attr a)))) -> safe a (upd_Viewports f a).
Proof. raster_part. Qed.
Lemma safe_upd_Transform f a : (legal a -> legal_transform (f (Transform (Attr a)))) -> safe a (upd_Transform f a).
Proof. raster_part. Qed.
Lemma safe_upd_Multisample f a :
  (legal a -> legal_multisample (f (Multisample (Attr a)))) -> safe a (upd_Multisample f a).
Proof. raster_part. Qed.
Lemma safe_upd_Hint f a : (legal a -> legal_hint (f (Hint_ (Attr a)))) -> safe a (upd_Hint f a).
Proof. raster_part. Qed.
Lemma safe_upd_Fog f a : (legal a -> legal_fog (f (Fog (Attr a)))) -> safe a (upd_Fog f a).
Proof. raster_part. Qed.
Lemma safe_upd_Conservative f a :
  (legal a -> legal_conservative (env a) (f (Conservative (Attr a)))) -> safe a (upd_Conservative f a).
Proof. raster_part. Qed.

(** The groups of a legal context. *)
Lemma legal_groups a : legal a ->
  legal_line (env a) (Line (Attr a)) /\ legal_point (Point (Attr a)) /\ legal_polygon (env a) (Polygon (Attr a)) /\
  legal_viewports (env a) (ViewportArray (Attr a)) /\ legal_transform (Transform (Attr a)) /\
  legal_multisample (Multisample (Attr a)) /\ legal_hint (Hint_ (Attr a)) /\ legal_fog (Fog (Attr a)) /\
  legal_conservative (env a) (Conservative (Attr a)).
Proof. intros H. apply (lg_raster _ H). Qed.

Ltac groups := intros Ha; destruct (legal_groups _ Ha) as (Hline & Hpoint & Hpoly & Hvp & Htr & Hms & Hhint & Hfog & Hcons).

Lemma FLUSH_effect n a : env (FLUSH_VERTICES n a) = env a /\ Attr (FLUSH_VERTICES n a) = Attr a /\
  exists t, Trace (FLUSH_VERTICES n a) = Trace a ++ t /\ Forall in_bounds t.
Proof.
  unfold FLUSH_VERTICES. destruct (negb _); (split; [reflexivity|]; split; [reflexivity|]).
  - exists [EvDraw (rendering (Attr a))]. split; [reflexivity | repeat constructor].
  - exists []. split; [cbn; now rewrite app_nil_r | constructor].
Qed.

Lemma safe_FLUSH n a : safe a (FLUSH_VERTICES n a).
Proof. destruct (FLUSH_effect n a) as (He & Ha & t & Ht & Hb). now apply (safe_ext _ _ t). Qed.

Lemma safe_NewDriverState m a : safe a (a <| NewDriverState := m |>).
Proof. apply (safe_ext _ _ []); try reflexivity; [cbn; now rewrite app_nil_r | constructor]. Qed.

Lemma safe_NewState m a : safe a (a <| NewState := m |>).
Proof. apply (safe_ext _ _ []); try reflexivity; [cbn; now rewrite app_nil_r | constructor]. Qed.

Lemma safe_flush_for flag bit a : safe a (flush_for flag bit a).
Proof.
  apply (safe_trans _ (FLUSH_VERTICES (if flag (env a) =? 0 then bit else 0) a)).
  - apply safe_FLUSH.
  - apply safe_NewDriverState.
Qed.

Lemma flush_for_env flag bit a : env (flush_for flag bit a) = env a.
Proof. exact (FLUSH_env (if flag (env a) =? 0 then bit else 0) a). Qed.

(** [(T) x] has the value of [x], rounded towards zero. *)
Definition convertible (lo hi : Z) (x : GLfloat) : Prop := exists v, truncate x = Some v /\ lo <= v <= hi.

Lemma converted_safe lo hi x k a :
  convertible lo hi x -> (forall v, safe a (k v a)) -> safe a (converted lo hi x k a).
Proof.
  intros (v & Ev & Hv) H. unfold converted. rewrite Ev.
  destruct ((lo <=? v) && (v <=? hi)) eqn:E; [apply H|]. exfalso. apply not_true_iff_false in E. apply E.
  apply andb_true_iff. split; apply Z.leb_le; lia.
Qed.

(** Peel the flush, the assignment and the notification off a setter whose
    tests have been decided. *)
Ltac settle L :=
  cbv zeta;
  lazymatch goal with
  | |- safe ?a (call_driver ?h ?d ?b) => apply (safe_trans a b); [settle L | apply safe_driver]
  | |- safe ?a (upd_Attr ?f ?b) => apply (safe_trans a b); [settle L | apply L]
  | |- safe ?a (flush_for _ _ ?a) => apply safe_flush_for
  | |- safe ?a (FLUSH_VERTICES _ ?a) => apply safe_FLUSH
  | |- safe ?a ?a => apply safe_refl
  end.

(** ** Lines, points, polygons *)

Lemma line_width_safe w a : safe a (line_width w false a).
Proof.
  unfold line_width. cbv zeta. repeat branch. settle safe_upd_Line. groups. rewrite flush_for_env in *.
  destruct Hline. constructor; cbn; [exact E0 | | assumption]. intros Hf. cbn [negb andb] in E1.
  unfold forward_core in Hf. rewrite Hf in E1. exact E1.
Qed.

Lemma CLAMP_int_range x lo hi : lo <= hi -> lo <= CLAMP_int x lo hi <= hi.
Proof. intros H. unfold CLAMP_int. destruct (Z.ltb_spec lo x), (Z.ltb_spec hi x); lia. Qed.

Lemma LineStipple_safe f p a : safe a (_mesa_LineStipple f p a).
Proof.
  unfold _mesa_LineStipple. cbv zeta. repeat branch. settle safe_upd_Line. groups.
  destruct Hline. constructor; cbn; [assumption..|]. now apply CLAMP_int_range.
Qed.

Lemma point_size_safe s a : safe a (point_size s false a).
Proof.
  unfold point_size. cbv zeta. repeat branch. settle safe_upd_Point. groups. destruct Hpoint. now constructor.
Qed.

Lemma point_limit_safe get set x n a :
  (forall p, SFltb x f32_0 = false -> legal_point p -> legal_point (set p)) ->
  safe a (point_limit get set x (call_driver has_PointParameterfv n) a).
Proof.
  intros Hset. unfold point_limit. cbv zeta. repeat branch. settle safe_upd_Point. groups. now apply Hset.
Qed.

Lemma point_mode_safe s l get set x n a :
  (s = true -> convertible 0 (2 ^ 32 - 1) x) ->
  (forall v p, one_of v l = true -> legal_point p -> legal_point (set v p)) ->
  safe a (point_mode s l get set x (call_driver has_PointParameterfv n) a).
Proof.
  intros Hx Hset. unfold point_mode. branch; [|apply safe_error]. apply converted_safe; [auto|]. intros v.
  cbv zeta. repeat branch. zbool. settle safe_upd_Point. groups. now apply Hset.
Qed.

(** The parameters that are enumerants hold a number that a [GLenum] has. *)
Definition point_enum_ok (pname : Z) (x : GLfloat) : Prop :=
  pname = GL_POINT_SPRITE_R_MODE_NV \/ pname = GL_POINT_SPRITE_COORD_ORIGIN -> convertible 0 (2 ^ 32 - 1) x.

Lemma PointParameterfv_safe n p a : legal a -> point_enum_ok n (Params_0 p) ->
  exists b, _mesa_PointParameterfv n p a = Ret b /\ safe a b.
Proof.
  intros Ha Hn. pose proof (lg_env _ Ha) as (_ & _ & _ & _ & _ & Hext).
  unfold _mesa_PointParameterfv. cbv zeta. rewrite Hext. eexists. split; [reflexivity|]. repeat branch.
  - settle safe_upd_Point. clear Ha. groups. destruct Hpoint. now constructor.
  - apply point_limit_safe. intros q Hx []. constructor; cbn; tauto.
  - apply point_limit_safe. intros q Hx []. constructor; cbn; tauto.
  - apply point_limit_safe. intros q Hx []. constructor; cbn; tauto.
  - zbool. apply point_mode_safe; [intros _; apply Hn; auto|]. intros v q Hv []. constructor; cbn; auto.
    replace (e16 v) with v; [exact Hv | symmetry; revert Hv; now apply e16_listed].
  - zbool. apply point_mode_safe; [intros _; apply Hn; auto|]. intros v q Hv []. constructor; cbn; auto.
    replace (e16 v) with v; [exact Hv | symmetry; revert Hv; now apply e16_listed].
Qed.

Lemma cull_face_safe m a : safe a (cull_face m false a).
Proof.
  unfold cull_face. cbv zeta. repeat branch. settle safe_upd_Polygon. groups.
  destruct Hpoly. constructor; cbn; auto. assert (Hm : one_of m [GL_FRONT; GL_BACK; GL_FRONT_AND_BACK] = true).
  { cbn [negb andb] in E0. cbn. destruct (m =? GL_FRONT), (m =? GL_BACK), (m =? GL_FRONT_AND_BACK); auto. }
  now rewrite (e16_listed [GL_FRONT; GL_BACK; GL_FRONT_AND_BACK]).
Qed.

Lemma polygon_front_face_safe m a : safe a (polygon_front_face m false a).
Proof.
  unfold polygon_front_face. cbv zeta. repeat branch. settle safe_upd_Polygon. groups.
  destruct Hpoly. constructor; cbn; auto. assert (Hm : one_of m [GL_CW; GL_CCW] = true).
  { cbn [negb andb] in E0. cbn. destruct (m =? GL_CW), (m =? GL_CCW); auto. }
  now rewrite (e16_listed [GL_CW; GL_CCW]).
Qed.

Lemma not_core e : gl_api_eqb (API e) API_OPENGL_CORE = false -> API e <> API_OPENGL_CORE.
Proof. intros H E. now rewrite E in H. Qed.

Lemma polygon_mode_safe f m a : safe a (polygon_mode f m false a).
Proof.
  unfold polygon_mode. cbv zeta. repeat branch; cbn [negb andb] in *; zbool; settle safe_upd_Polygon; groups;
    rewrite flush_for_env in *; destruct Hpoly as [? ? [? ?] ?]; constructor; cbn; auto;
    intros Hc; now apply not_core in Hc.
Qed.

Lemma polygon_offset_clamp_safe f u c a : safe a (_mesa_polygon_offset_clamp f u c a).
Proof.
  unfold _mesa_polygon_offset_clamp. cbv zeta. repeat branch. settle safe_upd_Polygon. groups.
  destruct Hpoly. now constructor.
Qed.

(** ** Viewports *)

Lemma MIN2_extent max x : 0 <= max -> SFltb x f32_0 = false -> legal_extent max (MIN2 x (float_of_int max)).
Proof.
  intros Hm Hx. unfold legal_extent, MIN2. destruct (SFltb x (float_of_int max)) eqn:E.
  - split; [exact Hx | now apply SFltb_asym].
  - split; [now apply float_of_int_nonneg | apply SFltb_irrefl].
Qed.

(** Sizes that are within the limits of the implementation. *)
Definition fits (e : gl_env) (v : gl_viewport_inputs) : Prop :=
  legal_extent (MaxViewportWidth e) (In_Width v) /\ legal_extent (MaxViewportHeight e) (In_Height v).

Lemma clamp_viewport_fits e v : env_wf e -> negative_size v = false -> fits e (clamp_viewport e v).
Proof.
  intros (_ & _ & _ & (Hw & Hh & _) & _) Hn. apply orb_false_iff in Hn. destruct Hn as [Hnw Hnh].
  unfold clamp_viewport. cbv zeta. destruct (_ || _); split; cbn; now apply MIN2_extent.
Qed.

Lemma store_viewport_legal e i v l : fits e v -> legal_viewports e l ->
  legal_viewports e (upd_Z i (store_viewport v) l).
Proof.
  intros [Hw Hh] [Hl Hv]. split; [unfold upd_Z; now rewrite upd_nth_length|].
  apply upd_nth_Forall; [|assumption]. intros r []. now constructor.
Qed.

Lemma set_viewport_safe i v a : 0 <= i < Z.of_nat MAX_VIEWPORTS -> fits (env a) v ->
  safe a (set_viewport_no_notify i v a).
Proof.
  intros Hi Hv. apply at_index_safe; [assumption|]. cbv zeta. branch; [apply safe_refl|].
  settle safe_upd_Viewports. groups. rewrite flush_for_env in *. now apply store_viewport_legal.
Qed.

Lemma set_depth_range_safe i n f a : 0 <= i < Z.of_nat MAX_VIEWPORTS -> safe a (set_depth_range_no_notify i n f a).
Proof.
  intros Hi. apply at_index_safe; [assumption|]. cbv zeta. branch; [apply safe_refl|].
  match goal with |- safe ?a (upd_Attr _ ?b) => apply (safe_trans a b) end.
  - apply (safe_trans _ (FLUSH_VERTICES _NEW_VIEWPORT a)); [apply safe_FLUSH | apply safe_NewDriverState].
  - apply safe_upd_Viewports. groups. destruct Hvp as [Hl Hv]. split; [unfold upd_Z; now rewrite upd_nth_length|].
    apply upd_nth_Forall; [|assumption]. intros r []. constructor; cbn; eauto. split; eexists; reflexivity.
Qed.

Lemma notified_safe has d a b : safe a b -> safe a (call_driver has d b).
Proof. intros H. apply (safe_trans a b); [exact H | apply safe_driver]. Qed.

Lemma viewport_safe x y w h a : 0 <= w -> 0 <= h -> safe a (viewport x y w h a).
Proof.
  intros Hw Hh. apply with_legal. intros Ha. pose proof (lg_env _ Ha) as Hwf. pose proof Hwf as (_ & Hv & _).
  apply notified_safe, for_range_safe. intros i c Ec Hi. apply set_viewport_safe; [lia|]. rewrite Ec.
  apply clamp_viewport_fits; [assumption|]. apply orb_false_iff. split; now apply float_of_int_nonneg.
Qed.

Lemma viewport_indexed_safe i v a : 0 <= i -> safe a (viewport_indexed_err i v a).
Proof.
  intros Hi. apply with_legal. intros Ha. pose proof (lg_env _ Ha) as Hwf. pose proof Hwf as (_ & Hv & _).
  unfold viewport_indexed_err. repeat branch. zbool. apply notified_safe, set_viewport_safe; [lia|].
  now apply clamp_viewport_fits.
Qed.

Lemma upd_nth_other {A} (d : A) n k f l : n <> k -> nth k (upd_nth n f l) d = nth k l d.
Proof. revert n k. induction l as [|x l IH]; intros [|n] [|k] H; cbn; try congruence; apply IH; congruence. Qed.

(** The rounds of [viewport_array] clamp and store elements that are not
    negative. *)
Lemma viewport_rounds_safe f l : forall a v, NoDup l ->
  (forall i, In i l -> 0 <= Z.of_nat i + f < Z.of_nat MAX_VIEWPORTS /\ negative_size (nth i v inputs0) = false) ->
  safe a (fst (fold_left (viewport_round f) l (a, v))).
Proof.
  induction l as [|i l IH]; intros a v Hnd Hl; [apply safe_refl|]. cbn [fold_left viewport_round].
  inversion_clear Hnd as [|? ? Hi Hnd']. destruct (Hl i) as [Hr Hn]; [now left|].
  apply with_legal. intros Ha. eapply safe_trans; [|apply IH; [assumption|]].
  - unfold MAX_VIEWPORTS in *. rewrite wrap_small by lia. apply set_viewport_safe; [assumption|].
    apply clamp_viewport_fits; [apply Ha | assumption].
  - intros k Hk. rewrite upd_nth_other by (intros ->; contradiction). apply Hl. now right.
Qed.

Lemma ViewportArrayv_safe f c v a : 0 <= f -> f + c < 2 ^ 32 -> c <= Z.of_nat (length v) ->
  safe a (fst (_mesa_ViewportArrayv f c v a)).
Proof.
  intros Hf Hw Hlen. apply with_legal. intros Ha. pose proof (lg_env _ Ha) as (_ & Hv & _).
  unfold _mesa_ViewportArrayv. destruct (Z.le_gt_cases c 0) as [Hc|Hc].
  { unfold viewport_array. replace (Z.to_nat c) with O by lia. destruct (_ >? _); [apply safe_error|]. cbn [firstn existsb seq fold_left].
    apply notified_safe, safe_refl. }
  rewrite wrap_small by lia.
  destruct (_ >? _) eqn:E0; [apply safe_error|]. destruct (existsb _ _) eqn:E1; [apply safe_error|]. zbool.
  unfold viewport_array. pose proof (viewport_rounds_safe f (seq 0 (Z.to_nat c)) a v (seq_NoDup _ _)) as H.
  destruct (fold_left _ _ _) as [b w]. apply notified_safe, H. intros i Hi. apply in_seq in Hi. split; [lia|].
  apply not_true_iff_false in E1. apply not_true_iff_false. intros Hn. apply E1, existsb_exists.
  exists (nth i v inputs0). split; [|exact Hn]. rewrite <- (firstn_skipn (Z.to_nat c) v) at 1.
  rewrite app_nth1 by (rewrite length_firstn; lia). apply nth_In. rewrite length_firstn. lia.
Qed.

Lemma DepthRange_safe n f a : safe a (_mesa_DepthRange n f a).
Proof.
  apply with_legal. intros Ha. pose proof (lg_env _ Ha) as (_ & Hv & _).
  apply notified_safe, for_range_safe. intros i c _ Hi. apply set_depth_range_safe. lia.
Qed.

(** The loop of the array entry points. *)
Lemma depth_range_loop_safe {A} f c (get : Z -> A) (n m : A -> GLdouble) a :
  0 <= f -> 0 <= c -> f + c <= MaxViewports (env a) ->
  safe a (for_range 0 c (fun i => set_depth_range_no_notify (u32 (i + f)) (n (get i)) (m (get i))) a).
Proof.
  intros Hf Hc Hw. apply with_legal. intros Ha. pose proof (lg_env _ Ha) as (_ & Hv & _).
  apply for_range_safe. intros i b _ Hi. unfold MAX_VIEWPORTS in *. rewrite wrap_small by lia.
  apply set_depth_range_safe. unfold MAX_VIEWPORTS. lia.
Qed.

Lemma for_range_ext from to f g a : (forall i c, f i c = g i c) -> for_range from to f a = for_range from to g a.
Proof.
  intros H. unfold for_range. generalize (seq 0 (Z.to_nat (to - from))). intros l. revert a.
  induction l as [|i l IH]; intros a; cbn; [reflexivity|]. now rewrite H, IH.
Qed.

Lemma DepthRangeArrayv_safe f c v a : 0 <= f -> f + c < 2 ^ 32 -> safe a (_mesa_DepthRangeArrayv f c v a).
Proof.
  intros Hf Hw. unfold _mesa_DepthRangeArrayv. destruct (Z.le_gt_cases c 0) as [Hc|Hc].
  { unfold depth_range_arrayv. rewrite for_range_empty by exact Hc. branch; [apply safe_error|]. apply notified_safe, safe_refl. }
  rewrite wrap_small by lia. branch; [apply safe_error|]. zbool.
  apply notified_safe. rewrite (for_range_ext _ _ _ (fun i => set_depth_range_no_notify (u32 (i + f))
    (fst (nth_Z (f64_0, f64_0) v i)) (snd (nth_Z (f64_0, f64_0) v i)))) by (intros i b; now destruct (nth_Z _ v i)).
  apply depth_range_loop_safe; lia || assumption.
Qed.

Lemma DepthRangeArrayfvOES_safe f c v a : 0 <= f -> f + c < 2 ^ 32 ->
  safe a (_mesa_DepthRangeArrayfvOES f c v a).
Proof.
  intros Hf Hw. unfold _mesa_DepthRangeArrayfvOES. destruct (Z.le_gt_cases c 0) as [Hc|Hc].
  { unfold depth_range_arrayv. rewrite for_range_empty by exact Hc. branch; [apply safe_error|]. apply notified_safe, safe_refl. }
  rewrite wrap_small by lia. branch; [apply safe_error|]. zbool.
  apply notified_safe. rewrite (for_range_ext _ _ _ (fun i => set_depth_range_no_notify (u32 (i + f))
    (double_of_float (fst (nth_Z (f32_0, f32_0) v i))) (double_of_float (snd (nth_Z (f32_0, f32_0) v i)))))
    by (intros i b; now destruct (nth_Z _ v i)).
  apply (depth_range_loop_safe f c (nth_Z (f32_0, f32_0) v) (fun p => double_of_float (fst p))
    (fun p => double_of_float (snd p))); lia || assumption.
Qed.

Lemma DepthRangeIndexed_safe i n f a : 0 <= i -> safe a (_mesa_DepthRangeIndexed i n f a).
Proof.
  intros Hi. apply with_legal. intros Ha. pose proof (lg_env _ Ha) as (_ & Hv & _).
  unfold _mesa_DepthRangeIndexed. branch; [apply safe_error|]. zbool. apply notified_safe, set_depth_range_safe. lia.
Qed.

(** ** Clip control *)

Lemma clip_control_safe o d a : safe a (clip_control o d false a).
Proof.
  unfold clip_control. cbv zeta. do 3 branch; [apply safe_error|].
  cbn [negb andb] in E0, E1.
  assert (Ho : one_of o [GL_LOWER_LEFT; GL_UPPER_LEFT] = true)
    by (cbn; destruct (o =? GL_LOWER_LEFT), (o =? GL_UPPER_LEFT); auto).
  assert (Hd : one_of d [GL_NEGATIVE_ONE_TO_ONE; GL_ZERO_TO_ONE] = true)
    by (cbn; destruct (d =? GL_NEGATIVE_ONE_TO_ONE), (d =? GL_ZERO_TO_ONE); auto).
  assert (Eo : e16 o = o) by (revert Ho; now apply e16_listed).
  assert (Ed : e16 d = d) by (revert Hd; now apply e16_listed).
  apply (safe_trans _ (flush_for NewClipControl (Z.lor _NEW_TRANSFORM _NEW_VIEWPORT) a)); [apply safe_flush_for|].
  generalize (flush_for NewClipControl (Z.lor _NEW_TRANSFORM _NEW_VIEWPORT) a). intros b.
  assert (Hs : forall c, safe c (set_clip_depth_mode d c)).
  { intros c. unfold set_clip_depth_mode. settle safe_upd_Transform. groups. destruct Htr. split; cbn; [assumption|]. now rewrite Ed. }
  assert (Hor : forall c, safe c (set_clip_origin o c)).
  { intros c. unfold set_clip_origin. cbv zeta. apply notified_safe.
    match goal with |- safe _ (if _ then ?x <| NewDriverState := _ |> else _) => apply (safe_trans _ x) end.
    - apply safe_upd_Transform. groups. destruct Htr. split; cbn; [|assumption]. now rewrite Eo.
    - branch; [apply safe_NewDriverState | apply safe_NewState]. }
  match goal with |- safe _ (if negb (ClipDepthMode (Transform (Attr ?x)) =? _) then _ else _) => apply (safe_trans _ x) end.
  - branch; [apply Hor | apply safe_refl].
  - branch; [apply Hs | apply safe_refl].
Qed.

(** ** Samples, hints, fog *)

Lemma SampleCoverage_safe v i a : safe a (_mesa_SampleCoverage v i a).
Proof.
  unfold _mesa_SampleCoverage. cbv zeta. repeat branch. settle safe_upd_Multisample. groups.
  destruct Hms. split; [apply CLAMP_unit | assumption].
Qed.

Lemma sample_maski_safe m a : safe a (sample_maski m a).
Proof. unfold sample_maski. cbv zeta. repeat branch. settle safe_upd_Multisample. groups. exact Hms. Qed.

Lemma min_sample_shading_safe v a : safe a (min_sample_shading v a).
Proof.
  unfold min_sample_shading. cbv zeta. repeat branch. settle safe_upd_Multisample. groups.
  destruct Hms. split; [assumption | apply CLAMP_unit].
Qed.

Lemma hint_case_safe s get set m a : (forall h, legal_hint h -> legal_hint (set h)) -> safe a (hint_case s get set m a).
Proof.
  intros Hset. unfold hint_case. cbv zeta. repeat branch. settle safe_upd_Hint. groups. now apply Hset.
Qed.

Lemma Hint_safe t m a : safe a (_mesa_Hint t m a).
Proof.
  unfold _mesa_Hint. cbv zeta. branch; [apply safe_error|].
  assert (Hm : one_of (e16 m) [GL_NICEST; GL_FASTEST; GL_DONT_CARE] = true).
  { destruct (Z.eqb_spec m GL_NICEST) as [->|]; [reflexivity|].
    destruct (Z.eqb_spec m GL_FASTEST) as [->|]; [reflexivity|].
    destruct (Z.eqb_spec m GL_DONT_CARE) as [->|]; [reflexivity | discriminate]. }
  repeat branch; apply hint_case_safe; intros h Hh; unfold legal_hint in *;
    repeat (apply Forall_cons_iff in Hh as [? Hh]); repeat constructor; assumption.
Qed.

Lemma packed_mode_fits m p : packed_mode m = Some p -> e16 m = m.
Proof.
  unfold packed_mode. destruct (Z.eqb_spec m GL_LINEAR) as [->|]; [reflexivity|].
  destruct (Z.eqb_spec m GL_EXP) as [->|]; [reflexivity|].
  destruct (Z.eqb_spec m GL_EXP2) as [->|]; [reflexivity | discriminate].
Qed.

Lemma upd_Attr_Attr f a : Attr (upd_Attr f a) = f (Attr a).
Proof. reflexivity. Qed.

(** When the mode is unchanged, so is the packed mode. *)
Lemma fog_mode_safe m d a : safe a (fog_mode m (call_driver has_Fogfv d) a).
Proof.
  unfold fog_mode. destruct (packed_mode m) as [p|] eqn:Ep; [|apply safe_error]. cbv zeta.
  match goal with |- safe _ (if ?x then _ else _) => change x with (Fog_Mode (Fog (Attr a)) =? m) end.
  destruct (Z.eqb_spec (Fog_Mode (Fog (Attr a))) m) as [E|E].
  - apply safe_upd_Fog. groups.
    destruct Hfog as [Hm Hp Hd Hs Hdm]. rewrite E, Ep in Hm. injection Hm as Hm. rewrite Hm.
    constructor; cbn; auto. now rewrite E, Ep, Hm.
  - apply notified_safe, with_legal. intros Ha. destruct (legal_groups _ Ha) as (_ & _ & _ & _ & _ & _ & _ & Hfog & _).
    destruct (FLUSH_effect _NEW_FOG (upd_Fog (fun f => f <| _PackedMode := p |>) a)) as (He & Et & t & Ht & Hb).
    apply (safe_trans _ (upd_Fog (fun f => f <| _PackedMode := p |> <| Fog_Mode := e16 m |>
      <| _PackedEnabledMode := if Fog_Enabled f then p else FOG_NONE |>) a)).
    + apply safe_upd_Fog. intros _. destruct Hfog. constructor; cbn; auto. now rewrite (packed_mode_fits m p).
    + apply (safe_ext _ _ t); [exact He | | exact Ht | exact Hb].
      rewrite (upd_Attr_Attr _ (FLUSH_VERTICES _ _)), Et. reflexivity.
Qed.

Lemma fog_number_safe get set x d a : (forall f, legal_fog f -> legal_fog (set f)) ->
  safe a (fog_number get set x (call_driver has_Fogfv d) a).
Proof. intros Hset. unfold fog_number. cbv zeta. repeat branch. settle safe_upd_Fog. groups. now apply Hset. Qed.

Lemma fog_enum_safe s l get set x d a : convertible (- 2 ^ 31) (2 ^ 31 - 1) x ->
  (forall v f, one_of v l = true -> legal_fog f -> legal_fog (set v f)) ->
  safe a (fog_enum s l get set x (call_driver has_Fogfv d) a).
Proof.
  intros Hx Hset. apply converted_safe; [assumption|]. intros v. cbv zeta. repeat branch. zbool.
  settle safe_upd_Fog. groups. now apply Hset.
Qed.

Lemma fog_color_safe p d a : safe a (fog_color p (call_driver has_Fogfv d) a).
Proof. unfold fog_color. cbv zeta. repeat branch. settle safe_upd_Fog. groups. destruct Hfog. now constructor. Qed.

(** The parameters that are enumerants hold a number that a [GLint] has. *)
Definition fog_enum_param (pname : Z) (x : GLfloat) : Prop :=
  one_of pname [GL_FOG_MODE; GL_FOG_COORDINATE_SOURCE_EXT; GL_FOG_DISTANCE_MODE_NV] = true ->
  convertible (- 2 ^ 31) (2 ^ 31 - 1) x.

Lemma Fogfv_safe n p a : fog_enum_param n (v0 p) -> safe a (_mesa_Fogfv n p a).
Proof.
  intros Hn. unfold _mesa_Fogfv. cbv zeta. repeat branch; zbool; subst n.
  - apply converted_safe; [now apply Hn|]. intros v. apply fog_mode_safe.
  - apply fog_number_safe. intros f []. now constructor.
  - apply fog_number_safe. intros f []. now constructor.
  - apply fog_number_safe. intros f []. now constructor.
  - apply fog_number_safe. intros f []. now constructor.
  - apply fog_color_safe.
  - apply fog_enum_safe; [now apply Hn|]. intros v f Hv []. constructor; cbn; auto.
    now rewrite (e16_listed [GL_FOG_COORDINATE_EXT; GL_FRAGMENT_DEPTH_EXT]).
  - apply fog_enum_safe; [now apply Hn|]. intros v f Hv []. constructor; cbn; auto.
    now rewrite (e16_listed [GL_EYE_RADIAL_NV; GL_EYE_PLANE; GL_EYE_PLANE_ABSOLUTE_NV]).
Qed.

(** ** Conservative rasterisation *)

Lemma flush_conservative_safe a b : safe a b -> safe a (flush_conservative b).
Proof.
  intros H. apply (safe_trans a b); [exact H|]. apply (safe_trans _ (FLUSH_VERTICES 0 b));
    [apply safe_FLUSH | apply safe_NewDriverState].
Qed.

Lemma SubpixelPrecisionBias_safe x y a : safe a (_mesa_SubpixelPrecisionBiasNV x y a).
Proof.
  unfold _mesa_SubpixelPrecisionBiasNV. repeat branch. zbool. apply flush_conservative_safe, safe_upd_Conservative.
  groups. destruct Hcons as (_ & _ & Hm). repeat split; cbn; [lia | lia | exact Hm].
Qed.

(** A parameter equal to a mode is that mode. *)
Lemma conservative_mode p :
  negb (SFeqb p (float_of_int GL_CONSERVATIVE_RASTER_MODE_POST_SNAP_NV)) &&
  negb (SFeqb p (float_of_int GL_CONSERVATIVE_RASTER_MODE_PRE_SNAP_TRIANGLES_NV)) = false ->
  truncate p = Some GL_CONSERVATIVE_RASTER_MODE_POST_SNAP_NV \/
  truncate p = Some GL_CONSERVATIVE_RASTER_MODE_PRE_SNAP_TRIANGLES_NV.
Proof.
  intros H. apply andb_false_iff in H. destruct H as [H|H]; apply negb_false_iff in H; [left | right];
    apply SFeqb_finite in H; now subst p.
Qed.

Lemma conservative_raster_parameter_safe n p a : safe a (conservative_raster_parameter n p false a).
Proof.
  unfold conservative_raster_parameter. cbv zeta. cbn [negb andb]. repeat branch.
  - apply flush_conservative_safe, safe_upd_Conservative. groups. exact Hcons.
  - apply conservative_mode in E3. unfold to_GLenum16, converted.
    destruct E3 as [-> | ->]; cbn [andb]; apply flush_conservative_safe, safe_upd_Conservative; groups;
      destruct Hcons as (? & ? & _); repeat split; assumption.
Qed.

(** ** Runs of checked commands

    Commands that validate their arguments keep the state legal, trip no
    assertion and stay inside the arrays. *)

(** The commands of GlRaster that validate their arguments, with arguments of
    their C types, and with the two kinds of arguments excluded that [checked]
    below describes. *)
Definition raster_checked (c : raster_command) : Prop :=
  match c with
  | LineWidth_no_error _ | PointSize_no_error _ | CullFace_no_error _ | FrontFace_no_error _
  | PolygonMode_no_error _ _ | Viewport_no_error _ _ _ _ | ViewportArrayv_no_error _ _ _
  | ViewportIndexedf_no_error _ _ _ _ _ | ViewportIndexedfv_no_error _ _ | DepthRangeArrayv_no_error _ _ _
  | DepthRangeIndexed_no_error _ _ _ | ClipControl_no_error _ _ | SubpixelPrecisionBiasNV_no_error _ _
  | ConservativeRasterParameteriNV_no_error _ _ | ConservativeRasterParameterfNV_no_error _ _
  | SampleMaski_no_error _ _ | MinSampleShading_no_error _ => False
  | PointParameteri n p => point_enum_ok n (float_of_int p)
  | PointParameteriv _ n (p, _, _) => point_enum_ok n (float_of_int p)
  | PointParameterf n p => point_enum_ok n p
  | PointParameterfv n p => point_enum_ok n (Params_0 p)
  | ViewportArrayv f c v => 0 <= f /\ f + c < 2 ^ 32 /\ c <= Z.of_nat (length v)
  | DepthRangeArrayv f c v => 0 <= f /\ f + c < 2 ^ 32 /\ c <= Z.of_nat (length v)
  | DepthRangeArrayfvOES f c v => 0 <= f /\ f + c < 2 ^ 32 /\ c <= Z.of_nat (length v)
  | ViewportIndexedf i _ _ _ _ | ViewportIndexedfv i _ | DepthRangeIndexed i _ _
  | DepthRangeIndexedfOES i _ _ => 0 <= i
  | Fogf n p => fog_enum_param n p
  | Fogi n p => fog_enum_param n (float_of_int p)
  | Fogiv _ n p => fog_enum_param n (float_of_int (nth 0 p 0))
  | Fogfv n p => fog_enum_param n (v0 p)
  | _ => True
  end.

#[export] Hint Resolve line_width_safe LineStipple_safe point_size_safe cull_face_safe polygon_front_face_safe
  polygon_mode_safe polygon_offset_clamp_safe viewport_indexed_safe DepthRange_safe DepthRangeIndexed_safe
  clip_control_safe SubpixelPrecisionBias_safe conservative_raster_parameter_safe SampleCoverage_safe
  sample_maski_safe min_sample_shading_safe Hint_safe Fogfv_safe safe_error : gl.

Lemma Fogiv_safe r n p a : fog_enum_param n (float_of_int (nth 0 p 0)) -> safe a (_mesa_Fogiv r n p a).
Proof.
  intros Hn. apply Fogfv_safe. intros Hin. specialize (Hn Hin).
  match goal with |- convertible _ _ (v0 (if ?x then _ else _)) => destruct x eqn:E end; [exact Hn|]. exfalso.
  apply one_of_In in Hin. apply not_true_iff_false in E. apply E, one_of_In. cbn in *. tauto.
Qed.

Lemma exec_raster_safe c a : legal a -> raster_checked c -> exists b, exec_raster c a = Ret b /\ safe a b.
Proof.
  intros Ha Hc. destruct c; cbn [raster_checked] in Hc; cbn [exec_raster]; try contradiction;
    try now apply PointParameterfv_safe.
  all: try (destruct params as [[? ?] ?]; now apply PointParameterfv_safe).
  all: eexists; (split; [reflexivity|]).
  all: unfold _mesa_LineWidth, _mesa_PointSize, _mesa_CullFace, _mesa_FrontFace, _mesa_PolygonMode,
         _mesa_PolygonOffset, _mesa_ViewportIndexedf, _mesa_ViewportIndexedfv, _mesa_DepthRangef,
         _mesa_DepthRangeIndexedfOES, _mesa_ConservativeRasterParameteriNV,
         _mesa_ConservativeRasterParameterfNV, _mesa_Fogf, _mesa_Fogi.
  all: try solve [auto with gl nocore | now apply Fogiv_safe | now apply Fogfv_safe].
  - unfold _mesa_PolygonOffsetClampEXT. repeat branch. auto with gl.
  - unfold _mesa_Viewport. branch; [apply safe_error|]. zbool. now apply viewport_safe.
  - apply ViewportArrayv_safe; tauto.
  - apply DepthRangeArrayv_safe; tauto.
  - apply DepthRangeArrayfvOES_safe; tauto.
  - unfold _mesa_ClipControl. repeat branch. auto with gl.
  - unfold _mesa_SampleMaski. repeat branch. auto with gl.
  - unfold _mesa_MinSampleShading. repeat branch. auto with gl.
Qed.

(** The entry points that validate their arguments, called with arguments of
    their C types: a [GLuint] is not negative, and the arrays passed hold the
    elements announced.  Two kinds of arguments that the validation lets pass
    are excluded: in [glScissorArrayv], [glViewportArrayv] and
    [glDepthRangeArrayv], a [first + count] that wraps around 32 bits; and a
    floating-point parameter that stands for an enumerant and is outside the
    range of the integer type it is converted to.  With them the arrays are
    overrun and the conversion is undefined. *)
Definition checked (c : gl_command) : Prop :=
  match c with
  | BlendFunc_no_error _ _ | BlendFuncSeparate_no_error _ _ _ _ | BlendFunci_no_error _ _ _
  | BlendFuncSeparatei_no_error _ _ _ _ _ | BlendEquationi_no_error _ _
  | BlendEquationSeparate_no_error _ _ | BlendEquationSeparatei_no_error _ _ _
  | LogicOp_no_error _ | DepthFunc_no_error _ | StencilFunc_no_error _ _ _
  | StencilOp_no_error _ _ _ | StencilOpSeparate_no_error _ _ _ _
  | StencilFuncSeparate_no_error _ _ _ _ | StencilMaskSeparate_no_error _ _
  | Scissor_no_error _ _ _ _ | ScissorArrayv_no_error _ _ _
  | ScissorIndexed_no_error _ _ _ _ _ | ScissorIndexedv_no_error _ _ => False
  | BlendFunci buf _ _ | BlendFuncSeparatei buf _ _ _ _ | BlendEquationi buf _
  | BlendEquationSeparatei buf _ _ | ColorMaski buf _ _ _ _ => 0 <= buf
  | ScissorIndexed i _ _ _ _ | ScissorIndexedv i _ => 0 <= i
  | ScissorArrayv f c v => 0 <= f /\ f + c < 2 ^ 32 /\ c <= Z.of_nat (length v)
  | WindowRectanglesEXT _ c b => c <= Z.of_nat (length b)
  | Raster c => raster_checked c
  | _ => True
  end.

#[export] Hint Resolve depth_func_safe DepthMask_safe DepthBounds_safe ClearDepth_safe ClearStencil_safe
  stencil_func_safe StencilMask_safe stencil_op_safe StencilFuncSeparateATI_safe ActiveStencilFace_safe
  stencil_op_separate_safe stencil_func_separate_safe stencil_mask_separate_safe Scissor_safe
  scissor_indexed_safe BlendFuncSeparate_safe blend_func_separatei_safe BlendEquation_safe
  blend_equation_separate_safe BlendColor_safe AlphaFunc_safe logic_op_safe IndexMask_safe
  ColorMask_safe ColorMaski_safe safe_error : gl.

Lemma BlendEquationi_safe buf m a : 0 <= buf -> safe a (_mesa_BlendEquationiARB buf m a).
Proof.
  intros Hb. apply with_legal. intros [(Hm & _) _ _ _ _ _ _]. unfold _mesa_BlendEquationiARB. cbv zeta.
  do 2 (branch; [apply safe_error|]). zbool. apply blend_equationi_safe; [lia|].
  unfold legal_equation. destruct (legal_simple_blend_equation _ _); [reflexivity | cbn in E0; now rewrite E0].
Qed.

Lemma BlendEquationSeparatei_safe buf x y a : 0 <= buf -> safe a (_mesa_BlendEquationSeparateiARB buf x y a).
Proof.
  intros Hb. apply with_legal. intros [(Hm & _) _ _ _ _ _ _]. unfold _mesa_BlendEquationSeparateiARB.
  branch; [apply safe_error|]. zbool. apply blend_equation_separatei_safe. lia.
Qed.

Lemma exec_safe c a : legal a -> checked c -> exists b, exec c a = Ret b /\ safe a b.
Proof.
  intros Ha Hc. destruct c; cbn [checked] in Hc; cbn [exec]; try contradiction;
    try solve [eexists; split; [reflexivity|];
               first [ solve [auto with gl nocore]
                     | apply (BlendFuncSeparate_safe s d s d)
                     | now apply BlendEquationi_safe | now apply BlendEquationSeparatei_safe
                     | now apply WindowRectangles_safe
                     | now apply (blend_func_separatei_safe buf)
                     | apply blend_equation_separate_safe | apply logic_op_safe | apply depth_func_safe
                     | apply ClearDepth_safe | now apply (scissor_indexed_safe index) ]].
  - now apply ClampColor_safe.
  - eexists. split; [reflexivity|]. unfold _mesa_StencilFunc. branch; auto with gl. zbool. auto with gl.
  - eexists. split; [reflexivity|]. unfold _mesa_StencilOp. repeat branch. zbool. auto with gl.
  - eexists. split; [reflexivity|]. unfold _mesa_StencilOpSeparate. repeat branch. zbool. auto with gl.
  - eexists. split; [reflexivity|]. unfold _mesa_StencilFuncSeparate. repeat branch. zbool. auto with gl.
  - eexists. split; [reflexivity|]. unfold _mesa_StencilMaskSeparate. repeat branch. auto with gl.
  - eexists. split; [reflexivity|]. apply ScissorArrayv_safe; tauto.
  - now apply exec_raster_safe.
Qed.

Lemma exec_all_safe cs : forall a, legal a -> Forall checked cs ->
  exists b, exec_all cs a = Ret b /\ legal b /\ env b = env a /\
    exists t, Trace b = Trace a ++ t /\ Forall in_bounds t.
Proof.
  induction cs as [|c cs IH]; intros a Ha Hcs; cbn [exec_all].
  - exists a. split; [reflexivity|]. split; [assumption|]. split; [reflexivity|]. exists []. now rewrite app_nil_r.
  - inversion_clear Hcs as [|? ? Hc Hcs']. destruct (exec_safe c a Ha Hc) as (m & -> & Hm).
    destruct (Hm Ha) as (Hlm & Em & t & Ht & Hbt).
    destruct (IH m Hlm Hcs') as (b & Hb & Hlb & Eb & t' & Ht' & Hbt').
    exists b. cbn [obind]. split; [assumption|]. split; [assumption|]. split; [congruence|].
    exists (t ++ t'). rewrite Ht', Ht, app_assoc. split; [reflexivity | now apply Forall_app].
Qed.
