(* ===== verification/GlProps.v ===== *)
(** * Properties of the entry points that set state

    A new context is legal; the witnesses of the theorems of GlState; single
    entry points of blend.c, scissor.c, viewport.c and lines.c; and what the
    setters do that their contracts do not allow. *)

From Stdlib Require Import Bool ZArith List Lia SpecFloat.
From S2P Require Import Prelude GlContext GlSteps GlFloat GlDepth GlStencil GlScissor GlBlend.
From S2P Require Import GlPrimitive GlViewport GlFog GlRaster GlState GlLegal GlLegalRaster.
Import ListNotations.
#[local] Open Scope bool_scope.
#[local] Open Scope Z_scope.
#[local] Open Scope c_scope.

(** ** A new context *)

Definition zero_attribs : gl_attribs :=
  let z4 := Vec4 f32_0 f32_0 f32_0 f32_0 in
  Attribs
    (ColorbufferAttrib 0 z4 0 0 0 false 0 f32_0 f32_0 0 z4 z4 (repeat blend0 MAX_DRAW_BUFFERS)
       false false 0 false false false 0 0 false false 0 0 false)
    (DepthbufferAttrib 0 f64_0 false 0 false f32_0 f32_0)
    (StencilAttrib false false 0 0 [0; 0; 0] [0; 0; 0] [0; 0; 0] [0; 0; 0] [0; 0; 0] [0; 0; 0] [0; 0; 0] 0)
    (ScissorAttrib 0 (repeat rect0 MAX_VIEWPORTS) 0 0 (repeat rect0 MAX_WINDOW_RECTANGLES))
    (LightAttrib 0 false)
    (LineAttrib false false 0 0 f32_0)
    (PointAttrib f32_0 (Vec3 f32_0 f32_0 f32_0) f32_0 f32_0 f32_0 false false false 0 0 0)
    (PolygonAttrib 0 0 0 false false false 0 f32_0 f32_0 f32_0 false false false)
    (repeat viewport0 MAX_VIEWPORTS)
    (TransformAttrib 0 0)
    (MultisampleAttrib false false false false 0 false false f32_0 f32_0 0)
    (HintAttrib 0 0 0 0 0 0 0 0)
    (FogAttrib false false 0 0 z4 z4 f32_0 f32_0 f32_0 f32_0 0 0 0)
    (ConservativeParams (0, 0) f32_0 0).

(** The context as allocated, all zero. *)
Definition zero_context (e : gl_env) : gl_context :=
  Context e None 0 0 0 GL_NO_ERROR zero_attribs zero_attribs [].

(** The two members of the lighting state that are modelled. *)
Definition init_light_clamp (ctx : gl_context) : gl_context :=
  let b := gl_api_eqb (API (env ctx)) API_OPENGL_COMPAT in
  upd_Light (fun l => l <| ClampVertexColor := if b then 1 else 0 |> <| _ClampVertexColor := b |>) ctx.

(** The calls of [init_attrib_groups] for the modelled groups, in order. *)
Definition init_context (e : gl_env) : gl_context :=
  let ctx := zero_context e in
  let ctx := _mesa_init_color ctx in
  let ctx := _mesa_init_conservative_raster ctx in
  let ctx := _mesa_init_depth ctx in
  let ctx := _mesa_init_fog ctx in
  let ctx := _mesa_init_hint ctx in
  let ctx := _mesa_init_line ctx in
  let ctx := init_light_clamp ctx in
  let ctx := _mesa_init_multisample ctx in
  let ctx := _mesa_init_point ctx in
  let ctx := _mesa_init_polygon ctx in
  let ctx := _mesa_init_scissor ctx in
  let ctx := _mesa_init_stencil ctx in
  _mesa_init_viewport ctx.

(** A driver with a flag for every group, in a compatibility context. *)
Definition sample_env : gl_env :=
  Env API_OPENGL_COMPAT 45 45 true true true true true true true
    true true true true true true true true true true true true true true true true 8 16 8
    f32_1 f32_1 16384 16384 (float_of_int (-32768), float_of_int 32767) 0 8 (f32_0, f32_1)
    1 2 4 8 16 32 64 128 256 512 1024 2048 4096 8192 16384 32768
    true true true true true true true true true true true true
    true true true true true true true true true true true true false.

Lemma sample_env_wf : env_wf sample_env.
Proof. repeat split; vm_compute; congruence. Qed.

Lemma Forall_firstn' {A} (P : A -> Prop) n l : Forall P l -> Forall P (firstn n l).
Proof. intros H. rewrite <- (firstn_skipn n l) in H. now apply Forall_app in H. Qed.

(** The attributes of a new context, evaluated. *)
Lemma init_attribs e :
  exists dbuf clampf_ clampv srgb cv,
    legal_clamp clampf_ = true /\ legal_clamp clampv = true /\
    Attr (init_context e) =
    Attribs
      (ColorbufferAttrib 0 (Vec4 f32_0 f32_0 f32_0 f32_0) (2 ^ 32 - 1) 0xffffffff dbuf false GL_ALWAYS
         f32_0 f32_0 0 (Vec4 f32_0 f32_0 f32_0 f32_0) (Vec4 f32_0 f32_0 f32_0 f32_0)
         (repeat (BlendAttrib GL_ONE GL_ZERO GL_ONE GL_ZERO GL_FUNC_ADD GL_FUNC_ADD false) MAX_DRAW_BUFFERS)
         false false 0 true false false GL_COPY COLOR_LOGICOP_COPY true false clampf_ GL_FIXED_ONLY_ARB srgb)
      (DepthbufferAttrib GL_LESS f64_1 false 1 false f32_0 f32_0)
      (StencilAttrib false false 0 1 (repeat GL_ALWAYS 3) (repeat GL_KEEP 3) (repeat GL_KEEP 3)
         (repeat GL_KEEP 3) (repeat 0 3) (repeat 0xFF 3) (repeat 0xFF 3) 0)
      (ScissorAttrib 0 (repeat rect0 MAX_VIEWPORTS) 0 GL_EXCLUSIVE_EXT (repeat rect0 MAX_WINDOW_RECTANGLES))
      (LightAttrib clampv cv)
      (LineAttrib false false 0xffff 1 f32_1)
      (PointAttrib f32_1 (Vec3 f32_1 f32_0 f32_0) f32_0 (MAX2 (MaxPointSize e) (MaxPointSizeAA e)) f32_1
         false false (gl_api_eqb (API e) API_OPENGL_CORE || gl_api_eqb (API e) API_OPENGLES2) 0
         GL_ZERO GL_UPPER_LEFT)
      (PolygonAttrib GL_CCW GL_FILL GL_FILL false false false GL_BACK f32_0 f32_0 f32_0 false false false)
      (repeat (ViewportAttrib f32_0 f32_0 f32_0 f32_0 f32_0 f32_1) MAX_VIEWPORTS)
      (TransformAttrib GL_LOWER_LEFT GL_NEGATIVE_ONE_TO_ONE)
      (MultisampleAttrib true false false false 0 false false f32_1 f32_0 0xffffffff)
      (HintAttrib GL_DONT_CARE GL_DONT_CARE GL_DONT_CARE GL_DONT_CARE GL_DONT_CARE GL_DONT_CARE
         GL_DONT_CARE GL_DONT_CARE)
      (FogAttrib false false FOG_EXP FOG_NONE (Vec4 f32_0 f32_0 f32_0 f32_0) (Vec4 f32_0 f32_0 f32_0 f32_0)
         f32_1 f32_0 f32_1 f32_0 GL_EXP GL_FRAGMENT_DEPTH_EXT GL_EYE_PLANE_ABSOLUTE_NV)
      (ConservativeParams (0, 0) f32_0 GL_CONSERVATIVE_RASTER_MODE_POST_SNAP_NV).
Proof.
  exists (if doubleBufferMode e || _mesa_is_gles e then GL_BACK else GL_FRONT),
    (if gl_api_eqb (API e) API_OPENGL_COMPAT then GL_FIXED_ONLY_ARB else GL_FALSE),
    (if gl_api_eqb (API e) API_OPENGL_COMPAT then 1 else 0), (_mesa_is_gles e),
    (gl_api_eqb (API e) API_OPENGL_COMPAT).
  split; [destruct (gl_api_eqb _ _); reflexivity|]. split; [destruct (gl_api_eqb _ _); reflexivity|].
  reflexivity.
Qed.

Lemma Forall_repeat {A} (P : A -> Prop) x n : P x -> Forall P (repeat x n).
Proof. intros H. apply Forall_forall. intros y Hy. apply repeat_spec in Hy. now subst. Qed.

Lemma init_raster_legal e : env_wf e -> legal_raster e (Attr (init_context e)).
Proof.
  intros (_ & _ & _ & (Hw & Hh & Hb) & (Hp & Hpa) & _).
  assert (Hmax : SFltb (MAX2 (MaxPointSize e) (MaxPointSizeAA e)) f32_0 = false)
    by (unfold MAX2; destruct (SFltb (MaxPointSizeAA e) (MaxPointSize e)); assumption).
  destruct (init_attribs e) as (db & cf & cv & sr & lv & _ & _ & ->).
  unfold legal_raster; cbn [Line Point Polygon ViewportArray Transform Multisample Hint_ Fog Conservative].
  repeat match goal with |- _ /\ _ => split end.
  - constructor; cbn; [reflexivity | reflexivity | lia].
  - constructor; try reflexivity. split; [reflexivity|]. split; [exact Hmax | reflexivity].
  - constructor; repeat split.
  - split; [reflexivity|]. apply Forall_repeat. constructor; cbn.
    + split; [reflexivity | now apply float_of_int_nonneg].
    + split; [reflexivity | now apply float_of_int_nonneg].
    + split; [now exists f64_0 | now exists f64_1].
  - split; reflexivity.
  - split; split; reflexivity.
  - repeat constructor.
  - constructor; reflexivity.
  - repeat split; cbn; lia.
Qed.

Lemma init_legal e : env_wf e -> legal (init_context e).
Proof.
  intros Hwf. pose proof Hwf as (_ & _ & Hw & _).
  assert (Ee : env (init_context e) = e) by (vm_compute; reflexivity).
  destruct (init_attribs e) as (db & cf & cv & sr & lv & Hcf & Hcv & Ea).
  constructor; rewrite ?Ee, ?Ea; cbn [Color Depth Stencil Scissor Light ClampVertexColor]; auto.
  - constructor; cbn [Blend LogicOp _LogicOp AlphaFunc AlphaRef AlphaRefUnclamped BlendColor
      BlendColorUnclamped ClampFragmentColor ClampReadColor]; auto.
    + apply Forall_repeat. constructor; [vm_compute | split; vm_compute |]; reflexivity.
    + intros _. apply Forall_firstn', Forall_repeat. reflexivity.
    + intros _. apply Forall_firstn', Forall_repeat. reflexivity.
    + apply no_advanced.
  - reflexivity.
  - constructor; cbn [ActiveFace Function_ FailFunc ZPassFunc ZFailFunc]; auto using Forall_repeat.
    repeat split.
  - constructor; cbn [ScissorArray WindowRects NumWindowRects WindowRectMode]; auto.
    + apply Forall_repeat. split; cbn; lia.
    + lia.
  - rewrite <- Ea. now apply init_raster_legal.
Qed.

(** C22: commands that validate their arguments, on a new context.  Leaving
    out the arguments that [checked] names (a [first + count] that wraps, and
    floats for enumerants out of the range of their type, for which
    [ScissorArrayv_overruns], [ViewportArrayv_overruns] and
    [PointParameteri_is_undefined] show the opposite), no assertion fails, no
    array of the context is overrun, no conversion is undefined, and the state
    stays legal: every stored enumerant and number is one its setter accepts;
    [_UsesDualSrc], [_LogicOp], the clamped alpha reference and blend colour,
    [_Attenuated] and the packed fog modes agree with what they derive from;
    [_AdvancedBlendMode] is a mode the context supports, though not always that
    of the equation in force ([AdvancedBlendMode_lost]); and the flags that
    allow looking at buffer 0 only are set only while all active buffers
    agree. *)
Theorem checked_commands_keep_state_legal e cs :
  env_wf e -> Forall checked cs ->
  exists b, exec_all cs (init_context e) = Ret b /\ legal b /\ Forall in_bounds (Trace b).
Proof.
  intros He Hcs. destruct (exec_all_safe cs _ (init_legal e He) Hcs) as (b & Hb & Hl & _ & t & Ht & Hi).
  exists b. split; [assumption|]. split; [assumption|]. now rewrite Ht.
Qed.

Lemma checked_commands_keep_state_legal_witness :
  exists b, exec_all [BlendFunc_ GL_SRC_ALPHA GL_ONE; ScissorIndexed 3 1 2 30 40; Raster (Viewport 0 0 640 480);
                      BlendEquation_ 7]
              (init_context sample_env) = Ret b /\ legal b /\ Forall in_bounds (Trace b).
Proof.
  apply checked_commands_keep_state_legal; [apply sample_env_wf|].
  repeat constructor. cbn. lia.
Defined.

(** A context in which vertices wait to be drawn. *)
Definition sample_context : gl_context := (init_context sample_env) <| NeedFlush := 1 |>.

Lemma erroneous_command_has_no_effect_witness :
  let b := _mesa_BlendFunc 0x1234 GL_ONE sample_context in
  (exists e, b = _mesa_error e sample_context) \/
  (ErrorValue b = ErrorValue sample_context /\
   exists t, Trace b = Trace sample_context ++ t /\ Forall not_error t).
Proof.
  intros b. apply (erroneous_command_has_no_effect (BlendFunc_ 0x1234 GL_ONE)). reflexivity.
Defined.

Lemma stored_vertices_keep_their_state_witness :
  exists b t, exec_all [DepthMask_ 0; Raster (CullFace GL_FRONT)] sample_context = Ret b /\
    Trace b = Trace sample_context ++ t /\
    (In (EvDraw (rendering (Attr sample_context))) t \/
     (rendering (Attr b) = rendering (Attr sample_context) /\ vertices_stored b)).
Proof.
  destruct (exec_all [DepthMask_ 0; Raster (CullFace GL_FRONT)] sample_context) as [b| |] eqn:E;
    [|discriminate..].
  destruct (stored_vertices_keep_their_state [DepthMask_ 0; Raster (CullFace GL_FRONT)] sample_context b)
    as (t & Ht & Hd); [repeat constructor | vm_compute; congruence | exact E |].
  exists b, t. auto.
Defined.

(** The sample context, seen by the driver as it is. *)
Definition sample_synced : gl_context := sample_context <| Validated := rendering (Attr sample_context) |>.

Lemma validated_now g c : synced g (c <| Validated := rendering (Attr c) |>).
Proof. now apply validated_synced. Qed.

Lemma driver_is_told_of_changes_witness :
  exists b, exec_all [LogicOp_ GL_XOR; BlendEquation_ GL_FUNC_ADD; Raster (SubpixelPrecisionBiasNV 3 4)] sample_synced = Ret b /\
    synced G_LogicOp b /\ synced G_Conservative b /\ synced G_AdvancedBlend b.
Proof.
  destruct (exec_all [LogicOp_ GL_XOR; BlendEquation_ GL_FUNC_ADD; Raster (SubpixelPrecisionBiasNV 3 4)] sample_synced)
    as [b| |] eqn:E; [|discriminate..].
  exists b. split; [reflexivity|].
  assert (H : forall g, synced g b); [|repeat split; apply H]. intros g.
  apply (driver_is_told_of_changes g [LogicOp_ GL_XOR; BlendEquation_ GL_FUNC_ADD; Raster (SubpixelPrecisionBiasNV 3 4)] sample_synced b).
  - intros c [<-|[<-|[<-|[]]]]; exact (fun H => H).
  - apply validated_now.
  - exact E.
Defined.

(** ** The no-change shortcut hides no error *)

Lemma same_factors_true s d sa da b : same_factors s d sa da b = true -> factors_of b = (s, d, sa, da).
Proof. unfold same_factors, factors_of. intros H. zbool. congruence. Qed.

Lemma same_equations_true x y b : same_equations x y b = true -> equations_of b = (x, y).
Proof. unfold same_equations, equations_of. intros H. zbool. congruence. Qed.

(** The buffer the shortcuts look at. *)
Lemma blend_at_0_legal a : legal a -> legal_blend (env a) (blend_at 0 a).
Proof.
  intros [_ [Hl Hb _ _ _ _ _ _ _] _ _ _ _ _]. unfold blend_at, nth_Z.
  rewrite Forall_forall in Hb. apply Hb, nth_In. rewrite Hl. unfold MAX_DRAW_BUFFERS. lia.
Qed.

Lemma all_buffers_first p a :
  legal a -> all_buffers (num_buffers (env a)) p a = true -> p (blend_at 0 a) = true.
Proof.
  intros [Hwf Hc _ _ _ _ _] H. pose proof (num_buffers_range _ Hwf) as Hn.
  pose proof (blend_nonempty _ _ Hc) as Hne. unfold all_buffers in H. unfold blend_at, nth_Z. cbn [Z.to_nat].
  destruct (Blend (Color (Attr a))) as [|b l]; [contradiction|].
  replace (Z.to_nat (num_buffers (env a))) with (S (Z.to_nat (num_buffers (env a) - 1))) in H by lia.
  cbn in H. now apply andb_true_iff in H.
Qed.

Lemma skip_factors s d sa da a :
  legal a -> skip_blend_state_update s d sa da a = true -> factors_of (blend_at 0 a) = (s, d, sa, da).
Proof.
  intros Ha. unfold skip_blend_state_update.
  destruct (_BlendFuncPerBuffer _); intros H; apply same_factors_true; auto using all_buffers_first.
Qed.

Lemma skip_legal_factors s d sa da a :
  legal a -> skip_blend_state_update s d sa da a = true -> legal_factors (env a) s d sa da = true.
Proof.
  intros Ha H. pose proof (skip_factors s d sa da a Ha H) as E.
  destruct (blend_at_0_legal a Ha) as [Hf _ _]. unfold factors_of in E. congruence.
Qed.

Lemma unchanged_legal_equations x y a :
  legal a -> equations_changed x y a = false -> legal_equation (env a) x = true /\ legal_equation (env a) y = true.
Proof.
  intros Ha H. assert (E : equations_of (blend_at 0 a) = (x, y)).
  { unfold equations_changed in H. destruct (_BlendEquationPerBuffer _); apply negb_false_iff in H;
      apply same_equations_true; auto using all_buffers_first. }
  destruct (blend_at_0_legal a Ha) as [_ He _]. unfold equations_of in E. now inversion E; subst.
Qed.

(** In a legal context each of these checked entry points raises exactly
    the error its arguments deserve, although it returns early when the state
    would not change before it looks at the arguments: with illegal arguments
    it raises [GL_INVALID_ENUM], with legal ones it does what its [_no_error]
    twin does. *)
Theorem early_return_hides_no_error a :
  legal a ->
  (forall s d sa da, _mesa_BlendFuncSeparate s d sa da a =
     if legal_factors (env a) s d sa da then _mesa_BlendFuncSeparate_no_error s d sa da a
     else _mesa_error GL_INVALID_ENUM a) /\
  (forall s d, _mesa_BlendFunc s d a =
     if legal_factors (env a) s d s d then _mesa_BlendFunc_no_error s d a
     else _mesa_error GL_INVALID_ENUM a) /\
  (forall m, legal_equation (env a) m = false -> _mesa_BlendEquation m a = _mesa_error GL_INVALID_ENUM a) /\
  (forall f, _mesa_DepthFunc f a =
     if legal_depth_func f then _mesa_DepthFunc_no_error f a else _mesa_error GL_INVALID_ENUM a) /\
  (forall op, _mesa_LogicOp op a =
     if legal_logic_op op then _mesa_LogicOp_no_error op a else _mesa_error GL_INVALID_ENUM a).
Proof.
  intros Ha.
  assert (HB : forall s d sa da, _mesa_BlendFuncSeparate s d sa da a =
     if legal_factors (env a) s d sa da then _mesa_BlendFuncSeparate_no_error s d sa da a
     else _mesa_error GL_INVALID_ENUM a).
  { intros. unfold _mesa_BlendFuncSeparate, _mesa_BlendFuncSeparate_no_error.
    rewrite validate_blend_factors_spec. destruct (skip_blend_state_update _ _ _ _ _) eqn:Es.
    - now rewrite (skip_legal_factors _ _ _ _ _ Ha Es).
    - destruct (legal_factors _ _ _ _ _); reflexivity. }
  split; [exact HB|]. split; [intros s d; exact (HB s d s d)|]. split; [|split].
  - intros m Hm. unfold _mesa_BlendEquation. cbv zeta. destruct (equations_changed m m a) eqn:Ec.
    + unfold legal_equation in Hm. apply orb_false_iff in Hm. destruct Hm as [-> H2].
      apply negb_false_iff in H2. now rewrite H2.
    + destruct (unchanged_legal_equations _ _ _ Ha Ec). congruence.
  - intros f. unfold _mesa_DepthFunc, _mesa_DepthFunc_no_error, depth_func. cbn [negb andb].
    destruct (Z.eqb_spec (Func (Depth (Attr a))) f) as [<-|].
    + now rewrite (lg_depth _ Ha).
    + destruct (legal_depth_func f); reflexivity.
  - intros op. unfold _mesa_LogicOp, _mesa_LogicOp_no_error, logic_op. cbn [negb andb].
    destruct (Z.eqb_spec (LogicOp (Color (Attr a))) op) as [<-|].
    + now rewrite (proj1 (lc_logic _ _ (lg_color _ Ha))).
    + destruct (legal_logic_op op); reflexivity.
Qed.

Lemma early_return_hides_no_error_witness :
  exists a, legal a /\ _mesa_LogicOp 0x1234 a = _mesa_error GL_INVALID_ENUM a.
Proof.
  exists (init_context sample_env). pose proof (init_legal _ sample_env_wf) as Hl. split; [exact Hl|].
  revert Hl. generalize (init_context sample_env). intros a Hl.
  destruct (early_return_hides_no_error a Hl) as (_ & _ & _ & _ & H). exact (H 0x1234).
Defined.

(** ** What [glBlendFuncSeparate] does to the buffers *)

Lemma nth_map_front {A} (d : A) n f l i :
  (i < length l)%nat -> nth i (map_front n f l) d = if (i <? n)%nat then f (nth i l d) else nth i l d.
Proof.
  intros Hi. unfold map_front. destruct (Nat.ltb_spec i n).
  - rewrite app_nth1 by (rewrite length_map, length_firstn; lia).
    rewrite (nth_indep _ d (f d)) by (rewrite length_map, length_firstn; lia).
    rewrite map_nth. f_equal. rewrite <- (firstn_skipn n l) at 2.
    rewrite app_nth1 by (rewrite length_firstn; lia). reflexivity.
  - rewrite app_nth2 by (rewrite length_map, length_firstn; lia).
    rewrite length_map, length_firstn. rewrite <- (firstn_skipn n l) at 3.
    rewrite app_nth2 by (rewrite length_firstn; lia). f_equal. rewrite length_firstn. reflexivity.
Qed.

Lemma call_driver_attr has d a : Attr (call_driver has d a) = Attr a.
Proof. unfold call_driver. destruct (has _); reflexivity. Qed.

(** If the call is skipped, every active buffer already holds the factors. *)
Lemma skip_all_buffers s d sa da a i :
  legal a -> skip_blend_state_update s d sa da a = true -> 0 <= i < num_buffers (env a) ->
  factors_of (blend_at i a) = (s, d, sa, da).
Proof.
  intros Ha Hs Hi. pose proof Ha as [Hwf [Hl _ Hu _ _ _ _ _ _] _ _ _ _ _].
  pose proof (num_buffers_range _ Hwf) as Hn.
  assert (Hin : In (blend_at i a) (firstn (Z.to_nat (num_buffers (env a))) (Blend (Color (Attr a))))).
  { unfold blend_at, nth_Z. rewrite <- (firstn_skipn (Z.to_nat (num_buffers (env a))) (Blend _)) at 1.
    rewrite app_nth1 by (rewrite length_firstn, Hl; lia). apply nth_In. rewrite length_firstn, Hl. lia. }
  pose proof (skip_factors _ _ _ _ _ Ha Hs) as E0.
  unfold skip_blend_state_update in Hs. destruct (_BlendFuncPerBuffer _).
  - unfold all_buffers in Hs. rewrite forallb_forall in Hs. apply same_factors_true. auto.
  - specialize (Hu eq_refl). unfold uniform in Hu. rewrite Forall_forall in Hu. rewrite (Hu _ Hin). exact E0.
Qed.

(** After [glBlendFuncSeparate] with legal factors, whether or not the
    call was cut short, every active buffer holds the new factors and a
    correct [_UsesDualSrc]; the equations of all buffers and the whole state
    of the inactive ones are as before. *)
Theorem BlendFuncSeparate_sets_active_buffers a s d sa da :
  legal a -> legal_factors (env a) s d sa da = true ->
  let b := _mesa_BlendFuncSeparate s d sa da a in
  (forall i, 0 <= i < num_buffers (env a) ->
     factors_of (blend_at i b) = (s, d, sa, da) /\
     equations_of (blend_at i b) = equations_of (blend_at i a) /\
     _UsesDualSrc (blend_at i b) = uses_dual_src (blend_at i b)) /\
  (forall i, num_buffers (env a) <= i < Z.of_nat MAX_DRAW_BUFFERS -> blend_at i b = blend_at i a).
Proof.
  intros Ha Hf b. unfold b, _mesa_BlendFuncSeparate. rewrite validate_blend_factors_spec, Hf. cbn [negb].
  pose proof Ha as [Hwf Hc _ _ _ _ _]. pose proof (num_buffers_range _ Hwf) as Hn.
  destruct (skip_blend_state_update s d sa da a) eqn:Es.
  - split; [|reflexivity]. intros i Hi. split; [now apply skip_all_buffers|]. split; [reflexivity|].
    destruct Hc as [Hl Hb _ _ _ _ _ _ _]. rewrite Forall_forall in Hb.
    apply (lb_dual (env a)), Hb, nth_In. rewrite Hl. lia.
  - pose proof (blend_nonempty _ _ Hc) as Hne.
    destruct (blend_func_separate_spec s d sa da a ltac:(lia) Hne) as (f & Hfl & ->).
    unfold blend_at, nth_Z. rewrite call_driver_attr.
    change (Blend (Color (Attr (upd_Color ?g f)))) with (Blend (g (Color (Attr f)))). cbn [Blend update].
    rewrite (fl_attr _ _ _ Hfl). destruct Hc as [Hl _ _ _ _ _ _ _ _].
    split; intros i Hi; rewrite nth_map_front by (rewrite Hl; lia).
    + destruct (Nat.ltb_spec (Z.to_nat i) (Z.to_nat (num_buffers (env a)))); [|lia].
      split; [now apply (factors_stored (env a)) | split; reflexivity].
    + destruct (Nat.ltb_spec (Z.to_nat i) (Z.to_nat (num_buffers (env a)))); [lia | reflexivity].
Qed.

Lemma BlendFuncSeparate_sets_active_buffers_witness :
  factors_of (blend_at 5 (_mesa_BlendFuncSeparate GL_SRC1_ALPHA GL_ONE GL_ZERO GL_DST_COLOR
                            (init_context sample_env))) = (GL_SRC1_ALPHA, GL_ONE, GL_ZERO, GL_DST_COLOR).
Proof.
  destruct (BlendFuncSeparate_sets_active_buffers (init_context sample_env)
              GL_SRC1_ALPHA GL_ONE GL_ZERO GL_DST_COLOR (init_legal _ sample_env_wf) eq_refl) as [H _].
  apply H. vm_compute. split; congruence.
Defined.

(** ** Colour masks *)

Lemma GET_COLORMASK_bits m buf i :
  0 <= buf -> 0 <= i -> Z.testbit (GET_COLORMASK m buf) i = Z.testbit m (i + 4 * buf) && (i <? 4).
Proof.
  intros Hb Hi. unfold GET_COLORMASK. rewrite Z.land_spec, Z.shiftr_spec by lia. f_equal.
  change 0xf with (Z.ones 4). destruct (Z.ltb_spec i 4).
  - apply Z.ones_spec_low. lia.
  - apply Z.ones_spec_high. lia.
Qed.

Lemma nibble_high mask i : 0 <= mask < 16 -> 4 <= i -> Z.testbit mask i = false.
Proof.
  intros Hm Hi. apply (Z.mod_small mask (2 ^ 4)) in Hm. rewrite <- Hm. apply Z.mod_pow2_bits_high. lia.
Qed.

Lemma shifted_bits mask buf i :
  0 <= mask < 16 -> 0 <= buf < 8 -> 0 <= i ->
  Z.testbit (u32 (Z.shiftl mask (4 * buf))) i = (4 * buf <=? i) && Z.testbit mask (i - 4 * buf).
Proof.
  intros Hm Hb Hi. unfold wrap. destruct (Z.ltb_spec i 32).
  - rewrite Z.mod_pow2_bits_low, Z.shiftl_spec by lia. destruct (Z.leb_spec (4 * buf) i); [reflexivity|].
    rewrite Z.testbit_neg_r by lia. reflexivity.
  - rewrite Z.mod_pow2_bits_high by lia. symmetry. apply andb_false_iff. right. apply nibble_high; lia.
Qed.

Lemma pack_mask_range r g b al : 0 <= pack_mask r g b al < 16.
Proof.
  unfold pack_mask, b2z. destruct (r =? 0), (g =? 0), (b =? 0), (al =? 0); vm_compute; split; congruence.
Qed.

(** Equality of 4-bit masks from equality of their bits. *)
Lemma nibble_eq x y : 0 <= y < 16 -> (forall i, 0 <= i -> Z.testbit x i = Z.testbit y i && (i <? 4)) -> x = y.
Proof.
  intros Hy H. apply Z.bits_inj'. intros i Hi. rewrite H by assumption. destruct (Z.ltb_spec i 4).
  - apply andb_true_r.
  - now rewrite andb_false_r, nibble_high.
Qed.

Lemma replicate_bits mask n i :
  0 <= mask < 16 -> (n <= 8)%nat -> 0 <= i ->
  Z.testbit (fold_left (fun m k => Z.lor m (u32 (Z.shiftl mask (Z.of_nat k * 4)))) (seq 1 (n - 1)) mask) i =
  existsb (fun k => (4 * Z.of_nat k <=? i) && Z.testbit mask (i - 4 * Z.of_nat k)) (seq 0 (Nat.max n 1)).
Proof.
  intros Hm Hn Hi.
  assert (H0 : Z.testbit mask i = (4 * Z.of_nat 0 <=? i) && Z.testbit mask (i - 4 * Z.of_nat 0)).
  { change (4 * Z.of_nat 0) with 0. rewrite Z.sub_0_r. destruct (Z.leb_spec 0 i); [reflexivity|lia]. }
  destruct n as [|n]; [cbn [seq Nat.max Nat.sub fold_left existsb]; now rewrite orb_false_r|].
  replace (Nat.max (S n) 1) with (S n) by lia. replace (S n - 1)%nat with n by lia.
  induction n as [|n IH]; [cbn [seq fold_left existsb]; now rewrite orb_false_r|].
  rewrite (seq_S n 1), fold_left_app. rewrite (seq_S (S n) 0), existsb_app. cbn [fold_left existsb].
  rewrite Z.lor_spec, IH by lia. f_equal.
  rewrite (Z.mul_comm _ 4), shifted_bits by lia. rewrite orb_false_r. reflexivity.
Qed.

Lemma replicate_get mask n buf :
  0 <= mask < 16 -> 1 <= n <= 8 -> 0 <= buf < n -> GET_COLORMASK (_mesa_replicate_colormask mask n) buf = mask.
Proof.
  intros Hp Hn Hb. apply nibble_eq; [assumption|]. intros i Hi. rewrite GET_COLORMASK_bits by lia.
  destruct (Z.ltb_spec i 4); [rewrite !andb_true_r | now rewrite !andb_false_r].
  unfold _mesa_replicate_colormask. rewrite replicate_bits by (try assumption; lia).
  apply eq_iff_eq_true. rewrite existsb_exists. split.
  - intros (k & Hk & Hbit). apply andb_true_iff in Hbit. destruct Hbit as [Hle Hbit]. zbool.
    apply in_seq in Hk. destruct (Z.eq_dec (Z.of_nat k) buf) as [<-|Hne].
    + now replace (i + 4 * Z.of_nat k - 4 * Z.of_nat k) with i in Hbit by lia.
    + rewrite nibble_high in Hbit by lia. discriminate.
  - intros Hbit. exists (Z.to_nat buf). split; [apply in_seq; lia|].
    rewrite Z2Nat.id by lia. replace (i + 4 * buf - 4 * buf) with i by lia.
    rewrite Hbit. destruct (Z.leb_spec (4 * buf) (i + 4 * buf)); [reflexivity|lia].
Qed.

(** Replacing one nibble. *)
Lemma replace_nibble_get old mask buf i :
  0 <= mask < 16 -> 0 <= buf < 8 -> 0 <= i < 8 ->
  GET_COLORMASK (Z.lor (Z.ldiff old (u32 (Z.shiftl 15 (4 * buf)))) (u32 (Z.shiftl mask (4 * buf)))) i =
  if i =? buf then mask else GET_COLORMASK old i.
Proof.
  intros Hp Hb Hi. apply Z.bits_inj'. intros j Hj.
  rewrite GET_COLORMASK_bits, Z.lor_spec, Z.ldiff_spec, !shifted_bits by lia.
  destruct (Z.ltb_spec j 4); [rewrite andb_true_r|rewrite andb_false_r].
  - destruct (Z.eqb_spec i buf) as [->|Hne].
    + destruct (Z.leb_spec (4 * buf) (j + 4 * buf)); [|lia].
      replace (j + 4 * buf - 4 * buf) with j by lia. change 15 with (Z.ones 4).
      rewrite Z.ones_spec_low by lia. cbn. now rewrite andb_false_r.
    + rewrite GET_COLORMASK_bits by lia. destruct (Z.ltb_spec j 4); [rewrite andb_true_r|lia].
      destruct (Z.leb_spec (4 * buf) (j + 4 * i)); [|cbn; now rewrite andb_true_r, orb_false_r].
      rewrite (nibble_high 15), (nibble_high mask) by lia. cbn. now rewrite andb_true_r, orb_false_r.
  - symmetry. destruct (i =? buf); [apply nibble_high; lia|]. rewrite GET_COLORMASK_bits by lia.
    destruct (Z.ltb_spec j 4); [lia | apply andb_false_r].
Qed.

(** [glColorMask] gives every draw buffer the mask of its arguments;
    [glColorMaski] gives it to one buffer and leaves the others alone. *)
Theorem ColorMask_correct a red green blue alpha :
  env_wf (env a) ->
  (forall buf, 0 <= buf < MaxDrawBuffers (env a) ->
     GET_COLORMASK (ColorMask (Color (Attr (_mesa_ColorMask red green blue alpha a)))) buf =
     pack_mask red green blue alpha) /\
  (forall buf i, 0 <= buf < MaxDrawBuffers (env a) -> 0 <= i < 8 ->
     GET_COLORMASK (ColorMask (Color (Attr (_mesa_ColorMaski buf red green blue alpha a)))) i =
     if i =? buf then pack_mask red green blue alpha else GET_COLORMASK (ColorMask (Color (Attr a))) i).
Proof.
  intros (Hmax & _). change (Z.of_nat MAX_DRAW_BUFFERS) with 8 in Hmax.
  pose proof (pack_mask_range red green blue alpha) as Hp. split.
  - intros buf Hb. unfold _mesa_ColorMask. cbv zeta.
    match goal with |- context [if ?x =? ?y then _ else _] => destruct (Z.eqb_spec x y) as [->|] end;
      [|rewrite call_driver_attr]; apply replicate_get; lia.
  - intros buf i Hb Hi. unfold _mesa_ColorMaski. cbv zeta.
    destruct (Z.geb_spec buf (MaxDrawBuffers (env a))); [lia|].
    match goal with |- context [if GET_COLORMASK ?x ?y =? ?z then _ else _] =>
      destruct (Z.eqb_spec (GET_COLORMASK x y) z) as [Ec|] end.
    { destruct (Z.eqb_spec i buf) as [->|]; auto. }
    pose proof (flush_for_flushed G_ColorMask a ltac:(discriminate)) as Hf. cbn [flag_of bit_of] in Hf.
    change (ColorMask (Color (Attr (upd_Color ?g ?f)))) with (ColorMask (g (Color (Attr f)))). cbn [ColorMask update].
    rewrite (fl_attr _ _ _ Hf). apply replace_nibble_get; lia.
Qed.

Lemma ColorMask_correct_witness :
  GET_COLORMASK (ColorMask (Color (Attr (_mesa_ColorMask 1 0 1 0 (init_context sample_env))))) 6 = 5.
Proof.
  destruct (ColorMask_correct (init_context sample_env) 1 0 1 0 sample_env_wf) as [H _].
  apply (H 6). vm_compute. split; congruence.
Defined.

(** ** [glScissor] is a loop of [glScissorIndexed] *)

Definition with_rect (i : Z) (r : gl_scissor_rect) (at_ : gl_attribs) : gl_attribs :=
  at_ <| Scissor := (Scissor at_) <| ScissorArray := upd_Z i (fun _ => r) (ScissorArray (Scissor at_)) |> |>.

Lemma rect_eqb_eq a b : rect_eqb a b = true -> a = b.
Proof. destruct a, b. unfold rect_eqb. cbn. intros H. zbool. congruence. Qed.

Lemma upd_nth_same {A} (d : A) n l : upd_nth n (fun _ => nth n l d) l = l.
Proof. revert n. induction l as [|x l IH]; intros [|n]; simpl; rewrite ?IH; reflexivity. Qed.

Lemma set_scissor_attr i r a :
  0 <= i < Z.of_nat MAX_VIEWPORTS -> Attr (set_scissor_no_notify i r a) = with_rect i r (Attr a).
Proof.
  intros Hi. unfold set_scissor_no_notify, at_index.
  destruct (Z.leb_spec 0 i), (Z.ltb_spec i (Z.of_nat MAX_VIEWPORTS)); try lia. cbn [andb].
  destruct (rect_eqb _ _) eqn:E.
  - apply rect_eqb_eq in E. unfold with_rect, upd_Z, nth_Z in *. rewrite E, upd_nth_same.
    destruct (Attr a) as [? ? ? [] ?]. reflexivity.
  - pose proof (flush_for_flushed G_ScissorRect a ltac:(discriminate)) as Hf. cbn [flag_of bit_of] in Hf.
    change (Attr (upd_Scissor ?g ?f)) with ((Attr f) <| Scissor := g (Scissor (Attr f)) |>).
    now rewrite (fl_attr _ _ _ Hf).
Qed.

Lemma set_scissor_env i r a : env (set_scissor_no_notify i r a) = env a.
Proof. apply (good_env none _ _ (set_scissor_no_notify_good i r a)). Qed.

(** Two loops whose bodies act alike on the attributes. *)
Lemma for_range_attr from to (f g : Z -> gl_context -> gl_context) (h : Z -> gl_attribs -> gl_attribs) :
  forall e a b,
  (forall i c, from <= i < to -> env c = e -> Attr (f i c) = h i (Attr c) /\ env (f i c) = e) ->
  (forall i c, from <= i < to -> env c = e -> Attr (g i c) = h i (Attr c) /\ env (g i c) = e) ->
  env a = e -> env b = e -> Attr a = Attr b ->
  Attr (for_range from to f a) = Attr (for_range from to g b).
Proof.
  intros e a b Hf Hg. unfold for_range.
  assert (Hl : Forall (fun k => from <= from + Z.of_nat k < to) (seq 0 (Z.to_nat (to - from)))).
  { apply Forall_forall. intros k Hk. apply in_seq in Hk. lia. }
  revert Hl a b. generalize (seq 0 (Z.to_nat (to - from))). intros l Hl.
  induction Hl as [|k l Hk Hl IH]; intros a b Ha Hb E; simpl; [assumption|].
  destruct (Hf _ a Hk Ha) as [Fa Ea], (Hg _ b Hk Hb) as [Gb Eb]. apply IH; auto. congruence.
Qed.

(** The driver calls of a trace. *)
Definition driver_calls (t : list event) : list event :=
  filter (fun e => match e with EvDriver _ => true | _ => false end) t.

Lemma set_scissor_silent i r a : 
  0 <= i < Z.of_nat MAX_VIEWPORTS -> driver_calls (Trace (set_scissor_no_notify i r a)) = driver_calls (Trace a).
Proof.
  intros Hi. unfold set_scissor_no_notify, at_index.
  destruct (Z.leb_spec 0 i), (Z.ltb_spec i (Z.of_nat MAX_VIEWPORTS)); try lia. cbn [andb].
  destruct (rect_eqb _ _); [reflexivity|]. cbv zeta. unfold flush_for, FLUSH_VERTICES. cbv zeta.
  destruct (negb _); [|reflexivity]. cbn. unfold driver_calls. now rewrite filter_app, app_nil_r.
Qed.

Lemma for_range_silent from to (f : Z -> gl_context -> gl_context) a :
  (forall i c, from <= i < to -> driver_calls (Trace (f i c)) = driver_calls (Trace c)) ->
  driver_calls (Trace (for_range from to f a)) = driver_calls (Trace a).
Proof.
  intros Hf. unfold for_range.
  assert (Hl : Forall (fun k => from <= from + Z.of_nat k < to) (seq 0 (Z.to_nat (to - from)))).
  { apply Forall_forall. intros k Hk. apply in_seq in Hk. lia. }
  revert Hl a. generalize (seq 0 (Z.to_nat (to - from))). intros l Hl.
  induction Hl as [|k l Hk Hl IH]; intros a; simpl; [reflexivity|]. now rewrite IH, Hf.
Qed.

(** [glScissor] with a non-negative size leaves the state that the loop
    of [glScissorIndexed] calls quoted from the ARB_viewport_array
    specification leaves, but notifies the driver once instead of once per
    viewport. *)
Theorem Scissor_is_loop_of_ScissorIndexed a x y w h :
  env_wf (env a) -> 0 <= w -> 0 <= h ->
  Attr (_mesa_Scissor x y w h a) =
  Attr (for_range 0 (MaxViewports (env a)) (fun i => _mesa_ScissorIndexed i x y w h) a) /\
  driver_calls (Trace (_mesa_Scissor x y w h a)) =
  driver_calls (Trace a) ++ (if has_Scissor (env a) then [EvDriver Drv_Scissor] else []).
Proof.
  intros (_ & Hv & _) Hw Hh. unfold _mesa_Scissor, scissor.
  destruct (Z.ltb_spec w 0), (Z.ltb_spec h 0); try lia. cbn [orb]. cbv zeta.
  set (r := ScissorRect x y w h). split.
  - rewrite call_driver_attr.
    apply (for_range_attr _ _ _ _ (fun i => with_rect i r) (env a)); auto; intros i c Hi Hc.
    + split; [apply set_scissor_attr; lia | now rewrite set_scissor_env].
    + unfold _mesa_ScissorIndexed, scissor_indexed_err, _mesa_set_scissor. rewrite Hc. fold r. cbn [Width Height].
      destruct (Z.geb_spec i (MaxViewports (env a))); [lia|].
      change (Width r) with w. change (Height r) with h.
      destruct (Z.ltb_spec w 0), (Z.ltb_spec h 0); try lia. cbn [orb]. cbv zeta.
      rewrite call_driver_attr, set_scissor_attr by lia. split; [reflexivity|].
      now rewrite (good_env none _ _ (good_driver _ _ _)), set_scissor_env.
  - set (b := for_range _ _ _ a).
    assert (Hb : driver_calls (Trace b) = driver_calls (Trace a)).
    { apply for_range_silent. intros i c Hi. apply set_scissor_silent. lia. }
    assert (Eb : env b = env a).
    { apply (good_env none _ _ (good_for _ _ _ _ (fun i c => set_scissor_no_notify_good i r c))). }
    unfold call_driver. rewrite Eb. destruct (has_Scissor (env a)); [|now rewrite Hb, app_nil_r].
    cbn. unfold driver_calls in *. now rewrite filter_app, Hb.
Qed.

Lemma Scissor_is_loop_of_ScissorIndexed_witness :
  driver_calls (Trace (_mesa_Scissor 1 2 3 4 (init_context sample_env))) = [EvDriver Drv_Scissor].
Proof.
  destruct (Scissor_is_loop_of_ScissorIndexed (init_context sample_env) 1 2 3 4 sample_env_wf
              ltac:(lia) ltac:(lia)) as [_ H].
  etransitivity; [exact H|]. vm_compute. reflexivity.
Defined.

(** ** Logic operations *)

(** The operation each enumerant stands for, on a source and a destination
    bit (OpenGL specification, table of logical operations). *)
Definition logic_op_meaning (op : Z) (s d : bool) : bool :=
  if op =? GL_CLEAR then false else
  if op =? GL_AND then s && d else
  if op =? GL_AND_REVERSE then s && negb d else
  if op =? GL_COPY then s else
  if op =? GL_AND_INVERTED then negb s && d else
  if op =? GL_NOOP then d else
  if op =? GL_XOR then xorb s d else
  if op =? GL_OR then s || d else
  if op =? GL_NOR then negb (s || d) else
  if op =? GL_EQUIV then negb (xorb s d) else
  if op =? GL_INVERT then negb d else
  if op =? GL_OR_REVERSE then s || negb d else
  if op =? GL_COPY_INVERTED then negb s else
  if op =? GL_OR_INVERTED then negb s || d else
  if op =? GL_NAND then negb (s && d) else true.

Definition bit (b : bool) : Z := if b then 1 else 0.

Definition all_logic_ops : list Z :=
  [GL_CLEAR; GL_SET; GL_COPY; GL_COPY_INVERTED; GL_NOOP; GL_INVERT; GL_AND; GL_NAND;
   GL_OR; GL_NOR; GL_XOR; GL_EQUIV; GL_AND_REVERSE; GL_AND_INVERTED; GL_OR_REVERSE; GL_OR_INVERTED].

Lemma logic_tables_ok :
  forallb (fun op => forallb (fun s => forallb (fun d =>
    Bool.eqb (Z.testbit (nth_Z 0 color_logicop_mapping (Z.land op 15)) (2 * bit s + bit d))
             (logic_op_meaning op s d)) [true; false]) [true; false]) all_logic_ops = true.
Proof. vm_compute. reflexivity. Qed.

Lemma in_bools (b : bool) : In b [true; false].
Proof. destruct b; cbn; auto. Qed.

(** In every legal context the remapped logic operation [_LogicOp] is the
    truth table of the operation selected by [glLogicOp], as the comment of
    [gl_logicop_mode] says: bit [2 * src + dst] is the result. *)
Theorem logic_op_is_truth_table a s d :
  legal a ->
  Z.testbit (_LogicOp (Color (Attr a))) (2 * bit s + bit d) =
  logic_op_meaning (LogicOp (Color (Attr a))) s d.
Proof.
  intros Ha. destruct (lc_logic _ _ (lg_color _ Ha)) as [Hl ->].
  apply one_of_In in Hl. pose proof logic_tables_ok as H.
  rewrite forallb_forall in H. specialize (H _ Hl).
  rewrite forallb_forall in H. specialize (H s (in_bools s)).
  rewrite forallb_forall in H. specialize (H d (in_bools d)).
  now apply eqb_prop in H.
Qed.

Lemma logic_op_is_truth_table_witness :
  exists a, legal a /\ Z.testbit (_LogicOp (Color (Attr a))) 3 = logic_op_meaning (LogicOp (Color (Attr a))) true true.
Proof.
  exists (init_context sample_env). pose proof (init_legal _ sample_env_wf) as Hl. split; [exact Hl|].
  exact (logic_op_is_truth_table (init_context sample_env) true true Hl).
Defined.

(** ** Where the code falls short *)

(** [glScissorArrayv] computes [first + count] in [unsigned]: a huge [first] passes the test
    against [MaxViewports], and the array is overrun. *)
Theorem ScissorArrayv_overruns :
  In (EvOutOfBounds 4294967295)
     (Trace (_mesa_ScissorArrayv 4294967295 1 [ScissorRect 0 0 1 1] (init_context sample_env))).
Proof. vm_compute. tauto. Qed.

(** The enumerant of the equation of buffer 0 and [_AdvancedBlendMode] part
    ways when [glBlendEquationSeparatei] addresses another buffer, and the
    equation of buffer 0 cannot be set again to repair it. *)
Theorem AdvancedBlendMode_lost :
  let a := init_context sample_env in
  let b := _mesa_BlendEquation GL_MULTIPLY_KHR a in
  let c := _mesa_BlendEquationSeparateiARB 1 GL_FUNC_ADD GL_FUNC_ADD b in
  let d := _mesa_BlendEquationiARB 0 GL_MULTIPLY_KHR c in
  EquationRGB (blend_at 0 d) = GL_MULTIPLY_KHR /\ _AdvancedBlendMode (Color (Attr b)) = BLEND_MULTIPLY /\
  _AdvancedBlendMode (Color (Attr d)) = BLEND_NONE.
Proof. vm_compute. auto. Qed.

(** [glBlendEquationSeparate] leaves advanced blending without setting
    [_NEW_COLOR], which blend.h says the shader constant needs, when the driver
    has a flag for blend state. *)
Theorem BlendEquationSeparate_misses_NEW_COLOR :
  let a := upd_Color (fun c => c <| BlendEnabled := 1 |>) (init_context sample_env) in
  let b := (_mesa_BlendEquation GL_MULTIPLY_KHR a) <| NewState := 0 |> in
  let c := _mesa_BlendEquationSeparate GL_FUNC_ADD GL_FUNC_ADD b in
  _mesa_get_advanced_blend_sh_constant (BlendEnabled (Color (Attr b))) (_AdvancedBlendMode (Color (Attr b))) <>
  _mesa_get_advanced_blend_sh_constant (BlendEnabled (Color (Attr c))) (_AdvancedBlendMode (Color (Attr c))) /\
  NewState c = 0.
Proof. vm_compute. split; [congruence | reflexivity]. Qed.

(** A driver without a flag for window rectangles is not told of them: nothing
    is marked. *)
Lemma WindowRectangles_without_flag m c box a :
  NewWindowRectangles (env a) = 0 -> Z.land (NeedFlush a) FLUSH_STORED_VERTICES = 0 ->
  let b := _mesa_WindowRectanglesEXT m c box a in NewState b = NewState a /\ NewDriverState b = NewDriverState a.
Proof.
  intros Hf Hn. cbv zeta. unfold _mesa_WindowRectanglesEXT. cbv zeta.
  repeat match goal with |- context [if ?x then _mesa_error ?e a else _] =>
    destruct x; [destruct (error_fields e a) as (_ & _ & _ & -> & -> & _); auto|] end.
  cbn. unfold FLUSH_VERTICES. rewrite Hn. cbn. rewrite Hf, !Z.lor_0_r. auto.
Qed.

(** The second formula of the comment on [gl_logicop_mode], for the GL
    enumerants themselves, does not hold: with [GL_AND] on two set bits it
    gives 0. *)
Theorem GL_logic_op_formula_wrong :
  Z.land GL_AND (Z.shiftl 1 (2 * bit true + bit true)) = 0 /\ logic_op_meaning GL_AND true true = true.
Proof. vm_compute. auto. Qed.

(** ** Properties of the entry points of GlRaster

    [glViewport] is the loop that the ARB_viewport_array specification gives
    for it, the shortcut of [glLineWidth] hides no error, and what the setters
    do that their contracts do not allow. *)

(** ** [glViewport] is a loop of [glViewportIndexedf] *)

Definition with_viewport (v : gl_viewport_inputs) (i : Z) (r : gl_attribs) : gl_attribs :=
  if same_viewport v (nth_Z viewport0 (ViewportArray r) i) then r
  else r <| ViewportArray := upd_Z i (store_viewport v) (ViewportArray r) |>.

Lemma flush_for_attr flag bit a : Attr (flush_for flag bit a) = Attr a.
Proof. apply (FLUSH_effect (if flag (env a) =? 0 then bit else 0) a). Qed.

Lemma at_index_in n i k a : 0 <= i < Z.of_nat n -> at_index n i k a = k a.
Proof. intros Hi. unfold at_index. destruct (Z.leb_spec 0 i), (Z.ltb_spec i (Z.of_nat n)); try lia. reflexivity. Qed.

Lemma set_viewport_attr i v a : 0 <= i < Z.of_nat MAX_VIEWPORTS ->
  Attr (set_viewport_no_notify i v a) = with_viewport v i (Attr a).
Proof.
  intros Hi. unfold set_viewport_no_notify, with_viewport, viewport_at. rewrite at_index_in by assumption.
  destruct (same_viewport _ _); [reflexivity|]. cbv zeta. now rewrite upd_Attr_Attr, flush_for_attr.
Qed.

Lemma set_viewport_env i v a : env (set_viewport_no_notify i v a) = env a.
Proof. apply (good_env none _ _ (set_viewport_good i v a)). Qed.

Lemma set_viewport_silent i v a : 0 <= i < Z.of_nat MAX_VIEWPORTS ->
  driver_calls (Trace (set_viewport_no_notify i v a)) = driver_calls (Trace a).
Proof.
  intros Hi. unfold set_viewport_no_notify. rewrite at_index_in by assumption. cbv zeta.
  destruct (same_viewport _ _); [reflexivity|]. unfold flush_for, FLUSH_VERTICES. cbv zeta.
  destruct (negb _); [|reflexivity]. cbn. unfold driver_calls. now rewrite filter_app, app_nil_r.
Qed.

(** [glViewport] with a non-negative size leaves the state that the loop of
    [glViewportIndexedf] calls in its comment leaves, but notifies the driver
    once instead of once per viewport. *)
Lemma Viewport_is_loop_of_ViewportIndexedf a x y w h :
  env_wf (env a) -> 0 <= w -> 0 <= h ->
  Attr (_mesa_Viewport x y w h a) =
  Attr (for_range 0 (MaxViewports (env a)) (fun i =>
    _mesa_ViewportIndexedf i (float_of_int x) (float_of_int y) (float_of_int w) (float_of_int h)) a) /\
  driver_calls (Trace (_mesa_Viewport x y w h a)) =
  driver_calls (Trace a) ++ (if has_Viewport (env a) then [EvDriver Drv_Viewport] else []).
Proof.
  intros (_ & Hv & _) Hw Hh. unfold _mesa_Viewport, viewport.
  destruct (Z.ltb_spec w 0), (Z.ltb_spec h 0); try lia. cbn [orb]. cbv zeta.
  set (v := ViewportInputs _ _ _ _). split.
  - rewrite call_driver_attr.
    apply (for_range_attr _ _ _ _ (with_viewport (clamp_viewport (env a) v)) (env a)); auto; intros i c Hi Hc.
    + split; [apply set_viewport_attr; lia | now rewrite set_viewport_env].
    + unfold _mesa_ViewportIndexedf, viewport_indexed_err, negative_size, _mesa_set_viewport. fold v. rewrite Hc.
      destruct (Z.geb_spec i (MaxViewports (env a))); [lia|]. change (In_Width v) with (float_of_int w).
      change (In_Height v) with (float_of_int h). rewrite !float_of_int_nonneg by assumption. cbn [orb]. cbv zeta.
      rewrite call_driver_attr, set_viewport_attr by lia. split; [reflexivity|].
      now rewrite (good_env none _ _ (good_driver _ _ _)), set_viewport_env.
  - set (b := for_range _ _ _ a).
    assert (Hb : driver_calls (Trace b) = driver_calls (Trace a)).
    { apply for_range_silent. intros i c Hi. apply set_viewport_silent. lia. }
    assert (Eb : env b = env a) by apply (good_env none _ _ (good_for _ _ _ _ (fun i c => set_viewport_good i _ c))).
    unfold call_driver. rewrite Eb. destruct (has_Viewport (env a)); [|now rewrite Hb, app_nil_r].
    cbn. unfold driver_calls in *. now rewrite filter_app, Hb.
Qed.

(** ** The no-change shortcut of [glLineWidth] *)

Definition illegal_width (e : gl_env) (w : GLfloat) : bool :=
  SFleb w f32_0 || (forward_core e && SFltb f32_1 w).

(** Numbers that compare equal are equal, but for the sign of zero. *)
Lemma SFeqb_cases x y : SFeqb x y = true -> x = y \/ (exists s t, x = S754_zero s /\ y = S754_zero t).
Proof.
  unfold SFeqb. destruct x as [s|[]| |[] m e], y as [t|[]| |[] n f]; cbn; try discriminate; eauto.
  all: destruct (Z.compare_spec e f) as [->| |]; try discriminate;
    change (Pos.compare_cont Eq m n) with (Pos.compare m n);
    destruct (Pos.compare_spec m n) as [->| |]; try discriminate; auto.
Qed.

(** "If width is unchanged, there can't be an error": in a legal context
    [glLineWidth] is its twin without checks on legal widths and an error on
    the others. *)
Lemma LineWidth_shortcut_hides_no_error a w : legal a ->
  _mesa_LineWidth w a =
  if illegal_width (env a) w then _mesa_error GL_INVALID_VALUE a else _mesa_LineWidth_no_error w a.
Proof.
  intros Ha. destruct (legal_groups _ Ha) as ([H0 H1 _] & _).
  unfold _mesa_LineWidth, _mesa_LineWidth_no_error, line_width, illegal_width, forward_core in *. cbv zeta.
  cbn [negb andb]. destruct (SFeqb (Line_Width (Line (Attr a))) w) eqn:E.
  - destruct (SFeqb_cases _ _ E) as [Ew|(s & t & Es & _)]; [|rewrite Es in H0; discriminate].
    rewrite Ew in H0, H1. rewrite H0. cbn [orb].
    destruct (gl_api_eqb _ _ && negb _); [|reflexivity]. now rewrite H1.
  - destruct (SFleb w f32_0); [reflexivity|]. cbn [orb]. now destruct (gl_api_eqb _ _ && negb _ && SFltb f32_1 w).
Qed.

(** ** Departures *)

(** [subpixel_precision_bias] assigns before it flushes: stored vertices are
    drawn with the new bias, and never with the one they were issued under. *)
Lemma subpixel_bias_applies_to_earlier_vertices :
  let b := _mesa_SubpixelPrecisionBiasNV 3 4 sample_context in
  vertices_stored sample_context /\
  Trace b = Trace sample_context ++ [EvDraw (rendering (Attr b))] /\
  SubpixelPrecisionBias (Conservative (Attr sample_context)) = (0, 0) /\
  SubpixelPrecisionBias (Conservative (rendering (Attr b))) = (3, 4).
Proof. vm_compute. repeat split; congruence. Qed.

(** [glFog(GL_FOG_COLOR)] compares the new colour with the clamped one: after
    (2, 0, 0, 0) the call with (1, 0, 0, 0) is taken for no change, and the
    unclamped colour stays 2. *)
Lemma fog_colour_is_lost :
  let red x := Vec4 (float_of_int x) f32_0 f32_0 f32_0 in
  let b := _mesa_Fogfv GL_FOG_COLOR (red 1) (_mesa_Fogfv GL_FOG_COLOR (red 2) (init_context sample_env)) in
  Fog_ColorUnclamped (Fog (Attr b)) = red 2 /\ ErrorValue b = GL_NO_ERROR.
Proof. vm_compute. auto. Qed.

(** [first + count] wraps: the index is far outside [ViewportArray]. *)
Lemma ViewportArrayv_overruns :
  In (EvOutOfBounds (2 ^ 32 - 1))
     (Trace (fst (_mesa_ViewportArrayv (2 ^ 32 - 1) 1 [inputs0] (init_context sample_env)))).
Proof. vm_compute. auto. Qed.

(** [glViewportArrayv] clamps the caller's constant array in place. *)
Lemma ViewportArrayv_writes_its_input :
  let v := ViewportInputs f32_0 f32_0 (float_of_int 20000) (float_of_int 10) in
  snd (_mesa_ViewportArrayv 0 1 [v] (init_context sample_env)) =
  [ViewportInputs f32_0 f32_0 (float_of_int 16384) (float_of_int 10)].
Proof. vm_compute. reflexivity. Qed.

(** A negative parameter is converted to an unsigned type. *)
Lemma PointParameteri_is_undefined :
  exists b, _mesa_PointParameteri GL_POINT_SPRITE_COORD_ORIGIN (-1) (init_context sample_env) = Ret b /\
    Trace b = [EvUndefined (float_of_int (-1))].
Proof. eexists. split; vm_compute; reflexivity. Qed.
