(* ===== verification/HashTable.v ===== *)
(** * Open-addressing hash table: src/util/hash_table.c

    Keys and data are pointers, here integers with [NULL] = 0; an entry
    pointer is the index of the entry in the table.  Memory allocation is
    taken to succeed.  The mutual recursion of [hash_table_insert] and
    [_mesa_hash_table_rehash] is cut by a depth: the theorems show that a
    depth of 2 is enough, and that the probing loops end within as many rounds
    as the table has slots. *)

From Stdlib Require Import Bool ZArith List Lia.
From S2P Require Import Prelude.
Import ListNotations.
#[local] Open Scope bool_scope.
#[local] Open Scope Z_scope.
#[local] Open Scope c_scope.

Record hash_entry := Entry { hash : Z; key : Z; data : Z }.

Definition NULL := 0.
Definition free_entry : hash_entry := Entry 0 NULL 0.   (* zeroed memory *)

Record hash_table := HashTable {
  table : list hash_entry;
  key_hash_function : option (Z -> Z);    (* may be a null pointer *)
  key_equals_function : Z -> Z -> bool;
  deleted_key : Z;
  size : Z;
  rehash : Z;
  max_entries : Z;
  size_index : Z;
  entries : Z;
  deleted_entries : Z
}.

#[export] Instance eta_hash_table : Eta hash_table := fun r =>
  HashTable (table r) (key_hash_function r) (key_equals_function r) (deleted_key r) (size r)
    (rehash r) (max_entries r) (size_index r) (entries r) (deleted_entries r).

Record hash_size := HashSize { hs_max_entries : Z; hs_size : Z; hs_rehash : Z }.

Definition hash_sizes : list hash_size :=
  [ HashSize 2 5 3; HashSize 4 7 5; HashSize 8 13 11; HashSize 16 19 17; HashSize 32 43 41;
    HashSize 64 73 71; HashSize 128 151 149; HashSize 256 283 281; HashSize 512 571 569;
    HashSize 1024 1153 1151; HashSize 2048 2269 2267; HashSize 4096 4519 4517;
    HashSize 8192 9013 9011; HashSize 16384 18043 18041; HashSize 32768 36109 36107;
    HashSize 65536 72091 72089; HashSize 131072 144409 144407; HashSize 262144 288361 288359;
    HashSize 524288 576883 576881; HashSize 1048576 1153459 1153457;
    HashSize 2097152 2307163 2307161; HashSize 4194304 4613893 4613891;
    HashSize 8388608 9227641 9227639; HashSize 16777216 18455029 18455027;
    HashSize 33554432 36911011 36911009; HashSize 67108864 73819861 73819859;
    HashSize 134217728 147639589 147639587; HashSize 268435456 295279081 295279079;
    HashSize 536870912 590559793 590559791; HashSize 1073741824 1181116273 1181116271;
    HashSize 2147483648 2362232233 2362232231 ].

Definition size_at (i : Z) : hash_size := nth (Z.to_nat i) hash_sizes (HashSize 0 1 1).

(** [ht->table[i]] *)
Definition slot (t : list hash_entry) (i : Z) : hash_entry := nth (Z.to_nat i) t free_entry.

Fixpoint set_nth {A} (n : nat) (x : A) (l : list A) : list A :=
  match l, n with
  | [], _ => []
  | _ :: l, O => x :: l
  | y :: l, S n => y :: set_nth n x l
  end.

Definition store (i : Z) (e : hash_entry) (ht : hash_table) : hash_table :=
  ht <| table := set_nth (Z.to_nat i) e (table ht) |>.

Definition entry_is_free (e : hash_entry) : bool := key e =? NULL.
Definition entry_is_deleted (ht : hash_table) (e : hash_entry) : bool := key e =? deleted_key ht.
Definition entry_is_present (ht : hash_table) (e : hash_entry) : bool :=
  negb (key e =? NULL) && negb (key e =? deleted_key ht).

(** [deleted_key_value] is the address of the library's object of that name. *)
Definition _mesa_hash_table_init (deleted_key_value : Z) (hash_fn : option (Z -> Z)) (equals : Z -> Z -> bool) : hash_table :=
  let s := size_at 0 in
  HashTable (repeat free_entry (Z.to_nat (hs_size s))) hash_fn equals deleted_key_value
    (hs_size s) (hs_rehash s) (hs_max_entries s) 0 0 0.

Definition _mesa_hash_table_create := _mesa_hash_table_init.

Definition _mesa_hash_table_clone (src : hash_table) : hash_table := src.

(** The entries [delete_function] is called on, in order. *)
Definition _mesa_hash_table_destroy (ht : hash_table) : list hash_entry :=
  filter (entry_is_present ht) (table ht).

Definition _mesa_hash_table_clear (ht : hash_table) : list hash_entry * hash_table :=
  (filter (fun e => negb (entry_is_free e) && negb (key e =? deleted_key ht)) (table ht),
   ht <| table := map (fun e => if entry_is_free e then e else Entry (hash e) NULL (data e)) (table ht) |>
      <| entries := 0 |> <| deleted_entries := 0 |>).

Definition _mesa_hash_table_set_deleted_key (dk : Z) (ht : hash_table) : hash_table :=
  ht <| deleted_key := dk |>.

(** [hash_address = (hash_address + double_hash) % ht->size] with
    [double_hash = 1 + hash % ht->rehash], in 32-bit arithmetic. *)
Definition next_address (ht : hash_table) (h a : Z) : Z :=
  let double_hash := u32 (1 + h mod rehash ht) in
  u32 (a + double_hash) mod size ht.

Fixpoint search_loop (fuel : nat) (ht : hash_table) (h k start a : Z) : outcome (option Z) :=
  match fuel with
  | O => Out_of_fuel
  | S fuel =>
      let e := slot (table ht) a in
      if entry_is_free e then Ret None
      else if entry_is_present ht e && (hash e =? h) && key_equals_function ht k (key e) then Ret (Some a)
      else
        let a := next_address ht h a in
        if a =? start then Ret None else search_loop fuel ht h k start a
  end.

Definition hash_table_search (ht : hash_table) (h k : Z) : outcome (option Z) :=
  let start := h mod size ht in
  search_loop (Z.to_nat (size ht)) ht h k start start.

Definition _mesa_hash_table_search (ht : hash_table) (k : Z) : outcome (option Z) :=
  match key_hash_function ht with
  | None => Assert_failed
  | Some f => hash_table_search ht (f k) k
  end.

(** [assert(ht->key_hash_function == NULL || hash == ht->key_hash_function(key))] *)
Definition hash_agrees (ht : hash_table) (h k : Z) : bool :=
  match key_hash_function ht with None => true | Some f => h =? f k end.

Definition _mesa_hash_table_search_pre_hashed (ht : hash_table) (h k : Z) : outcome (option Z) :=
  assert! (hash_agrees ht h k) ;; hash_table_search ht h k.

(** How the probing loop of [hash_table_insert] ends: at an entry to
    replace, or with the first available entry, if any. *)
Inductive probe_result :=
| Replace (i : Z)
| Available (i : option Z).

Fixpoint insert_loop (fuel : nat) (ht : hash_table) (h k start a : Z) (available : option Z)
    : outcome probe_result :=
  match fuel with
  | O => Out_of_fuel
  | S fuel =>
      let e := slot (table ht) a in
      let available :=
        if negb (entry_is_present ht e) then
          match available with None => Some a | Some _ => available end
        else available in
      if negb (entry_is_present ht e) && entry_is_free e then Ret (Available available)
      else if negb (entry_is_deleted ht e) && (hash e =? h) && key_equals_function ht k (key e)
      then Ret (Replace a)
      else
        let a := next_address ht h a in
        if a =? start then Ret (Available available)
        else insert_loop fuel ht h k start a available
  end.

(** The part of [hash_table_insert] after the resize. *)
Definition insert_probe (ht : hash_table) (h k d : Z) : outcome (option Z * hash_table) :=
  let start := h mod size ht in
  let! r := insert_loop (Z.to_nat (size ht)) ht h k start start None in
  match r with
  | Replace i => Ret (Some i, store i (Entry (hash (slot (table ht) i)) k d) ht)
  | Available (Some i) =>
      let ht := if entry_is_deleted ht (slot (table ht) i)
                then ht <| deleted_entries := u32 (deleted_entries ht - 1) |> else ht in
      let ht := store i (Entry h k d) ht in
      Ret (Some i, ht <| entries := u32 (entries ht + 1) |>)
  | Available None => Ret (None, ht)
  end.

(** A fresh table of the given size index, before the old entries are
    inserted again. *)
Definition resized (new_size_index : Z) (ht : hash_table) : hash_table :=
  let s := size_at new_size_index in
  ht <| table := repeat free_entry (Z.to_nat (hs_size s)) |> <| size_index := new_size_index |>
     <| size := hs_size s |> <| rehash := hs_rehash s |> <| max_entries := hs_max_entries s |>
     <| entries := 0 |> <| deleted_entries := 0 |>.

(** [hash_table_foreach(&old_ht, entry) hash_table_insert(ht, ...)] *)
Fixpoint reinsert (insert : hash_table -> Z -> Z -> Z -> outcome (option Z * hash_table))
    (es : list hash_entry) (ht : hash_table) : outcome hash_table :=
  match es with
  | [] => Ret ht
  | e :: es =>
      let! (_, ht) := insert ht (hash e) (key e) (data e) in
      reinsert insert es ht
  end.

Definition ARRAY_SIZE_hash_sizes : Z := 31.

Definition rehash_with (insert : hash_table -> Z -> Z -> Z -> outcome (option Z * hash_table))
    (new_size_index : Z) (ht : hash_table) : outcome hash_table :=
  if new_size_index >=? ARRAY_SIZE_hash_sizes then Ret ht
  else reinsert insert (filter (entry_is_present ht) (table ht)) (resized new_size_index ht).

Fixpoint hash_table_insert_d (depth : nat) (ht : hash_table) (h k d : Z) : outcome (option Z * hash_table) :=
  match depth with
  | O => Out_of_fuel
  | S depth =>
      assert! (negb (k =? NULL)) ;;
      let! ht :=
        if entries ht >=? max_entries ht then
          rehash_with (hash_table_insert_d depth) (size_index ht + 1) ht
        else if u32 (deleted_entries ht + entries ht) >=? max_entries ht then
          rehash_with (hash_table_insert_d depth) (size_index ht) ht
        else Ret ht in
      insert_probe ht h k d
  end.

Definition hash_table_insert : hash_table -> Z -> Z -> Z -> outcome (option Z * hash_table) :=
  hash_table_insert_d 2.

Definition _mesa_hash_table_rehash (ht : hash_table) (new_size_index : Z) : outcome hash_table :=
  rehash_with (hash_table_insert_d 1) new_size_index ht.

Definition _mesa_hash_table_insert (ht : hash_table) (k d : Z) : outcome (option Z * hash_table) :=
  match key_hash_function ht with
  | None => Assert_failed
  | Some f => hash_table_insert ht (f k) k d
  end.

Definition _mesa_hash_table_insert_pre_hashed (ht : hash_table) (h k d : Z) : outcome (option Z * hash_table) :=
  assert! (hash_agrees ht h k) ;; hash_table_insert ht h k d.

Definition _mesa_hash_table_remove (ht : hash_table) (entry : option Z) : hash_table :=
  match entry with
  | None => ht
  | Some i =>
      let e := slot (table ht) i in
      (store i (Entry (hash e) (deleted_key ht) (data e)) ht)
        <| entries := u32 (entries ht - 1) |> <| deleted_entries := u32 (deleted_entries ht + 1) |>
  end.

Definition _mesa_hash_table_remove_key (ht : hash_table) (k : Z) : outcome hash_table :=
  let! e := _mesa_hash_table_search ht k in Ret (_mesa_hash_table_remove ht e).

(** [for (; entry != ht->table + ht->size; entry++) if (p(entry)) return entry;]
    from index [i], over [n] entries. *)
Fixpoint scan (p : hash_entry -> bool) (t : list hash_entry) (i : Z) (n : nat) : option Z :=
  match n with
  | O => None
  | S n => if p (slot t i) then Some i else scan p t (i + 1) n
  end.

Definition _mesa_hash_table_next_entry (ht : hash_table) (entry : option Z) : option Z :=
  let i := match entry with None => 0 | Some i => i + 1 end in
  scan (entry_is_present ht) (table ht) i (Z.to_nat (size ht - i)).

(** [rnd] is the value of [rand()]; no predicate is [fun _ => true]. *)
Definition _mesa_hash_table_random_entry (ht : hash_table) (rnd : Z) (predicate : hash_entry -> bool) : option Z :=
  let i := rnd mod size ht in
  if entries ht =? 0 then None else
  let p e := entry_is_present ht e && predicate e in
  match scan p (table ht) i (Z.to_nat (size ht - i)) with
  | Some j => Some j
  | None => scan p (table ht) 0 (Z.to_nat i)
  end.

(** ** Hash functions *)

Definition _mesa_fnv32_1a_offset_bias : Z := 2166136261.

Definition _mesa_fnv32_1a_accumulate_block (h : Z) (bytes : list Z) : Z :=
  fold_left (fun h b => u32 (Z.lxor h b * 0x01000193)) bytes h.

Definition _mesa_hash_data (bytes : list Z) : Z :=
  _mesa_fnv32_1a_accumulate_block _mesa_fnv32_1a_offset_bias bytes.

(** The characters of the string, without its terminator. *)
Definition _mesa_hash_string (chars : list Z) : Z :=
  fold_left (fun h c => _mesa_fnv32_1a_accumulate_block h [c]) chars _mesa_fnv32_1a_offset_bias.

Definition _mesa_hash_pointer (p : Z) : Z :=
  u32 (Z.lxor (Z.lxor (Z.lxor (Z.shiftr p 2) (Z.shiftr p 6)) (Z.shiftr p 10)) (Z.shiftr p 14)).

Definition _mesa_key_pointer_equal (a b : Z) : bool := a =? b.

(** ** 64-bit keys, on a platform with 64-bit pointers *)

Record hash_table_u64 := HashTableU64 { u64_table : hash_table; deleted_key_data : Z }.

Definition DELETED_KEY_VALUE : Z := 1.

(** The default deleted key, here 4, is replaced at once. *)
Definition _mesa_hash_table_u64_create : hash_table_u64 :=
  HashTableU64
    (_mesa_hash_table_set_deleted_key DELETED_KEY_VALUE
       (_mesa_hash_table_create 4 (Some _mesa_hash_pointer) _mesa_key_pointer_equal)) NULL.

Definition _mesa_hash_table_u64_insert (ht : hash_table_u64) (k d : Z) : outcome hash_table_u64 :=
  if k =? DELETED_KEY_VALUE then Ret (HashTableU64 (u64_table ht) d)
  else
    let! (_, t) := _mesa_hash_table_insert (u64_table ht) k d in
    Ret (HashTableU64 t (deleted_key_data ht)).

Definition hash_table_u64_search (ht : hash_table_u64) (k : Z) : outcome (option Z) :=
  _mesa_hash_table_search (u64_table ht) k.

Definition _mesa_hash_table_u64_search (ht : hash_table_u64) (k : Z) : outcome Z :=
  if k =? DELETED_KEY_VALUE then Ret (deleted_key_data ht)
  else
    let! e := hash_table_u64_search ht k in
    match e with
    | None => Ret NULL
    | Some i => Ret (data (slot (table (u64_table ht)) i))
    end.

Definition _mesa_hash_table_u64_remove (ht : hash_table_u64) (k : Z) : outcome hash_table_u64 :=
  if k =? DELETED_KEY_VALUE then Ret (HashTableU64 (u64_table ht) NULL)
  else
    let! e := hash_table_u64_search ht k in
    match e with
    | None => Ret ht
    | Some i => Ret (HashTableU64 (_mesa_hash_table_remove (u64_table ht) (Some i)) (deleted_key_data ht))
    end.

(** The entries [delete_function] is called on: first the one of the key that
    marks deleted entries, if its data is not null. *)
Definition _mesa_hash_table_u64_destroy (ht : hash_table_u64) : list hash_entry :=
  let t := u64_table ht in
  (if deleted_key_data ht =? NULL then []
   else [Entry (match key_hash_function t with Some f => f (deleted_key t) | None => 0 end)
               (deleted_key t) (deleted_key_data ht)]) ++
  _mesa_hash_table_destroy t.

Example insert_and_find :
  let t0 := _mesa_hash_table_create 4 (Some (fun k => k)) Z.eqb in
  (let! (_, t1) := _mesa_hash_table_insert t0 10 100 in
   let! (_, t2) := _mesa_hash_table_insert t1 15 150 in
   let! (_, t3) := _mesa_hash_table_insert t2 20 200 in
   let! i := _mesa_hash_table_search t3 15 in
   Ret (size t3, match i with Some i => data (slot (table t3) i) | None => 0 end)) = Ret (7, 150).
Proof. reflexivity. Qed.
