(* ===== verification/Probe.v ===== *)
(** * Double hashing with a prime table size

    The probe sequence of hash_table.c and set.c: start at [hash % size] and
    step by [1 + hash % rehash].  Because the sizes are prime, and larger than
    the step, the sequence visits every slot once before it returns to its
    start; the primality of the table of sizes is checked by trial division. *)

From Stdlib Require Import Bool ZArith List Lia Znumtheory.
From S2P Require Import Prelude HashTable.
Import ListNotations.
#[local] Open Scope bool_scope.
#[local] Open Scope Z_scope.

(** ** Trial division *)

Fixpoint no_divisor (fuel : nat) (d n : Z) : bool :=
  if d * d >? n then true
  else match fuel with
       | O => false
       | S fuel => negb (n mod d =? 0) && no_divisor fuel (d + 1) n
       end.

Lemma no_divisor_prime fuel d n :
  2 <= n -> 2 <= d -> (forall x, 2 <= x < d -> ~ (x | n)) -> no_divisor fuel d n = true -> prime n.
Proof.
  intros Hn. revert d. induction fuel as [|fuel IH]; intros d Hd Hsmall; cbn [no_divisor];
    rewrite Z.gtb_ltb; destruct (Z.ltb_spec n (d * d)) as [Hbig|].
  1, 3: intros _; apply prime_alt; split; [lia|]; intros x Hx Hdiv;
    destruct (Z_lt_ge_dec x d) as [Hlt|Hge]; [now apply (Hsmall x); [lia|]|];
    destruct Hdiv as [y Hy]; apply (Hsmall y); [nia|]; exists x; lia.
  - discriminate.
  - intros H'. apply andb_true_iff in H'. destruct H' as [Hmod Hrec].
    apply (IH (d + 1)); [lia | | assumption].
    intros x Hx. destruct (Z.eq_dec x d) as [->|]; [|apply Hsmall; lia].
    intros Hdiv. apply negb_true_iff, Z.eqb_neq in Hmod. apply Hmod, Z.mod_divide; [lia | assumption].
Qed.

(** Sizes of the table below index 30: prime, the step is smaller, and an
    address plus a step fits 32 bits. *)
Definition size_ok (s : hash_size) : bool :=
  (2 <=? hs_size s) && no_divisor (Z.to_nat 40000) 2 (hs_size s) && (1 <=? hs_rehash s) &&
  (hs_rehash s <? hs_size s) && (2 * hs_size s <=? 2 ^ 32) && (0 <? hs_max_entries s) &&
  (hs_max_entries s <? hs_size s).

Lemma sizes_ok : forallb size_ok (firstn 30 hash_sizes) = true.
Proof. vm_compute. reflexivity. Qed.

Definition good_index (i : Z) : Prop := 0 <= i < 30.

Lemma size_at_good i : good_index i -> size_ok (size_at i) = true.
Proof.
  intros Hi. pose proof sizes_ok as H. rewrite forallb_forall in H. apply H.
  unfold size_at. rewrite <- (firstn_skipn 30 hash_sizes) at 1.
  unfold good_index in Hi. rewrite app_nth1 by (cbn [length firstn hash_sizes]; lia).
  apply nth_In. cbn [length firstn hash_sizes]. lia.
Qed.

Lemma size_at_props i : good_index i ->
  prime (hs_size (size_at i)) /\ 1 <= hs_rehash (size_at i) < hs_size (size_at i) /\
  2 * hs_size (size_at i) <= 2 ^ 32 /\ 0 < hs_max_entries (size_at i) < hs_size (size_at i).
Proof.
  intros Hi. pose proof (size_at_good i Hi) as H. unfold size_ok in H. zbool.
  split; [|lia]. apply (no_divisor_prime (Z.to_nat 40000) 2); [lia | lia | lia | assumption].
Qed.

(** Each size holds twice as many entries as the one before. *)
Lemma sizes_double :
  forallb (fun i => hs_max_entries (size_at (i + 1)) =? 2 * hs_max_entries (size_at i))
    (map Z.of_nat (seq 0 30)) = true.
Proof. vm_compute. reflexivity. Qed.

Lemma size_at_double i : good_index i -> hs_max_entries (size_at (i + 1)) = 2 * hs_max_entries (size_at i).
Proof.
  intros Hi. pose proof sizes_double as H. rewrite forallb_forall in H. apply Z.eqb_eq, H.
  unfold good_index in Hi. apply in_map_iff. exists (Z.to_nat i). split; [lia|]. apply in_seq. lia.
Qed.

(** A table of at most 2^29 entries can grow. *)
Lemma index_small i : good_index i -> hs_max_entries (size_at i) < 2 ^ 30 -> i < 29.
Proof.
  intros Hi. destruct (Z.eq_dec i 29) as [->|]; [vm_compute; discriminate | unfold good_index in Hi; lia].
Qed.

(** ** The probe sequence *)

Section ProbeSequence.
Context (p s a : Z) (Hp : prime p) (Hs : 0 < s < p) (Ha : 0 <= a < p).

Definition probe (j : Z) : Z := (a + j * s) mod p.

Lemma probe_0 : probe 0 = a.
Proof. unfold probe. rewrite Z.mul_0_l, Z.add_0_r. now apply Z.mod_small. Qed.

Lemma probe_range j : 0 <= probe j < p.
Proof. apply Z.mod_pos_bound. lia. Qed.

Lemma probe_succ j : probe (j + 1) = (probe j + s) mod p.
Proof. unfold probe. rewrite Zplus_mod_idemp_l. f_equal. lia. Qed.

(** The sequence returns to its start after [p] steps... *)
Lemma probe_cycle : probe p = a.
Proof. unfold probe. rewrite (Z.mul_comm p s), Z_mod_plus_full. now apply Z.mod_small. Qed.

(** ... and not before. *)
Lemma probe_no_return j : 0 < j < p -> probe j <> a.
Proof.
  intros Hj E. assert (Hdiv : (p | j * s)).
  { apply Z.mod_divide; [lia|]. unfold probe in E.
    rewrite <- (Z.mod_small a p) in E at 2 by assumption.
    replace (j * s) with (a + j * s - a) by lia. rewrite Zminus_mod, E, Z.sub_diag. reflexivity. }
  apply prime_mult in Hdiv; [|assumption].
  destruct Hdiv as [H|H]; apply Z.divide_pos_le in H; lia.
Qed.

(** Every slot is visited. *)
Lemma probe_surj t : 0 <= t < p -> exists j, 0 <= j < p /\ probe j = t.
Proof.
  intros Ht. assert (Hrel : rel_prime p s).
  { apply prime_rel_prime; [assumption|]. intros H. apply Z.divide_pos_le in H; lia. }
  destruct (rel_prime_bezout _ _ Hrel) as [u v Huv].
  exists (((t - a) * v) mod p). split; [apply Z.mod_pos_bound; lia|].
  unfold probe. rewrite <- Zplus_mod_idemp_r, Zmult_mod_idemp_l, Zplus_mod_idemp_r.
  replace (a + (t - a) * v * s) with (t + (- ((t - a) * u)) * p) by nia.
  rewrite Z_mod_plus_full. now apply Z.mod_small.
Qed.

End ProbeSequence.
