(* ===== verification/HashTableProof.v ===== *)
(** * Correctness of the hash table

    [contents] is the list of the entries present.  Search, insertion,
    removal, resizing and clearing are characterised by their effect on it,
    up to order; the invariant [wf] ties the probe sequences to it. *)

From Stdlib Require Import Bool ZArith List Lia Znumtheory Permutation.
From S2P Require Import Prelude HashTable Probe.
Import ListNotations.
#[local] Open Scope bool_scope.
#[local] Open Scope Z_scope.
#[local] Open Scope c_scope.

(** ** Lists *)

Lemma set_nth_split {A} n (x d : A) l :
  (n < length l)%nat ->
  exists l1 l2, l = l1 ++ nth n l d :: l2 /\ length l1 = n /\ set_nth n x l = l1 ++ x :: l2.
Proof.
  revert n. induction l as [|y l IH]; intros n Hn; simpl in Hn; [lia|].
  destruct n as [|n]; [exists [], l; auto|].
  destruct (IH n ltac:(lia)) as (l1 & l2 & E & El & Es).
  exists (y :: l1), l2. simpl. rewrite Es, El. split; [|auto]. now rewrite <- E.
Qed.

Lemma set_nth_length {A} n (x : A) l : length (set_nth n x l) = length l.
Proof. revert n. induction l as [|y l IH]; intros [|n]; simpl; auto. Qed.

Lemma nth_set_nth {A} n m (x d : A) l :
  (n < length l)%nat -> nth m (set_nth n x l) d = if Nat.eqb m n then x else nth m l d.
Proof.
  revert n m. induction l as [|y l IH]; intros n m Hn; simpl in Hn; [lia|].
  destruct n as [|n], m as [|m]; simpl; auto. apply IH. lia.
Qed.

Lemma slot_set_nth t i j e :
  0 <= i < Z.of_nat (length t) -> 0 <= j ->
  slot (set_nth (Z.to_nat i) e t) j = if j =? i then e else slot t j.
Proof.
  intros Hi Hj. unfold slot. rewrite nth_set_nth by lia.
  destruct (Nat.eqb_spec (Z.to_nat j) (Z.to_nat i)), (Z.eqb_spec j i); try lia; reflexivity.
Qed.

Lemma slot_In t i : 0 <= i < Z.of_nat (length t) -> In (slot t i) t.
Proof. intros H. apply nth_In. lia. Qed.

Lemma In_slot t e : In e t -> exists i, 0 <= i < Z.of_nat (length t) /\ slot t i = e.
Proof.
  intros H. destruct (In_nth t e free_entry H) as (n & Hn & E).
  exists (Z.of_nat n). unfold slot. rewrite Nat2Z.id. split; [lia | exact E].
Qed.

(** A list with a non-member of a class is longer than the class. *)
Lemma filter_shorter {A} (p : A -> bool) l :
  (length (filter p l) < length l)%nat -> exists x, In x l /\ p x = false.
Proof.
  induction l as [|x l IH]; simpl; [lia|]. destruct (p x) eqn:E; simpl; intros H.
  - destruct IH as (y & Hy & Ey); [lia|]. eauto.
  - eauto.
Qed.

Lemma Permutation_filter {A} (p : A -> bool) l l' : Permutation l l' -> Permutation (filter p l) (filter p l').
Proof.
  induction 1; simpl.
  - constructor.
  - destruct (p x); [now constructor | assumption].
  - destruct (p x), (p y); apply perm_swap || apply Permutation_refl.
  - etransitivity; eassumption.
Qed.

(** What the table asks of its callbacks: an equivalence on keys and a
    32-bit hash that respects it. *)
Class HashKey (H : Z -> Z) (eqk : Z -> Z -> bool) : Prop := {
  eqk_refl : forall k, eqk k k = true;
  eqk_sym : forall a b, eqk a b = eqk b a;
  eqk_trans : forall a b c, eqk a b = true -> eqk b c = true -> eqk a c = true;
  H_eqk : forall a b, eqk a b = true -> H a = H b;
  H_range : forall k, 0 <= H k < 2 ^ 32
}.

Section Correct.
Context (H : Z -> Z) (eqk : Z -> Z -> bool) {HK : HashKey H eqk}.

(** No two entries have equal keys. *)
Fixpoint uniq (l : list hash_entry) : Prop :=
  match l with
  | [] => True
  | e :: l => (forall x, In x l -> eqk (key e) (key x) = false) /\ uniq l
  end.

Lemma uniq_perm l l' : Permutation l l' -> uniq l -> uniq l'.
Proof.
  induction 1; simpl; try tauto.
  - intros [Hx Hu]. split; [|auto]. intros y Hy. apply Hx.
    eapply Permutation_in; [apply Permutation_sym; eassumption | assumption].
  - intros [Hy [Hx Hu]]. split; [|split; [|assumption]].
    + intros z [<-|Hz]; [|auto]. rewrite eqk_sym. apply Hy. auto.
    + intros z Hz. apply Hy. auto.
Qed.

Lemma uniq_filter p l : uniq l -> uniq (filter p l).
Proof.
  induction l as [|e l IH]; simpl; [auto|]. intros [He Hu]. destruct (p e); simpl; [|auto].
  split; [|auto]. intros x Hx. apply filter_In in Hx. apply He. tauto.
Qed.

Definition keeps (k : Z) (e : hash_entry) : bool := negb (eqk k (key e)).

(** Dropping the entries with a key from a list that holds at most one. *)
Lemma filter_keeps_unique k l1 e l2 :
  uniq (l1 ++ e :: l2) -> eqk k (key e) = true -> filter (keeps k) (l1 ++ e :: l2) = l1 ++ l2.
Proof.
  intros Hu He.
  assert (Hall : forall x, In x (l1 ++ l2) -> keeps k x = true).
  { assert (Hp : uniq (e :: l1 ++ l2)) by (eapply uniq_perm; [apply Permutation_sym, Permutation_middle|exact Hu]).
    destruct Hp as [Hp _]. intros x Hx. specialize (Hp x Hx). unfold keeps.
    destruct (eqk k (key x)) eqn:E; [|reflexivity].
    rewrite (eqk_trans (key e) k (key x)) in Hp; [discriminate | now rewrite eqk_sym | assumption]. }
  assert (Hid : forall l, (forall x, In x l -> keeps k x = true) -> filter (keeps k) l = l).
  { clear. induction l as [|x l IH]; intros Hl; simpl; [reflexivity|].
    rewrite (Hl x) by (simpl; auto). f_equal. apply IH. intros y Hy. apply Hl. simpl. auto. }
  rewrite filter_app. simpl. unfold keeps at 2. rewrite He. simpl.
  rewrite !Hid; auto; intros x Hx; apply Hall, in_or_app; auto.
Qed.

Definition contents (ht : hash_table) : list hash_entry := filter (entry_is_present ht) (table ht).

(** [n] steps along the probe sequence of hash [h]. *)
Definition visit (ht : hash_table) (h n : Z) : Z :=
  probe (size ht) (1 + h mod rehash ht) (h mod size ht) n.

Record wf (ht : hash_table) : Prop := {
  wf_equals : key_equals_function ht = eqk;
  wf_hash : match key_hash_function ht with None => True | Some f => forall k, f k = H k end;
  wf_deleted : deleted_key ht <> NULL;
  wf_index : good_index (size_index ht);
  wf_size : size ht = hs_size (size_at (size_index ht));
  wf_rehash : rehash ht = hs_rehash (size_at (size_index ht));
  wf_max : max_entries ht = hs_max_entries (size_at (size_index ht));
  wf_length : Z.of_nat (length (table ht)) = size ht;
  wf_entries : entries ht = Z.of_nat (length (contents ht));
  wf_load : entries ht <= max_entries ht;
  wf_stored : forall e, In e (contents ht) -> hash e = H (key e);
  wf_unique : uniq (contents ht);
  wf_chain : forall i, 0 <= i < size ht -> entry_is_present ht (slot (table ht) i) = true ->
    exists n, 0 <= n < size ht /\ visit ht (hash (slot (table ht) i)) n = i /\
      forall m, 0 <= m < n -> entry_is_free (slot (table ht) (visit ht (hash (slot (table ht) i)) m)) = false
}.

Lemma present_not_free ht e : entry_is_present ht e = true -> entry_is_free e = false.
Proof. unfold entry_is_present, entry_is_free. intros E. zbool. now apply Z.eqb_neq. Qed.

Lemma contents_In ht e : In e (contents ht) <-> In e (table ht) /\ entry_is_present ht e = true.
Proof. apply filter_In. Qed.

Lemma wf_step ht h : wf ht -> 0 < 1 + h mod rehash ht < size ht /\ prime (size ht) /\ 2 * size ht <= 2 ^ 32.
Proof.
  intros []. destruct (size_at_props _ wf_index0) as (Hp & Hr & Hb & _).
  rewrite wf_size0, wf_rehash0. pose proof (Z.mod_pos_bound h (hs_rehash (size_at (size_index ht))) ltac:(lia)).
  split; [lia|]. split; [exact Hp | lia].
Qed.

Lemma wf_start ht h : wf ht -> 0 <= h mod size ht < size ht.
Proof. intros Hw. destruct (wf_step ht h Hw) as ([? ?] & _). apply Z.mod_pos_bound. lia. Qed.

Lemma visit_range ht h n : wf ht -> 0 <= visit ht h n < size ht.
Proof. intros Hw. destruct (wf_step ht h Hw) as (Hs & _). now apply probe_range. Qed.

Lemma visit_0 ht h : wf ht -> visit ht h 0 = h mod size ht.
Proof. intros Hw. apply probe_0, wf_start, Hw. Qed.

(** One round of the loops moves one step, without wrapping. *)
Lemma next_address_visit ht h n : wf ht -> next_address ht h (visit ht h n) = visit ht h (n + 1).
Proof.
  intros Hw. destruct (wf_step ht h Hw) as (Hs & _ & Hb). pose proof (visit_range ht h n Hw).
  unfold next_address. rewrite (wrap_small 32 (1 + _)) by lia. rewrite wrap_small by lia.
  symmetry. apply probe_succ.
Qed.

(** The loops return to their start exactly when every slot has been seen. *)
Lemma back_at_start ht h n : wf ht -> 0 < n <= size ht -> (visit ht h n =? h mod size ht) = (n =? size ht).
Proof.
  intros Hw Hn. destruct (wf_step ht h Hw) as (Hs & Hp & _). pose proof (wf_start ht h Hw) as Ha.
  unfold visit. destruct (Z.eqb_spec n (size ht)) as [->|Hne].
  - rewrite probe_cycle by assumption. apply Z.eqb_refl.
  - apply Z.eqb_neq, probe_no_return; lia || assumption.
Qed.

Lemma visit_surj ht h i : wf ht -> 0 <= i < size ht -> exists n, 0 <= n < size ht /\ visit ht h n = i.
Proof. intros Hw Hi. destruct (wf_step ht h Hw) as (Hs & Hp & _). apply probe_surj; auto using wf_start. Qed.

(** ** Search *)

(** The entry the loops look for. *)
Definition matches (ht : hash_table) (h k : Z) (e : hash_entry) : bool :=
  entry_is_present ht e && (hash e =? h) && key_equals_function ht k (key e).

(** Nothing in the first [n] slots of the probe sequence is free or matches. *)
Definition passed (ht : hash_table) (h k n : Z) : Prop :=
  forall m, 0 <= m < n ->
    entry_is_free (slot (table ht) (visit ht h m)) = false /\
    matches ht h k (slot (table ht) (visit ht h m)) = false.

Lemma passed_step ht h k n :
  passed ht h k n -> entry_is_free (slot (table ht) (visit ht h n)) = false ->
  matches ht h k (slot (table ht) (visit ht h n)) = false -> passed ht h k (n + 1).
Proof.
  intros Hp Hf Hm m Hrange. destruct (Z.eq_dec m n) as [->|]; [auto | apply Hp; lia].
Qed.

(** The loops stop short of [k]: the table does not contain it. *)
Definition dead_end (ht : hash_table) (h k n : Z) : Prop :=
  passed ht h k n /\ (n = size ht \/ entry_is_free (slot (table ht) (visit ht h n)) = true).

Lemma dead_end_absent ht k n :
  wf ht -> 0 <= n <= size ht -> dead_end ht (H k) k n ->
  forall e, In e (contents ht) -> eqk k (key e) = false.
Proof.
  intros Hw Hn [Hp Hend] e He. destruct (eqk k (key e)) eqn:E; [exfalso|reflexivity].
  apply contents_In in He as Hin. destruct Hin as [Hin Hpres].
  destruct (In_slot _ _ Hin) as (i & Hi & Es). rewrite (wf_length _ Hw) in Hi.
  assert (Hh : hash e = H k) by (rewrite (wf_stored _ Hw e He); symmetry; now apply H_eqk).
  destruct (wf_chain _ Hw i Hi) as (m & Hm & Hv & Hbefore); [now rewrite Es|]. rewrite Es, Hh in *.
  destruct (Z_lt_ge_dec m n) as [Hlt|Hge].
  - destruct (Hp m ltac:(lia)) as [_ Hmatch]. rewrite Hv, Es in Hmatch. unfold matches in Hmatch.
    rewrite Hpres, Hh, Z.eqb_refl, (wf_equals _ Hw), E in Hmatch. discriminate.
  - destruct Hend as [->|Hfree]; [lia|]. destruct (Z.eq_dec m n) as [->|].
    + rewrite Hv, Es in Hfree. apply present_not_free in Hpres. congruence.
    + rewrite (Hbefore n ltac:(lia)) in Hfree. discriminate.
Qed.

Lemma search_loop_spec ht h k fuel n :
  wf ht -> 0 <= n < size ht -> Z.of_nat fuel = size ht - n -> passed ht h k n ->
  (exists i, search_loop fuel ht h k (h mod size ht) (visit ht h n) = Ret (Some i) /\
     0 <= i < size ht /\ matches ht h k (slot (table ht) i) = true) \/
  (search_loop fuel ht h k (h mod size ht) (visit ht h n) = Ret None /\
     exists m, 0 <= m <= size ht /\ dead_end ht h k m).
Proof.
  intros Hw. revert n. induction fuel as [|fuel IH]; intros n Hn Hf Hp; [lia|].
  cbn [search_loop]. set (e := slot (table ht) (visit ht h n)).
  destruct (entry_is_free e) eqn:Efree.
  { right. split; [reflexivity|]. exists n. split; [lia|]. split; [assumption | now right]. }
  fold (matches ht h k e). destruct (matches ht h k e) eqn:Em.
  { left. exists (visit ht h n). split; [reflexivity|]. split; [now apply visit_range | assumption]. }
  pose proof (passed_step _ _ _ _ Hp Efree Em) as Hp'. cbv zeta.
  rewrite next_address_visit, back_at_start by (assumption || lia).
  destruct (Z.eqb_spec (n + 1) (size ht)) as [E|E].
  - right. split; [reflexivity|]. exists (n + 1). split; [lia|]. split; [assumption | now left].
  - apply IH; auto; lia.
Qed.

Lemma passed_0 ht h k : passed ht h k 0.
Proof. intros m Hm. lia. Qed.

(** The search finds the entry with an equal key if there is one. *)
Lemma hash_table_search_spec ht k :
  wf ht ->
  (exists i, hash_table_search ht (H k) k = Ret (Some i) /\ 0 <= i < size ht /\
     In (slot (table ht) i) (contents ht) /\ eqk k (key (slot (table ht) i)) = true) \/
  (hash_table_search ht (H k) k = Ret None /\ forall e, In e (contents ht) -> eqk k (key e) = false).
Proof.
  intros Hw. destruct (wf_step ht (H k) Hw) as (Hs & _).
  assert (E : hash_table_search ht (H k) k =
              search_loop (Z.to_nat (size ht)) ht (H k) k (H k mod size ht) (visit ht (H k) 0))
    by (unfold hash_table_search; now rewrite visit_0).
  rewrite E.
  destruct (search_loop_spec ht (H k) k (Z.to_nat (size ht)) 0 Hw) as [(i & Hr & Hi & Hm)|[Hr (m & Hm & Hd)]];
    [lia | lia | apply passed_0 | left | right].
  - exists i. unfold matches in Hm. rewrite (wf_equals _ Hw) in Hm. zbool. repeat split; try assumption; try lia.
    apply contents_In. split; [|assumption]. apply slot_In. rewrite (wf_length _ Hw). assumption.
  - split; [assumption|]. eapply dead_end_absent; eassumption.
Qed.

(** ** Insertion *)

(** [available_entry] after [n] slots: the first that holds no entry. *)
Definition avail_ok (ht : hash_table) (h n : Z) (av : option Z) : Prop :=
  match av with
  | None => forall m, 0 <= m < n -> entry_is_present ht (slot (table ht) (visit ht h m)) = true
  | Some i => exists m, 0 <= m < n /\ visit ht h m = i /\
      entry_is_present ht (slot (table ht) i) = false /\
      forall m', 0 <= m' < m -> entry_is_present ht (slot (table ht) (visit ht h m')) = true
  end.

Lemma avail_step ht h n av :
  0 <= n -> avail_ok ht h n av ->
  avail_ok ht h (n + 1)
    (if negb (entry_is_present ht (slot (table ht) (visit ht h n)))
     then match av with None => Some (visit ht h n) | Some _ => av end else av).
Proof.
  intros Hn Ha. destruct (entry_is_present ht _) eqn:Ep; cbn [negb]; destruct av as [i|]; cbn in *.
  - destruct Ha as (m & Hm & Hrest). exists m. split; [lia | exact Hrest].
  - intros m Hm. destruct (Z.eq_dec m n) as [->|]; [assumption | apply Ha; lia].
  - destruct Ha as (m & Hm & Hrest). exists m. split; [lia | exact Hrest].
  - exists n. repeat split; auto; lia.
Qed.

Lemma not_free_matches ht h k e :
  entry_is_free e = false ->
  negb (entry_is_deleted ht e) && (hash e =? h) && key_equals_function ht k (key e) = matches ht h k e.
Proof.
  unfold matches, entry_is_present, entry_is_free, entry_is_deleted. intros ->. reflexivity.
Qed.

Lemma free_not_present ht e : entry_is_free e = true -> entry_is_present ht e = false.
Proof. unfold entry_is_free, entry_is_present. now intros ->. Qed.

Lemma insert_loop_spec ht h k fuel n av :
  wf ht -> 0 <= n < size ht -> Z.of_nat fuel = size ht - n -> passed ht h k n -> avail_ok ht h n av ->
  (exists i, insert_loop fuel ht h k (h mod size ht) (visit ht h n) av = Ret (Replace i) /\
     0 <= i < size ht /\ matches ht h k (slot (table ht) i) = true) \/
  (exists av', insert_loop fuel ht h k (h mod size ht) (visit ht h n) av = Ret (Available av') /\
     exists m, 0 <= m <= size ht /\ dead_end ht h k m /\ avail_ok ht h (Z.min (m + 1) (size ht)) av').
Proof.
  intros Hw. revert n av. induction fuel as [|fuel IH]; intros n av Hn Hf Hp Ha; [lia|].
  cbn [insert_loop]. pose proof (avail_step ht h n av ltac:(lia) Ha) as Ha'.
  set (e := slot (table ht) (visit ht h n)) in *. set (av' := if negb _ then _ else _) in *. cbv zeta.
  destruct (entry_is_free e) eqn:Efree.
  { rewrite (free_not_present ht e Efree). right. exists av'. split; [reflexivity|]. exists n.
    split; [lia|]. split; [split; [assumption | now right]|]. now rewrite Z.min_l by lia. }
  rewrite andb_false_r, not_free_matches by assumption.
  destruct (matches ht h k e) eqn:Em.
  { left. exists (visit ht h n). split; [reflexivity|]. split; [now apply visit_range | assumption]. }
  pose proof (passed_step _ _ _ _ Hp Efree Em) as Hp'.
  rewrite next_address_visit, back_at_start by (assumption || lia).
  destruct (Z.eqb_spec (n + 1) (size ht)) as [E|E].
  - right. exists av'. split; [reflexivity|]. exists (n + 1).
    split; [lia|]. split; [split; [assumption | now left]|]. rewrite Z.min_r by lia. now rewrite <- E.
  - apply IH; auto; lia.
Qed.

(** [ht'] has the configuration of [ht]. *)
Definition same_config (ht ht' : hash_table) : Prop :=
  key_equals_function ht' = key_equals_function ht /\ key_hash_function ht' = key_hash_function ht /\
  deleted_key ht' = deleted_key ht /\ size_index ht' = size_index ht /\ size ht' = size ht /\
  rehash ht' = rehash ht /\ max_entries ht' = max_entries ht.

(** The effect of an insertion that does not resize. *)
Definition inserted (ht : hash_table) (k d : Z) (i : Z) (ht' : hash_table) : Prop :=
  wf ht' /\ 0 <= i < size ht' /\ slot (table ht') i = Entry (H k) k d /\
  Permutation (contents ht') (Entry (H k) k d :: filter (keeps k) (contents ht)) /\
  same_config ht ht'.

(** Overwriting a slot keeps the probe chains, if it was free only when the
    new entry's chain leads to it, and is not free afterwards. *)
Lemma chain_store ht i e :
  wf ht -> 0 <= i < size ht -> entry_is_free e = false ->
  (entry_is_present ht e = true -> exists n, 0 <= n < size ht /\ visit ht (hash e) n = i /\
     forall m, 0 <= m < n -> entry_is_free (slot (table ht) (visit ht (hash e) m)) = false) ->
  forall ht', table ht' = set_nth (Z.to_nat i) e (table ht) -> size ht' = size ht -> rehash ht' = rehash ht ->
  deleted_key ht' = deleted_key ht ->
  forall j, 0 <= j < size ht' -> entry_is_present ht' (slot (table ht') j) = true ->
    exists n, 0 <= n < size ht' /\ visit ht' (hash (slot (table ht') j)) n = j /\
      forall m, 0 <= m < n -> entry_is_free (slot (table ht') (visit ht' (hash (slot (table ht') j)) m)) = false.
Proof.
  intros Hw Hi Hnf Hnew ht' Et Es Er Ed j Hj Hpres.
  assert (Ev : forall h n, visit ht' h n = visit ht h n) by (intros; unfold visit; now rewrite Es, Er).
  assert (Ep : forall x, entry_is_present ht' x = entry_is_present ht x)
    by (intros; unfold entry_is_present; now rewrite Ed).
  assert (Hslot : forall m, 0 <= m -> slot (table ht') m = if m =? i then e else slot (table ht) m)
    by (intros; rewrite Et; apply slot_set_nth; rewrite ?(wf_length _ Hw); lia).
  assert (Hkeep : forall m, 0 <= m -> entry_is_free (slot (table ht) m) = false ->
                  entry_is_free (slot (table ht') m) = false).
  { intros m Hm Hf. rewrite Hslot by assumption. now destruct (m =? i). }
  rewrite Ep in Hpres. rewrite Es in Hj |- *. rewrite !(Hslot j) in * by lia.
  assert (Hchain : exists n, 0 <= n < size ht /\ visit ht (hash (if j =? i then e else slot (table ht) j)) n = j /\
    forall m, 0 <= m < n -> entry_is_free (slot (table ht) (visit ht (hash (if j =? i then e else slot (table ht) j)) m)) = false).
  { destruct (Z.eqb_spec j i) as [->|]; [now apply Hnew | now apply (wf_chain _ Hw)]. }
  destruct Hchain as (n & Hn & Hv & Hb). exists n. split; [assumption|]. rewrite Ev. split; [assumption|].
  intros m Hm. rewrite Ev. apply Hkeep; [apply visit_range, Hw | now apply Hb].
Qed.

(** One slot of a well-formed table overwritten with a live entry. *)
Lemma store_live ht ht' i k d rest :
  wf ht -> same_config ht ht' -> 0 <= i < size ht -> k <> NULL -> k <> deleted_key ht ->
  table ht' = set_nth (Z.to_nat i) (Entry (H k) k d) (table ht) ->
  (exists n, 0 <= n < size ht /\ visit ht (H k) n = i /\
     forall m, 0 <= m < n -> entry_is_free (slot (table ht) (visit ht (H k) m)) = false) ->
  Permutation (contents ht') (Entry (H k) k d :: rest) -> rest = filter (keeps k) (contents ht) ->
  entries ht' = Z.of_nat (S (length rest)) -> entries ht' <= max_entries ht ->
  inserted ht k d i ht'.
Proof.
  intros Hw Hc Hi Hk Hkd Et Hchain Hperm Hrest Hent Hload.
  assert (Hlive : entry_is_present ht (Entry (H k) k d) = true).
  { unfold entry_is_present. cbn. destruct (Z.eqb_spec k NULL), (Z.eqb_spec k (deleted_key ht)); tauto. }
  assert (Hu : uniq (Entry (H k) k d :: rest)).
  { rewrite Hrest. split; [|apply uniq_filter, Hw]. intros x Hx. apply filter_In in Hx. cbn.
    destruct Hx as [_ Hx]. unfold keeps in Hx. now apply negb_true_iff in Hx. }
  pose proof Hc as (Ce & Ch & Cd & Ci & Cs & Cr & Cm).
  pose proof Hw as []. split; [|split; [rewrite Cs; lia|]].
  - constructor; try (rewrite ?Ce, ?Ch, ?Cd, ?Ci, ?Cs, ?Cr, ?Cm; assumption).
    + rewrite Et, set_nth_length, Cs. assumption.
    + rewrite Hent, (Permutation_length Hperm). reflexivity.
    + intros e He. apply (Permutation_in _ Hperm) in He. destruct He as [<-|He]; [reflexivity|].
      rewrite Hrest in He. apply filter_In in He. apply wf_stored0. tauto.
    + eapply uniq_perm; [apply Permutation_sym, Hperm | exact Hu].
    + apply (chain_store ht i (Entry (H k) k d)); auto. eapply present_not_free, Hlive.
  - rewrite Et, slot_set_nth, Z.eqb_refl by lia. rewrite <- Hrest. auto.
Qed.

(** Splitting the table at a slot. *)
Lemma contents_split ht i e :
  0 <= i < Z.of_nat (length (table ht)) ->
  exists l1 l2,
    contents ht = filter (entry_is_present ht) l1 ++
      (if entry_is_present ht (slot (table ht) i) then [slot (table ht) i] else []) ++
      filter (entry_is_present ht) l2 /\
    filter (entry_is_present ht) (set_nth (Z.to_nat i) e (table ht)) =
      filter (entry_is_present ht) l1 ++ (if entry_is_present ht e then [e] else []) ++
      filter (entry_is_present ht) l2.
Proof.
  intros Hi. destruct (set_nth_split (Z.to_nat i) e free_entry (table ht)) as (l1 & l2 & E & _ & Es); [lia|].
  fold (slot (table ht) i) in E. exists l1, l2. unfold contents. rewrite Es.
  split; [rewrite E at 1|]; rewrite filter_app; cbn [filter];
    destruct (entry_is_present ht _); reflexivity.
Qed.

Lemma filter_keeps_all k l : (forall e, In e l -> eqk k (key e) = false) -> filter (keeps k) l = l.
Proof.
  induction l as [|x l IH]; intros Hl; simpl; [reflexivity|]. unfold keeps at 1.
  rewrite (Hl x) by (simpl; auto). simpl. f_equal. apply IH. intros y Hy. apply Hl. simpl. auto.
Qed.

Lemma live_present ht h k d : k <> NULL -> k <> deleted_key ht -> entry_is_present ht (Entry h k d) = true.
Proof. unfold entry_is_present. cbn. destruct (Z.eqb_spec k NULL), (Z.eqb_spec k (deleted_key ht)); tauto. Qed.

Lemma wf_max_size ht : wf ht -> 0 < max_entries ht < size ht /\ 2 * size ht <= 2 ^ 32.
Proof.
  intros Hw. destruct (size_at_props _ (wf_index _ Hw)) as (_ & _ & Hb & Hmx).
  rewrite <- (wf_max _ Hw), <- (wf_size _ Hw) in Hmx. rewrite <- (wf_size _ Hw) in Hb. lia.
Qed.

(** A table that holds fewer entries than slots has a slot without entry. *)
Lemma some_slot_empty ht : wf ht -> exists i, 0 <= i < size ht /\ entry_is_present ht (slot (table ht) i) = false.
Proof.
  intros Hw. pose proof (wf_length _ Hw) as Hlen.
  destruct (filter_shorter (entry_is_present ht) (table ht)) as (x & Hx & Ex).
  { fold (contents ht). pose proof (wf_entries _ Hw). pose proof (wf_load _ Hw). pose proof (wf_max_size _ Hw). lia. }
  destruct (In_slot _ _ Hx) as (j & Hj & Ej). exists j. rewrite Ej. split; [lia | assumption].
Qed.

(** The probing of an insertion ends with an available entry. *)
Lemma avail_found ht h k m :
  wf ht -> 0 <= m <= size ht -> dead_end ht h k m -> ~ avail_ok ht h (Z.min (m + 1) (size ht)) None.
Proof.
  intros Hw Hmr [Hp Hend] Hav. destruct (Z.eq_dec m (size ht)) as [->|Hne].
  - destruct (some_slot_empty ht Hw) as (j & Hj & Ej). destruct (visit_surj ht h j Hw Hj) as (n & Hn & Ev).
    specialize (Hav n ltac:(lia)). congruence.
  - destruct Hend as [->|Hfree]; [lia|]. specialize (Hav m ltac:(lia)).
    apply (free_not_present ht) in Hfree. congruence.
Qed.

Lemma replace_inserted ht k d i :
  wf ht -> k <> NULL -> k <> deleted_key ht -> 0 <= i < size ht -> matches ht (H k) k (slot (table ht) i) = true ->
  inserted ht k d i (store i (Entry (H k) k d) ht).
Proof.
  intros Hw Hk Hkd Hi Hm. pose proof (wf_length _ Hw) as Hlen. unfold matches in Hm. rewrite (wf_equals _ Hw) in Hm.
  apply andb_true_iff in Hm as [Hm Hek]. apply andb_true_iff in Hm as [Hpres Hh]. apply Z.eqb_eq in Hh.
  destruct (contents_split ht i (Entry (H k) k d) ltac:(lia)) as (l1 & l2 & Ec & En).
  rewrite Hpres in Ec. rewrite (live_present ht (H k) k d Hk Hkd) in En. cbn [app] in Ec, En.
  assert (Erest : filter (keeps k) (contents ht) =
                  filter (entry_is_present ht) l1 ++ filter (entry_is_present ht) l2).
  { rewrite Ec. apply filter_keeps_unique; [rewrite <- Ec; apply Hw | assumption]. }
  apply (store_live ht _ i k d (filter (entry_is_present ht) l1 ++ filter (entry_is_present ht) l2));
    auto; try apply Hw.
  - now repeat split.
  - destruct (wf_chain _ Hw i Hi Hpres) as (n & Hn). rewrite Hh in Hn. eauto.
  - change (contents _) with (filter (entry_is_present ht) (set_nth (Z.to_nat i) (Entry (H k) k d) (table ht))).
    rewrite En. apply Permutation_sym, Permutation_middle.
  - cbn. rewrite (wf_entries _ Hw), Ec, !length_app. cbn [length]. lia.
Qed.

(** [ht1] is [ht] with the deleted count adjusted. *)
Lemma available_inserted ht ht1 k d i n :
  wf ht -> k <> NULL -> k <> deleted_key ht -> entries ht < max_entries ht ->
  (forall e, In e (contents ht) -> eqk k (key e) = false) ->
  0 <= n < size ht -> visit ht (H k) n = i -> entry_is_present ht (slot (table ht) i) = false ->
  (forall m, 0 <= m < n -> entry_is_present ht (slot (table ht) (visit ht (H k) m)) = true) ->
  same_config ht ht1 -> table ht1 = table ht -> entries ht1 = entries ht ->
  inserted ht k d i ((store i (Entry (H k) k d) ht1) <| entries := u32 (entries (store i (Entry (H k) k d) ht1) + 1) |>).
Proof.
  intros Hw Hk Hkd Hroom Habs Hn Hv Hnp Hbefore C1 T1 N1.
  assert (Hi : 0 <= i < size ht) by (rewrite <- Hv; now apply visit_range).
  pose proof (wf_length _ Hw) as Hlen. pose proof (wf_entries _ Hw) as Hent. pose proof (wf_max_size _ Hw).
  destruct (contents_split ht i (Entry (H k) k d) ltac:(lia)) as (l1 & l2 & Ec & En).
  rewrite Hnp in Ec. rewrite (live_present ht (H k) k d Hk Hkd) in En. cbn [app] in Ec, En.
  assert (Ep : forall x, entry_is_present ht1 x = entry_is_present ht x)
    by (intros; unfold entry_is_present; destruct C1 as (_ & _ & -> & _); reflexivity).
  assert (En1 : u32 (entries ht1 + 1) = entries ht + 1) by (rewrite N1; apply wrap_small; lia).
  apply (store_live ht _ i k d (contents ht)); auto.
  - cbn. now rewrite T1.
  - exists n. split; [lia|]. split; [assumption|]. intros m' Hm'. eapply present_not_free, Hbefore, Hm'.
  - change (contents (_ <| entries := _ |>)) with
      (filter (entry_is_present ht1) (set_nth (Z.to_nat i) (Entry (H k) k d) (table ht1))).
    rewrite T1, (filter_ext _ _ Ep), En, Ec. apply Permutation_sym, Permutation_middle.
  - symmetry. now apply filter_keeps_all.
  - cbn [entries update]. cbn. rewrite En1. lia.
  - cbn. rewrite En1. lia.
Qed.

Lemma insert_probe_spec ht k d :
  wf ht -> k <> NULL -> k <> deleted_key ht -> entries ht < max_entries ht ->
  exists i ht', insert_probe ht (H k) k d = Ret (Some i, ht') /\ inserted ht k d i ht'.
Proof.
  intros Hw Hk Hkd Hroom. destruct (wf_step ht (H k) Hw) as (Hs & _).
  assert (E : insert_loop (Z.to_nat (size ht)) ht (H k) k (H k mod size ht) (H k mod size ht) None =
              insert_loop (Z.to_nat (size ht)) ht (H k) k (H k mod size ht) (visit ht (H k) 0) None)
    by (now rewrite visit_0).
  unfold insert_probe. cbv zeta. rewrite E.
  destruct (insert_loop_spec ht (H k) k (Z.to_nat (size ht)) 0 None Hw)
    as [(i & -> & Hi & Hm)|(av & -> & m & Hmr & Hd & Hav)];
    [lia | lia | apply passed_0 | intros m Hm; lia | |]; cbn [obind].
  - exists i, (store i (Entry (H k) k d) ht). split; [|now apply replace_inserted].
    unfold matches in Hm. zbool. congruence.
  - destruct av as [i|]; [|exfalso; now apply (avail_found ht (H k) k m Hw Hmr Hd)].
    destruct Hav as (n & Hn & Hv & Hnp & Hbefore).
    eexists i, _. split; [reflexivity|].
    apply (available_inserted ht _ k d i n); auto; try lia.
    + eapply dead_end_absent; eassumption.
    + destruct (entry_is_deleted _ _); repeat split.
    + destruct (entry_is_deleted _ _); reflexivity.
    + destruct (entry_is_deleted _ _); reflexivity.
Qed.

(** ** Resizing *)

(** A table without tombstones. *)
Definition fresh (ht : hash_table) : Prop :=
  deleted_entries ht = 0 /\ forall e, In e (table ht) -> key e <> deleted_key ht.

Lemma fresh_slot ht i : wf ht -> fresh ht -> entry_is_deleted ht (slot (table ht) i) = false.
Proof.
  intros Hw [_ Hf]. apply Z.eqb_neq. unfold slot.
  destruct (nth_in_or_default (Z.to_nat i) (table ht) free_entry) as [Hin| ->]; [auto|].
  intros E. now apply (wf_deleted _ Hw).
Qed.

Lemma set_nth_In {A} n (x y : A) l : In y (set_nth n x l) -> y = x \/ In y l.
Proof.
  revert n. induction l as [|z l IH]; intros [|n]; simpl; try tauto; intros [E|Hy]; auto.
  destruct (IH n Hy); auto.
Qed.

Lemma insert_probe_fresh ht h k d r ht' :
  wf ht -> fresh ht -> k <> deleted_key ht -> insert_probe ht h k d = Ret (r, ht') -> fresh ht'.
Proof.
  intros Hw Hf Hk E. pose proof Hf as [Hd Hall]. unfold insert_probe in E. cbv zeta in E.
  apply obind_Ret in E as ([i|[i|]] & _ & E); try rewrite fresh_slot in E by assumption;
    injection E as <- <-; [| |assumption]; (split; [exact Hd|]);
    intros e He; apply set_nth_In in He as [->|He]; auto.
Qed.

Lemma same_config_trans a b c : same_config a b -> same_config b c -> same_config a c.
Proof. unfold same_config. intuition congruence. Qed.

(** Entries that can be inserted. *)
Definition insertable (ht : hash_table) (e : hash_entry) : Prop :=
  hash e = H (key e) /\ key e <> NULL /\ key e <> deleted_key ht.

Lemma contents_insertable ht e : wf ht -> In e (contents ht) -> insertable ht e.
Proof.
  intros Hw He. split; [now apply (wf_stored _ Hw)|]. apply contents_In in He as [_ Hp].
  unfold entry_is_present in Hp. zbool. auto.
Qed.

(** No insertion into the new table resizes it again. *)
Lemma insert_no_resize ht h k d :
  k <> NULL -> deleted_entries ht = 0 -> 0 <= entries ht < max_entries ht -> max_entries ht < 2 ^ 32 ->
  forall depth, hash_table_insert_d (S depth) ht h k d = insert_probe ht h k d.
Proof.
  intros Hk Hd He Hm depth. cbn [hash_table_insert_d]. unfold c_assert.
  destruct (Z.eqb_spec k NULL); [tauto|]. cbn [negb].
  rewrite !Z.geb_leb, Hd, Z.add_0_l, wrap_small by lia. now destruct (Z.leb_spec (max_entries ht) (entries ht)); [lia|].
Qed.

Lemma reinsert_spec es ht :
  wf ht -> fresh ht -> uniq (es ++ contents ht) -> (forall e, In e es -> insertable ht e) ->
  Z.of_nat (length es) + entries ht <= max_entries ht ->
  exists ht', reinsert (hash_table_insert_d 1) es ht = Ret ht' /\ wf ht' /\ fresh ht' /\
    same_config ht ht' /\ Permutation (contents ht') (es ++ contents ht).
Proof.
  revert ht. induction es as [|e es IH]; intros ht Hw Hf Hu Hins Hlen; cbn [reinsert].
  { exists ht. repeat (split; auto). }
  cbn [length app uniq] in Hlen, Hu. destruct Hu as [Hue Hu].
  destruct (Hins e (or_introl eq_refl)) as (Hh & Hk & Hkd). pose proof (wf_max_size _ Hw) as Hmax.
  pose proof (wf_entries _ Hw) as Hent. pose proof (proj1 Hf) as Hd.
  rewrite insert_no_resize, Hh by (assumption || lia).
  destruct (insert_probe_spec ht (key e) (data e) Hw Hk Hkd) as (i & ht1 & E & Hw1 & _ & _ & Hp1 & Hc1); [lia|].
  rewrite E. cbn [obind]. apply insert_probe_fresh in E as Hf1; auto.
  rewrite <- Hh in Hp1. replace (Entry (hash e) (key e) (data e)) with e in Hp1 by (now destruct e).
  rewrite filter_keeps_all in Hp1 by (intros x Hx; apply Hue, in_or_app; now right).
  pose proof Hc1 as (_ & _ & Cd & _ & _ & _ & Cm).
  assert (Hmid : Permutation (es ++ contents ht1) (e :: es ++ contents ht)).
  { etransitivity; [apply Permutation_app_head, Hp1|]. apply Permutation_sym, Permutation_middle. }
  destruct (IH ht1) as (ht' & Er & Hw' & Hf' & Hc' & Hp'); auto.
  - eapply uniq_perm; [apply Permutation_sym, Hmid|]. now split.
  - intros x Hx. unfold insertable. rewrite Cd. apply Hins. now right.
  - rewrite (wf_entries _ Hw1), (Permutation_length Hp1), Cm. cbn [length]. lia.
  - exists ht'. split; [assumption|]. split; [assumption|]. split; [assumption|].
    split; [eapply same_config_trans; eassumption | etransitivity; eassumption].
Qed.

Lemma contents_resized i ht : wf ht -> contents (resized i ht) = [].
Proof.
  intros Hw.
  change (filter (entry_is_present ht) (repeat free_entry (Z.to_nat (hs_size (size_at i)))) = []).
  generalize (Z.to_nat (hs_size (size_at i))) as n. induction n as [|n IH]; [reflexivity|]. exact IH.
Qed.

Lemma slot_repeat n i : slot (repeat free_entry n) i = free_entry.
Proof. apply nth_repeat. Qed.

Lemma resized_wf i ht : wf ht -> good_index i -> wf (resized i ht) /\ fresh (resized i ht).
Proof.
  intros Hw Hi. destruct (size_at_props i Hi) as (Hp & Hr & Hb & Hm).
  pose proof (contents_resized i ht Hw) as Hc. split.
  - constructor; try reflexivity; try apply Hw; try assumption.
    + change (table _) with (repeat free_entry (Z.to_nat (hs_size (size_at i)))).
      rewrite repeat_length. change (size _) with (hs_size (size_at i)). lia.
    + rewrite Hc. reflexivity.
    + change (0 <= hs_max_entries (size_at i)). lia.
    + rewrite Hc. intros e [].
    + rewrite Hc. exact I.
    + intros j _ Hpres.
      change (table _) with (repeat free_entry (Z.to_nat (hs_size (size_at i)))) in Hpres.
      rewrite slot_repeat in Hpres. discriminate.
  - split; [reflexivity|]. intros e He. apply repeat_spec in He as ->. intros E. now apply (wf_deleted _ Hw).
Qed.

(** Resizing keeps the entries. *)
Lemma rehash_spec i ht :
  wf ht -> good_index i -> entries ht <= hs_max_entries (size_at i) ->
  exists ht', _mesa_hash_table_rehash ht i = Ret ht' /\ wf ht' /\ fresh ht' /\
    same_config (resized i ht) ht' /\ Permutation (contents ht') (contents ht).
Proof.
  intros Hw Hi Hroom. unfold _mesa_hash_table_rehash, rehash_with, ARRAY_SIZE_hash_sizes.
  rewrite Z.geb_leb. destruct (Z.leb_spec 31 i) as [Hbad|_]; [unfold good_index in Hi; lia|].
  destruct (resized_wf i ht Hw Hi) as [Hw' Hf']. fold (contents ht).
  pose proof (contents_resized i ht Hw) as Hc.
  destruct (reinsert_spec (contents ht) (resized i ht)) as (ht' & E & Hrest); auto.
  - rewrite Hc, app_nil_r. apply Hw.
  - intros e He. exact (contents_insertable ht e Hw He).
  - rewrite <- (wf_entries _ Hw). change (entries ht + 0 <= hs_max_entries (size_at i)). lia.
  - exists ht'. rewrite Hc, app_nil_r in Hrest. auto.
Qed.

(** ** The exported operations *)

(** [ht'] is a good table with the settings of [ht] and the contents [l]. *)
Definition becomes (ht ht' : hash_table) (l : list hash_entry) : Prop :=
  wf ht' /\ deleted_key ht' = deleted_key ht /\ key_hash_function ht' = key_hash_function ht /\
  Permutation (contents ht') l.

Lemma becomes_entries ht ht' l : becomes ht ht' l -> entries ht' = Z.of_nat (length l).
Proof. intros (Hw & _ & _ & Hp). rewrite (wf_entries _ Hw). f_equal. now apply Permutation_length. Qed.

(** The resize before an insertion, if any, leaves room for it. *)
Lemma make_room_spec ht :
  wf ht -> entries ht < 2 ^ 30 ->
  exists ht1,
    (if entries ht >=? max_entries ht then rehash_with (hash_table_insert_d 1) (size_index ht + 1) ht
     else if u32 (deleted_entries ht + entries ht) >=? max_entries ht
     then rehash_with (hash_table_insert_d 1) (size_index ht) ht else Ret ht) = Ret ht1 /\
    becomes ht ht1 (contents ht) /\ entries ht1 < max_entries ht1.
Proof.
  intros Hw Hb. pose proof (wf_load _ Hw) as Hl. pose proof (wf_index _ Hw) as Hi.
  assert (Hstep : forall i, good_index i -> entries ht < hs_max_entries (size_at i) ->
    exists ht1, rehash_with (hash_table_insert_d 1) i ht = Ret ht1 /\
      becomes ht ht1 (contents ht) /\ entries ht1 < max_entries ht1).
  { intros i Hgi Hroom. destruct (rehash_spec i ht Hw Hgi ltac:(lia)) as (ht1 & E & Hw1 & _ & Hc & Hp).
    exists ht1. split; [exact E|]. destruct Hc as (_ & Ch & Cd & _ & _ & _ & Cm).
    assert (Hbec : becomes ht ht1 (contents ht)) by (split; [|split; [|split]]; assumption).
    split; [exact Hbec|]. rewrite (becomes_entries _ _ _ Hbec), Cm, <- (wf_entries _ Hw). exact Hroom. }
  rewrite !Z.geb_leb. destruct (Z.leb_spec (max_entries ht) (entries ht)) as [Hfull|Hfree].
  - apply Hstep; rewrite (wf_max _ Hw) in *.
    + pose proof (index_small _ Hi). unfold good_index in *. lia.
    + rewrite size_at_double by assumption. pose proof (wf_max_size _ Hw). rewrite (wf_max _ Hw) in *. lia.
  - destruct (Z.leb_spec (max_entries ht) (u32 (deleted_entries ht + entries ht))).
    + apply Hstep; [assumption | now rewrite <- (wf_max _ Hw)].
    + exists ht. split; [reflexivity|]. split; [|assumption]. repeat (split; auto).
Qed.

Lemma hash_table_insert_spec ht k d :
  wf ht -> entries ht < 2 ^ 30 -> k <> NULL -> k <> deleted_key ht ->
  exists i ht', hash_table_insert ht (H k) k d = Ret (Some i, ht') /\
    0 <= i < size ht' /\ slot (table ht') i = Entry (H k) k d /\
    becomes ht ht' (Entry (H k) k d :: filter (keeps k) (contents ht)).
Proof.
  intros Hw Hb Hk Hkd. unfold hash_table_insert. cbn [hash_table_insert_d].
  rewrite c_assert_true by (apply negb_true_iff, Z.eqb_neq, Hk).
  destruct (make_room_spec ht Hw Hb) as (ht1 & E & (Hw1 & Ed & Eh & Hp1) & Hroom).
  cbn [hash_table_insert_d] in E. rewrite E. cbn [obind].
  destruct (insert_probe_spec ht1 k d Hw1 Hk) as (i & ht' & Ei & Hw' & Hr & Hs & Hp & Hc); [congruence | assumption |].
  exists i, ht'. destruct Hc as (_ & Ch & Cd & _). split; [assumption|]. split; [assumption|]. split; [assumption|].
  split; [assumption|]. split; [congruence|]. split; [congruence|].
  etransitivity; [exact Hp|]. apply perm_skip. now apply Permutation_filter.
Qed.

Lemma entry_eta e : Entry (hash e) (key e) (data e) = e.
Proof. now destruct e. Qed.

(** Removing an entry drops it from the contents and nothing else. *)
Lemma hash_table_remove_spec ht i :
  wf ht -> 0 <= i < size ht -> entry_is_present ht (slot (table ht) i) = true ->
  becomes ht (_mesa_hash_table_remove ht (Some i)) (filter (keeps (key (slot (table ht) i))) (contents ht)).
Proof.
  intros Hw Hi Hpres. set (e := slot (table ht) i) in *. set (ht' := _mesa_hash_table_remove _ _).
  set (tomb := Entry (hash e) (deleted_key ht) (data e)).
  assert (Htomb : entry_is_present ht tomb = false)
    by (unfold entry_is_present; cbn; now rewrite Z.eqb_refl, andb_false_r).
  destruct (contents_split ht i tomb) as (l1 & l2 & Ec & En); [rewrite (wf_length _ Hw); lia|].
  fold e in Ec. rewrite Hpres in Ec. rewrite Htomb in En. cbn [app] in Ec, En.
  change (filter _ (set_nth _ _ _)) with (contents ht') in En.
  assert (Ek : filter (keeps (key e)) (contents ht) = contents ht').
  { rewrite Ec, En. apply filter_keeps_unique; [rewrite <- Ec; apply Hw | apply eqk_refl]. }
  assert (Hsub : forall x, In x (contents ht') -> In x (contents ht))
    by (intros x Hx; rewrite <- Ek in Hx; now apply filter_In in Hx).
  assert (Hcount : entries ht' = Z.of_nat (length (contents ht')) /\ entries ht' < entries ht).
  { pose proof (wf_entries _ Hw) as He. pose proof (wf_load _ Hw). pose proof (wf_max_size _ Hw).
    rewrite Ec, length_app in He. cbn [length] in He. change (entries ht') with (u32 (entries ht - 1)).
    rewrite wrap_small, En, length_app by lia. lia. }
  split; [|split; [reflexivity | split; [reflexivity | rewrite Ek; reflexivity]]].
  pose proof Hw as []. constructor; try assumption.
  - cbn. rewrite set_nth_length. assumption.
  - apply Hcount.
  - change (max_entries ht') with (max_entries ht). lia.
  - auto.
  - rewrite <- Ek. now apply uniq_filter.
  - apply (chain_store ht i tomb); auto; [now apply Z.eqb_neq | congruence].
Qed.

Lemma map_nil_contents (p : hash_entry -> bool) t :
  filter (fun e => negb (key e =? NULL) && p e)
    (map (fun e => if entry_is_free e then e else Entry (hash e) NULL (data e)) t) = [].
Proof.
  induction t as [|e t IH]; [reflexivity|]. cbn [map filter].
  destruct (entry_is_free e) eqn:E; [unfold entry_is_free in E; rewrite E|]; cbn; exact IH.
Qed.

Lemma hash_table_clear_spec ht :
  wf ht -> fst (_mesa_hash_table_clear ht) = contents ht /\ becomes ht (snd (_mesa_hash_table_clear ht)) [].
Proof.
  intros Hw. assert (Hnil : contents (snd (_mesa_hash_table_clear ht)) = []) by apply map_nil_contents.
  split; [reflexivity|]. split; [|split; [reflexivity | split; [reflexivity | now rewrite Hnil]]].
  pose proof Hw as []. constructor; try assumption.
  - cbn. rewrite length_map. assumption.
  - rewrite Hnil. reflexivity.
  - change (0 <= max_entries ht). pose proof (wf_max_size _ Hw). lia.
  - rewrite Hnil. intros e [].
  - rewrite Hnil. exact I.
  - intros i Hi Hpres. exfalso. assert (Hin : In (slot (table (snd (_mesa_hash_table_clear ht))) i) []); [|exact Hin].
    rewrite <- Hnil. apply contents_In. split; [|assumption]. apply slot_In. cbn. rewrite length_map, wf_length0. exact Hi.
Qed.

Lemma hash_table_init_spec dk :
  dk <> NULL -> wf (_mesa_hash_table_init dk (Some H) eqk) /\ contents (_mesa_hash_table_init dk (Some H) eqk) = [].
Proof.
  intros Hdk. split; [|reflexivity]. constructor; try reflexivity; try assumption.
  - intros k. reflexivity.
  - split; vm_compute; congruence.
  - vm_compute. congruence.
  - intros e [].
  - intros i Hi Hpres. change (table _) with (repeat free_entry 5) in Hpres. rewrite slot_repeat in Hpres. discriminate.
Qed.

End Correct.
