(* ===== verification/HashTableMap.v ===== *)
(** * The hash table as a finite map

    Iteration with removal, and the refinement of an association list
    without duplicate keys by sequences of table operations. *)

From Stdlib Require Import Bool ZArith List Lia Permutation.
From S2P Require Import Prelude HashTable Probe HashTableProof.
Import ListNotations.
#[local] Open Scope bool_scope.
#[local] Open Scope Z_scope.
#[local] Open Scope c_scope.

(** ** Iteration *)

Lemma skipn_slot t i :
  0 <= i < Z.of_nat (length t) -> skipn (Z.to_nat i) t = slot t i :: skipn (Z.to_nat (i + 1)) t.
Proof.
  intros Hi. replace (Z.to_nat (i + 1)) with (S (Z.to_nat i)) by lia. unfold slot.
  assert (Hn : (Z.to_nat i < length t)%nat) by lia. revert Hn. generalize (Z.to_nat i) as n. clear i Hi.
  induction t as [|x t IH]; intros [|n] Hn; simpl in *; try lia; [reflexivity|]. apply IH. lia.
Qed.

Lemma firstn_slot t i :
  0 <= i < Z.of_nat (length t) -> firstn (Z.to_nat (i + 1)) t = firstn (Z.to_nat i) t ++ [slot t i].
Proof.
  intros Hi. replace (Z.to_nat (i + 1)) with (S (Z.to_nat i)) by lia. unfold slot.
  assert (Hn : (Z.to_nat i < length t)%nat) by lia. revert Hn. generalize (Z.to_nat i) as n. clear i Hi.
  induction t as [|x t IH]; intros [|n] Hn; simpl in *; try lia; [reflexivity|]. f_equal. apply IH. lia.
Qed.

(** The scan finds the first element of the rest of the table with [p]. *)
Lemma scan_spec p t n i :
  0 <= i -> i + Z.of_nat n = Z.of_nat (length t) ->
  (scan p t i n = None /\ filter p (skipn (Z.to_nat i) t) = []) \/
  (exists j, scan p t i n = Some j /\ i <= j < Z.of_nat (length t) /\ p (slot t j) = true /\
     filter p (skipn (Z.to_nat i) t) = slot t j :: filter p (skipn (Z.to_nat (j + 1)) t)).
Proof.
  revert i. induction n as [|n IH]; intros i Hi Hlen; cbn [scan].
  { left. split; [reflexivity|]. rewrite skipn_all2 by lia. reflexivity. }
  rewrite (skipn_slot t i) by lia. cbn [filter]. destruct (p (slot t i)) eqn:E.
  - right. exists i. repeat split; auto; lia.
  - destruct (IH (i + 1)) as [[Es Ef]|(j & Es & Hj & Ep & Ef)]; try lia; [now left|].
    right. exists j. repeat split; auto; lia.
Qed.

(** [hash_table_foreach(ht, entry) if (del(entry)) _mesa_hash_table_remove(ht, entry);],
    with the entries the body saw. *)
Fixpoint foreach_remove (del : hash_entry -> bool) (fuel : nat) (ht : hash_table) (entry : option Z)
    : outcome (list hash_entry * hash_table) :=
  match fuel with
  | O => Out_of_fuel
  | S fuel =>
      match _mesa_hash_table_next_entry ht entry with
      | None => Ret ([], ht)
      | Some i =>
          let e := slot (table ht) i in
          let! (seen, ht') :=
            foreach_remove del fuel (if del e then _mesa_hash_table_remove ht (Some i) else ht) (Some i) in
          Ret (e :: seen, ht')
      end
  end.

Definition keep_all (p : hash_entry -> bool) (es : list hash_entry) := filter (fun e => negb (p e)) es.

Section Iteration.
Context (H : Z -> Z) (eqk : Z -> Z -> bool) {HK : HashKey H eqk}.

Definition start_of (entry : option Z) : Z := match entry with None => 0 | Some i => i + 1 end.

Lemma next_entry_spec ht entry :
  wf H eqk ht -> 0 <= start_of entry <= size ht ->
  let rest i := filter (entry_is_present ht) (skipn (Z.to_nat i) (table ht)) in
  (_mesa_hash_table_next_entry ht entry = None /\ rest (start_of entry) = []) \/
  (exists j, _mesa_hash_table_next_entry ht entry = Some j /\ start_of entry <= j < size ht /\
     entry_is_present ht (slot (table ht) j) = true /\ rest (start_of entry) = slot (table ht) j :: rest (j + 1)).
Proof.
  intros Hw Hs. pose proof (wf_length _ _ _ Hw) as Hlen. cbv zeta.
  destruct (scan_spec (entry_is_present ht) (table ht) (Z.to_nat (size ht - start_of entry)) (start_of entry))
    as [Hn|(j & Hj)]; try lia; [now left|]. right. exists j. rewrite <- Hlen. exact Hj.
Qed.

(** Removal does not touch the slots after the entry. *)
Lemma skipn_set_nth {A} n m (x : A) l : (n < m)%nat -> skipn m (set_nth n x l) = skipn m l.
Proof.
  revert n m. induction l as [|y l IH]; intros n m Hn; [now destruct n|].
  destruct n as [|n], m as [|m]; try lia; [reflexivity|]. cbn [set_nth skipn]. apply IH. lia.
Qed.

Lemma uniq_extract e l :
  uniq eqk l -> In e l -> Permutation l (e :: filter (keeps eqk (key e)) l).
Proof.
  intros Hu Hin. destruct (in_split _ _ Hin) as (l1 & l2 & ->).
  rewrite (filter_keeps_unique H eqk (key e) l1 e l2 Hu (eqk_refl _)).
  apply Permutation_sym, Permutation_middle.
Qed.

Lemma remove_extracts ht i :
  wf H eqk ht -> 0 <= i < size ht -> entry_is_present ht (slot (table ht) i) = true ->
  wf H eqk (_mesa_hash_table_remove ht (Some i)) /\
  Permutation (contents ht) (slot (table ht) i :: contents (_mesa_hash_table_remove ht (Some i))).
Proof.
  intros Hw Hi Hp. destruct (hash_table_remove_spec H eqk ht i Hw Hi Hp) as (Hw' & _ & _ & Hperm).
  split; [assumption|]. etransitivity; [|apply perm_skip, Permutation_sym, Hperm].
  apply uniq_extract; [apply Hw|]. apply contents_In. split; [|assumption].
  apply slot_In. now rewrite (wf_length _ _ _ Hw).
Qed.

Lemma foreach_remove_loop del fuel ht entry :
  let rest := filter (entry_is_present ht) (skipn (Z.to_nat (start_of entry)) (table ht)) in
  wf H eqk ht -> 0 <= start_of entry <= size ht -> size ht - start_of entry < Z.of_nat fuel ->
  exists ht', foreach_remove del fuel ht entry = Ret (rest, ht') /\ wf H eqk ht' /\
    Permutation (contents ht) (filter del rest ++ contents ht').
Proof.
  cbv zeta. revert ht entry. induction fuel as [|fuel IH]; intros ht entry Hw Hs Hf; [lia|]. cbn [foreach_remove].
  destruct (next_entry_spec ht entry Hw Hs) as [[-> ->]|(j & -> & Hj & Hpres & ->)].
  { exists ht. auto. }
  set (e := slot (table ht) j) in *. set (ht1 := if del e then _ else ht).
  assert (H1 : wf H eqk ht1 /\ size ht1 = size ht /\ entry_is_present ht1 = entry_is_present ht /\
    skipn (Z.to_nat (j + 1)) (table ht1) = skipn (Z.to_nat (j + 1)) (table ht) /\
    Permutation (contents ht) ((if del e then [e] else []) ++ contents ht1)).
  { unfold ht1. destruct (del e); [|auto]. destruct (remove_extracts ht j Hw ltac:(lia) Hpres) as [Hw1 Hp1].
    split; [assumption|]. split; [reflexivity|]. split; [reflexivity|]. split; [|assumption].
    apply skipn_set_nth. lia. }
  destruct H1 as (Hw1 & Es & Ep & Esk & Hp1).
  destruct (IH ht1 (Some j) Hw1) as (ht' & -> & Hw' & Hp'); cbn [start_of]; try lia.
  cbn [start_of] in Hp'. rewrite Ep, Esk in *. exists ht'. split; [reflexivity|]. split; [assumption|].
  etransitivity; [exact Hp1|]. cbn [filter]. destruct (del e); cbn [app]; [apply perm_skip|]; assumption.
Qed.

Lemma partition_perm {A} (p : A -> bool) l : Permutation l (filter p l ++ filter (fun x => negb (p x)) l).
Proof.
  induction l as [|x l IH]; [constructor|]. cbn [filter]. destruct (p x); cbn [negb app].
  - now constructor.
  - etransitivity; [apply perm_skip, IH|]. apply Permutation_middle.
Qed.

(** Iterating over a table while removing some of its entries. *)
Lemma foreach_remove_spec del ht :
  wf H eqk ht ->
  exists ht', foreach_remove del (S (length (table ht))) ht None = Ret (contents ht, ht') /\ wf H eqk ht' /\
    Permutation (contents ht') (keep_all del (contents ht)).
Proof.
  intros Hw. pose proof (wf_length _ _ _ Hw) as Hlen.
  destruct (foreach_remove_loop del (S (length (table ht))) ht None Hw) as (ht' & E & Hw' & Hp);
    cbn [start_of]; try lia.
  exists ht'. split; [exact E|]. split; [assumption|]. apply Permutation_sym.
  apply Permutation_app_inv_l with (filter del (contents ht)).
  etransitivity; [apply Permutation_sym, partition_perm | exact Hp].
Qed.

(** [_mesa_hash_table_random_entry] fails only when no entry satisfies the
    predicate. *)
Lemma random_entry_spec ht rnd p :
  wf H eqk ht -> 0 <= rnd ->
  match _mesa_hash_table_random_entry ht rnd p with
  | Some j => 0 <= j < size ht /\ entry_is_present ht (slot (table ht) j) = true /\ p (slot (table ht) j) = true
  | None => forall e, In e (contents ht) -> p e = false
  end.
Proof.
  intros Hw Hrnd. pose proof (wf_length _ _ _ Hw) as Hlen. pose proof (wf_entries _ _ _ Hw) as Hent.
  pose proof (wf_max_size _ _ _ Hw). pose proof (Z.mod_pos_bound rnd (size ht) ltac:(lia)) as Hi.
  unfold _mesa_hash_table_random_entry. cbv zeta. destruct (Z.eqb_spec (entries ht) 0) as [E0|_].
  { intros e He. destruct (contents ht); [destruct He | cbn [length] in Hent; lia]. }
  set (q := fun e => entry_is_present ht e && p e). set (i := rnd mod size ht) in *.
  destruct (scan_spec q (table ht) (Z.to_nat (size ht - i)) i) as [[-> Hlate]|(j & -> & Hj & Hq & _)]; try lia.
  2: { unfold q in Hq. zbool. repeat split; auto; lia. }
  assert (Hfirst : length (firstn (Z.to_nat i) (table ht)) = Z.to_nat i) by (rewrite length_firstn; lia).
  assert (Hscan : forall n k, 0 <= k -> k + Z.of_nat n = i ->
            scan q (table ht) k n = scan q (firstn (Z.to_nat i) (table ht)) k n).
  { induction n as [|n IH]; intros k Hk Hn; [reflexivity|]. cbn [scan].
    replace (slot (firstn (Z.to_nat i) (table ht)) k) with (slot (table ht) k)
      by (unfold slot; rewrite nth_firstn; destruct (Nat.ltb_spec (Z.to_nat k) (Z.to_nat i)); [reflexivity | lia]).
    rewrite IH by lia. reflexivity. }
  rewrite Hscan by lia.
  destruct (scan_spec q (firstn (Z.to_nat i) (table ht)) (Z.to_nat i) 0) as [[-> Hearly]|(j & -> & Hj & Hq & _)]; try lia.
  - intros e He. apply contents_In in He as [Hin Hpres]. destruct (p e) eqn:Ep; [|reflexivity].
    assert (Hq : In e (filter q (table ht))) by (apply filter_In; unfold q; now rewrite Hpres, Ep).
    rewrite <- (firstn_skipn (Z.to_nat i) (table ht)), filter_app, Hlate in Hq.
    change (filter q (firstn (Z.to_nat i) (table ht)) = []) in Hearly. rewrite Hearly in Hq. destruct Hq.
  - rewrite Hfirst in Hj. unfold slot in Hq. rewrite nth_firstn in Hq.
    destruct (Nat.ltb_spec (Z.to_nat j) (Z.to_nat i)); [|lia]. fold (slot (table ht) j) in Hq.
    unfold q in Hq. zbool. repeat split; auto; lia.
Qed.

End Iteration.

(** ** The finite map *)

(** The specification: an association list. *)
Definition assoc := list (Z * Z).

Inductive op :=
| OpInsert (k d : Z)
| OpRemove (k : Z)
| OpSearch (k : Z)
| OpClear
| OpCount.

(** What a client sees of an operation. *)
Inductive reply :=
| Done
| Found (d : option Z)
| Count (n : Z).

Section Map.
Context (H : Z -> Z) (eqk : Z -> Z -> bool) {HK : HashKey H eqk}.

Definition differs (k : Z) (p : Z * Z) : bool := negb (eqk k (fst p)).

Definition a_step (m : assoc) (o : op) : reply * assoc :=
  match o with
  | OpInsert k d => (Done, (k, d) :: filter (differs k) m)
  | OpRemove k => (Done, filter (differs k) m)
  | OpSearch k => (Found (option_map snd (find (fun p => eqk k (fst p)) m)), m)
  | OpClear => (Done, [])
  | OpCount => (Count (Z.of_nat (length m)), m)
  end.

Definition c_step (ht : hash_table) (o : op) : outcome (reply * hash_table) :=
  match o with
  | OpInsert k d => let! (_, ht) := _mesa_hash_table_insert ht k d in Ret (Done, ht)
  | OpRemove k => let! ht := _mesa_hash_table_remove_key ht k in Ret (Done, ht)
  | OpSearch k =>
      let! e := _mesa_hash_table_search ht k in
      Ret (Found (option_map (fun i => data (slot (table ht) i)) e), ht)
  | OpClear => Ret (Done, snd (_mesa_hash_table_clear ht))
  | OpCount => Ret (Count (entries ht), ht)
  end.

Fixpoint a_run (m : assoc) (os : list op) : list reply * assoc :=
  match os with
  | [] => ([], m)
  | o :: os => let (r, m) := a_step m o in let (rs, m) := a_run m os in (r :: rs, m)
  end.

Fixpoint c_run (ht : hash_table) (os : list op) : outcome (list reply * hash_table) :=
  match os with
  | [] => Ret ([], ht)
  | o :: os =>
      let! (r, ht) := c_step ht o in
      let! (rs, ht) := c_run ht os in
      Ret (r :: rs, ht)
  end.

Definition kv (e : hash_entry) : Z * Z := (key e, data e).

(** The table represents the list, up to order. *)
Definition represents (ht : hash_table) (m : assoc) : Prop :=
  wf H eqk ht /\ key_hash_function ht = Some H /\ Permutation (map kv (contents ht)) m.

(** Keys are neither the null pointer nor the marker of deleted entries. *)
Definition legal_op (dk : Z) (o : op) : Prop :=
  match o with OpInsert k _ => k <> NULL /\ k <> dk | _ => True end.

Lemma map_kv_filter k l : map kv (filter (keeps eqk k) l) = filter (differs k) (map kv l).
Proof.
  induction l as [|e l IH]; [reflexivity|]. cbn. unfold differs at 1, keeps at 1. cbn.
  destruct (eqk k (key e)); cbn; now rewrite IH.
Qed.

Lemma uniq_same k l e e' :
  uniq eqk l -> In e l -> In e' l -> eqk k (key e) = true -> eqk k (key e') = true -> e = e'.
Proof.
  intros Hu Hin Hin' Hk Hk'. apply (Permutation_in _ (uniq_extract H eqk e l Hu Hin)) in Hin' as [->|Hin']; [reflexivity|].
  apply filter_In in Hin' as [_ Hd]. unfold keeps in Hd.
  rewrite (eqk_trans (key e) k (key e')) in Hd; [discriminate | now rewrite eqk_sym | assumption].
Qed.

(** Looking a key up in a list of distinct keys does not depend on the order. *)
Lemma find_perm k l m :
  uniq eqk l -> Permutation (map kv l) m ->
  find (fun p => eqk k (fst p)) m = option_map kv (find (fun e => eqk k (key e)) l).
Proof.
  intros Hu Hp. destruct (find _ m) as [p|] eqn:Em.
  - apply find_some in Em as [Hp' Hk']. apply (Permutation_in _ (Permutation_sym Hp)) in Hp'.
    apply in_map_iff in Hp' as (e' & <- & Hin'). cbn in Hk'.
    destruct (find _ l) as [e|] eqn:El; cbn.
    + apply find_some in El as [Hin Hk]. now rewrite (uniq_same k l e e').
    + apply find_none with (x := e') in El; [congruence | assumption].
  - destruct (find _ l) as [e|] eqn:El; [|reflexivity]. apply find_some in El as [Hin Hk].
    apply find_none with (x := kv e) in Em; [cbn in Em; congruence|]. apply (Permutation_in _ Hp). now apply in_map.
Qed.

Lemma find_absent k l : (forall e, In e l -> eqk k (key e) = false) -> find (fun e => eqk k (key e)) l = None.
Proof.
  intros Hl. destruct (find _ l) eqn:E; [|reflexivity]. apply find_some in E as [Hin Hk]. rewrite Hl in Hk by assumption. discriminate.
Qed.

Lemma find_present k l e :
  uniq eqk l -> In e l -> eqk k (key e) = true -> find (fun e => eqk k (key e)) l = Some e.
Proof.
  intros Hu Hin Hk. destruct (find _ l) as [e'|] eqn:E.
  - apply find_some in E as [Hin' Hk']. f_equal. now apply (uniq_same k l).
  - apply find_none with (x := e) in E; [congruence | assumption].
Qed.

(** The search, in terms of the contents. *)
Lemma search_find ht k :
  wf H eqk ht -> key_hash_function ht = Some H ->
  exists r, _mesa_hash_table_search ht k = Ret r /\
    option_map (slot (table ht)) r = find (fun e => eqk k (key e)) (contents ht) /\
    match r with Some i => 0 <= i < size ht | None => True end.
Proof.
  intros Hw Eh. unfold _mesa_hash_table_search. rewrite Eh.
  destruct (hash_table_search_spec H eqk ht k Hw) as [(i & -> & Hi & Hin & Hk)|[-> Habs]].
  - exists (Some i). split; [reflexivity|]. split; [|assumption]. cbn. symmetry. apply find_present; auto. apply Hw.
  - exists None. split; [reflexivity|]. split; [|exact I]. symmetry. now apply find_absent.
Qed.

Lemma remove_key_spec ht k :
  wf H eqk ht -> key_hash_function ht = Some H ->
  exists ht', _mesa_hash_table_remove_key ht k = Ret ht' /\ becomes H eqk ht ht' (filter (keeps eqk k) (contents ht)).
Proof.
  intros Hw Eh. unfold _mesa_hash_table_remove_key, _mesa_hash_table_search. rewrite Eh.
  destruct (hash_table_search_spec H eqk ht k Hw) as [(i & -> & Hi & Hin & Hk)|[-> Habs]]; eexists; split; try reflexivity.
  - apply contents_In in Hin as Hp. destruct (hash_table_remove_spec H eqk ht i Hw Hi (proj2 Hp)) as (Hw' & Ed & Ef & Hperm).
    split; [assumption|]. split; [assumption|]. split; [assumption|]. etransitivity; [exact Hperm|].
    erewrite filter_ext; [reflexivity|]. intros e. unfold keeps. f_equal.
    destruct (eqk k (key e)) eqn:E.
    + apply (eqk_trans _ k); [now rewrite eqk_sym | assumption].
    + destruct (eqk (key (slot (table ht) i)) (key e)) eqn:E'; [|reflexivity].
      rewrite (eqk_trans k _ (key e) Hk E') in E. discriminate.
  - split; [assumption|]. split; [reflexivity|]. split; [reflexivity|]. rewrite filter_keeps_all by assumption. reflexivity.
Qed.

Lemma becomes_represents ht ht' l m :
  becomes H eqk ht ht' l -> key_hash_function ht = Some H -> Permutation (map kv l) m ->
  represents ht' m /\ deleted_key ht' = deleted_key ht.
Proof.
  intros (Hw & Ed & Eh & Hp) E Hm. split; [|assumption]. split; [assumption|]. split; [congruence|].
  etransitivity; [apply Permutation_map, Hp | exact Hm].
Qed.

Lemma represents_count ht m : represents ht m -> entries ht = Z.of_nat (length m).
Proof. intros (Hw & _ & Hp). rewrite (wf_entries _ _ _ Hw), <- (Permutation_length Hp), length_map. reflexivity. Qed.

(** One operation. *)
Lemma c_step_spec ht m o :
  represents ht m -> Z.of_nat (length m) < 2 ^ 30 -> legal_op (deleted_key ht) o ->
  exists ht', c_step ht o = Ret (fst (a_step m o), ht') /\
    represents ht' (snd (a_step m o)) /\ deleted_key ht' = deleted_key ht.
Proof.
  intros Hr Hlen Hlegal. pose proof (represents_count _ _ Hr) as Hc. pose proof Hr as (Hw & Eh & Hp).
  destruct o as [k d|k|k| |]; cbn [c_step a_step fst snd].
  - destruct Hlegal as [Hk Hkd]. unfold _mesa_hash_table_insert. rewrite Eh.
    destruct (hash_table_insert_spec H eqk ht k d Hw) as (i & ht' & -> & _ & _ & Hb); try assumption; [lia|].
    exists ht'. split; [reflexivity|]. apply (becomes_represents _ _ _ _ Hb Eh).
    cbn [map kv key data]. rewrite map_kv_filter. now apply perm_skip, Permutation_filter.
  - destruct (remove_key_spec ht k Hw Eh) as (ht' & -> & Hb). exists ht'. split; [reflexivity|].
    apply (becomes_represents _ _ _ _ Hb Eh). rewrite map_kv_filter. now apply Permutation_filter.
  - destruct (search_find ht k Hw Eh) as (r & -> & Ef & _). exists ht. split; [|auto].
    cbn [obind]. rewrite (find_perm k (contents ht) m) by (apply Hw || assumption). rewrite <- Ef. now destruct r.
  - destruct (hash_table_clear_spec H eqk ht Hw) as [_ Hb]. eexists. split; [reflexivity|].
    now apply (becomes_represents _ _ _ _ Hb Eh).
  - exists ht. rewrite Hc. auto.
Qed.

Lemma a_step_length m o : (length (snd (a_step m o)) <= S (length m))%nat.
Proof.
  pose proof (fun p => filter_length_le p m). destruct o; cbn; try lia; specialize (H0 (differs k)); lia.
Qed.

Lemma c_run_spec os : forall ht m,
  represents ht m -> Z.of_nat (length m) + Z.of_nat (length os) <= 2 ^ 30 -> Forall (legal_op (deleted_key ht)) os ->
  exists ht', c_run ht os = Ret (fst (a_run m os), ht') /\ represents ht' (snd (a_run m os)).
Proof.
  induction os as [|o os IH]; intros ht m Hr Hlen Hlegal; cbn [c_run a_run].
  { exists ht. auto. }
  inversion Hlegal as [|? ? Ho Hos]; subst. cbn [length] in Hlen.
  destruct (c_step_spec ht m o Hr ltac:(lia) Ho) as (ht1 & -> & Hr1 & Ed). cbn [obind].
  pose proof (a_step_length m o) as Hl. destruct (a_step m o) as [r m1]. cbn [fst snd] in *.
  destruct (IH ht1 m1 Hr1) as (ht' & -> & Hr'); [lia | now rewrite Ed |].
  exists ht'. destruct (a_run m1 os). auto.
Qed.

End Map.

(** C2: refinement.  Every sequence of insertions, removals, searches, clears
    and counts applied to a newly created table returns what the same
    sequence returns on an association list without duplicate keys, and the
    table then represents the list: no operation runs out of probes, loses or
    duplicates an entry across collisions, tombstones and resizes, for up to
    2^30 operations whose inserted keys are neither null nor the deleted-key
    marker, for any key equality and any hash that respects it. *)
Theorem hash_table_refines_map (H : Z -> Z) (eqk : Z -> Z -> bool) (HK : HashKey H eqk) dk os :
  dk <> NULL -> Z.of_nat (length os) <= 2 ^ 30 -> Forall (legal_op dk) os ->
  exists ht', c_run (_mesa_hash_table_create dk (Some H) eqk) os = Ret (fst (a_run eqk [] os), ht') /\
    represents H eqk ht' (snd (a_run eqk [] os)).
Proof.
  intros Hdk Hlen Hlegal. destruct (hash_table_init_spec H eqk dk Hdk) as [Hw Hc].
  apply c_run_spec; auto. split; [exact Hw|]. split; [reflexivity|].
  change (_mesa_hash_table_create dk (Some H) eqk) with (_mesa_hash_table_init dk (Some H) eqk).
  rewrite Hc. constructor.
Qed.

(** Pointer keys. *)
#[export] Instance pointer_key : HashKey _mesa_hash_pointer _mesa_key_pointer_equal.
Proof.
  constructor; unfold _mesa_key_pointer_equal.
  - apply Z.eqb_refl.
  - apply Z.eqb_sym.
  - intros a b c Hab Hbc. zbool. apply Z.eqb_eq. congruence.
  - intros a b Hab. zbool. congruence.
  - intros k. apply wrap_range. lia.
Qed.

Definition sample_ops : list op :=
  [OpInsert 16 1; OpInsert 32 2; OpInsert 48 3; OpRemove 32; OpInsert 16 4; OpSearch 16; OpSearch 32; OpCount].

Lemma hash_table_refines_map_witness :
  fst (a_run _mesa_key_pointer_equal [] sample_ops) =
    [Done; Done; Done; Done; Done; Found (Some 4); Found None; Count 2] /\
  exists ht', c_run (_mesa_hash_table_create 4 (Some _mesa_hash_pointer) _mesa_key_pointer_equal) sample_ops =
    Ret (fst (a_run _mesa_key_pointer_equal [] sample_ops), ht') /\
    represents _mesa_hash_pointer _mesa_key_pointer_equal ht' (snd (a_run _mesa_key_pointer_equal [] sample_ops)).
Proof.
  split; [reflexivity|].
  apply (hash_table_refines_map _mesa_hash_pointer _mesa_key_pointer_equal pointer_key 4 sample_ops);
    [vm_compute; congruence | vm_compute; congruence |].
  repeat constructor; vm_compute; congruence.
Defined.
