(* ===== verification/HashTableProps.v ===== *)
(** * Properties of the hash table

    Insertion, resizing and iteration as seen by a caller; the table with
    64-bit keys; the largest table size. *)

From Stdlib Require Import Bool ZArith List Lia Permutation.
From S2P Require Import Prelude HashTable Probe HashTableProof HashTableMap.
Import ListNotations.
#[local] Open Scope bool_scope.
#[local] Open Scope Z_scope.
#[local] Open Scope c_scope.

Abbreviation ptr_wf := (wf _mesa_hash_pointer _mesa_key_pointer_equal).

(** The table after some insertions of pointer keys, for the examples. *)
Definition with_keys (ks : list Z) : hash_table :=
  fold_left (fun ht k => match _mesa_hash_table_insert ht k (k + 1) with Ret (_, ht) => ht | _ => ht end) ks
    (_mesa_hash_table_create 4 (Some _mesa_hash_pointer) _mesa_key_pointer_equal).

Lemma with_keys_wf ks :
  Z.of_nat (length ks) < 2 ^ 30 -> Forall (fun k => k <> NULL /\ k <> 4) ks ->
  ptr_wf (with_keys ks) /\ key_hash_function (with_keys ks) = Some _mesa_hash_pointer /\
  deleted_key (with_keys ks) = 4 /\ entries (with_keys ks) <= Z.of_nat (length ks).
Proof.
  intros Hlen Hk. unfold with_keys. set (step := fun ht k => _).
  destruct (hash_table_init_spec _mesa_hash_pointer _mesa_key_pointer_equal 4 ltac:(vm_compute; congruence)) as [Hw0 _].
  assert (G : forall ks ht, Forall (fun k => k <> NULL /\ k <> 4) ks ->
    ptr_wf ht -> key_hash_function ht = Some _mesa_hash_pointer -> deleted_key ht = 4 ->
    entries ht + Z.of_nat (length ks) < 2 ^ 30 ->
    let ht' := fold_left step ks ht in
    ptr_wf ht' /\ key_hash_function ht' = Some _mesa_hash_pointer /\ deleted_key ht' = 4 /\
    entries ht' <= entries ht + Z.of_nat (length ks)).
  { clear. induction ks as [|k ks IH]; intros ht Hall Hw Eh Ed Hb; cbn [fold_left length] in *.
    { cbv zeta. repeat (split; [assumption|]). lia. }
    inversion Hall as [|? ? [Hk Hk4] Hks]; subst.
    destruct (hash_table_insert_spec _mesa_hash_pointer _mesa_key_pointer_equal ht k (k + 1) Hw)
      as (i & ht1 & E & _ & _ & Hbec); try lia; try assumption.
    pose proof (becomes_entries _ _ _ _ _ Hbec) as Hent. destruct Hbec as (Hw1 & Ed1 & Eh1 & _).
    pose proof (filter_length_le (keeps _mesa_key_pointer_equal k) (contents ht)) as Hle.
    pose proof (wf_entries _ _ _ Hw) as Hce. cbn [length] in Hent.
    assert (Es : step ht k = ht1) by (unfold step, _mesa_hash_table_insert; now rewrite Eh, E).
    rewrite Es. destruct (IH ht1 Hks Hw1) as (A & B & C & D); try congruence; try lia.
    repeat (split; [assumption|]). lia. }
  destruct (G ks _ Hk Hw0 eq_refl eq_refl) as (A & B & C & D); [exact Hlen|].
  repeat (split; [assumption|]). exact D.
Qed.

(** Functional.  Inserting a key into a good table that holds fewer than
    2^30 entries succeeds: it returns the index of an entry holding the key
    and the data, the new contents are the old ones without any entry of an
    equal key plus the new entry, and the table is good again, whether the
    insertion replaced, reused a tombstone, took a free entry, grew the table
    or cleaned it of tombstones. *)
Theorem insert_effect (H : Z -> Z) (eqk : Z -> Z -> bool) (HK : HashKey H eqk) ht k d :
  wf H eqk ht -> key_hash_function ht = Some H ->
  entries ht < 2 ^ 30 -> k <> NULL -> k <> deleted_key ht ->
  exists i ht', _mesa_hash_table_insert ht k d = Ret (Some i, ht') /\
    0 <= i < size ht' /\ slot (table ht') i = Entry (H k) k d /\
    becomes H eqk ht ht' (Entry (H k) k d :: filter (keeps eqk k) (contents ht)).
Proof.
  intros Hw Eh Hb Hk Hkd. unfold _mesa_hash_table_insert. rewrite Eh. now apply hash_table_insert_spec.
Qed.

Lemma insert_effect_witness :
  exists i ht', _mesa_hash_table_insert (with_keys [16; 32]) 48 9 = Ret (Some i, ht') /\
    0 <= i < size ht' /\ slot (table ht') i = Entry (_mesa_hash_pointer 48) 48 9 /\
    becomes _mesa_hash_pointer _mesa_key_pointer_equal (with_keys [16; 32]) ht'
      (Entry (_mesa_hash_pointer 48) 48 9 ::
       filter (keeps _mesa_key_pointer_equal 48) (contents (with_keys [16; 32]))).
Proof.
  destruct (with_keys_wf [16; 32]) as (Hw & Eh & Ed & _);
    [vm_compute; congruence | repeat constructor; vm_compute; congruence|].
  apply (insert_effect _mesa_hash_pointer _mesa_key_pointer_equal pointer_key);
    [exact Hw | exact Eh | vm_compute; congruence | vm_compute; congruence | vm_compute; congruence].
Defined.

(** Functional.  Resizing to any size that can hold the entries keeps
    them all and removes every tombstone; the recursion of insertion into
    resizing stops there, since no insertion into the new table resizes. *)
Theorem rehash_keeps_entries (H : Z -> Z) (eqk : Z -> Z -> bool) (HK : HashKey H eqk) ht i :
  wf H eqk ht -> good_index i -> entries ht <= hs_max_entries (size_at i) ->
  exists ht', _mesa_hash_table_rehash ht i = Ret ht' /\ wf H eqk ht' /\ fresh ht' /\
    same_config (resized i ht) ht' /\ Permutation (contents ht') (contents ht).
Proof. exact (rehash_spec H eqk i ht). Qed.

Lemma rehash_keeps_entries_witness :
  exists ht', _mesa_hash_table_rehash (with_keys [16; 32; 48]) 3 = Ret ht' /\ ptr_wf ht' /\ fresh ht' /\
    same_config (resized 3 (with_keys [16; 32; 48])) ht' /\
    Permutation (contents ht') (contents (with_keys [16; 32; 48])).
Proof.
  destruct (with_keys_wf [16; 32; 48]) as (Hw & _);
    [vm_compute; congruence | repeat constructor; vm_compute; congruence|].
  apply (rehash_keeps_entries _mesa_hash_pointer _mesa_key_pointer_equal pointer_key);
    [exact Hw | split; vm_compute; congruence | vm_compute; congruence].
Defined.

(** Safety.  Iterating over a table while removing any of the entries
    met visits every entry present at the start exactly once and leaves
    exactly the others, as the comment on [_mesa_hash_table_remove] promises. *)
Theorem foreach_remove_safe (H : Z -> Z) (eqk : Z -> Z -> bool) (HK : HashKey H eqk) del ht :
  wf H eqk ht ->
  exists ht', foreach_remove del (S (length (table ht))) ht None = Ret (contents ht, ht') /\ wf H eqk ht' /\
    Permutation (contents ht') (keep_all del (contents ht)).
Proof. exact (foreach_remove_spec H eqk del ht). Qed.

Lemma foreach_remove_safe_witness :
  let ht := with_keys [16; 32; 48; 64] in
  exists ht', foreach_remove (fun e => key e <? 40) (S (length (table ht))) ht None = Ret (contents ht, ht') /\
    ptr_wf ht' /\ Permutation (contents ht') (keep_all (fun e => key e <? 40) (contents ht)).
Proof.
  destruct (with_keys_wf [16; 32; 48; 64]) as (Hw & _);
    [vm_compute; congruence | repeat constructor; vm_compute; congruence|].
  exact (foreach_remove_safe _mesa_hash_pointer _mesa_key_pointer_equal pointer_key _ _ Hw).
Defined.

(** Functional.  A random entry is an entry of the table that satisfies
    the predicate, and the null pointer is returned only when none does,
    whatever [rand()] returns. *)
Theorem random_entry_complete (H : Z -> Z) (eqk : Z -> Z -> bool) (HK : HashKey H eqk) ht rnd p :
  wf H eqk ht -> 0 <= rnd ->
  match _mesa_hash_table_random_entry ht rnd p with
  | Some j => 0 <= j < size ht /\ entry_is_present ht (slot (table ht) j) = true /\ p (slot (table ht) j) = true
  | None => forall e, In e (contents ht) -> p e = false
  end.
Proof. exact (random_entry_spec H eqk ht rnd p). Qed.

Lemma random_entry_complete_witness :
  _mesa_hash_table_random_entry (with_keys [16; 32; 48]) 100 (fun e => key e =? 32) <> None /\
  match _mesa_hash_table_random_entry (with_keys [16; 32; 48]) 100 (fun e => key e =? 7) with
  | Some j => 0 <= j < size (with_keys [16; 32; 48]) /\
      entry_is_present (with_keys [16; 32; 48]) (slot (table (with_keys [16; 32; 48])) j) = true /\
      (key (slot (table (with_keys [16; 32; 48])) j) =? 7) = true
  | None => forall e, In e (contents (with_keys [16; 32; 48])) -> (key e =? 7) = false
  end.
Proof.
  split; [vm_compute; congruence|]. destruct (with_keys_wf [16; 32; 48]) as (Hw & _);
    [vm_compute; congruence | repeat constructor; vm_compute; congruence|].
  apply (random_entry_complete _mesa_hash_pointer _mesa_key_pointer_equal pointer_key _ 100 (fun e => key e =? 7) Hw).
  lia.
Defined.

(** ** 64-bit keys *)

Inductive u64_op :=
| U64Insert (k d : Z)
| U64Remove (k : Z)
| U64Search (k : Z).

Definition u64_key (o : u64_op) : Z := match o with U64Insert k _ | U64Remove k | U64Search k => k end.

(** The specification: a total function, null where nothing is stored. *)
Definition u64_spec (m : Z -> Z) (o : u64_op) : option Z * (Z -> Z) :=
  match o with
  | U64Insert k d => (None, fun k' => if k' =? k then d else m k')
  | U64Remove k => (None, fun k' => if k' =? k then NULL else m k')
  | U64Search k => (Some (m k), m)
  end.

Definition u64_step (ht : hash_table_u64) (o : u64_op) : outcome (option Z * hash_table_u64) :=
  match o with
  | U64Insert k d => let! ht := _mesa_hash_table_u64_insert ht k d in Ret (None, ht)
  | U64Remove k => let! ht := _mesa_hash_table_u64_remove ht k in Ret (None, ht)
  | U64Search k => let! d := _mesa_hash_table_u64_search ht k in Ret (Some d, ht)
  end.

Fixpoint u64_spec_run (m : Z -> Z) (os : list u64_op) : list (option Z) :=
  match os with
  | [] => []
  | o :: os => let (r, m) := u64_spec m o in r :: u64_spec_run m os
  end.

Fixpoint u64_run (ht : hash_table_u64) (os : list u64_op) : outcome (list (option Z)) :=
  match os with
  | [] => Ret []
  | o :: os =>
      let! (r, ht) := u64_step ht o in
      let! rs := u64_run ht os in
      Ret (r :: rs)
  end.

Definition in_contents (k : Z) (l : list hash_entry) : Z :=
  match find (fun e => _mesa_key_pointer_equal k (key e)) l with Some e => data e | None => NULL end.

(** The table stores the function. *)
Definition u64_stores (ht : hash_table_u64) (m : Z -> Z) : Prop :=
  ptr_wf (u64_table ht) /\ key_hash_function (u64_table ht) = Some _mesa_hash_pointer /\
  deleted_key (u64_table ht) = DELETED_KEY_VALUE /\
  forall k, k <> NULL -> m k = if k =? DELETED_KEY_VALUE then deleted_key_data ht
                               else in_contents k (contents (u64_table ht)).

Lemma find_filter_keeps k k' l :
  in_contents k (filter (keeps _mesa_key_pointer_equal k') l) = if k =? k' then NULL else in_contents k l.
Proof.
  unfold in_contents. induction l as [|e l IH]; cbn [filter]; [now destruct (k =? k')|].
  unfold _mesa_key_pointer_equal in *. unfold keeps at 1. destruct (Z.eqb_spec k' (key e)) as [->|Hne]; cbn [negb find].
  - rewrite IH. destruct (Z.eqb_spec k (key e)) as [->|Hne]; reflexivity.
  - destruct (Z.eqb_spec k (key e)) as [->|]; [destruct (Z.eqb_spec (key e) k'); congruence | exact IH].
Qed.

Lemma in_contents_perm k l l' :
  uniq _mesa_key_pointer_equal l -> Permutation l l' -> in_contents k l' = in_contents k l.
Proof.
  intros Hu Hp. unfold in_contents.
  destruct (find _ l) as [e|] eqn:E.
  - apply find_some in E as [Hin Hk].
    rewrite (find_present _mesa_hash_pointer _mesa_key_pointer_equal k l' e); auto.
    + eapply uniq_perm; [exact pointer_key | exact Hp | exact Hu].
    + now apply (Permutation_in _ Hp).
  - rewrite find_absent; [reflexivity|]. intros x Hx.
    apply (find_none _ _ E). apply (Permutation_in _ (Permutation_sym Hp)), Hx.
Qed.

Lemma becomes_stores ht ht' l k :
  becomes _mesa_hash_pointer _mesa_key_pointer_equal ht ht' l -> in_contents k (contents ht') = in_contents k l.
Proof. intros (Hw & _ & _ & Hp). symmetry. apply in_contents_perm; [apply Hw | exact Hp]. Qed.

Lemma u64_insert_spec ht m k d :
  u64_stores ht m -> entries (u64_table ht) < 2 ^ 30 -> k <> NULL ->
  exists ht', _mesa_hash_table_u64_insert ht k d = Ret ht' /\
    u64_stores ht' (fun k' => if k' =? k then d else m k') /\
    entries (u64_table ht') <= entries (u64_table ht) + 1.
Proof.
  intros (Hw & Eh & Ed & Hm) Hb Hk. unfold _mesa_hash_table_u64_insert.
  destruct (Z.eqb_spec k DELETED_KEY_VALUE) as [->|Hne].
  - eexists. split; [reflexivity|]. split; [|cbn; lia]. split; [assumption|]. split; [assumption|].
    split; [assumption|]. intros k' Hk'. rewrite Hm by assumption. now destruct (k' =? DELETED_KEY_VALUE).
  - unfold _mesa_hash_table_insert. rewrite Eh.
    destruct (hash_table_insert_spec _mesa_hash_pointer _mesa_key_pointer_equal (u64_table ht) k d Hw Hb Hk)
      as (i & t & -> & _ & _ & Hbec); [congruence|].
    eexists. split; [reflexivity|]. pose proof Hbec as (Hw' & Ed' & Eh' & _). cbn [u64_table deleted_key_data].
    split; [split; [exact Hw'|]; split; [exact (eq_trans Eh' Eh)|]; split; [exact (eq_trans Ed' Ed)|]|];
      cbn [u64_table deleted_key_data].
    + intros k' Hk'. rewrite Hm by assumption. rewrite (becomes_stores _ _ _ k' Hbec).
      unfold in_contents at 2. cbn [find key]. unfold _mesa_key_pointer_equal at 1.
      destruct (Z.eqb_spec k' k) as [->|Hkk].
      * destruct (Z.eqb_spec k DELETED_KEY_VALUE); [congruence | reflexivity].
      * destruct (k' =? DELETED_KEY_VALUE); [reflexivity|].
        fold (in_contents k' (filter (keeps _mesa_key_pointer_equal k) (contents (u64_table ht)))).
        rewrite find_filter_keeps. now destruct (Z.eqb_spec k' k).
    + rewrite (becomes_entries _ _ _ _ _ Hbec), (wf_entries _ _ _ Hw). cbn [length].
      pose proof (filter_length_le (keeps _mesa_key_pointer_equal k) (contents (u64_table ht))). lia.
Qed.

(** The search of the underlying table. *)
Lemma u64_table_search ht m k :
  u64_stores ht m -> k <> NULL -> k <> DELETED_KEY_VALUE ->
  exists r, hash_table_u64_search ht k = Ret r /\
    match r with
    | None => m k = NULL /\ forall e, In e (contents (u64_table ht)) -> _mesa_key_pointer_equal k (key e) = false
    | Some i => m k = data (slot (table (u64_table ht)) i) /\ 0 <= i < size (u64_table ht) /\
        entry_is_present (u64_table ht) (slot (table (u64_table ht)) i) = true /\
        key (slot (table (u64_table ht)) i) = k
    end.
Proof.
  intros (Hw & Eh & Ed & Hm) Hk Hne. unfold hash_table_u64_search, _mesa_hash_table_search.
  rewrite Eh, (Hm k Hk). destruct (Z.eqb_spec k DELETED_KEY_VALUE); [congruence|]. unfold in_contents.
  destruct (hash_table_search_spec _mesa_hash_pointer _mesa_key_pointer_equal _ k Hw)
    as [(i & -> & Hi & Hin & Hkey)|[-> Habs]]; eexists; (split; [reflexivity|]).
  - rewrite (find_present _mesa_hash_pointer _mesa_key_pointer_equal k _ _ (wf_unique _ _ _ Hw) Hin Hkey).
    split; [reflexivity|]. split; [assumption|]. apply contents_In in Hin as [_ Hp]. split; [assumption|].
    unfold _mesa_key_pointer_equal in Hkey. now zbool.
  - rewrite find_absent by assumption. auto.
Qed.

Lemma u64_remove_spec ht m k :
  u64_stores ht m -> k <> NULL ->
  exists ht', _mesa_hash_table_u64_remove ht k = Ret ht' /\
    u64_stores ht' (fun k' => if k' =? k then NULL else m k') /\
    entries (u64_table ht') <= entries (u64_table ht).
Proof.
  intros Hs Hk. pose proof Hs as (Hw & Eh & Ed & Hm). unfold _mesa_hash_table_u64_remove.
  destruct (Z.eqb_spec k DELETED_KEY_VALUE) as [->|Hne].
  { eexists. split; [reflexivity|]. split; [|cbn; lia]. split; [assumption|]. split; [assumption|].
    split; [assumption|]. intros k' Hk'. rewrite Hm by assumption. now destruct (k' =? DELETED_KEY_VALUE). }
  destruct (u64_table_search ht m k Hs Hk Hne) as ([i|] & -> & Hr); cbn [obind]; eexists; (split; [reflexivity|]).
  - destruct Hr as (_ & Hi & Hp & Ek).
    pose proof (hash_table_remove_spec _mesa_hash_pointer _mesa_key_pointer_equal _ i Hw Hi Hp) as Hbec.
    rewrite Ek in Hbec. pose proof Hbec as (Hw' & Ed' & Eh' & _). cbn [u64_table deleted_key_data].
    split; [split; [exact Hw'|]; split; [exact (eq_trans Eh' Eh)|]; split; [exact (eq_trans Ed' Ed)|]|];
      cbn [u64_table deleted_key_data].
    + intros k' Hk'. rewrite Hm, (becomes_stores _ _ _ k' Hbec), find_filter_keeps by assumption.
      destruct (Z.eqb_spec k' k) as [->|]; [|reflexivity]. now destruct (Z.eqb_spec k DELETED_KEY_VALUE).
    + rewrite (becomes_entries _ _ _ _ _ Hbec), (wf_entries _ _ _ Hw).
      pose proof (filter_length_le (keeps _mesa_key_pointer_equal k) (contents (u64_table ht))). lia.
  - split; [|lia]. destruct Hr as [Hz _]. split; [assumption|]. split; [assumption|]. split; [assumption|].
    intros k' Hk'. rewrite <- Hm by assumption. now destruct (Z.eqb_spec k' k) as [->|].
Qed.

Lemma u64_search_spec ht m k : u64_stores ht m -> k <> NULL -> _mesa_hash_table_u64_search ht k = Ret (m k).
Proof.
  intros Hs Hk. pose proof Hs as (_ & _ & _ & Hm). unfold _mesa_hash_table_u64_search.
  destruct (Z.eqb_spec k DELETED_KEY_VALUE) as [->|Hne]; [now rewrite Hm|].
  destruct (u64_table_search ht m k Hs Hk Hne) as ([i|] & -> & Hr); cbn [obind]; f_equal; symmetry; apply Hr.
Qed.

Lemma u64_run_spec os : forall ht m,
  u64_stores ht m -> entries (u64_table ht) + Z.of_nat (length os) <= 2 ^ 30 ->
  Forall (fun o => u64_key o <> NULL) os -> u64_run ht os = Ret (u64_spec_run m os).
Proof.
  induction os as [|o os IH]; intros ht m Hs Hlen Hk; [reflexivity|].
  inversion Hk as [|? ? Hko Hks]; subst. cbn [length u64_run u64_spec_run] in *.
  destruct o as [k d|k|k]; cbn [u64_key] in Hko; cbn [u64_step u64_spec].
  - destruct (u64_insert_spec ht m k d Hs ltac:(lia) Hko) as (ht' & -> & Hs' & He). cbn [obind].
    now rewrite (IH _ _ Hs') by (assumption || lia).
  - destruct (u64_remove_spec ht m k Hs Hko) as (ht' & -> & Hs' & He). cbn [obind].
    now rewrite (IH _ _ Hs') by (assumption || lia).
  - rewrite (u64_search_spec ht m k Hs Hko). cbn [obind]. now rewrite (IH _ _ Hs) by (assumption || lia).
Qed.

(** C33: refinement.  The table with 64-bit keys answers every sequence of up
    to 2^30 insertions, removals and searches with non-zero keys as a total
    function initially null everywhere would, the key that marks deleted
    entries included. *)
Theorem u64_refines_function os :
  Z.of_nat (length os) <= 2 ^ 30 -> Forall (fun o => u64_key o <> NULL) os ->
  u64_run _mesa_hash_table_u64_create os = Ret (u64_spec_run (fun _ => NULL) os).
Proof.
  intros Hlen Hk. apply u64_run_spec; auto.
  destruct (hash_table_init_spec _mesa_hash_pointer _mesa_key_pointer_equal DELETED_KEY_VALUE
              ltac:(vm_compute; congruence)) as [Hw Hc].
  split; [exact Hw|]. split; [reflexivity|]. split; [reflexivity|].
  intros k Hk0. now destruct (k =? DELETED_KEY_VALUE).
Qed.

Lemma u64_refines_function_witness :
  u64_run _mesa_hash_table_u64_create
    [U64Insert 1 10; U64Insert 2 20; U64Search 1; U64Remove 2; U64Search 2; U64Remove 1; U64Search 1] =
  Ret [None; None; Some 10; None; Some 0; None; Some 0].
Proof.
  rewrite u64_refines_function; [reflexivity | vm_compute; congruence |].
  repeat constructor; vm_compute; congruence.
Defined.

(** Error.  The key 0 is not accepted by the table with 64-bit keys:
    inserting it trips the assertion that the key pointer is not null. *)
Theorem u64_key_zero ht d :
  key_hash_function (u64_table ht) = Some _mesa_hash_pointer ->
  _mesa_hash_table_u64_insert ht 0 d = Assert_failed.
Proof. intros Eh. unfold _mesa_hash_table_u64_insert, _mesa_hash_table_insert. cbn [Z.eqb DELETED_KEY_VALUE]. now rewrite Eh. Qed.

Lemma u64_key_zero_witness :
  _mesa_hash_table_u64_insert _mesa_hash_table_u64_create 0 5 = Assert_failed.
Proof. apply u64_key_zero. reflexivity. Defined.

(** ** The largest size *)

(** A table at the last entry of [hash_sizes]. *)
Definition largest (t : list hash_entry) : hash_table :=
  let s := size_at 30 in
  HashTable t None _mesa_key_pointer_equal 4 (hs_size s) (hs_rehash s) (hs_max_entries s) 30 0 0.

(** Bounds.  At the largest size the sum of address and step exceeds 32
    bits, and the probe sequence departs from the double hashing of the other
    sizes: with hash 2362232229, the slot after 2362232229 is 2362232226
    by double hashing, and the code goes to 429497163. *)
Theorem largest_size_wraps t :
  next_address (largest t) 2362232229 2362232229 = 429497163 /\
  (2362232229 + (1 + 2362232229 mod rehash (largest t))) mod size (largest t) = 2362232226.
Proof. split; reflexivity. Qed.
