(* ===== verification/HashSet.v ===== *)
(** * Open-addressing set: src/util/set.c

    The set has the layout and the loops of the hash table without the data
    word.  Its functions are written out here as in set.c; [as_table] views a
    set as a hash table with null data, and every operation is shown to
    commute with that view, so that the results on tables carry over. *)

From Stdlib Require Import Bool ZArith List Lia Permutation.
From S2P Require Import Prelude HashTable Probe HashTableProof HashTableMap.
Import ListNotations.
#[local] Open Scope bool_scope.
#[local] Open Scope Z_scope.
#[local] Open Scope c_scope.

Record set_entry := SetEntry { set_hash : Z; set_key : Z }.

Record set := MkSet {
  set_table : list set_entry;
  set_key_hash_function : option (Z -> Z);
  set_key_equals_function : Z -> Z -> bool;
  set_size : Z;
  set_rehash_step : Z;      (* [rehash] *)
  set_max_entries : Z;
  set_size_index : Z;
  set_entries : Z;
  set_deleted_entries : Z
}.

#[export] Instance eta_set : Eta set := fun r =>
  MkSet (set_table r) (set_key_hash_function r) (set_key_equals_function r) (set_size r)
    (set_rehash_step r) (set_max_entries r) (set_size_index r) (set_entries r) (set_deleted_entries r).

Definition free_set_entry : set_entry := SetEntry 0 NULL.

Definition set_slot (t : list set_entry) (i : Z) : set_entry := nth (Z.to_nat i) t free_set_entry.

Section Operations.

(** The address of [deleted_key_value] in set.c. *)
Context (dk : Z).

Definition set_entry_is_free (e : set_entry) : bool := set_key e =? NULL.
Definition set_entry_is_deleted (e : set_entry) : bool := set_key e =? dk.
Definition set_entry_is_present (e : set_entry) : bool := negb (set_key e =? NULL) && negb (set_key e =? dk).

Definition set_store (i : Z) (e : set_entry) (s : set) : set :=
  s <| set_table := set_nth (Z.to_nat i) e (set_table s) |>.

Definition _mesa_set_create (hash_fn : option (Z -> Z)) (equals : Z -> Z -> bool) : set :=
  let sz := size_at 0 in
  MkSet (repeat free_set_entry (Z.to_nat (hs_size sz))) hash_fn equals (hs_size sz) (hs_rehash sz)
    (hs_max_entries sz) 0 0 0.

Definition _mesa_set_clone (s : set) : set := s.

(** The entries [delete_function] is called on. *)
Definition _mesa_set_destroy (s : set) : list set_entry := filter set_entry_is_present (set_table s).

(** Present entries become deleted ones; both counters are reset. *)
Definition _mesa_set_clear (s : set) : list set_entry * set :=
  (filter set_entry_is_present (set_table s),
   s <| set_table := map (fun e => if set_entry_is_present e then SetEntry (set_hash e) dk else e) (set_table s) |>
     <| set_entries := 0 |> <| set_deleted_entries := 0 |>).

Definition set_next_address (s : set) (h a : Z) : Z :=
  let double_hash := u32 (1 + h mod set_rehash_step s) in
  u32 (a + double_hash) mod set_size s.

Fixpoint set_search_loop (fuel : nat) (s : set) (h k start a : Z) : outcome (option Z) :=
  match fuel with
  | O => Out_of_fuel
  | S fuel =>
      let e := set_slot (set_table s) a in
      if set_entry_is_free e then Ret None
      else if set_entry_is_present e && (set_hash e =? h) && set_key_equals_function s k (set_key e)
      then Ret (Some a)
      else
        let a := set_next_address s h a in
        if a =? start then Ret None else set_search_loop fuel s h k start a
  end.

Definition set_search (s : set) (h k : Z) : outcome (option Z) :=
  let start := h mod set_size s in
  set_search_loop (Z.to_nat (set_size s)) s h k start start.

Definition _mesa_set_search (s : set) (k : Z) : outcome (option Z) :=
  match set_key_hash_function s with
  | None => Assert_failed
  | Some f => set_search s (f k) k
  end.

Definition set_hash_agrees (s : set) (h k : Z) : bool :=
  match set_key_hash_function s with None => true | Some f => h =? f k end.

Definition _mesa_set_search_pre_hashed (s : set) (h k : Z) : outcome (option Z) :=
  assert! (set_hash_agrees s h k) ;; set_search s h k.

Fixpoint set_add_loop (fuel : nat) (s : set) (h k start a : Z) (available : option Z) : outcome probe_result :=
  match fuel with
  | O => Out_of_fuel
  | S fuel =>
      let e := set_slot (set_table s) a in
      let available :=
        if negb (set_entry_is_present e) then
          match available with None => Some a | Some _ => available end
        else available in
      if negb (set_entry_is_present e) && set_entry_is_free e then Ret (Available available)
      else if negb (set_entry_is_deleted e) && (set_hash e =? h) && set_key_equals_function s k (set_key e)
      then Ret (Replace a)
      else
        let a := set_next_address s h a in
        if a =? start then Ret (Available available)
        else set_add_loop fuel s h k start a available
  end.

(** [set_add] after the resize. *)
Definition set_add_probe (s : set) (h k : Z) : outcome (option Z * set) :=
  let start := h mod set_size s in
  let! r := set_add_loop (Z.to_nat (set_size s)) s h k start start None in
  match r with
  | Replace i => Ret (Some i, set_store i (SetEntry (set_hash (set_slot (set_table s) i)) k) s)
  | Available (Some i) =>
      let s := if set_entry_is_deleted (set_slot (set_table s) i)
               then s <| set_deleted_entries := u32 (set_deleted_entries s - 1) |> else s in
      let s := set_store i (SetEntry h k) s in
      Ret (Some i, s <| set_entries := u32 (set_entries s + 1) |>)
  | Available None => Ret (None, s)
  end.

Definition set_resized (new_size_index : Z) (s : set) : set :=
  let sz := size_at new_size_index in
  s <| set_table := repeat free_set_entry (Z.to_nat (hs_size sz)) |> <| set_size_index := new_size_index |>
    <| set_size := hs_size sz |> <| set_rehash_step := hs_rehash sz |> <| set_max_entries := hs_max_entries sz |>
    <| set_entries := 0 |> <| set_deleted_entries := 0 |>.

Fixpoint readd (add : set -> Z -> Z -> outcome (option Z * set)) (es : list set_entry) (s : set) : outcome set :=
  match es with
  | [] => Ret s
  | e :: es => let! (_, s) := add s (set_hash e) (set_key e) in readd add es s
  end.

Definition set_rehash_with (add : set -> Z -> Z -> outcome (option Z * set)) (new_size_index : Z) (s : set) : outcome set :=
  if new_size_index >=? ARRAY_SIZE_hash_sizes then Ret s
  else readd add (filter set_entry_is_present (set_table s)) (set_resized new_size_index s).

Fixpoint set_add_d (depth : nat) (s : set) (h k : Z) : outcome (option Z * set) :=
  match depth with
  | O => Out_of_fuel
  | S depth =>
      let! s :=
        if set_entries s >=? set_max_entries s then
          set_rehash_with (set_add_d depth) (set_size_index s + 1) s
        else if u32 (set_deleted_entries s + set_entries s) >=? set_max_entries s then
          set_rehash_with (set_add_d depth) (set_size_index s) s
        else Ret s in
      set_add_probe s h k
  end.

Definition set_add : set -> Z -> Z -> outcome (option Z * set) := set_add_d 2.

Definition set_rehash (s : set) (new_size_index : Z) : outcome set :=
  set_rehash_with (set_add_d 1) new_size_index s.

Definition _mesa_set_add (s : set) (k : Z) : outcome (option Z * set) :=
  match set_key_hash_function s with
  | None => Assert_failed
  | Some f => set_add s (f k) k
  end.

Definition _mesa_set_add_pre_hashed (s : set) (h k : Z) : outcome (option Z * set) :=
  assert! (set_hash_agrees s h k) ;; set_add s h k.

Definition _mesa_set_remove (s : set) (entry : option Z) : set :=
  match entry with
  | None => s
  | Some i =>
      let e := set_slot (set_table s) i in
      (set_store i (SetEntry (set_hash e) dk) s)
        <| set_entries := u32 (set_entries s - 1) |> <| set_deleted_entries := u32 (set_deleted_entries s + 1) |>
  end.

Definition _mesa_set_remove_key (s : set) (k : Z) : outcome set :=
  let! e := _mesa_set_search s k in Ret (_mesa_set_remove s e).

(** [for (; entry != ht->table + ht->size; entry++) if (p(entry)) return entry;] *)
Fixpoint set_scan (p : set_entry -> bool) (t : list set_entry) (i : Z) (n : nat) : option Z :=
  match n with
  | O => None
  | S n => if p (set_slot t i) then Some i else set_scan p t (i + 1) n
  end.

Definition _mesa_set_next_entry (s : set) (entry : option Z) : option Z :=
  let i := match entry with None => 0 | Some i => i + 1 end in
  set_scan set_entry_is_present (set_table s) i (Z.to_nat (set_size s - i)).

Definition _mesa_set_random_entry (s : set) (rnd : Z) (predicate : set_entry -> bool) : option Z :=
  let i := rnd mod set_size s in
  if set_entries s =? 0 then None else
  let p e := set_entry_is_present e && predicate e in
  match set_scan p (set_table s) i (Z.to_nat (set_size s - i)) with
  | Some j => Some j
  | None => set_scan p (set_table s) 0 (Z.to_nat i)
  end.

End Operations.

(** ** A set seen as a table *)

Definition as_entry (e : set_entry) : hash_entry := Entry (set_hash e) (set_key e) 0.

Definition as_table (dk : Z) (s : set) : hash_table :=
  HashTable (map as_entry (set_table s)) (set_key_hash_function s) (set_key_equals_function s) dk (set_size s)
    (set_rehash_step s) (set_max_entries s) (set_size_index s) (set_entries s) (set_deleted_entries s).

Section Simulation.
Context (dk : Z).

Abbreviation view := (as_table dk).

Lemma slot_view t i : slot (map as_entry t) i = as_entry (set_slot t i).
Proof. unfold slot, set_slot. change free_entry with (as_entry free_set_entry). apply map_nth. Qed.

Lemma set_nth_map {A B} (f : A -> B) n x l : set_nth n (f x) (map f l) = map f (set_nth n x l).
Proof. revert n. induction l as [|y l IH]; intros [|n]; cbn; try reflexivity. now rewrite IH. Qed.

Lemma filter_map_view (p : hash_entry -> bool) t :
  filter p (map as_entry t) = map as_entry (filter (fun e => p (as_entry e)) t).
Proof. induction t as [|e t IH]; [reflexivity|]. cbn. destruct (p (as_entry e)); cbn; now rewrite IH. Qed.

Lemma search_loop_view fuel s h k start a :
  search_loop fuel (view s) h k start a = set_search_loop dk fuel s h k start a.
Proof.
  revert a. induction fuel as [|fuel IH]; intros a; [reflexivity|]. cbn [search_loop set_search_loop].
  change (table (view s)) with (map as_entry (set_table s)). rewrite slot_view, <- IH. reflexivity.
Qed.

Lemma set_search_view s h k : hash_table_search (view s) h k = set_search dk s h k.
Proof. apply search_loop_view. Qed.

Lemma add_loop_view fuel s h k start a av :
  insert_loop fuel (view s) h k start a av = set_add_loop dk fuel s h k start a av.
Proof.
  revert a av. induction fuel as [|fuel IH]; intros a av; [reflexivity|]. cbn [insert_loop set_add_loop].
  change (table (view s)) with (map as_entry (set_table s)). rewrite slot_view. cbv zeta. rewrite <- IH. reflexivity.
Qed.

(** The result of a set function, with the set viewed as a table. *)
Definition viewed {A} (r : outcome (A * set)) : outcome (A * hash_table) :=
  let! (x, s) := r in Ret (x, view s).

Lemma store_view i e s : store i (as_entry e) (view s) = view (set_store i e s).
Proof. unfold store, set_store, view. cbn. now rewrite set_nth_map. Qed.

Lemma add_probe_view s h k : insert_probe (view s) h k 0 = viewed (set_add_probe dk s h k).
Proof.
  unfold insert_probe, set_add_probe. cbv zeta.
  change (size (view s)) with (set_size s). rewrite add_loop_view.
  destruct (set_add_loop _ _ _ _ _ _ _ _) as [[i|[i|]]| |]; cbn [obind viewed]; try reflexivity.
  - change (table (view s)) with (map as_entry (set_table s)). rewrite slot_view, <- store_view. reflexivity.
  - change (table (view s)) with (map as_entry (set_table s)). rewrite slot_view.
    change (entry_is_deleted (view s) (as_entry (set_slot (set_table s) i)))
      with (set_entry_is_deleted dk (set_slot (set_table s) i)).
    change (Entry h k 0) with (as_entry (SetEntry h k)).
    destruct (set_entry_is_deleted dk _);
      [change (_ <| deleted_entries := _ |>) with (view (s <| set_deleted_entries := u32 (set_deleted_entries s - 1) |>))|];
      rewrite store_view; reflexivity.
Qed.

Lemma resized_view i s : resized i (view s) = view (set_resized i s).
Proof.
  transitivity ((view s) <| table := map as_entry (set_table (set_resized i s)) |> <| size_index := i |>
     <| size := hs_size (size_at i) |> <| rehash := hs_rehash (size_at i) |>
     <| max_entries := hs_max_entries (size_at i) |> <| entries := 0 |> <| deleted_entries := 0 |>); [|reflexivity].
  change (set_table (set_resized i s)) with (repeat free_set_entry (Z.to_nat (hs_size (size_at i)))).
  rewrite map_repeat. reflexivity.
Qed.

Definition agree (insert : hash_table -> Z -> Z -> Z -> outcome (option Z * hash_table))
    (add : set -> Z -> Z -> outcome (option Z * set)) : Prop :=
  forall s h k, k <> NULL -> insert (view s) h k 0 = viewed (add s h k).

Lemma readd_view insert add es s :
  agree insert add -> Forall (fun e => set_key e <> NULL) es ->
  reinsert insert (map as_entry es) (view s) = (let! s := readd add es s in Ret (view s)).
Proof.
  intros Ha Hes. revert s. induction Hes as [|e es He Hes IH]; intros s; [reflexivity|]. cbn [map reinsert readd].
  cbn [as_entry hash key data]. rewrite Ha by assumption.
  destruct (add s (set_hash e) (set_key e)) as [[r s']| |]; cbn [obind viewed]; auto.
Qed.

Lemma rehash_view insert add i s :
  agree insert add -> rehash_with insert i (view s) = (let! s := set_rehash_with dk add i s in Ret (view s)).
Proof.
  intros Ha. unfold rehash_with, set_rehash_with. destruct (i >=? ARRAY_SIZE_hash_sizes); [reflexivity|].
  change (table (view s)) with (map as_entry (set_table s)). rewrite filter_map_view, resized_view.
  apply readd_view; [assumption|]. apply Forall_forall. intros e He. apply filter_In in He as [_ Hp].
  unfold set_entry_is_present in Hp. zbool. assumption.
Qed.

Lemma add_view depth : agree (hash_table_insert_d depth) (set_add_d dk depth).
Proof.
  induction depth as [|depth IH]; intros s h k Hk; [reflexivity|]. cbn [hash_table_insert_d set_add_d].
  rewrite c_assert_true by (apply negb_true_iff, Z.eqb_neq, Hk).
  change (entries (view s)) with (set_entries s). change (max_entries (view s)) with (set_max_entries s).
  change (size_index (view s)) with (set_size_index s). change (deleted_entries (view s)) with (set_deleted_entries s).
  rewrite !(rehash_view _ _ _ _ IH).
  destruct (set_entries s >=? set_max_entries s); [|destruct (u32 _ >=? _)];
    try (destruct (set_rehash_with dk _ _ _) as [s'| |]; cbn [obind]; try reflexivity); try apply add_probe_view.
Qed.

Lemma remove_view s e : _mesa_hash_table_remove (view s) e = view (_mesa_set_remove dk s e).
Proof.
  destruct e as [i|]; [|reflexivity]. unfold _mesa_hash_table_remove, _mesa_set_remove.
  change (table (view s)) with (map as_entry (set_table s)). rewrite slot_view. cbv zeta.
  change (Entry _ (deleted_key (view s)) _) with (as_entry (SetEntry (set_hash (set_slot (set_table s) i)) dk)).
  rewrite store_view. reflexivity.
Qed.

Lemma scan_view (p : hash_entry -> bool) q t n i :
  (forall e, p (as_entry e) = q e) -> scan p (map as_entry t) i n = set_scan q t i n.
Proof.
  intros Hpq. revert i. induction n as [|n IH]; intros i; [reflexivity|]. cbn [scan set_scan].
  now rewrite slot_view, Hpq, IH.
Qed.

Lemma next_entry_view s e : _mesa_hash_table_next_entry (view s) e = _mesa_set_next_entry dk s e.
Proof. apply scan_view. reflexivity. Qed.

End Simulation.

(** ** The set of keys *)

Inductive set_op :=
| SetAdd (k : Z)
| SetRemove (k : Z)
| SetContains (k : Z)
| SetClear
| SetCount.

(** The specification works on a list of keys without duplicates. *)
Definition keys_step (eqk : Z -> Z -> bool) (m : list Z) (o : set_op) : option Z * list Z :=
  match o with
  | SetAdd k => (None, k :: filter (fun k' => negb (eqk k k')) m)
  | SetRemove k => (None, filter (fun k' => negb (eqk k k')) m)
  | SetContains k => (find (eqk k) m, m)
  | SetClear => (None, [])
  | SetCount => (Some (Z.of_nat (length m)), m)
  end.

(** The key of the entry found, if any, for a lookup. *)
Definition set_step (dk : Z) (s : set) (o : set_op) : outcome (option Z * set) :=
  match o with
  | SetAdd k => let! (_, s) := _mesa_set_add dk s k in Ret (None, s)
  | SetRemove k => let! s := _mesa_set_remove_key dk s k in Ret (None, s)
  | SetContains k =>
      let! e := _mesa_set_search dk s k in
      Ret (option_map (fun i => set_key (set_slot (set_table s) i)) e, s)
  | SetClear => Ret (None, snd (_mesa_set_clear dk s))
  | SetCount => Ret (Some (set_entries s), s)
  end.

Fixpoint keys_run (eqk : Z -> Z -> bool) (m : list Z) (os : list set_op) : list (option Z) * list Z :=
  match os with
  | [] => ([], m)
  | o :: os => let (r, m) := keys_step eqk m o in let (rs, m) := keys_run eqk m os in (r :: rs, m)
  end.

Fixpoint set_run (dk : Z) (s : set) (os : list set_op) : outcome (list (option Z) * set) :=
  match os with
  | [] => Ret ([], s)
  | o :: os =>
      let! (r, s) := set_step dk s o in
      let! (rs, s) := set_run dk s os in
      Ret (r :: rs, s)
  end.

Section Refinement.
Context (H : Z -> Z) (eqk : Z -> Z -> bool) {HK : HashKey H eqk} (dk : Z).

(** The set holds the keys of the list, up to order. *)
Definition holds (s : set) (m : list Z) : Prop :=
  represents H eqk (as_table dk s) (map (fun k => (k, 0)) m).

Definition legal_set_op (o : set_op) : Prop :=
  match o with SetAdd k => k <> NULL /\ k <> dk | _ => True end.

Lemma filter_pairs k m :
  filter (differs eqk k) (map (fun k => (k, 0)) m) = map (fun k => (k, 0)) (filter (fun k' => negb (eqk k k')) m).
Proof. induction m as [|x m IH]; [reflexivity|]. cbn. unfold differs at 1. cbn. destruct (eqk k x); cbn; now rewrite IH. Qed.

Lemma find_pairs k m :
  find (fun p => eqk k (fst p)) (map (fun k => (k, 0)) m) = option_map (fun k => (k, 0)) (find (eqk k) m).
Proof. induction m as [|x m IH]; [reflexivity|]. cbn. now destruct (eqk k x). Qed.

Lemma filter_cleared p t :
  (forall e, p e = set_entry_is_present dk e) ->
  filter p (map (fun e => if set_entry_is_present dk e then SetEntry (set_hash e) dk else e) t) = [].
Proof.
  intros Hp. induction t as [|e t IH]; [reflexivity|]. cbn [map filter]. rewrite Hp.
  destruct (set_entry_is_present dk e) eqn:E; [|now rewrite E].
  unfold set_entry_is_present at 1. cbn. now rewrite Z.eqb_refl, andb_false_r.
Qed.

(** Clearing a set leaves tombstones, and a good table. *)
Lemma set_clear_spec s :
  wf H eqk (as_table dk s) ->
  becomes H eqk (as_table dk s) (as_table dk (snd (_mesa_set_clear dk s))) [].
Proof.
  intros Hw. set (s' := snd (_mesa_set_clear dk s)).
  assert (Hnil : contents (as_table dk s') = []).
  { unfold contents, s'. cbn. rewrite filter_map_view, filter_cleared; reflexivity. }
  split; [|split; [reflexivity | split; [reflexivity | now rewrite Hnil]]].
  assert (Hlen : length (table (as_table dk s')) = length (table (as_table dk s)))
    by (cbn; now rewrite !length_map).
  pose proof Hw as []. constructor; try assumption.
  - rewrite Hlen. assumption.
  - rewrite Hnil. reflexivity.
  - pose proof (wf_max_size _ _ _ Hw) as [Hm _]. change (max_entries (as_table dk s')) with (max_entries (as_table dk s)).
    change (entries (as_table dk s')) with 0. lia.
  - rewrite Hnil. intros e [].
  - rewrite Hnil. exact I.
  - intros i Hi Hpres. exfalso. assert (Hin : In (slot (table (as_table dk s')) i) []); [|exact Hin].
    rewrite <- Hnil. apply contents_In. split; [|assumption]. apply slot_In. rewrite Hlen, wf_length. exact Hi.
Qed.

Lemma viewed_Ret {A} (r : outcome (A * set)) x ht :
  viewed dk r = Ret (x, ht) -> exists s, r = Ret (x, s) /\ as_table dk s = ht.
Proof. destruct r as [[y s]| |]; cbn; try discriminate. intros E. injection E as -> <-. eauto. Qed.

Lemma set_step_spec s m o :
  holds s m -> Z.of_nat (length m) < 2 ^ 30 -> legal_set_op o ->
  exists s', set_step dk s o = Ret (fst (keys_step eqk m o), s') /\ holds s' (snd (keys_step eqk m o)).
Proof.
  intros Hr Hlen Hlegal. pose proof (represents_count _ _ _ _ Hr) as Hc. pose proof Hr as (Hw & Eh & Hp).
  rewrite length_map in Hc. destruct o as [k|k|k| |]; cbn [set_step keys_step fst snd].
  - destruct Hlegal as [Hk Hkd]. unfold _mesa_set_add.
    change (set_key_hash_function s) with (key_hash_function (as_table dk s)). rewrite Eh.
    destruct (hash_table_insert_spec H eqk (as_table dk s) k 0 Hw) as (i & ht' & E & _ & _ & Hb);
      try assumption; [lia|].
    unfold hash_table_insert in E. rewrite (add_view dk 2) in E by assumption.
    apply viewed_Ret in E as (s' & Ea & <-). unfold set_add. rewrite Ea. exists s'. split; [reflexivity|].
    apply (becomes_represents _ _ _ _ _ _ Hb Eh). cbn [map kv key data]. rewrite map_kv_filter, <- filter_pairs.
    now apply perm_skip, Permutation_filter.
  - destruct (remove_key_spec H eqk (as_table dk s) k Hw Eh) as (ht' & E & Hb).
    unfold _mesa_hash_table_remove_key, _mesa_hash_table_search in E. rewrite Eh, set_search_view in E.
    unfold _mesa_set_remove_key, _mesa_set_search.
    change (set_key_hash_function s) with (key_hash_function (as_table dk s)). rewrite Eh.
    destruct (set_search dk s (H k) k) as [e| |]; cbn [obind] in *; try discriminate.
    injection E as <-. rewrite remove_view in Hb. eexists. split; [reflexivity|].
    apply (becomes_represents _ _ _ _ _ _ Hb Eh). rewrite map_kv_filter, <- filter_pairs. now apply Permutation_filter.
  - destruct (search_find H eqk (as_table dk s) k Hw Eh) as (r & E & Ef & _).
    unfold _mesa_hash_table_search in E. rewrite Eh, set_search_view in E. unfold _mesa_set_search.
    change (set_key_hash_function s) with (key_hash_function (as_table dk s)). rewrite Eh, E. cbn [obind].
    exists s. split; [|assumption]. f_equal. f_equal.
    pose proof (find_perm H eqk k _ _ (wf_unique _ _ _ Hw) Hp) as Hf. rewrite find_pairs, <- Ef in Hf.
    change (table (as_table dk s)) with (map as_entry (set_table s)) in Hf.
    destruct r as [i|]; destruct (find (eqk k) m) as [k0|]; cbn [option_map] in *; try discriminate; [|reflexivity].
    rewrite slot_view in Hf. unfold kv in Hf. cbn in Hf. congruence.
  - pose proof (set_clear_spec s Hw) as Hb. eexists. split; [reflexivity|].
    now apply (becomes_represents _ _ _ _ _ _ Hb Eh).
  - exists s. change (set_entries s) with (entries (as_table dk s)). rewrite Hc. auto.
Qed.

Lemma set_run_spec os : forall s m,
  holds s m -> Z.of_nat (length m) + Z.of_nat (length os) <= 2 ^ 30 -> Forall legal_set_op os ->
  exists s', set_run dk s os = Ret (fst (keys_run eqk m os), s') /\ holds s' (snd (keys_run eqk m os)).
Proof.
  induction os as [|o os IH]; intros s m Hr Hlen Hlegal; cbn [set_run keys_run].
  { exists s. auto. }
  inversion Hlegal as [|? ? Ho Hos]; subst. cbn [length] in Hlen.
  destruct (set_step_spec s m o Hr ltac:(lia) Ho) as (s1 & -> & Hr1). cbn [obind].
  assert (Hl : (length (snd (keys_step eqk m o)) <= S (length m))%nat).
  { destruct o; cbn; try lia; match goal with |- context [filter ?p m] => pose proof (filter_length_le p m) end; lia. }
  destruct (keys_step eqk m o) as [r m1]. cbn [fst snd] in *.
  destruct (IH s1 m1 Hr1) as (s' & -> & Hr'); [lia | assumption |].
  exists s'. destruct (keys_run eqk m1 os). auto.
Qed.

End Refinement.

(** C21: refinement.  Every sequence of up to 2^30 additions, removals,
    lookups, clears and counts on a newly created set returns what the same
    sequence returns on a list of distinct keys, and the set then holds
    exactly those keys. *)
Theorem set_refines_keys (H : Z -> Z) (eqk : Z -> Z -> bool) (HK : HashKey H eqk) dk os :
  dk <> NULL -> Z.of_nat (length os) <= 2 ^ 30 -> Forall (legal_set_op dk) os ->
  exists s', set_run dk (_mesa_set_create (Some H) eqk) os = Ret (fst (keys_run eqk [] os), s') /\
    holds H eqk dk s' (snd (keys_run eqk [] os)).
Proof.
  intros Hdk Hlen Hlegal. destruct (hash_table_init_spec H eqk dk Hdk) as [Hw Hc].
  apply set_run_spec; auto. split; [exact Hw|]. split; [reflexivity|]. constructor.
Qed.

Definition sample_set_ops : list set_op :=
  [SetAdd 16; SetAdd 32; SetAdd 48; SetRemove 32; SetAdd 16; SetContains 16; SetContains 32; SetCount; SetClear;
   SetContains 16; SetAdd 48; SetCount].

Lemma set_refines_keys_witness :
  fst (keys_run _mesa_key_pointer_equal [] sample_set_ops) =
    [None; None; None; None; None; Some 16; None; Some 2; None; None; None; Some 1] /\
  exists s', set_run 4 (_mesa_set_create (Some _mesa_hash_pointer) _mesa_key_pointer_equal) sample_set_ops =
    Ret (fst (keys_run _mesa_key_pointer_equal [] sample_set_ops), s') /\
    holds _mesa_hash_pointer _mesa_key_pointer_equal 4 s' (snd (keys_run _mesa_key_pointer_equal [] sample_set_ops)).
Proof.
  split; [reflexivity|].
  apply (set_refines_keys _mesa_hash_pointer _mesa_key_pointer_equal pointer_key 4 sample_set_ops);
    [vm_compute; congruence | vm_compute; congruence |].
  repeat constructor; vm_compute; congruence.
Defined.

(** The number of tombstones of a set. *)
Definition tombstones (dk : Z) (s : set) : Z := Z.of_nat (length (filter (set_entry_is_deleted dk) (set_table s))).

(** Invariant.  [_mesa_set_clear] turns entries into deleted ones but
    resets the count of deleted entries: after one addition, a clear and the
    same addition again, that count has wrapped below zero. *)
Theorem set_clear_loses_count :
  (let! (_, s) := set_run 4 (_mesa_set_create (Some _mesa_hash_pointer) _mesa_key_pointer_equal)
                    [SetAdd 16; SetClear] in Ret (tombstones 4 s, set_deleted_entries s)) = Ret (1, 0) /\
  (let! (_, s) := set_run 4 (_mesa_set_create (Some _mesa_hash_pointer) _mesa_key_pointer_equal)
                    [SetAdd 16; SetClear; SetAdd 16] in Ret (tombstones 4 s, set_deleted_entries s)) =
    Ret (0, 4294967295).
Proof. split; reflexivity. Qed.
