(* ===== verification/Arrays.v ===== *)
(** * C arrays and bit sets (src/util/bitset.h)

    An array is a list indexed by [Z]; [get] takes the value read outside
    its bounds, [upd] does nothing there.  A bit set is an array of 32-bit
    words.  Sums over lists are at the end. *)

From stdpp Require Import base list numbers.
From Stdlib Require Import Bool ZArith List Lia FinFun.
From S2P Require Import Prelude.
Import ListNotations.
#[local] Open Scope bool_scope.
#[local] Open Scope Z_scope.

Definition get {A} (d : A) (l : list A) (i : Z) : A := nth (Z.to_nat i) l d.

Fixpoint upd_nat {A} (n : nat) (f : A -> A) (l : list A) : list A :=
  match l, n with
  | [], _ => []
  | x :: l, O => f x :: l
  | x :: l, S n => x :: upd_nat n f l
  end.

(** [l[i] = f(l[i])] *)
Definition upd {A} (i : Z) (f : A -> A) (l : list A) : list A := upd_nat (Z.to_nat i) f l.

Definition len {A} (l : list A) : Z := Z.of_nat (length l).

Lemma upd_length {A} i (f : A -> A) l : length (upd i f l) = length l.
Proof. unfold upd. generalize (Z.to_nat i) as n. induction l; intros [|n]; cbn; auto. Qed.

Lemma len_upd {A} i (f : A -> A) l : len (upd i f l) = len l.
Proof. unfold len. now rewrite upd_length. Qed.

Lemma nth_upd_nat {A} (d : A) n m f l :
  (n < length l)%nat -> nth m (upd_nat n f l) d = if Nat.eqb m n then f (nth m l d) else nth m l d.
Proof.
  revert n m. induction l as [|x l IH]; intros n m Hn; cbn [length] in Hn; [lia|].
  destruct n as [|n], m as [|m]; cbn; auto. apply IH. lia.
Qed.

Lemma get_upd {A} (d : A) i j f l :
  0 <= i < len l -> 0 <= j -> get d (upd i f l) j = if j =? i then f (get d l j) else get d l j.
Proof.
  unfold len, get, upd. intros Hi Hj. rewrite nth_upd_nat by lia.
  destruct (Nat.eqb_spec (Z.to_nat j) (Z.to_nat i)), (Z.eqb_spec j i); try lia; reflexivity.
Qed.

Lemma get_app_l {A} (d : A) l1 l2 i : 0 <= i < len l1 -> get d (l1 ++ l2) i = get d l1 i.
Proof. unfold get, len. intros. apply app_nth1. lia. Qed.

Lemma get_app_end {A} (d : A) l x : get d (l ++ [x]) (len l) = x.
Proof. unfold get, len. rewrite app_nth2 by lia. now replace (Z.to_nat _ - _)%nat with O by lia. Qed.

Lemma get_In {A} (d : A) l i : 0 <= i < len l -> In (get d l i) l.
Proof. unfold get, len. intros. apply nth_In. lia. Qed.

Lemma len_app {A} (l1 l2 : list A) : len (l1 ++ l2) = len l1 + len l2.
Proof. unfold len. rewrite length_app. lia. Qed.

Lemma len_nonneg {A} (l : list A) : 0 <= len l.
Proof. unfold len. lia. Qed.

(** The indices of an array of the given length. *)
Definition indices (n : Z) : list Z := map Z.of_nat (seq 0 (Z.to_nat n)).

Lemma in_indices n i : In i (indices n) <-> 0 <= i < n.
Proof.
  unfold indices. rewrite in_map_iff. split.
  - intros (x & <- & Hx). apply in_seq in Hx. lia.
  - intros Hi. exists (Z.to_nat i). split; [lia|]. apply in_seq. lia.
Qed.

Lemma NoDup_indices n : NoDup (indices n).
Proof. apply Finite.Injective_map_NoDup; [intros x y; lia | apply seq_NoDup]. Qed.

Lemma length_indices n : length (indices n) = Z.to_nat n.
Proof. unfold indices. now rewrite length_map, length_seq. Qed.

Lemma indices_succ n : 0 <= n -> indices (n + 1) = indices n ++ [n].
Proof.
  intros Hn. unfold indices. replace (Z.to_nat (n + 1)) with (Z.to_nat n + 1)%nat by lia.
  rewrite seq_app, map_app. cbn [seq map]. f_equal. f_equal. lia.
Qed.

(** [for (i = 0; i < n; i++) l[i] = f(i, l[i]);] *)
Lemma fold_upd {A} (d : A) (f : Z -> A -> A) n l :
  0 <= n <= len l ->
  let l' := fold_left (fun l i => upd i (f i) l) (indices n) l in
  len l' = len l /\ forall j, 0 <= j -> get d l' j = if j <? n then f j (get d l j) else get d l j.
Proof.
  intros [Hn Hl]. revert n Hn Hl. apply (natlike_ind (fun n => n <= len l -> _)).
  - intros _. split; [reflexivity|]. intros j Hj. destruct (Z.ltb_spec j 0); [lia | reflexivity].
  - intros n Hn IH Hl. destruct (IH ltac:(lia)) as [IHl IHg]. unfold Z.succ. rewrite indices_succ, fold_left_app by assumption.
    cbn [fold_left]. split; [now rewrite len_upd|]. intros j Hj. rewrite get_upd by lia. rewrite IHg by assumption.
    destruct (Z.eqb_spec j n), (Z.ltb_spec j n), (Z.ltb_spec j (n + 1)); try lia; subst; reflexivity.
Qed.

(** ** Bit sets *)

Definition BITSET_WORDBITS : Z := 32.
(** In [size_t] arithmetic, which a 32-bit count does not overflow. *)
Definition BITSET_WORDS (bits : Z) : Z := (bits + BITSET_WORDBITS - 1) / BITSET_WORDBITS.
Definition BITSET_BITWORD (b : Z) : Z := b / BITSET_WORDBITS.
Definition BITSET_BIT (b : Z) : Z := Z.shiftl 1 (b mod BITSET_WORDBITS).

Definition BITSET_TEST (x : list Z) (b : Z) : bool :=
  negb (Z.land (get 0 x (BITSET_BITWORD b)) (BITSET_BIT b) =? 0).
Definition BITSET_SET (x : list Z) (b : Z) : list Z :=
  upd (BITSET_BITWORD b) (fun w => Z.lor w (BITSET_BIT b)) x.

(** [ffs(w) - 1] for a non-zero 32-bit word. *)
Fixpoint lowest_bit (n : nat) (w k : Z) : Z :=
  match n with
  | O => k
  | S n => if Z.testbit w k then k else lowest_bit n w (k + 1)
  end.

(** The loop of [__bitset_next_set] over empty words: the word reached and the
    bits left in it, or none at the end of the set. *)
Fixpoint next_word (fuel : nat) (x : list Z) (size word tmp : Z) : option (Z * Z) :=
  if tmp =? 0 then
    match fuel with
    | O => None
    | S fuel =>
        let word := word + 1 in
        if word >=? BITSET_WORDS size then None else next_word fuel x size word (get 0 x word)
    end
  else Some (word, tmp).

Definition __bitset_next_set (i tmp : Z) (x : list Z) (size : Z) : Z * Z :=
  match next_word (length x) x size (BITSET_BITWORD i) tmp with
  | None => (size, 0)
  | Some (word, tmp) =>
      let bit := lowest_bit 32 tmp 0 in
      (word * BITSET_WORDBITS + bit, Z.ldiff tmp (Z.shiftl 1 bit))
  end.

(** The values of [__i] in the body of [BITSET_FOREACH_SET]. *)
Fixpoint foreach_set (fuel : nat) (i tmp : Z) (x : list Z) (size : Z) : list Z :=
  match fuel with
  | O => []
  | S fuel =>
      let (i, tmp) := __bitset_next_set i tmp x size in
      if i <? size then i :: foreach_set fuel i tmp x size else []
  end.

Definition BITSET_FOREACH_SET (x : list Z) (size : Z) : list Z :=
  foreach_set (S (Z.to_nat size)) 0 (get 0 x 0) x size.

(** [rzalloc_array(ctx, BITSET_WORD, BITSET_WORDS(n))] *)
Definition bitset_zero (n : Z) : list Z := repeat 0 (Z.to_nat (BITSET_WORDS n)).

Lemma land_bit w k : 0 <= k -> (Z.land w (Z.shiftl 1 k) =? 0) = negb (Z.testbit w k).
Proof.
  intros Hk. rewrite Z.shiftl_1_l. destruct (Z.testbit w k) eqn:E; cbn [negb].
  - apply Z.eqb_neq. intros H0. assert (Z.testbit (Z.land w (2 ^ k)) k = true); [|rewrite H0, Z.bits_0 in *; discriminate].
    rewrite Z.land_spec, E, Z.pow2_bits_true by assumption. reflexivity.
  - apply Z.eqb_eq, Z.bits_inj'. intros n Hn. rewrite Z.land_spec, Z.bits_0.
    destruct (Z.eq_dec n k) as [->|Hne]; [now rewrite E|]. now rewrite Z.pow2_bits_false, andb_false_r by lia.
Qed.

Lemma BITSET_TEST_bit x b : BITSET_TEST x b = Z.testbit (get 0 x (b / 32)) (b mod 32).
Proof.
  unfold BITSET_TEST, BITSET_BITWORD, BITSET_BIT, BITSET_WORDBITS.
  rewrite land_bit by (apply Z.mod_pos_bound; lia). apply negb_involutive.
Qed.

Definition word_ok (w : Z) : Prop := 0 <= w < 2 ^ 32.

(** A set of [n] bits. *)
Definition bitset_ok (x : list Z) (n : Z) : Prop := 0 <= n /\ Forall word_ok x /\ len x = BITSET_WORDS n.

Lemma bitset_ok_fit x n b : bitset_ok x n -> 0 <= b < n -> 0 <= b / 32 < len x.
Proof.
  intros (_ & _ & ->) Hb. unfold BITSET_WORDS, BITSET_WORDBITS. split; [apply Z.div_pos; lia|].
  apply Z.div_lt_upper_bound; [lia|]. pose proof (Z.div_mod (n + 32 - 1) 32 ltac:(lia)).
  pose proof (Z.mod_pos_bound (n + 32 - 1) 32 ltac:(lia)). lia.
Qed.

Lemma BITSET_TEST_SET x n b c :
  bitset_ok x n -> 0 <= b < n -> 0 <= c -> BITSET_TEST (BITSET_SET x b) c = (c =? b) || BITSET_TEST x c.
Proof.
  intros Hfit Hb Hc. rewrite !BITSET_TEST_bit. unfold BITSET_SET, BITSET_BITWORD, BITSET_BIT, BITSET_WORDBITS.
  rewrite get_upd; [|now apply (bitset_ok_fit x n) | apply Z.div_pos; lia].
  pose proof (Z.div_mod b 32 ltac:(lia)). pose proof (Z.div_mod c 32 ltac:(lia)).
  pose proof (Z.mod_pos_bound b 32 ltac:(lia)). pose proof (Z.mod_pos_bound c 32 ltac:(lia)).
  destruct (Z.eqb_spec (c / 32) (b / 32)) as [E|E].
  - rewrite Z.lor_spec, Z.shiftl_1_l, Z.pow2_bits_eqb, orb_comm by lia. f_equal.
    destruct (Z.eqb_spec (b mod 32) (c mod 32)), (Z.eqb_spec c b); try reflexivity; lia.
  - destruct (Z.eqb_spec c b) as [->|]; [congruence | reflexivity].
Qed.

(** A number is a word if it has no bit above the 32nd. *)
Lemma word_ok_bits w : 0 <= w -> (forall k, 32 <= k -> Z.testbit w k = false) -> word_ok w.
Proof.
  intros Hw Hk. split; [assumption|]. destruct (Z.eq_dec w 0) as [->|Hz]; [vm_compute; reflexivity|].
  apply Z.log2_lt_pow2; [lia|]. destruct (Z_lt_ge_dec (Z.log2 w) 32) as [|Hge]; [assumption|].
  specialize (Hk (Z.log2 w) ltac:(lia)). rewrite Z.bit_log2 in Hk by lia. discriminate.
Qed.

Lemma word_bit_small w k : word_ok w -> Z.testbit w k = true -> k < 32.
Proof.
  intros [Hw Hb] Ht. destruct (Z_lt_ge_dec k 32) as [|Hge]; [assumption|].
  rewrite Z.bits_above_log2 in Ht; [discriminate | assumption |].
  destruct (Z.eq_dec w 0) as [->|]; [cbn; lia|].
  apply Z.lt_le_trans with 32; [apply Z.log2_lt_pow2; lia | lia].
Qed.

Lemma word_bit_above w k : word_ok w -> 32 <= k -> Z.testbit w k = false.
Proof. intros Hw Hk. destruct (Z.testbit w k) eqn:E; [apply word_bit_small in E; [lia | assumption] | reflexivity]. Qed.

Lemma word_ok_lor a b : word_ok a -> word_ok b -> word_ok (Z.lor a b).
Proof.
  intros Ha Hb. apply word_ok_bits; [apply Z.lor_nonneg; split; [apply Ha | apply Hb]|].
  intros k Hk. now rewrite Z.lor_spec, !word_bit_above.
Qed.

Lemma word_ok_land a b : word_ok a -> word_ok (Z.land a b).
Proof.
  intros Ha. apply word_ok_bits; [apply Z.land_nonneg; left; apply Ha|].
  intros k Hk. now rewrite Z.land_spec, word_bit_above.
Qed.

Lemma word_ok_bit k : 0 <= k < 32 -> word_ok (Z.shiftl 1 k).
Proof.
  intros Hk. rewrite Z.shiftl_1_l. split; [apply Z.pow_nonneg; lia | apply Z.pow_lt_mono_r; lia].
Qed.

Lemma Forall_upd {A} (P : A -> Prop) i f l : Forall P l -> (forall x, P x -> P (f x)) -> Forall P (upd i f l).
Proof.
  intros Hl Hf. unfold upd. generalize (Z.to_nat i) as n. induction Hl as [|x l Hx Hl IH]; intros [|n]; cbn; auto.
Qed.

Lemma get_word_ok x i : Forall word_ok x -> word_ok (get 0 x i).
Proof.
  intros Hx. unfold get. destruct (nth_in_or_default (Z.to_nat i) x 0) as [Hin| ->]; [|split; vm_compute; congruence].
  rewrite Forall_forall in Hx. auto.
Qed.

Lemma BITSET_SET_ok x n b : bitset_ok x n -> bitset_ok (BITSET_SET x b) n.
Proof.
  intros (Hn & Hw & Hl). unfold BITSET_SET. split; [assumption|]. split; [|now rewrite len_upd].
  apply Forall_upd; [assumption|]. intros w Hok. apply word_ok_lor; [assumption|].
  apply word_ok_bit, Z.mod_pos_bound. reflexivity.
Qed.

Lemma bitset_zero_ok n : 0 <= n -> bitset_ok (bitset_zero n) n.
Proof.
  intros Hn. unfold bitset_ok, bitset_zero, len. rewrite repeat_length. split; [assumption|]. split.
  - apply Forall_forall. intros w Hw. apply repeat_spec in Hw as ->. split; vm_compute; congruence.
  - rewrite Z2Nat.id; [reflexivity|]. unfold BITSET_WORDS, BITSET_WORDBITS. apply Z.div_pos; lia.
Qed.

Lemma bitset_zero_test n b : BITSET_TEST (bitset_zero n) b = false.
Proof.
  rewrite BITSET_TEST_bit. unfold bitset_zero, get. rewrite nth_repeat. apply Z.bits_0.
Qed.

(** ** Iteration over the set bits *)

(** The bits of word [word] of the set that are also in [tmp], and all bits of
    the later words: what the iteration has still to visit. *)
Definition to_visit (x : list Z) (word tmp c : Z) : Prop :=
  0 <= c /\ ((c / 32 = word /\ Z.testbit tmp (c mod 32) = true) \/ (word < c / 32 /\ BITSET_TEST x c = true)).

Lemma lowest_bit_spec n : forall w k,
  (exists j, k <= j < k + Z.of_nat n /\ Z.testbit w j = true) ->
  k <= lowest_bit n w k < k + Z.of_nat n /\ Z.testbit w (lowest_bit n w k) = true /\
  forall j, k <= j < lowest_bit n w k -> Z.testbit w j = false.
Proof.
  induction n as [|n IH]; intros w k (j & Hj & Hb); [lia|]. cbn [lowest_bit].
  destruct (Z.testbit w k) eqn:E; [repeat split; auto; lia|].
  destruct (IH w (k + 1)) as (H1 & H2 & H3).
  - exists j. split; [|assumption]. destruct (Z.eq_dec j k) as [->|]; [congruence | lia].
  - split; [lia|]. split; [assumption|]. intros i Hi. destruct (Z.eq_dec i k) as [->|]; [assumption | apply H3; lia].
Qed.

Lemma word_nonzero w : word_ok w -> w <> 0 -> exists j, 0 <= j < 0 + Z.of_nat 32 /\ Z.testbit w j = true.
Proof.
  intros Hw Hz. exists (Z.log2 w). assert (Hb : Z.testbit w (Z.log2 w) = true) by (apply Z.bit_log2; destruct Hw; lia).
  pose proof (Z.log2_nonneg w). pose proof (word_bit_small _ _ Hw Hb). split; [lia | assumption].
Qed.

Section Foreach.
Context (x : list Z) (size : Z) (Hwords : Forall word_ok x) (Hsize : BITSET_WORDS size = len x).

Lemma to_visit_test c : 0 <= c -> to_visit x (c / 32) (get 0 x (c / 32)) c <-> BITSET_TEST x c = true.
Proof.
  intros Hc. unfold to_visit. rewrite BITSET_TEST_bit. split.
  - intros [_ [[_ Hb]|[Hlt _]]]; [assumption | lia].
  - auto.
Qed.

(** An exhausted word gives way to the next one. *)
Lemma to_visit_next word c : to_visit x word 0 c <-> to_visit x (word + 1) (get 0 x (word + 1)) c.
Proof.
  unfold to_visit. rewrite BITSET_TEST_bit. split; intros [Hc Hv]; (split; [assumption|]).
  - destruct Hv as [[_ Hb]|[Hlt Hb]]; [rewrite Z.bits_0 in Hb; discriminate|].
    destruct (Z.eq_dec (c / 32) (word + 1)) as [E|]; [left; rewrite <- E; auto | right; split; [lia | assumption]].
  - right. destruct Hv as [[E Hb]|[Hlt Hb]]; [rewrite E; split; [lia | assumption] | split; [lia | assumption]].
Qed.

Lemma to_visit_end word c : len x <= word + 1 -> 0 <= word -> ~ to_visit x word 0 c.
Proof.
  intros Hend Hw [Hc [[_ Hb]|[Hlt Hb]]]; [rewrite Z.bits_0 in Hb; discriminate|].
  rewrite BITSET_TEST_bit in Hb. unfold get, len in *. rewrite nth_overflow, Z.bits_0 in Hb by lia. discriminate.
Qed.

Lemma next_word_spec fuel : forall word tmp,
  word_ok tmp -> 0 <= word -> len x <= Z.of_nat fuel + word + 1 ->
  match next_word fuel x size word tmp with
  | None => forall c, ~ to_visit x word tmp c
  | Some (w, t) => word <= w /\ word_ok t /\ t <> 0 /\ forall c, to_visit x word tmp c <-> to_visit x w t c
  end.
Proof.
  induction fuel as [|fuel IH]; intros word tmp Ht Hw Hf; cbn [next_word];
    destruct (Z.eqb_spec tmp 0) as [->|Hz]; try (split; [lia|]; now split).
  { intros c. apply to_visit_end; lia. }
  rewrite Z.geb_leb, Hsize. destruct (Z.leb_spec (len x) (word + 1)) as [Hend|Hmore].
  { intros c. now apply to_visit_end. }
  specialize (IH (word + 1) (get 0 x (word + 1)) (get_word_ok x _ Hwords) ltac:(lia) ltac:(lia)).
  destruct (next_word _ _ _ _ _) as [[w t]|].
  - destruct IH as (H1 & H2 & H3 & H4). split; [lia|]. split; [assumption|]. split; [assumption|].
    intros c. now rewrite to_visit_next.
  - intros c. rewrite to_visit_next. apply IH.
Qed.

(** One step visits the least remaining bit. *)
Lemma next_set_spec i tmp :
  word_ok tmp -> 0 <= i ->
  let (i', tmp') := __bitset_next_set i tmp x size in
  (i' = size /\ forall c, ~ to_visit x (i / 32) tmp c) \/
  (to_visit x (i / 32) tmp i' /\ word_ok tmp' /\ (forall c, to_visit x (i / 32) tmp c -> i' <= c) /\
   forall c, to_visit x (i' / 32) tmp' c <-> to_visit x (i / 32) tmp c /\ c <> i').
Proof.
  intros Ht Hi. unfold __bitset_next_set, BITSET_BITWORD, BITSET_WORDBITS.
  assert (Hw : 0 <= i / 32) by (apply Z.div_pos; lia).
  pose proof (next_word_spec (length x) (i / 32) tmp Ht Hw ltac:(unfold len; lia)) as Hn.
  destruct (next_word _ _ _ _ _) as [[w t]|]; [right | left; auto].
  destruct Hn as (Hle & Htok & Hnz & Hequiv).
  destruct (lowest_bit_spec 32 t 0 (word_nonzero t Htok Hnz)) as (Hb & Hbit & Hleast).
  set (b := lowest_bit 32 t 0) in *. change (0 + Z.of_nat 32) with 32 in Hb.
  assert (Hdiv : (w * 32 + b) / 32 = w) by (rewrite Z.add_comm, Z_div_plus, Z.div_small; lia).
  assert (Hmod : (w * 32 + b) mod 32 = b) by (rewrite Z.add_comm, Z_mod_plus, Z.mod_small; lia).
  split; [|split; [|split]].
  - apply Hequiv. split; [lia|]. left. now rewrite Hdiv, Hmod.
  - split; [apply Z.ldiff_nonneg; left; apply Htok|]. destruct Htok as [Ht0 Ht1].
    destruct (Z.eq_dec (Z.ldiff t (Z.shiftl 1 b)) 0) as [->|Hz]; [lia|].
    apply Z.log2_lt_pow2; [assert (0 <= Z.ldiff t (Z.shiftl 1 b)) by (apply Z.ldiff_nonneg; auto); lia|].
    apply (word_bit_small t); [split; assumption|].
    assert (Hl : Z.testbit (Z.ldiff t (Z.shiftl 1 b)) (Z.log2 (Z.ldiff t (Z.shiftl 1 b))) = true)
      by (apply Z.bit_log2; assert (0 <= Z.ldiff t (Z.shiftl 1 b)) by (apply Z.ldiff_nonneg; auto); lia).
    rewrite Z.ldiff_spec in Hl. now apply andb_true_iff in Hl.
  - intros c Hc. apply Hequiv in Hc as [Hc [[E Hbc]|[Hlt _]]].
    + pose proof (Z.div_mod c 32 ltac:(lia)). pose proof (Z.mod_pos_bound c 32 ltac:(lia)).
      destruct (Z_lt_ge_dec (c mod 32) b) as [Hlt|]; [|lia]. rewrite Hleast in Hbc by lia. discriminate.
    + pose proof (Z.div_mod c 32 ltac:(lia)). pose proof (Z.mod_pos_bound c 32 ltac:(lia)). lia.
  - intros c. rewrite Hequiv, Hdiv. unfold to_visit.
    destruct (Z_lt_ge_dec c 0); [intuition lia|]. pose proof (Z.div_mod c 32 ltac:(lia)).
    rewrite Z.ldiff_spec, Z.shiftl_1_l, Z.pow2_bits_eqb by lia.
    destruct (Z.eqb_spec b (c mod 32)) as [Eb|Eb]; cbn [negb]; rewrite ?andb_false_r, ?andb_true_r.
    + split; [intros [? [[? ?]|[? ?]]]; [discriminate | split; [auto | lia]]|].
      intros [[? [[? ?]|[? ?]]] Hne]; [exfalso; lia | auto].
    + split; [|tauto]. intros Hv. split; [assumption|]. intros ->. congruence.
Qed.

Lemma foreach_set_spec fuel : forall i tmp b,
  word_ok tmp -> 0 <= i -> (forall c, to_visit x (i / 32) tmp c -> b <= c) -> size - b < Z.of_nat fuel ->
  forall c, In c (foreach_set fuel i tmp x size) <-> to_visit x (i / 32) tmp c /\ c < size.
Proof.
  induction fuel as [|fuel IH]; intros i tmp b Ht Hi Hb Hf c; cbn [foreach_set].
  { split; [intros []|]. intros [Hv Hc]. specialize (Hb c Hv). lia. }
  pose proof (next_set_spec i tmp Ht Hi) as Hn.
  destruct (__bitset_next_set i tmp x size) as [i' tmp'].
  destruct Hn as [[-> Hnone]|(Hv & Ht' & Hleast & Hrest)].
  { rewrite Z.ltb_irrefl. split; [intros [] | intros [Hv _]; now apply Hnone in Hv]. }
  destruct (Z.ltb_spec i' size) as [Hlt|Hge].
  - cbn [In]. rewrite (IH i' tmp' (i' + 1)); [|assumption | apply Hv | |].
    + rewrite Hrest. destruct (Z.eq_dec i' c) as [<-|]; [tauto | intuition congruence].
    + intros d Hd. apply Hrest in Hd as [Hd Hne]. specialize (Hleast d Hd). lia.
    + specialize (Hb i' Hv). lia.
  - split; [intros []|]. intros [Hc Hcs]. specialize (Hleast c Hc). lia.
Qed.

(** [BITSET_FOREACH_SET] visits the set bits below [size]. *)
Lemma BITSET_FOREACH_SET_spec c :
  In c (BITSET_FOREACH_SET x size) <-> 0 <= c < size /\ BITSET_TEST x c = true.
Proof.
  unfold BITSET_FOREACH_SET. rewrite (foreach_set_spec _ 0 (get 0 x 0) 0);
    [| now apply get_word_ok | lia | intros d [Hd _]; exact Hd | lia].
  change (0 / 32) with 0. assert (Hall : to_visit x 0 (get 0 x 0) c <-> 0 <= c /\ BITSET_TEST x c = true); [|rewrite Hall; tauto].
  unfold to_visit. rewrite BITSET_TEST_bit. split; intros [Hc Hv]; (split; [assumption|]).
  - destruct Hv as [[E Hb]|[_ Hb]]; [now rewrite E | assumption].
  - assert (0 <= c / 32) by (apply Z.div_pos; lia). destruct (Z.eq_dec (c / 32) 0) as [E|]; [left; rewrite E in Hv; auto | right; split; [lia | assumption]].
Qed.

End Foreach.

(** ** Word-wise operations *)

(** Applying [f] to the words of two sets applies [g] to their bits. *)
Lemma fold_words (f : Z -> Z -> Z) (g : bool -> bool -> bool) n dst src :
  (forall a b, word_ok a -> word_ok b -> word_ok (f a b)) ->
  (forall a b k, 0 <= k < 32 -> Z.testbit (f a b) k = g (Z.testbit a k) (Z.testbit b k)) ->
  bitset_ok dst n -> bitset_ok src n ->
  let dst' := fold_left (fun dst i => upd i (fun w => f w (get 0 src i)) dst) (indices (BITSET_WORDS n)) dst in
  bitset_ok dst' n /\ forall b, 0 <= b < n -> BITSET_TEST dst' b = g (BITSET_TEST dst b) (BITSET_TEST src b).
Proof.
  intros Hok Hg Hd Hs dst'. pose proof Hd as (Hn & Hdw & Hdl). pose proof Hs as (_ & Hsw & Hsl).
  pose proof (len_nonneg dst).
  destruct (fold_upd 0 (fun i w => f w (get 0 src i)) (BITSET_WORDS n) dst ltac:(lia)) as [Hl' Hget].
  change (fold_left _ _ _) with dst' in Hl', Hget. split.
  - split; [assumption|]. split; [|congruence]. unfold dst'. clear - Hdw Hsw Hok. revert dst Hdw.
    induction (indices (BITSET_WORDS n)) as [|i ids IH]; intros dst Hdw; cbn [fold_left]; [assumption|].
    apply IH. apply Forall_upd; [assumption|]. intros w Hw. apply Hok; [assumption | now apply get_word_ok].
  - intros b Hb. rewrite !BITSET_TEST_bit. pose proof (bitset_ok_fit dst n b Hd Hb) as Hw.
    rewrite Hget by lia. destruct (Z.ltb_spec (b / 32) (BITSET_WORDS n)); [|lia].
    apply Hg, Z.mod_pos_bound. lia.
Qed.

(** ** Sums over a list of threads or slots *)

Fixpoint total {A} (g : A -> Z) (l : list A) : Z :=
  match l with [] => 0 | x :: l => g x + total g l end.

Section total.
Context {A : Type}.
Implicit Types (g h : A -> Z) (l : list A).

Lemma total_app g l l' : total g (l ++ l') = total g l + total g l'.
Proof. induction l; cbn; lia. Qed.

Lemma total_insert g l i x y : l !! i = Some x -> total g (<[i := y]> l) = total g l - g x + g y.
Proof.
  revert i. induction l as [|z l IH]; intros [|i] H; cbn in H; try discriminate.
  - injection H as ->. cbn. lia.
  - change (g z + total g (<[i := y]> l) = g z + total g l - g x + g y). rewrite (IH _ H). lia.
Qed.

Lemma total_replicate g n x : total g (replicate n x) = Z.of_nat n * g x.
Proof. induction n; cbn [replicate total]; lia. Qed.

Lemma total_nonneg g l : (forall x, 0 <= g x) -> 0 <= total g l.
Proof. intros Hg. induction l; cbn; [lia | specialize (Hg a); lia]. Qed.

Lemma total_lookup g l i x : (forall x, 0 <= g x) -> l !! i = Some x -> g x <= total g l.
Proof.
  intros Hg. revert i. induction l as [|z l IH]; intros [|i] H; cbn in *; try discriminate.
  - injection H as ->. pose proof (total_nonneg g l Hg). lia.
  - pose proof (Hg z). specialize (IH _ H). lia.
Qed.

(** Two threads with a positive count, or one with more than the total. *)
Lemma total_lookup_2 g l i j x y : (forall x, 0 <= g x) -> i <> j ->
  l !! i = Some x -> l !! j = Some y -> g x + g y <= total g l.
Proof.
  intros Hg. revert i j. induction l as [|z l IH]; intros [|i] [|j] Hij Hi Hj; cbn in *; try discriminate; try congruence.
  - injection Hi as ->. pose proof (total_lookup g l j y Hg Hj). lia.
  - injection Hj as ->. pose proof (total_lookup g l i x Hg Hi). lia.
  - pose proof (Hg z). specialize (IH i j ltac:(congruence) Hi Hj). lia.
Qed.

Lemma total_zero g l i x : (forall x, 0 <= g x) -> total g l <= 0 -> l !! i = Some x -> g x = 0.
Proof. intros Hg H0 H. pose proof (total_lookup g l i x Hg H). specialize (Hg x). lia. Qed.

Lemma total_all_zero g l : (forall i x, l !! i = Some x -> g x = 0) -> total g l = 0.
Proof.
  induction l as [|z l IH]; intros H; cbn; [reflexivity|]. rewrite (H O z eq_refl), IH; [reflexivity|].
  intros i x Hx. apply (H (S i) x Hx).
Qed.

Lemma total_pos g l : 0 < total g l -> exists i x, l !! i = Some x /\ 0 < g x.
Proof.
  induction l as [|z l IH]; cbn; [lia|]. intros H. destruct (Z_lt_ge_dec 0 (g z)).
  - exists O, z. auto.
  - destruct IH as (i & x & Hi & Hx); [lia|]. exists (S i), x. auto.
Qed.

Lemma total_map_le g h (f : A -> A) l : (forall x, g (f x) <= h x) -> total g (map f l) <= total h l.
Proof. intros H. induction l as [|x l IH]; cbn; [lia | specialize (H x); lia]. Qed.

Lemma total_map_eq g (f : A -> A) l : (forall x, g (f x) = g x) -> total g (map f l) = total g l.
Proof. intros H. induction l as [|x l IH]; cbn; [lia | specialize (H x); lia]. Qed.

Lemma total_map_drop g (f : A -> A) l : (forall x, g (f x) = 0) -> total g (map f l) = 0.
Proof. intros H. induction l as [|x l IH]; cbn; [lia | specialize (H x); lia]. Qed.

Lemma total_le g h l : (forall x, g x <= h x) -> total g l <= total h l.
Proof. intros H. induction l as [|x l IH]; cbn; [lia | specialize (H x); lia]. Qed.

Lemma total_plus g h l : total (fun x => g x + h x) l = total g l + total h l.
Proof. induction l; cbn; lia. Qed.

(** A sum of counts of at most one that reaches the length counts everything. *)
Lemma total_le_len g l : (forall x, g x <= 1) -> total g l <= len l.
Proof. unfold len. intros H. induction l as [|x l IH]; cbn [total length]; [lia | specialize (H x); lia]. Qed.

Lemma total_full g l i x : (forall x, g x <= 1) -> len l <= total g l -> l !! i = Some x -> g x = 1.
Proof.
  unfold len. intros Hg. revert i. induction l as [|z l IH]; intros [|i] Hl H; cbn [total length] in Hl; cbn in H; try discriminate.
  - injection H as ->. pose proof (Hg x). pose proof (total_le_len g l Hg). unfold len in *. lia.
  - pose proof (Hg z). apply (IH i); [|assumption]. pose proof (Hg z). lia.
Qed.
End total.
