(* ===== verification/RegAlloc.v ===== *)
(** * Graph-colouring register allocator: src/util/register_allocate.c

    Arrays are lists ([Arrays]); the lists of conflicts and of neighbours hold
    the elements written, their capacities are kept beside them.  A null
    [conflict_list] is [None]; reading through it ends in [Assert_failed], as a
    failed assertion does.  Allocation is taken to succeed.  The driver's
    register selection callback is a parameter: its function pointer and its
    data are numbers, 0 for the null pointer, and [call] is what calling it
    returns. *)

From Stdlib Require Import Bool ZArith List Lia SpecFloat.
From S2P Require Import Prelude Arrays.
Import ListNotations.
#[local] Open Scope bool_scope.
#[local] Open Scope Z_scope.
#[local] Open Scope c_scope.

Definition UINT_MAX : Z := 2 ^ 32 - 1.
Definition NO_REG : Z := UINT_MAX.

Record ra_reg := RaReg {
  conflicts : list Z;
  conflict_list : option (list Z);
  conflict_list_size : Z;
  num_conflicts : Z
}.

Record ra_class := RaClass {
  class_regs : list Z;     (* [regs] *)
  p : Z;
  q : list Z
}.

Record ra_regs := RaRegs {
  regs : list ra_reg;
  regs_count : Z;          (* [count] *)
  classes : list ra_class;
  class_count : Z;
  round_robin : bool
}.

Record ra_node := RaNode {
  adjacency : list Z;
  adjacency_list : list Z;
  adjacency_list_size : Z;
  adjacency_count : Z;
  class : Z;
  reg : Z;
  in_stack : bool;
  q_total : Z;
  spill_cost : spec_float
}.

Record ra_graph := RaGraph {
  g_regs : ra_regs;        (* [regs] *)
  nodes : list ra_node;
  count : Z;
  stack : list Z;
  stack_count : Z;
  stack_optimistic_start : Z;
  select_reg_callback : Z;
  select_reg_callback_data : Z
}.

#[export] Instance eta_ra_reg : Eta ra_reg := fun r =>
  RaReg (conflicts r) (conflict_list r) (conflict_list_size r) (num_conflicts r).
#[export] Instance eta_ra_class : Eta ra_class := fun r => RaClass (class_regs r) (p r) (q r).
#[export] Instance eta_ra_regs : Eta ra_regs := fun r =>
  RaRegs (regs r) (regs_count r) (classes r) (class_count r) (round_robin r).
#[export] Instance eta_ra_node : Eta ra_node := fun r =>
  RaNode (adjacency r) (adjacency_list r) (adjacency_list_size r) (adjacency_count r) (class r) (reg r)
    (in_stack r) (q_total r) (spill_cost r).
#[export] Instance eta_ra_graph : Eta ra_graph := fun r =>
  RaGraph (g_regs r) (nodes r) (count r) (stack r) (stack_count r) (stack_optimistic_start r)
    (select_reg_callback r) (select_reg_callback_data r).

Definition no_reg : ra_reg := RaReg [] None 0 0.
Definition no_class : ra_class := RaClass [] 0 [].
Definition no_node : ra_node := RaNode [] [] 0 0 0 0 false 0 (S754_zero false).

Definition reg_at (R : ra_regs) (r : Z) : ra_reg := get no_reg (regs R) r.
Definition class_at (R : ra_regs) (c : Z) : ra_class := get no_class (classes R) c.
Definition node_at (g : ra_graph) (n : Z) : ra_node := get no_node (nodes g) n.

Definition upd_reg (r : Z) (f : ra_reg -> ra_reg) (R : ra_regs) : ra_regs := R <| regs := upd r f (regs R) |>.
Definition upd_class (c : Z) (f : ra_class -> ra_class) (R : ra_regs) : ra_regs :=
  R <| classes := upd c f (classes R) |>.
Definition upd_node (n : Z) (f : ra_node -> ra_node) (g : ra_graph) : ra_graph := g <| nodes := upd n f (nodes g) |>.

(** ** The register set *)

Definition ra_alloc_reg_set (cnt : Z) (need_conflict_lists : bool) : ra_regs :=
  RaRegs
    (map (fun i => RaReg (BITSET_SET (bitset_zero cnt) i)
                     (if need_conflict_lists then Some [i] else None)
                     (if need_conflict_lists then 4 else 0) 1)
       (indices cnt))
    cnt [] 0 false.

Definition ra_set_allocate_round_robin (R : ra_regs) : ra_regs := R <| round_robin := true |>.

Definition ra_add_conflict_list (R : ra_regs) (r1 r2 : Z) : ra_regs :=
  upd_reg r1 (fun reg1 =>
    let reg1 :=
      match conflict_list reg1 with
      | Some l =>
          let reg1 := if conflict_list_size reg1 =? num_conflicts reg1
                      then reg1 <| conflict_list_size := u32 (conflict_list_size reg1 * 2) |> else reg1 in
          reg1 <| conflict_list := Some (l ++ [r2]) |> <| num_conflicts := u32 (num_conflicts reg1 + 1) |>
      | None => reg1
      end in
    reg1 <| conflicts := BITSET_SET (conflicts reg1) r2 |>) R.

Definition ra_add_reg_conflict (R : ra_regs) (r1 r2 : Z) : ra_regs :=
  if BITSET_TEST (conflicts (reg_at R r1)) r2 then R
  else ra_add_conflict_list (ra_add_conflict_list R r1 r2) r2 r1.

(** [for (; i < regs->regs[base_reg].num_conflicts; i++)], which reads the
    list and its length again in every round. *)
Fixpoint transitive_loop (fuel : nat) (R : ra_regs) (base_reg r i : Z) : outcome ra_regs :=
  if i <? num_conflicts (reg_at R base_reg) then
    match fuel with
    | O => Out_of_fuel
    | S fuel =>
        match conflict_list (reg_at R base_reg) with
        | None => Assert_failed
        | Some l => transitive_loop fuel (ra_add_reg_conflict R r (get 0 l i)) base_reg r (i + 1)
        end
    end
  else Ret R.

Definition ra_add_transitive_reg_conflict (R : ra_regs) (base_reg r : Z) : outcome ra_regs :=
  let R := ra_add_reg_conflict R r base_reg in
  transitive_loop (Z.to_nat (num_conflicts (reg_at R base_reg))) R base_reg r 0.

(** [for (i = 0; i < BITSET_WORDS(n); i++) dst[i] |= src[i];] *)
Definition or_words (n : Z) (dst src : list Z) : list Z :=
  fold_left (fun dst i => upd i (fun w => Z.lor w (get 0 src i)) dst) (indices (BITSET_WORDS n)) dst.

Definition ra_make_reg_conflicts_transitive (R : ra_regs) (r : Z) : ra_regs :=
  fold_left (fun R c =>
      let src := conflicts (reg_at R r) in
      upd_reg c (fun other => other <| conflicts := or_words (regs_count R) (conflicts other) src |>) R)
    (BITSET_FOREACH_SET (conflicts (reg_at R r)) (regs_count R)) R.

Definition ra_alloc_reg_class (R : ra_regs) : Z * ra_regs :=
  (class_count R,
   R <| classes := classes R ++ [RaClass (bitset_zero (regs_count R)) 0 []] |>
     <| class_count := u32 (class_count R + 1) |>).

Definition ra_class_add_reg (R : ra_regs) (c r : Z) : ra_regs :=
  upd_class c (fun class =>
    class <| class_regs := BITSET_SET (class_regs class) r |> <| p := u32 (p class + 1) |>) R.

Definition reg_belongs_to_class (r : Z) (c : ra_class) : bool := BITSET_TEST (class_regs c) r.

(** The registers of class [b] in the conflict list of [rc]. *)
Definition conflicts_with_class (R : ra_regs) (rc b : Z) : outcome Z :=
  match conflict_list (reg_at R rc) with
  | None => if num_conflicts (reg_at R rc) =? 0 then Ret 0 else Assert_failed
  | Some l =>
      Ret (len (filter (fun rb => reg_belongs_to_class rb (class_at R b))
                  (firstn (Z.to_nat (num_conflicts (reg_at R rc))) l)))
  end.

(** The loop over [rc] of [ra_set_finalize]. *)
Fixpoint max_conflicts_loop (R : ra_regs) (b c : Z) (rcs : list Z) (max_conflicts : Z) : outcome Z :=
  match rcs with
  | [] => Ret max_conflicts
  | rc :: rcs =>
      if reg_belongs_to_class rc (class_at R c) then
        let! n := conflicts_with_class R rc b in
        max_conflicts_loop R b c rcs (Z.max max_conflicts n)
      else max_conflicts_loop R b c rcs max_conflicts
  end.

(** [for (x : xs) y = f(x);] with a body that can fail. *)
Fixpoint map_out {A B} (f : A -> outcome B) (xs : list A) : outcome (list B) :=
  match xs with
  | [] => Ret []
  | x :: xs => let! y := f x in let! ys := map_out f xs in Ret (y :: ys)
  end.

(** The [q] array of class [b]. *)
Definition compute_q (R : ra_regs) (q_values : option (list (list Z))) (b : Z) : outcome (list Z) :=
  match q_values with
  | Some qs => Ret (map (fun c => get 0 (get [] qs b) c) (indices (class_count R)))
  | None => map_out (fun c => max_conflicts_loop R b c (indices (regs_count R)) 0) (indices (class_count R))
  end.

Definition ra_set_finalize (R : ra_regs) (q_values : option (list (list Z))) : outcome ra_regs :=
  let! qs := map_out (compute_q R q_values) (indices (class_count R)) in
  let R := fold_left (fun R b => upd_class b (fun c => c <| q := get [] qs b |>) R) (indices (class_count R)) R in
  Ret (R <| regs := map (fun r => r <| conflict_list := None |>) (regs R) |>).

(** ** The interference graph *)

Definition q_of (R : ra_regs) (b c : Z) : Z := get 0 (q (class_at R b)) c.

Definition ra_add_node_adjacency (g : ra_graph) (n1 n2 : Z) : outcome ra_graph :=
  assert! (negb (n1 =? n2)) ;;
  let n1_class := class (node_at g n1) in
  let n2_class := class (node_at g n2) in
  Ret (upd_node n1 (fun x =>
    let x := x <| adjacency := BITSET_SET (adjacency x) n2 |>
               <| q_total := u32 (q_total x + q_of (g_regs g) n1_class n2_class) |> in
    let x := if adjacency_count x >=? adjacency_list_size x
             then x <| adjacency_list_size := u32 (adjacency_list_size x * 2) |> else x in
    x <| adjacency_list := adjacency_list x ++ [n2] |> <| adjacency_count := u32 (adjacency_count x + 1) |>) g).

Definition ra_alloc_interference_graph (R : ra_regs) (cnt : Z) : ra_graph :=
  RaGraph R (map (fun _ => RaNode (bitset_zero cnt) [] 4 0 0 NO_REG false 0 (S754_zero false)) (indices cnt))
    cnt (repeat 0 (Z.to_nat cnt)) 0 0 0 0.

Definition ra_set_select_reg_callback (g : ra_graph) (callback data : Z) : ra_graph :=
  g <| select_reg_callback := callback |> <| select_reg_callback_data := data |>.

Definition ra_set_node_class (g : ra_graph) (n c : Z) : ra_graph := upd_node n (fun x => x <| class := c |>) g.

Definition ra_add_node_interference (g : ra_graph) (n1 n2 : Z) : outcome ra_graph :=
  if negb (n1 =? n2) && negb (BITSET_TEST (adjacency (node_at g n1)) n2) then
    let! g := ra_add_node_adjacency g n1 n2 in
    ra_add_node_adjacency g n2 n1
  else Ret g.

Definition ra_set_node_reg (g : ra_graph) (n r : Z) : ra_graph :=
  upd_node n (fun x => x <| reg := r |> <| in_stack := false |>) g.

Definition ra_get_node_reg (g : ra_graph) (n : Z) : Z := reg (node_at g n).

Definition ra_set_node_spill_cost (g : ra_graph) (n : Z) (cost : spec_float) : ra_graph :=
  upd_node n (fun x => x <| spill_cost := cost |>) g.

(** ** Simplification *)

Definition pq_test (g : ra_graph) (n : Z) : bool :=
  q_total (node_at g n) <? p (class_at (g_regs g) (class (node_at g n))).

Fixpoint decrement_q_loop (n_class : Z) (ns : list Z) (g : ra_graph) : outcome ra_graph :=
  match ns with
  | [] => Ret g
  | n2 :: ns =>
      let d := q_of (g_regs g) (class (node_at g n2)) n_class in
      if in_stack (node_at g n2) then decrement_q_loop n_class ns g
      else
        assert! (q_total (node_at g n2) >=? d) ;;
        decrement_q_loop n_class ns (upd_node n2 (fun x => x <| q_total := u32 (q_total x - d) |>) g)
  end.

Definition decrement_q (g : ra_graph) (n : Z) : outcome ra_graph :=
  decrement_q_loop (class (node_at g n)) (adjacency_list (node_at g n)) g.

(** [decrement_q(g, i); g->stack[g->stack_count] = i; g->stack_count++;
    g->nodes[i].in_stack = true;] *)
Definition push (g : ra_graph) (i : Z) : outcome ra_graph :=
  let! g := decrement_q g i in
  let g := g <| stack := upd (stack_count g) (fun _ => i) (stack g) |> in
  let g := g <| stack_count := u32 (stack_count g + 1) |> in
  Ret (upd_node i (fun x => x <| in_stack := true |>) g).

(** The locals of [ra_simplify] in one round of its outer loop. *)
Record round := Round {
  best_optimistic_node : Z;
  lowest_q_total : Z;
  progress : bool
}.

(** [for (i = ...; i >= 0; i--)], from [i = n - 1]. *)
Fixpoint simplify_pass (n : nat) (g : ra_graph) (s : round) : outcome (ra_graph * round) :=
  match n with
  | O => Ret (g, s)
  | S n =>
      let i := Z.of_nat n in
      if in_stack (node_at g i) || negb (reg (node_at g i) =? NO_REG) then simplify_pass n g s
      else if pq_test g i then
        let! g := push g i in
        simplify_pass n g (Round (best_optimistic_node s) (lowest_q_total s) true)
      else
        let new_q_total := q_total (node_at g i) in
        if new_q_total <? lowest_q_total s then simplify_pass n g (Round i new_q_total (progress s))
        else simplify_pass n g s
  end.

Fixpoint simplify_loop (fuel : nat) (g : ra_graph) (optimistic_start : Z) : outcome ra_graph :=
  match fuel with
  | O => Out_of_fuel
  | S fuel =>
      let! (g, s) := simplify_pass (Z.to_nat (count g)) g (Round UINT_MAX UINT_MAX false) in
      if negb (progress s) && negb (best_optimistic_node s =? UINT_MAX) then
        let optimistic_start := if optimistic_start =? UINT_MAX then stack_count g else optimistic_start in
        let! g := push g (best_optimistic_node s) in
        simplify_loop fuel g optimistic_start
      else if progress s then simplify_loop fuel g optimistic_start
      else Ret (g <| stack_optimistic_start := optimistic_start |>)
  end.

Definition ra_simplify (g : ra_graph) : outcome ra_graph := simplify_loop (S (Z.to_nat (count g))) g UINT_MAX.

(** ** Selection *)

Definition ra_any_neighbors_conflict (g : ra_graph) (n r : Z) : bool :=
  existsb (fun n2 => negb (in_stack (node_at g n2)) &&
                     BITSET_TEST (conflicts (reg_at (g_regs g) r)) (reg (node_at g n2)))
    (adjacency_list (node_at g n)).

(** [for (j = 0; j < BITSET_WORDS(n); j++) dst[j] &= ~src[j];] *)
Definition andnot_words (n : Z) (dst src : list Z) : list Z :=
  fold_left (fun dst j => upd j (fun w => Z.land w (u32 (Z.lnot (get 0 src j)))) dst) (indices (BITSET_WORDS n)) dst.

Definition ra_compute_available_regs (g : ra_graph) (n : Z) : bool * list Z :=
  let words := fold_left (fun words n2 =>
      let r := reg (node_at g n2) in
      if negb (in_stack (node_at g n2))
      then andnot_words (regs_count (g_regs g)) words (conflicts (reg_at (g_regs g) r)) else words)
    (adjacency_list (node_at g n)) (class_regs (class_at (g_regs g) (class (node_at g n)))) in
  (existsb (fun i => negb (get 0 words i =? 0)) (indices (BITSET_WORDS (regs_count (g_regs g)))), words).

(** The search over [ri] of [ra_select]. *)
Fixpoint find_reg (fuel : nat) (g : ra_graph) (n : Z) (c : ra_class) (start_search_reg ri : Z) : option Z :=
  match fuel with
  | O => None
  | S fuel =>
      let r := u32 (start_search_reg + ri) mod regs_count (g_regs g) in
      if reg_belongs_to_class r c && negb (ra_any_neighbors_conflict g n r) then Some r
      else find_reg fuel g n c start_search_reg (ri + 1)
  end.

Section Select.
Context (call : Z -> ra_graph -> list Z -> Z -> Z).

Fixpoint select_loop (fuel : nat) (g : ra_graph) (start_search_reg : Z) : outcome (bool * ra_graph) :=
  if stack_count g =? 0 then Ret (true, g)
  else
    match fuel with
    | O => Out_of_fuel
    | S fuel =>
        let n := get 0 (stack g) (u32 (stack_count g - 1)) in
        let c := class_at (g_regs g) (class (node_at g n)) in
        let g := upd_node n (fun x => x <| in_stack := false |>) g in
        let found :=
          if negb (select_reg_callback g =? 0) then
            let (ok, select_regs) := ra_compute_available_regs g n in
            if ok then Some (call (select_reg_callback g) g select_regs (select_reg_callback_data g)) else None
          else find_reg (Z.to_nat (regs_count (g_regs g))) g n c start_search_reg 0 in
        match found with
        | None => Ret (false, g)
        | Some r =>
            let g := upd_node n (fun x => x <| reg := r |>) g in
            let g := g <| stack_count := u32 (stack_count g - 1) |> in
            let start_search_reg :=
              if round_robin (g_regs g) && (u32 (stack_count g - 1) <=? stack_optimistic_start g)
              then r + 1 else start_search_reg in
            select_loop fuel g start_search_reg
        end
    end.

Definition ra_select (g : ra_graph) : outcome (bool * ra_graph) := select_loop (Z.to_nat (stack_count g)) g 0.

Definition ra_allocate (g : ra_graph) : outcome (bool * ra_graph) :=
  let! g := ra_simplify g in ra_select g.

End Select.

(** ** Spilling, in IEEE single precision *)

Definition f32_of_uint (x : Z) : spec_float := binary_normalize 24 128 x 0 false.

Definition ra_get_spill_benefit (g : ra_graph) (n : Z) : spec_float :=
  let n_class := class (node_at g n) in
  fold_left (fun benefit n2 =>
      let n2_class := class (node_at g n2) in
      SFadd 24 128 benefit
        (SFdiv 24 128 (f32_of_uint (q_of (g_regs g) n_class n2_class))
           (f32_of_uint (p (class_at (g_regs g) n_class)))))
    (adjacency_list (node_at g n)) (S754_zero false).

Definition spill_step (g : ra_graph) (best : Z * spec_float) (n : Z) : Z * spec_float :=
  let (best_node, best_benefit) := best in
  let cost := spill_cost (node_at g n) in
  if SFleb cost (S754_zero false) then best
  else if in_stack (node_at g n) then best
  else
    let benefit := ra_get_spill_benefit g n in
    if SFltb best_benefit (SFdiv 24 128 benefit cost) then (n, SFdiv 24 128 benefit cost)
    else best.

(** The [int] returned, -1 when no node can be spilled. *)
Definition ra_get_best_spill_node (g : ra_graph) : Z :=
  i32 (fst (fold_left (spill_step g) (indices (count g)) (UINT_MAX, S754_zero false))).
