(* ===== verification/RegAllocSet.v ===== *)
(** * The register set of the allocator

    The invariant of a register set under construction, its preservation by
    the operations that build it, and what [ra_set_finalize] computes. *)

From Stdlib Require Import Bool ZArith List Lia.
From S2P Require Import Prelude Arrays RegAlloc.
Import ListNotations.
#[local] Open Scope bool_scope.
#[local] Open Scope Z_scope.
#[local] Open Scope c_scope.

(** The conflict relation the bit sets describe. *)
Definition conf (R : ra_regs) (r1 r2 : Z) : bool := BITSET_TEST (conflicts (reg_at R r1)) r2.

Definition is_reg (R : ra_regs) (r : Z) : Prop := 0 <= r < regs_count R.
Definition is_class (R : ra_regs) (c : Z) : Prop := 0 <= c < class_count R.

Definition in_class (R : ra_regs) (c r : Z) : bool := reg_belongs_to_class r (class_at R c).

(** The registers that satisfy [f]. *)
Definition regs_with (R : ra_regs) (f : Z -> bool) : list Z := filter f (indices (regs_count R)).

(** A conflict list enumerates the conflicts, without repetition. *)
Definition list_ok (R : ra_regs) (r : Z) : Prop :=
  match conflict_list (reg_at R r) with
  | None => True
  | Some l => NoDup l /\ len l = num_conflicts (reg_at R r) /\ forall x, In x l <-> is_reg R x /\ conf R r x = true
  end.

Record regs_ok (R : ra_regs) : Prop := {
  ro_count : 0 <= regs_count R < 2 ^ 31;
  ro_len : len (regs R) = regs_count R;
  ro_fit : forall r, is_reg R r -> bitset_ok (conflicts (reg_at R r)) (regs_count R);
  ro_refl : forall r, is_reg R r -> conf R r r = true;
  ro_sym : forall r1 r2, is_reg R r1 -> is_reg R r2 -> conf R r1 r2 = conf R r2 r1;
  ro_list : forall r, is_reg R r -> list_ok R r;
  ro_class_count : len (classes R) = class_count R /\ class_count R < 2 ^ 32;
  ro_class_fit : forall c, is_class R c -> bitset_ok (class_regs (class_at R c)) (regs_count R);
  ro_p : forall c, is_class R c -> p (class_at R c) = len (regs_with R (in_class R c));
  ro_pad : forall c r, is_class R c -> regs_count R <= r -> in_class R c r = false
}.

Lemma reg_at_upd R r f a :
  len (regs R) = regs_count R -> is_reg R r -> 0 <= a ->
  reg_at (upd_reg r f R) a = if a =? r then f (reg_at R a) else reg_at R a.
Proof. intros Hl Hr Ha. apply get_upd; [unfold is_reg in Hr; lia | assumption]. Qed.

Lemma class_at_upd R c f a :
  len (classes R) = class_count R -> is_class R c -> 0 <= a ->
  class_at (upd_class c f R) a = if a =? c then f (class_at R a) else class_at R a.
Proof. intros Hl Hc Ha. apply get_upd; [unfold is_class in Hc; lia | assumption]. Qed.

(** ** Adding a conflict *)

Lemma conflicts_add R r1 r2 a :
  len (regs R) = regs_count R -> is_reg R r1 -> 0 <= a ->
  conflicts (reg_at (ra_add_conflict_list R r1 r2) a) =
    if a =? r1 then BITSET_SET (conflicts (reg_at R a)) r2 else conflicts (reg_at R a).
Proof.
  intros Hl Hr Ha. unfold ra_add_conflict_list. rewrite reg_at_upd by assumption. destruct (a =? r1); [|reflexivity].
  destruct (conflict_list (reg_at R a)); [|reflexivity]. cbn. now destruct (_ =? _).
Qed.

Lemma conf_add R r1 r2 a b :
  len (regs R) = regs_count R -> is_reg R r1 -> is_reg R r2 -> 0 <= a -> 0 <= b ->
  bitset_ok (conflicts (reg_at R r1)) (regs_count R) ->
  conf (ra_add_conflict_list R r1 r2) a b = conf R a b || ((a =? r1) && (b =? r2)).
Proof.
  intros Hl Hr1 Hr2 Ha Hb Hfit. unfold conf. rewrite conflicts_add by assumption.
  destruct (Z.eqb_spec a r1) as [->|]; [|now rewrite orb_false_r].
  rewrite (BITSET_TEST_SET _ (regs_count R)) by (assumption || apply Hr2). apply orb_comm.
Qed.

(** The list of the register the conflict is added to. *)
Lemma list_add R r1 r2 a :
  len (regs R) = regs_count R -> is_reg R r1 -> 0 <= a ->
  conflict_list (reg_at (ra_add_conflict_list R r1 r2) a) =
    (if a =? r1 then option_map (fun l => l ++ [r2]) (conflict_list (reg_at R a)) else conflict_list (reg_at R a)) /\
  num_conflicts (reg_at (ra_add_conflict_list R r1 r2) a) =
    (if (a =? r1) && (match conflict_list (reg_at R a) with Some _ => true | None => false end)
     then u32 (num_conflicts (reg_at R a) + 1) else num_conflicts (reg_at R a)).
Proof.
  intros Hl Hr Ha. unfold ra_add_conflict_list. rewrite reg_at_upd by assumption.
  destruct (a =? r1); [|auto]. destruct (conflict_list (reg_at R a)) eqn:E; cbn.
  - destruct (_ =? _); auto.
  - rewrite E. auto.
Qed.

Lemma NoDup_range_length (l : list Z) n : NoDup l -> (forall x, In x l -> 0 <= x < n) -> len l <= Z.max 0 n.
Proof.
  intros Hnd Hin. assert (Hle : (length l <= length (indices n))%nat).
  { apply NoDup_incl_length; [assumption|]. intros x Hx. apply in_indices. auto. }
  rewrite length_indices in Hle. unfold len. lia.
Qed.

Lemma NoDup_snoc {A} (l : list A) x : NoDup l -> ~ In x l -> NoDup (l ++ [x]).
Proof.
  intros Hl Hx. apply NoDup_app; [assumption | repeat constructor; auto |].
  intros y Hy [<-|[]]. auto.
Qed.

(** One direction of a new conflict keeps the lists in step with the sets. *)
Lemma list_ok_add R r1 r2 a :
  0 <= regs_count R < 2 ^ 31 -> len (regs R) = regs_count R ->
  is_reg R r1 -> is_reg R r2 -> is_reg R a -> bitset_ok (conflicts (reg_at R r1)) (regs_count R) ->
  conf R r1 r2 = false -> list_ok R a -> list_ok (ra_add_conflict_list R r1 r2) a.
Proof.
  intros Hcnt Hl Hr1 Hr2 Ha Hfit Hnew Hok. unfold list_ok in *. pose proof Ha as [Ha0 _].
  destruct (list_add R r1 r2 a Hl Hr1 Ha0) as [-> ->].
  assert (Hconf : forall x, is_reg R x -> conf (ra_add_conflict_list R r1 r2) a x = conf R a x || ((a =? r1) && (x =? r2)))
    by (intros x [Hx _]; now apply conf_add).
  change (is_reg (ra_add_conflict_list R r1 r2)) with (is_reg R).
  destruct (conflict_list (reg_at R a)) as [l|] eqn:El; [|now destruct (a =? r1)].
  destruct Hok as (Hnd & Hlen & Hin).
  assert (Hin' : forall x, is_reg R x /\ conf (ra_add_conflict_list R r1 r2) a x = true <->
                 is_reg R x /\ (conf R a x = true \/ (a = r1 /\ x = r2))).
  { intros x. split; intros [Hx Hc]; (split; [assumption|]).
    - rewrite Hconf in Hc by assumption. apply orb_true_iff in Hc as [|Hc]; [now left|]. right. zbool. auto.
    - rewrite Hconf by assumption. destruct Hc as [->|[-> ->]]; [reflexivity|]. now rewrite !Z.eqb_refl, orb_true_r. }
  destruct (Z.eqb_spec a r1) as [->|Hne]; cbn [andb option_map].
  - assert (Hx : ~ In r2 l) by (intros Hx; apply Hin in Hx as [_ Hx]; congruence).
    assert (Hb : len (l ++ [r2]) <= Z.max 0 (regs_count R)).
    { apply NoDup_range_length; [now apply NoDup_snoc|]. intros x Hxl. apply in_app_iff in Hxl as [Hxl|[<-|[]]]; [now apply Hin | assumption]. }
    rewrite len_app in Hb. change (len [r2]) with 1 in Hb. pose proof (len_nonneg l).
    split; [now apply NoDup_snoc|]. rewrite wrap_small by lia. split; [rewrite len_app; change (len [r2]) with 1; lia|].
    intros x. rewrite Hin', in_app_iff, Hin. cbn [In]. intuition (subst; auto).
  - split; [assumption|]. split; [assumption|]. intros x. rewrite Hin', Hin. intuition congruence.
Qed.

Lemma class_view_eq R R' f :
  classes R' = classes R -> regs_count R' = regs_count R ->
  (forall c, in_class R' c = in_class R c) /\ regs_with R' f = regs_with R f.
Proof.
  intros Ec En. split; [intros c; unfold in_class, class_at; now rewrite Ec | unfold regs_with; now rewrite En].
Qed.

(** Operations that leave the classes alone need only keep the conflicts good. *)
Lemma regs_ok_conflicts R R' :
  regs_ok R -> classes R' = classes R -> class_count R' = class_count R -> regs_count R' = regs_count R ->
  len (regs R') = len (regs R) ->
  (forall r, is_reg R r -> bitset_ok (conflicts (reg_at R' r)) (regs_count R)) ->
  (forall r, is_reg R r -> conf R' r r = true) ->
  (forall r1 r2, is_reg R r1 -> is_reg R r2 -> conf R' r1 r2 = conf R' r2 r1) ->
  (forall r, is_reg R r -> list_ok R' r) -> regs_ok R'.
Proof.
  intros [] Ec En Er El Hfit Hrefl Hsym Hlist.
  constructor; unfold is_reg, is_class, class_at, regs_with, in_class in *; rewrite ?Ec, ?En, ?Er, ?El in *; auto.
  - intros c Hc. unfold class_at. rewrite Ec. now apply ro_p0.
  - intros c r Hc Hr. unfold class_at. rewrite Ec. now apply ro_pad0.
Qed.

(** The relation after a conflict between [r1] and [r2] is declared. *)
Definition conf_with (f : Z -> Z -> bool) (r1 r2 a b : Z) : bool :=
  f a b || ((a =? r1) && (b =? r2)) || ((a =? r2) && (b =? r1)).

Lemma add_reg_conflict_ok R r1 r2 :
  regs_ok R -> is_reg R r1 -> is_reg R r2 ->
  let R' := ra_add_reg_conflict R r1 r2 in
  regs_ok R' /\ regs_count R' = regs_count R /\ classes R' = classes R /\ class_count R' = class_count R /\
  (forall a b, is_reg R a -> is_reg R b -> conf R' a b = conf_with (conf R) r1 r2 a b) /\
  (forall a, is_reg R a -> conflict_list (reg_at R a) = None -> conflict_list (reg_at R' a) = None) /\
  (forall a, is_reg R a -> conflict_list (reg_at R a) <> None -> conflict_list (reg_at R' a) <> None).
Proof.
  intros Hok Hr1 Hr2. pose proof Hok as [Hcnt Hlen Hfit Hrefl Hsym Hlist _ _ _ _]. unfold ra_add_reg_conflict. fold (conf R r1 r2).
  destruct (conf R r1 r2) eqn:Hc.
  { cbv zeta. repeat (split; [auto; fail|]). split; [|auto]. intros a b Ha Hb. unfold conf_with.
    destruct ((a =? r1) && (b =? r2)) eqn:E1; [zbool; subst; now rewrite Hc|].
    destruct ((a =? r2) && (b =? r1)) eqn:E2; [zbool; subst; now rewrite (ro_sym R Hok), Hc|].
    now rewrite !orb_false_r. }
  set (R1 := ra_add_conflict_list R r1 r2). cbv zeta. set (R' := ra_add_conflict_list R1 r2 r1).
  assert (Hl1 : len (regs R1) = regs_count R1) by (unfold R1, ra_add_conflict_list, upd_reg; cbn; now rewrite len_upd).
  assert (Hf1 : forall r, is_reg R r -> bitset_ok (conflicts (reg_at R1 r)) (regs_count R)).
  { intros r Hr. unfold R1. rewrite conflicts_add by (assumption || apply Hr).
    destruct (r =? r1); [apply BITSET_SET_ok|]; auto. }
  assert (Hf' : forall r, is_reg R r -> bitset_ok (conflicts (reg_at R' r)) (regs_count R)).
  { intros r Hr. unfold R'. rewrite conflicts_add by (assumption || apply Hr).
    destruct (r =? r2); [apply BITSET_SET_ok|]; auto. }
  assert (Hc1 : forall a b, is_reg R a -> is_reg R b -> conf R1 a b = conf R a b || ((a =? r1) && (b =? r2)))
    by (intros a b [] []; apply conf_add; auto).
  assert (Hc' : forall a b, is_reg R a -> is_reg R b -> conf R' a b = conf_with (conf R) r1 r2 a b).
  { intros a b Ha Hb. unfold R', conf_with. rewrite <- Hc1 by assumption. destruct Ha, Hb. apply conf_add; auto. }
  split; [|split; [reflexivity|]; split; [reflexivity|]; split; [reflexivity|]; split; [exact Hc'|]].
  - apply (regs_ok_conflicts R); auto.
    + unfold R', R1, ra_add_conflict_list, upd_reg. cbn. now rewrite !len_upd.
    + intros r Hr. rewrite Hc' by assumption. unfold conf_with. now rewrite Hrefl.
    + intros a b Ha Hb. rewrite !Hc' by assumption. unfold conf_with. rewrite (Hsym a b) by assumption.
      rewrite <- !orb_assoc. f_equal. rewrite orb_comm, (andb_comm (b =? r1)), (andb_comm (b =? r2)). reflexivity.
    + intros r Hr. unfold R'. apply list_ok_add; auto.
      * rewrite Hc1, (Hsym r2 r1), Hc by assumption. cbn [orb]. apply andb_false_iff.
        destruct (Z.eqb_spec r2 r1) as [->|]; [rewrite Hrefl in Hc by assumption; discriminate | now left].
      * unfold R1. apply list_ok_add; auto.
  - assert (El : forall a, is_reg R a -> conflict_list (reg_at R' a) = None <-> conflict_list (reg_at R a) = None).
    { intros a [Ha _]. unfold R'. rewrite (proj1 (list_add R1 r2 r1 a Hl1 Hr2 Ha)).
      unfold R1. rewrite (proj1 (list_add R r1 r2 a Hlen Hr1 Ha)).
      destruct (a =? r2), (a =? r1), (conflict_list (reg_at R a)); cbn; intuition congruence. }
    split; intros a Ha; rewrite El; auto.
Qed.

(** ** Transitive conflicts *)

Lemma reg_at_add_other R r1 r2 a :
  len (regs R) = regs_count R -> is_reg R r1 -> is_reg R r2 -> 0 <= a ->
  a <> r1 -> a <> r2 -> reg_at (ra_add_reg_conflict R r1 r2) a = reg_at R a.
Proof.
  intros Hl Hr1 Hr2 Ha H1 H2. unfold ra_add_reg_conflict. destruct (BITSET_TEST _ _); [reflexivity|].
  unfold ra_add_conflict_list at 1. rewrite reg_at_upd; [| |exact Hr2|assumption].
  - apply Z.eqb_neq in H2. rewrite H2. unfold ra_add_conflict_list. rewrite reg_at_upd by assumption.
    apply Z.eqb_neq in H1. now rewrite H1.
  - unfold ra_add_conflict_list, upd_reg. cbn. now rewrite len_upd.
Qed.

Lemma add_reg_conflict_known R r1 r2 : conf R r1 r2 = true -> ra_add_reg_conflict R r1 r2 = R.
Proof. unfold ra_add_reg_conflict, conf. now intros ->. Qed.

(** The conflicts of [base] are passed on to [r] as far as the list [xs]. *)
Definition conf_from (f : Z -> Z -> bool) (r : Z) (xs : list Z) (a b : Z) : bool :=
  f a b || ((a =? r) && existsb (Z.eqb b) xs) || ((b =? r) && existsb (Z.eqb a) xs).

Lemma conf_from_snoc f r xs x a b :
  conf_from f r (xs ++ [x]) a b = conf_with (conf_from f r xs) r x a b.
Proof.
  unfold conf_with, conf_from. rewrite !existsb_app. cbn [existsb]. rewrite !orb_false_r.
  destruct (f a b), (a =? r), (b =? r), (existsb (Z.eqb b) xs), (existsb (Z.eqb a) xs), (b =? x), (a =? x); reflexivity.
Qed.

Lemma firstn_succ (l : list Z) i : 0 <= i < len l -> firstn (Z.to_nat (i + 1)) l = firstn (Z.to_nat i) l ++ [get 0 l i].
Proof.
  intros Hi. replace (Z.to_nat (i + 1)) with (S (Z.to_nat i)) by lia. unfold get, len in *.
  assert (Hn : (Z.to_nat i < length l)%nat) by lia. revert Hn. generalize (Z.to_nat i) as n. clear.
  induction l as [|x l IH]; intros [|n] Hn; cbn [length] in Hn; try lia; [reflexivity|]. cbn. f_equal. apply IH. lia.
Qed.

Lemma transitive_loop_spec base r l f fuel : forall R i,
  regs_ok R -> is_reg R base -> is_reg R r -> conf R r base = true ->
  conflict_list (reg_at R base) = Some l -> 0 <= i <= len l -> Z.of_nat fuel = len l - i ->
  (forall a b, is_reg R a -> is_reg R b -> conf R a b = conf_from f r (firstn (Z.to_nat i) l) a b) ->
  exists R', transitive_loop fuel R base r i = Ret R' /\ regs_ok R' /\ regs_count R' = regs_count R /\
    classes R' = classes R /\ class_count R' = class_count R /\
    forall a b, is_reg R a -> is_reg R b -> conf R' a b = conf_from f r l a b.
Proof.
  induction fuel as [|fuel IH]; intros R i Hok Hb Hr Hrb El Hi Hf Hconf; cbn [transitive_loop];
    pose proof (ro_list R Hok base Hb) as Hl; unfold list_ok in Hl; rewrite El in Hl; destruct Hl as (_ & <- & Hin).
  { destruct (Z.ltb_spec i (len l)); [lia|]. exists R. repeat (split; [auto; fail|]).
    intros a b Ha Hb'. rewrite Hconf by assumption. now rewrite firstn_all2 by (unfold len in *; lia). }
  destruct (Z.ltb_spec i (len l)) as [Hlt|]; [|lia]. rewrite El.
  set (x := get 0 l i). assert (Hx : is_reg R x /\ conf R base x = true) by (apply Hin, get_In; lia).
  destruct Hx as [Hx Hbx].
  destruct (add_reg_conflict_ok R r x Hok Hr Hx) as (Hok1 & En & Ec & Ecc & Hc1 & _).
  set (R1 := ra_add_reg_conflict R r x) in *.
  assert (Ebase : reg_at R1 base = reg_at R base).
  { destruct (Z.eq_dec base r) as [->|]; [unfold R1; now rewrite add_reg_conflict_known|].
    destruct (Z.eq_dec base x) as [E|]; [unfold R1; rewrite <- E; now rewrite add_reg_conflict_known|].
    apply reg_at_add_other; auto; [apply (ro_len R Hok) | apply Hb]. }
  assert (Hreg : is_reg R1 = is_reg R) by (unfold is_reg; now rewrite En).
  destruct (IH R1 (i + 1)) as (R' & E & Hok' & Hrest); rewrite ?Hreg, ?Ebase; auto; try lia.
  - rewrite Hc1 by assumption. unfold conf_with. now rewrite Hrb.
  - intros a b Ha Hb'. rewrite Hc1, firstn_succ, conf_from_snoc by (assumption || lia). unfold conf_with. now rewrite Hconf.
  - exists R'. rewrite Hreg, En, Ec, Ecc in Hrest. auto.
Qed.

(** The conflicts of [base] become conflicts of [r]. *)
Lemma add_transitive_ok R base r :
  regs_ok R -> is_reg R base -> is_reg R r -> conflict_list (reg_at R base) <> None ->
  exists R', ra_add_transitive_reg_conflict R base r = Ret R' /\ regs_ok R' /\ regs_count R' = regs_count R /\
    classes R' = classes R /\ class_count R' = class_count R /\
    forall a b, is_reg R a -> is_reg R b ->
      conf R' a b = conf R a b || ((a =? r) && conf R base b) || ((b =? r) && conf R base a).
Proof.
  intros Hok Hb Hr Hnn. unfold ra_add_transitive_reg_conflict.
  destruct (add_reg_conflict_ok R r base Hok Hr Hb) as (Hok1 & En & Ec & Ecc & Hc1 & _ & Hs1).
  set (R1 := ra_add_reg_conflict R r base) in *.
  assert (Hreg : is_reg R1 = is_reg R) by (unfold is_reg; now rewrite En).
  destruct (conflict_list (reg_at R1 base)) as [l|] eqn:El; [|now apply (Hs1 base Hb Hnn) in El].
  pose proof (ro_list R1 Hok1 base) as Hl. rewrite Hreg in Hl. specialize (Hl Hb).
  unfold list_ok in Hl. rewrite El in Hl. destruct Hl as (Hnd & <- & Hin). rewrite Hreg in Hin.
  destruct (transitive_loop_spec base r l (conf R1) (Z.to_nat (len l)) R1 0) as (R' & E & Hok' & En' & Ec' & Ecc' & Hc');
    rewrite ?Hreg; auto; try (pose proof (len_nonneg l); lia).
  { rewrite Hc1 by assumption. unfold conf_with. now rewrite !Z.eqb_refl, orb_true_r. }
  { intros a b _ _. unfold conf_from. cbn. now rewrite !andb_false_r, !orb_false_r. }
  exists R'. split; [exact E|]. split; [assumption|]. split; [congruence|]. split; [congruence|]. split; [congruence|].
  rewrite Hreg in Hc'. intros a b Ha Hb'. rewrite Hc' by assumption. unfold conf_from.
  assert (Hex : forall y, is_reg R y -> existsb (Z.eqb y) l = conf R base y || (y =? r)).
  { intros y Hy. apply eq_true_iff_eq. rewrite existsb_exists. split.
    - intros (z & Hz & Eyz). apply Z.eqb_eq in Eyz. subst z. apply Hin in Hz as [_ Hz]. rewrite Hc1 in Hz by assumption.
      unfold conf_with in Hz. apply orb_true_iff. apply orb_true_iff in Hz as [Hz|Hz]; [apply orb_true_iff in Hz as [Hz|Hz]|]; auto.
      + zbool. subst. left. apply (ro_refl R Hok). assumption.
      + zbool. right. now apply Z.eqb_eq.
    - intros Hy'. exists y. split; [|apply Z.eqb_refl]. apply Hin. split; [assumption|]. rewrite Hc1 by assumption.
      unfold conf_with. apply orb_true_iff in Hy' as [->|Hy']; [reflexivity|]. rewrite Hy', Z.eqb_refl. now rewrite andb_true_r, orb_true_r. }
  rewrite !Hex, Hc1 by assumption. unfold conf_with.
  assert (Hrr : forall y, is_reg R y -> (y =? r) && (y =? r) = true -> conf R y y = true) by (intros; now apply (ro_refl R Hok)).
  destruct (Z.eqb_spec a r) as [->|], (Z.eqb_spec b r) as [->|]; cbn [andb orb];
    rewrite ?(ro_refl R Hok) by assumption; cbn [orb]; try reflexivity.
  - destruct (Z.eqb_spec b base) as [->|]; [rewrite (ro_refl R Hok base Hb)|]; now rewrite ?orb_false_r, ?orb_true_r, ?andb_false_r, ?orb_false_r.
  - destruct (Z.eqb_spec a base) as [->|]; [rewrite (ro_refl R Hok base Hb)|]; now rewrite ?orb_false_r, ?orb_true_r, ?andb_false_r, ?orb_false_r.
  - now rewrite ?andb_false_r, ?orb_false_r.
Qed.

Lemma or_words_spec n dst src :
  bitset_ok dst n -> bitset_ok src n ->
  bitset_ok (or_words n dst src) n /\
  forall b, 0 <= b < n -> BITSET_TEST (or_words n dst src) b = BITSET_TEST dst b || BITSET_TEST src b.
Proof. apply (fold_words Z.lor orb); [apply word_ok_lor | intros; apply Z.lor_spec]. Qed.

(** One round of [ra_make_reg_conflicts_transitive]. *)
Definition join_conflicts (r : Z) (R : ra_regs) (c : Z) : ra_regs :=
  upd_reg c (fun other => other <| conflicts := or_words (regs_count R) (conflicts other) (conflicts (reg_at R r)) |>) R.

(** [R'] has the sizes, classes and lists of [R]. *)
Definition same_frame (R R' : ra_regs) : Prop :=
  regs_count R' = regs_count R /\ classes R' = classes R /\ class_count R' = class_count R /\
  len (regs R') = len (regs R) /\
  forall a, is_reg R a -> conflict_list (reg_at R' a) = conflict_list (reg_at R a).

Lemma join_loop r f cs : forall R done,
  len (regs R) = regs_count R -> is_reg R r ->
  (forall a, is_reg R a -> bitset_ok (conflicts (reg_at R a)) (regs_count R)) ->
  (forall a b, is_reg R a -> is_reg R b -> conf R a b = f a b || (existsb (Z.eqb a) done && f r b)) ->
  (forall c, In c cs -> is_reg R c) ->
  let R' := fold_left (join_conflicts r) cs R in
  same_frame R R' /\ (forall a, is_reg R a -> bitset_ok (conflicts (reg_at R' a)) (regs_count R)) /\
  forall a b, is_reg R a -> is_reg R b -> conf R' a b = f a b || (existsb (Z.eqb a) (rev cs ++ done) && f r b).
Proof.
  induction cs as [|c cs IH]; intros R done Hl Hr Hfit Hconf Hcs; cbn [fold_left rev app].
  { cbv zeta. split; [repeat split|]. split; assumption. }
  assert (Hc : is_reg R c) by (apply Hcs; now left).
  set (R1 := join_conflicts r R c). assert (Hl1 : len (regs R1) = regs_count R1)
    by (unfold R1, join_conflicts, upd_reg; cbn; now rewrite len_upd).
  assert (Hat : forall a, 0 <= a -> reg_at R1 a = if a =? c then (reg_at R a)
      <| conflicts := or_words (regs_count R) (conflicts (reg_at R a)) (conflicts (reg_at R r)) |> else reg_at R a)
    by (intros a Ha; exact (reg_at_upd R c (fun other =>
          other <| conflicts := or_words (regs_count R) (conflicts other) (conflicts (reg_at R r)) |>) a Hl Hc Ha)).
  destruct (or_words_spec (regs_count R) (conflicts (reg_at R c)) (conflicts (reg_at R r)) (Hfit c Hc) (Hfit r Hr)) as [Hw Hb].
  destruct (IH R1 (c :: done)) as (Hsame & Hfit' & Hconf'); auto.
  - intros a Ha. rewrite Hat by apply Ha. destruct (Z.eqb_spec a c) as [->|]; [exact Hw | now apply Hfit].
  - intros a b Ha Hb'. unfold conf. rewrite Hat by apply Ha. cbn [existsb]. destruct (Z.eqb_spec a c) as [->|].
    + cbn [conflicts]. rewrite Hb by assumption. fold (conf R c b) (conf R r b). rewrite !Hconf by assumption. cbn [orb andb].
      destruct (f c b), (existsb (Z.eqb c) done), (existsb (Z.eqb r) done), (f r b); reflexivity.
    + fold (conf R a b). now rewrite Hconf.
  - intros x Hx. apply Hcs. now right.
  - split; [|split; [exact Hfit'|]].
    + destruct Hsame as (H1 & H2 & H3 & H4 & H5). split; [exact H1|]. split; [exact H2|]. split; [exact H3|].
      split; [rewrite H4; unfold R1, join_conflicts, upd_reg; cbn; apply len_upd|].
      intros a Ha. rewrite (H5 a Ha), Hat by apply Ha. now destruct (a =? c).
    + intros a b Ha Hb'. rewrite Hconf' by assumption. now rewrite <- app_assoc.
Qed.

(** The registers that conflict with [r] come to conflict with each other. *)
Lemma make_transitive_ok R r :
  regs_ok R -> is_reg R r -> (forall a, is_reg R a -> conflict_list (reg_at R a) = None) ->
  let R' := ra_make_reg_conflicts_transitive R r in
  regs_ok R' /\ same_frame R R' /\
  forall a b, is_reg R a -> is_reg R b -> conf R' a b = conf R a b || (conf R r a && conf R r b).
Proof.
  intros Hok Hr Hnone R'. pose proof (ro_fit R Hok r Hr) as (Hn & Hw & Hl).
  destruct (join_loop r (conf R) (BITSET_FOREACH_SET (conflicts (reg_at R r)) (regs_count R)) R [])
    as (Hsame & Hfit & Hconf); auto using ro_len, ro_fit.
  { intros a b _ _. cbn. now rewrite orb_false_r. }
  { intros c Hc. apply BITSET_FOREACH_SET_spec in Hc; [apply Hc | assumption | congruence]. }
  change (fold_left _ _ R) with R' in Hsame, Hfit, Hconf.
  assert (Hc : forall a b, is_reg R a -> is_reg R b -> conf R' a b = conf R a b || (conf R r a && conf R r b)).
  { intros a b Ha Hb. rewrite Hconf by assumption. f_equal. f_equal. rewrite app_nil_r. apply eq_true_iff_eq.
    rewrite existsb_exists. split.
    - intros (x & Hx & E). apply Z.eqb_eq in E. subst x. apply in_rev in Hx.
      apply BITSET_FOREACH_SET_spec in Hx; [apply Hx | assumption | congruence].
    - intros E. exists a. split; [|apply Z.eqb_refl]. apply -> in_rev.
      apply BITSET_FOREACH_SET_spec; [assumption | congruence | now split]. }
  split; [|split; [exact Hsame | exact Hc]]. destruct Hsame as (H1 & H2 & H3 & H4 & H5).
  apply (regs_ok_conflicts R); auto.
  - intros a Ha. rewrite Hc, (ro_refl R Hok) by assumption. reflexivity.
  - intros a b Ha Hb. rewrite !Hc, (ro_sym R Hok a b), (andb_comm (conf R r a)) by assumption. reflexivity.
  - intros a Ha. unfold list_ok. now rewrite H5, Hnone.
Qed.

(** ** Classes *)

Lemma alloc_class_ok R :
  regs_ok R -> class_count R + 1 < 2 ^ 32 -> regs_ok (snd (ra_alloc_reg_class R)).
Proof.
  intros Hok Hn. pose proof Hok as [Hcnt Hlen Hfit Hrefl Hsym Hlist [Hcl Hcb] Hcf Hp Hpad]. set (R' := snd _).
  pose proof (len_nonneg (classes R)).
  assert (En : class_count R' = class_count R + 1) by (cbn; apply wrap_small; lia).
  assert (Hat : forall c, 0 <= c -> class_at R' c =
    if c =? class_count R then RaClass (bitset_zero (regs_count R)) 0 [] else class_at R c).
  { intros c Hc. unfold class_at, R'. cbn [classes snd ra_alloc_reg_class]. cbn. rewrite <- Hcl.
    destruct (Z.eqb_spec c (len (classes R))) as [->|]; [apply get_app_end|].
    destruct (Z_lt_ge_dec c (len (classes R))); [apply get_app_l; lia|].
    unfold get, len in *. rewrite !nth_overflow; [reflexivity | lia | rewrite length_app; cbn; lia]. }
  constructor; auto; unfold is_class in *; rewrite ?En.
  - split; [|lia]. cbn. rewrite len_app. change (len [_]) with 1. lia.
  - intros c Hc. rewrite Hat by lia. change (regs_count R') with (regs_count R).
    destruct (c =? class_count R) eqn:E; [apply bitset_zero_ok; lia | apply Hcf; zbool; lia].
  - intros c Hc. unfold in_class. rewrite Hat by lia.
    change (regs_with R') with (regs_with R). destruct (c =? class_count R) eqn:E.
    + cbn [p]. unfold regs_with. symmetry. change 0 with (len (@nil Z)). f_equal.
      induction (indices (regs_count R)) as [|x l IH]; [reflexivity|]. cbn [filter].
      unfold reg_belongs_to_class in *. cbn [class_regs] in *. now rewrite bitset_zero_test.
    + apply Hp. zbool. lia.
  - intros c r Hc Hr. unfold in_class. rewrite Hat by lia. destruct (c =? class_count R) eqn:E.
    + apply bitset_zero_test.
    + apply Hpad; [zbool; split; lia | exact Hr].
Qed.

Lemma filter_add_one (f g : Z -> bool) x l :
  NoDup l -> In x l -> f x = false -> (forall y, In y l -> g y = (y =? x) || f y) ->
  len (filter g l) = len (filter f l) + 1.
Proof.
  intros Hnd Hin Hfx Hg. unfold len. induction Hnd as [|y l Hy Hnd IH]; [destruct Hin|].
  cbn [filter]. rewrite Hg by now left. destruct (Z.eqb_spec y x) as [->|Hne]; cbn [orb].
  - rewrite Hfx. cbn [length]. assert (E : filter g l = filter f l); [|rewrite E; lia].
    apply filter_ext_in. intros z Hz. rewrite Hg by now right.
    destruct (Z.eqb_spec z x) as [->|]; [contradiction | reflexivity].
  - destruct Hin as [->|Hin]; [congruence|].
    assert (IH' := IH Hin (fun y Hy => Hg y (or_intror Hy))). destruct (f y); cbn [length]; lia.
Qed.

Lemma filter_len_le (f : Z -> bool) n : 0 <= n -> len (filter f (indices n)) <= n.
Proof. intros Hn. unfold len. pose proof (filter_length_le f (indices n)). rewrite length_indices in *. lia. Qed.

Lemma class_add_reg_ok R c r :
  regs_ok R -> is_class R c -> is_reg R r -> in_class R c r = false -> regs_ok (ra_class_add_reg R c r).
Proof.
  intros Hok Hc Hr Hnew. pose proof Hok as [Hcnt Hlen Hfit Hrefl Hsym Hlist [Hcl Hcb] Hcf Hp Hpad].
  set (R' := ra_class_add_reg R c r).
  assert (Hat : forall a, 0 <= a -> class_at R' a = if a =? c then
      RaClass (BITSET_SET (class_regs (class_at R a)) r) (u32 (p (class_at R a) + 1)) (q (class_at R a)) else class_at R a)
    by (intros a Ha; exact (class_at_upd R c (fun class =>
          class <| class_regs := BITSET_SET (class_regs class) r |> <| p := u32 (p class + 1) |>) a Hcl Hc Ha)).
  constructor; auto.
  - split; [|exact Hcb]. unfold R', ra_class_add_reg, upd_class. cbn. now rewrite len_upd.
  - intros a Ha. rewrite Hat by apply Ha. destruct (Z.eqb_spec a c) as [->|]; [apply BITSET_SET_ok|]; now apply Hcf.
  - intros a Ha. rewrite Hat by apply Ha. unfold in_class. rewrite Hat by apply Ha.
    change (regs_with R') with (regs_with R). destruct (Z.eqb_spec a c) as [->|]; [|now apply Hp].
    cbn [p]. rewrite (Hp c Ha). unfold regs_with.
    transitivity (len (filter (in_class R c) (indices (regs_count R))) + 1).
    { apply wrap_small. pose proof (filter_len_le (in_class R c) (regs_count R) ltac:(lia)).
      pose proof (len_nonneg (filter (in_class R c) (indices (regs_count R)))). lia. }
    symmetry. apply filter_add_one with (x := r); auto using NoDup_indices.
    + apply in_indices. exact Hr.
    + intros y Hy. apply in_indices in Hy. unfold reg_belongs_to_class, in_class. cbn [class_regs].
      now rewrite (BITSET_TEST_SET _ (regs_count R)) by (apply Hcf || apply Hr || lia; assumption).
  - intros a x Ha Hx. change (regs_count R') with (regs_count R) in Hx. unfold in_class. rewrite Hat by apply Ha.
    destruct (Z.eqb_spec a c) as [->|]; [|now apply Hpad]. unfold reg_belongs_to_class. cbn [class_regs].
    rewrite (BITSET_TEST_SET _ (regs_count R)); [|now apply Hcf | exact Hr | lia].
    destruct (Z.eqb_spec x r) as [->|]; [unfold is_reg in Hr; lia | now apply Hpad].
Qed.

(** ** Building a register set *)

Lemma get_indices {A} (d : A) (f : Z -> A) n i : 0 <= i < n -> get d (map f (indices n)) i = f i.
Proof.
  intros Hi. unfold get. rewrite nth_indep with (d' := f 0) by (rewrite length_map, length_indices; lia).
  rewrite map_nth. f_equal. unfold indices. change 0 with (Z.of_nat 0). rewrite map_nth, seq_nth by lia. lia.
Qed.

Lemma alloc_reg_set_ok cnt need : 0 <= cnt < 2 ^ 31 -> regs_ok (ra_alloc_reg_set cnt need).
Proof.
  intros Hc. set (R := ra_alloc_reg_set cnt need).
  assert (Hat : forall r, is_reg R r -> reg_at R r = RaReg (BITSET_SET (bitset_zero cnt) r)
     (if need then Some [r] else None) (if need then 4 else 0) 1) by (intros r Hr; exact (get_indices no_reg (fun i => RaReg (BITSET_SET (bitset_zero cnt) i)
          (if need then Some [i] else None) (if need then 4 else 0) 1) cnt r Hr)).
  assert (Hconf : forall a b, is_reg R a -> is_reg R b -> conf R a b = (b =? a)).
  { intros a b Ha Hb. unfold conf. rewrite Hat by assumption. cbn [conflicts].
    rewrite (BITSET_TEST_SET _ cnt), bitset_zero_test, orb_false_r by (apply bitset_zero_ok || apply Ha || apply Hb; lia). reflexivity. }
  constructor.
  - exact Hc.
  - unfold R, len. cbn. rewrite length_map, length_indices. lia.
  - intros r Hr. rewrite Hat by assumption. apply BITSET_SET_ok, bitset_zero_ok, (proj1 Hc).
  - intros r Hr. rewrite Hconf by assumption. apply Z.eqb_refl.
  - intros a b Ha Hb. rewrite !Hconf by assumption. apply Z.eqb_sym.
  - intros r Hr. unfold list_ok. rewrite Hat by assumption. cbn [conflict_list num_conflicts]. destruct need; [|exact I].
    split; [repeat constructor; auto|]. split; [reflexivity|]. intros x. cbn [In]. split.
    + intros [<-|[]]. split; [assumption|]. rewrite Hconf by assumption. apply Z.eqb_refl.
    + intros [Hx E]. rewrite Hconf in E by assumption. left. zbool. congruence.
  - split; vm_compute; congruence.
  - intros c [H1 H2]. cbn in H2. lia.
  - intros c [H1 H2]. cbn in H2. lia.
  - intros c r [H1 H2]. cbn in H2. lia.
Qed.

Definition with_lists (R : ra_regs) : Prop := forall r, is_reg R r -> conflict_list (reg_at R r) <> None.
Definition without_lists (R : ra_regs) : Prop := forall r, is_reg R r -> conflict_list (reg_at R r) = None.

(** The calls a driver may make between [ra_alloc_reg_set] and
    [ra_set_finalize]: registers and classes exist, a register is added to a
    class once, the list-based operation is used on a set that has lists and
    the bitset-based one on a set that has none. *)
Inductive build : ra_regs -> ra_regs -> Prop :=
| build_round_robin R : build R (ra_set_allocate_round_robin R)
| build_conflict R r1 r2 : is_reg R r1 -> is_reg R r2 -> build R (ra_add_reg_conflict R r1 r2)
| build_transitive R R' base r :
    is_reg R base -> is_reg R r -> with_lists R -> ra_add_transitive_reg_conflict R base r = Ret R' -> build R R'
| build_make_transitive R r :
    is_reg R r -> without_lists R -> build R (ra_make_reg_conflicts_transitive R r)
| build_class R : class_count R + 1 < 2 ^ 32 -> build R (snd (ra_alloc_reg_class R))
| build_class_reg R c r : is_class R c -> is_reg R r -> in_class R c r = false -> build R (ra_class_add_reg R c r).

Lemma build_ok R R' : build R R' -> regs_ok R -> regs_ok R'.
Proof.
  destruct 1 as [R|R r1 r2 H1 H2|R R' base r H1 H2 Hl E|R r H1 Hn|R Hn|R c r H1 H2 Hn]; intros Hok.
  - destruct Hok. constructor; assumption.
  - now apply add_reg_conflict_ok.
  - destruct (add_transitive_ok R base r Hok H1 H2 (Hl base H1)) as (R1 & E1 & Hok1 & _). congruence.
  - now apply make_transitive_ok.
  - now apply alloc_class_ok.
  - now apply class_add_reg_ok.
Qed.

Lemma built_ok cnt need R : 0 <= cnt < 2 ^ 31 -> star build (ra_alloc_reg_set cnt need) R -> regs_ok R.
Proof.
  intros Hc Hb. eapply (star_invariant build regs_ok); [exact build_ok | exact Hb | now apply alloc_reg_set_ok].
Qed.

(** A set allocated with conflict lists keeps them. *)
Definition has_lists (R : ra_regs) : Prop := Forall (fun r => conflict_list r <> None) (regs R).

Lemma has_lists_with R : regs_ok R -> has_lists R -> with_lists R.
Proof.
  intros Hok Hl r Hr. unfold has_lists in Hl. rewrite Forall_forall in Hl. apply Hl, get_In.
  rewrite (ro_len R Hok). exact Hr.
Qed.

Lemma add_conflict_has_lists R r1 r2 : has_lists R -> has_lists (ra_add_reg_conflict R r1 r2).
Proof.
  assert (Hone : forall R r1 r2, has_lists R -> has_lists (ra_add_conflict_list R r1 r2)).
  { clear. intros R r1 r2 Hl. apply Forall_upd; [exact Hl|]. intros x Hx.
    destruct (conflict_list x) eqn:E; [cbn; congruence | contradiction]. }
  intros Hl. unfold ra_add_reg_conflict. destruct (BITSET_TEST _ _); auto.
Qed.

Lemma transitive_has_lists fuel : forall R base r i R',
  transitive_loop fuel R base r i = Ret R' -> has_lists R -> has_lists R'.
Proof.
  induction fuel as [|fuel IH]; intros R base r i R'; cbn [transitive_loop]; destruct (i <? _).
  - discriminate.
  - intros E. injection E as <-. auto.
  - destruct (conflict_list _); [|discriminate]. intros E Hl. apply (IH _ _ _ _ _ E). now apply add_conflict_has_lists.
  - intros E. injection E as <-. auto.
Qed.

Lemma build_has_lists R R' : build R R' -> regs_ok R -> has_lists R -> has_lists R'.
Proof.
  destruct 1 as [R|R r1 r2 H1 H2|R R' base r H1 H2 Hl E|R r H1 Hn|R Hn|R c r H1 H2 Hn]; intros Hok Hl'; auto.
  - now apply add_conflict_has_lists.
  - apply (transitive_has_lists _ _ _ _ _ _ E). now apply add_conflict_has_lists.
  - exfalso. apply (has_lists_with R Hok Hl' r H1). now apply Hn.
Qed.

Lemma built_with_lists cnt R : 0 <= cnt < 2 ^ 31 -> star build (ra_alloc_reg_set cnt true) R -> regs_ok R /\ with_lists R.
Proof.
  intros Hc Hb. assert (H : regs_ok R /\ has_lists R); [|split; [apply H | now apply has_lists_with]].
  eapply (star_invariant build (fun R => regs_ok R /\ has_lists R)); [|exact Hb|].
  - intros R1 R2 Hs [Hok Hl]. split; [now apply (build_ok R1) | now apply (build_has_lists R1)].
  - split; [now apply alloc_reg_set_ok|]. apply Forall_forall. intros x Hx.
    apply in_map_iff in Hx as (i & <- & _). cbn. congruence.
Qed.

(** ** Finalisation *)

(** How many registers of class [b] a node in register [rc] blocks. *)
Definition blocked (R : ra_regs) (b rc : Z) : Z := len (regs_with R (fun rb => conf R rc rb && in_class R b rb)).

(** q(B, C) of the paper: the worst case over the registers of class [c]. *)
Definition q_spec (R : ra_regs) (b c : Z) : Z :=
  fold_left Z.max (map (blocked R b) (regs_with R (in_class R c))) 0.

(** A register set ready for allocation: the [q] values are sound. *)
Record finalized (R : ra_regs) : Prop := {
  fin_ok : regs_ok R;
  fin_q : forall b c r, is_class R b -> is_class R c -> is_reg R r -> in_class R c r = true -> blocked R b r <= q_of R b c;
  fin_q_small : forall b c, is_class R b -> is_class R c -> 0 <= q_of R b c <= regs_count R
}.

Lemma NoDup_filter {A} (f : A -> bool) l : NoDup l -> NoDup (filter f l).
Proof.
  induction 1 as [|x l Hx Hl IH]; cbn; [constructor|]. destruct (f x); [|assumption].
  constructor; [|assumption]. intros Hin. apply filter_In in Hin. tauto.
Qed.

Lemma NoDup_same_len {A} (l l' : list A) : NoDup l -> NoDup l' -> (forall x, In x l <-> In x l') -> len l = len l'.
Proof. intros H1 H2 H. unfold len. f_equal. apply Nat.le_antisymm; apply NoDup_incl_length; auto; intros x; apply H. Qed.

Lemma conflicts_with_class_spec R rc b :
  regs_ok R -> with_lists R -> is_reg R rc -> conflicts_with_class R rc b = Ret (blocked R b rc).
Proof.
  intros Hok Hl Hrc. unfold conflicts_with_class. pose proof (ro_list R Hok rc Hrc) as Hlist. unfold list_ok in Hlist.
  destruct (conflict_list (reg_at R rc)) as [l|] eqn:E; [|now apply Hl in E]. destruct Hlist as (Hnd & <- & Hin).
  f_equal. rewrite firstn_all2 by (unfold len; lia). unfold blocked, regs_with.
  apply NoDup_same_len; try (apply NoDup_filter; auto using NoDup_indices). intros x.
  rewrite !filter_In, Hin, in_indices, andb_true_iff. unfold is_reg, in_class. tauto.
Qed.

Lemma max_conflicts_loop_spec R b c rcs : forall acc,
  regs_ok R -> with_lists R -> (forall rc, In rc rcs -> is_reg R rc) ->
  max_conflicts_loop R b c rcs acc = Ret (fold_left Z.max (map (blocked R b) (filter (in_class R c) rcs)) acc).
Proof.
  induction rcs as [|rc rcs IH]; intros acc Hok Hl Hin; cbn [max_conflicts_loop filter]; [reflexivity|].
  fold (in_class R c rc). destruct (in_class R c rc).
  - rewrite conflicts_with_class_spec by (auto; apply Hin; now left). cbn [obind map fold_left].
    apply IH; auto. intros x Hx. apply Hin. now right.
  - apply IH; auto. intros x Hx. apply Hin. now right.
Qed.

Lemma map_out_Ret {A B} (f : A -> outcome B) (g : A -> B) xs :
  (forall x, In x xs -> f x = Ret (g x)) -> map_out f xs = Ret (map g xs).
Proof.
  induction xs as [|x xs IH]; intros Hf; cbn; [reflexivity|]. rewrite Hf by now left. cbn.
  rewrite IH by (intros y Hy; apply Hf; now right). reflexivity.
Qed.

Lemma compute_q_spec R b :
  regs_ok R -> with_lists R -> compute_q R None b = Ret (map (q_spec R b) (indices (class_count R))).
Proof.
  intros Hok Hl. apply map_out_Ret. intros c _. apply max_conflicts_loop_spec; auto.
  intros rc Hrc. now apply in_indices.
Qed.

(** The register set with the rows [qs] installed and the lists freed. *)
Lemma finalize_with R q_values qs :
  regs_ok R -> (forall b, is_class R b -> compute_q R q_values b = Ret (qs b)) ->
  exists R', ra_set_finalize R q_values = Ret R' /\ regs_ok R' /\
    regs_count R' = regs_count R /\ class_count R' = class_count R /\
    (forall c, is_class R c -> q (class_at R' c) = qs c /\ in_class R' c = in_class R c) /\
    (forall a b, is_reg R a -> conf R' a b = conf R a b) /\ without_lists R'.
Proof.
  intros Hok Hq. unfold ra_set_finalize.
  rewrite (map_out_Ret _ qs) by (intros b Hb; apply in_indices in Hb; now apply Hq). cbn [obind].
  set (row := fun b => get [] (map qs (indices (class_count R))) b).
  assert (Hfold : forall bs R0, fold_left (fun R b => upd_class b (fun c => c <| q := row b |>) R) bs R0 =
    R0 <| classes := fold_left (fun cl b => upd b (fun c => c <| q := row b |>) cl) bs (classes R0) |>).
  { induction bs as [|b bs IH]; intros R0; [now destruct R0|]. cbn [fold_left]. rewrite IH. reflexivity. }
  rewrite Hfold. eexists. split; [reflexivity|].
  destruct (ro_class_count R Hok) as [Hcl Hcb]. pose proof (len_nonneg (classes R)).
  destruct (fold_upd no_class (fun b c => c <| q := row b |>) (class_count R) (classes R) ltac:(lia)) as [Hlen Hget].
  set (cl' := fold_left _ _ _) in Hlen, Hget |- *. set (R' := _ <| regs := _ |>).
  assert (Hcls : forall c, is_class R c -> class_at R' c = (class_at R c) <| q := qs c |>).
  { intros c Hc. unfold class_at, R'. cbn [classes update]. cbn. rewrite Hget by apply Hc.
    destruct (Z.ltb_spec c (class_count R)) as [_|Hge]; [|unfold is_class in Hc; lia]. unfold row. now rewrite get_indices. }
  assert (Hreg : forall r, is_reg R r -> reg_at R' r = (reg_at R r) <| conflict_list := None |>).
  { intros r Hr. unfold reg_at, R', get. cbn [regs update]. cbn.
    pose proof (ro_len R Hok) as Hrl. unfold len, is_reg in *.
    set (f := fun r : ra_reg => _). rewrite nth_indep with (d' := f no_reg) by (rewrite length_map; lia).
    now rewrite map_nth. }
  assert (Hconf : forall a b, is_reg R a -> conf R' a b = conf R a b) by (intros a b Ha; unfold conf; now rewrite Hreg).
  assert (Hin : forall c, is_class R c -> in_class R' c = in_class R c) by (intros c Hc; unfold in_class; now rewrite Hcls).
  split; [|split; [reflexivity|]; split; [reflexivity|]; split; [|split; [exact Hconf|]]].
  - constructor; [apply Hok | | | | | | | | |].
    + unfold R', len. cbn. rewrite length_map. apply (ro_len R Hok).
    + intros r Hr. rewrite Hreg by assumption. now apply (ro_fit R Hok).
    + intros r Hr. rewrite Hconf by assumption. now apply (ro_refl R Hok).
    + intros a b Ha Hb. rewrite !Hconf by assumption. now apply (ro_sym R Hok).
    + intros r Hr. unfold list_ok. now rewrite Hreg.
    + split; [|assumption]. unfold R'. cbn. fold cl'. lia.
    + intros c Hc. rewrite Hcls by assumption. now apply (ro_class_fit R Hok).
    + intros c Hc. rewrite Hcls, Hin by assumption. now apply (ro_p R Hok).
    + intros c r Hc Hr. rewrite Hin by assumption. now apply (ro_pad R Hok).
  - intros c Hc. split; [now rewrite Hcls | now apply Hin].
  - intros r Hr. now rewrite Hreg.
Qed.

Lemma fold_max_ge l : forall acc x, In x l \/ x = acc -> x <= fold_left Z.max l acc.
Proof.
  induction l as [|y l IH]; intros acc x Hx; cbn [fold_left].
  - destruct Hx as [[]| ->]. lia.
  - destruct Hx as [[->|Hx]| ->]; [|apply IH; now left|]; (etransitivity; [|apply IH; right; reflexivity]); lia.
Qed.

Lemma fold_max_le l : forall acc n, acc <= n -> (forall x, In x l -> x <= n) -> fold_left Z.max l acc <= n.
Proof.
  induction l as [|y l IH]; intros acc n Ha Hl; cbn [fold_left]; [assumption|].
  apply IH; [|intros x Hx; apply Hl; now right]. specialize (Hl y (or_introl eq_refl)). lia.
Qed.

Lemma q_spec_bound R b c r : is_reg R r -> in_class R c r = true -> blocked R b r <= q_spec R b c.
Proof.
  intros Hr Hc. apply fold_max_ge. left. apply in_map. apply filter_In. split; [now apply in_indices | assumption].
Qed.

Lemma q_spec_small R b c : 0 <= regs_count R -> 0 <= q_spec R b c <= regs_count R.
Proof.
  intros Hn. split; [apply fold_max_ge; now right|]. apply fold_max_le; [assumption|].
  intros x Hx. apply in_map_iff in Hx as (r & <- & _). now apply filter_len_le.
Qed.

(** [ra_set_finalize] without given values computes q(B, C). *)
Lemma finalize_spec R :
  regs_ok R -> with_lists R ->
  exists R', ra_set_finalize R None = Ret R' /\ finalized R' /\
    regs_count R' = regs_count R /\ class_count R' = class_count R /\
    (forall b c, is_class R b -> is_class R c -> q_of R' b c = q_spec R b c) /\
    (forall c, is_class R c -> in_class R' c = in_class R c) /\
    (forall a b, is_reg R a -> conf R' a b = conf R a b).
Proof.
  intros Hok Hl.
  destruct (finalize_with R None (fun b => map (q_spec R b) (indices (class_count R))) Hok)
    as (R' & E & Hok' & En & Ecc & Hcls & Hconf & _); [intros b _; now apply compute_q_spec|].
  assert (Hq : forall b c, is_class R b -> is_class R c -> q_of R' b c = q_spec R b c).
  { intros b c Hb Hc. unfold q_of. rewrite (proj1 (Hcls b Hb)). now apply get_indices. }
  assert (Hin : forall c, is_class R c -> in_class R' c = in_class R c) by (intros c Hc; now apply Hcls).
  exists R'. split; [exact E|]. split; [|auto 6]. constructor; [exact Hok' | |];
    unfold is_class, is_reg in *; rewrite ?En, ?Ecc.
  - intros b c r Hb Hc Hr Hrc. rewrite Hq by assumption. rewrite Hin in Hrc by assumption.
    transitivity (blocked R b r); [|now apply q_spec_bound]. unfold blocked, regs_with. rewrite En, Hin by assumption.
    apply Z.eq_le_incl. f_equal. apply filter_ext. intros x. now rewrite Hconf.
  - intros b c Hb Hc. rewrite Hq by assumption. apply q_spec_small. apply (ro_count R Hok).
Qed.
