(* ===== verification/RegAllocGraph.v ===== *)
(** * The interference graph of the allocator

    The invariant of an interference graph, its construction, and the
    simplification that orders its nodes. *)

From Stdlib Require Import Bool ZArith List Lia SpecFloat.
From S2P Require Import Prelude Arrays RegAlloc RegAllocSet.
Import ListNotations.
#[local] Open Scope bool_scope.
#[local] Open Scope Z_scope.
#[local] Open Scope c_scope.

Definition is_node (g : ra_graph) (n : Z) : Prop := 0 <= n < count g.
Abbreviation adj g n := (adjacency_list (node_at g n)).
Abbreviation cls g n := (class (node_at g n)).
Abbreviation stacked g n := (in_stack (node_at g n)).

(** [g] has an edge between the nodes. *)
Definition edge (g : ra_graph) (n m : Z) : Prop := is_node g n /\ In m (adj g n).

Definition wsum (f : Z -> Z) (l : list Z) : Z := fold_right (fun x acc => f x + acc) 0 l.

(** The sum of q(B, C) over the neighbours of [n] that satisfy [f]. *)
Definition q_sum (g : ra_graph) (n : Z) (f : Z -> bool) : Z :=
  wsum (fun m => q_of (g_regs g) (cls g n) (cls g m)) (filter f (adj g n)).

(** The neighbours that are not on the stack. *)
Definition pressure (g : ra_graph) (n : Z) : Z := q_sum g n (fun m => negb (stacked g m)).

Record graph_ok (g : ra_graph) : Prop := {
  go_regs : finalized (g_regs g);
  go_count : 0 <= count g < 2 ^ 31;
  go_small : count g * regs_count (g_regs g) < UINT_MAX;
  go_nodes : len (nodes g) = count g;
  go_stack : len (stack g) = count g;
  go_class : forall n, is_node g n -> is_class (g_regs g) (cls g n);
  go_bits : forall n, is_node g n -> bitset_ok (adjacency (node_at g n)) (count g);
  go_nodup : forall n, is_node g n -> NoDup (adj g n);
  go_adj : forall n m, is_node g n -> In m (adj g n) <-> is_node g m /\ BITSET_TEST (adjacency (node_at g n)) m = true;
  go_irrefl : forall n, is_node g n -> ~ In n (adj g n);
  go_sym : forall n m, edge g n m -> edge g m n;
  go_q : forall n, is_node g n -> stacked g n = false -> q_total (node_at g n) = pressure g n
}.

Lemma node_at_upd g n f m :
  len (nodes g) = count g -> is_node g n -> 0 <= m ->
  node_at (upd_node n f g) m = if m =? n then f (node_at g m) else node_at g m.
Proof. intros Hl Hn Hm. apply get_upd; [unfold is_node in Hn; lia | assumption]. Qed.

(** ** Sums *)

Lemma wsum_bound f l b : (forall x, In x l -> 0 <= f x <= b) -> 0 <= wsum f l <= len l * b.
Proof.
  unfold len. induction l as [|x l IH]; intros Hl; cbn [wsum fold_right length]; [lia|].
  pose proof (Hl x (or_introl eq_refl)). assert (IH' := IH (fun y Hy => Hl y (or_intror Hy))). unfold wsum in IH'.
  rewrite Nat2Z.inj_succ, Z.mul_succ_l. lia.
Qed.

Lemma wsum_app f l1 l2 : wsum f (l1 ++ l2) = wsum f l1 + wsum f l2.
Proof. unfold wsum. induction l1 as [|x l IH]; cbn [app fold_right]; [reflexivity|]. rewrite IH. lia. Qed.

Lemma wsum_ext f g l : (forall x, In x l -> f x = g x) -> wsum f l = wsum g l.
Proof.
  induction l as [|x l IH]; intros Hfg; [reflexivity|]. cbn. rewrite (Hfg x (or_introl eq_refl)).
  f_equal. apply IH. intros y Hy. apply Hfg. now right.
Qed.

(** Excluding one member from a sum. *)
Lemma wsum_exclude w (f f' : Z -> bool) n l :
  NoDup l -> In n l -> f n = true -> (forall x, In x l -> f' x = f x && negb (x =? n)) ->
  wsum w (filter f l) = wsum w (filter f' l) + w n.
Proof.
  intros Hnd Hin Hfn Hf. induction Hnd as [|x l Hx Hnd IH]; [destruct Hin|].
  cbn [filter]. rewrite (Hf x (or_introl eq_refl)). destruct (Z.eqb_spec x n) as [->|Hne]; cbn [negb].
  - rewrite Hfn, andb_false_r. cbn [wsum fold_right]. fold (wsum w (filter f l)).
    rewrite (filter_ext_in f' f l); [lia|]. intros y Hy. rewrite (Hf y (or_intror Hy)).
    destruct (Z.eqb_spec y n) as [->|]; [contradiction | apply andb_true_r].
  - destruct Hin as [->|Hin]; [congruence|]. rewrite andb_true_r.
    assert (IH' := IH Hin (fun y Hy => Hf y (or_intror Hy))).
    destruct (f x); [|exact IH']. cbn [wsum fold_right]. unfold wsum in IH'. lia.
Qed.

Lemma filter_len {A} (f : A -> bool) l : len (filter f l) <= len l.
Proof. unfold len. pose proof (filter_length_le f l). lia. Qed.

Section Bounds.
Context (g : ra_graph) (Hg : graph_ok g).

Lemma adj_node n m : is_node g n -> In m (adj g n) -> is_node g m.
Proof. intros Hn Hm. apply (go_adj g Hg n m Hn) in Hm. tauto. Qed.

Lemma adj_len n : is_node g n -> len (adj g n) <= count g.
Proof.
  intros Hn. pose proof (go_count g Hg). etransitivity; [apply (NoDup_range_length _ (count g)); [now apply (go_nodup g Hg)|]|lia].
  intros m Hm. now apply (adj_node n m).
Qed.

Lemma q_of_bound n m :
  is_node g n -> is_node g m -> 0 <= q_of (g_regs g) (cls g n) (cls g m) <= regs_count (g_regs g).
Proof. intros Hn Hm. apply (fin_q_small _ (go_regs g Hg)); now apply (go_class g Hg). Qed.

Lemma q_sum_degree n f : is_node g n -> 0 <= q_sum g n f <= len (adj g n) * regs_count (g_regs g).
Proof.
  intros Hn. unfold q_sum.
  pose proof (wsum_bound (fun m => q_of (g_regs g) (cls g n) (cls g m)) (filter f (adj g n)) (regs_count (g_regs g))) as Hb.
  assert (Hx : forall x, In x (filter f (adj g n)) -> 0 <= q_of (g_regs g) (cls g n) (cls g x) <= regs_count (g_regs g)).
  { intros x Hx. apply filter_In in Hx as [Hx _]. apply q_of_bound; [assumption | now apply (adj_node n)]. }
  specialize (Hb Hx). pose proof (filter_len f (adj g n)).
  pose proof (ro_count _ (fin_ok _ (go_regs g Hg))). nia.
Qed.

Lemma q_sum_bound n f : is_node g n -> 0 <= q_sum g n f <= count g * regs_count (g_regs g).
Proof.
  intros Hn. pose proof (q_sum_degree n f Hn). pose proof (adj_len n Hn).
  pose proof (ro_count _ (fin_ok _ (go_regs g Hg))). nia.
Qed.

(** The running totals are below [UINT_MAX]: no sum wraps. *)
Lemma q_total_bound n : is_node g n -> stacked g n = false -> 0 <= q_total (node_at g n) < UINT_MAX.
Proof.
  intros Hn Hs. rewrite (go_q g Hg n Hn Hs). pose proof (q_sum_bound n (fun m => negb (stacked g m)) Hn).
  pose proof (go_small g Hg). unfold pressure. lia.
Qed.

End Bounds.

(** ** Construction *)

(** No node has been put on the stack yet. *)
Definition unstacked (g : ra_graph) : Prop := stack_count g = 0 /\ forall n, is_node g n -> stacked g n = false.

Lemma alloc_graph_ok R cnt :
  finalized R -> 0 < class_count R -> 0 <= cnt < 2 ^ 31 -> cnt * regs_count R < UINT_MAX ->
  graph_ok (ra_alloc_interference_graph R cnt) /\ unstacked (ra_alloc_interference_graph R cnt).
Proof.
  intros Hfin Hcl Hcnt Hsmall. set (g := ra_alloc_interference_graph R cnt).
  assert (Hat : forall n, is_node g n -> node_at g n = RaNode (bitset_zero cnt) [] 4 0 0 NO_REG false 0 (S754_zero false)).
  { intros n Hn. exact (get_indices no_node (fun _ => RaNode (bitset_zero cnt) [] 4 0 0 NO_REG false 0 (S754_zero false)) cnt n Hn). }
  split; [|split; [reflexivity | intros n Hn; now rewrite Hat]].
  constructor; auto.
  - unfold g, len. cbn. rewrite length_map, length_indices. lia.
  - unfold g, len. cbn. rewrite repeat_length. lia.
  - intros n Hn. rewrite Hat by assumption. cbn. split; [lia | exact Hcl].
  - intros n Hn. rewrite Hat by assumption. apply bitset_zero_ok. apply Hcnt.
  - intros n Hn. rewrite Hat by assumption. constructor.
  - intros n m Hn. rewrite Hat by assumption. cbn [adjacency_list adjacency]. rewrite bitset_zero_test. cbn [In]. intuition discriminate.
  - intros n Hn. rewrite Hat by assumption. intros [].
  - intros n m [Hn Hm]. rewrite Hat in Hm by assumption. destruct Hm.
  - intros n Hn _. unfold pressure, q_sum. rewrite Hat by assumption. reflexivity.
Qed.

(** [g'] differs from [g] only in the members no invariant mentions, or in
    the registers of nodes. *)
Definition same_shape (g g' : ra_graph) : Prop :=
  g_regs g' = g_regs g /\ count g' = count g /\ len (nodes g') = len (nodes g) /\ len (stack g') = len (stack g) /\
  forall n, is_node g n -> adjacency (node_at g' n) = adjacency (node_at g n) /\ adj g' n = adj g n /\ cls g' n = cls g n.

Lemma q_sum_shape g g' n f f' :
  graph_ok g -> same_shape g g' -> is_node g n -> (forall m, In m (adj g n) -> f m = f' m) -> q_sum g' n f = q_sum g n f'.
Proof.
  intros Hg (Er & _ & _ & _ & Hs) Hn Hf. unfold q_sum. destruct (Hs n Hn) as (_ & Ea & Ec). rewrite Ea, Ec, Er.
  rewrite (filter_ext_in f f') by exact Hf. apply wsum_ext. intros m Hm. apply filter_In in Hm as [Hm _].
  destruct (Hs m (adj_node g Hg n m Hn Hm)) as (_ & _ & Em). now rewrite Em.
Qed.

Lemma graph_ok_shape g g' :
  graph_ok g -> same_shape g g' ->
  (forall n, is_node g n -> stacked g' n = false -> q_total (node_at g' n) = pressure g' n) -> graph_ok g'.
Proof.
  intros Hg Hsh Hq. pose proof Hg as []. destruct Hsh as (Er & En & El & Es & Hs).
  assert (Hnode : forall n, is_node g' n <-> is_node g n) by (intros n; unfold is_node; now rewrite En).
  constructor; rewrite ?Er, ?En, ?El, ?Es; auto.
  - intros n Hn. apply Hnode in Hn. destruct (Hs n Hn) as (_ & _ & ->). auto.
  - intros n Hn. apply Hnode in Hn. destruct (Hs n Hn) as (-> & _ & _). auto.
  - intros n Hn. apply Hnode in Hn. destruct (Hs n Hn) as (_ & -> & _). auto.
  - intros n m Hn. apply Hnode in Hn. destruct (Hs n Hn) as (-> & -> & _). rewrite Hnode. auto.
  - intros n Hn. apply Hnode in Hn. destruct (Hs n Hn) as (_ & -> & _). auto.
  - intros n m [Hn Hm]. apply Hnode in Hn. destruct (Hs n Hn) as (_ & Ea & _). rewrite Ea in Hm.
    destruct (go_sym0 n m (conj Hn Hm)) as [Hmn Hin]. split; [now apply Hnode|]. destruct (Hs m Hmn) as (_ & -> & _). exact Hin.
  - intros n Hn. apply Hq. now apply Hnode.
Qed.

(** Updating members of a node that the invariant does not mention. *)
Lemma upd_node_shape g n f :
  len (nodes g) = count g -> is_node g n ->
  (forall x, adjacency (f x) = adjacency x /\ adjacency_list (f x) = adjacency_list x /\ class (f x) = class x) ->
  same_shape g (upd_node n f g).
Proof.
  intros Hl Hn Hf. repeat split; try reflexivity; try (unfold upd_node; cbn; apply len_upd);
    rewrite node_at_upd by (assumption || apply H); destruct (n0 =? n); try reflexivity; apply Hf.
Qed.

Lemma set_node_class_ok g n c :
  graph_ok g -> unstacked g -> is_node g n -> is_class (g_regs g) c -> adj g n = [] ->
  graph_ok (ra_set_node_class g n c) /\ unstacked (ra_set_node_class g n c).
Proof.
  intros Hg [Hsc Hun] Hn Hc Hempty. pose proof Hg as []. set (g' := ra_set_node_class g n c).
  assert (Hat : forall m, 0 <= m -> node_at g' m = if m =? n then (node_at g m) <| class := c |> else node_at g m)
    by (intros m Hm; exact (node_at_upd g n (fun x => x <| class := c |>) m go_nodes0 Hn Hm)).
  assert (Hother : forall m, is_node g m -> adjacency (node_at g' m) = adjacency (node_at g m) /\ adj g' m = adj g m /\
            stacked g' m = stacked g m /\ q_total (node_at g' m) = q_total (node_at g m) /\
            cls g' m = if m =? n then c else cls g m).
  { intros m [Hm _]. rewrite Hat by assumption. destruct (m =? n); repeat split. }
  assert (Hiso : forall m, is_node g m -> ~ In n (adj g m)).
  { intros m Hm Hin. destruct (go_sym0 m n (conj Hm Hin)) as [_ Hback]. rewrite Hempty in Hback. destruct Hback. }
  split; [|split; [exact Hsc | intros m Hm; destruct (Hother m Hm) as (_ & _ & -> & _); now apply Hun]].
  constructor; auto.
  - unfold g', ra_set_node_class, upd_node. cbn. now rewrite len_upd.
  - intros m Hm. destruct (Hother m Hm) as (_ & _ & _ & _ & ->). destruct (m =? n); [exact Hc | now apply go_class0].
  - intros m Hm. destruct (Hother m Hm) as (-> & _). now apply go_bits0.
  - intros m Hm. destruct (Hother m Hm) as (_ & -> & _). now apply go_nodup0.
  - intros m x Hm. destruct (Hother m Hm) as (-> & -> & _). now apply go_adj0.
  - intros m Hm. destruct (Hother m Hm) as (_ & -> & _). now apply go_irrefl0.
  - intros m x [Hm Hx]. destruct (Hother m Hm) as (_ & E & _). rewrite E in Hx.
    destruct (go_sym0 m x (conj Hm Hx)) as [Hxn Hin]. split; [exact Hxn|]. destruct (Hother x Hxn) as (_ & -> & _). exact Hin.
  - intros m Hm _. destruct (Hother m Hm) as (_ & Ea & _ & -> & Ecm). rewrite (go_q0 m Hm (Hun m Hm)).
    unfold pressure, q_sum. rewrite Ea. destruct (Z.eqb_spec m n) as [->|Hne]; [now rewrite Hempty|].
    rewrite Ecm. change (g_regs g') with (g_regs g).
    rewrite (filter_ext_in (fun x => negb (stacked g' x)) (fun x => negb (stacked g x))).
    + apply wsum_ext. intros x Hx. apply filter_In in Hx as [Hx _].
      destruct (Hother x (adj_node g Hg m x Hm Hx)) as (_ & _ & _ & _ & ->).
      destruct (Z.eqb_spec x n) as [->|]; [now apply Hiso in Hx | reflexivity].
    + intros x Hx. destruct (Hother x (adj_node g Hg m x Hm Hx)) as (_ & _ & -> & _). reflexivity.
Qed.

(** The node after [ra_add_node_adjacency]. *)
Lemma add_adjacency_node g n1 n2 :
  len (nodes g) = count g -> is_node g n1 -> n1 <> n2 ->
  exists g', ra_add_node_adjacency g n1 n2 = Ret g' /\ g_regs g' = g_regs g /\ count g' = count g /\
    len (nodes g') = len (nodes g) /\ stack g' = stack g /\ stack_count g' = stack_count g /\
    forall m, 0 <= m -> stacked g' m = stacked g m /\ cls g' m = cls g m /\ reg (node_at g' m) = reg (node_at g m) /\
      adjacency (node_at g' m) = (if m =? n1 then BITSET_SET (adjacency (node_at g m)) n2 else adjacency (node_at g m)) /\
      adj g' m = (if m =? n1 then adj g m ++ [n2] else adj g m) /\
      q_total (node_at g' m) =
        (if m =? n1 then u32 (q_total (node_at g m) + q_of (g_regs g) (cls g n1) (cls g n2)) else q_total (node_at g m)).
Proof.
  intros Hl Hn1 Hne. unfold ra_add_node_adjacency. rewrite c_assert_true by now apply negb_true_iff, Z.eqb_neq.
  eexists. split; [reflexivity|]. repeat (split; [reflexivity || (unfold upd_node; cbn; apply len_upd)|]).
  intros m Hm. rewrite node_at_upd by assumption. destruct (m =? n1); [|auto 8].
  cbv zeta. destruct (_ >=? _); cbn; auto 8.
Qed.

(** [g'] is [g] with a new edge between [n1] and [n2]. *)
Definition edge_added (g : ra_graph) (n1 n2 : Z) (g' : ra_graph) : Prop :=
  g_regs g' = g_regs g /\ count g' = count g /\
  len (nodes g') = len (nodes g) /\ stack g' = stack g /\ stack_count g' = stack_count g /\
  forall m, is_node g m -> stacked g' m = stacked g m /\ cls g' m = cls g m /\ reg (node_at g' m) = reg (node_at g m) /\
    adjacency (node_at g' m) =
      (if m =? n1 then BITSET_SET (adjacency (node_at g m)) n2
       else if m =? n2 then BITSET_SET (adjacency (node_at g m)) n1 else adjacency (node_at g m)) /\
    adj g' m = (if m =? n1 then adj g m ++ [n2] else if m =? n2 then adj g m ++ [n1] else adj g m) /\
    q_total (node_at g' m) =
      (if m =? n1 then u32 (q_total (node_at g m) + q_of (g_regs g) (cls g n1) (cls g n2))
       else if m =? n2 then u32 (q_total (node_at g m) + q_of (g_regs g) (cls g n2) (cls g n1))
       else q_total (node_at g m)).

Lemma add_interference_node g n1 n2 :
  graph_ok g -> is_node g n1 -> is_node g n2 -> n1 <> n2 -> BITSET_TEST (adjacency (node_at g n1)) n2 = false ->
  exists g', ra_add_node_interference g n1 n2 = Ret g' /\ edge_added g n1 n2 g'.
Proof.
  intros Hg Hn1 Hn2 Hne Hbit. unfold ra_add_node_interference. rewrite Hbit.
  assert (E : negb (n1 =? n2) = true) by now apply negb_true_iff, Z.eqb_neq. rewrite E. cbn [negb andb].
  destruct (add_adjacency_node g n1 n2 (go_nodes g Hg) Hn1 Hne) as (g1 & -> & Er & Ec & El & Es & Esc & Hat). cbn [obind].
  destruct (add_adjacency_node g1 n2 n1) as (g' & -> & Er' & Ec' & El' & Es' & Esc' & Hat').
  { rewrite El, Ec. apply (go_nodes g Hg). } { unfold is_node. rewrite Ec. exact Hn2. } { congruence. }
  exists g'. split; [reflexivity|]. repeat (split; [congruence|]). intros m [Hm _].
  destruct (Hat m Hm) as (S1 & C1 & G1 & A1 & L1 & Q1). destruct (Hat' m Hm) as (-> & -> & -> & -> & -> & ->).
  destruct (Hat n1 (proj1 Hn1)) as (_ & Cn1 & _). destruct (Hat n2 (proj1 Hn2)) as (_ & Cn2 & _).
  rewrite S1, C1, G1, A1, L1, Q1, Cn1, Cn2, Er.
  destruct (Z.eqb_spec m n1), (Z.eqb_spec m n2); try congruence; auto 8.
Qed.

Section EdgeAdded.
Context (g : ra_graph) (n1 n2 : Z) (g' : ra_graph).
Context (Hg : graph_ok g) (Hun : unstacked g) (Hn1 : is_node g n1) (Hn2 : is_node g n2) (Hne : n1 <> n2).
Context (Hbit : BITSET_TEST (adjacency (node_at g n1)) n2 = false) (Hadd : edge_added g n1 n2 g').

Lemma added_node n : is_node g' n <-> is_node g n.
Proof. destruct Hadd as (_ & Ec & _). unfold is_node. now rewrite Ec. Qed.

Lemma added_no_back : BITSET_TEST (adjacency (node_at g n2)) n1 = false.
Proof.
  destruct (BITSET_TEST _ n1) eqn:E; [|reflexivity].
  assert (Hback : edge g n2 n1) by (split; [assumption | now apply (go_adj g Hg)]).
  apply (go_sym g Hg) in Hback as [_ Hback]. apply (go_adj g Hg) in Hback as [_ Hback]; [congruence | assumption].
Qed.

(** The node at the other end of the new edge. *)
Definition other_end (m : Z) : option Z := if m =? n1 then Some n2 else if m =? n2 then Some n1 else None.

Lemma other_end_spec m b : other_end m = Some b -> (m = n1 /\ b = n2) \/ (m = n2 /\ b = n1).
Proof. unfold other_end. destruct (Z.eqb_spec m n1), (Z.eqb_spec m n2); intros E; inversion E; auto. Qed.

Lemma other_end_sym m b : other_end m = Some b -> other_end b = Some m.
Proof.
  intros E. apply other_end_spec in E as [[-> ->]|[-> ->]]; unfold other_end; rewrite Z.eqb_refl; [|reflexivity].
  destruct (Z.eqb_spec n2 n1); [congruence | reflexivity].
Qed.

Lemma other_end_new m b : other_end m = Some b ->
  is_node g m /\ is_node g b /\ m <> b /\ BITSET_TEST (adjacency (node_at g m)) b = false.
Proof. intros E. apply other_end_spec in E as [[-> ->]|[-> ->]]; auto using added_no_back. Qed.

(** The members of a node, in terms of the other end. *)
Lemma added_at m : is_node g m ->
  stacked g' m = stacked g m /\ cls g' m = cls g m /\
  adjacency (node_at g' m) = (match other_end m with Some b => BITSET_SET (adjacency (node_at g m)) b | None => adjacency (node_at g m) end) /\
  adj g' m = (match other_end m with Some b => adj g m ++ [b] | None => adj g m end) /\
  q_total (node_at g' m) =
    (match other_end m with Some b => u32 (q_total (node_at g m) + q_of (g_regs g) (cls g m) (cls g b)) | None => q_total (node_at g m) end).
Proof.
  intros Hm. destruct Hadd as (_ & _ & _ & _ & _ & Hat). destruct (Hat m Hm) as (-> & -> & _ & -> & -> & ->).
  unfold other_end. destruct (Z.eqb_spec m n1) as [->|]; [auto 6|]. destruct (Z.eqb_spec m n2) as [->|]; auto 6.
Qed.

Lemma added_edges n m : edge g' n m <-> edge g n m \/ other_end n = Some m.
Proof.
  unfold edge. rewrite added_node. split.
  - intros [Hn Hm]. destruct (added_at n Hn) as (_ & _ & _ & Ea & _). rewrite Ea in Hm.
    destruct (other_end n) as [b|]; [|auto]. apply in_app_iff in Hm as [Hm|[<-|[]]]; auto.
  - intros [[Hn Hm]|E].
    + split; [assumption|]. destruct (added_at n Hn) as (_ & _ & _ & -> & _).
      destruct (other_end n); [apply in_app_iff|]; auto.
    + destruct (other_end_new _ _ E) as (Hn & _). split; [assumption|].
      destruct (added_at n Hn) as (_ & _ & _ & -> & _). rewrite E. apply in_app_iff. cbn. auto.
Qed.

Lemma added_pressure n : is_node g n ->
  pressure g' n = pressure g n + match other_end n with Some b => q_of (g_regs g) (cls g n) (cls g b) | None => 0 end.
Proof.
  intros Hn. destruct Hadd as (Er & _). destruct (added_at n Hn) as (_ & Ec & _ & Ea & _).
  unfold pressure, q_sum. rewrite Ea, Ec, Er.
  assert (Hold : wsum (fun m => q_of (g_regs g) (cls g n) (cls g' m)) (filter (fun m => negb (stacked g' m)) (adj g n)) =
                 wsum (fun m => q_of (g_regs g) (cls g n) (cls g m)) (filter (fun m => negb (stacked g m)) (adj g n))).
  { rewrite (filter_ext_in _ (fun m => negb (stacked g m))).
    - apply wsum_ext. intros m Hm. apply filter_In in Hm as [Hm _].
      destruct (added_at m (adj_node g Hg n m Hn Hm)) as (_ & -> & _). reflexivity.
    - intros m Hm. destruct (added_at m (adj_node g Hg n m Hn Hm)) as (-> & _). reflexivity. }
  destruct (other_end n) as [b|] eqn:Eb; [|lia]. destruct (other_end_new _ _ Eb) as (_ & Hb & _).
  rewrite filter_app, wsum_app. cbn [filter]. destruct (added_at b Hb) as (-> & Ecb & _).
  rewrite (proj2 Hun b Hb). cbn [negb wsum fold_right]. fold (wsum (fun m => q_of (g_regs g) (cls g n) (cls g' m))
    (filter (fun m => negb (stacked g' m)) (adj g n))). rewrite Hold, Ecb. lia.
Qed.

Lemma added_ok : graph_ok g' /\ unstacked g'.
Proof.
  pose proof Hadd as (Er & Ec & El & Es & Esc & _). pose proof Hg as [].
  assert (Hu' : unstacked g').
  { split; [rewrite Esc; apply Hun|]. intros n Hn. apply added_node in Hn. destruct (added_at n Hn) as (-> & _). now apply Hun. }
  split; [|exact Hu'].
  assert (Hadj : forall n m, is_node g n -> In m (adj g' n) <-> In m (adj g n) \/ other_end n = Some m).
  { intros n m Hn. pose proof (added_edges n m) as He. unfold edge in He. rewrite added_node in He. tauto. }
  assert (Hnodup : forall n, is_node g n -> NoDup (adj g' n)).
  { intros n Hn. destruct (added_at n Hn) as (_ & _ & _ & -> & _). destruct (other_end n) as [b|] eqn:Eb; [|auto].
    destruct (other_end_new _ _ Eb) as (_ & _ & _ & Hnew). apply NoDup_snoc; [auto|].
    intros Hin. apply go_adj0 in Hin as [_ Hin]; [congruence | assumption]. }
  assert (Hsym : forall n m, edge g' n m -> edge g' m n).
  { intros n m He. apply added_edges in He as [He|He]; apply added_edges; [left; auto | right; now apply other_end_sym]. }
  assert (Hmem : forall n m, is_node g n -> In m (adj g' n) <-> is_node g m /\ BITSET_TEST (adjacency (node_at g' n)) m = true).
  { intros n m Hn. rewrite Hadj, go_adj0 by assumption. destruct (added_at n Hn) as (_ & _ & -> & _).
    destruct (other_end n) as [b|] eqn:Eb; [|intuition discriminate]. destruct (other_end_new _ _ Eb) as (_ & Hb & _).
    split.
    - intros [[Hm Ht]|E]; [|injection E as <-]; split; auto; rewrite (BITSET_TEST_SET _ (count g)); auto;
        try (apply Hm || apply Hb); [now rewrite Ht, orb_true_r | now rewrite Z.eqb_refl].
    - intros [Hm Ht]. rewrite (BITSET_TEST_SET _ (count g)) in Ht; auto; [|apply Hm].
      apply orb_true_iff in Ht as [Ht|Ht]; [apply Z.eqb_eq in Ht; subst; auto | auto]. }
  constructor; rewrite ?Er, ?Ec, ?El, ?Es; auto; intros n Hn; try (apply added_node in Hn).
  - destruct (added_at n Hn) as (_ & -> & _). auto.
  - destruct (added_at n Hn) as (_ & _ & -> & _). destruct (other_end n); [apply BITSET_SET_ok|]; auto.
  - now apply Hnodup.
  - intros Hm. apply added_node in Hm. rewrite added_node. now apply Hmem.
  - rewrite Hadj by assumption. intros [Hin|E]; [now apply (go_irrefl0 n Hn)|]. now apply other_end_new in E as (_ & _ & Hd & _).
  - intros _. destruct (added_at n Hn) as (_ & _ & _ & _ & ->). rewrite added_pressure by assumption.
    rewrite (go_q0 n Hn (proj2 Hun n Hn)). destruct (other_end n) as [b|] eqn:Eb; [|lia].
    apply wrap_small. destruct (other_end_new _ _ Eb) as (_ & Hb & Hd & Hnew).
    pose proof (q_of_bound g Hg n b Hn Hb). pose proof (q_sum_degree g Hg n (fun m => negb (stacked g m)) Hn).
    pose proof (NoDup_range_length _ (count g) (Hnodup n Hn) (fun m Hm => proj1 (proj1 (Hmem n m Hn) Hm))) as Hlen.
    destruct (added_at n Hn) as (_ & _ & _ & Ea & _). rewrite Ea, Eb, len_app in Hlen. change (len [b]) with 1 in Hlen.
    pose proof (ro_count _ (fin_ok _ go_regs0)). unfold pressure, UINT_MAX in *. nia.
Qed.

End EdgeAdded.

(** Declaring an interference adds exactly that edge. *)
Lemma add_interference_ok g n1 n2 :
  graph_ok g -> unstacked g -> is_node g n1 -> is_node g n2 ->
  exists g', ra_add_node_interference g n1 n2 = Ret g' /\ graph_ok g' /\ unstacked g' /\
    g_regs g' = g_regs g /\ count g' = count g /\
    (forall n, is_node g n -> cls g' n = cls g n /\ reg (node_at g' n) = reg (node_at g n)) /\
    (forall n m, edge g' n m <-> edge g n m \/ (n1 <> n2 /\ ((n = n1 /\ m = n2) \/ (n = n2 /\ m = n1)))).
Proof.
  intros Hg Hun Hn1 Hn2. destruct (Z.eq_dec n1 n2) as [E|Hne].
  { exists g. unfold ra_add_node_interference. apply Z.eqb_eq in E as E'. rewrite E'. cbn [negb andb].
    do 6 (split; [auto|]). intros n m. tauto. }
  destruct (BITSET_TEST (adjacency (node_at g n1)) n2) eqn:Hbit.
  { assert (Hin : edge g n1 n2) by (split; [assumption | now apply (go_adj g Hg)]).
    exists g. unfold ra_add_node_interference. rewrite Hbit, andb_false_r.
    do 6 (split; [auto|]). intros n m. pose proof (go_sym g Hg _ _ Hin) as Hback. intuition (subst; auto). }
  destruct (add_interference_node g n1 n2 Hg Hn1 Hn2 Hne Hbit) as (g' & E & Hadd).
  destruct (added_ok g n1 n2 g' Hg Hun Hn1 Hn2 Hne Hbit Hadd) as [Hg' Hu'].
  exists g'. split; [exact E|]. split; [exact Hg'|]. split; [exact Hu'|].
  pose proof Hadd as (Er & Ec & _ & _ & _ & Hat). split; [exact Er|]. split; [exact Ec|]. split.
  { intros n Hn. destruct (Hat n Hn) as (_ & -> & -> & _). auto. }
  intros n m. rewrite (added_edges g n1 n2 g' Hg Hn1 Hn2 Hne Hbit Hadd n m). split; (intros [He|He]; [now left|right]).
  - split; [assumption|]. now apply other_end_spec.
  - unfold other_end. destruct He as [_ [[-> ->]|[-> ->]]]; rewrite Z.eqb_refl; [reflexivity|].
    destruct (Z.eqb_spec n2 n1); [congruence | reflexivity].
Qed.

(** Every node is uncoloured or has an existing register. *)
Definition colours_ok (g : ra_graph) : Prop :=
  forall n, is_node g n -> reg (node_at g n) = NO_REG \/ is_reg (g_regs g) (reg (node_at g n)).

(** A graph before allocation. *)
Definition ready (g : ra_graph) : Prop := graph_ok g /\ unstacked g /\ colours_ok g.

(** An update of members other than edges, class, stack mark and total. *)
Lemma upd_node_ready g n f :
  ready g -> is_node g n ->
  (forall x, adjacency (f x) = adjacency x /\ adjacency_list (f x) = adjacency_list x /\ class (f x) = class x) ->
  (forall x, in_stack (f x) = in_stack x \/ in_stack (f x) = false) -> (forall x, q_total (f x) = q_total x) ->
  (forall x, reg (f x) = reg x \/ is_reg (g_regs g) (reg (f x))) ->
  ready (upd_node n f g).
Proof.
  intros (Hg & Hun & Hcol) Hn Hf Hst Hq Hr. pose proof (upd_node_shape g n f (go_nodes g Hg) Hn Hf) as Hsh.
  assert (Hat : forall m, is_node g m -> node_at (upd_node n f g) m = if m =? n then f (node_at g m) else node_at g m)
    by (intros m Hm; apply node_at_upd; [apply (go_nodes g Hg) | assumption | apply Hm]).
  assert (Hs : forall m, is_node g m -> stacked (upd_node n f g) m = false).
  { intros m Hm. rewrite Hat by assumption. destruct (m =? n); [|now apply Hun].
    destruct (Hst (node_at g m)) as [->|]; [now apply Hun | assumption]. }
  split; [|split].
  - apply (graph_ok_shape g); auto. intros m Hm _. unfold pressure.
    rewrite (q_sum_shape g _ m _ (fun x => negb (stacked g x)) Hg Hsh Hm).
    + rewrite Hat by assumption. transitivity (q_total (node_at g m)); [now destruct (m =? n)|].
      apply (go_q g Hg); [assumption | now apply Hun].
    + intros x Hx. apply (adj_node g Hg m) in Hx; [|assumption]. now rewrite Hs, (proj2 Hun).
  - split; [apply Hun | exact Hs].
  - intros m Hm. change (g_regs (upd_node n f g)) with (g_regs g). rewrite Hat by assumption.
    destruct (m =? n); [|now apply Hcol]. destruct (Hr (node_at g m)) as [->|]; [now apply Hcol | now right].
Qed.

(** The calls a driver may make between [ra_alloc_interference_graph] and
    [ra_allocate]; a node gets its class before its interferences. *)
Inductive gbuild : ra_graph -> ra_graph -> Prop :=
| gb_class g n c : is_node g n -> is_class (g_regs g) c -> adj g n = [] -> gbuild g (ra_set_node_class g n c)
| gb_interference g n1 n2 g' :
    is_node g n1 -> is_node g n2 -> ra_add_node_interference g n1 n2 = Ret g' -> gbuild g g'
| gb_reg g n r : is_node g n -> is_reg (g_regs g) r -> gbuild g (ra_set_node_reg g n r)
| gb_cost g n cost : is_node g n -> gbuild g (ra_set_node_spill_cost g n cost)
| gb_callback g f data : gbuild g (ra_set_select_reg_callback g f data).

Lemma gbuild_ready g g' : gbuild g g' -> ready g -> ready g'.
Proof.
  destruct 1 as [g n c Hn Hc He|g n1 n2 g' Hn1 Hn2 E|g n r Hn Hr|g n cost Hn|g f data]; intros Hrd;
    pose proof Hrd as (Hg & Hun & Hcol).
  - destruct (set_node_class_ok g n c Hg Hun Hn Hc He) as [Hg' Hun']. split; [assumption|]. split; [assumption|].
    intros m Hm. unfold ra_set_node_class. rewrite node_at_upd; [|apply (go_nodes g Hg) | assumption | apply Hm].
    destruct (m =? n); now apply Hcol.
  - destruct (add_interference_ok g n1 n2 Hg Hun Hn1 Hn2) as (g1 & E1 & Hg1 & Hu1 & Er & Ec & Hkeep & _).
    rewrite E in E1. injection E1 as <-. split; [assumption|]. split; [assumption|]. intros m Hm.
    assert (Hm' : is_node g m) by (unfold is_node in *; now rewrite <- Ec). destruct (Hkeep m Hm') as [_ ->]. rewrite Er. now apply Hcol.
  - apply upd_node_ready; auto.
  - apply upd_node_ready; auto.
  - split; [destruct Hg; constructor; assumption|]. split; assumption.
Qed.

Lemma built_ready R cnt g :
  finalized R -> 0 < class_count R -> 0 <= cnt < 2 ^ 31 -> cnt * regs_count R < UINT_MAX ->
  star gbuild (ra_alloc_interference_graph R cnt) g -> ready g.
Proof.
  intros Hfin Hcl Hcnt Hsmall Hb.
  eapply (star_invariant gbuild ready); [exact gbuild_ready | exact Hb |].
  destruct (alloc_graph_ok R cnt Hfin Hcl Hcnt Hsmall) as [Hg Hu]. split; [assumption|]. split; [assumption|].
  intros n Hn. left. unfold node_at. cbn [nodes ra_alloc_interference_graph].
  now rewrite (get_indices no_node (fun _ => RaNode (bitset_zero cnt) [] 4 0 0 NO_REG false 0 (S754_zero false))).
Qed.
