(* ===== verification/RegAllocSimplify.v ===== *)
(** * Simplification of the interference graph

    [ra_simplify] ends, trips no assertion and pushes every uncoloured node;
    a node pushed before the first optimistic one passed the pq test against
    the nodes that are coloured before it. *)

From Stdlib Require Import Bool ZArith List Lia.
From S2P Require Import Prelude Arrays RegAlloc RegAllocSet RegAllocGraph.
Import ListNotations.
#[local] Open Scope bool_scope.
#[local] Open Scope Z_scope.
#[local] Open Scope c_scope.

(** The used part of the stack, bottom first. *)
Definition stack_list (g : ra_graph) : list Z := firstn (Z.to_nat (stack_count g)) (stack g).

Record simp_ok (g : ra_graph) : Prop := {
  so_graph : graph_ok g;
  so_count : 0 <= stack_count g <= count g;
  so_nodup : NoDup (stack_list g);
  so_in : forall n, In n (stack_list g) <-> is_node g n /\ stacked g n = true;
  so_reg : forall n, is_node g n -> stacked g n = true -> reg (node_at g n) = NO_REG
}.

(** [g'] is [g] except for the stack, its marks and the totals. *)
Definition moved (g g' : ra_graph) : Prop :=
  same_shape g g' /\ (forall n, is_node g n -> reg (node_at g' n) = reg (node_at g n)) /\
  select_reg_callback g' = select_reg_callback g /\ select_reg_callback_data g' = select_reg_callback_data g.

Lemma moved_refl g : moved g g.
Proof. repeat split; reflexivity. Qed.

Lemma moved_trans a b c : moved a b -> moved b c -> moved a c.
Proof.
  intros ((A1 & A2 & A3 & A4 & A5) & A6 & A7 & A8) ((B1 & B2 & B3 & B4 & B5) & B6 & B7 & B8).
  assert (Hn : forall n, is_node a n -> is_node b n) by (intros n; unfold is_node; now rewrite A2).
  split; [split; [congruence|]; split; [congruence|]; split; [congruence|]; split; [congruence|]|].
  - intros n Hna. destruct (A5 n Hna) as (? & ? & ?), (B5 n (Hn n Hna)) as (? & ? & ?). repeat split; congruence.
  - split; [|split; congruence]. intros n Hna. rewrite B6, A6 by auto. reflexivity.
Qed.

Lemma moved_node g g' n : moved g g' -> is_node g' n <-> is_node g n.
Proof. intros ((_ & E & _) & _). unfold is_node. now rewrite E. Qed.

(** ** Pushing a node *)

Lemma decrement_loop_spec nc ns : forall g,
  len (nodes g) = count g -> NoDup ns -> (forall m, In m ns -> is_node g m) ->
  (forall m, In m ns -> stacked g m = false ->
     0 <= q_of (g_regs g) (cls g m) nc <= q_total (node_at g m) /\ q_total (node_at g m) < 2 ^ 32) ->
  exists ns', decrement_q_loop nc ns g = Ret (g <| nodes := ns' |>) /\ len ns' = len (nodes g) /\
    forall m, 0 <= m -> get no_node ns' m =
      if existsb (Z.eqb m) ns && negb (stacked g m)
      then (node_at g m) <| q_total := q_total (node_at g m) - q_of (g_regs g) (cls g m) nc |> else node_at g m.
Proof.
  induction ns as [|x ns IH]; intros g Hl Hnd Hin Hq; cbn [decrement_q_loop existsb].
  { exists (nodes g). split; [now destruct g|]. auto. }
  inversion Hnd as [|? ? Hx Hnd']; subst. pose proof (Hin x (or_introl eq_refl)) as Hxn.
  destruct (stacked g x) eqn:Es.
  - destruct (IH g Hl Hnd') as (ns' & E & El & Hat); [intros; apply Hin; now right | intros; apply Hq; auto; now right|].
    exists ns'. split; [exact E|]. split; [exact El|]. intros m Hm. rewrite Hat by assumption.
    destruct (Z.eqb_spec m x) as [->|]; [|reflexivity]. rewrite Es. now rewrite !andb_false_r.
  - destruct (Hq x (or_introl eq_refl) Es) as [[Hd0 Hd] Hb].
    rewrite c_assert_true by (rewrite Z.geb_leb; now apply Z.leb_le).
    set (d := q_of (g_regs g) (cls g x) nc) in *. set (g1 := upd_node x _ g).
    assert (Hg1 : forall m, 0 <= m -> node_at g1 m =
              if m =? x then (node_at g m) <| q_total := u32 (q_total (node_at g m) - d) |> else node_at g m)
      by (intros m Hm; exact (node_at_upd g x (fun x => x <| q_total := u32 (q_total x - d) |>) m Hl Hxn Hm)).
    assert (Hsame : forall m, In m ns -> node_at g1 m = node_at g m).
    { intros m Hm. rewrite Hg1 by (apply Hin; now right). destruct (Z.eqb_spec m x) as [->|]; [contradiction | reflexivity]. }
    destruct (IH g1) as (ns' & E & El & Hat); auto.
    { unfold g1, upd_node. cbn. now rewrite len_upd. }
    { intros m Hm. apply (Hin m). now right. }
    { intros m Hm. rewrite Hsame by assumption. apply Hq. now right. }
    exists ns'. split; [exact E|]. split; [rewrite El; unfold g1, upd_node; cbn; apply len_upd|].
    intros m Hm. rewrite Hat by assumption. change (g_regs g1) with (g_regs g).
    assert (Hst : stacked g1 m = stacked g m) by (rewrite Hg1 by assumption; now destruct (m =? x)). rewrite Hst.
    destruct (Z.eqb_spec m x) as [->|Hne].
    + assert (Hnx : existsb (Z.eqb x) ns = false).
      { destruct (existsb (Z.eqb x) ns) eqn:Ex; [|reflexivity]. apply existsb_exists in Ex as (y & Hy & Exy).
        apply Z.eqb_eq in Exy. congruence. }
      rewrite Hnx, Es, Hg1, Z.eqb_refl by assumption. cbn [andb orb negb]. rewrite wrap_small by lia. reflexivity.
    + apply Z.eqb_neq in Hne. rewrite Hg1, Hne by assumption. reflexivity.
Qed.

(** An active node's total accounts for each active neighbour. *)
Lemma pressure_neighbour g n m :
  graph_ok g -> edge g n m -> stacked g n = false -> stacked g m = false ->
  0 <= q_of (g_regs g) (cls g m) (cls g n) <= q_total (node_at g m).
Proof.
  intros Hg He Hn Hm. destruct (go_sym g Hg n m He) as [Hmn Hin]. pose proof (proj1 He) as Hnn.
  split; [now apply (q_of_bound g Hg)|]. rewrite (go_q g Hg m Hmn Hm). unfold pressure, q_sum.
  rewrite (wsum_exclude _ _ (fun x => negb (stacked g x) && negb (x =? n)) n); auto;
    [|now apply (go_nodup g Hg) | now rewrite Hn].
  pose proof (q_sum_bound g Hg m (fun x => negb (stacked g x) && negb (x =? n)) Hmn) as Hb. unfold q_sum in Hb. lia.
Qed.

Lemma existsb_In x l : existsb (Z.eqb x) l = true <-> In x l.
Proof.
  rewrite existsb_exists. split; [intros (y & Hy & E); apply Z.eqb_eq in E; congruence | exists x; split; [assumption | apply Z.eqb_refl]].
Qed.

(** Taking [n] off the graph lowers the totals of its neighbours. *)
Lemma pressure_without g n m :
  graph_ok g -> is_node g n -> is_node g m -> stacked g n = false -> stacked g m = false ->
  q_sum g m (fun x => negb (stacked g x) && negb (x =? n)) =
  q_total (node_at g m) - if existsb (Z.eqb m) (adj g n) then q_of (g_regs g) (cls g m) (cls g n) else 0.
Proof.
  intros Hg Hn Hm Hns Hms. rewrite (go_q g Hg m Hm Hms). unfold pressure, q_sum.
  destruct (existsb (Z.eqb m) (adj g n)) eqn:Ee.
  - apply existsb_In in Ee. destruct (go_sym g Hg n m (conj Hn Ee)) as [_ Hback].
    rewrite (wsum_exclude _ (fun x => negb (stacked g x)) (fun x => negb (stacked g x) && negb (x =? n)) n); auto;
      [lia | now apply (go_nodup g Hg) | now rewrite Hns].
  - rewrite Z.sub_0_r. f_equal. apply filter_ext_in. intros x Hx.
    destruct (Z.eqb_spec x n) as [->|]; [|now rewrite andb_true_r].
    assert (Hin : In m (adj g n)) by (destruct (go_sym g Hg m n (conj Hm Hx)) as [_ Hin]; exact Hin).
    apply existsb_In in Hin. congruence.
Qed.

Lemma firstn_upd_snoc (l : list Z) c x :
  0 <= c < len l -> firstn (Z.to_nat (c + 1)) (upd c (fun _ => x) l) = firstn (Z.to_nat c) l ++ [x].
Proof.
  intros Hc. unfold len in Hc. replace (Z.to_nat (c + 1)) with (S (Z.to_nat c)) by lia. unfold upd.
  assert (Hn : (Z.to_nat c < length l)%nat) by lia. revert Hn. generalize (Z.to_nat c) as k. clear Hc.
  induction l as [|y l IH]; intros [|k] Hk; cbn [length] in Hk; try lia; [reflexivity|]. cbn. f_equal. apply IH. lia.
Qed.

Lemma stack_room g n : simp_ok g -> is_node g n -> stacked g n = false -> stack_count g < count g.
Proof.
  intros Hs Hn Hst. pose proof (so_graph g Hs) as Hg. pose proof (so_count g Hs). pose proof (go_stack g Hg).
  assert (Hout : ~ In n (stack_list g)) by (intros Hin; apply (so_in g Hs) in Hin as [_ Hin]; congruence).
  pose proof (NoDup_range_length _ (count g) (NoDup_snoc _ n (so_nodup g Hs) Hout)) as Hlen.
  assert (Hin : forall x, In x (stack_list g ++ [n]) -> 0 <= x < count g).
  { intros x Hx. apply in_app_iff in Hx as [Hx|[<-|[]]]; [|exact Hn]. apply (so_in g Hs) in Hx. apply Hx. }
  specialize (Hlen Hin). rewrite len_app in Hlen. change (len [n]) with 1 in Hlen.
  unfold stack_list, len in Hlen. rewrite length_firstn in Hlen. unfold len in *. lia.
Qed.

Lemma push_ok g n :
  simp_ok g -> is_node g n -> stacked g n = false -> reg (node_at g n) = NO_REG ->
  exists g', push g n = Ret g' /\ simp_ok g' /\ moved g g' /\ stack_list g' = stack_list g ++ [n] /\
    stack_count g' = stack_count g + 1.
Proof.
  intros Hs Hn Hst Hreg. pose proof (so_graph g Hs) as Hg. pose proof (so_count g Hs) as Hcnt.
  pose proof (stack_room g n Hs Hn Hst) as Hroom. pose proof (go_count g Hg). pose proof (go_stack g Hg) as Hsl.
  unfold push, decrement_q.
  destruct (decrement_loop_spec (cls g n) (adj g n) g (go_nodes g Hg) (go_nodup g Hg n Hn)) as (ns' & -> & Hlen & Hat).
  { intros m Hm. now apply (adj_node g Hg n). }
  { intros m Hm Hms. split; [now apply pressure_neighbour|].
    pose proof (q_total_bound g Hg m (adj_node g Hg n m Hn Hm) Hms). unfold UINT_MAX in *. lia. }
  cbn [obind]. eexists. split; [reflexivity|].
  set (g' := upd_node n _ _).
  assert (Hnode : forall m, is_node g m -> node_at g' m =
     let x := if existsb (Z.eqb m) (adj g n) && negb (stacked g m)
              then (node_at g m) <| q_total := q_total (node_at g m) - q_of (g_regs g) (cls g m) (cls g n) |> else node_at g m in
     if m =? n then x <| in_stack := true |> else x).
  { intros m Hm. unfold g', node_at, upd_node. cbn [nodes update]. cbn -[get upd]. rewrite get_upd.
    - rewrite Hat by apply Hm. reflexivity.
    - rewrite Hlen, (go_nodes g Hg). exact Hn.
    - apply Hm. }
  assert (Hstk : forall m, is_node g m -> stacked g' m = (m =? n) || stacked g m).
  { intros m Hm. rewrite Hnode by assumption. cbv zeta. destruct (m =? n), (_ && _); reflexivity. }
  assert (Hmoved : moved g g').
  { split; [split; [reflexivity|]; split; [reflexivity|]; split; [|split]|split; [|split; reflexivity]].
    - unfold g', upd_node. cbn. now rewrite len_upd.
    - unfold g', upd_node. cbn. now rewrite len_upd.
    - intros m Hm. rewrite Hnode by assumption. cbv zeta. destruct (m =? n), (_ && _); repeat split.
    - intros m Hm. rewrite Hnode by assumption. cbv zeta. destruct (m =? n), (_ && _); reflexivity. }
  assert (Esc : stack_count g' = stack_count g + 1) by (apply wrap_small; lia).
  assert (Esl : stack_list g' = stack_list g ++ [n]).
  { unfold stack_list. rewrite Esc. unfold g', upd_node. cbn -[firstn upd]. apply firstn_upd_snoc. lia. }
  split; [|auto]. constructor.
  - apply (graph_ok_shape g); [assumption | apply Hmoved|]. intros m Hm Hms. rewrite Hstk in Hms by assumption.
    apply orb_false_iff in Hms as [Hmn Hms]. rewrite Hnode, Hmn, Hms by assumption. cbv zeta. cbn [negb]. rewrite andb_true_r.
    unfold pressure. rewrite (q_sum_shape g g' m _ (fun x => negb (stacked g x) && negb (x =? n)) Hg (proj1 Hmoved) Hm).
    2: { intros x Hx. rewrite Hstk by now apply (adj_node g Hg m). rewrite negb_orb. apply andb_comm. }
    rewrite (pressure_without g n m) by assumption. destruct (existsb _ _); cbn; lia.
  - rewrite Esc. cbn. lia.
  - rewrite Esl. apply NoDup_snoc; [apply Hs|]. intros Hin. apply (so_in g Hs) in Hin as [_ Hin]. congruence.
  - intros m. rewrite (moved_node _ _ _ Hmoved), Esl, in_app_iff, (so_in g Hs). cbn [In]. split.
    + intros [[Hm Hs']|[<-|[]]]; (split; [assumption|]); rewrite Hstk by assumption; [rewrite Hs'; apply orb_true_r | now rewrite Z.eqb_refl].
    + intros [Hm Hs']. rewrite Hstk in Hs' by assumption. apply orb_true_iff in Hs' as [E|]; [apply Z.eqb_eq in E; auto | auto].
  - intros m Hm Hs'. apply (moved_node _ _ _ Hmoved) in Hm. destruct Hmoved as (_ & -> & _); [|assumption].
    rewrite Hstk in Hs' by assumption. apply orb_true_iff in Hs' as [E|]; [apply Z.eqb_eq in E; congruence | now apply (so_reg g Hs)].
Qed.

(** ** The order of the stack *)

(** [n] passes the pq test when only the nodes below it, in [l], are left
    out: the ones that are coloured after it. *)
Definition trivially (g : ra_graph) (l : list Z) (n : Z) : Prop :=
  q_sum g n (fun m => negb (existsb (Z.eqb m) l)) < p (class_at (g_regs g) (cls g n)).

(** The nodes below the first optimistic one were trivially colourable. *)
Definition cert (g : ra_graph) (opt : Z) : Prop :=
  forall l1 n l2, stack_list g = l1 ++ n :: l2 -> len l1 < opt -> trivially g l1 n.

Lemma trivially_moved g g' l n : graph_ok g -> moved g g' -> is_node g n -> trivially g l n -> trivially g' l n.
Proof.
  intros Hg Hm Hn Ht. unfold trivially in *.
  rewrite (q_sum_shape g g' n _ (fun m => negb (existsb (Z.eqb m) l)) Hg (proj1 Hm) Hn) by auto.
  destruct Hm as ((Er & _ & _ & _ & Hs) & _). rewrite Er. destruct (Hs n Hn) as (_ & _ & ->). exact Ht.
Qed.

(** The pq test is that condition for the stack at hand. *)
Lemma pq_test_trivially g n :
  simp_ok g -> is_node g n -> stacked g n = false -> pq_test g n = true -> trivially g (stack_list g) n.
Proof.
  intros Hs Hn Hst Hpq. pose proof (so_graph g Hs) as Hg. unfold pq_test in Hpq. apply Z.ltb_lt in Hpq.
  rewrite (go_q g Hg n Hn Hst) in Hpq. unfold trivially, pressure, q_sum in *.
  rewrite (filter_ext_in _ (fun m => negb (stacked g m))); [exact Hpq|]. intros m Hm. f_equal.
  apply eq_true_iff_eq. rewrite existsb_In, (so_in g Hs). pose proof (adj_node g Hg n m Hn Hm). tauto.
Qed.

Lemma cert_push g g' n opt :
  simp_ok g -> moved g g' -> stack_list g' = stack_list g ++ [n] -> is_node g n ->
  cert g opt -> (trivially g (stack_list g) n \/ opt <= len (stack_list g)) -> cert g' opt.
Proof.
  intros Hs Hm Esl Hn Hc Hnew l1 x l2 E Hlt. pose proof (so_graph g Hs) as Hg. rewrite Esl in E.
  destruct (exists_last (l := x :: l2)) as (l3 & y & E3); [discriminate|]. rewrite E3 in E.
  rewrite app_assoc in E. apply app_inj_tail in E as [E ->].
  destruct l3 as [|z l3]; cbn in E3.
  - injection E3 as -> ->. rewrite app_nil_r in E. subst l1. destruct Hnew as [Ht|Hge]; [|lia].
    now apply (trivially_moved g).
  - injection E3 as <- ->. apply (trivially_moved g); auto.
    + assert (Hin : In x (stack_list g)) by (rewrite E; apply in_app_iff; cbn; auto). now apply (so_in g Hs) in Hin.
    + now apply (Hc l1 x l3).
Qed.

Lemma stack_list_len g : simp_ok g -> len (stack_list g) = stack_count g.
Proof.
  intros Hs. pose proof (so_count g Hs). pose proof (go_stack g (so_graph g Hs)) as Hl. unfold stack_list, len in *.
  rewrite length_firstn. lia.
Qed.

(** ** One pass over the nodes *)

(** A node that a pass may push. *)
Definition open_node (g : ra_graph) (n : Z) : Prop := is_node g n /\ stacked g n = false /\ reg (node_at g n) = NO_REG.

(** The best optimistic candidate, if any, of a pass without progress. *)
Definition candidate (g : ra_graph) (s : round) : Prop :=
  (best_optimistic_node s = UINT_MAX /\ lowest_q_total s = UINT_MAX) \/ open_node g (best_optimistic_node s).

Record pass_result (n : nat) (g : ra_graph) (s : round) (opt : Z) (g' : ra_graph) (s' : round) : Prop := {
  pr_ok : simp_ok g';
  pr_cert : cert g' opt;
  pr_moved : moved g g';
  pr_mono : stack_count g <= stack_count g';
  pr_progress : progress s' = true -> progress s = true \/ stack_count g < stack_count g';
  pr_stuck : progress s' = false -> g' = g /\ progress s = false /\
    (candidate g s -> candidate g s' /\
      (best_optimistic_node s' = UINT_MAX -> best_optimistic_node s = UINT_MAX /\ forall i, 0 <= i < Z.of_nat n -> ~ open_node g i))
}.

(** A pass that goes on from [(g1, s1)] after leaving node [n] without
    progress, or with. *)
Lemma pass_skip n g s s1 opt g' s' :
  pass_result n g s1 opt g' s' -> progress s1 = progress s ->
  (candidate g s -> candidate g s1 /\ (best_optimistic_node s1 = UINT_MAX -> best_optimistic_node s = UINT_MAX /\ ~ open_node g (Z.of_nat n))) ->
  pass_result (S n) g s opt g' s'.
Proof.
  intros [H1 H2 H3 H4 H5 H6] Ep Hc. constructor; auto; [now rewrite <- Ep|].
  intros Hp. destruct (H6 Hp) as (-> & Hp1 & Hcand). split; [reflexivity|]. split; [congruence|]. intros Hcs.
  destruct (Hc Hcs) as [Hc1 Hb1]. destruct (Hcand Hc1) as [Hc' Hb']. split; [assumption|]. intros E.
  destruct (Hb' E) as [E1 Hno]. destruct (Hb1 E1) as [E0 Hn]. split; [assumption|]. intros i Hi.
  destruct (Z.eq_dec i (Z.of_nat n)) as [->|]; [assumption | apply Hno; lia].
Qed.

Lemma simplify_pass_ok n : forall g s opt,
  simp_ok g -> cert g opt -> Z.of_nat n <= count g ->
  exists g' s', simplify_pass n g s = Ret (g', s') /\ pass_result n g s opt g' s'.
Proof.
  induction n as [|n IH]; intros g s opt Hs Hc Hn; cbn [simplify_pass].
  { exists g, s. split; [reflexivity|]. constructor; auto using moved_refl; [lia|].
    intros Hp. split; [reflexivity|]. split; [assumption|]. intros Hcand. split; [assumption|]. intros E. split; [assumption|]. lia. }
  assert (Hnode : is_node g (Z.of_nat n)) by (unfold is_node; lia).
  destruct (in_stack _ || _) eqn:Eskip.
  { destruct (IH g s opt Hs Hc ltac:(lia)) as (g' & s' & E & Hr). exists g', s'. split; [exact E|].
    apply (pass_skip n g s s); auto. intros Hcand. split; [assumption|]. intros E0. split; [assumption|].
    intros (_ & Hst & Hreg). rewrite Hst in Eskip. apply orb_true_iff in Eskip as [|Eskip]; [discriminate|].
    apply negb_true_iff, Z.eqb_neq in Eskip. congruence. }
  apply orb_false_iff in Eskip as [Hst Hreg]. apply negb_false_iff, Z.eqb_eq in Hreg.
  destruct (pq_test g (Z.of_nat n)) eqn:Hpq.
  - destruct (push_ok g (Z.of_nat n) Hs Hnode Hst Hreg) as (g1 & -> & Hs1 & Hm1 & Esl & Esc). cbn [obind].
    assert (Hc1 : cert g1 opt) by (apply (cert_push g g1 (Z.of_nat n)); auto; left; now apply pq_test_trivially).
    assert (Ecount : count g1 = count g) by apply Hm1.
    destruct (IH g1 (Round (best_optimistic_node s) (lowest_q_total s) true) opt Hs1 Hc1 ltac:(lia)) as (g' & s' & E & Hr).
    exists g', s'. split; [exact E|]. destruct Hr as [H1 H2 H3 H4 H5 H6]. constructor; auto.
    + eapply moved_trans; eassumption.
    + lia.
    + intros _. right. lia.
    + intros Hp. destruct (H6 Hp) as (_ & Hbad & _). discriminate.
  - pose proof (q_total_bound g (so_graph g Hs) _ Hnode Hst) as Hq.
    destruct (Z.ltb_spec (q_total (node_at g (Z.of_nat n))) (lowest_q_total s)) as [Hlt|Hge].
    + destruct (IH g (Round (Z.of_nat n) (q_total (node_at g (Z.of_nat n))) (progress s)) opt Hs Hc ltac:(lia)) as (g' & s' & E & Hr).
      exists g', s'. split; [exact E|]. apply (pass_skip n g s (Round (Z.of_nat n) (q_total (node_at g (Z.of_nat n))) (progress s))); auto.
      intros _. split; [now right|]. cbn. pose proof (go_count g (so_graph g Hs)). unfold UINT_MAX. intros; lia.
    + destruct (IH g s opt Hs Hc ltac:(lia)) as (g' & s' & E & Hr). exists g', s'. split; [exact E|].
      apply (pass_skip n g s s); auto. intros Hcand. split; [assumption|]. intros E0. exfalso.
      destruct Hcand as [[_ El]|[Hb _]]; [lia|]. pose proof (go_count g (so_graph g Hs)). unfold is_node, UINT_MAX in *. lia.
Qed.

(** ** The whole simplification *)

Lemma cert_weaken g opt opt' : cert g opt -> opt' <= opt -> cert g opt'.
Proof. intros Hc Hle l1 n l2 E Hlt. apply (Hc l1 n l2 E). lia. Qed.

(** What [ra_simplify] leaves to [ra_select]. *)
Record simplified (g g' : ra_graph) : Prop := {
  sm_ok : simp_ok g';
  sm_moved : moved g g';
  sm_cert : cert g' (stack_optimistic_start g');
  sm_all : forall n, is_node g n -> stacked g' n = true \/ reg (node_at g' n) <> NO_REG
}.

Lemma simplify_loop_ok fuel : forall g opt,
  simp_ok g -> cert g opt -> opt = UINT_MAX \/ opt <= stack_count g -> count g - stack_count g < Z.of_nat fuel ->
  exists g', simplify_loop fuel g opt = Ret g' /\ simplified g g'.
Proof.
  induction fuel as [|fuel IH]; intros g opt Hs Hc Hopt Hf; [pose proof (so_count g Hs); lia|].
  cbn [simplify_loop]. pose proof (go_count g (so_graph g Hs)) as Hcnt.
  destruct (simplify_pass_ok (Z.to_nat (count g)) g (Round UINT_MAX UINT_MAX false) opt Hs Hc ltac:(lia))
    as (g1 & s1 & -> & [Hs1 Hc1 Hm1 Hmono Hprog Hstuck]). cbn [obind].
  assert (Ecount : count g1 = count g) by apply Hm1.
  destruct (progress s1) eqn:Ep; cbn [negb andb].
  { destruct (IH g1 opt Hs1 Hc1) as (g' & E & [H1 H2 H3 H4]); [lia | |].
    - destruct (Hprog eq_refl) as [Hbad|]; [discriminate | lia].
    - exists g'. split; [exact E|]. constructor; auto; [now apply (moved_trans g g1)|].
      intros n Hn. apply H4. now apply (moved_node g g1). }
  destruct (Hstuck eq_refl) as (-> & _ & Hcand). destruct (Hcand ltac:(now left)) as [Hc' Hnone].
  destruct (Z.eqb_spec (best_optimistic_node s1) UINT_MAX) as [E|Hne]; cbn [negb].
  - eexists. split; [reflexivity|]. destruct (Hnone E) as [_ Hno]. constructor.
    + destruct Hs as [Hg ? ? ? ?]. constructor; auto. destruct Hg. constructor; assumption.
    + repeat split.
    + exact Hc.
    + intros n Hn. destruct (stacked g n) eqn:Est; [now left|]. right. intros Hreg.
      apply (Hno n); [unfold is_node in Hn; lia|]. now split.
  - destruct Hc' as [[Hbad _]|(Hb & Hst & Hreg)]; [congruence|].
    destruct (push_ok g _ Hs Hb Hst Hreg) as (g2 & -> & Hs2 & Hm2 & Esl & Esc). cbn [obind].
    set (opt' := if opt =? UINT_MAX then stack_count g else opt).
    assert (Hopt' : opt' <= stack_count g) by (unfold opt'; destruct (Z.eqb_spec opt UINT_MAX); [lia | destruct Hopt; [congruence | assumption]]).
    assert (Hc2 : cert g2 opt').
    { apply (cert_push g g2 (best_optimistic_node s1)); auto; [|right; now rewrite stack_list_len].
      apply (cert_weaken g opt); [assumption|]. unfold opt'. destruct (Z.eqb_spec opt UINT_MAX) as [->|]; [|lia].
      pose proof (so_count g Hs). unfold UINT_MAX. lia. }
    assert (Ec2 : count g2 = count g) by apply Hm2.
    destruct (IH g2 opt' Hs2 Hc2) as (g' & E & [H1 H2 H3 H4]); [right; lia | lia |].
    exists g'. split; [exact E|]. constructor; auto; [now apply (moved_trans g g2)|].
    intros n Hn. apply H4. now apply (moved_node g g2).
Qed.

(** [ra_simplify] terminates without failed assertion. *)
Lemma ra_simplify_ok g : ready g -> exists g', ra_simplify g = Ret g' /\ simplified g g'.
Proof.
  intros (Hg & [Hsc Hun] & _). pose proof (go_count g Hg) as Hcnt.
  assert (Esl : stack_list g = []) by (unfold stack_list; now rewrite Hsc).
  apply simplify_loop_ok.
  - constructor; auto; rewrite ?Hsc, ?Esl; [lia | constructor | |].
    + intros n. split; [intros [] | intros [Hn Hst]]. rewrite Hun in Hst by assumption. discriminate.
    + intros n Hn Hst. rewrite Hun in Hst by assumption. discriminate.
  - intros l1 n l2 E. rewrite Esl in E. now destruct l1.
  - now left.
  - rewrite Hsc. lia.
Qed.
