(* ===== verification/RegAllocSelect.v ===== *)
(** * Selection of registers

    [ra_select] gives every node of the stack a register of its class that
    conflicts with no coloured neighbour; it can fail only at a node pushed
    optimistically. *)

From Stdlib Require Import Bool ZArith List Lia.
From S2P Require Import Prelude Arrays RegAlloc RegAllocSet RegAllocGraph RegAllocSimplify.
Import ListNotations.
#[local] Open Scope bool_scope.
#[local] Open Scope Z_scope.
#[local] Open Scope c_scope.

(** ** Counting *)

(** A list whose members are all hit by some of the sets is no longer than
    the sum of the hits. *)
Lemma cover_bound (f : Z -> Z -> bool) (ms : list Z) : forall L,
  (forall r, In r L -> exists m, In m ms /\ f m r = true) ->
  len L <= wsum (fun m => len (filter (f m) L)) ms.
Proof.
  induction ms as [|m ms IH]; intros L Hcov; cbn [wsum fold_right].
  - destruct L as [|r L]; [apply Z.le_refl|]. destruct (Hcov r (or_introl eq_refl)) as (m & [] & _).
  - fold (wsum (fun m => len (filter (f m) L)) ms).
    set (L' := filter (fun r => negb (f m r)) L).
    assert (Hle : len L' <= wsum (fun m => len (filter (f m) L')) ms).
    { apply IH. intros r Hr. apply filter_In in Hr as [Hr Hno]. destruct (Hcov r Hr) as (x & [<-|Hx] & Hfx);
        [rewrite Hfx in Hno; discriminate | eauto]. }
    assert (Hsplit : len L = len (filter (f m) L) + len L').
    { unfold L', len. clear. induction L as [|r L IH]; [reflexivity|]. cbn [filter]. destruct (f m r); cbn [negb length]; lia. }
    assert (Hmono : wsum (fun m => len (filter (f m) L')) ms <= wsum (fun m => len (filter (f m) L)) ms).
    { clear -L'. induction ms as [|x ms IH]; [reflexivity|]. cbn [wsum fold_right].
      assert (len (filter (f x) L') <= len (filter (f x) L)); [|unfold wsum in IH; lia].
      unfold L', len. clear. induction L as [|r L IH]; [reflexivity|]. cbn [filter].
      destruct (f m r); cbn [negb filter]; destruct (f x r); cbn [length]; lia. }
    lia.
Qed.

Lemma wsum_le f g l : (forall x, In x l -> f x <= g x) -> wsum f l <= wsum g l.
Proof.
  induction l as [|x l IH]; intros Hle; [reflexivity|]. cbn [wsum fold_right].
  pose proof (Hle x (or_introl eq_refl)). assert (IH' := IH (fun y Hy => Hle y (or_intror Hy))). unfold wsum in IH'. lia.
Qed.

(** ** Choosing a register for the top of the stack *)

(** [r] suits node [n]: in its class, and no neighbour off the stack has a
    conflicting register. *)
Definition suits (g : ra_graph) (n r : Z) : Prop :=
  is_reg (g_regs g) r /\ in_class (g_regs g) (cls g n) r = true /\
  forall m, In m (adj g n) -> stacked g m = false -> conf (g_regs g) r (reg (node_at g m)) = false.

Lemma any_neighbors_false g n r :
  ra_any_neighbors_conflict g n r = false <->
  forall m, In m (adj g n) -> stacked g m = false -> conf (g_regs g) r (reg (node_at g m)) = false.
Proof.
  unfold ra_any_neighbors_conflict. split.
  - intros E m Hm Hst. destruct (conf _ _ _) eqn:Ec; [|reflexivity].
    assert (Hx : existsb (fun n2 => negb (stacked g n2) && BITSET_TEST (conflicts (reg_at (g_regs g) r)) (reg (node_at g n2))) (adj g n) = true).
    { apply existsb_exists. exists m. split; [assumption|]. rewrite Hst. exact Ec. }
    congruence.
  - intros Hall. apply not_true_is_false. intros Hx. apply existsb_exists in Hx as (m & Hm & Hc).
    apply andb_true_iff in Hc as [Hst Hc]. apply negb_true_iff in Hst. specialize (Hall m Hm Hst). unfold conf in Hall. congruence.
Qed.

Lemma find_reg_spec fuel g n start : forall ri,
  0 < regs_count (g_regs g) < 2 ^ 31 -> 0 <= start <= regs_count (g_regs g) ->
  0 <= ri -> ri + Z.of_nat fuel = regs_count (g_regs g) ->
  match find_reg fuel g n (class_at (g_regs g) (cls g n)) start ri with
  | Some r => suits g n r
  | None => forall k, ri <= k < regs_count (g_regs g) -> ~ suits g n ((start + k) mod regs_count (g_regs g))
  end.
Proof.
  induction fuel as [|fuel IH]; intros ri Hc Hs Hri Hf; cbn [find_reg]; [lia|].
  rewrite wrap_small by lia. set (r := (start + ri) mod regs_count (g_regs g)).
  assert (Hr : is_reg (g_regs g) r) by (apply Z.mod_pos_bound; lia).
  destruct (reg_belongs_to_class r _ && _) eqn:E.
  - apply andb_true_iff in E as [E1 E2]. apply negb_true_iff in E2. split; [assumption|]. split; [assumption|].
    now apply any_neighbors_false.
  - specialize (IH (ri + 1) Hc Hs ltac:(lia) ltac:(lia)). destruct (find_reg _ _ _ _ _ _); [assumption|].
    intros k Hk. destruct (Z.eq_dec k ri) as [->|]; [|apply IH; lia]. fold r. intros (_ & H1 & H2).
    unfold in_class in H1. rewrite H1 in E. apply any_neighbors_false in H2. rewrite H2 in E. discriminate.
Qed.

(** The rotated search sees every register. *)
Lemma rotation n start r : 0 < n -> 0 <= start <= n -> 0 <= r < n -> exists k, 0 <= k < n /\ (start + k) mod n = r.
Proof.
  intros Hn Hs Hr. exists ((r - start) mod n). split; [now apply Z.mod_pos_bound|].
  rewrite Zplus_mod_idemp_r. replace (start + (r - start)) with r by lia. now apply Z.mod_small.
Qed.

Lemma andnot_words_spec n dst src :
  bitset_ok dst n -> bitset_ok src n ->
  bitset_ok (andnot_words n dst src) n /\
  forall b, 0 <= b < n -> BITSET_TEST (andnot_words n dst src) b = BITSET_TEST dst b && negb (BITSET_TEST src b).
Proof.
  intros Hd Hs. apply (fold_words (fun a b => Z.land a (u32 (Z.lnot b))) (fun x y => x && negb y)); auto.
  - intros a b Ha _. now apply word_ok_land.
  - intros a b k Hk. rewrite Z.land_spec. unfold wrap. rewrite Z.mod_pow2_bits_low, Z.lnot_spec by lia. reflexivity.
Qed.

(** Removing registers sets no bit, not even in the padding. *)
Lemma andnot_words_sub n dst src b :
  bitset_ok dst n -> 0 <= b -> BITSET_TEST (andnot_words n dst src) b = true -> BITSET_TEST dst b = true.
Proof.
  intros (Hn & _ & Hl) Hb. rewrite !BITSET_TEST_bit. unfold andnot_words. pose proof (len_nonneg dst).
  destruct (fold_upd 0 (fun i w => Z.land w (u32 (Z.lnot (get 0 src i)))) (BITSET_WORDS n) dst ltac:(lia)) as [_ Hget].
  rewrite Hget by (apply Z.div_pos; lia). destruct (_ <? _); [|auto].
  rewrite Z.land_spec. now intros E%andb_true_iff.
Qed.

(** What [ra_select] asks of a driver's callback: it returns one of the
    registers it is offered. *)
Definition callback_ok (call : Z -> ra_graph -> list Z -> Z -> Z) : Prop :=
  forall f g words data,
    (exists r, is_reg (g_regs g) r /\ BITSET_TEST words r = true) ->
    is_reg (g_regs g) (call f g words data) /\ BITSET_TEST words (call f g words data) = true.

Section Available.
Context (g : ra_graph) (n : Z) (Hfin : finalized (g_regs g)) (Hcls : is_class (g_regs g) (cls g n)).
Context (Hregs : forall m, In m (adj g n) -> stacked g m = false -> is_reg (g_regs g) (reg (node_at g m))).

Definition strike (words : list Z) (n2 : Z) : list Z :=
  let r := reg (node_at g n2) in
  if negb (stacked g n2)
  then andnot_words (regs_count (g_regs g)) words (conflicts (reg_at (g_regs g) r)) else words.

Lemma strike_all ms : forall words,
  (forall m, In m ms -> In m (adj g n)) -> bitset_ok words (regs_count (g_regs g)) ->
  let words' := fold_left strike ms words in
  bitset_ok words' (regs_count (g_regs g)) /\
  (forall b, 0 <= b -> BITSET_TEST words' b = true -> BITSET_TEST words b = true) /\
  (forall r, is_reg (g_regs g) r -> BITSET_TEST words' r = true <->
     BITSET_TEST words r = true /\ forall m, In m ms -> stacked g m = false -> conf (g_regs g) (reg (node_at g m)) r = false).
Proof.
  induction ms as [|m ms IH]; intros words Hms Hw; cbn [fold_left].
  { cbv zeta. split; [assumption|]. split; [auto|]. intros r Hr. split; [intros E; split; [assumption | intros m []] | tauto]. }
  assert (Hm : In m (adj g n)) by (apply Hms; now left).
  assert (H1 : bitset_ok (strike words m) (regs_count (g_regs g)) /\
    (forall b, 0 <= b -> BITSET_TEST (strike words m) b = true -> BITSET_TEST words b = true) /\
    (forall r, is_reg (g_regs g) r -> BITSET_TEST (strike words m) r =
       BITSET_TEST words r && (stacked g m || negb (conf (g_regs g) (reg (node_at g m)) r)))).
  { unfold strike. cbv zeta. destruct (stacked g m) eqn:Est; cbn [negb orb].
    { split; [assumption|]. split; [auto|]. intros r _. now rewrite andb_true_r. }
    pose proof (ro_fit _ (fin_ok _ Hfin) _ (Hregs m Hm Est)) as Hc.
    destruct (andnot_words_spec _ _ _ Hw Hc) as [Ha Hb]. split; [assumption|].
    split; [intros b; now apply andnot_words_sub | exact Hb]. }
  destruct H1 as (Hw1 & Hsub1 & Ht1).
  destruct (IH (strike words m) (fun x Hx => Hms x (or_intror Hx)) Hw1) as (Hw' & Hsub' & Ht').
  split; [assumption|]. split; [intros b Hb E; apply Hsub1; auto|]. intros r Hr. rewrite (Ht' r Hr), (Ht1 r Hr), andb_true_iff.
  split.
  - intros [[E1 E2] Hall]. split; [assumption|]. intros x [<-|Hx] Hst; [|now apply Hall].
    rewrite Hst in E2. now apply negb_true_iff in E2.
  - intros [E Hall]. split; [|intros x Hx; apply Hall; now right]. split; [assumption|].
    destruct (stacked g m) eqn:Est; [reflexivity|]. cbn. now rewrite (Hall m (or_introl eq_refl) Est).
Qed.

Lemma conf_sym_nbr r m : is_reg (g_regs g) r -> In m (adj g n) -> stacked g m = false ->
  conf (g_regs g) (reg (node_at g m)) r = conf (g_regs g) r (reg (node_at g m)).
Proof. intros Hr Hm Hst. apply (ro_sym _ (fin_ok _ Hfin)); auto. Qed.

Lemma available_spec :
  (forall r, is_reg (g_regs g) r -> BITSET_TEST (snd (ra_compute_available_regs g n)) r = true <-> suits g n r) /\
  (fst (ra_compute_available_regs g n) = true <-> exists r, suits g n r).
Proof.
  unfold ra_compute_available_regs. cbn [fst snd]. set (w0 := class_regs _).
  destruct (strike_all (adj g n) w0 ltac:(auto) (ro_class_fit _ (fin_ok _ Hfin) _ Hcls)) as (Hw & Hsub & Ht).
  change (fold_left _ _ w0) with (fold_left strike (adj g n) w0).
  set (words := fold_left strike (adj g n) w0) in *.
  assert (Hsuits : forall r, is_reg (g_regs g) r -> BITSET_TEST words r = true <-> suits g n r).
  { intros r Hr. rewrite (Ht r Hr). unfold suits. split.
    - intros [Hc Hall]. split; [assumption|]. split; [exact Hc|]. intros m Hm Hst. rewrite <- conf_sym_nbr by assumption. auto.
    - intros (_ & Hc & Hall). split; [exact Hc|]. intros m Hm Hst. rewrite conf_sym_nbr by assumption. auto. }
  split; [exact Hsuits|]. rewrite existsb_exists. split.
  - intros (i & Hi & Hnz). apply in_indices in Hi. apply negb_true_iff, Z.eqb_neq in Hnz.
    destruct (word_nonzero _ (get_word_ok words i (proj1 (proj2 Hw))) Hnz) as (j & Hj & Hbit). change (0 + Z.of_nat 32) with 32 in Hj.
    assert (Hb : BITSET_TEST words (i * 32 + j) = true).
    { rewrite BITSET_TEST_bit. replace ((i * 32 + j) / 32) with i by (rewrite Z.add_comm, Z_div_plus, Z.div_small; lia).
      replace ((i * 32 + j) mod 32) with j by (rewrite Z.add_comm, Z_mod_plus, Z.mod_small; lia). exact Hbit. }
    exists (i * 32 + j). apply Hsuits; [|assumption]. split; [lia|].
    destruct (Z_lt_ge_dec (i * 32 + j) (regs_count (g_regs g))) as [|Hge]; [assumption|].
    apply Hsub in Hb; [|lia]. pose proof (ro_pad _ (fin_ok _ Hfin) _ (i * 32 + j) Hcls ltac:(lia)) as Hpad.
    unfold in_class, reg_belongs_to_class in Hpad. unfold w0 in Hb. congruence.
  - intros (r & Hs). pose proof Hs as (Hr & _). apply Hsuits in Hs; [|assumption].
    exists (r / 32). split.
    + apply in_indices. pose proof (bitset_ok_fit words _ r Hw Hr). destruct Hw as (_ & _ & <-). assumption.
    + apply negb_true_iff, Z.eqb_neq. intros Hz. rewrite BITSET_TEST_bit, Hz, Z.bits_0 in Hs. discriminate.
Qed.

(** The register [ra_select] picks, from the callback or its own search. *)
Definition pick (call : Z -> ra_graph -> list Z -> Z -> Z) (start : Z) : option Z :=
  if negb (select_reg_callback g =? 0) then
    let (ok, select_regs) := ra_compute_available_regs g n in
    if ok then Some (call (select_reg_callback g) g select_regs (select_reg_callback_data g)) else None
  else find_reg (Z.to_nat (regs_count (g_regs g))) g n (class_at (g_regs g) (cls g n)) start 0.

Lemma pick_spec call start :
  (select_reg_callback g <> 0 -> callback_ok call) -> 0 <= start <= regs_count (g_regs g) ->
  match pick call start with
  | Some r => suits g n r
  | None => forall r, ~ suits g n r
  end.
Proof.
  intros Hcall Hs. unfold pick. destruct (Z.eqb_spec (select_reg_callback g) 0) as [E|Hne]; cbn [negb].
  - pose proof (ro_count _ (fin_ok _ Hfin)) as Hcnt.
    destruct (Z.eq_dec (regs_count (g_regs g)) 0) as [E0|].
    { rewrite E0. cbn. intros r ([H1 H2] & _). lia. }
    pose proof (find_reg_spec (Z.to_nat (regs_count (g_regs g))) g n start 0 ltac:(lia) Hs ltac:(lia) ltac:(lia)) as Hf.
    destruct (find_reg _ _ _ _ _ _); [assumption|]. intros r Hr.
    destruct (rotation (regs_count (g_regs g)) start r) as (k & Hk & Ek); [lia | assumption | apply Hr |].
    apply (Hf k Hk). now rewrite Ek.
  - destruct available_spec as [Hw Hok]. destruct (ra_compute_available_regs g n) as [ok words]. cbn [fst snd] in *.
    destruct ok.
    + destruct (proj1 Hok eq_refl) as (r & Hr). destruct (Hcall Hne (select_reg_callback g) g words (select_reg_callback_data g)) as [H1 H2].
      * exists r. split; [apply Hr | apply Hw; [apply Hr | assumption]].
      * now apply Hw.
    + intros r Hr. assert (false = true) by (apply Hok; eauto). discriminate.
Qed.

(** A node that passes the pq test against its coloured neighbours, each in a
    register of its class, can be coloured. *)
Lemma pq_colourable :
  (forall m, In m (adj g n) -> is_class (g_regs g) (cls g m)) ->
  (forall m, In m (adj g n) -> stacked g m = false -> in_class (g_regs g) (cls g m) (reg (node_at g m)) = true) ->
  pressure g n < p (class_at (g_regs g) (cls g n)) -> exists r, suits g n r.
Proof.
  intros Hac Hin Hpq. destruct (in_dec Bool.bool_dec true (map (fun r => in_class (g_regs g) (cls g n) r && negb (ra_any_neighbors_conflict g n r))
    (indices (regs_count (g_regs g))))) as [Hyes|Hno].
  { apply in_map_iff in Hyes as (r & E & Hr). apply andb_true_iff in E as [E1 E2]. apply negb_true_iff in E2.
    exists r. split; [now apply in_indices|]. split; [assumption|]. now apply any_neighbors_false. }
  exfalso. set (L := regs_with (g_regs g) (in_class (g_regs g) (cls g n))). set (ms := filter (fun m => negb (stacked g m)) (adj g n)).
  assert (Hcov : forall r, In r L -> exists m, In m ms /\ conf (g_regs g) (reg (node_at g m)) r = true).
  { intros r Hr. apply filter_In in Hr as [Hr Hc]. destruct (ra_any_neighbors_conflict g n r) eqn:E.
    - apply existsb_exists in E as (m & Hm & E). apply andb_true_iff in E as [Est Ec]. exists m. split; [now apply filter_In|].
      rewrite conf_sym_nbr; [exact Ec | now apply in_indices | assumption | now apply negb_true_iff].
    - exfalso. apply Hno. apply in_map_iff. exists r. split; [now rewrite Hc, E | assumption]. }
  pose proof (cover_bound _ _ _ Hcov) as Hb. rewrite (ro_p _ (fin_ok _ Hfin) _ Hcls) in Hpq. fold L in Hpq.
  assert (Hle : wsum (fun m => len (filter (conf (g_regs g) (reg (node_at g m))) L)) ms <= pressure g n).
  { apply wsum_le. intros m Hm. apply filter_In in Hm as [Hm Est]. apply negb_true_iff in Est.
    etransitivity; [|apply (fin_q _ Hfin _ _ (reg (node_at g m)) Hcls (Hac m Hm)); auto].
    apply Z.eq_le_incl. unfold blocked, L, regs_with. f_equal. clear.
    induction (indices (regs_count (g_regs g))) as [|r l IH]; [reflexivity|]. cbn [filter].
    destruct (in_class (g_regs g) (cls g n) r); cbn [filter]; destruct (conf _ _ r); cbn [andb]; rewrite ?IH; reflexivity. }
  apply (Z.lt_irrefl (len L)). eapply Z.le_lt_trans; [exact Hb|]. eapply Z.le_lt_trans; [exact Hle | exact Hpq].
Qed.

End Available.

(** ** The selection loop *)

Section Loop.
Context (call : Z -> ra_graph -> list Z -> Z -> Z).

(** The graph after simplification. *)
Context (g0 : ra_graph) (Hs0 : simp_ok g0).
Context (Hcall : select_reg_callback g0 <> 0 -> callback_ok call).

(** The node was coloured by the client. *)
Definition forced (n : Z) : Prop := reg (node_at g0 n) <> NO_REG.

Record sel_inv (g : ra_graph) : Prop := {
  si_shape : same_shape g0 g;
  si_stack : stack g = stack g0;
  si_opt : stack_optimistic_start g = stack_optimistic_start g0;
  si_callback : select_reg_callback g = select_reg_callback g0;
  si_count : 0 <= stack_count g <= stack_count g0;
  si_stacked : forall n, is_node g0 n -> stacked g n = true <-> In n (stack_list g);
  si_reg : forall n, is_node g0 n -> stacked g n = false -> is_reg (g_regs g0) (reg (node_at g n));
  si_class : forall n, is_node g0 n -> stacked g n = false -> ~ forced n ->
    in_class (g_regs g0) (cls g0 n) (reg (node_at g n)) = true;
  si_forced : forall n, is_node g0 n -> forced n -> reg (node_at g n) = reg (node_at g0 n);
  si_conf : forall n m, edge g0 n m -> stacked g n = false -> stacked g m = false -> ~ (forced n /\ forced m) ->
    conf (g_regs g0) (reg (node_at g n)) (reg (node_at g m)) = false
}.

(** The top of the stack, off the stack. *)
Definition popped (g : ra_graph) (n : Z) : ra_graph := upd_node n (fun x => x <| in_stack := false |>) g.

Lemma stack_list_top g : sel_inv g -> stack_count g <> 0 ->
  let n := get 0 (stack g) (u32 (stack_count g - 1)) in
  stack_list g = firstn (Z.to_nat (stack_count g - 1)) (stack g0) ++ [n] /\ is_node g0 n /\
  exists l2, stack_list g0 = firstn (Z.to_nat (stack_count g - 1)) (stack g0) ++ n :: l2.
Proof.
  intros Hi Hne n. pose proof (si_count g Hi) as Hc. pose proof (so_count g0 Hs0) as Hc0.
  pose proof (go_stack g0 (so_graph g0 Hs0)) as Hl. pose proof (go_count g0 (so_graph g0 Hs0)).
  assert (En : n = get 0 (stack g0) (stack_count g - 1)).
  { unfold n. rewrite wrap_small by lia. now rewrite (si_stack g Hi). }
  assert (Etop : stack_list g = firstn (Z.to_nat (stack_count g - 1)) (stack g0) ++ [n]).
  { unfold stack_list. rewrite (si_stack g Hi), En. rewrite <- firstn_succ by lia. f_equal. lia. }
  assert (Esplit : exists l2, stack_list g0 = stack_list g ++ l2).
  { unfold stack_list. rewrite (si_stack g Hi).
    exists (firstn (Z.to_nat (stack_count g0 - stack_count g)) (skipn (Z.to_nat (stack_count g)) (stack g0))).
    rewrite <- (firstn_skipn (Z.to_nat (stack_count g)) (firstn (Z.to_nat (stack_count g0)) (stack g0))) at 1.
    rewrite firstn_firstn, Nat.min_l by lia. f_equal. rewrite skipn_firstn_comm. f_equal. lia. }
  destruct Esplit as (l2 & E2). rewrite Etop, <- app_assoc in E2. cbn in E2.
  split; [exact Etop|]. split; [|eauto].
  assert (Hin : In n (stack_list g0)) by (rewrite E2; apply in_app_iff; cbn; auto). now apply (so_in g0 Hs0) in Hin.
Qed.

Section Step.
Context (g : ra_graph) (Hi : sel_inv g) (Hne : stack_count g <> 0).
Let n := get 0 (stack g) (u32 (stack_count g - 1)).
Let g1 := popped g n.

Lemma n_node : is_node g0 n.
Proof. now destruct (stack_list_top g Hi Hne) as (_ & Hn & _). Qed.

Lemma nodes_len : len (nodes g) = count g.
Proof. destruct (si_shape g Hi) as (_ & Ec & El & _). rewrite El, Ec. apply (go_nodes g0 (so_graph g0 Hs0)). Qed.

Lemma is_node_g m : is_node g m <-> is_node g0 m.
Proof. destruct (si_shape g Hi) as (_ & Ec & _). unfold is_node. now rewrite Ec. Qed.

Lemma popped_at m : is_node g0 m -> node_at g1 m = if m =? n then (node_at g m) <| in_stack := false |> else node_at g m.
Proof.
  intros Hm. exact (node_at_upd g n (fun x => x <| in_stack := false |>) m nodes_len (proj2 (is_node_g n) n_node) (proj1 Hm)).
Qed.

Lemma popped_shape : same_shape g0 g1.
Proof.
  destruct (si_shape g Hi) as (Er & Ec & El & Es & Hs).
  split; [exact Er|]. split; [exact Ec|]. split; [unfold g1, popped, upd_node; cbn; now rewrite len_upd|].
  split; [exact Es|]. intros m Hm. rewrite popped_at by assumption. destruct (m =? n); now apply Hs.
Qed.

Lemma popped_adj m : is_node g0 m -> adj g1 m = adj g0 m /\ cls g1 m = cls g0 m.
Proof. intros Hm. destruct popped_shape as (_ & _ & _ & _ & Hs). destruct (Hs m Hm) as (_ & ? & ?). auto. Qed.

(** The nodes still on the stack are those below [n]. *)
Lemma popped_stacked m : is_node g0 m ->
  stacked g1 m = existsb (Z.eqb m) (firstn (Z.to_nat (stack_count g - 1)) (stack g0)).
Proof.
  intros Hm. destruct (stack_list_top g Hi Hne) as (Etop & _ & l2 & E2). fold n in Etop, E2.
  pose proof (so_nodup g0 Hs0) as Hnd. rewrite E2 in Hnd. apply NoDup_remove_2 in Hnd.
  apply eq_true_iff_eq. rewrite existsb_In, popped_at by assumption.
  pose proof (si_stacked g Hi m Hm) as Hst. rewrite Etop, in_app_iff in Hst. cbn [In] in Hst.
  destruct (Z.eqb_spec m n) as [->|Hmn].
  - cbn. split; [discriminate|]. intros Hin. exfalso. apply Hnd, in_app_iff. now left.
  - rewrite Hst. split; [intros [|[E|[]]]; congruence | auto].
Qed.

Lemma popped_other m : is_node g0 m -> m <> n -> stacked g1 m = stacked g m /\ reg (node_at g1 m) = reg (node_at g m).
Proof. intros Hm Hmn. rewrite popped_at by assumption. apply Z.eqb_neq in Hmn. now rewrite Hmn. Qed.

Lemma n_uncoloured : ~ forced n.
Proof.
  destruct (stack_list_top g Hi Hne) as (_ & Hn & l2 & E2). fold n in Hn, E2. intros Hf. apply Hf.
  apply (so_reg g0 Hs0 n Hn). apply (so_in g0 Hs0). rewrite E2. apply in_app_iff. cbn. auto.
Qed.

Lemma adj_not_n m : In m (adj g1 n) -> is_node g0 m /\ m <> n /\ In m (adj g0 n).
Proof.
  pose proof n_node as Hn. destruct (popped_adj n Hn) as [-> _]. intros Hm. pose proof (so_graph g0 Hs0) as Hg.
  split; [now apply (adj_node g0 Hg n)|]. split; [|assumption]. intros ->. now apply (go_irrefl g0 Hg n Hn).
Qed.

Lemma nbr_reg m : In m (adj g1 n) -> stacked g1 m = false -> is_reg (g_regs g1) (reg (node_at g1 m)).
Proof.
  intros Hm Hst. destruct (adj_not_n m Hm) as (Hmn & Hne' & _). destruct (popped_other m Hmn Hne') as [Es Er].
  rewrite Er. destruct popped_shape as (-> & _). apply (si_reg g Hi m Hmn). congruence.
Qed.

(** A suitable register for the top of the stack continues the colouring. *)
Lemma coloured_inv r :
  suits g1 n r ->
  sel_inv ((upd_node n (fun x => x <| reg := r |>) g1) <| stack_count := u32 (stack_count (upd_node n (fun x => x <| reg := r |>) g1) - 1) |>).
Proof.
  intros (Hr & Hc & Hconf). set (g2 := _ <| stack_count := _ |>). pose proof n_node as Hn.
  pose proof (si_count g Hi) as Hcnt. pose proof (so_count g0 Hs0) as Hc0. pose proof (go_count g0 (so_graph g0 Hs0)).
  destruct (stack_list_top g Hi Hne) as (Etop & _ & l2 & E2). fold n in Etop, E2.
  destruct popped_shape as (Er & Ec & El & Es & Hs). rewrite Er in *. destruct (popped_adj n Hn) as [Ean Ecn].
  assert (Esc : stack_count g2 = stack_count g - 1) by (apply wrap_small; lia).
  assert (Esl : stack_list g2 = firstn (Z.to_nat (stack_count g - 1)) (stack g0)).
  { unfold stack_list. rewrite Esc. change (stack g2) with (stack g). now rewrite (si_stack g Hi). }
  assert (Hat : forall m, is_node g0 m -> node_at g2 m = if m =? n then (node_at g1 m) <| reg := r |> else node_at g1 m).
  { intros m Hm. apply (node_at_upd g1 n); [rewrite El, Ec; apply (go_nodes g0 (so_graph g0 Hs0)) | | apply Hm].
    unfold is_node. rewrite Ec. exact Hn. }
  assert (Hst : forall m, is_node g0 m -> stacked g2 m = stacked g1 m) by (intros m Hm; rewrite Hat by assumption; now destruct (m =? n)).
  assert (Hold : forall m, is_node g0 m -> m <> n -> stacked g2 m = stacked g m /\ reg (node_at g2 m) = reg (node_at g m)).
  { intros m Hm Hmn. rewrite Hat by assumption. apply Z.eqb_neq in Hmn as E. rewrite E. now apply popped_other. }
  assert (Hnew : reg (node_at g2 n) = r) by (rewrite Hat, Z.eqb_refl by assumption; reflexivity).
  constructor.
  - split; [exact Er|]. split; [exact Ec|]. split; [unfold g2, upd_node; cbn; rewrite len_upd; exact El|]. split; [exact Es|].
    intros m Hm. rewrite Hat by assumption. destruct (m =? n); now apply Hs.
  - exact (si_stack g Hi).
  - exact (si_opt g Hi).
  - exact (si_callback g Hi).
  - rewrite Esc. lia.
  - intros m Hm. rewrite Hst, popped_stacked, Esl, existsb_In by assumption. tauto.
  - intros m Hm Hms. destruct (Z.eq_dec m n) as [->|Hmn]; [now rewrite Hnew|].
    destruct (Hold m Hm Hmn) as [E1 ->]. apply (si_reg g Hi); [assumption | congruence].
  - intros m Hm Hms Hf. destruct (Z.eq_dec m n) as [->|Hmn]; [rewrite Hnew, <- Ecn; exact Hc|].
    destruct (Hold m Hm Hmn) as [E1 ->]. apply (si_class g Hi); [assumption | congruence | assumption].
  - intros m Hm Hf. destruct (Z.eq_dec m n) as [->|Hmn]; [now apply n_uncoloured in Hf|].
    destruct (Hold m Hm Hmn) as [_ ->]. now apply (si_forced g Hi).
  - assert (Hside : forall m, is_node g0 m -> In m (adj g0 n) -> stacked g2 m = false -> conf (g_regs g0) r (reg (node_at g2 m)) = false).
    { intros m Hm Hin Hms. rewrite <- Ean in Hin. destruct (adj_not_n m Hin) as (_ & Hmn & _).
      rewrite Hst in Hms by assumption. destruct (Hold m Hm Hmn) as [_ ->]. destruct (popped_other m Hm Hmn) as [_ <-]. now apply Hconf. }
    intros a b [Ha Hab] Has Hbs Hf. pose proof (adj_node g0 (so_graph g0 Hs0) a b Ha Hab) as Hb.
    destruct (Z.eq_dec a n) as [->|Han]; [rewrite Hnew; now apply Hside|].
    destruct (Z.eq_dec b n) as [->|Hbn].
    + destruct (go_sym g0 (so_graph g0 Hs0) a n (conj Ha Hab)) as [_ Hback].
      rewrite Hnew, (ro_sym _ (fin_ok _ (go_regs g0 (so_graph g0 Hs0)))); [now apply Hside | | exact Hr].
      destruct (Hold a Ha Han) as [E1 ->]. apply (si_reg g Hi); [assumption | congruence].
    + destruct (Hold a Ha Han) as [E1 ->], (Hold b Hb Hbn) as [E3 ->]. apply (si_conf g Hi); [now split | congruence | congruence | assumption].
Qed.

(** Below the first optimistic node a register is always found. *)
Lemma below_optimistic_suits :
  cert g0 (stack_optimistic_start g0) ->
  (forall m, is_node g0 m -> forced m -> in_class (g_regs g0) (cls g0 m) (reg (node_at g0 m)) = true) ->
  stack_count g - 1 < stack_optimistic_start g0 -> exists r, suits g1 n r.
Proof.
  intros Hcert Hforced Hlow. pose proof n_node as Hn. pose proof (so_graph g0 Hs0) as Hg.
  destruct (stack_list_top g Hi Hne) as (_ & _ & l2 & E2). fold n in E2.
  destruct popped_shape as (Er & _). destruct (popped_adj n Hn) as [Ean Ecn].
  pose proof (si_count g Hi). pose proof (so_count g0 Hs0). pose proof (go_stack g0 Hg) as Hl.
  assert (Ht : trivially g0 (firstn (Z.to_nat (stack_count g - 1)) (stack g0)) n).
  { apply (Hcert _ n l2 E2). unfold len in *. rewrite length_firstn. lia. }
  apply pq_colourable; rewrite ?Er.
  - apply (go_regs g0 Hg).
  - rewrite Ecn. now apply (go_class g0 Hg).
  - intros m Hm Hst. rewrite <- Er. now apply nbr_reg.
  - intros m Hm. destruct (adj_not_n m Hm) as (Hmn & _). destruct (popped_adj m Hmn) as [_ ->]. now apply (go_class g0 Hg).
  - intros m Hm Hst. destruct (adj_not_n m Hm) as (Hmn & Hne' & _). destruct (popped_adj m Hmn) as [_ ->].
    destruct (popped_other m Hmn Hne') as [Es Ereg]. rewrite Ereg.
    destruct (Z.eq_dec (reg (node_at g0 m)) NO_REG) as [E|E].
    + apply (si_class g Hi); [assumption | congruence | intros Hf; now apply Hf].
    + rewrite (si_forced g Hi m Hmn E). now apply Hforced.
  - rewrite Ecn. unfold trivially in Ht. eapply Z.le_lt_trans; [|exact Ht]. apply Z.eq_le_incl.
    apply (q_sum_shape g0 g1 n _ _ Hg popped_shape Hn). intros m Hm. f_equal. apply popped_stacked. now apply (adj_node g0 Hg n).
Qed.

End Step.

(** How [ra_select] ends. *)
Definition selected (ok : bool) (g' : ra_graph) : Prop :=
  if ok then sel_inv g' /\ stack_count g' = 0
  else stack_count g' <= stack_count g0 /\ (cert g0 (stack_optimistic_start g0) ->
    (forall m, is_node g0 m -> forced m -> in_class (g_regs g0) (cls g0 m) (reg (node_at g0 m)) = true) ->
    stack_optimistic_start g0 < stack_count g').

Lemma select_loop_ok fuel : forall g start,
  sel_inv g -> 0 <= start <= regs_count (g_regs g0) -> Z.of_nat fuel = stack_count g ->
  exists ok g', select_loop call fuel g start = Ret (ok, g') /\ selected ok g'.
Proof.
  induction fuel as [|fuel IH]; intros g start Hi Hst Hf; cbn [select_loop].
  { destruct (Z.eqb_spec (stack_count g) 0); [|lia]. exists true, g. split; [reflexivity|]. now split. }
  destruct (Z.eqb_spec (stack_count g) 0) as [|Hne]; [lia|]. cbv zeta.
  set (n := get 0 (stack g) (u32 (stack_count g - 1))). fold (popped g n). set (g1 := popped g n).
  pose proof (n_node g Hi Hne) as Hn. fold n in Hn. pose proof (popped_shape g Hi Hne) as Hsh. fold n g1 in Hsh.
  pose proof (so_graph g0 Hs0) as Hg. pose proof Hsh as (Er & _). destruct (popped_adj g Hi Hne n Hn) as [_ Ecn].
  assert (Ecl : class_at (g_regs g) (cls g n) = class_at (g_regs g1) (cls g1 n)).
  { change (g_regs g1) with (g_regs g). f_equal.
    pose proof (popped_at g Hi Hne n Hn) as Hpn. fold n g1 in Hpn. rewrite Hpn. now destruct (_ =? _). }
  assert (Epick : (if negb (select_reg_callback g1 =? 0) then
      let (ok, select_regs) := ra_compute_available_regs g1 n in
      if ok then Some (call (select_reg_callback g1) g1 select_regs (select_reg_callback_data g1)) else None
    else find_reg (Z.to_nat (regs_count (g_regs g1))) g1 n (class_at (g_regs g) (cls g n)) start 0) = pick g1 n call start)
    by (unfold pick; now rewrite Ecl).
  rewrite Epick.
  pose proof (pick_spec g1 n) as Hp. rewrite Er in Hp. specialize (Hp (go_regs g0 Hg)).
  fold n g1 in Ecn. rewrite Ecn in Hp. specialize (Hp (go_class g0 Hg n Hn)).
  assert (Hr : forall m, In m (adj g1 n) -> stacked g1 m = false -> is_reg (g_regs g0) (reg (node_at g1 m)))
    by (rewrite <- Er; exact (nbr_reg g Hi Hne)).
  specialize (Hp Hr call start). assert (Ecb : select_reg_callback g1 = select_reg_callback g0) by exact (si_callback g Hi).
  rewrite Ecb in Hp. specialize (Hp Hcall Hst).
  destruct (pick g1 n call start) as [r|].
  - pose proof (coloured_inv g Hi Hne r Hp) as Hi2. fold n g1 in Hi2. set (g2 := _ <| stack_count := _ |>) in *.
    apply IH; [exact Hi2| |].
    + destruct Hp as ([Hr0 Hr1] & _). rewrite Er in Hr1. destruct (_ && _); lia.
    + pose proof (si_count g Hi). pose proof (so_count g0 Hs0). pose proof (go_count g0 Hg).
      change (stack_count g2) with (u32 (stack_count g - 1)). rewrite wrap_small by lia. lia.
  - exists false, g1. split; [reflexivity|]. split; [apply (si_count g Hi)|]. intros Hcert Hforced. change (stack_count g1) with (stack_count g).
    destruct (Z_lt_ge_dec (stack_optimistic_start g0) (stack_count g)) as [|Hge]; [assumption|]. exfalso.
    destruct (below_optimistic_suits g Hi Hne Hcert Hforced ltac:(lia)) as (r & Hsuit). now apply (Hp r).
Qed.

Lemma sel_inv_start :
  (forall n, is_node g0 n -> stacked g0 n = true \/ forced n) ->
  (forall n, is_node g0 n -> forced n -> is_reg (g_regs g0) (reg (node_at g0 n))) ->
  sel_inv g0.
Proof.
  intros Hall Hreg. pose proof (so_count g0 Hs0).
  assert (Hf : forall n, is_node g0 n -> stacked g0 n = false -> forced n).
  { intros n Hn Hst. destruct (Hall n Hn); [congruence | assumption]. }
  constructor; try reflexivity.
  - repeat split.
  - lia.
  - intros n Hn. rewrite (so_in g0 Hs0). tauto.
  - intros n Hn Hst. apply Hreg; auto.
  - intros n Hn Hst Hnf. now apply Hf in Hst.
  - intros n m [Hn Hm] Hns Hms Hnf. exfalso. apply Hnf. split; [now apply Hf|].
    apply Hf; [now apply (adj_node g0 (so_graph g0 Hs0) n) | assumption].
Qed.

End Loop.

(** ** The allocation *)

(** What a successful allocation guarantees on every graph: registers exist,
    a node that the client did not force has a register of its class that
    conflicts with no neighbour's, and the forced nodes keep their registers.
    Of the forced registers nothing is checked: they may be outside the class
    of their node, and those of two neighbours may conflict. *)
Record colouring (g : ra_graph) (colour : Z -> Z) : Prop := {
  col_reg : forall n, is_node g n -> is_reg (g_regs g) (colour n);
  col_class : forall n, is_node g n -> reg (node_at g n) = NO_REG -> in_class (g_regs g) (cls g n) (colour n) = true;
  col_forced : forall n, is_node g n -> reg (node_at g n) <> NO_REG -> colour n = reg (node_at g n);
  col_conf : forall n m, edge g n m -> reg (node_at g n) = NO_REG \/ reg (node_at g m) = NO_REG ->
    conf (g_regs g) (colour n) (colour m) = false
}.

(** The registers the client forced belong to the classes of their nodes. *)
Definition forced_in_class (g : ra_graph) : Prop :=
  forall n, is_node g n -> reg (node_at g n) <> NO_REG -> in_class (g_regs g) (cls g n) (reg (node_at g n)) = true.

(** The registers the client forced on neighbours do not conflict. *)
Definition forced_apart (g : ra_graph) : Prop :=
  forall n m, edge g n m -> reg (node_at g n) <> NO_REG -> reg (node_at g m) <> NO_REG ->
    conf (g_regs g) (reg (node_at g n)) (reg (node_at g m)) = false.

(** A colouring in the usual sense: every node has a register of its class, and
    no two neighbours have conflicting ones. *)
Record proper_colouring (g : ra_graph) (colour : Z -> Z) : Prop := {
  prop_class : forall n, is_node g n -> is_reg (g_regs g) (colour n) /\ in_class (g_regs g) (cls g n) (colour n) = true;
  prop_conf : forall n m, edge g n m -> conf (g_regs g) (colour n) (colour m) = false
}.

Lemma colouring_proper g colour : graph_ok g -> colouring g colour -> forced_in_class g -> forced_apart g -> proper_colouring g colour.
Proof.
  intros Hg [Hr Hc Hf Hx] Hin Hap. constructor.
  - intros n Hn. split; [now apply Hr|]. destruct (Z.eq_dec (reg (node_at g n)) NO_REG) as [E|E]; [now apply Hc|].
    rewrite Hf by assumption. now apply Hin.
  - intros n m He. pose proof (proj1 He) as Hn. pose proof (proj1 (go_sym g Hg n m He)) as Hm.
    destruct (Z.eq_dec (reg (node_at g n)) NO_REG) as [E|E]; [now apply Hx; auto|].
    destruct (Z.eq_dec (reg (node_at g m)) NO_REG) as [E'|E']; [now apply Hx; auto|].
    rewrite !Hf by assumption. now apply Hap.
Qed.

Section Allocate.
Context (call : Z -> ra_graph -> list Z -> Z -> Z) (g : ra_graph).
Context (Hready : ready g) (Hcall : select_reg_callback g <> 0 -> callback_ok call).

Lemma ra_allocate_spec :
  exists g1, ra_simplify g = Ret g1 /\ simplified g g1 /\
  exists ok g', ra_allocate call g = Ret (ok, g') /\
    (ok = true -> colouring g (ra_get_node_reg g')) /\
    (ok = false -> forced_in_class g -> stack_optimistic_start g1 < stack_count g' <= count g).
Proof.
  destruct (ra_simplify_ok g Hready) as (g1 & E & Hsim). exists g1. split; [exact E|]. split; [exact Hsim|].
  unfold ra_allocate. rewrite E. cbn [obind].
  destruct Hsim as [Hok Hmoved Hcert Hall]. pose proof Hmoved as ((Er & Ec & El & Es & Hs) & Hreg & Ecb & _).
  assert (Hnode : forall n, is_node g1 n <-> is_node g n) by (intros n; apply (moved_node g g1 n Hmoved)).
  assert (Hforced : forall n, is_node g n -> forced g1 n <-> reg (node_at g n) <> NO_REG)
    by (intros n Hn; unfold forced; now rewrite Hreg).
  assert (Hi : sel_inv g1 g1).
  { apply sel_inv_start; [assumption | |]; intros n Hn; apply Hnode in Hn.
    - destruct (Hall n Hn); auto.
    - intros Hf. apply Hforced in Hf; [|assumption]. rewrite Hreg, Er by assumption.
      destruct Hready as (_ & _ & Hcol). destruct (Hcol n Hn); [congruence | assumption]. }
  pose proof (so_count g1 Hok). pose proof (ro_count _ (fin_ok _ (go_regs g1 (so_graph g1 Hok)))).
  destruct (select_loop_ok call g1 Hok ltac:(rewrite Ecb; exact Hcall) (Z.to_nat (stack_count g1)) g1 0 Hi)
    as (ok & g' & Esel & Hres); try lia.
  exists ok, g'. split; [exact Esel|]. split; intros ->; cbn in Hres.
  - destruct Hres as [[? ? ? ? ? Hst Hr Hc Hf Hcf] Hz].
    assert (Hall' : forall n, is_node g1 n -> stacked g' n = false).
    { intros n Hn. apply not_true_is_false. intros Hbad. apply Hst in Hbad; [|assumption].
      unfold stack_list in Hbad. rewrite Hz in Hbad. destruct Hbad. }
    unfold ra_get_node_reg. constructor; rewrite <- ?Er; intros n Hn.
    + apply Hnode in Hn. now apply Hr, Hall'.
    + intros Hun. destruct (Hs n Hn) as (_ & _ & <-). apply Hc; [now apply Hnode | apply Hall'; now apply Hnode |].
      rewrite Hforced by assumption. tauto.
    + intros Hfo. rewrite Hf; [now apply Hreg | now apply Hnode | now apply Hforced].
    + intros [Hnn Hin] Hun. pose proof (adj_node g (proj1 Hready) n Hn Hnn Hin) as Hm.
      apply Hcf; [split; [now apply Hnode|]; destruct (Hs n Hnn) as (_ & -> & _); assumption | | |].
      * apply Hall'. now apply Hnode.
      * apply Hall'. now apply Hnode.
      * rewrite !Hforced by assumption. tauto.
  - intros Hfc. split; [|rewrite <- Ec; lia]. apply Hres; [exact Hcert|]. intros m Hm Hfo. apply Hnode in Hm. apply Hforced in Hfo; [|assumption].
    rewrite Er, Hreg by assumption. destruct (Hs m Hm) as (_ & _ & ->). now apply Hfc.
Qed.

End Allocate.
