(* ===== verification/RegAllocProps.v ===== *)
(** * Properties of the register allocator

    The theorems of the allocator, each with an example: three registers, of
    which 2 is the pair of 0 and 1, and the classes of the single registers
    and of the pair. *)

From Stdlib Require Import Bool ZArith List Lia SpecFloat.
From S2P Require Import Prelude Arrays RegAlloc RegAllocSet RegAllocGraph RegAllocSimplify.
From S2P Require Import RegAllocSelect.
Import ListNotations.
#[local] Open Scope bool_scope.
#[local] Open Scope Z_scope.
#[local] Open Scope c_scope.

(** ** Example *)

Definition set_a : ra_regs := ra_add_reg_conflict (ra_add_reg_conflict (ra_alloc_reg_set 3 true) 2 0) 2 1.
Definition set_b : ra_regs := ra_class_add_reg (ra_class_add_reg (snd (ra_alloc_reg_class set_a)) 0 0) 0 1.
Definition set_c : ra_regs := ra_class_add_reg (snd (ra_alloc_reg_class set_b)) 1 2.

Ltac in_range := split; vm_compute; congruence.

Lemma set_c_built : star build (ra_alloc_reg_set 3 true) set_c.
Proof.
  eapply star_step; [apply (build_conflict _ 2 0); in_range|].
  eapply star_step; [apply (build_conflict _ 2 1); in_range|].
  eapply star_step; [apply build_class; vm_compute; reflexivity|].
  eapply star_step; [apply (build_class_reg _ 0 0); [in_range | in_range | reflexivity]|].
  eapply star_step; [apply (build_class_reg _ 0 1); [in_range | in_range | reflexivity]|].
  eapply star_step; [apply build_class; vm_compute; reflexivity|].
  eapply star_step; [apply (build_class_reg _ 1 2); [in_range | in_range | reflexivity]|].
  apply star_refl.
Qed.

Definition set_f : ra_regs := match ra_set_finalize set_c None with Ret R => R | _ => set_c end.

Lemma set_f_finalized : finalized set_f.
Proof.
  destruct (built_with_lists 3 set_c ltac:(lia) set_c_built) as [Hok Hl].
  destruct (finalize_spec set_c Hok Hl) as (R' & E & Hfin & _). unfold set_f. now rewrite E.
Qed.

(** Nodes 0 and 1 are single and interfere; node 2 is a pair by itself. *)
Definition graph_a : ra_graph :=
  ra_set_node_class (ra_alloc_interference_graph set_f 3) 2 1.
Definition graph_b : ra_graph := match ra_add_node_interference graph_a 0 1 with Ret g => g | _ => graph_a end.

Lemma graph_b_built : star gbuild (ra_alloc_interference_graph set_f 3) graph_b.
Proof.
  eapply star_step; [apply (gb_class _ 2 1); [in_range | in_range | reflexivity]|].
  eapply star_step; [apply (gb_interference _ 0 1); [in_range | in_range | vm_compute; reflexivity]|].
  apply star_refl.
Qed.

(** ** The register set *)

(** Functional.  For every register set built by the conflict and class
    operations on a set with conflict lists, [ra_set_finalize] computes for
    each pair of classes B, C the number of registers of B that the worst
    choice of a register of C conflicts with, leaves conflicts and classes as
    they are, and yields a set whose conflicts are reflexive and symmetric and
    whose p values count the registers of the classes. *)
Theorem finalize_computes_q cnt R :
  0 <= cnt < 2 ^ 31 -> star build (ra_alloc_reg_set cnt true) R ->
  exists R', ra_set_finalize R None = Ret R' /\ finalized R' /\
    regs_count R' = regs_count R /\ class_count R' = class_count R /\
    (forall b c, is_class R b -> is_class R c -> q_of R' b c = q_spec R b c) /\
    (forall c, is_class R c -> in_class R' c = in_class R c) /\
    (forall a b, is_reg R a -> conf R' a b = conf R a b).
Proof.
  intros Hc Hb. destruct (built_with_lists cnt R Hc Hb) as [Hok Hl]. now apply finalize_spec.
Qed.

Lemma finalize_computes_q_witness :
  q_spec set_c 0 1 = 2 /\
  exists R', ra_set_finalize set_c None = Ret R' /\ finalized R' /\
    regs_count R' = regs_count set_c /\ class_count R' = class_count set_c /\
    (forall b c, is_class set_c b -> is_class set_c c -> q_of R' b c = q_spec set_c b c) /\
    (forall c, is_class set_c c -> in_class R' c = in_class set_c c) /\
    (forall a b, is_reg set_c a -> conf R' a b = conf set_c a b).
Proof. split; [reflexivity|]. apply (finalize_computes_q 3 set_c); [lia | exact set_c_built]. Defined.

(** Functional.  [ra_add_transitive_reg_conflict] gives a register the
    conflicts of the base register and no others, on a set with conflict
    lists, and [ra_make_reg_conflicts_transitive] makes all conflicts of a
    register conflict with each other, on a set without; both keep the
    conflict relation symmetric and the lists in step with it. *)
Theorem transitive_conflicts R base r :
  regs_ok R -> is_reg R base -> is_reg R r ->
  (with_lists R -> exists R', ra_add_transitive_reg_conflict R base r = Ret R' /\ regs_ok R' /\
     forall a b, is_reg R a -> is_reg R b ->
       conf R' a b = conf R a b || ((a =? r) && conf R base b) || ((b =? r) && conf R base a)) /\
  (without_lists R -> regs_ok (ra_make_reg_conflicts_transitive R base) /\
     forall a b, is_reg R a -> is_reg R b ->
       conf (ra_make_reg_conflicts_transitive R base) a b = conf R a b || (conf R base a && conf R base b)).
Proof.
  intros Hok Hb Hr. split.
  - intros Hl. destruct (add_transitive_ok R base r Hok Hb Hr (Hl base Hb)) as (R' & E & Hok' & _ & _ & _ & Hc). eauto.
  - intros Hn. destruct (make_transitive_ok R base Hok Hb Hn) as (Hok' & _ & Hc). auto.
Qed.

Lemma transitive_conflicts_witness :
  exists R', ra_add_transitive_reg_conflict (ra_add_reg_conflict (ra_alloc_reg_set 3 true) 0 1) 0 2 = Ret R' /\
    conf R' 2 1 = true /\ conf R' 2 0 = true.
Proof.
  assert (Hb : star build (ra_alloc_reg_set 3 true) (ra_add_reg_conflict (ra_alloc_reg_set 3 true) 0 1)).
  { eapply star_step; [apply (build_conflict _ 0 1); in_range | apply star_refl]. }
  destruct (built_with_lists 3 _ ltac:(lia) Hb) as [Hok Hl].
  destruct (transitive_conflicts _ 0 2 Hok) as [Hadd _]; [in_range | in_range |].
  destruct (Hadd Hl) as (R' & E & _ & Hc). exists R'. split; [exact E|].
  split; rewrite Hc; reflexivity || in_range.
Defined.

(** Error.  [ra_make_reg_conflicts_transitive] does not update the
    conflict lists: on a set with lists, [ra_set_finalize] then computes a q
    value below the number of registers that really conflict. *)
Theorem make_transitive_leaves_lists_stale :
  let R0 := ra_add_reg_conflict (ra_add_reg_conflict (ra_alloc_reg_set 3 true) 0 1) 0 2 in
  let R1 := ra_make_reg_conflicts_transitive R0 0 in
  let R2 := ra_class_add_reg (ra_class_add_reg (ra_class_add_reg (snd (ra_alloc_reg_class R1)) 0 0) 0 1) 0 2 in
  (let R3 := snd (ra_alloc_reg_class R2) in
   let! R' := ra_set_finalize (ra_class_add_reg R3 1 1) None in
   Ret (q_of R' 0 1, blocked R' 0 1)) = Ret (2, 3).
Proof. vm_compute. reflexivity. Qed.

(** ** Allocation *)

(** C1: functional.  On every interference graph built over a finalised
    register set, [ra_allocate] terminates without a failed assertion.  If it
    returns true, every node has an existing register; a node the client did
    not force has one of its class that conflicts with the register of no
    neighbour, forced or not; and a forced node keeps the register it was
    forced to.  If moreover the forced registers are of the classes of their
    nodes and do not conflict between neighbours, which the code does not
    check, then every node has a register of its class and no two neighbours
    conflict.  A selection callback only has to return one of the registers it
    is offered. *)
Theorem ra_allocate_sound call R cnt g :
  finalized R -> 0 < class_count R -> 0 <= cnt < 2 ^ 31 -> cnt * regs_count R < UINT_MAX ->
  star gbuild (ra_alloc_interference_graph R cnt) g ->
  (select_reg_callback g <> 0 -> callback_ok call) ->
  exists ok g', ra_allocate call g = Ret (ok, g') /\
    (ok = true -> colouring g (ra_get_node_reg g') /\
       (forced_in_class g -> forced_apart g -> proper_colouring g (ra_get_node_reg g'))).
Proof.
  intros Hfin Hcl Hcnt Hsmall Hb Hcall. pose proof (built_ready R cnt g Hfin Hcl Hcnt Hsmall Hb) as Hready.
  destruct (ra_allocate_spec call g Hready Hcall) as (_ & _ & _ & ok & g' & E & Hc & _).
  exists ok, g'. split; [exact E|]. intros Hok. specialize (Hc Hok). split; [exact Hc|]. apply colouring_proper; [apply Hready | exact Hc].
Qed.

(** No node of the example is forced. *)
Lemma graph_b_free n : is_node graph_b n -> reg (node_at graph_b n) = NO_REG.
Proof.
  intros [H1 H2]. change (count graph_b) with 3 in H2.
  assert (Hn : n = 0 \/ n = 1 \/ n = 2) by lia. destruct Hn as [->|[->| ->]]; reflexivity.
Qed.

Lemma graph_b_forced : forced_in_class graph_b /\ forced_apart graph_b.
Proof.
  split; [intros n Hn H | intros n m [Hn _] H _]; exfalso; apply H; now apply graph_b_free.
Qed.

Lemma ra_allocate_sound_witness :
  exists g', ra_allocate (fun _ _ _ _ => 0) graph_b = Ret (true, g') /\ proper_colouring graph_b (ra_get_node_reg g').
Proof.
  destruct (ra_allocate_sound (fun _ _ _ _ => 0) set_f 3 graph_b) as (ok & g' & E & H);
    [exact set_f_finalized | vm_compute; reflexivity | lia | vm_compute; reflexivity | exact graph_b_built | |].
  - intros Hbad. exfalso. apply Hbad. reflexivity.
  - assert (Hok : ok = true).
    { assert (Et : (let! (ok, _) := ra_allocate (fun _ _ _ _ => 0) graph_b in Ret ok) = Ret true) by (vm_compute; reflexivity).
      rewrite E in Et. now injection Et. }
    subst ok. exists g'. split; [exact E|]. destruct graph_b_forced as [H1 H2]. now apply H.
Defined.

(** The two conditions on the forced registers are needed: neighbours that are
    both forced to the register 0 are accepted. *)
Lemma forced_conflict_is_accepted :
  let g := ra_set_node_reg (ra_set_node_reg graph_b 0 0) 1 0 in
  (let! (ok, g') := ra_allocate (fun _ _ _ _ => 0) g in
   Ret (ok, conf (g_regs g') (ra_get_node_reg g' 0) (ra_get_node_reg g' 1))) = Ret (true, true).
Proof. vm_compute. reflexivity. Qed.

(** C15: liveness.  If every node is trivially colourable, that is if
    [ra_simplify] pushes no node optimistically, and the registers the client
    forced belong to the classes of their nodes, then [ra_allocate] returns
    true: the pq test is sound.  In general it can fail only at a node whose
    place on the stack is at or above the first optimistic one. *)
Theorem trivially_colourable_succeeds call R cnt g :
  finalized R -> 0 < class_count R -> 0 <= cnt < 2 ^ 31 -> cnt * regs_count R < UINT_MAX ->
  star gbuild (ra_alloc_interference_graph R cnt) g ->
  (select_reg_callback g <> 0 -> callback_ok call) -> forced_in_class g ->
  exists g1 ok g', ra_simplify g = Ret g1 /\ ra_allocate call g = Ret (ok, g') /\
    (stack_optimistic_start g1 = UINT_MAX -> ok = true) /\
    (ok = false -> stack_optimistic_start g1 < stack_count g').
Proof.
  intros Hfin Hcl Hcnt Hsmall Hb Hcall Hforced. pose proof (built_ready R cnt g Hfin Hcl Hcnt Hsmall Hb) as Hready.
  destruct (ra_allocate_spec call g Hready Hcall) as (g1 & E1 & _ & ok & g' & E & _ & Hfail).
  exists g1, ok, g'. split; [exact E1|]. split; [exact E|].
  destruct Hready as (Hg & _). pose proof (go_count g Hg). split.
  - intros Eo. destruct ok; [reflexivity|]. specialize (Hfail eq_refl Hforced). unfold UINT_MAX in *. lia.
  - intros ->. specialize (Hfail eq_refl Hforced). lia.
Qed.

Lemma trivially_colourable_succeeds_witness :
  exists g1 ok g', ra_simplify graph_b = Ret g1 /\ ra_allocate (fun _ _ _ _ => 0) graph_b = Ret (ok, g') /\
    (stack_optimistic_start g1 = UINT_MAX -> ok = true) /\
    (ok = false -> stack_optimistic_start g1 < stack_count g').
Proof.
  apply (trivially_colourable_succeeds _ set_f 3);
    [exact set_f_finalized | vm_compute; reflexivity | lia | vm_compute; reflexivity | exact graph_b_built | |].
  - intros Hbad. exfalso. apply Hbad. reflexivity.
  - apply graph_b_forced.
Defined.

(** Error.  A node forced to a register outside its class defeats the pq
    test: with node 0 forced to the pair, its class left at the default, and
    node 1 a single register next to it, no node is pushed optimistically and
    the allocation fails. *)
Theorem forced_without_class_fails :
  let g := ra_set_node_reg graph_b 0 2 in
  (let! g1 := ra_simplify g in Ret (stack_optimistic_start g1 =? UINT_MAX)) = Ret true /\
  (let! (ok, _) := ra_allocate (fun _ _ _ _ => 0) g in Ret ok) = Ret false.
Proof. split; vm_compute; reflexivity. Qed.

(** ** Spilling *)

Lemma best_spill_fold g ns : forall b0 f0,
  (b0 = UINT_MAX \/ (In b0 (indices (count g)) /\ SFleb (spill_cost (node_at g b0)) (S754_zero false) = false /\ stacked g b0 = false)) ->
  (forall n, In n ns -> In n (indices (count g))) ->
  let b := fst (fold_left (spill_step g) ns (b0, f0)) in
  b = UINT_MAX \/ (In b (indices (count g)) /\ SFleb (spill_cost (node_at g b)) (S754_zero false) = false /\ stacked g b = false).
Proof.
  induction ns as [|n ns IH]; intros b0 f0 H0 Hns; cbn [fold_left]; [exact H0|].
  assert (Hn : In n (indices (count g))) by (apply Hns; now left).
  assert (Hns' : forall x, In x ns -> In x (indices (count g))) by (intros x Hx; apply Hns; now right).
  destruct (spill_step g (b0, f0) n) as [b1 f1] eqn:E. apply IH; [|exact Hns'].
  unfold spill_step in E. destruct (SFleb (spill_cost (node_at g n)) _) eqn:E1; [congruence|].
  destruct (stacked g n) eqn:E2; [congruence|]. destruct (SFltb _ _); injection E as <- <-; auto.
Qed.

(** Functional.  The node [ra_get_best_spill_node] chooses is a node with
    a positive spill cost that is not on the stack, so one that the failed
    selection coloured or failed to colour; otherwise it returns -1. *)
Theorem best_spill_node_considered g :
  count g < 2 ^ 31 ->
  ra_get_best_spill_node g = -1 \/
  (is_node g (ra_get_best_spill_node g) /\ stacked g (ra_get_best_spill_node g) = false /\
   SFleb (spill_cost (node_at g (ra_get_best_spill_node g))) (S754_zero false) = false).
Proof.
  intros Hc. unfold ra_get_best_spill_node.
  destruct (best_spill_fold g (indices (count g)) UINT_MAX (S754_zero false)) as [E|(Hin & Hcost & Hst)]; auto.
  - left. rewrite E. reflexivity.
  - right. set (b := fst _) in *. apply in_indices in Hin.
    assert (Eb : i32 b = b).
    { unfold swrap. rewrite Z.mod_small by lia. change (2 ^ (32 - 1)) with (2 ^ 31). destruct (Z.ltb_spec b (2 ^ 31)); lia. }
    rewrite Eb. auto.
Qed.

Lemma best_spill_node_considered_witness :
  let g := ra_set_node_spill_cost graph_b 1 (S754_finite false 1 0) in
  ra_get_best_spill_node g = 1 /\
  (ra_get_best_spill_node g = -1 \/
   (is_node g (ra_get_best_spill_node g) /\ stacked g (ra_get_best_spill_node g) = false /\
    SFleb (spill_cost (node_at g (ra_get_best_spill_node g))) (S754_zero false) = false)).
Proof. split; [vm_compute; reflexivity|]. apply best_spill_node_considered. vm_compute. reflexivity. Defined.
