(* ===== verification/Bigmath.v ===== *)
(** * Big unsigned integers as arrays of words: src/util/bigmath.h

    An array of [uint32_t], least significant word first.  The destination is
    distinct from the operands, as in all its uses. *)

From Stdlib Require Import Bool ZArith List Lia.
From S2P Require Import Prelude Arrays.
Import ListNotations.
#[local] Open Scope bool_scope.
#[local] Open Scope Z_scope.

(** The loop of [_ubm_add_u32arr] from word [i], for [n] more words. *)
Fixpoint ubm_add_loop (n : nat) (i : Z) (a b : list Z) (carry : Z) : list Z * Z :=
  match n with
  | O => ([], carry)
  | S n =>
      let sum := carry in
      let sum := if i <? len a then u64 (sum + get 0 a i) else sum in
      let sum := if i <? len b then u64 (sum + get 0 b i) else sum in
      let (dst, c) := ubm_add_loop n (i + 1) a b (u32 (Z.shiftr sum 32)) in
      (u32 sum :: dst, c)
  end.

Definition any_word (i : Z) (a : list Z) : bool := existsb (fun x => negb (x =? 0)) (skipn (Z.to_nat i) a).

(** [dst] and the result, for [dst_len] words. *)
Definition _ubm_add_u32arr (dst_len : Z) (a b : list Z) : list Z * bool :=
  let (dst, carry) := ubm_add_loop (Z.to_nat dst_len) 0 a b 0 in
  (dst, any_word dst_len a || any_word dst_len b || negb (carry =? 0)).

(** The inner loop of [_ubm_mul_u32arr], from the words [b] that are left, [k]
    being [i + j]. *)
Fixpoint ubm_mul_inner (ai : Z) (b : list Z) (k : Z) (dst : list Z) (carry : Z) (overflow : bool) : list Z * Z * bool :=
  match b with
  | [] => (dst, carry, overflow)
  | bj :: b =>
      let tmp := u64 (ai * bj) in
      let tmp := u64 (tmp + carry) in
      if k <? len dst then
        let tmp := u64 (tmp + get 0 dst k) in
        ubm_mul_inner ai b (k + 1) (upd k (fun _ => u32 tmp) dst) (u32 (Z.shiftr tmp 32)) overflow
      else (dst, carry, overflow || (tmp >? 0))
  end.

(** The outer loop, from the words [a] that are left. *)
Fixpoint ubm_mul_outer (a b : list Z) (i : Z) (dst : list Z) (overflow : bool) : list Z * bool :=
  match a with
  | [] => (dst, overflow)
  | ai :: a =>
      let '(dst, carry, overflow) := ubm_mul_inner ai b i dst 0 overflow in
      if i + len b <? len dst
      then ubm_mul_outer a b (i + 1) (upd (i + len b) (fun _ => carry) dst) overflow
      else ubm_mul_outer a b (i + 1) dst (overflow || (carry >? 0))
  end.

Definition _ubm_mul_u32arr (dst_len : Z) (a b : list Z) : list Z * bool :=
  ubm_mul_outer a b 0 (repeat 0 (Z.to_nat dst_len)) false.

(** ** The number an array stands for *)

Fixpoint value (l : list Z) : Z :=
  match l with
  | [] => 0
  | x :: l => x + 2 ^ 32 * value l
  end.

Lemma value_upd i x l : 0 <= i < len l ->
  value (upd i (fun _ => x) l) = value l + (x - get 0 l i) * 2 ^ (32 * i).
Proof.
  intros Hi. unfold upd, get. rewrite <- (Z2Nat.id i) at 3 by lia. assert (Hn : (Z.to_nat i < length l)%nat) by (unfold len in Hi; lia).
  revert Hn. generalize (Z.to_nat i) as n. clear. induction l as [|a l IH]; intros [|n] Hn; cbn [length] in Hn; try lia.
  - cbn [upd_nat value nth]. change (2 ^ (32 * Z.of_nat 0)) with 1. lia.
  - cbn [upd_nat value nth]. rewrite IH by lia.
    replace (32 * Z.of_nat (S n)) with (32 + 32 * Z.of_nat n) by lia. rewrite Z.pow_add_r by lia. ring.
Qed.

Lemma value_range l : Forall word_ok l -> 0 <= value l < 2 ^ (32 * len l).
Proof.
  unfold word_ok, len. induction 1 as [|x l Hx Hl IH]; cbn [value length]; [rewrite Z.mul_0_r; lia|].
  replace (32 * Z.of_nat (S (length l))) with (32 + 32 * Z.of_nat (length l)) by lia. rewrite Z.pow_add_r by lia. nia.
Qed.

Lemma pow_word k : 0 <= k -> 2 ^ (32 * (k + 1)) = 2 ^ 32 * 2 ^ (32 * k).
Proof. intros Hk. rewrite <- Z.pow_add_r by lia. f_equal. lia. Qed.

(** One step of a multiplication fits 64 bits. *)
Lemma word_step a b r c : word_ok a -> word_ok b -> word_ok r -> word_ok c -> 0 <= a * b + r + c < 2 ^ 64.
Proof.
  unfold word_ok. intros Ha Hb Hr Hc. assert (0 <= a * b) by nia.
  assert (a * b <= (2 ^ 32 - 1) * (2 ^ 32 - 1)) by (apply Z.mul_le_mono_nonneg; lia). lia.
Qed.

Lemma high_word t : 0 <= t < 2 ^ 64 -> word_ok (t / 2 ^ 32).
Proof. intros Ht. split; [apply Z.div_pos; lia | apply Z.div_lt_upper_bound; lia]. Qed.

Lemma low_word t : word_ok (t mod 2 ^ 32).
Proof. apply Z.mod_pos_bound. lia. Qed.

(** ** Multiplication *)

(** What a partial product loses when the words [k] and up are dropped. *)
Lemma dropped D k x : D <= k -> 0 <= D -> 0 <= x -> (2 ^ (32 * D) | x * 2 ^ (32 * k)) /\ (x = 0 \/ 2 ^ (32 * D) <= x * 2 ^ (32 * k)).
Proof.
  intros Hk HD Hx. replace (32 * k) with (32 * (k - D) + 32 * D) by lia. rewrite Z.pow_add_r by lia.
  pose proof (Z.pow_pos_nonneg 2 (32 * (k - D)) ltac:(lia) ltac:(lia)). pose proof (Z.pow_pos_nonneg 2 (32 * D) ltac:(lia) ltac:(lia)).
  split; [exists (x * 2 ^ (32 * (k - D))); ring|]. destruct (Z.eq_dec x 0); [auto|].
  assert (1 <= x * 2 ^ (32 * (k - D))) by nia. right. nia.
Qed.

Record inner_ok (D k total n : Z) (dst dst' : list Z) (carry' : Z) (overflow' : bool) : Prop := {
  in_len : len dst' = len dst;
  in_words : Forall word_ok dst';
  in_carry : word_ok carry';
  in_above : forall m, k + n <= m -> get 0 dst' m = get 0 dst m;
  in_cong : let kept := if k + n <? D then carry' * 2 ^ (32 * (k + n)) else 0 in
            (2 ^ (32 * D) | total - (value dst' + kept)) /\ value dst' + kept <= total;
  in_overflow : overflow' || ((D <=? k + n) && (carry' >? 0)) = true -> 2 ^ (32 * D) <= total
}.

Lemma inner_spec ai b k dst carry :
  word_ok ai -> Forall word_ok b -> Forall word_ok dst -> word_ok carry -> 0 <= k ->
  let total := value dst + carry * 2 ^ (32 * k) + ai * value b * 2 ^ (32 * k) in
  exists dst' carry' overflow', ubm_mul_inner ai b k dst carry false = (dst', carry', overflow') /\
    inner_ok (len dst) k total (len b) dst dst' carry' overflow'.
Proof.
  intros Ha Hb. revert k dst carry. induction Hb as [|bj b Hbj Hb IH]; intros k dst carry Hd Hc Hk total; cbn [ubm_mul_inner].
  - do 3 eexists. split; [reflexivity|]. change (len []) with 0.
    assert (Etot : total = value dst + carry * 2 ^ (32 * k)) by (unfold total; cbn [value]; ring). rewrite Etot.
    pose proof (value_range dst Hd). pose proof (dropped (len dst) k carry) as Hdrop. unfold word_ok in Hc.
    assert (0 <= carry * 2 ^ (32 * k)) by (apply Z.mul_nonneg_nonneg; [lia | apply Z.pow_nonneg; lia]).
    pose proof (len_nonneg dst).
    split; auto.
    + rewrite Z.add_0_r. cbv zeta. destruct (Z.ltb_spec k (len dst)).
      * split; [exists 0; ring | lia].
      * destruct Hdrop as [[q Hq] _]; [lia..|]. split; [exists q; rewrite <- Hq; ring | lia].
    + rewrite Z.add_0_r. cbn [orb]. intros E. apply andb_true_iff in E as [E1 E2]. apply Z.leb_le in E1. apply Z.gtb_lt in E2.
      destruct Hdrop as [_ [|]]; lia.
  - assert (El : len (bj :: b) = 1 + len b) by (unfold len; cbn [length]; lia).
    pose proof (word_step ai bj 0 carry Ha Hbj ltac:(split; lia) Hc) as Ht0. rewrite Z.add_0_r in Ht0.
    assert (Hab : 0 <= ai * bj) by (unfold word_ok in *; nia).
    pose proof (value_range b Hb) as Hvb. pose proof (value_range dst Hd) as Hvd. pose proof (len_nonneg b). pose proof (len_nonneg dst).
    assert (Hrest : 0 <= ai * value b) by (unfold word_ok in *; nia).
    assert (Hpk : 0 < 2 ^ (32 * k)) by (apply Z.pow_pos_nonneg; lia).
    unfold word_ok in Hc.
    rewrite (wrap_small 64 (ai * bj)), (wrap_small 64 (ai * bj + carry)) by lia.
    destruct (Z.ltb_spec k (len dst)) as [Hlt|Hge].
    + pose proof (get_word_ok dst k Hd) as Hr. pose proof (word_step ai bj carry (get 0 dst k) Ha Hbj Hc Hr) as Ht.
      set (t := ai * bj + carry + get 0 dst k) in *. rewrite (wrap_small 64 t), Z.shiftr_div_pow2 by lia.
      rewrite (wrap_small 32 (t / 2 ^ 32)) by (apply high_word; lia). unfold wrap.
      destruct (IH (k + 1) (upd k (fun _ => t mod 2 ^ 32) dst) (t / 2 ^ 32)) as (dst' & carry' & ov & E & [L W C A G O]);
        [apply Forall_upd; auto using low_word | apply high_word; lia | lia |].
      do 3 eexists. split; [exact E|]. clear E IH.
      assert (Et : value (upd k (fun _ => t mod 2 ^ 32) dst) + t / 2 ^ 32 * 2 ^ (32 * (k + 1)) + ai * value b * 2 ^ (32 * (k + 1)) = total).
      { rewrite value_upd by lia. unfold total. cbn [value]. rewrite pow_word by lia. pose proof (Z.div_mod t (2 ^ 32) ltac:(lia)).
        replace (t mod 2 ^ 32) with (t - 2 ^ 32 * (t / 2 ^ 32)) by lia. unfold t. ring. }
      rewrite Et, len_upd in *. replace (k + 1 + len b) with (k + len (bj :: b)) in * by lia.
      split; auto. intros m Hm. rewrite A by lia. rewrite get_upd by lia. destruct (Z.eqb_spec m k); [lia | reflexivity].
    + do 3 eexists. split; [reflexivity|].
      assert (Etot : total = value dst + (ai * bj + carry) * 2 ^ (32 * k) + ai * value b * 2 ^ (32 * (k + 1))).
      { unfold total. cbn [value]. rewrite pow_word by lia. ring. }
      destruct (dropped (len dst) k (ai * bj + carry)) as [[q1 Hq1] Hd1]; [lia..|].
      destruct (dropped (len dst) (k + 1) (ai * value b)) as [[q2 Hq2] _]; [lia..|].
      assert (0 <= (ai * bj + carry) * 2 ^ (32 * k)) by nia.
      assert (0 <= ai * value b * 2 ^ (32 * (k + 1))) by (apply Z.mul_nonneg_nonneg; [lia | apply Z.pow_nonneg; lia]).
      split; [reflexivity | assumption | exact Hc | reflexivity | |].
      * cbv zeta. destruct (Z.ltb_spec (k + len (bj :: b)) (len dst)); [lia|].
        split; [exists (q1 + q2); rewrite Etot, Hq1, Hq2; ring | lia].
      * intros E. cbn [orb] in E. rewrite Z.gtb_ltb in E. rewrite Z.gtb_ltb in E.
        destruct (Z.ltb_spec 0 (ai * bj + carry)); [destruct Hd1; lia|]. cbn [orb] in E.
        apply andb_true_iff in E as [_ E]. apply Z.ltb_lt in E. lia.
Qed.

Lemma inner_flag ai b k dst carry overflow :
  ubm_mul_inner ai b k dst carry overflow =
  let '(dst', carry', overflow') := ubm_mul_inner ai b k dst carry false in (dst', carry', overflow || overflow').
Proof.
  revert k dst carry. induction b as [|bj b IH]; intros k dst carry; cbn [ubm_mul_inner]; [now rewrite orb_false_r|].
  destruct (k <? len dst); [apply IH | reflexivity].
Qed.

(** The outer loop, from row [i]: the words not yet reached are zero. *)
Lemma outer_spec a b i dst overflow :
  Forall word_ok a -> Forall word_ok b -> Forall word_ok dst -> 0 <= i ->
  (forall m, i + len b <= m -> get 0 dst m = 0) ->
  let total := value dst + value a * value b * 2 ^ (32 * i) in
  exists dst' overflow', ubm_mul_outer a b i dst overflow = (dst', overflow') /\
    len dst' = len dst /\ Forall word_ok dst' /\
    (2 ^ (32 * len dst) | total - value dst') /\ (overflow' = true -> overflow = true \/ 2 ^ (32 * len dst) <= total).
Proof.
  intros Ha Hb. revert i dst overflow. induction Ha as [|ai a Hai Ha IH]; intros i dst overflow Hd Hi Hz total; cbn [ubm_mul_outer].
  { do 2 eexists. split; [reflexivity|]. unfold total. cbn [value]. do 2 (split; [auto|]). split; [exists 0; ring | auto]. }
  destruct (inner_spec ai b i dst 0 Hai Hb Hd ltac:(split; lia) Hi) as (d1 & c1 & o1 & E1 & [L1 W1 C1 A1 [G1 B1] O1]).
  rewrite inner_flag, E1. clear E1. rewrite L1.
  pose proof (len_nonneg b). pose proof (len_nonneg dst). pose proof (value_range a Ha). pose proof (value_range b Hb).
  assert (Hp1 : 0 <= value a * value b * 2 ^ (32 * (i + 1))) by (repeat apply Z.mul_nonneg_nonneg; try lia; apply Z.pow_nonneg; lia).
  set (t1 := value dst + 0 * 2 ^ (32 * i) + ai * value b * 2 ^ (32 * i)) in *.
  assert (Et : total = t1 + value a * value b * 2 ^ (32 * (i + 1))).
  { unfold total, t1. cbn [value]. rewrite pow_word by lia. ring. }
  set (d2 := if i + len b <? len dst then upd (i + len b) (fun _ => c1) d1 else d1).
  set (o2 := (overflow || o1) || ((len dst <=? i + len b) && (c1 >? 0))).
  assert (Ek : value d2 = value d1 + (if i + len b <? len dst then c1 * 2 ^ (32 * (i + len b)) else 0)).
  { unfold d2. destruct (Z.ltb_spec (i + len b) (len dst)); [|lia].
    rewrite value_upd, A1, Hz by lia. lia. }
  destruct (IH (i + 1) d2 o2) as (d' & o' & E' & L' & W' & G' & O').
  { unfold d2. destruct (_ <? _); [apply Forall_upd; auto | assumption]. }
  { lia. }
  { intros m Hm. unfold d2. destruct (Z.ltb_spec (i + len b) (len dst)).
    - rewrite get_upd by lia. destruct (Z.eqb_spec m (i + len b)); [lia|]. rewrite A1 by lia. apply Hz. lia.
    - rewrite A1 by lia. apply Hz. lia. }
  assert (Ld : len d2 = len dst) by (unfold d2; destruct (_ <? _); rewrite ?len_upd; assumption).
  assert (Eo : (if i + len b <? len dst then ubm_mul_outer a b (i + 1) (upd (i + len b) (fun _ => c1) d1) (overflow || o1)
                else ubm_mul_outer a b (i + 1) d1 (overflow || o1 || (c1 >? 0))) = (d', o')).
  { rewrite <- E'. unfold d2, o2. rewrite Z.leb_antisym. destruct (_ <? _); cbn [negb andb]; rewrite ?orb_false_r; reflexivity. }
  do 2 eexists. split; [exact Eo|]. rewrite Ld in *. do 2 (split; [assumption|]). rewrite <- Ek in *. split.
  - destruct G1 as [q1 Hq1], G' as [q2 Hq2]. exists (q1 + q2). rewrite Et. lia.
  - intros Eo'. destruct (O' Eo') as [Ho2|]; [|right; lia]. unfold o2 in Ho2. rewrite <- orb_assoc in Ho2.
    apply orb_true_iff in Ho2 as [|Ho]; [auto | right]. apply O1 in Ho. lia.
Qed.

Lemma Forall_word_zero n : Forall word_ok (repeat 0 n).
Proof. apply Forall_forall. intros x Hx%repeat_spec. subst x. split; vm_compute; congruence. Qed.

Lemma ubm_mul_spec dst_len a b :
  0 <= dst_len -> Forall word_ok a -> Forall word_ok b ->
  exists dst overflow, _ubm_mul_u32arr dst_len a b = (dst, overflow) /\ len dst = dst_len /\ Forall word_ok dst /\
    value dst = (value a * value b) mod 2 ^ (32 * dst_len) /\
    (overflow = true -> 2 ^ (32 * dst_len) <= value a * value b).
Proof.
  intros Hl Ha Hb. unfold _ubm_mul_u32arr.
  assert (El : len (repeat 0 (Z.to_nat dst_len)) = dst_len) by (unfold len; rewrite repeat_length; lia).
  assert (Ev : value (repeat 0 (Z.to_nat dst_len)) = 0) by (generalize (Z.to_nat dst_len) as n; clear; induction n as [|n IH]; cbn [repeat value]; lia).
  destruct (outer_spec a b 0 (repeat 0 (Z.to_nat dst_len)) false) as (dst & ov & E & L & W & G & O); auto using Forall_word_zero; [lia | |].
  { intros m _. apply nth_repeat. }
  rewrite El, Ev, Z.mul_0_r, Z.mul_1_r, Z.add_0_l in *. exists dst, ov. split; [exact E|]. split; [assumption|]. split; [assumption|]. split.
  - destruct G as [q Hq]. pose proof (value_range dst W) as Hr. rewrite L in Hr.
    replace (value a * value b) with (value dst + q * 2 ^ (32 * dst_len)) by lia. rewrite Z_mod_plus_full. symmetry. now apply Z.mod_small.
  - intros Hov. destruct (O Hov); [discriminate | assumption].
Qed.

(** ** Addition *)

(** The [n] words of [a] from word [i]. *)
Fixpoint window (n : nat) (i : Z) (a : list Z) : Z :=
  match n with
  | O => 0
  | S n => get 0 a i + 2 ^ 32 * window n (i + 1) a
  end.

Lemma skipn_cons i a : 0 <= i -> value (skipn (Z.to_nat i) a) = get 0 a i + 2 ^ 32 * value (skipn (Z.to_nat (i + 1)) a).
Proof.
  intros Hi. unfold get. replace (Z.to_nat (i + 1)) with (S (Z.to_nat i)) by lia. generalize (Z.to_nat i) as n.
  induction a as [|x a IH]; intros [|n]; cbn [skipn value nth]; try lia; [reflexivity | apply IH].
Qed.

Lemma window_skipn n i a : 0 <= i ->
  window n i a + 2 ^ (32 * Z.of_nat n) * value (skipn (Z.to_nat (i + Z.of_nat n)) a) = value (skipn (Z.to_nat i) a).
Proof.
  revert i. induction n as [|n IH]; intros i Hi; cbn [window].
  - change (2 ^ (32 * Z.of_nat 0)) with 1. rewrite Z.add_0_r. lia.
  - rewrite (skipn_cons i a Hi), <- (IH (i + 1)) by lia. replace (i + Z.of_nat (S n)) with (i + 1 + Z.of_nat n) by lia.
    replace (32 * Z.of_nat (S n)) with (32 + 32 * Z.of_nat n) by lia. rewrite Z.pow_add_r by lia. ring.
Qed.

Lemma add_loop_spec n i a b carry : 0 <= i -> Forall word_ok a -> Forall word_ok b -> word_ok carry ->
  let (dst, c) := ubm_add_loop n i a b carry in
  length dst = n /\ Forall word_ok dst /\ 0 <= c /\
  value dst + c * 2 ^ (32 * Z.of_nat n) = carry + window n i a + window n i b.
Proof.
  intros Hi Ha Hb. revert i carry Hi. induction n as [|n IH]; intros i carry Hi Hc; cbn [ubm_add_loop window].
  { unfold word_ok in Hc. cbn [length value]. change (2 ^ (32 * Z.of_nat 0)) with 1. repeat split; auto; lia. }
  pose proof (get_word_ok a i Ha) as Hai. pose proof (get_word_ok b i Hb) as Hbi. unfold word_ok in Hai, Hbi, Hc.
  assert (Hout : forall l, (i <? len l) = false -> get 0 l i = 0).
  { intros l Hl. apply Z.ltb_ge in Hl. apply nth_overflow. unfold len in Hl. lia. }
  set (t := carry + get 0 a i + get 0 b i).
  assert (Esum : (if i <? len b then u64 ((if i <? len a then u64 (carry + get 0 a i) else carry) + get 0 b i)
                  else if i <? len a then u64 (carry + get 0 a i) else carry) = t).
  { unfold t. destruct (i <? len a) eqn:E1, (i <? len b) eqn:E2; try apply Hout in E1; try apply Hout in E2;
      rewrite ?(wrap_small 64 (carry + get 0 a i)), ?wrap_small by lia; lia. }
  rewrite Esum, Z.shiftr_div_pow2, (wrap_small 32 (t / 2 ^ 32)) by (lia || apply high_word; lia).
  specialize (IH (i + 1) (t / 2 ^ 32) ltac:(lia) ltac:(apply high_word; lia)).
  destruct (ubm_add_loop n (i + 1) a b (t / 2 ^ 32)) as [dst c]. destruct IH as (L & W & C & V).
  cbn [length value]. split; [lia|]. split; [constructor; [apply low_word | assumption]|]. split; [assumption|].
  unfold wrap. replace (32 * Z.of_nat (S n)) with (32 + 32 * Z.of_nat n) by lia. rewrite Z.pow_add_r by lia.
  pose proof (Z.div_mod t (2 ^ 32) ltac:(lia)). unfold t in *. lia.
Qed.

Lemma any_word_spec i a : Forall word_ok a -> any_word i a = negb (value (skipn (Z.to_nat i) a) =? 0).
Proof.
  intros Ha. unfold any_word. assert (Hs : Forall word_ok (skipn (Z.to_nat i) a)) by (apply Forall_forall; intros x Hx; rewrite Forall_forall in Ha; apply Ha; rewrite <- (firstn_skipn (Z.to_nat i) a); apply in_or_app; auto).
  revert Hs. generalize (skipn (Z.to_nat i) a) as l. clear. induction 1 as [|x l Hx Hl IH]; [reflexivity|].
  cbn [existsb value]. rewrite IH. pose proof (value_range l Hl). unfold word_ok in Hx.
  destruct (Z.eqb_spec x 0), (Z.eqb_spec (value l) 0), (Z.eqb_spec (x + 2 ^ 32 * value l) 0); cbn; lia.
Qed.

Lemma value_skipn_nonneg i a : Forall word_ok a -> 0 <= value (skipn i a).
Proof.
  intros Ha. apply value_range, Forall_forall. intros x Hx. rewrite Forall_forall in Ha. apply Ha.
  rewrite <- (firstn_skipn i a). apply in_or_app. auto.
Qed.

Lemma ubm_add_spec dst_len a b :
  0 <= dst_len -> Forall word_ok a -> Forall word_ok b ->
  exists dst overflow, _ubm_add_u32arr dst_len a b = (dst, overflow) /\ len dst = dst_len /\ Forall word_ok dst /\
    value dst = (value a + value b) mod 2 ^ (32 * dst_len) /\
    overflow = (2 ^ (32 * dst_len) <=? value a + value b).
Proof.
  intros Hl Ha Hb. unfold _ubm_add_u32arr. pose proof (add_loop_spec (Z.to_nat dst_len) 0 a b 0) as H.
  destruct (ubm_add_loop (Z.to_nat dst_len) 0 a b 0) as [dst c].
  destruct H as (L & W & C & V); auto; [lia | split; lia |]. do 2 eexists. split; [reflexivity|].
  assert (El : len dst = dst_len) by (unfold len; lia). split; [assumption|]. split; [assumption|].
  pose proof (window_skipn (Z.to_nat dst_len) 0 a ltac:(lia)) as Ea. pose proof (window_skipn (Z.to_nat dst_len) 0 b ltac:(lia)) as Eb.
  rewrite Z.add_0_l, Z2Nat.id in * by lia. 
  change (skipn (Z.to_nat 0) a) with a in Ea. change (skipn (Z.to_nat 0) b) with b in Eb.
  pose proof (value_range dst W) as Hr. rewrite El in Hr. rewrite !any_word_spec by assumption.
  pose proof (value_skipn_nonneg (Z.to_nat dst_len) a Ha) as Hna. pose proof (value_skipn_nonneg (Z.to_nat dst_len) b Hb) as Hnb.
  set (va := value (skipn (Z.to_nat dst_len) a)) in *. set (vb := value (skipn (Z.to_nat dst_len) b)) in *.
  assert (E : value a + value b = value dst + (c + va + vb) * 2 ^ (32 * dst_len)) by lia. rewrite E, Z_mod_plus_full.
  split; [symmetry; now apply Z.mod_small|]. apply eq_true_iff_eq. rewrite Z.leb_le, !orb_true_iff, !negb_true_iff, !Z.eqb_neq.
  pose proof (Z.pow_pos_nonneg 2 (32 * dst_len) ltac:(lia) ltac:(lia)).
  split; [intros; assert (1 * 2 ^ (32 * dst_len) <= (c + va + vb) * 2 ^ (32 * dst_len)) by (apply Z.mul_le_mono_nonneg_r; lia); lia|].
  intros. destruct (Z.eq_dec (c + va + vb) 0) as [E0|]; [rewrite E0 in *; lia | lia].
Qed.

(** C38: [_ubm_mul_u32arr] and [_ubm_add_u32arr] compute the product and the
    sum of the numbers two arrays of words stand for, truncated to the words
    of the destination; the sum reports an overflow exactly when it does not
    fit, and the product reports one only when it does not fit. *)
Theorem bigmath_correct (dst_len : Z) (a b : list Z) :
  0 <= dst_len -> Forall word_ok a -> Forall word_ok b ->
  (exists dst overflow, _ubm_mul_u32arr dst_len a b = (dst, overflow) /\ len dst = dst_len /\ Forall word_ok dst /\
     value dst = (value a * value b) mod 2 ^ (32 * dst_len) /\
     (overflow = true -> 2 ^ (32 * dst_len) <= value a * value b)) /\
  (exists dst overflow, _ubm_add_u32arr dst_len a b = (dst, overflow) /\ len dst = dst_len /\ Forall word_ok dst /\
     value dst = (value a + value b) mod 2 ^ (32 * dst_len) /\
     overflow = (2 ^ (32 * dst_len) <=? value a + value b)).
Proof. intros Hl Ha Hb. split; [now apply ubm_mul_spec | now apply ubm_add_spec]. Qed.

Lemma bigmath_correct_witness :
  exists dst overflow, _ubm_mul_u32arr 3 [4294967295; 1] [4294967295; 4294967295] = (dst, overflow) /\
    value dst = (8589934591 * 18446744073709551615) mod 2 ^ 96.
Proof.
  destruct (bigmath_correct 3 [4294967295; 1] [4294967295; 4294967295]) as [(dst & ov & E & _ & _ & V & _) _];
    [lia | repeat constructor; lia | repeat constructor; lia |].
  exists dst, ov. split; [exact E|]. rewrite V. reflexivity.
Defined.

(** The product of [2 ^ 32] with itself does not fit one word, and the flag is
    not raised: after the break the other words of [b] are not looked at. *)
Theorem ubm_mul_overflow_missed :
  _ubm_mul_u32arr 1 [0; 1] [0; 1] = ([0], false) /\ 2 ^ 32 <= value [0; 1] * value [0; 1].
Proof. split; [reflexivity | vm_compute; congruence]. Qed.
