(* ===== verification/Nir.v ===== *)
(** * NIR integer opcodes: src/compiler/nir/nir_opcodes.py

    The value of one component of a [w]-bit SSA definition is its bit pattern,
    a number below [2 ^ w]; one-bit booleans are [bool].  A builder function
    [nir_op] is what the instruction it emits computes, by the constant
    expression of the opcode.  Signed operands are read with [swrap]. *)

From Stdlib Require Import Bool ZArith List Lia.
From S2P Require Import Prelude Arrays FastSdiv Bigmath.
Import ListNotations.
#[local] Open Scope bool_scope.
#[local] Open Scope Z_scope.

(** [nir_imm_int] makes a 32-bit constant, [nir_imm_intN_t] one of [w] bits. *)
Definition nir_imm_int (x : Z) : Z := wrap 32 x.
Definition nir_imm_intN_t (x w : Z) : Z := wrap w x.

Definition nir_iadd (w x y : Z) : Z := wrap w (x + y).
Definition nir_isub (w x y : Z) : Z := wrap w (x - y).
Definition nir_imul (w x y : Z) : Z := wrap w (x * y).
Definition nir_ineg (w x : Z) : Z := wrap w (- x).
Definition nir_iabs (w x : Z) : Z := if swrap w x <? 0 then wrap w (- x) else x.
Definition nir_isign (w x : Z) : Z := wrap w (if swrap w x =? 0 then 0 else if swrap w x >? 0 then 1 else -1).

(** The upper half of a product of four words. *)
Definition prod_high (prod_u32 : list Z) : Z := Z.lor (get 0 prod_u32 2) (u64 (Z.shiftl (get 0 prod_u32 3) 32)).

Definition nir_umul_high (w x y : Z) : Z :=
  if w =? 64 then
    prod_high (fst (_ubm_mul_u32arr 4 [u32 x; u32 (Z.shiftr x 32)] [u32 y; u32 (Z.shiftr y 32)]))
  else wrap w (Z.shiftr (u64 (x * y)) w).

(** The four words of a sign-extended operand. *)
Definition sext_u32 (x : Z) : list Z :=
  let s := i64 x in [u32 s; u32 (Z.shiftr s 32); u32 (Z.shiftr s 63); u32 (Z.shiftr s 63)].

Definition nir_imul_high (w x y : Z) : Z :=
  if w =? 64 then prod_high (fst (_ubm_mul_u32arr 4 (sext_u32 x) (sext_u32 y)))
  else wrap w (Z.shiftr (i64 (swrap w x * swrap w y)) w).

Definition nir_udiv (w x y : Z) : Z := if y =? 0 then 0 else x / y.
Definition nir_umod (w x y : Z) : Z := if y =? 0 then 0 else x mod y.
Definition nir_idiv (w x y : Z) : Z := if swrap w y =? 0 then 0 else wrap w (Z.quot (swrap w x) (swrap w y)).
Definition nir_irem (w x y : Z) : Z := if swrap w y =? 0 then 0 else wrap w (Z.rem (swrap w x) (swrap w y)).
Definition nir_imod (w x y : Z) : Z :=
  let s := swrap w x in
  let t := swrap w y in
  wrap w (if t =? 0 then 0
          else if (Z.rem s t =? 0) || eqb (s >=? 0) (t >=? 0) then Z.rem s t else Z.rem s t + t).

(** The shift counts are below the width in all uses. *)
Definition nir_ishl (w x s : Z) : Z := wrap w (Z.shiftl x s).
Definition nir_ishr (w x s : Z) : Z := wrap w (Z.shiftr (swrap w x) s).
Definition nir_ushr (x s : Z) : Z := Z.shiftr x s.

Definition nir_iand (x y : Z) : Z := Z.land x y.
Definition nir_ior (x y : Z) : Z := Z.lor x y.

Definition nir_ieq (x y : Z) : bool := x =? y.
Definition nir_uge (x y : Z) : bool := x >=? y.
Definition nir_ige (w x y : Z) : bool := swrap w x >=? swrap w y.
Definition nir_ilt (w x y : Z) : bool := swrap w x <? swrap w y.
Definition nir_bcsel {A} (c : bool) (x y : A) : A := if c then x else y.
Definition nir_i2b (x : Z) : bool := negb (x =? 0).
Definition nir_b2i32 (b : bool) : Z := if b then 1 else 0.

Definition nir_u2u64 (x : Z) : Z := x.
Definition nir_u2u32 (x : Z) : Z := wrap 32 x.
Definition nir_unpack_64_2x32_split_x (x : Z) : Z := wrap 32 x.
Definition nir_unpack_64_2x32_split_y (x : Z) : Z := wrap 32 (Z.shiftr x 32).
Definition nir_pack_64_2x32_split (x y : Z) : Z := wrap 64 (Z.lor x (Z.shiftl y 32)).

Fixpoint find_msb_loop (n : nat) (x : Z) : Z :=
  match n with
  | O => -1
  | S bit => if Z.testbit x (Z.of_nat bit) then Z.of_nat bit else find_msb_loop bit x
  end.
Definition nir_ufind_msb (w x : Z) : Z := wrap 32 (find_msb_loop (Z.to_nat w) x).

(** [(src0 + src1) < src0 ? UINT64_MAX : (src0 + src1)] in C: operands
    narrower than [int] are promoted and their sum does not wrap. *)
Definition nir_uadd_sat (w x y : Z) : Z :=
  let sum := if w <? 32 then x + y else wrap w (x + y) in
  wrap w (if sum <? x then 2 ^ 64 - 1 else sum).

(** ** Halves of a 64-bit value *)

Lemma lor_halves x y : 0 <= x < 2 ^ 32 -> 0 <= y -> Z.lor x (y * 2 ^ 32) = x + y * 2 ^ 32.
Proof.
  intros Hx Hy. rewrite Z.add_comm, <- Z.lxor_lor, Z.add_comm; [symmetry; rewrite Z.add_nocarry_lxor; [reflexivity|]|].
  all: apply Z.bits_inj'; intros n Hn; rewrite Z.land_spec, Z.bits_0;
    destruct (Z_lt_ge_dec n 32); [rewrite (Z.mul_pow2_bits_low y 32 n) by lia; apply andb_false_r|];
    rewrite (Z.bits_above_log2 x n); [reflexivity | lia |];
    destruct (Z.eq_dec x 0) as [->|]; [cbn; lia|]; apply Z.lt_le_trans with 32; [apply Z.log2_lt_pow2; lia | lia].
Qed.

Lemma pack_value x y : 0 <= x < 2 ^ 32 -> 0 <= y < 2 ^ 32 -> nir_pack_64_2x32_split x y = x + y * 2 ^ 32.
Proof.
  intros Hx Hy. unfold nir_pack_64_2x32_split. rewrite Z.shiftl_mul_pow2, lor_halves by lia. apply wrap_small. lia.
Qed.

Lemma split_x x : nir_unpack_64_2x32_split_x x = x mod 2 ^ 32.
Proof. reflexivity. Qed.

Lemma split_y x : 0 <= x < 2 ^ 64 -> nir_unpack_64_2x32_split_y x = x / 2 ^ 32.
Proof.
  intros Hx. unfold nir_unpack_64_2x32_split_y. rewrite Z.shiftr_div_pow2 by lia. apply wrap_small.
  split; [apply Z.div_pos; lia | apply Z.div_lt_upper_bound; lia].
Qed.

(** A signed operand and its bits. *)
Lemma swrap_cases w x : 1 <= w -> 0 <= x < 2 ^ w ->
  (x < 2 ^ (w - 1) /\ swrap w x = x) \/ (2 ^ (w - 1) <= x /\ swrap w x = x - 2 ^ w).
Proof.
  intros Hw Hx. unfold swrap. rewrite Z.mod_small by assumption. destruct (Z.ltb_spec x (2 ^ (w - 1))); auto.
Qed.

Lemma iabs_value w x : 1 <= w -> 0 <= x < 2 ^ w -> nir_iabs w x = Z.abs (swrap w x).
Proof.
  intros Hw Hx. unfold nir_iabs. assert (Hp : 2 ^ w = 2 * 2 ^ (w - 1)) by (rewrite <- Z.pow_succ_r by lia; f_equal; lia).
  destruct (swrap_cases w x Hw Hx) as [[H1 ->]|[H1 ->]].
  - destruct (Z.ltb_spec x 0); lia.
  - destruct (Z.ltb_spec (x - 2 ^ w) 0); [|lia]. unfold wrap. rewrite <- (Z_mod_plus_full _ 1), Z.mod_small by lia. lia.
Qed.

Lemma find_msb_spec n x : 0 <= x < 2 ^ Z.of_nat n -> find_msb_loop n x = if x =? 0 then -1 else Z.log2 x.
Proof.
  induction n as [|n IH]; intros Hx; cbn [find_msb_loop].
  { change (2 ^ Z.of_nat 0) with 1 in Hx. assert (E : x = 0) by lia. now rewrite E. }
  destruct (Z.testbit x (Z.of_nat n)) eqn:Eb.
  - destruct (Z.eqb_spec x 0) as [E0|Hz]; [rewrite E0, Z.bits_0 in Eb; discriminate|].
    apply Z.le_antisymm.
    + destruct (Z_lt_ge_dec (Z.log2 x) (Z.of_nat n)) as [Hlt|]; [|lia]. rewrite Z.bits_above_log2 in Eb by lia. discriminate.
    + assert (Z.log2 x < Z.of_nat (S n)) by (apply Z.log2_lt_pow2; lia). lia.
  - apply IH. destruct (Z.eq_dec x 0) as [E0|Hz]; [rewrite E0; split; [lia | apply Z.pow_pos_nonneg; lia]|]. split; [lia|].
    apply Z.log2_lt_pow2; [lia|]. assert (Z.log2 x < Z.of_nat (S n)) by (apply Z.log2_lt_pow2; lia).
    destruct (Z.eq_dec (Z.log2 x) (Z.of_nat n)) as [E|]; [|lia]. rewrite <- E, Z.bit_log2 in Eb by lia. discriminate.
Qed.

(** ** High halves of products *)

Lemma prod_high_value p : len p = 4 -> Forall word_ok p -> prod_high p = value p / 2 ^ 64.
Proof.
  intros Hl Hp. unfold prod_high. assert (W : forall i, word_ok (get 0 p i)) by (intros; now apply get_word_ok).
  pose proof (W 0) as W0. pose proof (W 1) as W1. pose proof (W 2) as W2. pose proof (W 3) as W3. unfold word_ok in *.
  rewrite Z.shiftl_mul_pow2, wrap_small, lor_halves by lia.
  do 4 (destruct p as [|? p]; [discriminate Hl|]). destruct p; [|unfold len in Hl; cbn [length] in Hl; lia].
  unfold get in *. change (Z.to_nat 3) with 3%nat in *. change (Z.to_nat 2) with 2%nat in *.
  change (Z.to_nat 1) with 1%nat in *. change (Z.to_nat 0) with 0%nat in *. cbn [nth value] in *.
  apply (Z.div_unique _ _ _ (z + 2 ^ 32 * z0)); lia.
Qed.

(** The bits 64 to 127 of a number depend on it modulo [2 ^ 128]. *)
Lemma middle_bits a : a mod 2 ^ 128 / 2 ^ 64 = (a / 2 ^ 64) mod 2 ^ 64.
Proof.
  change (2 ^ 128) with (2 ^ 64 * 2 ^ 64). rewrite Z.rem_mul_r by lia. pose proof (Z.mod_pos_bound a (2 ^ 64) ltac:(lia)).
  rewrite Z.mul_comm, Z.div_add, (Z.div_small (a mod _)) by lia. lia.
Qed.

Lemma word_ok_wrap x : word_ok (wrap 32 x).
Proof. apply wrap_range. lia. Qed.

Ltac words := unfold sext_u32; cbv zeta; repeat (apply Forall_cons; [apply word_ok_wrap|]); apply Forall_nil.

Lemma ubm_high a b : Forall word_ok a -> Forall word_ok b ->
  prod_high (fst (_ubm_mul_u32arr 4 a b)) = (value a * value b / 2 ^ 64) mod 2 ^ 64.
Proof.
  intros Ha Hb. destruct (ubm_mul_spec 4 a b ltac:(lia) Ha Hb) as (p & o & -> & Hl & Hp & Hv & _). cbn [fst].
  rewrite prod_high_value by assumption. rewrite Hv. change (32 * 4) with 128. apply middle_bits.
Qed.

Lemma umul_high_value w x y : 1 <= w <= 32 \/ w = 64 -> 0 <= x < 2 ^ w -> 0 <= y < 2 ^ w ->
  nir_umul_high w x y = x * y / 2 ^ w.
Proof.
  intros Hw Hx Hy. assert (Hq : 0 <= x * y / 2 ^ w < 2 ^ w) by (split; [apply Z.div_pos; nia | apply Z.div_lt_upper_bound; nia]).
  unfold nir_umul_high. destruct (Z.eqb_spec w 64) as [->|Hne].
  - rewrite ubm_high by words.
    change (u32 (Z.shiftr x 32)) with (nir_unpack_64_2x32_split_y x). change (u32 (Z.shiftr y 32)) with (nir_unpack_64_2x32_split_y y).
    rewrite !split_y by assumption. cbn [value]. rewrite !Z.mul_0_r, !Z.add_0_r. unfold wrap.
    pose proof (Z.div_mod x (2 ^ 32) ltac:(lia)). pose proof (Z.div_mod y (2 ^ 32) ltac:(lia)).
    replace (x mod 2 ^ 32 + 2 ^ 32 * (x / 2 ^ 32)) with x by lia. replace (y mod 2 ^ 32 + 2 ^ 32 * (y / 2 ^ 32)) with y by lia.
    now apply Z.mod_small.
  - destruct Hw as [Hw|]; [|lia]. assert (Hp : 2 ^ w <= 2 ^ 32) by (apply Z.pow_le_mono_r; lia).
    rewrite Z.shiftr_div_pow2, (wrap_small 64) by nia. now apply wrap_small.
Qed.

Lemma sext_words x : 0 <= x < 2 ^ 64 -> Forall word_ok (sext_u32 x) /\ value (sext_u32 x) = wrap 128 (i64 x).
Proof.
  intros Hx. split; [words|].
  unfold sext_u32. cbv zeta. cbn [value]. pose proof (swrap_range 64 x ltac:(lia)) as Hs. change (2 ^ (64 - 1)) with (2 ^ 63) in Hs.
  rewrite !Z.shiftr_div_pow2 by lia. unfold wrap. set (s := swrap 64 x) in *.
  assert (E : s / 2 ^ 63 = if s <? 0 then -1 else 0).
  { destruct (Z.ltb_spec s 0); [symmetry; apply (Z.div_unique _ _ _ (s + 2 ^ 63)); lia | apply Z.div_small; lia]. }
  rewrite E. pose proof (Z.div_mod s (2 ^ 32) ltac:(lia)) as Ed. pose proof (Z.mod_pos_bound s (2 ^ 32) ltac:(lia)).
  destruct (Z.ltb_spec s 0).
  - change (-1 mod 2 ^ 32) with (2 ^ 32 - 1). assert (- 2 ^ 31 <= s / 2 ^ 32 < 0) by (split; [apply Z.div_le_lower_bound; lia | apply Z.div_lt_upper_bound; lia]).
    rewrite <- (Z_mod_plus_full (s / 2 ^ 32) 1), <- (Z_mod_plus_full s 1 (2 ^ 128)), (Z.mod_small (s / 2 ^ 32 + _)), (Z.mod_small (s + _)) by lia. lia.
  - assert (0 <= s / 2 ^ 32 < 2 ^ 31) by (split; [apply Z.div_pos; lia | apply Z.div_lt_upper_bound; lia]).
    rewrite (Z.mod_small (s / 2 ^ 32)), (Z.mod_small s (2 ^ 128)), Z.mod_0_l by lia. lia.
Qed.

Lemma imul_high_value w x y : 1 <= w <= 32 \/ w = 64 -> 0 <= x < 2 ^ w -> 0 <= y < 2 ^ w ->
  nir_imul_high w x y = wrap w (swrap w x * swrap w y / 2 ^ w).
Proof.
  intros Hw Hx Hy. unfold nir_imul_high. destruct (Z.eqb_spec w 64) as [->|Hne].
  - destruct (sext_words x Hx) as [Wx Vx], (sext_words y Hy) as [Wy Vy]. rewrite ubm_high, Vx, Vy by assumption.
    unfold wrap. rewrite <- !middle_bits. f_equal. symmetry. apply Zmult_mod.
  - destruct Hw as [Hw|]; [|lia]. assert (Hp : 2 ^ (w - 1) <= 2 ^ 31) by (apply Z.pow_le_mono_r; lia).
    pose proof (swrap_range w x ltac:(lia)). pose proof (swrap_range w y ltac:(lia)).
    rewrite Z.shiftr_div_pow2, (swrap_small 64) by (lia || nia). reflexivity.
Qed.
