(* ===== verification/NirInt64.v ===== *)
(** * 64-bit integer lowering: src/compiler/nir/nir_lower_int64.c

    Each lowering function is the value, for one component, of the
    instructions it emits, in terms of 32-bit halves; the theorem is that it
    is the value of the instruction it replaces. *)

From Stdlib Require Import Bool ZArith List Lia.
From S2P Require Import Prelude Arrays FastSdiv Bigmath Nir.
Import ListNotations.
#[local] Open Scope bool_scope.
#[local] Open Scope Z_scope.

Definition lower_imul64 (x y : Z) : Z :=
  let x_lo := nir_unpack_64_2x32_split_x x in
  let x_hi := nir_unpack_64_2x32_split_y x in
  let y_lo := nir_unpack_64_2x32_split_x y in
  let y_hi := nir_unpack_64_2x32_split_y y in
  let res_lo := nir_imul 32 x_lo y_lo in
  let res_hi := nir_iadd 32 (nir_umul_high 32 x_lo y_lo)
                  (nir_iadd 32 (nir_imul 32 x_lo y_hi) (nir_imul 32 x_hi y_lo)) in
  nir_pack_64_2x32_split res_lo res_hi.

(** The four limbs of an operand of [lower_mul_high64]. *)
Definition limbs (x : Z) (sign_extend : bool) : list Z :=
  let x1 := nir_unpack_64_2x32_split_y x in
  let ext := if sign_extend then nir_ishr 32 x1 (nir_imm_int 31) else nir_imm_int 0 in
  [nir_unpack_64_2x32_split_x x; x1; ext; ext].

(** The body of the inner loop, on [res] and [carry]. *)
Definition mul_step (x32 y32 : list Z) (i : Z) (st : list (option Z) * option Z) (j : Z) : list (option Z) * option Z :=
  let (res, carry) := st in
  let tmp := nir_pack_64_2x32_split (nir_imul 32 (get 0 x32 i) (get 0 y32 j))
                                    (nir_umul_high 32 (get 0 x32 i) (get 0 y32 j)) in
  let tmp := match get None res (i + j) with Some r => nir_iadd 64 tmp (nir_u2u64 r) | None => tmp end in
  let tmp := match carry with Some c => nir_iadd 64 tmp c | None => tmp end in
  (upd (i + j) (fun _ => Some (nir_u2u32 tmp)) res, Some (nir_ushr tmp (nir_imm_int 32))).

(** The body of the outer loop. *)
Definition mul_row (x32 y32 : list Z) (res : list (option Z)) (i : Z) : list (option Z) :=
  let (res, carry) := fold_left (mul_step x32 y32 i) (indices 4) (res, None) in
  upd (i + 4) (fun _ => option_map nir_u2u32 carry) res.

Definition lower_mul_high64 (x y : Z) (sign_extend : bool) : Z :=
  let res := fold_left (mul_row (limbs x sign_extend) (limbs y sign_extend)) (indices 4) (repeat None 8) in
  let at_ k := match get None res k with Some r => r | None => 0 end in
  nir_pack_64_2x32_split (at_ 2) (at_ 3).

Definition lower_isign64 (x : Z) : Z :=
  let x_lo := nir_unpack_64_2x32_split_x x in
  let x_hi := nir_unpack_64_2x32_split_y x in
  let is_non_zero := nir_i2b (nir_ior x_lo x_hi) in
  let res_hi := nir_ishr 32 x_hi (nir_imm_int 31) in
  let res_lo := nir_ior res_hi (nir_b2i32 is_non_zero) in
  nir_pack_64_2x32_split res_lo res_hi.

(** One of the two division loops of [lower_udiv64_mod64], from [i = k - 1],
    on [w]-bit registers: the remaining numerator and the quotient. *)
Fixpoint div_loop (k : nat) (w : Z) (enabled : bool) (d log2_d n q : Z) : Z * Z :=
  match k with
  | O => (n, q)
  | S k =>
      let i := Z.of_nat k in
      let d_shift := nir_ishl w d (nir_imm_int i) in
      let new_n := nir_isub w n d_shift in
      let new_q := nir_ior q (nir_imm_int (Z.shiftl 1 i)) in
      let cond := enabled && nir_uge n d_shift in
      let cond := if negb (i =? 0) then cond && nir_ige 32 (nir_imm_int (31 - i)) log2_d else cond in
      div_loop k w enabled d log2_d (nir_bcsel cond new_n n) (nir_bcsel cond new_q q)
  end.

(** [others] is [None] for a scalar, else whether [need_high_div] holds for
    another component of the vector.  The second loop has no condition besides
    its own. *)
Definition lower_udiv64_mod64 (others : option bool) (n d : Z) : Z * Z :=
  let n_lo := nir_unpack_64_2x32_split_x n in
  let n_hi := nir_unpack_64_2x32_split_y n in
  let d_lo := nir_unpack_64_2x32_split_x d in
  let d_hi := nir_unpack_64_2x32_split_y d in
  let q_lo := nir_imm_int 0 in
  let q_hi := nir_imm_int 0 in
  let need_high_div := nir_ieq d_hi (nir_imm_int 0) && nir_uge n_hi d_lo in
  let bany := match others with None => need_high_div | Some b => need_high_div || b end in
  let (n_hi, q_hi) :=
    if bany then
      let need_high_div := match others with None => true | Some _ => need_high_div end in
      let log2_d_lo := nir_ufind_msb 32 d_lo in
      div_loop 32 32 need_high_div d_lo log2_d_lo n_hi q_hi
    else (n_hi, q_hi) in
  let log2_denom := nir_ufind_msb 32 d_hi in
  let n := nir_pack_64_2x32_split n_lo n_hi in
  let d := nir_pack_64_2x32_split d_lo d_hi in
  let (n, q_lo) := div_loop 32 64 true d log2_denom n q_lo in
  (nir_pack_64_2x32_split q_lo q_hi, n).

Definition lower_udiv64 (others : option bool) (n d : Z) : Z := fst (lower_udiv64_mod64 others n d).

Definition lower_idiv64 (others : option bool) (n d : Z) : Z :=
  let n_hi := nir_unpack_64_2x32_split_y n in
  let d_hi := nir_unpack_64_2x32_split_y d in
  let negate := xorb (nir_ilt 32 n_hi (nir_imm_int 0)) (nir_ilt 32 d_hi (nir_imm_int 0)) in
  let (q, r) := lower_udiv64_mod64 others (nir_iabs 64 n) (nir_iabs 64 d) in
  nir_bcsel negate (nir_ineg 64 q) q.

Definition lower_umod64 (others : option bool) (n d : Z) : Z := snd (lower_udiv64_mod64 others n d).

Definition lower_imod64 (others : option bool) (n d : Z) : Z :=
  let n_hi := nir_unpack_64_2x32_split_y n in
  let d_hi := nir_unpack_64_2x32_split_y d in
  let n_is_neg := nir_ilt 32 n_hi (nir_imm_int 0) in
  let d_is_neg := nir_ilt 32 d_hi (nir_imm_int 0) in
  let (q, r) := lower_udiv64_mod64 others (nir_iabs 64 n) (nir_iabs 64 d) in
  let rem := nir_bcsel n_is_neg (nir_ineg 64 r) r in
  nir_bcsel (nir_ieq r 0) 0 (nir_bcsel (eqb n_is_neg d_is_neg) rem (nir_iadd 64 rem d)).

Definition lower_irem64 (others : option bool) (n d : Z) : Z :=
  let n_hi := nir_unpack_64_2x32_split_y n in
  let n_is_neg := nir_ilt 32 n_hi (nir_imm_int 0) in
  let (q, r) := lower_udiv64_mod64 others (nir_iabs 64 n) (nir_iabs 64 d) in
  nir_bcsel n_is_neg (nir_ineg 64 r) r.

(** The opcodes the pass knows, and any other. *)
Inductive nir_op :=
| nir_op_imul | nir_op_imul_high | nir_op_umul_high | nir_op_isign
| nir_op_udiv | nir_op_idiv | nir_op_umod | nir_op_imod | nir_op_irem
| nir_op_other.

Definition nir_lower_imul64 : Z := 1.
Definition nir_lower_isign64 : Z := 2.
Definition nir_lower_divmod64 : Z := 4.
Definition nir_lower_imul_high64 : Z := 8.

Definition opcode_to_options_mask (opcode : nir_op) : Z :=
  match opcode with
  | nir_op_imul => nir_lower_imul64
  | nir_op_imul_high | nir_op_umul_high => nir_lower_imul_high64
  | nir_op_isign => nir_lower_isign64
  | nir_op_udiv | nir_op_idiv | nir_op_umod | nir_op_imod | nir_op_irem => nir_lower_divmod64
  | nir_op_other => 0
  end.

(** [None] is [unreachable("Invalid ALU opcode to lower")]. *)
Definition lower_int64_alu_instr (others : option bool) (op : nir_op) (x y : Z) : option Z :=
  match op with
  | nir_op_imul => Some (lower_imul64 x y)
  | nir_op_imul_high => Some (lower_mul_high64 x y true)
  | nir_op_umul_high => Some (lower_mul_high64 x y false)
  | nir_op_isign => Some (lower_isign64 x)
  | nir_op_udiv => Some (lower_udiv64 others x y)
  | nir_op_idiv => Some (lower_idiv64 others x y)
  | nir_op_umod => Some (lower_umod64 others x y)
  | nir_op_imod => Some (lower_imod64 others x y)
  | nir_op_irem => Some (lower_irem64 others x y)
  | nir_op_other => None
  end.

(** Whether [lower_int64_impl] replaces an ALU instruction. *)
Definition replaced (options bit_size : Z) (op : nir_op) : bool :=
  (bit_size =? 64) && negb (Z.land options (opcode_to_options_mask op) =? 0).

Example udiv_example : lower_udiv64_mod64 None 18446744073709551615 10 = (1844674407370955161, 5).
Proof. vm_compute. reflexivity. Qed.

Example mul_high_example : lower_mul_high64 18446744073709551615 18446744073709551615 false = 18446744073709551614.
Proof. vm_compute. reflexivity. Qed.

(** ** Division *)

Lemma lor_add a b : Z.land a b = 0 -> Z.lor a b = a + b.
Proof. intros E. rewrite Z.add_nocarry_lxor by assumption. symmetry. now apply Z.lxor_lor. Qed.

Lemma land_high_bit a i : 0 <= i -> Z.land (2 ^ (i + 1) * a) (2 ^ i) = 0.
Proof.
  intros Hi. apply Z.bits_inj'. intros n Hn. rewrite Z.land_spec, Z.bits_0, Z.pow2_bits_eqb by assumption.
  destruct (Z.eqb_spec i n) as [->|]; [|apply andb_false_r]. rewrite Z.mul_comm, Z.mul_pow2_bits_low by lia. reflexivity.
Qed.

(** One digit of the long division of [N] by [d]. *)
Lemma long_division_step N d i :
  0 < d -> 0 <= i -> 0 <= N ->
  let D := d * 2 ^ i in
  let c := N mod (d * 2 ^ (i + 1)) >=? D in
  N mod D = (if c then N mod (d * 2 ^ (i + 1)) - D else N mod (d * 2 ^ (i + 1))) /\
  2 ^ i * (N / D) = 2 ^ (i + 1) * (N / (d * 2 ^ (i + 1))) + (if c then 2 ^ i else 0).
Proof.
  intros Hd Hi HN D c. pose proof (Z.pow_pos_nonneg 2 i ltac:(lia) Hi).
  assert (E2 : d * 2 ^ (i + 1) = 2 * D) by (unfold D; rewrite Z.pow_add_r by lia; ring).
  assert (HD : 0 < D) by (unfold D; nia). unfold c. rewrite E2. clear c.
  pose proof (Z.div_mod N (2 * D) ltac:(lia)) as Ediv. pose proof (Z.mod_pos_bound N (2 * D) ltac:(lia)) as Hm.
  set (a := N / (2 * D)) in *. set (b := N mod (2 * D)) in *.
  rewrite Z.geb_leb. destruct (Z.leb_spec D b).
  - assert (Eq : N / D = 2 * a + 1) by (symmetry; apply (Z.div_unique N D (2 * a + 1) (b - D)); [left; lia | lia]).
    rewrite Z.mod_eq, Eq by lia. split; [lia|]. rewrite Z.pow_add_r by lia. ring.
  - assert (Eq : N / D = 2 * a) by (symmetry; apply (Z.div_unique N D (2 * a) b); [left; lia | lia]).
    rewrite Z.mod_eq, Eq by lia. split; [lia|]. rewrite Z.pow_add_r by lia. ring.
Qed.

(** The test against the logarithm of the denominator excludes exactly the
    shifts that would lose bits, for which the digit is 0. *)
Definition shift_ok (w d log2_d : Z) (N : Z) : Prop :=
  forall i, 0 <= i < 32 ->
    if negb (i =? 0) && negb (31 - i >=? swrap 32 log2_d) then N < d * 2 ^ i else d * 2 ^ i < 2 ^ w.

Lemma imm_small i : 0 <= i < 2 ^ 32 -> nir_imm_int i = i.
Proof. apply wrap_small. Qed.

Lemma div_loop_spec w d log2_d N k :
  0 < d -> 0 <= N < 2 ^ w -> shift_ok w d log2_d N -> (k <= 32)%nat ->
  div_loop k w true d log2_d (N mod (d * 2 ^ Z.of_nat k)) (2 ^ Z.of_nat k * (N / (d * 2 ^ Z.of_nat k))) = (N mod d, N / d).
Proof.
  intros Hd HN Hok. induction k as [|k IH]; intros Hk; cbn [div_loop].
  { change (2 ^ Z.of_nat 0) with 1. rewrite Z.mul_1_r, Z.mul_1_l. reflexivity. }
  set (i := Z.of_nat k) in *. assert (Hi : 0 <= i < 32) by lia.
  replace (Z.of_nat (S k)) with (i + 1) by lia.
  destruct (long_division_step N d i Hd (proj1 Hi) (proj1 HN)) as [Hrem Hquo].
  rewrite <- IH by lia. clear IH. pose proof (Hok i Hi) as Hsh.
  pose proof (Z.pow_pos_nonneg 2 i ltac:(lia) ltac:(lia)) as Hp.
  assert (Hp32 : 2 ^ i < 2 ^ 32) by (apply Z.pow_lt_mono_r; lia).
  assert (Hmod : 0 <= N mod (d * 2 ^ (i + 1)) <= N).
  { assert (0 < d * 2 ^ (i + 1)) by (pose proof (Z.pow_pos_nonneg 2 (i + 1) ltac:(lia) ltac:(lia)); nia).
    split; [apply Z.mod_pos_bound; lia | apply Z.mod_le; lia]. }
  rewrite Z.shiftl_1_l, !imm_small by lia. cbn [andb].
  unfold nir_ige. rewrite (swrap_small 32 (31 - i)) by (lia || (cbn; lia)).
  unfold nir_ishl, nir_uge, nir_isub, nir_bcsel, nir_ior. rewrite Z.shiftl_mul_pow2 by lia.
  destruct (negb (i =? 0) && negb (31 - i >=? swrap 32 log2_d)) eqn:Etest.
  - apply andb_true_iff in Etest as [Ei El]. apply negb_true_iff in El. rewrite Ei, El, andb_false_r.
    assert (Ec : (N mod (d * 2 ^ (i + 1)) >=? d * 2 ^ i) = false) by (rewrite Z.geb_leb; apply Z.leb_gt; lia).
    rewrite Ec, Z.add_0_r in *. now rewrite Hrem, Hquo.
  - assert (Econd : (if negb (i =? 0) then (N mod (d * 2 ^ (i + 1)) >=? wrap w (d * 2 ^ i)) && (31 - i >=? swrap 32 log2_d)
        else N mod (d * 2 ^ (i + 1)) >=? wrap w (d * 2 ^ i)) = (N mod (d * 2 ^ (i + 1)) >=? d * 2 ^ i)).
    { rewrite wrap_small by nia. destruct (negb (i =? 0)); [|reflexivity]. cbn [andb] in Etest.
      apply negb_false_iff in Etest. now rewrite Etest, andb_true_r. }
    rewrite Econd, (wrap_small w (d * 2 ^ i)) by nia. clear Econd.
    rewrite Z.geb_leb in *. destruct (Z.leb_spec (d * 2 ^ i) (N mod (d * 2 ^ (i + 1)))).
    + rewrite wrap_small by nia. rewrite lor_add by (apply land_high_bit; lia). now rewrite Hrem, Hquo.
    + rewrite Z.add_0_r in Hquo. now rewrite Hrem, Hquo.
Qed.

Lemma div_loop_disabled k w d log2_d n q : div_loop k w false d log2_d n q = (n, q).
Proof.
  induction k as [|k IH]; [reflexivity|]. cbn [div_loop andb]. destruct (negb _); cbn [nir_bcsel]; apply IH.
Qed.

Lemma shift_ok_log w d l N :
  32 <= w -> 0 < d < 2 ^ w -> 0 <= N < 2 ^ w ->
  swrap 32 l = (if d <? 2 ^ (w - 32) then -1 else Z.log2 d - (w - 32)) -> shift_ok w d l N.
Proof.
  intros Hw Hd HN El i Hi. rewrite El. pose proof (Z.pow_pos_nonneg 2 i ltac:(lia) ltac:(lia)).
  rewrite Z.geb_leb. destruct (Z.ltb_spec d (2 ^ (w - 32))) as [Hlt|Hge].
  - destruct (Z.leb_spec (-1) (31 - i)); [|lia]. rewrite andb_false_r.
    apply Z.lt_le_trans with (2 ^ (w - 32) * 2 ^ i); [nia|]. rewrite <- Z.pow_add_r by lia. apply Z.pow_le_mono_r; lia.
  - destruct (Z.log2_spec d ltac:(lia)) as [Hlo Hhi]. pose proof (Z.log2_nonneg d).
    destruct (Z.eqb_spec i 0) as [->|Hne]; cbn [negb andb]; [rewrite Z.pow_0_r; lia|].
    destruct (Z.leb_spec (Z.log2 d - (w - 32)) (31 - i)); cbn [negb].
    + apply Z.lt_le_trans with (2 ^ Z.succ (Z.log2 d) * 2 ^ i); [nia|]. rewrite <- Z.pow_add_r by lia. apply Z.pow_le_mono_r; lia.
    + apply Z.lt_le_trans with (2 ^ w); [lia|]. apply Z.le_trans with (2 ^ Z.log2 d * 2 ^ i); [|nia].
      rewrite <- Z.pow_add_r by lia. apply Z.pow_le_mono_r; lia.
Qed.

Lemma ufind_msb_value x : 0 <= x < 2 ^ 32 -> swrap 32 (nir_ufind_msb 32 x) = if x =? 0 then -1 else Z.log2 x.
Proof.
  intros Hx. unfold nir_ufind_msb. rewrite find_msb_spec by (cbn; exact Hx).
  transitivity (swrap 32 (if x =? 0 then -1 else Z.log2 x)); [apply swrap_cong, Zmod_mod|].
  apply swrap_small; [lia|]. destruct (Z.eqb_spec x 0); [cbn; lia|].
  pose proof (Z.log2_nonneg x). assert (Z.log2 x < 32) by (apply Z.log2_lt_pow2; lia). cbn. lia.
Qed.

(** The high half of the quotient, and what is left of the numerator. *)
Lemma high_division n_hi d_lo :
  0 <= n_hi < 2 ^ 32 -> 0 < d_lo < 2 ^ 32 ->
  div_loop 32 32 true d_lo (nir_ufind_msb 32 d_lo) n_hi (nir_imm_int 0) = (n_hi mod d_lo, n_hi / d_lo).
Proof.
  intros Hn Hd. rewrite <- (div_loop_spec 32 d_lo (nir_ufind_msb 32 d_lo) n_hi 32); auto; [| lia |].
  - change (Z.of_nat 32) with 32. rewrite Z.mod_small, Z.div_small, Z.mul_0_r by nia. reflexivity.
  - apply shift_ok_log; auto; [lia|]. rewrite ufind_msb_value by lia. change (2 ^ (32 - 32)) with 1.
    destruct (Z.ltb_spec d_lo 1), (Z.eqb_spec d_lo 0); lia.
Qed.

(** The low half, once the numerator is below [d * 2 ^ 32]. *)
Lemma low_division n d :
  0 < d < 2 ^ 64 -> 0 <= n < 2 ^ 64 -> n < d * 2 ^ 32 ->
  div_loop 32 64 true d (nir_ufind_msb 32 (d / 2 ^ 32)) n (nir_imm_int 0) = (n mod d, n / d).
Proof.
  intros Hd Hn Hlt. rewrite <- (div_loop_spec 64 d (nir_ufind_msb 32 (d / 2 ^ 32)) n 32); auto; [| lia |].
  - change (Z.of_nat 32) with 32. rewrite (Z.mod_small n (d * 2 ^ 32)), (Z.div_small n (d * 2 ^ 32)), Z.mul_0_r by lia. reflexivity.
  - assert (Hq : 0 <= d / 2 ^ 32 < 2 ^ 32) by (split; [apply Z.div_pos; lia | apply Z.div_lt_upper_bound; lia]).
    apply shift_ok_log; auto; [lia|]. rewrite ufind_msb_value by assumption. change (64 - 32) with 32.
    destruct (Z.ltb_spec d (2 ^ 32)) as [Hs|Hb].
    + rewrite Z.div_small by lia. reflexivity.
    + destruct (Z.eqb_spec (d / 2 ^ 32) 0) as [E|_]; [apply Z.div_small_iff in E; lia|].
      rewrite <- Z.shiftr_div_pow2, Z.log2_shiftr by lia. apply Z.log2_le_pow2 in Hb; lia.
Qed.

Lemma pack_split x : 0 <= x < 2 ^ 64 ->
  nir_pack_64_2x32_split (nir_unpack_64_2x32_split_x x) (nir_unpack_64_2x32_split_y x) = x.
Proof.
  intros Hx. rewrite split_y, split_x by assumption. pose proof (Z.mod_pos_bound x (2 ^ 32) ltac:(lia)).
  assert (0 <= x / 2 ^ 32 < 2 ^ 32) by (split; [apply Z.div_pos; lia | apply Z.div_lt_upper_bound; lia]).
  rewrite pack_value by assumption. pose proof (Z.div_mod x (2 ^ 32) ltac:(lia)). lia.
Qed.

(** The lowered division is exact, for scalars and in any vector. *)
Lemma udiv64_mod64_spec others n d :
  0 <= n < 2 ^ 64 -> 0 < d < 2 ^ 64 -> lower_udiv64_mod64 others n d = (n / d, n mod d).
Proof.
  intros Hn Hd. unfold lower_udiv64_mod64. cbv zeta. rewrite (pack_split d) by lia.
  rewrite (split_x n), (split_x d), !split_y by lia. set (n_lo := n mod 2 ^ 32). set (n_hi := n / 2 ^ 32).
  set (d_lo := d mod 2 ^ 32). set (d_hi := d / 2 ^ 32).
  assert (Hnl : 0 <= n_lo < 2 ^ 32) by (apply Z.mod_pos_bound; lia).
  assert (Hdl : 0 <= d_lo < 2 ^ 32) by (apply Z.mod_pos_bound; lia).
  assert (Hnh : 0 <= n_hi < 2 ^ 32) by (split; [apply Z.div_pos; lia | apply Z.div_lt_upper_bound; lia]).
  assert (Hdh : 0 <= d_hi < 2 ^ 32) by (split; [apply Z.div_pos; lia | apply Z.div_lt_upper_bound; lia]).
  assert (En : n = n_lo + n_hi * 2 ^ 32) by (pose proof (Z.div_mod n (2 ^ 32) ltac:(lia)); lia).
  assert (Ed : d = d_lo + d_hi * 2 ^ 32) by (pose proof (Z.div_mod d (2 ^ 32) ltac:(lia)); lia).
  set (need := nir_ieq d_hi (nir_imm_int 0) && nir_uge n_hi d_lo).
  set (high := if need then (n_hi mod d_lo, n_hi / d_lo) else (n_hi, 0)).
  assert (Hneed : need = true -> d_hi = 0 /\ d_lo <= n_hi).
  { unfold need, nir_ieq, nir_uge. change (nir_imm_int 0) with 0. intros E. zbool. lia. }
  assert (Ehigh : (if match others with None => need | Some b => need || b end
      then div_loop 32 32 (match others with None => true | Some _ => need end) d_lo (nir_ufind_msb 32 d_lo) n_hi (nir_imm_int 0)
      else (n_hi, nir_imm_int 0)) = high).
  { unfold high. destruct need eqn:E.
    - destruct (Hneed eq_refl) as [E0 _]. destruct others as [b|]; cbn [orb]; apply high_division; lia.
    - destruct others as [[|]|]; cbn [orb]; rewrite ?div_loop_disabled; reflexivity. }
  rewrite Ehigh. clear Ehigh.
  assert (Hhigh : 0 <= fst high < 2 ^ 32 /\ 0 <= snd high < 2 ^ 32 /\ n_lo + fst high * 2 ^ 32 < d * 2 ^ 32 /\
            n = (n_lo + fst high * 2 ^ 32) + d * (snd high * 2 ^ 32)).
  { unfold high. destruct need eqn:E; cbn [fst snd].
    - destruct (Hneed eq_refl) as [E0 Hle]. assert (Edl : d = d_lo) by lia. assert (0 < d_lo) by lia.
      pose proof (Z.mod_pos_bound n_hi d_lo ltac:(lia)). pose proof (Z.div_mod n_hi d_lo ltac:(lia)).
      assert (0 <= n_hi / d_lo <= n_hi) by (split; [apply Z.div_pos; lia | apply Z.div_le_upper_bound; nia]).
      rewrite Edl. split; [lia|]. split; [lia|]. split; nia.
    - assert (Hno : d_hi <> 0 \/ n_hi < d_lo).
      { unfold need, nir_ieq, nir_uge in E. change (nir_imm_int 0) with 0 in E. rewrite Z.geb_leb in E.
        destruct (Z.eqb_spec d_hi 0), (Z.leb_spec d_lo n_hi); try discriminate; lia. }
      split; [lia|]. split; [lia|]. split; [|lia]. destruct Hno; nia. }
  destruct high as [n_hi' q_hi]. cbn [fst snd] in Hhigh. destruct Hhigh as (H1 & H2 & H3 & H4).
  rewrite pack_value by assumption. rewrite low_division by lia.
  set (n' := n_lo + n_hi' * 2 ^ 32) in *. assert (Hq : 0 <= n' / d < 2 ^ 32).
  { split; [apply Z.div_pos; lia | apply Z.div_lt_upper_bound; lia]. }
  rewrite pack_value by assumption. rewrite H4. rewrite (Z.mul_comm d), Z.div_add, Z.mod_add by lia. reflexivity.
Qed.

(** ** Signs *)

Lemma hi_range x : 0 <= x < 2 ^ 64 -> 0 <= x / 2 ^ 32 < 2 ^ 32.
Proof. intros Hx. split; [apply Z.div_pos; lia | apply Z.div_lt_upper_bound; lia]. Qed.

(** The sign of a 64-bit value is that of its high half. *)
Lemma high_sign x : 0 <= x < 2 ^ 64 -> nir_ilt 32 (nir_unpack_64_2x32_split_y x) (nir_imm_int 0) = (swrap 64 x <? 0).
Proof.
  intros Hx. rewrite split_y by assumption. pose proof (hi_range x Hx) as Hh. unfold nir_ilt. change (swrap 32 (nir_imm_int 0)) with 0.
  pose proof (Z.div_mod x (2 ^ 32) ltac:(lia)). pose proof (Z.mod_pos_bound x (2 ^ 32) ltac:(lia)).
  destruct (swrap_cases 32 (x / 2 ^ 32) ltac:(lia) Hh) as [[H1 ->]|[H1 ->]];
    destruct (swrap_cases 64 x ltac:(lia) Hx) as [[H2 ->]|[H2 ->]]; cbn -[Z.pow Z.div] in H1, H2;
    destruct (Z.ltb_spec (x / 2 ^ 32) 0), (Z.ltb_spec x 0), (Z.ltb_spec (x / 2 ^ 32 - 2 ^ 32) 0), (Z.ltb_spec (x - 2 ^ 64) 0); lia.
Qed.

(** The word of sign bits. *)
Lemma sign_word x : 0 <= x < 2 ^ 64 ->
  nir_ishr 32 (nir_unpack_64_2x32_split_y x) (nir_imm_int 31) = if swrap 64 x <? 0 then 2 ^ 32 - 1 else 0.
Proof.
  intros Hx. rewrite <- high_sign by assumption. rewrite split_y by assumption. pose proof (hi_range x Hx) as Hh.
  unfold nir_ilt, nir_ishr. change (swrap 32 (nir_imm_int 0)) with 0. change (nir_imm_int 31) with 31.
  rewrite Z.shiftr_div_pow2 by lia. pose proof (swrap_range 32 (x / 2 ^ 32) ltac:(lia)) as Hr.
  change (2 ^ (32 - 1)) with (2 ^ 31) in Hr. destruct (Z.ltb_spec (swrap 32 (x / 2 ^ 32)) 0).
  - assert (E : swrap 32 (x / 2 ^ 32) / 2 ^ 31 = -1) by (symmetry; apply (Z.div_unique _ _ _ (swrap 32 (x / 2 ^ 32) + 2 ^ 31)); lia).
    rewrite E. reflexivity.
  - rewrite Z.div_small by lia. reflexivity.
Qed.

Lemma isign64_spec x : 0 <= x < 2 ^ 64 -> lower_isign64 x = nir_isign 64 x.
Proof.
  intros Hx. unfold lower_isign64. cbv zeta. rewrite sign_word by assumption.
  assert (Ez : nir_i2b (nir_ior (nir_unpack_64_2x32_split_x x) (nir_unpack_64_2x32_split_y x)) = negb (swrap 64 x =? 0)).
  { unfold nir_i2b, nir_ior. f_equal. apply eq_true_iff_eq. rewrite !Z.eqb_eq, Z.lor_eq_0_iff, split_x, split_y by assumption.
    pose proof (Z.div_mod x (2 ^ 32) ltac:(lia)). pose proof (Z.mod_pos_bound x (2 ^ 32) ltac:(lia)).
    destruct (swrap_cases 64 x ltac:(lia) Hx) as [[H2 ->]|[H2 ->]]; cbn -[Z.pow Z.div Z.modulo] in H2; lia. }
  rewrite Ez. unfold nir_isign, nir_ior. rewrite Z.gtb_ltb.
  destruct (Z.ltb_spec (swrap 64 x) 0), (Z.eqb_spec (swrap 64 x) 0), (Z.ltb_spec 0 (swrap 64 x)); try lia; reflexivity.
Qed.

(** ** Signed division *)

Lemma abs_range x : 0 <= x < 2 ^ 64 -> 0 <= Z.abs (swrap 64 x) < 2 ^ 64.
Proof. intros Hx. pose proof (swrap_range 64 x ltac:(lia)). change (2 ^ (64 - 1)) with (2 ^ 63) in *. lia. Qed.

Lemma swrap_zero x : 0 <= x < 2 ^ 64 -> (swrap 64 x = 0 <-> x = 0).
Proof. intros Hx. destruct (swrap_cases 64 x ltac:(lia) Hx) as [[H2 ->]|[H2 ->]]; cbn -[Z.pow] in H2; lia. Qed.

(** The unsigned division of the magnitudes. *)
Lemma magnitudes others n d :
  0 <= n < 2 ^ 64 -> 0 <= d < 2 ^ 64 -> d <> 0 ->
  lower_udiv64_mod64 others (nir_iabs 64 n) (nir_iabs 64 d) =
    (Z.abs (swrap 64 n) / Z.abs (swrap 64 d), Z.abs (swrap 64 n) mod Z.abs (swrap 64 d)).
Proof.
  intros Hn Hd H0. rewrite !iabs_value by lia. pose proof (abs_range n Hn). pose proof (abs_range d Hd).
  apply udiv64_mod64_spec; [assumption|]. pose proof (swrap_zero d Hd). lia.
Qed.

Lemma quot_signs a b : b <> 0 ->
  Z.quot a b = if xorb (a <? 0) (b <? 0) then - (Z.abs a / Z.abs b) else Z.abs a / Z.abs b.
Proof.
  intros Hb. rewrite quot_magnitude by assumption. 
  destruct (Z.ltb_spec a 0), (Z.ltb_spec b 0); cbn [xorb eqb]; reflexivity.
Qed.

Lemma rem_signs a b : b <> 0 -> Z.rem a b = if a <? 0 then - (Z.abs a mod Z.abs b) else Z.abs a mod Z.abs b.
Proof.
  intros Hb. pose proof (Z.quot_rem a b Hb) as E. rewrite quot_signs in E by assumption.
  pose proof (Z.div_mod (Z.abs a) (Z.abs b) ltac:(lia)).
  destruct (Z.ltb_spec a 0), (Z.ltb_spec b 0); cbn [xorb] in E; nia.
Qed.

Lemma idiv64_spec others n d :
  0 <= n < 2 ^ 64 -> 0 <= d < 2 ^ 64 -> d <> 0 -> lower_idiv64 others n d = nir_idiv 64 n d.
Proof.
  intros Hn Hd H0. pose proof (swrap_zero d Hd) as Hz. unfold lower_idiv64, nir_idiv. cbv zeta.
  rewrite magnitudes, !high_sign by assumption. destruct (Z.eqb_spec (swrap 64 d) 0) as [E|Hs]; [tauto|].
  rewrite quot_signs by assumption. pose proof (abs_range n Hn).
  destruct (xorb _ _); cbn [nir_bcsel]; [reflexivity|]. symmetry. apply wrap_small.
  split; [apply Z.div_pos; lia|]. apply Z.div_lt_upper_bound; nia.
Qed.

Lemma rem_value n d : 0 <= n < 2 ^ 64 -> 0 <= d < 2 ^ 64 -> swrap 64 d <> 0 ->
  nir_bcsel (swrap 64 n <? 0) (nir_ineg 64 (Z.abs (swrap 64 n) mod Z.abs (swrap 64 d))) (Z.abs (swrap 64 n) mod Z.abs (swrap 64 d)) =
  wrap 64 (Z.rem (swrap 64 n) (swrap 64 d)).
Proof.
  intros Hn Hd Hs. rewrite rem_signs by assumption. destruct (swrap 64 n <? 0); cbn [nir_bcsel]; [reflexivity|].
  symmetry. apply wrap_small. pose proof (Z.mod_pos_bound (Z.abs (swrap 64 n)) (Z.abs (swrap 64 d)) ltac:(lia)).
  pose proof (abs_range d Hd). lia.
Qed.

Lemma irem64_spec others n d :
  0 <= n < 2 ^ 64 -> 0 <= d < 2 ^ 64 -> d <> 0 -> lower_irem64 others n d = nir_irem 64 n d.
Proof.
  intros Hn Hd H0. pose proof (swrap_zero d Hd) as Hz. unfold lower_irem64, nir_irem. cbv zeta.
  rewrite magnitudes, high_sign by assumption. destruct (Z.eqb_spec (swrap 64 d) 0) as [E|Hs]; [tauto|].
  now apply rem_value.
Qed.

Lemma imod64_spec others n d :
  0 <= n < 2 ^ 64 -> 0 <= d < 2 ^ 64 -> d <> 0 -> lower_imod64 others n d = nir_imod 64 n d.
Proof.
  intros Hn Hd H0. pose proof (swrap_zero d Hd) as Hz. unfold lower_imod64, nir_imod. cbv zeta.
  rewrite magnitudes, !high_sign by assumption. destruct (Z.eqb_spec (swrap 64 d) 0) as [E|Hs]; [tauto|].
  rewrite rem_value by assumption.
  set (r := Z.abs (swrap 64 n) mod Z.abs (swrap 64 d)).
  assert (Er : nir_ieq r 0 = (Z.rem (swrap 64 n) (swrap 64 d) =? 0)).
  { unfold nir_ieq. rewrite rem_signs by assumption. fold r. apply eq_true_iff_eq. rewrite !Z.eqb_eq.
    destruct (swrap 64 n <? 0); lia. }
  rewrite Er. destruct (Z.eqb_spec (Z.rem (swrap 64 n) (swrap 64 d)) 0) as [E|]; cbn [orb nir_bcsel].
  { rewrite E. reflexivity. }
  assert (Es : forall x, (x >=? 0) = negb (x <? 0)) by (intros x; rewrite Z.geb_leb; apply Z.leb_antisym).
  rewrite !Es. assert (Eb : forall a b, eqb (negb a) (negb b) = eqb a b) by (intros [|] [|]; reflexivity). rewrite Eb.
  destruct (eqb _ _); cbn [nir_bcsel]; [reflexivity|]. unfold nir_iadd. rewrite wrap_add_l. unfold wrap.
  rewrite <- Zplus_mod_idemp_r, <- (swrap_mod 64 d), Zplus_mod_idemp_r. reflexivity.
Qed.

(** ** Multiplication *)

Lemma product_range a b : 0 <= a < 2 ^ 32 -> 0 <= b < 2 ^ 32 -> 0 <= a * b <= (2 ^ 32 - 1) * (2 ^ 32 - 1).
Proof. intros Ha Hb. split; [nia|]. apply Z.mul_le_mono_nonneg; lia. Qed.

(** The 64-bit product of two words. *)
Lemma product_value a b : 0 <= a < 2 ^ 32 -> 0 <= b < 2 ^ 32 ->
  nir_pack_64_2x32_split (nir_imul 32 a b) (nir_umul_high 32 a b) = a * b.
Proof.
  intros Ha Hb. pose proof (product_range a b Ha Hb). rewrite umul_high_value by lia.
  unfold nir_imul. rewrite pack_value; [|apply wrap_range; lia | apply hi_range; lia].
  unfold wrap. pose proof (Z.div_mod (a * b) (2 ^ 32) ltac:(lia)). lia.
Qed.

Lemma imul64_spec x y : 0 <= x < 2 ^ 64 -> 0 <= y < 2 ^ 64 -> lower_imul64 x y = nir_imul 64 x y.
Proof.
  intros Hx Hy. unfold lower_imul64. cbv zeta. rewrite umul_high_value by (lia || apply wrap_range; lia).
  unfold nir_iadd, nir_imul. rewrite wrap_add_l, (wrap_add_r _ (_ * _)), wrap_add_r.
  rewrite (split_x x), (split_x y), !split_y by assumption.
  rewrite pack_value by (apply wrap_range; lia). unfold wrap.
  pose proof (Z.div_mod x (2 ^ 32) ltac:(lia)) as Ex. pose proof (Z.div_mod y (2 ^ 32) ltac:(lia)) as Ey.
  set (xl := x mod 2 ^ 32) in *. set (xh := x / 2 ^ 32) in *. set (yl := y mod 2 ^ 32) in *. set (yh := y / 2 ^ 32) in *.
  replace (x * y) with (xl * yl + (xl * yh + xh * yl) * 2 ^ 32 + xh * yh * 2 ^ 64) by (rewrite Ex, Ey; ring).
  rewrite Z_mod_plus_full. change (2 ^ 64) with (2 ^ 32 * 2 ^ 32).
  rewrite Z.rem_mul_r, Z_mod_plus_full, Z.div_add by lia. lia.
Qed.

(** The value of the words [res], a missing one counting as zero. *)
Definition word (o : option Z) : Z := match o with Some r => r | None => 0 end.

Definition words_value (l : list (option Z)) : Z := value (map word l).

Definition words_ok (l : list (option Z)) : Prop := Forall (fun o => word_ok (word o)) l.

Lemma words_value_upd i o l : 0 <= i < len l ->
  words_value (upd i (fun _ => o) l) = words_value l + (word o - word (get None l i)) * 2 ^ (32 * i).
Proof.
  intros Hi. assert (E : map word (upd i (fun _ => o) l) = upd i (fun _ => word o) (map word l)).
  { unfold upd. generalize (Z.to_nat i) as n. clear. induction l as [|a l IH]; intros [|n]; cbn [upd_nat map]; f_equal; auto. }
  unfold words_value. rewrite E, value_upd by (unfold len; rewrite length_map; exact Hi).
  do 3 f_equal. unfold get. exact (map_nth word l None (Z.to_nat i)).
Qed.

Lemma words_ok_get l i : words_ok l -> word_ok (word (get None l i)).
Proof.
  intros Hl. unfold get. destruct (nth_in_or_default (Z.to_nat i) l None) as [Hin| ->]; [|split; vm_compute; congruence].
  unfold words_ok in Hl. rewrite Forall_forall in Hl. auto.
Qed.

(** A step of the inner loop keeps the words plus the carry, at its place, up
    to the product of the two limbs. *)
Lemma mul_step_spec x32 y32 i j res carry :
  0 <= i -> 0 <= j -> i + j < len res -> Forall word_ok x32 -> Forall word_ok y32 ->
  words_ok res -> word_ok (word carry) ->
  exists res' carry', mul_step x32 y32 i (res, carry) j = (res', Some carry') /\
    len res' = len res /\ words_ok res' /\ word_ok carry' /\
    (forall k, i + j < k -> get None res' k = get None res k) /\
    words_value res' + carry' * 2 ^ (32 * (i + j + 1)) =
      words_value res + word carry * 2 ^ (32 * (i + j)) + get 0 x32 i * get 0 y32 j * 2 ^ (32 * (i + j)).
Proof.
  intros Hi Hj Hij Hx Hy Hres Hc.
  pose proof (get_word_ok x32 i Hx) as Ha. pose proof (get_word_ok y32 j Hy) as Hb.
  pose proof (words_ok_get res (i + j) Hres) as Hr. pose proof (product_range _ _ Ha Hb) as Hp.
  unfold word_ok in *. set (t := get 0 x32 i * get 0 y32 j + word (get None res (i + j)) + word carry).
  assert (Ht : 0 <= t < 2 ^ 64) by (unfold t; lia). pose proof (hi_range t Ht) as Hh.
  assert (Em : mul_step x32 y32 i (res, carry) j =
    (upd (i + j) (fun _ => Some (t mod 2 ^ 32)) res, Some (t / 2 ^ 32))).
  { unfold mul_step, nir_iadd, nir_u2u32, nir_u2u64, nir_ushr. cbv zeta. rewrite product_value by assumption.
    change (nir_imm_int 32) with 32. rewrite Z.shiftr_div_pow2 by lia.
    unfold t in *. destruct (get None res (i + j)) as [r|], carry as [c|]; cbn [word] in *;
      rewrite ?Z.add_0_r in *; rewrite ?wrap_add_l, ?(wrap_small 64) by lia; reflexivity. }
  rewrite Em. do 2 eexists. split; [reflexivity|]. split; [apply len_upd|]. split; [|split; [exact Hh|split]].
  - apply Forall_upd; [assumption|]. intros _ _. apply Z.mod_pos_bound. lia.
  - intros k Hk. rewrite get_upd by lia. destruct (Z.eqb_spec k (i + j)); [lia | reflexivity].
  - rewrite words_value_upd by lia. cbn [word]. replace (32 * (i + j + 1)) with (32 + 32 * (i + j)) by lia.
    rewrite Z.pow_add_r by lia. pose proof (Z.div_mod t (2 ^ 32) ltac:(lia)) as Et.
    replace (t mod 2 ^ 32) with (t - 2 ^ 32 * (t / 2 ^ 32)) by lia. unfold t. ring.
Qed.

(** A row adds one limb of [x] times the limbs of [y]. *)
Lemma mul_row_spec x32 y0 y1 y2 y3 i res :
  0 <= i -> i + 4 < len res -> Forall word_ok x32 -> Forall word_ok [y0; y1; y2; y3] -> words_ok res ->
  (forall k, i + 4 <= k -> get None res k = None) ->
  let res' := mul_row x32 [y0; y1; y2; y3] res i in
  len res' = len res /\ words_ok res' /\ (forall k, i + 5 <= k -> get None res' k = None) /\
  words_value res' = words_value res + get 0 x32 i * 2 ^ (32 * i) * (y0 + y1 * 2 ^ 32 + y2 * 2 ^ 64 + y3 * 2 ^ 96).
Proof.
  intros Hi Hl Hx Hy Hres Hnone. unfold mul_row. change (indices 4) with [0; 1; 2; 3]. cbn [fold_left].
  assert (H0 : word_ok (word None)) by (split; vm_compute; congruence).
  destruct (mul_step_spec x32 [y0; y1; y2; y3] i 0 res None) as (r0 & c0 & -> & L0 & O0 & C0 & G0 & V0); auto; [lia..|].
  destruct (mul_step_spec x32 [y0; y1; y2; y3] i 1 r0 (Some c0)) as (r1 & c1 & -> & L1 & O1 & C1 & G1 & V1); auto; [lia..|].
  destruct (mul_step_spec x32 [y0; y1; y2; y3] i 2 r1 (Some c1)) as (r2 & c2 & -> & L2 & O2 & C2 & G2 & V2); auto; [lia..|].
  destruct (mul_step_spec x32 [y0; y1; y2; y3] i 3 r2 (Some c2)) as (r3 & c3 & -> & L3 & O3 & C3 & G3 & V3); auto; [lia..|].
  assert (Hk : forall k, i + 4 <= k -> get None r3 k = None) by (intros k Hk; rewrite G3, G2, G1, G0 by lia; auto).
  cbn [option_map]. unfold nir_u2u32. rewrite wrap_small by exact C3.
  split; [rewrite len_upd; lia|]. split; [apply Forall_upd; auto|]. split.
  - intros k Hk'. rewrite get_upd by lia. destruct (Z.eqb_spec k (i + 4)); [lia|]. apply Hk. lia.
  - rewrite words_value_upd by lia. rewrite Hk by lia. cbn [word] in *.
    change (get 0 [y0; y1; y2; y3] 0) with y0 in V0. change (get 0 [y0; y1; y2; y3] 1) with y1 in V1.
    change (get 0 [y0; y1; y2; y3] 2) with y2 in V2. change (get 0 [y0; y1; y2; y3] 3) with y3 in V3.
    replace (i + 0 + 1) with (i + 1) in V0 by lia. replace (i + 1 + 1) with (i + 2) in V1 by lia.
    replace (i + 2 + 1) with (i + 3) in V2 by lia. replace (i + 3 + 1) with (i + 4) in V3 by lia.
    rewrite !Z.mul_add_distr_l, !Z.pow_add_r in * by lia. 
    change (2 ^ (32 * 0)) with 1 in *. change (2 ^ (32 * 1)) with (2 ^ 32) in *. change (2 ^ (32 * 2)) with (2 ^ 64) in *.
    change (2 ^ (32 * 3)) with (2 ^ 96) in *. change (2 ^ (32 * 4)) with (2 ^ 128) in *. lia.
Qed.

Lemma mul_rows_spec x0 x1 x2 x3 y0 y1 y2 y3 :
  Forall word_ok [x0; x1; x2; x3] -> Forall word_ok [y0; y1; y2; y3] ->
  let res := fold_left (mul_row [x0; x1; x2; x3] [y0; y1; y2; y3]) (indices 4) (repeat None 8) in
  len res = 8 /\ words_ok res /\
  words_value res = (x0 + x1 * 2 ^ 32 + x2 * 2 ^ 64 + x3 * 2 ^ 96) * (y0 + y1 * 2 ^ 32 + y2 * 2 ^ 64 + y3 * 2 ^ 96).
Proof.
  intros Hx Hy. change (indices 4) with [0; 1; 2; 3]. cbn [fold_left].
  assert (O : words_ok (repeat None 8)) by (apply Forall_forall; intros o Ho%repeat_spec; subst o; split; vm_compute; congruence).
  assert (N : forall k, 0 + 4 <= k -> get None (repeat (@None Z) 8) k = None) by (intros k _; apply nth_repeat).
  set (row := mul_row [x0; x1; x2; x3] [y0; y1; y2; y3]).
  assert (L : len (repeat (@None Z) 8) = 8) by reflexivity.
  destruct (mul_row_spec [x0; x1; x2; x3] y0 y1 y2 y3 0 (repeat None 8)) as (L0 & O0 & N0 & V0); auto; [lia..|].
  fold row in L0, O0, N0, V0. set (r0 := row _ 0) in *.
  destruct (mul_row_spec [x0; x1; x2; x3] y0 y1 y2 y3 1 r0) as (L1 & O1 & N1 & V1); auto; [lia..|].
  fold row in L1, O1, N1, V1. set (r1 := row _ 1) in *.
  destruct (mul_row_spec [x0; x1; x2; x3] y0 y1 y2 y3 2 r1) as (L2 & O2 & N2 & V2); auto; [lia..|].
  fold row in L2, O2, N2, V2. set (r2 := row _ 2) in *.
  destruct (mul_row_spec [x0; x1; x2; x3] y0 y1 y2 y3 3 r2) as (L3 & O3 & N3 & V3); auto; [lia..|].
  fold row in L3, O3, N3, V3. split; [lia|]. split; [assumption|].
  rewrite V3, V2, V1, V0. change (words_value (repeat None 8)) with 0.
  change (get 0 [x0; x1; x2; x3] 0) with x0. change (get 0 [x0; x1; x2; x3] 1) with x1.
  change (get 0 [x0; x1; x2; x3] 2) with x2. change (get 0 [x0; x1; x2; x3] 3) with x3.
  change (2 ^ (32 * 0)) with 1. change (2 ^ (32 * 1)) with (2 ^ 32). change (2 ^ (32 * 2)) with (2 ^ 64).
  change (2 ^ (32 * 3)) with (2 ^ 96). ring.
Qed.

(** The limbs are the operand, extended to 128 bits. *)
Lemma limbs_value x sign_extend : 0 <= x < 2 ^ 64 ->
  exists x0 x1 x2, limbs x sign_extend = [x0; x1; x2; x2] /\ Forall word_ok [x0; x1; x2; x2] /\
  x0 + x1 * 2 ^ 32 + x2 * 2 ^ 64 + x2 * 2 ^ 96 = wrap 128 (if sign_extend then swrap 64 x else x).
Proof.
  intros Hx. unfold limbs. cbv zeta. pose proof (hi_range x Hx). pose proof (Z.mod_pos_bound x (2 ^ 32) ltac:(lia)).
  pose proof (Z.div_mod x (2 ^ 32) ltac:(lia)) as Ex. do 3 eexists. split; [reflexivity|].
  rewrite sign_word by assumption. rewrite split_x, split_y by assumption.
  set (e := if sign_extend then _ else _).
  assert (He : e = 0 /\ (if sign_extend then swrap 64 x else x) = x \/ e = 2 ^ 32 - 1 /\ (if sign_extend then swrap 64 x else x) = x - 2 ^ 64).
  { unfold e. destruct sign_extend; [|left; split; reflexivity].
    destruct (swrap_cases 64 x ltac:(lia) Hx) as [[_ ->]|[_ ->]]; destruct (Z.ltb_spec x 0), (Z.ltb_spec (x - 2 ^ 64) 0); lia. }
  split.
  - assert (word_ok e) by (unfold word_ok; lia). do 4 (apply Forall_cons; [assumption|]). apply Forall_nil.
  - destruct He as [[-> ->]|[-> ->]]; rewrite ?wrap_small by lia; [lia|].
    unfold wrap. rewrite <- (Z_mod_plus_full (x - 2 ^ 64) 1), (Z.mod_small (_ + _)) by lia. lia.
Qed.

Lemma high_words res v : len res = 8 -> words_ok res -> words_value res = v ->
  nir_pack_64_2x32_split (word (get None res 2)) (word (get None res 3)) = wrap 64 (v / 2 ^ 64).
Proof.
  intros Hl Hok <-. rewrite pack_value by (apply words_ok_get; assumption). pose proof (words_ok_get res) as Hw.
  do 8 (destruct res as [|? res]; [discriminate Hl|]). destruct res; [|unfold len in Hl; cbn [length] in Hl; lia].
  pose proof (Hw 0 Hok) as H0. pose proof (Hw 1 Hok) as H1. pose proof (Hw 2 Hok) as H2. pose proof (Hw 3 Hok) as H3. clear Hw.
  unfold word_ok in *. unfold words_value. cbn [value map]. unfold get in *. change (Z.to_nat 3) with 3%nat in *. change (Z.to_nat 2) with 2%nat in *.
  change (Z.to_nat 1) with 1%nat in *. change (Z.to_nat 0) with 0%nat in *. cbn [nth] in *.
  set (top := word o3 + 2 ^ 32 * (word o4 + _)).
  assert (E : word o + 2 ^ 32 * (word o0 + 2 ^ 32 * (word o1 + 2 ^ 32 * (word o2 + 2 ^ 32 * top))) =
    2 ^ 64 * (word o1 + 2 ^ 32 * word o2 + top * 2 ^ 64) + (word o + 2 ^ 32 * word o0)) by ring.
  rewrite <- (Z.div_unique _ (2 ^ 64) _ (word o + 2 ^ 32 * word o0) ltac:(left; lia) E). unfold wrap. rewrite Z_mod_plus_full, Z.mod_small by lia. lia.
Qed.

Lemma mul_high64_spec x y sign_extend : 0 <= x < 2 ^ 64 -> 0 <= y < 2 ^ 64 ->
  lower_mul_high64 x y sign_extend =
    wrap 64 ((if sign_extend then swrap 64 x else x) * (if sign_extend then swrap 64 y else y) / 2 ^ 64).
Proof.
  intros Hx Hy. destruct (limbs_value x sign_extend Hx) as (x0 & x1 & x2 & Ex & Wx & Vx).
  destruct (limbs_value y sign_extend Hy) as (y0 & y1 & y2 & Ey & Wy & Vy).
  destruct (mul_rows_spec _ _ _ _ _ _ _ _ Wx Wy) as (L & O & V). rewrite Vx, Vy in V.
  unfold lower_mul_high64. cbv zeta. rewrite Ex, Ey. etransitivity; [exact (high_words _ _ L O V)|].
  generalize (if sign_extend then swrap 64 x else x) as X. generalize (if sign_extend then swrap 64 y else y) as Y. clear.
  intros Y X. unfold wrap. rewrite <- !middle_bits. f_equal. now rewrite <- Zmult_mod.
Qed.

Lemma umul_high64_spec x y : 0 <= x < 2 ^ 64 -> 0 <= y < 2 ^ 64 -> lower_mul_high64 x y false = nir_umul_high 64 x y.
Proof.
  intros Hx Hy. rewrite mul_high64_spec by assumption. rewrite umul_high_value by lia.
  apply wrap_small. split; [apply Z.div_pos; nia | apply Z.div_lt_upper_bound; nia].
Qed.

Lemma imul_high64_spec x y : 0 <= x < 2 ^ 64 -> 0 <= y < 2 ^ 64 -> lower_mul_high64 x y true = nir_imul_high 64 x y.
Proof.
  intros Hx Hy. rewrite mul_high64_spec by assumption. now rewrite imul_high_value by lia.
Qed.

(** ** The pass *)

(** What the constant expression of the replaced opcode computes; [None] for
    an opcode the pass does not lower. *)
Definition op_value (op : nir_op) (x y : Z) : option Z :=
  match op with
  | nir_op_imul => Some (nir_imul 64 x y)
  | nir_op_imul_high => Some (nir_imul_high 64 x y)
  | nir_op_umul_high => Some (nir_umul_high 64 x y)
  | nir_op_isign => Some (nir_isign 64 x)
  | nir_op_udiv => Some (nir_udiv 64 x y)
  | nir_op_idiv => Some (nir_idiv 64 x y)
  | nir_op_umod => Some (nir_umod 64 x y)
  | nir_op_imod => Some (nir_imod 64 x y)
  | nir_op_irem => Some (nir_irem 64 x y)
  | nir_op_other => None
  end.

Definition is_division (op : nir_op) : bool := opcode_to_options_mask op =? nir_lower_divmod64.

(** C4: the code [nir_lower_int64] puts in place of a 64-bit multiplication,
    high multiplication (signed or not), sign, division or remainder computes
    exactly the value of the opcode it replaces, on 32-bit halves, for every
    pair of operands with a non-zero divisor, for a scalar and for a component
    of a vector whatever the other components; every instruction the pass
    selects is one it can lower. *)
Theorem lower_int64_correct (others : option bool) (options : Z) (op : nir_op) (x y : Z) :
  0 <= x < 2 ^ 64 -> 0 <= y < 2 ^ 64 -> (is_division op = true -> y <> 0) ->
  replaced options 64 op = true ->
  exists v, lower_int64_alu_instr others op x y = Some v /\ op_value op x y = Some v /\ 0 <= v < 2 ^ 64.
Proof.
  intros Hx Hy Hd Hr. assert (Hop : op <> nir_op_other).
  { intros ->. unfold replaced in Hr. cbn [opcode_to_options_mask] in Hr. rewrite Z.land_0_r in Hr. discriminate Hr. }
  assert (W : forall z, 0 <= wrap 64 z < 2 ^ 64) by (intros; apply wrap_range; lia).
  assert (Hudm : is_division op = true -> nir_udiv 64 x y = x / y /\ nir_umod 64 x y = x mod y /\ 0 <= x / y < 2 ^ 64 /\ 0 <= x mod y < 2 ^ 64).
  { intros E. specialize (Hd E). unfold nir_udiv, nir_umod. destruct (Z.eqb_spec y 0); [contradiction|].
    pose proof (Z.mod_pos_bound x y ltac:(lia)). do 2 (split; [reflexivity|]).
    split; [split; [apply Z.div_pos; lia | apply Z.div_lt_upper_bound; nia] | lia]. }
  destruct op; try contradiction; cbn [lower_int64_alu_instr op_value]; eexists; (split; [reflexivity|]);
    try (specialize (Hd eq_refl); destruct (Hudm eq_refl) as (Eq & Em & Hq & Hm)); clear Hudm Hr.
  - rewrite imul64_spec by assumption. split; [reflexivity | apply W].
  - rewrite imul_high64_spec by assumption. split; [reflexivity|]. rewrite imul_high_value by lia. apply W.
  - rewrite umul_high64_spec by assumption. split; [reflexivity|]. rewrite <- umul_high64_spec, mul_high64_spec by assumption. apply W.
  - rewrite isign64_spec by assumption. split; [reflexivity | apply W].
  - unfold lower_udiv64. rewrite Eq, udiv64_mod64_spec by lia. auto.
  - rewrite idiv64_spec by assumption. split; [reflexivity|]. unfold nir_idiv. destruct (_ =? _); [lia | apply W].
  - unfold lower_umod64. rewrite Em, udiv64_mod64_spec by lia. auto.
  - rewrite imod64_spec by assumption. split; [reflexivity | apply W].
  - rewrite irem64_spec by assumption. split; [reflexivity|]. unfold nir_irem. destruct (_ =? _); [lia | apply W].
Qed.

Lemma lower_int64_correct_witness :
  exists v, lower_int64_alu_instr None nir_op_idiv (2 ^ 64 - 100) 7 = Some v /\ op_value nir_op_idiv (2 ^ 64 - 100) 7 = Some v /\ 0 <= v < 2 ^ 64.
Proof. apply (lower_int64_correct None nir_lower_divmod64 nir_op_idiv); [lia | lia | lia | vm_compute; reflexivity]. Defined.
