(* ===== verification/NirIdivConst.v ===== *)
(** * Division by constants: src/compiler/nir/nir_opt_idiv_const.c

    The [build_] functions are the values of the instructions they emit for
    a numerator [n] of [w] bits; an [outcome] because they call the magic
    number computations of [fast_idiv_by_const.c], which assert. *)

From Stdlib Require Import Bool ZArith List Lia.
From S2P Require Import Prelude Arrays FastIdiv FastSdiv Nir NirInt64.
Import ListNotations.
#[local] Open Scope bool_scope.
#[local] Open Scope Z_scope.
#[local] Open Scope c_scope.

Definition build_udiv (w n d : Z) : outcome Z :=
  if d =? 0 then Ret (nir_imm_intN_t 0 w)
  else if util_is_power_of_two_or_zero64 d then Ret (nir_ushr n (nir_imm_int (util_logbase2_64 d)))
  else
    let! m := util_compute_fast_udiv_info d w w in
    let n := if negb (pre_shift m =? 0) then nir_ushr n (nir_imm_int (pre_shift m)) else n in
    let n := if negb (increment m =? 0) then nir_uadd_sat w n (nir_imm_intN_t (increment m) w) else n in
    let n := nir_umul_high w n (nir_imm_intN_t (multiplier m) w) in
    let n := if negb (post_shift m =? 0) then nir_ushr n (nir_imm_int (post_shift m)) else n in
    Ret n.

Definition build_umod (w n d : Z) : outcome Z :=
  if d =? 0 then Ret (nir_imm_intN_t 0 w)
  else if util_is_power_of_two_or_zero64 d then Ret (nir_iand n (nir_imm_intN_t (u64 (d - 1)) w))
  else
    let! q := build_udiv w n d in
    Ret (nir_isub w n (nir_imul w q (nir_imm_intN_t d w))).

(** [d] is an [int64_t]. *)
Definition build_idiv (w n d : Z) : outcome Z :=
  if d =? 0 then Ret (nir_imm_intN_t 0 w)
  else if d =? 1 then Ret n
  else if d =? -1 then Ret (nir_ineg w n)
  else if util_is_power_of_two_or_zero64 (u64 d) then
    let abs_d := u64 (if d <? 0 then i64 (- d) else d) in
    let uq := nir_ishr w n (nir_imm_int (util_logbase2_64 abs_d)) in
    let n_neg := nir_ilt w n (nir_imm_intN_t 0 w) in
    let neg := if d <? 0 then negb n_neg else n_neg in
    Ret (nir_bcsel neg (nir_ineg w uq) uq)
  else
    let! m := util_compute_fast_sdiv_info d w in
    let res := nir_imul_high w n (nir_imm_intN_t (smultiplier m) w) in
    let res := if (d >? 0) && (smultiplier m <? 0) then nir_iadd w res n else res in
    let res := if (d <? 0) && (smultiplier m >? 0) then nir_isub w res n else res in
    let res := if negb (sshift m =? 0) then nir_ishr w res (nir_imm_int (sshift m)) else res in
    let res := nir_iadd w res (nir_ushr res (nir_imm_int (w - 1))) in
    Ret res.

(** The denominator of one channel: read as a signed [bit_size]-bit constant,
    masked for an unsigned opcode. *)
Definition denominator (is_uint : bool) (bit_size c : Z) : Z :=
  let d := swrap bit_size c in
  if is_uint && (bit_size <? 64) then Z.land d (u64 (u64 (Z.shiftl 1 bit_size) - 1)) else d.

(** One channel of [nir_opt_idiv_const_instr]; the other opcodes are
    [unreachable]. *)
Definition idiv_const_channel (op : nir_op) (bit_size n c : Z) : outcome Z :=
  match op with
  | nir_op_udiv => build_udiv bit_size n (u64 (denominator true bit_size c))
  | nir_op_idiv => build_idiv bit_size n (denominator false bit_size c)
  | nir_op_umod => build_umod bit_size n (u64 (denominator true bit_size c))
  | _ => Assert_failed
  end.

Fixpoint idiv_const_channels (op : nir_op) (bit_size : Z) (src0 const_denom : list Z) (swizzles : list (Z * Z)) : outcome (list Z) :=
  match swizzles with
  | [] => Ret []
  | (s0, s1) :: swizzles =>
      let! q := idiv_const_channel op bit_size (get 0 src0 s0) (get 0 const_denom s1) in
      let! qs := idiv_const_channels op bit_size src0 const_denom swizzles in
      Ret (q :: qs)
  end.

(** The vector that replaces an instruction, [None] when the denominator is not
    constant and it is left alone; [swizzles] has the swizzles of both sources
    for each channel of the destination. *)
Definition nir_opt_idiv_const_instr (op : nir_op) (bit_size : Z) (src0 : list Z) (const_denom : option (list Z))
    (swizzles : list (Z * Z)) : outcome (option (list Z)) :=
  match const_denom with
  | None => Ret None
  | Some const_denom => let! q := idiv_const_channels op bit_size src0 const_denom swizzles in Ret (Some q)
  end.

(** The instructions [nir_opt_idiv_const_impl] hands to it. *)
Definition idiv_const_considered (min_bit_size : Z) (op : nir_op) (bit_size : Z) : bool :=
  match op with
  | nir_op_udiv | nir_op_idiv | nir_op_umod => negb (bit_size <? min_bit_size)
  | _ => false
  end.

Example udiv_7 : build_udiv 32 4294967295 7 = Ret 613566756.
Proof. vm_compute. reflexivity. Qed.

Example idiv_m7 : build_idiv 16 (2 ^ 16 - 100) (-7) = Ret 14.
Proof. vm_compute. reflexivity. Qed.

(** ** Unsigned division *)

(** A shift by a constant count; the test for zero does not matter. *)
Lemma ushr_const n k : 0 <= k < 2 ^ 32 -> (if negb (k =? 0) then nir_ushr n (nir_imm_int k) else n) = Z.shiftr n k.
Proof.
  intros Hk. unfold nir_ushr, nir_imm_int. rewrite wrap_small by assumption.
  destruct (Z.eqb_spec k 0) as [->|]; [now rewrite Z.shiftr_0_r | reflexivity].
Qed.

Lemma uadd_sat_value w x y : 32 <= w <= 64 -> 0 <= x < 2 ^ w -> 0 <= y < 2 ^ w -> nir_uadd_sat w x y = Z.min (x + y) (2 ^ w - 1).
Proof.
  intros Hw Hx Hy. unfold nir_uadd_sat. cbv zeta. destruct (Z.ltb_spec w 32); [lia|].
  destruct (Z_lt_ge_dec (x + y) (2 ^ w)).
  - rewrite (wrap_small w (x + y)) by lia. destruct (Z.ltb_spec (x + y) x); [lia|]. rewrite wrap_small by lia. lia.
  - rewrite (wrap_once w (x + y)) by lia. destruct (Z.ltb_spec (x + y - 2 ^ w) x); [|lia].
    unfold wrap. replace (2 ^ 64 - 1) with (2 ^ w - 1 + (2 ^ (64 - w) - 1) * 2 ^ w).
    + rewrite Z_mod_plus_full, Z.mod_small by lia. lia.
    + rewrite Z.mul_sub_distr_r, <- Z.pow_add_r by lia. replace (64 - w + w) with 64 by lia. lia.
Qed.

Lemma build_udiv_spec w n d :
  w = 32 \/ w = 64 -> 0 <= n < 2 ^ w -> 0 < d < 2 ^ w -> build_udiv w n d = Ret (n / d).
Proof.
  intros Hw Hn Hd. unfold build_udiv. assert (H64 : 2 ^ w <= 2 ^ 64) by (apply Z.pow_le_mono_r; lia).
  destruct (Z.eqb_spec d 0); [lia|]. destruct (util_is_power_of_two_or_zero64 d) eqn:Ep.
  - apply is_power_of_two_spec in Ep; [|lia]. rewrite util_logbase2_64_log2 by lia.
    unfold nir_ushr, nir_imm_int. pose proof (Z.log2_nonneg d). assert (Z.log2 d < 64) by (apply Z.log2_lt_pow2; lia).
    rewrite wrap_small, Z.shiftr_div_pow2, <- Ep by lia. reflexivity.
  - assert (H1 : 1 < d) by (destruct (Z.eq_dec d 1) as [->|]; [discriminate Ep | lia]).
    destruct (compute_fast_udiv_spec d w w Hd ltac:(lia) ltac:(lia)) as (m & -> & [Hm Hpre Hpost Hinc _ Hsat _]).
    cbn [obind]. rewrite !ushr_const by lia. f_equal. rewrite <- (Hsat H1 n Hn). unfold udiv_sat_seq.
    assert (Hs : 0 <= Z.shiftr n (pre_shift m) < 2 ^ w).
    { rewrite Z.shiftr_div_pow2 by lia. pose proof (Z.pow_pos_nonneg 2 (pre_shift m) ltac:(lia) ltac:(lia)).
      split; [apply Z.div_pos; lia | apply Z.div_lt_upper_bound; nia]. }
    set (x := Z.shiftr n (pre_shift m)) in *. unfold nir_imm_intN_t.
    rewrite (wrap_small w (increment m)), (wrap_small w (multiplier m)) by lia.
    assert (Ei : (if negb (increment m =? 0) then nir_uadd_sat w x (increment m) else x) = Z.min (x + increment m) (2 ^ w - 1)).
    { destruct (Z.eqb_spec (increment m) 0) as [->|]; cbn [negb]; [lia | apply uadd_sat_value; lia]. }
    rewrite Ei, umul_high_value by lia. now rewrite <- Z.shiftr_div_pow2 by lia.
Qed.

Lemma build_umod_spec w n d :
  w = 32 \/ w = 64 -> 0 <= n < 2 ^ w -> 0 < d < 2 ^ w -> build_umod w n d = Ret (n mod d).
Proof.
  intros Hw Hn Hd. unfold build_umod. assert (H64 : 2 ^ w <= 2 ^ 64) by (apply Z.pow_le_mono_r; lia).
  destruct (Z.eqb_spec d 0); [lia|]. destruct (util_is_power_of_two_or_zero64 d) eqn:Ep.
  - apply is_power_of_two_spec in Ep; [|lia]. unfold nir_iand, nir_imm_intN_t.
    rewrite (wrap_small 64 (d - 1)), (wrap_small w (d - 1)) by lia.
    replace (d - 1) with (Z.ones (Z.log2 d)) by (rewrite Z.ones_equiv, <- Ep; lia).
    rewrite Z.land_ones, <- Ep by apply Z.log2_nonneg. reflexivity.
  - rewrite build_udiv_spec by assumption. cbn [obind]. f_equal. unfold nir_isub, nir_imul, nir_imm_intN_t.
    rewrite wrap_sub_r, (wrap_small w d) by lia. pose proof (Z.div_mod n d ltac:(lia)). pose proof (Z.mod_pos_bound n d ltac:(lia)).
    replace (n - n / d * d) with (n mod d) by lia. apply wrap_small. lia.
Qed.

(** ** Signed division *)

(** The bits of a signed value, and back. *)
Lemma swrap_wrap w r : 1 <= w -> in_s w r -> swrap w (wrap w r) = r.
Proof. intros Hw Hr. rewrite <- (swrap_small w r Hw Hr) at 2. apply swrap_cong, Zmod_mod. Qed.

Lemma wrap_swrap w x : wrap w (swrap w x) = wrap w x.
Proof. apply swrap_mod. Qed.

(** The sequence of [build_idiv] is the documented one, on bit patterns. *)
Lemma build_seq w n d m :
  3 <= w <= 32 \/ w = 64 -> 0 <= n < 2 ^ w -> in_s w (smultiplier m) -> 0 <= sshift m < w ->
  (let res := nir_imul_high w n (nir_imm_intN_t (smultiplier m) w) in
   let res := if (d >? 0) && (smultiplier m <? 0) then nir_iadd w res n else res in
   let res := if (d <? 0) && (smultiplier m >? 0) then nir_isub w res n else res in
   let res := if negb (sshift m =? 0) then nir_ishr w res (nir_imm_int (sshift m)) else res in
   nir_iadd w res (nir_ushr res (nir_imm_int (w - 1)))) = wrap w (sdiv_seq w d m (swrap w n)).
Proof.
  intros Hw Hn Hm Hs. cbv zeta. unfold sdiv_seq. cbv zeta. unfold nir_imm_intN_t.
  assert (Hpw : 2 ^ w = 2 * 2 ^ (w - 1)) by (rewrite <- Z.pow_succ_r by lia; f_equal; lia).
  assert (Hp1 : 0 < 2 ^ (w - 1)) by (apply Z.pow_pos_nonneg; lia).
  rewrite imul_high_value, swrap_wrap by (lia || assumption || (apply wrap_range; lia)).
  rewrite (Z.mul_comm (swrap w n)), <- Z.shiftr_div_pow2, <- (wrap_swrap w (Z.shiftr _ _)) by lia.
  set (r0 := swrap w (Z.shiftr _ w)). assert (H0 : in_s w r0) by (apply swrap_range; lia).
  assert (En : forall a, wrap w (wrap w a + n) = wrap w (swrap w (a + swrap w n))).
  { intros a. rewrite wrap_swrap, wrap_add_l, <- (wrap_add_r w a (swrap w n)), wrap_swrap, wrap_add_r. reflexivity. }
  assert (En' : forall a, wrap w (wrap w a - n) = wrap w (swrap w (a - swrap w n))).
  { intros a. rewrite wrap_swrap, wrap_sub_l, <- (wrap_sub_r w a (swrap w n)), wrap_swrap, wrap_sub_r. reflexivity. }
  set (c1 := (d >? 0) && _). set (r1 := if c1 then swrap w (r0 + swrap w n) else r0).
  assert (E1 : (if c1 then nir_iadd w (wrap w r0) n else wrap w r0) = wrap w r1) by (unfold r1; destruct c1; [apply En | reflexivity]).
  assert (H1 : in_s w r1) by (unfold r1; destruct c1; [apply swrap_range; lia | assumption]). rewrite E1. clearbody r1. clear E1 H0.
  set (c2 := (d <? 0) && _). set (r2 := if c2 then swrap w (r1 - swrap w n) else r1).
  assert (E2 : (if c2 then nir_isub w (wrap w r1) n else wrap w r1) = wrap w r2) by (unfold r2; destruct c2; [apply En' | reflexivity]).
  assert (H2 : in_s w r2) by (unfold r2; destruct c2; [apply swrap_range; lia | assumption]). rewrite E2. clearbody r2. clear E2 H1.
  assert (E3 : (if negb (sshift m =? 0) then nir_ishr w (wrap w r2) (nir_imm_int (sshift m)) else wrap w r2) =
               wrap w (if sshift m >? 0 then Z.shiftr r2 (sshift m) else r2)).
  { unfold nir_ishr, nir_imm_int. rewrite (wrap_small 32), swrap_wrap by (assumption || lia). rewrite Z.gtb_ltb.
    destruct (Z.eqb_spec (sshift m) 0), (Z.ltb_spec 0 (sshift m)); try lia; reflexivity. }
  rewrite E3. clear E3. set (r3 := if sshift m >? 0 then _ else r2).
  assert (H3 : in_s w r3).
  { unfold r3. destruct (sshift m >? 0); [|assumption]. rewrite Z.shiftr_div_pow2 by lia. unfold in_s in *.
    pose proof (Z.pow_pos_nonneg 2 (sshift m) ltac:(lia) ltac:(lia)).
    split; [apply Z.div_le_lower_bound; nia | apply Z.div_lt_upper_bound; nia]. }
  clearbody r3. unfold nir_iadd, nir_ushr, nir_imm_int. rewrite (wrap_small 32) by lia. rewrite Z.shiftr_div_pow2, wrap_add_l, wrap_swrap by lia.
  unfold in_s in H3. do 2 f_equal. destruct (Z.ltb_spec r3 0).
  - unfold wrap. rewrite <- (Z_mod_plus_full r3 1), Z.mod_small by lia.
    symmetry. apply (Z.div_unique _ _ _ (r3 + 2 ^ (w - 1))); lia.
  - rewrite wrap_small by lia. apply Z.div_small. lia.
Qed.

(** The divisors [build_idiv] does not shift by. *)
Definition not_shifted (d : Z) : Prop := d = 0 \/ d = 1 \/ d = -1 \/ util_is_power_of_two_or_zero64 (u64 d) = false.

Lemma build_idiv_spec w n c :
  3 <= w <= 32 \/ w = 64 -> 0 <= n < 2 ^ w -> 0 <= c < 2 ^ w -> not_shifted (swrap w c) ->
  build_idiv w n (swrap w c) = Ret (nir_idiv w n c).
Proof.
  intros Hw Hn Hc Hd. unfold build_idiv, nir_idiv. set (d := swrap w c) in *.
  assert (Hds : in_s w d) by (apply swrap_range; lia).
  destruct (Z.eqb_spec d 0) as [->|H0]; [reflexivity|].
  destruct (Z.eqb_spec d 1) as [->|H1]; [rewrite Z.quot_1_r, wrap_swrap, wrap_small by assumption; reflexivity|].
  destruct (Z.eqb_spec d (-1)) as [->|H2].
  { change (-1) with (- (1)). rewrite Z.quot_opp_r, Z.quot_1_r by lia. unfold nir_ineg. f_equal.
    replace (- n) with (0 - n) by lia. replace (- swrap w n) with (0 - swrap w n) by lia. rewrite <- (wrap_sub_r w 0 (swrap w n)), wrap_swrap, wrap_sub_r. reflexivity. }
  destruct Hd as [|[|[|Hp]]]; [contradiction..|]. rewrite Hp.
  assert (Hdiv : sdiv_divisor w d).
  { split; [assumption|]. split; [|auto]. destruct (Z.eq_dec d (- 2 ^ 63)) as [->|]; [discriminate Hp|].
    unfold in_s in Hds. assert (2 ^ (w - 1) <= 2 ^ 63) by (apply Z.pow_le_mono_r; lia). lia. }
  destruct (sdiv_seq_spec w d ltac:(lia) Hdiv) as (m & -> & Hm & Hs & Hseq). cbn [obind]. f_equal.
  etransitivity; [exact (build_seq w n d m Hw Hn Hm Hs)|]. rewrite Hseq by (apply swrap_range; lia). reflexivity.
Qed.

(** ** The pass *)

Lemma denominator_uint w c : 1 <= w <= 64 -> 0 <= c < 2 ^ w -> u64 (denominator true w c) = c.
Proof.
  intros Hw Hc. unfold denominator. cbv zeta. assert (H64 : 2 ^ w <= 2 ^ 64) by (apply Z.pow_le_mono_r; lia).
  destruct (Z.ltb_spec w 64); cbn [andb].
  - rewrite Z.shiftl_1_l, (wrap_small 64 (2 ^ w)), (wrap_small 64 (2 ^ w - 1)) by (try (split; [lia | apply Z.pow_lt_mono_r; lia]); lia).
    replace (2 ^ w - 1) with (Z.ones w) by (rewrite Z.ones_equiv; lia). rewrite Z.land_ones, swrap_mod, Z.mod_small by lia.
    apply wrap_small. lia.
  - assert (w = 64) as -> by lia. rewrite wrap_swrap. now apply wrap_small.
Qed.

(** The instructions on which the pass is exact. *)
Definition idiv_const_exact (op : nir_op) (w c : Z) : Prop :=
  match op with
  | nir_op_udiv | nir_op_umod => w = 32 \/ w = 64
  | nir_op_idiv => (w = 8 \/ w = 16 \/ w = 32 \/ w = 64) /\ not_shifted (swrap w c)
  | _ => False
  end.

Definition op_value_w (op : nir_op) (w n c : Z) : Z :=
  match op with
  | nir_op_udiv => nir_udiv w n c
  | nir_op_umod => nir_umod w n c
  | _ => nir_idiv w n c
  end.

Lemma idiv_const_channel_spec op w n c :
  0 <= n < 2 ^ w -> 0 <= c < 2 ^ w -> idiv_const_exact op w c ->
  idiv_const_channel op w n c = Ret (op_value_w op w n c).
Proof.
  intros Hn Hc Hop. destruct op; try contradiction; cbn [idiv_const_channel op_value_w idiv_const_exact] in *.
  - rewrite denominator_uint by lia. unfold nir_udiv. destruct (Z.eqb_spec c 0) as [->|]; [reflexivity | apply build_udiv_spec; lia].
  - destruct Hop as [Hw Hd]. change (denominator false w c) with (swrap w c). apply build_idiv_spec; auto. lia.
  - rewrite denominator_uint by lia. unfold nir_umod. destruct (Z.eqb_spec c 0) as [->|]; [reflexivity | apply build_umod_spec; lia].
Qed.

(** C23: on a vector division or remainder by a constant the pass emits code
    that trips no assertion and computes in every channel the value of the
    opcode: unsigned division and remainder at 32 and 64 bits for every
    divisor, zero included, and signed division at 8 to 64 bits for 0, 1, -1
    and the divisors that are not powers of two; without a constant
    denominator the instruction is left alone. *)
Theorem idiv_const_correct (op : nir_op) (w : Z) (src0 const_denom : list Z) (swizzles : list (Z * Z)) :
  (forall s0 s1, In (s0, s1) swizzles ->
     0 <= get 0 src0 s0 < 2 ^ w /\ 0 <= get 0 const_denom s1 < 2 ^ w /\ idiv_const_exact op w (get 0 const_denom s1)) ->
  nir_opt_idiv_const_instr op w src0 (Some const_denom) swizzles =
    Ret (Some (map (fun s => op_value_w op w (get 0 src0 (fst s)) (get 0 const_denom (snd s))) swizzles)) /\
  nir_opt_idiv_const_instr op w src0 None swizzles = Ret None.
Proof.
  intros H. split; [|reflexivity]. unfold nir_opt_idiv_const_instr.
  assert (E : idiv_const_channels op w src0 const_denom swizzles =
    Ret (map (fun s => op_value_w op w (get 0 src0 (fst s)) (get 0 const_denom (snd s))) swizzles)); [|now rewrite E].
  induction swizzles as [|[s0 s1] swizzles IH]; [reflexivity|]. cbn [idiv_const_channels map fst snd].
  destruct (H s0 s1 (or_introl eq_refl)) as (H1 & H2 & H3). rewrite idiv_const_channel_spec by assumption. cbn [obind].
  rewrite IH; [reflexivity|]. intros a b Hin. apply H. now right.
Qed.

Lemma idiv_const_correct_witness :
  nir_opt_idiv_const_instr nir_op_idiv 32 [100; 4294967196] (Some [7]) [(1, 0); (0, 0)] = Ret (Some [4294967282; 14]).
Proof.
  refine (proj1 (idiv_const_correct nir_op_idiv 32 [100; 4294967196] [7] [(1, 0); (0, 0)] _)).
  intros s0 s1 [E|[E|[]]]; injection E; intros <- <-; cbv -[not_shifted];
    repeat split; try congruence; auto; unfold not_shifted; do 3 right; reflexivity.
Defined.

(** Dividing a negative number by a positive power of two, the code
    negates the arithmetic shift, which already is negative: for every such
    numerator the result is not the quotient but its opposite, rounded up. *)
Theorem idiv_pow2_wrong_sign (w n k : Z) :
  w = 8 \/ w = 16 \/ w = 32 \/ w = 64 -> 1 <= k <= w - 2 -> - 2 ^ (w - 1) <= n < 0 ->
  build_idiv w (wrap w n) (2 ^ k) = Ret (wrap w (- (n / 2 ^ k))) /\
  nir_idiv w (wrap w n) (2 ^ k) = wrap w (Z.quot n (2 ^ k)) /\
  build_idiv w (wrap w n) (2 ^ k) <> Ret (nir_idiv w (wrap w n) (2 ^ k)).
Proof.
  intros Hw Hk Hn.
  assert (Hk1 : 2 ^ 1 <= 2 ^ k) by (apply Z.pow_le_mono_r; lia). change (2 ^ 1) with 2 in Hk1.
  assert (Hk2 : 2 ^ k < 2 ^ (w - 1)) by (apply Z.pow_lt_mono_r; lia).
  assert (Hp : 2 ^ (w - 1) <= 2 ^ 63) by (apply Z.pow_le_mono_r; lia).
  assert (Hpw : 2 ^ w = 2 * 2 ^ (w - 1)) by (rewrite <- Z.pow_succ_r by lia; f_equal; lia).
  assert (Esn : swrap w (wrap w n) = n) by (apply swrap_wrap; [lia | unfold in_s; lia]).
  assert (Esd : swrap w (2 ^ k) = 2 ^ k) by (apply swrap_small; lia).
  assert (Ed : nir_idiv w (wrap w n) (2 ^ k) = wrap w (Z.quot n (2 ^ k))).
  { unfold nir_idiv. rewrite Esd, Esn. destruct (Z.eqb_spec (2 ^ k) 0); [lia | reflexivity]. }
  assert (Hq : - 2 ^ (w - 1) <= n / 2 ^ k < 0) by (split; [apply Z.div_le_lower_bound; nia | apply Z.div_lt_upper_bound; lia]).
  assert (Eb : build_idiv w (wrap w n) (2 ^ k) = Ret (wrap w (- (n / 2 ^ k)))).
  { unfold build_idiv. destruct (Z.eqb_spec (2 ^ k) 0), (Z.eqb_spec (2 ^ k) 1), (Z.eqb_spec (2 ^ k) (-1)); try lia.
    rewrite (wrap_small 64 (2 ^ k)) by lia.
    assert (Ep : util_is_power_of_two_or_zero64 (2 ^ k) = true) by (apply is_power_of_two_spec; [lia | now rewrite Z.log2_pow2 by lia]).
    rewrite Ep. destruct (Z.ltb_spec (2 ^ k) 0); [lia|]. rewrite (wrap_small 64 (2 ^ k)), util_logbase2_64_log2, Z.log2_pow2 by lia.
    unfold nir_ilt, nir_ishr, nir_imm_int, nir_imm_intN_t. rewrite (wrap_small 32 k), Esn, Z.shiftr_div_pow2 by lia.
    replace (swrap w (wrap w 0)) with 0 by (symmetry; apply swrap_wrap; [lia | unfold in_s; lia]).
    destruct (Z.ltb_spec n 0); [|lia]. cbn [nir_bcsel]. unfold nir_ineg. f_equal.
    replace (- wrap w (n / 2 ^ k)) with (0 - wrap w (n / 2 ^ k)) by lia. rewrite wrap_sub_r. f_equal. }
  split; [exact Eb|]. split; [exact Ed|]. rewrite Eb, Ed. intros E. injection E as E.
  assert (Hquot : - 2 ^ (w - 1) < Z.quot n (2 ^ k) <= 0).
  { rewrite quot_magnitude by lia. destruct (Z.ltb_spec n 0), (Z.ltb_spec (2 ^ k) 0); try lia. cbn [eqb].
    assert (0 <= Z.abs n / Z.abs (2 ^ k)) by (apply Z.div_pos; lia).
    assert (Z.abs n / Z.abs (2 ^ k) < 2 ^ (w - 1)) by (apply Z.div_lt_upper_bound; nia). lia. }
  unfold wrap in E. rewrite (Z.mod_small (- _)) in E by lia. destruct (Z.eq_dec (Z.quot n (2 ^ k)) 0) as [E0|].
  - rewrite E0, Z.mod_0_l in E by lia. lia.
  - rewrite <- (Z_mod_plus_full (Z.quot n (2 ^ k)) 1), Z.mod_small in E by lia.
    assert (- (n / 2 ^ k) <= 2 ^ (w - 2)).
    { enough (- 2 ^ (w - 2) <= n / 2 ^ k) by lia. apply Z.div_le_lower_bound; [lia|].
      assert (2 ^ (w - 1) = 2 * 2 ^ (w - 2)) by (rewrite <- Z.pow_succ_r by lia; f_equal; lia). nia. }
    assert (2 ^ (w - 1) = 2 * 2 ^ (w - 2)) by (rewrite <- Z.pow_succ_r by lia; f_equal; lia). lia.
Qed.

Lemma idiv_pow2_wrong_sign_witness : build_idiv 32 (2 ^ 32 - 8) (2 ^ 2) = Ret 2 /\ nir_idiv 32 (2 ^ 32 - 8) (2 ^ 2) = 2 ^ 32 - 2.
Proof.
  destruct (idiv_pow2_wrong_sign 32 (-8) 2) as (H1 & H2 & _); [lia..|]. split; [exact H1 | exact H2].
Defined.

(** At 8 and 16 bits the constant expression of [uadd_sat] is evaluated in
    [int] and never saturates, so that a division by 7 of the largest byte
    folds to the wrong value. *)
Example udiv_8_bits_wrong : build_udiv 8 255 7 = Ret 0 /\ nir_udiv 8 255 7 = 36 /\ nir_uadd_sat 8 255 1 = 0.
Proof. vm_compute. repeat split. Qed.
