(* ===== verification/RbTree.v ===== *)
(** * Red-black trees: src/util/rb_tree.c and rb_tree.h

    Nodes live in a store indexed by their address, with the colour in the low
    bit of the parent word.  An access through a pointer that is not the
    address of a node of the store, [NULL] included, has no result, like a
    failed assertion.  The branches of the two fix-up loops for the right
    child are the mirror images of those for the left child; both are written
    once, for a [side].  The loops get as many rounds as the store has nodes
    and one more. *)

From stdpp Require Import base gmap numbers.
From Stdlib Require Import ZArith.
From S2P Require Import Prelude StateM.
#[local] Open Scope bool_scope.
#[local] Open Scope Z_scope.

(** The least significant bit of [parent] is 1 for black. *)
Record rb_node := RbNode { parent : Z; left : Z; right : Z }.
(** [root] is the member of the [struct rb_tree]. *)
Record rb_tree := RbTree { root : Z; mem : gmap Z rb_node }.

#[export] Instance rb_node_eta : Eta rb_node := fun n => RbNode (parent n) (left n) (right n).

(** ** State and errors *)

Abbreviation M := (ST rb_tree).
#[local] Open Scope state_scope.

Definition get_root : M Z := fun s => Ret (root s, s).
Definition set_root (v : Z) : M unit := fun s => Ret (tt, RbTree v (mem s)).
Definition deref (n : Z) : M rb_node := fun s => match mem s !! n with Some v => Ret (v, s) | None => Assert_failed end.
Definition store (n : Z) (v : rb_node) : M unit := fun s => Ret (tt, RbTree (root s) (<[n := v]> (mem s))).
Definition modify (n : Z) (f : rb_node -> rb_node) : M unit := let* v := deref n in store n (f v).
Definition rounds : M nat := fun s => Ret (S (size (mem s)), s).

#[local] Open Scope c_scope.

(** ** Colours and parents *)

Definition NOT_1 : Z := 2 ^ 64 - 2.

Definition rb_node_parent (n : Z) : M Z := let* v := deref n in ret (Z.land (parent v) NOT_1).

Definition rb_node_is_black (n : Z) : M bool :=
  if n =? 0 then ret true else let* v := deref n in ret (negb (Z.land (parent v) 1 =? 0)).

Definition rb_node_is_red (n : Z) : M bool := let* b := rb_node_is_black n in ret (negb b).

Definition rb_node_set_black (n : Z) : M unit := modify n (fun v => v <| parent := Z.lor (parent v) 1 |>).
Definition rb_node_set_red (n : Z) : M unit := modify n (fun v => v <| parent := Z.land (parent v) NOT_1 |>).

Definition rb_node_copy_color (dst src : Z) : M unit :=
  let* s := deref src in
  modify dst (fun v => v <| parent := Z.lor (Z.land (parent v) NOT_1) (Z.land (parent s) 1) |>).

Definition rb_node_set_parent (n p : Z) : M unit :=
  modify n (fun v => v <| parent := Z.lor (Z.land (parent v) 1) p |>).

(** ** Sides *)

Inductive side := L | R.
Definition opp (d : side) : side := match d with L => R | R => L end.
Definition child (d : side) (n : rb_node) : Z := match d with L => left n | R => right n end.
Definition set_child (d : side) (v : Z) (n : rb_node) : rb_node :=
  match d with L => n <| left := v |> | R => n <| right := v |> end.

(** ** Shape *)

(** [rb_node_minimum] for [L], [rb_node_maximum] for [R]. *)
Fixpoint outermost (fuel : nat) (d : side) (node : Z) : M Z :=
  match fuel with
  | O => fun _ => Out_of_fuel
  | S fuel =>
      let* v := deref node in
      if negb (child d v =? 0) then outermost fuel d (child d v) else ret node
  end.

Definition rb_node_minimum (node : Z) : M Z := let* n := rounds in outermost n L node.
Definition rb_node_maximum (node : Z) : M Z := let* n := rounds in outermost n R node.

Definition rb_tree_init : M unit := set_root 0.
Definition rb_tree_is_empty : M bool := let* r := get_root in ret (r =? 0).

Definition rb_tree_splice (u v : Z) : M unit :=
  m_assert (negb (u =? 0)) ;;
  let* p := rb_node_parent u in
  (if p =? 0 then
     let* r := get_root in
     m_assert (r =? u) ;;
     set_root v
   else
     let* pn := deref p in
     if u =? left pn then modify p (fun n => n <| left := v |>)
     else
       m_assert (u =? right pn) ;;
       modify p (fun n => n <| right := v |>)) ;;
  if negb (v =? 0) then rb_node_set_parent v p else ret tt.

(** [rb_tree_rotate_left] for [L], [rb_tree_rotate_right] for [R]. *)
Definition rotate (d : side) (x : Z) : M unit :=
  m_assert (negb (x =? 0)) ;;
  let* xn := deref x in
  m_assert (negb (child (opp d) xn =? 0)) ;;
  let y := child (opp d) xn in
  let* yn := deref y in
  modify x (set_child (opp d) (child d yn)) ;;
  (if negb (child d yn =? 0) then rb_node_set_parent (child d yn) x else ret tt) ;;
  rb_tree_splice x y ;;
  modify y (set_child d x) ;;
  rb_node_set_parent x y.

Definition rb_tree_rotate_left (x : Z) : M unit := rotate L x.
Definition rb_tree_rotate_right (y : Z) : M unit := rotate R y.

(** ** Insertion *)

(** The body of the loop when [z_p] is the [d] child of [z_p_p]: the next
    [z]. *)
Definition insert_body (d : side) (z z_p z_p_p : Z) : M Z :=
  let* ppn := deref z_p_p in
  let y := child (opp d) ppn in
  let* y_red := rb_node_is_red y in
  if (y_red : bool) then
    rb_node_set_black z_p ;;
    rb_node_set_black y ;;
    rb_node_set_red z_p_p ;;
    ret z_p_p
  else
    let* zpn := deref z_p in
    let* (z, z_p, z_p_p) :=
      (if z =? child (opp d) zpn then
         let z := z_p in
         rotate d z ;;
         let* z_p := rb_node_parent z in
         let* zpn := deref z_p in
         m_assert ((z =? left zpn) || (z =? right zpn)) ;;
         let* z_p_p := rb_node_parent z_p in
         ret (z, z_p, z_p_p)
       else ret (z, z_p, z_p_p)) in
    rb_node_set_black z_p ;;
    rb_node_set_red z_p_p ;;
    rotate (opp d) z_p_p ;;
    ret z.

Fixpoint insert_fixup (fuel : nat) (z : Z) : M unit :=
  match fuel with
  | O => fun _ => Out_of_fuel
  | S fuel =>
      let* z_p := rb_node_parent z in
      let* p_red := rb_node_is_red z_p in
      if (p_red : bool) then
        let* zpn := deref z_p in
        m_assert ((z =? left zpn) || (z =? right zpn)) ;;
        let* z_p_p := rb_node_parent z_p in
        m_assert (negb (z_p_p =? 0)) ;;
        let* ppn := deref z_p_p in
        let* z := (if z_p =? left ppn then insert_body L z z_p z_p_p else insert_body R z z_p z_p_p) in
        insert_fixup fuel z
      else ret tt
  end.

Definition rb_tree_insert_at (parent node : Z) (insert_left : bool) : M unit :=
  store node (RbNode 0 0 0) ;;
  if parent =? 0 then
    let* r := get_root in
    m_assert (r =? 0) ;;
    set_root node ;;
    rb_node_set_black node
  else
    let* pn := deref parent in
    (if insert_left then m_assert (left pn =? 0) ;; modify parent (fun n => n <| left := node |>)
     else m_assert (right pn =? 0) ;; modify parent (fun n => n <| right := node |>)) ;;
    rb_node_set_parent node parent ;;
    let* n := rounds in
    insert_fixup n node ;;
    let* r := get_root in
    rb_node_set_black r.

(** ** Removal *)

(** The rest of the body of the loop once the sibling [w] is black. *)
Definition remove_black_sibling (d : side) (x_p w : Z) : M Z :=
  let* wn := deref w in
  let* near_black := rb_node_is_black (child d wn) in
  let* far_black := rb_node_is_black (child (opp d) wn) in
  if near_black && far_black then
    rb_node_set_red w ;;
    ret x_p
  else
    let* w :=
      (if (far_black : bool) then
         rb_node_set_black (child d wn) ;;
         rb_node_set_red w ;;
         rotate (opp d) w ;;
         let* xpn := deref x_p in
         ret (child (opp d) xpn)
       else ret w) in
    rb_node_copy_color w x_p ;;
    rb_node_set_black x_p ;;
    let* wn := deref w in
    rb_node_set_black (child (opp d) wn) ;;
    rotate d x_p ;;
    get_root.

(** The body of the loop when [x] is the [d] child of [x_p]: the next [x]. *)
Definition remove_body (d : side) (x x_p : Z) : M Z :=
  let* xpn := deref x_p in
  let w := child (opp d) xpn in
  let* w_red := rb_node_is_red w in
  let* w :=
    (if (w_red : bool) then
       rb_node_set_black w ;;
       rb_node_set_red x_p ;;
       rotate d x_p ;;
       let* xpn := deref x_p in
       m_assert (x =? child d xpn) ;;
       ret (child (opp d) xpn)
     else ret w) in
  remove_black_sibling d x_p w.

(** The loop, and the node it ends on. *)
Fixpoint remove_fixup (fuel : nat) (x x_p : Z) : M Z :=
  match fuel with
  | O => fun _ => Out_of_fuel
  | S fuel =>
      let* r := get_root in
      let* x_black := (if x =? r then ret false else rb_node_is_black x) in
      if (x_black : bool) then
        let* xpn := deref x_p in
        let* x := (if x =? left xpn then remove_body L x x_p else remove_body R x x_p) in
        let* x_p := rb_node_parent x in
        remove_fixup fuel x x_p
      else ret x
  end.

(** The unlinking of [z]: [x], [x_p] and [y_was_black]. *)
Definition remove_unlink (z : Z) : M (Z * Z * bool) :=
  let* z_black := rb_node_is_black z in
  let* zn := deref z in
  if left zn =? 0 then
    let x := right zn in
    let* x_p := rb_node_parent z in
    rb_tree_splice z x ;;
    ret (x, x_p, z_black)
  else if right zn =? 0 then
    let x := left zn in
    let* x_p := rb_node_parent z in
    rb_tree_splice z x ;;
    ret (x, x_p, z_black)
  else
    let* y := rb_node_minimum (right zn) in
    let* y_was_black := rb_node_is_black y in
    let* yn := deref y in
    let x := right yn in
    let* y_p := rb_node_parent y in
    let* x_p :=
      (if y_p =? z then ret y
       else
         let* x_p := rb_node_parent y in
         rb_tree_splice y x ;;
         let* zn := deref z in
         modify y (fun n => n <| right := right zn |>) ;;
         rb_node_set_parent (right zn) y ;;
         ret x_p) in
    let* yn := deref y in
    m_assert (left yn =? 0) ;;
    rb_tree_splice z y ;;
    let* zn := deref z in
    modify y (fun n => n <| left := left zn |>) ;;
    rb_node_set_parent (left zn) y ;;
    rb_node_copy_color y z ;;
    ret (x, x_p, y_was_black).

Definition rb_tree_remove (z : Z) : M unit :=
  let* (x, x_p, y_was_black) := remove_unlink z in
  (if x_p =? 0 then ret tt
   else
     let* xpn := deref x_p in
     m_assert ((x =? left xpn) || (x =? right xpn))) ;;
  if negb y_was_black then ret tt
  else
    let* n := rounds in
    let* x := remove_fixup n x x_p in
    if negb (x =? 0) then rb_node_set_black x else ret tt.

(** ** Traversal *)

Definition rb_tree_first : M Z := let* r := get_root in if negb (r =? 0) then rb_node_minimum r else ret 0.
Definition rb_tree_last : M Z := let* r := get_root in if negb (r =? 0) then rb_node_maximum r else ret 0.

(** The climb of [rb_node_next] ([R]) and [rb_node_prev] ([L]). *)
Fixpoint climb (fuel : nat) (d : side) (node p : Z) : M Z :=
  match fuel with
  | O => fun _ => Out_of_fuel
  | S fuel =>
      if p =? 0 then ret p
      else
        let* pn := deref p in
        if node =? child d pn then
          let* p' := rb_node_parent p in
          climb fuel d p p'
        else
          m_assert (node =? child (opp d) pn) ;;
          ret p
  end.

Definition rb_node_next (node : Z) : M Z :=
  let* v := deref node in
  if negb (right v =? 0) then rb_node_minimum (right v)
  else
    let* p := rb_node_parent node in
    let* n := rounds in
    climb n R node p.

Definition rb_node_prev (node : Z) : M Z :=
  let* v := deref node in
  if negb (left v =? 0) then rb_node_maximum (left v)
  else
    let* p := rb_node_parent node in
    let* n := rounds in
    climb n L node p.

(** ** Search

    The keys are in the structures around the nodes: [cmp] is a function of the
    addresses, or of an address and a key. *)

Fixpoint insert_search (cmp : Z -> Z -> Z) (fuel : nat) (node x y : Z) (lft : bool) : M (Z * bool) :=
  match fuel with
  | O => fun _ => Out_of_fuel
  | S fuel =>
      if x =? 0 then ret (y, lft)
      else
        let lft := cmp node x <? 0 in
        let* v := deref x in
        insert_search cmp fuel node (if lft then left v else right v) x lft
  end.

Definition rb_tree_insert (cmp : Z -> Z -> Z) (node : Z) : M unit :=
  let* x := get_root in
  let* n := rounds in
  let* (y, lft) := insert_search cmp n node x 0 false in
  rb_tree_insert_at y node lft.

(** The two searches differ in what they return at a leaf: [None] for
    [rb_tree_search], the last node for [rb_tree_search_sloppy]. *)
Fixpoint rb_search_loop {K} (cmp : Z -> K -> Z) (fuel : nat) (key : K) (x y : Z) : M (Z * Z) :=
  match fuel with
  | O => fun _ => Out_of_fuel
  | S fuel =>
      if x =? 0 then ret (x, y)
      else
        let c := cmp x key in
        if c <? 0 then let* v := deref x in rb_search_loop cmp fuel key (right v) x
        else if c >? 0 then let* v := deref x in rb_search_loop cmp fuel key (left v) x
        else ret (x, x)
  end.

Definition rb_tree_search {K} (cmp : Z -> K -> Z) (key : K) : M Z :=
  let* x := get_root in
  let* n := rounds in
  let* (x, y) := rb_search_loop cmp n key x 0 in
  ret x.

Definition rb_tree_search_sloppy {K} (cmp : Z -> K -> Z) (key : K) : M Z :=
  let* x := get_root in
  let* n := rounds in
  let* (x, y) := rb_search_loop cmp n key x 0 in
  ret y.

(** ** Validation *)

Fixpoint validate_rb_node (fuel : nat) (n black_depth : Z) : M unit :=
  match fuel with
  | O => fun _ => Out_of_fuel
  | S fuel =>
      if n =? 0 then m_assert (black_depth =? 0)
      else
        let* b := rb_node_is_black n in
        let* v := deref n in
        let* black_depth :=
          (if (b : bool) then ret (black_depth - 1)
           else
             let* bl := rb_node_is_black (left v) in
             m_assert bl ;;
             let* br := rb_node_is_black (right v) in
             m_assert br ;;
             ret black_depth) in
        validate_rb_node fuel (left v) black_depth ;;
        validate_rb_node fuel (right v) black_depth
  end.

Fixpoint left_black_depth (fuel : nat) (n depth : Z) : M Z :=
  match fuel with
  | O => fun _ => Out_of_fuel
  | S fuel =>
      if n =? 0 then ret depth
      else
        let* b := rb_node_is_black n in
        let* v := deref n in
        left_black_depth fuel (left v) (if (b : bool) then depth + 1 else depth)
  end.

Definition rb_tree_validate : M unit :=
  let* r := get_root in
  if r =? 0 then ret tt
  else
    let* b := rb_node_is_black r in
    m_assert b ;;
    let* n := rounds in
    let* black_depth := left_black_depth n r 0 in
    validate_rb_node n r black_depth.

(** ** Examples *)

Definition run {A} (m : M A) : outcome A := omap_out fst (m (RbTree 0 ∅)).
Fixpoint insert_all (l : list Z) : M unit :=
  match l with [] => ret tt | a :: l => rb_tree_insert Z.sub a ;; insert_all l end.
Fixpoint remove_all (l : list Z) : M unit :=
  match l with [] => ret tt | a :: l => rb_tree_remove a ;; rb_tree_validate ;; remove_all l end.

Example insert_example : run (insert_all [8; 2; 16; 4; 32; 6; 10; 12] ;; rb_tree_validate ;; rb_node_next 12) = Ret 16.
Proof. vm_compute. reflexivity. Qed.

Example remove_example :
  run (insert_all [8; 2; 16; 4; 32; 6; 10; 12] ;; remove_all [8; 2; 16; 10; 4] ;; rb_tree_first) = Ret 6.
Proof. vm_compute. reflexivity. Qed.
