(* ===== verification/RbAbs.v ===== *)
(** * Red-black trees as data: the abstract operations and their correctness

    Trees of addresses, contexts (the path from a node to the root with the
    subtrees that hang off it), and what the two fix-up loops of rb_tree.c do
    to them. *)

From stdpp Require Import base list numbers.
From Stdlib Require Import ZArith Lia.
From S2P Require Import Prelude StateM RbTree.
#[local] Open Scope Z_scope.

Inductive color := Red | Black.
#[export] Instance color_eq_dec : EqDecision color.
Proof. solve_decision. Defined.

Inductive tree := Leaf | Node (c : color) (l : tree) (a : Z) (r : tree).

(** A node seen from one of its sides: [x] is the [d] child. *)
Definition nd (d : side) (c : color) (x : tree) (a : Z) (y : tree) : tree :=
  match d with L => Node c x a y | R => Node c y a x end.

(** A node with a hole for its [fside] child. *)
Record frame := Frame { fside : side; fcolor : color; faddr : Z; fsib : tree }.

Definition plug1 (f : frame) (t : tree) : tree := nd (fside f) (fcolor f) t (faddr f) (fsib f).
(** The innermost frame comes first. *)
Fixpoint plug (k : list frame) (t : tree) : tree := match k with [] => t | f :: k => plug k (plug1 f t) end.

Definition tcolor (t : tree) : color := match t with Leaf => Black | Node c _ _ _ => c end.
Definition recolor (c : color) (t : tree) : tree := match t with Leaf => Leaf | Node _ l a r => Node c l a r end.
Definition addr (t : tree) : Z := match t with Leaf => 0 | Node _ _ a _ => a end.

Fixpoint inorder (t : tree) : list Z :=
  match t with Leaf => [] | Node _ l a r => inorder l ++ a :: inorder r end.

(** The two subtrees of a node, the [d] one first. *)
Definition view (d : side) (t : tree) : option (tree * Z * tree) :=
  match t with
  | Leaf => None
  | Node _ l a r => Some (match d with L => (l, a, r) | R => (r, a, l) end)
  end.

(** ** The abstract operations *)

Definition rotated (d : side) (t : tree) : tree :=
  match view d t with
  | Some (A, x, u) =>
      match view d u with
      | Some (B, y, C) => nd d (tcolor u) (nd d (tcolor t) A x B) y C
      | None => t
      end
  | None => t
  end.

Definition same (d1 d2 : side) : bool := match d1, d2 with L, L | R, R => true | _, _ => false end.

(** The tree after the insertion loop has started on the red node [t]. *)
Fixpoint ins_fix (k : list frame) (t : tree) : tree :=
  match k with
  | Frame d1 Red p sib :: Frame d c pp y :: k2 =>
      match tcolor y with
      | Red => ins_fix k2 (nd d Red (nd d1 Black t p sib) pp (recolor Black y))
      | Black =>
          let inner := if same d1 d then nd d Red t p sib else rotated d (nd d Red sib p t) in
          plug k2 (rotated (opp d) (nd d Red (recolor Black inner) pp y))
      end
  | _ => plug k t
  end.

Definition insert_result (k : list frame) (t : tree) : tree := recolor Black (ins_fix k t).

(** The removal loop on a black [w]: the subtree it leaves at the place of the
    parent [p], or [None] when the loop goes on with [p]. *)
Definition del_local (d : side) (c : color) (t : tree) (p : Z) (w : tree) : option tree :=
  match view d w with
  | Some (near, wa, far) =>
      match tcolor near, tcolor far with
      | Black, Black => None
      | _, Red => Some (rotated d (nd d Black t p (nd d c near wa (recolor Black far))))
      | Red, Black =>
          match view d (rotated (opp d) (nd d Red (recolor Black near) wa far)) with
          | Some (near, wa, far) => Some (rotated d (nd d Black t p (nd d c near wa (recolor Black far))))
          | None => None
          end
      end
  | None => None
  end.

(** The tree after the removal loop has started on [t], whose black height is
    one less than its context expects. *)
Fixpoint del_fix (k : list frame) (t : tree) : tree :=
  match k with
  | [] => recolor Black t
  | Frame d c p w :: k1 =>
      match tcolor t, tcolor w, view d w with
      | Red, _, _ => plug k (recolor Black t)
      | Black, Red, Some (near, wa, far) =>
          match del_local d Red t p near with
          | Some t' => recolor Black (plug k1 (nd d Black t' wa far))
          | None => plug k1 (nd d Black (nd d Black t p (recolor Red near)) wa far)
          end
      | _, _, _ =>
          match del_local d c t p w with
          | Some t' => recolor Black (plug k1 t')
          | None => del_fix k1 (nd d c t p (recolor Red w))
          end
      end
  end.

(** ** Both sides at once *)

Lemma view_nd d c x a y : view d (nd d c x a y) = Some (x, a, y).
Proof. by destruct d. Qed.
Lemma view_Some d t x a y : view d t = Some (x, a, y) -> t = nd d (tcolor t) x a y.
Proof. destruct t, d; intros [= <- <- <-]; reflexivity. Qed.
Lemma view_None d t : view d t = None -> t = Leaf.
Proof. by destruct t. Qed.
Lemma nd_opp d c x a y : nd (opp d) c x a y = nd d c y a x.
Proof. by destruct d. Qed.
Lemma tcolor_nd d c x a y : tcolor (nd d c x a y) = c.
Proof. by destruct d. Qed.
Lemma addr_nd d c x a y : addr (nd d c x a y) = a.
Proof. by destruct d. Qed.
Lemma recolor_nd d c c' x a y : recolor c (nd d c' x a y) = nd d c x a y.
Proof. by destruct d. Qed.
Lemma same_spec d1 d2 : same d1 d2 = true /\ d1 = d2 \/ same d1 d2 = false /\ d1 = opp d2.
Proof. destruct d1, d2; auto. Qed.
Lemma red_view d t : tcolor t = Red -> exists x a y, t = nd d Red x a y.
Proof. destruct t as [|c l a r]; [done|]. cbn. intros ->. destruct d; [by exists l, a, r | by exists r, a, l]. Qed.

Lemma rotated_nd d c1 A x c2 B y C :
  rotated d (nd d c1 A x (nd d c2 B y C)) = nd d c2 (nd d c1 A x B) y C.
Proof. unfold rotated. by rewrite !view_nd, !tcolor_nd. Qed.

Lemma rotated_opp d c1 A x c2 B y C :
  rotated (opp d) (nd d c1 (nd d c2 C y B) x A) = nd d c2 C y (nd d c1 B x A).
Proof. by destruct d. Qed.

Create Rewrite HintDb rb.
#[export] Hint Rewrite view_nd tcolor_nd addr_nd recolor_nd rotated_nd rotated_opp : rb.

(** ** The invariant *)

(** [rb n t]: [t] has black height [n] and no red node has a red child. *)
Inductive rb : nat -> tree -> Prop :=
| rb_leaf : rb 0 Leaf
| rb_red n l a r : rb n l -> rb n r -> tcolor l = Black -> tcolor r = Black -> rb n (Node Red l a r)
| rb_black n l a r : rb n l -> rb n r -> rb (S n) (Node Black l a r).

Definition rb_ok (t : tree) : Prop := tcolor t = Black /\ exists n, rb n t.

(** A context that takes a black tree of black height [n] to a red-black
    tree, and a red one too if its innermost frame is black. *)
Inductive kok : list frame -> nat -> Prop :=
| kok_nil n : kok [] n
| kok_black d a sib k n : rb n sib -> kok k (S n) -> kok (Frame d Black a sib :: k) n
| kok_red d a sib d' a' sib' k n :
    rb n sib -> tcolor sib = Black -> kok (Frame d' Black a' sib' :: k) n ->
    kok (Frame d Red a sib :: Frame d' Black a' sib' :: k) n.

Lemma rb_nd_red d n x a y : rb n (nd d Red x a y) <-> rb n x /\ rb n y /\ tcolor x = Black /\ tcolor y = Black.
Proof. destruct d; cbn; (split; [by inversion 1 | intros (? & ? & ? & ?); by constructor]). Qed.

Lemma rb_nd_black d n x a y : rb (S n) (nd d Black x a y) <-> rb n x /\ rb n y.
Proof. destruct d; cbn; (split; [by inversion 1 | intros (? & ?); by constructor]). Qed.

Lemma rb_black_S n t : rb n t -> tcolor t = Black -> t = Leaf /\ n = 0%nat \/ exists m, n = S m.
Proof. intros H Ht. inversion H; subst; [by left | done | by right; eexists]. Qed.

Lemma rb_recolor_black n t : rb n t -> tcolor t = Red -> rb (S n) (recolor Black t).
Proof. intros H Ht. inversion H; subst; [done | by constructor | done]. Qed.

Lemma rb_recolor_red n t d x a y : rb (S n) t -> t = nd d Black x a y -> tcolor x = Black -> tcolor y = Black -> rb n (recolor Red t).
Proof. intros H -> Hx Hy. apply rb_nd_black in H as [? ?]. rewrite recolor_nd. by apply rb_nd_red. Qed.

Lemma plug_ok_gen k n t : kok k n -> rb n t -> (tcolor t = Red -> match k with f :: _ => fcolor f = Black | [] => False end) ->
  rb_ok (plug k t).
Proof.
  intros Hk. revert t. induction Hk as [n|d a sib k n Hs Hk IH|d a sib d' a' sib' k n Hs Hc Hk IH]; intros t Ht Hred.
  - split; [|by eexists]. cbn. destruct (tcolor t) eqn:E; [by destruct (Hred eq_refl) | done].
  - cbn [plug plug1 fside fcolor faddr fsib]. apply IH; [by apply rb_nd_black | by destruct d].
  - cbn [fcolor] in Hred. destruct (tcolor t) eqn:E; [by specialize (Hred eq_refl)|].
    change (plug (Frame d Red a sib :: Frame d' Black a' sib' :: k) t) with (plug (Frame d' Black a' sib' :: k) (nd d Red t a sib)).
    apply IH; [by apply rb_nd_red | done].
Qed.

Lemma plug_ok k n t : kok k n -> rb n t -> tcolor t = Black -> rb_ok (plug k t).
Proof. intros Hk Ht E. eapply plug_ok_gen; [done..|]. rewrite E. done. Qed.

Lemma recolor_ok t n : rb n t -> rb_ok (recolor Black t).
Proof. inversion 1; subst; (split; [done|]); eexists; econstructor; eassumption. Qed.

Lemma rb_ok_recolor t : rb_ok t -> rb_ok (recolor Black t).
Proof. intros [Hc [n Hn]]. by eapply recolor_ok. Qed.

(** One frame at a time. *)
Lemma kok_tail f k n : kok (f :: k) n -> exists m, kok k m.
Proof. inversion 1; eauto. Qed.

Lemma ins_fix_ok k t n : kok k n -> rb n t -> tcolor t = Red -> rb_ok (insert_result k t).
Proof.
  remember (length k) as len eqn:Hlen. revert k t n Hlen.
  induction len as [len IH] using (well_founded_induction lt_wf). intros k t n -> Hk Ht Hred. unfold insert_result.
  destruct Hk as [n|d a sib k n Hs Hk|d1 p sib d pp y k n Hs Hc Hk].
  - cbn [ins_fix plug]. by eapply recolor_ok.
  - cbn [ins_fix]. apply rb_ok_recolor. eapply plug_ok_gen; [by constructor | done | done].
  - inversion Hk as [|? ? ? ? ? Hy Hk2|]; subst. cbn [ins_fix]. destruct (tcolor y) eqn:Ey.
    + eapply (IH (length k)); [cbn; lia | done | exact Hk2 | | by rewrite tcolor_nd].
      apply rb_nd_red. rewrite tcolor_nd. repeat split; [| by apply rb_recolor_black | by destruct y].
      by apply rb_nd_black.
    + apply rb_ok_recolor. apply (plug_ok _ _ _ Hk2).
      * destruct (same_spec d1 d) as [[-> ->]|[-> ->]].
        -- autorewrite with rb. apply rb_nd_black. split; [done|]. apply rb_nd_red. done.
        -- destruct (red_view d t Hred) as (x & z & w & ->). apply rb_nd_red in Ht as (? & ? & ? & ?).
           autorewrite with rb. apply rb_nd_black. split; apply rb_nd_red; done.
      * destruct (same_spec d1 d) as [[-> ->]|[-> ->]]; [by autorewrite with rb|].
        destruct (red_view d t Hred) as (x & z & w & ->). by autorewrite with rb.
Qed.

(** Where [del_local] answers, it restores the height; else both children of
    the sibling are black. *)
Lemma del_local_ok d c t p w n :
  rb n t -> tcolor t = Black -> rb (S n) w -> tcolor w = Black ->
  match del_local d c t p w with
  | Some u => tcolor u = c /\ (c = Red -> rb (S n) u) /\ (c = Black -> rb (S (S n)) u)
  | None => rb n (recolor Red w)
  end.
Proof.
  intros Ht Hct Hw Hcw. unfold del_local. destruct (view d w) as [[[near wa] far]|] eqn:Ev.
  2: { apply view_None in Ev as ->. inversion Hw. }
  apply view_Some in Ev. rewrite Hcw in Ev. pose proof Hw as Hw'. rewrite Ev in Hw'. apply rb_nd_black in Hw' as [Hnear Hfar].
  destruct (tcolor near) eqn:En, (tcolor far) eqn:Ef.
  - destruct (red_view d far Ef) as (x & b & y & ->). autorewrite with rb. apply rb_nd_red in Hfar as (? & ? & ? & ?).
    split; [done|]. split; intros ->; [apply rb_nd_red; autorewrite with rb | apply rb_nd_black].
    all: rewrite !rb_nd_black; done.
  - destruct (red_view d near En) as (x & b & y & ->). autorewrite with rb. apply rb_nd_red in Hnear as (? & ? & ? & ?).
    split; [done|]. split; intros ->; [apply rb_nd_red; autorewrite with rb | apply rb_nd_black].
    all: rewrite !rb_nd_black; done.
  - destruct (red_view d far Ef) as (x & b & y & ->). autorewrite with rb. apply rb_nd_red in Hfar as (? & ? & ? & ?).
    split; [done|]. split; intros ->; [apply rb_nd_red; autorewrite with rb | apply rb_nd_black].
    all: rewrite !rb_nd_black; done.
  - eapply rb_recolor_red; eauto.
Qed.

Lemma del_fix_red f k t : tcolor t = Red -> del_fix (f :: k) t = plug (f :: k) (recolor Black t).
Proof. intros E. destruct f. cbn [del_fix]. by rewrite E. Qed.

Lemma del_fix_sib_red d c p k t near wa far : tcolor t = Black ->
  del_fix (Frame d c p (nd d Red near wa far) :: k) t =
  match del_local d Red t p near with
  | Some t' => recolor Black (plug k (nd d Black t' wa far))
  | None => plug k (nd d Black (nd d Black t p (recolor Red near)) wa far)
  end.
Proof. intros E. cbn [del_fix]. by rewrite E, tcolor_nd, view_nd. Qed.

Lemma del_fix_sib_black d c p k t w : tcolor t = Black -> tcolor w = Black ->
  del_fix (Frame d c p w :: k) t =
  match del_local d c t p w with
  | Some t' => recolor Black (plug k t')
  | None => del_fix k (nd d c t p (recolor Red w))
  end.
Proof. intros E Ew. cbn [del_fix]. by rewrite E, Ew. Qed.

Lemma del_fix_ok k t n : kok k (S n) -> rb n t -> rb_ok (del_fix k t).
Proof.
  remember (S n) as m eqn:Hm. intros Hk. revert n t Hm.
  induction Hk as [m|d a w k m Hs Hk IH|d a w d' a' sib' k m Hs Hc Hk IH]; intros n t -> Ht.
  { by eapply recolor_ok. }
  all: destruct (tcolor t) eqn:Et;
    [rewrite del_fix_red by done; apply (plug_ok _ (S n)); [by constructor | by apply rb_recolor_black | by destruct t]|].
  - destruct (tcolor w) eqn:Ew.
    + destruct (red_view d w Ew) as (near & wa & far & ->). rewrite del_fix_sib_red by done.
      apply rb_nd_red in Hs as (Hnear & Hfar & Hcn & Hcf).
      pose proof (del_local_ok d Red t a near n Ht Et Hnear Hcn) as Hl. destruct (del_local d Red t a near) as [u|].
      * destruct Hl as (_ & Hu & _). apply rb_ok_recolor, (plug_ok _ _ _ Hk); [apply rb_nd_black; auto | by autorewrite with rb].
      * apply (plug_ok _ _ _ Hk); [rewrite !rb_nd_black; auto | by autorewrite with rb].
    + rewrite del_fix_sib_black by done.
      pose proof (del_local_ok d Black t a w n Ht Et Hs Ew) as Hl. destruct (del_local d Black t a w) as [u|].
      * destruct Hl as (Hcu & _ & Hu). apply rb_ok_recolor, (plug_ok _ _ _ Hk); auto.
      * apply (IH (S n)); [done|]. by apply rb_nd_black.
  - rewrite del_fix_sib_black by done.
    pose proof (del_local_ok d Red t a w n Ht Et Hs Hc) as Hl. destruct (del_local d Red t a w) as [u|].
    + destruct Hl as (Hcu & Hu & _). apply rb_ok_recolor. apply (plug_ok_gen (Frame d' Black a' sib' :: k) (S n)); auto.
    + rewrite del_fix_red, recolor_nd by apply tcolor_nd.
      apply (plug_ok (Frame d' Black a' sib' :: k) (S n)); [done | by apply rb_nd_black | by rewrite tcolor_nd].
Qed.

(** ** The sequence of the nodes *)

Definition before (f : frame) : list Z := match fside f with L => [] | R => inorder (fsib f) ++ [faddr f] end.
Definition after (f : frame) : list Z := match fside f with L => faddr f :: inorder (fsib f) | R => [] end.
Fixpoint kbefore (k : list frame) : list Z := match k with [] => [] | f :: k => kbefore k ++ before f end.
Fixpoint kafter (k : list frame) : list Z := match k with [] => [] | f :: k => after f ++ kafter k end.

Lemma inorder_plug1 f t : inorder (plug1 f t) = before f ++ inorder t ++ after f.
Proof. destruct f as [[] c a s]; cbn; by rewrite ?app_nil_r, <- ?app_assoc. Qed.

Lemma inorder_plug k t : inorder (plug k t) = kbefore k ++ inorder t ++ kafter k.
Proof.
  revert t. induction k as [|f k IH]; intros t; cbn [plug kbefore kafter]; [by rewrite app_nil_r|].
  rewrite IH, inorder_plug1. by rewrite <- !app_assoc.
Qed.

Lemma inorder_recolor c t : inorder (recolor c t) = inorder t.
Proof. by destruct t. Qed.

Lemma inorder_plug_eq k t u : inorder t = inorder u -> inorder (plug k t) = inorder (plug k u).
Proof. intros E. by rewrite !inorder_plug, E. Qed.

Lemma inorder_rotated d t : inorder (rotated d t) = inorder t.
Proof.
  unfold rotated. destruct (view d t) as [[[A x] u]|] eqn:E1; [|done]. apply view_Some in E1.
  destruct (view d u) as [[[B y] C]|] eqn:E2; [|done]. apply view_Some in E2. rewrite E1 at 2. rewrite E2 at 2.
  destruct d; cbn; by rewrite <- !app_assoc.
Qed.

Lemma inorder_nd_eq d c c' x x' a y y' : inorder x = inorder x' -> inorder y = inorder y' ->
  inorder (nd d c x a y) = inorder (nd d c' x' a y').
Proof. intros E1 E2. destruct d; cbn; by rewrite E1, E2. Qed.

Lemma inorder_ins_fix k t : inorder (ins_fix k t) = inorder (plug k t).
Proof.
  remember (length k) as len eqn:Hlen. revert k t Hlen. induction len as [len IH] using (well_founded_induction lt_wf). intros k t ->.
  destruct k as [|[d1 [|] p sib] [|[d c pp y] k2]]; try done. cbn [ins_fix]. destruct (tcolor y) eqn:Ey.
  - rewrite (IH (length k2)) by (done || cbn; lia). cbn [plug]. apply inorder_plug_eq.
    unfold plug1. cbn [fside fcolor faddr fsib]. apply inorder_nd_eq; [by apply inorder_nd_eq | apply inorder_recolor].
  - cbn [plug]. apply inorder_plug_eq. rewrite inorder_rotated. unfold plug1. cbn [fside fcolor faddr fsib].
    apply inorder_nd_eq; [|done]. rewrite inorder_recolor. destruct (same_spec d1 d) as [[-> ->]|[-> ->]]; [done|].
    by rewrite inorder_rotated, nd_opp.
Qed.

Lemma inorder_del_local d c c' t p w u : del_local d c t p w = Some u -> inorder u = inorder (nd d c' t p w).
Proof.
  unfold del_local. destruct (view d w) as [[[near wa] far]|] eqn:Ev; [|done]. apply view_Some in Ev.
  assert (E : forall near' wa' far' u', u' = rotated d (nd d Black t p (nd d c near' wa' (recolor Black far'))) ->
    inorder (nd d Red near' wa' far') = inorder w -> inorder u' = inorder (nd d c' t p w)).
  { intros near' wa' far' u' -> E. rewrite inorder_rotated. apply inorder_nd_eq; [done|]. rewrite <- E.
    apply inorder_nd_eq; [done | apply inorder_recolor]. }
  assert (Ew : inorder (nd d Red near wa far) = inorder w) by (rewrite Ev; by apply inorder_nd_eq).
  destruct (tcolor near), (tcolor far); try done.
  1, 3: intros [= <-]; by eapply E.
  destruct (view d (rotated _ _)) as [[[near' wa'] far']|] eqn:Er; [|done]. intros [= <-]. eapply E; [done|].
  apply view_Some in Er. rewrite <- Ew. transitivity (inorder (rotated (opp d) (nd d Red (recolor Black near) wa far))).
  - rewrite Er. by apply inorder_nd_eq.
  - rewrite inorder_rotated. apply inorder_nd_eq; [apply inorder_recolor | done].
Qed.

Lemma inorder_del_fix k t : inorder (del_fix k t) = inorder (plug k t).
Proof.
  revert t. induction k as [|[d c p w] k IH]; intros t; [apply inorder_recolor|].
  destruct (tcolor t) eqn:Et; [rewrite del_fix_red by done; apply inorder_plug_eq, inorder_recolor|].
  destruct (tcolor w) eqn:Ew.
  - destruct (red_view d w Ew) as (near & wa & far & ->). rewrite del_fix_sib_red by done.
    cbn [plug]. unfold plug1. cbn [fside fcolor faddr fsib].
    transitivity (inorder (plug k (nd d Black (nd d Black t p near) wa far))).
    + destruct (del_local d Red t p near) as [u|] eqn:El.
      * rewrite inorder_recolor. apply inorder_plug_eq, inorder_nd_eq; [|done]. by eapply inorder_del_local.
      * apply inorder_plug_eq, inorder_nd_eq; [|done]. apply inorder_nd_eq; [done | apply inorder_recolor].
    + apply inorder_plug_eq. destruct d; cbn; by rewrite <- ?app_assoc.
  - rewrite del_fix_sib_black by done. cbn [plug]. unfold plug1. cbn [fside fcolor faddr fsib].
    destruct (del_local d c t p w) as [u|] eqn:El.
    + rewrite inorder_recolor. apply inorder_plug_eq. by eapply inorder_del_local.
    + rewrite IH. apply inorder_plug_eq, inorder_nd_eq; [done | apply inorder_recolor].
Qed.

(** A red-black tree taken apart at any of its nodes. *)
Lemma rb_ok_plug k t : rb_ok (plug k t) ->
  exists n, kok k n /\ rb n t /\ (tcolor t = Red -> match k with f :: _ => fcolor f = Black | [] => False end).
Proof.
  revert t. induction k as [|[d c a sib] k IH]; intros t; cbn [plug].
  { intros [Hc [n Hn]]. exists n. split; [constructor|]. split; [done|]. by rewrite Hc. }
  intros Hok. destruct (IH _ Hok) as (m & Hk & Hm & Hred). unfold plug1 in *. cbn [fside fcolor faddr fsib] in *.
  rewrite tcolor_nd in Hred. destruct c.
  - apply rb_nd_red in Hm as (Ht & Hs & Hct & Hcs). specialize (Hred eq_refl). exists m.
    destruct k as [|[d' c' a' sib'] k]; [done|]. cbn in Hred. subst c'. split; [by constructor|]. split; [done|]. by rewrite Hct.
  - assert (exists n, m = S n) as [n ->] by (destruct d; inversion Hm; eauto). apply rb_nd_black in Hm as [Ht Hs].
    exists n. split; [by constructor|]. done.
Qed.
