(* ===== verification/RbHeap.v ===== *)
(** * Red-black trees in the store

    [cells] lists the contents of the store at the nodes of a tree, and
    [holds] says that the store has given cells at distinct, aligned addresses;
    it is invariant under permutation, so that each operation is followed cell
    by cell.  [wp] is total: the operation returns, without a failed assertion
    or an access outside the store. *)

From Stdlib Require Import ZArith Lia.
From stdpp Require Import base list gmap numbers.
From S2P Require Import Prelude StateM RbTree RbAbs.
#[local] Open Scope Z_scope.

(** ** The parent word *)

Definition bit (c : color) : Z := match c with Red => 0 | Black => 1 end.
Definition enc (p : Z) (c : color) : Z := p + bit c.

(** [NULL] or the address of a node. *)
Definition ptr (p : Z) : Prop := 0 <= p < 2 ^ 64 /\ p mod 2 = 0.

Lemma land_1 x : Z.land x 1 = x mod 2.
Proof. change 1 with (Z.ones 1). by rewrite Z.land_ones. Qed.

Lemma enc_mod p c : ptr p -> enc p c mod 2 = bit c.
Proof. intros [_ Hp]. unfold enc. rewrite Z.add_mod, Hp by lia. by destruct c. Qed.

Lemma enc_color p c : ptr p -> Z.land (enc p c) 1 = bit c.
Proof. intros Hp. rewrite land_1. by apply enc_mod. Qed.

Lemma enc_parent p c : ptr p -> Z.land (enc p c) NOT_1 = p.
Proof.
  intros Hp. pose proof (enc_mod p c Hp) as Hm. destruct Hp as [Hr Hp].
  assert (H64 : 0 <= enc p c < 2 ^ 64).
  { unfold enc. destruct c; cbn [bit]; [lia|]. split; [lia|].
    destruct (Z.eq_dec p (2 ^ 64 - 1)) as [E|]; [rewrite E in Hp; discriminate Hp | lia]. }
  assert (E : Z.land (enc p c) NOT_1 = enc p c - Z.land (enc p c) 1).
  { assert (En : NOT_1 = Z.land (Z.lnot 1) (Z.ones 64)) by reflexivity. rewrite En, Z.land_assoc, Z.land_ones by lia.
    rewrite <- Z.ldiff_land. assert (Hd : Z.ldiff (enc p c) 1 = enc p c - Z.land (enc p c) 1).
    { rewrite <- (Z.lor_ldiff_and (enc p c) 1) at 2. rewrite <- Z.lxor_lor, <- Z.add_nocarry_lxor; [lia|..];
        apply Z.bits_inj'; intros i Hi; rewrite !Z.land_spec, Z.ldiff_spec, Z.bits_0; by destruct (Z.testbit (enc p c) i), (Z.testbit 1 i). }
    rewrite Hd. apply Z.mod_small. rewrite land_1. pose proof (Z.mod_le (enc p c) 2). pose proof (Z.mod_pos_bound (enc p c) 2). lia. }
  rewrite E, land_1, Hm. unfold enc. lia.
Qed.

Lemma lor_bit p c : ptr p -> Z.lor (bit c) p = enc p c.
Proof.
  intros [Hr Hp]. destruct c; cbn [bit]; [unfold enc; cbn; by rewrite Z.add_0_r|].
  unfold enc. cbn [bit]. rewrite Z.lor_comm, <- Z.lxor_lor, Z.add_nocarry_lxor; [done|..]; by rewrite land_1.
Qed.

Lemma enc_black p c : ptr p -> Z.lor (enc p c) 1 = enc p Black.
Proof.
  intros Hp. rewrite <- (lor_bit p c Hp), <- (lor_bit p Black Hp). rewrite <- Z.lor_assoc, (Z.lor_comm p 1), Z.lor_assoc.
  by destruct c.
Qed.

Lemma enc_red p : enc p Red = p.
Proof. unfold enc. cbn. lia. Qed.

Lemma enc_set_parent p c q : ptr p -> ptr q -> Z.lor (Z.land (enc p c) 1) q = enc q c.
Proof. intros Hp Hq. rewrite enc_color by done. by apply lor_bit. Qed.

Lemma enc_copy p c q c' : ptr p -> ptr q -> Z.lor (Z.land (enc p c) NOT_1) (Z.land (enc q c') 1) = enc p c'.
Proof. intros Hp Hq. rewrite enc_parent, enc_color, Z.lor_comm by done. by apply lor_bit. Qed.

(** ** Cells *)

Definition cell (p : Z) (c : color) (d : side) (x y : Z) : rb_node :=
  match d with L => RbNode (enc p c) x y | R => RbNode (enc p c) y x end.

Fixpoint cells (p : Z) (t : tree) : list (Z * rb_node) :=
  match t with
  | Leaf => []
  | Node c l a r => (a, cell p c L (addr l) (addr r)) :: cells a l ++ cells a r
  end.

Definition par (k : list frame) : Z := match k with [] => 0 | f :: _ => faddr f end.

(** The cells of a context whose hole is filled by the node [h]. *)
Fixpoint kcells (k : list frame) (h : Z) : list (Z * rb_node) :=
  match k with
  | [] => []
  | Frame d c a sib :: k => (a, cell (par k) c d h (addr sib)) :: cells a sib ++ kcells k a
  end.

Fixpoint top (k : list frame) (h : Z) : Z := match k with [] => h | f :: k => top k (faddr f) end.

Record holds (m : gmap Z rb_node) (l : list (Z * rb_node)) : Prop := {
  h_cells : forall a n, (a, n) ∈ l -> m !! a = Some n;
  h_nodup : NoDup l.*1;
  h_ptr : forall a, a ∈ l.*1 -> a <> 0 /\ ptr a
}.

#[export] Instance holds_perm m : Proper ((≡ₚ) ==> iff) (holds m).
Proof.
  assert (H : forall l l', l ≡ₚ l' -> holds m l -> holds m l').
  { intros l l' E [H1 H2 H3]. split.
    - intros a n Hin. apply H1. by rewrite E.
    - by rewrite <- E.
    - intros a Ha. apply H3. by rewrite E. }
  intros l l' E. split; apply H; [done | by symmetry].
Qed.

Lemma holds_read m a n l : holds m ((a, n) :: l) -> m !! a = Some n.
Proof. intros [H _ _]. apply H. by left. Qed.

Lemma holds_write m a n n' l : holds m ((a, n) :: l) -> holds (<[a := n']> m) ((a, n') :: l).
Proof.
  intros [H1 H2 H3]. split; [|done..]. pose proof (NoDup_cons_1_1 _ _ H2) as Hni.
  intros b v [[= -> ->]|Hin]%elem_of_cons; [apply lookup_insert_eq|].
  rewrite lookup_insert_ne; [apply H1; by right|]. intros <-. apply Hni, list_elem_of_fmap. by exists (a, v).
Qed.

Lemma holds_ptr m a n l : holds m ((a, n) :: l) -> a <> 0 /\ ptr a.
Proof. intros [_ _ H]. apply H. by left. Qed.

Lemma holds_ne m a n b n' l : holds m ((a, n) :: (b, n') :: l) -> a <> b.
Proof. intros [_ H _] ->. apply (NoDup_cons_1_1 _ _ H). by left. Qed.

(** ** Total correctness *)

(** The state of a tree: its root and some cells of the store. *)
Definition state (s : rb_tree) (r : Z) (l : list (Z * rb_node)) : Prop := root s = r /\ holds (mem s) l.

#[export] Instance state_perm s r : Proper ((≡ₚ) ==> iff) (state s r).
Proof. intros l l' E. unfold state. by rewrite E. Qed.

Lemma wp_get_root Q s : Q (root s) s -> wp get_root Q s.
Proof. done. Qed.

Lemma wp_set_root r v l Q s : state s r l -> (forall s', state s' v l -> Q tt s') -> wp (set_root v) Q s.
Proof. intros [_ H] HQ. unfold wp, set_root. by apply HQ. Qed.

Lemma wp_deref r a n l Q s : state s r ((a, n) :: l) -> Q n s -> wp (deref a) Q s.
Proof. intros [_ H] HQ. unfold wp, deref. by rewrite (holds_read _ _ _ _ H). Qed.

Lemma wp_modify r a n l f Q s :
  state s r ((a, n) :: l) -> (forall s', state s' r ((a, f n) :: l) -> Q tt s') -> wp (modify a f) Q s.
Proof.
  intros Hs HQ. unfold modify. apply wp_bind. eapply wp_deref; [exact Hs|]. destruct Hs as [Hr H].
  unfold wp, store. apply HQ. split; [done|]. by eapply holds_write.
Qed.

(** ** Fields of cells *)

Lemma parent_cell p c d x y : parent (cell p c d x y) = enc p c.
Proof. by destruct d. Qed.
Lemma child_cell p c d x y : child d (cell p c d x y) = x.
Proof. by destruct d. Qed.
Lemma child_opp_cell p c d x y : child (opp d) (cell p c d x y) = y.
Proof. by destruct d. Qed.
Lemma cell_opp p c d x y : cell p c (opp d) x y = cell p c d y x.
Proof. by destruct d. Qed.
Lemma set_child_cell p c d x y v : set_child d v (cell p c d x y) = cell p c d v y.
Proof. by destruct d. Qed.
Lemma set_child_opp_cell p c d x y v : set_child (opp d) v (cell p c d x y) = cell p c d x v.
Proof. by destruct d. Qed.

#[local] Open Scope c_scope.
Lemma set_parent_cell p c d x y q c' : (cell p c d x y) <| parent := enc q c' |> = cell q c' d x y.
Proof. by destruct d. Qed.

#[export] Hint Rewrite parent_cell child_cell child_opp_cell set_child_cell set_child_opp_cell : rb.

Lemma cells_nd p d c x a y : cells p (nd d c x a y) ≡ₚ (a, cell p c d (addr x) (addr y)) :: cells a x ++ cells a y.
Proof. destruct d; cbn; [done|]. by rewrite (comm (++) (cells a y)). Qed.

(** ** Operations on one node *)

Section Fields.
Context (s : rb_tree) (r a p : Z) (c : color) (d : side) (x y : Z) (l : list (Z * rb_node)).
Context (Hs : state s r ((a, cell p c d x y) :: l)) (Hp : ptr p).

Lemma wp_parent Q : Q p s -> wp (rb_node_parent a) Q s.
Proof.
  intros HQ. unfold rb_node_parent. apply wp_bind. eapply wp_deref; [exact Hs|]. apply wp_ret.
  by rewrite parent_cell, enc_parent.
Qed.

Lemma wp_set_parent q Q : ptr q ->
  (forall s', state s' r ((a, cell q c d x y) :: l) -> Q tt s') -> wp (rb_node_set_parent a q) Q s.
Proof.
  intros Hq HQ. unfold rb_node_set_parent. eapply wp_modify; [exact Hs|]. intros s' Hs'. apply HQ.
  by rewrite parent_cell, enc_set_parent, set_parent_cell in Hs'.
Qed.

Lemma wp_set_black Q :
  (forall s', state s' r ((a, cell p Black d x y) :: l) -> Q tt s') -> wp (rb_node_set_black a) Q s.
Proof.
  intros HQ. unfold rb_node_set_black. eapply wp_modify; [exact Hs|]. intros s' Hs'. apply HQ.
  by rewrite parent_cell, enc_black, set_parent_cell in Hs'.
Qed.

Lemma wp_set_red Q :
  (forall s', state s' r ((a, cell p Red d x y) :: l) -> Q tt s') -> wp (rb_node_set_red a) Q s.
Proof.
  intros HQ. unfold rb_node_set_red. eapply wp_modify; [exact Hs|]. intros s' Hs'. apply HQ.
  rewrite parent_cell, enc_parent in Hs' by done. by rewrite <- (set_parent_cell p c), enc_red.
Qed.

Lemma wp_is_black Q : Q (bool_decide (c = Black)) s -> wp (rb_node_is_black a) Q s.
Proof.
  intros HQ. unfold rb_node_is_black. destruct Hs as [_ Hh]. destruct (holds_ptr _ _ _ _ Hh) as [Ha _].
  destruct (Z.eqb_spec a 0); [done|]. apply wp_bind. eapply wp_deref; [exact Hs|]. apply wp_ret.
  rewrite parent_cell, enc_color by done. by destruct c.
Qed.
End Fields.

(** The colour of a subtree, possibly empty. *)
Lemma wp_tree_is_black s r p t l Q : state s r (cells p t ++ l) -> ptr p ->
  Q (bool_decide (tcolor t = Black)) s -> wp (rb_node_is_black (addr t)) Q s.
Proof.
  intros Hs Hp HQ. destruct t as [|c x a y]; [done|]. cbn [cells addr tcolor app] in *. by eapply wp_is_black.
Qed.

(** ** A focus: a subtree in its context *)

(** [rest] is any other part of the store. *)
Definition focus (s : rb_tree) (k : list frame) (t : tree) (rest : list (Z * rb_node)) : Prop :=
  state s (top k (addr t)) (kcells k (addr t) ++ cells (par k) t ++ rest).

(** Solve a permutation of cells after unfolding the nodes. *)
Ltac perm := rewrite ?cells_nd; autorewrite with rb; solve_Permutation.

Lemma focus_zip s d c a sib k t rest :
  focus s (Frame d c a sib :: k) t rest <-> focus s k (nd d c t a sib) rest.
Proof.
  unfold focus. cbn [top kcells par faddr]. rewrite addr_nd. apply state_perm. rewrite cells_nd. perm.
Qed.

Lemma focus_up s d c a sib k t rest : focus s (Frame d c a sib :: k) t rest -> focus s k (nd d c t a sib) rest.
Proof. apply focus_zip. Qed.

Lemma focus_down s d c a sib k t rest : focus s k (nd d c t a sib) rest -> focus s (Frame d c a sib :: k) t rest.
Proof. apply focus_zip. Qed.

(** To the other child. *)
Lemma focus_far s d c a t k u rest : focus s k (nd d c t a u) rest -> focus s (Frame (opp d) c a t :: k) u rest.
Proof. rewrite <- (nd_opp d). apply focus_zip. Qed.

Lemma focus_plug s k t rest : focus s k t rest <-> focus s [] (plug k t) rest.
Proof.
  revert t. induction k as [|[d c a sib] k IH]; intros t; [done|]. rewrite focus_zip. apply IH.
Qed.

Lemma state_ptr s r a n l : state s r ((a, n) :: l) -> a <> 0 /\ ptr a.
Proof. intros [_ H]. by eapply holds_ptr. Qed.

Lemma ptr_0 : ptr 0.
Proof. split; [lia | done]. Qed.

(** The parent of the focus is a pointer. *)
Lemma focus_par s k t rest : focus s k t rest -> ptr (par k).
Proof.
  destruct k as [|[d c a sib] k]; [intros _; apply ptr_0|]. unfold focus. cbn [kcells par faddr app].
  intros H. by apply state_ptr in H as [_ ?].
Qed.

Lemma state_ne s r a n b n' l : state s r ((a, n) :: (b, n') :: l) -> a <> b.
Proof. intros [_ H]. by eapply holds_ne. Qed.

(** The address of a subtree differs from that of any other node. *)
Lemma state_ne_tree s r a n p t l : state s r ((a, n) :: cells p t ++ l) -> a <> addr t.
Proof.
  intros H. destruct t as [|c x b y]; [by apply state_ptr in H as [? _]|]. cbn [cells addr app] in *. by eapply state_ne.
Qed.

(** The assertion that a node is a child of its parent. *)
Lemma child_or p c d x y : ((x =? left (cell p c d x y)) || (x =? right (cell p c d x y)))%bool = true.
Proof. destruct d; cbn; rewrite Z.eqb_refl; [done | apply orb_true_r]. Qed.

(** *** Parents *)

(** [W q] are cells of which the one at [v], if [v] is not [NULL], has the
    parent [q]. *)
Definition rooted (v : Z) (W : Z -> list (Z * rb_node)) : Prop :=
  v = 0 /\ (forall p q, W p = W q) \/ exists c d x y l, forall q, W q = (v, cell q c d x y) :: l.

Lemma rooted_tree t : rooted (addr t) (fun q => cells q t).
Proof. destruct t as [|c l a r]; [by left | right; do 5 eexists; reflexivity]. Qed.

Lemma rooted_cell v c d x y l : rooted v (fun q => (v, cell q c d x y) :: l).
Proof. right. do 5 eexists. reflexivity. Qed.

Lemma wp_reparent s r v W q p l Q :
  rooted v W -> state s r (W q ++ l) -> ptr q -> ptr p ->
  (forall s', state s' r (W p ++ l) -> Q tt s') ->
  wp (if negb (v =? 0) then rb_node_set_parent v p else ret tt) Q s.
Proof.
  intros [[-> HW]|(c & d & x & y & l' & HW)] Hs Hq Hp HQ.
  - apply HQ. by rewrite (HW p q).
  - rewrite HW in Hs. cbn [app] in Hs. destruct (state_ptr _ _ _ _ _ Hs) as [H0 _]. destruct (Z.eqb_spec v 0); [done|].
    cbn [negb]. eapply wp_set_parent; [exact Hs | done | done |]. intros s' Hs'. apply HQ. by rewrite HW.
Qed.

(** *** Splicing *)

Lemma wp_splice s u c d x y v W q k rest Q :
  state s (top k u) (kcells k u ++ (u, cell (par k) c d x y) :: W q ++ rest) -> rooted v W -> ptr q ->
  (forall s', state s' (top k v) (kcells k v ++ (u, cell (par k) c d x y) :: W (par k) ++ rest) -> Q tt s') ->
  wp (rb_tree_splice u v) Q s.
Proof.
  intros Hs HW Hq HQ. unfold rb_tree_splice. pose proof Hs as Hu. rewrite (comm (++)) in Hu. cbn [app] in Hu.
  destruct (state_ptr _ _ _ _ _ Hu) as [Hu0 Hup].
  assert (Hpk : ptr (par k)).
  { destruct k as [|[d' c' a sib] k]; [apply ptr_0|]. cbn [kcells app] in Hs. by apply state_ptr in Hs as [_ ?]. }
  apply wp_bind, wp_assert; [by apply negb_true_iff, Z.eqb_neq|]. apply wp_bind. eapply wp_parent; [exact Hu | done |].
  apply wp_bind. eapply (wp_mono _ (fun _ s' => state s' (top k v) (kcells k v ++ (u, cell (par k) c d x y) :: W q ++ rest))).
  - destruct k as [|[d' c' a sib] k]; cbn [par kcells top faddr] in *.
    + apply wp_bind, wp_get_root. destruct Hs as [Hr Hh]. apply wp_bind, wp_assert; [cbn; by rewrite Hr, Z.eqb_refl|].
      eapply wp_set_root; [split; [exact Hr | exact Hh]|]. done.
    + cbn [app] in Hs. destruct (state_ptr _ _ _ _ _ Hs) as [Ha0 _]. destruct (Z.eqb_spec a 0); [done|].
      apply wp_bind. eapply wp_deref; [exact Hs|].
      destruct d'; cbn [cell left right].
      * rewrite Z.eqb_refl. eapply wp_modify; [exact Hs|]. intros s' Hs'. exact Hs'.
      * assert (Hne : u <> addr sib).
        { apply (state_ne_tree s (top k a) u (cell a c d x y) a sib (W q ++ rest ++ (a, cell (par k) c' R u (addr sib)) :: kcells k a)).
          eapply state_perm; [|exact Hs]. solve_Permutation. }
        destruct (Z.eqb_spec u (addr sib)); [done|]. apply wp_bind, wp_assert; [by rewrite Z.eqb_refl|].
        eapply wp_modify; [exact Hs|]. intros s' Hs'. exact Hs'.
  - intros _ s' Hs'. eapply (wp_reparent _ (top k v) v W q (par k) (kcells k v ++ (u, cell (par k) c d x y) :: rest)); [done| |done|done|].
    + eapply state_perm; [|exact Hs']. solve_Permutation.
    + intros s'' Hs''. apply HQ. eapply state_perm; [|exact Hs'']. solve_Permutation.
Qed.

(** *** Rotation *)

Lemma wp_rotate s d k c1 A x c2 B y C rest Q :
  focus s k (nd d c1 A x (nd d c2 B y C)) rest ->
  (forall s', focus s' k (nd d c2 (nd d c1 A x B) y C) rest -> Q tt s') ->
  wp (rotate d x) Q s.
Proof.
  intros Hf HQ. pose proof (focus_par _ _ _ _ Hf) as Hpk. unfold focus in Hf, HQ. rewrite !cells_nd, !addr_nd in Hf.
  assert (Hx : state s (top k x) ((x, cell (par k) c1 d (addr A) y) :: (y, cell x c2 d (addr B) (addr C)) ::
      kcells k x ++ cells x A ++ cells y B ++ cells y C ++ rest)) by (eapply state_perm; [|exact Hf]; solve_Permutation).
  clear Hf. destruct (state_ptr _ _ _ _ _ Hx) as [Hx0 Hxp].
  assert (Hy : state s (top k x) ((y, cell x c2 d (addr B) (addr C)) :: (x, cell (par k) c1 d (addr A) y) ::
      kcells k x ++ cells x A ++ cells y B ++ cells y C ++ rest)) by (eapply state_perm; [|exact Hx]; solve_Permutation).
  destruct (state_ptr _ _ _ _ _ Hy) as [Hy0 Hyp].
  unfold rotate. apply wp_bind, wp_assert; [by apply negb_true_iff, Z.eqb_neq|]. apply wp_bind. eapply wp_deref; [exact Hx|].
  rewrite child_opp_cell. apply wp_bind, wp_assert; [by apply negb_true_iff, Z.eqb_neq|]. apply wp_bind. eapply wp_deref; [exact Hy|].
  rewrite child_cell. apply wp_bind. eapply wp_modify; [exact Hx|]. clear s Hx Hy. intros s Hs. rewrite set_child_opp_cell in Hs.
  apply wp_bind. eapply (wp_reparent _ _ _ (fun q => cells q B) y x); [apply rooted_tree | | done | done |].
  { eapply state_perm; [|exact Hs].
    instantiate (1 := (x, cell (par k) c1 d (addr A) (addr B)) :: (y, cell x c2 d (addr B) (addr C)) :: kcells k x ++ cells x A ++ cells y C ++ rest).
    solve_Permutation. }
  clear s Hs. intros s Hs. apply wp_bind.
  eapply (wp_splice _ x c1 d (addr A) (addr B) y (fun q => [(y, cell q c2 d (addr B) (addr C))]) x k (cells x A ++ cells x B ++ cells y C ++ rest));
    [| apply rooted_cell | done |].
  { eapply state_perm; [|exact Hs]. solve_Permutation. }
  clear s Hs. intros s Hs. apply wp_bind.
  eapply (wp_modify _ y (cell (par k) c2 d (addr B) (addr C))); [eapply state_perm; [|exact Hs];
    instantiate (1 := kcells k y ++ (x, cell (par k) c1 d (addr A) (addr B)) :: cells x A ++ cells x B ++ cells y C ++ rest); solve_Permutation|].
  clear s Hs. intros s Hs. rewrite set_child_cell in Hs.
  eapply (wp_set_parent _ _ x (par k) c1 d (addr A) (addr B)); [eapply state_perm; [|exact Hs];
    instantiate (1 := kcells k y ++ (y, cell (par k) c2 d x (addr C)) :: cells x A ++ cells x B ++ cells y C ++ rest); solve_Permutation | done | done |].
  clear s Hs. intros s Hs. apply HQ. rewrite addr_nd. rewrite !cells_nd, addr_nd. eapply state_perm; [|exact Hs]. solve_Permutation.
Qed.
