(* ===== verification/RbInsert.v ===== *)
(** * Insertion into red-black trees

    [rb_tree_insert_at] on the store does what [insert_result] does on trees. *)

From Stdlib Require Import ZArith Lia.
From stdpp Require Import base list gmap numbers.
From S2P Require Import Prelude StateM RbTree RbAbs RbHeap.
#[local] Open Scope Z_scope.

(** ** Operations at a focus *)

Section AtFocus.
Context (s : rb_tree) (k : list frame) (rest : list (Z * rb_node)).

Lemma focus_cell d c x a y : focus s k (nd d c x a y) rest ->
  state s (top k a) ((a, cell (par k) c d (addr x) (addr y)) :: kcells k a ++ cells a x ++ cells a y ++ rest).
Proof. unfold focus. rewrite cells_nd, addr_nd. intros H. eapply state_perm; [|exact H]. solve_Permutation. Qed.

Lemma focus_of_cell s' d c x a y :
  state s' (top k a) ((a, cell (par k) c d (addr x) (addr y)) :: kcells k a ++ cells a x ++ cells a y ++ rest) ->
  focus s' k (nd d c x a y) rest.
Proof. unfold focus. rewrite cells_nd, addr_nd. intros H. eapply state_perm; [|exact H]. solve_Permutation. Qed.

Lemma wp_focus_deref d c x a y Q : focus s k (nd d c x a y) rest ->
  Q (cell (par k) c d (addr x) (addr y)) s -> wp (deref a) Q s.
Proof. intros Hf HQ. apply focus_cell in Hf. by eapply wp_deref. Qed.

Lemma wp_focus_parent d c x a y Q : focus s k (nd d c x a y) rest -> Q (par k) s -> wp (rb_node_parent a) Q s.
Proof. intros Hf HQ. pose proof (focus_par _ _ _ _ Hf). apply focus_cell in Hf. by eapply wp_parent. Qed.

Lemma wp_focus_black d c x a y Q : focus s k (nd d c x a y) rest ->
  (forall s', focus s' k (nd d Black x a y) rest -> Q tt s') -> wp (rb_node_set_black a) Q s.
Proof.
  intros Hf HQ. pose proof (focus_par _ _ _ _ Hf). apply focus_cell in Hf. eapply wp_set_black; [done..|].
  intros s' Hs'. by apply HQ, focus_of_cell.
Qed.

Lemma wp_focus_red d c x a y Q : focus s k (nd d c x a y) rest ->
  (forall s', focus s' k (nd d Red x a y) rest -> Q tt s') -> wp (rb_node_set_red a) Q s.
Proof.
  intros Hf HQ. pose proof (focus_par _ _ _ _ Hf). apply focus_cell in Hf. eapply wp_set_red; [done..|].
  intros s' Hs'. by apply HQ, focus_of_cell.
Qed.

Lemma wp_focus_is_black t Q : focus s k t rest -> Q (bool_decide (tcolor t = Black)) s -> wp (rb_node_is_black (addr t)) Q s.
Proof.
  intros Hf HQ. pose proof (focus_par _ _ _ _ Hf) as Hp. unfold focus in Hf. eapply wp_tree_is_black; [|exact Hp | done].
  eapply state_perm; [|exact Hf]. instantiate (1 := kcells k (addr t) ++ rest). solve_Permutation.
Qed.

Lemma wp_focus_is_red t Q : focus s k t rest -> Q (bool_decide (tcolor t = Red)) s -> wp (rb_node_is_red (addr t)) Q s.
Proof.
  intros Hf HQ. unfold rb_node_is_red. apply wp_bind. eapply wp_focus_is_black; [exact Hf|]. apply wp_ret.
  by destruct (tcolor t).
Qed.

Lemma focus_nz d c x a y : focus s k (nd d c x a y) rest -> a <> 0.
Proof. intros Hf. apply focus_cell in Hf. by apply state_ptr in Hf as [? _]. Qed.

(** A node is not the other child of its parent. *)
Lemma focus_sibling d c a sib t : focus s (Frame d c a sib :: k) t rest -> t <> Leaf -> addr t <> addr sib.
Proof.
  intros Hf Ht. destruct t as [|c' l b r]; [done|]. unfold focus in Hf. cbn [top kcells par faddr cells addr app] in Hf.
  apply (state_ne_tree s (top k a) b (cell a c' L (addr l) (addr r)) a sib
    ((a, cell (par k) c d b (addr sib)) :: kcells k a ++ cells b l ++ cells b r ++ rest)).
  eapply state_perm; [|exact Hf]. solve_Permutation.
Qed.
End AtFocus.

Lemma side_test d c p a b : a <> b -> (a =? left (cell p c d a b)) = match d with L => true | R => false end.
Proof. intros H. destruct d; cbn; [apply Z.eqb_refl | by apply Z.eqb_neq]. Qed.

Lemma nd_neq d c x a y : nd d c x a y <> Leaf.
Proof. by destruct d. Qed.
#[export] Hint Resolve nd_neq : core.

Lemma red_neq t : tcolor t = Red -> t <> Leaf.
Proof. by destruct t. Qed.

(** The rotation to the other side, seen from the same side. *)
Lemma wp_rotate_opp s d k c1 A x c2 B y C rest Q :
  focus s k (nd d c1 (nd d c2 C y B) x A) rest ->
  (forall s', focus s' k (nd d c2 C y (nd d c1 B x A)) rest -> Q tt s') ->
  wp (rotate (opp d) x) Q s.
Proof.
  intros Hf HQ. rewrite <- (nd_opp d c1), <- (nd_opp d c2) in Hf. eapply wp_rotate; [exact Hf|].
  intros s' Hs'. rewrite !(nd_opp d) in Hs'. by apply HQ.
Qed.

(** ** Fuel *)

Lemma holds_length m l : holds m l -> (length l <= size m)%nat.
Proof.
  intros [H1 H2 _]. rewrite <- (length_fmap fst l), <- (size_list_to_set (C := gset Z)) by done. rewrite <- size_dom.
  apply subseteq_size. intros a Ha. apply elem_of_list_to_set, list_elem_of_fmap in Ha as ([b n] & -> & Hin).
  apply elem_of_dom. exists n. by apply H1.
Qed.

Lemma length_kcells k h : (length k <= length (kcells k h))%nat.
Proof. revert h. induction k as [|[d c a sib] k IH]; intros h; cbn; [lia|]. rewrite length_app. specialize (IH a). lia. Qed.

Lemma focus_length s k t rest : focus s k t rest -> (length k <= size (mem s))%nat.
Proof. intros [_ H]. apply holds_length in H. rewrite length_app in H. pose proof (length_kcells k (addr t)). lia. Qed.

Lemma wp_rounds Q s : Q (S (size (mem s))) s -> wp rounds Q s.
Proof. done. Qed.

(** ** The loop *)

(** What one round leaves: the loop goes on with the grandparent, or ends below
    a black node. *)
Definition insert_post (k2 : list frame) (d1 : side) (p : Z) (sib : tree) (d : side) (pp : Z) (y t : tree)
    (rest : list (Z * rb_node)) (z : Z) (s : rb_tree) : Prop :=
  match tcolor y with
  | Red => z = pp /\ focus s k2 (nd d Red (nd d1 Black t p sib) pp (recolor Black y)) rest
  | Black => exists a sib' t', z = addr t' /\ t' <> Leaf /\ focus s (Frame d Black a sib' :: k2) t' rest /\
      forall c, plug k2 (nd d Black t' a sib') = ins_fix (Frame d1 Red p sib :: Frame d c pp y :: k2) t
  end.

Lemma wp_insert_body s k2 d1 p sib d c pp y t rest :
  focus s (Frame d1 Red p sib :: Frame d c pp y :: k2) t rest -> tcolor t = Red ->
  wp (insert_body d (addr t) p pp) (insert_post k2 d1 p sib d pp y t rest) s.
Proof.
  intros Hf Ht. unfold insert_body, insert_post. pose proof (focus_up _ _ _ _ _ _ _ _ Hf) as Hp.
  pose proof (focus_up _ _ _ _ _ _ _ _ Hp) as Hpp. pose proof (focus_far _ _ _ _ _ _ _ _ Hpp) as Hy.
  apply wp_bind. eapply wp_focus_deref; [exact Hpp|]. rewrite child_opp_cell. apply wp_bind.
  eapply wp_focus_is_red; [exact Hy|]. destruct (tcolor y) eqn:Ey; cbn [bool_decide].
  - (* the uncle is red *)
    apply wp_bind. eapply wp_focus_black; [exact Hp|]. clear s Hf Hp Hpp Hy. intros s Hf. apply focus_up, focus_far in Hf.
    destruct (red_view d y Ey) as (yl & ya & yr & ->). rewrite addr_nd.
    apply wp_bind. eapply wp_focus_black; [exact Hf|]. clear s Hf. intros s Hf. apply focus_up in Hf. rewrite nd_opp in Hf.
    apply wp_bind. eapply wp_focus_red; [exact Hf|]. clear s Hf. intros s Hf. apply wp_ret. by rewrite recolor_nd.
  - (* it is black *)
    apply wp_bind. eapply wp_focus_deref; [exact Hp|].
    pose proof (focus_sibling _ _ _ _ _ _ _ _ Hf (red_neq _ Ht)) as Hne.
    destruct (same_spec d1 d) as [[Es ->]|[Es ->]].
    + rewrite child_opp_cell. destruct (Z.eqb_spec (addr t) (addr sib)); [done|].
      apply wp_bind, wp_ret, wp_bind. eapply wp_focus_black; [exact Hp|]. clear s Hf Hp Hpp Hy. intros s Hf. apply focus_up in Hf.
      apply wp_bind. eapply wp_focus_red; [exact Hf|]. clear s Hf. intros s Hf.
      apply wp_bind. eapply wp_rotate_opp; [exact Hf|]. clear s Hf. intros s Hf. apply focus_down in Hf.
      apply wp_ret. exists p, (nd d Red sib pp y), t. split; [done|]. split; [by apply red_neq|]. split; [done|].
      intros c'. cbn [ins_fix]. rewrite Ey, Es. by autorewrite with rb.
    + rewrite child_cell, Z.eqb_refl. destruct (red_view d t Ht) as (tl & z & tr & ->). rewrite (nd_opp d) in Hp.
      apply wp_bind, wp_bind. eapply wp_rotate; [exact Hp|]. clear s Hf Hp Hpp Hy. intros s Hf.
      pose proof (focus_down _ _ _ _ _ _ _ _ Hf) as Hz. apply wp_bind. eapply wp_focus_parent; [exact Hz|]. cbn [par faddr].
      apply wp_bind. eapply wp_focus_deref; [exact Hf|]. rewrite addr_nd. apply wp_bind, wp_assert; [apply child_or|].
      apply wp_bind. eapply wp_focus_parent; [exact Hf|]. cbn [par faddr]. apply wp_ret.
      apply wp_bind. eapply wp_focus_black; [exact Hf|]. clear s Hf Hz. intros s Hf. apply focus_up in Hf.
      apply wp_bind. eapply wp_focus_red; [exact Hf|]. clear s Hf. intros s Hf.
      apply wp_bind. eapply wp_rotate_opp; [exact Hf|]. clear s Hf. intros s Hf. apply focus_down in Hf.
      apply wp_ret. exists z, (nd d Red tr pp y), (nd d Red sib p tl). rewrite addr_nd.
      split; [done|]. split; [done|]. split; [done|]. intros c'. cbn [ins_fix]. rewrite Ey, Es. by autorewrite with rb.
Qed.

Lemma neq_view d t : t <> Leaf -> exists c x a y, t = nd d c x a y.
Proof. destruct t as [|c l a r]; [done|]. intros _. destruct d; [by exists c, l, a, r | by exists c, r, a, l]. Qed.

(** The loop ends at the root and below a black node. *)
Lemma wp_insert_stop s k t rest fuel (Q : unit -> rb_tree -> Prop) :
  focus s k t rest -> t <> Leaf -> match k with f :: _ => fcolor f = Black | [] => True end ->
  Q tt s -> wp (insert_fixup (S fuel) (addr t)) Q s.
Proof.
  intros Hf Ht Hk HQ. cbn [insert_fixup]. destruct (neq_view L t Ht) as (c & x & a & y & ->). rewrite addr_nd.
  apply wp_bind. eapply wp_focus_parent; [exact Hf|]. apply wp_bind.
  destruct k as [|[d c' p sib] k]; cbn [par faddr]; [done|]. cbn in Hk. subst c'. apply focus_up in Hf.
  eapply (wp_mono _ (fun b s' => b = false /\ s' = s)); [|by intros b s' [-> ->]].
  rewrite <- (addr_nd d Black (nd L c x a y) p sib). eapply wp_focus_is_red; [exact Hf|]. by rewrite tcolor_nd.
Qed.

Lemma wp_insert_fixup fuel s k t n rest :
  focus s k t rest -> kok k n -> tcolor t = Red -> (length k < fuel)%nat ->
  wp (insert_fixup fuel (addr t)) (fun _ s' => focus s' [] (ins_fix k t) rest) s.
Proof.
  revert s k t n. induction fuel as [|fuel IH]; intros s k t n Hf Hk Ht Hlen; [lia|].
  destruct Hk as [n|d a sib k n Hs Hk|d1 p sib d pp y k n Hs Hc Hk].
  - eapply wp_insert_stop; [exact Hf | by apply red_neq | done | done].
  - eapply wp_insert_stop; [exact Hf | by apply red_neq | done |]. by apply focus_plug in Hf.
  - cbn [insert_fixup]. pose proof (focus_up _ _ _ _ _ _ _ _ Hf) as Hp. pose proof (focus_up _ _ _ _ _ _ _ _ Hp) as Hpp.
    destruct (neq_view L t (red_neq t Ht)) as (c & x & z & w & Et). apply wp_bind.
    eapply (wp_mono _ (fun q s' => q = p /\ s' = s)); [rewrite Et in *; rewrite addr_nd; by eapply wp_focus_parent|].
    intros ? ? [-> ->]. apply wp_bind.
    eapply (wp_mono _ (fun b s' => b = true /\ s' = s)).
    { rewrite <- (addr_nd d1 Red t p sib). eapply wp_focus_is_red; [exact Hp|]. by rewrite tcolor_nd. }
    intros ? ? [-> ->]. apply wp_bind. eapply wp_focus_deref; [exact Hp|]. apply wp_bind, wp_assert; [apply child_or|].
    apply wp_bind. eapply wp_focus_parent; [exact Hp|]. cbn [par faddr].
    pose proof (focus_nz _ _ _ _ _ _ _ _ Hpp) as Hpp0. apply wp_bind, wp_assert; [by apply negb_true_iff, Z.eqb_neq|].
    apply wp_bind. eapply wp_focus_deref; [exact Hpp|]. rewrite addr_nd.
    assert (Hne : p <> addr y) by (rewrite <- (addr_nd d1 Red t p sib); by eapply focus_sibling).
    rewrite side_test by done. apply wp_bind.
    eapply (wp_mono _ (insert_post k d1 p sib d pp y t rest)); [destruct d; by eapply wp_insert_body|].
    intros z' s' Hpost. unfold insert_post in Hpost. inversion Hk as [|? ? ? ? ? Hy Hk2|]; subst.
    destruct (tcolor y) eqn:Ey.
    + destruct Hpost as [-> Hf']. cbn [ins_fix]. rewrite Ey.
      rewrite <- (addr_nd d Red (nd d1 Black (nd L c x z w) p sib) pp (recolor Black y)) at 1.
      eapply IH; [exact Hf' | exact Hk2 | apply tcolor_nd | cbn in Hlen; lia].
    + destruct Hpost as (a & sib' & t' & -> & Ht' & Hf' & Eres). destruct fuel as [|fuel]; [cbn in Hlen; lia|].
      eapply wp_insert_stop; [exact Hf' | done | done |]. rewrite <- Eres. by apply focus_up, focus_plug in Hf'.
Qed.

(** ** Insertion at a leaf *)

Lemma wp_store_fresh s r l a n (Q : unit -> rb_tree -> Prop) :
  state s r l -> a ∉ l.*1 -> a <> 0 -> ptr a -> (forall s', state s' r ((a, n) :: l) -> Q tt s') -> wp (store a n) Q s.
Proof.
  intros [Hr [H1 H2 H3]] Ha H0 Hp HQ. unfold wp, store. apply HQ. split; [done|]. split.
  - intros b v [[= -> ->]|Hin]%elem_of_cons; [apply lookup_insert_eq|]. cbn. rewrite lookup_insert_ne; [by apply H1|].
    intros <-. apply Ha, list_elem_of_fmap. by exists (a, v).
  - cbn. by constructor.
  - intros b [->|Hb]%elem_of_cons; [done | by apply H3].
Qed.

Definition leaf_node (node : Z) : tree := Node Red Leaf node Leaf.

Lemma wp_focus_recolor s k t rest (Q : unit -> rb_tree -> Prop) : focus s k t rest -> t <> Leaf ->
  (forall s', focus s' k (recolor Black t) rest -> Q tt s') -> wp (rb_node_set_black (addr t)) Q s.
Proof.
  intros Hf Ht HQ. destruct (neq_view L t Ht) as (c & x & a & y & ->). rewrite addr_nd, recolor_nd in *.
  by eapply wp_focus_black.
Qed.

Lemma ins_fix_neq k t : t <> Leaf -> ins_fix k t <> Leaf.
Proof.
  intros Ht E. assert (H : inorder (ins_fix k t) = []) by by rewrite E. rewrite inorder_ins_fix, inorder_plug in H.
  destruct t as [|c l a r]; [done|]. cbn in H. by destruct (kbefore k), (inorder l).
Qed.

Lemma wp_insert_at s k n rest node lft :
  focus s k Leaf rest -> kok k n -> node ∉ (kcells k 0 ++ rest).*1 -> node <> 0 -> ptr node ->
  match k with f :: _ => lft = match fside f with L => true | R => false end | [] => True end ->
  wp (rb_tree_insert_at (par k) node lft) (fun _ s' => focus s' [] (insert_result k (leaf_node node)) rest) s.
Proof.
  intros Hf Hk Hfresh H0 Hptr Hside. unfold rb_tree_insert_at, focus in *. cbn [addr cells app] in Hf.
  apply wp_bind. eapply wp_store_fresh; [exact Hf | done..|]. clear s Hf. intros s Hs.
  change (RbNode 0 0 0) with (cell 0 Red L 0 0) in Hs. destruct k as [|[d c a sib] k]; cbn [par faddr] in *.
  - cbn [top kcells app] in Hs. destruct Hs as [Hr Hh]. apply wp_bind, wp_get_root. rewrite Hr. apply wp_bind, wp_assert; [done|].
    apply wp_bind. eapply wp_set_root; [split; [exact Hr | exact Hh]|]. clear s Hr Hh. intros s Hs.
    eapply wp_set_black; [exact Hs | apply ptr_0 |]. intros s' Hs'. exact Hs'.
  - cbn [kcells top faddr app] in Hs. assert (Ha : state s (top k a) ((a, cell (par k) c d 0 (addr sib)) ::
      (node, cell 0 Red L 0 0) :: cells a sib ++ kcells k a ++ rest)) by (eapply state_perm; [|exact Hs]; solve_Permutation).
    destruct (state_ptr _ _ _ _ _ Ha) as [Ha0 Hap]. destruct (Z.eqb_spec a 0); [done|]. cbn [fside] in Hside. subst lft.
    apply wp_bind. eapply wp_deref; [exact Ha|]. apply wp_bind.
    eapply (wp_mono _ (fun _ s' => state s' (top k a) ((a, cell (par k) c d node (addr sib)) ::
      (node, cell 0 Red L 0 0) :: cells a sib ++ kcells k a ++ rest))).
    { destruct d; apply wp_bind, wp_assert; try done; (eapply wp_modify; [exact Ha|]; intros s' Hs'; exact Hs'). }
    clear s Hs Ha. intros _ s Hs. apply wp_bind.
    eapply (wp_set_parent _ (top k a) node 0 Red L 0 0); [| apply ptr_0 | exact Hap |].
    { eapply state_perm; [|exact Hs]. instantiate (1 := (a, cell (par k) c d node (addr sib)) :: cells a sib ++ kcells k a ++ rest). solve_Permutation. }
    clear s Hs. intros s Hs. assert (Hf : focus s (Frame d c a sib :: k) (leaf_node node) rest).
    { unfold focus, leaf_node. cbn [top kcells par faddr cells addr app]. eapply state_perm; [|exact Hs]. solve_Permutation. }
    apply wp_bind, wp_rounds, wp_bind. pose proof (focus_length _ _ _ _ Hf) as Hlen.
    change node with (addr (leaf_node node)) at 1. eapply wp_mono; [eapply wp_insert_fixup; [exact Hf | exact Hk | done | lia]|].
    intros ? s' Hf'. apply wp_bind, wp_get_root. pose proof Hf' as [Hr _]. cbn [top] in Hr. rewrite Hr.
    eapply wp_focus_recolor; [exact Hf' | by apply ins_fix_neq |]. done.
Qed.
