(* ===== verification/RbRemove.v ===== *)
(** * Removal from red-black trees

    [rb_tree_remove] on the store unlinks a node and does what [del_fix] does on
    trees. *)

From Stdlib Require Import ZArith Lia.
From stdpp Require Import base list gmap numbers.
From S2P Require Import Prelude StateM RbTree RbAbs RbHeap RbInsert.
#[local] Open Scope Z_scope.

(** ** The loop *)

(** The colour of the parent [p] is given to the child [w]. *)
Lemma wp_copy_parent_color s k d c t p cw near w far rest (Q : unit -> rb_tree -> Prop) :
  focus s k (nd d c t p (nd d cw near w far)) rest ->
  (forall s', focus s' k (nd d c t p (nd d c near w far)) rest -> Q tt s') ->
  wp (rb_node_copy_color w p) Q s.
Proof.
  intros Hf HQ. pose proof (focus_par _ _ _ _ Hf) as Hk. apply focus_far in Hf as Hw.
  pose proof (focus_par _ _ _ _ Hw) as Hp. cbn [par faddr] in Hp.
  unfold rb_node_copy_color. apply wp_bind. eapply wp_focus_deref; [exact Hf|]. apply focus_cell in Hw. cbn [par faddr] in Hw.
  eapply wp_modify; [exact Hw|]. intros s' Hs'. rewrite !parent_cell, enc_copy, set_parent_cell in Hs' by done.
  apply HQ. rewrite <- (nd_opp d c). apply focus_up, focus_of_cell. exact Hs'.
Qed.

(** The last steps: the sibling takes the place of the parent. *)
Lemma wp_remove_last s k d c t p cw near w far rest :
  focus s k (nd d c t p (nd d cw near w far)) rest -> far <> Leaf ->
  wp (bind (rb_node_copy_color w p) (fun _ => bind (rb_node_set_black p) (fun _ => bind (deref w) (fun wn =>
      bind (rb_node_set_black (child (opp d) wn)) (fun _ => bind (rotate d p) (fun _ => get_root))))))
    (fun x s' => x = root s' /\ focus s' k (nd d c (nd d Black t p near) w (recolor Black far)) rest) s.
Proof.
  intros Hf Hfar. apply wp_bind. eapply wp_copy_parent_color; [exact Hf|]. clear s Hf. intros s Hf.
  apply wp_bind. eapply wp_focus_black; [exact Hf|]. clear s Hf. intros s Hf. apply focus_far in Hf.
  apply wp_bind. eapply wp_focus_deref; [exact Hf|]. rewrite child_opp_cell. apply focus_far in Hf.
  apply wp_bind. eapply wp_focus_recolor; [exact Hf | done |]. clear s Hf. intros s Hf. apply focus_up in Hf. rewrite nd_opp in Hf.
  apply focus_up in Hf. rewrite nd_opp in Hf. apply wp_bind. eapply wp_rotate; [exact Hf|]. clear s Hf. intros s Hf.
  by apply wp_get_root.
Qed.

Lemma wp_remove_black_sibling s k d c t p near w far rest :
  focus s k (nd d c t p (nd d Black near w far)) rest ->
  wp (remove_black_sibling d p w)
    (fun x s' => match del_local d c t p (nd d Black near w far) with
       | None => x = p /\ focus s' k (nd d c t p (nd d Red near w far)) rest
       | Some u => x = root s' /\ focus s' k u rest
       end) s.
Proof.
  intros Hf. unfold remove_black_sibling, del_local. rewrite view_nd. pose proof (focus_far _ _ _ _ _ _ _ _ Hf) as Hw.
  apply wp_bind. eapply wp_focus_deref; [exact Hw|]. rewrite child_cell, child_opp_cell.
  apply wp_bind. eapply wp_focus_is_black; [exact (focus_down _ _ _ _ _ _ _ _ Hw)|].
  apply wp_bind. eapply wp_focus_is_black; [exact (focus_far _ _ _ _ _ _ _ _ Hw)|].
  assert (Hlast : forall s near' w' far', focus s k (nd d c t p (nd d Black near' w' far')) rest -> far' <> Leaf ->
    wp (bind (rb_node_copy_color w' p) (fun _ => bind (rb_node_set_black p) (fun _ => bind (deref w') (fun wn =>
      bind (rb_node_set_black (child (opp d) wn)) (fun _ => bind (rotate d p) (fun _ => get_root))))))
    (fun x s' => x = root s' /\ focus s' k (rotated d (nd d Black t p (nd d c near' w' (recolor Black far')))) rest) s).
  { intros s' near' w' far' Hf' Hfar. rewrite rotated_nd. by eapply wp_remove_last. }
  destruct (tcolor near) eqn:En, (tcolor far) eqn:Ef; cbn [bool_decide decide andb].
  - apply wp_bind, wp_ret. apply Hlast; [done | by apply red_neq].
  - destruct (red_view d near En) as (na & nb & nc & ->). rewrite addr_nd. autorewrite with rb.
    apply wp_bind, wp_bind. eapply wp_focus_black; [exact (focus_down _ _ _ _ _ _ _ _ Hw)|]. clear s Hf Hw. intros s Hw.
    apply focus_up in Hw. apply wp_bind. eapply wp_focus_red; [exact Hw|]. clear s Hw. intros s Hw.
    apply wp_bind. eapply wp_rotate_opp; [exact Hw|]. clear s Hw. intros s Hw. apply focus_up in Hw. rewrite nd_opp in Hw.
    apply wp_bind. eapply wp_focus_deref; [exact Hw|]. rewrite child_opp_cell, addr_nd. apply wp_ret.
    rewrite <- (recolor_nd d Black Red nc w far), <- (rotated_nd d Black). by apply Hlast.
  - apply wp_bind, wp_ret. apply Hlast; [done | by apply red_neq].
  - apply wp_bind. eapply wp_focus_red; [exact Hw|]. clear s Hf Hw. intros s Hw. apply wp_ret. split; [done|].
    apply focus_up in Hw. by rewrite nd_opp in Hw.
Qed.

(** What one round leaves. *)
Definition remove_post (k : list frame) (d : side) (c : color) (t : tree) (p : Z) (w : tree) (rest : list (Z * rb_node))
    (x : Z) (s : rb_tree) : Prop :=
  exists k' c' w', (k' = k /\ c' = c /\ w' = w \/
      exists wa far, w = nd d Red w' wa far /\ c' = Red /\ k' = Frame d Black wa far :: k) /\ tcolor w' = Black /\
    match del_local d c' t p w' with
    | None => x = p /\ focus s k' (nd d c' t p (recolor Red w')) rest
    | Some u => x = root s /\ focus s k' u rest
    end.

Lemma wp_remove_body s k d c t p w rest n :
  focus s (Frame d c p w :: k) t rest -> rb (S n) w ->
  wp (remove_body d (addr t) p) (remove_post k d c t p w rest) s.
Proof.
  intros Hf Hw. unfold remove_body, remove_post. apply focus_up in Hf. apply wp_bind. eapply wp_focus_deref; [exact Hf|].
  rewrite child_opp_cell. pose proof (focus_far _ _ _ _ _ _ _ _ Hf) as Hfw. apply wp_bind. eapply wp_focus_is_red; [exact Hfw|].
  destruct (tcolor w) eqn:Ew; cbn [bool_decide decide].
  - destruct (red_view d w Ew) as (near & wa & far & ->). apply rb_nd_red in Hw as (Hnear & _ & Hcn & _). rewrite addr_nd.
    assert (Hnl : near <> Leaf) by (intros ->; inversion Hnear).
    apply wp_bind, wp_bind. eapply wp_focus_black; [exact Hfw|]. clear s Hf Hfw. intros s Hf. apply focus_up in Hf. rewrite nd_opp in Hf.
    apply wp_bind. eapply wp_focus_red; [exact Hf|]. clear s Hf. intros s Hf. apply wp_bind. eapply wp_rotate; [exact Hf|].
    clear s Hf. intros s Hf. apply focus_down in Hf. apply wp_bind. eapply wp_focus_deref; [exact Hf|]. rewrite child_cell, child_opp_cell.
    apply wp_bind, wp_assert; [apply Z.eqb_refl|]. apply wp_ret.
    destruct (neq_view d near Hnl) as (c' & x & b & y & ->). rewrite tcolor_nd in Hcn. subst c'. rewrite addr_nd.
    eapply wp_mono; [eapply wp_remove_black_sibling; exact Hf|]. intros x' s' H. exists (Frame d Black wa far :: k), Red, (nd d Black x b y).
    split; [right; by exists wa, far|]. split; [apply tcolor_nd|]. by rewrite recolor_nd.
  - assert (Hnl : w <> Leaf) by (intros ->; inversion Hw).
    destruct (neq_view d w Hnl) as (c' & x & b & y & ->). rewrite tcolor_nd in Ew. subst c'. rewrite addr_nd.
    apply wp_bind, wp_ret. eapply wp_mono; [eapply wp_remove_black_sibling; exact Hf|]. intros x' s' H.
    exists k, c, (nd d Black x b y). split; [by left|]. split; [apply tcolor_nd|]. by rewrite recolor_nd.
Qed.

(** The root is not the focus below some frame. *)
Lemma top_cell k h : k <> [] -> exists n l, kcells k h ≡ₚ (top k h, n) :: l.
Proof.
  intros Hk. destruct k as [|f k]; [done|]. clear Hk. revert f h. induction k as [|f' k IH]; intros [d c a sib] h.
  - cbn [kcells top faddr]. do 2 eexists. reflexivity.
  - destruct (IH f' a) as (n & l & E). exists n, ((a, cell (par (f' :: k)) c d h (addr sib)) :: cells a sib ++ l).
    change (kcells (Frame d c a sib :: f' :: k) h) with ((a, cell (par (f' :: k)) c d h (addr sib)) :: cells a sib ++ kcells (f' :: k) a).
    rewrite E. cbn [top faddr]. solve_Permutation.
Qed.

Lemma focus_not_root s f k t rest : focus s (f :: k) t rest -> addr t <> root s.
Proof.
  intros Hf. unfold focus in Hf. destruct (top_cell (f :: k) (addr t)) as (n & l & E); [done|]. pose proof Hf as [-> _].
  apply not_eq_sym, (state_ne_tree s (top (f :: k) (addr t)) _ n (par (f :: k)) t (l ++ rest)).
  eapply state_perm; [|exact Hf]. rewrite E. solve_Permutation.
Qed.

Lemma del_local_neq d c t p w u : del_local d c t p w = Some u -> u <> Leaf.
Proof.
  intros H ->. apply (inorder_del_local d c c) in H. destruct d; by apply app_cons_not_nil in H.
Qed.

Lemma plug_neq k t : t <> Leaf -> plug k t <> Leaf.
Proof.
  intros Ht E. assert (H : inorder (plug k t) = []) by by rewrite E. rewrite inorder_plug in H.
  destruct t as [|c l a r]; [done|]. cbn in H. by destruct (kbefore k), (inorder l).
Qed.

(** The loop ends on a node which, made black, gives the result. *)
Definition remove_done (k : list frame) (t : tree) (rest : list (Z * rb_node)) (x : Z) (s : rb_tree) : Prop :=
  exists k' t', x = addr t' /\ focus s k' t' rest /\ plug k' (recolor Black t') = del_fix k t.

Lemma wp_remove_stop s k t rest fuel xp (Q : Z -> rb_tree -> Prop) :
  focus s k t rest -> (k = [] \/ tcolor t = Red) -> Q (addr t) s -> wp (remove_fixup (S fuel) (addr t) xp) Q s.
Proof.
  intros Hf Hk HQ. cbn [remove_fixup]. apply wp_bind, wp_get_root, wp_bind.
  eapply (wp_mono _ (fun b s' => b = false /\ s' = s)); [|by intros ? ? [-> ->]].
  destruct (Z.eqb_spec (addr t) (root s)) as [E|Hne]; [done|]. destruct Hk as [->|Hr].
  - destruct Hf as [Hr _]. by destruct Hne.
  - eapply wp_focus_is_black; [exact Hf|]. by rewrite Hr.
Qed.

Lemma wp_remove_fixup fuel s k t n rest :
  focus s k t rest -> kok k (S n) -> rb n t -> (length k + 1 < fuel)%nat ->
  wp (remove_fixup fuel (addr t) (par k)) (remove_done k t rest) s.
Proof.
  revert s k t n. induction fuel as [|fuel IH]; intros s k t n Hf Hk Ht Hlen; [lia|].
  destruct k as [|[d c p w] k].
  { eapply wp_remove_stop; [exact Hf | by left |]. by exists [], t. }
  destruct (tcolor t) eqn:Et.
  { eapply wp_remove_stop; [exact Hf | by right |]. exists (Frame d c p w :: k), t. by rewrite del_fix_red. }
  assert (Hw : rb (S n) w) by (inversion Hk; subst; done). assert (Hwl : w <> Leaf) by (intros ->; inversion Hw).
  cbn [remove_fixup length par faddr] in *. apply wp_bind, wp_get_root, wp_bind.
  eapply (wp_mono _ (fun b s' => b = true /\ s' = s)).
  { pose proof (focus_not_root _ _ _ _ _ Hf) as Hne. destruct (Z.eqb_spec (addr t) (root s)); [done|].
    eapply wp_focus_is_black; [exact Hf|]. by rewrite Et. }
  intros ? ? [-> ->]. apply wp_bind. eapply wp_focus_deref; [exact (focus_up _ _ _ _ _ _ _ _ Hf)|].
  assert (Hne : addr t <> addr w).
  { destruct t as [|ct lt at_ rt]; [|by eapply focus_sibling]. apply focus_up, focus_far in Hf.
    destruct (neq_view d w Hwl) as (? & ? & ? & ? & ->). rewrite addr_nd. apply focus_nz in Hf. cbn. lia. }
  rewrite side_test by done. apply wp_bind.
  eapply (wp_mono _ (remove_post k d c t p w rest)); [destruct d; by eapply wp_remove_body|].
  intros x' s' (k' & c' & w' & Hcase & Hcw' & Hres).
  assert (Hstop : forall t1 k1, focus s' k1 t1 rest -> t1 <> Leaf -> (k1 = [] \/ tcolor t1 = Red) -> x' = addr t1 ->
      plug k1 (recolor Black t1) = del_fix (Frame d c p w :: k) t ->
      wp (bind (rb_node_parent x') (fun x_p => remove_fixup fuel x' x_p)) (remove_done (Frame d c p w :: k) t rest) s').
  { intros t1 k1 Hf1 Hl1 Hk1 -> E. apply wp_bind.
    eapply (wp_mono _ (fun _ s1 => s1 = s')).
    { destruct (neq_view L t1 Hl1) as (? & ? & ? & ? & ->). rewrite addr_nd. by eapply wp_focus_parent. }
    intros ? ? ->. destruct fuel as [|fuel]; [lia|]. eapply wp_remove_stop; [exact Hf1 | done |]. by eexists _, _. }
  destruct Hcase as [(-> & -> & ->)|(wa & far & -> & -> & ->)].
  - rewrite del_fix_sib_black in Hstop by done. destruct (del_local d c t p w) as [u|] eqn:El.
    + destruct Hres as [-> Hf']. apply focus_plug in Hf'. eapply (Hstop (plug k u) []); [done | | by left | | done].
      * by eapply plug_neq, del_local_neq.
      * by destruct Hf'.
    + destruct Hres as [-> Hf']. apply wp_bind. eapply wp_focus_parent; [exact Hf'|].
      rewrite <- (addr_nd d c t p (recolor Red w)) at 1.
      pose proof (del_local_ok d c t p w n Ht Et Hw Hcw') as Hl. rewrite El in Hl.
      assert (Hfix : del_fix (Frame d c p w :: k) t = del_fix k (nd d c t p (recolor Red w))) by (rewrite del_fix_sib_black by done; by rewrite El).
      eapply (wp_mono _ (remove_done k (nd d c t p (recolor Red w)) rest)); [|unfold remove_done; by rewrite Hfix].
      assert (Hcol : c = Black /\ kok k (S (S n)) \/ c = Red /\ kok k (S n)) by (inversion Hk; subst; auto).
      destruct Hcol as [[-> Hk']|[-> Hk']].
      * eapply IH; [exact Hf' | exact Hk' | by apply rb_nd_black | lia].
      * destruct fuel as [|fuel]; [lia|]. destruct k as [|f k]; [inversion Hk|].
        eapply wp_remove_stop; [exact Hf' | right; apply tcolor_nd |]. eexists _, _. split; [done|]. split; [done|].
        by rewrite del_fix_red by apply tcolor_nd.
  - rewrite del_fix_sib_red in Hstop by done. destruct (del_local d Red t p w') as [u|] eqn:El.
    + destruct Hres as [-> Hf']. apply focus_plug in Hf'. eapply (Hstop (plug (Frame d Black wa far :: k) u) []); [done | | by left | | done].
      * by eapply plug_neq, del_local_neq.
      * by destruct Hf'.
    + destruct Hres as [-> Hf']. eapply (Hstop _ (Frame d Black wa far :: k)); [exact Hf' | done | right; apply tcolor_nd | by rewrite addr_nd |].
      by rewrite recolor_nd.
Qed.

(** ** The outermost node of a subtree *)

Lemma plug_app k1 k2 t : plug (k1 ++ k2) t = plug k2 (plug k1 t).
Proof. revert t. induction k1 as [|f k1 IH]; intros t; [done|]. apply IH. Qed.

Lemma focus_app s k1 k2 t rest : focus s (k1 ++ k2) t rest <-> focus s k2 (plug k1 t) rest.
Proof.
  revert t. induction k1 as [|[d c a sib] k1 IH]; intros t; [done|]. cbn [app plug]. rewrite focus_zip. apply IH.
Qed.

(** A node of [t] with no [d] child, reached by [d] steps only. *)
Definition outermost_of (d : side) (t : tree) (path : list frame) (c : color) (y : Z) (x : tree) : Prop :=
  t = plug path (nd d c Leaf y x) /\ Forall (fun f => fside f = d) path.

Lemma wp_outermost fuel s d k t rest :
  focus s k t rest -> t <> Leaf -> (length (inorder t) <= fuel)%nat ->
  wp (outermost fuel d (addr t)) (fun y s' => s' = s /\ exists path c x, outermost_of d t path c y x) s.
Proof.
  revert k t. induction fuel as [|fuel IH]; intros k t Hf Ht Hlen.
  { destruct t as [|c l a r]; [done|]. cbn in Hlen. rewrite length_app in Hlen. cbn in Hlen. lia. }
  destruct (neq_view d t Ht) as (c & x & a & y & ->). cbn [outermost]. rewrite addr_nd.
  apply wp_bind. eapply wp_focus_deref; [exact Hf|]. rewrite child_cell. apply focus_down in Hf as Hx.
  destruct x as [|cx lx ax rx].
  - apply wp_ret. split; [done|]. exists [], c, y. by split.
  - assert (H0 : ax <> 0) by (by eapply (focus_nz _ _ _ L)). cbn [addr]. destruct (Z.eqb_spec ax 0); [done|]. cbn [negb].
    change ax with (addr (Node cx lx ax rx)). eapply wp_mono.
    + eapply IH; [exact Hx | done |]. destruct d; cbn in Hlen |- *; rewrite ?length_app in *; cbn in Hlen; rewrite ?length_app in *; cbn in *; lia.
    + intros b s' (-> & path & c' & x & Et & Hp). split; [done|]. exists (path ++ [Frame d c a y]), c', x. split.
      * by rewrite plug_app, <- Et.
      * apply Forall_app. split; [done|]. by constructor.
Qed.

Lemma length_cells p t : length (cells p t) = length (inorder t).
Proof. revert p. induction t as [|c l IHl a r IHr]; intros p; cbn; [done|]. rewrite !length_app. cbn. rewrite IHl, IHr. lia. Qed.

Lemma focus_size s k t rest : focus s k t rest -> (length (kcells k (addr t)) + length (inorder t) + length rest <= size (mem s))%nat.
Proof. intros [_ H]. apply holds_length in H. rewrite !length_app, length_cells in H. lia. Qed.

Lemma wp_minimum s k t rest : focus s k t rest -> t <> Leaf ->
  wp (rb_node_minimum (addr t)) (fun y s' => s' = s /\ exists path c x, outermost_of L t path c y x) s.
Proof.
  intros Hf Ht. apply wp_bind, wp_rounds. eapply wp_outermost; [exact Hf | done |]. pose proof (focus_size _ _ _ _ Hf). lia.
Qed.

Lemma wp_maximum s k t rest : focus s k t rest -> t <> Leaf ->
  wp (rb_node_maximum (addr t)) (fun y s' => s' = s /\ exists path c x, outermost_of R t path c y x) s.
Proof.
  intros Hf Ht. apply wp_bind, wp_rounds. eapply wp_outermost; [exact Hf | done |]. pose proof (focus_size _ _ _ _ Hf). lia.
Qed.

(** ** Unlinking *)

Lemma wp_set_parent_tree s r t q p l (Q : unit -> rb_tree -> Prop) :
  state s r (cells q t ++ l) -> t <> Leaf -> ptr q -> ptr p ->
  (forall s', state s' r (cells p t ++ l) -> Q tt s') -> wp (rb_node_set_parent (addr t) p) Q s.
Proof.
  intros Hs Ht Hq Hp HQ. destruct t as [|c x a y]; [done|]. cbn [cells addr app] in *. by eapply wp_set_parent.
Qed.

(** A node with at most one child. *)
Lemma wp_unlink_one s k c l z r t rest (Q : unit -> rb_tree -> Prop) :
  focus s k (Node c l z r) rest -> (l = Leaf /\ t = r \/ r = Leaf /\ t = l) ->
  (forall s', focus s' k t ((z, cell (par k) c L (addr l) (addr r)) :: rest) -> Q tt s') ->
  wp (rb_tree_splice z (addr t)) Q s.
Proof.
  intros Hf Ht HQ. apply (focus_cell _ _ _ L) in Hf as Hz. apply state_ptr in Hz as [_ Hzp].
  eapply (wp_splice _ z c L (addr l) (addr r) (addr t) (fun q => cells q t) z k rest); [| apply rooted_tree | done |].
  - unfold focus in Hf. cbn [cells addr] in Hf. destruct Ht as [[-> ->]|[-> ->]]; cbn [cells app addr] in *;
      (eapply state_perm; [|exact Hf]; solve_Permutation).
  - intros s' Hs'. apply HQ. unfold focus. eapply state_perm; [|exact Hs']. solve_Permutation.
Qed.

(** The end of the other case: [y], which has no left child, takes the place
    of [z], its colour and its left subtree. *)
Lemma wp_unlink_two {A} (v : A) s k c l z zr q cy y r rest :
  state s (top k z) (kcells k z ++ (z, cell (par k) c L (addr l) zr) :: cells z l ++ cells q (Node cy Leaf y r) ++ rest) ->
  l <> Leaf -> ptr q -> ptr (par k) ->
  wp (bind (deref y) (fun yn => bind (m_assert (left yn =? 0)) (fun _ => bind (rb_tree_splice z y) (fun _ =>
      bind (deref z) (fun zn => bind (modify y (set_child L (left zn))) (fun _ => bind (rb_node_set_parent (left zn) y) (fun _ =>
      bind (rb_node_copy_color y z) (fun _ => ret v))))))))
    (fun v' s' => v' = v /\ focus s' k (Node c l y r) ((z, cell (par k) c L (addr l) zr) :: rest)) s.
Proof.
  intros Hs Hl Hq Hk. cbn [cells addr] in Hs. set (zc := cell (par k) c L (addr l) zr) in *.
  assert (Hy : state s (top k z) ((y, cell q cy L 0 (addr r)) :: (z, zc) :: kcells k z ++ cells z l ++ cells y r ++ rest))
    by (eapply state_perm; [|exact Hs]; solve_Permutation).
  destruct (state_ptr _ _ _ _ _ Hy) as [_ Hyp].
  assert (Hzp : ptr z) by (assert (Hz : state s (top k z) ((z, zc) :: (y, cell q cy L 0 (addr r)) :: kcells k z ++ cells z l ++ cells y r ++ rest))
    by (eapply state_perm; [|exact Hs]; solve_Permutation); by apply state_ptr in Hz as [_ ?]).
  apply wp_bind. eapply wp_deref; [exact Hy|]. apply wp_bind, wp_assert; [done|]. apply wp_bind.
  eapply (wp_splice _ z c L (addr l) zr y (fun q => [(y, cell q cy L 0 (addr r))]) q k (cells z l ++ cells y r ++ rest));
    [| apply rooted_cell | done |].
  { eapply state_perm; [|exact Hs]. solve_Permutation. }
  clear s Hs Hy. intros s Hs. fold zc in Hs. apply wp_bind. eapply (wp_deref (top k y) z zc).
  { eapply state_perm; [|exact Hs]. instantiate (1 := kcells k y ++ (y, cell (par k) cy L 0 (addr r)) :: cells z l ++ cells y r ++ rest). solve_Permutation. }
  apply wp_bind. eapply (wp_modify (top k y) y (cell (par k) cy L 0 (addr r))).
  { eapply state_perm; [|exact Hs]. instantiate (1 := kcells k y ++ (z, zc) :: cells z l ++ cells y r ++ rest). solve_Permutation. }
  clear s Hs. intros s Hs. rewrite set_child_cell in Hs. change (left zc) with (addr l) in *. apply wp_bind.
  eapply (wp_set_parent_tree _ (top k y) l z y); [| done | done | done |].
  { eapply state_perm; [|exact Hs]. instantiate (1 := kcells k y ++ (z, zc) :: (y, cell (par k) cy L (addr l) (addr r)) :: cells y r ++ rest). solve_Permutation. }
  clear s Hs. intros s Hs. apply wp_bind. unfold rb_node_copy_color. apply wp_bind. eapply (wp_deref (top k y) z zc).
  { eapply state_perm; [|exact Hs]. instantiate (1 := kcells k y ++ (y, cell (par k) cy L (addr l) (addr r)) :: cells y l ++ cells y r ++ rest). solve_Permutation. }
  eapply (wp_modify (top k y) y (cell (par k) cy L (addr l) (addr r))).
  { eapply state_perm; [|exact Hs]. instantiate (1 := kcells k y ++ (z, zc) :: cells y l ++ cells y r ++ rest). solve_Permutation. }
  clear s Hs. intros s Hs. apply wp_ret. split; [done|]. unfold zc in *. rewrite !parent_cell, enc_copy, set_parent_cell in Hs by done.
  unfold focus. cbn [cells addr]. eapply state_perm; [|exact Hs]. solve_Permutation.
Qed.

(** Contexts that differ in the addresses of their nodes only. *)
Definition same_shape (f f' : frame) : Prop := fside f = fside f' /\ fcolor f = fcolor f' /\ fsib f = fsib f'.

Lemma kok_shape k k' n : Forall2 same_shape k k' -> kok k n -> kok k' n.
Proof.
  intros H Hk. revert k' H. induction Hk as [n|d a sib k n Hs Hk IH|d a sib d' a' sib' k n Hs Hc Hk IH]; intros k' H.
  - inversion H. constructor.
  - inversion H as [|? [? ? ? ?] ? ? (E1 & E2 & E3) H']; subst. cbn in *. subst. constructor; auto.
  - inversion H as [|? [? ? ? ?] ? ? (E1 & E2 & E3) H']; subst. pose proof (IH _ H') as IH'.
    inversion H' as [|? [? ? ? ?] ? ? (E1' & E2' & E3') H'']; subst. cbn in *. subst. by constructor.
Qed.

Lemma same_shape_refl k : Forall2 same_shape k k.
Proof. induction k; constructor; [done | assumption]. Qed.

(** A frame of a context and its cell. *)
Lemma kcells_In k a h : a ∈ faddr <$> k -> exists n l, kcells k h ≡ₚ (a, n) :: l.
Proof.
  revert h. induction k as [|[d c b sib] k IH]; intros h Hin; [by apply elem_of_nil in Hin|]. cbn [fmap list_fmap faddr] in Hin.
  apply elem_of_cons in Hin as [->|Hin]; cbn [kcells]; [do 2 eexists; reflexivity|].
  destruct (IH b Hin) as (n & l & E). exists n, ((b, cell (par k) c d h (addr sib)) :: cells b sib ++ l). rewrite E. solve_Permutation.
Qed.

(** What unlinking [z] leaves: the place [x] of a missing black node, if the
    node that went was black. *)
Definition unlinked (k : list frame) (l r : tree) (z : Z) (rest : list (Z * rb_node)) (v : Z * Z * bool) (s : rb_tree) : Prop :=
  exists k' t' n zc yb, v = (addr t', par k', yb) /\ focus s k' t' ((z, zc) :: rest) /\
    inorder (plug k' t') = kbefore k ++ (inorder l ++ inorder r) ++ kafter k /\
    rb n t' /\ (if (yb : bool) then kok k' (S n) else rb_ok (plug k' t')).

(** The heights after one node [y] with at most one child has gone. *)
Lemma gone_heights k c y x d n : kok k n -> rb n (nd d c Leaf y x) ->
  exists m, rb m x /\ (if bool_decide (c = Black) then kok k (S m) else rb_ok (plug k x)).
Proof.
  intros Hk Hr. destruct c; cbn [bool_decide decide].
  - apply rb_nd_red in Hr as (_ & Hx & _ & Hc). exists n. split; [done|]. by eapply plug_ok.
  - assert (exists m, n = S m) as [m ->] by (destruct d; inversion Hr; eauto). apply rb_nd_black in Hr as [_ Hx]. by exists m.
Qed.

Lemma kbefore_left path : Forall (fun f => fside f = L) path -> kbefore path = [].
Proof. induction 1 as [|[d c a sib] path Hd Hp IH]; [done|]. cbn in *. subst d. by rewrite IH. Qed.

Lemma wp_remove_unlink s k c l z r rest :
  focus s k (Node c l z r) rest -> rb_ok (plug k (Node c l z r)) ->
  wp (remove_unlink z) (unlinked k l r z rest) s.
Proof.
  intros Hf Hok. unfold remove_unlink, unlinked. pose proof (focus_par _ _ _ _ Hf) as Hkp.
  destruct (rb_ok_plug _ _ Hok) as (n0 & Hk0 & Hn0 & _). pose proof (focus_nz s k rest L c l z r Hf) as Hz0.
  pose proof (focus_cell s k rest L c l z r Hf) as Hz. pose proof (state_ptr _ _ _ _ _ Hz) as [_ Hzp].
  apply wp_bind. eapply (wp_mono _ (fun b s' => b = bool_decide (c = Black) /\ s' = s)).
  { change z with (addr (Node c l z r)). by eapply wp_focus_is_black. }
  intros ? ? [-> ->]. apply wp_bind. eapply wp_deref; [exact Hz|]. cbn [cell left right].
  destruct (Z.eqb_spec (addr l) 0) as [El|Hl].
  { assert (l = Leaf) as -> by (destruct l; [done|]; apply (focus_down _ L) in Hf; by apply (focus_nz _ _ _ L) in Hf).
    apply wp_bind. eapply (wp_focus_parent s k rest L); [exact Hf|]. apply wp_bind. eapply wp_unlink_one; [exact Hf | by left |].
    intros s' Hf'. apply wp_ret. destruct (gone_heights _ _ _ _ L _ Hk0 Hn0) as (m & Hm & Hh).
    do 5 eexists. split; [reflexivity|]. split; [exact Hf'|]. split; [apply inorder_plug|]. split; [exact Hm | exact Hh]. }
  destruct (Z.eqb_spec (addr r) 0) as [Er|Hr].
  { assert (r = Leaf) as -> by (destruct r; [done|]; apply (focus_far _ L) in Hf; by apply (focus_nz _ _ _ L) in Hf).
    apply wp_bind. eapply (wp_focus_parent s k rest L); [exact Hf|]. apply wp_bind. eapply wp_unlink_one; [exact Hf | by right |].
    intros s' Hf'. apply wp_ret. destruct (gone_heights _ _ _ _ R _ Hk0 Hn0) as (m & Hm & Hh).
    do 5 eexists. split; [reflexivity|]. split; [exact Hf'|]. split; [by rewrite inorder_plug; cbn; rewrite app_nil_r|]. split; [exact Hm | exact Hh]. }
  assert (Hrl : r <> Leaf) by by intros ->. assert (Hll : l <> Leaf) by by intros ->. clear Hl Hr.
  pose proof (focus_far s L c z l k r rest Hf) as Hfr. cbn [opp] in Hfr. apply wp_bind.
  eapply wp_mono; [by eapply wp_minimum|]. intros y ? (-> & path & cy & x & Er & Hpath). cbn [nd] in Er.
  apply kbefore_left in Hpath.
  set (K := path ++ Frame R c z l :: k) in *.
  assert (Hfy : focus s K (Node cy Leaf y x) rest) by (apply focus_app; by rewrite <- Er).
  assert (HokK : rb_ok (plug K (Node cy Leaf y x))) by (unfold K; rewrite plug_app, <- Er; exact Hok).
  destruct (rb_ok_plug _ _ HokK) as (n & HK & Hn & _).
  apply wp_bind. eapply (wp_mono _ (fun b s' => b = bool_decide (cy = Black) /\ s' = s)).
  { change y with (addr (Node cy Leaf y x)). by eapply wp_focus_is_black. }
  intros ? ? [-> ->]. pose proof (focus_cell s K rest L cy Leaf y x Hfy) as Hy. apply wp_bind. eapply wp_deref; [exact Hy|].
  cbn [cell left right addr]. apply wp_bind. eapply (wp_focus_parent s K rest L); [exact Hfy|].
  (* the situation once [y] is in place *)
  assert (Hend : forall s' zc, focus s' k (Node c l y (plug path x)) ((z, zc) :: rest) ->
    forall xp, xp = par (path ++ Frame R c y l :: k) -> unlinked k l r z rest (addr x, xp, bool_decide (cy = Black)) s').
  { intros s' zc Hs' xp ->. destruct (gone_heights (path ++ Frame R c y l :: k) cy y x L n) as (m & Hm & Hh).
    - eapply kok_shape; [|exact HK]. apply Forall2_app; [apply same_shape_refl|]. constructor; [done | apply same_shape_refl].
    - exact Hn.
    - do 5 eexists. split; [reflexivity|]. split; [apply focus_app; apply (focus_down _ R); exact Hs'|]. split; [|by split].
      rewrite plug_app. cbn [plug]. rewrite inorder_plug. unfold plug1. cbn [fside fcolor faddr fsib nd inorder]. rewrite Er, !inorder_plug, Hpath.
      cbn [inorder app]. by rewrite <- !app_assoc. }
  destruct path as [|f path].
  - (* [y] is the right child of [z] *)
    cbn [plug] in Er. unfold K. cbn [app par faddr]. rewrite Z.eqb_refl. apply wp_bind, wp_ret.
    eapply wp_mono; [eapply (wp_unlink_two _ s k c l z (addr r) z cy y x rest)|].
    + unfold focus in Hf. cbn [cells addr] in Hf. eapply state_perm; [|exact Hf]. rewrite Er. cbn [cells addr]. solve_Permutation.
    + done.
    + done.
    + done.
    + intros v s' [-> Hs']. by eapply Hend.
  - assert (Hne : par K <> z).
    { unfold K. destruct f as [df cf af sf]. cbn [app par faddr]. unfold focus, K in Hfy. cbn [app kcells] in Hfy.
      destruct (kcells_In (path ++ Frame R c z l :: k) z af) as (zc & l' & E); [rewrite fmap_app; apply elem_of_app; right; by left|].
      rewrite E in Hfy. eapply (state_ne s _ af _ z zc (cells af sf ++ l' ++ cells af (Node cy Leaf y x) ++ rest)).
      eapply state_perm; [|exact Hfy]. solve_Permutation. }
    destruct (Z.eqb_spec (par K) z); [done|]. apply wp_bind, wp_bind. eapply (wp_focus_parent s K rest L); [exact Hfy|].
    apply wp_bind. eapply (wp_unlink_one s K cy Leaf y x x rest); [exact Hfy | by left |]. intros s1 Hs1.
    pose proof (proj1 (focus_app _ _ _ _ _) Hs1) as Hs2. apply focus_up in Hs2. cbn [nd] in Hs2.
    pose proof (focus_cell s1 k _ L c l z _ Hs2) as Hz1. apply wp_bind. eapply wp_deref; [exact Hz1|]. cbn [cell left right].
    set (r' := plug (f :: path) x) in *. set (zc := cell (par k) c L (addr l) (addr r')) in *.
    assert (Hrl' : r' <> Leaf) by (unfold r'; cbn [plug]; by apply plug_neq, nd_neq).
    assert (Hyp : ptr y) by (by apply state_ptr in Hy as [_ ?]). pose proof (focus_par _ _ _ _ Hfy) as HKp.
    apply wp_bind. eapply (wp_modify (top k z) y (cell (par K) cy L 0 (addr x))).
    { eapply state_perm; [|exact Hz1]. instantiate (1 := (z, zc) :: kcells k z ++ cells z l ++ cells z r' ++ rest). cbn [addr]. solve_Permutation. }
    intros s3 Hs3. change (state s3 (top k z) ((y, cell (par K) cy L 0 (addr r')) :: (z, zc) :: kcells k z ++ cells z l ++ cells z r' ++ rest)) in Hs3.
    apply wp_bind. eapply (wp_set_parent_tree _ (top k z) r' z y); [| done | done | done |].
    { eapply state_perm; [|exact Hs3]. instantiate (1 := (y, cell (par K) cy L 0 (addr r')) :: (z, zc) :: kcells k z ++ cells z l ++ rest). solve_Permutation. }
    intros s4 Hs4. apply wp_ret. eapply wp_mono; [eapply (wp_unlink_two _ s4 k c l z (addr r') (par K) cy y r' rest)|].
    + cbn [cells addr]. eapply state_perm; [|exact Hs4]. unfold zc. solve_Permutation.
    + done.
    + done.
    + done.
    + intros v s' [-> Hs']. by eapply Hend.
Qed.
