(* ===== verification/RbTreeProps.v ===== *)
(** * Red-black trees: the properties

    [represents s t rest]: the store [s] holds the tree [t], rooted at the root
    member, and apart from it the cells [rest]. *)

From Stdlib Require Import ZArith Lia Sorted.
From stdpp Require Import base list gmap numbers sorting.
From S2P Require Import Prelude StateM RbTree RbAbs RbHeap RbInsert RbRemove.
#[local] Open Scope Z_scope.

Definition represents (s : rb_tree) (t : tree) (rest : list (Z * rb_node)) : Prop :=
  root s = addr t /\ holds (mem s) (cells 0 t ++ rest).

Lemma represents_focus s t rest : represents s t rest <-> focus s [] t rest.
Proof. done. Qed.

(** The store of a given tree. *)
Definition store_of (t : tree) : rb_tree := RbTree (addr t) (list_to_map (cells 0 t)).

(** ** Positions in the sequence *)

Lemma kbefore_app k1 k2 : kbefore (k1 ++ k2) = kbefore k2 ++ kbefore k1.
Proof. induction k1 as [|f k1 IH]; cbn; [by rewrite app_nil_r|]. by rewrite IH, app_assoc. Qed.

Lemma kafter_app k1 k2 : kafter (k1 ++ k2) = kafter k1 ++ kafter k2.
Proof. induction k1 as [|f k1 IH]; cbn; [done|]. by rewrite IH, app_assoc. Qed.

(** A node of the sequence is the root of a subtree. *)
Lemma locate t l1 z l2 : inorder t = l1 ++ z :: l2 ->
  exists k c l r, t = plug k (Node c l z r) /\ l1 = kbefore k ++ inorder l /\ l2 = inorder r ++ kafter k.
Proof.
  revert l1 l2. induction t as [|c l IHl a r IHr]; intros l1 l2 E; cbn in E; [by apply app_cons_not_nil in E|].
  apply app_eq_inv in E as [(k & E1 & E2)|(k & E1 & E2)].
  - destruct k as [|b k]; injection E2 as -> ->.
    + exists [], c, l, r. rewrite app_nil_r in *. subst l1. done.
    + destruct (IHl _ _ E1) as (k' & c' & l' & r' & -> & -> & ->). exists (k' ++ [Frame L c a r]), c', l', r'.
      rewrite plug_app, kbefore_app, kafter_app. split; [done|]. split; [done|]. cbn. by rewrite app_nil_r, <- app_assoc.
  - destruct k as [|b k]; injection E2 as -> E2.
    + exists [], c, l, r. rewrite !app_nil_r in *. subst. done.
    + destruct (IHr _ _ E2) as (k' & c' & l' & r' & -> & -> & ->). exists (k' ++ [Frame R c b l]), c', l', r'.
      rewrite plug_app, kbefore_app, kafter_app. split; [done|]. subst l1. cbn. rewrite !app_nil_r. by rewrite <- !app_assoc.
Qed.

Lemma elements_keys p t : (cells p t).*1 ≡ₚ inorder t.
Proof.
  revert p. induction t as [|c l IHl a r IHr]; intros p; cbn; [done|]. rewrite fmap_app, IHl, IHr. solve_Permutation.
Qed.

Lemma store_of_represents t : NoDup (inorder t) -> Forall (fun a => a <> 0 /\ ptr a) (inorder t) -> represents (store_of t) t [].
Proof.
  intros Hnd Hp. split; [done|]. rewrite app_nil_r. split.
  - intros a n Hin. apply elem_of_list_to_map_1; [by rewrite elements_keys | done].
  - by rewrite elements_keys.
  - intros a. rewrite elements_keys. intros Hin. by rewrite Forall_forall in Hp; apply Hp.
Qed.

(** ** Insertion *)

(** Where [rb_tree_insert_at] may put a node: at the root of an empty tree, or
    as a missing child of [parent]; the sequences before and after it. *)
Definition insert_place (s : rb_tree) (t : tree) (parent : Z) (lft : bool) (l1 l2 : list Z) : Prop :=
  (t = Leaf /\ parent = 0 /\ l1 = [] /\ l2 = []) \/
  exists v m1 m2, inorder t = m1 ++ parent :: m2 /\ mem s !! parent = Some v /\
    (if lft then left v = 0 /\ l1 = m1 /\ l2 = parent :: m2 else right v = 0 /\ l1 = m1 ++ [parent] /\ l2 = m2).

Definition fresh_node (node : Z) (t : tree) (rest : list (Z * rb_node)) : Prop :=
  node <> 0 /\ ptr node /\ ~ (node ∈ inorder t) /\ ~ (node ∈ rest.*1).

Lemma focus_zero_child s k d c x a y rest : focus s k (nd d c x a y) rest -> addr x = 0 -> x = Leaf.
Proof. intros Hf E. destruct x as [|cx lx b rx]; [done|]. apply focus_down in Hf. by apply (focus_nz _ _ _ L) in Hf. Qed.

Lemma insert_place_focus s t rest parent lft l1 l2 :
  represents s t rest -> insert_place s t parent lft l1 l2 ->
  exists k, t = plug k Leaf /\ par k = parent /\ kbefore k = l1 /\ kafter k = l2 /\
    match k with f :: _ => lft = match fside f with L => true | R => false end | [] => True end.
Proof.
  intros Hs [(-> & -> & -> & ->)|(v & m1 & m2 & Ei & Hv & Hside)]; [by exists []|].
  destruct (locate _ _ _ _ Ei) as (k & c & l & r & -> & -> & ->).
  pose proof (proj2 (focus_plug _ _ _ _) Hs) as Hf. pose proof (focus_cell s k rest L c l parent r Hf) as Hc.
  destruct Hc as [_ Hc]. apply holds_read in Hc. rewrite Hc in Hv. injection Hv as <-. cbn [cell left right] in Hside.
  destruct lft; destruct Hside as (E0 & -> & ->).
  - apply (focus_zero_child s k L c l parent r rest Hf) in E0 as ->. exists (Frame L c parent r :: k). cbn. by rewrite !app_nil_r.
  - apply (focus_zero_child s k R c r parent l rest Hf) in E0 as ->. exists (Frame R c parent l :: k). cbn. by rewrite <- ?app_assoc.
Qed.

Lemma kcells_keys k h : (kcells k h).*1 ≡ₚ kbefore k ++ kafter k.
Proof.
  revert h. induction k as [|[d c a sib] k IH]; intros h; cbn [kcells kbefore kafter]; [done|].
  cbn [fmap list_fmap fst]. rewrite fmap_app, elements_keys, IH. unfold before, after. cbn [fside faddr fsib].
  destruct d; solve_Permutation.
Qed.

Lemma insert_at_spec s t rest parent node lft l1 l2 :
  represents s t rest -> rb_ok t -> insert_place s t parent lft l1 l2 -> fresh_node node t rest ->
  wp (rb_tree_insert_at parent node lft)
    (fun _ s' => exists t', represents s' t' rest /\ rb_ok t' /\ inorder t' = l1 ++ node :: l2) s.
Proof.
  intros Hs Hok Hplace (Hn0 & Hnp & Hnt & Hnr). destruct (insert_place_focus _ _ _ _ _ _ _ Hs Hplace) as (k & -> & <- & <- & <- & Hside).
  destruct (rb_ok_plug _ _ Hok) as (n & Hk & Hn & _). pose proof (proj2 (focus_plug _ _ _ _) Hs) as Hf.
  eapply wp_mono; [eapply wp_insert_at; [exact Hf | exact Hk | | done | done | exact Hside]|].
  - rewrite fmap_app, kcells_keys. rewrite inorder_plug in Hnt. cbn in Hnt. rewrite not_elem_of_app. done.
  - intros [] s' Hs'. exists (insert_result k (leaf_node node)). split; [exact Hs'|]. split.
    + inversion Hn; subst. eapply ins_fix_ok; [exact Hk | by apply (rb_red 0); constructor | done].
    + unfold insert_result. rewrite inorder_recolor, inorder_ins_fix, inorder_plug. done.
Qed.

(** C16: on a store that holds a red-black tree, [rb_tree_insert_at] at a missing
    child of a node (or in an empty tree) terminates, trips no assertion and
    reads no address outside the tree; the store then holds a red-black tree
    whose nodes are, in order, those of the old one with the new node just
    before or after its parent, and what else was in the store is unchanged. *)
Theorem rb_tree_insert_at_correct (s : rb_tree) (t : tree) (rest : list (Z * rb_node)) (parent node : Z) (lft : bool) (l1 l2 : list Z) :
  represents s t rest -> rb_ok t -> insert_place s t parent lft l1 l2 -> fresh_node node t rest ->
  exists s' t', rb_tree_insert_at parent node lft s = Ret (tt, s') /\
    represents s' t' rest /\ rb_ok t' /\ inorder t' = l1 ++ node :: l2.
Proof.
  intros Hs Hok Hp Hn. destruct (wp_elim _ _ _ (insert_at_spec _ _ _ _ _ _ _ _ Hs Hok Hp Hn)) as ([] & s' & E & t' & H). eauto.
Qed.

(** ** Removal *)

Lemma remove_spec s t rest l1 z l2 :
  represents s t rest -> rb_ok t -> inorder t = l1 ++ z :: l2 ->
  wp (rb_tree_remove z)
    (fun _ s' => exists t' zc, represents s' t' ((z, zc) :: rest) /\ rb_ok t' /\ inorder t' = l1 ++ l2) s.
Proof.
  intros Hs Hok Ei. destruct (locate _ _ _ _ Ei) as (k & c & l & r & -> & -> & ->).
  pose proof (proj2 (focus_plug _ _ _ _) Hs) as Hf. unfold rb_tree_remove. apply wp_bind.
  eapply wp_mono; [eapply wp_remove_unlink; [exact Hf | exact Hok]|]. clear s Hs Hf Ei Hok.
  intros v s (k' & t' & n & zc & yb & -> & Hf & Hin & Hn & Hyb).
  assert (Hin' : inorder (plug k' t') = (kbefore k ++ inorder l) ++ inorder r ++ kafter k) by (rewrite Hin; by rewrite <- !app_assoc).
  clear Hin. apply wp_bind. eapply (wp_mono _ (fun _ s' => s' = s)).
  { destruct k' as [|[d cp p w] k']; cbn [par faddr]; [done|]. apply focus_up in Hf as Hp.
    pose proof (focus_nz _ _ _ _ _ _ _ _ Hp). destruct (Z.eqb_spec p 0); [done|].
    apply wp_bind. eapply wp_focus_deref; [exact Hp|]. by apply wp_assert; [apply child_or|]. }
  intros _ ? ->. destruct yb; cbn [negb].
  - apply wp_bind, wp_rounds, wp_bind. eapply wp_mono.
    { eapply wp_remove_fixup; [exact Hf | exact Hyb | exact Hn |]. pose proof (focus_size _ _ _ _ Hf).
      pose proof (length_kcells k' (addr t')). cbn [length] in *. lia. }
    intros x s' (k1 & t1 & -> & Hf1 & E).
    eapply (wp_mono _ (fun _ s1 => focus s1 k1 (recolor Black t1) ((z, zc) :: rest))).
    { destruct t1 as [|c1 x1 a1 y1]; [exact Hf1|]. assert (a1 <> 0) by (by eapply (focus_nz _ _ _ L)). cbn [addr].
      destruct (Z.eqb_spec a1 0); [done|]. cbn [negb]. change a1 with (addr (Node c1 x1 a1 y1)). by eapply wp_focus_recolor. }
    intros _ s1 Hs1. apply focus_plug in Hs1. rewrite E in Hs1. exists (del_fix k' t'), zc. split; [exact Hs1|].
    split; [by eapply del_fix_ok|]. by rewrite inorder_del_fix.
  - apply wp_ret. apply focus_plug in Hf. by exists (plug k' t'), zc.
Qed.

(** C17: on a store that holds a red-black tree, [rb_tree_remove] of any of its
    nodes terminates, trips no assertion and reads no address outside the
    tree; the store then holds a red-black tree of the other nodes in the same
    order, apart from the cell of the removed node and from what else was in
    the store, which is unchanged. *)
Theorem rb_tree_remove_correct (s : rb_tree) (t : tree) (rest : list (Z * rb_node)) (l1 : list Z) (z : Z) (l2 : list Z) :
  represents s t rest -> rb_ok t -> inorder t = l1 ++ z :: l2 ->
  exists s' t' zc, rb_tree_remove z s = Ret (tt, s') /\
    represents s' t' ((z, zc) :: rest) /\ rb_ok t' /\ inorder t' = l1 ++ l2.
Proof.
  intros Hs Hok Ei. destruct (wp_elim _ _ _ (remove_spec _ _ _ _ _ _ Hs Hok Ei)) as ([] & s' & E & t' & zc & H). eauto 6.
Qed.

(** ** Witnesses *)

Definition small_tree : tree := Node Black (Node Red Leaf 16 Leaf) 32 (Node Red Leaf 48 Leaf).

Lemma small_tree_represents : represents (store_of small_tree) small_tree [].
Proof.
  apply store_of_represents; change (inorder small_tree) with [16; 32; 48].
  - repeat (apply NoDup_cons_2; [set_solver|]). apply NoDup_nil_2.
  - repeat (apply Forall_cons; split; [split; [done | split; [lia | done]]|]). by apply Forall_nil.
Qed.

Lemma small_tree_ok : rb_ok small_tree.
Proof. split; [done|]. exists 1%nat. repeat constructor. Qed.

Lemma rb_tree_insert_at_correct_witness : exists s' t', rb_tree_insert_at 16 64 false (store_of small_tree) = Ret (tt, s') /\
  represents s' t' [] /\ rb_ok t' /\ inorder t' = [16; 64; 32; 48].
Proof.
  refine (rb_tree_insert_at_correct (store_of small_tree) small_tree [] 16 64 false [16] [32; 48] small_tree_represents small_tree_ok _ _).
  - right. exists (cell 32 Red L 0 0), [], [32; 48]. repeat split.
  - split; [done|]. split; [by vm_compute|]. split; [set_solver | apply not_elem_of_nil].
Defined.

Lemma rb_tree_remove_correct_witness : exists s' t' zc, rb_tree_remove 32 (store_of small_tree) = Ret (tt, s') /\
  represents s' t' [(32, zc)] /\ rb_ok t' /\ inorder t' = [16; 48].
Proof. exact (rb_tree_remove_correct (store_of small_tree) small_tree [] [16] 32 [48] small_tree_represents small_tree_ok eq_refl). Defined.
