(* ===== verification/RbSearch.v ===== *)
(** * Red-black trees: traversal, search, sequences of operations, validation *)

From Stdlib Require Import ZArith Lia Sorted.
From stdpp Require Import base list gmap numbers sorting.
From S2P Require Import Prelude StateM RbTree RbAbs RbHeap RbInsert RbRemove RbTreeProps.
#[local] Open Scope bool_scope.
#[local] Open Scope Z_scope.

(** ** Traversal *)

(** The first node met on the way up from a [d] child. *)
Fixpoint above (d : side) (k : list frame) : Z :=
  match k with
  | [] => 0
  | f :: k => if same (fside f) d then above d k else faddr f
  end.

Lemma wp_climb fuel s d k t rest :
  focus s k t rest -> t <> Leaf -> (length k < fuel)%nat ->
  wp (climb fuel d (addr t) (par k)) (fun p s' => p = above d k /\ s' = s) s.
Proof.
  revert k t. induction fuel as [|fuel IH]; intros k t Hf Ht Hlen; [lia|]. cbn [climb].
  destruct k as [|[d' c a sib] k]; [done|]. cbn [par faddr above fside]. apply focus_up in Hf as Hp.
  pose proof (focus_nz _ _ _ _ _ _ _ _ Hp). destruct (Z.eqb_spec a 0); [done|].
  apply wp_bind. eapply wp_focus_deref; [exact Hp|]. pose proof (focus_sibling _ _ _ _ _ _ _ _ Hf Ht) as Hne.
  destruct (same_spec d' d) as [[-> ->]|[-> ->]].
  - rewrite child_cell, Z.eqb_refl. apply wp_bind. eapply wp_focus_parent; [exact Hp|].
    rewrite <- (addr_nd d c t a sib) at 1. eapply IH; [exact Hp | done | cbn in Hlen; lia].
  - assert (E1 : child d (cell (par k) c (opp d) (addr t) (addr sib)) = addr sib) by by destruct d.
    rewrite E1, child_cell. destruct (Z.eqb_spec (addr t) (addr sib)); [done|]. by apply wp_bind, wp_assert; [apply Z.eqb_refl|].
Qed.

Lemma above_after k : above R k = default 0 (head (kafter k)).
Proof. induction k as [|[[] c a sib] k IH]; cbn; done. Qed.

Lemma above_before k : above L k = default 0 (last (kbefore k)).
Proof.
  induction k as [|[[] c a sib] k IH]; cbn; [done | by rewrite app_nil_r|]. by rewrite app_assoc, last_snoc.
Qed.

Lemma inorder_outermost d t path c y x : outermost_of d t path c y x ->
  y = default 0 (match d with L => head (inorder t) | R => last (inorder t) end).
Proof.
  intros [-> Hp]. rewrite inorder_plug. destruct d.
  - by rewrite (kbefore_left path) by done.
  - assert (E : kafter path = []) by (induction Hp as [|[d c' a sib] path Hd Hp IH]; [done|]; cbn in *; by subst d).
    rewrite E. cbn [nd inorder]. by rewrite app_nil_r, app_assoc, last_snoc.
Qed.

Lemma next_spec s k c l a r rest : focus s k (Node c l a r) rest ->
  wp (rb_node_next a) (fun b s' => b = default 0 (head (inorder r ++ kafter k)) /\ s' = s) s.
Proof.
  intros Hf. unfold rb_node_next. apply wp_bind. eapply (wp_focus_deref s k rest L); [exact Hf|]. cbn [cell right].
  destruct r as [|cr lr b rr] eqn:Er.
  - cbn [addr inorder app]. apply wp_bind. eapply (wp_focus_parent s k rest L); [exact Hf|]. apply wp_bind, wp_rounds.
    rewrite <- above_after. change a with (addr (Node c l a Leaf)). eapply wp_climb; [exact Hf | done |].
    pose proof (focus_length _ _ _ _ Hf). lia.
  - pose proof (focus_far s L c a l k _ rest Hf) as Hr. assert (b <> 0) by (by eapply (focus_nz _ _ _ L)). cbn [addr].
    destruct (Z.eqb_spec b 0); [done|]. cbn [negb]. change b with (addr (Node cr lr b rr)).
    eapply wp_mono; [by eapply wp_minimum|]. intros y s' (-> & path & cy & x & Ho). split; [|done].
    rewrite (inorder_outermost _ _ _ _ _ _ Ho). cbn [inorder]. by destruct (inorder lr).
Qed.

Lemma prev_spec s k c l a r rest : focus s k (Node c l a r) rest ->
  wp (rb_node_prev a) (fun b s' => b = default 0 (last (kbefore k ++ inorder l)) /\ s' = s) s.
Proof.
  intros Hf. unfold rb_node_prev. apply wp_bind. eapply (wp_focus_deref s k rest L); [exact Hf|]. cbn [cell left].
  destruct l as [|cl ll b rl] eqn:El.
  - cbn [addr inorder app]. apply wp_bind. eapply (wp_focus_parent s k rest L); [exact Hf|]. apply wp_bind, wp_rounds.
    rewrite app_nil_r, <- above_before. change a with (addr (Node c Leaf a r)). eapply wp_climb; [exact Hf | done |].
    pose proof (focus_length _ _ _ _ Hf). lia.
  - pose proof (focus_down s L c a r k _ rest Hf) as Hl. assert (b <> 0) by (by eapply (focus_nz _ _ _ L)). cbn [addr].
    destruct (Z.eqb_spec b 0); [done|]. cbn [negb]. change b with (addr (Node cl ll b rl)).
    eapply wp_mono; [by eapply wp_maximum|]. intros y s' (-> & path & cy & x & Ho). split; [|done].
    rewrite (inorder_outermost _ _ _ _ _ _ Ho). cbn [inorder]. rewrite app_assoc, !last_app_cons. done.
Qed.

Lemma first_spec s t rest : represents s t rest ->
  wp rb_tree_first (fun b s' => b = default 0 (head (inorder t)) /\ s' = s) s.
Proof.
  intros Hf. apply wp_bind, wp_get_root. pose proof Hf as [-> _]. apply (proj1 (represents_focus _ _ _)) in Hf. destruct t as [|c l a r]; [done|].
  assert (a <> 0) by (by eapply (focus_nz s [] rest L)). cbn [addr]. destruct (Z.eqb_spec a 0); [done|]. cbn [negb].
  change a with (addr (Node c l a r)) at 1. eapply wp_mono; [by eapply (wp_minimum s [])|].
  intros y s' (-> & path & cy & x & Ho). split; [|done]. by rewrite (inorder_outermost _ _ _ _ _ _ Ho).
Qed.

Lemma last_spec s t rest : represents s t rest ->
  wp rb_tree_last (fun b s' => b = default 0 (last (inorder t)) /\ s' = s) s.
Proof.
  intros Hf. apply wp_bind, wp_get_root. pose proof Hf as [-> _]. apply (proj1 (represents_focus _ _ _)) in Hf. destruct t as [|c l a r]; [done|].
  assert (a <> 0) by (by eapply (focus_nz s [] rest L)). cbn [addr]. destruct (Z.eqb_spec a 0); [done|]. cbn [negb].
  change a with (addr (Node c l a r)) at 1. eapply wp_mono; [by eapply (wp_maximum s [])|].
  intros y s' (-> & path & cy & x & Ho). split; [|done]. by rewrite (inorder_outermost _ _ _ _ _ _ Ho).
Qed.

Lemma wp_pure {A} (m : M A) s v : wp m (fun a s' => a = v /\ s' = s) s -> m s = Ret (v, s).
Proof. unfold wp. destruct (m s) as [[a s']| |]; [by intros [-> ->] | done..]. Qed.

(** [rb_tree_first], [rb_tree_last], [rb_node_next] and [rb_node_prev] walk
    the nodes of the tree in order, return [NULL] at the ends, terminate, trip
    no assertion and change nothing. *)
Theorem rb_tree_traversal (s : rb_tree) (t : tree) (rest : list (Z * rb_node)) :
  represents s t rest ->
  rb_tree_first s = Ret (default 0 (head (inorder t)), s) /\
  rb_tree_last s = Ret (default 0 (last (inorder t)), s) /\
  forall l1 a l2, inorder t = l1 ++ a :: l2 ->
    rb_node_next a s = Ret (default 0 (head l2), s) /\ rb_node_prev a s = Ret (default 0 (last l1), s).
Proof.
  intros Hs. split; [by eapply wp_pure, first_spec|]. split; [by eapply wp_pure, last_spec|]. intros l1 a l2 E.
  destruct (locate _ _ _ _ E) as (k & c & l & r & -> & -> & ->). apply focus_plug in Hs.
  split; [by eapply wp_pure, next_spec | by eapply wp_pure, prev_spec].
Qed.

Lemma rb_tree_traversal_witness :
  rb_node_next 16 (store_of small_tree) = Ret (32, store_of small_tree) /\ rb_node_prev 16 (store_of small_tree) = Ret (0, store_of small_tree).
Proof. exact (proj2 (proj2 (rb_tree_traversal _ _ _ small_tree_represents)) [] 16 [32; 48] eq_refl). Defined.

(** ** Height *)

Fixpoint height (t : tree) : nat := match t with Leaf => 0 | Node _ l _ r => S (max (height l) (height r)) end.

Lemma height_nodes t : (height t <= length (inorder t))%nat.
Proof. induction t as [|c l IHl a r IHr]; cbn; [done|]. rewrite length_app. cbn. lia. Qed.

Lemma rb_height n t : rb n t -> (height t <= 2 * n + match tcolor t with Red => 1 | Black => 0 end)%nat.
Proof.
  induction 1 as [|n l a r Hl IHl Hr IHr Hcl Hcr|n l a r Hl IHl Hr IHr]; cbn [height tcolor]; [done | rewrite Hcl in IHl; rewrite Hcr in IHr; lia|].
  destruct (tcolor l), (tcolor r); lia.
Qed.

Lemma rb_nodes n t : rb n t -> (2 ^ n <= length (inorder t) + 1)%nat.
Proof.
  induction 1 as [|n l a r Hl IHl Hr IHr Hcl Hcr|n l a r Hl IHl Hr IHr]; cbn [inorder]; rewrite ?length_app; cbn; lia.
Qed.

(** A red-black tree of [n] nodes is at most [2 * log2 (n + 1)] deep. *)
Lemma rb_ok_height t : rb_ok t -> (height t <= 2 * Nat.log2 (length (inorder t) + 1))%nat.
Proof.
  intros [Hc [n Hn]]. pose proof (rb_height n t Hn) as Hh. rewrite Hc in Hh. pose proof (rb_nodes n t Hn) as Hs.
  apply Nat.log2_le_mono in Hs. rewrite Nat.log2_pow2 in Hs by lia. lia.
Qed.

(** ** Search *)

Section Ordered.
Context (rank : Z -> Z).

Definition rank_le (a b : Z) : Prop := rank a <= rank b.
Definition sorted (l : list Z) : Prop := StronglySorted rank_le l.

Lemma sorted_node c l a r : sorted (inorder (Node c l a r)) ->
  sorted (inorder l) /\ sorted (inorder r) /\ Forall (fun b => rank b <= rank a) (inorder l) /\ Forall (fun b => rank a <= rank b) (inorder r).
Proof.
  cbn [inorder]. intros H. split; [by eapply StronglySorted_app_1_l|]. pose proof (StronglySorted_app_1_r _ _ _ H) as Hr.
  apply StronglySorted_inv in Hr as [Hr Ha]. split; [done|]. split; [|done].
  apply Forall_forall. intros b Hb. change (rank_le b a). eapply StronglySorted_app_1_elem_of; [exact H | exact Hb | by left].
Qed.

Section Find.
Context {K : Type} (kcmp : Z -> K -> Z) (key : K) (r : Z).
Context (Hlt : forall a, (kcmp a key <? 0) = (rank a <? r)) (Hgt : forall a, (kcmp a key >? 0) = (rank a >? r)).

(** What the search knows of the nodes outside the current subtree. *)
Definition between (k : list frame) : Prop :=
  Forall (fun b => rank b < r) (kbefore k) /\ Forall (fun b => r < rank b) (kafter k).

Definition search_post (s : rb_tree) (T : tree) (xy : Z * Z) (s' : rb_tree) : Prop :=
  s' = s /\ (xy.1 <> 0 /\ xy.2 = xy.1 /\ xy.1 ∈ inorder T /\ rank (xy.1) = r \/
             xy.1 = 0 /\ exists k, T = plug k Leaf /\ xy.2 = par k /\ between k).

Lemma wp_search_loop fuel s k t rest :
  focus s k t rest -> sorted (inorder t) -> between k -> (height t < fuel)%nat ->
  wp (rb_search_loop kcmp fuel key (addr t) (par k)) (search_post s (plug k t)) s.
Proof.
  revert k t. induction fuel as [|fuel IH]; intros k t Hf Hso [Hb Ha] Hh; [lia|]. cbn [rb_search_loop].
  destruct t as [|c l a rt]; cbn [addr].
  { split; [done|]. right. split; [done|]. by exists k. }
  assert (a <> 0) by (by eapply (focus_nz _ _ _ L)). destruct (Z.eqb_spec a 0); [done|].
  apply sorted_node in Hso as (Hsl & Hsr & Hal & Har). cbn [height] in Hh. rewrite Hlt, Hgt, Z.gtb_ltb.
  destruct (Z.ltb_spec (rank a) r); [|destruct (Z.ltb_spec r (rank a))].
  - apply wp_bind. eapply (wp_focus_deref s k rest L); [exact Hf|]. cbn [cell right].
    apply (IH (Frame R c a l :: k) rt); [by apply (focus_far s L) in Hf | done | | lia]. split; [|by cbn].
    cbn. apply Forall_app. split; [done|]. apply Forall_app. split; [|by constructor]. eapply Forall_impl; [exact Hal|]. cbn. intros; lia.
  - apply wp_bind. eapply (wp_focus_deref s k rest L); [exact Hf|]. cbn [cell left].
    apply (IH (Frame L c a rt :: k) l); [by apply (focus_down s L) in Hf | done | | lia]. split; [by cbn; rewrite app_nil_r|].
    cbn. constructor; [done|]. apply Forall_app. split; [|done]. eapply Forall_impl; [exact Har|]. cbn. intros; lia.
  - apply wp_ret. split; [done|]. left. cbn. split; [done|]. split; [done|]. split; [|lia].
    rewrite inorder_plug. cbn. set_solver.
Qed.
End Find.

Lemma rb_search_loop_mono {K} (kcmp : Z -> K -> Z) key fuel fuel' x y s v :
  (fuel <= fuel')%nat -> rb_search_loop kcmp fuel key x y s = Ret v -> rb_search_loop kcmp fuel' key x y s = Ret v.
Proof.
  revert fuel' x y. induction fuel as [|fuel IH]; intros fuel' x y Hle; [done|]. destruct fuel' as [|fuel']; [lia|]. cbn [rb_search_loop].
  destruct (x =? 0); [done|]. unfold bind, deref.
  destruct (_ <? 0); [destruct (mem s !! x); cbn [obind]; [apply IH; lia | done]|].
  destruct (_ >? 0); [destruct (mem s !! x); cbn [obind]; [apply IH; lia | done] | done].
Qed.

(** A leaf of the tree is a place for an insertion. *)
Lemma leaf_place s k rest : focus s k Leaf rest ->
  insert_place s (plug k Leaf) (par k) (match k with f :: _ => match fside f with L => true | R => false end | [] => false end) (kbefore k) (kafter k).
Proof.
  intros Hf. destruct k as [|[d c a sib] k]; [by left|]. right. apply focus_up in Hf. apply focus_cell in Hf as [_ Hc]. apply holds_read in Hc.
  exists (cell (par k) c d 0 (addr sib)), (match d with L => kbefore k | R => kbefore k ++ inorder sib end),
    (match d with L => inorder sib ++ kafter k | R => kafter k end).
  split; [|split; [exact Hc|]]; cbn [plug]; rewrite ?inorder_plug; destruct d; cbn; rewrite ?app_nil_r, <- ?app_assoc; done.
Qed.

(** In a red-black tree of [n] nodes sorted by the ranks that the comparison
    function compares, the search loop ends after at most
    [2 * log2 (n + 1) + 1] rounds; [rb_tree_search] returns a node of the rank
    sought or, when there is none, [NULL]; [rb_tree_search_sloppy] then returns
    a neighbour of the key at which [rb_tree_insert_at] can insert between the
    smaller and the larger nodes ([NULL] in an empty tree). *)
Theorem rb_tree_search_correct {K : Type} (kcmp : Z -> K -> Z) (key : K) (r : Z) (s : rb_tree) (t : tree) (rest : list (Z * rb_node)) :
  (forall a, (kcmp a key <? 0) = (rank a <? r) /\ (kcmp a key >? 0) = (rank a >? r)) ->
  represents s t rest -> rb_ok t -> sorted (inorder t) ->
  exists x y, rb_tree_search kcmp key s = Ret (x, s) /\ rb_tree_search_sloppy kcmp key s = Ret (y, s) /\
    rb_search_loop kcmp (S (2 * Nat.log2 (length (inorder t) + 1))) key (root s) 0 s = Ret ((x, y), s) /\
    ((x <> 0 /\ y = x /\ x ∈ inorder t /\ rank x = r) \/
     (x = 0 /\ exists lft l1 l2, insert_place s t y lft l1 l2 /\ inorder t = l1 ++ l2 /\
        Forall (fun a => rank a < r) l1 /\ Forall (fun a => r < rank a) l2)).
Proof.
  intros Hc Hs Hok Hso. set (fuel := S (2 * Nat.log2 (length (inorder t) + 1))).
  assert (Hb : between r []) by (by split; constructor). pose proof (rb_ok_height t Hok) as Hh.
  pose proof (wp_search_loop kcmp key r (fun a => proj1 (Hc a)) (fun a => proj2 (Hc a)) fuel s [] t rest Hs Hso Hb ltac:(unfold fuel; lia)) as Hw.
  apply wp_elim in Hw as ([x y] & s' & E & -> & Hxy). pose proof Hs as [Hr _]. rewrite <- Hr in E.
  assert (E' : rb_search_loop kcmp (S (size (mem s))) key (root s) 0 s = Ret ((x, y), s)).
  { pose proof (wp_search_loop kcmp key r (fun a => proj1 (Hc a)) (fun a => proj2 (Hc a)) (S (size (mem s))) s [] t rest Hs Hso Hb) as Hw'.
    pose proof (focus_size s [] t rest Hs). pose proof (height_nodes t). specialize (Hw' ltac:(lia)).
    apply wp_elim in Hw' as (xy' & s' & E' & -> & _). rewrite <- Hr in E'. cbn [par] in *.
    destruct (Nat.le_ge_cases fuel (S (size (mem s)))) as [Hle|Hle]; [by eapply rb_search_loop_mono|].
    rewrite E'. f_equal. eapply rb_search_loop_mono in E'; [|exact Hle]. rewrite E in E'. by injection E' as <-. }
  exists x, y. unfold rb_tree_search, rb_tree_search_sloppy, bind, get_root, rounds. cbn [obind]. rewrite E'. cbn [obind].
  split; [done|]. split; [done|]. split; [done|]. destruct Hxy as [Hxy|(Hx & k & Ek & Hy & Hbk & Hak)]; [by left | right].
  cbn in Hx, Hy, Ek. subst x y t. split; [done|]. do 3 eexists. split; [apply (leaf_place s k rest); by apply focus_plug|].
  split; [apply inorder_plug | done].
Qed.

(** ** Insertion by comparison *)

Section Insert.
Context (cmp : Z -> Z -> Z) (Hcmp : forall a b, (cmp a b <? 0) = (rank a <? rank b)).

(** After the nodes that do not compare greater. *)
Definition around (node : Z) (k : list frame) : Prop :=
  Forall (fun b => rank b <= rank node) (kbefore k) /\ Forall (fun b => rank node < rank b) (kafter k).

Definition goes_left (k : list frame) (lft : bool) : Prop :=
  match k with f :: _ => lft = match fside f with L => true | R => false end | [] => True end.

Lemma wp_insert_search fuel s k t node lft rest :
  focus s k t rest -> sorted (inorder t) -> around node k -> goes_left k lft -> (height t < fuel)%nat ->
  wp (insert_search cmp fuel node (addr t) (par k) lft)
    (fun v s' => s' = s /\ exists k', v.1 = par k' /\ goes_left k' v.2 /\ around node k' /\ plug k' Leaf = plug k t) s.
Proof.
  revert k t lft. induction fuel as [|fuel IH]; intros k t lft Hf Hso [Hb Ha] Hg Hh; [lia|]. cbn [insert_search].
  destruct t as [|c l a rt]; cbn [addr].
  { split; [done|]. by exists k. }
  assert (a <> 0) by (by eapply (focus_nz _ _ _ L)). destruct (Z.eqb_spec a 0); [done|].
  apply sorted_node in Hso as (Hsl & Hsr & Hal & Har). cbn [height] in Hh. rewrite Hcmp.
  apply wp_bind. eapply (wp_focus_deref s k rest L); [exact Hf|]. cbn [cell left right].
  destruct (Z.ltb_spec (rank node) (rank a)).
  - eapply (IH (Frame L c a rt :: k) l); [by apply (focus_down s L) in Hf | done | | done | lia]. split; [by cbn; rewrite app_nil_r|].
    cbn. constructor; [done|]. apply Forall_app. split; [|done]. eapply Forall_impl; [exact Har|]. cbn. intros; lia.
  - eapply (IH (Frame R c a l :: k) rt); [by apply (focus_far s L) in Hf | done | | done | lia]. split; [|by cbn].
    cbn. apply Forall_app. split; [done|]. apply Forall_app. split; [|by constructor]. eapply Forall_impl; [exact Hal|]. cbn. intros; lia.
Qed.

Lemma insert_spec s t rest node :
  represents s t rest -> rb_ok t -> sorted (inorder t) -> fresh_node node t rest ->
  wp (rb_tree_insert cmp node) (fun _ s' => exists t' l1 l2, represents s' t' rest /\ rb_ok t' /\
      inorder t = l1 ++ l2 /\ inorder t' = l1 ++ node :: l2 /\
      Forall (fun b => rank b <= rank node) l1 /\ Forall (fun b => rank node < rank b) l2) s.
Proof.
  intros Hs Hok Hso Hfresh. unfold rb_tree_insert. apply wp_bind, wp_get_root, wp_bind, wp_rounds, wp_bind.
  pose proof Hs as [-> _]. eapply wp_mono.
  { apply (wp_insert_search _ s [] t node false rest Hs Hso); [by split; constructor | done |].
    pose proof (focus_size s [] t rest Hs). pose proof (height_nodes t). lia. }
  intros [y lft] ? (-> & k & Ey & Hg & [Hb Ha] & Ek). cbn in Ey, Hg. subst y. cbn [plug] in Ek. subst t.
  assert (Hpl : insert_place s (plug k Leaf) (par k) lft (kbefore k) (kafter k)).
  { pose proof (leaf_place s k rest (proj2 (focus_plug _ _ _ _) Hs)) as Hpl. destruct k as [|[d c a sib] k]; [by left|].
    cbn in Hg. by rewrite Hg. }
  eapply wp_mono; [by eapply insert_at_spec|]. intros ? s' (t' & H1 & H2 & H3). exists t', (kbefore k), (kafter k).
  split; [done|]. split; [done|]. split; [apply inorder_plug|]. done.
Qed.

(** ** Sequences of operations *)

Inductive rb_op := Insert (node : Z) | Remove (node : Z).

Definition exec (op : rb_op) : M unit := match op with Insert a => rb_tree_insert cmp a | Remove a => rb_tree_remove a end.
Fixpoint exec_all (ops : list rb_op) : M unit := match ops with [] => ret tt | op :: ops => bind (exec op) (fun _ => exec_all ops) end.

(** The abstract state is the sequence of the nodes. *)
Fixpoint sorted_insert (node : Z) (l : list Z) : list Z :=
  match l with
  | [] => [node]
  | a :: l' => if rank node <? rank a then node :: l else a :: sorted_insert node l'
  end.
Definition spec (op : rb_op) (l : list Z) : list Z :=
  match op with Insert a => sorted_insert a l | Remove a => filter (fun b => b <> a) l end.

(** A node is inserted when it is not in the tree, and removed when it is. *)
Definition allowed (op : rb_op) (l : list Z) : Prop :=
  match op with Insert a => a <> 0 /\ ptr a /\ ~ (a ∈ l) | Remove a => a ∈ l end.
Fixpoint allowed_all (ops : list rb_op) (l : list Z) : Prop :=
  match ops with [] => True | op :: ops => allowed op l /\ allowed_all ops (spec op l) end.

Lemma sorted_insert_split node l1 l2 : Forall (fun b => rank b <= rank node) l1 -> Forall (fun b => rank node < rank b) l2 ->
  sorted_insert node (l1 ++ l2) = l1 ++ node :: l2.
Proof.
  intros H1 H2. induction H1 as [|a l1 Ha H1 IH]; cbn.
  - destruct H2 as [|b l2 Hb H2]; cbn; [done|]. destruct (Z.ltb_spec (rank node) (rank b)); [done | lia].
  - destruct (Z.ltb_spec (rank node) (rank a)); [lia|]. by rewrite IH.
Qed.

Lemma represents_weaken s t rest : represents s t rest -> represents s t [].
Proof.
  intros [Hr [H1 H2 H3]]. split; [done|]. rewrite app_nil_r. split.
  - intros a n Hin. apply H1, elem_of_app. by left.
  - rewrite fmap_app in H2. by apply NoDup_app in H2 as (? & _ & _).
  - intros a Ha. apply H3. rewrite fmap_app, elem_of_app. by left.
Qed.

Lemma represents_nodup s t rest : represents s t rest -> NoDup (inorder t).
Proof. intros [_ [_ H _]]. rewrite fmap_app in H. apply NoDup_app in H as (H & _ & _). by rewrite elements_keys in H. Qed.

Lemma filter_absent (l : list Z) a : ~ (a ∈ l) -> filter (fun b => b <> a) l = l.
Proof.
  induction l as [|b l IH]; intros H; [done|]. rewrite filter_cons_True by (intros ->; apply H; by left).
  rewrite IH; [done|]. intros Ha. apply H. by right.
Qed.

Lemma filter_middle (l1 l2 : list Z) a : NoDup (l1 ++ a :: l2) -> filter (fun b => b <> a) (l1 ++ a :: l2) = l1 ++ l2.
Proof.
  intros H. apply NoDup_app in H as (_ & H1 & H2). pose proof (NoDup_cons_1_1 _ _ H2) as H3. rewrite filter_app, filter_cons_False by tauto.
  rewrite !filter_absent; [done | done |]. intros Hb. by apply (H1 a Hb); left.
Qed.

(** The refinement relation between the store and the sequence. *)
Definition simulates (s : rb_tree) (l : list Z) : Prop :=
  exists t, represents s t [] /\ rb_ok t /\ inorder t = l /\ sorted l.

Lemma exec_simulates op s l : simulates s l -> allowed op l ->
  wp (exec op) (fun _ s' => simulates s' (spec op l)) s.
Proof.
  intros (t & Hs & Hok & <- & Hso) Ha. destruct op as [a|a]; cbn [exec spec allowed] in *.
  - destruct Ha as (Ha0 & Hap & Hat). assert (Hfr : fresh_node a t []) by (split; [done|]; split; [done|]; split; [done|]; apply not_elem_of_nil).
    eapply wp_mono; [by eapply insert_spec|]. intros ? s' (t' & l1 & l2 & Hs' & Hok' & E & E' & H1 & H2).
    exists t'. split; [done|]. split; [done|]. rewrite E, sorted_insert_split by done. split; [done|].
    rewrite E in Hso. apply StronglySorted_app_2.
    + intros x y Hx [->|Hy]%elem_of_cons; [by rewrite Forall_forall in H1; apply H1|]. by eapply StronglySorted_app_1_elem_of.
    + by eapply StronglySorted_app_1_l.
    + constructor; [by eapply StronglySorted_app_1_r|]. eapply Forall_impl; [exact H2|]. cbn. intros b Hb. unfold rank_le. lia.
  - apply list_elem_of_split in Ha as (l1 & l2 & E). eapply wp_mono; [by eapply remove_spec|].
    intros ? s' (t' & zc & Hs' & Hok' & E'). exists t'. split; [by eapply represents_weaken|]. split; [done|].
    apply represents_nodup in Hs. rewrite E in *. rewrite filter_middle by done. split; [done|].
    apply StronglySorted_app_2.
    + intros x y Hx Hy. eapply StronglySorted_app_1_elem_of; [exact Hso | exact Hx | by right].
    + by eapply StronglySorted_app_1_l.
    + apply StronglySorted_app_1_r in Hso. by apply StronglySorted_inv in Hso as [? _].
Qed.

(** C3: from an initialised tree, every sequence of insertions (of nodes not in
    the tree) and removals (of nodes in it) runs without a failed assertion or
    a stray access, and simulates the sequence of nodes: insertion after the
    nodes that do not compare greater, deletion; at every moment the tree is a
    red-black tree sorted by rank. *)
Theorem rb_tree_refines_sequence (ops : list rb_op) (s : rb_tree) (l : list Z) :
  simulates s l -> allowed_all ops l ->
  exists s', exec_all ops s = Ret (tt, s') /\ simulates s' (foldl (fun l op => spec op l) l ops).
Proof.
  revert s l. induction ops as [|op ops IH]; intros s l Hs Ha; [by exists s|]. destruct Ha as [Ha Has]. cbn [exec_all foldl].
  destruct (wp_elim _ _ _ (exec_simulates op s l Hs Ha)) as ([] & s1 & E & Hs1).
  destruct (IH s1 _ Hs1 Has) as (s' & E' & Hs'). exists s'. split; [|done]. unfold bind. by rewrite E.
Qed.

Lemma init_simulates m : simulates (RbTree 0 m) [].
Proof. exists Leaf. split; [split; [done|]; split; cbn; [by intros ? ? ?%elem_of_nil | constructor | by intros ? ?%elem_of_nil]|]. split; [split; [done | by exists 0%nat; constructor]|]. split; [done | constructor]. Qed.
End Insert.
End Ordered.

Lemma rb_tree_search_correct_witness : exists x y, rb_tree_search Z.sub 32 (store_of small_tree) = Ret (x, store_of small_tree) /\
  rb_tree_search_sloppy Z.sub 32 (store_of small_tree) = Ret (y, store_of small_tree).
Proof.
  destruct (rb_tree_search_correct (fun a => a) Z.sub 32 32 (store_of small_tree) small_tree []) as (x & y & H1 & H2 & _); [|..].
  - intros a. split; [destruct (Z.ltb_spec (a - 32) 0), (Z.ltb_spec a 32); lia|].
    rewrite !Z.gtb_ltb. destruct (Z.ltb_spec 0 (a - 32)), (Z.ltb_spec 32 a); lia.
  - exact small_tree_represents.
  - exact small_tree_ok.
  - repeat constructor; unfold rank_le; lia.
  - exists x, y. split; assumption.
Defined.

Lemma rb_tree_refines_sequence_witness : exists s', exec_all Z.sub [Insert 16; Insert 8; Insert 24; Remove 16] (RbTree 0 ∅) = Ret (tt, s') /\
  simulates (fun a => a) s' [8; 24].
Proof.
  refine (rb_tree_refines_sequence (fun a => a) Z.sub _ [Insert 16; Insert 8; Insert 24; Remove 16] (RbTree 0 ∅) [] (init_simulates _ _) _).
  - intros a b. destruct (Z.ltb_spec (a - b) 0), (Z.ltb_spec a b); lia.
  - cbn. repeat split; try lia; try done; set_solver.
Defined.

(** ** Red-black trees: validation

    [rb_tree_validate] decides the invariant. *)

Definition blackb (t : tree) : bool := bool_decide (tcolor t = Black).

(** What the recursion of [validate_rb_node] checks. *)
Fixpoint rbb (d : Z) (t : tree) : bool :=
  match t with
  | Leaf => d =? 0
  | Node Black l _ r => rbb (d - 1) l && rbb (d - 1) r
  | Node Red l _ r => blackb l && blackb r && (rbb d l && rbb d r)
  end.

Lemma rbb_spec d t : rbb d t = true <-> exists n, d = Z.of_nat n /\ rb n t.
Proof.
  revert d. induction t as [|[|] l IHl a r IHr]; intros d; cbn [rbb].
  - rewrite Z.eqb_eq. split; [intros ->; exists 0%nat; split; [done | constructor] | by intros (n & -> & Hn); inversion Hn].
  - rewrite !andb_true_iff, IHl, IHr. unfold blackb. rewrite !bool_decide_eq_true. split.
    + intros ((Hl & Hr) & (n & -> & Hn) & (m & E & Hm)). apply Nat2Z.inj in E as <-. exists n. split; [done | by constructor].
    + intros (n & -> & Hn). inversion Hn; subst. split; [done|]. split; by exists n.
  - rewrite andb_true_iff, IHl, IHr. split.
    + intros ((n & E & Hn) & (m & E' & Hm)). assert (n = m) as -> by lia. exists (S m). split; [lia | by constructor].
    + intros (n & -> & Hn). inversion Hn as [| |m]; subst. split; exists m; (split; [lia | done]).
Qed.

Definition checked (b : bool) (s : rb_tree) : outcome (unit * rb_tree) := if b then Ret (tt, s) else Assert_failed.

Lemma bind_eq {A B} (m : M A) (k : A -> M B) s a : m s = Ret (a, s) -> bind m k s = k a s.
Proof. unfold bind. by intros ->. Qed.

Lemma is_black_eq s k t rest : focus s k t rest -> rb_node_is_black (addr t) s = Ret (blackb t, s).
Proof. intros Hf. apply wp_pure. by eapply wp_focus_is_black. Qed.

Lemma deref_eq s k d c x a y rest : focus s k (nd d c x a y) rest -> deref a s = Ret (cell (par k) c d (addr x) (addr y), s).
Proof. intros Hf. apply wp_pure. by eapply wp_focus_deref. Qed.

Lemma assert_eq b s : m_assert b s = checked b s.
Proof. done. Qed.

Lemma bind_checked {B} (m : M unit) (k : unit -> M B) s b : m s = checked b s ->
  bind m k s = if b then k tt s else Assert_failed.
Proof. unfold bind. intros ->. by destruct b. Qed.

Lemma bind_if {A B} (m : M A) (k : A -> M B) s (b : bool) a :
  m s = (if b then Ret (a, s) else Assert_failed) -> bind m k s = if b then k a s else Assert_failed.
Proof. unfold bind. intros ->. by destruct b. Qed.

Lemma validate_node_spec fuel s k t rest d : focus s k t rest -> (height t < fuel)%nat ->
  validate_rb_node fuel (addr t) d s = checked (rbb d t) s.
Proof.
  revert k t d. induction fuel as [|fuel IH]; intros k t d Hf Hh; [lia|]. destruct t as [|c l a r]; [done|].
  cbn [validate_rb_node]. assert (H0 : addr (Node c l a r) <> 0) by (by eapply (focus_nz _ _ _ L)).
  destruct (Z.eqb_spec (addr (Node c l a r)) 0); [done|]. erewrite bind_eq by (by eapply is_black_eq). cbn [addr].
  pose proof (focus_down s L c a r k l rest Hf) as Hl. pose proof (focus_far s L c a l k r rest Hf) as Hr.
  erewrite bind_eq by (by eapply (deref_eq s k L)). cbn [cell left right height] in *.
  assert (Hkids : forall d, bind (validate_rb_node fuel (addr l) d) (fun _ => validate_rb_node fuel (addr r) d) s = checked (rbb d l && rbb d r) s).
  { intros d'. erewrite bind_checked by (eapply IH; [exact Hl | lia]). destruct (rbb d' l); [|done]. eapply IH; [exact Hr | lia]. }
  destruct c; cbn [rbb].
  - change (blackb (Node Red l a r)) with false. cbv iota. erewrite (bind_if _ _ s (blackb l && blackb r) d); [by destruct (blackb l && blackb r); [apply Hkids|]|].
    erewrite bind_eq by (by eapply is_black_eq). erewrite bind_checked by apply assert_eq.
    destruct (blackb l); [|done]. erewrite bind_eq by (by eapply is_black_eq). erewrite bind_checked by apply assert_eq.
    by destruct (blackb r).
  - change (blackb (Node Black l a r)) with true. apply Hkids.
Qed.

Lemma left_depth_spec fuel s k t rest d : focus s k t rest -> (height t < fuel)%nat ->
  exists m, left_black_depth fuel (addr t) d s = Ret (d + Z.of_nat m, s) /\ forall n, rb n t -> m = n.
Proof.
  revert k t d. induction fuel as [|fuel IH]; intros k t d Hf Hh; [lia|]. destruct t as [|c l a r].
  { exists 0%nat. split; [cbn; by rewrite Z.add_0_r | by inversion 1]. }
  cbn [left_black_depth]. assert (H0 : addr (Node c l a r) <> 0) by (by eapply (focus_nz _ _ _ L)).
  destruct (Z.eqb_spec (addr (Node c l a r)) 0); [done|]. erewrite bind_eq by (by eapply is_black_eq). cbn [addr].
  erewrite bind_eq by (by eapply (deref_eq s k L)). cbn [cell left height] in *. apply (focus_down s L) in Hf.
  destruct (IH _ l (if blackb (Node c l a r) then d + 1 else d) Hf ltac:(lia)) as (m & -> & Hm).
  destruct c; [change (blackb (Node Red l a r)) with false | change (blackb (Node Black l a r)) with true]; cbv iota.
  - exists m. split; [done|]. intros n' Hn. inversion Hn; subst. by apply Hm.
  - exists (S m). split; [do 2 f_equal; lia|]. intros n' Hn. inversion Hn as [| |n'']; subst. f_equal. by apply Hm.
Qed.

(** C37: [rb_tree_validate] succeeds, without changing the store, exactly on the
    trees that satisfy the red-black invariant (black root, no red node with a
    red child, equal black heights), and fails an assertion on the others. *)
Theorem rb_tree_validate_decides (s : rb_tree) (t : tree) (rest : list (Z * rb_node)) :
  represents s t rest ->
  (rb_ok t -> rb_tree_validate s = Ret (tt, s)) /\ (~ rb_ok t -> rb_tree_validate s = Assert_failed).
Proof.
  intros Hs. pose proof Hs as [Hr _]. apply (proj1 (represents_focus _ _ _)) in Hs.
  pose proof (focus_size s [] t rest Hs) as Hsize. pose proof (height_nodes t) as Hhn.
  assert (Hh : (height t < S (size (mem s)))%nat) by lia.
  destruct (left_depth_spec _ s [] t rest 0 Hs Hh) as (m & Ed & Hm).
  assert (E : rb_tree_validate s = checked (blackb t && ((addr t =? 0) || rbb (Z.of_nat m) t)) s).
  { unfold rb_tree_validate. erewrite bind_eq by done. rewrite Hr. destruct (Z.eqb_spec (addr t) 0) as [E0|H0].
    { destruct t as [|c l a r]; [done|]. by apply (focus_nz s [] rest L) in Hs. }
    erewrite bind_eq by (by eapply is_black_eq). erewrite bind_checked by apply assert_eq.
    destruct (blackb t); [|done]. cbn [andb orb]. erewrite bind_eq by done. erewrite bind_eq by exact Ed.
    rewrite Z.add_0_l. by eapply validate_node_spec. }
  assert (Hiff : blackb t && ((addr t =? 0) || rbb (Z.of_nat m) t) = true <-> rb_ok t).
  { rewrite andb_true_iff, orb_true_iff, rbb_spec. unfold blackb. rewrite bool_decide_eq_true, Z.eqb_eq. unfold rb_ok. split.
    - intros [Hc [E0|(n & _ & Hn)]]; [|eauto]. destruct t as [|c l a r]; [split; [done | exists 0%nat; constructor]|].
      by apply (focus_nz s [] rest L) in Hs.
    - intros [Hc [n Hn]]. split; [done|]. right. exists n. split; [f_equal; by apply Hm | done]. }
  rewrite E. split; intros H; [by rewrite (proj2 Hiff H)|]. destruct (_ && _); [|done]. by destruct H; apply Hiff.
Qed.

Lemma rb_tree_validate_decides_witness : rb_tree_validate (store_of small_tree) = Ret (tt, store_of small_tree).
Proof. exact (proj1 (rb_tree_validate_decides _ _ _ small_tree_represents) small_tree_ok). Defined.
