(* ===== verification/UQueue.v ===== *)
(** * Job queue: src/util/u_queue.c and u_queue.h

    A ring buffer of jobs, the worker threads that execute them and the
    client threads that add, drop and wait for them.  The functions of the
    ring are written as sequential code; the threads are program counters
    moved by [exec], one step at a time, in any order.

    The fences are those of the futex build; the barrier is the one of
    u_thread.h.  All fields of the queue are accessed with [queue->lock] held,
    so a critical section is one step, except the loop of a terminating thread,
    which signals fences other threads read without the lock: there the lock is
    held across steps.  [cnd_signal] wakes one thread chosen by the schedule if
    one is blocked; spurious wake-ups are steps of their own. *)

From stdpp Require Import base list gmap numbers.
From Stdlib Require Import ZArith.
From S2P Require Import Prelude Arrays.
#[local] Open Scope bool_scope.
#[local] Open Scope Z_scope.
#[local] Open Scope c_scope.

(** ** Data *)

(** What a job pointer points to: a client's object, or the barrier on the
    stack of a client that is in [util_queue_finish]. *)
Inductive pointer := Null | Object (a : Z) | Barrier (c : nat).

(** A fence of a client, or element [i] of the array [fences] of a client that
    is in [util_queue_finish]. *)
Abbreviation fence_ptr := (Z + nat * nat)%type.

(** [util_queue_execute_func]: a function of a client by its address, 0 for
    [NULL], or the only one that the queue defines itself. *)
Inductive execute_func := callback (f : Z) | util_queue_finish_execute.

Record util_queue_job := Job { job : pointer; fence : fence_ptr; execute : execute_func; cleanup : Z }.

Record util_queue := Queue {
  flags : Z; num_queued : Z; num_threads : Z; kill_threads : bool;
  max_jobs : Z; write_idx : Z; read_idx : Z; jobs : list util_queue_job }.

Record util_barrier := MkBarrier { count : Z; waiters : Z; sequence : Z }.

#[export] Instance util_queue_job_eta : Eta util_queue_job :=
  fun j => Job (job j) (fence j) (execute j) (cleanup j).
#[export] Instance util_queue_eta : Eta util_queue :=
  fun q => Queue (flags q) (num_queued q) (num_threads q) (kill_threads q)
                 (max_jobs q) (write_idx q) (read_idx q) (jobs q).
#[export] Instance util_barrier_eta : Eta util_barrier :=
  fun b => MkBarrier (count b) (waiters b) (sequence b).

#[export] Instance pointer_eq_dec : EqDecision pointer.
Proof. solve_decision. Defined.
#[export] Instance execute_func_eq_dec : EqDecision execute_func.
Proof. solve_decision. Defined.
#[export] Instance util_queue_job_eq_dec : EqDecision util_queue_job.
Proof. solve_decision. Defined.

Definition is_null (p : pointer) : bool := match p with Null => true | _ => false end.

(** A slot cleared by [memset] or [calloc]. *)
Definition null_job : util_queue_job := Job Null (inl 0) (callback 0) 0.

Definition UTIL_QUEUE_INIT_RESIZE_IF_FULL : Z := Z.shiftl 1 1.

(** ** The ring *)

Definition job_at (q : util_queue) (i : Z) : util_queue_job := get null_job (jobs q) i.

(** [(i + 1) % queue->max_jobs] for the members of type [int] and for the
    unsigned counters of the loops. *)
Definition next_int (q : util_queue) (i : Z) : Z := Z.rem (i32 (i + 1)) (max_jobs q).
Definition next_unsigned (q : util_queue) (i : Z) : Z := u32 (i + 1) mod max_jobs q.

Definition num_queued_ok (q : util_queue) : bool := (num_queued q >=? 0) && (num_queued q <=? max_jobs q).

(** A thread takes the next job out of the ring. *)
Definition take_job (q : util_queue) : util_queue_job * util_queue :=
  (job_at q (read_idx q),
   q <| jobs := upd (read_idx q) (fun _ => null_job) (jobs q) |>
     <| read_idx := next_int q (read_idx q) |>
     <| num_queued := i32 (num_queued q - 1) |>).

(** The end of [util_queue_add_job], once there is a free slot. *)
Definition put_job (j : util_queue_job) (q : util_queue) : outcome util_queue :=
  assert! (is_null (job (job_at q (write_idx q)))) ;;
  Ret (q <| jobs := upd (write_idx q) (fun _ => j) (jobs q) |>
         <| write_idx := next_int q (write_idx q) |>
         <| num_queued := i32 (num_queued q + 1) |>).

(** [do { jobs[num_jobs++] = queue->jobs[i]; i = (i + 1) % queue->max_jobs; }
    while (i != queue->write_idx);] *)
Fixpoint copy_jobs (fuel : nat) (q : util_queue) (i num_jobs : Z) (dst : list util_queue_job)
    : outcome (Z * list util_queue_job) :=
  match fuel with
  | O => Out_of_fuel
  | S fuel =>
      let dst := upd num_jobs (fun _ => job_at q i) dst in
      let num_jobs := u32 (num_jobs + 1) in
      let i := next_unsigned q i in
      if negb (i =? write_idx q) then copy_jobs fuel q i num_jobs dst else Ret (num_jobs, dst)
  end.

(** A full queue with [UTIL_QUEUE_INIT_RESIZE_IF_FULL] gets eight more slots. *)
Definition grow (q : util_queue) : outcome util_queue :=
  let new_max_jobs := u32 (max_jobs q + 8) in
  let dst := replicate (Z.to_nat new_max_jobs) null_job in
  let! (num_jobs, dst) := copy_jobs (Z.to_nat (max_jobs q)) q (read_idx q) 0 dst in
  assert! (num_jobs =? num_queued q) ;;
  Ret (q <| jobs := dst |> <| read_idx := 0 |> <| write_idx := num_jobs |> <| max_jobs := i32 new_max_jobs |>).

(** The search loop of [util_queue_drop_job]: the slot of the job with the
    given fence. *)
Fixpoint find_fence (fuel : nat) (q : util_queue) (f : fence_ptr) (i : Z) : option Z :=
  match fuel with
  | O => None
  | S fuel =>
      if i =? write_idx q then None
      else if bool_decide (fence (job_at q i) = f) then Some i
      else find_fence fuel q f (next_unsigned q i)
  end.

(** The result is the job the slot held and the queue without it. *)
Definition drop_search (q : util_queue) (f : fence_ptr) : option (util_queue_job * util_queue) :=
  match find_fence (Z.to_nat (max_jobs q)) q f (read_idx q) with
  | Some i => Some (job_at q i, q <| jobs := upd i (fun _ => null_job) (jobs q) |>)
  | None => None
  end.

(** [created] is the number of threads [u_thread_create] manages to create
    before it fails, [jobs_ok] and [threads_ok] tell whether the two [calloc]
    succeed. *)
Definition util_queue_init (n_jobs n_threads flag : Z) (jobs_ok threads_ok : bool) (created : nat) : option util_queue :=
  if negb jobs_ok then None else
  if negb threads_ok then None else
  let q := Queue flag 0 n_threads false (i32 n_jobs) 0 0 (replicate (Z.to_nat n_jobs) null_job) in
  if Z.of_nat created <? n_threads then
    if (created =? 0)%nat then None else Some (q <| num_threads := Z.of_nat created |>)
  else Some q.

(** ** Fences *)

Abbreviation fence_vals := (gmap fence_ptr Z).

(** 0: signalled; 1: unsignalled; 2: unsignalled, may have waiters. *)
Definition fence_val (fs : fence_vals) (f : fence_ptr) : Z := default 0 (fs !! f).

Definition util_queue_fence_init (fs : fence_vals) (f : fence_ptr) : fence_vals := <[f := 0]> fs.
Definition util_queue_fence_destroy (fs : fence_vals) (f : fence_ptr) : outcome unit :=
  assert! (fence_val fs f =? 0) ;; Ret tt.

(** The exchange of [util_queue_fence_signal], with the test that decides
    whether [futex_wake] follows. *)
Definition util_queue_fence_signal (fs : fence_vals) (f : fence_ptr) : outcome (bool * fence_vals) :=
  let val := fence_val fs f in
  assert! (negb (val =? 0)) ;;
  Ret (val =? 2, <[f := 0]> fs).

Definition util_queue_fence_reset (fs : fence_vals) (f : fence_ptr) : outcome fence_vals :=
  let v := fence_val fs f in
  assert! (v =? 0) ;; Ret (<[f := 1]> fs).

Definition util_queue_fence_is_signalled (fs : fence_vals) (f : fence_ptr) : bool := fence_val fs f =? 0.

(** [p_atomic_cmpxchg(&fence->val, 1, 2)]: the old value and the new state. *)
Definition fence_cmpxchg (fs : fence_vals) (f : fence_ptr) : Z * fence_vals :=
  let v := fence_val fs f in (v, if v =? 1 then <[f := 2]> fs else fs).

(** ** Threads *)

(** The program counter of a thread in [util_queue_thread_func]. *)
Inductive worker :=
| W_top                                                (** before [mtx_lock] at the head of the loop *)
| W_blocked                                            (** in [cnd_wait(&queue->has_queued_cond)] *)
| W_woken                                              (** woken, before it has the lock again *)
| W_run (j : util_queue_job)                           (** in [job.execute] *)
| W_barrier (j : util_queue_job) (seq : Z) (awake : bool)  (** in [cnd_wait] of [util_barrier_wait] *)
| W_signal (j : util_queue_job)                        (** before the exchange of [util_queue_fence_signal] *)
| W_wake (j : util_queue_job)                          (** before its [futex_wake] *)
| W_cleanup (j : util_queue_job)
| W_exit                                               (** out of the loop *)
| W_exit_at (i : Z)                                    (** head of the last loop, with the lock *)
| W_exit_wake (i : Z) (f : fence_ptr)                  (** before [futex_wake] in that loop *)
| W_done.

(** Where a client goes on after [util_queue_add_job] or
    [util_queue_fence_wait]: back to its own code or into
    [util_queue_finish].  [start] is the length of the trace when
    [util_queue_finish] was called. *)
Inductive cont := K_return | K_add (i : nat) (start : nat) | K_wait (i : nat) (start : nat).

(** The program counter of a client: outside the queue's functions or in one of
    them. *)
Inductive client :=
| C_idle
| C_add_blocked (j : util_queue_job) (k : cont)        (** in [cnd_wait(&queue->has_space_cond)] *)
| C_add_woken (j : util_queue_job) (k : cont)
| C_drop (f : fence_ptr)                               (** before [mtx_lock] of [util_queue_drop_job] *)
| C_dropped (f : fence_ptr)                            (** the job was removed *)
| C_drop_wake (f : fence_ptr)
| C_wait (f : fence_ptr) (timeout : bool) (k : cont)   (** at the start of [util_queue_fence_wait] *)
| C_reload (f : fence_ptr) (timeout : bool) (k : cont) (** [do_futex_fence_wait]: reads the fence *)
| C_cmpxchg (f : fence_ptr) (timeout : bool) (k : cont)
| C_futex (f : fence_ptr) (timeout : bool) (k : cont)  (** before [futex_wait] *)
| C_asleep (f : fence_ptr) (timeout : bool) (k : cont) (** in [futex_wait] *)
| C_finish_lock (start : nat)
| C_finish_add (i : nat) (start : nat)
| C_finish_wait (i : nat) (start : nat)
| C_finish_destroy (i : nat) (start : nat)
| C_join (i : nat).

(** What can be observed: a job enters the ring, a thread takes it out, its
    function returns, it is dropped, a thread or client runs the cleanup
    function (-1 for a client), [util_queue_finish] is called and returns. *)
Inductive event :=
| Ev_add (j : util_queue_job)
| Ev_start (w : nat) (j : util_queue_job)
| Ev_done (w : nat) (j : util_queue_job)
| Ev_drop (j : util_queue_job)
| Ev_cleanup (thread : Z) (j : util_queue_job)
| Ev_finish (c : nat)
| Ev_finished (c : nat).

Record system := System {
  queue : util_queue; lock : bool; finish_lock : bool;
  fences : fence_vals; barriers : gmap nat util_barrier;
  workers : list worker; clients : list client; trace : list event }.

#[export] Instance system_eta : Eta system :=
  fun s => System (queue s) (lock s) (finish_lock s) (fences s) (barriers s) (workers s) (clients s) (trace s).

(** The continuation of a client when the function it is in returns. *)
Definition resume (k : cont) : client :=
  match k with
  | K_return => C_idle
  | K_add i start => C_finish_add (S i) start
  | K_wait i start => C_finish_destroy i start
  end.

Definition set_worker (w : nat) (pc : worker) (s : system) : system := s <| workers := <[w := pc]> (workers s) |>.
Definition set_client (c : nat) (pc : client) (s : system) : system := s <| clients := <[c := pc]> (clients s) |>.
Definition emit (e : event) (s : system) : system := s <| trace := trace s ++ [e] |>.

(** *** Condition variables and futexes *)

(** [wake x] is the thread [x] after it is woken, if it is blocked on the
    condition variable. *)
Definition cnd_signal {A} (wake : A -> option A) (choice : option nat) (l : list A) : option (list A) :=
  match choice with
  | Some i => x ← l !! i; x ← wake x; Some (<[i := x]> l)
  | None => if forallb (fun x => match wake x with Some _ => false | None => true end) l then Some l else None
  end.
Definition cnd_broadcast {A} (wake : A -> option A) (l : list A) : list A := map (fun x => default x (wake x)) l.

Definition wake_queued (pc : worker) : option worker := match pc with W_blocked => Some W_woken | _ => None end.
Definition wake_space (pc : client) : option client :=
  match pc with C_add_blocked j k => Some (C_add_woken j k) | _ => None end.
Definition wake_barrier (c : nat) (pc : worker) : option worker :=
  match pc with
  | W_barrier j seq false => if decide (job j = Barrier c) then Some (W_barrier j seq true) else None
  | _ => None
  end.
Definition wake_futex (f : fence_ptr) (pc : client) : option client :=
  match pc with
  | C_asleep f' timeout k => if decide (f' = f) then Some (C_reload f' timeout k) else None
  | _ => None
  end.

Definition futex_wake (f : fence_ptr) (s : system) : system :=
  s <| clients := cnd_broadcast (wake_futex f) (clients s) |>.

(** *** Barriers *)

Definition util_barrier_init (n : Z) : util_barrier := MkBarrier n 0 0.
Definition util_barrier_destroy (b : util_barrier) : outcome unit := assert! (waiters b =? 0) ;; Ret tt.

(** [util_barrier_wait] up to [cnd_wait]: the new barrier, and whether the
    thread has to wait. *)
Definition util_barrier_arrive (b : util_barrier) : outcome (util_barrier * bool) :=
  assert! (waiters b <? count b) ;;
  let b := b <| waiters := u32 (waiters b + 1) |> in
  if waiters b <? count b then Ret (b, true)
  else Ret (b <| waiters := 0 |> <| sequence := u64 (sequence b + 1) |>, false).

Definition barrier_of (s : system) (c : nat) : util_barrier := default (util_barrier_init 0) (barriers s !! c).

(** Thread [w] executes [util_queue_finish_execute] on the barrier of client
    [c]. *)
Definition finish_execute (w c : nat) (j : util_queue_job) (s : system) : outcome (option system) :=
  let! (b, waits) := util_barrier_arrive (barrier_of s c) in
  let s := s <| barriers := <[c := b]> (barriers s) |> in
  Ret (Some (if (waits : bool) then set_worker w (W_barrier j (sequence b) false) s
             else emit (Ev_done w j) (set_worker w (W_signal j)
                    (s <| workers := cnd_broadcast (wake_barrier c) (workers s) |>)))).

(** *** Steps of a thread of the queue *)

(** [while (!queue->kill_threads && queue->num_queued == 0) cnd_wait(...)] and
    the rest of the critical section. *)
Definition get_job (w : nat) (choice : option nat) (s : system) : option system :=
  let q := queue s in
  if negb (kill_threads q) && (num_queued q =? 0) then Some (set_worker w W_blocked s)
  else if kill_threads q then Some (set_worker w W_exit s)
  else
    let (j, q) := take_job q in
    cs ← cnd_signal wake_space choice (clients s);
    Some (emit (Ev_start w j)
           (set_worker w (if is_null (job j) then W_top else W_run j)
             (s <| queue := q |> <| clients := cs |>))).

(** One round of the loop that signals the remaining jobs, or its end. *)
Definition exit_round (w : nat) (i : Z) (s : system) : outcome (option system) :=
  let q := queue s in
  if negb (i =? write_idx q) then
    let j := job_at q i in
    if negb (is_null (job j)) then
      let! (wake, fs) := util_queue_fence_signal (fences s) (fence j) in
      let q' := q <| jobs := upd i (fun j => j <| job := Null |>) (jobs q) |> in
      Ret (Some (set_worker w (if (wake : bool) then W_exit_wake i (fence j) else W_exit_at (next_unsigned q i))
                  (s <| fences := fs |> <| queue := q' |>)))
    else Ret (Some (set_worker w (W_exit_at (next_unsigned q i)) s))
  else
    Ret (Some (set_worker w W_done
                (s <| queue := q <| read_idx := write_idx q |> <| num_queued := 0 |> |> <| lock := false |>))).

Definition worker_step (w : nat) (choice : option nat) (s : system) : outcome (option system) :=
  match workers s !! w with
  | None => Ret None
  | Some pc =>
      match pc with
      | W_top =>
          if lock s then Ret None else
          assert! (num_queued_ok (queue s)) ;; Ret (get_job w choice s)
      | W_blocked => Ret None
      | W_woken => if lock s then Ret None else Ret (get_job w choice s)
      | W_run j =>
          match execute j, job j with
          | util_queue_finish_execute, Barrier c => finish_execute w c j s
          | _, _ => Ret (Some (emit (Ev_done w j) (set_worker w (W_signal j) s)))
          end
      | W_barrier j seq awake =>
          match job j with
          | Barrier c =>
              if (awake : bool) then
                Ret (Some (if seq =? sequence (barrier_of s c) then set_worker w (W_barrier j seq false) s
                           else emit (Ev_done w j) (set_worker w (W_signal j) s)))
              else Ret None
          | _ => Ret None
          end
      | W_signal j =>
          let! (wake, fs) := util_queue_fence_signal (fences s) (fence j) in
          Ret (Some (set_worker w (if (wake : bool) then W_wake j else W_cleanup j) (s <| fences := fs |>)))
      | W_wake j => Ret (Some (set_worker w (W_cleanup j) (futex_wake (fence j) s)))
      | W_cleanup j =>
          let s := if negb (cleanup j =? 0) then emit (Ev_cleanup (Z.of_nat w) j) s else s in
          Ret (Some (set_worker w W_top s))
      | W_exit =>
          if lock s then Ret None
          else Ret (Some (set_worker w (W_exit_at (read_idx (queue s))) (s <| lock := true |>)))
      | W_exit_at i => exit_round w i s
      | W_exit_wake i f => Ret (Some (set_worker w (W_exit_at (next_unsigned (queue s) i)) (futex_wake f s)))
      | W_done => Ret None
      end
  end.

(** *** Steps of a client *)

Definition enqueue (c : nat) (j : util_queue_job) (k : cont) (choice : option nat) (s : system) : outcome (option system) :=
  let! q := put_job j (queue s) in
  Ret (ws ← cnd_signal wake_queued choice (workers s);
       Some (emit (Ev_add j) (set_client c (resume k) (s <| queue := q |> <| workers := ws |>)))).

Definition util_queue_add_job (c : nat) (j : util_queue_job) (k : cont) (choice : option nat) (s : system)
    : outcome (option system) :=
  if lock s then Ret None else
  if kill_threads (queue s) then Ret (Some (set_client c (resume k) s)) else
  let! fs := util_queue_fence_reset (fences s) (fence j) in
  let s := s <| fences := fs |> in
  assert! (num_queued_ok (queue s)) ;;
  if num_queued (queue s) =? max_jobs (queue s) then
    if negb (Z.land (flags (queue s)) UTIL_QUEUE_INIT_RESIZE_IF_FULL =? 0) then
      let! q := grow (queue s) in
      enqueue c j k choice (s <| queue := q |>)
    else Ret (Some (set_client c (C_add_blocked j k) s))
  else enqueue c j k choice s.

(** The critical section of [util_queue_drop_job]. *)
Definition drop_section (c : nat) (f : fence_ptr) (s : system) : system :=
  match drop_search (queue s) f with
  | Some (j, q) =>
      let s := if negb (cleanup j =? 0) then emit (Ev_cleanup (-1) j) s else s in
      emit (Ev_drop j) (set_client c (C_dropped f) (s <| queue := q |>))
  | None => set_client c (C_wait f false K_return) s
  end.

Definition finish_fence (c i : nat) : fence_ptr := inr (c, i).
Definition finish_job (c i : nat) : util_queue_job :=
  Job (Barrier c) (finish_fence c i) util_queue_finish_execute 0.

(** [util_queue_fence_wait] up to the call of [_util_queue_fence_wait]. *)
Definition fence_wait (c : nat) (f : fence_ptr) (timeout : bool) (k : cont) (s : system) : system :=
  set_client c (if util_queue_fence_is_signalled (fences s) f then resume k else C_reload f timeout k) s.

(** The three accesses to the fence in the loop of [do_futex_fence_wait]: the
    read before a round, the exchange and the call of [futex_wait]. *)
Definition fence_reload (c : nat) (f : fence_ptr) (timeout : bool) (k : cont) (s : system) : system :=
  let v := fence_val (fences s) f in
  set_client c (if v =? 0 then resume k
                else if negb (v =? 2) then C_cmpxchg f timeout k else C_futex f timeout k) s.

Definition fence_exchange (c : nat) (f : fence_ptr) (timeout : bool) (k : cont) (s : system) : system :=
  let (v, fs) := fence_cmpxchg (fences s) f in
  set_client c (if v =? 0 then resume k else C_futex f timeout k) (s <| fences := fs |>).

Definition fence_sleep (c : nat) (f : fence_ptr) (timeout : bool) (k : cont) (s : system) : system :=
  set_client c (if fence_val (fences s) f =? 2 then C_asleep f timeout k else C_reload f timeout k) s.

(** The two loops of [util_queue_finish]. *)
Definition finish_add (c i start : nat) (choice : option nat) (s : system) : outcome (option system) :=
  if Z.of_nat i <? num_threads (queue s) then
    let s := s <| fences := util_queue_fence_init (fences s) (finish_fence c i) |> in
    util_queue_add_job c (finish_job c i) (K_add i start) choice s
  else Ret (Some (set_client c (C_finish_wait 0 start) s)).

Definition finish_wait (c i start : nat) (s : system) : outcome (option system) :=
  if Z.of_nat i <? num_threads (queue s) then
    Ret (Some (set_client c (C_wait (finish_fence c i) false (K_wait i start)) s))
  else
    let! _ := util_barrier_destroy (barrier_of s c) in
    Ret (Some (emit (Ev_finished c) (set_client c C_idle (s <| finish_lock := false |>)))).

(** The loop of [util_queue_killall_and_wait]. *)
Definition join_threads (c i : nat) (s : system) : outcome (option system) :=
  if Z.of_nat i <? num_threads (queue s) then
    match workers s !! i with
    | Some W_done => Ret (Some (set_client c (C_join (S i)) s))
    | _ => Ret None
    end
  else Ret (Some (set_client c C_idle (s <| queue := (queue s) <| num_threads := 0 |> |>))).

Definition client_step (c : nat) (choice : option nat) (s : system) : outcome (option system) :=
  match clients s !! c with
  | None => Ret None
  | Some pc =>
      match pc with
      | C_idle | C_add_blocked _ _ | C_asleep _ _ _ => Ret None
      | C_add_woken j k =>
          if lock s then Ret None
          else if num_queued (queue s) =? max_jobs (queue s) then Ret (Some (set_client c (C_add_blocked j k) s))
          else enqueue c j k choice s
      | C_drop f => if lock s then Ret None else Ret (Some (drop_section c f s))
      | C_dropped f =>
          let! (wake, fs) := util_queue_fence_signal (fences s) f in
          Ret (Some (set_client c (if (wake : bool) then C_drop_wake f else C_idle) (s <| fences := fs |>)))
      | C_drop_wake f => Ret (Some (set_client c C_idle (futex_wake f s)))
      | C_wait f timeout k => Ret (Some (fence_wait c f timeout k s))
      | C_reload f timeout k => Ret (Some (fence_reload c f timeout k s))
      | C_cmpxchg f timeout k => Ret (Some (fence_exchange c f timeout k s))
      | C_futex f timeout k => Ret (Some (fence_sleep c f timeout k s))
      | C_finish_lock start =>
          if finish_lock s then Ret None
          else Ret (Some (set_client c (C_finish_add 0 start) (s <| finish_lock := true |>)))
      | C_finish_add i start => finish_add c i start choice s
      | C_finish_wait i start => finish_wait c i start s
      | C_finish_destroy i start =>
          let! _ := util_queue_fence_destroy (fences s) (finish_fence c i) in
          Ret (Some (set_client c (C_finish_wait (S i) start) s))
      | C_join i => join_threads c i s
      end
  end.

(** Calls of the functions of u_queue.h, by a client that is in none of
    them. *)
Inductive call :=
| Call_add_job (j : util_queue_job)
| Call_drop_job (f : fence_ptr)
| Call_fence_wait (f : fence_ptr) (timeout : bool)
| Call_finish
| Call_killall.

(** [util_queue_killall_and_wait] up to its loop. *)
Definition kill_all (c : nat) (s : system) : system :=
  set_client c (C_join 0)
    (s <| queue := (queue s) <| kill_threads := true |> |> <| workers := cnd_broadcast wake_queued (workers s) |>).

(** [util_queue_finish] up to [mtx_lock(&queue->finish_lock)]. *)
Definition finish_begin (c : nat) (s : system) : system :=
  let b := util_barrier_init (num_threads (queue s)) in
  emit (Ev_finish c) (set_client c (C_finish_lock (length (trace s))) (s <| barriers := <[c := b]> (barriers s) |>)).

Definition start_call (c : nat) (cl : call) (choice : option nat) (s : system) : outcome (option system) :=
  match clients s !! c with
  | Some C_idle =>
      match cl with
      | Call_add_job j => util_queue_add_job c j K_return choice s
      | Call_drop_job f =>
          Ret (Some (set_client c (if util_queue_fence_is_signalled (fences s) f then C_idle else C_drop f) s))
      | Call_fence_wait f timeout => Ret (Some (set_client c (C_wait f timeout K_return) s))
      | Call_finish => Ret (Some (finish_begin c s))
      | Call_killall => if lock s then Ret None else Ret (Some (kill_all c s))
      end
  | _ => Ret None
  end.

(** *** The system *)

Inductive label :=
| L_worker (w : nat) (choice : option nat)
| L_client (c : nat) (choice : option nat)
| L_call (c : nat) (cl : call) (choice : option nat)
| L_spurious_worker (w : nat)
| L_spurious_client (c : nat)
| L_timeout (c : nat).

(** A wake-up nobody asked for. *)
Definition spurious_worker (w : nat) (s : system) : option system :=
  match workers s !! w with
  | Some W_blocked => Some (set_worker w W_woken s)
  | Some (W_barrier j seq false) => Some (set_worker w (W_barrier j seq true) s)
  | _ => None
  end.

Definition spurious_client (c : nat) (s : system) : option system :=
  match clients s !! c with
  | Some (C_add_blocked j k) => Some (set_client c (C_add_woken j k) s)
  | Some (C_asleep f timeout k) => Some (set_client c (C_reload f timeout k) s)
  | _ => None
  end.

(** [futex_wait] returns [ETIMEDOUT]; the function returns false. *)
Definition timeout_client (c : nat) (s : system) : option system :=
  match clients s !! c with
  | Some (C_futex f true k) | Some (C_asleep f true k) => Some (set_client c (resume k) s)
  | _ => None
  end.

(** One step of the system, if the label is enabled. *)
Definition exec (l : label) (s : system) : outcome (option system) :=
  match l with
  | L_worker w choice => worker_step w choice s
  | L_client c choice => client_step c choice s
  | L_call c cl choice => start_call c cl choice s
  | L_spurious_worker w => Ret (spurious_worker w s)
  | L_spurious_client c => Ret (spurious_client c s)
  | L_timeout c => Ret (timeout_client c s)
  end.

Fixpoint run (ls : list label) (s : system) : outcome (option system) :=
  match ls with
  | [] => Ret (Some s)
  | l :: ls =>
      let! s := exec l s in
      match s with Some s => run ls s | None => Ret None end
  end.

(** A queue with its threads, and the client threads of the process. *)
Definition start_system (q : util_queue) (n : nat) : system :=
  System q false false ∅ ∅ (replicate (Z.to_nat (num_threads q)) W_top) (replicate n C_idle) [].

(** What the functions of u_queue.h ask of their callers. *)
Definition is_idle (pc : client) : bool := match pc with C_idle => true | _ => false end.

Definition call_allowed (cl : call) (s : system) : bool :=
  match cl with
  | Call_add_job j =>
      match job j, fence j, execute j with
      | Object _, inl a, callback _ => negb (a =? 0) && util_queue_fence_is_signalled (fences s) (fence j)
      | _, _, _ => false
      end
  | Call_drop_job f | Call_fence_wait f _ => match f with inl a => negb (a =? 0) | inr _ => false end
  | Call_finish => negb (kill_threads (queue s))
  | Call_killall => forallb is_idle (clients s)
  end.

Definition allowed (l : label) (s : system) : bool :=
  (max_jobs (queue s) <? 2 ^ 31 - 8) &&
  match l with L_call _ cl _ => call_allowed cl s | _ => true end.

Definition step (s s' : system) : Prop := exists l, allowed l s = true /\ exec l s = Ret (Some s').
