(* ===== verification/UQueueRing.v ===== *)
(** * The ring of jobs (u_queue.c)

    The abstraction of the ring: the jobs it holds in the order in which the
    threads take them, and the effect of every ring operation on it. *)

From stdpp Require Import base list numbers.
From Stdlib Require Import ZArith Lia.
From S2P Require Import Prelude Arrays UQueue.
#[local] Open Scope Z_scope.
#[local] Open Scope c_scope.

Definition pos (q : util_queue) (k : Z) : Z := (read_idx q + k) mod max_jobs q.

(** The queued jobs, the next one to be taken first. *)
Definition contents (q : util_queue) : list util_queue_job :=
  map (fun k => job_at q (pos q k)) (indices (num_queued q)).

Record ring_ok (q : util_queue) : Prop := {
  ring_max : 0 < max_jobs q < 2 ^ 31;
  ring_len : len (jobs q) = max_jobs q;
  ring_read : 0 <= read_idx q < max_jobs q;
  ring_num : 0 <= num_queued q <= max_jobs q;
  ring_write : write_idx q = pos q (num_queued q) }.

(** The slots that hold no queued job are cleared. *)
Definition clean (q : util_queue) : Prop :=
  forall k, num_queued q <= k < max_jobs q -> job (job_at q (pos q k)) = Null.

(** Nothing but the ring is different. *)
Definition same_queue (q q' : util_queue) : Prop :=
  flags q' = flags q /\ num_threads q' = num_threads q /\ kill_threads q' = kill_threads q.

(** ** Positions *)

Lemma mod_once m x : 0 <= x < 2 * m -> x mod m = if x <? m then x else x - m.
Proof.
  intros Hx. destruct (Z.ltb_spec x m); [apply Z.mod_small; lia|].
  symmetry. apply (Z.mod_unique_pos _ _ 1); lia.
Qed.

Lemma next_int_pos q i : 0 < max_jobs q < 2 ^ 31 -> 0 <= i < max_jobs q -> next_int q i = (i + 1) mod max_jobs q.
Proof.
  intros Hm Hi. unfold next_int, swrap. rewrite (Z.mod_small (i + 1)) by lia.
  destruct (Z.ltb_spec (i + 1) (2 ^ (32 - 1))); [|lia]. apply Z.rem_mod_nonneg; lia.
Qed.

Lemma next_unsigned_pos q i : 0 < max_jobs q < 2 ^ 31 -> 0 <= i < max_jobs q -> next_unsigned q i = (i + 1) mod max_jobs q.
Proof. intros Hm Hi. unfold next_unsigned. rewrite wrap_small by lia. reflexivity. Qed.

Section ring.
Context (q : util_queue) (Hq : ring_ok q).

Lemma pos_range k : 0 <= pos q k < max_jobs q.
Proof using Hq. apply Z.mod_pos_bound. destruct Hq. lia. Qed.

Lemma pos_value k : 0 <= k <= max_jobs q ->
  pos q k = if read_idx q + k <? max_jobs q then read_idx q + k else read_idx q + k - max_jobs q.
Proof using Hq. destruct Hq. intros. apply mod_once. lia. Qed.

Lemma pos_next k : 0 <= k -> (pos q k + 1) mod max_jobs q = pos q (k + 1).
Proof using Hq. intros. unfold pos. rewrite Zplus_mod_idemp_l. f_equal. lia. Qed.

Lemma pos_inj k k' : 0 <= k < max_jobs q -> 0 <= k' < max_jobs q -> pos q k = pos q k' -> k = k'.
Proof using Hq.
  intros Hk Hk'. rewrite !pos_value by lia. destruct Hq. do 2 zcase; lia.
Qed.

Lemma pos_write k : 0 <= k <= num_queued q -> num_queued q < max_jobs q -> pos q k = write_idx q -> k = num_queued q.
Proof using Hq. intros Hk Hn. rewrite (ring_write q Hq). apply pos_inj; lia. Qed.

Lemma job_at_upd k k' f : 0 <= k < max_jobs q -> 0 <= k' < max_jobs q ->
  get null_job (upd (pos q k) f (jobs q)) (pos q k') =
  if k' =? k then f (job_at q (pos q k')) else job_at q (pos q k').
Proof using Hq.
  intros Hk Hk'. pose proof (pos_range k). pose proof (pos_range k').
  rewrite get_upd by (rewrite ?(ring_len q Hq); lia). unfold job_at.
  destruct (Z.eqb_spec k' k) as [->|Hne]; [now rewrite Z.eqb_refl|].
  destruct (Z.eqb_spec (pos q k') (pos q k)) as [E|]; [|reflexivity]. now apply pos_inj in E.
Qed.

Lemma contents_length : length (contents q) = Z.to_nat (num_queued q).
Proof using. unfold contents. now rewrite length_map, length_indices. Qed.

Lemma contents_lookup k : contents q !! k =
  if decide (Z.of_nat k < num_queued q) then Some (job_at q (pos q (Z.of_nat k))) else None.
Proof using.
  unfold contents, indices. rewrite map_map, !list_lookup_fmap.
  destruct (decide _); [rewrite lookup_seq_lt by lia | rewrite lookup_seq_ge by lia]; reflexivity.
Qed.
End ring.

Lemma i32_small x : - 2 ^ 31 <= x < 2 ^ 31 -> i32 x = x.
Proof.
  intros Hx. unfold swrap. destruct (Z_lt_ge_dec x 0).
  - rewrite <- (Z.mod_unique_pos x (2 ^ 32) (-1) (x + 2 ^ 32)) by lia. destruct (Z.ltb_spec (x + 2 ^ 32) (2 ^ (32 - 1))); lia.
  - rewrite Z.mod_small by lia. destruct (Z.ltb_spec x (2 ^ (32 - 1))); lia.
Qed.

Lemma pos_zero q : ring_ok q -> pos q 0 = read_idx q.
Proof. intros [? ? ? ? ?]. unfold pos. rewrite Z.add_0_r. now apply Z.mod_small. Qed.

(** Two rings with positions shifted by [d]. *)
Lemma contents_shift q q' (d : nat) :
  num_queued q = num_queued q' + Z.of_nat d -> 0 <= num_queued q' ->
  (forall k, 0 <= k < num_queued q' -> job_at q' (pos q' k) = job_at q (pos q (k + Z.of_nat d))) ->
  contents q' = drop d (contents q).
Proof.
  intros Hn Hp Hk. apply list_eq. intros i. rewrite lookup_drop, !contents_lookup.
  destruct (decide _), (decide _); try lia; [|reflexivity]. f_equal. rewrite Hk by lia. f_equal. f_equal. lia.
Qed.

(** ** Taking a job *)

Lemma take_job_spec q : ring_ok q -> 0 < num_queued q ->
  let (j, q') := take_job q in
  contents q = j :: contents q' /\ ring_ok q' /\ (clean q -> clean q') /\ same_queue q q' /\
  max_jobs q' = max_jobs q /\ num_queued q' = num_queued q - 1.
Proof.
  intros Hq Hn. pose proof Hq as [Hmax Hlen Hread Hnum Hwrite]. unfold take_job. cbn beta iota.
  match goal with |- context [contents q = _ :: contents ?x] => set (q' := x) end.
  assert (Hj : jobs q' = upd (read_idx q) (fun _ => null_job) (jobs q)) by reflexivity.
  assert (Hr : read_idx q' = pos q 1).
  { cbn. rewrite next_int_pos, <- (pos_zero q Hq), pos_next by (assumption || lia). reflexivity. }
  assert (Hpos : forall k, pos q' k = pos q (k + 1)).
  { intros k. unfold pos at 1. rewrite Hr. cbn. unfold pos. rewrite Zplus_mod_idemp_l. f_equal. lia. }
  assert (Hn' : num_queued q' = num_queued q - 1) by (cbn; apply i32_small; lia).
  assert (Hjob : forall k, 0 <= k < max_jobs q - 1 -> job_at q' (pos q' k) = job_at q (pos q (k + 1))).
  { intros k Hk. rewrite Hpos. unfold job_at at 1. rewrite Hj, <- (pos_zero q Hq), job_at_upd by (assumption || lia).
    destruct (Z.eqb_spec (k + 1) 0); [lia | reflexivity]. }
  split; [|split; [|split; [|split; [|split]]]]; [| |intros Hc| | reflexivity | assumption].
  - rewrite (contents_shift q q' 1) by (try lia; intros; apply Hjob; lia). apply list_eq. intros [|i].
    + rewrite contents_lookup. destruct (decide _); [|lia]. change (Z.of_nat 0) with 0. now rewrite (pos_zero q Hq).
    + symmetry. apply (lookup_drop (contents q) 1 i).
  - split; cbn; [assumption | now rewrite len_upd | rewrite next_int_pos by (assumption || lia); apply Z.mod_pos_bound; lia | rewrite i32_small; lia |].
    change (write_idx q = pos q' (num_queued q')). rewrite Hpos, Hn', Hwrite. f_equal. lia.
  - intros k Hk. rewrite Hn' in Hk. cbn in Hk. destruct (Z.eq_dec k (max_jobs q - 1)) as [->|].
    + rewrite Hpos. replace (max_jobs q - 1 + 1) with (max_jobs q) by lia.
      replace (pos q (max_jobs q)) with (pos q 0) by (unfold pos; rewrite <- (Z_mod_plus_full _ 1 (max_jobs q)); f_equal; lia).
      unfold job_at. rewrite Hj, <- (pos_zero q Hq), job_at_upd by (assumption || lia). reflexivity.
    + rewrite Hjob by lia. apply Hc. lia.
  - repeat split.
Qed.

(** ** Adding a job *)

Lemma put_job_spec q j : ring_ok q -> clean q -> num_queued q < max_jobs q ->
  exists q', put_job j q = Ret q' /\ contents q' = contents q ++ [j] /\ ring_ok q' /\ clean q' /\
    same_queue q q' /\ max_jobs q' = max_jobs q /\ num_queued q' = num_queued q + 1.
Proof.
  intros Hq Hc Hn. pose proof Hq as [Hmax Hlen Hread Hnum Hwrite]. unfold put_job.
  rewrite Hwrite, (Hc (num_queued q)) by lia. eexists. split; [reflexivity|].
  match goal with |- contents ?x = _ /\ _ => set (q' := x) end.
  assert (Hj : jobs q' = upd (pos q (num_queued q)) (fun _ => j) (jobs q)) by reflexivity.
  assert (Hjob : forall k, 0 <= k < max_jobs q ->
    job_at q' (pos q' k) = if k =? num_queued q then j else job_at q (pos q k)).
  { intros k Hk. unfold job_at at 1. change (pos q' k) with (pos q k). rewrite Hj. now rewrite job_at_upd by (assumption || lia). }
  assert (Hn' : num_queued q' = num_queued q + 1) by (cbn; apply i32_small; lia).
  split; [|split; [|split; [|split; [|split]]]]; [| | | | reflexivity | assumption].
  - apply list_eq. intros i. rewrite contents_lookup, Hn'. destruct (decide _).
    + rewrite Hjob by lia. destruct (Z.eqb_spec (Z.of_nat i) (num_queued q)) as [E|].
      * rewrite lookup_app_r; rewrite contents_length; [|lia]. now replace (i - Z.to_nat (num_queued q))%nat with O by lia.
      * rewrite lookup_app_l by (rewrite contents_length; lia). rewrite contents_lookup. destruct (decide _); [reflexivity | lia].
    + symmetry. apply lookup_ge_None. rewrite length_app, contents_length. cbn. lia.
  - split; cbn; [assumption | now rewrite len_upd | assumption | rewrite i32_small; lia |].
    rewrite next_int_pos by (try apply pos_range; assumption). rewrite pos_next by (assumption || lia).
    change (pos q (num_queued q + 1) = pos q (num_queued q')). now rewrite Hn'.
  - intros k Hk. rewrite Hn' in Hk. cbn in Hk. rewrite Hjob by lia. destruct (Z.eqb_spec k (num_queued q)); [lia|]. apply Hc. lia.
  - repeat split.
Qed.

(** ** Growing a full ring *)

Lemma copy_jobs_spec q : ring_ok q -> num_queued q = max_jobs q ->
  forall fuel k dst, 0 <= k -> k + Z.of_nat fuel = max_jobs q -> (0 < fuel)%nat -> max_jobs q <= len dst ->
  exists dst', copy_jobs fuel q (pos q k) k dst = Ret (max_jobs q, dst') /\ len dst' = len dst /\
    forall i, 0 <= i < len dst ->
      get null_job dst' i = if (k <=? i) && (i <? max_jobs q) then job_at q (pos q i) else get null_job dst i.
Proof.
  intros Hq Hfull. pose proof Hq as [Hmax Hlen Hread Hnum Hwrite].
  induction fuel as [|fuel IH]; intros k dst Hk Hf Hpos Hdst; [lia|].
  cbn [copy_jobs]. rewrite wrap_small, next_unsigned_pos, pos_next by (try apply pos_range; assumption || lia).
  assert (Hcase : pos q (k + 1) = write_idx q <-> k + 1 = max_jobs q).
  { rewrite Hwrite, Hfull. split; [|intros ->; reflexivity]. rewrite !pos_value by (assumption || lia). do 2 zcase; lia. }
  destruct (Z.eqb_spec (pos q (k + 1)) (write_idx q)) as [E|E]; cbn [negb].
  - eexists. rewrite <- (proj1 Hcase E). split; [reflexivity|]. rewrite len_upd. split; [reflexivity|].
    intros i Hi. rewrite get_upd by lia. destruct (Z.eqb_spec i k), (Z.leb_spec k i), (Z.ltb_spec i (k + 1)); cbn; try lia; now subst.
  - destruct (IH (k + 1) (upd k (fun _ => job_at q (pos q k)) dst)) as (dst' & Hc & Hl & Hg);
      [lia | lia | lia | rewrite len_upd; lia |].
    exists dst'. rewrite len_upd in *. repeat split; [assumption..|]. intros i Hi. rewrite Hg, get_upd by lia.
    destruct (Z.eqb_spec i k), (Z.leb_spec k i), (Z.leb_spec (k + 1) i), (Z.ltb_spec i (max_jobs q)); cbn; try lia; now subst.
Qed.

Lemma len_replicate {A} n (x : A) : 0 <= n -> len (replicate (Z.to_nat n) x) = n.
Proof. unfold len. rewrite length_replicate. lia. Qed.

Lemma get_replicate n (x : util_queue_job) i : get x (replicate n x) i = x.
Proof. unfold get. generalize (Z.to_nat i). induction n; intros [|m]; cbn; auto. Qed.

Lemma grow_spec q : ring_ok q -> num_queued q = max_jobs q -> max_jobs q < 2 ^ 31 - 8 ->
  exists q', grow q = Ret q' /\ contents q' = contents q /\ ring_ok q' /\ clean q' /\
    same_queue q q' /\ max_jobs q' = max_jobs q + 8 /\ num_queued q' = num_queued q.
Proof.
  intros Hq Hfull Hsmall. pose proof Hq as [Hmax Hlen Hread Hnum Hwrite]. unfold grow.
  rewrite wrap_small by lia. rewrite <- (pos_zero q Hq).
  destruct (copy_jobs_spec q Hq Hfull (Z.to_nat (max_jobs q)) 0 (replicate (Z.to_nat (max_jobs q + 8)) null_job))
    as (dst & Hc & Hl & Hg); [lia | lia | lia | rewrite len_replicate; lia |].
  rewrite Hc. cbn [obind]. rewrite Hfull, Z.eqb_refl. cbn [c_assert]. rewrite i32_small by lia.
  rewrite len_replicate in * by lia. eexists. split; [reflexivity|].
  match goal with |- contents ?x = _ /\ _ => set (q' := x) end.
  assert (Hpos : forall k, 0 <= k < max_jobs q + 8 -> pos q' k = k) by (intros; apply Z.mod_small; cbn; lia).
  assert (Hjob : forall k, 0 <= k < max_jobs q + 8 ->
    job_at q' (pos q' k) = if k <? max_jobs q then job_at q (pos q k) else null_job).
  { intros k Hk. rewrite Hpos by assumption. unfold job_at at 1. change (jobs q') with dst. rewrite Hg by lia.
    rewrite get_replicate. destruct (Z.leb_spec 0 k); [reflexivity | lia]. }
  split; [|split; [|split; [|split; [|split]]]]; [| | |repeat split | reflexivity | exact Hfull].
  - rewrite (contents_shift q q' 0); [reflexivity | cbn; lia | cbn; lia |]. intros k Hk. cbn in Hk. rewrite Hjob by lia.
    rewrite Z.add_0_r. destruct (Z.ltb_spec k (max_jobs q)); [reflexivity | lia].
  - split; [cbn; lia | exact Hl | cbn; lia | cbn; lia |]. rewrite Hpos by (cbn; lia). cbn. lia.
  - intros k Hk. cbn in Hk. rewrite Hjob by lia. destruct (Z.ltb_spec k (max_jobs q)); [lia | reflexivity].
Qed.

(** ** Dropping a job *)

(** The ring with the job at position [k] replaced. *)
Lemma replace_spec q k g : ring_ok q -> 0 <= k < num_queued q ->
  let q' := q <| jobs := upd (pos q k) g (jobs q) |> in
  contents q' = alter g (Z.to_nat k) (contents q) /\ ring_ok q' /\ (clean q -> clean q') /\ (clean q' -> clean q).
Proof.
  intros Hq Hk q'. pose proof Hq as [Hmax Hlen Hread Hnum Hwrite].
  assert (Hjob : forall i, 0 <= i < max_jobs q -> job_at q' (pos q' i) = if i =? k then g (job_at q (pos q i)) else job_at q (pos q i)).
  { intros i Hi. apply (job_at_upd q Hq); lia. }
  split; [|split; [|split]].
  - apply list_eq. intros i. rewrite contents_lookup. change (num_queued q') with (num_queued q).
    destruct (decide (i = Z.to_nat k)) as [->|Hne].
    + rewrite list_lookup_alter_eq, contents_lookup. destruct (decide _); [|reflexivity]. rewrite Hjob by lia.
      rewrite (proj2 (Z.eqb_eq _ _)) by lia. reflexivity.
    + rewrite list_lookup_alter_ne, contents_lookup by congruence. destruct (decide _); [|reflexivity]. rewrite Hjob by lia.
      rewrite (proj2 (Z.eqb_neq _ _)) by lia. reflexivity.
  - split; cbn; try assumption. now rewrite len_upd.
  - intros Hc i Hi. cbn in Hi. rewrite Hjob by lia. destruct (Z.eqb_spec i k); [lia|]. apply Hc. assumption.
  - intros Hc i Hi. specialize (Hc i Hi). rewrite Hjob in Hc by lia. destruct (Z.eqb_spec i k); [lia | assumption].
Qed.

Lemma find_fence_spec q f : ring_ok q -> num_queued q < max_jobs q ->
  forall fuel k, 0 <= k <= num_queued q -> k + Z.of_nat fuel = max_jobs q ->
  match find_fence fuel q f (pos q k) with
  | Some i => exists k', k <= k' < num_queued q /\ i = pos q k' /\ fence (job_at q i) = f
  | None => forall k', k <= k' < num_queued q -> fence (job_at q (pos q k')) <> f
  end.
Proof.
  intros Hq Hn. pose proof Hq as [Hmax Hlen Hread Hnum Hwrite].
  induction fuel as [|fuel IH]; intros k Hk Hf; cbn [find_fence]; [lia|].
  destruct (Z.eqb_spec (pos q k) (write_idx q)) as [E|E].
  - apply pos_write in E; [lia | assumption..].
  - assert (Hlt : k < num_queued q) by (destruct (Z.eq_dec k (num_queued q)) as [->|]; [congruence | lia]).
    case_bool_decide as Hd; [exists k; auto with lia|].
    rewrite next_unsigned_pos, pos_next by (try apply pos_range; assumption || lia).
    specialize (IH (k + 1) ltac:(lia) ltac:(lia)). destruct (find_fence _ _ _ _).
    + destruct IH as (k' & ? & ?). exists k'. auto with lia.
    + intros k' Hk'. destruct (Z.eq_dec k' k) as [->|]; [assumption | apply IH; lia].
Qed.

(** A full ring is not searched: the loop ends before its first round. *)
Lemma find_fence_full q f fuel : ring_ok q -> num_queued q = max_jobs q -> find_fence fuel q f (pos q 0) = None.
Proof.
  intros Hq Hn. pose proof Hq as [Hmax Hlen Hread Hnum Hwrite]. destruct fuel; [reflexivity|]. cbn.
  rewrite (proj2 (Z.eqb_eq _ _)); [reflexivity|]. rewrite Hwrite, Hn. unfold pos.
  rewrite <- (Z_mod_plus_full (read_idx q + 0) 1 (max_jobs q)). f_equal. lia.
Qed.

Lemma drop_search_spec q f : ring_ok q ->
  match drop_search q f with
  | Some (j, q') => exists k, contents q !! k = Some j /\ fence j = f /\ contents q' = <[k := null_job]> (contents q) /\
      ring_ok q' /\ (clean q -> clean q') /\ (clean q' -> clean q) /\ same_queue q q' /\ max_jobs q' = max_jobs q /\ num_queued q' = num_queued q
  | None => num_queued q = max_jobs q \/ forall j, j ∈ contents q -> fence j <> f
  end.
Proof.
  intros Hq. pose proof Hq as [Hmax Hlen Hread Hnum Hwrite]. unfold drop_search. rewrite <- (pos_zero q Hq).
  destruct (Z.eq_dec (num_queued q) (max_jobs q)) as [Hfull|Hfull].
  { rewrite find_fence_full by assumption. now left. }
  pose proof (find_fence_spec q f Hq ltac:(lia) (Z.to_nat (max_jobs q)) 0 ltac:(lia) ltac:(lia)) as H.
  destruct (find_fence _ _ _ _) as [i|].
  - destruct H as (k & Hk & -> & Hf). exists (Z.to_nat k).
    destruct (replace_spec q k (fun _ => null_job) Hq ltac:(lia)) as (Hc & Hr & Hcl & Hcl').
    assert (Hl : contents q !! Z.to_nat k = Some (job_at q (pos q k))).
    { rewrite contents_lookup. destruct (decide _); [|lia]. now rewrite Z2Nat.id by lia. }
    repeat split; try assumption; try apply Hr. rewrite Hc.
    apply list_eq. intros i. destruct (decide (i = Z.to_nat k)) as [->|Hne].
    + rewrite list_lookup_alter_eq, Hl, list_lookup_insert_eq; [reflexivity|]. now apply lookup_lt_Some in Hl.
    + now rewrite list_lookup_alter_ne, list_lookup_insert_ne by congruence.
  - right. intros j Hj. apply list_elem_of_lookup in Hj as [k Hk]. rewrite contents_lookup in Hk.
    destruct (decide _); [|discriminate]. injection Hk as <-. apply H. lia.
Qed.
