(* ===== verification/UQueueInv.v ===== *)
(** * The invariant of the job queue (u_queue.c)

    What holds between any two steps of the threads: the ring is well formed,
    every unsignalled fence has exactly one owner that will signal it, no
    wake-up is lost, and the barrier of [util_queue_finish] counts the threads
    that wait at it. *)

From stdpp Require Import base list gmap numbers.
From Stdlib Require Import ZArith Lia.
From S2P Require Import Prelude Arrays UQueue UQueueRing.
#[local] Open Scope Z_scope.
#[local] Open Scope c_scope.

(** ** What is counted *)

Definition indicator (b : bool) : Z := if b then 1 else 0.

(** The jobs whose fence is [f] and is still to be signalled. *)
Definition hit (f : fence_ptr) (j : util_queue_job) : Z :=
  if is_null (job j) then 0 else indicator (bool_decide (fence j = f)).
Definition own_w (f : fence_ptr) (pc : worker) : Z :=
  match pc with W_run j | W_barrier j _ _ | W_signal j => hit f j | _ => 0 end.
Definition own_c (f : fence_ptr) (pc : client) : Z :=
  match pc with
  | C_add_blocked j _ | C_add_woken j _ => hit f j
  | C_dropped f' => indicator (bool_decide (f' = f))
  | _ => 0
  end.

(** The wake-ups of sleepers on the fence [f] that are still to come. *)
Definition pend_w (f : fence_ptr) (pc : worker) : Z :=
  match pc with
  | W_wake j => indicator (bool_decide (fence j = f))
  | W_exit_wake _ f' => indicator (bool_decide (f' = f))
  | _ => 0
  end.
Definition pend_c (f : fence_ptr) (pc : client) : Z :=
  match pc with C_drop_wake f' => indicator (bool_decide (f' = f)) | _ => 0 end.

(** Threads that wait for a job, and threads that are about to look for one. *)
Definition blocked_w (pc : worker) : Z := match pc with W_blocked => 1 | _ => 0 end.
Definition ready_w (pc : worker) : Z := match pc with W_top | W_woken => 1 | _ => 0 end.
(** Clients that wait for a free slot, and clients woken from it. *)
Definition blocked_c (pc : client) : Z := match pc with C_add_blocked _ _ => 1 | _ => 0 end.
Definition woken_c (pc : client) : Z := match pc with C_add_woken _ _ => 1 | _ => 0 end.

(** Threads in the loop that signals the remaining jobs, and threads that have
    left their main loop. *)
Definition exiting (pc : worker) : Z := match pc with W_exit_at _ | W_exit_wake _ _ => 1 | _ => 0 end.
Definition over (pc : worker) : Z :=
  match pc with W_exit | W_exit_at _ | W_exit_wake _ _ | W_done => 1 | _ => 0 end.

(** The jobs of [util_queue_finish] for client [c], the threads that have taken
    one, those that are in the barrier and those asleep in it. *)
Definition fin (c : nat) (j : util_queue_job) : Z := indicator (bool_decide (job j = Barrier c)).
Definition run_w (c : nat) (pc : worker) : Z := match pc with W_run j => fin c j | _ => 0 end.
Definition bar_w (c : nat) (pc : worker) : Z := match pc with W_barrier j _ _ => fin c j | _ => 0 end.
Definition sleep_w (c : nat) (pc : worker) : Z := match pc with W_barrier j _ false => fin c j | _ => 0 end.

(** How far client is in [util_queue_finish]: the number of jobs that it has
    added, of fences that it has reset and of fences that it has seen
    signalled. *)
Definition stage (n : nat) (pc : client) : option (nat * nat * nat) :=
  match pc with
  | C_finish_lock _ => Some (0, 0, 0)
  | C_finish_add i _ => Some (i, i, 0)
  | C_add_blocked _ (K_add i _) | C_add_woken _ (K_add i _) => Some (i, S i, 0)
  | C_wait _ _ (K_wait i _) | C_reload _ _ (K_wait i _) | C_cmpxchg _ _ (K_wait i _)
  | C_futex _ _ (K_wait i _) | C_asleep _ _ (K_wait i _) => Some (n, n, i)
  | C_finish_wait i _ => Some (n, n, i)
  | C_finish_destroy i _ => Some (n, n, S i)
  | _ => None
  end%nat.

(** A client that holds [finish_lock]. *)
Definition holds_finish (pc : client) : Z :=
  match pc with
  | C_finish_lock _ => 0
  | _ => match stage 0 pc with Some _ => 1 | None => 0 end
  end.

(** ** Well-formed jobs and threads *)

Definition user_job (j : util_queue_job) : Prop :=
  exists a b e, job j = Object a /\ fence j = inl b /\ b <> 0 /\ execute j = callback e.
Definition job_ok (j : util_queue_job) : Prop :=
  job j = Null \/ user_job j \/ exists c i, j = finish_job c i.
Definition client_fence (f : fence_ptr) : Prop := exists a, f = inl a /\ a <> 0.

Definition worker_ok (q : util_queue) (pc : worker) : Prop :=
  match pc with
  | W_run j | W_signal j => job j <> Null /\ job_ok j
  | W_barrier j seq _ => seq = 0 /\ exists c i, j = finish_job c i
  | W_exit_at i => exists k, 0 <= k <= num_queued q /\ i = pos q k
  | W_exit_wake i _ => exists k, 0 <= k < num_queued q /\ i = pos q k
  | _ => True
  end.

Definition cont_ok_add (c : nat) (j : util_queue_job) (k : cont) : Prop :=
  match k with K_return => user_job j | K_add i _ => j = finish_job c i | K_wait _ _ => False end.
Definition cont_ok_wait (c : nat) (f : fence_ptr) (k : cont) : Prop :=
  match k with K_return => client_fence f | K_add _ _ => False | K_wait i _ => f = finish_fence c i end.

Definition client_ok (c : nat) (pc : client) : Prop :=
  match pc with
  | C_add_blocked j k | C_add_woken j k => cont_ok_add c j k
  | C_drop f | C_dropped f | C_drop_wake f => client_fence f
  | C_wait f t k | C_reload f t k | C_cmpxchg f t k | C_futex f t k | C_asleep f t k =>
      cont_ok_wait c f k /\ (t = true -> k = K_return)
  | _ => True
  end.

(** ** The invariant *)

Definition owners (s : system) (f : fence_ptr) : Z :=
  total (hit f) (contents (queue s)) + total (own_w f) (workers s) + total (own_c f) (clients s).
Definition live (s : system) (f : fence_ptr) : Z := indicator (negb (util_queue_fence_is_signalled (fences s) f)).

(** The barrier of client [c], which has added [a] jobs: threads arrive until
    all are there, then all are released. *)
Definition barrier_ok (s : system) (c a : nat) : Prop :=
  let b := barrier_of s c in
  let queued := total (fin c) (contents (queue s)) in
  count b = len (workers s) /\
  ((sequence b = 0 /\ waiters b = total (bar_w c) (workers s) /\ waiters b < count b /\
    queued + total (run_w c) (workers s) + total (bar_w c) (workers s) = Z.of_nat a) \/
   (sequence b = 1 /\ waiters b = 0 /\ queued = 0 /\ total (run_w c) (workers s) = 0 /\
    total (sleep_w c) (workers s) = 0 /\ Z.of_nat a = len (workers s))).

Record inv (s : system) : Prop := {
  i_ring : ring_ok (queue s);
  i_clean : kill_threads (queue s) = false -> clean (queue s);
  i_threads : 0 < len (workers s) < 2 ^ 31;
  i_num_threads : kill_threads (queue s) = false -> num_threads (queue s) = len (workers s);
  i_lock : total exiting (workers s) = indicator (lock s);
  i_over : kill_threads (queue s) = false -> total over (workers s) = 0;
  i_jobs : Forall job_ok (contents (queue s));
  i_null : lock s = false -> Forall (fun j => job j = Null -> fence j = inl 0) (contents (queue s));
  i_workers : forall w pc, workers s !! w = Some pc -> worker_ok (queue s) pc;
  i_clients : forall c pc, clients s !! c = Some pc -> client_ok c pc;
  i_vals : forall f, 0 <= fence_val (fences s) f <= 2;
  i_owners : forall f, owners s f <= live s f;
  i_owners_eq : clean (queue s) -> forall f, owners s f = live s f;
  i_finish_fences : forall c i, fence_val (fences s) (finish_fence c i) <> 0 ->
    exists pc a r w, clients s !! c = Some pc /\ stage (length (workers s)) pc = Some (a, r, w) /\ (i < r)%nat;
  i_stage : forall c pc a r w, clients s !! c = Some pc -> stage (length (workers s)) pc = Some (a, r, w) ->
    (a <= length (workers s))%nat /\ (r <= length (workers s))%nat /\
    (forall i, (i < w)%nat -> fence_val (fences s) (finish_fence c i) = 0) /\ barrier_ok s c a;
  i_kill : kill_threads (queue s) = true -> forall c pc, clients s !! c = Some pc ->
    stage (length (workers s)) pc = None /\ blocked_c pc = 0 /\ woken_c pc = 0;
  i_join : forall c i, clients s !! c = Some (C_join i) -> kill_threads (queue s) = true;
  i_asleep : forall c f t k, clients s !! c = Some (C_asleep f t k) ->
    fence_val (fences s) f = 2 \/ 0 < total (pend_w f) (workers s) + total (pend_c f) (clients s);
  i_queued : kill_threads (queue s) = false -> 0 < total blocked_w (workers s) ->
    num_queued (queue s) <= total ready_w (workers s);
  i_space : kill_threads (queue s) = false -> 0 < total blocked_c (clients s) ->
    max_jobs (queue s) - num_queued (queue s) <= total woken_c (clients s);
  i_finish_lock : total holds_finish (clients s) = indicator (finish_lock s) }.

(** ** Counts are not negative *)

Lemma indicator_bound b : 0 <= indicator b <= 1.
Proof. destruct b; cbn; lia. Qed.

Lemma hit_bound f j : 0 <= hit f j <= 1.
Proof. unfold hit. destruct (is_null _); [lia | apply indicator_bound]. Qed.

Lemma fin_bound c j : 0 <= fin c j <= 1.
Proof. apply indicator_bound. Qed.

Ltac bounds :=
  intros; match goal with |- context [match ?x with _ => _ end] => destruct x | _ => idtac end;
  repeat match goal with
  | b : bool |- _ => destruct b
  | |- context [hit ?f ?j] => pose proof (hit_bound f j); generalize dependent (hit f j); intros
  | |- context [fin ?c ?j] => pose proof (fin_bound c j); generalize dependent (fin c j); intros
  | |- context [indicator ?b] => pose proof (indicator_bound b); generalize dependent (indicator b); intros
  end; lia.

Lemma own_w_bound f pc : 0 <= own_w f pc <= 1.
Proof. unfold own_w. bounds. Qed.
Lemma own_c_bound f pc : 0 <= own_c f pc <= 1.
Proof. unfold own_c. bounds. Qed.
Lemma pend_w_bound f pc : 0 <= pend_w f pc <= 1.
Proof. unfold pend_w. bounds. Qed.
Lemma pend_c_bound f pc : 0 <= pend_c f pc <= 1.
Proof. unfold pend_c. bounds. Qed.
Lemma blocked_w_bound pc : 0 <= blocked_w pc <= 1.
Proof. unfold blocked_w. bounds. Qed.
Lemma ready_w_bound pc : 0 <= ready_w pc <= 1.
Proof. unfold ready_w. bounds. Qed.
Lemma blocked_c_bound pc : 0 <= blocked_c pc <= 1.
Proof. unfold blocked_c. bounds. Qed.
Lemma woken_c_bound pc : 0 <= woken_c pc <= 1.
Proof. unfold woken_c. bounds. Qed.
Lemma exiting_bound pc : 0 <= exiting pc <= 1.
Proof. unfold exiting. bounds. Qed.
Lemma over_bound pc : 0 <= over pc <= 1.
Proof. unfold over. bounds. Qed.
Lemma run_w_bound c pc : 0 <= run_w c pc <= 1.
Proof. unfold run_w. bounds. Qed.
Lemma bar_w_bound c pc : 0 <= bar_w c pc <= 1.
Proof. unfold bar_w. bounds. Qed.
Lemma sleep_w_bound c pc : 0 <= sleep_w c pc <= bar_w c pc.
Proof. unfold sleep_w, bar_w. bounds. Qed.
Lemma holds_finish_bound pc : 0 <= holds_finish pc <= 1.
Proof. unfold holds_finish. destruct pc; try lia; destruct (stage 0 _); lia. Qed.

Lemma fin_user c j : user_job j -> fin c j = 0.
Proof. intros (a & b & e & H & _). unfold fin. rewrite H. reflexivity. Qed.

Lemma fin_finish c c' i : fin c (finish_job c' i) = indicator (bool_decide (c' = c)).
Proof. unfold fin. f_equal. apply bool_decide_ext. cbn. split; congruence. Qed.

Lemma hit_finish f c i : hit f (finish_job c i) = indicator (bool_decide (finish_fence c i = f)).
Proof. reflexivity. Qed.

(** ** Derived facts *)

Section facts.
Context (s : system) (Hs : inv s).

Lemma owner_live f : 0 < owners s f -> fence_val (fences s) f <> 0.
Proof using Hs.
  intros H. pose proof (i_owners s Hs f) as Ho. unfold live, util_queue_fence_is_signalled in Ho.
  destruct (Z.eqb_spec (fence_val (fences s) f) 0); cbn in Ho; lia.
Qed.

Lemma owners_parts f : 0 <= total (hit f) (contents (queue s)) /\ 0 <= total (own_w f) (workers s) /\ 0 <= total (own_c f) (clients s).
Proof using. repeat split; apply total_nonneg; intros; [apply hit_bound | apply own_w_bound | apply own_c_bound]. Qed.

Lemma worker_owner w pc f : workers s !! w = Some pc -> own_w f pc = 1 -> fence_val (fences s) f <> 0.
Proof using Hs.
  intros Hw Ho. apply owner_live. pose proof (owners_parts f). unfold owners.
  pose proof (total_lookup (own_w f) _ _ _ (fun pc => proj1 (own_w_bound f pc)) Hw). lia.
Qed.

Lemma client_owner c pc f : clients s !! c = Some pc -> own_c f pc = 1 -> fence_val (fences s) f <> 0.
Proof using Hs.
  intros Hw Ho. apply owner_live. pose proof (owners_parts f). unfold owners.
  pose proof (total_lookup (own_c f) _ _ _ (fun pc => proj1 (own_c_bound f pc)) Hw). lia.
Qed.

Lemma queue_owner k j f : contents (queue s) !! k = Some j -> hit f j = 1 -> fence_val (fences s) f <> 0.
Proof using Hs.
  intros Hw Ho. apply owner_live. pose proof (owners_parts f). unfold owners.
  pose proof (total_lookup (hit f) _ _ _ (fun pc => proj1 (hit_bound f pc)) Hw). lia.
Qed.

(** A client that is not in [util_queue_finish] has no unsignalled fence there,
    and no job of it is around. *)
Lemma not_finishing c pc i : clients s !! c = Some pc -> stage (length (workers s)) pc = None ->
  fence_val (fences s) (finish_fence c i) = 0.
Proof using Hs.
  intros Hc Hst. destruct (Z.eq_dec (fence_val (fences s) (finish_fence c i)) 0) as [|Hne]; [assumption|].
  apply (i_finish_fences s Hs) in Hne as (pc' & a & r & w & Hc' & Hst' & _). congruence.
Qed.

Lemma no_finish_jobs c :
  (forall i, fence_val (fences s) (finish_fence c i) = 0) ->
  total (fin c) (contents (queue s)) = 0 /\ total (run_w c) (workers s) = 0 /\ total (bar_w c) (workers s) = 0.
Proof using Hs.
  intros Hv.
  assert (Hj : forall j, job_ok j -> 0 < fin c j -> exists i, hit (finish_fence c i) j = 1).
  { intros j [Hn | [Hu | (c' & i & ->)]] Hf.
    - unfold fin in Hf. rewrite bool_decide_false in Hf by congruence. cbn in Hf. lia.
    - rewrite fin_user in Hf by assumption. lia.
    - rewrite fin_finish in Hf. case_bool_decide; cbn in Hf; [subst|lia]. exists i. rewrite hit_finish.
      now rewrite bool_decide_true. }
  repeat split; apply total_all_zero; intros k x Hx.
  - destruct (Z.eq_dec (fin c x) 0) as [|Hne]; [assumption|]. pose proof (fin_bound c x).
    destruct (Hj x) as [i Hi]; [|lia|].
    + apply (proj1 (Forall_lookup _ _) (i_jobs s Hs) k x Hx).
    + now apply (queue_owner k x) in Hi; [rewrite Hv in Hi|].
  - pose proof (i_workers s Hs k x Hx) as Hok. destruct x; cbn in *; try reflexivity.
    destruct (Z.eq_dec (fin c j) 0) as [|Hne]; [assumption|]. pose proof (fin_bound c j).
    destruct (Hj j) as [i Hi]; [apply Hok | lia |]. now apply (worker_owner k (W_run j)) in Hi; [rewrite Hv in Hi|].
  - pose proof (i_workers s Hs k x Hx) as Hok. destruct x; cbn in *; try reflexivity.
    destruct (Z.eq_dec (fin c j) 0) as [|Hne]; [assumption|]. pose proof (fin_bound c j).
    destruct (Hj j) as [i Hi]; [right; right; apply Hok | lia |]. now apply (worker_owner k (W_barrier j seq awake)) in Hi; [rewrite Hv in Hi|].
Qed.
End facts.
