(* ===== verification/UQueueSteps.v ===== *)
(** * Every step keeps the invariant of the job queue (u_queue.c) *)

From stdpp Require Import base list gmap numbers.
From Stdlib Require Import ZArith Lia.
From S2P Require Import Prelude Arrays UQueue UQueueRing UQueueInv.
#[local] Open Scope Z_scope.
#[local] Open Scope c_scope.

(** The outcome of a step that keeps the invariant and fails no assertion. *)
Definition good (o : outcome (option system)) : Prop :=
  match o with Ret (Some s) => inv s | Ret None => True | _ => False end.

Lemma len_insert {A} (l : list A) i x : len (<[i := x]> l) = len l.
Proof. unfold len. now rewrite length_insert. Qed.

(** Rewrite the sums over an updated list of threads. *)
Ltac sums :=
  repeat match goal with
  | H : ?l !! ?i = Some ?x |- context [total ?g (<[?i := ?y]> ?l)] => rewrite (total_insert g l i x y H)
  end;
  rewrite ?len_insert, ?length_insert.

Ltac on_thread H :=
  let E := fresh "E" in
  match type of H with
  | <[?i := _]> ?l !! ?k = Some _ =>
      destruct (decide (i = k)) as [E|E];
      [subst k; rewrite list_lookup_insert_eq in H by (eapply lookup_lt_Some; eassumption); first [discriminate H | injection H as <- | injection H as -> | injection H as H]
      |rewrite list_lookup_insert_ne in H by assumption]
  end.

Lemma inv_emit e s : inv s -> inv (emit e s).
Proof. intros []. split; assumption. Qed.

(** Nobody is asleep on the fence. *)
Definition no_sleeper (s : system) (f : fence_ptr) : Prop := forall c t k, clients s !! c <> Some (C_asleep f t k).

(** ** One thread moves and nothing else changes *)

Lemma set_worker_lock_inv s w pc pc' b :
  inv s -> workers s !! w = Some pc -> worker_ok (queue s) pc' ->
  (forall f, own_w f pc' = own_w f pc) -> (forall f, pend_w f pc' = pend_w f pc \/ no_sleeper s f) ->
  exiting pc' - exiting pc = indicator b - indicator (lock s) -> (b = false -> lock s = false) -> (kill_threads (queue s) = false -> over pc' = 0) ->
  (forall c, run_w c pc' = run_w c pc /\ (bar_w c pc' = bar_w c pc \/ sequence (barrier_of s c) = 1) /\
             (sleep_w c pc' <= sleep_w c pc \/ sequence (barrier_of s c) = 0)) ->
  (kill_threads (queue s) = false ->
   (blocked_w pc' <= blocked_w pc /\ ready_w pc <= ready_w pc') \/ num_queued (queue s) = 0) ->
  inv (set_worker w pc' (s <| lock := b |>)).
Proof.
  intros [] Hw Hok Hown Hpend Hex Hlk Hover Hbar Hq. unfold set_worker. split; cbn; try assumption; sums; try assumption; auto.
  - lia.
  - intros Hk. specialize (i_over Hk). specialize (Hover Hk).
    rewrite (total_zero over (workers s) w pc (fun pc => proj1 (over_bound pc))) by (assumption || lia). lia.
  - intros w' pc'' H. on_thread H; [assumption | eauto].
  - intros f. unfold owners. cbn. sums. rewrite Hown. specialize (i_owners f). unfold owners, live in *. cbn. lia.
  - intros Hc f. unfold owners. cbn. sums. rewrite Hown. specialize (i_owners_eq Hc f). unfold owners, live in *. cbn. lia.
  - intros c pc'' a r w' Hc Hst. destruct (i_stage c pc'' a r w' Hc Hst) as (? & ? & ? & Hb).
    refine (conj _ (conj _ (conj _ _))); try assumption.
    unfold barrier_ok in *. cbn. sums. destruct (Hbar c) as (Hr & Hba & Hsl). unfold barrier_of in *.
    cbn in *. rewrite Hr. pose proof (sleep_w_bound c pc'). 
    assert (0 <= total (sleep_w c) (<[w := pc']> (workers s))) as Hp by (apply total_nonneg; intros; apply sleep_w_bound).
    rewrite (total_insert _ _ _ _ _ Hw) in Hp. lia.
  - intros c f t k Hc. sums. specialize (i_asleep c f t k Hc). destruct (Hpend f) as [->|Hn]; [lia | now apply Hn in Hc].
  - intros Hk. specialize (i_queued Hk). specialize (Hq Hk). pose proof (ready_w_bound pc'). pose proof (ready_w_bound pc).
    pose proof (total_nonneg ready_w (<[w := pc']> (workers s)) (fun pc => proj1 (ready_w_bound pc))) as Hp.
    rewrite (total_insert _ _ _ _ _ Hw) in Hp. lia.
Qed.

Lemma set_worker_inv s w pc pc' :
  inv s -> workers s !! w = Some pc -> worker_ok (queue s) pc' ->
  (forall f, own_w f pc' = own_w f pc) -> (forall f, pend_w f pc' = pend_w f pc \/ no_sleeper s f) ->
  exiting pc' = exiting pc -> (kill_threads (queue s) = false -> over pc' = 0) ->
  (forall c, run_w c pc' = run_w c pc /\ (bar_w c pc' = bar_w c pc \/ sequence (barrier_of s c) = 1) /\
             (sleep_w c pc' <= sleep_w c pc \/ sequence (barrier_of s c) = 0)) ->
  (kill_threads (queue s) = false ->
   (blocked_w pc' <= blocked_w pc /\ ready_w pc <= ready_w pc') \/ num_queued (queue s) = 0) ->
  inv (set_worker w pc' s).
Proof.
  intros. change (inv (set_worker w pc' (s <| lock := lock s |>))). eapply set_worker_lock_inv; eauto. lia.
Qed.

(** The conditions on the new program counter of client [c] in
    [util_queue_finish]. *)
Definition stage_ok (s : system) (c : nat) (pc : client) : Prop :=
  (forall a r w, stage (length (workers s)) pc = Some (a, r, w) ->
     (a <= length (workers s))%nat /\ (r <= length (workers s))%nat /\
     (forall i, (i < w)%nat -> fence_val (fences s) (finish_fence c i) = 0) /\ barrier_ok s c a) /\
  (forall i, fence_val (fences s) (finish_fence c i) <> 0 ->
     exists a r w, stage (length (workers s)) pc = Some (a, r, w) /\ (i < r)%nat) /\
  (kill_threads (queue s) = true -> stage (length (workers s)) pc = None).

Lemma stage_ok_same s c pc pc' : inv s -> clients s !! c = Some pc ->
  (forall n, stage n pc' = stage n pc) -> stage_ok s c pc'.
Proof.
  intros Hs Hc Hst. unfold stage_ok. rewrite Hst. split; [|split].
  - intros a r w H. exact (i_stage s Hs c pc a r w Hc H).
  - intros i Hi. destruct (i_finish_fences s Hs c i Hi) as (pc'' & a & r & w & Hc' & H & Hr).
    rewrite Hc in Hc'. injection Hc' as <-. eauto.
  - intros Hk. now apply (i_kill s Hs Hk c pc).
Qed.

Lemma set_client_inv s c pc pc' b :
  inv s -> clients s !! c = Some pc -> client_ok c pc' ->
  (forall f, own_c f pc' = own_c f pc) -> (forall f, pend_c f pc' = pend_c f pc \/ no_sleeper s f) ->
  stage_ok s c pc' ->
  holds_finish pc' - holds_finish pc = indicator b - indicator (finish_lock s) ->
  (kill_threads (queue s) = false ->
   (blocked_c pc' <= blocked_c pc /\ woken_c pc <= woken_c pc') \/ num_queued (queue s) = max_jobs (queue s)) ->
  (kill_threads (queue s) = true -> blocked_c pc' = 0 /\ woken_c pc' = 0) ->
  (forall f t k, pc' = C_asleep f t k -> fence_val (fences s) f = 2) ->
  (forall i, pc' = C_join i -> kill_threads (queue s) = true) ->
  inv (set_client c pc' (s <| finish_lock := b |>)).
Proof.
  intros [] Hc Hok Hown Hpend (Hst1 & Hst2 & Hst3) Hfl Hsp Hk Has Hjoin. unfold set_client.
  split; cbn; try assumption; sums; try assumption; try lia.
  - intros c' pc'' H. on_thread H; [assumption | eauto].
  - intros f. unfold owners. cbn. sums. rewrite Hown. specialize (i_owners f). unfold owners, live in *. cbn. lia.
  - intros Hcl f. unfold owners. cbn. sums. rewrite Hown. specialize (i_owners_eq Hcl f). unfold owners, live in *. cbn. lia.
  - intros c' i Hv. destruct (decide (c = c')) as [<-|Hne].
    + destruct (Hst2 i Hv) as (a & r & w & H1 & H2). exists pc', a, r, w. repeat split; try assumption.
      apply list_lookup_insert_eq. now apply lookup_lt_Some in Hc.
    + destruct (i_finish_fences c' i Hv) as (pc'' & a & r & w & H1 & H2 & H3). exists pc'', a, r, w.
      rewrite list_lookup_insert_ne by assumption. auto.
  - intros c' pc'' a r w H Hs. on_thread H; [exact (Hst1 a r w Hs) | exact (i_stage c' pc'' a r w H Hs)].
  - intros Hkt c' pc'' H. on_thread H; [|eauto]. split; auto.
  - intros c' i H. on_thread H; [eapply Hjoin; reflexivity | eauto].
  - intros c' f t k H. sums. on_thread H; [left; eapply Has; reflexivity|].
    specialize (i_asleep c' f t k H). destruct (Hpend f) as [->|Hn]; [lia | now apply Hn in H].
  - intros Hkt. specialize (i_space Hkt). specialize (Hsp Hkt).
    pose proof (total_nonneg woken_c (<[c := pc']> (clients s)) (fun pc => proj1 (woken_c_bound pc))) as Hp.
    rewrite (total_insert _ _ _ _ _ Hc) in Hp. lia.
Qed.

Lemma set_client_eta s c pc : set_client c pc (s <| finish_lock := finish_lock s |>) = set_client c pc s.
Proof. reflexivity. Qed.

(** A client that moves inside a function, or in or out of one that is not
    [util_queue_finish]. *)
Lemma move_client s c pc pc' :
  inv s -> clients s !! c = Some pc -> client_ok c pc' ->
  (forall f, own_c f pc' = own_c f pc) -> (forall f, pend_c f pc' = pend_c f pc \/ no_sleeper s f) ->
  (forall n, stage n pc' = stage n pc) -> holds_finish pc' = holds_finish pc ->
  (kill_threads (queue s) = false ->
   (blocked_c pc' <= blocked_c pc /\ woken_c pc <= woken_c pc') \/ num_queued (queue s) = max_jobs (queue s)) ->
  (kill_threads (queue s) = true -> blocked_c pc' = 0 /\ woken_c pc' = 0) ->
  (forall f t k, pc' = C_asleep f t k -> fence_val (fences s) f = 2) ->
  (forall i, pc' = C_join i -> kill_threads (queue s) = true) ->
  inv (set_client c pc' s).
Proof.
  intros. rewrite <- set_client_eta. eapply set_client_inv; eauto using stage_ok_same. lia.
Qed.

(** ** Wake-ups *)

Lemma total_Forall2 {A} (R : A -> A -> Prop) (g h : A -> Z) l l' :
  Forall2 R l l' -> (forall x y, R x y -> g x <= h y) -> total g l <= total h l'.
Proof. intros H Hg. induction H; cbn; [lia|]. specialize (Hg _ _ H). lia. Qed.

Lemma total_Forall2_eq {A} (R : A -> A -> Prop) (g : A -> Z) l l' :
  Forall2 R l l' -> (forall x y, R x y -> g x = g y) -> total g l = total g l'.
Proof. intros H Hg. induction H; cbn; [reflexivity|]. rewrite (Hg _ _ H), IHForall2. reflexivity. Qed.

(** [pc'] is the thread [pc], possibly woken. *)
Definition woken_worker (pc pc' : worker) : Prop :=
  pc' = pc \/ wake_queued pc = Some pc' \/ exists j seq, pc = W_barrier j seq false /\ pc' = W_barrier j seq true.
Definition woken_client (pc pc' : client) : Prop :=
  pc' = pc \/ wake_space pc = Some pc' \/ exists f t k, pc = C_asleep f t k /\ pc' = C_reload f t k.

Ltac wake_cases H :=
  destruct H as [->|[H|H]]; [reflexivity|..];
  [match type of H with _ ?pc = Some _ => destruct pc; try discriminate H end; injection H as <-; reflexivity
  |repeat match type of H with exists _, _ => destruct H as [? H] end; destruct H as [-> ->]; reflexivity].

Lemma woken_worker_same pc pc' : woken_worker pc pc' ->
  (forall f, own_w f pc = own_w f pc') /\ (forall f, pend_w f pc = pend_w f pc') /\ exiting pc = exiting pc' /\ over pc = over pc' /\
  (forall c, run_w c pc = run_w c pc') /\ (forall c, bar_w c pc = bar_w c pc') /\ (forall q, worker_ok q pc = worker_ok q pc').
Proof. intros H. repeat split; intros; wake_cases H. Qed.

Lemma woken_worker_less pc pc' : woken_worker pc pc' ->
  blocked_w pc' <= blocked_w pc /\ ready_w pc <= ready_w pc' /\ forall c, sleep_w c pc' <= sleep_w c pc.
Proof.
  intros [->|[H|(j & seq & -> & ->)]]; [repeat split; reflexivity| |].
  - destruct pc; try discriminate H. injection H as <-. cbn. repeat split; intros; lia.
  - cbn. repeat split; try lia. intros c. pose proof (fin_bound c j). lia.
Qed.

Lemma woken_client_same pc pc' : woken_client pc pc' ->
  (forall f, own_c f pc = own_c f pc') /\ (forall f, pend_c f pc = pend_c f pc') /\ holds_finish pc = holds_finish pc' /\
  (forall n, stage n pc = stage n pc') /\ (forall c, client_ok c pc = client_ok c pc') /\
  blocked_c pc + woken_c pc = blocked_c pc' + woken_c pc'.
Proof. intros H. repeat split; intros; wake_cases H. Qed.

Lemma woken_client_less pc pc' : woken_client pc pc' ->
  blocked_c pc' <= blocked_c pc /\ woken_c pc <= woken_c pc' /\ (forall f t k, pc' = C_asleep f t k -> pc = C_asleep f t k) /\ (forall i, pc' = C_join i -> pc = C_join i).
Proof.
  intros [->|[H|(f & t & k & -> & ->)]]; [repeat split; (reflexivity || auto) | |].
  - destruct pc; try discriminate H. injection H as <-. cbn. repeat split; (lia || discriminate).
  - cbn. repeat split; (lia || discriminate).
Qed.

Lemma wake_workers_inv s ws : inv s -> Forall2 woken_worker (workers s) ws -> inv (s <| workers := ws |>).
Proof.
  intros [] Hw. pose proof (Forall2_length Hw) as Hlen.
  assert (Hl : len ws = len (workers s)) by (unfold len; now rewrite Hlen).
  assert (Heq : forall g, (forall x y, woken_worker x y -> g x = g y) -> total g ws = total g (workers s)) by
    (intros; symmetry; eapply total_Forall2_eq; eassumption).
  assert (Hown : forall f, total (own_w f) ws = total (own_w f) (workers s)) by (intros; apply Heq; intros; now apply woken_worker_same).
  assert (Hbl : total blocked_w ws <= total blocked_w (workers s)).
  { eapply (total_Forall2 (fun x y => woken_worker y x)); [now apply Forall2_flip | intros; now apply woken_worker_less]. }
  assert (Hrd : total ready_w (workers s) <= total ready_w ws) by (eapply total_Forall2; [eassumption | intros; now apply woken_worker_less]).
  split; cbn; rewrite <- ?Hlen, ?Hl; try assumption.
  - rewrite Heq; [assumption | intros; now apply woken_worker_same].
  - intros Hk. rewrite Heq; [auto | intros; now apply woken_worker_same].
  - intros w pc' H. destruct (Forall2_lookup_r _ _ _ _ _ Hw H) as (pc & H1 & H2).
    rewrite <- (proj2 (proj2 (proj2 (proj2 (proj2 (proj2 (woken_worker_same pc pc' H2))))))). eauto.
  - intros f. unfold owners. cbn. rewrite Hown. exact (i_owners f).
  - intros Hc f. unfold owners. cbn. rewrite Hown. exact (i_owners_eq Hc f).
  - intros c pc a r w Hc Hst. destruct (i_stage c pc a r w Hc Hst) as (? & ? & ? & Hb).
    refine (conj _ (conj _ (conj _ _))); try assumption. unfold barrier_ok, barrier_of in *. cbn in *. rewrite Hl.
    rewrite (Heq (run_w c)), (Heq (bar_w c)) by (intros; now apply woken_worker_same).
    assert (total (sleep_w c) ws <= total (sleep_w c) (workers s)).
    { eapply (total_Forall2 (fun x y => woken_worker y x)); [now apply Forall2_flip | intros; now apply woken_worker_less]. }
    pose proof (total_nonneg (sleep_w c) ws (fun pc => proj1 (sleep_w_bound c pc))). lia.
  - intros c f t k Hc. rewrite Heq; [eauto | intros; now apply woken_worker_same].
  - intros Hk Hb. specialize (i_queued Hk). lia.
Qed.

Lemma wake_clients_inv s cs : inv s -> Forall2 woken_client (clients s) cs -> inv (s <| clients := cs |>).
Proof.
  intros [] Hw.
  assert (Heq : forall g, (forall x y, woken_client x y -> g x = g y) -> total g cs = total g (clients s)) by
    (intros; symmetry; eapply total_Forall2_eq; eassumption).
  assert (Hown : forall f, total (own_c f) cs = total (own_c f) (clients s)) by (intros; apply Heq; intros; now apply woken_client_same).
  assert (Hbl : total blocked_c cs <= total blocked_c (clients s)).
  { eapply (total_Forall2 (fun x y => woken_client y x)); [now apply Forall2_flip | intros; now apply woken_client_less]. }
  assert (Hrd : total woken_c (clients s) <= total woken_c cs) by (eapply total_Forall2; [eassumption | intros; now apply woken_client_less]).
  assert (Hback : forall c pc', cs !! c = Some pc' -> exists pc, clients s !! c = Some pc /\ woken_client pc pc').
  { intros c pc' H. exact (Forall2_lookup_r _ _ _ _ _ Hw H). }
  split; cbn; try assumption.
  - intros c pc' H. destruct (Hback c pc' H) as (pc & H1 & H2).
    destruct (woken_client_same _ _ H2) as (_ & _ & _ & _ & Hok & _). rewrite <- Hok. eauto.
  - intros f. unfold owners. cbn. rewrite Hown. exact (i_owners f).
  - intros Hc f. unfold owners. cbn. rewrite Hown. exact (i_owners_eq Hc f).
  - intros c i Hv. destruct (i_finish_fences c i Hv) as (pc & a & r & w & H1 & H2 & H3).
    destruct (Forall2_lookup_l _ _ _ _ _ Hw H1) as (pc' & H4 & H5). exists pc', a, r, w. split; [assumption|].
    destruct (woken_client_same _ _ H5) as (_ & _ & _ & Hst & _). now rewrite <- Hst.
  - intros c pc' a r w H Hs. destruct (Hback c pc' H) as (pc & H1 & H2).
    destruct (woken_client_same _ _ H2) as (_ & _ & _ & Hst & _). rewrite <- Hst in Hs. exact (i_stage c pc a r w H1 Hs).
  - intros Hk c pc' H. destruct (Hback c pc' H) as (pc & H1 & H2). destruct (i_kill Hk c pc H1) as (H3 & H4 & H5).
    destruct (woken_client_same _ _ H2) as (_ & _ & _ & Hst & _ & Hbw). rewrite <- Hst.
    pose proof (blocked_c_bound pc'). pose proof (woken_c_bound pc'). repeat split; (assumption || lia).
  - intros c i H. destruct (Hback c _ H) as (pc & H1 & H2).
    destruct (woken_client_less _ _ H2) as (_ & _ & _ & Ha). rewrite (Ha _ eq_refl) in H1. eauto.
  - intros c f t k H. destruct (Hback c _ H) as (pc & H1 & H2).
    destruct (woken_client_less _ _ H2) as (_ & _ & Ha & _). rewrite (Ha _ _ _ eq_refl) in H1.
    rewrite (Heq (pend_c f)); [eauto | intros; now apply woken_client_same].
  - intros Hk Hb. specialize (i_space Hk). lia.
  - rewrite Heq; [assumption | intros; now apply woken_client_same].
Qed.

Lemma cnd_signal_spec {A} (wake : A -> option A) choice l l' : cnd_signal wake choice l = Some l' ->
  (exists i x y, l !! i = Some x /\ wake x = Some y /\ l' = <[i := y]> l) \/
  (l' = l /\ forall i x, l !! i = Some x -> wake x = None).
Proof.
  unfold cnd_signal. destruct choice as [i|].
  - destruct (l !! i) as [x|] eqn:Hx; cbn; [|discriminate]. destruct (wake x) as [y|] eqn:Hy; cbn; [|discriminate].
    intros [= <-]. left. eauto 10.
  - destruct (forallb _ l) eqn:Hf; [|discriminate]. intros [= <-]. right. split; [reflexivity|]. intros i x Hx.
    pose proof (proj1 (forallb_forall _ _) Hf x) as H. specialize (H ltac:(eapply list_elem_of_In, list_elem_of_lookup_2; eassumption)).
    cbn in H. destruct (wake x); [discriminate H | reflexivity].
Qed.

Lemma Forall2_insert_refl {A} (R : A -> A -> Prop) l i x y :
  (forall x, R x x) -> l !! i = Some x -> R x y -> Forall2 R l (<[i := y]> l).
Proof.
  intros Hr Hl Hxy. apply Forall2_lookup. intros k. destruct (decide (i = k)) as [<-|Hne].
  - rewrite Hl, list_lookup_insert_eq by (now apply lookup_lt_Some in Hl). now constructor.
  - rewrite list_lookup_insert_ne by assumption. destruct (l !! k); constructor. apply Hr.
Qed.

Lemma Forall2_map_refl {A} (R : A -> A -> Prop) (f : A -> A) l : (forall x, R x (f x)) -> Forall2 R l (map f l).
Proof. intros H. induction l; cbn; constructor; auto. Qed.

Lemma Forall2_self {A} (R : A -> A -> Prop) l : (forall x, R x x) -> Forall2 R l l.
Proof. intros H. induction l; constructor; auto. Qed.

Lemma woken_client_refl pc : woken_client pc pc.
Proof. now left. Qed.
Lemma woken_worker_refl pc : woken_worker pc pc.
Proof. now left. Qed.
#[local] Hint Resolve woken_client_refl woken_worker_refl : core.

(** [cnd_signal(&queue->has_space_cond)] wakes a client if one is blocked. *)
Lemma signal_space choice cs cs' : cnd_signal wake_space choice cs = Some cs' ->
  Forall2 woken_client cs cs' /\ (0 < total blocked_c cs' -> 0 < total blocked_c cs /\ total woken_c cs' = total woken_c cs + 1).
Proof.
  intros H. destruct (cnd_signal_spec _ _ _ _ H) as [(i & x & y & Hx & Hy & ->)|[-> Hn]].
  - split; [eapply Forall2_insert_refl; eauto; right; left; assumption|]. sums.
    pose proof (total_lookup blocked_c cs i x (fun pc => proj1 (blocked_c_bound pc)) Hx).
    destruct x; try discriminate Hy. injection Hy as <-. cbn in *. lia.
  - split; [now apply Forall2_self|]. rewrite total_all_zero; [lia|]. intros i x Hx. specialize (Hn i x Hx). destruct x; (reflexivity || discriminate).
Qed.

(** [cnd_signal(&queue->has_queued_cond)] wakes a thread if one is blocked. *)
Lemma signal_queued choice ws ws' : cnd_signal wake_queued choice ws = Some ws' ->
  Forall2 woken_worker ws ws' /\ (0 < total blocked_w ws' -> 0 < total blocked_w ws /\ total ready_w ws' = total ready_w ws + 1).
Proof.
  intros H. destruct (cnd_signal_spec _ _ _ _ H) as [(i & x & y & Hx & Hy & ->)|[-> Hn]].
  - split; [eapply Forall2_insert_refl; eauto; right; left; assumption|]. sums.
    pose proof (total_lookup blocked_w ws i x (fun pc => proj1 (blocked_w_bound pc)) Hx).
    destruct x; try discriminate Hy. injection Hy as <-. cbn in *. lia.
  - split; [now apply Forall2_self|]. rewrite total_all_zero; [lia|]. intros i x Hx. specialize (Hn i x Hx). destruct x; (reflexivity || discriminate).
Qed.

Lemma futex_wake_inv f s : inv s -> inv (futex_wake f s) /\ no_sleeper (futex_wake f s) f.
Proof.
  intros Hs. split.
  - apply wake_clients_inv; [assumption|]. apply Forall2_map_refl. intros pc. destruct pc; cbn; auto.
    destruct (decide _); cbn; auto. right. right. eauto 10.
  - intros c t k H. cbn in H. unfold cnd_broadcast in H. rewrite list_lookup_fmap in H.
    destruct (clients s !! c) as [pc|]; [|discriminate]. cbn in H. injection H as H.
    destruct pc; try discriminate H. cbn in H. destruct (decide _); cbn in H; congruence.
Qed.

Lemma futex_wake_client f s c pc : clients s !! c = Some pc -> wake_futex f pc = None -> clients (futex_wake f s) !! c = Some pc.
Proof. intros H Hw. cbn. unfold cnd_broadcast. rewrite list_lookup_fmap, H. cbn. now rewrite Hw. Qed.

(** ** A thread takes a job *)

(** The effect on the invariant of taking [j] out of the ring, once a client
    has been woken. *)
Lemma take_inv s w pc j q' :
  inv s -> kill_threads (queue s) = false -> 0 < num_queued (queue s) -> workers s !! w = Some pc -> ready_w pc = 1 ->
  (0 < total blocked_c (clients s) -> max_jobs (queue s) - num_queued (queue s) + 1 <= total woken_c (clients s)) ->
  take_job (queue s) = (j, q') ->
  inv (set_worker w (if is_null (job j) then W_top else W_run j) (s <| queue := q' |>)).
Proof.
  intros Hs Hk Hn Hw Hr Hsp Ht. pose proof (take_job_spec (queue s) (i_ring s Hs) Hn) as H. rewrite Ht in H.
  destruct H as (Hc & Hring & Hcl & (Hfl & Hnt & Hkt) & Hmax & Hnum). destruct Hs.
  set (pc' := if is_null (job j) then W_top else W_run j).
  assert (Hown : forall f, own_w f pc' = hit f j) by (intros; unfold pc', hit; destruct (is_null (job j)) eqn:E; cbn; [|unfold hit; rewrite E]; reflexivity).
  assert (Hrun : forall c, run_w c pc' = fin c j).
  { intros; unfold pc', fin. destruct (job j) eqn:E; cbn; unfold fin; rewrite ?E; reflexivity. }
  assert (Hz : (forall f, own_w f pc = 0) /\ (forall f, pend_w f pc = 0) /\ exiting pc = 0 /\ over pc = 0 /\
    (forall c, run_w c pc = 0 /\ bar_w c pc = 0 /\ sleep_w c pc = 0) /\ blocked_w pc = 0) by (destruct pc; try discriminate Hr; repeat split; reflexivity).
  assert (Hz' : (forall f, pend_w f pc' = 0) /\ exiting pc' = 0 /\ over pc' = 0 /\
    (forall c, bar_w c pc' = 0 /\ sleep_w c pc' = 0) /\ blocked_w pc' = 0) by (unfold pc'; destruct (is_null _); repeat split; reflexivity).
  destruct Hz as (Ho & Hp & He & Hov & Hb & Hbl), Hz' as (Hp' & He' & Hov' & Hb' & Hbl').
  rewrite Hc in i_jobs, i_null. apply Forall_cons_1 in i_jobs as [Hj Hjs].
  specialize (i_clean Hk). specialize (i_owners_eq i_clean).
  assert (HO : forall f, owners (set_worker w pc' (s <| queue := q' |>)) f = live s f).
  { intros f. rewrite <- i_owners_eq. unfold owners. cbn. sums. rewrite Hc, Hown, Ho. cbn. lia. }
  unfold set_worker in *.
  split; cbn; try assumption; sums; rewrite ?Hkt, ?Hnt, ?Hmax, ?Hnum; try assumption; try lia; auto.
  - intros _. specialize (i_over Hk). lia.
  - intros Hlk. specialize (i_null Hlk). now apply Forall_cons_1 in i_null as [_ ?].
  - intros w' pc'' H. on_thread H.
    + unfold pc'. destruct (job j) eqn:E; cbn; [exact I | rewrite E; split; [discriminate | assumption]..].
    + specialize (i_workers _ _ H). specialize (i_over Hk).
      pose proof (total_zero over (workers s) w' pc'' (fun pc => proj1 (over_bound pc)) ltac:(lia) H). destruct pc''; cbn in *; (assumption || discriminate).
  - intros f. rewrite HO. reflexivity.
  - intros c pc'' a r w' H1 H2. destruct (i_stage c pc'' a r w' H1 H2) as (? & ? & ? & HB).
    refine (conj _ (conj _ (conj _ _))); try assumption. unfold barrier_ok, barrier_of in *. cbn in *. sums.
    rewrite Hc in HB. cbn in HB. rewrite Hrun. destruct (Hb c) as (-> & -> & ->), (Hb' c) as (-> & ->).
    pose proof (total_nonneg (fin c) (contents q') (fun j => proj1 (fin_bound c j))). pose proof (fin_bound c j). lia.
  - intros c f t k H. sums. rewrite Hp, Hp'. specialize (i_asleep c f t k H). lia.
  - intros _. rewrite Hr, Hbl, Hbl'. specialize (i_queued Hk). pose proof (ready_w_bound pc'). lia.
Qed.

(** Two program counters at which a thread holds no job. *)
Ltac no_job := intros; repeat split; auto; try reflexivity; try (left; reflexivity); try lia; try discriminate.

Lemma get_job_inv s w pc choice : inv s -> workers s !! w = Some pc -> ready_w pc = 1 -> good (Ret (get_job w choice s)).
Proof.
  intros Hs Hw Hr. unfold get_job. destruct (kill_threads (queue s)) eqn:Hk; cbn [negb andb].
  - apply (set_worker_inv s w pc W_exit Hs Hw); destruct pc; try discriminate Hr; cbn; no_job; congruence.
  - destruct (Z.eqb_spec (num_queued (queue s)) 0) as [Hn|Hn].
    + apply (set_worker_inv s w pc W_blocked Hs Hw); destruct pc; try discriminate Hr; cbn; no_job.
    + destruct (take_job (queue s)) as [j q'] eqn:Ht. destruct (cnd_signal _ _ _) as [cs|] eqn:Hcs; [|exact I]. cbn.
      apply inv_emit. destruct (signal_space _ _ _ Hcs) as [Hf Hb].
      assert (Hs' : inv (s <| clients := cs |>)) by now apply wake_clients_inv.
      pose proof (ring_num _ (i_ring s Hs)).
      apply (take_inv (s <| clients := cs |>) w pc j q' Hs'); cbn; try assumption; [lia|].
      intros H'. destruct (Hb H'). pose proof (i_space s Hs Hk). lia.
Qed.

(** ** A fence is signalled *)

Lemma fence_val_insert fs f v f' : fence_val (<[f := v]> fs) f' = if decide (f = f') then v else fence_val fs f'.
Proof.
  unfold fence_val. destruct (decide (f = f')) as [<-|Hne]; [now rewrite lookup_insert_eq | now rewrite lookup_insert_ne].
Qed.

Lemma live_insert s f v f' :
  live (s <| fences := <[f := v]> (fences s) |>) f' = if decide (f = f') then indicator (negb (v =? 0)) else live s f'.
Proof. unfold live, util_queue_fence_is_signalled. cbn. rewrite fence_val_insert. destruct (decide _); reflexivity. Qed.

(** [util_queue_fence_signal] by a thread that owns the fence. *)
Lemma signal_worker_inv s w pc pc1 pc2 f :
  inv s -> workers s !! w = Some pc -> (forall f', own_w f' pc = indicator (bool_decide (f = f'))) ->
  (forall f', own_w f' pc1 = 0 /\ own_w f' pc2 = 0) ->
  (forall f', pend_w f' pc1 = indicator (bool_decide (f = f')) /\ pend_w f' pc = 0 /\ pend_w f' pc2 = 0) ->
  worker_ok (queue s) pc1 -> worker_ok (queue s) pc2 ->
  (forall p, p = pc1 \/ p = pc2 \/ p = pc -> exiting p = 0 /\ over p = 0 /\ blocked_w p = 0 /\ ready_w p = 0 /\
     forall c, run_w c p = 0 /\ bar_w c p = 0 /\ sleep_w c p = 0) ->
  good (let! (wake, fs) := util_queue_fence_signal (fences s) f in
        Ret (Some (set_worker w (if (wake : bool) then pc1 else pc2) (s <| fences := fs |>)))).
Proof.
  intros Hs Hw Hown Hown' Hpend Hok1 Hok2 Hz. unfold util_queue_fence_signal.
  assert (Hv : fence_val (fences s) f <> 0) by (eapply worker_owner; [eassumption..|]; rewrite Hown, bool_decide_true by reflexivity; reflexivity).
  rewrite (proj2 (Z.eqb_neq _ _) Hv). cbn [negb c_assert obind good].
  set (pc' := if fence_val (fences s) f =? 2 then pc1 else pc2).
  assert (Hpc : pc' = pc1 \/ pc' = pc2 \/ pc' = pc) by (unfold pc'; destruct (_ =? _); auto).
  destruct (Hz pc' Hpc) as (He' & Hov' & Hb' & Hr' & Hc'), (Hz pc ltac:(auto)) as (He & Hov & Hb & Hr & Hc).
  assert (Ho' : forall f', own_w f' pc' = 0) by (intros f'; unfold pc'; destruct (_ =? _); apply Hown').
  assert (Hp : forall f', pend_w f' pc = 0 /\ 0 <= pend_w f' pc' /\ (f = f' -> fence_val (fences s) f = 2 -> pend_w f' pc' = 1)).
  { intros f'. unfold pc'. destruct (Hpend f') as (H1 & H2 & H3). split; [assumption|]. split; [apply pend_w_bound|].
    intros <- ->. cbn. rewrite H1. now rewrite bool_decide_true. }
  assert (Hok : worker_ok (queue s) pc') by (unfold pc'; now destruct (_ =? _)).
  clearbody pc'. clear Hpc Hpend Hz Hown' Hok1 Hok2 pc1 pc2. destruct Hs.
  assert (HO : forall f', owners (set_worker w pc' (s <| fences := <[f := 0]> (fences s) |>)) f' - live (s <| fences := <[f := 0]> (fences s) |>) f' = owners s f' - live s f').
  { intros f'. rewrite live_insert. unfold owners. cbn. sums. rewrite Hown, Ho'. unfold live, util_queue_fence_is_signalled.
    destruct (decide (f = f')) as [<-|Hne]; [rewrite bool_decide_true by reflexivity; rewrite (proj2 (Z.eqb_neq _ _) Hv)|rewrite bool_decide_false by assumption]; cbn; lia. }
  unfold set_worker in *. split; cbn; try assumption; sums; try assumption; try lia.
  - intros Hk. specialize (i_over Hk). lia.
  - intros w' pc'' H. on_thread H; [assumption | eauto].
  - intros f'. rewrite fence_val_insert. destruct (decide _); [lia | apply i_vals].
  - intros f'. specialize (HO f'). specialize (i_owners f'). unfold live in *. cbn in *. lia.
  - intros Hcl f'. specialize (HO f'). specialize (i_owners_eq Hcl f'). unfold live in *. cbn in *. lia.
  - intros c i. rewrite fence_val_insert. destruct (decide _); [lia | apply i_finish_fences].
  - intros c pc'' a r w' H1 H2. destruct (i_stage c pc'' a r w' H1 H2) as (? & ? & Hw' & HB).
    refine (conj _ (conj _ (conj _ _))); try assumption.
    + intros i Hi. rewrite fence_val_insert. destruct (decide _); [reflexivity | auto].
    + unfold barrier_ok, barrier_of in *. cbn in *. sums. destruct (Hc c) as (-> & -> & ->), (Hc' c) as (-> & -> & ->).
      rewrite !Z.sub_0_r, !Z.add_0_r. exact HB.
  - intros c f' t k H. sums. rewrite fence_val_insert. specialize (i_asleep c f' t k H). destruct (Hp f') as (-> & H0 & H1).
    pose proof (total_nonneg (pend_w f') (workers s) (fun pc => proj1 (pend_w_bound f' pc))).
    pose proof (total_nonneg (pend_c f') (clients s) (fun pc => proj1 (pend_c_bound f' pc))).
    destruct (decide (f = f')) as [<-|Hne]; [|lia]. destruct i_asleep as [Hs2|Hs2]; [rewrite H1 by auto|]; lia.
  - intros Hk. specialize (i_queued Hk). lia.
Qed.

(** ** The barrier *)

Lemma barrier_of_insert s s' c b c' : barriers s' = <[c := b]> (barriers s) ->
  barrier_of s' c' = if decide (c = c') then b else barrier_of s c'.
Proof.
  intros H. unfold barrier_of. rewrite H. destruct (decide _) as [<-|]; [now rewrite lookup_insert_eq | now rewrite lookup_insert_ne].
Qed.

(** A thread in [util_queue_finish_execute] moves on, with the barrier of the
    client changed to [b]. *)
Lemma arrive_inv s w c i b pc' :
  let j := finish_job c i in
  let s' := set_worker w pc' (s <| barriers := <[c := b]> (barriers s) |>) in
  inv s -> workers s !! w = Some (W_run j) -> pc' = W_barrier j 0 false \/ pc' = W_signal j ->
  (forall a, barrier_ok s c a -> barrier_ok s' c a) -> inv s'.
Proof.
  intros j s' [] Hw Hpc Hb.
  assert (Hz : (forall f, own_w f pc' = hit f j) /\ (forall f, pend_w f pc' = 0) /\ exiting pc' = 0 /\ over pc' = 0 /\
    blocked_w pc' = 0 /\ ready_w pc' = 0 /\ worker_ok (queue s) pc' /\
    (forall c', c <> c' -> run_w c' pc' = 0 /\ bar_w c' pc' = 0 /\ sleep_w c' pc' = 0)).
  { unfold j in *. destruct Hpc as [-> | ->]; cbn; repeat split; try reflexivity; try discriminate; eauto;
      try (now rewrite fin_finish, bool_decide_false); try (right; right; exists c, i; reflexivity). }
  destruct Hz as (Ho & Hp & He & Hov & Hbl & Hr & Hok & Hc').
  unfold s', set_worker in *. split; cbn; try assumption; sums; cbn [exiting over own_w pend_w blocked_w ready_w]; try assumption; try lia.
  - intros Hk. specialize (i_over Hk). lia.
  - intros w' pc'' H. on_thread H; [assumption | eauto].
  - intros f. unfold owners. cbn. sums. rewrite Ho. specialize (i_owners f). unfold owners, live in *. cbn in *. lia.
  - intros Hc f. unfold owners. cbn. sums. rewrite Ho. specialize (i_owners_eq Hc f). unfold owners, live in *. cbn in *. lia.
  - intros c' pc'' a r w' H1 H2. destruct (i_stage c' pc'' a r w' H1 H2) as (? & ? & ? & HB).
    refine (conj _ (conj _ (conj _ _))); try assumption.
    destruct (decide (c = c')) as [<-|Hne]; [now apply Hb|].
    unfold barrier_ok in *. rewrite (barrier_of_insert s _ c b c') by reflexivity. rewrite decide_False by assumption.
    cbn in *. sums. destruct (Hc' c' Hne) as (-> & -> & ->). cbn. unfold j. rewrite !fin_finish, bool_decide_false by assumption.
    rewrite !Z.sub_0_r, !Z.add_0_r. exact HB.
  - intros c' f t k H. sums. rewrite Hp. specialize (i_asleep c' f t k H). cbn. lia.
  - intros Hk. specialize (i_queued Hk). cbn. lia.
Qed.

(** The client of a finish job that a thread holds is in
    [util_queue_finish]. *)
Lemma held_stage s w pc c i : inv s -> workers s !! w = Some pc -> own_w (finish_fence c i) pc = 1 ->
  exists a, barrier_ok s c a /\ (a <= length (workers s))%nat.
Proof.
  intros Hs Hw Ho. pose proof (worker_owner s Hs w pc (finish_fence c i) Hw Ho) as Hv.
  destruct (i_finish_fences s Hs c i Hv) as (pc' & a & r & w' & H1 & H2 & _).
  destruct (i_stage s Hs c pc' a r w' H1 H2) as (Ha & _ & _ & HB). eauto.
Qed.

Lemma hit_self c i : hit (finish_fence c i) (finish_job c i) = 1.
Proof. rewrite hit_finish, bool_decide_true by reflexivity. reflexivity. Qed.

Lemma fin_self c i : fin c (finish_job c i) = 1.
Proof. rewrite fin_finish, bool_decide_true by reflexivity. reflexivity. Qed.

(** While a thread has yet to arrive, the barrier is not released and less than
    all threads wait. *)
Lemma arriving s w c i a : workers s !! w = Some (W_run (finish_job c i)) -> barrier_ok s c a ->
  let b := barrier_of s c in
  sequence b = 0 /\ count b = len (workers s) /\ 0 <= waiters b < count b /\ waiters b = total (bar_w c) (workers s) /\
  total (fin c) (contents (queue s)) + total (run_w c) (workers s) + total (bar_w c) (workers s) = Z.of_nat a /\
  1 <= total (run_w c) (workers s) /\ total (run_w c) (workers s) + total (bar_w c) (workers s) <= len (workers s).
Proof.
  intros Hw [Hc HB]. pose proof (total_lookup (run_w c) _ _ _ (fun pc => proj1 (run_w_bound c pc)) Hw) as H1.
  cbn in H1. rewrite fin_self in H1. cbn.
  assert (Hle : total (fun pc => run_w c pc + bar_w c pc) (workers s) <= len (workers s)).
  { apply total_le_len. intros [] ; cbn; rewrite ?Z.add_0_r; try lia; apply fin_bound. }
  rewrite total_plus in Hle.
  pose proof (total_nonneg (bar_w c) (workers s) (fun pc => proj1 (bar_w_bound c pc))).
  destruct HB as [HB|HB]; cbn in *; [|lia]. repeat split; lia.
Qed.

Lemma broadcast_barrier_wakes c ws : Forall2 woken_worker ws (cnd_broadcast (wake_barrier c) ws) /\
  total (sleep_w c) (cnd_broadcast (wake_barrier c) ws) = 0.
Proof.
  split.
  - apply Forall2_map_refl. intros pc. destruct pc; cbn; auto. destruct awake; cbn; auto. destruct (decide _); cbn; auto.
    right. right. eauto.
  - apply total_map_drop. intros pc. destruct pc; cbn; try reflexivity. destruct awake; [reflexivity|].
    destruct (decide _); [reflexivity|]. cbn. unfold fin. now rewrite bool_decide_false.
Qed.

Lemma finish_execute_inv s w c i : inv s -> workers s !! w = Some (W_run (finish_job c i)) ->
  good (finish_execute w c (finish_job c i) s).
Proof.
  intros Hs Hw. destruct (held_stage s w _ c i Hs Hw (hit_self c i)) as (a & HB & Ha). pose proof (i_threads s Hs) as Hthr.
  destruct (arriving s w c i a Hw HB) as (Hseq & Hcount & Hwait & Hbar & Hsum & Hrun & Hle).
  unfold finish_execute, util_barrier_arrive. rewrite (proj2 (Z.ltb_lt _ _)) by lia. cbn [c_assert]. cbn.
  rewrite !wrap_small by lia. destruct (Z.ltb_spec (waiters (barrier_of s c) + 1) (count (barrier_of s c))) as [Hlt|Hlt]; cbn [obind good].
  - replace (sequence _) with 0 by (symmetry; exact Hseq). apply (arrive_inv s w c i); auto. intros a' HB'.
    destruct (arriving s w c i a' Hw HB') as (? & ? & ? & ? & ? & ? & ?). unfold barrier_ok.
    erewrite (barrier_of_insert s _ c _ c) by reflexivity. rewrite decide_True by reflexivity. cbn. sums. cbn. rewrite fin_self.
    split; [lia|]. left. lia.
  - destruct (broadcast_barrier_wakes c (workers s)) as [Hf Hsl].
    pose proof (wake_workers_inv s _ Hs Hf) as Hs'. apply inv_emit. set (s1 := _ <| workers := _ |>) in Hs'.
    assert (Hw' : cnd_broadcast (wake_barrier c) (workers s) !! w = Some (W_run (finish_job c i))) by
      (unfold cnd_broadcast; rewrite list_lookup_fmap, Hw; reflexivity).
    apply (arrive_inv s1 w c i _ (W_signal (finish_job c i)) Hs' Hw' ltac:(auto)).
    intros a' HB'. pose proof (arriving s1 w c i a' Hw' HB') as (Hseq' & Hcount' & Hwait' & Hbar' & Hsum' & Hrun' & Hle').
    pose proof (total_nonneg (fin c) (contents (queue s)) (fun j => proj1 (fin_bound c j))).
    pose proof (total_Forall2_eq woken_worker (run_w c) _ _ Hf ltac:(intros; now apply woken_worker_same)) as E1.
    pose proof (total_Forall2_eq woken_worker (bar_w c) _ _ Hf ltac:(intros; now apply woken_worker_same)) as E2.
    unfold barrier_ok. erewrite (barrier_of_insert s _ c _ c) by reflexivity. rewrite decide_True by reflexivity.
    unfold barrier_of in *. cbn in *. sums. cbn. rewrite fin_self. unfold len in *. lia.
Qed.

(** ** A thread terminates *)

(** A thread in the last loop holds the lock, and the queue was told to
    terminate. *)
Lemma exiting_locked s w pc : inv s -> workers s !! w = Some pc -> exiting pc = 1 ->
  lock s = true /\ kill_threads (queue s) = true /\
  forall w' pc', workers s !! w' = Some pc' -> w <> w' -> exiting pc' = 0.
Proof.
  intros Hs Hw He. pose proof (total_lookup exiting _ _ _ (fun pc => proj1 (exiting_bound pc)) Hw).
  pose proof (i_lock s Hs) as Hl. destruct (lock s); cbn in Hl; [|lia]. split; [reflexivity|]. split.
  - destruct (kill_threads (queue s)) eqn:Hk; [reflexivity|]. pose proof (i_over s Hs Hk).
    pose proof (total_lookup over _ _ _ (fun pc => proj1 (over_bound pc)) Hw). destruct pc; cbn in *; lia.
  - intros w' pc' Hw' Hne.
    pose proof (total_lookup_2 exiting _ _ _ _ _ (fun pc => proj1 (exiting_bound pc)) Hne Hw Hw'). pose proof (exiting_bound pc'). lia.
Qed.

Lemma total_alter {A} (g : A -> Z) h l i x : l !! i = Some x -> total g (alter h i l) = total g l - g x + g (h x).
Proof.
  revert i. induction l as [|z l IH]; intros [|i] H; cbn in H; try discriminate.
  - injection H as ->. cbn. lia.
  - change (g z + total g (alter h i l) = g z + total g l - g x + g (h x)). rewrite (IH _ H). lia.
Qed.

(** The fence of the job at position [k] is signalled and the job removed. *)
Lemma exit_signal_inv s w k j pc' :
  let q' := (queue s) <| jobs := upd (pos (queue s) k) (fun j => j <| job := Null |>) (jobs (queue s)) |> in
  inv s -> workers s !! w = Some (W_exit_at (pos (queue s) k)) -> 0 <= k < num_queued (queue s) ->
  contents (queue s) !! Z.to_nat k = Some j -> job j <> Null -> exiting pc' = 1 -> worker_ok q' pc' ->
  (fence_val (fences s) (fence j) = 2 -> pend_w (fence j) pc' = 1) ->
  inv (set_worker w pc' (s <| fences := <[fence j := 0]> (fences s) |> <| queue := q' |>)).
Proof.
  intros q' Hs Hw Hk Hj Hn He Hok Hpend. destruct (exiting_locked s w _ Hs Hw eq_refl) as (Hl & Hkill & Hoth).
  destruct (replace_spec (queue s) k (fun j => j <| job := Null |>) (i_ring s Hs) Hk) as (Hc & Hr & _ & Hcl). fold q' in Hc, Hr, Hcl.
  assert (Hhit : forall f, hit f j = indicator (bool_decide (fence j = f))) by (intros; unfold hit; now destruct (job j)).
  assert (Hv : fence_val (fences s) (fence j) <> 0) by (eapply (queue_owner s Hs _ j); [eassumption|]; rewrite Hhit, bool_decide_true; reflexivity).
  assert (Hpc : (forall f, own_w f pc' = 0) /\ (forall f, 0 <= pend_w f pc')).
  { split; [destruct pc'; cbn in He; (lia || reflexivity) | intros; apply pend_w_bound]. }
  destruct Hpc as (Ho & Hp). destruct Hs.
  assert (HO : forall f, owners (set_worker w pc' (s <| fences := <[fence j := 0]> (fences s) |> <| queue := q' |>)) f -
      live (s <| fences := <[fence j := 0]> (fences s) |>) f = owners s f - live s f).
  { intros f. rewrite live_insert. unfold owners. cbn. sums. rewrite Hc, (total_alter _ _ _ _ _ Hj), Hhit, Ho. cbn.
    unfold live, util_queue_fence_is_signalled.
    destruct (decide (fence j = f)) as [<-|Hne]; [rewrite bool_decide_true by reflexivity; rewrite (proj2 (Z.eqb_neq _ _) Hv)|rewrite bool_decide_false by assumption]; cbn; lia. }
  unfold set_worker in *. split; cbn; try assumption; sums; try assumption; cbn [exiting]; try congruence; try lia; auto.
  - rewrite Hc. apply Forall_alter; [assumption|]. intros x _ _. now left.
  - intros w' pc'' H. on_thread H; [assumption|]. specialize (i_workers _ _ H). specialize (Hoth _ _ H E). destruct pc''; cbn in *; (assumption || discriminate).
  - intros f. rewrite fence_val_insert. destruct (decide _); [lia | apply i_vals].
  - intros f. specialize (HO f). specialize (i_owners f). unfold live in *. cbn in *. lia.
  - intros Hcl' f. specialize (HO f). enough (Hcs : clean (queue s)) by (specialize (i_owners_eq Hcs f); unfold live in *; cbn in *; lia).
    now apply Hcl.
  - intros c i. rewrite fence_val_insert. destruct (decide _); [lia | apply i_finish_fences].
  - intros c pc'' a r w' H1 H2. destruct (i_kill Hkill c pc'' H1). congruence.
  - intros c f t kk H. sums. rewrite fence_val_insert. specialize (i_asleep c f t kk H). specialize (Hp f). cbn.
    pose proof (total_nonneg (pend_w f) (workers s) (fun pc => proj1 (pend_w_bound f pc))).
    pose proof (total_nonneg (pend_c f) (clients s) (fun pc => proj1 (pend_c_bound f pc))).
    destruct (decide (fence j = f)) as [<-|Hne]; [|lia]. destruct i_asleep as [Hs2|Hs2]; [rewrite Hpend by auto|]; lia.
Qed.

(** The ring after the last loop: no job is queued. *)
Lemma emptied_ring q : ring_ok q ->
  let q' := q <| read_idx := write_idx q |> <| num_queued := 0 |> in
  contents q' = [] /\ ring_ok q' /\
  (clean q' -> forall k, 0 <= k < max_jobs q -> job (job_at q (pos q k)) = Null).
Proof.
  intros Hq q'. pose proof Hq as [Hmax Hlen Hread Hnum Hwrite].
  assert (Hr : 0 <= write_idx q < max_jobs q) by (rewrite Hwrite; now apply pos_range).
  split; [reflexivity|]. split.
  - split; cbn; try assumption; try lia. unfold pos. cbn. rewrite Z.add_0_r, Z.mod_small by lia. reflexivity.
  - intros Hc k Hk. specialize (Hc ((k - num_queued q) mod max_jobs q)). cbn in Hc.
    pose proof (Z.mod_pos_bound (k - num_queued q) (max_jobs q) ltac:(lia)). specialize (Hc ltac:(lia)).
    replace (pos q' ((k - num_queued q) mod max_jobs q)) with (pos q k) in Hc; [exact Hc|].
    unfold pos. cbn. rewrite Hwrite. unfold pos. rewrite Zplus_mod_idemp_l, Zplus_mod_idemp_r. f_equal. lia.
Qed.

Lemma exit_end_inv s w : inv s -> workers s !! w = Some (W_exit_at (write_idx (queue s))) ->
  inv (set_worker w W_done
        (s <| queue := (queue s) <| read_idx := write_idx (queue s) |> <| num_queued := 0 |> |> <| lock := false |>)).
Proof.
  intros Hs Hw. destruct (exiting_locked s w _ Hs Hw eq_refl) as (Hl & Hkill & Hoth).
  destruct (emptied_ring (queue s) (i_ring s Hs)) as (Hc & Hr & Hcl).
  set (q' := (queue s) <| read_idx := write_idx (queue s) |> <| num_queued := 0 |>) in *. destruct Hs.
  assert (HO : forall f, owners (set_worker w W_done (s <| queue := q' |> <| lock := false |>)) f = owners s f - total (hit f) (contents (queue s))).
  { intros f. unfold owners. cbn. sums. rewrite Hc. cbn. lia. }
  unfold set_worker in *. split; cbn; try assumption; sums; try congruence; cbn [exiting]; auto.
  - rewrite i_lock, Hl. reflexivity.
  - intros w' pc'' H. on_thread H; [exact I|]. specialize (i_workers _ _ H). specialize (Hoth _ _ H E). destruct pc''; cbn in *; (assumption || discriminate).
  - intros f. rewrite HO. specialize (i_owners f). unfold live in *. cbn.
    pose proof (total_nonneg (hit f) (contents (queue s)) (fun j => proj1 (hit_bound f j))). lia.
  - intros Hclean f. rewrite HO. specialize (Hcl Hclean).
    assert (Hnull : clean (queue s)) by (intros k Hk; apply Hcl; pose proof (ring_num _ i_ring); lia).
    specialize (i_owners_eq Hnull f). unfold live in *. cbn. rewrite (total_all_zero (hit f)); [lia|].
    intros k j Hj. rewrite contents_lookup in Hj. destruct (decide _); [|discriminate]. injection Hj as <-.
    pose proof (ring_num _ i_ring). unfold hit. rewrite Hcl by lia. reflexivity.
  - intros c pc'' a r w' H1 H2. destruct (i_kill Hkill c pc'' H1). congruence.
  - intros c f t kk H. sums. specialize (i_asleep c f t kk H). cbn. lia.
Qed.

Lemma exit_round_inv s w i : inv s -> workers s !! w = Some (W_exit_at i) -> good (exit_round w i s).
Proof.
  intros Hs Hw. destruct (i_workers s Hs w _ Hw) as (k & Hk & ->). pose proof (i_ring s Hs) as Hr. pose proof (ring_max _ Hr) as Hm.
  destruct (exiting_locked s w _ Hs Hw eq_refl) as (Hl & Hkill & _). unfold exit_round.
  destruct (Z.eqb_spec (pos (queue s) k) (write_idx (queue s))) as [E|E]; cbn [negb].
  { rewrite E in Hw. exact (exit_end_inv s w Hs Hw). }
  assert (Hlt : k < num_queued (queue s)) by (destruct (Z.eq_dec k (num_queued (queue s))) as [->|]; [|lia]; now rewrite (ring_write _ Hr) in E).
  assert (Hnext : next_unsigned (queue s) (pos (queue s) k) = pos (queue s) (k + 1)) by
    (rewrite next_unsigned_pos, pos_next by (try apply pos_range; assumption || lia); reflexivity).
  assert (Hj : contents (queue s) !! Z.to_nat k = Some (job_at (queue s) (pos (queue s) k))).
  { rewrite contents_lookup, decide_True by lia. now rewrite Z2Nat.id by lia. }
  rewrite Hnext. destruct (is_null (job (job_at (queue s) (pos (queue s) k)))) eqn:En; cbn [negb].
  - apply (set_worker_inv s w _ _ Hs Hw); cbn; no_job; [exists (k + 1); split; [lia | reflexivity] | congruence].
  - set (j := job_at (queue s) (pos (queue s) k)) in *.
    assert (Hn : job j <> Null) by (intros H; now rewrite H in En).
    assert (Hv : fence_val (fences s) (fence j) <> 0).
    { eapply (queue_owner s Hs _ j); [eassumption|]. unfold hit. now rewrite En, bool_decide_true. }
    unfold util_queue_fence_signal. rewrite (proj2 (Z.eqb_neq _ _) Hv). cbn [negb c_assert obind good].
    apply (exit_signal_inv s w k j); try assumption; destruct (Z.eqb_spec (fence_val (fences s) (fence j)) 2); try reflexivity; try congruence; try lia.
    + cbn. exists k. split; [lia | reflexivity].
    + cbn. exists (k + 1). split; [lia | reflexivity].
    + intros _. cbn. now rewrite bool_decide_true.
Qed.

(** ** All steps of a thread *)

Lemma hit_live f j : job j <> Null -> hit f j = indicator (bool_decide (fence j = f)).
Proof. unfold hit. destruct (job j); [congruence | reflexivity..]. Qed.

Lemma worker_step_inv s w choice : inv s -> good (worker_step w choice s).
Proof.
  intros Hs. unfold worker_step. destruct (workers s !! w) as [pc|] eqn:Hw; [|exact I].
  pose proof (i_workers s Hs w pc Hw) as Hok. destruct pc; cbn in Hok.
  - destruct (lock s); [exact I|]. pose proof (ring_num _ (i_ring s Hs)).
    unfold num_queued_ok. rewrite Z.geb_leb, (proj2 (Z.leb_le _ _)), (proj2 (Z.leb_le _ _)) by lia. now apply (get_job_inv s w W_top).
  - exact I.
  - destruct (lock s); [exact I|]. now apply (get_job_inv s w W_woken).
  - destruct Hok as [Hn [Hj|[Hj|(c & i & ->)]]]; [contradiction| |now apply finish_execute_inv].
    assert (Hgo : inv (emit (Ev_done w j) (set_worker w (W_signal j) s))).
    { apply inv_emit, (set_worker_inv s w (W_run j) _ Hs Hw); cbn; no_job; [right; left; assumption | now rewrite fin_user]. }
    destruct Hj as (a & b & e & Hjob & Hf & Hb & He). rewrite He. exact Hgo.
  - destruct Hok as [-> (c & i & ->)]. change (job (finish_job c i)) with (Barrier c). cbv iota. destruct awake; [|exact I]. cbn [good].
    destruct (Z.eqb_spec 0 (sequence (barrier_of s c))) as [E|E].
    + apply (set_worker_inv s w _ _ Hs Hw); cbn; no_job; eauto.
      destruct (decide (c0 = c)) as [->|Hne]; [now right|]. left. rewrite fin_finish, bool_decide_false by congruence. reflexivity.
    + apply inv_emit, (set_worker_inv s w _ _ Hs Hw); cbn; no_job.
      * right. right. now exists c, i.
      * destruct (decide (c0 = c)) as [->|Hne]; [right|left; now rewrite fin_finish, bool_decide_false].
        destruct (held_stage s w _ c i Hs Hw (hit_self c i)) as (a & [_ [HB|HB]] & _); lia.
  - destruct Hok as [Hn Hj]. apply (signal_worker_inv s w (W_signal j) (W_wake j) (W_cleanup j) (fence j) Hs Hw); cbn; auto.
    + intros f. now apply hit_live.
    + intros p [->|[->| ->]]; cbn; auto 10.
  - destruct (futex_wake_inv (fence j) s Hs) as [Hs' Hn]. apply (set_worker_inv _ w (W_wake j) (W_cleanup j) Hs' Hw); cbn; no_job.
    destruct (decide (fence j = f)) as [<-|Hne]; [now right | left; now rewrite bool_decide_false].
  - destruct (negb (cleanup j =? 0)); cbn [good]; [apply (set_worker_inv _ w (W_cleanup j) W_top (inv_emit _ s Hs) Hw)|
      apply (set_worker_inv s w (W_cleanup j) W_top Hs Hw)]; cbn; no_job.
  - destruct (lock s) eqn:Hl; [exact I|]. apply (set_worker_lock_inv s w W_exit _ true Hs Hw); cbn; rewrite ?Hl; no_job.
    + exists 0. pose proof (ring_num _ (i_ring s Hs)). split; [lia|]. symmetry. apply pos_zero, (i_ring s Hs).
    + pose proof (i_over s Hs H). pose proof (total_lookup over _ _ _ (fun pc => proj1 (over_bound pc)) Hw). cbn in *. lia.
  - now apply exit_round_inv.
  - destruct Hok as (k & Hk & ->). destruct (exiting_locked s w _ Hs Hw eq_refl) as (Hl & Hkill & _).
    destruct (futex_wake_inv f s Hs) as [Hs' Hn]. apply (set_worker_inv _ w _ _ Hs' Hw); cbn; no_job;
      [|destruct (decide (f = f0)) as [<-|]; [now right | left; now rewrite bool_decide_false] | congruence].
    exists (k + 1). split; [lia|]. pose proof (i_ring s Hs) as Hr.
    rewrite next_unsigned_pos, pos_next; [reflexivity | assumption | lia | apply Hr | now apply pos_range].
  - exact I.
Qed.
