(* ===== verification/UQueueCalls.v ===== *)
(** * The clients of the job queue keep its invariant (u_queue.c) *)

From stdpp Require Import base list gmap numbers.
From Stdlib Require Import ZArith Lia.
From S2P Require Import Prelude Arrays UQueue UQueueRing UQueueInv UQueueSteps.
#[local] Open Scope Z_scope.
#[local] Open Scope c_scope.

(** ** Changes of a fence *)

(** The value of a fence changes, but not whether it is signalled. *)
Lemma fence_change_inv s f v :
  inv s -> 0 <= v <= 2 -> (v = 0 <-> fence_val (fences s) f = 0) -> (fence_val (fences s) f = 2 -> v = 2) ->
  inv (s <| fences := <[f := v]> (fences s) |>).
Proof.
  intros [] Hv Hz H2.
  assert (Hlive : forall f', live (s <| fences := <[f := v]> (fences s) |>) f' = live s f').
  { intros f'. rewrite live_insert. destruct (decide (f = f')) as [<-|]; [|reflexivity]. unfold live, util_queue_fence_is_signalled.
    destruct (Z.eqb_spec v 0), (Z.eqb_spec (fence_val (fences s) f) 0); (reflexivity || tauto). }
  assert (Hzero : forall f', fence_val (<[f := v]> (fences s)) f' = 0 <-> fence_val (fences s) f' = 0).
  { intros f'. rewrite fence_val_insert. destruct (decide _) as [<-|]; [assumption | reflexivity]. }
  split; cbn; try assumption.
  - intros f'. rewrite fence_val_insert. destruct (decide _); auto.
  - intros f'. rewrite Hlive. exact (i_owners f').
  - intros Hc f'. rewrite Hlive. exact (i_owners_eq Hc f').
  - intros c i H. apply i_finish_fences. now rewrite <- Hzero.
  - intros c pc a r w H1 H3. destruct (i_stage c pc a r w H1 H3) as (? & ? & Hw & HB).
    refine (conj _ (conj _ (conj _ HB))); try assumption. intros i Hi. apply Hzero. auto.
  - intros c f' t k H. rewrite fence_val_insert. specialize (i_asleep c f' t k H).
    destruct (decide (f = f')) as [<-|]; [|assumption]. destruct i_asleep; [left; auto | now right].
Qed.

(** [util_queue_fence_signal] by the client that dropped the job. *)
Lemma dropped_inv s c f : inv s -> clients s !! c = Some (C_dropped f) ->
  good (let! (wake, fs) := util_queue_fence_signal (fences s) f in
        Ret (Some (set_client c (if (wake : bool) then C_drop_wake f else C_idle) (s <| fences := fs |>)))).
Proof.
  intros Hs Hc. unfold util_queue_fence_signal. pose proof (i_clients s Hs c _ Hc) as Hcf. cbn in Hcf.
  assert (Hv : fence_val (fences s) f <> 0) by (eapply (client_owner s Hs); [eassumption|]; cbn; now rewrite bool_decide_true).
  rewrite (proj2 (Z.eqb_neq _ _) Hv). cbn [negb c_assert obind good].
  set (pc' := if fence_val (fences s) f =? 2 then C_drop_wake f else C_idle).
  assert (Hpc : client_ok c pc' /\ (forall f', own_c f' pc' = 0) /\ (forall n, stage n pc' = None) /\ holds_finish pc' = 0 /\
    blocked_c pc' = 0 /\ woken_c pc' = 0 /\ (fence_val (fences s) f = 2 -> pend_c f pc' = 1) /\
    (forall f' t k, pc' <> C_asleep f' t k) /\ (forall i, pc' <> C_join i)).
  { unfold pc'. destruct (Z.eqb_spec (fence_val (fences s) f) 2); cbn; rewrite ?bool_decide_true by reflexivity; repeat split; (assumption || lia || discriminate). }
  clearbody pc'. destruct Hpc as (Hok & Ho & Hst & Hf & Hb & Hw & Hp & Ha & Hj). destruct Hs.
  assert (HO : forall f', owners (set_client c pc' (s <| fences := <[f := 0]> (fences s) |>)) f' -
      live (s <| fences := <[f := 0]> (fences s) |>) f' = owners s f' - live s f').
  { intros f'. rewrite live_insert. unfold owners. cbn. sums. rewrite Ho. cbn. unfold live, util_queue_fence_is_signalled.
    destruct (decide (f = f')) as [<-|Hne]; [rewrite bool_decide_true by reflexivity; rewrite (proj2 (Z.eqb_neq _ _) Hv)|rewrite bool_decide_false by assumption]; cbn; lia. }
  unfold set_client in *. split; cbn; try assumption; sums; cbn [blocked_c woken_c holds_finish stage]; try assumption.
  - intros c' pc'' H. on_thread H; [assumption | eauto].
  - intros f'. rewrite fence_val_insert. destruct (decide _); [lia | apply i_vals].
  - intros f'. specialize (HO f'). specialize (i_owners f'). unfold live in *. cbn in *. lia.
  - intros Hcl f'. specialize (HO f'). specialize (i_owners_eq Hcl f'). unfold live in *. cbn in *. lia.
  - intros c' i. rewrite fence_val_insert. destruct (decide _); [lia|]. intros H. destruct (i_finish_fences c' i H) as (pc & a & r & w & H1 & H2 & H3).
    exists pc, a, r, w. rewrite list_lookup_insert_ne; [auto|]. intros <-. rewrite Hc in H1. injection H1 as <-. discriminate.
  - intros c' pc'' a r w H Hs. on_thread H; [now rewrite Hst in Hs|]. destruct (i_stage c' pc'' a r w H Hs) as (? & ? & Hz & HB).
    refine (conj _ (conj _ (conj _ HB))); try assumption. intros i Hi. rewrite fence_val_insert. destruct (decide _); auto.
  - intros Hk c' pc'' H. on_thread H; [auto | eauto].
  - intros c' i H. on_thread H; [now apply Hj in H0 || (exfalso; eapply Hj; reflexivity) | eauto].
  - intros c' f' t k H. sums. rewrite fence_val_insert. on_thread H; [exfalso; eapply Ha; reflexivity|]. specialize (i_asleep c' f' t k H). cbn.
    pose proof (total_nonneg (pend_w f') (workers s) (fun pc => proj1 (pend_w_bound f' pc))).
    pose proof (total_nonneg (pend_c f') (clients s) (fun pc => proj1 (pend_c_bound f' pc))). pose proof (pend_c_bound f' pc').
    destruct (decide (f = f')) as [<-|Hne]; [|lia]. destruct i_asleep as [Hs2|Hs2]; [rewrite Hp by auto|]; lia.
  - intros Hk. specialize (i_space Hk). lia.
  - rewrite <- i_finish_lock. cbn. lia.
Qed.

(** ** Adding a job *)

(** [util_queue_fence_reset]: the client now owns the fence of the job that it
    is about to add. *)
Lemma reset_inv s c pc j k :
  inv s -> kill_threads (queue s) = false -> clients s !! c = Some pc ->
  (pc = C_idle /\ k = K_return /\ user_job j \/
   exists i st, pc = C_finish_add i st /\ k = K_add i st /\ j = finish_job c i /\ (i < length (workers s))%nat) ->
  fence_val (fences s) (fence j) = 0 ->
  inv (set_client c (C_add_woken j k) (s <| fences := <[fence j := 1]> (fences s) |>)).
Proof.
  intros Hs Hk Hc Hcase Hv. pose proof Hs as Hs0. destruct Hs.
  assert (Hn : job j <> Null) by (destruct Hcase as [(_ & _ & (a & b & e & H & _))|(i & st & _ & _ & -> & _)]; [rewrite H|]; discriminate).
  assert (Hz : (forall f, own_c f pc = 0 /\ pend_c f pc = 0) /\ blocked_c pc = 0 /\ woken_c pc = 0 /\ holds_finish pc = holds_finish (C_add_woken j k) /\
    cont_ok_add c j k) by (destruct Hcase as [(-> & -> & Hu)|(i & st & -> & -> & -> & _)]; cbn; auto).
  destruct Hz as (Hz & Hb & Hw & Hf & Hok).
  assert (HO : forall f, owners (set_client c (C_add_woken j k) (s <| fences := <[fence j := 1]> (fences s) |>)) f -
      live (s <| fences := <[fence j := 1]> (fences s) |>) f = owners s f - live s f).
  { intros f. rewrite live_insert. unfold owners. cbn. sums. destruct (Hz f) as [-> _]. cbn. rewrite hit_live by assumption.
    unfold live, util_queue_fence_is_signalled.
    destruct (decide (fence j = f)) as [<-|Hne]; [rewrite bool_decide_true, Hv by reflexivity|rewrite bool_decide_false by assumption]; cbn; lia. }
  unfold set_client in *. split; cbn; try assumption; sums; try assumption.
  - intros c' pc'' H. on_thread H; [assumption | eauto].
  - intros f'. rewrite fence_val_insert. destruct (decide _); [lia | apply i_vals].
  - intros f'. specialize (HO f'). specialize (i_owners f'). unfold live in *. cbn in *. lia.
  - intros Hcl f'. specialize (HO f'). specialize (i_owners_eq Hcl f'). unfold live in *. cbn in *. lia.
  - intros c' i. rewrite fence_val_insert. destruct (decide (fence j = _)) as [E|E].
    + intros _. destruct Hcase as [(_ & _ & (a & b & e & _ & Hf' & _))|(i' & st & -> & -> & -> & Hi)]; [unfold finish_fence in *; congruence|].
      cbn in E. injection E as <- <-. exists (C_add_woken (finish_job c i') (K_add i' st)), i', (S i'), O.
      split; [apply list_lookup_insert_eq; now apply lookup_lt_Some in Hc | split; [reflexivity | lia]].
    + intros H. destruct (i_finish_fences c' i H) as (pc'' & a & r & w & H1 & H2 & H3).
      destruct (decide (c = c')) as [<-|Hne]; [|exists pc'', a, r, w; rewrite list_lookup_insert_ne by assumption; auto].
      rewrite Hc in H1. injection H1 as <-. destruct Hcase as [(-> & _)|(i' & st & -> & -> & -> & Hi)]; [discriminate|].
      injection H2 as <- <- <-. eexists _, i', (S i'), O.
      split; [apply list_lookup_insert_eq; now apply lookup_lt_Some in Hc | split; [reflexivity | lia]].
  - intros c' pc'' a r w H Hst. on_thread H.
    + destruct Hcase as [(-> & -> & _)|(i' & st & -> & -> & -> & Hi)]; [discriminate|]. injection Hst as <- <- <-.
      destruct (i_stage _ _ _ _ _ Hc eq_refl) as (? & ? & _ & HB).
      refine (conj _ (conj _ (conj _ HB))); lia.
    + destruct (i_stage c' pc'' a r w H Hst) as (? & ? & Hzero & HB).
      refine (conj _ (conj _ (conj _ HB))); try assumption. intros i Hi. rewrite fence_val_insert.
      destruct (decide (fence j = _)) as [E1|]; [|auto].
      destruct Hcase as [(_ & _ & (a' & b & e & _ & Hf' & _))|(i' & st & _ & _ & -> & _)]; unfold finish_fence in E1; [congruence|]. cbn in E1. now injection E1.
  - intros Hkt. congruence.
  - intros c' i H. on_thread H. eauto.
  - intros c' f t kk H. sums. rewrite fence_val_insert. on_thread H. specialize (i_asleep c' f t kk H). cbn.
    destruct (Hz f) as [_ ->]. destruct (decide (fence j = f)) as [<-|]; [|lia]. lia.
  - intros _. specialize (i_space Hk). cbn. lia.
  - rewrite Hf. rewrite <- i_finish_lock. lia.
Qed.

(** A job is put into the ring, once a thread has been woken. *)
Lemma put_inv s c j k q' :
  inv s -> kill_threads (queue s) = false -> clients s !! c = Some (C_add_woken j k) ->
  num_queued (queue s) < max_jobs (queue s) ->
  (0 < total blocked_w (workers s) -> num_queued (queue s) + 1 <= total ready_w (workers s)) ->
  put_job j (queue s) = Ret q' ->
  inv (set_client c (resume k) (s <| queue := q' |>)).
Proof.
  intros Hs Hk Hc Hn Hq Hput.
  destruct (put_job_spec (queue s) j (i_ring s Hs) (i_clean s Hs Hk) Hn) as (q'' & Hput' & Hcon & Hring & Hcl & (Hfl & Hnt & Hkt) & Hmax & Hnum).
  rewrite Hput in Hput'. injection Hput' as <-. pose proof (i_clients s Hs c _ Hc) as Hok. cbn in Hok. destruct Hs.
  assert (Hz : (forall f, own_c f (resume k) = 0 /\ pend_c f (resume k) = 0) /\ blocked_c (resume k) = 0 /\ woken_c (resume k) = 0 /\
    holds_finish (resume k) = holds_finish (C_add_woken j k) /\ client_ok c (resume k) /\ job_ok j /\ job j <> Null /\
    (forall i, resume k <> C_join i) /\ (forall f t kk, resume k <> C_asleep f t kk)).
  { destruct k; cbn in *; [|subst j|contradiction]; repeat split; try discriminate;
      [right; left; assumption | destruct Hok as (a & b & e & -> & _); discriminate | right; right; eauto]. }
  destruct Hz as (Hz & Hb & Hw & Hf & Hok' & Hj & Hjn & Hjoin & Has).
  specialize (i_clean Hk). specialize (i_owners_eq i_clean).
  assert (HO : forall f, owners (set_client c (resume k) (s <| queue := q' |>)) f = live s f).
  { intros f. rewrite <- i_owners_eq. unfold owners. cbn. sums. rewrite Hcon, total_app. destruct (Hz f) as [-> _]. cbn. lia. }
  unfold set_client in *. split; cbn; rewrite ?Hkt, ?Hnt, ?Hmax, ?Hnum, ?Hcon; try assumption; sums; try assumption; auto.
  - apply Forall_app. split; [assumption|]. constructor; [assumption | constructor].
  - intros Hl. apply Forall_app. split; [auto|]. constructor; [contradiction | constructor].
  - intros w pc Hw'. specialize (i_workers w pc Hw'). specialize (i_over Hk).
    pose proof (total_zero over (workers s) w pc (fun pc => proj1 (over_bound pc)) ltac:(lia) Hw'). destruct pc; cbn in *; (assumption || discriminate).
  - intros c' pc'' H. on_thread H; [assumption | eauto].
  - intros f. rewrite HO. reflexivity.
  - intros c' i H. destruct (i_finish_fences c' i H) as (pc'' & a & r & w & H1 & H2 & H3).
    destruct (decide (c = c')) as [<-|Hne]; [|exists pc'', a, r, w; rewrite list_lookup_insert_ne by assumption; auto].
    rewrite Hc in H1. injection H1 as <-. destruct k; try discriminate. injection H2 as <- <- <-.
    eexists _, (S i0), (S i0), O. split; [apply list_lookup_insert_eq; now apply lookup_lt_Some in Hc | split; [reflexivity | lia]].
  - intros c' pc'' a r w H Hst. on_thread H.
    + destruct k; try discriminate; try contradiction. injection Hst as <- <- <-. cbn in Hok. subst j.
      destruct (i_stage _ _ _ _ _ Hc eq_refl) as (? & ? & _ & HB). refine (conj _ (conj _ (conj _ _))); try lia.
      unfold barrier_ok, barrier_of in *. cbn in *. rewrite Hcon, total_app. cbn. rewrite fin_self.
      pose proof (total_nonneg (fin c) (contents (queue s)) (fun j => proj1 (fin_bound c j))). unfold len in *. lia.
    + destruct (i_stage c' pc'' a r w H Hst) as (? & ? & Hzero & HB). refine (conj _ (conj _ (conj _ _))); try assumption.
      assert (Hfin : fin c' j = 0).
      { destruct k; cbn in Hok; [now apply fin_user | subst j; rewrite fin_finish; now rewrite bool_decide_false | contradiction]. }
      unfold barrier_ok, barrier_of in *. cbn in *. rewrite Hcon, total_app. cbn. lia.
  - congruence.
  - intros c' i H. on_thread H; [exfalso; eapply Hjoin; eassumption | now rewrite (i_join c' i H) in Hk].
  - intros c' f t kk H. destruct (decide (c = c')) as [<-|E].
    { rewrite list_lookup_insert_eq in H by (now apply lookup_lt_Some in Hc). injection H as H. now apply Has in H. }
    rewrite list_lookup_insert_ne in H by assumption. sums. specialize (i_asleep c' f t kk H).
    destruct (Hz f) as [_ ->]. cbn. lia.
  - intros _. specialize (i_space Hk). cbn. lia.
  - rewrite Hf. rewrite <- i_finish_lock. cbn. lia.
Qed.

Lemma grow_inv s q' : inv s -> kill_threads (queue s) = false -> num_queued (queue s) = max_jobs (queue s) ->
  max_jobs (queue s) < 2 ^ 31 - 8 -> total blocked_c (clients s) = 0 -> grow (queue s) = Ret q' ->
  inv (s <| queue := q' |>) /\ num_queued q' < max_jobs q' /\ kill_threads q' = false.
Proof.
  intros Hs Hk Hn Hm Hb Hg.
  destruct (grow_spec (queue s) (i_ring s Hs) Hn Hm) as (q'' & Hg' & Hcon & Hring & Hcl & (Hfl & Hnt & Hkt) & Hmax & Hnum).
  rewrite Hg in Hg'. injection Hg' as <-. split; [|split; [lia | congruence]]. destruct Hs. specialize (i_over Hk).
  split; cbn; rewrite ?Hkt, ?Hnt, ?Hcon, ?Hnum; try assumption; auto.
  - intros w pc Hw. specialize (i_workers w pc Hw).
    pose proof (total_zero over (workers s) w pc (fun pc => proj1 (over_bound pc)) ltac:(lia) Hw). destruct pc; cbn in *; (assumption || discriminate).
  - intros f. unfold owners. cbn. rewrite Hcon. exact (i_owners f).
  - intros _ f. unfold owners. cbn. rewrite Hcon. exact (i_owners_eq (i_clean Hk) f).
  - intros c pc a r w H1 H2. destruct (i_stage c pc a r w H1 H2) as (? & ? & ? & HB).
    refine (conj _ (conj _ (conj _ _))); try assumption. unfold barrier_ok in *. cbn. rewrite Hcon. exact HB.
  - lia.
Qed.

Lemma enqueue_inv s c j k choice : inv s -> kill_threads (queue s) = false -> clients s !! c = Some (C_add_woken j k) ->
  num_queued (queue s) < max_jobs (queue s) -> good (enqueue c j k choice s).
Proof.
  intros Hs Hk Hc Hn. unfold enqueue.
  destruct (put_job_spec (queue s) j (i_ring s Hs) (i_clean s Hs Hk) Hn) as (q' & Hput & _). rewrite Hput. cbn [obind].
  destruct (cnd_signal _ _ _) as [ws|] eqn:Hws; [|exact I]. destruct (signal_queued _ _ _ Hws) as [Hf Hb]. cbn. apply inv_emit.
  apply (put_inv _ c j k q' (wake_workers_inv s ws Hs Hf)); try assumption.
  intros H. destruct (Hb H). pose proof (i_queued s Hs Hk). cbn. lia.
Qed.

(** The program counter of the client does not matter to [enqueue]. *)
Lemma enqueue_client s c j k choice pc : enqueue c j k choice (set_client c pc s) = enqueue c j k choice s.
Proof.
  unfold enqueue, set_client. cbn. destruct (put_job j (queue s)); [|reflexivity..]. cbn [obind].
  destruct (cnd_signal _ _ _); [|reflexivity]. cbn. unfold emit. cbn. do 2 f_equal. unfold update. cbn. f_equal. apply list_insert_insert_eq.
Qed.

(** A queue that grows never makes a client wait for a slot. *)
Definition calm (s : system) : Prop :=
  Z.land (flags (queue s)) UTIL_QUEUE_INIT_RESIZE_IF_FULL <> 0 ->
  forall c pc, clients s !! c = Some pc -> blocked_c pc = 0 /\ woken_c pc = 0.

Lemma idle_again s c : inv s -> clients s !! c = Some C_idle -> inv (set_client c C_idle s).
Proof. intros Hs Hc. apply (move_client s c C_idle C_idle Hs Hc); cbn; no_job. Qed.

Lemma add_job_inv s c pc j k choice :
  inv s -> calm s -> max_jobs (queue s) < 2 ^ 31 - 8 -> clients s !! c = Some pc ->
  (pc = C_idle /\ k = K_return /\ user_job j \/
   exists i st, pc = C_finish_add i st /\ k = K_add i st /\ j = finish_job c i /\ (i < length (workers s))%nat) ->
  fence_val (fences s) (fence j) = 0 -> good (util_queue_add_job c j k choice s).
Proof.
  intros Hs Hcalm Hm Hc Hcase Hv. unfold util_queue_add_job. destruct (lock s); [exact I|].
  destruct (kill_threads (queue s)) eqn:Hk.
  { destruct Hcase as [(-> & -> & _)|(i & st & -> & _)]; [now apply idle_again|].
    destruct (i_kill s Hs Hk c _ Hc). discriminate. }
  unfold util_queue_fence_reset. rewrite Hv. cbn [Z.eqb c_assert obind]. cbv zeta.
  pose proof (ring_num _ (i_ring s Hs)) as Hnum. cbn [queue].
  assert (Hnq : num_queued_ok (queue s) = true) by
    (unfold num_queued_ok; rewrite Z.geb_leb, (proj2 (Z.leb_le _ _)), (proj2 (Z.leb_le _ _)) by lia; reflexivity).
  set (s1 := _ <| fences := _ |>). change (queue s1) with (queue s). rewrite Hnq. cbn [c_assert].
  pose proof (reset_inv s c pc j k Hs Hk Hc Hcase Hv) as Hs1. change (inv (set_client c (C_add_woken j k) s1)) in Hs1.
  assert (Hc1 : clients (set_client c (C_add_woken j k) s1) !! c = Some (C_add_woken j k)).
  { cbn. apply list_lookup_insert_eq. now apply lookup_lt_Some in Hc. }
  destruct (Z.eqb_spec (num_queued (queue s)) (max_jobs (queue s))) as [Hfull|Hfull].
  - destruct (Z.eqb_spec (Z.land (flags (queue s)) UTIL_QUEUE_INIT_RESIZE_IF_FULL) 0) as [Hfl|Hfl]; cbn [negb].
    + pose proof (move_client _ c _ (C_add_blocked j k) Hs1 Hc1) as Hmove. unfold set_client in Hmove. cbn in Hmove.
      rewrite list_insert_insert_eq in Hmove. apply Hmove; auto; try congruence.
      exact (i_clients _ Hs1 c _ Hc1).
    + destruct (grow_spec (queue s) (i_ring s Hs) Hfull Hm) as (q' & Hg & _). rewrite Hg. cbn [obind].
      destruct (grow_inv (set_client c (C_add_woken j k) s1) q' Hs1 Hk Hfull Hm) as (Hs2 & Hn2 & Hk2); [|assumption|].
      { cbn. rewrite (total_insert _ _ _ _ _ Hc). destruct (Hcalm Hfl c pc Hc) as [-> _]. cbn.
        rewrite total_all_zero; [reflexivity|]. intros i x Hx. now apply (Hcalm Hfl i). }
      rewrite <- (enqueue_client _ c j k choice (C_add_woken j k)). now apply enqueue_inv.
  - rewrite <- (enqueue_client _ c j k choice (C_add_woken j k)). apply enqueue_inv; try assumption. cbn. lia.
Qed.

(** ** Dropping a job *)

(** A job with the fence of a client is an ordinary job. *)
Lemma fenced_job s j f : inv s -> lock s = false -> j ∈ contents (queue s) -> fence j = f -> client_fence f ->
  job j <> Null /\ (forall c, fin c j = 0).
Proof.
  intros Hs Hl Hj Hf (a & -> & Ha). apply list_elem_of_In in Hj.
  pose proof (proj1 (Forall_forall _ _) (i_null s Hs Hl) j Hj) as Hnull.
  assert (Hn : job j <> Null) by (intros H; specialize (Hnull H); congruence). split; [assumption|]. intros c.
  destruct (proj1 (Forall_forall _ _) (i_jobs s Hs) j Hj) as [H|[H|(c' & i & ->)]]; [contradiction | now apply fin_user | discriminate].
Qed.

(** The slot of the job is cleared; the client owns its fence. *)
Lemma drop_found_inv s c f j q' k :
  inv s -> lock s = false -> clients s !! c = Some (C_drop f) -> contents (queue s) !! k = Some j -> fence j = f ->
  contents q' = <[k := null_job]> (contents (queue s)) -> ring_ok q' -> (clean (queue s) -> clean q') -> (clean q' -> clean (queue s)) ->
  same_queue (queue s) q' -> max_jobs q' = max_jobs (queue s) -> num_queued q' = num_queued (queue s) ->
  inv (set_client c (C_dropped f) (s <| queue := q' |>)).
Proof.
  intros Hs Hl Hc Hj Hf Hcon Hring Hcl Hcl' (Hfl & Hnt & Hkt) Hmax Hnum.
  pose proof (i_clients s Hs c _ Hc) as Hcf. cbn in Hcf.
  destruct (fenced_job s j f Hs Hl (list_elem_of_lookup_2 _ _ _ Hj) Hf Hcf) as [Hn Hfin]. destruct Hs.
  assert (Hfc : forall c', total (fin c') (contents q') = total (fin c') (contents (queue s))).
  { intros c'. rewrite Hcon, (total_insert _ _ _ _ _ Hj), Hfin. change (fin c' null_job) with 0. lia. }
  assert (HO : forall f', owners (set_client c (C_dropped f) (s <| queue := q' |>)) f' = owners s f').
  { intros f'. unfold owners. cbn. sums. rewrite Hcon, (total_insert _ _ _ _ _ Hj), hit_live, Hf by assumption. cbn. lia. }
  unfold set_client in *. split; cbn; rewrite ?Hkt, ?Hnt, ?Hmax, ?Hnum; try assumption; sums; try assumption; auto.
  - rewrite Hcon. apply Forall_insert; [assumption | now left].
  - intros _. rewrite Hcon. apply Forall_insert; [auto | reflexivity].
  - intros w pc Hw. specialize (i_workers w pc Hw).
    pose proof (total_zero exiting (workers s) w pc (fun pc => proj1 (exiting_bound pc)) ltac:(rewrite i_lock, Hl; cbn; lia) Hw).
    destruct pc; cbn in *; (assumption || discriminate).
  - intros c' pc'' H. on_thread H; [assumption | eauto].
  - intros f'. rewrite HO. apply i_owners.
  - intros Hclean f'. rewrite HO. now apply i_owners_eq, Hcl'.
  - intros c' i H. destruct (i_finish_fences c' i H) as (pc'' & a & r & w & H1 & H2 & H3). exists pc'', a, r, w.
    rewrite list_lookup_insert_ne; [auto|]. intros <-. rewrite Hc in H1. injection H1 as <-. discriminate.
  - intros c' pc'' a r w H Hst. on_thread H; [discriminate|]. destruct (i_stage c' pc'' a r w H Hst) as (? & ? & ? & HB).
    refine (conj _ (conj _ (conj _ _))); try assumption. unfold barrier_ok in *. cbn. rewrite Hfc. exact HB.
  - intros Hk c' pc'' H. on_thread H; [auto | eauto].
  - intros c' i H. on_thread H. eauto.
  - intros c' f' t kk H. sums. on_thread H. specialize (i_asleep c' f' t kk H). cbn. lia.
  - intros Hk. specialize (i_space Hk). cbn. lia.
  - rewrite <- i_finish_lock. cbn. lia.
Qed.

Lemma drop_section_inv s c f : inv s -> lock s = false -> clients s !! c = Some (C_drop f) -> inv (drop_section c f s).
Proof.
  intros Hs Hl Hc. unfold drop_section. pose proof (drop_search_spec (queue s) f (i_ring s Hs)) as H.
  destruct (drop_search (queue s) f) as [[j q']|].
  - destruct H as (k & Hj & Hf & Hcon & Hring & Hcl & Hcl' & Hsame & Hmax & Hnum). apply inv_emit.
    destruct (negb (cleanup j =? 0)); [apply (drop_found_inv (emit _ s) c f j q' k (inv_emit _ s Hs)) | apply (drop_found_inv s c f j q' k)]; assumption.
  - pose proof (i_clients s Hs c _ Hc) as Hcf. apply (move_client s c (C_drop f) _ Hs Hc); cbn; no_job.
Qed.

(** ** Waiting for a fence *)

(** A wait that returns because the fence is signalled. *)
Lemma wait_returns_inv s c pc f t k :
  inv s -> clients s !! c = Some pc -> fence_val (fences s) f = 0 ->
  pc = C_wait f t k \/ pc = C_reload f t k \/ pc = C_cmpxchg f t k -> inv (set_client c (resume k) s).
Proof.
  intros Hs Hc Hv Hpc. pose proof (i_clients s Hs c pc Hc) as Hok.
  assert (Hk : cont_ok_wait c f k) by (destruct Hpc as [-> | [-> | ->]]; apply Hok).
  rewrite <- set_client_eta. destruct k as [|i st|i st]; cbn in Hk; [|contradiction|subst f].
  - apply (set_client_inv s c pc C_idle _ Hs Hc); destruct Hpc as [-> | [-> | ->]]; cbn; no_job;
      apply (stage_ok_same s c _ _ Hs Hc); reflexivity.
  - assert (Hst : stage (length (workers s)) pc = Some (length (workers s), length (workers s), i)) by (destruct Hpc as [-> | [-> | ->]]; reflexivity).
    destruct (i_stage s Hs c pc _ _ _ Hc Hst) as (Ha & Hr & Hz & HB).
    apply (set_client_inv s c pc (C_finish_destroy i st) _ Hs Hc); try (destruct Hpc as [-> | [-> | ->]]; cbn; solve [no_job]).
    split; [|split].
    + intros a r w [= <- <- <-]. refine (conj _ (conj _ (conj _ HB))); try assumption. intros i' Hi'.
      destruct (decide (i' = i)) as [->|]; [assumption | apply Hz; lia].
    + intros i' Hi'. destruct (i_finish_fences s Hs c i' Hi') as (pc' & a & r & w & H1 & H2 & H3). rewrite Hc in H1. injection H1 as <-.
      rewrite Hst in H2. injection H2 as <- <- <-. eauto.
    + intros Hkill. destruct (i_kill s Hs Hkill c pc Hc). congruence.
Qed.

(** ** [util_queue_finish] *)

Lemma finish_end s c i st : inv s -> clients s !! c = Some (C_finish_wait i st) -> len (workers s) <= Z.of_nat i ->
  (forall i', fence_val (fences s) (finish_fence c i') = 0) /\ waiters (barrier_of s c) = 0 /\ sequence (barrier_of s c) = 1.
Proof.
  intros Hs Hc Hi. destruct (i_stage s Hs c _ _ _ _ Hc eq_refl) as (_ & _ & Hz & HB).
  assert (Hall : forall i', fence_val (fences s) (finish_fence c i') = 0).
  { intros i'. destruct (Z.eq_dec (fence_val (fences s) (finish_fence c i')) 0) as [|Hne]; [assumption|].
    destruct (i_finish_fences s Hs c i' Hne) as (pc & a & r & w & H1 & H2 & H3). rewrite Hc in H1. injection H1 as <-.
    injection H2 as <- <- <-. apply Hz. unfold len in Hi. lia. }
  split; [assumption|]. destruct (no_finish_jobs s Hs c Hall) as (H1 & H2 & H3). pose proof (i_threads s Hs).
  destruct HB as [_ [HB|HB]]; unfold len in *; lia.
Qed.

Lemma not_killed s c pc t : inv s -> clients s !! c = Some pc -> stage (length (workers s)) pc = Some t -> kill_threads (queue s) = false.
Proof. intros Hs Hc Hst. destruct (kill_threads (queue s)) eqn:Hk; [|reflexivity]. destruct (i_kill s Hs Hk c pc Hc). congruence. Qed.

(** [util_queue_fence_init] of a fence that is not in use. *)
Lemma init_fence_inv s c i st : inv s -> clients s !! c = Some (C_finish_add i st) ->
  fence_val (fences s) (finish_fence c i) = 0 /\ inv (s <| fences := util_queue_fence_init (fences s) (finish_fence c i) |>).
Proof.
  intros Hs Hc. assert (Hv : fence_val (fences s) (finish_fence c i) = 0).
  { destruct (Z.eq_dec (fence_val (fences s) (finish_fence c i)) 0) as [|Hne]; [assumption|].
    destruct (i_finish_fences s Hs c i Hne) as (pc & a & r & w & H1 & H2 & H3). rewrite Hc in H1. injection H1 as <-.
    injection H2 as <- <- <-. lia. }
  split; [assumption|]. apply fence_change_inv; [assumption | lia | tauto | lia].
Qed.

Lemma finish_step_inv s c choice pc : inv s -> calm s -> max_jobs (queue s) < 2 ^ 31 - 8 -> clients s !! c = Some pc ->
  holds_finish pc = 1 -> match pc with C_finish_add _ _ | C_finish_wait _ _ | C_finish_destroy _ _ => True | _ => False end ->
  good (client_step c choice s).
Proof.
  intros Hs Hcalm Hm Hc Hh Hpc. unfold client_step, fence_wait, fence_reload, fence_exchange, fence_sleep, finish_add, finish_wait, join_threads. rewrite Hc.
  destruct pc as [| | | | | | | | | | | |i st|i st|i st|]; try contradiction; pose proof (not_killed s c _ _ Hs Hc eq_refl) as Hk;
    destruct (i_stage s Hs c _ _ _ _ Hc eq_refl) as (Ha & Hr & Hz & HB); rewrite ?(i_num_threads s Hs Hk).
  - destruct (Z.ltb_spec (Z.of_nat i) (len (workers s))) as [Hi|Hi].
    + destruct (init_fence_inv s c i st Hs Hc) as [Hv Hs'].
      apply (add_job_inv _ c (C_finish_add i st) (finish_job c i) (K_add i st) choice Hs' Hcalm Hm Hc).
      * right. exists i, st. unfold len in Hi. repeat split. cbn. lia.
      * cbn. unfold util_queue_fence_init. rewrite fence_val_insert. now rewrite decide_True.
    + assert (Hn : i = length (workers s)) by (unfold len in Hi; lia). subst i.
      rewrite <- set_client_eta. apply (set_client_inv s c _ (C_finish_wait 0 st) _ Hs Hc); cbn; try solve [no_job].
      split; [|split]; cbn; [|intros i Hi'|congruence].
      * intros a r w [= <- <- <-]. refine (conj _ (conj _ (conj _ HB))); lia.
      * destruct (i_finish_fences s Hs c i Hi') as (pc & a & r & w & H1 & H2 & H3). rewrite Hc in H1. injection H1 as <-.
        injection H2 as <- <- <-. eauto 10.
  - destruct (Z.ltb_spec (Z.of_nat i) (len (workers s))) as [Hi|Hi]; cbn [good].
    + apply (move_client s c _ _ Hs Hc); cbn; no_job.
    + destruct (finish_end s c i st Hs Hc Hi) as (Hall & Hw & _). unfold util_barrier_destroy. rewrite Hw. cbn [Z.eqb c_assert obind good].
      apply inv_emit, (set_client_inv s c (C_finish_wait i st) C_idle false Hs Hc); cbn; try solve [no_job].
      * split; [discriminate | split; [intros i' Hi'; now rewrite Hall in Hi' | reflexivity]].
      * pose proof (i_finish_lock s Hs). pose proof (total_lookup holds_finish _ _ _ (fun pc => proj1 (holds_finish_bound pc)) Hc).
        cbn in *. destruct (finish_lock s); cbn in *; lia.
  - unfold util_queue_fence_destroy. rewrite (Hz i) by lia. cbn [Z.eqb c_assert obind good].
    apply (move_client s c _ _ Hs Hc); cbn; no_job.
Qed.

(** ** All steps of a client *)

Lemma client_step_inv s c choice : inv s -> calm s -> max_jobs (queue s) < 2 ^ 31 - 8 -> good (client_step c choice s).
Proof.
  intros Hs Hcalm Hm. destruct (clients s !! c) as [pc|] eqn:Hc; [|unfold client_step, fence_wait, fence_reload, fence_exchange, fence_sleep, finish_add, finish_wait, join_threads; rewrite Hc; exact I].
  pose proof (i_clients s Hs c pc Hc) as Hok.
  destruct pc as [|j k|j k|f|f|f|f t k|f t k|f t k|f t k|f t k|st|i st|i st|i st|i];
    try (apply (finish_step_inv s c choice _ Hs Hcalm Hm Hc); [reflexivity | exact I]);
    unfold client_step, fence_wait, fence_reload, fence_exchange, fence_sleep, finish_add, finish_wait, join_threads; rewrite Hc; try exact I.
  - destruct (lock s); [exact I|]. destruct (Z.eqb_spec (num_queued (queue s)) (max_jobs (queue s))) as [Hn|Hn].
    + apply (move_client s c _ _ Hs Hc); cbn; auto; try discriminate.
      intros Hk. destruct (i_kill s Hs Hk c _ Hc) as (_ & _ & H). discriminate H.
    + pose proof (ring_num _ (i_ring s Hs)). apply enqueue_inv; try assumption; [|lia].
      destruct (kill_threads (queue s)) eqn:Hk; [|reflexivity]. destruct (i_kill s Hs Hk c _ Hc) as (_ & _ & H'). discriminate H'.
  - destruct (lock s) eqn:Hl; [exact I|]. now apply drop_section_inv.
  - now apply dropped_inv.
  - destruct (futex_wake_inv f s Hs) as [Hs' Hn]. apply (move_client _ c (C_drop_wake f) _ Hs'); cbn; no_job.
    + now apply (futex_wake_client f s c).
    + destruct (decide (f = f0)) as [<-|]; [now right | left; now rewrite bool_decide_false].
  - unfold util_queue_fence_is_signalled. destruct (Z.eqb_spec (fence_val (fences s) f) 0) as [Hv|Hv].
    + eapply wait_returns_inv; eauto.
    + apply (move_client s c _ _ Hs Hc); cbn; auto; try discriminate; destruct k; no_job.
  - cbv zeta. destruct (Z.eqb_spec (fence_val (fences s) f) 0) as [Hv|Hv]; [eapply wait_returns_inv; eauto|].
    destruct (negb _); apply (move_client s c _ _ Hs Hc); cbn; auto; try discriminate; destruct k; no_job.
  - unfold fence_cmpxchg. destruct (Z.eqb_spec (fence_val (fences s) f) 0) as [Hv|Hv].
    + rewrite Hv. cbn. assert (Hs' : inv (s <| fences := fences s |>)) by (destruct Hs; split; assumption).
      apply (wait_returns_inv _ c _ f t k Hs' Hc Hv). auto.
    + assert (Hs' : inv (s <| fences := if fence_val (fences s) f =? 1 then <[f := 2]> (fences s) else fences s |>)).
      { destruct (Z.eqb_spec (fence_val (fences s) f) 1); [|destruct Hs; split; assumption]. apply fence_change_inv; auto; lia. }
      apply (move_client _ c _ _ Hs' Hc); cbn; auto; try discriminate; destruct k; no_job.
  - destruct (Z.eqb_spec (fence_val (fences s) f) 2) as [Hv|Hv]; apply (move_client s c _ _ Hs Hc); cbn; auto; try discriminate;
      try (destruct k; no_job). all: intros; congruence.
  - destruct (finish_lock s) eqn:Hl; [exact I|].
    apply (set_client_inv s c _ (C_finish_add 0 st) true Hs Hc); cbn; rewrite ?Hl; try solve [no_job].
    apply (stage_ok_same s c _ _ Hs Hc). reflexivity.
  - pose proof (i_join s Hs c i Hc) as Hk. destruct (Z.of_nat i <? num_threads (queue s)).
    + destruct (workers s !! i) as [[]|]; try exact I. apply (move_client s c _ _ Hs Hc); cbn; no_job.
    + assert (Hs' : inv (s <| queue := (queue s) <| num_threads := 0 |> |>)) by
        (destruct Hs; split; try assumption; [destruct i_ring; split; assumption | cbn; congruence]).
      apply (move_client _ c _ _ Hs' Hc); cbn; no_job.
Qed.

(** ** Calls *)

Lemma finish_call_inv s c : inv s -> kill_threads (queue s) = false -> clients s !! c = Some C_idle ->
  inv (set_client c (C_finish_lock (length (trace s)))
        (s <| barriers := <[c := util_barrier_init (num_threads (queue s))]> (barriers s) |>)).
Proof.
  intros Hs Hk Hc. pose proof (fun i => not_finishing s Hs c C_idle i Hc eq_refl) as Hz.
  destruct (no_finish_jobs s Hs c Hz) as (H1 & H2 & H3).
  assert (Hs' : inv (s <| barriers := <[c := util_barrier_init (num_threads (queue s))]> (barriers s) |>)).
  { destruct Hs. split; try assumption. cbn. intros c' pc a r w Hc' Hst.
    destruct (i_stage c' pc a r w Hc' Hst) as (Ha & Hr & Hw & HB). refine (conj Ha (conj Hr (conj Hw _))).
    unfold barrier_ok in *. erewrite (barrier_of_insert s) by reflexivity. destruct (decide (c = c')) as [<-|]; [|exact HB].
    rewrite Hc in Hc'. injection Hc' as <-. discriminate. }
  rewrite <- set_client_eta. apply (set_client_inv _ c C_idle _ _ Hs' Hc); cbn; try solve [no_job].
  split; [|split]; cbn; [|intros i Hi; now rewrite Hz in Hi | congruence].
  intros a r w [= <- <- <-]. refine (conj _ (conj _ (conj _ _))); try lia.
  unfold barrier_ok. erewrite (barrier_of_insert s) by reflexivity. rewrite decide_True by reflexivity. cbn.
  rewrite (i_num_threads s Hs Hk), H1, H2, H3. pose proof (i_threads s Hs). lia.
Qed.

Lemma kill_call_inv s c : inv s -> lock s = false -> clients s !! c = Some C_idle -> forallb is_idle (clients s) = true ->
  inv (set_client c (C_join 0)
        (s <| queue := (queue s) <| kill_threads := true |> |> <| workers := cnd_broadcast wake_queued (workers s) |>)).
Proof.
  intros Hs Hl Hc Hidle.
  assert (Hidle' : forall c' pc, clients s !! c' = Some pc -> pc = C_idle).
  { intros c' pc H. apply list_elem_of_lookup_2, list_elem_of_In in H.
    pose proof (proj1 (forallb_forall _ _) Hidle pc H). now destruct pc. }
  assert (Hf : Forall2 woken_worker (workers s) (cnd_broadcast wake_queued (workers s))).
  { apply Forall2_map_refl. intros []; cbn; try (now left). right. now left. }
  pose proof (wake_workers_inv s _ Hs Hf) as Hs1.
  assert (Hs2 : inv (s <| queue := (queue s) <| kill_threads := true |> |> <| workers := cnd_broadcast wake_queued (workers s) |>)).
  { destruct Hs1. split; try assumption; try (cbn; discriminate).
    - destruct i_ring; split; assumption.
    - cbn. intros _ c' pc H. rewrite (Hidle' c' pc H). auto.
    - cbn. auto. }
  apply (move_client _ c C_idle _ Hs2 Hc); cbn; no_job.
Qed.

Lemma start_call_inv s c cl choice : inv s -> calm s -> max_jobs (queue s) < 2 ^ 31 - 8 -> call_allowed cl s = true ->
  good (start_call c cl choice s).
Proof.
  intros Hs Hcalm Hm Ha. unfold start_call, finish_begin, kill_all. destruct (clients s !! c) as [pc|] eqn:Hc; [|exact I].
  destruct pc; try exact I. destruct cl as [j|f|f t| |]; cbn in Ha.
  - destruct (job j) as [|a|] eqn:Hj; try discriminate. destruct (fence j) as [b|] eqn:Hf; try discriminate.
    destruct (execute j) as [e|] eqn:He; try discriminate. unfold util_queue_fence_is_signalled in Ha. rewrite <- Hf in Ha. zbool.
    apply (add_job_inv s c C_idle j K_return choice Hs Hcalm Hm Hc); [|assumption]. left. repeat split. exists a, b, e. auto.
  - destruct f as [a|]; [|discriminate]. zbool. destruct (util_queue_fence_is_signalled _ _); [now apply idle_again|].
    apply (move_client s c _ _ Hs Hc); cbn; no_job. now exists a.
  - destruct f as [a|]; [|discriminate]. zbool. apply (move_client s c _ _ Hs Hc); cbn; no_job. now exists a.
  - zbool. apply inv_emit. now apply finish_call_inv.
  - destruct (lock s) eqn:Hl; [exact I|]. now apply kill_call_inv.
Qed.

Lemma spurious_worker_inv s w : inv s -> good (Ret (spurious_worker w s)).
Proof.
  intros Hs. unfold spurious_worker. destruct (workers s !! w) as [pc|] eqn:Hw; [|exact I].
  assert (H : forall pc', woken_worker pc pc' -> inv (set_worker w pc' s)).
  { intros pc' Hp. apply wake_workers_inv; [assumption|]. apply (Forall2_insert_refl _ _ _ pc); auto. now left. }
  destruct pc as [| | | |j seq []| | | | | | |]; try exact I; apply H; right; [now left | right; eauto].
Qed.

Lemma spurious_client_inv s c : inv s -> good (Ret (spurious_client c s)).
Proof.
  intros Hs. unfold spurious_client. destruct (clients s !! c) as [pc|] eqn:Hc; [|exact I].
  assert (H : forall pc', woken_client pc pc' -> inv (set_client c pc' s)).
  { intros pc' Hp. apply wake_clients_inv; [assumption|]. apply (Forall2_insert_refl _ _ _ pc); auto. now left. }
  destruct pc; try exact I; apply H; right; [now left | right; eauto].
Qed.

Lemma timeout_client_inv s c : inv s -> good (Ret (timeout_client c s)).
Proof.
  intros Hs. unfold timeout_client. destruct (clients s !! c) as [pc|] eqn:Hc; [|exact I].
  pose proof (i_clients s Hs c pc Hc) as Hok.
  destruct pc as [| | | | | | | | |f [] k|f [] k| | | | |]; try exact I; destruct Hok as [Hk Ht]; rewrite (Ht eq_refl) in *;
    apply (move_client s c _ _ Hs Hc); cbn; no_job.
Qed.

Lemma exec_inv l s : inv s -> calm s -> allowed l s = true -> good (exec l s).
Proof.
  intros Hs Hcalm Ha. unfold allowed in Ha. zbool. destruct l; cbn [exec].
  - now apply worker_step_inv.
  - now apply client_step_inv.
  - now apply start_call_inv.
  - now apply spurious_worker_inv.
  - now apply spurious_client_inv.
  - now apply timeout_client_inv.
Qed.

(** ** A queue that grows stays calm *)

Lemma calm_set_client s c pc : calm s ->
  (Z.land (flags (queue s)) UTIL_QUEUE_INIT_RESIZE_IF_FULL <> 0 -> blocked_c pc = 0 /\ woken_c pc = 0) -> calm (set_client c pc s).
Proof.
  intros Hs Hpc Hf c' pc' H. cbn in *. destruct (decide (c = c')) as [<-|Hne].
  - destruct (decide (c < length (clients s))%nat) as [Hlt|Hge].
    + rewrite list_lookup_insert_eq in H by assumption. injection H as <-. auto.
    + rewrite list_insert_ge in H by lia. exact (Hs Hf c pc' H).
  - rewrite list_lookup_insert_ne in H by assumption. exact (Hs Hf c' pc' H).
Qed.

Lemma calm_wake s cs : calm s -> Forall2 woken_client (clients s) cs -> calm (s <| clients := cs |>).
Proof.
  intros Hs Hw Hf c pc' H. destruct (Forall2_lookup_r _ _ _ _ _ Hw H) as (pc & H1 & H2). destruct (Hs Hf c pc H1).
  destruct (woken_client_same _ _ H2) as (_ & _ & _ & _ & _ & Heq). pose proof (blocked_c_bound pc'). pose proof (woken_c_bound pc'). lia.
Qed.

Lemma calm_queue s q : calm s -> flags q = flags (queue s) -> calm (s <| queue := q |>).
Proof. intros Hs Hf H. cbn in H. rewrite Hf in H. exact (Hs H). Qed.

(** The outcome of a step after which the queue is calm. *)
Definition stays_calm (o : outcome (option system)) : Prop :=
  match o with Ret (Some s) => calm s | _ => True end.

Lemma resume_calm k : blocked_c (resume k) = 0 /\ woken_c (resume k) = 0.
Proof. destruct k; split; reflexivity. Qed.

Lemma enqueue_calm s c j k choice : calm s -> stays_calm (enqueue c j k choice s).
Proof.
  intros Hs. unfold enqueue, put_job. destruct (is_null _); [|exact I]. cbn [c_assert obind].
  destruct (cnd_signal _ _ _); [|exact I]. apply (calm_set_client (_ <| queue := _ |> <| workers := _ |>)); [|intros; apply resume_calm].
  now apply (calm_queue s).
Qed.

Lemma grow_flags q q' : grow q = Ret q' -> flags q' = flags q.
Proof.
  unfold grow. destruct (copy_jobs _ _ _ _ _) as [[n d]| |]; [|discriminate..]. cbn [obind].
  destruct (_ =? _); [|discriminate]. now intros [= <-].
Qed.

Lemma add_job_calm s c j k choice : calm s -> stays_calm (util_queue_add_job c j k choice s).
Proof.
  intros Hs. unfold util_queue_add_job. destruct (lock s); [exact I|].
  destruct (kill_threads _); [apply calm_set_client; [assumption | intros; apply resume_calm]|].
  destruct (util_queue_fence_reset _ _) as [fs| |]; [|exact I..]. cbn [obind]. cbv zeta.
  set (s1 := _ <| fences := _ |>). change (queue s1) with (queue s). assert (Hs1 : calm s1) by exact Hs.
  destruct (num_queued_ok _); [|exact I]. cbn [c_assert].
  destruct (_ =? _); [|now apply enqueue_calm].
  destruct (Z.eqb_spec (Z.land (flags (queue s)) UTIL_QUEUE_INIT_RESIZE_IF_FULL) 0) as [E|E]; cbn [negb].
  - apply calm_set_client; [assumption|]. intros H. contradiction.
  - destruct (grow (queue s)) as [q'| |] eqn:Hg; [|exact I..]. cbn [obind].
    apply enqueue_calm, calm_queue; [assumption | now apply grow_flags].
Qed.

Lemma worker_step_calm s w choice : calm s -> stays_calm (worker_step w choice s).
Proof.
  intros Hs. unfold worker_step, get_job, finish_execute, exit_round.
  assert (Hwake : forall f, calm (futex_wake f s)).
  { intros f. apply calm_wake; [assumption|]. apply Forall2_map_refl. intros []; cbn; try (now left).
    destruct (decide _); cbn; [right; right; eauto | now left]. }
  assert (Hget : forall w', stays_calm (Ret (get_job w' choice s))).
  { intros w'. unfold get_job. destruct (_ && _); [exact Hs|]. destruct (kill_threads _); [exact Hs|].
    destruct (take_job (queue s)) as [j q'] eqn:Ht. destruct (cnd_signal _ _ _) as [cs|] eqn:Hcs; [|exact I].
    change (calm ((s <| queue := q' |>) <| clients := cs |>)). apply calm_wake; [|now apply (signal_space choice)].
    apply calm_queue; [assumption|]. unfold take_job in Ht. now injection Ht as _ <-. }
  destruct (workers s !! w) as [[]|]; try exact I; try exact Hs.
  - destruct (lock s); [exact I|]. destruct (num_queued_ok _); [apply Hget | exact I].
  - destruct (lock s); [exact I | apply Hget].
  - destruct (execute j); [exact Hs|]. destruct (job j); try exact Hs. destruct (util_barrier_arrive _) as [[b []]| |]; try exact I; exact Hs.
  - destruct (job j); try exact I. destruct awake; [|exact I]. cbn. destruct (_ =? _); exact Hs.
  - destruct (util_queue_fence_signal _ _) as [[[] fs]| |]; try exact I; exact Hs.
  - apply Hwake.
  - cbn. destruct (negb _); exact Hs.
  - destruct (lock s); [exact I | exact Hs].
  - destruct (negb _); [destruct (negb _); [destruct (util_queue_fence_signal _ _) as [[[] fs]| |]; try exact I|]|];
      cbn; try exact Hs; now apply (calm_queue s).
  - apply Hwake.
Qed.

Lemma client_step_calm s c choice : calm s -> stays_calm (client_step c choice s).
Proof.
  intros Hs. unfold client_step, fence_wait, fence_reload, fence_exchange, fence_sleep, finish_add, finish_wait, join_threads.
  assert (Hset : forall pc, blocked_c pc = 0 /\ woken_c pc = 0 -> calm (set_client c pc s)) by (intros; now apply calm_set_client).
  destruct (clients s !! c) as [[]|] eqn:Hc; try exact I; cbv zeta.
  - destruct (lock s); [exact I|]. destruct (_ =? _); [|now apply enqueue_calm].
    apply calm_set_client; [assumption|]. intros H. now destruct (Hs H c _ Hc).
  - destruct (lock s); [exact I|]. unfold drop_section, drop_search. destruct (find_fence _ _ _ _); [|now apply Hset].
    cbv zeta. cbn [stays_calm]. destruct (negb _); (apply (calm_set_client (_ <| queue := _ |>)); [now apply (calm_queue s) | auto]).
  - destruct (util_queue_fence_signal _ _) as [[[] fs]| |]; try exact I; apply calm_set_client; auto.
  - apply calm_set_client; [|auto]. apply calm_wake; [assumption|]. apply Forall2_map_refl. intros []; cbn; try (now left).
    destruct (decide _); cbn; [right; right; eauto | now left].
  - apply Hset. destruct (util_queue_fence_is_signalled _ _); auto using resume_calm.
  - apply Hset. destruct (_ =? _); [apply resume_calm|]. destruct (negb _); auto.
  - unfold fence_cmpxchg. apply calm_set_client; [assumption|]. intros _. destruct (_ =? 0); auto using resume_calm.
  - apply Hset. destruct (_ =? _); auto.
  - destruct (finish_lock s); [exact I|]. now apply calm_set_client.
  - destruct (_ <? _); [now apply add_job_calm | now apply Hset].
  - destruct (_ <? _); [now apply Hset|]. destruct (util_barrier_destroy _); try exact I. now apply calm_set_client.
  - destruct (util_queue_fence_destroy _ _); try exact I. now apply Hset.
  - destruct (_ <? _); [destruct (workers s !! i) as [[]|]; try exact I; now apply Hset|].
    apply calm_set_client; [now apply calm_queue | auto].
Qed.

Lemma exec_calm l s : calm s -> stays_calm (exec l s).
Proof.
  intros Hs. destruct l; cbn [exec].
  - now apply worker_step_calm.
  - now apply client_step_calm.
  - unfold start_call, finish_begin, kill_all. destruct (clients s !! c) as [[]|]; try exact I. destruct cl; cbn.
    + now apply add_job_calm.
    + apply calm_set_client; [assumption|]. destruct (util_queue_fence_is_signalled _ _); auto.
    + now apply calm_set_client.
    + apply (calm_set_client (_ <| barriers := _ |>)); auto.
    + destruct (lock s); [exact I|]. apply (calm_set_client (_ <| queue := _ |> <| workers := _ |>)); [now apply (calm_queue s) | auto].
  - unfold spurious_worker. destruct (workers s !! w) as [[| | | |j seq []| | | | | | |]|]; try exact I; exact Hs.
  - unfold spurious_client. destruct (clients s !! c) as [[]|] eqn:Hc; try exact I; cbn; apply calm_set_client; auto.
    intros H. now destruct (Hs H c _ Hc).
  - unfold timeout_client. destruct (clients s !! c) as [[| | | | | | | | |f [] k|f [] k| | | | |]|]; try exact I; cbn;
      apply calm_set_client; auto using resume_calm.
Qed.
