(* ===== verification/UQueueTrace.v ===== *)
(** * What the threads of the job queue do (u_queue.c)

    The events of a run: jobs are started in the order in which they were
    added, each of them once unless it is dropped, and a call of
    [util_queue_finish] returns after the jobs added before it. *)

From stdpp Require Import base list gmap numbers.
From Stdlib Require Import ZArith Lia.
From S2P Require Import Prelude Arrays UQueue UQueueRing UQueueInv UQueueSteps UQueueCalls.
#[local] Open Scope Z_scope.
#[local] Open Scope c_scope.

(** ** Events *)

Definition adds (t : list event) : list util_queue_job :=
  omap (fun e => match e with Ev_add j => Some j | _ => None end) t.
Definition starts (t : list event) : list util_queue_job :=
  omap (fun e => match e with Ev_start _ j => Some j | _ => None end) t.

Definition same_job (j j' : util_queue_job) : Z := indicator (bool_decide (j' = j)).
Definition is_add (j : util_queue_job) (e : event) : Z := match e with Ev_add j' => same_job j j' | _ => 0 end.
Definition is_done (j : util_queue_job) (e : event) : Z := match e with Ev_done _ j' => same_job j j' | _ => 0 end.
Definition is_drop (j : util_queue_job) (e : event) : Z := match e with Ev_drop j' => same_job j j' | _ => 0 end.

(** A thread that is executing the job [j]. *)
Definition held_w (j : util_queue_job) (pc : worker) : Z :=
  match pc with W_run j' | W_barrier j' _ _ => same_job j j' | _ => 0 end.

(** The ordinal in the trace of the call of [util_queue_finish] that the client
    is in. *)
Definition start_of (pc : client) : option nat :=
  match pc with
  | C_finish_lock st | C_finish_add _ st | C_finish_wait _ st | C_finish_destroy _ st
  | C_add_blocked _ (K_add _ st) | C_add_woken _ (K_add _ st)
  | C_wait _ _ (K_wait _ st) | C_reload _ _ (K_wait _ st) | C_cmpxchg _ _ (K_wait _ st)
  | C_futex _ _ (K_wait _ st) | C_asleep _ _ (K_wait _ st) => Some st
  | _ => None
  end.

(** ** The effect of a step on what is observed *)

(** No client has entered [util_queue_finish]. *)
Definition same_clients (s s' : system) : Prop :=
  forall c pc' st, clients s' !! c = Some pc' -> start_of pc' = Some st ->
  exists pc, clients s !! c = Some pc /\ start_of pc = Some st.
Definition same_held (s s' : system) : Prop := forall j, total (held_w j) (workers s') = total (held_w j) (workers s).
Definition same_barriers (s s' : system) : Prop :=
  forall c, sequence (barrier_of s' c) = sequence (barrier_of s c).

Definition same_contents (s s' : system) : Prop := contents (queue s') = contents (queue s).

(** Nothing but the trace and the queue changes that the events depend on. *)
Definition quiet (s s' : system) : Prop := same_clients s s' /\ same_held s s' /\ same_barriers s s'.

(** All threads execute a job of the call of [util_queue_finish] by client
    [c]. *)
Definition all_at_barrier (c : nat) (s : system) : Prop :=
  forall w pc, workers s !! w = Some pc -> exists i, pc = W_signal (finish_job c i) \/ exists b, pc = W_barrier (finish_job c i) 0 b.

Inductive effect (s s' : system) : Prop :=
| Eff_none : quiet s s' -> same_contents s s' -> trace s' = trace s -> effect s s'
| Eff_cleanup n j : quiet s s' -> same_contents s s' -> trace s' = trace s ++ [Ev_cleanup n j] -> effect s s'
| Eff_add j : quiet s s' -> contents (queue s') = contents (queue s) ++ [j] -> trace s' = trace s ++ [Ev_add j] -> effect s s'
| Eff_start w j : same_clients s s' -> same_barriers s s' -> contents (queue s) = j :: contents (queue s') ->
    trace s' = trace s ++ [Ev_start w j] ->
    (forall j', job j' <> Null -> total (held_w j') (workers s') = total (held_w j') (workers s) + same_job j' j) -> effect s s'
| Eff_done w j : same_clients s s' -> same_contents s s' -> trace s' = trace s ++ [Ev_done w j] ->
    (forall j', total (held_w j') (workers s') = total (held_w j') (workers s) - same_job j' j) ->
    (forall c, sequence (barrier_of s' c) = sequence (barrier_of s c) \/ (exists i, j = finish_job c i) /\ all_at_barrier c s') ->
    effect s s'
| Eff_drop k j pre : quiet s s' -> contents (queue s) !! k = Some j -> job j <> Null ->
    contents (queue s') = <[k := null_job]> (contents (queue s)) -> pre = [] \/ pre = [Ev_cleanup (-1) j] ->
    trace s' = trace s ++ pre ++ [Ev_drop j] -> effect s s'
| Eff_finish c pc' : same_held s s' -> same_contents s s' -> trace s' = trace s ++ [Ev_finish c] ->
    clients s' = <[c := pc']> (clients s) -> start_of pc' = Some (length (trace s)) -> clients s !! c = Some C_idle ->
    (forall c', c' <> c -> sequence (barrier_of s' c') = sequence (barrier_of s c')) -> sequence (barrier_of s' c) = 0 -> effect s s'
| Eff_finished c : quiet s s' -> same_contents s s' -> trace s' = trace s ++ [Ev_finished c] ->
    sequence (barrier_of s c) = 1 -> (exists pc st, clients s !! c = Some pc /\ start_of pc = Some st) ->
    clients s' !! c = Some C_idle -> effect s s'.

(** ** Quiet changes *)

Lemma same_clients_refl s s' : clients s' = clients s -> same_clients s s'.
Proof. intros E c pc st. rewrite E. eauto. Qed.

Lemma same_clients_set s s' c pc pc' : clients s !! c = Some pc -> clients s' = <[c := pc']> (clients s) ->
  start_of pc' = start_of pc \/ start_of pc' = None -> same_clients s s'.
Proof.
  intros Hc E0 Hst c' pc'' st H Hs. rewrite E0 in H. destruct (decide (c = c')) as [<-|Hne].
  - rewrite list_lookup_insert_eq in H by (now apply lookup_lt_Some in Hc). injection H as <-.
    destruct Hst as [E|E]; rewrite E in Hs; [eauto | discriminate].
  - rewrite list_lookup_insert_ne in H by assumption. eauto.
Qed.

Lemma same_clients_wake s s' : Forall2 woken_client (clients s) (clients s') -> same_clients s s'.
Proof.
  intros Hw c pc' st H Hs. destruct (Forall2_lookup_r _ _ _ _ _ Hw H) as (pc & H1 & H2). exists pc. split; [assumption|].
  rewrite <- Hs. destruct H2 as [->|[H2|(f & t & k & -> & ->)]]; [reflexivity| |reflexivity].
  destruct pc; try discriminate. now injection H2 as <-.
Qed.

Lemma same_clients_trans s1 s2 s3 : same_clients s1 s2 -> same_clients s2 s3 -> same_clients s1 s3.
Proof. intros H1 H2 c pc st H Hs. destruct (H2 c pc st H Hs) as (pc2 & H3 & H4). exact (H1 c pc2 st H3 H4). Qed.

Lemma same_held_set s s' w pc pc' : workers s !! w = Some pc -> workers s' = <[w := pc']> (workers s) ->
  (forall j, held_w j pc' = held_w j pc) -> same_held s s'.
Proof. intros Hw E Hh j. rewrite E, (total_insert _ _ _ _ _ Hw), Hh. lia. Qed.

Lemma held_woken pc pc' j : woken_worker pc pc' -> held_w j pc = held_w j pc'.
Proof. intros [->|[H|(j' & seq & -> & ->)]]; [reflexivity| |reflexivity]. destruct pc; try discriminate. now injection H as <-. Qed.

Lemma same_held_wake s s' : Forall2 woken_worker (workers s) (workers s') -> same_held s s'.
Proof. intros H j. symmetry. apply (total_Forall2_eq woken_worker); [assumption|]. intros. now apply held_woken. Qed.

(** A step that only moves one thread of the queue. *)
Lemma quiet_worker s s' w pc pc' : workers s !! w = Some pc -> workers s' = <[w := pc']> (workers s) ->
  (forall j, held_w j pc' = held_w j pc) -> Forall2 woken_client (clients s) (clients s') -> barriers s' = barriers s -> quiet s s'.
Proof.
  intros Hw Hws Hh Hc Hb. split; [now apply same_clients_wake|]. split; [now apply (same_held_set s s' w pc pc')|].
  intros c. unfold barrier_of. now rewrite Hb.
Qed.

(** A step that only moves one client. *)
Lemma quiet_client s s' c pc pc' : clients s !! c = Some pc -> clients s' = <[c := pc']> (clients s) ->
  start_of pc' = start_of pc \/ start_of pc' = None -> Forall2 woken_worker (workers s) (workers s') -> barriers s' = barriers s -> quiet s s'.
Proof.
  intros Hc Hcs Hst Hw Hb. split; [now apply (same_clients_set s s' c pc pc')|]. split; [now apply same_held_wake|].
  intros c'. unfold barrier_of. now rewrite Hb.
Qed.

(** ** Every step has one of the effects *)

Lemma held_null j' : job j' <> Null -> same_job j' null_job = 0.
Proof. intros H. unfold same_job. rewrite bool_decide_false; [reflexivity|]. intros <-. now apply H. Qed.

Lemma woken_clients_refl cs : Forall2 woken_client cs cs.
Proof. apply Forall2_self. intros. now left. Qed.
Lemma woken_workers_refl ws : Forall2 woken_worker ws ws.
Proof. apply Forall2_self. intros. now left. Qed.
#[local] Hint Resolve woken_clients_refl woken_workers_refl : core.

Lemma futex_wakes f cs : Forall2 woken_client cs (cnd_broadcast (wake_futex f) cs).
Proof.
  apply Forall2_map_refl. intros []; cbn; try (now left). destruct (decide _); cbn; [right; right; eauto | now left].
Qed.

Lemma get_job_effect s w choice pc s' : inv s -> workers s !! w = Some pc -> ready_w pc = 1 -> kill_threads (queue s) = false ->
  get_job w choice s = Some s' -> effect s s'.
Proof.
  intros Hs Hw Hr Hk. unfold get_job. rewrite Hk. cbn [negb andb].
  assert (Hh : forall j, held_w j pc = 0) by (destruct pc; try discriminate Hr; reflexivity).
  destruct (Z.eqb_spec (num_queued (queue s)) 0) as [Hn|Hn].
  - intros [= <-]. apply Eff_none; [|reflexivity..]. apply (quiet_worker s _ w pc W_blocked); auto.
  - pose proof (ring_num _ (i_ring s Hs)). pose proof (take_job_spec (queue s) (i_ring s Hs) ltac:(lia)) as Ht.
    destruct (take_job (queue s)) as [j q'] eqn:Et. destruct Ht as (Hc & _).
    destruct (cnd_signal _ _ _) as [cs|] eqn:Hcs; [|discriminate]. intros [= <-]. destruct (signal_space _ _ _ Hcs) as [Hf _].
    apply (Eff_start _ _ w j); try reflexivity; [now apply same_clients_wake | intros c; reflexivity | assumption |].
    intros j' Hj'. cbn. rewrite (total_insert _ _ _ _ _ Hw), Hh. destruct (is_null (job j)) eqn:En; cbn; [|lia].
    unfold same_job. rewrite bool_decide_false; [cbn; lia|]. intros ->. now destruct (job j').
Qed.

Lemma finish_execute_effect s w c i s' : inv s -> workers s !! w = Some (W_run (finish_job c i)) ->
  finish_execute w c (finish_job c i) s = Ret (Some s') -> effect s s'.
Proof.
  intros Hs Hw. destruct (held_stage s w _ c i Hs Hw (hit_self c i)) as (a & HB & Ha). pose proof (i_threads s Hs) as Hthr.
  destruct (arriving s w c i a Hw HB) as (Hseq & Hcount & Hwait & Hbar & Hsum & Hrun & Hle).
  unfold finish_execute, util_barrier_arrive. rewrite (proj2 (Z.ltb_lt _ _)) by lia. cbn [c_assert]. cbn.
  rewrite !wrap_small by lia.
  destruct (Z.ltb_spec (waiters (barrier_of s c) + 1) (count (barrier_of s c))) as [Hlt|Hlt]; cbn [obind]; intros [= <-].
  - apply Eff_none; [|reflexivity..]. split; [now apply same_clients_refl|]. split; [eapply (same_held_set s _ w); [exact Hw | reflexivity..]|].
    intros c'. erewrite (barrier_of_insert s _ c _ c') by reflexivity. destruct (decide _) as [<-|]; reflexivity.
  - destruct (broadcast_barrier_wakes c (workers s)) as [Hf _].
    assert (Hw' : cnd_broadcast (wake_barrier c) (workers s) !! w = Some (W_run (finish_job c i))) by
      (unfold cnd_broadcast; rewrite list_lookup_fmap, Hw; reflexivity).
    apply (Eff_done _ _ w (finish_job c i)); try reflexivity; [now apply same_clients_refl| |].
    + intros j'. cbn. rewrite (total_insert _ _ _ _ _ Hw'). cbn.
      rewrite (total_Forall2_eq woken_worker (held_w j') _ _ Hf) by (intros; now apply held_woken). lia.
    + intros c'. erewrite (barrier_of_insert s _ c _ c') by reflexivity. destruct (decide _) as [<-|]; [right|now left].
      split; [eauto|]. intros w' pc' H. cbn in H. destruct (decide (w = w')) as [<-|Hne].
      * rewrite list_lookup_insert_eq in H by (now apply lookup_lt_Some in Hw'). injection H as <-. eauto.
      * rewrite list_lookup_insert_ne in H by assumption.
        destruct (Forall2_lookup_r _ _ _ _ _ Hf H) as (pc & H1 & H2).
        assert (Hfull : run_w c pc + bar_w c pc = 1).
        { apply (total_full (fun pc => run_w c pc + bar_w c pc) (workers s) w'); [|rewrite total_plus; lia|assumption].
          intros []; cbn; rewrite ?Z.add_0_r; try lia; apply fin_bound. }
        assert (Hone : run_w c pc = 0).
        { pose proof (total_lookup_2 (run_w c) _ _ _ _ _ (fun pc => proj1 (run_w_bound c pc)) Hne Hw H1) as H3. cbn in H3.
          rewrite fin_self in H3. pose proof (run_w_bound c pc). lia. }
        destruct pc; cbn in Hfull, Hone; try lia. pose proof (i_workers s Hs w' _ H1) as [-> (c2 & i2 & ->)].
        rewrite fin_finish in Hfull. case_bool_decide; cbn in Hfull; [subst c2|lia]. exists i2. right.
        destruct H2 as [->|[H2|(j2 & seq2 & H2 & ->)]]; [eauto | discriminate | injection H2 as <- <- ->; eauto].
Qed.

Lemma worker_effect s w choice s' : inv s -> kill_threads (queue s) = false -> worker_step w choice s = Ret (Some s') -> effect s s'.
Proof.
  intros Hs Hk. unfold worker_step. destruct (workers s !! w) as [pc|] eqn:Hw; [|discriminate].
  pose proof (i_workers s Hs w pc Hw) as Hok. pose proof (i_over s Hs Hk) as Hover.
  pose proof (total_zero over (workers s) w pc (fun pc => proj1 (over_bound pc)) ltac:(lia) Hw) as Ho.
  destruct pc as [| | |j|j seq awake|j|j|j| | | |]; cbn in Ho; try discriminate.
  - destruct (lock s); [discriminate|]. destruct (num_queued_ok _); [|discriminate]. intros [= H]. now apply (get_job_effect s w choice W_top).
  - destruct (lock s); [discriminate|]. intros [= H]. now apply (get_job_effect s w choice W_woken).
  - destruct Hok as [Hn [Hj|[Hj|(c & i & ->)]]]; [contradiction| |now apply finish_execute_effect].
    destruct Hj as (a & b & e & Hjob & Hf & Hb & He). rewrite He. intros [= <-].
    apply (Eff_done _ _ w j); try reflexivity; [now apply same_clients_refl | | now left].
    intros j'. cbn. rewrite (total_insert _ _ _ _ _ Hw). cbn. lia.
  - destruct Hok as [-> (c & i & ->)]. change (job (finish_job c i)) with (Barrier c). cbv iota. destruct awake; [|discriminate].
    destruct (Z.eqb_spec 0 (sequence (barrier_of s c))) as [E|E]; intros [= <-].
    + apply Eff_none; [|reflexivity..]. (eapply (quiet_worker s _ w); [exact Hw | reflexivity | reflexivity | apply woken_clients_refl | reflexivity]).
    + apply (Eff_done _ _ w (finish_job c i)); try reflexivity; [now apply same_clients_refl | | now left].
      intros j'. cbn. rewrite (total_insert _ _ _ _ _ Hw). cbn. lia.
  - destruct (util_queue_fence_signal _ _) as [[[] fs]| |]; [| |discriminate..]; intros [= <-]; (apply Eff_none; [|reflexivity..]);
      (eapply (quiet_worker s _ w); [exact Hw | reflexivity | reflexivity | apply woken_clients_refl | reflexivity]).
  - intros [= <-]. apply Eff_none; [|reflexivity..]. eapply (quiet_worker s _ w); [exact Hw | reflexivity | auto | apply futex_wakes | auto].
  - destruct (negb _); intros [= <-]; [eapply Eff_cleanup; [|reflexivity..] | apply Eff_none; [|reflexivity..]];
      (eapply (quiet_worker s _ w); [exact Hw | reflexivity | reflexivity | apply woken_clients_refl | reflexivity]).
Qed.

(** [s0] is the state at the start of the call and [s] the one in which the job
    is put into the ring. *)
Lemma enqueue_effect s0 s c pc j k choice s' :
  clients s = clients s0 -> workers s = workers s0 -> barriers s = barriers s0 -> trace s = trace s0 ->
  contents (queue s) = contents (queue s0) ->
  ring_ok (queue s) -> clean (queue s) -> num_queued (queue s) < max_jobs (queue s) ->
  clients s0 !! c = Some pc -> start_of (resume k) = start_of pc ->
  enqueue c j k choice s = Ret (Some s') -> effect s0 s'.
Proof.
  intros Hcs Hws Hbs Htr Hcon Hring Hcl Hn Hc Hst. unfold enqueue.
  destruct (put_job_spec (queue s) j Hring Hcl Hn) as (q' & Hput & Hq' & _). rewrite Hput. cbn [obind].
  destruct (cnd_signal _ _ _) as [ws|] eqn:Hw; [|discriminate]. destruct (signal_queued _ _ _ Hw) as [Hf _]. intros [= <-].
  apply (Eff_add _ _ j); cbn; [|congruence..].
  eapply (quiet_client s0 _ c pc (resume k)); [exact Hc | cbn; now rewrite Hcs | now left | cbn; now rewrite <- Hws | cbn; congruence].
Qed.

Lemma add_job_effect s c pc j k choice s' :
  inv s -> kill_threads (queue s) = false -> max_jobs (queue s) < 2 ^ 31 - 8 -> clients s !! c = Some pc ->
  start_of (resume k) = start_of pc -> start_of (C_add_blocked j k) = start_of pc ->
  util_queue_add_job c j k choice s = Ret (Some s') -> effect s s'.
Proof.
  intros Hs Hk Hm Hc Hst Hst'. unfold util_queue_add_job. destruct (lock s); [discriminate|]. rewrite Hk.
  destruct (util_queue_fence_reset _ _) as [fs| |]; [|discriminate..]. cbn [obind]. cbv zeta.
  set (s1 := _ <| fences := _ |>). change (queue s1) with (queue s). pose proof (ring_num _ (i_ring s Hs)).
  destruct (num_queued_ok _); [|discriminate]. cbn [c_assert].
  destruct (Z.eqb_spec (num_queued (queue s)) (max_jobs (queue s))) as [Hn|Hn].
  - destruct (negb _).
    + destruct (grow_spec (queue s) (i_ring s Hs) Hn Hm) as (q' & Hg & Hcon & Hr & Hcl & _ & Hmax & Hnum). rewrite Hg. cbn [obind].
      apply (enqueue_effect s _ c pc j k choice s'); try assumption; try reflexivity. cbn. lia.
    + intros [= <-]. apply Eff_none; [|reflexivity..]. apply (quiet_client s _ c pc (C_add_blocked j k)); auto.
  - apply (enqueue_effect s _ c pc j k choice s'); try assumption; try reflexivity; [apply Hs | now apply (i_clean s Hs) | cbn; lia].
Qed.

Lemma effect_fences s fs s' : effect (s <| fences := fs |>) s' -> effect s s'.
Proof.
  intros [Hq Hc Ht|n j Hq Hc Ht|j Hq Hc Ht|w j Hcl Hb Hc Ht Hh|w j Hcl Hc Ht Hh Hb|k j pre Hq Hk Hn Hc Hp Ht|c pc Hh Hc Ht Hcl Hst Hi Ho Hz|c Hq Hc Ht Hz Hp Hi].
  - exact (Eff_none s s' Hq Hc Ht).
  - exact (Eff_cleanup s s' n j Hq Hc Ht).
  - exact (Eff_add s s' j Hq Hc Ht).
  - exact (Eff_start s s' w j Hcl Hb Hc Ht Hh).
  - exact (Eff_done s s' w j Hcl Hc Ht Hh Hb).
  - exact (Eff_drop s s' k j pre Hq Hk Hn Hc Hp Ht).
  - exact (Eff_finish s s' c pc Hh Hc Ht Hcl Hst Hi Ho Hz).
  - exact (Eff_finished s s' c Hq Hc Ht Hz Hp Hi).
Qed.

Lemma wait_start c f t k pc : cont_ok_wait c f k -> pc = C_wait f t k \/ pc = C_reload f t k \/ pc = C_cmpxchg f t k ->
  start_of (resume k) = start_of pc.
Proof. intros Hk Hpc. destruct k; [| contradiction |]; destruct Hpc as [-> | [-> | ->]]; reflexivity. Qed.

Lemma client_effect s c choice s' : inv s -> kill_threads (queue s) = false -> max_jobs (queue s) < 2 ^ 31 - 8 ->
  client_step c choice s = Ret (Some s') -> effect s s'.
Proof.
  intros Hs Hk Hm. unfold client_step, fence_wait, fence_reload, fence_exchange, fence_sleep, finish_add, finish_wait, join_threads. destruct (clients s !! c) as [pc|] eqn:Hc; [|discriminate].
  pose proof (i_clients s Hs c pc Hc) as Hok.
  assert (Hquiet : forall pc' s', clients s' = <[c := pc']> (clients s) -> start_of pc' = start_of pc \/ start_of pc' = None ->
    workers s' = workers s -> barriers s' = barriers s -> contents (queue s') = contents (queue s) -> trace s' = trace s -> effect s s').
  { intros pc' s2 H1 H2 H3 H4 H5 H6. apply Eff_none; auto. apply (quiet_client s s2 c pc pc'); auto. rewrite H3. apply woken_workers_refl. }
  destruct pc as [|j k|j k|f|f|f|f t k|f t k|f t k|f t k|f t k|st|i st|i st|i st|i]; try discriminate; cbv zeta.
  - destruct (lock s); [discriminate|]. pose proof (ring_num _ (i_ring s Hs)).
    destruct (Z.eqb_spec (num_queued (queue s)) (max_jobs (queue s))) as [Hn|Hn].
    + intros [= <-]. eapply Hquiet; try reflexivity. now left.
    + apply (enqueue_effect s s c (C_add_woken j k)); try assumption; try reflexivity; [apply Hs | now apply (i_clean s Hs) | lia |].
      destruct k; [reflexivity.. | contradiction].
  - destruct (lock s) eqn:Hl; [discriminate|]. unfold drop_section. pose proof (drop_search_spec (queue s) f (i_ring s Hs)) as H.
    destruct (drop_search (queue s) f) as [[j q']|].
    + destruct H as (k & Hj & Hf & Hcon & _).
      destruct (fenced_job s j f Hs Hl (list_elem_of_lookup_2 _ _ _ Hj) Hf Hok) as [Hn _].
      assert (Hq : forall s2, clients s2 = <[c := C_dropped f]> (clients s) -> workers s2 = workers s -> barriers s2 = barriers s -> quiet s s2).
      { intros s2 H1 H2 H3. apply (quiet_client s s2 c (C_drop f) (C_dropped f)); auto. rewrite H2. apply woken_workers_refl. }
      destruct (negb _); intros [= <-].
      * apply (Eff_drop _ _ k j [Ev_cleanup (-1) j]); auto. cbn. now rewrite <- app_assoc.
      * apply (Eff_drop _ _ k j []); auto.
    + intros [= <-]. eapply Hquiet; try reflexivity. now left.
  - destruct (util_queue_fence_signal _ _) as [[[] fs]| |]; [| |discriminate..]; intros [= <-]; (eapply Hquiet; try reflexivity; now left).
  - intros [= <-]. apply Eff_none; [|reflexivity..]. split; [|split; intros ?; reflexivity].
    eapply (same_clients_trans _ (futex_wake f s)); [apply same_clients_wake, futex_wakes|].
    eapply (same_clients_set _ _ c (C_drop_wake f)); [now apply (futex_wake_client f s c) | reflexivity | now left].
  - destruct Hok as [Hok _]. destruct (util_queue_fence_is_signalled _ _); intros [= <-]; (eapply Hquiet; try reflexivity); left; [|reflexivity].
    eapply (wait_start c f t k); eauto.
  - destruct Hok as [Hok _]. destruct (_ =? 0); intros [= <-]; (eapply Hquiet; try reflexivity); left; [eapply (wait_start c f t k); eauto|].
    destruct (negb _); reflexivity.
  - destruct Hok as [Hok _]. unfold fence_cmpxchg. destruct (_ =? 0); intros [= <-]; (eapply Hquiet; try reflexivity); left; [eapply (wait_start c f t k); eauto|reflexivity].
  - destruct (_ =? 2); intros [= <-]; (eapply Hquiet; try reflexivity); left; reflexivity.
  - destruct (finish_lock s); [discriminate|]. intros [= <-]. eapply Hquiet; try reflexivity. now left.
  - destruct (_ <? _).
    + intros H. apply (effect_fences s (util_queue_fence_init (fences s) (finish_fence c i))).
      match type of H with util_queue_add_job _ _ _ _ ?x = _ => set (s1 := x) in * end.
      refine (add_job_effect s1 c (C_finish_add i st) (finish_job c i) (K_add i st) choice s' _ Hk Hm Hc eq_refl eq_refl H).
      exact (proj2 (init_fence_inv s c i st Hs Hc)).
    + intros [= <-]. eapply Hquiet; try reflexivity. now left.
  - rewrite (i_num_threads s Hs Hk).
    destruct (Z.ltb_spec (Z.of_nat i) (len (workers s))) as [Hi|Hi]; [intros [= <-]; eapply Hquiet; try reflexivity; now left|].
    destruct (finish_end s c i st Hs Hc Hi) as (_ & _ & Hseq).
    destruct (util_barrier_destroy _); [|discriminate..]. intros [= <-]. apply (Eff_finished _ _ c); try reflexivity; try assumption; cbn; eauto.
    + apply (quiet_client s _ c (C_finish_wait i st) C_idle); auto.
    + apply list_lookup_insert_eq. now apply lookup_lt_Some in Hc.
  - destruct (util_queue_fence_destroy _ _); [|discriminate..]. intros [= <-]. eapply Hquiet; try reflexivity. now left.
  - now rewrite (i_join s Hs c i Hc) in Hk.
Qed.

Lemma call_effect s c cl choice s' : inv s -> kill_threads (queue s) = false -> kill_threads (queue s') = false ->
  max_jobs (queue s) < 2 ^ 31 - 8 -> start_call c cl choice s = Ret (Some s') -> effect s s'.
Proof.
  intros Hs Hk Hk' Hm. unfold start_call, finish_begin, kill_all. destruct (clients s !! c) as [pc|] eqn:Hc; [|discriminate]. destruct pc; try discriminate.
  assert (Hquiet : forall pc' s', clients s' = <[c := pc']> (clients s) -> start_of pc' = None ->
    workers s' = workers s -> barriers s' = barriers s -> contents (queue s') = contents (queue s) -> trace s' = trace s -> effect s s').
  { intros pc' s2 H1 H2 H3 H4 H5 H6. apply Eff_none; auto. apply (quiet_client s s2 c C_idle pc'); auto. rewrite H3. apply woken_workers_refl. }
  destruct cl.
  - now apply (add_job_effect s c C_idle).
  - intros [= <-]. eapply Hquiet; try reflexivity. now destruct (util_queue_fence_is_signalled _ _).
  - intros [= <-]. eapply Hquiet; reflexivity.
  - intros [= <-]. apply (Eff_finish _ _ c (C_finish_lock (length (trace s)))); try reflexivity; try assumption.
    + intros j. reflexivity.
    + intros c' Hne. erewrite (barrier_of_insert s _ c _ c') by reflexivity. now rewrite decide_False by congruence.
    + erewrite (barrier_of_insert s _ c _ c) by reflexivity. now rewrite decide_True by reflexivity.
  - destruct (lock s); [discriminate|]. intros [= <-]. discriminate.
Qed.

Lemma exec_effect l s s' : inv s -> kill_threads (queue s) = false -> kill_threads (queue s') = false ->
  allowed l s = true -> exec l s = Ret (Some s') -> effect s s'.
Proof.
  intros Hs Hk Hk' Ha. unfold allowed in Ha. zbool. destruct l; cbn [exec].
  - now apply worker_effect.
  - now apply client_effect.
  - now apply call_effect.
  - unfold spurious_worker. destruct (workers s !! w) as [pc|] eqn:Hw; [|discriminate].
    destruct pc as [| | | |j seq []| | | | | | |]; try discriminate; intros [= <-]; (apply Eff_none; [|reflexivity..]);
      (eapply (quiet_worker s _ w); [exact Hw | reflexivity | reflexivity | apply woken_clients_refl | reflexivity]).
  - unfold spurious_client. destruct (clients s !! c) as [pc|] eqn:Hc; [|discriminate].
    destruct pc; try discriminate; intros [= <-]; (apply Eff_none; [|reflexivity..]);
      (eapply (quiet_client s _ c); [exact Hc | reflexivity | now left | apply woken_workers_refl | reflexivity]).
  - unfold timeout_client. destruct (clients s !! c) as [pc|] eqn:Hc; [|discriminate]. pose proof (i_clients s Hs c pc Hc) as Hok.
    destruct pc as [| | | | | | | | |f [] k|f [] k| | | | |]; try discriminate; intros [= <-]; destruct Hok as [_ Hok]; rewrite (Hok eq_refl);
      (apply Eff_none; [|reflexivity..]); (eapply (quiet_client s _ c); [exact Hc | reflexivity | now right | apply woken_workers_refl | reflexivity]).
Qed.

(** ** The threads are never restarted *)

Lemma put_job_kill j q q' : put_job j q = Ret q' -> kill_threads q' = kill_threads q.
Proof. unfold put_job. destruct (is_null _); [|discriminate]. now intros [= <-]. Qed.

Lemma grow_kill q q' : grow q = Ret q' -> kill_threads q' = kill_threads q.
Proof.
  unfold grow. destruct (copy_jobs _ _ _ _ _) as [[n d]| |]; [|discriminate..]. cbn [obind].
  destruct (_ =? _); [|discriminate]. now intros [= <-].
Qed.

Lemma enqueue_kill s c j k choice s' : enqueue c j k choice s = Ret (Some s') -> kill_threads (queue s') = kill_threads (queue s).
Proof.
  unfold enqueue. destruct (put_job _ _) as [q'| |] eqn:Hp; [|discriminate..]. cbn [obind].
  destruct (cnd_signal _ _ _); [|discriminate]. intros [= <-]. exact (put_job_kill _ _ _ Hp).
Qed.

Lemma add_job_kill s c j k choice s' : util_queue_add_job c j k choice s = Ret (Some s') ->
  kill_threads (queue s') = kill_threads (queue s).
Proof.
  unfold util_queue_add_job. destruct (lock s); [discriminate|]. destruct (kill_threads (queue s)) eqn:Hk; [intros [= <-]; exact Hk|].
  destruct (util_queue_fence_reset _ _) as [fs| |]; [|discriminate..]. cbn [obind]. cbv zeta.
  set (s1 := _ <| fences := _ |>). change (queue s1) with (queue s).
  destruct (num_queued_ok _); [|discriminate]. cbn [c_assert]. destruct (_ =? _).
  - destruct (negb _); [|intros [= <-]; exact Hk]. destruct (grow (queue s)) as [q'| |] eqn:Hg; [|discriminate..]. cbn [obind].
    intros H. rewrite (enqueue_kill _ _ _ _ _ _ H). rewrite <- Hk. exact (grow_kill _ _ Hg).
  - intros H. rewrite (enqueue_kill _ _ _ _ _ _ H). exact Hk.
Qed.

(** The outcome of a step that leaves [kill_threads] as it was in [s]. *)
Definition same_kill (s : system) (o : outcome (option system)) : Prop :=
  match o with Ret (Some s') => kill_threads (queue s') = kill_threads (queue s) | _ => True end.

Lemma worker_step_kill s w choice : same_kill s (worker_step w choice s).
Proof.
  assert (Hget : same_kill s (Ret (get_job w choice s))).
  { unfold get_job. destruct (_ && _); [reflexivity|]. destruct (kill_threads (queue s)) eqn:E; [reflexivity|].
    unfold take_job. destruct (cnd_signal _ _ _); [reflexivity | exact I]. }
  unfold worker_step. destruct (workers s !! w) as [[]|]; try exact I; try reflexivity.
  - destruct (lock s); [exact I|]. destruct (num_queued_ok _); [exact Hget | exact I].
  - destruct (lock s); [exact I | exact Hget].
  - unfold finish_execute. destruct (execute j); [reflexivity|]. destruct (job j); try reflexivity.
    destruct (util_barrier_arrive _) as [[b []]| |]; try exact I; reflexivity.
  - destruct (job j); try exact I. destruct awake; [|exact I]. cbn. destruct (_ =? _); reflexivity.
  - destruct (util_queue_fence_signal _ _) as [[[] fs]| |]; try exact I; reflexivity.
  - cbn. destruct (negb _); reflexivity.
  - destruct (lock s); [exact I | reflexivity].
  - unfold exit_round. destruct (negb _); [|reflexivity]. destruct (negb _); [|reflexivity].
    destruct (util_queue_fence_signal _ _) as [[[] fs]| |]; try exact I; reflexivity.
Qed.

Lemma add_job_same_kill s c j k choice : same_kill s (util_queue_add_job c j k choice s).
Proof. destruct (util_queue_add_job c j k choice s) as [[s'|]| |] eqn:H; try exact I. exact (add_job_kill _ _ _ _ _ _ H). Qed.

Lemma client_step_kill s c choice : same_kill s (client_step c choice s).
Proof.
  unfold client_step, fence_wait, fence_reload, fence_exchange, fence_sleep, finish_add, finish_wait, join_threads. destruct (clients s !! c) as [[]|]; try exact I; try reflexivity; cbv zeta.
  - destruct (lock s); [exact I|]. destruct (_ =? _); [reflexivity|].
    destruct (enqueue c j k choice s) as [[s'|]| |] eqn:H; try exact I. exact (enqueue_kill _ _ _ _ _ _ H).
  - destruct (lock s); [exact I|]. unfold drop_section, drop_search. destruct (find_fence _ _ _ _); [cbv zeta; cbn [same_kill]; destruct (negb _)|]; reflexivity.
  - destruct (util_queue_fence_signal _ _) as [[[] fs]| |]; try exact I; reflexivity.
  - destruct (finish_lock s); [exact I | reflexivity].
  - destruct (_ <? _); [|reflexivity].
    match goal with |- same_kill s (util_queue_add_job _ _ _ _ ?x) => exact (add_job_same_kill x c _ _ choice) end.
  - destruct (_ <? _); [reflexivity|]. destruct (util_barrier_destroy _); try exact I. reflexivity.
  - destruct (util_queue_fence_destroy _ _); try exact I. reflexivity.
  - destruct (_ <? _); [destruct (workers s !! i) as [[]|]; try exact I|]; reflexivity.
Qed.

Lemma exec_kill l s s' : exec l s = Ret (Some s') -> kill_threads (queue s') = false -> kill_threads (queue s) = false.
Proof.
  destruct l; cbn [exec]; intros H Hk.
  - pose proof (worker_step_kill s w choice) as Hs. rewrite H in Hs. cbn in Hs. congruence.
  - pose proof (client_step_kill s c choice) as Hs. rewrite H in Hs. cbn in Hs. congruence.
  - unfold start_call, finish_begin, kill_all in H. destruct (clients s !! c) as [[]|]; try discriminate.
    destruct cl; try (injection H as <-; exact Hk).
    + pose proof (add_job_same_kill s c j K_return choice) as Hs. rewrite H in Hs. cbn in Hs. congruence.
    + destruct (lock s); [discriminate|]. injection H as <-. discriminate.
  - injection H as H. unfold spurious_worker in H. destruct (workers s !! w) as [[| | | |j seq []| | | | | | |]|]; try discriminate; injection H as <-; exact Hk.
  - injection H as H. unfold spurious_client in H. destruct (clients s !! c) as [[]|]; try discriminate; injection H as <-; exact Hk.
  - injection H as H. unfold timeout_client in H.
    destruct (clients s !! c) as [[| | | | | | | | |f [] k|f [] k| | | | |]|]; try discriminate; injection H as <-; exact Hk.
Qed.

(** ** What a run of the queue guarantees *)

(** The jobs that the threads got so far followed by those still queued are the
    jobs added, in the same order; a cleared slot stands for a job that was
    dropped. *)
Definition same_or_dropped (t : list event) (x a : util_queue_job) : Prop := x = a \/ x = null_job /\ Ev_drop a ∈ t.

Definition in_order (s : system) : Prop :=
  Forall2 (same_or_dropped (trace s)) (starts (trace s) ++ contents (queue s)) (adds (trace s)).

(** Every added job is queued, being executed, executed or dropped, once. *)
Definition run_once (s : system) : Prop := forall j, job j <> Null ->
  total (is_add j) (trace s) = total (same_job j) (contents (queue s)) + total (held_w j) (workers s) +
                               total (is_done j) (trace s) + total (is_drop j) (trace s).

(** The jobs added in the first [st] events were executed or dropped. *)
Definition earlier_done (st : nat) (t : list event) : Prop := forall j, user_job j ->
  total (is_add j) (take st t) <= total (is_done j) t + total (is_drop j) t.

(** The call of [util_queue_finish] that client [c] is in. *)
Record finish_ok (s : system) (c st : nat) : Prop := {
  f_start : trace s !! st = Some (Ev_finish c);
  f_last : forall n, trace s !! n = Some (Ev_finish c) -> (n <= st)%nat;
  f_queue : forall k i, contents (queue s) !! k = Some (finish_job c i) ->
    (length (adds (take st (trace s))) <= length (starts (trace s)) + k)%nat;
  f_held : forall i, 0 < total (held_w (finish_job c i)) (workers s) ->
    (length (adds (take st (trace s))) <= length (starts (trace s)))%nat;
  f_done : sequence (barrier_of s c) = 1 -> earlier_done st (trace s) }.

Record tinv (s : system) : Prop := {
  t_order : in_order s;
  t_once : run_once s;
  t_finish : forall c pc st, clients s !! c = Some pc -> start_of pc = Some st -> finish_ok s c st }.

(** ** Order of the jobs and [util_queue_finish] (u_queue.c)

    The guarantees of UQueueTrace hold in every state that the threads reach
    before the queue is told to terminate. *)

(** ** Events *)

Lemma adds_app t t' : adds (t ++ t') = adds t ++ adds t'.
Proof. apply omap_app. Qed.
Lemma starts_app t t' : starts (t ++ t') = starts t ++ starts t'.
Proof. apply omap_app. Qed.

Lemma same_job_bound j j' : 0 <= same_job j j' <= 1.
Proof. apply indicator_bound. Qed.

Lemma is_done_bound j e : 0 <= is_done j e.
Proof. destruct e; cbn; try lia. apply same_job_bound. Qed.
Lemma is_drop_bound j e : 0 <= is_drop j e.
Proof. destruct e; cbn; try lia. apply same_job_bound. Qed.
Lemma held_w_bound j pc : 0 <= held_w j pc.
Proof. destruct pc; cbn; try lia; apply same_job_bound. Qed.

Lemma total_adds j t : total (is_add j) t = total (same_job j) (adds t).
Proof. induction t as [|e t IH]; cbn; [reflexivity|]. destruct e; cbn; rewrite IH; reflexivity. Qed.

(** The events of one step that are not about adding and starting jobs. *)
Definition other (e : event) : Prop := match e with Ev_add _ | Ev_start _ _ => False | _ => True end.

Lemma adds_other es : Forall other es -> adds es = [] /\ starts es = [].
Proof. intros H. induction H as [|e es He _ [IH1 IH2]]; [auto|]. destruct e; try contradiction; cbn; auto. Qed.

(** ** Order *)

Lemma same_or_dropped_app t es x a : same_or_dropped t x a -> same_or_dropped (t ++ es) x a.
Proof. intros [H|[H1 H2]]; [now left | right; split; [assumption | apply elem_of_app; now left]]. Qed.

Lemma in_order_same s s' es : in_order s -> trace s' = trace s ++ es -> Forall other es -> same_contents s s' -> in_order s'.
Proof.
  intros H Ht Hes Hc. unfold in_order. rewrite Ht, Hc, adds_app, starts_app. destruct (adds_other es Hes) as [-> ->]. rewrite !app_nil_r.
  eapply Forall2_impl; [apply same_or_dropped_app | exact H].
Qed.

Lemma in_order_effect s s' : in_order s -> effect s s' -> in_order s'.
Proof.
  intros H He. destruct He as [_ Hc Ht|n j _ Hc Ht|j _ Hc Ht|w j _ _ Hc Ht _|w j _ Hc Ht _ _|k j pre _ Hk Hn Hc Hpre Ht|c pc _ Hc Ht _ _ _ _ _|c _ Hc Ht _ _ _].
  - apply (in_order_same s s' []); rewrite ?app_nil_r; auto.
  - eapply in_order_same; eauto. repeat constructor.
  - unfold in_order. rewrite Ht, Hc, adds_app, starts_app. cbn. rewrite app_nil_r, app_assoc. apply Forall2_app.
    + eapply Forall2_impl; [apply same_or_dropped_app | exact H].
    + constructor; [now left | constructor].
  - unfold in_order in *. rewrite Ht, adds_app, starts_app. cbn. rewrite app_nil_r, <- app_assoc. cbn. rewrite <- Hc.
    eapply Forall2_impl; [apply same_or_dropped_app | exact H].
  - eapply in_order_same; eauto. repeat constructor.
  - unfold in_order in *. assert (Hes : Forall other (pre ++ [Ev_drop j])) by (destruct Hpre as [-> | ->]; repeat constructor).
    rewrite Ht, Hc, adds_app, starts_app. destruct (adds_other _ Hes) as [-> ->]. rewrite !app_nil_r.
    set (n := (length (starts (trace s)) + k)%nat).
    replace (starts (trace s) ++ <[k := null_job]> (contents (queue s))) with (<[n := null_job]> (starts (trace s) ++ contents (queue s)))
      by (unfold n; now rewrite insert_app_r).
    assert (Hl : (starts (trace s) ++ contents (queue s)) !! n = Some j) by (unfold n; rewrite lookup_app_r by lia; now replace (_ + _ - _)%nat with k by lia).
    destruct (Forall2_lookup_l _ _ _ _ _ H Hl) as (a & Ha & Hr). destruct Hr as [<-|[-> _]]; [|now destruct Hn].
    rewrite <- (list_insert_id _ _ _ Ha). apply Forall2_insert.
    + eapply Forall2_impl; [apply same_or_dropped_app | exact H].
    + right. split; [reflexivity|]. rewrite !elem_of_app. right. right. now apply list_elem_of_singleton.
  - eapply in_order_same; eauto. repeat constructor.
  - eapply in_order_same; eauto. repeat constructor.
Qed.

Lemma in_order_length s : in_order s -> length (adds (trace s)) = (length (starts (trace s)) + length (contents (queue s)))%nat.
Proof. intros H. apply Forall2_length in H. now rewrite length_app in H. Qed.

(** ** Every job is executed once *)

Lemma run_once_effect s s' : run_once s -> effect s s' -> run_once s'.
Proof.
  intros H He j' Hj'. specialize (H j' Hj').
  destruct He as [(_ & Hh & _) Hc Ht|n j (_ & Hh & _) Hc Ht|j (_ & Hh & _) Hc Ht|w j _ _ Hc Ht Hh|w j _ Hc Ht Hh _|k j pre (_ & Hh & _) Hk Hn Hc Hpre Ht|c pc Hh Hc Ht _ _ _ _ _|c (_ & Hh & _) Hc Ht _ _ _];
    rewrite Ht; rewrite ?total_app.
  - rewrite Hc, Hh. exact H.
  - rewrite Hc, Hh. cbn. lia.
  - rewrite Hc, Hh, total_app. cbn. lia.
  - rewrite Hc in H. rewrite (Hh j' Hj'). cbn in *. lia.
  - rewrite Hc, Hh. cbn. lia.
  - rewrite Hc, Hh, (total_insert _ _ _ _ _ Hk), held_null by assumption. destruct Hpre as [-> | ->]; cbn; lia.
  - rewrite Hc, Hh. cbn. lia.
  - rewrite Hc, Hh. cbn. lia.
Qed.

(** ** [util_queue_finish] *)

Lemma earlier_done_app st t es : (st <= length t)%nat -> earlier_done st t -> earlier_done st (t ++ es).
Proof.
  intros Hst H j Hj. specialize (H j Hj). rewrite take_app_le, !total_app by assumption.
  pose proof (total_nonneg (is_done j) es (is_done_bound j)). pose proof (total_nonneg (is_drop j) es (is_drop_bound j)). lia.
Qed.

Lemma finish_ok_step s s' c st es :
  finish_ok s c st -> trace s' = trace s ++ es -> Ev_finish c ∉ es ->
  (forall k i, contents (queue s') !! k = Some (finish_job c i) ->
     (length (adds (take st (trace s))) <= length (starts (trace s ++ es)) + k)%nat) ->
  (forall i, 0 < total (held_w (finish_job c i)) (workers s') ->
     (length (adds (take st (trace s))) <= length (starts (trace s ++ es)))%nat) ->
  (sequence (barrier_of s' c) = 1 -> sequence (barrier_of s c) = 1 \/ earlier_done st (trace s')) ->
  finish_ok s' c st.
Proof.
  intros [Hst Hlast Hq Hh Hd] Ht Hes Hq' Hh' Hd'. pose proof (lookup_lt_Some _ _ _ Hst) as Hlt.
  assert (Htake : take st (trace s ++ es) = take st (trace s)) by (apply take_app_le; lia).
  split; rewrite Ht, ?Htake; try assumption.
  - rewrite lookup_app_l by assumption. exact Hst.
  - intros n Hn. apply lookup_app_Some in Hn as [Hn|[Hn1 Hn2]]; [auto|]. exfalso. apply Hes. eapply list_elem_of_lookup_2. exact Hn2.
  - intros H. destruct (Hd' H) as [H1|H1]; [|now rewrite <- Ht]. apply earlier_done_app; [lia | auto].
Qed.

(** The jobs that are still queued when a thread has started a job of the call
    were added after it. *)
Lemma late_contents s st j : in_order s -> job j <> Null ->
  (length (adds (take st (trace s))) <= length (starts (trace s)))%nat ->
  total (same_job j) (contents (queue s)) <= total (is_add j) (drop st (trace s)).
Proof.
  intros H Hj Hl. unfold in_order in H. apply Forall2_app_inv_l in H as (a1 & a2 & H1 & H2 & Ha).
  assert (Hle : total (same_job j) (contents (queue s)) <= total (same_job j) a2).
  { eapply total_Forall2; [exact H2|]. intros x a [->|[-> _]]; [lia|]. rewrite held_null by assumption. apply same_job_bound. }
  rewrite <- (take_drop st (trace s)), adds_app in Ha. rewrite total_adds. apply Forall2_length in H1.
  assert (Hsuf : exists m, adds (drop st (trace s)) = m ++ a2).
  { exists (drop (length (adds (take st (trace s)))) a1).
    pose proof (f_equal (drop (length (adds (take st (trace s))))) Ha) as Hd. rewrite drop_app_length in Hd.
    rewrite drop_app_le in Hd by lia. exact Hd. }
  destruct Hsuf as [m ->]. rewrite total_app. pose proof (total_nonneg (same_job j) m (fun x => proj1 (same_job_bound j x))). lia.
Qed.

(** The barrier is released: every job added before the call was executed or
    dropped. *)
Lemma release_done s c st : in_order s -> run_once s -> all_at_barrier c s ->
  (length (adds (take st (trace s))) <= length (starts (trace s)))%nat -> earlier_done st (trace s).
Proof.
  intros Ho Hr Hb Hl j Hj. assert (Hn : job j <> Null) by (destruct Hj as (a & b & e & -> & _); discriminate).
  pose proof (late_contents s st j Ho Hn Hl) as Hc. specialize (Hr j Hn).
  assert (Hz : total (held_w j) (workers s) = 0).
  { apply total_all_zero. intros w pc Hw. destruct (Hb w pc Hw) as (i & [->|[b ->]]); cbn; [reflexivity|].
    unfold same_job. rewrite bool_decide_false; [reflexivity|]. intros <-. destruct Hj as (a & b' & e & H & _). discriminate. }
  pose proof (total_app (is_add j) (take st (trace s)) (drop st (trace s))) as E. rewrite take_drop in E. lia.
Qed.

Lemma finish_job_not_null c i : finish_job c i <> null_job.
Proof. discriminate. Qed.

(** A client that was already in [util_queue_finish] before the step. *)
Lemma finish_ok_effect s s' c st : in_order s -> run_once s -> in_order s' -> run_once s' -> finish_ok s c st ->
  effect s s' -> trace s' <> trace s ++ [Ev_finish c] -> finish_ok s' c st.
Proof.
  intros Ho Hr Ho' Hr' Hf He Hne. pose proof Hf as [Hst Hlast Hq Hh Hd]. pose proof (lookup_lt_Some _ _ _ Hst) as Hlt.
  destruct He as [(_ & Hhe & Hb) Hc Ht|n j (_ & Hhe & Hb) Hc Ht|j (_ & Hhe & Hb) Hc Ht|w j _ Hb Hc Ht Hhe|w j _ Hc Ht Hhe Hb|k j pre (_ & Hhe & Hb) Hk Hn Hc Hpre Ht|c0 pc Hhe Hc Ht _ _ _ Hb _|c0 (_ & Hhe & Hb) Hc Ht _ _ _].
  - apply (finish_ok_step s s' c st []); rewrite ?app_nil_r; auto; [apply not_elem_of_nil|rewrite Hc; auto| |rewrite Hb; auto].
    intros i. rewrite Hhe. apply Hh.
  - eapply (finish_ok_step s s' c st); eauto; [set_solver| | |rewrite Hb; auto]; rewrite starts_app; cbn; rewrite app_nil_r.
    + rewrite Hc. exact Hq.
    + intros i. rewrite Hhe. apply Hh.
  - eapply (finish_ok_step s s' c st); eauto; [set_solver| | |rewrite Hb; auto]; rewrite starts_app; cbn; rewrite app_nil_r.
    + rewrite Hc. intros k i Hk. apply lookup_app_Some in Hk as [Hk|[Hk _]]; [exact (Hq k i Hk)|].
      pose proof (in_order_length s Ho) as Hl. pose proof (adds_app (take st (trace s)) (drop st (trace s))) as E.
      rewrite take_drop in E. rewrite E, length_app in Hl. lia.
    + intros i. rewrite Hhe. apply Hh.
  - eapply (finish_ok_step s s' c st); eauto; [set_solver| | |rewrite Hb; auto]; rewrite starts_app; cbn; rewrite length_app; cbn.
    + intros k i Hk. specialize (Hq (S k) i). rewrite Hc in Hq. specialize (Hq Hk). lia.
    + intros i. rewrite (Hhe (finish_job c i)) by discriminate. intros Hpos. specialize (Hh i). unfold same_job in Hpos.
      case_bool_decide as E; cbn in Hpos; [|lia]. specialize (Hq O i). rewrite Hc, E in Hq. specialize (Hq eq_refl). lia.
  - eapply (finish_ok_step s s' c st); eauto; [set_solver| | |]; try (rewrite starts_app; cbn; rewrite app_nil_r).
    + rewrite Hc. exact Hq.
    + intros i. rewrite Hhe. pose proof (same_job_bound (finish_job c i) j). intros Hpos. apply (Hh i). lia.
    + intros Hs. destruct (Hb c) as [Hb'|[(i & ->) Hall]]; [left; congruence|right]. apply (release_done s' c); try assumption.
      rewrite Ht. rewrite take_app_le by lia. rewrite starts_app. cbn. rewrite app_nil_r. apply (Hh i).
      specialize (Hhe (finish_job c i)). pose proof (total_nonneg (held_w (finish_job c i)) (workers s') (held_w_bound _)).
      unfold same_job in Hhe. rewrite bool_decide_true in Hhe by reflexivity. cbn in Hhe. lia.
  - eapply (finish_ok_step s s' c st); eauto; [destruct Hpre as [-> | ->]; set_solver| | |rewrite Hb; auto].
    all: rewrite starts_app; replace (starts (pre ++ [Ev_drop j])) with (@nil util_queue_job) by (destruct Hpre as [-> | ->]; reflexivity); rewrite app_nil_r.
    + rewrite Hc. intros k' i Hk'. destruct (decide (k = k')) as [<-|Hk2].
      * rewrite list_lookup_insert_eq in Hk' by (now apply lookup_lt_Some in Hk). injection Hk' as Hk'. discriminate.
      * rewrite list_lookup_insert_ne in Hk' by assumption. exact (Hq k' i Hk').
    + intros i. rewrite Hhe. apply Hh.
  - assert (Hcc : c <> c0) by congruence.
    eapply (finish_ok_step s s' c st); eauto; [set_solver| | |rewrite Hb by assumption; auto]; rewrite starts_app; cbn; rewrite app_nil_r.
    + rewrite Hc. exact Hq.
    + intros i. rewrite Hhe. apply Hh.
  - eapply (finish_ok_step s s' c st); eauto; [set_solver| | |rewrite Hb; auto]; rewrite starts_app; cbn; rewrite app_nil_r.
    + rewrite Hc. exact Hq.
    + intros i. rewrite Hhe. apply Hh.
Qed.

(** The call of [util_queue_finish] starts: no job of an earlier call is
    left. *)
Lemma finish_ok_start s s' c pc' : inv s -> clients s !! c = Some C_idle -> trace s' = trace s ++ [Ev_finish c] ->
  same_held s s' -> same_contents s s' -> start_of pc' = Some (length (trace s)) -> sequence (barrier_of s' c) = 0 ->
  finish_ok s' c (length (trace s)).
Proof.
  intros Hs Hc Ht Hh Hcon Hst Hseq.
  destruct (no_finish_jobs s Hs c (fun i => not_finishing s Hs c C_idle i Hc eq_refl)) as (H1 & H2 & H3).
  assert (Hheld : forall i, total (held_w (finish_job c i)) (workers s) <= 0).
  { intros i. rewrite <- (Z.add_0_r 0), <- H2 at 1. rewrite <- H3 at 1. rewrite <- total_plus. apply total_le. intros []; cbn; try lia.
    - rewrite Z.add_0_r. unfold same_job, fin. case_bool_decide as E; [rewrite E; cbn; rewrite bool_decide_true by reflexivity; cbn; lia | apply indicator_bound].
    - unfold same_job, fin. case_bool_decide as E; [rewrite E; cbn; rewrite bool_decide_true by reflexivity; cbn; lia | apply indicator_bound]. }
  split; rewrite ?Ht.
  - rewrite lookup_app_r by lia. now rewrite Nat.sub_diag.
  - intros n Hn. apply lookup_lt_Some in Hn. rewrite length_app in Hn. cbn in Hn. lia.
  - rewrite Hcon. intros k i Hk. pose proof (total_zero (fin c) _ _ _ (fun j => proj1 (fin_bound c j)) (Z.eq_le_incl _ _ H1) Hk) as Hz.
    now rewrite fin_self in Hz.
  - intros i. rewrite Hh. specialize (Hheld i). lia.
  - lia.
Qed.

Lemma tinv_effect s s' : inv s -> tinv s -> effect s s' -> tinv s'.
Proof.
  intros Hs [Ho Hr Hf] He. pose proof (in_order_effect s s' Ho He) as Ho'. pose proof (run_once_effect s s' Hr He) as Hr'.
  split; try assumption.
  assert (Hback : same_clients s s' -> (forall c, trace s' <> trace s ++ [Ev_finish c]) ->
    forall c pc st, clients s' !! c = Some pc -> start_of pc = Some st -> finish_ok s' c st).
  { intros Hcl Hne c pc st Hc Hst. destruct (Hcl c pc st Hc Hst) as (pc0 & Hc0 & Hst0). eapply (finish_ok_effect s s'); eauto. }
  pose proof He as He0.
  destruct He as [(Hcl & _) _ Ht|n j (Hcl & _) _ Ht|j (Hcl & _) _ Ht|w j Hcl _ _ Ht _|w j Hcl _ Ht _ _|k j pre (Hcl & _) _ _ _ Hpre Ht|c0 pc0 Hh Hcon Ht Hcs Hst0 Hidle Hb Hseq|c0 (Hcl & _) _ Ht _ _ _];
    try (apply Hback; [assumption|]; intros c; rewrite Ht; try (intros E; apply app_inv_head in E; discriminate)).
  - rewrite <- (app_nil_r (trace s)) at 1. intros E. apply app_inv_head in E. discriminate.
  - intros E. apply app_inv_head in E. destruct Hpre as [-> | ->]; discriminate.
  - intros c pc st Hc Hst. rewrite Hcs in Hc. destruct (decide (c0 = c)) as [<-|Hne].
    + rewrite list_lookup_insert_eq in Hc by (now apply lookup_lt_Some in Hidle). injection Hc as <-. rewrite Hst0 in Hst. injection Hst as <-.
      eapply finish_ok_start; eauto.
    + rewrite list_lookup_insert_ne in Hc by assumption. apply (finish_ok_effect s s'); eauto. rewrite Ht. intros E.
      apply app_inv_head in E. congruence.
Qed.

(** *** Completed calls *)

Definition finish_waits (t : list event) : Prop := forall c t1 t2 t3,
  t = t1 ++ Ev_finish c :: t2 ++ Ev_finished c :: t3 -> Ev_finish c ∉ t2 ->
  forall j, user_job j -> total (is_add j) t1 <= total (is_done j) (t1 ++ t2) + total (is_drop j) (t1 ++ t2).

Lemma finish_waits_snoc t e : finish_waits t -> (forall c, e <> Ev_finished c) -> finish_waits (t ++ [e]).
Proof.
  intros H He c t1 t2 t3 Ht Hn. induction t3 as [|e' t3 _] using rev_ind.
  - exfalso. rewrite app_comm_cons, app_assoc in Ht. apply app_inj_tail in Ht as [_ Ht]. now apply (He c).
  - apply (H c t1 t2 t3); [|assumption]. rewrite !app_comm_cons, !app_assoc in Ht. apply app_inj_tail in Ht as [-> _].
    now rewrite !app_comm_cons, !app_assoc.
Qed.

Lemma finish_waits_returns s c st : finish_ok s c st -> finish_waits (trace s) -> sequence (barrier_of s c) = 1 ->
  finish_waits (trace s ++ [Ev_finished c]).
Proof.
  intros [Hst Hlast _ _ Hd] H Hseq c' t1 t2 t3 Ht Hn. induction t3 as [|e' t3 _] using rev_ind.
  - rewrite app_comm_cons, app_assoc in Ht. apply app_inj_tail in Ht as [Ht Hc]. injection Hc as <-.
    assert (Hle : (length t1 <= st)%nat) by (apply Hlast; rewrite Ht, lookup_app_r by lia; now rewrite Nat.sub_diag).
    assert (Heq : st = length t1).
    { destruct (decide (st = length t1)) as [|Hne]; [assumption|]. exfalso. apply Hn. rewrite Ht, lookup_app_r in Hst by lia.
      destruct (st - length t1)%nat as [|n] eqn:E; [lia|]. eapply list_elem_of_lookup_2. exact Hst. }
    intros j Hj. specialize (Hd Hseq j Hj). rewrite Heq, Ht, take_app_length in Hd. rewrite !total_app in *. cbn in Hd. lia.
  - apply (H c' t1 t2 t3); [|assumption]. rewrite !app_comm_cons, !app_assoc in Ht. apply app_inj_tail in Ht as [-> _].
    now rewrite !app_comm_cons, !app_assoc.
Qed.

Lemma finish_waits_effect s s' : tinv s -> finish_waits (trace s) -> effect s s' -> finish_waits (trace s').
Proof.
  intros Ht Hf He.
  destruct He as [_ _ E|n j _ _ E|j _ _ E|w j _ _ _ E _|w j _ _ E _ _|k j pre _ _ _ _ Hpre E|c0 pc0 _ _ E _ _ _ _ _|c0 _ _ E Hseq (pc & st & Hc & Hst) _]; rewrite E;
    try (apply finish_waits_snoc; [assumption | discriminate]).
  - assumption.
  - destruct Hpre as [-> | ->]; [apply finish_waits_snoc; [assumption | discriminate]|].
    rewrite app_assoc.
    apply finish_waits_snoc; [|discriminate]. apply finish_waits_snoc; [assumption | discriminate].
  - apply (finish_waits_returns s c0 st); try assumption; exact (t_finish s Ht c0 pc st Hc Hst).
Qed.
