(* ===== verification/UQueueLive.v ===== *)
(** * The job queue makes progress (u_queue.c)

    As long as the queue is not told to terminate, the calls of its functions
    take a bounded number of steps in every schedule, and the threads only stop
    when all jobs are done and all calls have returned. *)

From stdpp Require Import base list gmap numbers.
From Stdlib Require Import ZArith Lia.
From S2P Require Import Prelude Arrays UQueue UQueueRing UQueueInv UQueueSteps UQueueCalls.
#[local] Open Scope Z_scope.
#[local] Open Scope c_scope.

(** ** A measure of the steps that are left *)

Section measure.
(** The number of threads of the queue and of clients. *)
Variables (n m : Z).

Definition run_cost : Z := 6 + 8 * m + n.
Definition job_cost : Z := run_cost + 1.

Definition rank_w (pc : worker) : Z :=
  match pc with
  | W_top | W_woken => 1
  | W_cleanup _ => 2
  | W_wake _ => 3 + 4 * m
  | W_signal _ => 4 + 8 * m
  | W_barrier _ _ false => 5 + 8 * m
  | W_barrier _ _ true => 6 + 8 * m
  | W_run _ => run_cost
  | _ => 0
  end.

Definition rank_finish_wait (i : nat) : Z := Z.max 0 (n - Z.of_nat i) * 7 + 1.
Definition rank_finish_add (i : nat) : Z := Z.max 0 (n - Z.of_nat i) * (job_cost + 4) + rank_finish_wait 0 + 1.

(** The steps after the function that the client is in. *)
Definition rank_cont (k : cont) : Z :=
  match k with
  | K_return => 0
  | K_add i _ => rank_finish_add (S i)
  | K_wait i _ => 1 + rank_finish_wait (S i)
  end.

Definition rank_c (fs : fence_vals) (pc : client) : Z :=
  match pc with
  | C_idle | C_join _ => 0
  | C_add_blocked _ k => rank_cont k + job_cost + 2
  | C_add_woken _ k => rank_cont k + job_cost + 3
  | C_drop _ => 8 + 8 * m
  | C_dropped _ => 2 + 8 * m
  | C_drop_wake _ => 1 + 4 * m
  | C_wait _ _ k => 5 + rank_cont k
  | C_reload _ _ k => 4 + rank_cont k
  | C_cmpxchg _ _ k => 3 + rank_cont k
  | C_futex f _ k => (if fence_val fs f =? 2 then 1 else 5) + rank_cont k
  | C_asleep _ _ k => rank_cont k
  | C_finish_lock _ => rank_finish_add 0 + 1
  | C_finish_add i _ => rank_finish_add i
  | C_finish_wait i _ => rank_finish_wait i
  | C_finish_destroy i _ => 1 + rank_finish_wait (S i)
  end.

Lemma rank_resume fs k : rank_c fs (resume k) = rank_cont k.
Proof. destruct k; reflexivity. Qed.
End measure.

Definition measure (s : system) : Z :=
  let n := len (workers s) in
  let m := len (clients s) in
  total (rank_w n m) (workers s) + total (rank_c n m (fences s)) (clients s) + job_cost n m * num_queued (queue s).

Section ranks.
Context (n m : Z) (Hn : 0 <= n) (Hm : 0 <= m).

Lemma rank_w_nonneg pc : 0 <= rank_w n m pc.
Proof using Hn Hm. destruct pc; cbn; unfold run_cost; try lia. destruct awake; lia. Qed.

Lemma rank_finish_wait_pos i : 1 <= rank_finish_wait n i.
Proof using. unfold rank_finish_wait. lia. Qed.

Lemma rank_finish_add_pos i : 2 <= rank_finish_add n m i.
Proof using Hn Hm. unfold rank_finish_add, job_cost, run_cost. pose proof (rank_finish_wait_pos 0). nia. Qed.

Lemma rank_cont_nonneg k : 0 <= rank_cont n m k.
Proof using Hn Hm. destruct k; cbn; [lia | pose proof (rank_finish_add_pos (S i)); lia | pose proof (rank_finish_wait_pos (S i)); lia]. Qed.

Lemma rank_c_nonneg fs pc : 0 <= rank_c n m fs pc.
Proof using Hn Hm.
  destruct pc; cbn; try (pose proof (rank_cont_nonneg k)); unfold job_cost, run_cost; try lia; try (destruct (_ =? _); lia);
    try (pose proof (rank_finish_add_pos 0); lia); try (pose proof (rank_finish_add_pos i); lia);
    try (pose proof (rank_finish_wait_pos i); lia); pose proof (rank_finish_wait_pos (S i)); lia.
Qed.

Lemma rank_finish_add_next i : Z.of_nat i < n -> rank_finish_add n m i = rank_finish_add n m (S i) + job_cost n m + 4.
Proof using. unfold rank_finish_add. intros. rewrite !Z.max_r by lia. lia. Qed.

Lemma rank_finish_wait_next i : Z.of_nat i < n -> rank_finish_wait n i = rank_finish_wait n (S i) + 7.
Proof using. unfold rank_finish_wait. intros. rewrite !Z.max_r by lia. lia. Qed.

(** A change of a fence costs at most four steps per client. *)
Lemma rank_signal f fs cs : m = len cs -> total (rank_c n m (<[f := 0]> fs)) cs <= total (rank_c n m fs) cs + 4 * m.
Proof using.
  intros E. assert (H : forall l, total (rank_c n m (<[f := 0]> fs)) l <= total (rank_c n m fs) l + 4 * len l); [|rewrite E at 3; apply H].
  unfold len. induction l as [|pc l IH]; cbn [total length]; [lia|].
  enough (rank_c n m (<[f := 0]> fs) pc <= rank_c n m fs pc + 4) by lia.
  destruct pc; cbn; try lia. rewrite fence_val_insert. destruct (decide _); [|lia]. destruct (fence_val fs _ =? 2); cbn; lia.
Qed.

Lemma rank_wake f fs cs : m = len cs -> total (rank_c n m fs) (cnd_broadcast (wake_futex f) cs) <= total (rank_c n m fs) cs + 4 * m.
Proof using.
  intros E. assert (H : forall l, total (rank_c n m fs) (cnd_broadcast (wake_futex f) l) <= total (rank_c n m fs) l + 4 * len l); [|rewrite E at 3; apply H].
  unfold len, cnd_broadcast. induction l as [|pc l IH]; cbn [total length map]; [lia|].
  enough (rank_c n m fs (default pc (wake_futex f pc)) <= rank_c n m fs pc + 4) by lia.
  destruct pc; cbn; try lia. destruct (decide _); cbn; lia.
Qed.

(** The other changes of a fence cost nothing. *)
Lemma rank_fence f v fs cs : (fence_val fs f = 2 -> v = 2) -> total (rank_c n m (<[f := v]> fs)) cs <= total (rank_c n m fs) cs.
Proof using.
  intros Hv. apply total_le. intros pc. destruct pc; cbn; try lia. rewrite fence_val_insert. destruct (decide (f = f0)) as [<-|]; [|lia].
  destruct (Z.eqb_spec (fence_val fs f) 2), (Z.eqb_spec v 2); lia.
Qed.

Lemma rank_signal_space fs choice cs cs' : cnd_signal wake_space choice cs = Some cs' ->
  total (rank_c n m fs) cs' <= total (rank_c n m fs) cs + 1.
Proof using.
  intros H. destruct (cnd_signal_spec _ _ _ _ H) as [(i & x & y & Hx & Hy & ->)|[-> _]]; [|lia].
  rewrite (total_insert _ _ _ _ _ Hx). destruct x; try discriminate. injection Hy as <-. cbn. lia.
Qed.

Lemma rank_signal_queued choice ws ws' : cnd_signal wake_queued choice ws = Some ws' ->
  total (rank_w n m) ws' <= total (rank_w n m) ws + 1.
Proof using.
  intros H. destruct (cnd_signal_spec _ _ _ _ H) as [(i & x & y & Hx & Hy & ->)|[-> _]]; [|lia].
  rewrite (total_insert _ _ _ _ _ Hx). destruct x; try discriminate. injection Hy as <-. cbn. lia.
Qed.

Lemma rank_broadcast c ws : total (rank_w n m) (cnd_broadcast (wake_barrier c) ws) <= total (rank_w n m) ws + len ws.
Proof using.
  unfold cnd_broadcast, len. induction ws as [|pc ws IH]; cbn [total length map]; [lia|].
  enough (rank_w n m (default pc (wake_barrier c pc)) <= rank_w n m pc + 1) by lia.
  destruct pc; cbn; try lia. destruct awake; cbn; [lia|]. destruct (decide _); cbn; lia.
Qed.
End ranks.

(** ** Every step decreases the measure *)

Lemma len_broadcast {A} (wake : A -> option A) l : len (cnd_broadcast wake l) = len l.
Proof. unfold len, cnd_broadcast. now rewrite length_map. Qed.

Lemma len_Forall2 {A} (R : A -> A -> Prop) l l' : Forall2 R l l' -> len l' = len l.
Proof. intros H. unfold len. now rewrite (Forall2_length H). Qed.

Lemma get_job_decreases s w pc choice s' : inv s -> kill_threads (queue s) = false -> workers s !! w = Some pc -> ready_w pc = 1 ->
  get_job w choice s = Some s' -> measure s' < measure s.
Proof.
  intros Hs Hk Hw Hr. pose proof (len_nonneg (workers s)) as Hn. pose proof (len_nonneg (clients s)) as Hm.
  assert (Hrank : forall n m, rank_w n m pc = 1) by (intros; destruct pc; try discriminate Hr; reflexivity).
  unfold get_job. rewrite Hk. cbn [negb andb]. destruct (Z.eqb_spec (num_queued (queue s)) 0) as [Hz|Hz].
  - intros [= <-]. unfold measure. cbn. sums. rewrite Hrank. cbn. lia.
  - pose proof (ring_num _ (i_ring s Hs)). pose proof (take_job_spec (queue s) (i_ring s Hs) ltac:(lia)) as Ht.
    destruct (take_job (queue s)) as [j q'] eqn:Et. destruct Ht as (_ & _ & _ & _ & _ & Hnum).
    destruct (cnd_signal _ _ _) as [cs|] eqn:Hcs; [|discriminate]. intros [= <-].
    pose proof (rank_signal_space (len (workers s)) (len (clients s)) (fences s) _ _ _ Hcs) as Hsp.
    destruct (signal_space _ _ _ Hcs) as [Hf _]. unfold measure. cbn. sums. rewrite (len_Forall2 _ _ _ Hf), Hnum, Hrank.
    unfold job_cost, run_cost in *. destruct (is_null (job j)); cbn; unfold run_cost; lia.
Qed.

Lemma worker_decreases s w choice s' : inv s -> kill_threads (queue s) = false -> worker_step w choice s = Ret (Some s') ->
  measure s' < measure s.
Proof.
  intros Hs Hk. pose proof (len_nonneg (workers s)) as Hn. pose proof (len_nonneg (clients s)) as Hm.
  unfold worker_step. destruct (workers s !! w) as [pc|] eqn:Hw; [|discriminate].
  pose proof (i_workers s Hs w pc Hw) as Hok. pose proof (i_over s Hs Hk) as Hover.
  pose proof (total_zero over (workers s) w pc (fun pc => proj1 (over_bound pc)) ltac:(lia) Hw) as Ho.
  destruct pc as [| | |j|j seq awake|j|j|j| | | |]; cbn in Ho; try discriminate.
  - destruct (lock s); [discriminate|]. destruct (num_queued_ok _); [|discriminate]. intros [= H]. now apply (get_job_decreases s w W_top choice).
  - destruct (lock s); [discriminate|]. intros [= H]. now apply (get_job_decreases s w W_woken choice).
  - assert (Hgo : measure (emit (Ev_done w j) (set_worker w (W_signal j) s)) < measure s) by (unfold measure; cbn; sums; cbn; unfold run_cost; lia).
    destruct Hok as [Hnn [Hj|[Hj|(c & i & ->)]]]; [contradiction| |].
    { destruct Hj as (a & b & e & Hjob & Hf & Hb & He). rewrite He. now intros [= <-]. }
    cbn. unfold finish_execute. destruct (util_barrier_arrive _) as [[b []]| |]; [| |discriminate..]; intros [= <-]; unfold measure; cbn.
    + sums. cbn. unfold run_cost. lia.
    + assert (Hw' : cnd_broadcast (wake_barrier c) (workers s) !! w = Some (W_run (finish_job c i))) by
        (unfold cnd_broadcast; rewrite list_lookup_fmap, Hw; reflexivity).
      sums. rewrite len_broadcast. pose proof (rank_broadcast (len (workers s)) (len (clients s)) c (workers s)). cbn. unfold run_cost. lia.
  - destruct Hok as [-> (c & i & ->)]. change (job (finish_job c i)) with (Barrier c). cbv iota. destruct awake; [|discriminate].
    destruct (_ =? _); intros [= <-]; unfold measure; cbn; sums; cbn; lia.
  - unfold util_queue_fence_signal. destruct (negb _); [|discriminate]. cbn [c_assert obind]. intros [= <-]. unfold measure. cbn. sums.
    pose proof (rank_signal (len (workers s)) (len (clients s)) (fence j) (fences s) (clients s) eq_refl).
    destruct (_ =? 2); cbn; lia.
  - intros [= <-]. unfold measure. cbn. sums. rewrite len_broadcast.
    pose proof (rank_wake (len (workers s)) (len (clients s)) (fence j) (fences s) (clients s) eq_refl). cbn. lia.
  - destruct (negb _); intros [= <-]; unfold measure; cbn; sums; cbn; lia.
Qed.

Lemma enqueue_decreases s c pc j k choice s' : ring_ok (queue s) -> clean (queue s) ->
  num_queued (queue s) < max_jobs (queue s) -> clients s !! c = Some pc ->
  rank_c (len (workers s)) (len (clients s)) (fences s) pc > rank_cont (len (workers s)) (len (clients s)) k + job_cost (len (workers s)) (len (clients s)) + 1 ->
  enqueue c j k choice s = Ret (Some s') -> measure s' < measure s.
Proof.
  intros Hr Hcl Hn Hc Hrank. unfold enqueue.
  destruct (put_job_spec (queue s) j Hr Hcl Hn) as (q' & Hput & _ & _ & _ & _ & _ & Hnum). rewrite Hput. cbn [obind].
  destruct (cnd_signal _ _ _) as [ws|] eqn:Hw; [|discriminate]. intros [= <-]. destruct (signal_queued _ _ _ Hw) as [Hf _].
  pose proof (rank_signal_queued (len (workers s)) (len (clients s)) _ _ _ Hw).
  unfold measure. cbn. sums. rewrite (len_Forall2 _ _ _ Hf), Hnum, rank_resume. lia.
Qed.

Lemma measure_fence s f v : (fence_val (fences s) f = 2 -> v = 2) -> measure (s <| fences := <[f := v]> (fences s) |>) <= measure s.
Proof.
  intros Hv. unfold measure. cbn. pose proof (rank_fence (len (workers s)) (len (clients s)) f v (fences s) (clients s) Hv). lia.
Qed.

Lemma add_job_decreases s c pc j k choice s' : inv s -> kill_threads (queue s) = false -> max_jobs (queue s) < 2 ^ 31 - 8 ->
  clients s !! c = Some pc ->
  (forall fs, rank_c (len (workers s)) (len (clients s)) fs pc > rank_cont (len (workers s)) (len (clients s)) k + job_cost (len (workers s)) (len (clients s)) + 2) ->
  util_queue_add_job c j k choice s = Ret (Some s') -> measure s' < measure s.
Proof.
  intros Hs Hk Hm Hc Hrank. unfold util_queue_add_job. destruct (lock s); [discriminate|]. rewrite Hk.
  unfold util_queue_fence_reset. destruct (Z.eqb_spec (fence_val (fences s) (fence j)) 0) as [Hv|]; [|discriminate]. cbn [c_assert obind]. cbv zeta.
  pose proof (measure_fence s (fence j) 1 ltac:(lia)) as Hmf.
  set (s1 := _ <| fences := _ |>) in *. change (queue s1) with (queue s). pose proof (ring_num _ (i_ring s Hs)).
  destruct (num_queued_ok _); [|discriminate]. cbn [c_assert].
  destruct (Z.eqb_spec (num_queued (queue s)) (max_jobs (queue s))) as [Hn|Hn].
  - destruct (negb _).
    + destruct (grow_spec (queue s) (i_ring s Hs) Hn Hm) as (q' & Hg & _ & Hr & Hcl & _ & Hmax & Hnum). rewrite Hg. cbn [obind].
      intros H'. refine (Z.lt_le_trans _ _ _ (enqueue_decreases _ c pc j k choice s' _ _ _ _ _ H') _); cbn; try assumption; [lia | specialize (Hrank (fences s1)); cbn in Hrank; lia |].
      unfold measure in *. cbn in *. rewrite Hnum. exact Hmf.
    + intros [= <-]. specialize (Hrank (fences s1)). unfold measure in *. cbn in *. sums. cbn. lia.
  - intros H'. refine (Z.lt_le_trans _ _ _ (enqueue_decreases s1 c pc j k choice s' _ _ _ _ _ H') Hmf); cbn; try assumption;
      [apply Hs | now apply (i_clean s Hs) | lia | specialize (Hrank (fences s1)); cbn in Hrank; lia].
Qed.

Lemma client_decreases s c choice s' : inv s -> kill_threads (queue s) = false -> max_jobs (queue s) < 2 ^ 31 - 8 ->
  client_step c choice s = Ret (Some s') -> measure s' < measure s.
Proof.
  intros Hs Hk Hmax. pose proof (len_nonneg (workers s)) as Hn. pose proof (len_nonneg (clients s)) as Hm.
  unfold client_step, fence_wait, fence_reload, fence_exchange, fence_sleep, finish_add, finish_wait, join_threads. destruct (clients s !! c) as [pc|] eqn:Hc; [|discriminate].
  assert (Hmove : forall pc' s', clients s' = <[c := pc']> (clients s) -> workers s' = workers s -> fences s' = fences s -> queue s' = queue s ->
    rank_c (len (workers s)) (len (clients s)) (fences s) pc' < rank_c (len (workers s)) (len (clients s)) (fences s) pc -> measure s' < measure s).
  { intros pc' s2 H1 H2 H3 H4 H5. unfold measure. rewrite H1, H2, H3, H4. sums. lia. }
  destruct pc as [|j k|j k|f|f|f|f t k|f t k|f t k|f t k|f t k|st|i st|i st|i st|i]; try discriminate; cbv zeta.
  - destruct (lock s); [discriminate|]. pose proof (ring_num _ (i_ring s Hs)).
    destruct (Z.eqb_spec (num_queued (queue s)) (max_jobs (queue s))) as [Hf|Hf].
    + intros [= <-]. eapply Hmove; try reflexivity. cbn. lia.
    + intros H'. apply (enqueue_decreases s c _ j k choice s' (i_ring s Hs) (i_clean s Hs Hk) ltac:(lia) Hc); [cbn; lia | assumption].
  - destruct (lock s); [discriminate|]. unfold drop_section, drop_search. destruct (find_fence _ _ _ _); intros [= <-].
    + unfold measure. destruct (negb _); cbn; sums; cbn; lia.
    + eapply Hmove; try reflexivity. cbn. lia.
  - unfold util_queue_fence_signal. destruct (negb _); [|discriminate]. cbn [c_assert obind]. intros [= <-]. unfold measure. cbn. sums.
    pose proof (rank_signal (len (workers s)) (len (clients s)) f (fences s) (clients s) eq_refl). destruct (_ =? 2); cbn; lia.
  - intros [= <-]. unfold measure. cbn. pose proof (futex_wake_client f s c _ Hc eq_refl) as Hc'. cbn in Hc'. sums. rewrite len_broadcast.
    pose proof (rank_wake (len (workers s)) (len (clients s)) f (fences s) (clients s) eq_refl). cbn. lia.
  - intros [= <-]. eapply Hmove; try reflexivity. destruct (util_queue_fence_is_signalled _ _); rewrite ?rank_resume; cbn; lia.
  - intros [= <-]. eapply Hmove; try reflexivity. destruct (_ =? 0); rewrite ?rank_resume; [cbn; lia|].
    destruct (Z.eqb_spec (fence_val (fences s) f) 2) as [E|E]; cbn; [rewrite E; cbn|]; lia.
  - unfold fence_cmpxchg. intros [= <-]. destruct (Z.eqb_spec (fence_val (fences s) f) 1) as [E|E].
    + rewrite E. cbn. pose proof (measure_fence s f 2 ltac:(reflexivity)) as Hmf. unfold measure in *. cbn in *. sums. cbn. rewrite fence_val_insert, decide_True by reflexivity. cbn. lia.
    + pose proof (i_vals s Hs f). unfold measure. cbn. sums. destruct (Z.eqb_spec (fence_val (fences s) f) 0); rewrite ?rank_resume; cbn; [lia|].
      replace (fence_val (fences s) f) with 2 by lia. cbn. lia.
  - intros [= <-]. eapply Hmove; try reflexivity. destruct (Z.eqb_spec (fence_val (fences s) f) 2) as [E|E]; cbn.
    + rewrite E. cbn. lia.
    + rewrite (proj2 (Z.eqb_neq _ _) E). lia.
  - destruct (finish_lock s); [discriminate|]. intros [= <-]. eapply Hmove; try reflexivity. cbn. lia.
  - rewrite (i_num_threads s Hs Hk). destruct (Z.ltb_spec (Z.of_nat i) (len (workers s))) as [Hi|Hi].
    + intros H'. destruct (init_fence_inv s c i st Hs Hc) as [Hv Hs1].
      pose proof (measure_fence s (finish_fence c i) 0 ltac:(lia)) as Hmf. refine (Z.lt_le_trans _ _ _ _ Hmf).
      match type of H' with util_queue_add_job _ _ _ _ ?x = _ => set (s1 := x) in * end.
      apply (add_job_decreases s1 c (C_finish_add i st) (finish_job c i) (K_add i st) choice s' Hs1 Hk Hmax Hc); [|exact H'].
      intros fs. cbn. rewrite (rank_finish_add_next (len (workers s)) (len (clients s)) i) by lia. lia.
    + intros [= <-]. eapply Hmove; try reflexivity. cbn. unfold rank_finish_add, job_cost, run_cost. nia.
  - rewrite (i_num_threads s Hs Hk). destruct (Z.ltb_spec (Z.of_nat i) (len (workers s))) as [Hi|Hi].
    + intros [= <-]. eapply Hmove; try reflexivity. cbn. rewrite (rank_finish_wait_next _ i) by lia. lia.
    + destruct (util_barrier_destroy _); [|discriminate..]. intros [= <-]. eapply Hmove; try reflexivity. cbn. pose proof (rank_finish_wait_pos (len (workers s)) i). lia.
  - destruct (util_queue_fence_destroy _ _); [|discriminate..]. intros [= <-]. eapply Hmove; try reflexivity. cbn. lia.
  - now rewrite (i_join s Hs c i Hc) in Hk.
Qed.

(** ** Threads stop only when everything is done *)

(** No thread of the queue and no client that is in a function of the queue can
    take a step. *)
Definition stuck (s : system) : Prop :=
  (forall w choice, worker_step w choice s = Ret None) /\ (forall c choice, client_step c choice s = Ret None).

Lemma cnd_signal_exists {A} (wake : A -> option A) l : exists choice l', cnd_signal wake choice l = Some l'.
Proof.
  destruct (forallb (fun x => match wake x with Some _ => false | None => true end) l) eqn:Hf.
  - exists None, l. cbn. now rewrite Hf.
  - assert (Hex : exists i x y, l !! i = Some x /\ wake x = Some y).
    { clear -Hf. induction l as [|x l IH]; [discriminate|]. cbn in Hf. destruct (wake x) as [y|] eqn:Hx.
      - exists O, x, y. auto.
      - destruct (IH Hf) as (i & x' & y & H1 & H2). exists (S i), x', y. auto. }
    destruct Hex as (i & x & y & Hx & Hy). exists (Some i), (<[i := y]> l). cbn. rewrite Hx. cbn. now rewrite Hy.
Qed.

Lemma unlocked s : inv s -> kill_threads (queue s) = false -> lock s = false.
Proof.
  intros Hs Hk. destruct (lock s) eqn:Hl; [|reflexivity]. pose proof (i_lock s Hs) as H. rewrite Hl in H. cbn in H.
  pose proof (i_over s Hs Hk). pose proof (total_le exiting over (workers s) ltac:(intros []; cbn; lia)). lia.
Qed.

Lemma stuck_worker s w pc : inv s -> kill_threads (queue s) = false -> stuck s -> workers s !! w = Some pc ->
  pc = W_blocked \/ exists c i, pc = W_barrier (finish_job c i) 0 false.
Proof.
  intros Hs Hk [Hst _] Hw. pose proof (unlocked s Hs Hk) as Hl.
  assert (Hst' : forall choice, worker_step w choice s = Ret None) by auto. clear Hst.
  pose proof (i_workers s Hs w pc Hw) as Hok. pose proof (worker_step_inv s w None Hs) as Hgood.
  pose proof (i_over s Hs Hk) as Hover.
  pose proof (total_zero over (workers s) w pc (fun pc => proj1 (over_bound pc)) ltac:(lia) Hw) as Ho.
  assert (Hget : ready_w pc = 1 -> exists choice s', get_job w choice s = Some s').
  { intros _. unfold get_job. rewrite Hk. cbn [negb andb]. destruct (_ =? 0); [exists None; eauto|]. destruct (take_job (queue s)) as [j q'].
    destruct (cnd_signal_exists wake_space (clients s)) as (ch & cs & Hcs). exists ch. rewrite Hcs. cbn. eauto. }
  unfold worker_step in Hst'. setoid_rewrite Hw in Hst'.
  destruct pc as [| | |j|j seq awake|j|j|j| | | |]; cbn in Ho; try discriminate; try (specialize (Hst' None); discriminate Hst').
  - destruct (Hget eq_refl) as (ch & s' & Hs'). specialize (Hst' ch). rewrite Hl in Hst'.
    destruct (num_queued_ok _); cbn in Hst'; [rewrite Hs' in Hst'|]; discriminate.
  - now left.
  - destruct (Hget eq_refl) as (ch & s' & Hs'). specialize (Hst' ch). rewrite Hl, Hs' in Hst'. discriminate.
  - exfalso. specialize (Hst' None). destruct Hok as [_ [Hj|[Hj|(c & i & ->)]]].
    + destruct (execute j); [discriminate|]. rewrite Hj in Hst'. discriminate.
    + destruct Hj as (a & b & e & _ & _ & _ & He). rewrite He in Hst'. discriminate.
    + cbn in Hst'. unfold finish_execute in Hst'. destruct (util_barrier_arrive _) as [[b []]| |]; discriminate.
  - destruct Hok as [-> (c & i & ->)]. destruct awake; [|right; eauto]. exfalso. specialize (Hst' None).
    change (job (finish_job c i)) with (Barrier c) in Hst'. cbv iota in Hst'. destruct (_ =? _); discriminate.
  - exfalso. specialize (Hst' None). destruct (util_queue_fence_signal _ _) as [[]| |]; discriminate.
Qed.

Lemma enqueue_moves s c j k : inv s -> kill_threads (queue s) = false -> num_queued (queue s) < max_jobs (queue s) ->
  exists choice s', enqueue c j k choice s = Ret (Some s').
Proof.
  intros Hs Hk Hn. unfold enqueue. destruct (put_job_spec (queue s) j (i_ring s Hs) (i_clean s Hs Hk) Hn) as (q' & -> & _). cbn [obind].
  destruct (cnd_signal_exists wake_queued (workers s)) as (ch & ws & Hws). exists ch. rewrite Hws. cbn. eauto.
Qed.

Lemma add_job_moves s c j k : inv s -> kill_threads (queue s) = false -> max_jobs (queue s) < 2 ^ 31 - 8 -> fence_val (fences s) (fence j) = 0 ->
  exists choice s', util_queue_add_job c j k choice s = Ret (Some s').
Proof.
  intros Hs Hk Hm Hv. unfold util_queue_add_job. rewrite (unlocked s Hs Hk), Hk.
  unfold util_queue_fence_reset. rewrite Hv. cbn [Z.eqb c_assert obind]. cbv zeta.
  set (s1 := _ <| fences := _ |>) in *. change (queue s1) with (queue s). pose proof (ring_num _ (i_ring s Hs)).
  assert (Hnq : num_queued_ok (queue s) = true) by
    (unfold num_queued_ok; rewrite Z.geb_leb, (proj2 (Z.leb_le _ _)), (proj2 (Z.leb_le _ _)) by lia; reflexivity).
  rewrite Hnq. cbn [c_assert]. destruct (cnd_signal_exists wake_queued (workers s)) as (ch & ws & Hws). exists ch. unfold enqueue.
  destruct (Z.eqb_spec (num_queued (queue s)) (max_jobs (queue s))) as [Hn|Hn].
  - destruct (negb _); [|eauto]. destruct (grow_spec (queue s) (i_ring s Hs) Hn Hm) as (q' & -> & _ & Hr & Hcl & _ & Hmax & Hnum). cbn [obind].
    destruct (put_job_spec q' j Hr Hcl ltac:(lia)) as (q2 & Hp & _). cbn. rewrite Hp. cbn. rewrite Hws. cbn. eauto.
  - destruct (put_job_spec (queue s) j (i_ring s Hs) (i_clean s Hs Hk) ltac:(lia)) as (q' & Hp & _). cbn. rewrite Hp. cbn. rewrite Hws. cbn. eauto.
Qed.

Lemma stuck_client s c pc : inv s -> kill_threads (queue s) = false -> max_jobs (queue s) < 2 ^ 31 - 8 -> stuck s -> clients s !! c = Some pc ->
  match pc with
  | C_idle | C_add_blocked _ _ | C_asleep _ _ _ => True
  | C_finish_lock _ => finish_lock s = true
  | _ => False
  end.
Proof.
  intros Hs Hk Hm [_ Hst] Hc. pose proof (unlocked s Hs Hk) as Hl. pose proof (ring_num _ (i_ring s Hs)).
  assert (Hst' : forall choice, client_step c choice s = Ret None) by auto. clear Hst. unfold client_step, fence_wait, fence_reload, fence_exchange, fence_sleep, finish_add, finish_wait, join_threads in Hst'. setoid_rewrite Hc in Hst'.
  destruct pc as [|j k|j k|f|f|f|f t k|f t k|f t k|f t k|f t k|st|i st|i st|i st|i]; try exact I; try (specialize (Hst' None); discriminate Hst').
  - destruct (Z.eqb_spec (num_queued (queue s)) (max_jobs (queue s))) as [Hn|Hn].
    + specialize (Hst' None). rewrite Hl in Hst'. discriminate.
    + destruct (enqueue_moves s c j k Hs Hk ltac:(lia)) as (ch & s' & He). specialize (Hst' ch). rewrite Hl, He in Hst'. discriminate.
  - specialize (Hst' None). rewrite Hl in Hst'. discriminate.
  - specialize (Hst' None). destruct (util_queue_fence_signal _ _) as [[]| |]; discriminate.
  - specialize (Hst' None). destruct (finish_lock s); [reflexivity | discriminate].
  - destruct (init_fence_inv s c i st Hs Hc) as [Hv Hs1].
    destruct (Z.of_nat i <? num_threads (queue s)); [|specialize (Hst' None); discriminate].
    match type of Hs1 with inv ?x => set (s1 := x) in * end.
    destruct (add_job_moves s1 c (finish_job c i) (K_add i st) Hs1 Hk Hm) as (ch & s' & He).
    + cbn. unfold util_queue_fence_init. rewrite fence_val_insert. now rewrite decide_True.
    + specialize (Hst' ch). cbv zeta in Hst'. fold s1 in Hst'. rewrite He in Hst'. discriminate.
  - specialize (Hst' None). destruct (_ <? _); [discriminate|]. destruct (util_barrier_destroy _); discriminate.
  - specialize (Hst' None). destruct (util_queue_fence_destroy _ _); discriminate.
  - now rewrite (i_join s Hs c i Hc) in Hk.
Qed.

Section stuck.
Context (s : system) (Hs : inv s) (Hk : kill_threads (queue s) = false) (Hmax : max_jobs (queue s) < 2 ^ 31 - 8) (Hst : stuck s).

Lemma stuck_no_ready : total ready_w (workers s) = 0.
Proof using Hs Hk Hst. apply total_all_zero. intros w pc Hw. destruct (stuck_worker s w pc Hs Hk Hst Hw) as [->|(c & i & ->)]; reflexivity. Qed.

Lemma stuck_no_woken : total woken_c (clients s) = 0.
Proof using Hs Hk Hst Hmax. apply total_all_zero. intros c pc Hc. pose proof (stuck_client s c pc Hs Hk Hmax Hst Hc). destruct pc; (reflexivity || contradiction). Qed.

Lemma stuck_empty w : workers s !! w = Some W_blocked -> num_queued (queue s) = 0.
Proof using Hs Hk Hst.
  intros Hw. pose proof (total_lookup blocked_w _ _ _ (fun pc => proj1 (blocked_w_bound pc)) Hw) as Hb. cbn in Hb.
  pose proof (i_queued s Hs Hk ltac:(lia)). pose proof stuck_no_ready. pose proof (ring_num _ (i_ring s Hs)). lia.
Qed.

Lemma stuck_no_adder c pc : num_queued (queue s) = 0 -> clients s !! c = Some pc -> blocked_c pc = 0.
Proof using Hs Hk Hst Hmax.
  intros Hn Hc. pose proof (total_lookup blocked_c _ _ _ (fun pc => proj1 (blocked_c_bound pc)) Hc) as Hb.
  pose proof (blocked_c_bound pc). destruct (Z.eq_dec (blocked_c pc) 0); [assumption|].
  pose proof (i_space s Hs Hk ltac:(lia)). pose proof stuck_no_woken. pose proof (ring_max _ (i_ring s Hs)). lia.
Qed.

(** A thread asleep in the barrier of client [c]: the client is in the call and
    the barrier is not released. *)
Lemma stuck_sleeper w c i : workers s !! w = Some (W_barrier (finish_job c i) 0 false) ->
  exists pc a r v, clients s !! c = Some pc /\ stage (length (workers s)) pc = Some (a, r, v) /\ holds_finish pc = 1 /\
    1 <= total (bar_w c) (workers s) < len (workers s) /\
    total (fin c) (contents (queue s)) + total (bar_w c) (workers s) = Z.of_nat a.
Proof using Hs Hk Hst.
  intros Hw. pose proof (worker_owner s Hs w _ (finish_fence c i) Hw (hit_self c i)) as Hv.
  destruct (i_finish_fences s Hs c i Hv) as (pc & a & r & v & Hc & Hsg & Hr).
  destruct (i_stage s Hs c pc a r v Hc Hsg) as (_ & _ & _ & [Hcount HB]).
  pose proof (total_lookup (sleep_w c) _ _ _ (fun pc => proj1 (sleep_w_bound c pc)) Hw) as Hsl. cbn in Hsl. rewrite fin_self in Hsl.
  pose proof (total_lookup (bar_w c) _ _ _ (fun pc => proj1 (bar_w_bound c pc)) Hw) as Hba. cbn in Hba. rewrite fin_self in Hba.
  assert (Hrun : total (run_w c) (workers s) = 0).
  { apply total_all_zero. intros w' pc' Hw'. destruct (stuck_worker s w' pc' Hs Hk Hst Hw') as [->|(c' & i' & ->)]; reflexivity. }
  exists pc, a, r, v. destruct HB as [HB|HB]; [|lia]. repeat split; try assumption; try lia.
  pose proof (total_nonneg (fin c) (contents (queue s)) (fun j => proj1 (fin_bound c j))).
  assert (Ha : (0 < a)%nat) by lia. clear -Hsg Ha. destruct pc; try discriminate; cbn in *; try (destruct k; try discriminate; reflexivity); try reflexivity.
  injection Hsg as <- <- <-. lia.
Qed.

Lemma stuck_blocked w pc : workers s !! w = Some pc -> pc = W_blocked.
Proof using Hs Hk Hst Hmax.
  intros Hw. destruct (stuck_worker s w pc Hs Hk Hst Hw) as [|(c & i & ->)]; [assumption|]. exfalso.
  destruct (stuck_sleeper w c i Hw) as (pc & a & r & v & Hc & Hsg & Hh & Hbar & Hsum).
  assert (Hex : exists w', workers s !! w' = Some W_blocked).
  { destruct (Z_lt_ge_dec 0 (total blocked_w (workers s))) as [Hb|Hb].
    - destruct (total_pos _ _ Hb) as (w' & pc' & Hw' & Hp). exists w'. destruct pc'; cbn in Hp; (assumption || lia).
    - exfalso. enough (len (workers s) <= total (bar_w c) (workers s)) by lia.
      enough (Hall : forall w' pc', workers s !! w' = Some pc' -> bar_w c pc' = 1).
      { clear -Hall. unfold len. induction (workers s) as [|x l IH]; cbn [total length]; [lia|].
        pose proof (Hall O x eq_refl). specialize (IH (fun w' pc' H => Hall (S w') pc' H)). lia. }
      intros w' pc' Hw'. destruct (stuck_worker s w' pc' Hs Hk Hst Hw') as [->|(c' & i' & ->)].
      + pose proof (total_lookup blocked_w _ _ _ (fun pc => proj1 (blocked_w_bound pc)) Hw') as H. cbn in H. lia.
      + destruct (stuck_sleeper w' c' i' Hw') as (pc2 & a2 & r2 & v2 & Hc2 & _ & Hh2 & _).
        destruct (decide (c = c')) as [<-|Hne]; [apply fin_self|]. exfalso.
        pose proof (total_lookup_2 holds_finish _ _ _ _ _ (fun pc => proj1 (holds_finish_bound pc)) Hne Hc Hc2) as H2.
        rewrite (i_finish_lock s Hs) in H2. pose proof (indicator_bound (finish_lock s)). lia. }
  destruct Hex as [w' Hw']. pose proof (stuck_empty w' Hw') as Hn.
  assert (Hcon : contents (queue s) = []) by (apply nil_length_inv; rewrite contents_length, Hn; reflexivity).
  rewrite Hcon in Hsum. cbn in Hsum. pose proof (stuck_no_adder c pc Hn Hc) as Hb. pose proof (stuck_client s c pc Hs Hk Hmax Hst Hc) as Hcl.
  destruct pc; try contradiction; try discriminate.
  destruct k; try discriminate. injection Hsg as <- <- <-. unfold len in *. lia.
Qed.

Lemma stuck_done :
  num_queued (queue s) = 0 /\ (forall f, fence_val (fences s) f = 0) /\
  (forall c pc, clients s !! c = Some pc -> pc = C_idle) /\ (forall w pc, workers s !! w = Some pc -> pc = W_blocked).
Proof using Hs Hk Hst Hmax.
  assert (Hn : num_queued (queue s) = 0).
  { pose proof (i_threads s Hs). destruct (workers s !! O) as [pc|] eqn:E; [|apply lookup_ge_None in E; unfold len in *; lia].
    pose proof (stuck_blocked O pc E) as ->. exact (stuck_empty O E). }
  assert (Hcon : contents (queue s) = []) by (apply nil_length_inv; rewrite contents_length, Hn; reflexivity).
  assert (Hv : forall f, fence_val (fences s) f = 0).
  { intros f. pose proof (i_owners_eq s Hs (i_clean s Hs Hk) f) as H. unfold owners in H. rewrite Hcon in H.
    rewrite (total_all_zero (own_w f)) in H by (intros w pc Hw; now rewrite (stuck_blocked w pc Hw)).
    rewrite (total_all_zero (own_c f)) in H.
    - unfold live, util_queue_fence_is_signalled in H. destruct (Z.eqb_spec (fence_val (fences s) f) 0); [assumption | discriminate].
    - intros c pc Hc. pose proof (stuck_client s c pc Hs Hk Hmax Hst Hc). pose proof (stuck_no_adder c pc Hn Hc). destruct pc; try contradiction; try discriminate; reflexivity. }
  split; [assumption|]. split; [assumption|]. split; [|exact stuck_blocked].
  assert (Hkind : forall c pc, clients s !! c = Some pc -> pc = C_idle \/ exists st, pc = C_finish_lock st /\ finish_lock s = true).
  { intros c pc Hc. pose proof (stuck_client s c pc Hs Hk Hmax Hst Hc) as Hcl. pose proof (stuck_no_adder c pc Hn Hc).
    destruct pc; try contradiction; try discriminate; [now left| |right; eauto]. exfalso.
    destruct (i_asleep s Hs c _ _ _ Hc) as [H2|H2]; [rewrite Hv in H2; discriminate|].
    rewrite (total_all_zero (pend_w f)), (total_all_zero (pend_c f)) in H2; [lia| |].
    - intros c' pc' Hc'. pose proof (stuck_client s c' pc' Hs Hk Hmax Hst Hc') as H3. destruct pc'; (reflexivity || contradiction).
    - intros w pc Hw. now rewrite (stuck_blocked w pc Hw). }
  intros c pc Hc. destruct (Hkind c pc Hc) as [|(st & -> & Hfl)]; [assumption|]. exfalso.
  pose proof (i_finish_lock s Hs) as H. rewrite Hfl in H. cbn in H. rewrite (total_all_zero holds_finish) in H; [lia|].
  intros c' pc' Hc'. destruct (Hkind c' pc' Hc') as [->|(st' & -> & _)]; reflexivity.
Qed.
End stuck.
