(* ===== verification/UQueueProps.v ===== *)
(** * Properties of the job queue (u_queue.c)

    The theorems about every run of the threads and clients from an initialised
    queue, in any schedule, as long as the clients keep to the contract of the
    functions ([allowed]). *)

From stdpp Require Import base list gmap numbers relations.
From Stdlib Require Import ZArith Lia.
From S2P Require Import Prelude Arrays UQueue UQueueRing UQueueInv UQueueSteps UQueueCalls.
From S2P Require Import UQueueTrace UQueueLive.
#[local] Open Scope Z_scope.
#[local] Open Scope c_scope.

(** ** The initial state *)

Lemma init_queue n_jobs n_threads flag created q :
  0 < n_jobs < 2 ^ 31 - 8 -> 0 < n_threads < 2 ^ 31 -> util_queue_init n_jobs n_threads flag true true created = Some q ->
  exists n, 0 < n < 2 ^ 31 /\ q = Queue flag 0 n false n_jobs 0 0 (replicate (Z.to_nat n_jobs) null_job).
Proof.
  intros Hj Ht. unfold util_queue_init. cbn [negb]. rewrite i32_small by lia.
  destruct (Z.ltb_spec (Z.of_nat created) n_threads); [|intros [= <-]; eauto].
  destruct (Nat.eqb_spec created 0); [discriminate|]. intros [= <-]. exists (Z.of_nat created). split; [lia | reflexivity].
Qed.

Definition started (q : util_queue) (n : nat) (s : system) : Prop := star step (start_system q n) s.

Section start.
Context (flag n n_jobs : Z) (m : nat) (Hn : 0 < n < 2 ^ 31) (Hj : 0 < n_jobs < 2 ^ 31 - 8).
Let q := Queue flag 0 n false n_jobs 0 0 (replicate (Z.to_nat n_jobs) null_job).
Let s := start_system q m.

Lemma start_worker w pc : workers s !! w = Some pc -> pc = W_top.
Proof using. cbn. intros H. now apply lookup_replicate in H as [-> _]. Qed.

Lemma start_client c pc : clients s !! c = Some pc -> pc = C_idle.
Proof using. cbn. intros H. now apply lookup_replicate in H as [-> _]. Qed.

Lemma start_ring : ring_ok q /\ clean q /\ contents q = [].
Proof using Hj.
  split; [|split; [|reflexivity]].
  - split; cbn; try lia; [rewrite len_replicate; lia|]. unfold pos. cbn. now rewrite Z.mod_0_l by lia.
  - intros k _. change (job (get null_job (replicate (Z.to_nat n_jobs) null_job) (pos q k)) = Null). now rewrite get_replicate.
Qed.

Lemma start_inv : inv s /\ calm s.
Proof using Hn Hj.
  destruct start_ring as (Hr & Hc & Hcon).
  assert (Hw : forall g, g W_top = 0 -> total g (workers s) = 0) by (intros g Hg; apply total_all_zero; intros w pc H; now rewrite (start_worker w pc H)).
  assert (Hcl : forall g, g C_idle = 0 -> total g (clients s) = 0) by (intros g Hg; apply total_all_zero; intros c pc H; now rewrite (start_client c pc H)).
  assert (Hlen : len (workers s) = n) by (unfold len; cbn; rewrite length_replicate; lia).
  split; [|intros _ c pc H; rewrite (start_client c pc H); auto].
  split; rewrite ?Hlen; try assumption; try (rewrite ?Hw, ?Hcl by reflexivity); try reflexivity; auto.
  - intros w pc H. now rewrite (start_worker w pc H).
  - intros c pc H. now rewrite (start_client c pc H).
  - intros f. cbn. unfold fence_val. rewrite lookup_empty. cbn. lia.
  - intros f. unfold owners. rewrite Hw, Hcl by reflexivity. reflexivity.
  - intros _ f. unfold owners. rewrite Hw, Hcl by reflexivity. reflexivity.
  - intros c i H. cbn in H. unfold fence_val in H. rewrite lookup_empty in H. now destruct H.
  - intros c pc a r w H Hst. rewrite (start_client c pc H) in Hst. discriminate.
  - intros H. discriminate.
  - intros c i H. now apply start_client in H.
  - intros c f t k H. now apply start_client in H.
  - intros _. lia.
  - intros _. lia.
Qed.

Lemma start_tinv : tinv s /\ finish_waits (trace s).
Proof using Hn Hj.
  split; [split|].
  - constructor.
  - intros j _. rewrite (total_all_zero (held_w j) (workers s)); [reflexivity|]. intros w pc H. now rewrite (start_worker w pc H).
  - intros c pc st H Hst. rewrite (start_client c pc H) in Hst. discriminate.
  - intros c t1 t2 t3 H. now destruct t1.
Qed.
End start.

(** ** Reachable states *)

Section reachable.
Context (n_jobs n_threads flag : Z) (created : nat) (q : util_queue) (n : nat).
Hypotheses (Hjobs : 0 < n_jobs < 2 ^ 31 - 8) (Hthreads : 0 < n_threads < 2 ^ 31)
  (Hinit : util_queue_init n_jobs n_threads flag true true created = Some q).

Lemma started_inv s : started q n s -> inv s /\ calm s.
Proof using Hjobs Hthreads Hinit.
  destruct (init_queue _ _ _ _ _ Hjobs Hthreads Hinit) as (k & Hk & ->). intros H.
  apply (star_invariant step (fun s => inv s /\ calm s)) in H; [exact H | | now apply start_inv].
  intros s1 s2 (l & Ha & He) [Hi Hc]. pose proof (exec_inv l s1 Hi Hc Ha) as Hg. pose proof (exec_calm l s1 Hc) as Hc2. rewrite He in *. auto.
Qed.

(** An invariant for states of a queue that was not told to terminate. *)
Lemma started_alive (P : system -> Prop) :
  P (start_system q n) ->
  (forall s s', inv s -> kill_threads (queue s) = false -> effect s s' -> P s -> P s') ->
  forall s, started q n s -> kill_threads (queue s) = false -> P s.
Proof using Hjobs Hthreads Hinit.
  intros H0 Hstep s Hs.
  assert (H : (inv s /\ calm s) /\ (kill_threads (queue s) = false -> P s)); [|apply H].
  pose proof (started_inv (start_system q n) (star_refl _ _)) as Hi0.
  apply (star_invariant step (fun s => (inv s /\ calm s) /\ (kill_threads (queue s) = false -> P s))) in Hs; [exact Hs | | auto].
  intros s1 s2 (l & Ha & He) [[Hi Hc] Hp]. pose proof (exec_inv l s1 Hi Hc Ha) as Hg. pose proof (exec_calm l s1 Hc) as Hc2.
  rewrite He in Hg, Hc2. split; [auto|]. intros Hk2. pose proof (exec_kill l s1 s2 He Hk2) as Hk1.
  apply (Hstep s1 s2); auto. now apply (exec_effect l).
Qed.

Lemma started_tinv s : started q n s -> kill_threads (queue s) = false -> tinv s /\ finish_waits (trace s).
Proof using Hjobs Hthreads Hinit.
  apply (started_alive (fun s => tinv s /\ finish_waits (trace s))).
  - destruct (init_queue _ _ _ _ _ Hjobs Hthreads Hinit) as (k & Hk & ->). now apply start_tinv.
  - intros s1 s2 Hi Hk He [Ht Hf]. split; [now apply (tinv_effect s1 s2) | now apply (finish_waits_effect s1 s2)].
Qed.
End reachable.

(** A step of a thread of the queue, or of a client inside one of its
    functions. *)
Definition inner_step (s s' : system) : Prop :=
  max_jobs (queue s) < 2 ^ 31 - 8 /\
  ((exists w choice, worker_step w choice s = Ret (Some s')) \/ (exists c choice, client_step c choice s = Ret (Some s'))).

Lemma inner_step_spec s s' : inv s -> calm s -> kill_threads (queue s) = false -> inner_step s s' ->
  inv s' /\ calm s' /\ kill_threads (queue s') = false /\ measure s' < measure s.
Proof.
  intros Hi Hc Hk (Hm & [(w & ch & He)|(c & ch & He)]).
  - pose proof (worker_step_inv s w ch Hi) as H1. pose proof (worker_step_calm s w ch Hc) as H2. pose proof (worker_step_kill s w ch) as H3.
    rewrite He in *. cbn in *. refine (conj H1 (conj H2 (conj _ _))); [congruence | now apply (worker_decreases s w ch)].
  - pose proof (client_step_inv s c ch Hi Hc Hm) as H1. pose proof (client_step_calm s c ch Hc) as H2. pose proof (client_step_kill s c ch) as H3.
    rewrite He in *. cbn in *. refine (conj H1 (conj H2 (conj _ _))); [congruence | now apply (client_decreases s c ch)].
Qed.

Lemma measure_nonneg s : inv s -> 0 <= measure s.
Proof.
  intros Hs. unfold measure. pose proof (len_nonneg (workers s)) as Hn. pose proof (len_nonneg (clients s)) as Hm. pose proof (ring_num _ (i_ring s Hs)).
  pose proof (total_nonneg (rank_w (len (workers s)) (len (clients s))) (workers s) (rank_w_nonneg _ _ Hn Hm)).
  pose proof (total_nonneg (rank_c (len (workers s)) (len (clients s)) (fences s)) (clients s) (rank_c_nonneg _ _ Hn Hm _)).
  unfold job_cost, run_cost. nia.
Qed.

Lemma inner_steps_bound k : forall s s', inv s -> calm s -> kill_threads (queue s) = false -> nsteps inner_step k s s' -> Z.of_nat k <= measure s.
Proof.
  induction k as [|k IH]; intros s s' Hi Hc Hk H; inversion H as [|? ? s1 ? H1 H2]; subst.
  - now apply measure_nonneg.
  - destruct (inner_step_spec s s1 Hi Hc Hk H1) as (Hi1 & Hc1 & Hk1 & Hm). specialize (IH s1 s' Hi1 Hc1 Hk1 H2). lia.
Qed.

(** ** The theorems *)

(** C9: No assertion of u_queue.c or of the barrier fails, and no loop runs out
    of rounds, in any step that any thread can take in any reachable state; and
    in every such state before termination each unsignalled fence has exactly
    one owner (a queued job, a thread that executes it, a client that is adding
    or has dropped it) and each signalled fence has none. *)
Theorem util_queue_safe n_jobs n_threads flag created q n s l :
  0 < n_jobs < 2 ^ 31 - 8 -> 0 < n_threads < 2 ^ 31 ->
  util_queue_init n_jobs n_threads flag true true created = Some q ->
  started q n s -> allowed l s = true ->
  (exists r, exec l s = Ret r) /\
  (kill_threads (queue s) = false -> forall f, owners s f = if util_queue_fence_is_signalled (fences s) f then 0 else 1).
Proof.
  intros Hj Ht Hq Hs Ha. destruct (started_inv _ _ _ _ _ _ Hj Ht Hq s Hs) as [Hi Hc]. split.
  - pose proof (exec_inv l s Hi Hc Ha) as H. destruct (exec l s) as [r| |]; [eauto | contradiction..].
  - intros Hk f. rewrite (i_owners_eq s Hi (i_clean s Hi Hk) f). unfold live. now destruct (util_queue_fence_is_signalled _ _).
Qed.

(** C12: Before termination the jobs that the threads have taken, followed by
    those still queued, are the jobs that were added, in the order in which they
    were added, except that a job that was dropped is replaced by an empty one;
    and every job added is queued, being executed, executed or dropped, exactly
    once. *)
Theorem util_queue_in_order n_jobs n_threads flag created q n s :
  0 < n_jobs < 2 ^ 31 - 8 -> 0 < n_threads < 2 ^ 31 ->
  util_queue_init n_jobs n_threads flag true true created = Some q ->
  started q n s -> kill_threads (queue s) = false -> in_order s /\ run_once s.
Proof.
  intros Hj Ht Hq Hs Hk. destruct (started_tinv _ _ _ _ _ _ Hj Ht Hq s Hs Hk) as [[] _]. auto.
Qed.

(** C13: When a call of [util_queue_finish] returns, every job that was added
    before the call has been executed or dropped. *)
Theorem util_queue_finish_waits n_jobs n_threads flag created q n s c t1 t2 t3 j :
  0 < n_jobs < 2 ^ 31 - 8 -> 0 < n_threads < 2 ^ 31 ->
  util_queue_init n_jobs n_threads flag true true created = Some q ->
  started q n s -> kill_threads (queue s) = false ->
  trace s = t1 ++ Ev_finish c :: t2 ++ Ev_finished c :: t3 -> Ev_finish c ∉ t2 -> user_job j ->
  total (is_add j) t1 <= total (is_done j) (t1 ++ t2) + total (is_drop j) (t1 ++ t2).
Proof.
  intros Hj Ht Hq Hs Hk Htr Hn Hu. destruct (started_tinv _ _ _ _ _ _ Hj Ht Hq s Hs Hk) as [_ Hf]. exact (Hf c t1 t2 t3 Htr Hn j Hu).
Qed.

(** C10: Before termination no thread can run forever and no wake-up is lost: in
    every schedule the threads of the queue and the clients inside its functions
    take at most [measure s] steps between two calls, and they all come to rest
    only when the queue is empty, every fence is signalled and every call has
    returned. *)
Theorem util_queue_calls_return n_jobs n_threads flag created q n s :
  0 < n_jobs < 2 ^ 31 - 8 -> 0 < n_threads < 2 ^ 31 ->
  util_queue_init n_jobs n_threads flag true true created = Some q ->
  started q n s -> kill_threads (queue s) = false ->
  (forall k s', nsteps inner_step k s s' -> Z.of_nat k <= measure s) /\
  (max_jobs (queue s) < 2 ^ 31 - 8 -> stuck s ->
   num_queued (queue s) = 0 /\ (forall f, util_queue_fence_is_signalled (fences s) f = true) /\
   (forall c pc, clients s !! c = Some pc -> pc = C_idle) /\ (forall w pc, workers s !! w = Some pc -> pc = W_blocked)).
Proof.
  intros Hj Ht Hq Hs Hk. destruct (started_inv _ _ _ _ _ _ Hj Ht Hq s Hs) as [Hi Hc]. split.
  - intros k s'. now apply inner_steps_bound.
  - intros Hm Hst. destruct (stuck_done s Hi Hk Hm Hst) as (H1 & H2 & H3 & H4). repeat split; auto.
    intros f. unfold util_queue_fence_is_signalled. now rewrite H2.
Qed.

(** ** Concrete runs *)

Definition demo_job (a : Z) : util_queue_job := Job (Object a) (inl a) (callback 7) 0.
Definition demo_queue (slots threads : Z) : util_queue :=
  Queue 0 0 threads false slots 0 0 (replicate (Z.to_nat slots) null_job).

(** Run the labels, with the contract of the calls checked at each. *)
Fixpoint run_allowed (ls : list label) (s : system) : option system :=
  match ls with
  | [] => Some s
  | l :: ls =>
      if allowed l s then match exec l s with Ret (Some s) => run_allowed ls s | _ => None end else None
  end.

Lemma run_allowed_star ls : forall s s', run_allowed ls s = Some s' -> star step s s'.
Proof.
  induction ls as [|l ls IH]; intros s s' H; cbn in H; [injection H as <-; constructor|].
  destruct (allowed l s) eqn:Ha; [|discriminate]. destruct (exec l s) as [[s1|]| |] eqn:He; try discriminate.
  apply (star_step step s s1 s'); [exists l; auto | auto].
Qed.

(** Two clients and one thread: a job is added and executed while the other
    client waits for its fence and then for the whole queue. *)
Definition demo_labels : list label :=
  [L_worker 0 None; L_call 0 (Call_add_job (demo_job 1)) (Some 0%nat); L_call 1 (Call_fence_wait (inl 1) false) None;
   L_client 1 None; L_worker 0 None; L_client 1 None; L_client 1 None; L_client 1 None;
   L_call 0 Call_finish None; L_client 0 None; L_client 0 None; L_client 0 None;
   L_worker 0 None; L_worker 0 None; L_worker 0 None; L_worker 0 None; L_client 1 None;
   L_worker 0 None; L_worker 0 None; L_worker 0 None; L_worker 0 None; L_worker 0 None;
   L_client 0 None; L_client 0 None; L_client 0 None; L_client 0 None].

Definition reached (ls : list label) (s : system) : system := default s (run_allowed ls s).

(** After the first seven steps the job runs and the other client is about to
    sleep; after all of them everything is at rest. *)
Definition demo_middle : system := reached (take 7 demo_labels) (start_system (demo_queue 2 1) 2).
Definition demo_end : system := reached demo_labels (start_system (demo_queue 2 1) 2).

Lemma demo_middle_started : started (demo_queue 2 1) 2 demo_middle.
Proof. apply (run_allowed_star (take 7 demo_labels)). vm_compute. reflexivity. Qed.

Lemma demo_end_started : started (demo_queue 2 1) 2 demo_end.
Proof. apply (run_allowed_star demo_labels). vm_compute. reflexivity. Qed.

Lemma demo_end_stuck : stuck demo_end.
Proof. split; intros [|[|x]] choice; reflexivity. Qed.

Lemma util_queue_safe_witness :
  (exists r, exec (L_client 1 None) demo_middle = Ret r) /\ owners demo_middle (inl 1) = 1.
Proof.
  destruct (util_queue_safe 2 1 0 1 (demo_queue 2 1) 2 demo_middle (L_client 1 None) ltac:(lia) ltac:(lia) eq_refl demo_middle_started
              ltac:(vm_compute; reflexivity)) as [H1 H2].
  split; [exact H1|]. rewrite H2 by (vm_compute; reflexivity). vm_compute. reflexivity.
Defined.

Lemma util_queue_in_order_witness : in_order demo_end /\ total (is_done (demo_job 1)) (trace demo_end) = 1.
Proof.
  destruct (util_queue_in_order 2 1 0 1 (demo_queue 2 1) 2 demo_end ltac:(lia) ltac:(lia) eq_refl demo_end_started
              ltac:(vm_compute; reflexivity)) as [H1 H2].
  split; [exact H1 | vm_compute; reflexivity].
Defined.

Lemma util_queue_finish_waits_witness :
  total (is_add (demo_job 1)) (take 2 (trace demo_end)) <=
  total (is_done (demo_job 1)) (take 2 (trace demo_end) ++ take 4 (drop 3 (trace demo_end))) +
  total (is_drop (demo_job 1)) (take 2 (trace demo_end) ++ take 4 (drop 3 (trace demo_end))).
Proof.
  apply (util_queue_finish_waits 2 1 0 1 (demo_queue 2 1) 2 demo_end 0 (take 2 (trace demo_end)) (take 4 (drop 3 (trace demo_end))) []);
    [lia | lia | reflexivity | exact demo_end_started | vm_compute; reflexivity | vm_compute; reflexivity | |].
  - change (Ev_finish 0 ∉ [Ev_add (finish_job 0 0); Ev_done 0 (demo_job 1); Ev_start 0 (finish_job 0 0); Ev_done 0 (finish_job 0 0)]).
    rewrite !not_elem_of_cons. repeat split; try discriminate. apply not_elem_of_nil.
  - exists 1, 1, 7. repeat split. lia.
Defined.

Lemma util_queue_calls_return_witness :
  (forall k s', nsteps inner_step k demo_middle s' -> Z.of_nat k <= measure demo_middle) /\
  util_queue_fence_is_signalled (fences demo_end) (inl 1) = true.
Proof.
  split.
  - apply (util_queue_calls_return 2 1 0 1 (demo_queue 2 1) 2 demo_middle ltac:(lia) ltac:(lia) eq_refl demo_middle_started). vm_compute. reflexivity.
  - apply (util_queue_calls_return 2 1 0 1 (demo_queue 2 1) 2 demo_end ltac:(lia) ltac:(lia) eq_refl demo_end_started);
      [vm_compute; reflexivity | vm_compute; reflexivity | exact demo_end_stuck].
Defined.

(** ** What goes wrong with a full ring *)

(** [util_queue_drop_job] does not find any job in a full ring, since the loop
    over the slots ends where it starts: the function waits for the job
    instead of removing it. *)
Theorem full_queue_drops_nothing q f : ring_ok q -> num_queued q = max_jobs q -> drop_search q f = None.
Proof. intros Hq Hn. unfold drop_search. rewrite <- (pos_zero q Hq), find_fence_full by assumption. reflexivity. Qed.

(** The threads of a queue that is destroyed when its ring is full do not
    signal the fences of the jobs in it: a client that waits for such a fence
    sleeps forever. *)
Definition kill_full_labels : list label :=
  [L_call 0 (Call_add_job (demo_job 1)) None; L_call 1 Call_killall None; L_worker 0 None; L_worker 0 None; L_worker 0 None;
   L_client 1 None; L_client 1 None; L_call 0 (Call_fence_wait (inl 1) false) None;
   L_client 0 None; L_client 0 None; L_client 0 None; L_client 0 None].

Definition kill_full_end : system := reached kill_full_labels (start_system (demo_queue 1 1) 2).

Theorem full_queue_loses_fences :
  started (demo_queue 1 1) 2 kill_full_end /\ stuck kill_full_end /\ workers kill_full_end = [W_done] /\
  clients kill_full_end = [C_asleep (inl 1) false K_return; C_idle] /\
  util_queue_fence_is_signalled (fences kill_full_end) (inl 1) = false.
Proof.
  split; [apply (run_allowed_star kill_full_labels); vm_compute; reflexivity|].
  split; [split; intros [|[|x]] choice; reflexivity | repeat split].
Qed.

(** A client that waits for a free slot is not woken when the queue is told to
    terminate, as the exit handler does at any time: it sleeps forever. *)
Definition kill_adder_labels : list label :=
  [L_call 0 (Call_add_job (demo_job 1)) None; L_call 0 (Call_add_job (demo_job 2)) None; L_call 1 Call_killall None;
   L_worker 0 None; L_worker 0 None; L_worker 0 None; L_client 1 None; L_client 1 None].

Definition kill_adder_end : system :=
  match run kill_adder_labels (start_system (demo_queue 1 1) 2) with Ret (Some s) => s | _ => start_system (demo_queue 1 1) 2 end.

Theorem termination_strands_adder :
  run kill_adder_labels (start_system (demo_queue 1 1) 2) = Ret (Some kill_adder_end) /\ stuck kill_adder_end /\
  workers kill_adder_end = [W_done] /\ clients kill_adder_end = [C_add_blocked (demo_job 2) K_return; C_idle] /\
  num_queued (queue kill_adder_end) = 0.
Proof. split; [vm_compute; reflexivity|]. split; [split; intros [|[|x]] choice; reflexivity | repeat split]. Qed.
