(* ===== verification/Bitset.v ===== *)
(** * The other operations of src/util/bitset.h

    Clearing a bit, the operations on a range of bits within a word, the first
    set bit and the word-wise operators of [DECLARE_BITSET_T]. *)

From stdpp Require Import base list sets numbers.
From Stdlib Require Import ZArith Lia.
From S2P Require Import Prelude Arrays.
#[local] Open Scope bool_scope.
#[local] Open Scope Z_scope.
#[local] Open Scope c_scope.

#[local] Arguments get : simpl never.
#[local] Arguments upd : simpl never.

(** ** Operations *)

(** [BITSET_CLEAR], with the complement at 32 bits. *)
Definition BITSET_CLEAR (x : list Z) (b : Z) : list Z :=
  upd (BITSET_BITWORD b) (fun w => Z.land w (u32 (Z.lnot (BITSET_BIT b)))) x.

(** [BITSET_BIT(b) - 1] does not wrap, since the bit is at least 1. *)
Definition BITSET_MASK (b : Z) : Z := if b =? BITSET_WORDBITS then u32 (Z.lnot 0) else BITSET_BIT b - 1.

Definition BITSET_RANGE (b e : Z) : Z := Z.land (BITSET_MASK (e + 1)) (u32 (Z.lnot (BITSET_MASK b))).

(** The value of the macro is a word, used as a condition. *)
Definition BITSET_TEST_RANGE (x : list Z) (b e : Z) : outcome bool :=
  if BITSET_BITWORD b =? BITSET_BITWORD e then Ret (negb (Z.land (get 0 x (BITSET_BITWORD b)) (BITSET_RANGE b e) =? 0)) else Assert_failed.
Definition BITSET_SET_RANGE (x : list Z) (b e : Z) : outcome (list Z) :=
  if BITSET_BITWORD b =? BITSET_BITWORD e then Ret (upd (BITSET_BITWORD b) (fun w => Z.lor w (BITSET_RANGE b e)) x) else Assert_failed.
Definition BITSET_CLEAR_RANGE (x : list Z) (b e : Z) : outcome (list Z) :=
  if BITSET_BITWORD b =? BITSET_BITWORD e then Ret (upd (BITSET_BITWORD b) (fun w => Z.land w (u32 (Z.lnot (BITSET_RANGE b e)))) x) else Assert_failed.

(** The words from word [i] on; [ffs] counts bits from 1. *)
Fixpoint __bitset_ffs (x : list Z) (i : Z) : Z :=
  match x with
  | [] => 0
  | w :: x => if negb (w =? 0) then lowest_bit 32 w 0 + 1 + BITSET_WORDBITS * i else __bitset_ffs x (i + 1)
  end.
Definition BITSET_FFS (x : list Z) : Z := __bitset_ffs x 0.

(** ** Bits *)

Lemma BITSET_CLEAR_ok x n b : bitset_ok x n -> bitset_ok (BITSET_CLEAR x b) n.
Proof.
  intros (Hn & Hw & Hl). split; [assumption|]. split; [|unfold BITSET_CLEAR; now rewrite len_upd].
  apply Forall_upd; [assumption|]. intros w Hok. now apply word_ok_land.
Qed.

Lemma BITSET_TEST_CLEAR x n b c : bitset_ok x n -> 0 <= b < n -> 0 <= c -> BITSET_TEST (BITSET_CLEAR x b) c = negb (c =? b) && BITSET_TEST x c.
Proof.
  intros Hfit Hb Hc. rewrite !BITSET_TEST_bit. unfold BITSET_CLEAR, BITSET_BITWORD, BITSET_BIT, BITSET_WORDBITS.
  rewrite get_upd; [|now apply (bitset_ok_fit x n) | apply Z.div_pos; lia].
  pose proof (Z.div_mod b 32 ltac:(lia)). pose proof (Z.div_mod c 32 ltac:(lia)).
  pose proof (Z.mod_pos_bound b 32 ltac:(lia)). pose proof (Z.mod_pos_bound c 32 ltac:(lia)).
  destruct (Z.eqb_spec (c / 32) (b / 32)) as [E|E].
  - unfold wrap. rewrite Z.land_spec, Z.mod_pow2_bits_low, Z.lnot_spec, Z.shiftl_1_l, Z.pow2_bits_eqb, andb_comm by lia. f_equal. f_equal.
    destruct (Z.eqb_spec (b mod 32) (c mod 32)), (Z.eqb_spec c b); try reflexivity; lia.
  - destruct (Z.eqb_spec c b) as [->|]; [congruence | reflexivity].
Qed.

Lemma mask_bits k j : 0 <= k -> 0 <= j -> Z.testbit (Z.shiftl 1 k - 1) j = (j <? k).
Proof. intros Hk Hj. rewrite Z.shiftl_1_l, Z.sub_1_r, <- Z.ones_equiv. destruct (Z.ltb_spec j k); [apply Z.ones_spec_low | apply Z.ones_spec_high]; lia. Qed.

Lemma MASK_bits b j : 0 <= b -> 0 <= j < 32 -> Z.testbit (BITSET_MASK b) j = (b =? 32) || (j <? b mod 32).
Proof.
  intros Hb Hj. unfold BITSET_MASK, BITSET_BIT, BITSET_WORDBITS. destruct (b =? 32); cbn [orb].
  - unfold wrap. rewrite Z.mod_pow2_bits_low, Z.lnot_spec, Z.bits_0 by lia. reflexivity.
  - apply mask_bits; [apply Z.mod_pos_bound|]; lia.
Qed.

(** The two ends a range must not have: its first bit the first of the second
    word, or its last bit the last of a word after the first. *)
Definition range_lost (b e : Z) : bool := (b =? 32) || (32 <=? e) && (e mod 32 =? 31).

(** The bits of the mask of a range within a word. *)
Lemma RANGE_bits b e j : 0 <= b <= e -> b / 32 = e / 32 -> 0 <= j < 32 ->
  Z.testbit (BITSET_RANGE b e) j = negb (range_lost b e) && (b mod 32 <=? j) && (j <=? e mod 32).
Proof.
  intros Hbe Hw Hj. unfold BITSET_RANGE, range_lost. rewrite Z.land_spec. unfold wrap. rewrite Z.mod_pow2_bits_low, Z.lnot_spec, !MASK_bits by lia.
  pose proof (Z.div_mod b 32 ltac:(lia)). pose proof (Z.div_mod e 32 ltac:(lia)). pose proof (Z.mod_pos_bound b 32 ltac:(lia)). pose proof (Z.mod_pos_bound e 32 ltac:(lia)).
  assert (He : (e + 1) mod 32 = if e mod 32 =? 31 then 0 else e mod 32 + 1).
  { destruct (Z.eqb_spec (e mod 32) 31).
    - replace (e + 1) with ((e / 32 + 1) * 32) by lia. apply Z_mod_mult.
    - replace (e + 1) with (e mod 32 + 1 + e / 32 * 32) by lia. rewrite Z_mod_plus_full, Z.mod_small; lia. }
  rewrite He. destruct (Z.eqb_spec (e mod 32) 31), (Z.eqb_spec b 32), (Z.eqb_spec (e + 1) 32), (Z.leb_spec 32 e), (Z.leb_spec (b mod 32) j), (Z.leb_spec j (e mod 32)),
    (Z.ltb_spec j (b mod 32)); cbn; try reflexivity; try lia;
    repeat match goal with |- context [?a <? ?b] => destruct (Z.ltb_spec a b) end; cbn; try reflexivity; lia.
Qed.

Lemma RANGE_word b e : word_ok (BITSET_RANGE b e).
Proof.
  unfold BITSET_RANGE. rewrite Z.land_comm. apply word_ok_land. unfold word_ok. apply (wrap_range 32). lia.
Qed.

(** A bit of the range, as a bit of its word. *)
Lemma range_bit b e c : 0 <= b <= e -> b / 32 = e / 32 -> c / 32 = b / 32 ->
  (b mod 32 <=? c mod 32) && (c mod 32 <=? e mod 32) = (b <=? c) && (c <=? e).
Proof.
  intros Hbe Hw Hc. pose proof (Z.div_mod b 32 ltac:(lia)). pose proof (Z.div_mod e 32 ltac:(lia)). pose proof (Z.div_mod c 32 ltac:(lia)).
  f_equal; apply eq_true_iff_eq; rewrite !Z.leb_le; lia.
Qed.

Lemma range_same_word b e c : 0 <= b <= e -> b / 32 = e / 32 -> b <= c <= e -> c / 32 = b / 32.
Proof.
  intros Hbe Hw Hc. pose proof (Z.div_le_mono b c 32 ltac:(lia) ltac:(lia)). pose proof (Z.div_le_mono c e 32 ltac:(lia) ltac:(lia)). lia.
Qed.

(** A range operation changes the bits of its mask and no others. *)
Lemma upd_range x n b e c (f : Z -> Z) (g : bool -> bool -> bool) : bitset_ok x n -> 0 <= b <= e -> e < n -> b / 32 = e / 32 -> 0 <= c ->
  (forall w k, 0 <= k < 32 -> Z.testbit (f w) k = g (Z.testbit (BITSET_RANGE b e) k) (Z.testbit w k)) -> (forall t, g false t = t) ->
  BITSET_TEST (upd (b / 32) f x) c = g (negb (range_lost b e) && (b <=? c) && (c <=? e)) (BITSET_TEST x c).
Proof.
  intros Hx Hbe He Hw Hc Hf Hg. rewrite !BITSET_TEST_bit, get_upd; [|apply (bitset_ok_fit x n); [assumption | lia] | apply Z.div_pos; lia].
  pose proof (Z.mod_pos_bound c 32 ltac:(lia)). destruct (Z.eqb_spec (c / 32) (b / 32)) as [E|E].
  - rewrite Hf, RANGE_bits, <- !andb_assoc, (range_bit b e c) by assumption. reflexivity.
  - rewrite <- andb_assoc. destruct (Z.leb_spec b c), (Z.leb_spec c e); cbn; rewrite ?andb_false_r, ?Hg; try reflexivity.
    destruct E. now apply (range_same_word b e).
Qed.

Lemma upd_range_ok x n i f : bitset_ok x n -> (forall w, word_ok w -> word_ok (f w)) -> bitset_ok (upd i f x) n.
Proof. intros (Hn & Hf & Hl) Hok. split; [assumption|]. split; [now apply Forall_upd | now rewrite len_upd]. Qed.

(** Some bit of the mask is set. *)
Lemma land_some w v : word_ok v -> Z.land w v <> 0 <-> exists k, 0 <= k < 32 /\ Z.testbit v k = true /\ Z.testbit w k = true.
Proof.
  intros Hv. split.
  - intros Hne. assert (Hok : word_ok (Z.land w v)) by (rewrite Z.land_comm; now apply word_ok_land).
    destruct (word_nonzero _ Hok Hne) as (k & Hk & Ht). rewrite Z.land_spec in Ht. apply andb_true_iff in Ht. exists k. cbn in Hk. tauto.
  - intros (k & Hk & H1 & H2) E. apply (f_equal (fun z => Z.testbit z k)) in E. rewrite Z.land_spec, H1, H2, Z.bits_0 in E. discriminate.
Qed.

(** The first set bit of the words from word [i] on. *)
Lemma ffs_spec x : forall i, 0 <= i -> Forall word_ok x ->
  (__bitset_ffs x i = 0 /\ forall c, 0 <= c -> Z.testbit (get 0 x (c / 32)) (c mod 32) = false) \/
  (exists c, 0 <= c /\ __bitset_ffs x i = c + 32 * i + 1 /\ Z.testbit (get 0 x (c / 32)) (c mod 32) = true /\
   forall d, 0 <= d < c -> Z.testbit (get 0 x (d / 32)) (d mod 32) = false).
Proof.
  induction x as [|w x IH]; intros i Hi Hx.
  - left. split; [reflexivity|]. intros c Hc. unfold get. destruct (Z.to_nat (c / 32)); cbn; apply Z.bits_0.
  - apply list.Forall_cons in Hx as [Hw Hx]. cbn [__bitset_ffs]. assert (H0 : forall c, 0 <= c < 32 -> get 0 (w :: x) (c / 32) = w /\ c mod 32 = c).
    { intros c Hc. rewrite Z.div_small, Z.mod_small by lia. auto. }
    assert (Hs : forall c, 32 <= c -> get 0 (w :: x) (c / 32) = get 0 x ((c - 32) / 32) /\ c mod 32 = (c - 32) mod 32).
    { intros c Hc. replace c with (c - 32 + 1 * 32) at 1 3 by lia. rewrite Z_div_plus_full, Z_mod_plus_full by lia. split; [|reflexivity].
      unfold get. pose proof (Z.div_pos (c - 32) 32 ltac:(lia) ltac:(lia)). now replace (Z.to_nat ((c - 32) / 32 + 1)) with (S (Z.to_nat ((c - 32) / 32))) by lia. }
    destruct (Z.eqb_spec w 0) as [->|Hne]; cbn [negb].
    + destruct (IH (i + 1) ltac:(lia) Hx) as [[E H]|(c & Hc & E & Ht & H)].
      * left. split; [assumption|]. intros c Hc. destruct (Z.ltb_spec c 32); [destruct (H0 c) as [-> ->]; [lia | apply Z.bits_0] | destruct (Hs c) as [-> ->]; [lia | apply H; lia]].
      * right. exists (c + 32). split; [lia|]. split; [lia|]. destruct (Hs (c + 32)) as [-> ->]; [lia|]. replace (c + 32 - 32) with c by lia. split; [assumption|].
        intros d Hd. destruct (Z.ltb_spec d 32); [destruct (H0 d) as [-> ->]; [lia | apply Z.bits_0] | destruct (Hs d) as [-> ->]; [lia | apply H; lia]].
    + right. destruct (lowest_bit_spec 32 w 0) as (Hb & Ht & Hlow); [now apply word_nonzero|]. unfold BITSET_WORDBITS in *. change (Z.of_nat 32) with 32 in Hb.
      exists (lowest_bit 32 w 0). split; [lia|]. split; [lia|]. destruct (H0 (lowest_bit 32 w 0)) as [-> ->]; [lia|]. split; [assumption|].
      intros d Hd. destruct (H0 d) as [-> ->]; [lia|]. apply Hlow. lia.
Qed.

(** [BITSET_FFS] is 0 for the empty set and else one more than the smallest
    element, in agreement with [ffs] on a word. *)
Lemma bitset_ffs_correct x n : bitset_ok x n ->
  (BITSET_FFS x = 0 /\ forall c, 0 <= c -> BITSET_TEST x c = false) \/
  (exists c, 0 <= c /\ BITSET_FFS x = c + 1 /\ BITSET_TEST x c = true /\ forall d, 0 <= d < c -> BITSET_TEST x d = false).
Proof.
  intros (_ & Hw & _). destruct (ffs_spec x 0 ltac:(lia) Hw) as [[E H]|(c & Hc & E & Ht & H)]; [left | right].
  - split; [exact E|]. intros c Hc. rewrite BITSET_TEST_bit. auto.
  - exists c. split; [assumption|]. split; [unfold BITSET_FFS; lia|]. rewrite BITSET_TEST_bit. split; [assumption|]. intros d Hd. rewrite BITSET_TEST_bit. auto.
Qed.

(** ** Properties *)

(** The operations on a range of bits within a word do exactly what they
    say, except that a range that starts at bit 32, or that ends at the last
    bit of a word other than the first, is treated as empty; a range across
    words fails the assertion. *)
Theorem bitset_range_correct x n b e : bitset_ok x n -> 0 <= b <= e -> e < n ->
  if b / 32 =? e / 32 then
    let inside c := negb (range_lost b e) && (b <=? c) && (c <=? e) in
    (exists t, BITSET_TEST_RANGE x b e = Ret t /\ (t = true <-> exists c, inside c = true /\ BITSET_TEST x c = true)) /\
    (exists y, BITSET_SET_RANGE x b e = Ret y /\ bitset_ok y n /\ forall c, 0 <= c -> BITSET_TEST y c = inside c || BITSET_TEST x c) /\
    (exists y, BITSET_CLEAR_RANGE x b e = Ret y /\ bitset_ok y n /\ forall c, 0 <= c -> BITSET_TEST y c = negb (inside c) && BITSET_TEST x c)
  else BITSET_TEST_RANGE x b e = Assert_failed /\ BITSET_SET_RANGE x b e = Assert_failed /\ BITSET_CLEAR_RANGE x b e = Assert_failed.
Proof.
  intros Hx Hbe He. unfold BITSET_TEST_RANGE, BITSET_SET_RANGE, BITSET_CLEAR_RANGE, BITSET_BITWORD, BITSET_WORDBITS.
  destruct (Z.eqb_spec (b / 32) (e / 32)) as [Hw|]; [cbv zeta|auto]. split; [|split]; eexists; (split; [reflexivity|]); [|split; [apply upd_range_ok|]..]; try assumption.
  - rewrite negb_true_iff, Z.eqb_neq, (land_some _ _ (RANGE_word b e)). split.
    + intros (k & Hk & Hr & Ht). rewrite RANGE_bits in Hr by assumption. exists (32 * (b / 32) + k).
      assert (Hd : (32 * (b / 32) + k) / 32 = b / 32) by (symmetry; apply (Z.div_unique _ 32 _ k); lia).
      assert (Hm : (32 * (b / 32) + k) mod 32 = k) by (symmetry; apply (Z.mod_unique _ 32 (b / 32)); lia).
      rewrite BITSET_TEST_bit, <- andb_assoc, <- (range_bit b e), andb_assoc, Hm, Hd by assumption. auto.
    + intros (c & Hin & Ht). exists (c mod 32). pose proof (Z.mod_pos_bound c 32 ltac:(lia)). rewrite BITSET_TEST_bit in Ht. rewrite RANGE_bits by assumption.
      assert (Hc : c / 32 = b / 32) by (apply (range_same_word b e); try assumption; rewrite !andb_true_iff, !Z.leb_le in Hin; lia).
      rewrite <- andb_assoc, (range_bit b e c), andb_assoc by assumption. rewrite <- Hc. auto.
  - intros w Hok. apply word_ok_lor; [assumption | apply RANGE_word].
  - intros c Hc. rewrite (upd_range x n b e c _ orb); try assumption; [reflexivity | | reflexivity]. intros w k Hk. rewrite Z.lor_spec. apply orb_comm.
  - intros w Hok. now apply word_ok_land.
  - intros c Hc. rewrite (upd_range x n b e c _ (fun r t => negb r && t)); try assumption; [reflexivity | | reflexivity].
    intros w k Hk. unfold wrap. rewrite Z.land_spec, Z.mod_pow2_bits_low, Z.lnot_spec by lia. apply andb_comm.
Qed.

Lemma bitset_range_correct_witness : exists y, BITSET_SET_RANGE (bitset_zero 64) 40 44 = Ret y /\ BITSET_TEST y 44 = true /\ BITSET_TEST y 45 = false.
Proof.
  destruct (bitset_range_correct (bitset_zero 64) 64 40 44 ltac:(apply bitset_zero_ok; lia) ltac:(lia) ltac:(lia)) as (_ & (y & E & _ & H) & _).
  exists y. split; [exact E|]. split; rewrite H by lia; reflexivity.
Defined.
