(* ===== verification/UVector.v ===== *)
(** * Growing queue: src/util/u_vector.c, u_vector.h

    A circular buffer of bytes with free-running 32-bit indices that doubles
    when it is full.  A byte of fresh memory is [None]; an access outside the
    buffer has no result, like a failed assertion. *)

From stdpp Require Import base list numbers.
From Stdlib Require Import ZArith Lia.
From S2P Require Import Prelude Arrays.
#[local] Open Scope bool_scope.
#[local] Open Scope Z_scope.
#[local] Open Scope c_scope.

#[local] Arguments get : simpl never.

(** ** Memory *)

(** A buffer of bytes. *)
Abbreviation buffer := (list (option Z)).

Definition malloc (size : Z) : buffer := replicate (Z.to_nat size) None.

(** [n] bytes of [src] from [soff] replace those of [dst] from [doff]. *)
Definition memcpy (dst : buffer) (doff : Z) (src : buffer) (soff n : Z) : outcome buffer :=
  assert! ((0 <=? doff) && (doff + n <=? len dst) && (0 <=? soff) && (soff + n <=? len src) && (0 <=? n)) ;;
  Ret (take (Z.to_nat doff) dst ++ take (Z.to_nat n) (drop (Z.to_nat soff) src) ++ drop (Z.to_nat (doff + n)) dst).

(** ** Operations *)

Record u_vector := UVector { v_head : Z; v_tail : Z; element_size : Z; v_size : Z; v_data : buffer }.

#[export] Instance u_vector_eta : Eta u_vector := fun v => UVector (v_head v) (v_tail v) (element_size v) (v_size v) (v_data v).

Definition util_is_power_of_two_nonzero (v : Z) : bool := negb (v =? 0) && (Z.land v (u32 (v - 1)) =? 0).

Definition u_align_u32 (v a : Z) : outcome Z :=
  assert! (negb (a =? 0) && (a =? Z.land a (u32 (- a)))) ;;
  Ret (Z.land (u32 (v + a - 1)) (u32 (Z.lnot (a - 1)))).

(** [ok] is whether [malloc] succeeds. *)
Definition u_vector_init (element_size size : Z) (ok : bool) : outcome (option u_vector) :=
  assert! util_is_power_of_two_nonzero size ;;
  assert! (element_size <? size) && util_is_power_of_two_nonzero element_size ;;
  Ret (if ok then Some (UVector 0 0 element_size size (malloc size)) else None).

(** The buffer of twice the size. *)
Definition u_vector_grow (v : u_vector) : outcome u_vector :=
  let size := u32 (v_size v * 2) in
  let data := malloc size in
  let src_tail := Z.land (v_tail v) (u32 (v_size v - 1)) in
  let dst_tail := Z.land (v_tail v) (u32 (size - 1)) in
  let! data :=
    if src_tail =? 0 then memcpy data dst_tail (v_data v) 0 (v_size v)
    else
      let! split := u_align_u32 (v_tail v) (v_size v) in
      assert! (v_tail v <=? split) && (split <? v_head v) ;;
      let! data := memcpy data dst_tail (v_data v) src_tail (u32 (split - v_tail v)) in
      memcpy data (Z.land split (u32 (size - 1))) (v_data v) 0 (u32 (v_head v - split)) in
  Ret (v <| v_data := data |> <| v_size := size |>).

(** A pointer into the buffer is an offset. *)
Definition u_vector_add (ok : bool) (v : u_vector) : outcome (option Z * u_vector) :=
  let place v :=
    assert! (u32 (v_head v - v_tail v) <? v_size v) ;;
    Ret (Some (Z.land (v_head v) (u32 (v_size v - 1))), v <| v_head := u32 (v_head v + element_size v) |>) in
  if u32 (v_head v - v_tail v) =? v_size v then
    if ok then let! v := u_vector_grow v in place v else Ret (None, v)
  else place v.

Definition u_vector_remove (v : u_vector) : outcome (option Z * u_vector) :=
  if v_head v =? v_tail v then Ret (None, v)
  else
    assert! (u32 (v_head v - v_tail v) <=? v_size v) ;;
    Ret (Some (Z.land (v_tail v) (u32 (v_size v - 1))), v <| v_tail := u32 (v_tail v + element_size v) |>).

Definition u_vector_length (v : u_vector) : Z := u32 (v_head v - v_tail v) / element_size v.

Definition u_vector_head (v : u_vector) : outcome Z :=
  assert! (v_tail v <? v_head v) ;; Ret (Z.land (u32 (v_head v - element_size v)) (u32 (v_size v - 1))).

Definition u_vector_tail (v : u_vector) : Z := Z.land (v_tail v) (u32 (v_size v - 1)).

(** The offsets that [u_vector_foreach] visits from [offset] on. *)
Fixpoint foreach_from (fuel : nat) (v : u_vector) (offset : Z) : outcome (list Z) :=
  if offset <? v_head v then
    match fuel with
    | O => Out_of_fuel
    | S fuel => omap_out (cons (Z.land offset (u32 (v_size v - 1)))) (foreach_from fuel v (u32 (offset + element_size v)))
    end
  else Ret [].
Definition u_vector_foreach (v : u_vector) : outcome (list Z) := foreach_from (Z.to_nat (v_size v)) v (v_tail v).

(** ** Clients *)

(** Accesses to an element through the pointer. *)
Definition vec_load (v : u_vector) (offset : Z) : outcome (list (option Z)) :=
  assert! (0 <=? offset) && (offset + element_size v <=? len (v_data v)) ;;
  Ret (take (Z.to_nat (element_size v)) (drop (Z.to_nat offset) (v_data v))).
Definition vec_store (v : u_vector) (offset : Z) (e : list Z) : outcome u_vector :=
  let! data := memcpy (v_data v) offset (Some <$> e) 0 (len e) in Ret (v <| v_data := data |>).

(** Adding and removing an element. *)
Definition vec_push (ok : bool) (e : list Z) (v : u_vector) : outcome (bool * u_vector) :=
  let! (p, v) := u_vector_add ok v in
  match p with
  | None => Ret (false, v)
  | Some offset => let! v := vec_store v offset e in Ret (true, v)
  end.

Definition vec_pop (v : u_vector) : outcome (option (list (option Z)) * u_vector) :=
  let! (p, v) := u_vector_remove v in
  match p with
  | None => Ret (None, v)
  | Some offset => let! e := vec_load v offset in Ret (Some e, v)
  end.

(** The worklist of instructions of nir_worklist.h: a vector of pointers of
    eight bytes.  The result of [u_vector_add] is used without a test. *)
Definition nir_instr_worklist_create (ok : bool) : outcome (option u_vector) := u_vector_init 8 (8 * 8) ok.
Definition nir_instr_worklist_length (wl : u_vector) : Z := u_vector_length wl.
Definition nir_instr_worklist_empty (wl : u_vector) : bool := nir_instr_worklist_length wl =? 0.
Definition nir_instr_worklist_push_tail (ok : bool) (instr : list Z) (wl : u_vector) : outcome u_vector :=
  let! (p, wl) := u_vector_add ok wl in
  match p with Some vec_instr => vec_store wl vec_instr instr | None => Assert_failed end.
Definition nir_instr_worklist_pop_head (wl : u_vector) : outcome (option (list (option Z)) * u_vector) :=
  let! (vec_instr, wl) := u_vector_remove wl in
  match vec_instr with None => Ret (None, wl) | Some vec_instr => let! instr := vec_load wl vec_instr in Ret (Some instr, wl) end.

Lemma instr_push_tail ok instr wl : nir_instr_worklist_push_tail ok instr wl =
  let! (done, wl) := vec_push ok instr wl in if (done : bool) then Ret wl else Assert_failed.
Proof.
  unfold nir_instr_worklist_push_tail, vec_push. destruct (u_vector_add ok wl) as [[[offset|] v]| |]; try reflexivity. cbn. now destruct (vec_store v offset instr).
Qed.

(** ** Copies *)

Lemma len_malloc n : 0 <= n -> len (malloc n) = n.
Proof. intros H. unfold len, malloc. rewrite length_replicate. lia. Qed.

Lemma get_take {A} (d : A) l n i : 0 <= i < n -> get d (take (Z.to_nat n) l) i = get d l i.
Proof. intros H. unfold get. rewrite <- (firstn_skipn (Z.to_nat n) l) at 2. destruct (Nat.lt_ge_cases (Z.to_nat i) (length l)).
  - rewrite app_nth1; [reflexivity|]. rewrite length_take. lia.
  - rewrite !nth_overflow; [reflexivity | rewrite length_app, length_take, length_drop; lia | rewrite length_take; lia].
Qed.

Lemma get_drop {A} (d : A) l n i : 0 <= n -> 0 <= i -> get d (drop (Z.to_nat n) l) i = get d l (n + i).
Proof. intros Hn Hi. unfold get. rewrite Z2Nat.inj_add by lia. now rewrite nth_skipn. Qed.

Lemma get_app {A} (d : A) l1 l2 i : 0 <= i -> get d (l1 ++ l2) i = if i <? len l1 then get d l1 i else get d l2 (i - len l1).
Proof.
  intros Hi. unfold get, len. destruct (Z.ltb_spec i (Z.of_nat (length l1))); [apply app_nth1; lia|]. rewrite app_nth2 by lia. f_equal. lia.
Qed.

Lemma get_some (e : list Z) i : 0 <= i < len e -> get None (Some <$> e) i = Some (get 0 e i).
Proof.
  intros Hi. unfold get, len in *. destruct (lookup_lt_is_Some_2 e (Z.to_nat i)) as [x Hx]; [lia|].
  rewrite (nth_lookup_Some e _ 0 x Hx). apply nth_lookup_Some. now rewrite list_lookup_fmap, Hx.
Qed.

(** What a copy within bounds does to each byte. *)
Lemma memcpy_spec dst doff src soff n : 0 <= doff -> 0 <= soff -> 0 <= n -> doff + n <= len dst -> soff + n <= len src ->
  exists d, memcpy dst doff src soff n = Ret d /\ len d = len dst /\
  forall i, 0 <= i -> get None d i = if (doff <=? i) && (i <? doff + n) then get None src (soff + (i - doff)) else get None dst i.
Proof.
  intros Hd Hs Hn Hdl Hsl. unfold memcpy. rewrite !(proj2 (Z.leb_le _ _)) by lia. cbn [andb c_assert]. eexists. split; [reflexivity|].
  assert (L1 : len (take (Z.to_nat doff) dst) = doff) by (unfold len in *; rewrite length_take; lia).
  assert (L2 : len (take (Z.to_nat n) (drop (Z.to_nat soff) src)) = n) by (unfold len in *; rewrite length_take, length_drop; lia).
  split; [rewrite !len_app, L1, L2; unfold len in *; rewrite length_drop; lia|].
  intros i Hi. rewrite get_app, L1 by lia. destruct (Z.ltb_spec i doff) as [H1|H1].
  - rewrite get_take, (proj2 (Z.leb_gt _ _)) by lia. reflexivity.
  - rewrite get_app, L2, (proj2 (Z.leb_le _ _)) by lia. cbn [andb]. destruct (Z.ltb_spec (i - doff) n) as [H2|H2].
    + rewrite (proj2 (Z.ltb_lt _ _)), get_take, get_drop by lia. reflexivity.
    + rewrite (proj2 (Z.ltb_ge _ _)), get_drop by lia. f_equal. lia.
Qed.

(** ** The queue *)

Lemma land_pow2 x k : 0 <= k <= 31 -> Z.land x (u32 (2 ^ k - 1)) = x mod 2 ^ k.
Proof.
  intros Hk. assert (2 ^ k <= 2 ^ 31) by (apply Z.pow_le_mono_r; lia). pose proof (Z.pow_pos_nonneg 2 k). rewrite wrap_small, Z.sub_1_r, <- Z.ones_equiv by lia.
  apply Z.land_ones. lia.
Qed.

(** A power of two of at most 31 bits divides the range of the indices. *)
Lemma mod_wrap x k : 0 <= k <= 32 -> u32 x mod 2 ^ k = x mod 2 ^ k.
Proof.
  intros Hk. unfold wrap. symmetry. apply Znumtheory.Zmod_div_mod; [lia..|]. exists (2 ^ (32 - k)). rewrite <- Z.pow_add_r by lia. f_equal. lia.
Qed.

(** [v] holds the elements [q], after [T] bytes have been removed: the indices
    are those of a queue that never wraps, modulo [2^32]. *)
Record holds_queue (a b : Z) (v : u_vector) (T : Z) (q : list (list Z)) : Prop := {
  hq_bits : 0 <= a < b /\ b <= 31;
  hq_element : element_size v = 2 ^ a;
  hq_size : v_size v = 2 ^ b;
  hq_data : len (v_data v) = 2 ^ b;
  hq_start : 0 <= T /\ (2 ^ a | T);
  hq_tail : v_tail v = u32 T;
  hq_head : v_head v = u32 (T + len (concat q));
  hq_room : len (concat q) <= 2 ^ b;
  hq_elements : Forall (fun e => len e = 2 ^ a) q;
  hq_bytes : forall k, 0 <= k < len (concat q) -> get None (v_data v) ((T + k) mod 2 ^ b) = Some (get 0 (concat q) k) }.

Lemma concat_len a (q : list (list Z)) : Forall (fun e => len e = 2 ^ a) q -> len (concat q) = len q * 2 ^ a.
Proof.
  induction 1 as [|e q He _ IH]; [reflexivity|]. cbn [concat]. rewrite len_app, He, IH. unfold len. cbn [length]. lia.
Qed.

Lemma multiple_gap m x y : 0 < m -> (m | x) -> (m | y) -> x < y -> x + m <= y.
Proof. intros Hm [k ->] [l ->] H. assert (k < l) by (apply (Z.mul_lt_mono_pos_r m); assumption). nia. Qed.

Section queue.
Context (a b : Z) (v : u_vector) (T : Z) (q : list (list Z)) (Hq : holds_queue a b v T q).
Let n := len (concat q).

Lemma pow_bounds : 0 < 2 ^ a /\ 2 * 2 ^ a <= 2 ^ b /\ 2 ^ b <= 2 ^ 31.
Proof.
  destruct (hq_bits _ _ _ _ _ Hq) as [? ?]. split; [apply Z.pow_pos_nonneg; lia|]. split; [|apply Z.pow_le_mono_r; lia].
  replace (2 * 2 ^ a) with (2 ^ (1 + a)) by (rewrite Z.pow_add_r by lia; reflexivity). apply Z.pow_le_mono_r; lia.
Qed.

Lemma stored_bytes : u32 (v_head v - v_tail v) = n.
Proof.
  pose proof pow_bounds. pose proof (len_nonneg (concat q)). pose proof (hq_room _ _ _ _ _ Hq). rewrite (hq_head _ _ _ _ _ Hq), (hq_tail _ _ _ _ _ Hq), wrap_sub_l, wrap_sub_r.
  fold n in H0, H1 |- *. replace (T + n - T) with n by lia. apply wrap_small. lia.
Qed.

Lemma offset_of x : Z.land (u32 x) (u32 (v_size v - 1)) = x mod 2 ^ b.
Proof. destruct (hq_bits _ _ _ _ _ Hq). rewrite (hq_size _ _ _ _ _ Hq), land_pow2, mod_wrap by lia. reflexivity. Qed.

Lemma empty_iff : v_head v = v_tail v <-> q = [].
Proof.
  pose proof pow_bounds. pose proof (len_nonneg q). pose proof (concat_len a q (hq_elements _ _ _ _ _ Hq)) as Hl. fold n in Hl. split.
  - intros E. pose proof stored_bytes as Hs. rewrite E, Z.sub_diag in Hs. change (u32 0) with 0 in Hs. destruct q as [|e q']; [reflexivity|]. change (len (e :: q')) with (Z.of_nat (S (length q'))) in Hl. nia.
  - intros E. rewrite (hq_head _ _ _ _ _ Hq), (hq_tail _ _ _ _ _ Hq), E. cbn. now rewrite Z.add_0_r.
Qed.

Lemma size_divide : (2 ^ a | 2 ^ b).
Proof. destruct (hq_bits _ _ _ _ _ Hq). exists (2 ^ (b - a)). rewrite <- Z.pow_add_r by lia. f_equal. lia. Qed.

(** An element starts at a multiple of its size, and so fits. *)
Lemma aligned_fits x : (2 ^ a | x) -> x mod 2 ^ b + 2 ^ a <= 2 ^ b.
Proof.
  intros Hx. pose proof pow_bounds. destruct (hq_bits _ _ _ _ _ Hq). pose proof (Z.mod_pos_bound x (2 ^ b) ltac:(lia)).
  assert (Hm : (2 ^ a | x mod 2 ^ b)).
  { rewrite Z.mod_eq by lia. apply Z.divide_sub_r; [assumption|]. apply Z.divide_mul_l, size_divide. }
  apply multiple_gap; [apply pow_bounds | assumption | apply size_divide | lia].
Qed.

Lemma bytes_divide : (2 ^ a | n).
Proof. unfold n. rewrite (concat_len a q (hq_elements _ _ _ _ _ Hq)). exists (len q). lia. Qed.

Lemma room_fits : n < 2 ^ b -> n + 2 ^ a <= 2 ^ b.
Proof. intros H. apply multiple_gap; [apply pow_bounds | apply bytes_divide | apply size_divide | assumption]. Qed.
End queue.

Lemma mod_next x m i : 0 < m -> 0 <= i -> x mod m + i < m -> (x + i) mod m = x mod m + i.
Proof.
  intros Hm Hi H. pose proof (Z.mod_pos_bound x m Hm). rewrite (Z.div_mod x m) at 1 by lia. replace (m * (x / m) + x mod m + i) with (x mod m + i + (x / m) * m) by lia.
  rewrite Z_mod_plus_full. apply Z.mod_small. lia.
Qed.

Lemma mod_differ x i j m : 0 < m -> i < j < i + m -> (x + i) mod m <> (x + j) mod m.
Proof.
  intros Hm Hij E. pose proof (Z.div_mod (x + i) m ltac:(lia)) as E1. pose proof (Z.div_mod (x + j) m ltac:(lia)) as E2. rewrite E in E1.
  assert ((x + i) / m = (x + j) / m \/ (x + i) / m <> (x + j) / m) as [Eq|Eq] by lia; [rewrite Eq in E1; lia|]. nia.
Qed.

(** Storing an element after the last one. *)
Lemma store_spec a b v T q e : holds_queue a b v T q -> len (concat q) < 2 ^ b -> len e = 2 ^ a ->
  exists v', vec_store (v <| v_head := u32 (v_head v + element_size v) |>) ((T + len (concat q)) mod 2 ^ b) e = Ret v' /\ holds_queue a b v' T (q ++ [e]).
Proof.
  intros Hq Hroom He. pose proof (pow_bounds _ _ _ _ _ Hq) as (Ha & Hab & Hb). pose proof (room_fits _ _ _ _ _ Hq Hroom) as Hfit. set (n := len (concat q)) in *.
  pose proof (Z.mod_pos_bound (T + n) (2 ^ b) ltac:(lia)) as Hm. pose proof (len_nonneg (concat q)) as Hn. fold n in Hn.
  assert (Hoff : (T + n) mod 2 ^ b + 2 ^ a <= 2 ^ b).
  { apply (aligned_fits _ _ _ _ _ Hq), Z.divide_add_r; [apply Hq | apply (bytes_divide _ _ _ _ _ Hq)]. }
  unfold vec_store. change (memcpy _ _ _ _ _) with (memcpy (v_data v) ((T + n) mod 2 ^ b) (Some <$> e) 0 (len e)). assert (Hel : len (Some <$> e) = 2 ^ a) by (unfold len in *; now rewrite length_fmap).
  destruct (memcpy_spec (v_data v) ((T + n) mod 2 ^ b) (Some <$> e) 0 (len e)) as (d & -> & Hl & Hd); rewrite ?He, ?Hel, ?(hq_data _ _ _ _ _ Hq); try lia.
  cbn [obind]. eexists. split; [reflexivity|].
  assert (Hcat : concat (q ++ [e]) = concat q ++ e) by (rewrite concat_app; cbn; now rewrite app_nil_r).
  assert (Hlen : len (concat (q ++ [e])) = n + 2 ^ a) by (rewrite Hcat, len_app, He; reflexivity).
  split; try (cbn; apply Hq).
  - cbn. now rewrite Hl, (hq_data _ _ _ _ _ Hq).
  - cbn [v_head]. rewrite Hlen. cbn. rewrite (hq_head _ _ _ _ _ Hq), (hq_element _ _ _ _ _ Hq). fold n. rewrite wrap_add_l. f_equal. lia.
  - lia.
  - apply list.Forall_app. split; [apply Hq | constructor; [assumption | constructor]].
  - intros k Hk. rewrite Hlen in Hk. cbn [v_data]. cbn. rewrite Hd by (apply Z.mod_pos_bound; lia). rewrite Hcat, get_app by lia. fold n. destruct (Z.ltb_spec k n) as [H1|H1].
    + rewrite <- (hq_bytes _ _ _ _ _ Hq k) by lia. match goal with |- (if ?c then _ else _) = _ => destruct c eqn:E end; [exfalso|reflexivity].
      apply andb_true_iff in E as [E1%Z.leb_le E2%Z.ltb_lt]. rewrite He in E2. pose proof (Z.mod_pos_bound (T + k) (2 ^ b) ltac:(lia)). set (i := (T + k) mod 2 ^ b - (T + n) mod 2 ^ b) in *.
      apply (mod_differ T k (n + i) (2 ^ b)); [lia | lia|]. rewrite Z.add_assoc, (mod_next (T + n) _ i) by lia. lia.
    + replace (T + k) with (T + n + (k - n)) by lia. rewrite (mod_next (T + n)) by lia. rewrite He, (proj2 (Z.leb_le _ _)), (proj2 (Z.ltb_lt _ _)) by lia. cbn [andb].
      replace (0 + _) with (k - n) by lia. apply get_some. lia.
Qed.

(** ** Growth *)

(** The two copies of a full buffer of [s] bytes with its first byte at [t]:
    [c] is the next multiple of [s]. *)
Lemma grow_linear old s t : 0 < s -> 0 <= t -> len old = s -> t mod s = 0 ->
  exists d, memcpy (malloc (2 * s)) (t mod (2 * s)) old 0 s = Ret d /\ len d = 2 * s /\
  forall k, 0 <= k < s -> get None d ((t + k) mod (2 * s)) = get None old ((t + k) mod s).
Proof.
  intros Hs Ht Hl H0. pose proof (Z.mod_pos_bound t (2 * s) ltac:(lia)) as Hm.
  assert (Hms : (t mod (2 * s)) mod s = 0) by (rewrite <- Znumtheory.Zmod_div_mod; [assumption | lia | lia | exists 2; lia]).
  assert (Hle : t mod (2 * s) + s <= 2 * s) by (apply multiple_gap; [lia | apply Z.mod_divide; lia | exists 2; lia | lia]).
  destruct (memcpy_spec (malloc (2 * s)) (t mod (2 * s)) old 0 s) as (d & E & Hd & Hget); rewrite ?len_malloc by lia; try lia.
  exists d. split; [assumption|]. rewrite len_malloc in Hd by lia. split; [assumption|]. intros k Hk.
  rewrite !mod_next by lia. rewrite Hget, (proj2 (Z.leb_le _ _)), (proj2 (Z.ltb_lt _ _)) by lia. cbn [andb]. f_equal. lia.
Qed.

Lemma next_multiple t s : 0 < s -> t mod s <> 0 -> let c := t + s - t mod s in t < c < t + s /\ (s | c).
Proof.
  intros Hs Hne c. pose proof (Z.mod_pos_bound t s Hs). split; [lia|]. exists (t / s + 1). unfold c. pose proof (Z.div_mod t s ltac:(lia)). lia.
Qed.

(** A multiple of [s], modulo twice that, leaves room for [s]. *)
Lemma half_room s c : 0 < s -> (s | c) -> c mod (2 * s) + s <= 2 * s.
Proof.
  intros Hs Hc. pose proof (Z.mod_pos_bound c (2 * s) ltac:(lia)). apply multiple_gap; [lia | | exists 2; lia | lia].
  rewrite Z.mod_eq by lia. apply Z.divide_sub_r; [assumption|]. exists (2 * (c / (2 * s))). lia.
Qed.

Lemma grow_split old s t : 0 < s -> 0 <= t -> len old = s -> t mod s <> 0 ->
  let c := t + s - t mod s in
  exists d, (let! d := memcpy (malloc (2 * s)) (t mod (2 * s)) old (t mod s) (c - t) in memcpy d (c mod (2 * s)) old 0 (t + s - c)) = Ret d /\ len d = 2 * s /\
  forall k, 0 <= k < s -> get None d ((t + k) mod (2 * s)) = get None old ((t + k) mod s).
Proof.
  intros Hs Ht Hl Hne c. destruct (next_multiple t s Hs Hne) as [Hc Hdiv]. fold c in Hc, Hdiv. pose proof (Z.mod_pos_bound t s Hs) as Hms.
  pose proof (Z.mod_pos_bound t (2 * s) ltac:(lia)) as Hm. pose proof (Z.mod_pos_bound c (2 * s) ltac:(lia)) as Hmc. pose proof (half_room s c Hs Hdiv) as Hroom.
  assert (Hstart : t mod (2 * s) = (c - s) mod (2 * s) + (t - (c - s))).
  { pose proof (half_room s (c - s) Hs ltac:(apply Z.divide_sub_r; [assumption | apply Z.divide_refl])). rewrite <- mod_next by lia. f_equal. lia. }
  pose proof (half_room s (c - s) Hs ltac:(apply Z.divide_sub_r; [assumption | apply Z.divide_refl])) as Hroom'.
  destruct (memcpy_spec (malloc (2 * s)) (t mod (2 * s)) old (t mod s) (c - t)) as (d1 & -> & Hd1 & Hget1); rewrite ?len_malloc by lia; try lia.
  cbn [obind]. rewrite len_malloc in Hd1 by lia. destruct (memcpy_spec d1 (c mod (2 * s)) old 0 (t + s - c)) as (d & E & Hd & Hget); rewrite ?Hd1; try lia.
  exists d. split; [assumption|]. split; [congruence|]. intros k Hk. destruct (Z.ltb_spec (t + k) c) as [H1|H1].
  - assert (Hk2 : (t + k) mod (2 * s) = t mod (2 * s) + k) by (apply mod_next; lia). rewrite (mod_next t s k) by lia.
    rewrite Hget by (rewrite Hk2; lia). match goal with |- (if ?x then _ else _) = _ => destruct x eqn:E2 end.
    + exfalso. apply andb_true_iff in E2 as [E2%Z.leb_le E3%Z.ltb_lt]. set (i := (t + k) mod (2 * s) - c mod (2 * s)) in *.
      apply (mod_differ t k (c - t + i) (2 * s)); [lia | lia|]. replace (t + (c - t + i)) with (c + i) by lia. rewrite (mod_next c) by lia. lia.
    + rewrite Hget1, Hk2, (proj2 (Z.leb_le _ _)), (proj2 (Z.ltb_lt _ _)) by lia. cbn [andb]. f_equal. lia.
  - assert (Hj : (c + (t + k - c)) mod s = t + k - c) by (destruct Hdiv as [m ->]; rewrite Z.add_comm, Z_mod_plus_full; apply Z.mod_small; lia).
    replace (t + k) with (c + (t + k - c)) by lia. rewrite Hj, (mod_next c (2 * s)) by lia. rewrite Hget, (proj2 (Z.leb_le _ _)), (proj2 (Z.ltb_lt _ _)) by lia. cbn [andb]. f_equal. lia.
Qed.

Lemma clear_low y k : 0 <= y < 2 ^ 32 -> 0 <= k <= 31 -> Z.land y (u32 (Z.lnot (2 ^ k - 1))) = y - y mod 2 ^ k.
Proof.
  intros Hy Hk. assert (E : Z.land y (u32 (Z.lnot (2 ^ k - 1))) = Z.ldiff y (Z.ones k)).
  { apply Z.bits_inj'. intros j Hj. rewrite Z.land_spec, Z.ldiff_spec, Z.ones_equiv, Z.sub_1_r. unfold wrap. destruct (Z.ltb_spec j 32).
    - now rewrite Z.mod_pow2_bits_low, Z.lnot_spec by lia.
    - now rewrite (word_bit_above y j Hy) by assumption. }
  rewrite E, Z.ldiff_ones_r, Z.shiftl_mul_pow2, Z.shiftr_div_pow2 by lia. pose proof (Z.div_mod y (2 ^ k) ltac:(lia)). lia.
Qed.

Lemma lowest_power k : 0 <= k <= 31 -> 2 ^ k = Z.land (2 ^ k) (u32 (- 2 ^ k)).
Proof.
  intros Hk. assert (H : forallb (fun k => 2 ^ k =? Z.land (2 ^ k) (u32 (- 2 ^ k))) (indices 32) = true) by (vm_compute; reflexivity).
  apply Z.eqb_eq. rewrite forallb_forall in H. apply (H k), in_indices. lia.
Qed.

Lemma u_align_spec t k : 0 <= t < 2 ^ 32 -> 0 <= k <= 31 -> t mod 2 ^ k <> 0 -> u_align_u32 t (2 ^ k) = Ret (u32 (t + 2 ^ k - t mod 2 ^ k)).
Proof.
  intros Ht Hk Hne. unfold u_align_u32. rewrite <- lowest_power, Z.eqb_refl by assumption. pose proof (Z.pow_pos_nonneg 2 k ltac:(lia) ltac:(lia)) as Hp.
  rewrite (proj2 (Z.eqb_neq _ _)) by lia. cbn [negb andb c_assert]. f_equal. rewrite clear_low, mod_wrap by (try apply wrap_range; lia).
  pose proof (Z.mod_pos_bound t (2 ^ k) Hp) as Hm. destruct (next_multiple t (2 ^ k) Hp Hne) as [_ Hd].
  assert (E : (t + 2 ^ k - 1) mod 2 ^ k = t mod 2 ^ k - 1).
  { replace (t + 2 ^ k - 1) with (t mod 2 ^ k - 1 + (t / 2 ^ k + 1) * 2 ^ k) by (pose proof (Z.div_mod t (2 ^ k) ltac:(lia)); lia). rewrite Z_mod_plus_full, Z.mod_small; lia. }
  rewrite E. set (c := t + 2 ^ k - t mod 2 ^ k) in *. replace (t + 2 ^ k - 1) with (c + (t mod 2 ^ k - 1)) by lia.
  assert (Hc : 2 ^ k <= 2 ^ 31) by (apply Z.pow_le_mono_r; lia). assert (Hc32 : (2 ^ k | 2 ^ 32)) by (exists (2 ^ (32 - k)); rewrite <- Z.pow_add_r by lia; f_equal; lia).
  assert (Hroom : u32 c + 2 ^ k <= 2 ^ 32).
  { apply multiple_gap; [assumption | | assumption | apply (wrap_range 32); lia]. unfold wrap. rewrite Z.mod_eq by lia. apply Z.divide_sub_r; [assumption | now apply Z.divide_mul_l]. }
  unfold wrap in *. rewrite mod_next by lia. lia.
Qed.

(** The window of [n] bytes from [T] on crosses a multiple of [2^32], where the
    32-bit indices start again at 0. *)
Definition straddles (T n : Z) : bool := negb (T / 2 ^ 32 =? (T + n - 1) / 2 ^ 32).

Lemma straddles_low T n : 0 < n <= 2 ^ 31 -> straddles T n = (2 ^ 32 <? T mod 2 ^ 32 + n).
Proof.
  intros Hn. unfold straddles. pose proof (Z.div_mod T (2 ^ 32) ltac:(lia)) as E. pose proof (Z.mod_pos_bound T (2 ^ 32) ltac:(lia)) as Hm.
  destruct (Z.ltb_spec (2 ^ 32) (T mod 2 ^ 32 + n)) as [H|H].
  - apply negb_true_iff, Z.eqb_neq. replace ((T + n - 1) / 2 ^ 32) with (T / 2 ^ 32 + 1); [lia|]. apply (Z.div_unique _ _ _ (T mod 2 ^ 32 + n - 1 - 2 ^ 32)); lia.
  - apply negb_false_iff, Z.eqb_eq. apply (Z.div_unique _ _ _ (T mod 2 ^ 32 + n - 1)); lia.
Qed.

Lemma multiple_low T k m : 0 <= k <= 32 -> T mod 2 ^ 32 mod 2 ^ k = m -> T mod 2 ^ k = m.
Proof. intros Hk <-. symmetry. apply (mod_wrap T k Hk). Qed.

Lemma shift_wrap T k j : 0 <= j <= 32 -> (u32 T + k) mod 2 ^ j = (T + k) mod 2 ^ j.
Proof. intros Hj. rewrite Zplus_mod, mod_wrap, <- Zplus_mod by assumption. reflexivity. Qed.

(** The buffer after growth, with the bytes where the new size has them. *)
Lemma grown_queue a b v T q d : holds_queue a b v T q -> b <= 30 -> len d = 2 * 2 ^ b ->
  (forall k, 0 <= k < 2 ^ b -> get None d ((u32 T + k) mod (2 * 2 ^ b)) = get None (v_data v) ((u32 T + k) mod 2 ^ b)) ->
  holds_queue a (b + 1) (v <| v_data := d |> <| v_size := 2 * 2 ^ b |>) T q.
Proof.
  intros Hq Hb Hl Hd. destruct (hq_bits _ _ _ _ _ Hq). pose proof (Z.pow_pos_nonneg 2 b ltac:(lia) ltac:(lia)).
  assert (E : 2 * 2 ^ b = 2 ^ (b + 1)) by (rewrite Z.add_1_r, Z.pow_succ_r by lia; reflexivity). pose proof (hq_room _ _ _ _ _ Hq).
  split; try (cbn; apply Hq).
  - lia.
  - exact E.
  - cbn. now rewrite Hl.
  - lia.
  - intros k Hk. change (get None d ((T + k) mod 2 ^ (b + 1)) = Some (get 0 (concat q) k)). rewrite <- (shift_wrap T k (b + 1)), <- E, Hd, shift_wrap by lia.
    apply (hq_bytes _ _ _ _ _ Hq). lia.
Qed.

Lemma vector_grow_spec a b v T q : holds_queue a b v T q -> len (concat q) = 2 ^ b -> b <= 30 ->
  if straddles T (2 ^ b) then u_vector_grow v = Assert_failed
  else exists v', u_vector_grow v = Ret v' /\ holds_queue a (b + 1) v' T q.
Proof.
  intros Hq Hfull Hb30. destruct (hq_bits _ _ _ _ _ Hq) as [Ha Hb]. pose proof (Z.pow_pos_nonneg 2 b ltac:(lia) ltac:(lia)) as Hp.
  assert (Hp30 : 2 ^ b <= 2 ^ 30) by (apply Z.pow_le_mono_r; lia). rewrite straddles_low by lia. fold (u32 T). set (t := u32 T) in *.
  assert (Ht : 0 <= t < 2 ^ 32) by (apply (wrap_range 32); lia).
  assert (Esz : u32 (v_size v * 2) = 2 * 2 ^ b) by (rewrite (hq_size _ _ _ _ _ Hq), wrap_small by lia; lia).
  assert (E1 : 2 * 2 ^ b = 2 ^ (b + 1)) by (rewrite Z.add_1_r, Z.pow_succ_r by lia; reflexivity).
  unfold u_vector_grow. rewrite Esz, (hq_tail _ _ _ _ _ Hq), (hq_size _ _ _ _ _ Hq). fold t. rewrite land_pow2, E1, land_pow2, <- E1 by lia.
  assert (Hdiv32 : (2 ^ b | 2 ^ 32)) by (exists (2 ^ (32 - b)); rewrite <- Z.pow_add_r by lia; f_equal; lia).
  destruct (Z.eqb_spec (t mod 2 ^ b) 0) as [H0|Hne].
  - assert (Hfit : t + 2 ^ b <= 2 ^ 32) by (apply multiple_gap; [lia | now apply Z.mod_divide; [lia|] | assumption | lia]).
    rewrite (proj2 (Z.ltb_ge _ _)) by lia. destruct (grow_linear (v_data v) (2 ^ b) t Hp ltac:(lia) (hq_data _ _ _ _ _ Hq) H0) as (d & -> & Hd & Hget).
    eexists. split; [reflexivity|]. now apply grown_queue.
  - rewrite u_align_spec by (assumption || lia). cbn [obind]. destruct (next_multiple t (2 ^ b) Hp Hne) as [Hc Hcd].
    pose proof (grow_split (v_data v) (2 ^ b) t Hp ltac:(lia) (hq_data _ _ _ _ _ Hq) Hne) as Hsplit. cbv zeta in Hsplit. set (c := t + 2 ^ b - t mod 2 ^ b) in *.
    assert (Hhead : v_head v = u32 (t + 2 ^ b)) by (rewrite (hq_head _ _ _ _ _ Hq), Hfull; unfold t; now rewrite wrap_add_l).
    assert (Hn32 : t + 2 ^ b <> 2 ^ 32).
    { intros E. apply Hne, Z.mod_divide; [lia|]. replace t with (2 ^ 32 - 2 ^ b) by lia. apply Z.divide_sub_r; [assumption | apply Z.divide_refl]. }
    destruct (Z.ltb_spec (2 ^ 32) (t + 2 ^ b)) as [Hover|Hfit].
    + assert (Ec : c = 2 ^ 32).
      { destruct (Z.lt_trichotomy c (2 ^ 32)) as [Hlt|[?|Hlt]]; [|assumption|]; apply (multiple_gap (2 ^ b)) in Hlt; try assumption; lia. }
      rewrite Ec. change (u32 (2 ^ 32)) with 0. rewrite (proj2 (Z.leb_gt t 0)); [reflexivity|]. destruct (Z.eq_dec t 0) as [E|]; [|lia]. rewrite E in Hne. now rewrite Z.mod_0_l in Hne by lia.
    + assert (Hc32 : c < 2 ^ 32) by lia. rewrite Hhead, (wrap_small 32 c), (wrap_small 32 (t + 2 ^ b)) by lia.
      rewrite (proj2 (Z.leb_le _ _)), (proj2 (Z.ltb_lt _ _)) by lia. cbn [andb c_assert]. rewrite (wrap_small 32 (c - t)), (wrap_small 32 (t + 2 ^ b - c)) by lia.
      assert (Eland : Z.land c (u32 (2 * 2 ^ b - 1)) = c mod (2 * 2 ^ b)) by (rewrite E1; apply land_pow2; lia). rewrite Eland.
      destruct Hsplit as (d & -> & Hd & Hget). eexists. split; [reflexivity|]. now apply grown_queue.
Qed.

(** ** Operations on the queue *)

Lemma place_spec a b v T q e : holds_queue a b v T q -> len (concat q) < 2 ^ b -> len e = 2 ^ a ->
  exists v', (let! v := vec_store (v <| v_head := u32 (v_head v + element_size v) |>) (Z.land (v_head v) (u32 (v_size v - 1))) e in Ret (true, v)) = Ret (true, v') /\
  holds_queue a b v' T (q ++ [e]).
Proof.
  intros Hq Hroom He. destruct (store_spec a b v T q e Hq Hroom He) as (v' & E & H). exists v'. split; [|assumption].
  assert (Eo : Z.land (v_head v) (u32 (v_size v - 1)) = (T + len (concat q)) mod 2 ^ b) by (rewrite (hq_head _ _ _ _ _ Hq); apply (offset_of a b v T q Hq)).
  rewrite Eo, E. reflexivity.
Qed.

Lemma push_spec a b v T q (ok : bool) e : holds_queue a b v T q -> len (concat q) <= 2 ^ 30 -> len e = 2 ^ a ->
  if len (concat q) =? 2 ^ b then
    if ok then
      if straddles T (2 ^ b) then vec_push ok e v = Assert_failed
      else exists v', vec_push ok e v = Ret (true, v') /\ holds_queue a (b + 1) v' T (q ++ [e])
    else vec_push ok e v = Ret (false, v)
  else exists v', vec_push ok e v = Ret (true, v') /\ holds_queue a b v' T (q ++ [e]).
Proof.
  intros Hq H30 He. unfold vec_push, u_vector_add. rewrite (stored_bytes a b v T q Hq), (hq_size _ _ _ _ _ Hq). pose proof (hq_room _ _ _ _ _ Hq). destruct (hq_bits _ _ _ _ _ Hq).
  destruct (Z.eqb_spec (len (concat q)) (2 ^ b)) as [Hfull|Hne].
  - destruct ok; [|reflexivity]. assert (Hb : b <= 30) by (apply (Z.pow_le_mono_r_iff 2); lia). pose proof (vector_grow_spec a b v T q Hq Hfull Hb) as Hg.
    destruct (straddles T (2 ^ b)); [now rewrite Hg|]. destruct Hg as (v' & -> & Hv'). cbn [obind].
    assert (Hlt : len (concat q) < 2 ^ (b + 1)) by (rewrite Hfull; apply Z.pow_lt_mono_r; lia).
    rewrite (stored_bytes a (b + 1) v' T q Hv'), (proj2 (Z.ltb_lt _ _)) by now rewrite (hq_size _ _ _ _ _ Hv'). cbn [c_assert obind]. now apply place_spec.
  - rewrite (proj2 (Z.ltb_lt _ _)) by lia. cbn [c_assert obind]. rewrite <- (hq_size _ _ _ _ _ Hq). apply place_spec; [assumption | lia | assumption].
Qed.

Lemma load_spec a b v T q k e : holds_queue a b v T q -> q !! k = Some e ->
  vec_load v ((T + Z.of_nat k * 2 ^ a) mod 2 ^ b) = Ret (Some <$> e).
Proof.
  intros Hq Hk. pose proof (pow_bounds _ _ _ _ _ Hq) as (Ha & Hab & Hb). pose proof (hq_elements _ _ _ _ _ Hq) as Hel. pose proof (Forall_lookup_1 _ _ _ _ Hel Hk) as He. cbn in He.
  set (x := T + Z.of_nat k * 2 ^ a). assert (Hx : (2 ^ a | x)) by (apply Z.divide_add_r; [apply Hq | apply Z.divide_factor_r]).
  pose proof (aligned_fits _ _ _ _ _ Hq x Hx) as Hfit. pose proof (Z.mod_pos_bound x (2 ^ b) ltac:(lia)) as Hm.
  unfold vec_load. rewrite (hq_element _ _ _ _ _ Hq), (hq_data _ _ _ _ _ Hq), !(proj2 (Z.leb_le _ _)) by lia. cbn [andb c_assert]. f_equal.
  assert (Hcat : concat q = concat (take k q) ++ e ++ concat (drop (S k) q)) by (rewrite <- (take_drop_middle q k e Hk) at 1; now rewrite concat_app).
  assert (Hpre : len (concat (take k q)) = Z.of_nat k * 2 ^ a).
  { rewrite (concat_len a) by now apply Forall_take. f_equal. unfold len. rewrite length_take. apply lookup_lt_Some in Hk. lia. }
  apply (nth_ext _ _ None None); [rewrite length_take, length_drop, length_fmap; pose proof (hq_data _ _ _ _ _ Hq); unfold len in *; lia|].
  intros i Hi. rewrite length_take, length_drop in Hi. pose proof (hq_data _ _ _ _ _ Hq) as Hdl. unfold len in Hdl.
  assert (Hi' : 0 <= Z.of_nat i < 2 ^ a) by lia. rewrite <- (Nat2Z.id i). change (get None (take (Z.to_nat (2 ^ a)) (drop (Z.to_nat (x mod 2 ^ b)) (v_data v))) (Z.of_nat i) = get None (Some <$> e) (Z.of_nat i)).
  rewrite get_take, get_drop, <- mod_next, get_some by lia. unfold x. rewrite <- Z.add_assoc, (hq_bytes _ _ _ _ _ Hq).
  - f_equal. rewrite Hcat, get_app, Hpre, (proj2 (Z.ltb_ge _ _)), get_app, He, (proj2 (Z.ltb_lt _ _)) by lia. f_equal. lia.
  - rewrite Hcat, !len_app, Hpre, He. pose proof (len_nonneg (concat (drop (S k) q))). lia.
Qed.

Lemma pop_spec a b v T q : holds_queue a b v T q ->
  match q with
  | [] => vec_pop v = Ret (None, v)
  | e :: q => exists v', vec_pop v = Ret (Some (Some <$> e), v') /\ holds_queue a b v' (T + 2 ^ a) q
  end.
Proof.
  intros Hq. pose proof (empty_iff a b v T q Hq) as He. unfold vec_pop, u_vector_remove. destruct q as [|e q'].
  - rewrite (proj2 (Z.eqb_eq _ _)) by now apply He. reflexivity.
  - rewrite (proj2 (Z.eqb_neq _ _)) by (intros H; apply He in H; discriminate). rewrite (stored_bytes _ _ _ _ _ Hq), (proj2 (Z.leb_le _ _)) by (rewrite (hq_size _ _ _ _ _ Hq); apply Hq).
    cbn [c_assert obind]. assert (Eo : Z.land (v_tail v) (u32 (v_size v - 1)) = T mod 2 ^ b) by (rewrite (hq_tail _ _ _ _ _ Hq); apply (offset_of _ _ _ _ _ Hq)). rewrite Eo.
    pose proof (load_spec a b v T (e :: q') O e Hq eq_refl) as Hl. rewrite Z.mul_0_l, Z.add_0_r in Hl. change (vec_load (v <| v_tail := _ |>)) with (vec_load v). rewrite Hl. cbn [obind].
    pose proof (hq_elements _ _ _ _ _ Hq) as [Hlen Hel]%list.Forall_cons. pose proof (pow_bounds _ _ _ _ _ Hq) as (Ha & Hab & Hb).
    assert (Hcat : len (concat (e :: q')) = 2 ^ a + len (concat q')) by (cbn [concat]; now rewrite len_app, Hlen). pose proof (hq_room _ _ _ _ _ Hq) as Hroom. rewrite Hcat in Hroom.
    eexists. split; [reflexivity|]. split; try (cbn; apply Hq); try assumption.
    + pose proof (hq_start _ _ _ _ _ Hq) as [H1 H2]. split; [lia|]. apply Z.divide_add_r; [assumption | apply Z.divide_refl].
    + cbn. rewrite (hq_tail _ _ _ _ _ Hq), (hq_element _ _ _ _ _ Hq). apply wrap_add_l.
    + cbn. rewrite (hq_head _ _ _ _ _ Hq), Hcat. f_equal. lia.
    + lia.
    + intros k Hk. change (get None (v_data v) ((T + 2 ^ a + k) mod 2 ^ b) = Some (get 0 (concat q') k)). rewrite <- Z.add_assoc, (hq_bytes _ _ _ _ _ Hq) by (rewrite Hcat; lia).
      f_equal. cbn [concat]. rewrite get_app, Hlen, (proj2 (Z.ltb_ge _ _)) by lia. f_equal. lia.
Qed.

Lemma length_spec a b v T q : holds_queue a b v T q -> u_vector_length v = len q.
Proof.
  intros Hq. unfold u_vector_length. rewrite (stored_bytes _ _ _ _ _ Hq), (hq_element _ _ _ _ _ Hq), (concat_len a q (hq_elements _ _ _ _ _ Hq)).
  pose proof (pow_bounds _ _ _ _ _ Hq). apply Z.div_mul. lia.
Qed.

(** The loop of [u_vector_foreach] from the [k]-th element on, when the indices
    have not wrapped. *)
Lemma foreach_spec a b v T q fuel : holds_queue a b v T q -> u32 T + len (concat q) < 2 ^ 32 -> forall k, (k <= length q <= k + fuel)%nat ->
  foreach_from fuel v (u32 T + Z.of_nat k * 2 ^ a) = Ret ((fun j => (T + Z.of_nat j * 2 ^ a) mod 2 ^ b) <$> seq k (length q - k)).
Proof.
  intros Hq Hlow. pose proof (pow_bounds _ _ _ _ _ Hq) as (Ha & Hab & Hb). pose proof (wrap_range 32 T ltac:(lia)) as Ht.
  assert (Hhead : v_head v = u32 T + len q * 2 ^ a).
  { rewrite (hq_head _ _ _ _ _ Hq), <- wrap_add_l, wrap_small by (pose proof (len_nonneg (concat q)); lia). f_equal. apply concat_len, Hq. }
  pose proof (concat_len a q (hq_elements _ _ _ _ _ Hq)) as Hcl.
  induction fuel as [|fuel IH]; intros k Hk; cbn [foreach_from]; rewrite Hhead; unfold len in *.
  - replace k with (length q) by lia. rewrite (proj2 (Z.ltb_ge _ _)), Nat.sub_diag by lia. reflexivity.
  - destruct (Nat.eq_dec k (length q)) as [->|Hne]; [rewrite (proj2 (Z.ltb_ge _ _)), Nat.sub_diag by lia; reflexivity|].
    assert (Hstep : u32 T + Z.of_nat (S k) * 2 ^ a <= u32 T + Z.of_nat (length q) * 2 ^ a) by nia.
    rewrite (proj2 (Z.ltb_lt _ _)) by nia. rewrite (hq_element _ _ _ _ _ Hq), (wrap_small 32 (u32 T + Z.of_nat k * 2 ^ a + 2 ^ a)) by nia.
    replace (u32 T + Z.of_nat k * 2 ^ a + 2 ^ a) with (u32 T + Z.of_nat (S k) * 2 ^ a) by nia. rewrite IH by lia. replace (length q - k)%nat with (S (length q - S k)) by lia.
    destruct (hq_bits _ _ _ _ _ Hq). rewrite (hq_size _ _ _ _ _ Hq), land_pow2, shift_wrap by lia. reflexivity.
Qed.

Definition bytes_of (e : list Z) : list (option Z) := Some <$> e.

(** The elements that [u_vector_foreach] visits. *)
Definition elements (v : u_vector) : outcome (list (list (option Z))) :=
  let! offsets := u_vector_foreach v in foldr (fun o r => let! e := vec_load v o in omap_out (cons e) r) (Ret []) offsets.

Lemma load_all a b v T q : holds_queue a b v T q -> forall k n, (k + n <= length q)%nat ->
  foldr (fun o r => let! e := vec_load v o in omap_out (cons e) r) (Ret []) ((fun j => (T + Z.of_nat j * 2 ^ a) mod 2 ^ b) <$> seq k n) =
  Ret (bytes_of <$> take n (drop k q)).
Proof.
  intros Hq k n. revert k. induction n as [|n IH]; intros k Hk; [reflexivity|]. cbn [seq fmap list_fmap foldr].
  destruct (lookup_lt_is_Some_2 q k) as [e He]; [lia|]. rewrite (load_spec a b v T q k e Hq He). cbn [obind]. change (list_fmap _ _ ?f ?l) with (f <$> l). rewrite IH by lia.
  rewrite (drop_S q e k He). reflexivity.
Qed.

(** Nothing at all is visited once the head has wrapped. *)
Lemma elements_spec a b v T q : holds_queue a b v T q -> len (concat q) <= 2 ^ 30 ->
  elements v = Ret (if straddles T (len (concat q) + 1) then [] else bytes_of <$> q).
Proof.
  intros Hq H30. pose proof (len_nonneg (concat q)) as Hn. pose proof (pow_bounds _ _ _ _ _ Hq) as (Ha & Hab & Hb). rewrite straddles_low by lia. fold (u32 T).
  pose proof (wrap_range 32 T ltac:(lia)) as Ht. unfold elements, u_vector_foreach. rewrite (hq_tail _ _ _ _ _ Hq). destruct (Z.ltb_spec (2 ^ 32) (u32 T + (len (concat q) + 1))) as [H|H].
  - assert (Hh : v_head v <= u32 T).
    { rewrite (hq_head _ _ _ _ _ Hq), <- wrap_add_l. unfold wrap at 1. replace (u32 T + len (concat q)) with (u32 T + len (concat q) - 2 ^ 32 + 1 * 2 ^ 32) by lia.
      rewrite Z_mod_plus_full, Z.mod_small; lia. }
    destruct (Z.to_nat (v_size v)); cbn [foreach_from]; rewrite (proj2 (Z.ltb_ge _ _)) by assumption; reflexivity.
  - pose proof (foreach_spec a b v T q (Z.to_nat (v_size v)) Hq ltac:(lia) O) as Hf. rewrite Z.mul_0_l, Z.add_0_r in Hf. rewrite Hf.
    + cbn [obind]. rewrite (load_all a b v T q Hq), drop_0, firstn_all2 by lia. reflexivity.
    + rewrite (hq_size _ _ _ _ _ Hq). pose proof (concat_len a q (hq_elements _ _ _ _ _ Hq)) as Hcl. pose proof (hq_room _ _ _ _ _ Hq). unfold len in *. nia.
Qed.

(** ** Refinement *)

(** The calls of a client, whether an allocation succeeds, and the results. *)
Inductive vec_op := V_push (ok : bool) (e : list Z) | V_pop | V_length | V_foreach.
Inductive vec_result := R_pushed (done : bool) | R_popped (e : option (list (option Z))) | R_length (n : Z) | R_elements (l : list (list (option Z))).

Definition vec_call (o : vec_op) (v : u_vector) : outcome (vec_result * u_vector) :=
  match o with
  | V_push ok e => omap_out (fun r => (R_pushed r.1, r.2)) (vec_push ok e v)
  | V_pop => omap_out (fun r => (R_popped r.1, r.2)) (vec_pop v)
  | V_length => Ret (R_length (u_vector_length v), v)
  | V_foreach => omap_out (fun l => (R_elements l, v)) (elements v)
  end.

Fixpoint vec_calls (ops : list vec_op) (v : u_vector) : outcome (list vec_result) :=
  match ops with
  | [] => Ret []
  | o :: ops => let! (r, v) := vec_call o v in omap_out (cons r) (vec_calls ops v)
  end.

(** A first-in-first-out queue, with the bytes removed so far and the bits of
    its capacity. *)
Record fifo := Fifo { removed : Z; capacity_bits : Z; items : list (list Z) }.

(** [None] is a failed assertion: growth while the indices wrap. *)
Definition fifo_call (a : Z) (o : vec_op) (f : fifo) : option (vec_result * fifo) :=
  let (T, b, q) := f in
  let n := len q * 2 ^ a in
  match o with
  | V_push ok e =>
      if n =? 2 ^ b then
        if ok then if straddles T n then None else Some (R_pushed true, Fifo T (b + 1) (q ++ [e]))
        else Some (R_pushed false, f)
      else Some (R_pushed true, Fifo T b (q ++ [e]))
  | V_pop => match q with [] => Some (R_popped None, f) | e :: q => Some (R_popped (Some (Some <$> e)), Fifo (T + 2 ^ a) b q) end
  | V_length => Some (R_length (len q), f)
  | V_foreach => Some (R_elements (if straddles T (n + 1) then [] else bytes_of <$> q), f)
  end.

Fixpoint fifo_calls (a : Z) (ops : list vec_op) (f : fifo) : option (list vec_result) :=
  match ops with
  | [] => Some []
  | o :: ops => match fifo_call a o f with Some (r, f) => cons r <$> fifo_calls a ops f | None => None end
  end.

(** At no time more than [2^30] bytes are stored. *)
Fixpoint fits (a : Z) (ops : list vec_op) (f : fifo) : Prop :=
  len (items f) * 2 ^ a <= 2 ^ 30 /\
  match ops with
  | [] => True
  | o :: ops => match fifo_call a o f with Some (_, f) => fits a ops f | None => True end
  end.

Definition pushes_elements (a : Z) (o : vec_op) : Prop := match o with V_push _ e => len e = 2 ^ a | _ => True end.

Lemma vec_call_spec a o v f : holds_queue a (capacity_bits f) v (removed f) (items f) -> len (items f) * 2 ^ a <= 2 ^ 30 -> pushes_elements a o ->
  match fifo_call a o f with
  | Some (r, f') => exists v', vec_call o v = Ret (r, v') /\ holds_queue a (capacity_bits f') v' (removed f') (items f')
  | None => vec_call o v = Assert_failed
  end.
Proof.
  destruct f as [T b q]. cbn [capacity_bits removed items]. intros Hq H30 Ho. pose proof (concat_len a q (hq_elements _ _ _ _ _ Hq)) as Hcl. rewrite <- Hcl in H30.
  destruct o as [ok e| | |]; cbn [fifo_call vec_call]; rewrite <- ?Hcl.
  - pose proof (push_spec a b v T q ok e Hq H30 Ho) as Hp. destruct (Z.eqb_spec (len (concat q)) (2 ^ b)) as [E|E]; [destruct ok; [rewrite E; destruct (straddles T (2 ^ b)); [now rewrite Hp|] | rewrite Hp; eauto]|];
      destruct Hp as (v' & -> & Hv'); eauto.
  - pose proof (pop_spec a b v T q Hq) as Hp. destruct q as [|e q]; [rewrite Hp; eauto|]. destruct Hp as (v' & -> & Hv'). eauto.
  - rewrite (length_spec a b v T q Hq). eauto.
  - rewrite (elements_spec a b v T q Hq H30). eauto.
Qed.

Lemma vec_calls_spec a ops : forall v f, holds_queue a (capacity_bits f) v (removed f) (items f) -> fits a ops f -> Forall (pushes_elements a) ops ->
  vec_calls ops v = match fifo_calls a ops f with Some rs => Ret rs | None => Assert_failed end.
Proof.
  induction ops as [|o ops IH]; intros v f Hq Hf Ho; [reflexivity|]. apply list.Forall_cons in Ho as [Ho Hops]. destruct Hf as [H30 Hf]. cbn.
  pose proof (vec_call_spec a o v f Hq H30 Ho) as H. destruct (fifo_call a o f) as [[r f']|]; [|now rewrite H].
  destruct H as (v' & -> & Hv'). cbn. rewrite (IH v' f' Hv' Hf Hops). now destruct (fifo_calls a ops f').
Qed.

Lemma power_nonzero k : 0 <= k <= 31 -> util_is_power_of_two_nonzero (2 ^ k) = true.
Proof.
  intros Hk. assert (H : forallb (fun k => util_is_power_of_two_nonzero (2 ^ k)) (indices 32) = true) by (vm_compute; reflexivity).
  rewrite forallb_forall in H. apply (H k), in_indices. lia.
Qed.

Lemma vector_init_holds a b : 0 <= a < b -> b <= 31 -> exists v, u_vector_init (2 ^ a) (2 ^ b) true = Ret (Some v) /\ holds_queue a b v 0 [].
Proof.
  intros Ha Hb. unfold u_vector_init. rewrite !power_nonzero, (proj2 (Z.ltb_lt _ _)) by (try (apply Z.pow_lt_mono_r); lia). cbn [andb c_assert]. eexists. split; [reflexivity|].
  assert (0 < 2 ^ b) by (apply Z.pow_pos_nonneg; lia). change (len (concat [])) with 0 in *.
  split; cbn; try reflexivity; try lia; try apply len_malloc; try (split; [lia | apply Z.divide_0_r]); try constructor; unfold len; cbn; try lia; intros; lia.
Qed.

(** C29: the vector is a first-in-first-out queue for any sequence of calls that
    never stores more than [2^30] bytes: through growth and wrap-around of its
    32-bit indices, elements come out as they were put in and no access is
    outside the buffer; a failed allocation leaves it as it was.  The two
    exceptions are exact: growth fails its assertion, and the iteration visits
    nothing, while the stored bytes span a multiple of [2^32]. *)
Theorem u_vector_refines_fifo a b ops : 0 <= a < b -> b <= 31 -> fits a ops (Fifo 0 b []) -> Forall (pushes_elements a) ops ->
  exists v, u_vector_init (2 ^ a) (2 ^ b) true = Ret (Some v) /\
  vec_calls ops v = match fifo_calls a ops (Fifo 0 b []) with Some rs => Ret rs | None => Assert_failed end.
Proof.
  intros Ha Hb Hf Ho. destruct (vector_init_holds a b Ha Hb) as (v & E & Hv). exists v. split; [assumption|]. now apply vec_calls_spec.
Qed.

Lemma u_vector_refines_fifo_witness : exists v, u_vector_init 2 4 true = Ret (Some v) /\
  vec_calls [V_push true [1; 2]; V_pop; V_push true [3; 4]; V_push true [5; 6]; V_push true [7; 8]; V_pop; V_length; V_foreach] v =
  Ret [R_pushed true; R_popped (Some [Some 1; Some 2]); R_pushed true; R_pushed true; R_pushed true; R_popped (Some [Some 3; Some 4]); R_length 2;
       R_elements [[Some 5; Some 6]; [Some 7; Some 8]]].
Proof.
  destruct (u_vector_refines_fifo 1 2 [V_push true [1; 2]; V_pop; V_push true [3; 4]; V_push true [5; 6]; V_push true [7; 8]; V_pop; V_length; V_foreach]) as (v & E & H);
    [lia | lia | vm_compute; intuition discriminate | repeat constructor|].
  exists v. split; [exact E|]. rewrite H. vm_compute. reflexivity.
Defined.
