(* ===== verification/HalfFloat.v ===== *)
(** * Half-precision numbers: src/util/half_float.c

    A [float] is its 32-bit pattern, a half its 16-bit pattern.  The arithmetic
    on floats is that of IEEE 754 at single precision, in the Standard
    Library's model ([SpecFloat]). *)

From Stdlib Require Import ZArith List Lia Bool SpecFloat.
From S2P Require Import Prelude Arrays.
#[local] Open Scope bool_scope.
#[local] Open Scope Z_scope.
#[local] Open Scope c_scope.

(** ** Single precision *)

(** The union [fi_type]: the value of a pattern, and the pattern of a value. *)
Definition float_of_bits (u : Z) : spec_float :=
  let m := Z.land u 0x7fffff in
  let e := Z.land (Z.shiftr u 23) 0xff in
  let s := Z.testbit u 31 in
  if e =? 0 then match m with Zpos p => S754_finite s p (-149) | _ => S754_zero s end
  else if e =? 0xff then if m =? 0 then S754_infinity s else S754_nan
  else match 0x800000 + m with Zpos p => S754_finite s p (e - 150) | _ => S754_nan end.

Definition bits_of_float (f : spec_float) : Z :=
  let sign (s : bool) := if s then 0x80000000 else 0 in
  match f with
  | S754_zero s => sign s
  | S754_infinity s => sign s + 0x7f800000
  | S754_nan => 0x7fc00000
  | S754_finite s p e => sign s + (if Zpos p <? 0x800000 then Zpos p else (e + 149) * 2 ^ 23 + Zpos p)
  end.

(** The conversion of an [int], and products and quotients. *)
Definition float_of_int (n : Z) : spec_float := binary_normalize 24 128 n 0 false.
Definition fmul : spec_float -> spec_float -> spec_float := SFmul 24 128.
Definition fdiv : spec_float -> spec_float -> spec_float := SFdiv 24 128.

(** [m * 2^e] rounded to an integer, ties to even. *)
Definition round_even (m e : Z) : Z :=
  if 0 <=? e then m * 2 ^ e
  else
    let q := m / 2 ^ (- e) in
    let r := 2 * (m mod 2 ^ (- e)) in
    if (r <? 2 ^ (- e)) || (r =? 2 ^ (- e)) && Z.even q then q else q + 1.

(** The value of an out-of-range conversion is that of [cvtss2si]. *)
Definition _mesa_lroundevenf (x : spec_float) : Z :=
  match x with
  | S754_zero _ => 0
  | S754_finite s p e => if s then - round_even (Zpos p) e else round_even (Zpos p) e
  | _ => - 2 ^ 63
  end.

(** ** Conversions *)

(** The exponent and mantissa of the half, before a carry. *)
Definition half_parts (val : Z) : Z * Z :=
  let i := i32 val in
  let flt_m := Z.land i 0x7fffff in
  let flt_e := Z.land (Z.shiftr i 23) 0xff in
  if (flt_e =? 0) && (flt_m =? 0) then (0, 0)
  else if (flt_e =? 0) && negb (flt_m =? 0) then (0, 0)
  else if (flt_e =? 0xff) && (flt_m =? 0) then (31, 0)
  else if (flt_e =? 0xff) && negb (flt_m =? 0) then (31, 1)
  else
    let new_exp := flt_e - 127 in
    if new_exp <? -14 then (0, _mesa_lroundevenf (fmul (float_of_int (Z.shiftl 1 24)) (SFabs (float_of_bits val))))
    else if new_exp >? 15 then (31, 0)
    else (new_exp + 15, _mesa_lroundevenf (fdiv (float_of_int flt_m) (float_of_int (Z.shiftl 1 13)))).

Definition _mesa_float_to_half (val : Z) : outcome Z :=
  let s := Z.land (Z.shiftr (i32 val) 31) 0x1 in
  let (e, m) := half_parts val in
  assert! (0 <=? m) && (m <=? 1024) ;;
  let (e, m) := if m =? 1024 then (e + 1, 0) else (e, m) in
  Ret (wrap 16 (Z.lor (Z.lor (Z.shiftl s 15) (Z.shiftl e 10)) m)).

Definition _mesa_half_to_float (val : Z) : Z :=
  let m := Z.land val 0x3ff in
  let e := Z.land (Z.shiftr val 10) 0x1f in
  let s := Z.land (Z.shiftr val 15) 0x1 in
  let bits flt_e flt_m := u32 (Z.lor (Z.lor (Z.shiftl s 31) (Z.shiftl flt_e 23)) flt_m) in
  if (e =? 0) && (m =? 0) then bits 0 0
  else if (e =? 0) && negb (m =? 0) then
    let half_denorm := fdiv (float_of_int 1) (float_of_int 16384) in
    let mantissa := fdiv (float_of_int m) (float_of_int 1024) in
    let sign := if negb (s =? 0) then float_of_int (-1) else float_of_int 1 in
    bits_of_float (fmul (fmul sign mantissa) half_denorm)
  else if (e =? 31) && (m =? 0) then bits 0xff 0
  else if (e =? 31) && negb (m =? 0) then bits 0xff 1
  else bits (e + 112) (Z.shiftl m 13).

Definition FP16_ONE : Z := 0x3C00.

Definition _mesa_half_is_negative (h : Z) : bool := negb (Z.land h 0x8000 =? 0).

Definition _mesa_half_to_unorm8 (val : Z) : outcome Z :=
  let m := Z.land val 0x3ff in
  let e := Z.land (Z.shiftr val 10) 0x1f in
  let s := Z.land (Z.shiftr val 15) 0x1 in
  assert! (s =? 0) && (val <=? FP16_ONE) ;;
  let v := u32 (Z.lor (Z.shiftl 1 10) m * 255) in
  let v := Z.shiftr (u32 (Z.shiftr v (24 - e) + 1)) 1 in
  Ret (wrap 8 v).

(** [for (int i = 15; i >= 0; i--)] counts the leading zeros of [v]. *)
Fixpoint leading_zeros (i : nat) (v : Z) : Z :=
  match i with
  | O => 16
  | S i => if negb (Z.land v (Z.shiftl 1 (Z.of_nat i)) =? 0) then 15 - Z.of_nat i else leading_zeros i v
  end.

Definition _mesa_uint16_div_64k_to_half (v : Z) : outcome Z :=
  if v <? 4 then Ret (wrap 16 (Z.shiftl v 8)) else
  let n := leading_zeros 16 v in
  let m := Z.shiftr (Z.land (u32 (Z.shiftl v (n + 1))) 0xffff) 6 in
  let e := 14 - n in
  assert! (e >=? 1) && (e <=? 30) ;;
  assert! (m >=? 0) && (m <? 0x400) ;;
  Ret (wrap 16 (Z.lor (Z.shiftl e 10) m)).

(** ** Values *)

(** The magnitude of a half with the 15 bits [h] below its sign, in units of
    [2^-24]; that of infinity continues the sequence. *)
Definition half_value (h : Z) : Z :=
  let e := h / 1024 in
  let m := h mod 1024 in
  if e =? 0 then m else (1024 + m) * 2 ^ (e - 1).

(** The magnitude of a finite float, in units of [2^-149]. *)
Definition float_value (u : Z) : Z :=
  let e := (u / 2 ^ 23) mod 256 in
  let m := u mod 2 ^ 23 in
  if e =? 0 then m else (2 ^ 23 + m) * 2 ^ (e - 1).

(** ** Bit fields *)

Lemma land_low x k : 0 <= k -> Z.land x (2 ^ k - 1) = x mod 2 ^ k.
Proof. intros Hk. rewrite Z.sub_1_r, <- Z.ones_equiv. now apply Z.land_ones. Qed.

Lemma field_low x n k : 0 <= n -> 0 <= k -> Z.land (Z.shiftr x n) (2 ^ k - 1) = (x / 2 ^ n) mod 2 ^ k.
Proof. intros Hn Hk. now rewrite land_low, Z.shiftr_div_pow2. Qed.

(** A field below a multiple of its size. *)
Lemma lor_field a k b : 0 <= k -> 0 <= b < 2 ^ k -> Z.lor (Z.shiftl a k) b = a * 2 ^ k + b.
Proof.
  intros Hk Hb. assert (Hhigh : forall j, k <= j -> Z.testbit b j = false) by (intros j Hj; rewrite <- (Z.mod_small b (2 ^ k) Hb); apply Z.mod_pow2_bits_high; lia).
  rewrite <- Z.shiftl_mul_pow2 by lia. symmetry. rewrite Z.add_nocarry_lxor; [apply Z.lxor_lor|]; apply Z.bits_inj'; intros j Hj; rewrite Z.land_spec, Z.bits_0;
    (destruct (Z.lt_ge_cases j k); [rewrite Z.shiftl_spec_low by assumption; reflexivity | rewrite Hhigh by assumption; apply andb_false_r]).
Qed.

Lemma pack_fields s e m a b : 0 <= b <= a -> 0 <= m < 2 ^ b -> 0 <= e < 2 ^ (a - b) ->
  Z.lor (Z.lor (Z.shiftl s a) (Z.shiftl e b)) m = s * 2 ^ a + (e * 2 ^ b + m).
Proof.
  intros Hb Hm He. assert (E : 2 ^ a = 2 ^ (a - b) * 2 ^ b) by (rewrite <- Z.pow_add_r by lia; f_equal; lia). pose proof (Z.pow_pos_nonneg 2 b).
  rewrite (Z.shiftl_mul_pow2 e b), lor_field by nia. replace (s * 2 ^ a + e * 2 ^ b) with (Z.shiftl (s * 2 ^ (a - b) + e) b) by (rewrite Z.shiftl_mul_pow2, E by lia; ring).
  rewrite lor_field by lia. rewrite E. ring.
Qed.

(** The fields of a signed pattern are those of the unsigned one. *)
Lemma signed_field u n k : 0 <= n -> 0 <= k -> n + k <= 32 -> (i32 u / 2 ^ n) mod 2 ^ k = (u / 2 ^ n) mod 2 ^ k.
Proof.
  intros Hn Hk Hnk. assert (E : exists c, i32 u = u + c * 2 ^ (32 - n) * 2 ^ n).
  { unfold swrap. pose proof (Z.div_mod u (2 ^ 32) ltac:(lia)) as Hu. assert (E : 2 ^ (32 - n) * 2 ^ n = 2 ^ 32) by (rewrite <- Z.pow_add_r by lia; f_equal; lia).
    destruct (u mod 2 ^ 32 <? 2 ^ (32 - 1)); [exists (- (u / 2 ^ 32)) | exists (- (u / 2 ^ 32) - 1)]; rewrite <- Z.mul_assoc, E; lia. }
  destruct E as (c & ->). rewrite Z.div_add by lia. replace (2 ^ (32 - n)) with (2 ^ (32 - n - k) * 2 ^ k) by (rewrite <- Z.pow_add_r by lia; f_equal; lia).
  rewrite Z.mul_assoc. apply Z_mod_plus_full.
Qed.

(** ** The arithmetic is exact *)

Lemma pow_halves n : 2 < 2 ^ n -> 0 < n - 1 /\ 2 ^ n = 2 * 2 ^ (n - 1) /\ 2 ^ (n - 1) = 2 * 2 ^ (n - 1 - 1).
Proof.
  intros H. assert (Hn : 0 < n - 1).
  { apply Z.nle_gt. intros Hle. assert (H1 : 2 ^ n <= 2 ^ 1) by (apply Z.pow_le_mono_r; lia). change (2 ^ 1) with 2 in H1. lia. }
  split; [assumption|]. split; rewrite <- Z.pow_succ_r by lia; f_equal; lia.
Qed.

Lemma digits_spec p n : 2 ^ (n - 1) <= Zpos p < 2 ^ n -> Zpos (digits2_pos p) = n.
Proof.
  revert n. induction p as [p IH|p IH|]; intros n Hp.
  - cbn [digits2_pos]. rewrite Pos2Z.inj_succ, (IH (n - 1)); [lia|]. rewrite (Pos2Z.inj_xI p) in Hp.
    destruct (pow_halves n ltac:(lia)) as (? & ? & ?). lia.
  - cbn [digits2_pos]. rewrite Pos2Z.inj_succ, (IH (n - 1)); [lia|]. rewrite (Pos2Z.inj_xO p) in Hp.
    destruct (pow_halves n ltac:(lia)) as (? & ? & ?). lia.
  - cbn. assert (n = 1); [|lia]. destruct (Z.lt_trichotomy n 1) as [H|[H|H]]; [|assumption|].
    + assert (2 ^ n <= 2 ^ 0) by (apply Z.pow_le_mono_r; lia). cbn in *. lia.
    + assert (2 ^ 1 <= 2 ^ (n - 1)) by (apply Z.pow_le_mono_r; lia). cbn in *. lia.
Qed.

(** A mantissa of 24 bits with [k] zero bits below it rounds to itself. *)
Lemma round_exact_23 s p e : Zpos (digits2_pos p) = 24 -> -149 <= e + 23 <= 104 ->
  binary_round_aux 24 128 s (Zpos (8388608 * p)) e loc_Exact = S754_finite s p (e + 23).
Proof.
  intros Hd He. change (8388608 * p)%positive with (p~0~0~0~0~0~0~0~0~0~0~0~0~0~0~0~0~0~0~0~0~0~0~0)%positive.
  unfold binary_round_aux, shr_fexp, fexp, SpecFloat.emin. cbn [Zdigits2 digits2_pos]. rewrite !Pos2Z.inj_succ, Hd.
  replace (_ - e) with 23 by lia. cbn [shr shr_record_of_loc iter_pos shr_1 orb shr_m loc_of_shr_record round_nearest_even Zdigits2]. rewrite Hd.
  replace (_ - (e + 23)) with 0 by lia. cbn [shr shr_m]. rewrite (proj2 (Z.leb_le _ _)) by lia. reflexivity.
Qed.

Lemma round_exact_1 p e : Zpos (digits2_pos p) = 24 -> -149 <= e + 1 <= 104 ->
  binary_round_aux 24 128 false (Zpos p~0) e loc_Exact = S754_finite false p (e + 1).
Proof.
  intros Hd He. unfold binary_round_aux, shr_fexp, fexp, SpecFloat.emin. cbn [Zdigits2 digits2_pos]. rewrite !Pos2Z.inj_succ, Hd.
  replace (_ - e) with 1 by lia. cbn [shr shr_record_of_loc iter_pos shr_1 orb shr_m loc_of_shr_record round_nearest_even Zdigits2]. rewrite Hd.
  replace (_ - (e + 1)) with 0 by lia. cbn [shr shr_m]. rewrite (proj2 (Z.leb_le _ _)) by lia. reflexivity.
Qed.

(** The power of two [2^k] as a float is [8388608 * 2^(k - 23)]; products and
    quotients with it are exact. *)
Lemma fmul_power s s' p e k : Zpos (digits2_pos p) = 24 -> -149 <= e + k <= 104 ->
  fmul (S754_finite s' 8388608 (k - 23)) (S754_finite s p e) = S754_finite (xorb s' s) p (e + k) /\
  fmul (S754_finite s p e) (S754_finite s' 8388608 (k - 23)) = S754_finite (xorb s s') p (e + k).
Proof.
  intros Hd He. unfold fmul, SFmul. rewrite (Pos.mul_comm p 8388608), !round_exact_23 by (assumption || lia). split; f_equal; lia.
Qed.

Lemma fdiv_power p e k : Zpos (digits2_pos p) = 24 -> -100 <= e <= 100 -> 0 <= k <= 23 ->
  fdiv (S754_finite false p e) (S754_finite false 8388608 (k - 23)) = S754_finite false p (e - k).
Proof.
  intros Hd He Hk. unfold fdiv, SFdiv, SFdiv_core_binary, fexp, SpecFloat.emin.
  cbn [Zdigits2 xorb]. rewrite Hd. change (Zpos (digits2_pos 8388608)) with 24. replace (Z.min _ _) with (e - k - 1) by lia.
  replace (e - (k - 23) - (e - k - 1)) with 24 by lia. cbv iota. rewrite Z.shiftl_mul_pow2 by lia.
  assert (E : Z.div_eucl (Z.pos p * 2 ^ 24) 8388608 = (Z.pos p~0, 0)).
  { pose proof (Z_div_mod (Z.pos p * 2 ^ 24) 8388608 ltac:(lia)) as H. destruct (Z.div_eucl _ _) as [q r]. rewrite (Pos2Z.inj_xO p). f_equal; lia. }
  rewrite E. change (new_location 8388608 0) with loc_Exact. rewrite round_exact_1 by (assumption || lia). f_equal. lia.
Qed.

Lemma round_exact_0 p e : Zpos (digits2_pos p) = 24 -> -149 <= e <= 104 -> binary_round_aux 24 128 false (Zpos p) e loc_Exact = S754_finite false p e.
Proof.
  intros Hd He. unfold binary_round_aux, shr_fexp, fexp, SpecFloat.emin. cbn [Zdigits2]. rewrite Hd.
  replace (_ - e) with 0 by lia. cbn [shr shr_record_of_loc shr_m loc_of_shr_record round_nearest_even Zdigits2]. rewrite Hd.
  replace (_ - e) with 0 by lia. cbn [shr shr_m]. rewrite (proj2 (Z.leb_le _ _)) by lia. reflexivity.
Qed.

Lemma iter_xO p k : Zpos (Pos.iter xO p k) = Zpos p * 2 ^ Zpos k.
Proof.
  induction k as [|k IH] using Pos.peano_ind; [cbn [Pos.iter]; rewrite (Pos2Z.inj_xO p); lia|].
  rewrite Pos.iter_succ, (Pos2Z.inj_xO (Pos.iter xO p k)), IH, Pos2Z.inj_succ, Z.pow_succ_r by lia. lia.
Qed.

(** An [int] of at most 24 bits is converted exactly. *)
Lemma float_of_int_exact n : 0 < n < 2 ^ 24 ->
  exists p k, float_of_int n = S754_finite false p (- k) /\ Zpos (digits2_pos p) = 24 /\ Zpos p = n * 2 ^ k /\ 0 <= k <= 23.
Proof.
  intros Hn. destruct n as [|n|n]; try lia. pose proof (Z.log2_spec (Zpos n) ltac:(lia)) as Hl. pose proof (Z.log2_nonneg (Zpos n)) as H0. set (l := Z.log2 (Zpos n)) in *.
  assert (Hd : Zpos (digits2_pos n) = l + 1) by (apply digits_spec; rewrite Z.add_simpl_r; exact Hl).
  assert (Hl24 : l < 24) by (apply (Z.pow_lt_mono_r_iff 2); lia).
  unfold float_of_int, binary_normalize, binary_round, shl_align, fexp, SpecFloat.emin. rewrite Hd.
  replace (_ - 0) with (- (23 - l)) by lia. destruct (23 - l) as [|k|k] eqn:Ek; [change (- 0) with 0 | change (- Zpos k) with (Zneg k) | lia]; cbv beta iota.
  - exists n, 0. rewrite round_exact_0 by lia. repeat split; lia.
  - exists (Pos.iter xO n k), (Zpos k). assert (Hk : Zpos (digits2_pos (Pos.iter xO n k)) = 24).
    { apply digits_spec. rewrite iter_xO, <- Ek. replace (2 ^ (24 - 1)) with (2 ^ l * 2 ^ (23 - l)) by (rewrite <- Z.pow_add_r by lia; f_equal; lia).
      replace (2 ^ 24) with (2 ^ Z.succ l * 2 ^ (23 - l)) by (rewrite <- Z.pow_add_r by lia; f_equal; lia). pose proof (Z.pow_pos_nonneg 2 (23 - l)). nia. }
    replace (Z.max _ _) with (- Zpos k) by lia. rewrite round_exact_0 by lia. split; [reflexivity|]. split; [assumption|]. split; [apply iter_xO | lia].
Qed.

(** Zero bits below a mantissa do not change what it rounds to. *)
Lemma round_even_scale m k j : 0 <= k -> 0 < j -> round_even (m * 2 ^ k) (- (j + k)) = round_even m (- j).
Proof.
  intros Hk Hj. unfold round_even. rewrite !(proj2 (Z.leb_gt _ _)), !Z.opp_involutive by lia. pose proof (Z.pow_pos_nonneg 2 k ltac:(lia) Hk).
  pose proof (Z.pow_pos_nonneg 2 j ltac:(lia) ltac:(lia)). rewrite Z.pow_add_r, Z.div_mul_cancel_r, Z.mul_mod_distr_r by lia.
  assert (E1 : (2 * (m mod 2 ^ j * 2 ^ k) <? 2 ^ j * 2 ^ k) = (2 * (m mod 2 ^ j) <? 2 ^ j)) by (apply eq_true_iff_eq; rewrite !Z.ltb_lt; nia).
  assert (E2 : (2 * (m mod 2 ^ j * 2 ^ k) =? 2 ^ j * 2 ^ k) = (2 * (m mod 2 ^ j) =? 2 ^ j)) by (apply eq_true_iff_eq; rewrite !Z.eqb_eq; nia).
  cbv zeta. now rewrite E1, E2.
Qed.

(** ** The parts of the half *)

Lemma float_regular u : 0 <= u < 2 ^ 32 -> 0 < (u / 2 ^ 23) mod 256 < 255 ->
  exists p, SFabs (float_of_bits u) = S754_finite false p ((u / 2 ^ 23) mod 256 - 150) /\ Zpos p = 2 ^ 23 + u mod 2 ^ 23 /\ Zpos (digits2_pos p) = 24.
Proof.
  intros Hu He. unfold float_of_bits. change 0x7fffff with (2 ^ 23 - 1). change 0xff with (2 ^ 8 - 1). rewrite (land_low u 23), (field_low u 23 8) by lia. change (2 ^ 8) with 256.
  rewrite !(proj2 (Z.eqb_neq _ _)) by lia. pose proof (Z.mod_pos_bound u (2 ^ 23) ltac:(lia)) as Hm. change 0x800000 with (2 ^ 23).
  destruct (2 ^ 23 + u mod 2 ^ 23) as [|p|p] eqn:E; [lia | | lia]. exists p. split; [reflexivity|]. split; [reflexivity|]. apply digits_spec. rewrite <- E. change (2 ^ (24 - 1)) with (2 ^ 23). lia.
Qed.

Lemma half_parts_spec u : 0 <= u < 2 ^ 32 ->
  let E := (u / 2 ^ 23) mod 256 in
  let M := u mod 2 ^ 23 in
  half_parts u =
    if E =? 0 then (0, 0)
    else if E =? 255 then (31, if M =? 0 then 0 else 1)
    else if E <? 113 then (0, round_even (2 ^ 23 + M) (- (126 - E)))
    else if 142 <? E then (31, 0)
    else (E - 112, round_even M (- 13)).
Proof.
  intros Hu E M. pose proof (Z.mod_pos_bound (u / 2 ^ 23) 256 ltac:(lia)) as HE. pose proof (Z.mod_pos_bound u (2 ^ 23) ltac:(lia)) as HM. fold E in HE. fold M in HM.
  unfold half_parts. change 0x7fffff with (2 ^ 23 - 1). change 0xff with (2 ^ 8 - 1). rewrite (land_low _ 23), (field_low _ 23 8), signed_field by lia.
  pose proof (signed_field u 0 23 ltac:(lia) ltac:(lia) ltac:(lia)) as EM. rewrite !Z.div_1_r in EM. rewrite EM. change (2 ^ 8) with 256. fold E M. change (256 - 1) with 255.
  destruct (Z.eqb_spec E 0); cbn [andb]; [now destruct (M =? 0)|]. destruct (Z.eqb_spec E 255); cbn [andb]; [now destruct (M =? 0)|].
  rewrite Z.gtb_ltb. replace (E - 127 <? -14) with (E <? 113) by (apply eq_true_iff_eq; rewrite !Z.ltb_lt; lia). replace (15 <? E - 127) with (142 <? E) by (apply eq_true_iff_eq; rewrite !Z.ltb_lt; lia).
  destruct (Z.ltb_spec E 113).
  - destruct (float_regular u Hu ltac:(fold E; lia)) as (p & -> & Hp & Hd). fold E. change (float_of_int (Z.shiftl 1 24)) with (S754_finite false 8388608 (24 - 23)).
    rewrite (proj1 (fmul_power false false p (E - 150) 24 Hd ltac:(lia))). cbn [_mesa_lroundevenf xorb]. rewrite Hp. fold M. do 2 f_equal. lia.
  - destruct (Z.ltb_spec 142 E); [reflexivity|]. f_equal; [lia|]. destruct (Z.eq_dec M 0) as [->|HM0]; [reflexivity|].
    destruct (float_of_int_exact M ltac:(lia)) as (p & k & -> & Hd & Hp & Hk). change (float_of_int (Z.shiftl 1 13)) with (S754_finite false 8388608 (13 - 23)).
    rewrite fdiv_power by (assumption || lia). cbn [_mesa_lroundevenf].
    rewrite Hp. replace (- k - 13) with (- (13 + k)) by lia. apply round_even_scale; lia.
Qed.

(** ** Rounding to nearest *)

Lemma half_value_code e m : 0 < e -> 0 <= m <= 1024 -> half_value (e * 1024 + m) = (1024 + m) * 2 ^ (e - 1).
Proof.
  intros He Hm. unfold half_value. destruct (Z.eq_dec m 1024) as [->|].
  - replace (e * 1024 + 1024) with ((e + 1) * 1024) by lia. rewrite Z.div_mul, Z_mod_mult, (proj2 (Z.eqb_neq _ _)) by lia.
    replace (e + 1 - 1) with (Z.succ (e - 1)) by lia. rewrite Z.pow_succ_r by lia. lia.
  - replace ((e * 1024 + m) / 1024) with e by (apply (Z.div_unique _ _ _ m); lia). replace ((e * 1024 + m) mod 1024) with m by (apply (Z.mod_unique _ _ e); lia).
    rewrite (proj2 (Z.eqb_neq _ _)) by lia. reflexivity.
Qed.

Lemma half_value_low m : 0 <= m <= 1024 -> half_value m = m.
Proof.
  intros Hm. destruct (Z.eq_dec m 1024) as [->|]; [reflexivity|]. unfold half_value. rewrite Z.div_small, Z.mod_small by lia. reflexivity.
Qed.

Lemma half_value_succ h : 0 <= h -> half_value h < half_value (h + 1).
Proof.
  intros Hh. pose proof (Z.div_mod h 1024 ltac:(lia)) as E. pose proof (Z.mod_pos_bound h 1024 ltac:(lia)) as Hm. destruct (Z.eq_dec (h / 1024) 0) as [E0|E0].
  - rewrite !half_value_low by lia. lia.
  - pose proof (Z.div_pos h 1024 Hh ltac:(lia)). replace h with (h / 1024 * 1024 + h mod 1024) at 1 by lia. replace (h + 1) with (h / 1024 * 1024 + (h mod 1024 + 1)) by lia.
    rewrite !half_value_code by lia. pose proof (Z.pow_pos_nonneg 2 (h / 1024 - 1)). nia.
Qed.

Lemma half_value_mono h h' : 0 <= h <= h' -> half_value h <= half_value h'.
Proof.
  intros H. replace h' with (h + Z.of_nat (Z.to_nat (h' - h))) by lia. generalize (Z.to_nat (h' - h)). intros n.
  induction n as [|n IH]; [rewrite Z.add_0_r; lia|]. pose proof (half_value_succ (h + Z.of_nat n) ltac:(lia)). rewrite Nat2Z.inj_succ. replace (h + Z.succ (Z.of_nat n)) with (h + Z.of_nat n + 1) by lia. lia.
Qed.

Lemma half_value_inj h h' : 0 <= h -> 0 <= h' -> half_value h = half_value h' -> h = h'.
Proof.
  intros Hh Hh' E. destruct (Z.lt_trichotomy h h') as [H|[H|H]]; [|assumption|].
  - pose proof (half_value_succ h Hh). pose proof (half_value_mono (h + 1) h' ltac:(lia)). lia.
  - pose proof (half_value_succ h' Hh'). pose proof (half_value_mono (h' + 1) h ltac:(lia)). lia.
Qed.

(** The distance of a float magnitude [f] from that of the half [h]. *)
Definition distance (f h : Z) : Z := Z.abs (half_value h * 2 ^ 125 - f).

(** [h] is the nearest to [f] of the halves up to infinity, the even one of two. *)
Definition nearest (f h : Z) : Prop :=
  0 <= h <= 0x7c00 /\ forall h', 0 <= h' <= 0x7c00 -> distance f h < distance f h' \/ (distance f h = distance f h' /\ (h' = h \/ Z.even h = true)).

(** One of the two halves around [f]. *)
Lemma nearest_of_two f h up : 0 <= h < 0x7c00 -> half_value h * 2 ^ 125 <= f <= half_value (h + 1) * 2 ^ 125 ->
  (2 * f < (half_value h + half_value (h + 1)) * 2 ^ 125 -> up = false) ->
  ((half_value h + half_value (h + 1)) * 2 ^ 125 < 2 * f -> up = true) ->
  ((half_value h + half_value (h + 1)) * 2 ^ 125 = 2 * f -> up = negb (Z.even h)) ->
  nearest f (if up then h + 1 else h).
Proof.
  intros Hh Hf H1 H2 H3. pose proof (half_value_succ h ltac:(lia)) as Hs. split; [destruct up; lia|]. intros h' Hh'. unfold distance. set (U := 2 ^ 125) in *.
  assert (HU : 0 < U) by (apply Z.pow_pos_nonneg; lia). assert (Hodd : Z.even (h + 1) = negb (Z.even h)) by (rewrite Z.even_add; now destruct (Z.even h)).
  assert (Hside : h' = h \/ h' = h + 1 \/ half_value h' < half_value h \/ half_value (h + 1) < half_value h').
  { destruct (Z.lt_trichotomy h' h) as [H|[H|H]]; [| auto |].
    - right. right. left. pose proof (half_value_succ h' ltac:(lia)). pose proof (half_value_mono (h' + 1) h ltac:(lia)). lia.
    - destruct (Z.eq_dec h' (h + 1)); [auto|]. right. right. right. pose proof (half_value_succ (h + 1) ltac:(lia)). pose proof (half_value_mono (h + 1 + 1) h' ltac:(lia)). lia. }
  set (a := half_value h) in *. set (b := half_value (h + 1)) in *. set (c := half_value h') in *.
  destruct (Z.lt_trichotomy (2 * f) ((a + b) * U)) as [Hc|[Hc|Hc]].
  - rewrite (H1 Hc). fold a. destruct Hside as [->|[->|[Hlt|Hlt]]]; [right; auto | left; fold b in c; unfold c; lia | left; nia | left; nia].
  - rewrite (H3 (eq_sym Hc)). destruct (Z.even h) eqn:He; cbn [negb]; fold a b; rewrite ?Hodd, ?He; cbn [negb];
      (destruct Hside as [->|[->|[Hlt|Hlt]]]; [try (right; split; [unfold c; fold a b; lia | auto]).. | left; nia | left; nia]).
  - rewrite (H2 Hc). fold b. destruct Hside as [->|[->|[Hlt|Hlt]]]; [left; fold a in c; unfold c; lia | right; auto | left; nia | left; nia].
Qed.

(** Rounding a mantissa [X] rounds the number to nearest, when the halves are
    [2^k] steps of size [w] apart. *)
Lemma nearest_round f C X k w base : 0 < k -> 0 < w -> Z.even base = true -> 0 <= base + X / 2 ^ k < 0x7c00 ->
  f = C + X * w -> half_value (base + X / 2 ^ k) * 2 ^ 125 = C + X / 2 ^ k * (2 ^ k * w) ->
  half_value (base + X / 2 ^ k + 1) * 2 ^ 125 = C + (X / 2 ^ k + 1) * (2 ^ k * w) ->
  nearest f (base + round_even X (- k)).
Proof.
  intros Hk Hw Hb Hh Hf HA HB. set (q := X / 2 ^ k) in *. pose proof (Z.pow_pos_nonneg 2 k ltac:(lia) ltac:(lia)) as HK. pose proof (Z.div_mod X (2 ^ k) ltac:(lia)) as HX. fold q in HX.
  pose proof (Z.mod_pos_bound X (2 ^ k) HK) as Hr. set (r := X mod 2 ^ k) in *.
  set (up := negb ((2 * r <? 2 ^ k) || (2 * r =? 2 ^ k) && Z.even q)).
  assert (E : base + round_even X (- k) = if up then base + q + 1 else base + q).
  { unfold round_even. rewrite (proj2 (Z.leb_gt _ _)), Z.opp_involutive by lia. fold q r. unfold up. cbv zeta. destruct (_ || _); cbn [negb]; lia. }
  assert (Heven : Z.even (base + q) = Z.even q) by (rewrite Z.even_add, Hb; now destruct (Z.even q)).
  rewrite E. set (K := 2 ^ k) in *. set (U := 2 ^ 125) in *. set (a := half_value (base + q)) in *. set (b := half_value (base + q + 1)) in *.
  assert (Ef : 2 * f = 2 * C + 2 * q * (K * w) + 2 * r * w) by (rewrite Hf, HX; ring).
  assert (Es : (a + b) * U = 2 * C + 2 * q * (K * w) + K * w) by (rewrite Z.mul_add_distr_r, HA, HB; ring).
  apply nearest_of_two; [lia | fold a b U; nia | | |]; fold a b U; intros H; unfold up.
  - rewrite (proj2 (Z.ltb_lt _ _)) by nia. reflexivity.
  - rewrite (proj2 (Z.ltb_ge _ _)), (proj2 (Z.eqb_neq _ _)) by nia. reflexivity.
  - rewrite (proj2 (Z.ltb_ge _ _)), (proj2 (Z.eqb_eq _ _)), Heven by nia. reflexivity.
Qed.

(** The code [1024 * e + m] of the parts of a finite float. *)
Lemma half_parts_nearest u : 0 <= u < 2 ^ 32 -> (u / 2 ^ 23) mod 256 <> 255 ->
  let (e, m) := half_parts u in 0 <= m <= 1024 /\ 0 <= e /\ nearest (float_value u) (e * 1024 + m).
Proof.
  intros Hu Hfin. rewrite half_parts_spec by assumption. unfold float_value. cbv zeta. set (E := (u / 2 ^ 23) mod 256) in *. set (M := u mod 2 ^ 23).
  pose proof (Z.mod_pos_bound (u / 2 ^ 23) 256 ltac:(lia)) as HE. pose proof (Z.mod_pos_bound u (2 ^ 23) ltac:(lia)) as HM. fold E in HE. fold M in HM.
  destruct (Z.eqb_spec E 0) as [E0|E0].
  { split; [lia|]. split; [lia|]. change (0 * 1024 + 0) with 0. apply (nearest_of_two M 0 false); change (half_value 0) with 0; change (half_value (0 + 1)) with 1; lia. }
  rewrite (proj2 (Z.eqb_neq _ _) Hfin). destruct (Z.ltb_spec E 113) as [Hs|Hs].
  { assert (Hround : forall X k, 0 < k -> 0 <= X -> X / 2 ^ k <= round_even X (- k) <= X / 2 ^ k + 1).
    { intros X k Hk HX. unfold round_even. rewrite (proj2 (Z.leb_gt _ _)), Z.opp_involutive by lia. cbv zeta. destruct (_ || _); lia. }
    assert (Hq : 0 <= (2 ^ 23 + M) / 2 ^ (126 - E) < 1024).
    { split; [apply Z.div_pos; [lia | apply Z.pow_pos_nonneg; lia]|]. apply Z.div_lt_upper_bound; [apply Z.pow_pos_nonneg; lia|].
      assert (2 ^ 14 <= 2 ^ (126 - E)) by (apply Z.pow_le_mono_r; lia). lia. }
    specialize (Hround (2 ^ 23 + M) (126 - E) ltac:(lia) ltac:(lia)). split; [lia|]. split; [lia|].
    apply (nearest_round _ 0 (2 ^ 23 + M) (126 - E) (2 ^ (E - 1)) (0 * 1024)); try lia; try (apply Z.pow_pos_nonneg; lia); [reflexivity|..];
      rewrite ?Z.mul_0_l, !Z.add_0_l, half_value_low by lia; rewrite <- Z.pow_add_r by lia; do 2 f_equal; lia. }
  destruct (Z.ltb_spec 142 E) as [Hl|Hl].
  { split; [lia|]. split; [lia|]. change (31 * 1024 + 0) with 0x7c00. split; [lia|]. intros h' Hh'. unfold distance. change (half_value 0x7c00) with (2 ^ 40).
    assert (Hbig : 2 ^ 40 * 2 ^ 125 <= (2 ^ 23 + M) * 2 ^ (E - 1)).
    { rewrite <- Z.pow_add_r by lia. replace (40 + 125) with (23 + 142) by lia. rewrite Z.pow_add_r by lia. assert (2 ^ 142 <= 2 ^ (E - 1)) by (apply Z.pow_le_mono_r; lia). nia. }
    destruct (Z.eq_dec h' 0x7c00) as [->|Hne]; [right; auto | left]. pose proof (half_value_succ h' ltac:(lia)). pose proof (half_value_mono (h' + 1) 0x7c00 ltac:(lia)) as Hm. change (half_value 0x7c00) with (2 ^ 40) in Hm. lia. }
  assert (Hq : 0 <= M / 2 ^ 13 < 1024) by (split; [apply Z.div_pos; lia | apply Z.div_lt_upper_bound; lia]).
  assert (Hr : M / 2 ^ 13 <= round_even M (-13) <= M / 2 ^ 13 + 1) by (unfold round_even; cbv zeta; change (- -13) with 13; change (0 <=? -13) with false; cbv iota; destruct (_ || _); lia).
  assert (Ew : 2 ^ (E - 1) = 2 ^ (E - 112 - 1) * 2 ^ 112) by (rewrite <- Z.pow_add_r by lia; f_equal; lia).
  split; [lia|]. split; [lia|].
  apply (nearest_round _ (2 ^ 23 * 2 ^ (E - 1)) M 13 (2 ^ (E - 1)) ((E - 112) * 1024)); try lia.
  - rewrite Z.even_mul. apply orb_true_r.
  - rewrite half_value_code by lia. rewrite Ew. ring.
  - rewrite <- Z.add_assoc, half_value_code by lia. rewrite Ew. ring.
Qed.

(** ** Results *)

Lemma float_to_half_code u e m : 0 <= u < 2 ^ 32 -> half_parts u = (e, m) -> 0 <= m <= 1024 -> 0 <= e -> e * 1024 + m < 2 ^ 15 ->
  _mesa_float_to_half u = Ret (u / 2 ^ 31 * 2 ^ 15 + (e * 1024 + m)).
Proof.
  intros Hu Hp Hm He Hc. unfold _mesa_float_to_half. change 0x1 with (2 ^ 1 - 1). rewrite (field_low _ 31 1), signed_field by lia.
  assert (Hs : 0 <= u / 2 ^ 31 < 2) by (split; [apply Z.div_pos; lia | apply Z.div_lt_upper_bound; lia]). rewrite (Z.mod_small (u / 2 ^ 31)) by exact Hs. set (s := u / 2 ^ 31) in *.
  rewrite Hp, !(proj2 (Z.leb_le _ _)) by lia. cbn [andb c_assert].
  assert (Hcode : forall e m, 0 <= m < 1024 -> 0 <= e -> e * 1024 + m < 2 ^ 15 -> wrap 16 (Z.lor (Z.lor (Z.shiftl s 15) (Z.shiftl e 10)) m) = s * 2 ^ 15 + (e * 1024 + m)).
  { intros e' m' Hm' He' Hc'. rewrite pack_fields, wrap_small by lia. lia. }
  destruct (Z.eqb_spec m 1024) as [->|]; cbv beta iota; f_equal; rewrite Hcode by lia; lia.
Qed.

Lemma float_to_half_spec u : 0 <= u < 2 ^ 32 ->
  exists h, _mesa_float_to_half u = Ret (u / 2 ^ 31 * 2 ^ 15 + h) /\ 0 <= h < 2 ^ 15 /\
  if (u / 2 ^ 23) mod 256 =? 255 then (if u mod 2 ^ 23 =? 0 then h = 0x7c00 else 0x7c00 < h) else nearest (float_value u) h.
Proof.
  intros Hu. destruct (half_parts u) as [e m] eqn:Hp. destruct (Z.eqb_spec ((u / 2 ^ 23) mod 256) 255) as [E|E].
  - pose proof (half_parts_spec u Hu) as Hs. cbv zeta in Hs. rewrite E in Hs. cbn [Z.eqb Pos.eqb] in Hs. rewrite Hp in Hs.
    destruct (Z.eqb_spec (u mod 2 ^ 23) 0) as [E0|E0]; injection Hs as -> ->; eexists; (split; [apply (float_to_half_code u _ _ Hu Hp); lia | lia]).
  - pose proof (half_parts_nearest u Hu E) as Hn. rewrite Hp in Hn. destruct Hn as (Hm & He & Hn). pose proof (proj1 Hn). exists (e * 1024 + m).
    split; [apply (float_to_half_code u e m Hu Hp); lia|]. split; [lia | exact Hn].
Qed.

(** ** From half to float *)

Lemma float_fields s e m : 0 <= s < 2 -> 0 <= e < 256 -> 0 <= m < 2 ^ 23 ->
  let x := s * 2 ^ 31 + (e * 2 ^ 23 + m) in 0 <= x < 2 ^ 32 /\ x / 2 ^ 31 = s /\ (x / 2 ^ 23) mod 256 = e /\ x mod 2 ^ 23 = m.
Proof.
  intros Hs He Hm x. assert (Hx : x = (s * 256 + e) * 2 ^ 23 + m) by (unfold x; lia). split; [lia|]. split; [symmetry; apply (Z.div_unique _ _ _ (e * 2 ^ 23 + m)); lia|].
  assert (E : x / 2 ^ 23 = s * 256 + e) by (symmetry; apply (Z.div_unique _ _ _ m); lia). rewrite E. split; [symmetry; apply (Z.mod_unique _ _ s); lia|].
  symmetry. apply (Z.mod_unique _ _ (s * 256 + e)); lia.
Qed.

(** The subnormal numbers go through float arithmetic, which is exact here. *)
Lemma subnormal_exact (s : bool) m : 0 < m < 1024 ->
  exists E M, bits_of_float (fmul (fmul (if s then float_of_int (-1) else float_of_int 1) (fdiv (float_of_int m) (float_of_int 1024))) (fdiv (float_of_int 1) (float_of_int 16384))) =
    (if s then 1 else 0) * 2 ^ 31 + (E * 2 ^ 23 + M) /\ 0 < E < 255 /\ 0 <= M < 2 ^ 23 /\ (2 ^ 23 + M) * 2 ^ (E - 1) = m * 2 ^ 125.
Proof.
  intros Hm. destruct (float_of_int_exact m ltac:(lia)) as (p & k & -> & Hd & Hp & Hk).
  change (float_of_int 1024) with (S754_finite false 8388608 (10 - 23)). change (fdiv (float_of_int 1) (float_of_int 16384)) with (S754_finite false 8388608 (-14 - 23)).
  replace (if s then float_of_int (-1) else float_of_int 1) with (S754_finite s 8388608 (0 - 23)) by now destruct s.
  rewrite fdiv_power, (proj1 (fmul_power false s p (- k - 10) 0 Hd ltac:(lia))), (proj2 (fmul_power _ false p (- k - 10 + 0) (-14) Hd ltac:(lia))) by (assumption || lia).
  assert (Hlow : 2 ^ 23 <= Zpos p < 2 ^ 24).
  { pose proof (Z.log2_spec (Zpos p) ltac:(lia)) as Hl. pose proof (Z.log2_nonneg (Zpos p)). rewrite (digits_spec p (Z.log2 (Zpos p) + 1)) in Hd by (rewrite Z.add_simpl_r; exact Hl).
    replace (Z.log2 (Zpos p)) with 23 in Hl by lia. exact Hl. }
  exists (126 - k), (Zpos p - 2 ^ 23). split.
  - unfold bits_of_float. change 0x800000 with (2 ^ 23). rewrite (proj2 (Z.ltb_ge _ _)) by lia. destruct s; cbn [xorb]; lia.
  - split; [lia|]. split; [lia|]. replace (2 ^ 23 + (Z.pos p - 2 ^ 23)) with (Zpos p) by lia. rewrite Hp, <- Z.mul_assoc, <- Z.pow_add_r by lia. do 2 f_equal. lia.
Qed.

(** The value of every half as a float. *)
Lemma half_to_float_spec v : 0 <= v < 2 ^ 16 ->
  let x := _mesa_half_to_float v in let h := v mod 2 ^ 15 in
  0 <= x < 2 ^ 32 /\ x / 2 ^ 31 = v / 2 ^ 15 /\
  if 0x7c00 <? h then (x / 2 ^ 23) mod 256 = 255 /\ x mod 2 ^ 23 <> 0
  else if h =? 0x7c00 then (x / 2 ^ 23) mod 256 = 255 /\ x mod 2 ^ 23 = 0
  else (x / 2 ^ 23) mod 256 <> 255 /\ float_value x = half_value h * 2 ^ 125.
Proof.
  intros Hv x h. set (s := v / 2 ^ 15). set (e := h / 1024). set (m := h mod 1024).
  assert (Hs : 0 <= s < 2) by (split; [apply Z.div_pos; lia | apply Z.div_lt_upper_bound; lia]). assert (Hh : 0 <= h < 2 ^ 15) by (apply Z.mod_pos_bound; lia).
  assert (Hm : 0 <= m < 1024) by (apply Z.mod_pos_bound; lia). assert (He : 0 <= e < 32) by (split; [apply Z.div_pos; lia | apply Z.div_lt_upper_bound; lia]).
  assert (Eh : h = e * 1024 + m) by (unfold e, m; pose proof (Z.div_mod h 1024 ltac:(lia)); lia).
  assert (Ev : v = s * 2 ^ 15 + h) by (unfold s, h; pose proof (Z.div_mod v (2 ^ 15) ltac:(lia)); lia).
  assert (Em : Z.land v 0x3ff = m) by (change 0x3ff with (2 ^ 10 - 1); rewrite land_low by lia; symmetry; apply (Z.mod_unique _ _ (s * 32 + e)); lia).
  assert (Ee : Z.land (Z.shiftr v 10) 0x1f = e).
  { change 0x1f with (2 ^ 5 - 1). rewrite (field_low v 10 5) by lia. replace (v / 2 ^ 10) with (s * 32 + e) by (apply (Z.div_unique _ _ _ m); lia). symmetry. apply (Z.mod_unique _ _ s); lia. }
  assert (Es : Z.land (Z.shiftr v 15) 0x1 = s) by (change 0x1 with (2 ^ 1 - 1); rewrite (field_low v 15 1) by lia; apply Z.mod_small; lia).
  assert (Hbits : forall fe fm, 0 <= fe < 256 -> 0 <= fm < 2 ^ 23 -> u32 (Z.lor (Z.lor (Z.shiftl s 31) (Z.shiftl fe 23)) fm) = s * 2 ^ 31 + (fe * 2 ^ 23 + fm)).
  { intros fe fm Hfe Hfm. rewrite pack_fields, wrap_small by lia. reflexivity. }
  assert (Hfields : forall fe fm, x = s * 2 ^ 31 + (fe * 2 ^ 23 + fm) -> 0 <= fe < 256 -> 0 <= fm < 2 ^ 23 ->
    0 <= x < 2 ^ 32 /\ x / 2 ^ 31 = s /\ (x / 2 ^ 23) mod 256 = fe /\ x mod 2 ^ 23 = fm) by (intros fe fm -> Hfe Hfm; now apply float_fields).
  assert (Hx : x = _mesa_half_to_float v) by reflexivity. unfold _mesa_half_to_float in Hx. rewrite Em, Ee, Es in Hx. cbv zeta in Hx.
  assert (Hfv : forall fe fm, (x / 2 ^ 23) mod 256 = fe -> x mod 2 ^ 23 = fm -> float_value x = if fe =? 0 then fm else (2 ^ 23 + fm) * 2 ^ (fe - 1)).
  { intros fe fm <- <-. reflexivity. }
  destruct (Z.eqb_spec e 0) as [E0|E0], (Z.eqb_spec m 0) as [M0|M0], (Z.eqb_spec e 31) as [E31|E31]; cbn [andb negb] in Hx; try lia; rewrite ?Hbits in Hx by lia.
  - destruct (Hfields _ _ Hx ltac:(lia) ltac:(lia)) as (H1 & H2 & H3 & H4). rewrite (Hfv _ _ H3 H4), (proj2 (Z.ltb_ge _ _)), (proj2 (Z.eqb_neq _ _)) by lia.
    replace h with 0 by lia. split; [assumption|]. split; [assumption|]. split; [lia | reflexivity].
  - destruct (subnormal_exact (negb (s =? 0)) m ltac:(lia)) as (E & M & EM & HE & HM & Hval). rewrite EM in Hx.
    replace (if negb (s =? 0) then 1 else 0) with s in Hx by (destruct (Z.eqb_spec s 0); cbn; lia). destruct (Hfields _ _ Hx ltac:(lia) HM) as (H1 & H2 & H3 & H4).
    rewrite (Hfv _ _ H3 H4), (proj2 (Z.ltb_ge _ _)), !(proj2 (Z.eqb_neq _ _)) by lia. split; [assumption|]. split; [assumption|]. split; [lia|].
    rewrite Hval. replace h with m by lia. now rewrite half_value_low by lia.
  - destruct (Hfields _ _ Hx ltac:(lia) ltac:(lia)) as (H1 & H2 & H3 & H4). rewrite (proj2 (Z.ltb_ge _ _)), (proj2 (Z.eqb_eq _ _)) by lia. auto.
  - rewrite (Z.shiftl_mul_pow2 m 13), Hbits in Hx by lia. destruct (Hfields _ _ Hx ltac:(lia) ltac:(lia)) as (H1 & H2 & H3 & H4).
    rewrite (Hfv _ _ H3 H4), (proj2 (Z.ltb_ge _ _)), !(proj2 (Z.eqb_neq _ _)) by lia. split; [assumption|]. split; [assumption|]. split; [lia|]. rewrite Eh, half_value_code by lia.
    replace (2 ^ (e + 112 - 1)) with (2 ^ (e - 1) * 2 ^ 112) by (rewrite <- Z.pow_add_r by lia; f_equal; lia). ring.
  - destruct (Hfields _ _ Hx ltac:(lia) ltac:(lia)) as (H1 & H2 & H3 & H4). rewrite (proj2 (Z.ltb_lt _ _)) by lia. split; [assumption|]. split; [assumption|]. split; [assumption | lia].
  - rewrite (Z.shiftl_mul_pow2 m 13), Hbits in Hx by lia. destruct (Hfields _ _ Hx ltac:(lia) ltac:(lia)) as (H1 & H2 & H3 & H4).
    rewrite (Hfv _ _ H3 H4), (proj2 (Z.ltb_ge _ _)), !(proj2 (Z.eqb_neq _ _)) by lia. split; [assumption|]. split; [assumption|]. split; [lia|]. rewrite Eh, half_value_code by lia.
    replace (2 ^ (e + 112 - 1)) with (2 ^ (e - 1) * 2 ^ 112) by (rewrite <- Z.pow_add_r by lia; f_equal; lia). ring.
Qed.

(** ** To and from fixed point *)

(** The result of a positive half up to one. *)
Lemma half_to_unorm8_spec v : 0 <= v <= 0x3c00 ->
  exists r, _mesa_half_to_unorm8 v = Ret r /\ 0 <= r <= 255 /\ - 2 ^ 23 <= r * 2 ^ 24 - half_value v * 255 <= 2 ^ 23.
Proof.
  intros Hv. unfold _mesa_half_to_unorm8, FP16_ONE. change (Z.land _ 0x3ff) with (Z.land v (2 ^ 10 - 1)).
  change (Z.land _ 0x1f) with (Z.land (Z.shiftr v 10) (2 ^ 5 - 1)). change (Z.land _ 0x1) with (Z.land (Z.shiftr v 15) (2 ^ 1 - 1)).
  rewrite (land_low v 10), (field_low v 10 5), (field_low v 15 1) by lia. rewrite (Z.div_small v (2 ^ 15)), (Z.mod_small 0) by lia.
  rewrite (proj2 (Z.leb_le _ _)) by lia. cbn [Z.eqb andb c_assert]. pose proof (Z.mod_pos_bound v (2 ^ 10) ltac:(lia)) as Hm. pose proof (Z.div_mod v (2 ^ 10) ltac:(lia)) as Ev.
  assert (He : 0 <= v / 2 ^ 10 < 16) by (split; [apply Z.div_pos; lia | apply Z.div_lt_upper_bound; lia]). rewrite (Z.mod_small (v / 2 ^ 10)) by lia.
  set (m := v mod 2 ^ 10) in *. set (e := v / 2 ^ 10) in *. rewrite lor_field by lia. change (1 * 2 ^ 10) with 1024. set (X := (1024 + m) * 255).
  rewrite (wrap_small 32 X) by lia. rewrite (Z.shiftr_div_pow2 X) by lia. pose proof (Z.pow_pos_nonneg 2 (24 - e) ltac:(lia) ltac:(lia)) as HP. set (P := 2 ^ (24 - e)) in *.
  assert (Hq : 0 <= X / P <= X) by (split; [apply Z.div_pos; lia | apply Z.div_le_upper_bound; nia]). rewrite (wrap_small 32) by lia. rewrite Z.shiftr_div_pow2 by lia. change (2 ^ 1) with 2.
  assert (Er : (X / P + 1) / 2 = (X + P) / (P * 2)) by (rewrite <- Z.div_div, <- Z.div_add by lia; do 2 f_equal; lia). rewrite Er. set (r := (X + P) / (P * 2)).
  assert (Hr : r * (P * 2) <= X + P < (r + 1) * (P * 2)) by (pose proof (Z.div_mod (X + P) (P * 2) ltac:(lia)); pose proof (Z.mod_pos_bound (X + P) (P * 2) ltac:(lia)); unfold r; lia).
  assert (Hr0 : 0 <= r) by (apply Z.div_pos; lia).
  assert (Herr : - 2 ^ 23 <= r * 2 ^ 24 - half_value v * 255 <= 2 ^ 23).
  { destruct (Z.eq_dec e 0) as [E0|E0].
    - unfold P in Hr. rewrite E0 in Hr. change (2 ^ (24 - 0)) with (2 ^ 24) in Hr. rewrite half_value_low by lia. lia.
    - replace v with (e * 1024 + m) by lia. rewrite half_value_code by lia. set (Q := 2 ^ (e - 1)).
      assert (EQ : P * Q = 2 ^ 23) by (unfold P, Q; rewrite <- Z.pow_add_r by lia; f_equal; lia). assert (0 < Q) by (apply Z.pow_pos_nonneg; lia).
      replace ((1024 + m) * Q * 255) with (X * Q) by (unfold X; ring). replace (2 ^ 24) with (2 * (P * Q)) by lia. rewrite <- EQ. nia. }
  pose proof (half_value_mono v 0x3c00 ltac:(lia)) as Hone. change (half_value 0x3c00) with (2 ^ 24) in Hone. assert (Hr255 : r <= 255) by lia.
  exists r. rewrite wrap_small by lia. auto.
Qed.

Lemma leading_zeros_spec v i : 0 < v -> Z.log2 v < Z.of_nat i -> leading_zeros i v = 15 - Z.log2 v.
Proof.
  intros Hv. induction i as [|i IH]; intros H; [pose proof (Z.log2_nonneg v); lia|]. cbn [leading_zeros]. rewrite land_bit by lia. rewrite negb_involutive.
  destruct (Z.eq_dec (Z.log2 v) (Z.of_nat i)) as [E|E]; [rewrite <- E, Z.bit_log2 by assumption; reflexivity|]. rewrite Z.bits_above_log2 by lia. apply IH. lia.
Qed.

(** The quotient rounded towards zero. *)
Lemma div_64k_spec v : 0 <= v < 2 ^ 16 ->
  exists h, _mesa_uint16_div_64k_to_half v = Ret h /\ 0 <= h < FP16_ONE /\ half_value h <= v * 2 ^ 8 < half_value (h + 1).
Proof.
  intros Hv. unfold _mesa_uint16_div_64k_to_half. destruct (Z.ltb_spec v 4) as [H4|H4].
  - exists (v * 2 ^ 8). rewrite Z.shiftl_mul_pow2, wrap_small by lia. split; [reflexivity|]. unfold FP16_ONE. rewrite !half_value_low by lia. lia.
  - pose proof (Z.log2_spec v ltac:(lia)) as Hl. set (l := Z.log2 v) in *. assert (Hl2 : 2 <= l) by (unfold l; apply (Z.log2_le_mono 4 v); lia).
    assert (Hl16 : l < 16) by (unfold l; apply Z.log2_lt_pow2; lia). rewrite leading_zeros_spec by (fold l; lia). fold l.
    replace (15 - l + 1) with (16 - l) by lia. replace (14 - (15 - l)) with (l - 1) by lia. set (K := 2 ^ (16 - l)). assert (HK : 0 < K) by (apply Z.pow_pos_nonneg; lia).
    assert (EK : 2 ^ l * K = 2 ^ 16) by (unfold K; rewrite <- Z.pow_add_r by lia; f_equal; lia). rewrite Z.pow_succ_r in Hl by lia.
    assert (HvK : 2 ^ 16 <= v * K < 2 * 2 ^ 16) by nia. rewrite Z.shiftl_mul_pow2 by lia. fold K. rewrite (wrap_small 32 (v * K)) by lia.
    change 0xffff with (2 ^ 16 - 1). rewrite land_low, Z.shiftr_div_pow2 by lia. replace ((v * K) mod 2 ^ 16) with (v * K - 2 ^ 16) by (apply (Z.mod_unique _ _ 1); lia).
    set (m := (v * K - 2 ^ 16) / 2 ^ 6). assert (Hm : m * 2 ^ 6 <= v * K - 2 ^ 16 < (m + 1) * 2 ^ 6).
    { pose proof (Z.div_mod (v * K - 2 ^ 16) (2 ^ 6) ltac:(lia)). pose proof (Z.mod_pos_bound (v * K - 2 ^ 16) (2 ^ 6) ltac:(lia)). unfold m. lia. }
    rewrite !Z.geb_leb, !(proj2 (Z.leb_le _ _)), (proj2 (Z.ltb_lt _ _)) by lia. cbn [andb c_assert]. rewrite lor_field, wrap_small by lia. change (2 ^ 10) with 1024. eexists. split; [reflexivity|].
    split; [unfold FP16_ONE; lia|]. rewrite <- Z.add_assoc, !half_value_code by lia. replace (l - 1 - 1) with (l - 2) by lia. set (Q := 2 ^ (l - 2)). assert (HQ : 0 < Q) by (apply Z.pow_pos_nonneg; lia).
    assert (EQ : Q * K = 2 ^ 14) by (unfold Q, K; rewrite <- Z.pow_add_r by lia; f_equal; lia).
    split; [apply (Z.mul_le_mono_pos_r _ _ K HK) | apply (Z.mul_lt_mono_pos_r K _ _ HK)]; rewrite <- !Z.mul_assoc, ?EQ; rewrite (Z.mul_comm (2 ^ 8) K), ?Z.mul_assoc; lia.
Qed.

(** ** Properties *)

(** C28: [_mesa_float_to_half] rounds every float to the nearest half, ties to
    the even one, where magnitudes that would round to [2^16] become infinite;
    it keeps the sign, maps infinities to infinities and NaNs to NaNs, and its
    assertion never fails. *)
Theorem float_to_half_nearest u : 0 <= u < 2 ^ 32 ->
  exists h, _mesa_float_to_half u = Ret (u / 2 ^ 31 * 2 ^ 15 + h) /\ 0 <= h < 2 ^ 15 /\
  if (u / 2 ^ 23) mod 256 =? 255 then (if u mod 2 ^ 23 =? 0 then h = 0x7c00 else 0x7c00 < h) else nearest (float_value u) h.
Proof. apply float_to_half_spec. Qed.


(** 65520 lies between the largest half and [2^16] and becomes infinite. *)
Lemma float_to_half_nearest_witness : _mesa_float_to_half 0x477ff000 = Ret 0x7c00 /\ nearest (float_value 0x477ff000) 0x7c00.
Proof.
  assert (E : _mesa_float_to_half 0x477ff000 = Ret 0x7c00) by (vm_compute; reflexivity). split; [exact E|].
  destruct (float_to_half_nearest 0x477ff000 ltac:(lia)) as (h & Eh & _ & H). rewrite E in Eh. change (0x477ff000 / 2 ^ 31 * 2 ^ 15) with 0 in Eh. injection Eh as ->.
  change (((0x477ff000 / 2 ^ 23) mod 256) =? 255) with false in H. exact H.
Defined.

(** C39: converting a half to float and back is the identity on every half that
    is not a NaN, infinities, zeros and subnormals of both signs included, and
    a NaN stays a NaN of the same sign. *)
Theorem half_float_roundtrip v : 0 <= v < 2 ^ 16 ->
  if 0x7c00 <? v mod 2 ^ 15 then exists r, _mesa_float_to_half (_mesa_half_to_float v) = Ret r /\ r / 2 ^ 15 = v / 2 ^ 15 /\ 0x7c00 < r mod 2 ^ 15
  else _mesa_float_to_half (_mesa_half_to_float v) = Ret v.
Proof.
  intros Hv. destruct (half_to_float_spec v Hv) as (Hx & Hsign & Hcase). destruct (float_to_half_spec _ Hx) as (h & -> & Hh & Hval). rewrite Hsign.
  pose proof (Z.div_mod v (2 ^ 15) ltac:(lia)) as Ev. pose proof (Z.mod_pos_bound v (2 ^ 15) ltac:(lia)) as Hm. set (s := v / 2 ^ 15) in *. set (h0 := v mod 2 ^ 15) in *.
  destruct (Z.ltb_spec 0x7c00 h0) as [Hn|Hn]; [|f_equal; enough (h = h0) by lia; destruct (Z.eqb_spec h0 0x7c00) as [E|E]].
  - destruct Hcase as [H1 H2]. rewrite H1, (proj2 (Z.eqb_neq _ _) H2) in Hval. exists (s * 2 ^ 15 + h). split; [reflexivity|].
    split; [symmetry; apply (Z.div_unique _ _ _ h); lia|]. replace ((s * 2 ^ 15 + h) mod 2 ^ 15) with h by (apply (Z.mod_unique _ _ s); lia). exact Hval.
  - destruct Hcase as [H1 H2]. rewrite H1, H2 in Hval. cbn in Hval. lia.
  - destruct Hcase as [H1 H2]. rewrite (proj2 (Z.eqb_neq _ _) H1) in Hval. destruct Hval as [Hr Hnear]. specialize (Hnear h0 ltac:(lia)). unfold distance in Hnear. rewrite H2 in Hnear.
    rewrite Z.sub_diag in Hnear. apply half_value_inj; [lia..|]. assert (H0 : half_value h * 2 ^ 125 - half_value h0 * 2 ^ 125 = 0) by (change (Z.abs 0) with 0 in Hnear; lia). lia.
Qed.

Lemma half_float_roundtrip_witness : _mesa_float_to_half (_mesa_half_to_float 0x83ff) = Ret 0x83ff.
Proof. exact (half_float_roundtrip 0x83ff ltac:(lia)). Defined.

(** C40: [_mesa_half_to_unorm8] maps every half in [0, 1] to the nearest of the
    256 fixed-point numbers, its error at most half a step, and rejects every
    other half; [_mesa_uint16_div_64k_to_half] gives the largest half that is at
    most [v / 65536].  No assertion fails and nothing overflows. *)
Theorem half_fixed_point_bounds v : 0 <= v < 2 ^ 16 ->
  (if v <=? FP16_ONE then exists r, _mesa_half_to_unorm8 v = Ret r /\ 0 <= r <= 255 /\ 2 * Z.abs (r * 2 ^ 24 - half_value v * 255) <= 2 ^ 24
   else _mesa_half_to_unorm8 v = Assert_failed) /\
  exists h, _mesa_uint16_div_64k_to_half v = Ret h /\ 0 <= h < FP16_ONE /\ half_value h <= v * 2 ^ 8 < half_value (h + 1).
Proof.
  intros Hv. split; [|now apply div_64k_spec]. destruct (Z.leb_spec v FP16_ONE) as [H|H].
  - destruct (half_to_unorm8_spec v) as (r & E & Hr & Herr); [unfold FP16_ONE in H; lia|]. exists r. split; [assumption|]. split; [assumption | lia].
  - unfold _mesa_half_to_unorm8. rewrite (proj2 (Z.leb_gt _ _) H), andb_false_r. reflexivity.
Qed.

Lemma half_fixed_point_bounds_witness : _mesa_half_to_unorm8 0x3800 = Ret 128 /\ exists h, _mesa_uint16_div_64k_to_half 65535 = Ret h /\ h < FP16_ONE.
Proof.
  split; [vm_compute; reflexivity|]. destruct (half_fixed_point_bounds 65535 ltac:(lia)) as [_ (h & E & Hh & _)]. exists h. split; [exact E | apply Hh].
Defined.
