(* ===== verification/NirCfg.v ===== *)
(** * Structured control flow of NIR: nir.h, nir.c, nir_validate.c

    A function body is a tree of blocks, ifs and loops.  A block pointer is the
    position of the block in the order of [nir_foreach_block], which is the
    index that [nir_index_blocks] gives it; [nir_end_block] comes after all of
    them.  [nir_successors] are the successors that [validate_block] requires
    of each block, and the main lemma says that the order is one that analyses
    can rely on: a reachable block other than the first has a reachable
    predecessor before it. *)

From stdpp Require Import base list numbers.
From Stdlib Require Import Lia.
From S2P Require Import Prelude.

(** Case analysis on the decision of an equation in the goal. *)
Ltac case_decide_eq := match goal with |- context [decide (?x = ?y)] => destruct (decide (x = y)) end.

(** ** Control flow trees *)

Inductive nir_jump_type := nir_jump_return | nir_jump_break | nir_jump_continue.

(** A non-empty list of nodes in which blocks and other nodes alternate and
    that starts and ends with a block.  Of a block only the jump instruction at
    its end matters here.  [fake] is set on a loop whose last block also has
    the block after the loop as a successor. *)
Inductive cf_list : Set :=
| cf_last (jump : option nir_jump_type)
| cf_cons (jump : option nir_jump_type) (node : cf_node) (rest : cf_list)
with cf_node : Set :=
| nir_if (then_list else_list : cf_list)
| nir_loop (body : cf_list) (fake : bool).

Scheme cf_list_mut := Induction for cf_list Sort Prop
with cf_node_mut := Induction for cf_node Sort Prop.
Combined Scheme cf_ind from cf_list_mut, cf_node_mut.

(** The number of blocks. *)
Fixpoint list_blocks (l : cf_list) : nat :=
  match l with
  | cf_last _ => 1
  | cf_cons _ n rest => S (node_blocks n + list_blocks rest)
  end
with node_blocks (n : cf_node) : nat :=
  match n with
  | nir_if t e => list_blocks t + list_blocks e
  | nir_loop body _ => list_blocks body
  end.

(** What a block's successors depend on: where control goes at the end of the
    list the block is in, the innermost loop (its first block and the block
    after it), and the end block. *)
Record scope := Scope { fall : list nat; loop : option (nat * nat); end_block : nat }.

(** A block that ends in a jump, or falls through to [normal]. *)
Definition block_successors (sc : scope) (jump : option nir_jump_type) (normal : list nat) : list nat :=
  match jump with
  | None => normal
  | Some nir_jump_break => match loop sc with Some (_, after) => [after] | None => [] end
  | Some nir_jump_continue => match loop sc with Some (first, _) => [first] | None => [] end
  | Some nir_jump_return => [end_block sc]
  end.

(** The first blocks of the node at position [pos]. *)
Definition first_blocks (n : cf_node) (pos : nat) : list nat :=
  match n with
  | nir_if t _ => [pos; pos + list_blocks t]
  | nir_loop _ _ => [pos]
  end.

Fixpoint list_successors (l : cf_list) (pos : nat) (sc : scope) : list (list nat) :=
  match l with
  | cf_last j => [block_successors sc j (fall sc)]
  | cf_cons j n rest =>
      let next := S pos + node_blocks n in
      block_successors sc j (first_blocks n (S pos)) ::
      node_successors n (S pos) next sc ++ list_successors rest next sc
  end
with node_successors (n : cf_node) (pos next : nat) (sc : scope) : list (list nat) :=
  match n with
  | nir_if t e =>
      let sc := Scope [next] (loop sc) (end_block sc) in
      list_successors t pos sc ++ list_successors e (pos + list_blocks t) sc
  | nir_loop body fake =>
      list_successors body pos (Scope (pos :: if fake then [next] else []) (Some (pos, next)) (end_block sc))
  end.

(** The successors of the blocks of a function. *)
Definition nir_successors (body : cf_list) : list (list nat) :=
  list_successors body 0 (Scope [list_blocks body] None (list_blocks body)).

Definition nir_edge (body : cf_list) (u v : nat) : Prop :=
  exists s, nir_successors body !! u = Some s /\ v ∈ s /\ v < list_blocks body.

(** ** The order of the blocks *)

Lemma length_successors :
  (forall l pos sc, length (list_successors l pos sc) = list_blocks l) /\
  (forall n pos next sc, length (node_successors n pos next sc) = node_blocks n).
Proof.
  apply cf_ind; cbn; intros; try reflexivity; rewrite ?length_app, ?H, ?H0; reflexivity.
Qed.

Lemma blocks_pos : (forall l, 0 < list_blocks l) /\ (forall n, 0 < node_blocks n).
Proof. apply cf_ind; cbn; intros; lia. Qed.

(** The edges among the first elements [l] of which stand for the blocks from
    [pos] on. *)
Definition edge_of (l : list (list nat)) (pos u v : nat) : Prop :=
  exists s, l !! (u - pos) = Some s /\ v ∈ s /\ pos <= u.

Lemma edge_of_cons s l pos u v : edge_of (s :: l) pos u v <-> (u = pos /\ v ∈ s) \/ edge_of l (S pos) u v.
Proof.
  unfold edge_of. split.
  - intros (s' & H & Hv & Hu). destruct (decide (u = pos)) as [->|Hne].
    + rewrite Nat.sub_diag in H. injection H as ->. auto.
    + right. exists s'. replace (u - pos) with (S (u - S pos)) in H by lia. cbn in H. repeat split; auto with lia.
  - intros [[-> Hv]|(s' & H & Hv & Hu)].
    + exists s. rewrite Nat.sub_diag. auto.
    + exists s'. replace (u - pos) with (S (u - S pos)) by lia. cbn. repeat split; auto with lia.
Qed.

Lemma edge_of_app l1 l2 pos u v :
  edge_of (l1 ++ l2) pos u v <-> edge_of l1 pos u v \/ edge_of l2 (pos + length l1) u v.
Proof.
  unfold edge_of. split.
  - intros (s & H & Hv & Hu). apply lookup_app_Some in H as [H|[H1 H]]; [left; eauto|right].
    exists s. repeat split; auto with lia. now replace (u - (pos + length l1)) with (u - pos - length l1) by lia.
  - intros [(s & H & Hv & Hu)|(s & H & Hv & Hu)]; exists s.
    + repeat split; auto. now apply lookup_app_l_Some.
    + repeat split; auto with lia. rewrite lookup_app_r by lia. now replace (u - pos - length l1) with (u - (pos + length l1)) by lia.
Qed.

Lemma edge_of_range l pos u v : edge_of l pos u v -> pos <= u < pos + length l.
Proof. intros (s & H & _ & Hu). apply lookup_lt_Some in H. lia. Qed.

(** The blocks control can leave a node for. *)
Definition targets (sc : scope) : list nat :=
  end_block sc :: fall sc ++ match loop sc with Some (first, after) => [first; after] | None => [] end.

(** The loops, as the ranges of their blocks. *)
Fixpoint list_loops (l : cf_list) (pos : nat) : list (nat * nat) :=
  match l with
  | cf_last _ => []
  | cf_cons _ n rest => node_loops n (S pos) ++ list_loops rest (S pos + node_blocks n)
  end
with node_loops (n : cf_node) (pos : nat) : list (nat * nat) :=
  match n with
  | nir_if t e => list_loops t pos ++ list_loops e (pos + list_blocks t)
  | nir_loop body _ => (pos, pos + list_blocks body) :: list_loops body pos
  end.

Lemma loops_bounds :
  (forall l pos h e, (h, e) ∈ list_loops l pos -> pos < h < e /\ e <= pos + list_blocks l) /\
  (forall n pos h e, (h, e) ∈ node_loops n pos -> pos <= h < e /\ e <= pos + node_blocks n).
Proof.
  apply cf_ind; cbn [list_loops node_loops list_blocks node_blocks].
  - intros j pos h e H. now apply not_elem_of_nil in H.
  - intros j n IHn rest IHr pos h e [H|H]%elem_of_app; [apply IHn in H | apply IHr in H]; lia.
  - intros t IHt e IHe pos h e' [H|H]%elem_of_app; [apply IHt in H | apply IHe in H]; lia.
  - intros body IH fake pos h e [[= -> ->]|H]%elem_of_cons; [|apply IH in H; lia].
    pose proof (proj1 blocks_pos body). lia.
Qed.

Lemma first_blocks_range n p v : v ∈ first_blocks n p -> p <= v < p + node_blocks n.
Proof.
  destruct n as [t e|body fake]; cbn; rewrite ?elem_of_cons, elem_of_nil.
  - pose proof (proj1 blocks_pos t). pose proof (proj1 blocks_pos e). intros [->|[->|[]]]; lia.
  - pose proof (proj1 blocks_pos body). intros [->|[]]; lia.
Qed.

(** A node is entered at the first block of a loop only if it is that loop. *)
Lemma first_blocks_enter n p v h e : v ∈ first_blocks n p -> (h, e) ∈ node_loops n p -> h <= v < e -> v = h /\ h = p.
Proof.
  destruct n as [t f|body fake]; cbn; rewrite ?elem_of_cons, elem_of_nil.
  - intros Hv [H|H]%elem_of_app ?; apply loops_bounds in H; pose proof (proj1 blocks_pos t); destruct Hv as [->|[->|[]]]; lia.
  - intros [->|[]] [[= -> ->]|H] ?; [auto | apply loops_bounds in H; lia].
Qed.

(** The edges [E] of a part of a function whose blocks from [a] to [b] are
    reached from inside it, with the loops [H]: an edge leaves for one of the
    blocks [T] or stays inside, an edge back goes to the first block of a loop
    around its source, and a loop is entered from the block before it. *)
Record structured (E : nat -> nat -> Prop) (H : list (nat * nat)) (a b : nat) (T : list nat) : Prop := {
  st_edge : forall u v, E u v -> v ∈ T \/ a <= v < b;
  st_back : forall u v, E u v -> a <= v < b -> v <= u -> exists e, (v, e) ∈ H /\ u < e;
  st_enter : forall h e u v, (h, e) ∈ H -> E u v -> h <= v < e -> h <= u < e \/ u + 1 = h /\ v = h }.

Definition outside (T : list nat) (a b : nat) : Prop := forall t, t ∈ T -> t < a \/ b <= t.

Lemma structured_union E1 H1 a1 b1 T1 E2 H2 a2 b2 T2 a b T :
  structured E1 H1 a1 b1 T1 -> structured E2 H2 a2 b2 T2 -> outside T a b ->
  (forall h e, (h, e) ∈ H1 -> a1 <= h /\ e <= b1) -> (forall h e, (h, e) ∈ H2 -> a2 <= h /\ e <= b2) ->
  (forall u v, E1 u v -> u < b1) -> (forall t, t ∈ T1 -> t ∈ T \/ b1 <= t < a2) -> (forall t, t ∈ T2 -> t ∈ T) ->
  a <= a1 -> a1 <= b1 -> b1 <= a2 -> a2 <= b -> b2 <= b -> structured (fun u v => E1 u v \/ E2 u v) (H1 ++ H2) a b T.
Proof.
  intros S1 S2 Ho B1 B2 Hsrc HT1 HT2 ?????.
  assert (C1 : forall u v, E1 u v -> v ∈ T \/ b1 <= v < a2 \/ a1 <= v < b1).
  { intros u v HE. destruct (st_edge _ _ _ _ _ S1 u v HE) as [Hv|Hv]; [destruct (HT1 v Hv)|]; auto. }
  assert (C2 : forall u v, E2 u v -> v ∈ T \/ a2 <= v < b2).
  { intros u v HE. destruct (st_edge _ _ _ _ _ S2 u v HE) as [Hv|Hv]; auto. }
  split.
  - intros u v [HE|HE]; [destruct (C1 u v HE) as [?|[?|?]] | destruct (C2 u v HE)]; auto; right; lia.
  - intros u v [HE|HE] Hv Hb.
    + destruct (C1 u v HE) as [Ht|[Ht|Ht]]; [apply Ho in Ht; lia | apply Hsrc in HE; lia|].
      destruct (st_back _ _ _ _ _ S1 u v HE Ht Hb) as (e & He & ?). exists e. split; [apply elem_of_app; auto | assumption].
    + destruct (C2 u v HE) as [Ht|Ht]; [apply Ho in Ht; lia|].
      destruct (st_back _ _ _ _ _ S2 u v HE Ht Hb) as (e & He & ?). exists e. split; [apply elem_of_app; auto | assumption].
  - intros h e u v [Hh|Hh]%elem_of_app [HE|HE] Hv.
    + exact (st_enter _ _ _ _ _ S1 h e u v Hh HE Hv).
    + apply B1 in Hh. destruct (C2 u v HE) as [Ht|Ht]; [apply Ho in Ht|]; lia.
    + apply B2 in Hh. destruct (C1 u v HE) as [Ht|[Ht|Ht]]; [apply Ho in Ht|..]; lia.
    + exact (st_enter _ _ _ _ _ S2 h e u v Hh HE Hv).
Qed.

Lemma structured_ext E E' H a b T : (forall u v, E' u v -> E u v) -> structured E H a b T -> structured E' H a b T.
Proof. intros HE [H1 H2 H3]. split; eauto. Qed.

Lemma block_successors_targets sc j normal v : v ∈ block_successors sc j normal -> v ∈ targets sc \/ v ∈ normal.
Proof.
  unfold targets. destruct sc as [fl [[first after]|] en], j as [[]|]; cbn; rewrite ?elem_of_cons, ?elem_of_app, ?elem_of_cons, ?elem_of_nil; tauto.
Qed.

(** The statement for a list of nodes at [pos], and for a node. *)
Definition list_structured (l : cf_list) : Prop := forall pos sc, outside (targets sc) (S pos) (pos + list_blocks l) ->
  structured (edge_of (list_successors l pos sc) pos) (list_loops l pos) (S pos) (pos + list_blocks l) (targets sc).

Definition node_structured (n : cf_node) : Prop := forall pos sc, outside (targets sc) pos (pos + node_blocks n) ->
  structured (edge_of (node_successors n pos (pos + node_blocks n) sc) pos) (node_loops n pos) pos (pos + node_blocks n)
    ((pos + node_blocks n) :: targets sc).

Lemma structured_last j : list_structured (cf_last j).
Proof.
  intros pos sc Ho. cbn [list_successors list_loops list_blocks].
  assert (HE : forall u v, edge_of [block_successors sc j (fall sc)] pos u v -> u = pos /\ v ∈ targets sc).
  { intros u v [[-> Hv]|(s & H & _)]%edge_of_cons; [split; [reflexivity|] | now rewrite lookup_nil in H].
    destruct (block_successors_targets _ _ _ _ Hv) as [Hv'|Hv']; [assumption|]. unfold targets. rewrite elem_of_cons, elem_of_app. auto. }
  split.
  - intros u v H. apply HE in H. tauto.
  - intros u v H. lia.
  - intros h e u v H. now apply not_elem_of_nil in H.
Qed.

Lemma structured_cons j n rest : node_structured n -> list_structured rest -> list_structured (cf_cons j n rest).
Proof.
  intros IHn IHr pos sc Ho. cbn [list_successors list_loops list_blocks] in *. set (next := S pos + node_blocks n).
  set (E0 := fun u v => u = pos /\ v ∈ block_successors sc j (first_blocks n (S pos))).
  pose proof (proj1 blocks_pos rest). pose proof (proj2 blocks_pos n).
  assert (Hn := IHn (S pos) sc ltac:(intros t Ht; apply Ho in Ht; lia)). fold next in Hn.
  assert (Hr := IHr next sc ltac:(intros t Ht; apply Ho in Ht; lia)).
  assert (Hs0 : structured (fun u v => E0 u v \/ edge_of (node_successors n (S pos) next sc) (S pos) u v)
                 (node_loops n (S pos)) (S pos) next (next :: targets sc)).
  { assert (HE0 : forall u v, E0 u v -> u = pos /\ (v ∈ targets sc \/ v ∈ first_blocks n (S pos))).
    { intros u v [-> Hv]. split; [reflexivity|]. now apply (block_successors_targets sc j). }
    split.
    - intros u v [HE|HE]; [|exact (st_edge _ _ _ _ _ Hn u v HE)]. apply HE0 in HE as [-> [Hv|Hv]]; [left; apply elem_of_cons; auto|].
      apply first_blocks_range in Hv. right. lia.
    - intros u v [HE|HE] Hv Hb; [|exact (st_back _ _ _ _ _ Hn u v HE Hv Hb)]. apply HE0 in HE as [-> _]. lia.
    - intros h e u v Hh [HE|HE] Hv; [|exact (st_enter _ _ _ _ _ Hn h e u v Hh HE Hv)]. apply HE0 in HE as [-> [Ht|Ht]].
      + apply Ho in Ht. apply loops_bounds in Hh. lia.
      + destruct (first_blocks_enter _ _ _ _ _ Ht Hh Hv). lia. }
  eapply structured_ext; [|eapply (structured_union _ _ (S pos) next _ _ _ (S next) _ _ (S pos) _ _ Hs0 Hr)]; fold next.
  - intros u v [H1|[H1|H1]%edge_of_app]%edge_of_cons; [left; left; exact H1 | left; right; exact H1 | right].
    rewrite (proj2 length_successors) in H1. exact H1.
  - exact Ho.
  - intros h e Hh. apply loops_bounds in Hh. lia.
  - intros h e Hh. apply loops_bounds in Hh. lia.
  - intros u v [[-> _]|HE]; [lia|]. apply edge_of_range in HE. rewrite (proj2 length_successors) in HE. lia.
  - intros t [->|Ht]%elem_of_cons; [right; lia | auto].
  - auto.
  - lia.
  - lia.
  - lia.
  - lia.
  - lia.
Qed.

Lemma structured_if t e : list_structured t -> list_structured e -> node_structured (nir_if t e).
Proof.
  intros IHt IHe pos sc Ho. cbn [node_successors node_loops node_blocks] in *. set (next := pos + (list_blocks t + list_blocks e)) in *.
  set (sc' := Scope [next] (loop sc) (end_block sc)).
  assert (HT : forall x, x ∈ targets sc' -> x ∈ next :: targets sc).
  { intros x. unfold targets. cbn. rewrite !elem_of_cons, !elem_of_app. tauto. }
  assert (Ho' : outside (next :: targets sc) pos next).
  { intros x [->|Hx]%elem_of_cons; [lia | apply Ho in Hx; lia]. }
  pose proof (proj1 blocks_pos t). pose proof (proj1 blocks_pos e).
  assert (Ht := IHt pos sc' ltac:(intros x Hx; apply HT, Ho' in Hx; lia)).
  assert (He := IHe (pos + list_blocks t) sc' ltac:(intros x Hx; apply HT, Ho' in Hx; lia)).
  eapply structured_ext; [|eapply (structured_union _ _ (S pos) (pos + list_blocks t) _ _ _ (S (pos + list_blocks t)) _ _ pos next _ Ht He Ho')].
  - intros u v [H1|H1]%edge_of_app; [left; exact H1 | right; rewrite (proj1 length_successors) in H1; exact H1].
  - intros h f Hh. apply loops_bounds in Hh. lia.
  - intros h f Hh. apply loops_bounds in Hh. lia.
  - intros u v HE. apply edge_of_range in HE. rewrite (proj1 length_successors) in HE. lia.
  - auto.
  - auto.
  - lia.
  - lia.
  - lia.
  - lia.
  - lia.
Qed.

Lemma structured_loop body fake : list_structured body -> node_structured (nir_loop body fake).
Proof.
  intros IH pos sc Ho. cbn [node_successors node_loops node_blocks] in *. set (next := pos + list_blocks body) in *.
  set (sc' := Scope (pos :: if fake then [next] else []) (Some (pos, next)) (end_block sc)).
  assert (HT : forall x, x ∈ targets sc' -> x = pos \/ x = next \/ x ∈ targets sc).
  { intros x. unfold targets. cbn. rewrite !elem_of_cons, !elem_of_app, !elem_of_cons, elem_of_nil. destruct fake; rewrite ?elem_of_cons, elem_of_nil; tauto. }
  pose proof (proj1 blocks_pos body).
  assert (Hb := IH pos sc' ltac:(intros x Hx; apply HT in Hx as [->|[->|Hx]]; [lia | lia | apply Ho in Hx; lia])).
  assert (Hsrc : forall u v, edge_of (list_successors body pos sc') pos u v -> pos <= u < next).
  { intros u v HE. apply edge_of_range in HE. rewrite (proj1 length_successors) in HE. exact HE. }
  split.
  - intros u v HE. destruct (st_edge _ _ _ _ _ Hb u v HE) as [Hv|Hv]; [|right; lia].
    apply HT in Hv as [->|[->|Hv]]; [right; lia | left; apply elem_of_cons; auto..].
  - intros u v HE Hv Hbk. destruct (decide (v = pos)) as [->|Hne].
    + exists next. split; [apply elem_of_cons; auto | apply Hsrc in HE; lia].
    + destruct (st_back _ _ _ _ _ Hb u v HE ltac:(lia) Hbk) as (e & He & ?). exists e. split; [apply elem_of_cons; auto | assumption].
  - intros h e u v [[= -> ->]|Hh]%elem_of_cons HE Hv; [apply Hsrc in HE; lia | exact (st_enter _ _ _ _ _ Hb h e u v Hh HE Hv)].
Qed.

Lemma structured_all : (forall l, list_structured l) /\ (forall n, node_structured n).
Proof. apply cf_ind; auto using structured_last, structured_cons, structured_if, structured_loop. Qed.

(** The blocks that control can reach from the first. *)
Inductive nir_reachable (edge : nat -> nat -> Prop) : nat -> Prop :=
| reachable_start : nir_reachable edge 0
| reachable_edge u v : nir_reachable edge u -> edge u v -> nir_reachable edge v.

(** Blocks can be numbered so: see [structured_order]. *)
Definition ordered (edge : nat -> nat -> Prop) : Prop :=
  forall v, nir_reachable edge v -> v <> 0 -> exists u, nir_reachable edge u /\ edge u v /\ u < v.

(** The first block has no predecessor, and the numbering of
    [nir_index_blocks] is an order for the analyses. *)
Lemma structured_order body : ordered (nir_edge body) /\ forall u, ~ nir_edge body u 0.
Proof.
  pose proof (proj1 blocks_pos body) as Hpos.
  assert (Ho : outside (targets (Scope [list_blocks body] None (list_blocks body))) 1 (list_blocks body)).
  { intros t. unfold targets. cbn. rewrite !elem_of_cons, elem_of_nil. intros [->|[->|[]]]; lia. }
  pose proof (proj1 structured_all body 0 _ Ho) as Hst. cbn [plus] in Hst. fold (nir_successors body) in Hst.
  assert (HE : forall u v, nir_edge body u v -> edge_of (nir_successors body) 0 u v /\ 1 <= v < list_blocks body).
  { intros u v (s & Hs & Hv & Hn). assert (He : edge_of (nir_successors body) 0 u v) by (exists s; rewrite Nat.sub_0_r; auto with lia).
    split; [exact He|]. destruct (st_edge _ _ _ _ _ Hst u v He) as [Ht|Ht]; [|assumption].
    unfold targets in Ht. cbn in Ht. rewrite !elem_of_cons, elem_of_nil in Ht. lia. }
  split; [|intros u H; apply HE in H; lia].
  intros v Hv Hne. inversion Hv as [|u ? Hu Huv]; subst; [lia|].
  destruct (decide (u < v)) as [Hlt|Hge]; [eauto|]. destruct (HE u v Huv) as [He Hr].
  destruct (st_back _ _ _ _ _ Hst u v He Hr ltac:(lia)) as (e & Hin & Hue).
  assert (Hent : forall x, nir_reachable (nir_edge body) x -> v <= x < e -> exists p, nir_reachable (nir_edge body) p /\ nir_edge body p v /\ p < v).
  { intros x Hx. induction Hx as [|p x Hp IH Hpx]; [lia|]. intros Hxr. destruct (decide (v <= p < e)) as [Hin'|Hout]; [auto|].
    destruct (st_enter _ _ _ _ _ Hst v e p x Hin (proj1 (HE p x Hpx)) Hxr) as [?|[? ->]]; [lia|]. exists p. split; [assumption|]. split; [assumption | lia]. }
  apply (Hent u Hu). lia.
Qed.
