(* ===== verification/Dominators.v ===== *)
(** * Dominators of a flow graph and the chains of immediate dominators

    The theory behind nir_dominance.c: paths from the first block, dominance,
    and the invariant of the iteration of Cooper, Harvey and Kennedy on a table
    [D] of tentative immediate dominators.  The chain of a block in [D] always
    contains its dominators; after [k] rounds it only contains blocks that lie
    on every path with fewer than [k] edges back. *)

From stdpp Require Import base list sets numbers.
From Stdlib Require Import Lia.
From S2P Require Import Prelude NirCfg.

Section flow_graph.
Context (edge : nat -> nat -> Prop).

(** ** Paths and dominance *)

(** A path from the first block, as the list of its blocks, last one first. *)
Inductive path : nat -> list nat -> Prop :=
| path_start : path 0 [0]
| path_edge u v l : path u l -> edge u v -> path v (v :: l).

(** [d] dominates [b]: it is on every path to [b]. *)
Definition dominates (d b : nat) : Prop := forall l, path b l -> d ∈ l.

Definition strictly_dominates (d b : nat) : Prop := d <> b /\ dominates d b.

(** The edges of a path that go back in the order of the blocks. *)
Fixpoint backs (l : list nat) : nat :=
  match l with
  | v :: (u :: _) as l' => (if decide (v <= u) then 1 else 0) + backs l'
  | _ => 0
  end.

(** [d] is on every path to [b] with fewer than [k] edges back. *)
Definition dominates_within (k d b : nat) : Prop := forall l, path b l -> backs l < k -> d ∈ l.

Lemma path_reachable b l : path b l -> nir_reachable edge b.
Proof. induction 1; [constructor | econstructor; eassumption]. Qed.

Lemma reachable_path b : nir_reachable edge b -> exists l, path b l.
Proof. induction 1 as [|u v _ [l Hl] He]; [eexists; constructor | exists (v :: l); now apply (path_edge u)]. Qed.

Lemma path_head b l : path b l -> exists l', l = b :: l'.
Proof. destruct 1; eauto. Qed.

Lemma path_elem b l : path b l -> b ∈ l.
Proof. intros H. destruct (path_head b l H) as [l' ->]. apply elem_of_cons. auto. Qed.

Lemma backs_cons v u l : path u l -> backs (v :: l) = (if decide (v <= u) then 1 else 0) + backs l.
Proof. intros H. destruct (path_head u l H) as [l' ->]. reflexivity. Qed.

Lemma path_last b l : path b l -> 0 ∈ l.
Proof. induction 1; apply elem_of_cons; auto. Qed.

(** The path up to one of its blocks. *)
Lemma path_prefix b l x : path b l -> x ∈ l -> exists l1 l2, l = l1 ++ l2 /\ path x l2 /\ backs l2 <= backs l.
Proof.
  intros H. revert x. induction H as [|u v l Hp IH He]; intros x Hx.
  - apply elem_of_cons in Hx as [->|Hx]; [|now apply not_elem_of_nil in Hx]. exists [], [0]. repeat split; [constructor | lia].
  - apply elem_of_cons in Hx as [->|Hx].
    + exists [], (v :: l). repeat split; [now apply (path_edge u) | lia].
    + destruct (IH x Hx) as (l1 & l2 & -> & H1 & H2). exists (v :: l1), l2. repeat split; [assumption|].
      change ((v :: l1) ++ l2) with (v :: (l1 ++ l2)). rewrite (backs_cons v u) by assumption. lia.
Qed.

(** Every path contains one without repetitions. *)
Lemma path_nodup b l : path b l -> exists l', path b l' /\ NoDup l' /\ l' ⊆ l.
Proof.
  induction 1 as [|u v l Hp (l' & Hl' & Hnd & Hsub) He].
  - exists [0]. repeat split; [constructor | apply NoDup_singleton | set_solver].
  - destruct (decide (v ∈ l')) as [Hin|Hout].
    + destruct (path_prefix u l' v Hl' Hin) as (l1 & l2 & -> & H1 & _). apply list.NoDup_app in Hnd as (_ & _ & Hnd).
      exists l2. repeat split; [assumption.. | set_solver].
    + exists (v :: l'). repeat split; [now apply (path_edge u) | now constructor | set_solver].
Qed.

Lemma backs_length l : backs l < S (length l).
Proof. induction l as [|v [|u l] IH]; cbn in *; try lia. destruct (decide _); cbn in *; lia. Qed.

Lemma backs_short b l : path b l -> backs l < length l.
Proof. induction 1; [cbn; lia|]. rewrite (backs_cons v u) by assumption. cbn. destruct (decide _); lia. Qed.

(** Paths with fewer edges back than there are blocks decide dominance. *)
Lemma dominates_within_all n d b :
  (forall u v, edge u v -> v < n) -> 0 < n -> dominates_within n d b -> dominates d b.
Proof.
  intros Hn H0 Hd l Hl. destruct (path_nodup b l Hl) as (l' & Hl' & Hnd & Hsub). apply Hsub, Hd; [assumption|].
  assert (Hlen : length l' <= n).
  { rewrite <- (length_seq n 0). apply submseteq_length, NoDup_submseteq; [assumption|].
    intros x Hx. apply elem_of_seq. split; [lia|]. cbn. clear -Hl' Hx Hn H0.
    induction Hl' as [|u v l Hp IH He]; apply elem_of_cons in Hx as [->|Hx]; eauto. now apply not_elem_of_nil in Hx. }
  pose proof (backs_short b l' Hl'). lia.
Qed.

Lemma dominates_self b : dominates b b.
Proof. intros l. apply path_elem. Qed.

(** A dominator of [b] other than [b] dominates its predecessors. *)
Lemma dominates_pred d b p : dominates d b -> d <> b -> edge p b -> dominates d p.
Proof.
  intros H Hne He l Hl. specialize (H (b :: l) (path_edge p b l Hl He)). apply elem_of_cons in H as [?|?]; [contradiction | assumption].
Qed.

(** [v] can be reached from [u] through blocks after [lo]. *)
Inductive reach_above (lo u : nat) : nat -> Prop :=
| above_refl : reach_above lo u u
| above_edge p v : reach_above lo u p -> edge p v -> lo < v -> reach_above lo u v.

Lemma above_weaken lo lo' u v : lo' <= lo -> reach_above lo u v -> reach_above lo' u v.
Proof. intros Hle. induction 1; [constructor | apply (above_edge _ _ p); auto with lia]. Qed.

Lemma above_trans lo u v w : reach_above lo u v -> reach_above lo v w -> reach_above lo u w.
Proof. intros H. induction 1; [assumption | apply (above_edge _ _ p); auto]. Qed.

Lemma above_path lo u v l : reach_above lo u v -> path u l -> exists l', path v (l' ++ l) /\ forall x, x ∈ l' -> lo < x.
Proof.
  intros H Hl. induction H as [|p v H (l' & Hp & Hx) He Hlt].
  - exists []. split; [assumption|]. intros x Hx. now apply not_elem_of_nil in Hx.
  - exists (v :: l'). split; [now apply (path_edge p)|]. intros x [->|?]%elem_of_cons; auto.
Qed.

(** ** Chains of tentative immediate dominators *)

Definition table := nat -> option nat.

Inductive chain (D : table) : nat -> nat -> Prop :=
| chain_refl b : chain D b b
| chain_up b p d : b <> 0 -> D b = Some p -> chain D p d -> chain D b d.

(** The first block is its own parent; the parent of any other block comes
    before it, has a parent itself, and reaches it without a block before the
    parent. *)
Record tree_ok (D : table) : Prop := {
  tree_start : D 0 = Some 0;
  tree_up : forall b p, b <> 0 -> D b = Some p -> p < b /\ reach_above p p b /\ D p <> None }.

Lemma chain_trans D a b c : chain D a b -> chain D b c -> chain D a c.
Proof. induction 1; auto. intros. eapply chain_up; eauto. Qed.

Lemma chain_le D b d : tree_ok D -> chain D b d -> d <= b.
Proof. intros HD. induction 1 as [|b p d Hb Hp _ IH]; [lia|]. destruct (tree_up D HD b p Hb Hp). lia. Qed.

Lemma chain_antisym D a b : tree_ok D -> chain D a b -> chain D b a -> a = b.
Proof. intros HD H1 H2. apply (chain_le D) in H1, H2; auto; lia. Qed.

Lemma chain_defined D b d : tree_ok D -> D b <> None -> chain D b d -> D d <> None.
Proof. intros HD Hb. induction 1 as [|b p d Hne Hp _ IH]; [assumption|]. apply IH. now apply (tree_up D HD b p). Qed.

Lemma chain_above D b d : tree_ok D -> chain D b d -> reach_above d d b.
Proof.
  intros HD. induction 1 as [b|b p d Hne Hp Hc IH]; [constructor|]. destruct (tree_up D HD b p Hne Hp) as (Hlt & Hab & _).
  apply (above_trans _ _ p); [assumption|]. apply (above_weaken p); [now apply (chain_le D) | assumption].
Qed.

Lemma chain_start D b : tree_ok D -> D b <> None -> chain D b 0.
Proof.
  intros HD. induction (lt_wf b) as [b _ IH]. intros Hb. destruct (decide (b = 0)) as [->|Hne]; [constructor|].
  destruct (D b) as [p|] eqn:Hp; [|contradiction]. destruct (tree_up D HD b p Hne Hp) as (Hlt & _ & Hd).
  apply (chain_up D b p); auto.
Qed.

Lemma defined_reachable D b : tree_ok D -> D b <> None -> nir_reachable edge b.
Proof.
  intros HD Hb. destruct (above_path _ _ _ [0] (chain_above D b 0 HD (chain_start D b HD Hb)) path_start) as (l & Hl & _).
  now apply (path_reachable b (l ++ [0])).
Qed.

(** Two members of a chain are in chain order. *)
Lemma chain_linear D b d e : tree_ok D -> chain D b d -> chain D b e -> e <= d -> chain D d e.
Proof.
  intros HD Hd. induction Hd as [|b p d Hne Hp Hc IH]; intros He Hle; [assumption|].
  destruct He as [b|b p' e Hne' Hp' He]; [|rewrite Hp in Hp'; injection Hp' as <-; auto].
  pose proof (chain_le D _ _ HD Hc). destruct (tree_up D HD b p Hne Hp). lia.
Qed.

(** [z] is the last common member of the chains of the blocks [ps]. *)
Definition is_lca (D : table) (ps : list nat) (z : nat) : Prop :=
  forall d, chain D z d <-> forall p, p ∈ ps -> chain D p d.

(** ** Changing the parent of one block *)

Section change.
Context (D : table) (b z : nat) (HD : tree_ok D) (Hb : b <> 0) (Hz : z < b) (Habove : reach_above z z b) (Hdef : D z <> None).
Let D' : table := fun c => if decide (c = b) then Some z else D c.

Lemma change_same c : c <> b -> D' c = D c.
Proof. unfold D'. intros. now case_decide_eq. Qed.

Lemma change_self : D' b = Some z.
Proof. unfold D'. now case_decide_eq. Qed.

Lemma change_tree : tree_ok D'.
Proof.
  split.
  - rewrite change_same by auto. apply HD.
  - intros c p Hc. unfold D' at 1. case_decide_eq.
    + subst c. intros [= <-]. split; [assumption|]. split; [assumption|]. rewrite change_same by lia. assumption.
    + intros Hp. destruct (tree_up D HD c p Hc Hp) as (H1 & H2 & H3). split; [assumption|]. split; [assumption|].
      unfold D'. case_decide_eq; [discriminate | assumption].
Qed.

Lemma chain_below c d : chain D c d -> c < b -> chain D' c d.
Proof using HD Hb Hz.
  induction 1 as [|c p d Hc Hp _ IH]; intros Hlt; [constructor|]. destruct (tree_up D HD c p Hc Hp).
  apply (chain_up _ _ p); [assumption | now rewrite change_same by lia | apply IH; lia].
Qed.

Lemma chain_below_inv c d : chain D' c d -> c < b -> chain D c d.
Proof using HD Hb Hz.
  induction 1 as [|c p d Hc Hp _ IH]; intros Hlt; [constructor|]. rewrite change_same in Hp by lia. destruct (tree_up D HD c p Hc Hp).
  apply (chain_up _ _ p); auto with lia.
Qed.

Lemma chain_changed_self d : chain D' b d <-> d = b \/ chain D z d.
Proof using HD Hb Hz.
  clear Habove Hdef.
  split.
  - intros H. inversion H as [|? p ? _ Hp Hc]; subst; [auto|]. right. rewrite change_self in Hp.
    injection Hp as <-. now apply chain_below_inv.
  - intros [->|H]; [constructor|]. apply (chain_up _ _ z); [assumption | apply change_self | now apply chain_below].
Qed.

Lemma chain_to_self c : chain D c b -> chain D' c b.
Proof using.
  assert (Hall : forall d, chain D c d -> d = b -> chain D' c d); [|intros H; now apply Hall].
  intros d. induction 1 as [|c p d Hc Hp _ IH]; intros E; [constructor|]. subst d.
  destruct (decide (c = b)) as [->|Hne]; [constructor|]. apply (chain_up _ _ p); [assumption | now rewrite change_same | auto].
Qed.

Lemma chain_changed c d : chain D c d -> chain D' c d \/ chain D c b /\ chain D b d /\ d <> b.
Proof using.
  induction 1 as [|c p d Hc Hp H IH]; [left; constructor|].
  destruct (decide (c = d)) as [->|Hcd]; [left; constructor|]. destruct (decide (c = b)) as [->|Hne].
  - right. split; [constructor|]. split; [|congruence]. now apply (chain_up _ _ p).
  - destruct IH as [IH|(H1 & H2 & H3)].
    + left. apply (chain_up _ _ p); [assumption | now rewrite change_same | assumption].
    + right. split; [|auto]. now apply (chain_up _ _ p).
Qed.

Lemma chain_changed_inv c d : chain D' c d -> chain D c d \/ chain D c b /\ chain D' b d.
Proof using.
  induction 1 as [|c p d Hc Hp H IH]; [left; constructor|]. destruct (decide (c = b)) as [->|Hne].
  - right. split; [constructor|]. now apply (chain_up _ _ p).
  - rewrite change_same in Hp by assumption. destruct IH as [IH|(H1 & H2)]; [left | right; split; [|assumption]]; now apply (chain_up _ _ p).
Qed.
End change.

(** ** The iteration *)

(** [i] rounds have been made, and one more up to block [b]. *)
Definition rounds (i b c : nat) : nat := if decide (c < b) then S i else i.

Record iter_ok (i b : nat) (D : table) : Prop := {
  io_tree : tree_ok D;
  io_sound : forall c d, D c <> None -> dominates d c -> chain D c d;
  io_within : forall c d, D c <> None -> chain D c d -> dominates_within (rounds i b c) d c;
  io_done : forall c, nir_reachable edge c -> c < b \/ i <> 0 \/ c = 0 -> D c <> None }.

Lemma iter_start D : (forall b, D b = if decide (b = 0) then Some 0 else None) -> iter_ok 0 0 D.
Proof.
  intros HD. assert (H0 : forall c, D c <> None -> c = 0) by (intros c; rewrite HD; now case_decide_eq).
  assert (Hc : forall d, chain D 0 d -> d = 0) by (intros d H; now inversion H).
  split.
  - split; [now rewrite HD|]. intros b p Hb. rewrite HD. now case_decide_eq.
  - intros c d Hd Hdom. apply H0 in Hd as ->. specialize (Hdom [0] path_start).
    apply elem_of_cons in Hdom as [->|H]; [constructor | now apply not_elem_of_nil in H].
  - intros c d Hd H. apply H0 in Hd as ->. apply Hc in H as ->. intros l Hl _. now apply path_elem.
  - intros c _ [H|[H| ->]]; [lia | lia | now rewrite HD].
Qed.

(** Only the values of the table matter. *)
Lemma chain_ext D D' b d : (forall c, D' c = D c) -> chain D b d -> chain D' b d.
Proof. intros E. induction 1 as [|b p d Hb Hp _ IH]; [constructor | apply (chain_up _ _ p); [assumption | now rewrite E | assumption]]. Qed.

Lemma iter_ext i b D D' : (forall c, D' c = D c) -> iter_ok i b D -> iter_ok i b D'.
Proof.
  intros E [[Hst Hup] Hs Hw Hd]. split.
  - split; [now rewrite E|]. intros c p. rewrite !E. apply Hup.
  - intros c d Hc Hdom. rewrite E in Hc. apply (chain_ext D); auto.
  - intros c d Hc Hch. rewrite E in Hc. apply Hw; [assumption|]. now apply (chain_ext D').
  - intros c. rewrite E. apply Hd.
Qed.

Section process.
Context (Hord : ordered edge) (i b : nat) (D : table) (HI : iter_ok i b D) (Hb : b <> 0).
Context (ps : list nat) (Hps : forall p, p ∈ ps <-> edge p b /\ D p <> None).

(** A block whose predecessors have all no parent cannot be reached. *)
Lemma process_none : ps = [] -> ~ nir_reachable edge b.
Proof.
  intros -> Hr. destruct (Hord b Hr Hb) as (p & Hp & He & Hlt).
  apply (not_elem_of_nil p), Hps. split; [assumption|]. apply (io_done _ _ _ HI); auto.
Qed.

Lemma process_skip : ~ nir_reachable edge b -> iter_ok i (S b) D.
Proof.
  intros Hr. destruct HI as [Ht Hs Hw Hd]. split; auto.
  - intros c d Hc Hch. specialize (Hw c d Hc Hch). unfold rounds in *. destruct (decide (c < S b)), (decide (c < b)); try lia; try assumption.
    assert (c = b) by lia. subst c. destruct Hr. now apply (defined_reachable D).
  - intros c Hc Hcase. apply Hd; [assumption|]. destruct Hcase as [Hlt|?]; [|auto]. destruct (decide (c = b)) as [->|]; [contradiction|]. left. lia.
Qed.

Context (z : nat) (Hne : ps <> []) (Hz : is_lca D ps z).

Lemma process_reachable : nir_reachable edge b.
Proof.
  destruct ps as [|p ps']; [contradiction|]. destruct (proj1 (Hps p) ltac:(apply elem_of_cons; auto)) as [He Hd].
  apply (reachable_edge _ p); [apply (defined_reachable D); [apply HI | assumption] | assumption].
Qed.

Lemma process_before : z < b.
Proof.
  destruct (Hord b process_reachable Hb) as (p & Hp & He & Hlt).
  assert (Hin : p ∈ ps) by (apply Hps; split; [assumption | apply (io_done _ _ _ HI); auto]).
  pose proof (proj1 (Hz z) (chain_refl D z) p Hin) as Hc. apply (chain_le D) in Hc; [lia | apply HI].
Qed.

Lemma process_lca : D z <> None /\ reach_above z z b.
Proof.
  assert (exists p, p ∈ ps) as [p Hp] by (destruct ps as [|p ps']; [contradiction | exists p; apply elem_of_cons; auto]).
  destruct (proj1 (Hps p) Hp) as [He Hd]. pose proof (proj1 (Hz z) (chain_refl D z) p Hp) as Hc.
  split; [apply (chain_defined D p); [apply HI | assumption..]|].
  apply (above_edge _ _ p); [apply (chain_above D); [apply HI | assumption] | assumption | apply process_before].
Qed.

Let D' : table := fun c => if decide (c = b) then Some z else D c.

Lemma process_sound c d : D' c <> None -> dominates d c -> chain D' c d.
Proof.
  pose proof (io_tree _ _ _ HI) as Ht. pose proof process_before as Hlt.
  assert (Hself : forall d, dominates d b -> chain D' b d).
  { intros e He. apply (proj2 (chain_changed_self D b z Ht Hb Hlt e)). destruct (decide (e = b)) as [->|Heb]; [now left|right].
    apply (proj2 (Hz e)). intros p [Hp Hd]%Hps. apply (io_sound _ _ _ HI); [assumption|]. now apply (dominates_pred e b p). }
  intros Hc Hdom. destruct (decide (c = b)) as [->|Hcb]; [auto|]. unfold D' in Hc. rewrite decide_False in Hc by assumption.
  destruct (chain_changed D b z c d (io_sound _ _ _ HI c d Hc Hdom)) as [H|(H1 & H2 & H3)]; [assumption|].
  apply (chain_trans D' c b d); [now apply chain_to_self|]. apply Hself. intros l Hl.
  destruct (above_path _ _ _ l (chain_above D c b Ht H1) Hl) as (l' & Hl' & Hab).
  specialize (Hdom _ Hl'). apply elem_of_app in Hdom as [Hx|]; [|assumption]. apply Hab in Hx.
  apply (chain_le D) in H2; [lia | assumption].
Qed.

Lemma process_within c d : D' c <> None -> chain D' c d -> dominates_within (rounds i (S b) c) d c.
Proof.
  pose proof (io_tree _ _ _ HI) as Ht. pose proof process_before as Hlt.
  assert (Hself : forall d, chain D' b d -> dominates_within (S i) d b).
  { intros e He l Hl Hbk. apply (proj1 (chain_changed_self D b z Ht Hb Hlt e)) in He as [->|He]; [now apply path_elem|].
    destruct Hl as [|p b' l Hl Hpb]; [contradiction|]. rewrite (backs_cons b' p) in Hbk by assumption. apply elem_of_cons. right.
    assert (Hp : D p <> None).
    { apply (io_done _ _ _ HI); [now apply (path_reachable p l)|]. destruct (decide (b' <= p)); [right; left; lia | left; lia]. }
    apply (io_within _ _ _ HI p e Hp); [|assumption|].
    - apply (proj1 (Hz e) He), Hps. auto.
    - unfold rounds. destruct (decide (p < b')), (decide (b' <= p)); lia. }
  unfold rounds. intros Hc Hch. destruct (decide (c = b)) as [->|Hcb]; [rewrite decide_True by lia; auto|].
  unfold D' in Hc. rewrite decide_False in Hc by assumption.
  assert (Hr : rounds i b c = rounds i (S b) c) by (unfold rounds; destruct (decide (c < b)), (decide (c < S b)); lia).
  fold (rounds i (S b) c). rewrite <- Hr. destruct (chain_changed_inv D b z c d Hch) as [H|(H1 & H2)]; [now apply (io_within _ _ _ HI)|].
  intros l Hl Hbk. pose proof (io_within _ _ _ HI c b Hc H1 l Hl Hbk) as Hin.
  destruct (path_prefix c l b Hl Hin) as (l1 & l2 & -> & Hl2 & Hle). apply elem_of_app. right. apply (Hself d H2 l2 Hl2).
  apply (chain_le D) in H1; [|assumption]. unfold rounds in Hbk. destruct (decide (c < b)); lia.
Qed.

Lemma process_block : iter_ok i (S b) D'.
Proof.
  pose proof process_lca as [Hd Hab]. split.
  - apply change_tree; [apply HI | assumption | apply process_before | assumption..].
  - apply process_sound.
  - apply process_within.
  - intros c Hc Hcase. unfold D'. destruct (decide (c = b)); [discriminate|]. apply (io_done _ _ _ HI); [assumption|].
    destruct Hcase as [?|?]; [left; lia | auto].
Qed.
End process.

Lemma iter_skip_start i D : iter_ok i 0 D -> iter_ok i 1 D.
Proof.
  intros [Ht Hs Hw Hd]. split; auto.
  - intros c d Hc Hch. unfold rounds. destruct (decide (c < 1)); [|specialize (Hw c d Hc Hch); unfold rounds in Hw; now destruct (decide (c < 0))].
    assert (c = 0) by lia. subst c. inversion Hch as [|? ? ? H]; subst; [|contradiction]. intros l0 Hl _. now apply path_elem.
  - intros c Hc [H|H]; [apply Hd; auto; right; right; lia | auto].
Qed.

Lemma iter_round i n D : (forall c, D c <> None -> c < n) -> (forall u v, edge u v -> v < n) -> 0 < n -> iter_ok i n D -> iter_ok (S i) 0 D.
Proof.
  intros Hn He H0 [Ht Hs Hw Hd]. split; auto.
  - intros c d Hc Hch. specialize (Hw c d Hc Hch). unfold rounds in *. now rewrite decide_True in Hw by auto.
  - intros c Hc _. apply Hd; [assumption|]. left. destruct Hc; [assumption | now apply (He u)].
Qed.

(** When the table has settled, its chains are the dominators. *)
Lemma iter_final n i D b d :
  (forall u v, edge u v -> v < n) -> 0 < n -> n <= i -> iter_ok i 0 D -> nir_reachable edge b -> (chain D b d <-> dominates d b).
Proof.
  intros He H0 Hle [Ht Hs Hw Hd] Hb. assert (Hdef : D b <> None) by (apply Hd; auto; right; left; lia). split; [|auto].
  intros Hc. apply (dominates_within_all n); [assumption..|]. intros l Hl Hbk. apply (Hw b d Hdef Hc l Hl). unfold rounds. destruct (decide (b < 0)); lia.
Qed.

(** The parent of a block is then stable: it is the last common member of the
    chains of its predecessors. *)
Lemma iter_stable n i D b ps z :
  ordered edge -> (forall u v, edge u v -> v < n) -> 0 < n -> n <= i -> iter_ok i 0 D -> nir_reachable edge b -> b <> 0 ->
  (forall p, p ∈ ps <-> edge p b /\ D p <> None) -> ps <> [] -> is_lca D ps z -> D b = Some z.
Proof.
  intros Hord He H0 Hle HI Hb Hb0 Hps Hne Hz. pose proof (io_tree _ _ _ HI) as Ht.
  assert (Hfin : forall b d, nir_reachable edge b -> (chain D b d <-> dominates d b)) by (intros; now apply (iter_final n i)).
  assert (Hdef : D b <> None) by (apply (io_done _ _ _ HI); auto; right; left; lia).
  destruct (D b) as [y|] eqn:Hy; [|contradiction]. f_equal. destruct (tree_up D Ht b y Hb0 Hy) as (Hlt & _ & Hyd).
  assert (Hzlt : z < b).
  { destruct (Hord b Hb Hb0) as (p & Hp & Hpe & Hpb). assert (Hin : p ∈ ps) by (apply Hps; split; [assumption | apply (io_done _ _ _ HI); auto; right; left; lia]).
    pose proof (proj1 (Hz z) (chain_refl D z) p Hin) as Hc. apply (chain_le D) in Hc; [lia | assumption]. }
  assert (Hpr : forall p, p ∈ ps -> nir_reachable edge p) by (intros p [_ Hd]%Hps; now apply (defined_reachable D)).
  apply (chain_antisym D); [assumption| |].
  - assert (Hzb : dominates z b).
    { intros l Hl. inversion Hl as [|p b' l' Hl' Hpb]; subst; [contradiction|]. apply elem_of_cons. right.
      assert (Hp : p ∈ ps) by (apply Hps; split; [assumption | apply (io_done _ _ _ HI); [now apply (path_reachable p l') | right; left; lia]]).
      apply (proj1 (Hfin p z (Hpr p Hp))); [|assumption]. apply (proj1 (Hz z)); [constructor | assumption]. }
    apply Hfin in Hzb; [|assumption]. inversion Hzb as [|? y' ? _ Hy' Hc]; subst; [|rewrite Hy in Hy'; now injection Hy' as <-].
    lia.
  - apply (proj2 (Hz y)). intros p Hp. apply Hfin; [auto|]. apply (dominates_pred y b p); [|lia | now apply Hps].
    apply Hfin; [assumption|]. apply (chain_up D b y); [assumption.. | constructor].
Qed.
End flow_graph.
