(* ===== verification/NirImpl.v ===== *)
(** * Function implementations of NIR: nir.h, nir.c, nir_metadata.c

    The members of [nir_block], [nir_instr] and [nir_function_impl] that the
    analyses of nir_dominance.c and nir_liveness.c use.  A block pointer is a
    position in the list of the blocks in the order of [nir_foreach_block], an
    instruction pointer a block and a position in it, an SSA definition a
    position in the list of all definitions.  Dereferencing [NULL] has no
    result, like a failed assertion. *)

From stdpp Require Import base list sets numbers.
From Stdlib Require Import ZArith Lia.
From S2P Require Import Prelude NirCfg.
#[local] Open Scope bool_scope.
#[local] Open Scope Z_scope.
#[local] Open Scope c_scope.

(** ** Instructions *)

Inductive nir_instr_type :=
| nir_instr_type_alu | nir_instr_type_deref | nir_instr_type_call | nir_instr_type_tex | nir_instr_type_intrinsic
| nir_instr_type_load_const | nir_instr_type_jump | nir_instr_type_ssa_undef | nir_instr_type_phi | nir_instr_type_parallel_copy.

#[export] Instance nir_instr_type_eq_dec : EqDecision nir_instr_type.
Proof. solve_decision. Defined.

(** An SSA definition, or a register with its indirect offset. *)
Inductive nir_src := Src_ssa (ssa : nat) | Src_reg (indirect : option nir_src).
Inductive nir_dest := Dest_ssa (ssa : nat) | Dest_reg (indirect : option nir_src).

(** [phi_srcs] has the predecessor of each source of a phi. *)
Record nir_instr := Instr {
  instr_type : nir_instr_type; dests : list nir_dest; srcs : list nir_src; phi_srcs : list (nat * nir_src) }.

(** The sources [visit_src] passes to its callback. *)
Definition visit_src (s : nir_src) : list nir_src :=
  match s with Src_reg (Some i) => [s; i] | _ => [s] end.

(** The definitions [nir_foreach_ssa_def] visits. *)
Definition nir_foreach_ssa_def (i : nir_instr) : list nat :=
  match instr_type i with
  | nir_instr_type_call | nir_instr_type_jump => []
  | _ => omap (fun d => match d with Dest_ssa s => Some s | Dest_reg _ => None end) (dests i)
  end.

(** The sources [nir_foreach_src] visits: those of the instruction, then the
    indirect offsets of its destinations. *)
Definition nir_foreach_src (i : nir_instr) : list nir_src :=
  match instr_type i with
  | nir_instr_type_jump | nir_instr_type_ssa_undef => []
  | nir_instr_type_phi => (phi_srcs i ≫= (fun s => visit_src (snd s))) ++ omap (fun d => match d with Dest_reg o => o | _ => None end) (dests i)
  | nir_instr_type_load_const => omap (fun d => match d with Dest_reg o => o | _ => None end) (dests i)
  | _ => (srcs i ≫= visit_src) ++ omap (fun d => match d with Dest_reg o => o | _ => None end) (dests i)
  end.

Definition is_phi (i : nir_instr) : bool := bool_decide (instr_type i = nir_instr_type_phi).

(** ** Blocks *)

(** [condition] is that of the if after the block, if there is one
    ([nir_block_get_following_if]); [predecessors] and [dom_frontier] are sets,
    in the order of their iteration. *)
Record nir_block := MkBlock {
  instr_list : list nir_instr; condition : option nir_src;
  index : Z; predecessors : list nat;
  imm_dom : option nat; num_dom_children : Z; dom_children : list nat; dom_frontier : list nat;
  dom_pre_index : Z; dom_post_index : Z;
  live_in : list Z; live_out : list Z }.

#[export] Instance nir_block_eta : Eta nir_block :=
  fun b => MkBlock (instr_list b) (condition b) (index b) (predecessors b) (imm_dom b) (num_dom_children b) (dom_children b)
                   (dom_frontier b) (dom_pre_index b) (dom_post_index b) (live_in b) (live_out b).

(** [parent_instr] is the instruction that makes the definition. *)
Record nir_ssa_def := MkDef { live_index : Z; parent_instr : nat * nat }.

#[export] Instance nir_ssa_def_eta : Eta nir_ssa_def := fun d => MkDef (live_index d) (parent_instr d).

Record nir_function_impl := MkImpl {
  blocks : list nir_block; ssa_defs : list nir_ssa_def; num_blocks : Z; valid_metadata : Z }.

#[export] Instance nir_function_impl_eta : Eta nir_function_impl :=
  fun i => MkImpl (blocks i) (ssa_defs i) (num_blocks i) (valid_metadata i).

Definition nir_metadata_block_index : Z := 0x1.
Definition nir_metadata_dominance : Z := 0x2.
Definition nir_metadata_live_ssa_defs : Z := 0x4.

(** [block->member] *)
Definition deref (impl : nir_function_impl) (b : nat) : outcome nir_block :=
  match blocks impl !! b with Some blk => Ret blk | None => Assert_failed end.

(** An assignment to a member of the block [b]. *)
Definition set_block (b : nat) (f : nir_block -> nir_block) (impl : nir_function_impl) : nir_function_impl :=
  impl <| blocks := alter f b (blocks impl) |>.

Definition nir_start_block : nat := 0.

(** ** Loops over lists *)

Fixpoint for_each {A B} (f : A -> B -> outcome B) (l : list A) (x : B) : outcome B :=
  match l with
  | [] => Ret x
  | a :: l => let! x := f a x in for_each f l x
  end.

(** [nir_foreach_block(block, impl)] *)
Definition nir_foreach_block {B} (f : nat -> B -> outcome B) (n : nat) (x : B) : outcome B := for_each f (seq 0 n) x.

(** An invariant of a loop, stated for the elements still to come. *)
Lemma for_each_inv {A B} (P : list A -> B -> Prop) (f : A -> B -> outcome B) l : forall x,
  P l x -> (forall a l x, P (a :: l) x -> exists y, f a x = Ret y /\ P l y) ->
  exists y, for_each f l x = Ret y /\ P [] y.
Proof.
  induction l as [|a l IH]; intros x Hx Hstep; [exists x; auto|]. destruct (Hstep a l x Hx) as (y & E & Hy). cbn. rewrite E. cbn. auto.
Qed.

(** The same for a loop over all blocks. *)
Lemma foreach_block_inv {B} (P : nat -> B -> Prop) (f : nat -> B -> outcome B) n x :
  P O x -> (forall b y, (b < n)%nat -> P b y -> exists z, f b y = Ret z /\ P (S b) z) ->
  exists y, nir_foreach_block f n x = Ret y /\ P n y.
Proof.
  intros H0 Hstep. unfold nir_foreach_block.
  destruct (for_each_inv (fun l y => exists b, l = seq b (n - b) /\ (b <= n)%nat /\ P b y) f (seq 0 n) x) as (y & E & b & El & Hb & Hy).
  - exists O. rewrite Nat.sub_0_r. auto with lia.
  - intros a l y (b & El & Hb & Hy). destruct (n - b)%nat as [|k] eqn:Ek; [discriminate|]. injection El as -> ->.
    destruct (Hstep b y ltac:(lia) Hy) as (z & Ez & Hz). exists z. split; [assumption|]. exists (S b). replace (n - S b)%nat with k by lia. auto with lia.
  - exists y. split; [assumption|]. destruct (n - b)%nat eqn:Ek; [|discriminate]. replace n with b by lia. assumption.
Qed.

(** ** Block indices and metadata *)

(** [block->index = index++] for every block. *)
Definition nir_index_blocks (impl : nir_function_impl) : nir_function_impl :=
  if negb (Z.land (valid_metadata impl) nir_metadata_block_index =? 0) then impl
  else impl <| blocks := imap (fun i b => b <| index := u32 (Z.of_nat i) |>) (blocks impl) |>
            <| num_blocks := u32 (Z.of_nat (length (blocks impl))) |>.

(** [nir_metadata_require(impl, nir_metadata_block_index)] *)
Definition require_block_index (impl : nir_function_impl) : nir_function_impl :=
  let impl := if Z.land (valid_metadata impl) nir_metadata_block_index =? 0 then nir_index_blocks impl else impl in
  impl <| valid_metadata := Z.lor (valid_metadata impl) nir_metadata_block_index |>.

Definition nir_metadata_preserve (preserved : Z) (impl : nir_function_impl) : nir_function_impl :=
  impl <| valid_metadata := Z.land (valid_metadata impl) preserved |>.

(** The blocks are linked as [validate_block] requires for the control flow
    tree [body]. *)
Definition linked (impl : nir_function_impl) (body : cf_list) : Prop :=
  length (blocks impl) = list_blocks body /\
  forall b blk, blocks impl !! b = Some blk ->
    NoDup (predecessors blk) /\ forall p, p ∈ predecessors blk <-> nir_edge body p b.

(** The indices are valid if the metadata says so. *)
Definition indexed (impl : nir_function_impl) : Prop :=
  forall b blk, blocks impl !! b = Some blk -> index blk = Z.of_nat b.

Definition index_ok (impl : nir_function_impl) : Prop :=
  Z.of_nat (length (blocks impl)) < 2 ^ 32 /\
  (Z.land (valid_metadata impl) nir_metadata_block_index <> 0 -> indexed impl).

Lemma nir_index_blocks_indexed impl : index_ok impl -> indexed (nir_index_blocks impl).
Proof.
  intros [Hn Hv]. unfold nir_index_blocks. destruct (Z.eqb_spec (Z.land (valid_metadata impl) nir_metadata_block_index) 0) as [E|E]; cbn; [|auto].
  intros b blk H. cbn in H. rewrite list_lookup_imap in H. destruct (blocks impl !! b) as [x|] eqn:Hx; [|discriminate].
  injection H as <-. cbn. apply wrap_small. apply lookup_lt_Some in Hx. lia.
Qed.

(** ** What a phase of the computation leaves alone *)

(** [g] forgets the members of a block that the phase assigns. *)
Definition same_but (g : nir_block -> nir_block) (impl impl' : nir_function_impl) : Prop :=
  g <$> blocks impl' = g <$> blocks impl /\ valid_metadata impl' = valid_metadata impl /\ ssa_defs impl' = ssa_defs impl.

#[export] Instance same_but_equiv g : Equivalence (same_but g).
Proof. split; unfold same_but; [intros x | intros x y | intros x y z]; intuition congruence. Qed.

Lemma same_but_lookup g impl impl' b blk' : same_but g impl impl' -> blocks impl' !! b = Some blk' ->
  exists blk, blocks impl !! b = Some blk /\ g blk' = g blk.
Proof.
  intros [E _] H. apply (f_equal (fun l => l !! b)) in E. rewrite !list_lookup_fmap, H in E.
  destruct (blocks impl !! b) as [blk|]; [|discriminate]. exists blk. split; [reflexivity|]. now injection E.
Qed.

Lemma same_but_length g impl impl' : same_but g impl impl' -> length (blocks impl') = length (blocks impl).
Proof. intros [E _]. apply (f_equal length) in E. now rewrite !length_fmap in E. Qed.

Lemma same_but_set g f b impl : (forall blk, g (f blk) = g blk) -> same_but g impl (set_block b f impl).
Proof.
  intros Hg. split; [|auto]. cbn. apply list_eq. intros i. rewrite !list_lookup_fmap.
  destruct (decide (i = b)) as [->|Hne]; [rewrite list_lookup_alter_eq | now rewrite list_lookup_alter_ne by auto].
  destruct (blocks impl !! b); cbn; [now rewrite Hg | reflexivity].
Qed.

(** A member the phase does not assign. *)
Lemma same_but_member {A} g (m : nir_block -> A) impl impl' b : same_but g impl impl' -> (forall x y, g x = g y -> m x = m y) ->
  m <$> blocks impl' !! b = m <$> blocks impl !! b.
Proof.
  intros H Hm. destruct (blocks impl' !! b) as [blk'|] eqn:E'.
  - destruct (same_but_lookup g impl impl' b blk' H E') as (blk & -> & Eg). cbn. f_equal. now apply Hm.
  - apply lookup_ge_None in E'. rewrite (same_but_length g impl impl' H) in E'. now rewrite (proj2 (lookup_ge_None _ _) E').
Qed.

(** A member of a block, in terms of all its assignments. *)
Definition member {A} (m : nir_block -> A) (impl : nir_function_impl) (b : nat) : option A := m <$> blocks impl !! b.

Lemma member_set {A} (m : nir_block -> A) f b c impl :
  member m (set_block b f impl) c = if decide (c = b) then (fun blk => m (f blk)) <$> blocks impl !! b else member m impl c.
Proof.
  unfold member, set_block. cbn. case_decide_eq; [subst c; rewrite list_lookup_alter_eq | now rewrite list_lookup_alter_ne by auto].
  now destruct (blocks impl !! b).
Qed.

Lemma deref_lookup impl b blk : blocks impl !! b = Some blk -> deref impl b = Ret blk.
Proof. unfold deref. now intros ->. Qed.

Lemma member_lookup {A} (m : nir_block -> A) impl b blk : blocks impl !! b = Some blk -> member m impl b = Some (m blk).
Proof. unfold member. now intros ->. Qed.

Lemma member_deref {A} (m : nir_block -> A) impl b x : member m impl b = Some x -> exists blk, deref impl b = Ret blk /\ blocks impl !! b = Some blk /\ m blk = x.
Proof. unfold member, deref. destruct (blocks impl !! b) as [blk|]; [|discriminate]. intros [= <-]. eauto. Qed.
