(* ===== verification/NirDominance.v ===== *)
(** * Dominance tree and frontiers: src/compiler/nir/nir_dominance.c

    The iteration of Cooper, Harvey and Kennedy, the dominance frontiers, the
    tree of children and its depth-first numbering, and the queries on it.  A
    loop gets one round more than there are blocks, and the outer iteration two
    more; the proofs show that this is enough. *)

From stdpp Require Import base list sets numbers.
From Stdlib Require Import ZArith.
From S2P Require Import Prelude NirCfg NirImpl.
#[local] Open Scope bool_scope.
#[local] Open Scope Z_scope.
#[local] Open Scope c_scope.

Definition init_block (b : nat) (impl : nir_function_impl) : nir_function_impl :=
  set_block b (fun blk =>
    blk <| imm_dom := if decide (b = nir_start_block) then Some b else None |>
        <| num_dom_children := 0 |> <| dom_frontier := [] |>) impl.

(** [while (b->index > limit) b = b->imm_dom;] *)
Fixpoint climb_dom (fuel : nat) (impl : nir_function_impl) (b : nat) (limit : Z) : outcome nat :=
  let! blk := deref impl b in
  if index blk >? limit then
    match fuel, imm_dom blk with
    | O, _ => Out_of_fuel
    | S _, None => Assert_failed
    | S fuel, Some b => climb_dom fuel impl b limit
    end
  else Ret b.

Fixpoint intersect (fuel : nat) (impl : nir_function_impl) (b1 b2 : nat) : outcome nat :=
  if decide (b1 = b2) then Ret b1 else
  match fuel with
  | O => Out_of_fuel
  | S fuel =>
      let! blk2 := deref impl b2 in
      let! b1 := climb_dom (length (blocks impl)) impl b1 (index blk2) in
      let! blk1 := deref impl b1 in
      let! b2 := climb_dom (length (blocks impl)) impl b2 (index blk1) in
      intersect fuel impl b1 b2
  end.

(** One round of the loop over the predecessors. *)
Definition join_pred (impl : nir_function_impl) (pred : nat) (new_idom : option nat) : outcome (option nat) :=
  let! blk := deref impl pred in
  match imm_dom blk, new_idom with
  | None, _ => Ret new_idom
  | Some _, None => Ret (Some pred)
  | Some _, Some b => omap_out Some (intersect (length (blocks impl)) impl pred b)
  end.

Definition calc_dominance (b : nat) (impl : nir_function_impl) : outcome (bool * nir_function_impl) :=
  let! blk := deref impl b in
  let! new_idom := for_each (join_pred impl) (predecessors blk) None in
  if decide (imm_dom blk = new_idom) then Ret (false, impl)
  else Ret (true, set_block b (fun blk => blk <| imm_dom := new_idom |>) impl).

(** One round over all blocks. *)
Definition dominance_round (impl : nir_function_impl) : outcome (bool * nir_function_impl) :=
  nir_foreach_block (fun b '(progress, impl) =>
    if decide (b = nir_start_block) then Ret (progress, impl)
    else
      let! (p, impl) := calc_dominance b impl in
      Ret (progress || p, impl)) (length (blocks impl)) (false, impl).

(** [while (progress) ...] *)
Fixpoint dominance_loop (fuel : nat) (impl : nir_function_impl) : outcome nir_function_impl :=
  match fuel with
  | O => Out_of_fuel
  | S fuel =>
      let! (progress, impl) := dominance_round impl in
      if (progress : bool) then dominance_loop fuel impl else Ret impl
  end.

(** [_mesa_set_add] *)
Definition set_add (x : nat) (s : list nat) : list nat := if decide (x ∈ s) then s else s ++ [x].

(** [while (runner != block->imm_dom) ...] *)
Fixpoint run_up (fuel : nat) (b : nat) (stop : option nat) (runner : option nat) (impl : nir_function_impl)
    : outcome nir_function_impl :=
  if decide (runner = stop) then Ret impl else
  match fuel, runner with
  | O, _ => Out_of_fuel
  | S _, None => Assert_failed
  | S fuel, Some r =>
      let! blk := deref impl r in
      run_up fuel b stop (imm_dom blk) (set_block r (fun blk => blk <| dom_frontier := set_add b (dom_frontier blk) |>) impl)
  end.

Definition calc_dom_frontier (b : nat) (impl : nir_function_impl) : outcome nir_function_impl :=
  let! blk := deref impl b in
  if (1 <? length (predecessors blk))%nat then
    for_each (fun pred impl =>
      let! r := deref impl pred in
      match imm_dom r with
      | None => Ret impl
      | Some _ => run_up (length (blocks impl)) b (imm_dom blk) (Some pred) impl
      end) (predecessors blk) impl
  else Ret impl.

(** The three loops of [calc_dom_children]. *)
Definition count_child (b : nat) (impl : nir_function_impl) : outcome nir_function_impl :=
  let! blk := deref impl b in
  match imm_dom blk with
  | None => Ret impl
  | Some p => Ret (set_block p (fun blk => blk <| num_dom_children := u32 (num_dom_children blk + 1) |>) impl)
  end.

Definition alloc_children (b : nat) (impl : nir_function_impl) : outcome nir_function_impl :=
  let! blk := deref impl b in
  Ret (set_block b (fun blk => blk <| dom_children := replicate (Z.to_nat (num_dom_children blk)) O |> <| num_dom_children := 0 |>) impl).

(** A store outside the array has no result. *)
Definition add_dom_child (b : nat) (impl : nir_function_impl) : outcome nir_function_impl :=
  let! blk := deref impl b in
  match imm_dom blk with
  | None => Ret impl
  | Some p =>
      let! parent := deref impl p in
      assert! (num_dom_children parent <? Z.of_nat (length (dom_children parent))) ;;
      Ret (set_block p (fun blk =>
        blk <| dom_children := <[Z.to_nat (num_dom_children blk) := b]> (dom_children blk) |>
            <| num_dom_children := u32 (num_dom_children blk + 1) |>) impl)
  end.

Definition calc_dom_children (impl : nir_function_impl) : outcome nir_function_impl :=
  let n := length (blocks impl) in
  let! impl := nir_foreach_block count_child n impl in
  let! impl := nir_foreach_block alloc_children n impl in
  nir_foreach_block add_dom_child n impl.

(** The recursion is as deep as the tree. *)
Fixpoint calc_dfs_indicies (fuel : nat) (b : nat) (st : nir_function_impl * Z) : outcome (nir_function_impl * Z) :=
  match fuel with
  | O => Out_of_fuel
  | S fuel =>
      let (impl, idx) := st in
      let! blk := deref impl b in
      let impl := set_block b (fun blk => blk <| dom_pre_index := idx |>) impl in
      let! (impl, idx) := for_each (calc_dfs_indicies fuel) (take (Z.to_nat (num_dom_children blk)) (dom_children blk)) (impl, u32 (idx + 1)) in
      Ret (set_block b (fun blk => blk <| dom_post_index := idx |>) impl, u32 (idx + 1))
  end.

Definition nir_calc_dominance_impl (impl : nir_function_impl) : outcome nir_function_impl :=
  if negb (Z.land (valid_metadata impl) nir_metadata_dominance =? 0) then Ret impl else
  let impl := require_block_index impl in
  let n := length (blocks impl) in
  let! impl := nir_foreach_block (fun b impl => Ret (init_block b impl)) n impl in
  let! impl := dominance_loop (n + 2) impl in
  let! impl := nir_foreach_block calc_dom_frontier n impl in
  let impl := set_block nir_start_block (fun blk => blk <| imm_dom := None |>) impl in
  let! impl := calc_dom_children impl in
  omap_out fst (calc_dfs_indicies n nir_start_block (impl, 0)).

(** [nir_metadata_require(impl, nir_metadata_dominance)] *)
Definition require_dominance (impl : nir_function_impl) : outcome nir_function_impl :=
  let! impl := if Z.land (valid_metadata impl) nir_metadata_dominance =? 0 then nir_calc_dominance_impl impl else Ret impl in
  Ret (impl <| valid_metadata := Z.lor (valid_metadata impl) nir_metadata_dominance |>).

(** ** Queries *)

Definition nir_dominance_lca (impl : nir_function_impl) (b1 b2 : option nat) : outcome (option nat) :=
  match b1, b2 with
  | None, _ => Ret b2
  | _, None => Ret b1
  | Some b1, Some b2 =>
      assert! (negb (Z.land (valid_metadata impl) nir_metadata_dominance =? 0)) ;;
      omap_out Some (intersect (length (blocks impl)) impl b1 b2)
  end.

Definition nir_block_dominates (impl : nir_function_impl) (parent child : nat) : outcome bool :=
  assert! (negb (Z.land (valid_metadata impl) nir_metadata_dominance =? 0)) ;;
  let! p := deref impl parent in
  let! c := deref impl child in
  Ret ((dom_pre_index c >=? dom_pre_index p) && (dom_post_index c <=? dom_post_index p)).
