(* ===== verification/NirDomTree.v ===== *)
(** * The dominance iteration of nir_dominance.c reaches the dominators *)

From stdpp Require Import base list sets numbers.
From Stdlib Require Import ZArith Lia.
From S2P Require Import Prelude NirCfg NirImpl Dominators NirDominance.
#[local] Open Scope nat_scope.
#[local] Open Scope c_scope.

(** ** The members of the blocks *)

(** The table of immediate dominators. *)
Definition idoms (impl : nir_function_impl) : table := fun b => blocks impl !! b ≫= imm_dom.

(** All of the function but the immediate dominators. *)
Definition erase_idoms (impl : nir_function_impl) : nir_function_impl :=
  impl <| blocks := (fun blk => blk <| imm_dom := None |>) <$> blocks impl |>.

Lemma erase_lookup impl impl' b blk' :
  erase_idoms impl' = erase_idoms impl -> blocks impl' !! b = Some blk' ->
  exists blk, blocks impl !! b = Some blk /\ blk' = blk <| imm_dom := imm_dom blk' |>.
Proof.
  intros E H. apply (f_equal blocks) in E. cbn in E. apply (f_equal (fun l => l !! b)) in E. rewrite !list_lookup_fmap, H in E.
  destruct (blocks impl !! b) as [blk|]; [|discriminate]. exists blk. split; [reflexivity|]. destruct blk', blk. cbn in E |- *. simplify_eq. reflexivity.
Qed.

Lemma erase_length impl impl' : erase_idoms impl' = erase_idoms impl -> length (blocks impl') = length (blocks impl).
Proof. intros E. apply (f_equal (fun i => length (blocks i))) in E. cbn in E. now rewrite !length_fmap in E. Qed.

Lemma erase_linked impl impl' body : erase_idoms impl' = erase_idoms impl -> linked impl body -> linked impl' body.
Proof.
  intros E [Hl Hp]. split; [rewrite (erase_length impl impl' E); assumption|].
  intros b blk H. destruct (erase_lookup impl impl' b blk E H) as (blk0 & H0 & ->). cbn. now apply (Hp b).
Qed.

Lemma erase_indexed impl impl' : erase_idoms impl' = erase_idoms impl -> indexed impl -> indexed impl'.
Proof. intros E Hi b blk H. destruct (erase_lookup impl impl' b blk E H) as (blk0 & H0 & ->). cbn. now apply Hi. Qed.

Lemma erase_set_idom impl b x : erase_idoms (set_block b (fun blk => blk <| imm_dom := x |>) impl) = erase_idoms impl.
Proof.
  unfold erase_idoms, set_block, update. cbn. f_equal. apply list_eq. intros i. rewrite !list_lookup_fmap.
  destruct (decide (i = b)) as [->|Hne]; [rewrite list_lookup_alter_eq | rewrite list_lookup_alter_ne by auto; reflexivity].
  destruct (blocks impl !! b); reflexivity.
Qed.

Lemma idoms_set impl b x c : b < length (blocks impl) ->
  idoms (set_block b (fun blk => blk <| imm_dom := x |>) impl) c = if decide (c = b) then x else idoms impl c.
Proof.
  intros Hb. unfold idoms, set_block. cbn. case_decide_eq; [subst c | now rewrite list_lookup_alter_ne by auto].
  rewrite list_lookup_alter_eq. destruct (lookup_lt_is_Some_2 _ _ Hb) as [blk ->]. reflexivity.
Qed.

Lemma idoms_lookup impl b : idoms impl b <> None -> b < length (blocks impl).
Proof. unfold idoms. destruct (blocks impl !! b) eqn:H; [intros _; now apply lookup_lt_Some in H | intros Hn; now destruct Hn]. Qed.

(** ** Climbing the tree *)

Section climb.
Context (edge : nat -> nat -> Prop) (impl : nir_function_impl) (D : table).
Context (Hind : indexed impl) (HD : tree_ok edge D) (Hagree : forall b, b <> 0 -> idoms impl b = D b).
Context (Hrange : forall b, D b <> None -> b < length (blocks impl)).

Lemma block_of b : D b <> None -> exists blk, blocks impl !! b = Some blk /\ index blk = Z.of_nat b /\ (b <> 0 -> imm_dom blk = D b).
Proof.
  intros Hb. destruct (lookup_lt_is_Some_2 _ _ (Hrange b Hb)) as [blk H]. exists blk. split; [assumption|]. split; [now apply Hind|].
  intros H0. rewrite <- (Hagree b H0). unfold idoms. now rewrite H.
Qed.

Lemma climb_spec fuel : forall b k, b <= fuel -> D b <> None ->
  exists c, climb_dom fuel impl b (Z.of_nat k) = Ret c /\ chain D b c /\ c <= k /\ forall d, chain D b d -> d <= k -> chain D c d.
Proof.
  induction fuel as [|fuel IH]; intros b k Hf Hb; destruct (block_of b Hb) as (blk & Hl & Hi & Hd); cbn [climb_dom];
    rewrite (deref_lookup _ _ _ Hl); cbn [obind]; rewrite Hi, Z.gtb_ltb; destruct (Z.ltb_spec (Z.of_nat k) (Z.of_nat b)) as [Hlt|Hle].
  - lia.
  - exists b. split; [reflexivity|]. split; [constructor|]. auto with lia.
  - rewrite Hd by lia. destruct (D b) as [p|] eqn:Hp; [|contradiction]. destruct (tree_up _ D HD b p ltac:(lia) Hp) as (Hpb & _ & Hpd).
    destruct (IH p k ltac:(lia) Hpd) as (c & Hc & Hch & Hck & Hall). exists c. split; [assumption|].
    split; [apply (chain_up D b p); auto with lia|]. split; [assumption|]. intros d Hbd Hdk. apply Hall; [|assumption].
    inversion Hbd as [|? p' ? ? Hp' H]; subst; [lia|]. rewrite Hp in Hp'. now injection Hp' as <-.
  - exists b. split; [reflexivity|]. split; [constructor|]. auto with lia.
Qed.

Lemma lca_climbed b1 b2 c1 c2 z : chain D b1 c1 -> chain D b2 c2 -> (forall d, chain D b1 d -> d <= b2 -> chain D c1 d) ->
  (forall d, chain D b2 d -> d <= c1 -> chain D c2 d) -> is_lca D [c1; c2] z -> is_lca D [b1; b2] z.
Proof.
  intros H1 H2 Ha1 Ha2 Hz d. rewrite (Hz d). split.
  - intros H p Hp. rewrite !elem_of_cons, elem_of_nil in Hp. destruct Hp as [->|[->|[]]]; [apply (chain_trans D _ c1) | apply (chain_trans D _ c2)];
      try assumption; apply H; rewrite !elem_of_cons; auto.
  - intros H p Hp. assert (Hd1 : chain D b1 d) by (apply H; rewrite !elem_of_cons; auto). assert (Hd2 : chain D b2 d) by (apply H; rewrite !elem_of_cons; auto).
    assert (Hc1 : chain D c1 d) by (apply Ha1; [assumption | now apply (chain_le edge D)]).
    rewrite !elem_of_cons, elem_of_nil in Hp. destruct Hp as [->|[->|[]]]; [assumption|]. apply Ha2; [assumption | now apply (chain_le edge D)].
Qed.

Lemma lca_self b : is_lca D [b; b] b.
Proof. intros d. split; [intros H p Hp | intros H; apply H; rewrite elem_of_cons; auto]. rewrite !elem_of_cons, elem_of_nil in Hp. now destruct Hp as [->|[->|[]]]. Qed.

Lemma intersect_spec fuel : forall b1 b2, b1 <= fuel -> b2 <= fuel -> D b1 <> None -> D b2 <> None ->
  exists z, intersect fuel impl b1 b2 = Ret z /\ is_lca D [b1; b2] z.
Proof.
  induction fuel as [|fuel IH]; intros b1 b2 Hf1 Hf2 H1 H2; cbn [intersect]; destruct (decide (b1 = b2)) as [->|Hne];
    try (exists b2; split; [reflexivity | apply lca_self]); [lia|].
  destruct (block_of b2 H2) as (blk2 & Hl2 & Hi2 & _). rewrite (deref_lookup _ _ _ Hl2). cbn [obind]. rewrite Hi2.
  destruct (climb_spec (length (blocks impl)) b1 b2 ltac:(specialize (Hrange b1 H1); lia) H1) as (c1 & -> & Hc1 & Hle1 & Ha1). cbn [obind].
  assert (Hd1 : D c1 <> None) by now apply (chain_defined edge D b1). destruct (block_of c1 Hd1) as (blk1 & Hl1 & Hi1 & _).
  rewrite (deref_lookup _ _ _ Hl1). cbn [obind]. rewrite Hi1.
  destruct (climb_spec (length (blocks impl)) b2 c1 ltac:(specialize (Hrange b2 H2); lia) H2) as (c2 & -> & Hc2 & Hle2 & Ha2). cbn [obind].
  assert (Hd2 : D c2 <> None) by now apply (chain_defined edge D b2). apply (chain_le edge D) in Hc1 as Hb1; [|assumption].
  destruct (IH c1 c2 ltac:(lia) ltac:(lia) Hd1 Hd2) as (z & Hz & Hlca). exists z. split; [assumption|]. now apply (lca_climbed b1 b2 c1 c2).
Qed.

Lemma lca_add ps b z z' : is_lca D ps z -> is_lca D [b; z] z' -> is_lca D (b :: ps) z'.
Proof.
  intros Hz Hz' d. rewrite (Hz' d). split.
  - intros H p [->|Hp]%elem_of_cons; [apply H; rewrite elem_of_cons; auto|]. apply (proj1 (Hz d)); [|assumption]. apply H. rewrite !elem_of_cons. auto.
  - intros H p. rewrite !elem_of_cons, elem_of_nil. intros [->|[->|[]]]; [apply H; rewrite elem_of_cons; auto|]. apply Hz. intros q Hq. apply H. rewrite elem_of_cons. auto.
Qed.

(** The loop over the predecessors computes the last common member of the
    chains of those that have a parent. *)
Lemma join_preds preds : (forall p, p ∈ preds -> p < length (blocks impl) /\ (p = 0 -> imm_dom <$> blocks impl !! p = Some (D p))) ->
  exists ps, (forall p, p ∈ ps <-> p ∈ preds /\ D p <> None) /\
  match ps with
  | [] => for_each (join_pred impl) preds None = Ret None
  | _ => exists z, for_each (join_pred impl) preds None = Ret (Some z) /\ is_lca D ps z
  end.
Proof.
  intros Hp. set (J := fun (done : list nat) (r : option nat) => exists ps, (forall p, p ∈ ps <-> p ∈ done /\ D p <> None) /\
    match ps with [] => r = None | _ => exists z, r = Some z /\ is_lca D ps z /\ D z <> None end).
  assert (Hstep : forall a done r, a ∈ preds -> J done r -> exists r', join_pred impl a r = Ret r' /\ J (a :: done) r').
  { intros a done r Ha (ps & Hps & Hr). destruct (Hp a Ha) as [Hlt H0]. destruct (lookup_lt_is_Some_2 _ _ Hlt) as [blk Hblk].
    assert (Hid : imm_dom blk = D a).
    { destruct (decide (a = 0)) as [E|Hne]; [|rewrite <- (Hagree a Hne); unfold idoms; now rewrite Hblk].
      specialize (H0 E). rewrite Hblk in H0. now injection H0. }
    unfold join_pred. rewrite (deref_lookup _ _ _ Hblk). cbn [obind]. rewrite Hid. destruct (D a) as [x|] eqn:Hx.
    - assert (Hx' : D a <> None) by congruence. destruct ps as [|q ps].
      + subst r. exists (Some a). split; [reflexivity|]. exists [a]. split.
        * intros p. rewrite !elem_of_cons, elem_of_nil. specialize (Hps p). rewrite elem_of_nil in Hps. split; [|tauto]. intros [->|[]]. auto.
        * exists a. split; [reflexivity|]. split; [|assumption]. intros d. split; [intros H p Hin | intros H; apply H; rewrite elem_of_cons; auto].
          rewrite elem_of_cons, elem_of_nil in Hin. now destruct Hin as [->|[]].
      + destruct Hr as (z & -> & Hz & Hzd). destruct (intersect_spec (length (blocks impl)) a z) as (z' & -> & Hz'); [lia | specialize (Hrange z Hzd); lia | assumption..|].
        exists (Some z'). split; [reflexivity|]. exists (a :: q :: ps). split.
        * intros p. rewrite (elem_of_cons _ p a), (elem_of_cons done p a), Hps. split; [intros [->|[]]; auto | intros [[->|] ]; auto].
        * exists z'. split; [reflexivity|]. split; [now apply (lca_add _ _ z)|]. apply (chain_defined edge D a); [assumption..|].
          apply (proj1 (Hz' z')); [constructor | rewrite elem_of_cons; auto].
    - exists r. split; [reflexivity|]. exists ps. split; [|assumption]. intros p. rewrite elem_of_cons, Hps. split; [tauto|]. intros [[->|] ]; [contradiction | auto]. }
  assert (Hall : forall l done r, l ⊆ preds -> J done r -> exists r', for_each (join_pred impl) l r = Ret r' /\ J (reverse l ++ done) r').
  { induction l as [|a l IH]; intros done r Hsub Hr; [exists r; auto|]. cbn [for_each]. rewrite reverse_cons.
    destruct (Hstep a done r (Hsub a ltac:(rewrite elem_of_cons; auto)) Hr) as (r1 & -> & H1). cbn [obind].
    destruct (IH (a :: done) r1) as (r2 & -> & H2); [intros x Hx; apply Hsub; rewrite elem_of_cons; auto | assumption|].
    exists r2. split; [reflexivity|]. now rewrite <- app_assoc. }
  destruct (Hall preds [] None) as (r & E & ps & Hps & Hr); [auto | exists []; split; [|reflexivity] |].
  - intros p. rewrite elem_of_nil. tauto.
  - exists ps. split.
    + intros p. now rewrite Hps, app_nil_r, elem_of_reverse.
    + destruct ps; [now subst r|]. destruct Hr as (z & -> & Hz & _). eauto.
Qed.
End climb.

(** ** The iteration *)

Lemma edge_range body u v : nir_edge body u v -> u < list_blocks body /\ v < list_blocks body.
Proof. intros (s & H & _ & Hv). split; [|assumption]. apply lookup_lt_Some in H. unfold nir_successors in H. now rewrite (proj1 length_successors) in H. Qed.

(** Where a round or a part of it may have changed the function. *)
Definition iterating (body : cf_list) (impl0 : nir_function_impl) (i b : nat) (impl : nir_function_impl) : Prop :=
  erase_idoms impl = erase_idoms impl0 /\ iter_ok (nir_edge body) i b (idoms impl).

Section iteration.
Context (body : cf_list) (impl0 : nir_function_impl) (Hlink : linked impl0 body) (Hind : indexed impl0).
Let n := length (blocks impl0).
Let edge := nir_edge body.

Lemma ord : ordered edge.
Proof. apply structured_order. Qed.

Lemma n_blocks : n = list_blocks body.
Proof. apply Hlink. Qed.

Lemma preds_of impl b : erase_idoms impl = erase_idoms impl0 -> b < n -> idoms impl 0 = Some 0 ->
  exists blk, blocks impl !! b = Some blk /\ (forall p, p ∈ predecessors blk <-> edge p b) /\
  (forall p, p ∈ predecessors blk -> p < length (blocks impl) /\ (p = 0 -> imm_dom <$> blocks impl !! p = Some (idoms impl p))).
Proof.
  intros E Hb H0. unfold n in Hb. rewrite <- (erase_length _ _ E) in Hb. destruct (lookup_lt_is_Some_2 _ _ Hb) as [blk Hblk]. exists blk.
  destruct (erase_linked _ _ _ E Hlink) as [Hlen Hp]. destruct (Hp b blk Hblk) as [_ Hpr].
  split; [assumption|]. split; [assumption|]. intros p [Hr _]%Hpr%edge_range. rewrite <- Hlen in Hr. split; [assumption|].
  intros ->. unfold idoms in *. destruct (blocks impl !! 0); [reflexivity | discriminate].
Qed.

(** [calc_dominance] on a block other than the first. *)
Lemma calc_dominance_spec impl i b : b < n -> b <> 0 -> iterating body impl0 i b impl ->
  exists p impl', calc_dominance b impl = Ret (p, impl') /\ iterating body impl0 i (S b) impl' /\ (p = false -> impl' = impl).
Proof.
  intros Hb Hb0 [E HI]. pose proof (io_tree _ _ _ _ HI) as Ht. destruct (preds_of impl b E Hb (tree_start _ _ Ht)) as (blk & Hblk & Hpr & Hpre).
  unfold calc_dominance. rewrite (deref_lookup _ _ _ Hblk). cbn [obind].
  destruct (join_preds edge impl (idoms impl) (erase_indexed _ _ E Hind) Ht (fun _ _ => eq_refl) (idoms_lookup impl) (predecessors blk) Hpre) as (ps & Hps & Hj).
  assert (Hps' : forall p, p ∈ ps <-> edge p b /\ idoms impl p <> None) by (intros p; now rewrite Hps, Hpr).
  assert (Hib : idoms impl b = imm_dom blk) by (unfold idoms; now rewrite Hblk).
  destruct ps as [|p0 ps0] eqn:Eps.
  - rewrite Hj. cbn [obind]. pose proof (process_none edge ord i b (idoms impl) HI Hb0 [] Hps' eq_refl) as Hun.
    assert (Hnone : imm_dom blk = None).
    { rewrite <- Hib. destruct (idoms impl b) eqn:Hd; [|reflexivity]. destruct Hun. apply (defined_reachable edge (idoms impl)); [assumption | congruence]. }
    rewrite decide_True by assumption. exists false, impl. split; [reflexivity|]. split; [|auto]. split; [assumption|]. now apply process_skip.
  - destruct Hj as (z & -> & Hz). cbn [obind].
    pose proof (process_block edge ord i b (idoms impl) HI Hb0 (p0 :: ps0) Hps' z ltac:(discriminate) Hz) as Hnew.
    assert (Hlb : b < length (blocks impl)) by (rewrite (erase_length _ _ E); assumption).
    destruct (decide (imm_dom blk = Some z)) as [Heq|Hneq].
    + exists false, impl. split; [reflexivity|]. split; [|auto]. split; [assumption|].
      revert Hnew. apply iter_ext. intros c. case_decide_eq; [subst c; congruence | reflexivity].
    + eexists true, _. split; [reflexivity|]. split; [|discriminate]. split; [now rewrite erase_set_idom|].
      revert Hnew. apply iter_ext. intros c. now rewrite idoms_set.
Qed.

Lemma iterating_length i b impl : iterating body impl0 i b impl -> length (blocks impl) = n.
Proof. intros [E _]. exact (erase_length _ _ E). Qed.

Lemma n_pos : 0 < n.
Proof. rewrite n_blocks. apply blocks_pos. Qed.

Lemma edge_n u v : edge u v -> v < n.
Proof. rewrite n_blocks. apply edge_range. Qed.

Lemma round_spec impl i : iterating body impl0 i 0 impl ->
  exists p impl', dominance_round impl = Ret (p, impl') /\ iterating body impl0 (S i) 0 impl' /\ (p = false -> impl' = impl).
Proof.
  intros HI. unfold dominance_round. rewrite (iterating_length i 0 impl HI). pose proof n_pos as Hn.
  destruct (foreach_block_inv (fun b (st : bool * nir_function_impl) => iterating body impl0 i b st.2 /\ (st.1 = false -> st.2 = impl))
    (fun b '(progress, impl) => if decide (b = nir_start_block) then Ret (progress, impl)
       else let! (p, impl) := calc_dominance b impl in Ret (progress || p, impl))%bool n (false, impl)) as ([p impl'] & E & [HE HI'] & Hp).
  - split; [exact HI | reflexivity].
  - intros b [p im] Hb [H1 H2]. cbn in H1, H2. destruct (decide (b = nir_start_block)) as [->|Hne].
    + eexists. split; [reflexivity|]. split; [|exact H2]. destruct H1 as [HE H1]. split; [assumption|]. now apply iter_skip_start.
    + destruct (calc_dominance_spec im i b Hb Hne H1) as (q & im' & -> & H3 & H4). eexists. split; [reflexivity|]. split; [exact H3|].
      cbn. intros [-> ->]%orb_false_iff. rewrite (H4 eq_refl). auto.
  - exists p, impl'. split; [assumption|]. split; [|assumption]. split; [assumption|]. apply (iter_round edge i n); [|exact edge_n | exact Hn | assumption].
    intros c Hc. unfold n. rewrite <- (erase_length _ _ HE). now apply idoms_lookup.
Qed.

(** After as many rounds as there are blocks nothing changes any more. *)
Lemma round_stable impl i : n <= i -> iterating body impl0 i 0 impl -> dominance_round impl = Ret (false, impl).
Proof.
  intros Hle HI. unfold dominance_round. rewrite (iterating_length i 0 impl HI). destruct HI as [E HI].
  pose proof (io_tree _ _ _ _ HI) as Ht.
  destruct (foreach_block_inv (fun b (st : bool * nir_function_impl) => st = (false, impl))
    (fun b '(progress, impl) => if decide (b = nir_start_block) then Ret (progress, impl)
       else let! (p, impl) := calc_dominance b impl in Ret (progress || p, impl))%bool n (false, impl)) as (st & Est & Hst); [reflexivity | |now rewrite Est, Hst].
  intros b st Hb ->. exists (false, impl). split; [|reflexivity]. destruct (decide (b = nir_start_block)) as [|Hb0]; [reflexivity|].
  destruct (preds_of impl b E Hb (tree_start _ _ Ht)) as (blk & Hblk & Hpr & Hpre).
  assert (Hib : idoms impl b = imm_dom blk) by (unfold idoms; now rewrite Hblk).
  unfold calc_dominance. rewrite (deref_lookup _ _ _ Hblk). cbn [obind].
  destruct (join_preds edge impl (idoms impl) (erase_indexed _ _ E Hind) Ht (fun _ _ => eq_refl) (idoms_lookup impl) (predecessors blk) Hpre) as (ps & Hps & Hj).
  assert (Hps' : forall p, p ∈ ps <-> edge p b /\ idoms impl p <> None) by (intros p; now rewrite Hps, Hpr).
  assert (Hdefd : forall p, idoms impl p <> None -> nir_reachable edge p) by (intros p; now apply (defined_reachable edge (idoms impl))).
  destruct ps as [|p0 ps0].
  - rewrite Hj. cbn [obind]. rewrite decide_True; [reflexivity|]. rewrite <- Hib. destruct (idoms impl b) as [x|] eqn:Hd; [|reflexivity].
    assert (Hr : nir_reachable edge b) by (apply Hdefd; congruence). destruct (ord b Hr Hb0) as (p & Hp & Hpe & _).
    destruct (not_elem_of_nil p). apply Hps'. split; [assumption|]. apply (io_done _ _ _ _ HI); [assumption|]. right. left. pose proof n_pos. lia.
  - destruct Hj as (z & -> & Hz). cbn [obind]. rewrite decide_True; [reflexivity|]. rewrite <- Hib.
    destruct (proj1 (Hps' p0) ltac:(apply elem_of_cons; auto)) as [Hpe Hpd].
    apply (iter_stable edge n i (idoms impl) b (p0 :: ps0) z); try assumption; [exact ord | exact edge_n | exact n_pos | apply (reachable_edge _ p0); auto | discriminate].
Qed.

(** The state the loop ends in: its chains are the dominators. *)
Definition settled (impl : nir_function_impl) : Prop := exists i, n <= i /\ iterating body impl0 i 0 impl.

Lemma loop_spec fuel : forall impl i, n + 1 <= fuel + i -> 0 < fuel -> iterating body impl0 i 0 impl ->
  exists impl', dominance_loop fuel impl = Ret impl' /\ settled impl'.
Proof.
  induction fuel as [|fuel IH]; intros impl i Hf H0 HI; [lia|]. cbn [dominance_loop].
  destruct (round_spec impl i HI) as (p & impl' & E & HI' & Hp). rewrite E. cbn [obind]. destruct p.
  - destruct (decide (n <= i)) as [Hge|Hlt]; [rewrite (round_stable impl i Hge HI) in E; discriminate|].
    apply (IH impl' (S i)); [lia | lia | assumption].
  - exists impl'. split; [reflexivity|]. rewrite (Hp eq_refl) in *. clear Hp Hf H0 IH.
    destruct (decide (n <= i)) as [Hge|Hlt]; [exists i; auto|].
    assert (Hk : forall k, iterating body impl0 (i + k) 0 impl); [|exists (i + n); split; [lia | apply Hk]].
    induction k as [|k IHk]; [now rewrite Nat.add_0_r|]. destruct (round_spec impl (i + k) IHk) as (q & im & E2 & H2 & _).
    rewrite E in E2. injection E2 as <- <-. now rewrite <- plus_n_Sm.
Qed.
End iteration.
