(* ===== verification/NirDomFrontier.v ===== *)
(** * Dominance frontiers and children in the dominance tree (nir_dominance.c) *)

From stdpp Require Import base list sets numbers.
From Stdlib Require Import ZArith Lia.
From S2P Require Import Prelude NirCfg NirImpl Dominators NirDominance NirDomTree.
#[local] Open Scope nat_scope.
#[local] Open Scope c_scope.

(** ** Frontiers *)

Definition no_frontier (blk : nir_block) : nir_block := blk <| dom_frontier := [] |>.

Definition frontier (impl : nir_function_impl) (b : nat) : list nat := default [] (member dom_frontier impl b).

Lemma set_add_elem x y s : y ∈ set_add x s <-> y = x \/ y ∈ s.
Proof. unfold set_add. destruct (decide (x ∈ s)) as [H|H]; [split; [auto | intros [->|]; auto]|]. rewrite elem_of_app, elem_of_cons, elem_of_nil. tauto. Qed.

Section frontier.
Context (edge : nat -> nat -> Prop) (impl0 : nir_function_impl).
Let D := idoms impl0.
Context (HD : tree_ok edge D).

Lemma idom_kept impl b : same_but no_frontier impl0 impl -> imm_dom <$> blocks impl !! b = imm_dom <$> blocks impl0 !! b.
Proof. intros H. apply (same_but_member _ _ _ _ _ H). intros [] [] [=]. assumption. Qed.

Lemma deref_idom impl b : same_but no_frontier impl0 impl -> D b <> None -> exists blk, deref impl b = Ret blk /\ imm_dom blk = D b.
Proof.
  intros H Hb. pose proof (idom_kept impl b H) as E. unfold D, idoms in *. destruct (blocks impl0 !! b) as [x|]; [|now destruct Hb].
  unfold deref. destruct (blocks impl !! b) as [y|]; [|discriminate]. exists y. split; [reflexivity|]. now injection E.
Qed.

Lemma run_up_spec fuel b s : forall impl r, same_but no_frontier impl0 impl -> chain D r s -> D r <> None -> r <= fuel + s ->
  exists impl', run_up fuel b (Some s) (Some r) impl = Ret impl' /\ same_but no_frontier impl0 impl' /\
  forall c x, x ∈ frontier impl' c <-> x ∈ frontier impl c \/ x = b /\ chain D r c /\ s < c.
Proof.
  induction fuel as [|fuel IH]; intros impl r Hs Hc Hr Hf; cbn [run_up]; destruct (decide (Some r = Some s)) as [[= ->]|Hne].
  1, 3: exists impl; split; [reflexivity|]; split; [assumption|]; intros c x; split; [auto|]; intros [|(_ & H1 & H2)]; [assumption|];
        apply (chain_le edge D) in H1; [lia | assumption].
  - apply (chain_le edge D) in Hc; [|assumption]. destruct Hne. f_equal. lia.
  - destruct (deref_idom impl r Hs Hr) as (blk & -> & Hblk). cbn [obind].
    inversion Hc as [|? p ? Hr0 Hp Hps]; subst; [now destruct Hne|]. rewrite Hblk, Hp.
    destruct (tree_up _ D HD r p Hr0 Hp) as (Hlt & _ & Hpd). set (im := set_block r _ impl).
    assert (Him : same_but no_frontier impl0 im) by (etransitivity; [exact Hs | now apply same_but_set]).
    destruct (IH im p Him Hps Hpd ltac:(lia)) as (impl' & -> & Hs' & Hx). exists impl'. split; [reflexivity|]. split; [assumption|].
    intros c x. rewrite Hx. apply (chain_le edge D) in Hps as Hsp; [|assumption]. unfold im at 1, frontier at 1. rewrite member_set. destruct (decide (c = r)) as [->|Hcr].
    + unfold frontier, member. destruct (blocks impl !! r) as [y|] eqn:Ey; cbn.
      * rewrite set_add_elem. split; [intros [[->|]|(-> & H1 & H2)] | intros [|(-> & _ & _)]]; auto.
        -- right. split; [reflexivity|]. split; [constructor | lia].
        -- apply (chain_le edge D) in H1; [lia | assumption].
      * pose proof (idom_kept impl r Hs) as E. rewrite Ey in E. unfold D, idoms in Hr. destruct (blocks impl0 !! r); [discriminate | now destruct Hr].
    + fold (frontier impl c). split; intros [|(-> & H1 & H2)]; auto; right; split; auto; split; auto.
      * now apply (chain_up D r p).
      * inversion H1 as [|? p' ? ? Hp' H3]; subst; [contradiction|]. rewrite Hp in Hp'. now injection Hp' as <-.
Qed.

(** The table is the final one. *)
Context (Hdef : forall b, D b <> None <-> nir_reachable edge b).
Context (Hfin : forall b d, nir_reachable edge b -> (chain D b d <-> dominates edge d b)).
Context (Hpreds : forall b blk, blocks impl0 !! b = Some blk -> NoDup (predecessors blk) /\ forall p, p ∈ predecessors blk <-> edge p b).
Context (Hedge : forall u v, edge u v -> u < length (blocks impl0) /\ v < length (blocks impl0)).

(** [b] is in the frontier of [r]. *)
Definition in_frontier (r b : nat) : Prop :=
  exists p, edge p b /\ nir_reachable edge p /\ dominates edge r p /\ ~ strictly_dominates edge r b.

Lemma idom_dominates b s p : b <> 0 -> D b = Some s -> edge p b -> nir_reachable edge p -> chain D p s.
Proof.
  intros Hb Hs He Hp. apply Hfin; [assumption|]. destruct (tree_up _ D HD b s Hb Hs) as (Hlt & _).
  apply (dominates_pred edge s b p); [|lia | assumption]. apply Hfin; [apply Hdef; congruence|]. apply (chain_up D b s); [assumption.. | constructor].
Qed.

(** The blocks that the loop on the predecessor [p] visits. *)
Lemma frontier_visit b s p r : b <> 0 -> D b = Some s -> edge p b -> nir_reachable edge p ->
  (chain D p r /\ s < r <-> dominates edge r p /\ ~ strictly_dominates edge r b).
Proof.
  intros Hb Hs He Hp. assert (Hbr : nir_reachable edge b) by (apply Hdef; congruence).
  destruct (tree_up _ D HD b s Hb Hs) as (Hlt & _). rewrite <- (Hfin p r Hp). unfold strictly_dominates. rewrite <- (Hfin b r Hbr).
  split; intros [H1 H2]; (split; [assumption|]).
  - intros [Hne Hc]. inversion Hc as [|? s' ? ? Hs' H3]; subst; [contradiction|]. rewrite Hs in Hs'. injection Hs' as <-.
    apply (chain_le edge D) in H3; [lia | assumption].
  - destruct (decide (s < r)) as [|Hge]; [assumption|]. destruct H2. split; [lia|]. apply (chain_up D b s); [assumption..|].
    apply (chain_linear edge D p); [assumption | now apply (idom_dominates b) | assumption | lia].
Qed.

Lemma self_only p : (forall q, edge q p -> q = p) -> p <> 0 -> ~ nir_reachable edge p.
Proof.
  intros Honly Hp H. assert (Hall : forall b, nir_reachable edge b -> b <> p); [|now apply (Hall p)].
  induction 1 as [|u v Hu IH Huv]; intros E; [now destruct Hp|]. subst v. apply IH. now apply Honly.
Qed.

(** The only predecessor of a block has an empty share of its frontier. *)
Lemma single_pred b s p r : b <> 0 -> D b = Some s -> edge p b -> nir_reachable edge p -> (forall q, edge q b -> q = p) ->
  ~ (chain D p r /\ s < r).
Proof.
  intros Hb Hs He Hp Honly [H1 H2]. destruct (tree_up _ D HD b s Hb Hs) as (Hlt & _). assert (Hbr : nir_reachable edge b) by (apply Hdef; congruence).
  assert (Hdom : dominates edge p b).
  { intros l Hl. inversion Hl as [|q b' l' Hl' Hqb]; subst; [contradiction|]. rewrite (Honly q Hqb) in Hl'. apply elem_of_cons. right. now apply (path_elem edge p). }
  apply (Hfin b p Hbr) in Hdom. apply (chain_le edge D) in H1 as Hr; [|assumption].
  inversion Hdom as [|? s' ? ? Hs' H3]; subst.
  - now apply (self_only p).
  - rewrite Hs in Hs'. injection Hs' as <-. apply (chain_le edge D) in H3; [lia | assumption].
Qed.

Lemma visit_preds b l : b <> 0 -> (forall p, p ∈ l -> edge p b) -> forall impl, same_but no_frontier impl0 impl ->
  exists impl', for_each (fun pred impl =>
      let! r := deref impl pred in
      match imm_dom r with None => Ret impl | Some _ => run_up (length (blocks impl)) b (D b) (Some pred) impl end) l impl = Ret impl' /\
  same_but no_frontier impl0 impl' /\
  forall c x, x ∈ frontier impl' c <-> x ∈ frontier impl c \/ x = b /\ exists p, p ∈ l /\ D p <> None /\ chain D p c /\ exists s, D b = Some s /\ s < c.
Proof.
  intros Hb. induction l as [|p l IH]; intros Hl impl Hs.
  - exists impl. split; [reflexivity|]. split; [assumption|]. intros c x. split; [auto|]. intros [|(_ & p & H & _)]; [assumption | now apply not_elem_of_nil in H].
  - assert (He : edge p b) by (apply Hl, elem_of_cons; auto). cbn [for_each].
    assert (Hgo : exists im, (let! r := deref impl p in match imm_dom r with None => Ret impl | Some _ => run_up (length (blocks impl)) b (D b) (Some p) impl end) = Ret im /\
      same_but no_frontier impl0 im /\ forall c x, x ∈ frontier im c <-> x ∈ frontier impl c \/ x = b /\ D p <> None /\ chain D p c /\ exists s, D b = Some s /\ s < c).
    { destruct (Hedge p b He) as [Hp _]. destruct (D p) as [x|] eqn:Ep.
      - assert (Hd : D p <> None) by congruence. apply Hdef in Hd as Hr. destruct (deref_idom impl p Hs Hd) as (blk & -> & Hblk). cbn [obind]. rewrite Hblk, Ep.
        destruct (D b) as [s|] eqn:Es; [|destruct (proj2 (Hdef b)); [now apply (reachable_edge _ p) | assumption]].
        destruct (run_up_spec (length (blocks impl)) b s impl p Hs (idom_dominates b s p Hb Es He Hr) Hd) as (im & -> & H1 & H2).
        + rewrite (same_but_length _ _ _ Hs). lia.
        + exists im. split; [reflexivity|]. split; [assumption|]. intros c y. rewrite H2. split; (intros [|(-> & H3)]; [auto|]; right; split; [reflexivity|]).
          * split; [congruence|]. split; [tauto|]. exists s. tauto.
          * destruct H3 as (_ & H3 & s' & [= <-] & H4). auto.
      - rewrite <- (same_but_length _ _ _ Hs) in Hp. destruct (lookup_lt_is_Some_2 _ _ Hp) as [blk Hblk]. rewrite (deref_lookup _ _ _ Hblk). cbn [obind].
        pose proof (idom_kept impl p Hs) as Ek. rewrite Hblk in Ek. unfold D, idoms in Ep. destruct (blocks impl0 !! p) as [y|]; [|discriminate].
        cbn in Ep, Ek. injection Ek as ->. rewrite Ep. exists impl. split; [reflexivity|]. split; [assumption|]. intros c z. split; [auto|]. intros [|(_ & H & _)]; [assumption | now destruct H]. }
    destruct Hgo as (im & -> & H1 & H2). cbn [obind]. destruct (IH ltac:(intros q Hq; apply Hl, elem_of_cons; auto) im H1) as (impl' & -> & H3 & H4).
    exists impl'. split; [reflexivity|]. split; [assumption|]. intros c x. rewrite H4, H2. split.
    + intros [[|(-> & H)]|(-> & q & Hq & H)]; [auto | right; split; [reflexivity|]; exists p; rewrite elem_of_cons; auto | right; split; [reflexivity|]; exists q; rewrite elem_of_cons; auto].
    + intros [|(-> & q & [->|Hq]%elem_of_cons & H)]; [auto | auto | right; split; [reflexivity|]; eauto].
Qed.

Lemma calc_dom_frontier_spec b impl : same_but no_frontier impl0 impl -> b <> 0 -> b < length (blocks impl0) ->
  exists impl', calc_dom_frontier b impl = Ret impl' /\ same_but no_frontier impl0 impl' /\
  forall c x, x ∈ frontier impl' c <-> x ∈ frontier impl c \/ x = b /\ in_frontier c b.
Proof.
  intros Hs Hb Hlt. rewrite <- (same_but_length _ _ _ Hs) in Hlt. destruct (lookup_lt_is_Some_2 _ _ Hlt) as [blk Hblk].
  destruct (same_but_lookup _ _ _ _ _ Hs Hblk) as (blk0 & Hblk0 & Eg). destruct (Hpreds b blk0 Hblk0) as [Hnd Hpr].
  assert (Ep : predecessors blk = predecessors blk0) by (destruct blk, blk0; now injection Eg).
  assert (Ei : imm_dom blk = D b) by (unfold D, idoms; rewrite Hblk0; destruct blk, blk0; now injection Eg).
  unfold calc_dom_frontier. rewrite (deref_lookup _ _ _ Hblk). cbn [obind]. rewrite Ep, Ei.
  assert (Hin : forall c, in_frontier c b <-> exists p, p ∈ predecessors blk0 /\ D p <> None /\ chain D p c /\ exists s, D b = Some s /\ s < c).
  { intros c. split.
    - intros (p & He & Hp & Hd). destruct (D b) as [s|] eqn:Es; [|destruct (proj2 (Hdef b)); [now apply (reachable_edge _ p) | assumption]].
      apply (frontier_visit b s p c Hb Es He Hp) in Hd as [H1 H2]. exists p. rewrite Hpr. repeat split; [assumption | now apply Hdef | assumption | eauto].
    - intros (p & Hp & Hpd & Hc & s & Es & Hsc). apply Hpr in Hp. apply Hdef in Hpd. exists p. split; [assumption|]. split; [assumption|].
      apply (frontier_visit b s p c Hb Es Hp Hpd). auto. }
  destruct (Nat.ltb_spec 1 (length (predecessors blk0))) as [Hlen|Hlen].
  - destruct (visit_preds b (predecessors blk0) Hb ltac:(intros p; apply Hpr) impl Hs) as (impl' & E & H1 & H2).
    exists impl'. split; [exact E|]. split; [assumption|]. intros c x. now rewrite H2, Hin.
  - exists impl. split; [reflexivity|]. split; [assumption|]. intros c x. split; [auto|]. intros [|(_ & H)]; [assumption|]. exfalso.
    apply Hin in H as (p & Hp & Hpd & Hc & s & Es & Hsc). apply Hdef in Hpd as Hpr'. apply Hpr in Hp as He.
    apply (single_pred b s p c Hb Es He Hpr'); [|auto]. intros q Hq%Hpr.
    destruct (predecessors blk0) as [|a [|a' l]]; cbn in Hlen; [now apply not_elem_of_nil in Hp | | lia].
    rewrite elem_of_cons, elem_of_nil in Hp, Hq. destruct Hp as [->|[]], Hq as [->|[]]. reflexivity.
Qed.
End frontier.

(** ** Children in the dominance tree and their numbering (nir_dominance.c) *)

(** ** Children *)

Definition no_children (blk : nir_block) : nir_block := blk <| num_dom_children := 0%Z |> <| dom_children := [] |>.

Section children.
Context (impl0 : nir_function_impl).
Let E := idoms impl0.
Let n := length (blocks impl0).
Context (Hn : (Z.of_nat n < 2 ^ 32)%Z) (HE : forall b p, E b = Some p -> p < n).
Context (Hzero : forall c, c < n -> member num_dom_children impl0 c = Some 0%Z).

(** The children of [c] among the first [k] blocks. *)
Definition children (k c : nat) : list nat := filter (fun b => E b = Some c) (seq 0 k).
#[local] Arguments children : simpl never.

Lemma children_S k c : children (S k) c = children k c ++ if decide (E k = Some c) then [k] else [].
Proof. unfold children. rewrite seq_S, list.filter_app. cbn. unfold filter, list_filter. now destruct (decide (E k = Some c)). Qed.

Lemma children_le k c : k <= n -> length (children k c) <= length (children n c).
Proof.
  intros Hk. unfold children. replace n with (k + (n - k)) by lia. rewrite seq_app, list.filter_app, length_app. lia.
Qed.

Lemma children_length k c : length (children k c) <= k.
Proof. unfold children. rewrite <- (length_seq k 0) at 2. apply list.length_filter. Qed.

Lemma idom_member im b : same_but no_children impl0 im -> b < n -> exists blk, deref im b = Ret blk /\ blocks im !! b = Some blk /\ imm_dom blk = E b.
Proof.
  intros Hs Hb. pose proof (same_but_member no_children imm_dom impl0 im b Hs) as Hm.
  specialize (Hm ltac:(intros [] [] [=]; assumption)). unfold E, idoms. unfold n in Hb.
  destruct (lookup_lt_is_Some_2 _ _ Hb) as [x Hx]. rewrite Hx in *. destruct (member_deref imm_dom im b (imm_dom x) Hm) as (blk & H1 & H2 & H3). eauto.
Qed.

Lemma count_children : exists im, nir_foreach_block count_child n impl0 = Ret im /\ same_but no_children impl0 im /\
  forall c, c < n -> member num_dom_children im c = Some (Z.of_nat (length (children n c))).
Proof.
  apply (foreach_block_inv (fun k im => same_but no_children impl0 im /\
    forall c, c < n -> member num_dom_children im c = Some (Z.of_nat (length (children k c))))).
  - split; [reflexivity|]. intros c Hc. now apply Hzero.
  - intros k im Hk [Hs Hnum]. destruct (idom_member im k Hs Hk) as (blk & Hd & _ & Hi). unfold count_child. rewrite Hd. cbn [obind]. rewrite Hi.
    destruct (E k) as [p|] eqn:Ep.
    + eexists. split; [reflexivity|]. split; [etransitivity; [exact Hs | now apply same_but_set]|].
      intros c Hc. rewrite member_set, children_S, length_app. specialize (Hnum c Hc). case_decide_eq.
      * subst c. destruct (member_deref _ _ _ _ Hnum) as (y & _ & -> & Hy). cbn. rewrite Hy, decide_True by assumption. f_equal.
        pose proof (children_length k p). cbn. rewrite wrap_small by lia. lia.
      * rewrite Hnum. rewrite decide_False by congruence. f_equal. cbn. lia.
    + exists im. split; [reflexivity|]. split; [assumption|]. intros c Hc. rewrite children_S, decide_False by congruence. rewrite app_nil_r. auto.
Qed.

Lemma alloc_all im : same_but no_children impl0 im ->
  (forall c, c < n -> member num_dom_children im c = Some (Z.of_nat (length (children n c)))) ->
  exists im', nir_foreach_block alloc_children n im = Ret im' /\ same_but no_children impl0 im' /\
  forall c, c < n -> member num_dom_children im' c = Some 0%Z /\ member dom_children im' c = Some (replicate (length (children n c)) 0).
Proof.
  intros Hs Hnum. destruct (foreach_block_inv (fun k im' => same_but no_children impl0 im' /\
    (forall c, c < n -> k <= c -> member num_dom_children im' c = Some (Z.of_nat (length (children n c)))) /\
    (forall c, c < n -> c < k -> member num_dom_children im' c = Some 0%Z /\ member dom_children im' c = Some (replicate (length (children n c)) 0)))
    alloc_children n im) as (im' & H & Hs' & _ & H'); [|intros k y Hk (H1 & H2 & H3)|].
  - split; [assumption|]. split; [auto | intros; lia].
  - destruct (member_deref _ _ _ _ (H2 k Hk ltac:(lia))) as (blk & Hd & Hl & Hm). unfold alloc_children. rewrite Hd. cbn [obind].
    eexists. split; [reflexivity|]. split; [etransitivity; [exact H1 | now apply same_but_set]|]. split.
    + intros c Hc Hle. rewrite member_set. case_decide_eq; [lia|]. apply H2; [assumption | lia].
    + intros c Hc Hlt. rewrite !member_set. case_decide_eq; [|apply H3; [assumption | lia]]. subst c. rewrite Hl. cbn. rewrite Hm, Nat2Z.id. auto.
  - exists im'. split; [assumption|]. split; [assumption|]. intros c Hc. now apply H'.
Qed.

Lemma add_all im : same_but no_children impl0 im ->
  (forall c, c < n -> member num_dom_children im c = Some 0%Z /\ member dom_children im c = Some (replicate (length (children n c)) 0)) ->
  exists im', nir_foreach_block add_dom_child n im = Ret im' /\ same_but no_children impl0 im' /\
  forall c, c < n -> member num_dom_children im' c = Some (Z.of_nat (length (children n c))) /\ member dom_children im' c = Some (children n c).
Proof.
  intros Hs H0. set (room := fun k c => length (children n c) - length (children k c)).
  destruct (foreach_block_inv (fun k im' => same_but no_children impl0 im' /\ forall c, c < n ->
    member num_dom_children im' c = Some (Z.of_nat (length (children k c))) /\ member dom_children im' c = Some (children k c ++ replicate (room k c) 0))
    add_dom_child n im) as (im' & H & Hs' & H').
  - split; [assumption|]. intros c Hc. destruct (H0 c Hc) as [-> ->]. split; [reflexivity|]. cbn. unfold room. cbn. now rewrite Nat.sub_0_r.
  - intros k im' Hk [Hs' Hc']. destruct (idom_member im' k Hs' Hk) as (blk & Hd & _ & Hi). unfold add_dom_child. rewrite Hd. cbn [obind]. rewrite Hi.
    destruct (E k) as [p|] eqn:Ep.
    + assert (Hp : p < n) by now apply (HE k). destruct (Hc' p Hp) as [Hnum Hch]. destruct (member_deref _ _ _ _ Hnum) as (y & Hy & Hly & Hny). rewrite Hy. cbn [obind].
      rewrite (member_lookup dom_children im' p y Hly) in Hch. injection Hch as Hch.
      pose proof (children_le (S k) p ltac:(lia)) as Hle. rewrite children_S, length_app, decide_True in Hle by assumption. cbn in Hle.
      assert (Hroom : room k p = S (room (S k) p)) by (unfold room; rewrite children_S, length_app, decide_True by assumption; cbn; lia).
      rewrite Hny, Hch, length_app, length_replicate. rewrite (proj2 (Z.ltb_lt _ _)) by lia. cbn [c_assert].
      eexists. split; [reflexivity|]. split; [etransitivity; [exact Hs' | now apply same_but_set]|].
      intros c Hcn. rewrite !member_set. case_decide_eq.
      * subst c. rewrite Hly. cbn. rewrite Hny, Hch, Nat2Z.id, children_S, length_app, decide_True by assumption. cbn.
        pose proof (children_length k p). split; [f_equal; rewrite wrap_small by lia; lia|]. f_equal.
        rewrite insert_app_r_alt by lia. rewrite Nat.sub_diag, Hroom. cbn. now rewrite <- app_assoc.
      * destruct (Hc' c Hcn) as [-> ->]. unfold room. rewrite children_S, decide_False by congruence. rewrite app_nil_r. auto.
    + exists im'. split; [reflexivity|]. split; [assumption|]. intros c Hcn. unfold room. rewrite children_S, decide_False by congruence. rewrite app_nil_r. auto.
  - exists im'. split; [assumption|]. split; [assumption|]. intros c Hc. destruct (H' c Hc) as [-> ->]. split; [reflexivity|]. unfold room. now rewrite Nat.sub_diag, app_nil_r.
Qed.

(** [calc_dom_children] lists the children of every block in order. *)
Lemma calc_dom_children_spec : exists im, calc_dom_children impl0 = Ret im /\ same_but no_children impl0 im /\
  forall c, c < n -> member num_dom_children im c = Some (Z.of_nat (length (children n c))) /\ member dom_children im c = Some (children n c).
Proof.
  unfold calc_dom_children. fold n. destruct count_children as (im1 & -> & H1 & H2). cbn [obind].
  destruct (alloc_all im1 H1 H2) as (im2 & -> & H3 & H4). cbn [obind]. exact (add_all im2 H3 H4).
Qed.
End children.

(** ** Numbering *)

Definition no_numbers (blk : nir_block) : nir_block := blk <| dom_pre_index := 0%Z |> <| dom_post_index := 0%Z |>.

Definition pre_of (im : nir_function_impl) (c : nat) : Z := default 0%Z (member dom_pre_index im c).
Definition post_of (im : nir_function_impl) (c : nat) : Z := default 0%Z (member dom_post_index im c).

Lemma chain_last D c b : chain D c b -> c = b \/ exists x, chain D c x /\ x <> 0 /\ D x = Some b.
Proof.
  induction 1 as [|c p b Hc Hp H IH]; [auto|]. right. destruct IH as [->|(x & H1 & H2)]; [exists c; split; [constructor | auto]|].
  exists x. split; [now apply (chain_up D c p) | assumption].
Qed.

Section numbering.
Context (edge : nat -> nat -> Prop) (D : table) (HD : tree_ok edge D) (n : nat) (Hrange : forall b, D b <> None -> b < n).
Context (kids : nat -> list nat) (Hkids : forall c x, x ∈ kids c <-> x <> 0 /\ D x = Some c) (Hnd : forall c, NoDup (kids c)).

(** The blocks in the order of the depth-first walk. *)
Fixpoint preorder (fuel b : nat) : list nat :=
  match fuel with
  | O => []
  | S fuel => b :: (kids b ≫= preorder fuel)
  end.

Lemma kid_up c x : x ∈ kids c -> c < x /\ D x <> None /\ chain D x c.
Proof.
  intros [Hx Hp]%Hkids. destruct (tree_up _ D HD x c Hx Hp) as (Hlt & _). split; [assumption|]. split; [congruence|].
  apply (chain_up D x c); [assumption.. | constructor].
Qed.

Lemma preorder_elem fuel : forall b c, n <= fuel + b -> D b <> None -> (c ∈ preorder fuel b <-> chain D c b /\ D c <> None).
Proof.
  induction fuel as [|fuel IH]; intros b c Hf Hb; [specialize (Hrange b Hb); lia|]. cbn [preorder]. rewrite elem_of_cons, list_elem_of_bind. split.
  - intros [->|(x & Hc & Hx)]; [split; [constructor | assumption]|]. destruct (kid_up b x Hx) as (Hlt & Hd & Hch).
    apply IH in Hc as [H1 H2]; [|lia | assumption]. split; [now apply (chain_trans D c x) | assumption].
  - intros [Hc Hd]. destruct (chain_last D c b Hc) as [->|(x & H1 & H2 & H3)]; [auto|]. right. exists x.
    assert (Hx : x ∈ kids b) by (apply Hkids; auto). split; [|assumption]. destruct (kid_up b x Hx) as (Hlt & Hxd & _). apply IH; [lia | assumption | auto].
Qed.

Lemma subtrees_disjoint fuel b x y c : n <= fuel + S b -> x ∈ kids b -> y ∈ kids b -> c ∈ preorder fuel x -> c ∈ preorder fuel y -> x = y.
Proof.
  intros Hf Hx Hy Hcx Hcy. destruct (kid_up b x Hx) as (Hbx & Hdx & _). destruct (kid_up b y Hy) as (Hby & Hdy & _).
  apply preorder_elem in Hcx as [H1 _], Hcy as [H2 _]; try lia; try assumption.
  apply Hkids in Hx as [Hx0 Hx], Hy as [Hy0 Hy].
  assert (Hgo : forall x y, x <> 0 -> D x = Some b -> D y = Some b -> y <> 0 -> chain D x y -> x = y).
  { intros u v Hu Hub Hvb Hv H. inversion H as [|? p ? _ Hp Hc]; subst; [reflexivity|]. rewrite Hub in Hp. injection Hp as <-.
    apply (chain_le edge D) in Hc; [|assumption]. destruct (tree_up _ D HD v b Hv Hvb). lia. }
  destruct (Nat.le_ge_cases x y) as [Hle|Hle]; [symmetry|]; apply Hgo; try assumption; eapply (chain_linear edge D c); eauto.
Qed.

Lemma subtrees_nodup fuel b ks : n <= fuel + S b -> (forall x, x ∈ kids b -> NoDup (preorder fuel x)) -> ks ⊆ kids b -> NoDup ks -> NoDup (ks ≫= preorder fuel).
Proof.
  intros Hf IH. induction ks as [|k ks IHk]; intros Hsub Hk; [constructor|]. apply list.NoDup_cons in Hk as [Hout Hk].
  change ((k :: ks) ≫= preorder fuel) with (preorder fuel k ++ (ks ≫= preorder fuel)). apply list.NoDup_app. split; [apply IH, Hsub, elem_of_cons; auto|]. split.
  - intros c Hc (y & Hcy & Hy)%list_elem_of_bind. destruct Hout.
    replace k with y; [assumption|]. apply (subtrees_disjoint fuel b y k c); [assumption | apply Hsub, elem_of_cons; auto | apply Hsub, elem_of_cons; auto | assumption..].
  - apply IHk; [|assumption]. intros y Hy. apply Hsub, elem_of_cons. auto.
Qed.

Lemma preorder_nodup fuel : forall b, n <= fuel + b -> D b <> None -> NoDup (preorder fuel b).
Proof.
  induction fuel as [|fuel IH]; intros b Hf Hb; [constructor|]. cbn [preorder]. apply list.NoDup_cons. split.
  - intros (x & Hc & Hx)%list_elem_of_bind. destruct (kid_up b x Hx) as (Hlt & Hd & _). apply preorder_elem in Hc as [Hc _]; [|lia | assumption].
    apply (chain_le edge D) in Hc; [lia | assumption].
  - apply (subtrees_nodup fuel b); [lia | | auto | apply Hnd]. intros x Hx. destruct (kid_up b x Hx) as (Hlt & Hd & _). apply IH; [lia | assumption].
Qed.

Lemma preorder_length fuel b : n <= fuel + b -> D b <> None -> length (preorder fuel b) <= n.
Proof.
  intros Hf Hb. rewrite <- (length_seq n 0). apply submseteq_length, NoDup_submseteq; [now apply preorder_nodup|].
  intros x [_ Hx]%preorder_elem; [|assumption..]. apply elem_of_seq. specialize (Hrange x Hx). lia.
Qed.

(** The numbers of the blocks [l] lie between [lo] and [hi] and are nested as
    the tree is. *)
Definition numbered (im : nir_function_impl) (lo hi : Z) (l : list nat) : Prop :=
  (forall c, c ∈ l -> (lo <= pre_of im c < post_of im c /\ post_of im c < hi)%Z) /\
  (forall c d, c ∈ l -> d ∈ l -> (chain D c d <-> (pre_of im d <= pre_of im c /\ post_of im c <= post_of im d)%Z)).

Definition unchanged_outside (l : list nat) (im im' : nir_function_impl) : Prop :=
  forall c, c ∉ l -> pre_of im' c = pre_of im c /\ post_of im' c = post_of im c.

Definition kids_ok (im : nir_function_impl) : Prop := forall c, D c <> None ->
  exists blk, blocks im !! c = Some blk /\ dom_children blk = kids c /\ num_dom_children blk = Z.of_nat (length (kids c)).

Lemma kids_ok_same im im' : same_but no_numbers im im' -> kids_ok im -> kids_ok im'.
Proof.
  intros Hs Hk c Hc. destruct (Hk c Hc) as (blk & Hb & H1 & H2). pose proof (lookup_lt_Some _ _ _ Hb) as Hlt. rewrite <- (same_but_length _ _ _ Hs) in Hlt.
  destruct (lookup_lt_is_Some_2 _ _ Hlt) as [blk' Hb']. exists blk'. split; [assumption|]. destruct (same_but_lookup _ _ _ _ _ Hs Hb') as (x & Hx & Eg).
  rewrite Hb in Hx. injection Hx as <-. destruct blk, blk'. injection Eg as <- <- <- <- <- <- <- <-. auto.
Qed.

(** The numbering of the subtrees of blocks [ks] that are numbered one after
    the other. *)
Lemma numbered_app im lo mid hi l1 l2 : (lo <= mid <= hi)%Z -> numbered im lo mid l1 -> numbered im mid hi l2 ->
  (forall c d, c ∈ l1 -> d ∈ l2 -> ~ chain D c d /\ ~ chain D d c) -> numbered im lo hi (l1 ++ l2).
Proof.
  intros Hm [A1 A2] [B1 B2] Hdis. split.
  - intros c [Hc|Hc]%elem_of_app; [apply A1 in Hc | apply B1 in Hc]; lia.
  - intros c d [Hc|Hc]%elem_of_app [Hd|Hd]%elem_of_app; [auto | | | auto].
    + destruct (Hdis c d Hc Hd) as [H1 _]. apply A1 in Hc. apply B1 in Hd. split; [contradiction | lia].
    + destruct (Hdis d c Hd Hc) as [_ H1]. apply A1 in Hd. apply B1 in Hc. split; [contradiction | lia].
Qed.

Lemma numbered_ext im im' lo hi l : (forall c, c ∈ l -> pre_of im' c = pre_of im c /\ post_of im' c = post_of im c) -> numbered im lo hi l -> numbered im' lo hi l.
Proof.
  intros He [A B]. split.
  - intros c Hc. destruct (He c Hc) as [-> ->]. auto.
  - intros c d Hc Hd. destruct (He c Hc) as [-> ->], (He d Hd) as [-> ->]. auto.
Qed.

Definition dfs_correct (fuel b : nat) : Prop := forall im idx, kids_ok im -> (0 <= idx)%Z ->
  (idx + 2 * Z.of_nat (length (preorder fuel b)) < 2 ^ 32)%Z ->
  exists im', calc_dfs_indicies fuel b (im, idx) = Ret (im', (idx + 2 * Z.of_nat (length (preorder fuel b)))%Z) /\
  same_but no_numbers im im' /\ unchanged_outside (preorder fuel b) im im' /\
  numbered im' idx (idx + 2 * Z.of_nat (length (preorder fuel b))) (preorder fuel b).

Lemma dfs_children fuel b ks : n <= fuel + S b -> (forall x, x ∈ kids b -> dfs_correct fuel x) -> ks ⊆ kids b -> NoDup ks ->
  forall im idx, kids_ok im -> (0 <= idx)%Z -> (idx + 2 * Z.of_nat (length (ks ≫= preorder fuel)) < 2 ^ 32)%Z ->
  exists im', for_each (calc_dfs_indicies fuel) ks (im, idx) = Ret (im', (idx + 2 * Z.of_nat (length (ks ≫= preorder fuel)))%Z) /\
  same_but no_numbers im im' /\ unchanged_outside (ks ≫= preorder fuel) im im' /\
  numbered im' idx (idx + 2 * Z.of_nat (length (ks ≫= preorder fuel))) (ks ≫= preorder fuel).
Proof.
  intros Hf IH. induction ks as [|k ks IHk]; intros Hsub Hk im idx Hok H0 Hmax.
  - exists im. cbn. rewrite Z.add_0_r. split; [reflexivity|]. split; [reflexivity|]. split; [intros c _; auto|]. split; intros c; [intros H; now apply not_elem_of_nil in H | intros d H; now apply not_elem_of_nil in H].
  - change ((k :: ks) ≫= preorder fuel) with (preorder fuel k ++ (ks ≫= preorder fuel)) in *. rewrite length_app in *. apply list.NoDup_cons in Hk as [Hout Hk].
    assert (Hkb : k ∈ kids b) by (apply Hsub, elem_of_cons; auto). assert (Hsub' : ks ⊆ kids b) by (intros y Hy; apply Hsub, elem_of_cons; auto).
    destruct (IH k Hkb im idx Hok H0 ltac:(lia)) as (im1 & E1 & S1 & U1 & N1). cbn [for_each]. rewrite E1. cbn [obind].
    destruct (IHk Hsub' Hk im1 (idx + 2 * Z.of_nat (length (preorder fuel k)))%Z (kids_ok_same im im1 S1 Hok) ltac:(lia) ltac:(lia)) as (im2 & -> & S2 & U2 & N2).
    exists im2. split; [do 2 f_equal; lia|]. split; [etransitivity; eassumption|].
    assert (Hdis : forall c, c ∈ preorder fuel k -> c ∉ ks ≫= preorder fuel).
    { intros c Hc (y & Hcy & Hy)%list_elem_of_bind. apply Hout. replace k with y; [assumption|]. apply (subtrees_disjoint fuel b y k c); auto. }
    split; [intros c [Hc1 Hc2]%not_elem_of_app; destruct (U2 c Hc2) as [-> ->]; auto|].
    rewrite Nat2Z.inj_add, Z.mul_add_distr_l, Z.add_assoc.
    apply (numbered_app im2 idx (idx + 2 * Z.of_nat (length (preorder fuel k)))); [lia | | assumption |].
    + apply (numbered_ext im1); [|assumption]. intros c Hc. apply U2. auto.
    + intros c d Hc (y & Hdy & Hy)%list_elem_of_bind. destruct (kid_up b k Hkb) as (Hbk & Hdk & _). destruct (kid_up b y (Hsub' y Hy)) as (Hby & Hyd & _).
      assert (Hne : k <> y) by (intros ->; contradiction).
      pose proof (proj1 (preorder_elem fuel k c ltac:(lia) Hdk) Hc) as [C1 C2]. pose proof (proj1 (preorder_elem fuel y d ltac:(lia) Hyd) Hdy) as [D1 D2].
      split; intros Hch; apply Hne.
      * apply (subtrees_disjoint fuel b k y c); auto. apply preorder_elem; [lia | assumption|]. split; [now apply (chain_trans D c d) | assumption].
      * apply (subtrees_disjoint fuel b k y d); auto. apply preorder_elem; [lia | assumption|]. split; [now apply (chain_trans D d c) | assumption].
Qed.

Lemma dfs_spec fuel : forall b, n <= fuel + b -> D b <> None -> dfs_correct fuel b.
Proof.
  induction fuel as [|fuel IH]; intros b Hf Hb im idx Hok H0 Hmax; [specialize (Hrange b Hb); lia|].
  destruct (Hok b Hb) as (blk & Hblk & Hch & Hnum). cbn [calc_dfs_indicies preorder length] in *. rewrite (deref_lookup _ _ _ Hblk). cbn [obind].
  rewrite Hnum, Hch, Nat2Z.id, firstn_all. rewrite wrap_small by lia. set (im0 := set_block b _ im).
  assert (S0 : same_but no_numbers im im0) by now apply same_but_set.
  assert (IHk : forall x, x ∈ kids b -> dfs_correct fuel x) by (intros x Hx; destruct (kid_up b x Hx) as (? & ? & _); apply IH; [lia | assumption]).
  destruct (dfs_children fuel b (kids b) ltac:(lia) IHk ltac:(auto) (Hnd b) im0 (idx + 1)%Z (kids_ok_same _ _ S0 Hok) ltac:(lia) ltac:(lia)) as (im1 & -> & S1 & U1 & N1).
  cbn [obind]. set (L := length (kids b ≫= preorder fuel)) in *. rewrite wrap_small by lia. set (im2 := set_block b _ im1).
  exists im2. split; [do 2 f_equal; lia|]. assert (S2 : same_but no_numbers im1 im2) by now apply same_but_set.
  split; [transitivity im0; [exact S0 | transitivity im1; [exact S1 | exact S2]]|].
  assert (Hbn : b ∉ kids b ≫= preorder fuel).
  { intros (x & Hc & Hx)%list_elem_of_bind. destruct (kid_up b x Hx) as (Hlt & Hd & _). apply preorder_elem in Hc as [Hc _]; [|lia | assumption]. apply (chain_le edge D) in Hc; [lia | assumption]. }
  assert (Hother : forall c, c <> b -> (pre_of im0 c = pre_of im c /\ post_of im0 c = post_of im c) /\ (pre_of im2 c = pre_of im1 c /\ post_of im2 c = post_of im1 c)).
  { intros c Hc. unfold pre_of, post_of, im0, im2. rewrite !member_set, !decide_False by assumption. auto. }
  assert (Hself : pre_of im2 b = idx /\ post_of im2 b = (idx + 1 + 2 * Z.of_nat L)%Z).
  { assert (Hpre0 : pre_of im0 b = idx) by (unfold pre_of, im0; rewrite member_set, decide_True, Hblk by reflexivity; reflexivity).
    destruct (U1 b Hbn) as [Hpre1 _]. rewrite Hpre0 in Hpre1. unfold pre_of, post_of, im2 in *. rewrite !member_set, !decide_True by reflexivity.
    unfold member in Hpre1. destruct (blocks im1 !! b) as [y|] eqn:Ey; [cbn in *; auto|].
    apply lookup_ge_None in Ey. rewrite (same_but_length _ _ _ S1), (same_but_length _ _ _ S0) in Ey. apply lookup_lt_Some in Hblk. lia. }
  split.
  - intros c [Hc1 Hc2]%not_elem_of_cons. destruct (Hother c Hc1) as [[<- <-] [-> ->]]. auto.
  - assert (Hin : forall c, c ∈ kids b ≫= preorder fuel -> c <> b) by (intros c Hc ->; contradiction).
    assert (N2 : numbered im2 (idx + 1) (idx + 1 + 2 * Z.of_nat L) (kids b ≫= preorder fuel)).
    { apply (numbered_ext im1); [|assumption]. intros c Hc. apply Hother. auto. }
    destruct N2 as [A B], Hself as [Hpre Hpost]. split.
    + intros c [->|Hc]%elem_of_cons; [rewrite Hpre, Hpost; lia | apply A in Hc; lia].
    + intros c d Hc' Hd'. pose proof Hc' as [->|Hc]%elem_of_cons; pose proof Hd' as [->|Hd]%elem_of_cons; [split; [lia | constructor] | | | auto].
      * split.
        -- intros H. destruct (Hin d Hd). apply (chain_antisym edge D); [assumption | | assumption]. apply list_elem_of_bind in Hd as (x & Hdx & Hx).
           destruct (kid_up b x Hx) as (Hlt & Hxd & Hxb). apply preorder_elem in Hdx as [H1 _]; [|lia | assumption]. now apply (chain_trans D d x).
        -- apply A in Hd. rewrite Hpre. lia.
      * split; [intros _; apply A in Hc; lia | intros _]. apply list_elem_of_bind in Hc as (x & Hcx & Hx).
        destruct (kid_up b x Hx) as (Hlt & Hxd & Hxb). apply preorder_elem in Hcx as [H1 _]; [|lia | assumption]. now apply (chain_trans D c x).
Qed.
End numbering.
