(* ===== verification/NirDomProps.v ===== *)
(** * Properties of the dominance computation (nir_dominance.c)

    The theorems hold for every function whose blocks are linked as
    [validate_block] requires for a control flow tree. *)

From stdpp Require Import base list sets numbers.
From Stdlib Require Import ZArith Lia.
From S2P Require Import Prelude NirCfg NirImpl Dominators NirDominance NirDomTree NirDomFrontier.
#[local] Open Scope nat_scope.
#[local] Open Scope c_scope.

(** ** Phases *)

(** A function that [nir_calc_dominance_impl] can be called on. *)
Record dominance_input (body : cf_list) (impl : nir_function_impl) : Prop := {
  di_linked : linked impl body;
  di_index : index_ok impl;
  di_size : (2 * Z.of_nat (length (blocks impl)) < 2 ^ 32)%Z;
  di_stale : Z.land (valid_metadata impl) nir_metadata_dominance = 0%Z }.

Definition no_index (blk : nir_block) : nir_block := blk <| index := 0%Z |>.
Definition no_init (blk : nir_block) : nir_block := blk <| imm_dom := None |> <| num_dom_children := 0%Z |> <| dom_frontier := [] |>.

Lemma require_block_index_spec impl body : linked impl body -> index_ok impl ->
  linked (require_block_index impl) body /\ indexed (require_block_index impl) /\ length (blocks (require_block_index impl)) = length (blocks impl).
Proof.
  intros Hl Hi. unfold require_block_index. pose proof (nir_index_blocks_indexed impl Hi) as Hidx. destruct Hi as [Hn Hv].
  destruct (Z.eqb_spec (Z.land (valid_metadata impl) nir_metadata_block_index) 0) as [E|E]; [|split; [exact Hl | split; [exact (Hv E) | reflexivity]]].
  assert (Hlen : length (blocks (nir_index_blocks impl)) = length (blocks impl)).
  { unfold nir_index_blocks. destruct (negb _); [reflexivity|]. cbn. apply length_imap. }
  split; [|split; [exact Hidx | exact Hlen]]. destruct Hl as [H1 H2]. split; [cbn; now rewrite Hlen|]. intros b blk Hb. cbn in Hb.
  unfold nir_index_blocks in Hb. destruct (negb _); [now apply H2|]. cbn in Hb. rewrite list_lookup_imap in Hb.
  destruct (blocks impl !! b) as [x|] eqn:Hx; [|discriminate]. injection Hb as <-. cbn. now apply (H2 b).
Qed.

Lemma init_spec impl : exists im, nir_foreach_block (fun b impl => Ret (init_block b impl)) (length (blocks impl)) impl = Ret im /\
  same_but no_init impl im /\ forall c, c < length (blocks impl) ->
  member imm_dom im c = Some (if decide (c = 0) then Some 0 else None) /\ member num_dom_children im c = Some 0%Z /\ member dom_frontier im c = Some [].
Proof.
  destruct (foreach_block_inv (fun k im => same_but no_init impl im /\ forall c, c < length (blocks impl) -> c < k ->
    member imm_dom im c = Some (if decide (c = 0) then Some 0 else None) /\ member num_dom_children im c = Some 0%Z /\ member dom_frontier im c = Some [])
    (fun b impl => Ret (init_block b impl)) (length (blocks impl)) impl) as (im & E & H1 & H2).
  - split; [reflexivity | intros; lia].
  - intros b im Hb [H1 H2]. eexists. split; [reflexivity|]. split; [etransitivity; [exact H1 | now apply same_but_set]|].
    intros c Hc Hlt. unfold init_block. rewrite !member_set. destruct (decide (c = b)) as [->|Hne]; [|apply H2; [assumption | lia]].
    rewrite <- (same_but_length _ _ _ H1) in Hc. destruct (lookup_lt_is_Some_2 _ _ Hc) as [x ->]. cbn. unfold nir_start_block.
    split; [|auto]. now destruct (decide (b = 0)) as [->|].
  - exists im. split; [assumption|]. split; [assumption|]. auto.
Qed.

(** Phases that keep the index and the predecessors keep the graph. *)
Lemma same_but_graph g impl impl' body : same_but g impl impl' -> (forall x y, g x = g y -> index x = index y /\ predecessors x = predecessors y) ->
  linked impl body -> indexed impl -> linked impl' body /\ indexed impl'.
Proof.
  intros Hs Hg [Hl Hp] Hi. split; [split; [now rewrite (same_but_length _ _ _ Hs)|]|].
  - intros b blk' Hb. destruct (same_but_lookup _ _ _ _ _ Hs Hb) as (blk & Hb0 & E). apply Hg in E as [_ ->]. now apply (Hp b).
  - intros b blk' Hb. destruct (same_but_lookup _ _ _ _ _ Hs Hb) as (blk & Hb0 & E). apply Hg in E as [-> _]. now apply Hi.
Qed.

Lemma member_idoms impl b : member imm_dom impl b = Some (idoms impl b) \/ (member imm_dom impl b = None /\ length (blocks impl) <= b).
Proof. unfold member, idoms. destruct (blocks impl !! b) eqn:E; [auto|]. right. split; [reflexivity|]. now apply lookup_ge_None in E. Qed.

(** ** The result *)

(** [D] is the table of immediate dominators, with the first block as its own,
    and [impl'] has it with everything computed from it. *)
Record computed (body : cf_list) (impl' : nir_function_impl) (D : table) : Prop := {
  co_graph : linked impl' body /\ indexed impl';
  co_tree : tree_ok (nir_edge body) D;
  co_defined : forall b, D b <> None <-> nir_reachable (nir_edge body) b;
  co_chain : forall b d, nir_reachable (nir_edge body) b -> (chain D b d <-> dominates (nir_edge body) d b);
  co_idom : forall b, b < length (blocks impl') -> member imm_dom impl' b = Some (if decide (b = 0) then None else D b);
  co_frontier : forall r b, r < length (blocks impl') -> (b ∈ frontier impl' r <-> in_frontier (nir_edge body) r b);
  co_children : forall r, r < length (blocks impl') -> member dom_children impl' r =
    Some (filter (fun b => b <> 0 /\ D b = Some r) (seq 0 (length (blocks impl'))));
  co_numbers : forall c d, D c <> None -> D d <> None ->
    (chain D c d <-> (pre_of impl' d <= pre_of impl' c /\ post_of impl' c <= post_of impl' d)%Z) }.

Lemma settled_table body impl0 impl : linked impl0 body -> settled body impl0 impl ->
  tree_ok (nir_edge body) (idoms impl) /\ (forall b, idoms impl b <> None <-> nir_reachable (nir_edge body) b) /\
  (forall b d, nir_reachable (nir_edge body) b -> (chain (idoms impl) b d <-> dominates (nir_edge body) d b)).
Proof.
  intros Hl (i & Hi & E & HI). pose proof (n_pos body impl0 Hl) as Hn. split; [exact (io_tree _ _ _ _ HI)|]. split.
  - intros b. split; [apply (defined_reachable _ _ b (io_tree _ _ _ _ HI)) | intros Hb; apply (io_done _ _ _ _ HI); [assumption | right; left; lia]].
  - intros b d Hb. apply (iter_final _ (length (blocks impl0)) i); try assumption. apply (edge_n body impl0 Hl).
Qed.

Lemma frontier_phase body impl : linked impl body -> tree_ok (nir_edge body) (idoms impl) ->
  (forall b, idoms impl b <> None <-> nir_reachable (nir_edge body) b) ->
  (forall b d, nir_reachable (nir_edge body) b -> (chain (idoms impl) b d <-> dominates (nir_edge body) d b)) ->
  (forall c, c < length (blocks impl) -> frontier impl c = []) ->
  exists im, nir_foreach_block calc_dom_frontier (length (blocks impl)) impl = Ret im /\ same_but no_frontier impl im /\
  forall r b, r < length (blocks impl) -> (b ∈ frontier im r <-> in_frontier (nir_edge body) r b).
Proof.
  intros [Hlen Hp] Ht Hdef Hfin Hempty. assert (Hedge : forall u v, nir_edge body u v -> u < length (blocks impl) /\ v < length (blocks impl)) by (rewrite Hlen; apply edge_range).
  pose proof (proj2 (structured_order body)) as H0.
  destruct (foreach_block_inv (fun k im => same_but no_frontier impl im /\ forall r b, r < length (blocks impl) ->
     (b ∈ frontier im r <-> b < k /\ in_frontier (nir_edge body) r b)) calc_dom_frontier (length (blocks impl)) impl) as (im & E & H1 & H2).
  - split; [reflexivity|]. intros r b Hr. rewrite (Hempty r Hr), elem_of_nil. split; [contradiction | lia].
  - intros k im Hk [H1 H2]. destruct (decide (k = 0)) as [->|Hne].
    + exists im. split; [|split; [assumption|]].
      * unfold calc_dom_frontier. rewrite <- (same_but_length _ _ _ H1) in Hk. destruct (lookup_lt_is_Some_2 _ _ Hk) as [x Hx].
        rewrite (deref_lookup _ _ _ Hx). cbn [obind]. destruct (same_but_lookup _ _ _ _ _ H1 Hx) as (y & Hy & Eg).
        assert (Epr : predecessors x = predecessors y) by (destruct x, y; now injection Eg). rewrite Epr.
        destruct (Hp 0 y Hy) as [_ Hpr]. destruct (predecessors y) as [|a l]; [reflexivity|]. destruct (H0 a). apply Hpr, elem_of_cons. auto.
      * intros r b Hr. rewrite H2 by assumption. split; [lia|]. intros [Hb (p & He & _)]. destruct (decide (b = 0)) as [->|]; [now destruct (H0 p) | lia].
    + destruct (calc_dom_frontier_spec (nir_edge body) impl Ht Hdef Hfin Hp Hedge k im H1 Hne Hk) as (im' & E & H3 & H4).
      exists im'. split; [assumption|]. split; [assumption|]. intros r b Hr. rewrite H4, H2 by assumption. split.
      * intros [[? ?]|[-> ?]]; auto with lia.
      * intros [Hb Hin]. destruct (decide (b = k)) as [->|]; [auto | left; split; [lia | assumption]].
  - exists im. split; [assumption|]. split; [assumption|]. intros r b Hr. rewrite H2 by assumption. split; [tauto|]. intros Hin. split; [|assumption].
    destruct Hin as (p & He & _). now apply (Hedge p).
Qed.

(** The start block loses its own, then children and numbers are computed. *)
Lemma tree_phase edge D impl : tree_ok edge D -> (forall b, D b <> None -> b < length (blocks impl)) -> 0 < length (blocks impl) ->
  (2 * Z.of_nat (length (blocks impl)) < 2 ^ 32)%Z -> (forall b, idoms impl b = if decide (b = 0) then None else D b) ->
  (forall c, c < length (blocks impl) -> member num_dom_children impl c = Some 0%Z) ->
  exists im, (let! im := calc_dom_children impl in omap_out fst (calc_dfs_indicies (length (blocks impl)) nir_start_block (im, 0%Z))) = Ret im /\
  same_but (fun blk => no_numbers (no_children blk)) impl im /\
  (forall r, r < length (blocks impl) -> member dom_children im r = Some (filter (fun b => b <> 0 /\ D b = Some r) (seq 0 (length (blocks impl))))) /\
  forall c d, D c <> None -> D d <> None -> (chain D c d <-> (pre_of im d <= pre_of im c /\ post_of im c <= post_of im d)%Z).
Proof.
  intros Ht Hr H0 Hn HE Hnum. set (n := length (blocks impl)) in *.
  assert (Hdn : forall b p, idoms impl b = Some p -> p < n).
  { intros b p. rewrite HE. destruct (decide (b = 0)) as [|Hb]; [discriminate|]. intros Hp. destruct (tree_up _ D Ht b p Hb Hp) as (_ & _ & Hd). now apply Hr. }
  destruct (calc_dom_children_spec impl ltac:(fold n; lia) Hdn Hnum) as (im1 & -> & S1 & H1). fold n in H1. cbn [obind].
  set (kids := fun c => filter (fun b => b <> 0 /\ D b = Some c) (seq 0 n)).
  assert (Hext : forall c, children impl n c = kids c).
  { intros c. unfold children, kids. apply list_filter_iff. intros b. rewrite HE. destruct (decide (b = 0)) as [->|Hb]; [split; [discriminate | tauto] | tauto]. }
  assert (Hk : forall c x, x ∈ kids c <-> x <> 0 /\ D x = Some c).
  { intros c x. unfold kids. rewrite list_elem_of_filter, elem_of_seq. split; [tauto|]. intros [Hx Hd]. split; [auto|]. split; [lia|]. apply Hr. congruence. }
  assert (Hnd : forall c, NoDup (kids c)) by (intros c; apply list.NoDup_filter, NoDup_seq).
  assert (Hok : kids_ok D kids im1).
  { intros c Hc. destruct (H1 c (Hr c Hc)) as [Hnc Hdc]. destruct (member_deref _ _ _ _ Hdc) as (blk & _ & Hb & Hd). exists blk. split; [assumption|].
    rewrite (member_lookup num_dom_children _ _ _ Hb) in Hnc. injection Hnc as ->. rewrite <- Hext. auto. }
  assert (Hd0 : D 0 <> None) by (rewrite (tree_start _ _ Ht); discriminate).
  pose proof (preorder_length edge D Ht n Hr kids Hk Hnd n 0 ltac:(lia) Hd0) as Hpl.
  destruct (dfs_spec edge D Ht n Hr kids Hk Hnd n 0 ltac:(lia) Hd0 im1 0%Z Hok ltac:(lia) ltac:(lia)) as (im2 & E2 & S2 & _ & _ & N2).
  unfold nir_start_block. rewrite E2. cbn [omap_out obind fst]. exists im2. split; [reflexivity|]. split; [|split].
  - transitivity im1; [destruct S1 as (E1 & M1 & D1) | destruct S2 as (E1 & M1 & D1)]; (split; [|auto]).
    + apply (f_equal (fmap no_numbers)) in E1. now rewrite <- !list_fmap_compose in E1.
    + apply (f_equal (fmap no_children)) in E1. rewrite <- !list_fmap_compose in E1. exact E1.
  - intros r Hrn. pose proof (same_but_member no_numbers dom_children im1 im2 r S2 ltac:(intros [] [] [=]; assumption)) as Em. fold (member dom_children im2 r) in Em.
    rewrite Em. destruct (H1 r Hrn) as [_ Hd]. unfold member in Hd. rewrite Hd. now rewrite Hext.
  - intros c d Hc Hd. apply N2; (apply (preorder_elem edge D Ht n Hr kids Hk); [lia | assumption|]; split; [now apply (chain_start edge) | assumption]).
Qed.

Lemma idoms_member impl b : idoms impl b = default None (member imm_dom impl b).
Proof. unfold idoms, member. now destruct (blocks impl !! b). Qed.

Lemma same_but_idoms g impl impl' b : same_but g impl impl' -> (forall x y, g x = g y -> imm_dom x = imm_dom y) -> idoms impl' b = idoms impl b.
Proof. intros H Hg. rewrite !idoms_member. unfold member. now rewrite (same_but_member g imm_dom _ _ b H Hg). Qed.

Lemma start_cleared impl b : idoms (set_block nir_start_block (fun blk => blk <| imm_dom := None |>) impl) b = if decide (b = 0) then None else idoms impl b.
Proof. rewrite !idoms_member, member_set. unfold nir_start_block. case_decide_eq; [now destruct (blocks impl !! 0) | reflexivity]. Qed.

(** The loop from the initialised blocks. *)
Lemma idom_phase body impl : linked impl body -> indexed impl ->
  exists im im', nir_foreach_block (fun b impl => Ret (init_block b impl)) (length (blocks impl)) impl = Ret im /\
  dominance_loop (length (blocks impl) + 2) im = Ret im' /\ settled body im im' /\ linked im body /\ indexed im /\
  (linked im' body /\ indexed im') /\ length (blocks im') = length (blocks impl) /\ valid_metadata im' = valid_metadata impl /\
  forall c, c < length (blocks impl) -> member num_dom_children im' c = Some 0%Z /\ frontier im' c = [].
Proof.
  intros Hl Hi. destruct (init_spec impl) as (im & E & S & H). exists im.
  destruct (same_but_graph no_init impl im body S ltac:(intros [] [] [=]; auto) Hl Hi) as [Hl' Hi']. pose proof (same_but_length _ _ _ S) as Hlen.
  destruct (loop_spec body im Hl' Hi' (length (blocks impl) + 2) im 0) as (im' & E' & Hs); [lia | lia | split; [reflexivity|] |].
  - apply iter_start. intros b. rewrite idoms_member. destruct (decide (b < length (blocks impl))) as [Hb|Hb].
    + now destruct (H b Hb) as [-> _].
    + unfold member. rewrite (proj2 (lookup_ge_None _ _)) by lia. cbn. rewrite decide_False; [reflexivity|]. pose proof (proj1 blocks_pos body). rewrite (proj1 Hl) in Hb. lia.
  - exists im'. split; [assumption|]. split; [assumption|]. split; [assumption|]. split; [assumption|]. split; [assumption|].
    pose proof Hs as (i & _ & Ei & _). split; [split; [now apply (erase_linked im) | now apply (erase_indexed im)]|].
    split; [rewrite (erase_length _ _ Ei); assumption|]. split; [apply (f_equal valid_metadata) in Ei; cbn in Ei; destruct S as (_ & Hv & _); congruence|].
    intros c Hc. destruct (H c Hc) as (_ & Hnum & Hfr). unfold frontier, member in *.
    assert (Hc' : c < length (blocks im')) by (rewrite (erase_length _ _ Ei), Hlen; assumption). destruct (lookup_lt_is_Some_2 _ _ Hc') as [x Hx]. rewrite Hx.
    destruct (erase_lookup im im' c x Ei Hx) as (y & Hy & ->). rewrite Hy in Hnum, Hfr. cbn in *. injection Hnum as ->. injection Hfr as ->. auto.
Qed.

Lemma calc_dominance_computed body impl : dominance_input body impl ->
  exists impl' D, nir_calc_dominance_impl impl = Ret impl' /\ computed body impl' D.
Proof.
  intros [Hl Hi Hn Hv]. unfold nir_calc_dominance_impl. rewrite Hv. cbn [Z.eqb negb]. destruct (require_block_index_spec impl body Hl Hi) as (Hlb & Hib & Hlen).
  set (ib := require_block_index impl) in *. destruct (idom_phase body ib Hlb Hib) as (ii & il & -> & E2 & Hs & Hl1 & Hi1 & [Hl2 Hi2] & Hlen2 & _ & Hzero).
  cbn [obind]. rewrite E2. cbn [obind]. destruct (settled_table body ii il Hl1 Hs) as (Ht & Hdef & Hfin).
  rewrite <- Hlen2 in *. destruct (frontier_phase body il Hl2 Ht Hdef Hfin ltac:(intros c Hc; now apply Hzero)) as (ifr & -> & S3 & Hfr). cbn [obind].
  pose proof (same_but_length _ _ _ S3) as Hlen3. set (ist := set_block _ _ ifr).
  assert (S4 : same_but (fun blk => blk <| imm_dom := None |>) ifr ist) by now apply same_but_set.
  pose proof (same_but_length _ _ _ S4) as Hlen4. pose proof (proj1 blocks_pos body) as Hpos.
  destruct (tree_phase (nir_edge body) (idoms il) ist Ht) as (im & E5 & S5 & Hch & Hnums).
  - intros b Hb. apply idoms_lookup in Hb. lia.
  - destruct Hl2 as [Hl2 _]. lia.
  - lia.
  - intros b. unfold ist. rewrite start_cleared, (same_but_idoms no_frontier il ifr); [reflexivity | assumption | intros [] [] [=]; assumption].
  - intros c Hc. unfold member. rewrite (same_but_member _ num_dom_children _ _ c S4) by (intros [] [] [=]; assumption).
    rewrite (same_but_member _ num_dom_children _ _ c S3) by (intros [] [] [=]; assumption). apply Hzero. lia.
  - rewrite Hlen4, Hlen3 in E5. exists im, (idoms il). split; [exact E5|]. pose proof (same_but_length _ _ _ S5) as Hlen5.
    destruct (same_but_graph no_frontier il ifr body S3 ltac:(intros [] [] [=]; auto) Hl2 Hi2) as [Hl3 Hi3].
    destruct (same_but_graph _ ifr ist body S4 ltac:(intros [] [] [=]; auto) Hl3 Hi3) as [Hl4 Hi4].
    split; try assumption.
    + apply (same_but_graph _ ist im body S5 ltac:(intros [] [] [=]; auto) Hl4 Hi4).
    + intros b Hb. destruct (member_idoms im b) as [->|[_ H]]; [f_equal | lia].
      rewrite (same_but_idoms _ ist im b S5) by (intros [] [] [=]; assumption). unfold ist.
      rewrite start_cleared, (same_but_idoms no_frontier il ifr); [reflexivity | assumption | intros [] [] [=]; assumption].
    + intros r b Hr. unfold frontier, member. rewrite (same_but_member _ dom_frontier _ _ r S5) by (intros [] [] [=]; assumption).
      rewrite (same_but_member _ dom_frontier _ _ r S4) by (intros [] [] [=]; assumption). apply Hfr. lia.
    + intros r Hr. rewrite (Hch r ltac:(lia)). do 2 f_equal. now rewrite Hlen5.
Qed.

(** The same through the metadata interface. *)
Lemma require_dominance_computed body impl : dominance_input body impl ->
  exists impl' D, require_dominance impl = Ret impl' /\ computed body impl' D /\ Z.land (valid_metadata impl') nir_metadata_dominance <> 0%Z.
Proof.
  intros Hin. unfold require_dominance. rewrite (di_stale _ _ Hin). cbn [Z.eqb]. destruct (calc_dominance_computed body impl Hin) as (im & D & -> & H).
  cbn [obind]. eexists _, D. split; [reflexivity|]. split; [|cbn; rewrite Z.land_comm, Z.land_lor_distr_r, Z.land_diag; intros H0; apply Z.lor_eq_0_iff in H0 as [_ H0]; discriminate].
  destruct H. split; auto.
Qed.

(** ** The theorems *)

(** C7: On every function whose blocks are linked as the validator requires,
    the computation of dominance terminates without dereferencing [NULL], and
    the immediate dominator it gives a block is its closest strict dominator;
    exactly the first block and the blocks that cannot be reached have none. *)
Theorem nir_imm_dom_correct body impl : dominance_input body impl ->
  exists impl', require_dominance impl = Ret impl' /\ forall b blk, blocks impl' !! b = Some blk ->
  match imm_dom blk with
  | Some d => nir_reachable (nir_edge body) b /\ strictly_dominates (nir_edge body) d b /\
              forall e, strictly_dominates (nir_edge body) e b -> dominates (nir_edge body) e d
  | None => b = 0 \/ ~ nir_reachable (nir_edge body) b
  end.
Proof.
  intros Hin. destruct (require_dominance_computed body impl Hin) as (impl' & D & E & [_ Ht Hdef Hfin Hid _ _ _] & _).
  exists impl'. split; [assumption|]. intros b blk Hb. specialize (Hid b (lookup_lt_Some _ _ _ Hb)). rewrite (member_lookup _ _ _ _ Hb) in Hid.
  injection Hid as ->. destruct (decide (b = 0)) as [|Hb0]; [auto|]. destruct (D b) as [d|] eqn:Hd; [|right; rewrite <- Hdef; now intros []].
  assert (Hr : nir_reachable (nir_edge body) b) by (apply Hdef; congruence). destruct (tree_up _ D Ht b d Hb0 Hd) as (Hlt & _ & Hdd). apply Hdef in Hdd.
  split; [assumption|]. split; [split; [lia | apply Hfin; [assumption|]; apply (chain_up D b d); [assumption.. | constructor]]|].
  intros e [Hne He]. apply Hfin in He; [|assumption]. apply Hfin; [assumption|]. inversion He as [|? d' ? _ Hd' H]; subst; [contradiction|].
  rewrite Hd in Hd'. now injection Hd' as <-.
Qed.

(** The dominance frontier of a block is the set of blocks that it does not
    strictly dominate but of which it dominates a reachable predecessor. *)
Theorem nir_dom_frontier_correct body impl : dominance_input body impl ->
  exists impl', require_dominance impl = Ret impl' /\ forall r blk b, blocks impl' !! r = Some blk ->
  (b ∈ dom_frontier blk <-> exists p, nir_edge body p b /\ nir_reachable (nir_edge body) p /\
     dominates (nir_edge body) r p /\ ~ strictly_dominates (nir_edge body) r b).
Proof.
  intros Hin. destruct (require_dominance_computed body impl Hin) as (impl' & D & E & Hc & _).
  exists impl'. split; [assumption|]. intros r blk b Hr. rewrite <- (co_frontier _ _ _ Hc r b (lookup_lt_Some _ _ _ Hr)).
  unfold frontier. now rewrite (member_lookup _ _ _ _ Hr).
Qed.

(** C31: On reachable blocks [nir_block_dominates] decides dominance from the
    depth-first numbers, and [nir_dominance_lca] returns the closest block that
    dominates both. *)
Theorem nir_dominance_queries body impl b1 b2 : dominance_input body impl ->
  nir_reachable (nir_edge body) b1 -> nir_reachable (nir_edge body) b2 ->
  exists impl', require_dominance impl = Ret impl' /\
  (exists r, nir_block_dominates impl' b1 b2 = Ret r /\ (r = true <-> dominates (nir_edge body) b1 b2)) /\
  (exists z, nir_dominance_lca impl' (Some b1) (Some b2) = Ret (Some z) /\
     forall d, dominates (nir_edge body) d z <-> dominates (nir_edge body) d b1 /\ dominates (nir_edge body) d b2).
Proof.
  intros Hin H1 H2. destruct (require_dominance_computed body impl Hin) as (impl' & D & E & [[Hl Hi] Ht Hdef Hfin Hid _ _ Hnum] & Hv).
  exists impl'. split; [assumption|]. apply Z.eqb_neq in Hv. apply Hdef in H1 as D1, H2 as D2.
  assert (Hrange : forall b, D b <> None -> b < length (blocks impl')).
  { intros b Hb. apply Hdef in Hb. rewrite (proj1 Hl). destruct Hb as [|u v _ Huv]; [apply blocks_pos | now apply edge_range in Huv]. }
  destruct (lookup_lt_is_Some_2 _ _ (Hrange b1 D1)) as [x1 E1]. destruct (lookup_lt_is_Some_2 _ _ (Hrange b2 D2)) as [x2 E2]. split.
  - unfold nir_block_dominates. rewrite Hv. cbn [negb c_assert]. rewrite (deref_lookup _ _ _ E1), (deref_lookup _ _ _ E2). cbn [obind].
    eexists. split; [reflexivity|]. rewrite <- (Hfin b2 b1 H2), (Hnum b2 b1 D2 D1). unfold pre_of, post_of, member. rewrite E1, E2. cbn.
    rewrite andb_true_iff, Z.geb_leb, !Z.leb_le. reflexivity.
  - unfold nir_dominance_lca. rewrite Hv. cbn [negb c_assert].
    destruct (intersect_spec (nir_edge body) impl' D Hi Ht) with (fuel := length (blocks impl')) (b1 := b1) (b2 := b2) as (z & -> & Hz); try assumption.
    + intros b Hb0. destruct (decide (b < length (blocks impl'))) as [Hb|Hb].
      * rewrite idoms_member, (Hid b Hb). cbn. now rewrite decide_False.
      * unfold idoms. rewrite (proj2 (lookup_ge_None _ _)) by lia. destruct (D b) eqn:Hd; [|reflexivity]. destruct Hb. apply Hrange. congruence.
    + specialize (Hrange b1 D1). lia.
    + specialize (Hrange b2 D2). lia.
    + exists z. split; [reflexivity|]. assert (Hzr : nir_reachable (nir_edge body) z).
      { apply Hdef. apply (chain_defined (nir_edge body) D b1 z Ht D1). apply (proj1 (Hz z)); [constructor | apply elem_of_cons; auto]. }
      intros d. rewrite <- (Hfin z d Hzr), <- (Hfin b1 d H1), <- (Hfin b2 d H2), (Hz d). split.
      * intros H. split; apply H; rewrite !elem_of_cons; auto.
      * intros [Ha Hb] p. rewrite !elem_of_cons, elem_of_nil. intros [->|[->|[]]]; assumption.
Qed.

(** ** A function with a loop *)

(** A function with empty blocks linked for a control flow tree. *)
Definition link_body (body : cf_list) : nir_function_impl :=
  let n := list_blocks body in
  MkImpl ((fun b => MkBlock [] None 0%Z (filter (fun p => b ∈ default [] (nir_successors body !! p)) (seq 0 n)) None 0%Z [] [] 0%Z 0%Z [] []) <$> seq 0 n) [] 0%Z 0%Z.

Lemma link_body_input body : (2 * Z.of_nat (list_blocks body) < 2 ^ 32)%Z -> dominance_input body (link_body body).
Proof.
  intros Hn. assert (Hlen : length (blocks (link_body body)) = list_blocks body) by (cbn; now rewrite length_fmap, length_seq).
  split; [split; [exact Hlen|]|split; rewrite ?Hlen; [lia | intros H; now destruct H]|now rewrite Hlen|reflexivity].
  intros b blk H. cbn in H. rewrite list_lookup_fmap in H. destruct (seq 0 (list_blocks body) !! b) as [b'|] eqn:Hb; [|discriminate].
  apply lookup_seq in Hb as [-> Hb]. injection H as <-. cbn. split; [apply list.NoDup_filter, NoDup_seq|]. intros p. rewrite list_elem_of_filter, elem_of_seq. unfold nir_edge. split.
  - intros [H1 H2]. destruct (nir_successors body !! p) as [s|]; [eauto | now apply not_elem_of_nil in H1].
  - intros (s & Hs & Hv & _). rewrite Hs. split; [assumption|]. apply lookup_lt_Some in Hs. unfold nir_successors in Hs. rewrite (proj1 length_successors) in Hs. lia.
Qed.

(** [0; loop { 1; if { 2; break } else { 3 } 4 } 5], and the entry point. *)
Definition demo_body : cf_list :=
  cf_cons None (nir_loop (cf_cons None (nir_if (cf_last (Some nir_jump_break)) (cf_last None)) (cf_last None)) false) (cf_last None).

Definition demo_result : nir_function_impl := match require_dominance (link_body demo_body) with Ret impl => impl | _ => link_body demo_body end.

Lemma demo_edge u v : v ∈ default [] (nir_successors demo_body !! u) -> v < 6 -> nir_edge demo_body u v.
Proof. intros H Hv. destruct (nir_successors demo_body !! u) as [s|] eqn:E; [exists s; auto | now apply not_elem_of_nil in H]. Qed.

Lemma demo_reach : nir_reachable (nir_edge demo_body) 4 /\ nir_reachable (nir_edge demo_body) 5.
Proof.
  assert (H1 : nir_reachable (nir_edge demo_body) 1) by (apply (reachable_edge _ 0); [constructor | apply demo_edge; [cbn; set_solver | lia]]).
  split.
  - apply (reachable_edge _ 3); [apply (reachable_edge _ 1); [assumption|]|]; (apply demo_edge; [cbn; set_solver | lia]).
  - apply (reachable_edge _ 2); [apply (reachable_edge _ 1); [assumption|]|]; (apply demo_edge; [cbn; set_solver | lia]).
Qed.

Lemma nir_imm_dom_correct_witness :
  imm_dom <$> blocks demo_result = [None; Some 0; Some 1; Some 1; Some 3; Some 2] /\
  strictly_dominates (nir_edge demo_body) 2 5.
Proof.
  split; [vm_compute; reflexivity|]. destruct (nir_imm_dom_correct demo_body (link_body demo_body) (link_body_input demo_body ltac:(vm_compute; reflexivity))) as (impl' & E & H).
  assert (Hr : demo_result = impl') by (unfold demo_result; now rewrite E). subst impl'.
  destruct (blocks demo_result !! 5) as [blk|] eqn:Hb; [|vm_compute in Hb; discriminate]. specialize (H 5 blk Hb).
  assert (Hd : imm_dom <$> blocks demo_result !! 5 = Some (Some 2)) by (vm_compute; reflexivity).
  rewrite Hb in Hd. injection Hd as Hd. rewrite Hd in H. apply H.
Defined.

Lemma nir_dom_frontier_correct_witness :
  dom_frontier <$> blocks demo_result = [[]; [1]; []; [1]; [1]; []] /\ exists p, nir_edge demo_body p 1 /\ dominates (nir_edge demo_body) 3 p.
Proof.
  split; [vm_compute; reflexivity|]. destruct (nir_dom_frontier_correct demo_body (link_body demo_body) (link_body_input demo_body ltac:(vm_compute; reflexivity))) as (impl' & E & H).
  assert (Hr : demo_result = impl') by (unfold demo_result; now rewrite E). subst impl'.
  destruct (blocks demo_result !! 3) as [blk|] eqn:Hb; [|vm_compute in Hb; discriminate].
  assert (Hf : dom_frontier <$> blocks demo_result !! 3 = Some [1]) by (vm_compute; reflexivity). rewrite Hb in Hf. injection Hf as Hf.
  assert (Hd : 1 ∈ dom_frontier blk) by (rewrite Hf; apply elem_of_cons; auto).
  apply (H 3 blk 1 Hb) in Hd as (p & Hp & _ & Hdom & _). eauto.
Defined.

Lemma nir_dominance_queries_witness :
  nir_block_dominates demo_result 4 5 = Ret false /\ nir_dominance_lca demo_result (Some 4) (Some 5) = Ret (Some 1) /\ ~ dominates (nir_edge demo_body) 4 5.
Proof.
  split; [vm_compute; reflexivity|]. split; [vm_compute; reflexivity|].
  destruct (nir_dominance_queries demo_body (link_body demo_body) 4 5 (link_body_input demo_body ltac:(vm_compute; reflexivity)) (proj1 demo_reach) (proj2 demo_reach)) as (impl' & E & (r & Hr & H) & _).
  assert (Hi : demo_result = impl') by (unfold demo_result; now rewrite E). subst impl'.
  assert (Hf : nir_block_dominates demo_result 4 5 = Ret false) by (vm_compute; reflexivity). rewrite Hf in Hr. injection Hr as <-. rewrite <- H. discriminate.
Defined.
