(* ===== verification/NirWorklist.v ===== *)
(** * Worklist of blocks: src/compiler/nir/nir_worklist.c

    A double-ended queue of blocks in a ring, each block in it at most once,
    with a bit set of the blocks present. *)

From stdpp Require Import base list sets numbers.
From Stdlib Require Import ZArith Lia.
From S2P Require Import Prelude Arrays Bitset NirCfg NirImpl.
#[local] Open Scope bool_scope.
#[local] Open Scope Z_scope.
#[local] Open Scope c_scope.

#[local] Arguments get : simpl never.
#[local] Arguments upd : simpl never.

(** Blocks are numbers, their index the same number. *)
Record nir_block_worklist := Worklist { wl_size : Z; wl_count : Z; wl_start : Z; blocks_present : list Z; wl_blocks : list nat }.

#[export] Instance nir_block_worklist_eta : Eta nir_block_worklist :=
  fun w => Worklist (wl_size w) (wl_count w) (wl_start w) (blocks_present w) (wl_blocks w).

Definition nir_block_worklist_init (n : Z) : nir_block_worklist :=
  Worklist n 0 0 (bitset_zero n) (replicate (Z.to_nat n) O).

Definition nir_block_worklist_is_empty (w : nir_block_worklist) : bool := wl_count w =? 0.

Definition nir_block_worklist_push_head (b : nat) (w : nir_block_worklist) : outcome nir_block_worklist :=
  if BITSET_TEST (blocks_present w) (Z.of_nat b) then Ret w else
  assert! (wl_count w <? wl_size w) ;;
  let start := if wl_start w =? 0 then u32 (wl_size w - 1) else u32 (wl_start w - 1) in
  Ret (w <| wl_start := start |> <| wl_count := u32 (wl_count w + 1) |> <| wl_blocks := upd start (fun _ => b) (wl_blocks w) |>
         <| blocks_present := BITSET_SET (blocks_present w) (Z.of_nat b) |>).

Definition nir_block_worklist_peek_head (w : nir_block_worklist) : outcome nat :=
  assert! (wl_count w >? 0) ;; Ret (get O (wl_blocks w) (wl_start w)).

Definition nir_block_worklist_pop_head (w : nir_block_worklist) : outcome (nat * nir_block_worklist) :=
  assert! (wl_count w >? 0) ;;
  let head := get O (wl_blocks w) (wl_start w) in
  Ret (head, w <| wl_start := u32 (wl_start w + 1) mod wl_size w |> <| wl_count := u32 (wl_count w - 1) |>
               <| blocks_present := BITSET_CLEAR (blocks_present w) (Z.of_nat head) |>).

Definition wl_tail (w : nir_block_worklist) : Z := u32 (wl_start w + wl_count w - 1) mod wl_size w.

Definition nir_block_worklist_push_tail (b : nat) (w : nir_block_worklist) : outcome nir_block_worklist :=
  if BITSET_TEST (blocks_present w) (Z.of_nat b) then Ret w else
  assert! (wl_count w <? wl_size w) ;;
  let w := w <| wl_count := u32 (wl_count w + 1) |> in
  Ret (w <| wl_blocks := upd (wl_tail w) (fun _ => b) (wl_blocks w) |>
         <| blocks_present := BITSET_SET (blocks_present w) (Z.of_nat b) |>).

Definition nir_block_worklist_peek_tail (w : nir_block_worklist) : outcome nat :=
  assert! (wl_count w >? 0) ;; Ret (get O (wl_blocks w) (wl_tail w)).

Definition nir_block_worklist_pop_tail (w : nir_block_worklist) : outcome (nat * nir_block_worklist) :=
  assert! (wl_count w >? 0) ;;
  let tail := get O (wl_blocks w) (wl_tail w) in
  Ret (tail, w <| wl_count := u32 (wl_count w - 1) |> <| blocks_present := BITSET_CLEAR (blocks_present w) (Z.of_nat tail) |>).

Definition nir_block_worklist_add_all (impl : nir_function_impl) (w : nir_block_worklist) : outcome nir_block_worklist :=
  nir_foreach_block nir_block_worklist_push_tail (length (blocks impl)) w.

(** ** The worklist as a sequence *)

(** The slot of the [k]-th element. *)
Definition wl_slot (w : nir_block_worklist) (k : Z) : Z := (wl_start w + k) mod wl_size w.

(** [w] holds the blocks [l] in this order. *)
Record holds_blocks (w : nir_block_worklist) (l : list nat) : Prop := {
  hb_size : 0 < wl_size w < 2 ^ 31;
  hb_start : 0 <= wl_start w < wl_size w;
  hb_array : len (wl_blocks w) = wl_size w;
  hb_bits : bitset_ok (blocks_present w) (wl_size w);
  hb_count : wl_count w = len l;
  hb_nodup : NoDup l;
  hb_present : forall b, BITSET_TEST (blocks_present w) (Z.of_nat b) = true <-> b ∈ l;
  hb_range : forall b, b ∈ l -> Z.of_nat b < wl_size w;
  hb_slots : forall k b, l !! k = Some b -> get O (wl_blocks w) (wl_slot w (Z.of_nat k)) = b }.

Lemma holds_room w l b : holds_blocks w l -> b ∉ l -> Z.of_nat b < wl_size w -> len l < wl_size w.
Proof.
  intros Hw Hb Hlt. assert (Hs : (length (b :: l) <= Z.to_nat (wl_size w))%nat); [|unfold len; cbn in Hs; pose proof (hb_size w l Hw); lia].
  rewrite <- (length_seq (Z.to_nat (wl_size w)) 0). apply submseteq_length, NoDup_submseteq; [constructor; [assumption | apply Hw]|].
  intros x Hx. apply elem_of_seq. apply elem_of_cons in Hx as [->|Hx]; [|apply (hb_range w l Hw) in Hx]; lia.
Qed.

Lemma holds_fit w l : holds_blocks w l -> len l <= wl_size w.
Proof.
  intros Hw. pose proof (hb_size w l Hw). unfold len. rewrite <- (Z2Nat.id (wl_size w)) by lia. apply Nat2Z.inj_le.
  rewrite <- (length_seq (Z.to_nat (wl_size w)) 0). apply submseteq_length, NoDup_submseteq; [apply Hw|].
  intros x Hx%(hb_range _ _ Hw). apply elem_of_seq. lia.
Qed.

(** Two elements are in different slots. *)
Lemma slot_inj w a b : 0 < wl_size w -> 0 <= a < wl_size w -> 0 <= b < wl_size w -> wl_slot w a = wl_slot w b -> a = b.
Proof.
  intros Hs Ha Hb. unfold wl_slot. intros E. pose proof (Z.div_mod (wl_start w + a) (wl_size w) ltac:(lia)) as Ea.
  pose proof (Z.div_mod (wl_start w + b) (wl_size w) ltac:(lia)) as Eb. rewrite E in Ea.
  pose proof (Z.mod_pos_bound (wl_start w + b) (wl_size w) Hs).
  assert ((wl_start w + a) / wl_size w = (wl_start w + b) / wl_size w); nia.
Qed.

Lemma len_cons {A} (a : A) l : len (a :: l) = len l + 1.
Proof. unfold len. cbn. lia. Qed.

Lemma init_holds n : 0 < n < 2 ^ 31 -> holds_blocks (nir_block_worklist_init n) [].
Proof.
  intros Hn. split; cbn; try lia; try reflexivity.
  - unfold len. rewrite length_replicate. lia.
  - apply bitset_zero_ok. lia.
  - constructor.
  - intros b. rewrite bitset_zero_test. split; [discriminate | intros H; now apply not_elem_of_nil in H].
  - intros b H. now apply not_elem_of_nil in H.
  - intros k b H. now rewrite lookup_nil in H.
Qed.

Lemma present_false w l b : holds_blocks w l -> b ∉ l -> BITSET_TEST (blocks_present w) (Z.of_nat b) = false.
Proof. intros Hw Hb. apply not_true_is_false. now rewrite (hb_present w l Hw). Qed.

Lemma present_set w l b (l' : list nat) : holds_blocks w l -> Z.of_nat b < wl_size w -> (forall c, c ∈ l' <-> c = b \/ c ∈ l) ->
  forall c, BITSET_TEST (BITSET_SET (blocks_present w) (Z.of_nat b)) (Z.of_nat c) = true <-> c ∈ l'.
Proof.
  intros Hw Hb Hl c. rewrite (BITSET_TEST_SET _ (wl_size w)), orb_true_iff, Z.eqb_eq, (hb_present w l Hw), Hl by (try apply Hw; lia). split; (intros [|]; [left; lia | auto]).
Qed.

Lemma present_clear w l b (l' : list nat) : holds_blocks w l -> Z.of_nat b < wl_size w -> (forall c, c ∈ l' <-> c <> b /\ c ∈ l) ->
  forall c, BITSET_TEST (BITSET_CLEAR (blocks_present w) (Z.of_nat b)) (Z.of_nat c) = true <-> c ∈ l'.
Proof.
  intros Hw Hb Hl c. rewrite (BITSET_TEST_CLEAR _ (wl_size w)), andb_true_iff, negb_true_iff, Z.eqb_neq, (hb_present w l Hw), Hl by (try apply Hw; lia). split; intros [? ?]; auto with lia.
Qed.

(** The start moves back by one slot. *)
Lemma start_back size s : 0 < size < 2 ^ 31 -> 0 <= s < size ->
  let t := if s =? 0 then u32 (size - 1) else u32 (s - 1) in 0 <= t < size /\ (t + 1) mod size = s.
Proof.
  intros Hs Hst. cbv zeta. destruct (Z.eqb_spec s 0) as [->|]; rewrite wrap_small by lia; (split; [lia|]).
  - replace (size - 1 + 1) with (1 * size) by lia. apply Z_mod_mult.
  - rewrite Z.mod_small; lia.
Qed.

Lemma push_head_spec w l b : holds_blocks w l -> Z.of_nat b < wl_size w ->
  exists w', nir_block_worklist_push_head b w = Ret w' /\ wl_size w' = wl_size w /\ holds_blocks w' (if decide (b ∈ l) then l else b :: l).
Proof.
  intros Hw Hb. unfold nir_block_worklist_push_head. destruct (decide (b ∈ l)) as [Hin|Hout].
  - rewrite (proj2 (hb_present w l Hw b) Hin). eauto.
  - rewrite (present_false w l b Hw Hout). pose proof (holds_room w l b Hw Hout Hb) as Hroom. pose proof (hb_size w l Hw) as Hsz. pose proof (hb_start w l Hw) as Hst.
    rewrite (hb_count w l Hw), (proj2 (Z.ltb_lt _ _)) by assumption. cbn [c_assert].
    destruct (start_back (wl_size w) (wl_start w) Hsz Hst) as [Ht Hmod]. cbv zeta in Ht, Hmod. set (t := if wl_start w =? 0 then _ else _) in *.
    eexists. split; [reflexivity|]. split; [reflexivity|]. pose proof (len_nonneg l). split; cbn; try assumption.
    + rewrite len_upd. apply Hw.
    + apply BITSET_SET_ok, Hw.
    + rewrite wrap_small by lia. rewrite len_cons. lia.
    + constructor; [assumption | apply Hw].
    + apply (present_set w l); [assumption.. | intros c; now rewrite elem_of_cons].
    + intros c [->|Hc]%elem_of_cons; [assumption | now apply (hb_range w l Hw)].
    + intros k c Hk. unfold wl_slot. cbn. rewrite get_upd; [|rewrite (hb_array w l Hw); lia | apply Z.mod_pos_bound; lia].
      destruct k as [|k]; [injection Hk as ->; rewrite Z.add_0_r, Z.mod_small, Z.eqb_refl by lia; reflexivity|]. cbn in Hk.
      assert (Hks : (t + Z.of_nat (S k)) mod wl_size w = wl_slot w (Z.of_nat k)).
      { unfold wl_slot. rewrite <- Hmod, Zplus_mod_idemp_l. f_equal. lia. }
      rewrite Hks. apply lookup_lt_Some in Hk as Hlt. destruct (Z.eqb_spec (wl_slot w (Z.of_nat k)) t) as [E|]; [|now apply (hb_slots w l Hw)]. exfalso.
      assert (Et : t = wl_slot w (wl_size w - 1)).
      { unfold wl_slot. rewrite <- Hmod, Zplus_mod_idemp_l. replace (t + 1 + (wl_size w - 1)) with (t + 1 * wl_size w) by lia. rewrite Z_mod_plus_full, Z.mod_small; lia. }
      rewrite Et in E. apply slot_inj in E; unfold len in *; lia.
Qed.

Lemma push_tail_spec w l b : holds_blocks w l -> Z.of_nat b < wl_size w ->
  exists w', nir_block_worklist_push_tail b w = Ret w' /\ wl_size w' = wl_size w /\ holds_blocks w' (if decide (b ∈ l) then l else l ++ [b]).
Proof.
  intros Hw Hb. unfold nir_block_worklist_push_tail. destruct (decide (b ∈ l)) as [Hin|Hout].
  - rewrite (proj2 (hb_present w l Hw b) Hin). eauto.
  - rewrite (present_false w l b Hw Hout). pose proof (holds_room w l b Hw Hout Hb) as Hroom. pose proof (hb_size w l Hw) as Hsz. pose proof (hb_start w l Hw) as Hst. pose proof (len_nonneg l).
    rewrite (hb_count w l Hw), (proj2 (Z.ltb_lt _ _)) by assumption. cbn [c_assert].
    assert (Htail : wl_tail (w <| wl_count := u32 (len l + 1) |>) = wl_slot w (len l)).
    { unfold wl_tail, wl_slot. cbn. rewrite (wrap_small 32 (len l + 1)), wrap_small by lia. f_equal. lia. }
    rewrite Htail. eexists. split; [reflexivity|]. split; [reflexivity|]. split; cbn; try assumption.
    + rewrite len_upd. apply Hw.
    + apply BITSET_SET_ok, Hw.
    + rewrite wrap_small by lia. unfold len. rewrite length_app. cbn. lia.
    + apply list.NoDup_app. split; [apply Hw|]. split; [intros c Hc ->%list_elem_of_singleton; contradiction | apply NoDup_singleton].
    + apply (present_set w l); [assumption.. | intros c]. rewrite elem_of_app, list_elem_of_singleton. tauto.
    + intros c [Hc| ->%list_elem_of_singleton]%elem_of_app; [now apply (hb_range w l Hw) | assumption].
    + intros k c Hk. change (get O (upd (wl_slot w (len l)) (fun _ => b) (wl_blocks w)) (wl_slot w (Z.of_nat k)) = c).
      assert (Hslot : forall i, 0 <= wl_slot w i < wl_size w) by (intros i; apply Z.mod_pos_bound; lia).
      rewrite get_upd; [|rewrite (hb_array w l Hw); apply Hslot | apply Hslot].
      apply lookup_app_Some in Hk as [Hk|[Hge Hk]].
      * apply lookup_lt_Some in Hk as Hlt. destruct (Z.eqb_spec (wl_slot w (Z.of_nat k)) (wl_slot w (len l))) as [E|]; [|now apply (hb_slots w l Hw)].
        apply slot_inj in E; unfold len in *; lia.
      * destruct (k - length l)%nat as [|m] eqn:Em; [|now destruct m]. injection Hk as ->. replace (Z.of_nat k) with (len l) by (unfold len; lia). now rewrite Z.eqb_refl.
Qed.

Lemma pop_head_spec w b l : holds_blocks w (b :: l) ->
  nir_block_worklist_peek_head w = Ret b /\
  exists w', nir_block_worklist_pop_head w = Ret (b, w') /\ wl_size w' = wl_size w /\ holds_blocks w' l.
Proof.
  intros Hw. pose proof (hb_size _ _ Hw) as Hsz. pose proof (hb_start _ _ Hw) as Hst. pose proof (hb_count _ _ Hw) as Hc. rewrite len_cons in Hc. pose proof (len_nonneg l).
  assert (Hhead : get O (wl_blocks w) (wl_start w) = b).
  { pose proof (hb_slots _ _ Hw O b eq_refl) as H0. unfold wl_slot in H0. rewrite Z.add_0_r, Z.mod_small in H0 by lia. exact H0. }
  unfold nir_block_worklist_peek_head, nir_block_worklist_pop_head. rewrite Z.gtb_ltb, (proj2 (Z.ltb_lt _ _)) by lia. cbn [c_assert]. rewrite Hhead. split; [reflexivity|].
  eexists. split; [reflexivity|]. split; [reflexivity|]. pose proof (hb_nodup _ _ Hw) as [Hout Hnd]%list.NoDup_cons.
  assert (Hbr : Z.of_nat b < wl_size w) by (apply (hb_range _ _ Hw), elem_of_cons; auto).
  pose proof (holds_fit _ _ Hw) as Hlen.
  rewrite len_cons in Hlen. split; cbn; try assumption.
  - apply Z.mod_pos_bound. lia.
  - apply Hw.
  - apply BITSET_CLEAR_ok, Hw.
  - rewrite wrap_small by lia. lia.
  - apply (present_clear w (b :: l)); [assumption.. | intros c]. rewrite elem_of_cons. split; [intros Hc'; split; [congruence | auto] | tauto].
  - intros c Hc'. apply (hb_range _ _ Hw), elem_of_cons. auto.
  - intros k c Hk. rewrite <- (hb_slots _ _ Hw (S k) c Hk).
    change (get O (wl_blocks w) ((u32 (wl_start w + 1) mod wl_size w + Z.of_nat k) mod wl_size w) = get O (wl_blocks w) (wl_slot w (Z.of_nat (S k)))).
    f_equal. unfold wl_slot. rewrite (wrap_small 32) by lia. rewrite Zplus_mod_idemp_l. f_equal. lia.
Qed.

Lemma pop_tail_spec w b l : holds_blocks w (l ++ [b]) ->
  nir_block_worklist_peek_tail w = Ret b /\
  exists w', nir_block_worklist_pop_tail w = Ret (b, w') /\ wl_size w' = wl_size w /\ holds_blocks w' l.
Proof.
  intros Hw. pose proof (hb_size _ _ Hw) as Hsz. pose proof (hb_start _ _ Hw) as Hst. pose proof (hb_count _ _ Hw) as Hc. pose proof (len_nonneg l).
  assert (Hlen : len (l ++ [b]) = len l + 1) by (unfold len; rewrite length_app; cbn; lia). rewrite Hlen in Hc.
  pose proof (holds_fit _ _ Hw) as Hle.
  assert (Htail : get O (wl_blocks w) (wl_tail w) = b).
  { rewrite <- (hb_slots _ _ Hw (length l) b); [|rewrite lookup_app_r, Nat.sub_diag by lia; reflexivity]. f_equal. unfold wl_tail, wl_slot. rewrite wrap_small by lia. f_equal. unfold len in *. lia. }
  unfold nir_block_worklist_peek_tail, nir_block_worklist_pop_tail. rewrite Z.gtb_ltb, (proj2 (Z.ltb_lt _ _)) by lia. cbn [c_assert]. rewrite Htail. split; [reflexivity|].
  eexists. split; [reflexivity|]. split; [reflexivity|]. pose proof (hb_nodup _ _ Hw) as (Hnd & Hout & _)%list.NoDup_app.
  assert (Hbr : Z.of_nat b < wl_size w) by (apply (hb_range _ _ Hw), elem_of_app; right; now apply list_elem_of_singleton).
  split; cbn; try assumption.
  - apply Hw.
  - apply BITSET_CLEAR_ok, Hw.
  - rewrite wrap_small by lia. lia.
  - apply (present_clear w (l ++ [b])); [assumption.. | intros c]. rewrite elem_of_app, list_elem_of_singleton. split; [intros Hc'; split; [intros ->; apply (Hout b Hc'), list_elem_of_singleton; reflexivity | auto] | tauto].
  - intros c Hc'. apply (hb_range _ _ Hw), elem_of_app. auto.
  - intros k c Hk. apply (hb_slots _ _ Hw k c). now apply lookup_app_l_Some.
Qed.

(** ** Refinement *)

(** The calls a client makes, and what they return. *)
Inductive wl_op :=
| Op_push_head (b : nat) | Op_push_tail (b : nat) | Op_peek_head | Op_pop_head | Op_peek_tail | Op_pop_tail | Op_is_empty.

Inductive wl_result := Res_none | Res_block (b : nat) | Res_bool (t : bool).

Definition wl_call (o : wl_op) (w : nir_block_worklist) : outcome (wl_result * nir_block_worklist) :=
  match o with
  | Op_push_head b => omap_out (pair Res_none) (nir_block_worklist_push_head b w)
  | Op_push_tail b => omap_out (pair Res_none) (nir_block_worklist_push_tail b w)
  | Op_peek_head => omap_out (fun b => (Res_block b, w)) (nir_block_worklist_peek_head w)
  | Op_pop_head => omap_out (fun r => (Res_block r.1, r.2)) (nir_block_worklist_pop_head w)
  | Op_peek_tail => omap_out (fun b => (Res_block b, w)) (nir_block_worklist_peek_tail w)
  | Op_pop_tail => omap_out (fun r => (Res_block r.1, r.2)) (nir_block_worklist_pop_tail w)
  | Op_is_empty => Ret (Res_bool (nir_block_worklist_is_empty w), w)
  end.

Fixpoint wl_calls (ops : list wl_op) (w : nir_block_worklist) : outcome (list wl_result) :=
  match ops with
  | [] => Ret []
  | o :: ops => let! (r, w) := wl_call o w in omap_out (cons r) (wl_calls ops w)
  end.

(** The abstract queue: a list without duplicates. *)
Definition deque_call (o : wl_op) (l : list nat) : option (wl_result * list nat) :=
  match o with
  | Op_push_head b => Some (Res_none, if decide (b ∈ l) then l else b :: l)
  | Op_push_tail b => Some (Res_none, if decide (b ∈ l) then l else l ++ [b])
  | Op_peek_head => (fun b => (Res_block b, l)) <$> list.head l
  | Op_pop_head => (fun b => (Res_block b, tail l)) <$> list.head l
  | Op_peek_tail => (fun b => (Res_block b, l)) <$> list.last l
  | Op_pop_tail => (fun b => (Res_block b, take (pred (length l)) l)) <$> list.last l
  | Op_is_empty => Some (Res_bool (bool_decide (l = [])), l)
  end.

Fixpoint deque_calls (ops : list wl_op) (l : list nat) : option (list wl_result) :=
  match ops with
  | [] => Some []
  | o :: ops => match deque_call o l with Some (r, l) => cons r <$> deque_calls ops l | None => None end
  end.

Definition pushes_below (n : Z) (o : wl_op) : Prop :=
  match o with Op_push_head b | Op_push_tail b => Z.of_nat b < n | _ => True end.

Lemma empty_ops w : holds_blocks w [] ->
  nir_block_worklist_peek_head w = Assert_failed /\ nir_block_worklist_pop_head w = Assert_failed /\
  nir_block_worklist_peek_tail w = Assert_failed /\ nir_block_worklist_pop_tail w = Assert_failed.
Proof.
  intros Hw. unfold nir_block_worklist_peek_head, nir_block_worklist_pop_head, nir_block_worklist_peek_tail, nir_block_worklist_pop_tail.
  rewrite (hb_count _ _ Hw). auto.
Qed.

Lemma is_empty_spec w l : holds_blocks w l -> nir_block_worklist_is_empty w = bool_decide (l = []).
Proof. intros Hw. unfold nir_block_worklist_is_empty. rewrite (hb_count _ _ Hw). now destruct l. Qed.

(** One call on the ring and on the abstract queue. *)
Lemma wl_call_spec o w l : holds_blocks w l -> pushes_below (wl_size w) o ->
  match deque_call o l with
  | Some (r, l') => exists w', wl_call o w = Ret (r, w') /\ wl_size w' = wl_size w /\ holds_blocks w' l'
  | None => wl_call o w = Assert_failed
  end.
Proof.
  intros Hw Hb. destruct o as [b|b| | | | |]; cbn [deque_call wl_call].
  - destruct (push_head_spec w l b Hw Hb) as (w' & -> & Hs & H). exists w'. auto.
  - destruct (push_tail_spec w l b Hw Hb) as (w' & -> & Hs & H). exists w'. auto.
  - destruct l as [|b l]; cbn; [now rewrite (proj1 (empty_ops w Hw))|]. rewrite (proj1 (pop_head_spec w b l Hw)). exists w. auto.
  - destruct l as [|b l]; cbn; [now rewrite (proj1 (proj2 (empty_ops w Hw)))|].
    destruct (proj2 (pop_head_spec w b l Hw)) as (w' & -> & Hs & H). exists w'. auto.
  - destruct l as [|b l _] using rev_ind; cbn; [now rewrite (proj1 (proj2 (proj2 (empty_ops w Hw))))|].
    rewrite last_snoc, (proj1 (pop_tail_spec w b l Hw)). exists w. auto.
  - destruct l as [|b l _] using rev_ind; cbn; [now rewrite (proj2 (proj2 (proj2 (empty_ops w Hw))))|].
    rewrite last_snoc. cbn. destruct (proj2 (pop_tail_spec w b l Hw)) as (w' & -> & Hs & H). exists w'.
    rewrite length_app, Nat.add_1_r. cbn. rewrite take_app_length. auto.
  - exists w. rewrite (is_empty_spec w l Hw). auto.
Qed.

Lemma wl_calls_spec ops : forall w l, holds_blocks w l -> Forall (pushes_below (wl_size w)) ops ->
  wl_calls ops w = match deque_calls ops l with Some rs => Ret rs | None => Assert_failed end.
Proof.
  induction ops as [|o ops IH]; intros w l Hw Ho; [reflexivity|]. apply list.Forall_cons in Ho as [Ho Hops]. cbn.
  pose proof (wl_call_spec o w l Hw Ho) as H. destruct (deque_call o l) as [[r l']|]; cbn; [|now rewrite H].
  destruct H as (w' & -> & Hs & H). cbn. rewrite (IH w' l') by (rewrite ?Hs; assumption). now destruct (deque_calls ops l').
Qed.

(** C32: the worklist is a double-ended queue without duplicates: after
    initialisation for [n] blocks, any sequence of calls returns what the
    same calls on a list return, where a push of a block already present does
    nothing, and a peek or pop fails its assertion exactly on an empty list.
    No push ever finds the ring full, and the ring's arithmetic never goes
    outside the array, wrap-around included. *)
Theorem worklist_refines_deque n ops : 0 < n < 2 ^ 31 -> Forall (pushes_below n) ops ->
  wl_calls ops (nir_block_worklist_init n) = match deque_calls ops [] with Some rs => Ret rs | None => Assert_failed end.
Proof. intros Hn Ho. apply wl_calls_spec; [now apply init_holds | exact Ho]. Qed.

Lemma worklist_refines_deque_witness :
  wl_calls [Op_push_head 2; Op_push_tail 0; Op_push_head 1; Op_push_tail 2; Op_pop_tail; Op_pop_head; Op_is_empty] (nir_block_worklist_init 3) =
  Ret [Res_none; Res_none; Res_none; Res_none; Res_block 0; Res_block 1; Res_bool false].
Proof.
  rewrite (worklist_refines_deque 3) by (first [lia | repeat constructor; cbn; lia]). vm_compute. reflexivity.
Defined.
