(* ===== verification/NirLiveness.v ===== *)
(** * Liveness of SSA values: src/compiler/nir/nir_liveness.c

    The backward data-flow analysis over a worklist of blocks, with bit sets
    indexed by [live_index], and the interference test that uses its result.
    The function's block indices must be valid, as its callers ensure. *)

From stdpp Require Import base list sets numbers.
From Stdlib Require Import ZArith.
From S2P Require Import Prelude Arrays Bitset NirCfg NirImpl NirWorklist.
#[local] Open Scope bool_scope.
#[local] Open Scope Z_scope.
#[local] Open Scope c_scope.

(** ** Live indices *)

Definition live_index_of (impl : nir_function_impl) (d : nat) : Z := default 0 (live_index <$> ssa_defs impl !! d).

(** Definitions made by [ssa_undef] instructions share the index 0. *)
Definition index_ssa_def (i : nir_instr) (d : nat) (st : list nir_ssa_def * Z) : list nir_ssa_def * Z :=
  let (defs, num_ssa_defs) := st in
  if decide (instr_type i = nir_instr_type_ssa_undef) then (alter (fun x => x <| live_index := 0 |>) d defs, num_ssa_defs)
  else (alter (fun x => x <| live_index := num_ssa_defs |>) d defs, u32 (num_ssa_defs + 1)).

(** The definitions of the function, each with its instruction, in the order in
    which they are indexed. *)
Definition instr_defs (i : nir_instr) : list (nir_instr * nat) := pair i <$> nir_foreach_ssa_def i.
Definition block_defs (b : nir_block) : list (nir_instr * nat) := instr_list b ≫= instr_defs.
Definition all_defs (impl : nir_function_impl) : list (nir_instr * nat) := blocks impl ≫= block_defs.

Definition index_ssa_defs (impl : nir_function_impl) : list nir_ssa_def * Z :=
  foldl (fun st x => index_ssa_def x.1 x.2 st) (ssa_defs impl, 1) (all_defs impl).

(** ** Sets of live values *)

Definition set_src_live (impl : nir_function_impl) (s : nir_src) (live : list Z) : list Z :=
  match s with
  | Src_reg _ => live
  | Src_ssa d => if live_index_of impl d =? 0 then live else BITSET_SET live (live_index_of impl d)
  end.

Definition set_ssa_def_dead (impl : nir_function_impl) (d : nat) (live : list Z) : list Z := BITSET_CLEAR live (live_index_of impl d).

(** The phis at the start of a block. *)
Fixpoint leading_phis (l : list nir_instr) : list nir_instr :=
  match l with
  | i :: l => if is_phi i then i :: leading_phis l else []
  | [] => []
  end.

(** Kill the destination of a phi. *)
Definition kill_phi (impl : nir_function_impl) (i : nir_instr) (live : list Z) : outcome (list Z) :=
  match dests i with
  | Dest_ssa d :: _ => Ret (set_ssa_def_dead impl d live)
  | _ => Assert_failed
  end.

(** The source of a phi for the predecessor [pred]: the first in the list. *)
Definition phi_src_of (pred : nat) (i : nir_instr) : option nir_src :=
  snd <$> (snd <$> list_find (fun s => s.1 = pred) (phi_srcs i)).

Definition use_phi (impl : nir_function_impl) (pred : nat) (i : nir_instr) (live : list Z) : list Z :=
  match phi_src_of pred i with Some s => set_src_live impl s live | None => live end.

(** [progress |= live[i] & ~pred->live_out[i]] over all words. *)
Definition new_bits (live live_out : list Z) : Z :=
  foldl Z.lor 0 (zip_with (fun l o => Z.land l (u32 (Z.lnot o))) live live_out).

Definition propagate_across_edge (pred succ : nat) (impl : nir_function_impl) : outcome (bool * nir_function_impl) :=
  let! s := deref impl succ in
  let phis := leading_phis (instr_list s) in
  let! live := for_each (kill_phi impl) phis (live_in s) in
  let live := foldl (fun live i => use_phi impl pred i live) live phis in
  let! p := deref impl pred in
  let progress := new_bits live (live_out p) in
  Ret (negb (progress =? 0), set_block pred (fun blk => blk <| live_out := zip_with Z.lor (live_out blk) live |>) impl).

(** ** The analysis *)

(** The instructions in reverse order up to the first phi. *)
Fixpoint before_phi (l : list nir_instr) : list nir_instr :=
  match l with
  | i :: l => if is_phi i then [] else i :: before_phi l
  | [] => []
  end.

Definition live_before (impl : nir_function_impl) (i : nir_instr) (live : list Z) : list Z :=
  let live := foldl (fun live d => set_ssa_def_dead impl d live) live (nir_foreach_ssa_def i) in
  foldl (fun live s => set_src_live impl s live) live (nir_foreach_src i).

(** The values live at the start of a block, from those live at its end. *)
Definition block_live_in (impl : nir_function_impl) (blk : nir_block) : list Z :=
  let live := match condition blk with Some s => set_src_live impl s (live_out blk) | None => live_out blk end in
  foldl (fun live i => live_before impl i live) live (before_phi (reverse (instr_list blk))).

Definition visit_pred (b pred : nat) (st : nir_function_impl * nir_block_worklist) : outcome (nir_function_impl * nir_block_worklist) :=
  let (impl, w) := st in
  let! (progress, impl) := propagate_across_edge pred b impl in
  if (progress : bool) then
    let! w := nir_block_worklist_push_tail pred w in
    Ret (impl, w)
  else Ret (impl, w).

(** One round of the worklist loop. *)
Definition visit_block (st : nir_function_impl * nir_block_worklist) : outcome (nir_function_impl * nir_block_worklist) :=
  let (impl, w) := st in
  let! (b, w) := nir_block_worklist_pop_head w in
  let! blk := deref impl b in
  let impl := set_block b (fun blk => blk <| live_in := block_live_in impl blk |>) impl in
  for_each (visit_pred b) (predecessors blk) (impl, w).

Fixpoint liveness_loop (fuel : nat) (st : nir_function_impl * nir_block_worklist) : outcome nir_function_impl :=
  if nir_block_worklist_is_empty (snd st) then Ret (fst st) else
  match fuel with
  | O => Out_of_fuel
  | S fuel => let! st := visit_block st in liveness_loop fuel st
  end.

Definition init_liveness_block (num_ssa_defs : Z) (b : nat) (st : nir_function_impl * nir_block_worklist)
    : outcome (nir_function_impl * nir_block_worklist) :=
  let (impl, w) := st in
  let impl := set_block b (fun blk => blk <| live_in := bitset_zero num_ssa_defs |> <| live_out := bitset_zero num_ssa_defs |>) impl in
  let! w := nir_block_worklist_push_head b w in
  Ret (impl, w).

(** Every round but those of the first pass follows the growth of a live-out
    set by one bit. *)
Definition liveness_fuel (impl : nir_function_impl) (num_ssa_defs : Z) : nat :=
  let n := length (blocks impl) in (n * Z.to_nat (BITSET_WORDBITS * BITSET_WORDS num_ssa_defs) + n)%nat.

Definition nir_live_ssa_defs_impl (impl : nir_function_impl) : outcome nir_function_impl :=
  let (defs, num_ssa_defs) := index_ssa_defs impl in
  let impl := impl <| ssa_defs := defs |> in
  let w := nir_block_worklist_init (num_blocks impl) in
  let! st := nir_foreach_block (init_liveness_block num_ssa_defs) (length (blocks impl)) (impl, w) in
  liveness_loop (liveness_fuel impl num_ssa_defs) st.

(** ** Interference *)

Definition src_uses_def (d : nat) (s : nir_src) : bool := match s with Src_ssa d' => bool_decide (d' = d) | Src_reg _ => false end.

(** The instructions after the one at position [pos]. *)
Definition search_for_use_after_instr (blk : nir_block) (pos : nat) (d : nat) : bool :=
  existsb (fun i => existsb (src_uses_def d) (nir_foreach_src i)) (drop (S pos) (instr_list blk)).

Definition def_at (impl : nir_function_impl) (d : nat) : outcome nir_ssa_def :=
  match ssa_defs impl !! d with Some x => Ret x | None => Assert_failed end.

Definition nir_ssa_def_is_live_at (impl : nir_function_impl) (d : nat) (instr : nat * nat) : outcome bool :=
  let! def := def_at impl d in
  let! blk := deref impl (fst instr) in
  if BITSET_TEST (live_out blk) (live_index def) then Ret true
  else if BITSET_TEST (live_in blk) (live_index def) || bool_decide (fst (parent_instr def) = fst instr)
  then Ret (search_for_use_after_instr blk (snd instr) d)
  else Ret false.

Definition nir_ssa_defs_interfere (impl : nir_function_impl) (a b : nat) : outcome bool :=
  let! da := def_at impl a in
  let! db := def_at impl b in
  if bool_decide (parent_instr da = parent_instr db) then Ret true
  else if (live_index da =? 0) || (live_index db =? 0) then Ret false
  else if live_index da <? live_index db then nir_ssa_def_is_live_at impl a (parent_instr db)
  else nir_ssa_def_is_live_at impl b (parent_instr da).
