(* ===== verification/NirLiveFacts.v ===== *)
(** * Transfer functions of the liveness analysis (nir_liveness.c)

    What each step of the analysis does to the set of live values, when the
    live indices tell the values apart. *)

From stdpp Require Import base list sets numbers.
From Stdlib Require Import ZArith Lia.
From S2P Require Import Prelude Arrays Bitset NirCfg NirImpl NirWorklist NirLiveness.
#[local] Open Scope bool_scope.
#[local] Open Scope Z_scope.
#[local] Open Scope c_scope.

(** ** Live indices *)

(** [index_ssa_defs] gives the definitions of [l] that are not undefined
    consecutive indices from [k] to below [k']. *)
Record indexes (l : list (nir_instr * nat)) (defs defs' : list nir_ssa_def) (k k' : Z) : Prop := {
  ix_length : length defs' = length defs;
  ix_more : k <= k' <= k + len l;
  ix_other : forall d, d ∉ l.*2 -> defs' !! d = defs !! d;
  ix_undef : forall i d x, (i, d) ∈ l -> instr_type i = nir_instr_type_ssa_undef -> defs' !! d = Some x -> live_index x = 0;
  ix_range : forall i d x, (i, d) ∈ l -> instr_type i <> nir_instr_type_ssa_undef -> defs' !! d = Some x -> k <= live_index x < k';
  ix_inj : forall i j d e x y, (i, d) ∈ l -> (j, e) ∈ l -> instr_type i <> nir_instr_type_ssa_undef -> instr_type j <> nir_instr_type_ssa_undef ->
    defs' !! d = Some x -> defs' !! e = Some y -> live_index x = live_index y -> d = e;
  ix_order : forall i j d e x y, [(i, d); (j, e)] `sublist_of` l -> instr_type i <> nir_instr_type_ssa_undef -> instr_type j <> nir_instr_type_ssa_undef ->
    defs' !! d = Some x -> defs' !! e = Some y -> live_index x < live_index y;
  ix_parent : forall d, parent_instr <$> defs' !! d = parent_instr <$> defs !! d }.

Lemma index_ssa_defs_spec l : forall defs k, NoDup l.*2 -> 0 < k -> k + len l < 2 ^ 32 ->
  exists defs' k', foldl (fun st x => index_ssa_def x.1 x.2 st) (defs, k) l = (defs', k') /\ indexes l defs defs' k k'.
Proof.
  induction l as [|[i d] l IH]; intros defs k Hnd Hk Hlt.
  - exists defs, k. split; [reflexivity|]. split; try easy; intros; unfold len; cbn in *; set_solver by lia.
  - cbn in Hnd. apply list.NoDup_cons in Hnd as [Hd Hnd]. rewrite len_cons in Hlt. pose proof (len_nonneg l).
    cbn [foldl fst snd]. unfold index_ssa_def at 2.
    set (k1 := if decide (instr_type i = nir_instr_type_ssa_undef) then k else k + 1).
    set (v := if decide (instr_type i = nir_instr_type_ssa_undef) then 0 else k).
    assert (E : (if decide (instr_type i = nir_instr_type_ssa_undef) then (alter (fun x => x <| live_index := 0 |>) d defs, k)
      else (alter (fun x => x <| live_index := k |>) d defs, u32 (k + 1))) = (alter (fun x => x <| live_index := v |>) d defs, k1)).
    { unfold k1, v. destruct (decide _); [reflexivity|]. rewrite wrap_small by lia. reflexivity. }
    rewrite E. destruct (IH (alter (fun x => x <| live_index := v |>) d defs) k1 Hnd) as (defs' & k' & E' & H'); [unfold k1; destruct (decide _); lia..|].
    exists defs', k'. split; [exact E'|].
    assert (Hk1 : k <= k1 <= k + 1) by (unfold k1; destruct (decide _); lia).
    assert (Hhere : forall x, defs' !! d = Some x -> live_index x = v).
    { intros x. rewrite (ix_other _ _ _ _ _ H' d Hd), list_lookup_alter_eq. destruct (defs !! d); [|discriminate]. now intros [= <-]. }
    assert (Hlow : forall j e x y, (j, e) ∈ l -> instr_type i <> nir_instr_type_ssa_undef -> instr_type j <> nir_instr_type_ssa_undef ->
      defs' !! d = Some x -> defs' !! e = Some y -> live_index x < live_index y).
    { intros j e x y Hje Hi Hj Hx Hy. rewrite (Hhere x Hx). pose proof (ix_range _ _ _ _ _ H' _ _ _ Hje Hj Hy). revert H0. unfold v, k1. destruct (decide _); [contradiction | lia]. }
    split.
    + now rewrite (ix_length _ _ _ _ _ H'), length_alter.
    + pose proof (ix_more _ _ _ _ _ H'). rewrite len_cons. lia.
    + intros e He. cbn in He. rewrite not_elem_of_cons in He. rewrite (ix_other _ _ _ _ _ H') by tauto. apply list_lookup_alter_ne. intros ->. tauto.
    + intros j e x [[= -> ->]|Hin]%elem_of_cons Hj Hx; [rewrite (Hhere x Hx); unfold v; now destruct (decide _) | now apply (ix_undef _ _ _ _ _ H' j e)].
    + intros j e x [[= -> ->]|Hin]%elem_of_cons Hj Hx.
      * pose proof (ix_more _ _ _ _ _ H'). rewrite (Hhere x Hx). revert H0. unfold v, k1. destruct (decide _); [contradiction | lia].
      * pose proof (ix_range _ _ _ _ _ H' _ _ _ Hin Hj Hx). lia.
    + intros a b e f x y [[= -> ->]|He]%elem_of_cons [[= -> ->]|Hf]%elem_of_cons Ha Hb Hx Hy Exy; [reflexivity | | | now apply (ix_inj _ _ _ _ _ H' a b e f x y)].
      * pose proof (Hlow b f x y Hf Ha Hb Hx Hy). lia.
      * pose proof (Hlow a e y x He Hb Ha Hy Hx). lia.
    + intros a b e f x y [Hs|(l' & [= -> -> <-] & Hs)]%sublist_cons_r Ha Hb Hx Hy; [now apply (ix_order _ _ _ _ _ H' a b e f)|].
      apply (Hlow b f x y); try assumption. apply (sublist_subseteq _ _ Hs). now left.
    + intros e. rewrite (ix_parent _ _ _ _ _ H'). destruct (decide (e = d)) as [->|Hne]; [rewrite list_lookup_alter_eq; now destruct (defs !! d) | now rewrite list_lookup_alter_ne by auto].
Qed.

(** ** Sets of values *)

(** The indices of the [known] values tell those apart that are not undefined
    and are below [N]. *)
Record live_indexing (impl : nir_function_impl) (N : Z) (known : nat -> Prop) : Prop := {
  li_range : forall d, known d -> 0 <= live_index_of impl d < N;
  li_inj : forall d e, known d -> known e -> live_index_of impl d <> 0 -> live_index_of impl d = live_index_of impl e -> d = e }.

Definition has (impl : nir_function_impl) (x : list Z) (d : nat) : Prop := BITSET_TEST x (live_index_of impl d) = true.

Definition src_known (known : nat -> Prop) (s : nir_src) : Prop := match s with Src_ssa d => known d | Src_reg _ => True end.

Definition instr_known (known : nat -> Prop) (i : nir_instr) : Prop :=
  (forall d, d ∈ nir_foreach_ssa_def i -> known d) /\ (forall s, s ∈ nir_foreach_src i -> src_known known s).

(** ** Uses and definitions in a block *)

(** A use of [d] before any definition of it. *)
Definition exposed (d : nat) (l : list nir_instr) : Prop :=
  exists l1 i l2, l = l1 ++ i :: l2 /\ Src_ssa d ∈ nir_foreach_src i /\ forall j, j ∈ l1 -> d ∉ nir_foreach_ssa_def j.

Definition not_defined (d : nat) (l : list nir_instr) : Prop := forall j, j ∈ l -> d ∉ nir_foreach_ssa_def j.

Lemma exposed_nil d : ~ exposed d [].
Proof. intros (l1 & i & l2 & E & _). now destruct l1. Qed.

Lemma exposed_cons d i l : exposed d (i :: l) <-> Src_ssa d ∈ nir_foreach_src i \/ (d ∉ nir_foreach_ssa_def i /\ exposed d l).
Proof.
  split.
  - intros (l1 & j & l2 & E & Hu & Hl). destruct l1 as [|a l1]; injection E as -> ->; [auto|]. right. split; [apply Hl; now left|].
    exists l1, j, l2. split; [reflexivity|]. split; [assumption|]. intros; apply Hl. now right.
  - intros [Hu|[Hn (l1 & j & l2 & -> & Hu & Hl)]]; [exists [], i, l; set_solver|]. exists (i :: l1), j, l2. split; [reflexivity|]. set_solver.
Qed.

Lemma not_defined_cons d i l : not_defined d (i :: l) <-> d ∉ nir_foreach_ssa_def i /\ not_defined d l.
Proof. unfold not_defined. setoid_rewrite elem_of_cons. naive_solver. Qed.

(** The instructions after the phis at the start. *)
Definition block_body (l : list nir_instr) : list nir_instr := drop (length (leading_phis l)) l.

Lemma block_split l : l = leading_phis l ++ block_body l.
Proof. unfold block_body. induction l as [|i l IH]; [reflexivity|]. cbn. destruct (is_phi i); cbn; [now f_equal | reflexivity]. Qed.

Lemma leading_are_phis l i : i ∈ leading_phis l -> is_phi i = true.
Proof. induction l as [|j l IH]; cbn; [set_solver|]. destruct (is_phi j) eqn:E; [intros [->|?]%elem_of_cons; auto | set_solver]. Qed.

(** Phis come first. *)
Definition phis_first (l : list nir_instr) : Prop := forall i, i ∈ block_body l -> is_phi i = false.

Lemma before_phi_app l1 l2 : (forall i, i ∈ l1 -> is_phi i = false) -> before_phi (l1 ++ l2) = l1 ++ before_phi l2.
Proof. induction l1 as [|i l1 IH]; intros H; [reflexivity|]. cbn. rewrite (H i) by now left. f_equal. apply IH. intros; apply H. now right. Qed.

Lemma before_phi_reverse l : phis_first l -> before_phi (reverse l) = reverse (block_body l).
Proof.
  intros H. rewrite (block_split l) at 1. rewrite reverse_app, before_phi_app; [|intros i Hi; apply H; now apply elem_of_reverse].
  destruct (reverse (leading_phis l)) as [|i l'] eqn:E; [apply app_nil_r|]. cbn. rewrite (leading_are_phis l i), app_nil_r; [reflexivity|].
  apply elem_of_reverse. rewrite E. now left.
Qed.

(** A phi defines one value and has one source for each predecessor. *)
Definition phi_ok (known : nat -> Prop) (i : nir_instr) : Prop :=
  (exists e, dests i = [Dest_ssa e] /\ known e) /\ NoDup (phi_srcs i).*1 /\ forall p s, (p, s) ∈ phi_srcs i -> src_known known s.

Lemma phi_def i e : is_phi i = true -> dests i = [Dest_ssa e] -> nir_foreach_ssa_def i = [e].
Proof. unfold is_phi, nir_foreach_ssa_def. intros H%bool_decide_eq_true ->. now rewrite H. Qed.

Lemma phi_src_elem p i s : phi_src_of p i = Some s -> (p, s) ∈ phi_srcs i.
Proof.
  unfold phi_src_of. destruct (list_find _ (phi_srcs i)) as [[k [q t]]|] eqn:E; [|discriminate]. intros [= ->].
  apply list_find_Some in E as (E & Eq & _). cbn in Eq. subst q. now apply list_elem_of_lookup_2 in E.
Qed.

Lemma phi_src_found p i s : NoDup (phi_srcs i).*1 -> (p, s) ∈ phi_srcs i -> phi_src_of p i = Some s.
Proof.
  unfold phi_src_of. induction (phi_srcs i) as [|[q t] l IH]; [set_solver|]. cbn. intros [Hq Hnd]%list.NoDup_cons [[= -> ->]|H]%elem_of_cons.
  - now rewrite decide_True.
  - rewrite decide_False; [|cbn; intros ->; apply Hq, list_elem_of_fmap; exists (p, s); auto]. specialize (IH Hnd H).
    destruct (list_find _ l) as [[k x]|]; [exact IH | discriminate].
Qed.

(** ** Transfer functions *)

Section transfer.
Context (impl : nir_function_impl) (N : Z) (known : nat -> Prop) (HI : live_indexing impl N known).

(** The values the analysis tells apart. *)
Definition tracked (d : nat) : Prop := known d /\ live_index_of impl d <> 0.

(** [x] is a set that has the tracked values [P]. *)
Definition holds_values (x : list Z) (P : nat -> Prop) : Prop := bitset_ok x N /\ forall d, tracked d -> has impl x d <-> P d.

Lemma holds_self x : bitset_ok x N -> holds_values x (has impl x).
Proof. split; [assumption | reflexivity]. Qed.

Lemma holds_change x P Q : holds_values x P -> (forall d, P d <-> Q d) -> holds_values x Q.
Proof. intros [H1 H2] E. split; [assumption|]. intros d Hd. now rewrite <- E, (H2 d Hd). Qed.

Lemma set_src_live_holds s x P : holds_values x P -> src_known known s -> holds_values (set_src_live impl s x) (fun d => s = Src_ssa d \/ P d).
Proof.
  intros [Hx HP] Hs. unfold set_src_live. destruct s as [e|o]; [|apply (holds_change x P); [now split | naive_solver]].
  destruct (Z.eqb_spec (live_index_of impl e) 0) as [E|E]; (split; [try apply BITSET_SET_ok; assumption|]); intros d [Hd Hnz].
  - rewrite HP by now split. split; [auto|]. intros [[= ->]|?]; [contradiction | assumption].
  - pose proof (li_range _ _ _ HI d Hd). pose proof (li_range _ _ _ HI e Hs). rewrite <- (HP d) by now split. unfold has.
    rewrite (BITSET_TEST_SET x N), orb_true_iff, Z.eqb_eq by (assumption || lia). split; (intros [?|?]; [left | auto]); [f_equal|congruence].
    symmetry. apply (li_inj _ _ _ HI); auto.
Qed.

Lemma set_ssa_def_dead_holds e x P : holds_values x P -> known e -> holds_values (set_ssa_def_dead impl e x) (fun d => d <> e /\ P d).
Proof.
  intros [Hx HP] He. split; [now apply BITSET_CLEAR_ok|]. intros d [Hd Hnz]. rewrite <- (HP d) by now split. unfold set_ssa_def_dead, has.
  pose proof (li_range _ _ _ HI d Hd). pose proof (li_range _ _ _ HI e He).
  rewrite (BITSET_TEST_CLEAR x N), andb_true_iff, negb_true_iff, Z.eqb_neq by (assumption || lia). split; (intros [Hne H1]; split; [|assumption]).
  - intros ->. contradiction.
  - intros E. apply Hne. apply (li_inj _ _ _ HI); auto.
Qed.

Lemma kill_all l : forall x P, holds_values x P -> (forall e, e ∈ l -> known e) ->
  holds_values (foldl (fun live e => set_ssa_def_dead impl e live) x l) (fun d => d ∉ l /\ P d).
Proof.
  induction l as [|e l IH]; intros x P Hx Hl; cbn [foldl]; [apply (holds_change x P); [assumption | set_solver]|].
  eapply holds_change; [apply IH; [apply set_ssa_def_dead_holds; [exact Hx | apply Hl; now left] | intros; apply Hl; now right]|].
  intros d. rewrite not_elem_of_cons. tauto.
Qed.

Lemma use_all l : forall x P, holds_values x P -> (forall s, s ∈ l -> src_known known s) ->
  holds_values (foldl (fun live s => set_src_live impl s live) x l) (fun d => Src_ssa d ∈ l \/ P d).
Proof.
  induction l as [|s l IH]; intros x P Hx Hl; cbn [foldl]; [apply (holds_change x P); [assumption | set_solver]|].
  eapply holds_change; [apply IH; [apply set_src_live_holds; [exact Hx | apply Hl; now left] | intros; apply Hl; now right]|].
  intros d. rewrite elem_of_cons. naive_solver.
Qed.

Lemma live_before_holds i x P : holds_values x P -> instr_known known i ->
  holds_values (live_before impl i x) (fun d => Src_ssa d ∈ nir_foreach_src i \/ (d ∉ nir_foreach_ssa_def i /\ P d)).
Proof. intros Hx [Hdefs Hsrcs]. unfold live_before. apply use_all; [now apply kill_all | assumption]. Qed.

Lemma live_body l x P : holds_values x P -> (forall i, i ∈ l -> instr_known known i) ->
  holds_values (foldl (fun live i => live_before impl i live) x (reverse l)) (fun d => exposed d l \/ (not_defined d l /\ P d)).
Proof.
  intros Hx Hl. induction l as [|i l IH].
  - apply (holds_change x P); [assumption|]. intros d. pose proof (exposed_nil d). unfold not_defined. set_solver.
  - rewrite reverse_cons, foldl_app. cbn [foldl]. eapply holds_change; [apply live_before_holds; [apply IH; intros; apply Hl; now right | apply Hl; now left]|].
    intros d. rewrite exposed_cons, not_defined_cons. tauto.
Qed.

Lemma block_live_in_holds blk P : holds_values (live_out blk) P -> phis_first (instr_list blk) ->
  (forall i, i ∈ block_body (instr_list blk) -> instr_known known i) -> (forall s, condition blk = Some s -> src_known known s) ->
  holds_values (block_live_in impl blk) (fun d => exposed d (block_body (instr_list blk)) \/
     (not_defined d (block_body (instr_list blk)) /\ (condition blk = Some (Src_ssa d) \/ P d))).
Proof.
  intros Hx Hp Hi Hc. unfold block_live_in. rewrite (before_phi_reverse _ Hp). apply live_body; [|assumption].
  destruct (condition blk) as [s|]; [|apply (holds_change _ P); [assumption | naive_solver]].
  eapply holds_change; [apply set_src_live_holds; [exact Hx | now apply Hc]|]. intros d. split; (intros [?|?]; [left; congruence | auto]).
Qed.

Lemma kill_phis l : forall x P, holds_values x P -> (forall i, i ∈ l -> is_phi i = true /\ phi_ok known i) ->
  exists y, for_each (kill_phi impl) l x = Ret y /\ holds_values y (fun d => not_defined d l /\ P d).
Proof.
  induction l as [|i l IH]; intros x P Hx Hl; [exists x; split; [reflexivity|]; apply (holds_change x P); [assumption | unfold not_defined; set_solver]|].
  destruct (Hl i ltac:(now left)) as [Hi [(e & Ee & He) _]]. cbn. unfold kill_phi at 1. rewrite Ee. cbn.
  destruct (IH _ _ (set_ssa_def_dead_holds e x P Hx He)) as (y & -> & Hy); [intros; apply Hl; now right|].
  exists y. split; [reflexivity|]. apply (holds_change _ _ _ Hy). intros d. rewrite not_defined_cons, (phi_def i e Hi Ee), list_elem_of_singleton. tauto.
Qed.

Lemma use_phi_holds p i x P : holds_values x P -> phi_ok known i -> holds_values (use_phi impl p i x) (fun d => (p, Src_ssa d) ∈ phi_srcs i \/ P d).
Proof.
  intros Hx (_ & Hnd & Hs). unfold use_phi. destruct (phi_src_of p i) as [s|] eqn:E.
  - pose proof (phi_src_elem p i s E) as Hin. eapply holds_change; [apply set_src_live_holds; [exact Hx | now apply (Hs p)]|].
    intros d. split; (intros [H|H]; [left | auto]); [now subst s|]. apply (phi_src_found _ _ _ Hnd) in H. congruence.
  - apply (holds_change _ _ _ Hx). intros d. split; [auto|]. intros [H|H]; [|assumption]. apply (phi_src_found _ _ _ Hnd) in H. congruence.
Qed.

Lemma use_phis p l : forall x P, holds_values x P -> (forall i, i ∈ l -> phi_ok known i) ->
  holds_values (foldl (fun live i => use_phi impl p i live) x l) (fun d => (exists i, i ∈ l /\ (p, Src_ssa d) ∈ phi_srcs i) \/ P d).
Proof.
  induction l as [|i l IH]; intros x P Hx Hl; cbn [foldl]; [apply (holds_change x P); [assumption | set_solver]|].
  eapply holds_change; [apply IH; [apply use_phi_holds; [exact Hx | apply Hl; now left] | intros; apply Hl; now right]|].
  intros d. setoid_rewrite elem_of_cons. naive_solver.
Qed.
End transfer.

(** ** Growing sets *)

Lemma get_zip (f : Z -> Z -> Z) x y i : f 0 0 = 0 -> length x = length y -> get 0 (zip_with f x y) i = f (get 0 x i) (get 0 y i).
Proof.
  intros H0. unfold get. generalize (Z.to_nat i). clear i. revert y. induction x as [|a x IH]; intros [|b y] [|k] Hl; try discriminate; cbn; auto.
Qed.

Lemma bitset_lengths x y N : bitset_ok x N -> bitset_ok y N -> length x = length y.
Proof. intros (_ & _ & Hx) (_ & _ & Hy). unfold len in *. lia. Qed.

Lemma union_ok x y N : bitset_ok x N -> bitset_ok y N -> bitset_ok (zip_with Z.lor x y) N.
Proof.
  intros Hx Hy. pose proof (bitset_lengths x y N Hx Hy) as Hl. destruct Hx as (Hn & Hx & Hlx), Hy as (_ & Hy & Hly). split; [assumption|]. split.
  - apply list.Forall_forall. intros w Hw. apply elem_of_lookup_zip_with in Hw as (i & a & b & -> & Ha & Hb). apply word_ok_lor; [exact (Forall_lookup_1 _ _ _ _ Hx Ha) | exact (Forall_lookup_1 _ _ _ _ Hy Hb)].
  - unfold len in *. rewrite length_zip_with. lia.
Qed.

Lemma union_test x y N c : bitset_ok x N -> bitset_ok y N -> BITSET_TEST (zip_with Z.lor x y) c = BITSET_TEST x c || BITSET_TEST y c.
Proof. intros Hx Hy. rewrite !BITSET_TEST_bit, get_zip, Z.lor_spec by (reflexivity || now apply (bitset_lengths x y N)). reflexivity. Qed.

Lemma lor_all_zero l : forall w, foldl Z.lor w l = 0 <-> w = 0 /\ forall v, v ∈ l -> v = 0.
Proof.
  induction l as [|v l IH]; intros w; cbn; [set_solver|]. rewrite IH, Z.lor_eq_0_iff. setoid_rewrite elem_of_cons. naive_solver.
Qed.

(** [propagate_across_edge] reports progress exactly when it adds a value. *)
Lemma new_bits_spec x o N : bitset_ok x N -> bitset_ok o N ->
  new_bits x o = 0 <-> forall c, 0 <= c -> BITSET_TEST x c = true -> BITSET_TEST o c = true.
Proof.
  intros Hx Ho. pose proof (bitset_lengths x o N Hx Ho) as Hl. destruct Hx as (_ & Hxw & _), Ho as (_ & How & _). unfold new_bits. rewrite lor_all_zero. split.
  - intros [_ H] c Hc. rewrite !BITSET_TEST_bit. intros Ht. pose proof (Z.mod_pos_bound c 32 ltac:(lia)) as Hm.
    assert (Hz : Z.land (get 0 x (c / 32)) (u32 (Z.lnot (get 0 o (c / 32)))) = 0).
    { destruct (lookup_lt_is_Some_2 x (Z.to_nat (c / 32))) as [a Ha].
      { apply not_ge. intros Hge. unfold get in Ht. rewrite nth_overflow, Z.bits_0 in Ht by lia. discriminate. }
      destruct (lookup_lt_is_Some_2 o (Z.to_nat (c / 32))) as [b Hb]; [rewrite <- Hl; now apply lookup_lt_Some in Ha|].
      unfold get. rewrite (nth_lookup_Some _ _ 0 a Ha), (nth_lookup_Some _ _ 0 b Hb). apply H, elem_of_lookup_zip_with. eauto 10. }
    apply (f_equal (fun z => Z.testbit z (c mod 32))) in Hz. unfold wrap in Hz. rewrite Z.land_spec, Ht, Z.mod_pow2_bits_low, Z.lnot_spec, Z.bits_0 in Hz by lia.
    cbn in Hz. now apply negb_false_iff in Hz.
  - intros H. split; [reflexivity|]. intros v Hv. apply elem_of_lookup_zip_with in Hv as (i & a & b & -> & Ha & Hb).
    destruct (Z.eq_dec (Z.land a (u32 (Z.lnot b))) 0) as [|Hne]; [assumption|]. assert (Hok : word_ok (u32 (Z.lnot b))) by (apply (wrap_range 32); lia). destruct (proj1 (land_some _ _ Hok) Hne) as (k & Hk & Hk1 & Hk2).
    unfold wrap in Hk1. rewrite Z.mod_pow2_bits_low, Z.lnot_spec in Hk1 by lia. specialize (H (32 * Z.of_nat i + k) ltac:(lia)). rewrite !BITSET_TEST_bit in H.
    replace ((32 * Z.of_nat i + k) / 32) with (Z.of_nat i) in H by (apply (Z.div_unique _ 32 _ k); lia).
    replace ((32 * Z.of_nat i + k) mod 32) with k in H by (apply (Z.mod_unique _ 32 (Z.of_nat i)); lia).
    unfold get in H. rewrite Nat2Z.id, (nth_lookup_Some _ _ 0 a Ha), (nth_lookup_Some _ _ 0 b Hb) in H. rewrite (H Hk2) in Hk1. discriminate.
Qed.

Lemma test_range x N c : bitset_ok x N -> 0 <= c -> BITSET_TEST x c = true -> c < 32 * BITSET_WORDS N.
Proof.
  intros (_ & _ & Hlen) Hc. rewrite BITSET_TEST_bit. intros H1. destruct (Z.ltb_spec (c / 32) (len x)) as [H|H].
  - pose proof (Z.div_mod c 32 ltac:(lia)). pose proof (Z.mod_pos_bound c 32 ltac:(lia)). lia.
  - unfold get in H1. rewrite nth_overflow, Z.bits_0 in H1 by (unfold len in H; lia). discriminate.
Qed.

Lemma subset_or_new x o N : bitset_ok x N ->
  (forall c, 0 <= c -> BITSET_TEST x c = true -> BITSET_TEST o c = true) \/ exists c, 0 <= c /\ BITSET_TEST x c = true /\ BITSET_TEST o c = false.
Proof.
  intros Hx. destruct (existsb (fun c => BITSET_TEST x c && negb (BITSET_TEST o c)) (indices (32 * BITSET_WORDS N))) eqn:E; [right | left].
  - apply existsb_exists in E as (c & Hc%in_indices & H). apply andb_true_iff in H as [H1 H2%negb_true_iff]. exists c. auto with lia.
  - intros c Hc H. destruct (BITSET_TEST o c) eqn:Eo; [reflexivity|]. rewrite <- E. apply existsb_exists. exists c.
    rewrite in_indices, H, Eo. pose proof (test_range x N c Hx Hc H). auto.
Qed.

(** The number of bits that can still be added. *)
Definition unset (N : Z) (x : list Z) : Z := len (filter (fun c => BITSET_TEST x c = false) (indices (32 * BITSET_WORDS N))).

Lemma unset_mono N x y : (forall c, 0 <= c -> BITSET_TEST x c = true -> BITSET_TEST y c = true) -> unset N y <= unset N x.
Proof.
  intros H. unfold unset, len. apply Nat2Z.inj_le, submseteq_length. apply NoDup_submseteq; [apply list.NoDup_filter, NoDup_ListNoDup, NoDup_indices|].
  intros c. rewrite !list_elem_of_filter. intros [Hc Hin]. split; [|assumption]. apply list_elem_of_In, in_indices in Hin.
  destruct (BITSET_TEST x c) eqn:E; [|reflexivity]. rewrite (H c) in Hc by (lia || assumption). discriminate.
Qed.

Lemma unset_less N x y c : (forall c, 0 <= c -> BITSET_TEST x c = true -> BITSET_TEST y c = true) ->
  0 <= c < 32 * BITSET_WORDS N -> BITSET_TEST x c = false -> BITSET_TEST y c = true -> unset N y + 1 <= unset N x.
Proof.
  intros H Hc Hx Hy. unfold unset, len. rewrite Z.add_1_r, <- Nat2Z.inj_succ. apply Nat2Z.inj_le, (submseteq_length (c :: _)), NoDup_submseteq.
  - apply list.NoDup_cons. split; [rewrite list_elem_of_filter; intros [E _]; congruence | apply list.NoDup_filter, NoDup_ListNoDup, NoDup_indices].
  - intros e [->|He]%elem_of_cons; rewrite !list_elem_of_filter; [split; [assumption | apply list_elem_of_In, in_indices; lia]|].
    rewrite list_elem_of_filter in He. destruct He as [He Hin]. split; [|assumption]. apply list_elem_of_In, in_indices in Hin.
    destruct (BITSET_TEST x e) eqn:E; [|reflexivity]. rewrite (H e) in He by (lia || assumption). discriminate.
Qed.

Lemma unset_bound N x : 0 <= N -> 0 <= unset N x <= 32 * BITSET_WORDS N.
Proof.
  intros HN. assert (0 <= BITSET_WORDS N) by (apply Z.div_pos; unfold BITSET_WORDBITS; lia). unfold unset, len. split; [lia|].
  etransitivity; [apply Nat2Z.inj_le, list.length_filter|]. rewrite length_indices. lia.
Qed.
