(* ===== verification/NirLiveProps.v ===== *)
(** * The liveness analysis computes liveness (nir_liveness.c) *)

From stdpp Require Import base list sets numbers.
From Stdlib Require Import ZArith Lia.
From S2P Require Import Prelude Arrays Bitset NirCfg NirImpl NirWorklist NirLiveness NirLiveFacts.
#[local] Open Scope bool_scope.
#[local] Open Scope Z_scope.
#[local] Open Scope c_scope.

(** ** Liveness *)

Definition instrs_of (impl : nir_function_impl) (b : nat) : list nir_instr := default [] (member instr_list impl b).
Definition body_of (impl : nir_function_impl) (b : nat) : list nir_instr := block_body (instrs_of impl b).
Definition phis_of (impl : nir_function_impl) (b : nat) : list nir_instr := leading_phis (instrs_of impl b).
Definition preds_of (impl : nir_function_impl) (b : nat) : list nat := default [] (member predecessors impl b).
Definition condition_of (impl : nir_function_impl) (b : nat) : option nir_src := default None (member condition impl b).

(** The value [d] is live at the start of a block after its phis if on some
    path from there it is used before it is defined; a phi defines its value
    at the start of the block and uses its sources at the end of the
    predecessors. *)
Inductive live_in_at (impl : nir_function_impl) (d : nat) : nat -> Prop :=
| Live_exposed b : exposed d (body_of impl b) -> live_in_at impl d b
| Live_condition b : condition_of impl b = Some (Src_ssa d) -> not_defined d (body_of impl b) -> live_in_at impl d b
| Live_through b : live_out_at impl d b -> not_defined d (body_of impl b) -> live_in_at impl d b
with live_out_at (impl : nir_function_impl) (d : nat) : nat -> Prop :=
| Live_phi p b i : p ∈ preds_of impl b -> i ∈ phis_of impl b -> (p, Src_ssa d) ∈ phi_srcs i -> live_out_at impl d p
| Live_edge p b : p ∈ preds_of impl b -> live_in_at impl d b -> not_defined d (phis_of impl b) -> live_out_at impl d p.

Scheme live_in_at_mut := Minimality for live_in_at Sort Prop
with live_out_at_mut := Minimality for live_out_at Sort Prop.
Combined Scheme live_at_ind from live_in_at_mut, live_out_at_mut.

(** A function in SSA form that the analysis can be called on. *)
Definition is_def (impl : nir_function_impl) (d : nat) : Prop := d ∈ (all_defs impl).*2.

Record liveness_input (impl : nir_function_impl) : Prop := {
  ln_size : 0 < Z.of_nat (length (blocks impl)) < 2 ^ 31;
  ln_blocks : num_blocks impl = Z.of_nat (length (blocks impl));
  ln_preds : forall b p, p ∈ preds_of impl b -> (p < length (blocks impl))%nat;
  ln_unique : NoDup (all_defs impl).*2;
  ln_fits : 1 + len (all_defs impl) < 2 ^ 32;
  ln_defs : forall d, is_def impl d -> (d < length (ssa_defs impl))%nat;
  ln_instrs : forall b i, i ∈ body_of impl b -> instr_known (is_def impl) i;
  ln_conditions : forall b s, condition_of impl b = Some s -> src_known (is_def impl) s;
  ln_first : forall b, phis_first (instrs_of impl b);
  ln_phis : forall b i, i ∈ phis_of impl b -> phi_ok (is_def impl) i }.

(** ** One step of the analysis *)

Definition no_live (blk : nir_block) : nir_block := blk <| live_in := [] |> <| live_out := [] |>.

Definition ins (impl : nir_function_impl) (b : nat) : list Z := default [] (member live_in impl b).
Definition outs (impl : nir_function_impl) (b : nat) : list Z := default [] (member live_out impl b).

Lemma same_code impl impl' : same_but no_live impl impl' ->
  (forall b, instrs_of impl' b = instrs_of impl b) /\ (forall b, preds_of impl' b = preds_of impl b) /\ (forall b, condition_of impl' b = condition_of impl b) /\
  (forall d, live_index_of impl' d = live_index_of impl d).
Proof.
  intros H. unfold instrs_of, preds_of, condition_of, live_index_of.
  repeat split; intros b; try (f_equal; apply (same_but_member no_live _ _ _ b H); intros x y E; destruct x, y; now injection E).
  destruct H as (_ & _ & ->). reflexivity.
Qed.

Section analysis.
Context (impl1 : nir_function_impl) (N : Z) (known : nat -> Prop).
Context (HI : live_indexing impl1 N known).
Context (Hpreds : forall b p, p ∈ preds_of impl1 b -> (p < length (blocks impl1))%nat).
Context (Hinstrs : forall b i, i ∈ body_of impl1 b -> instr_known known i).
Context (Hconds : forall b s, condition_of impl1 b = Some s -> src_known known s).
Context (Hfirst : forall b, phis_first (instrs_of impl1 b)).
Context (Hphis : forall b i, i ∈ phis_of impl1 b -> phi_ok known i).
Let n := length (blocks impl1).
Let track := tracked impl1 known.
Let holds := holds_values impl1 N known.

Lemma indexing_kept im : same_but no_live impl1 im -> live_indexing im N known.
Proof using HI. intros H. destruct (same_code _ _ H) as (_ & _ & _ & E). destruct HI as [H1 H2]. split; intros; rewrite ?E in *; auto. Qed.

Lemma holds_kept im x P : same_but no_live impl1 im -> holds_values im N known x P <-> holds x P.
Proof. intros H. destruct (same_code _ _ H) as (_ & _ & _ & E). unfold holds, holds_values, tracked, has. setoid_rewrite E. reflexivity. Qed.

Lemma block_code im b blk : same_but no_live impl1 im -> blocks im !! b = Some blk ->
  instr_list blk = instrs_of impl1 b /\ predecessors blk = preds_of impl1 b /\ condition blk = condition_of impl1 b /\ live_in blk = ins im b /\ live_out blk = outs im b.
Proof.
  intros H Hb. destruct (same_code _ _ H) as (E1 & E2 & E3 & _). rewrite <- E1, <- E2, <- E3. unfold instrs_of, preds_of, condition_of, ins, outs, member. rewrite Hb. auto.
Qed.

(** What flows across the edge from [p] to [b], if [P] is live in [b]. *)
Definition edge_live (p b : nat) (P : nat -> Prop) (d : nat) : Prop :=
  (exists i, i ∈ phis_of impl1 b /\ (p, Src_ssa d) ∈ phi_srcs i) \/ (not_defined d (phis_of impl1 b) /\ P d).

(** What is live at the start of [b], if [P] is live at its end. *)
Definition block_live (b : nat) (P : nat -> Prop) (d : nat) : Prop :=
  exposed d (body_of impl1 b) \/ (not_defined d (body_of impl1 b) /\ (condition_of impl1 b = Some (Src_ssa d) \/ P d)).

Lemma propagate_spec im p b P : same_but no_live impl1 im -> holds (ins im b) P -> bitset_ok (outs im p) N -> (p < n)%nat -> (b < n)%nat ->
  exists x t, propagate_across_edge p b im = Ret (t, set_block p (fun blk => blk <| live_out := zip_with Z.lor (live_out blk) x |>) im) /\
  holds x (edge_live p b P) /\
  (t = false <-> forall c, 0 <= c -> BITSET_TEST x c = true -> BITSET_TEST (outs im p) c = true).
Proof.
  intros Hc Hin Hout Hp Hb. unfold n in Hp, Hb. rewrite <- (same_but_length _ _ _ Hc) in Hp, Hb.
  destruct (lookup_lt_is_Some_2 _ _ Hb) as [blk Hblk]. destruct (lookup_lt_is_Some_2 _ _ Hp) as [pblk Hpblk].
  destruct (block_code im b blk Hc Hblk) as (Ei & _ & _ & El & _). destruct (block_code im p pblk Hc Hpblk) as (_ & _ & _ & _ & Eo).
  pose proof (indexing_kept im Hc) as HIm. unfold propagate_across_edge. rewrite (deref_lookup _ _ _ Hblk). cbn [obind]. rewrite Ei, El. fold (phis_of impl1 b).
  destruct (kill_phis im N known HIm (phis_of impl1 b) (ins im b) P) as (y & -> & Hy); [now apply holds_kept | |].
  { intros i Hi. split; [now apply (leading_are_phis (instrs_of impl1 b)) | now apply (Hphis b)]. }
  cbn [obind]. apply (use_phis im N known HIm p (phis_of impl1 b)) in Hy; [|apply Hphis]. apply (holds_kept im _ _ Hc) in Hy.
  set (x := foldl _ y _) in *. rewrite (deref_lookup _ _ _ Hpblk). cbn [obind]. rewrite Eo. eexists x, _. split; [reflexivity|]. split; [exact Hy|].
  rewrite negb_false_iff, Z.eqb_eq. apply (new_bits_spec _ _ N); [apply Hy | exact Hout].
Qed.

Lemma union_holds x y P Q : holds x P -> holds y Q -> holds (zip_with Z.lor x y) (fun d => P d \/ Q d).
Proof.
  intros [Hx HP] [Hy HQ]. split; [now apply union_ok|]. intros d Hd. rewrite <- (HP d Hd), <- (HQ d Hd). unfold has.
  rewrite (union_test x y N), orb_true_iff by assumption. reflexivity.
Qed.

(** The room for further growth. *)
Definition room (im : nir_function_impl) : Z := total (fun blk => unset N (live_out blk)) (blocks im).

Lemma room_set p f im blk : blocks im !! p = Some blk -> room (set_block p f im) = room im - unset N (live_out blk) + unset N (live_out (f blk)).
Proof.
  intros H. unfold room, set_block. cbn. rewrite <- (total_insert (fun blk => unset N (live_out blk)) _ _ _ (f blk) H). f_equal. apply list_eq. intros i.
  destruct (decide (i = p)) as [->|Hne]; [rewrite list_lookup_alter_eq, H, list_lookup_insert_eq by (apply lookup_lt_Some in H; exact H); reflexivity|].
  now rewrite list_lookup_alter_ne, list_lookup_insert_ne by auto.
Qed.

(** ** The loop *)

(** [im] with the worklist [w]: the sets hold only live values, and the code
    is that of [impl1]. *)
Record state_ok (im : nir_function_impl) (w : nir_block_worklist) (l : list nat) : Prop := {
  st_code : same_but no_live impl1 im;
  st_list : holds_blocks w l;
  st_size : wl_size w = Z.of_nat n;
  st_ins : forall b, (b < n)%nat -> bitset_ok (ins im b) N;
  st_outs : forall b, (b < n)%nat -> bitset_ok (outs im b) N;
  st_sound_in : forall b d, (b < n)%nat -> track d -> has impl1 (ins im b) d -> live_in_at impl1 d b;
  st_sound_out : forall b d, (b < n)%nat -> track d -> has impl1 (outs im b) d -> live_out_at impl1 d b }.

(** The live-in set of [b] is that of its live-out set. *)
Definition closed (im : nir_function_impl) (b : nat) : Prop :=
  forall d, track d -> block_live b (has impl1 (outs im b)) d -> has impl1 (ins im b) d.

(** What is live in [b] is live out of [p]. *)
Definition flows (im : nir_function_impl) (b p : nat) : Prop :=
  forall d, track d -> edge_live p b (has impl1 (ins im b)) d -> has impl1 (outs im p) d.

(** Blocks that are not on the list need no further visit, except for the
    edges from [rest] to [b]. *)
Definition settled (im : nir_function_impl) (l : list nat) (b : nat) (rest : list nat) : Prop :=
  forall c, (c < n)%nat -> c ∉ l -> closed im c /\ forall p, p ∈ preds_of impl1 c -> (c = b -> p ∉ rest) -> flows im c p.

(** The assignment of [propagate_across_edge]. *)
Definition grow (p : nat) (x : list Z) (im : nir_function_impl) : nir_function_impl :=
  set_block p (fun blk => blk <| live_out := zip_with Z.lor (live_out blk) x |>) im.

Lemma grow_code p x im : same_but no_live im (grow p x im).
Proof. now apply same_but_set. Qed.

Lemma grow_ins p x im c : ins (grow p x im) c = ins im c.
Proof. unfold ins, grow. rewrite member_set. case_decide_eq; [subst c|reflexivity]. unfold member. now destruct (blocks im !! p). Qed.

Lemma grow_outs p x im c : (p < length (blocks im))%nat -> outs (grow p x im) c = if decide (c = p) then zip_with Z.lor (outs im p) x else outs im c.
Proof.
  intros H. unfold outs, grow. rewrite member_set. case_decide_eq; [|reflexivity]. unfold member. destruct (lookup_lt_is_Some_2 _ _ H) as [blk ->]. reflexivity.
Qed.

Lemma state_length im w l : state_ok im w l -> length (blocks im) = n.
Proof. intros H. apply (same_but_length _ _ _ (st_code _ _ _ H)). Qed.

(** The edge from [p] to [b], and the set [x] that flows across it. *)
Section step.
Context (im : nir_function_impl) (w : nir_block_worklist) (l : list nat) (b p : nat) (x : list Z).
Context (Hst : state_ok im w l) (Hb : (b < n)%nat) (Hpb : p ∈ preds_of impl1 b).
Context (Hx : holds x (edge_live p b (has impl1 (ins im b)))).

Lemma pred_in_range : (p < n)%nat.
Proof using Hpreds Hpb. exact (Hpreds b p Hpb). Qed.

Lemma grown_outs c : outs (grow p x im) c = if decide (c = p) then zip_with Z.lor (outs im p) x else outs im c.
Proof using Hst Hpreds Hpb. apply grow_outs. rewrite (state_length im w l Hst). exact pred_in_range. Qed.

Lemma grown_has d : track d -> has impl1 (zip_with Z.lor (outs im p) x) d <-> has impl1 (outs im p) d \/ edge_live p b (has impl1 (ins im b)) d.
Proof using Hst Hx Hpreds Hpb.
  intros Hd. apply (proj2 (union_holds _ _ _ _ (holds_self _ _ _ _ (st_outs _ _ _ Hst p pred_in_range)) Hx) d Hd).
Qed.

Lemma edge_sound d : track d -> edge_live p b (has impl1 (ins im b)) d -> live_out_at impl1 d p.
Proof using Hst Hb Hpb.
  intros Hd [(i & Hi & Hs)|[Hn Hl]]; [now apply (Live_phi _ _ p b i)|]. apply (Live_edge _ _ p b); [assumption | | assumption]. now apply (st_sound_in _ _ _ Hst).
Qed.

Lemma grown_ok : state_ok (grow p x im) w l.
Proof using Hst Hx Hb Hpb Hpreds.
  split; try apply Hst.
  - etransitivity; [apply Hst | apply grow_code].
  - intros c Hc. rewrite grow_ins. now apply Hst.
  - intros c Hc. rewrite grown_outs. case_decide_eq; [|now apply Hst]. apply union_ok; [apply Hst, pred_in_range | apply Hx].
  - intros c d. rewrite grow_ins. apply Hst.
  - intros c d Hc Hd. rewrite grown_outs. case_decide_eq; [subst c|now apply Hst]. rewrite (grown_has d Hd). intros [H|H]; [now apply (st_sound_out _ _ _ Hst) | now apply edge_sound].
Qed.

Lemma grown_settled l' rest : settled im l b (p :: rest) -> (forall c, c ∉ l' -> c ∉ l) ->
  (p ∈ l' \/ forall c, 0 <= c -> BITSET_TEST x c = true -> BITSET_TEST (outs im p) c = true) -> settled (grow p x im) l' b rest.
Proof using Hst Hx Hpreds Hpb HI.
  intros Hset Hl Hor c Hc Hcl. destruct (Hset c Hc (Hl c Hcl)) as [Hclosed Hflow]. split.
  - intros d Hd. rewrite grow_ins. intros H. apply (Hclosed d Hd). destruct H as [H|[Hn H]]; [now left | right]. split; [assumption|]. destruct H as [H|H]; [auto | right].
    rewrite grown_outs in H. destruct (decide (c = p)) as [->|]; [|assumption]. destruct Hor as [|Hsub]; [contradiction|].
    unfold has in *. rewrite (union_test _ _ N) in H by (apply Hx || apply Hst, pred_in_range). apply orb_true_iff in H as [H|H]; [assumption|].
    apply Hsub; [apply (li_range _ _ _ HI), Hd | assumption].
  - intros q Hq Hrest d Hd. unfold edge_live. rewrite grow_ins, grown_outs. intros H. case_decide_eq; [subst q|].
    + rewrite (grown_has d Hd). destruct (decide (c = b)) as [->|Hne]; [now right|]. left. apply (Hflow p Hq); [contradiction | assumption | assumption].
    + apply (Hflow q Hq); [|assumption..]. intros ->. rewrite not_elem_of_cons. auto.
Qed.

Lemma grown_test c : BITSET_TEST (zip_with Z.lor (outs im p) x) c = BITSET_TEST (outs im p) c || BITSET_TEST x c.
Proof using Hst Hx Hpreds Hpb. apply (union_test _ _ N); [apply Hst, pred_in_range | apply Hx]. Qed.

Lemma grown_room : room (grow p x im) <= room im.
Proof using Hst Hx Hpreds Hpb Hb.
  pose proof pred_in_range as Hp. rewrite <- (state_length im w l Hst) in Hp. destruct (lookup_lt_is_Some_2 _ _ Hp) as [blk Hblk].
  unfold grow. rewrite (room_set _ _ _ _ Hblk). cbn. destruct (block_code im p blk (st_code _ _ _ Hst) Hblk) as (_ & _ & _ & _ & ->).
  enough (unset N (zip_with Z.lor (outs im p) x) <= unset N (outs im p)) by lia. apply unset_mono. intros c _ H. now rewrite grown_test, H.
Qed.

Lemma grown_room_less c : 0 <= c -> BITSET_TEST x c = true -> BITSET_TEST (outs im p) c = false -> room (grow p x im) + 1 <= room im.
Proof using Hst Hx Hpreds Hpb Hb.
  intros Hc H1 H2. pose proof pred_in_range as Hp. rewrite <- (state_length im w l Hst) in Hp. destruct (lookup_lt_is_Some_2 _ _ Hp) as [blk Hblk].
  unfold grow. rewrite (room_set _ _ _ _ Hblk). cbn. destruct (block_code im p blk (st_code _ _ _ Hst) Hblk) as (_ & _ & _ & _ & ->).
  enough (unset N (zip_with Z.lor (outs im p) x) + 1 <= unset N (outs im p)) by lia. apply (unset_less _ _ _ c).
  - intros e _ H. now rewrite grown_test, H.
  - split; [assumption|]. now apply (test_range x N); [apply Hx | |].
  - assumption.
  - now rewrite grown_test, H1, orb_true_r.
Qed.
End step.

Lemma visit_pred_spec b p rest im w l : state_ok im w l -> settled im l b (p :: rest) -> (b < n)%nat -> p ∈ preds_of impl1 b ->
  exists im' w' l', visit_pred b p (im, w) = Ret (im', w') /\ state_ok im' w' l' /\ settled im' l' b rest /\ room im' + len l' <= room im + len l.
Proof.
  intros Hst Hset Hb Hpb. pose proof (Hpreds b p Hpb) as Hp. fold n in Hp.
  destruct (propagate_spec im p b (has impl1 (ins im b)) (st_code _ _ _ Hst) (holds_self _ _ _ _ (st_ins _ _ _ Hst b Hb)) (st_outs _ _ _ Hst p Hp) Hp Hb) as (x & t & E & Hx & Ht).
  unfold visit_pred. rewrite E. cbn [obind]. change (set_block p _ im) with (grow p x im).
  pose proof (grown_ok im w l b p x Hst Hb Hpb Hx) as Hok. destruct t.
  - destruct (subset_or_new x (outs im p) N (proj1 Hx)) as [Hsub|(c & Hc & H1 & H2)]; [apply Ht in Hsub; discriminate|].
    pose proof (grown_room_less im w l b p x Hst Hb Hpb Hx c Hc H1 H2) as Hroom.
    destruct (push_tail_spec w l p (st_list _ _ _ Hst)) as (w' & Ew & Hsz & Hw); [rewrite (st_size _ _ _ Hst); lia|]. rewrite Ew. cbn [obind].
    set (l' := if decide (p ∈ l) then l else l ++ [p]) in *. exists (grow p x im), w', l'. split; [reflexivity|].
    assert (Hl' : p ∈ l' /\ (forall c, c ∉ l' -> c ∉ l) /\ len l' <= len l + 1).
    { unfold l'. destruct (decide (p ∈ l)); [auto with lia|]. rewrite len_app. split; [set_solver|]. split; [set_solver | unfold len; cbn; lia]. }
    destruct Hl' as (H3 & H4 & H5). split; [destruct Hok; split; try assumption; congruence|]. split; [apply (grown_settled im w l); auto | lia].
  - exists (grow p x im), w, l. split; [reflexivity|]. split; [assumption|]. split.
    + apply (grown_settled im w l); auto. right. now apply Ht.
    + pose proof (grown_room im w l b p x Hst Hb Hpb Hx). lia.
Qed.

(** [block->live_in] of the block that is visited. *)
Definition set_in (b : nat) (x : list Z) (im : nir_function_impl) : nir_function_impl := set_block b (fun blk => blk <| live_in := x |>) im.

Lemma set_in_ins b x im c : (b < length (blocks im))%nat -> ins (set_in b x im) c = if decide (c = b) then x else ins im c.
Proof. intros H. unfold ins, set_in. rewrite member_set. case_decide_eq; [|reflexivity]. destruct (lookup_lt_is_Some_2 _ _ H) as [blk ->]. reflexivity. Qed.

Lemma set_in_outs b x im c : outs (set_in b x im) c = outs im c.
Proof. unfold outs, set_in. rewrite member_set. case_decide_eq; [subst c|reflexivity]. unfold member. now destruct (blocks im !! b). Qed.

Lemma set_in_room b x im : room (set_in b x im) = room im.
Proof.
  unfold set_in. destruct (blocks im !! b) as [blk|] eqn:E; [rewrite (room_set _ _ _ _ E); cbn; lia|]. unfold room, set_block. cbn. f_equal.
  apply list_eq. intros i. destruct (decide (i = b)) as [->|Hne]; [now rewrite list_lookup_alter_eq, E | now rewrite list_lookup_alter_ne by auto].
Qed.

(** The block [b] taken from the worklist gets its new live-in set. *)
Lemma enter_block im w w' b l blk : state_ok im w (b :: l) -> settled im (b :: l) O [] -> holds_blocks w' l -> wl_size w' = wl_size w ->
  blocks im !! b = Some blk ->
  state_ok (set_in b (block_live_in im blk) im) w' l /\ settled (set_in b (block_live_in im blk) im) l b (preds_of impl1 b).
Proof.
  intros Hst Hset Hw' Hsz Hblk. pose proof (st_code _ _ _ Hst) as Hc. destruct (block_code im b blk Hc Hblk) as (Ei & Ep & Ec & _ & Eo).
  assert (Hb : (b < n)%nat) by (rewrite <- (state_length im w _ Hst); now apply lookup_lt_Some in Hblk).
  assert (Hnew : holds (block_live_in im blk) (block_live b (has impl1 (outs im b)))).
  { apply (holds_kept im _ _ Hc). unfold block_live, body_of. rewrite <- Ei, <- Ec. apply block_live_in_holds.
    - now apply indexing_kept.
    - apply holds_kept; [assumption|]. rewrite Eo. apply holds_self. now apply (st_outs _ _ _ Hst).
    - rewrite Ei. apply Hfirst.
    - rewrite Ei. apply (Hinstrs b).
    - rewrite Ec. apply (Hconds b). }
  assert (Hins : forall c, ins (set_in b (block_live_in im blk) im) c = if decide (c = b) then block_live_in im blk else ins im c).
  { intros c. apply set_in_ins. now rewrite (state_length im w _ Hst). }
  split.
  - split; try assumption.
    + etransitivity; [exact Hc | now apply same_but_set].
    + now rewrite Hsz, (st_size _ _ _ Hst).
    + intros c Hcn. rewrite Hins. case_decide_eq; [apply Hnew | now apply Hst].
    + intros c Hcn. rewrite set_in_outs. now apply Hst.
    + intros c d Hcn Hd. rewrite Hins. case_decide_eq; [subst c | now apply Hst]. intros H. apply (proj2 Hnew d Hd) in H. destruct H as [H|[Hn [H|H]]].
      * now apply Live_exposed.
      * now apply Live_condition.
      * apply Live_through; [now apply (st_sound_out _ _ _ Hst) | assumption].
    + intros c d Hcn Hd. rewrite set_in_outs. now apply Hst.
  - intros c Hcn Hcl. unfold closed, flows. setoid_rewrite set_in_outs. rewrite !Hins. case_decide_eq.
    + subst c. split; [intros d Hd H; now apply (proj2 Hnew d Hd) | intros p Hp Hno; now destruct (Hno eq_refl)].
    + destruct (Hset c Hcn) as [H1 H2]; [now apply not_elem_of_cons|]. split; [assumption|]. intros p Hp _. apply (H2 p Hp). intros _. apply not_elem_of_nil.
Qed.

Lemma visit_block_spec im w b l : state_ok im w (b :: l) -> settled im (b :: l) O [] ->
  exists im' w' l', visit_block (im, w) = Ret (im', w') /\ state_ok im' w' l' /\ settled im' l' O [] /\ room im' + len l' <= room im + len l.
Proof.
  intros Hst Hset. destruct (proj2 (pop_head_spec w b l (st_list _ _ _ Hst))) as (w' & E & Hsz & Hw').
  assert (Hb : (b < n)%nat).
  { pose proof (hb_range _ _ (st_list _ _ _ Hst) b ltac:(now left)) as H. rewrite (st_size _ _ _ Hst) in H. lia. }
  assert (Hb' : (b < length (blocks im))%nat) by now rewrite (state_length im w _ Hst). destruct (lookup_lt_is_Some_2 _ _ Hb') as [blk Hblk].
  unfold visit_block. rewrite E. cbn [obind]. rewrite (deref_lookup _ _ _ Hblk). cbn [obind].
  destruct (enter_block im w w' b l blk Hst Hset Hw' Hsz Hblk) as [Hst1 Hset1]. destruct (block_code im b blk (st_code _ _ _ Hst) Hblk) as (_ & -> & _).
  assert (Eset : set_block b (fun blk => blk <| live_in := block_live_in im blk |>) im = set_in b (block_live_in im blk) im).
  { unfold set_in, set_block, update. cbn. f_equal. apply list_eq. intros i. destruct (decide (i = b)) as [->|Hne]; [rewrite !list_lookup_alter_eq, Hblk; reflexivity | now rewrite !list_lookup_alter_ne by auto]. }
  rewrite Eset. destruct (for_each_inv (fun rest st => exists l', state_ok st.1 st.2 l' /\ settled st.1 l' b rest /\ (forall p, p ∈ rest -> p ∈ preds_of impl1 b) /\
    room st.1 + len l' <= room im + len l) (visit_pred b) (preds_of impl1 b) (set_in b (block_live_in im blk) im, w')) as ([im' w2] & E2 & l' & H1 & H2 & _ & H3).
  - exists l. cbn [fst snd]. rewrite set_in_room. auto with lia.
  - intros p rest [im1 w1] (l1 & H1 & H2 & H3 & H4). cbn [fst snd] in *. destruct (visit_pred_spec b p rest im1 w1 l1 H1 H2 Hb (H3 p ltac:(now left))) as (im' & w2 & l' & E2 & H5 & H6 & H7).
    exists (im', w2). split; [assumption|]. exists l'. cbn [fst snd]. split; [assumption|]. split; [assumption|]. split; [intros q Hq; apply H3; now right | lia].
  - exists im', w2, l'. split; [assumption|]. split; [assumption|]. split; [|assumption]. intros c Hc Hcl. destruct (H2 c Hc Hcl) as [H4 H5]. split; [assumption|].
    intros p Hp _. apply (H5 p Hp). intros _. apply not_elem_of_nil.
Qed.

Lemma liveness_loop_spec fuel : forall im w l, state_ok im w l -> settled im l O [] -> room im + len l <= Z.of_nat fuel ->
  exists im' w', liveness_loop fuel (im, w) = Ret im' /\ state_ok im' w' [] /\ settled im' [] O [].
Proof.
  induction fuel as [|fuel IH]; intros im w l Hst Hset Hm; cbn [liveness_loop snd fst]; rewrite (is_empty_spec w l (st_list _ _ _ Hst)); destruct l as [|b l].
  - exists im, w. auto.
  - exfalso. rewrite len_cons in Hm. pose proof (len_nonneg l). assert (0 <= room im); [|lia]. apply total_nonneg. intros blk. unfold unset. apply len_nonneg.
  - exists im, w. auto.
  - rewrite bool_decide_false by discriminate. destruct (visit_block_spec im w b l Hst Hset) as (im' & w' & l' & -> & H1 & H2 & H3). cbn [obind].
    apply (IH im' w' l'); [assumption..|]. rewrite len_cons in Hm. lia.
Qed.

(** Nothing on the list: the sets are the live values. *)
Lemma settled_live im w d : state_ok im w [] -> settled im [] O [] -> track d ->
  (forall b, live_in_at impl1 d b -> (b < n)%nat -> has impl1 (ins im b) d) /\ (forall b, live_out_at impl1 d b -> (b < n)%nat -> has impl1 (outs im b) d).
Proof.
  intros Hst Hset Hd. 
  assert (Hn : forall b p, p ∈ preds_of impl1 b -> (b < n)%nat).
  { intros b p Hp. unfold preds_of, member in Hp. destruct (blocks impl1 !! b) eqn:E; [now apply lookup_lt_Some in E | now apply not_elem_of_nil in Hp]. }
  assert (Hall : forall c, (c < n)%nat -> closed im c /\ forall p, p ∈ preds_of impl1 c -> flows im c p).
  { intros c Hc. destruct (Hset c Hc (not_elem_of_nil c)) as [H1 H2]. split; [assumption|]. intros p Hp. apply (H2 p Hp). intros _. apply not_elem_of_nil. }
  apply live_at_ind.
  - intros b He Hb. apply (Hall b Hb); [assumption | now left].
  - intros b Hc Hnd Hb. apply (Hall b Hb); [assumption | right; auto].
  - intros b _ IH Hnd Hb. apply (Hall b Hb); [assumption | right; auto].
  - intros p b i Hp Hi Hs _. apply (proj2 (Hall b (Hn b p Hp)) p Hp d Hd). left. eauto.
  - intros p b Hp _ IH Hnd _. apply (proj2 (Hall b (Hn b p Hp)) p Hp d Hd). right. eauto.
Qed.
End analysis.

(** ** The result *)

Lemma init_liveness impl N : 0 < Z.of_nat (length (blocks impl)) < 2 ^ 31 -> num_blocks impl = Z.of_nat (length (blocks impl)) ->
  exists im w, nir_foreach_block (init_liveness_block N) (length (blocks impl)) (impl, nir_block_worklist_init (num_blocks impl)) = Ret (im, w) /\
  same_but no_live impl im /\ holds_blocks w (reverse (seq 0 (length (blocks impl)))) /\ wl_size w = Z.of_nat (length (blocks impl)) /\
  forall c, (c < length (blocks impl))%nat -> ins im c = bitset_zero N /\ outs im c = bitset_zero N.
Proof.
  intros Hn Hnum. rewrite Hnum.
  destruct (foreach_block_inv (fun k st => same_but no_live impl st.1 /\ holds_blocks st.2 (reverse (seq 0 k)) /\ wl_size st.2 = Z.of_nat (length (blocks impl)) /\
    forall c, (c < length (blocks impl))%nat -> (c < k)%nat -> ins st.1 c = bitset_zero N /\ outs st.1 c = bitset_zero N)
    (init_liveness_block N) (length (blocks impl)) (impl, nir_block_worklist_init (Z.of_nat (length (blocks impl))))) as ([im w] & E & H1 & H2 & H3 & H4).
  - cbn [fst snd]. split; [reflexivity|]. split; [now apply init_holds|]. split; [reflexivity|]. intros; lia.
  - intros b [im w] Hb (H1 & H2 & H3 & H4). cbn [fst snd] in *. unfold init_liveness_block. destruct (push_head_spec w _ b H2) as (w' & -> & Hsz & Hw'); [lia|]. cbn [obind].
    eexists. split; [reflexivity|]. cbn [fst snd]. split; [etransitivity; [exact H1 | now apply same_but_set]|]. split; [|split; [congruence|]].
    + rewrite decide_False in Hw' by (rewrite elem_of_reverse, elem_of_seq; lia). now rewrite seq_S, reverse_snoc.
    + intros c Hc Hlt. unfold ins, outs. rewrite !member_set. case_decide_eq; [subst c|apply H4; [assumption | lia]].
      rewrite <- (same_but_length _ _ _ H1) in Hb. destruct (lookup_lt_is_Some_2 _ _ Hb) as [blk ->]. auto.
  - exists im, w. cbn [fst snd] in *. split; [assumption|]. auto 10.
Qed.

(** The live values depend on the code alone. *)
Lemma live_at_same impl impl' d : same_but no_live impl impl' \/ blocks impl' = blocks impl ->
  (forall b, live_in_at impl d b -> live_in_at impl' d b) /\ (forall b, live_out_at impl d b -> live_out_at impl' d b).
Proof.
  intros H. assert (E : (forall b, instrs_of impl' b = instrs_of impl b) /\ (forall b, preds_of impl' b = preds_of impl b) /\ (forall b, condition_of impl' b = condition_of impl b)).
  { destruct H as [H|H]; [destruct (same_code _ _ H) as (? & ? & ? & _); auto | unfold instrs_of, preds_of, condition_of, member; rewrite H; auto]. }
  destruct E as (E1 & E2 & E3). assert (Eb : forall b, body_of impl' b = body_of impl b) by (intros b; unfold body_of; now rewrite E1).
  assert (Ep : forall b, phis_of impl' b = phis_of impl b) by (intros b; unfold phis_of; now rewrite E1). apply live_at_ind; intros.
  - apply Live_exposed. now rewrite Eb.
  - apply Live_condition; [now rewrite E3 | now rewrite Eb].
  - apply Live_through; [assumption | now rewrite Eb].
  - apply (Live_phi _ _ p b i); rewrite ?E2, ?Ep; assumption.
  - apply (Live_edge _ _ p b); rewrite ?E2, ?Ep; assumption.
Qed.

(** The live indices of the function, and the sets of its blocks. *)
Record analysed (impl impl' : nir_function_impl) : Prop := {
  an_code : no_live <$> blocks impl' = no_live <$> blocks impl;
  an_parent : forall d, parent_instr <$> ssa_defs impl' !! d = parent_instr <$> ssa_defs impl !! d;
  an_undef : forall i d, (i, d) ∈ all_defs impl -> (live_index_of impl' d = 0 <-> instr_type i = nir_instr_type_ssa_undef);
  an_order : forall i j d e, [(i, d); (j, e)] `sublist_of` all_defs impl -> instr_type i <> nir_instr_type_ssa_undef -> instr_type j <> nir_instr_type_ssa_undef ->
    live_index_of impl' d < live_index_of impl' e;
  an_live : forall i d b blk, (i, d) ∈ all_defs impl -> instr_type i <> nir_instr_type_ssa_undef -> blocks impl' !! b = Some blk ->
    (BITSET_TEST (live_in blk) (live_index_of impl' d) = true <-> live_in_at impl d b) /\
    (BITSET_TEST (live_out blk) (live_index_of impl' d) = true <-> live_out_at impl d b) }.

Lemma elem_unique {A B} (l : list (A * B)) a a' b : NoDup l.*2 -> (a, b) ∈ l -> (a', b) ∈ l -> a = a'.
Proof.
  induction l as [|[x y] l IH]; [set_solver|]. cbn. intros [Hy Hnd]%list.NoDup_cons. assert (Hn : forall x, (x, y) ∉ l).
  { intros z Hz. apply Hy, list_elem_of_fmap. exists (z, y). auto. }
  intros [[= -> ->]|H1]%elem_of_cons [H2|H2]%elem_of_cons; try congruence; [now destruct (Hn a') | injection H2 as -> ->; now destruct (Hn a) | auto].
Qed.

(** The indices given by [index_ssa_defs]. *)
Lemma indexed_function impl defs N : liveness_input impl -> indexes (all_defs impl) (ssa_defs impl) defs 1 N ->
  live_indexing (impl <| ssa_defs := defs |>) N (is_def impl) /\
  (forall i d, (i, d) ∈ all_defs impl -> (live_index_of (impl <| ssa_defs := defs |>) d = 0 <-> instr_type i = nir_instr_type_ssa_undef)) /\
  forall i j d e, [(i, d); (j, e)] `sublist_of` all_defs impl -> instr_type i <> nir_instr_type_ssa_undef -> instr_type j <> nir_instr_type_ssa_undef ->
    live_index_of (impl <| ssa_defs := defs |>) d < live_index_of (impl <| ssa_defs := defs |>) e.
Proof.
  intros Hin Hix. set (impl1 := impl <| ssa_defs := defs |>).
  assert (Hget : forall i d, (i, d) ∈ all_defs impl -> exists x, defs !! d = Some x /\ live_index_of impl1 d = live_index x).
  { intros i d Hd. assert (Hlt : (d < length defs)%nat). { rewrite (ix_length _ _ _ _ _ Hix). apply (ln_defs _ Hin), list_elem_of_fmap. exists (i, d). auto. }
    destruct (lookup_lt_is_Some_2 _ _ Hlt) as [x Hx]. exists x. split; [assumption|]. unfold live_index_of, impl1. cbn. now rewrite Hx. }
  assert (Hundef : forall i d, (i, d) ∈ all_defs impl -> (live_index_of impl1 d = 0 <-> instr_type i = nir_instr_type_ssa_undef)).
  { intros i d Hd. destruct (Hget i d Hd) as (x & Hx & ->). split; [|intros Hi; now apply (ix_undef _ _ _ _ _ Hix i d)].
    intros H0. destruct (decide (instr_type i = nir_instr_type_ssa_undef)) as [|Hi]; [assumption|]. pose proof (ix_range _ _ _ _ _ Hix i d x Hd Hi Hx). lia. }
  split; [|split; [assumption|]]; [pose proof (ix_more _ _ _ _ _ Hix); split|].
  - intros d ([i d'] & -> & Hd)%list_elem_of_fmap. cbn. destruct (Hget i d' Hd) as (x & Hx & ->). destruct (decide (instr_type i = nir_instr_type_ssa_undef)) as [Hi|Hi].
    + rewrite (ix_undef _ _ _ _ _ Hix i d' x Hd Hi Hx). lia.
    + pose proof (ix_range _ _ _ _ _ Hix i d' x Hd Hi Hx). lia.
  - intros d e ([i d'] & -> & Hd)%list_elem_of_fmap ([j e'] & -> & He)%list_elem_of_fmap. cbn. intros Hnz E. pose proof (Hundef i d' Hd) as Hi. rewrite E in Hnz. pose proof (Hundef j e' He) as Hj.
    rewrite E in Hi. destruct (Hget i d' Hd) as (x & Hx & Ex), (Hget j e' He) as (y & Hy & Ey). apply (ix_inj _ _ _ _ _ Hix i j d' e' x y); try tauto; congruence.
  - intros i j d e Hs Hi Hj. pose proof (sublist_subseteq _ _ Hs) as Hsub. destruct (Hget i d ltac:(apply Hsub; now left)) as (x & Hx & ->).
    destruct (Hget j e ltac:(apply Hsub; right; now left)) as (y & Hy & ->). now apply (ix_order _ _ _ _ _ Hix i j d e).
Qed.

Lemma live_ssa_defs_spec impl : liveness_input impl -> exists impl', nir_live_ssa_defs_impl impl = Ret impl' /\ analysed impl impl'.
Proof.
  intros Hin. unfold nir_live_ssa_defs_impl, index_ssa_defs.
  destruct (index_ssa_defs_spec (all_defs impl) (ssa_defs impl) 1) as (defs & N & -> & Hix); [apply Hin | lia | apply Hin|].
  destruct (indexed_function impl defs N Hin Hix) as (HI & Hundef & Horder). set (impl1 := impl <| ssa_defs := defs |>) in *.
  assert (HN : 0 < N) by (pose proof (ix_more _ _ _ _ _ Hix); lia).
  destruct (init_liveness impl1 N (ln_size _ Hin) (ln_blocks _ Hin)) as (im & w & E & Hc & Hw & Hsz & Hz). rewrite E. cbn [obind].
  assert (Hz0 : forall d, has impl1 (bitset_zero N) d -> False) by (intros d; unfold has; now rewrite bitset_zero_test).
  assert (Hst : state_ok impl1 N (is_def impl) im w (reverse (seq 0 (length (blocks impl1))))).
  { split; try assumption; intros b; [intros Hb.. | intros d Hb | intros d Hb]; destruct (Hz b Hb) as [Ei Eo]; rewrite ?Ei, ?Eo; try (apply bitset_zero_ok; lia); intros _ H; destruct (Hz0 d H). }
  assert (Hset : settled impl1 (is_def impl) im (reverse (seq 0 (length (blocks impl1)))) O []).
  { intros c Hlt Hcl. destruct Hcl. rewrite elem_of_reverse, elem_of_seq. lia. }
  assert (Hroom : room N im + len (reverse (seq 0 (length (blocks impl1)))) <= Z.of_nat (liveness_fuel impl1 N)).
  { unfold room, len, liveness_fuel. rewrite length_reverse, length_seq. pose proof (same_but_length _ _ _ Hc) as El. change (blocks impl1) with (blocks impl) in *.
    assert (Hk : 0 <= 32 * BITSET_WORDS N) by (pose proof (unset_bound N [] ltac:(lia)); lia).
    enough (total (fun blk => unset N (live_out blk)) (blocks im) <= Z.of_nat (length (blocks im)) * (32 * BITSET_WORDS N)) by (unfold BITSET_WORDBITS; nia).
    clear - HN. induction (blocks im) as [|blk l IH]; [cbn; lia|]. cbn [total length]. pose proof (unset_bound N (live_out blk) ltac:(lia)). lia. }
  destruct (liveness_loop_spec impl1 N (is_def impl) HI (ln_preds _ Hin) (ln_instrs _ Hin) (ln_conditions _ Hin) (ln_first _ Hin) (ln_phis _ Hin) _ _ _ _ Hst Hset Hroom) as (im' & w' & -> & Hst' & Hset').
  exists im'. split; [reflexivity|]. pose proof (st_code _ _ _ _ _ _ Hst') as Hc'. destruct (same_code _ _ Hc') as (_ & _ & _ & Eidx). split.
  - apply Hc'.
  - intros d. destruct Hc' as (_ & _ & ->). apply (ix_parent _ _ _ _ _ Hix).
  - intros i d Hd. rewrite Eidx. now apply Hundef.
  - intros i j d e Hs Hi Hj. rewrite !Eidx. now apply (Horder i j).
  - intros i d b blk Hd Hi Hblk. rewrite Eidx. assert (Ht : tracked impl1 (is_def impl) d).
    { split; [apply list_elem_of_fmap; exists (i, d); auto|]. rewrite (Hundef i d Hd). assumption. }
    destruct (settled_live impl1 N (is_def impl) im' w' d Hst' Hset' Ht) as [Hin' Hout'].
    assert (Hb : (b < length (blocks impl1))%nat) by (rewrite <- (same_but_length _ _ _ Hc'); now apply lookup_lt_Some in Hblk).
    destruct (block_code impl1 im' b blk Hc' Hblk) as (_ & _ & _ & -> & ->). destruct (live_at_same impl impl1 d (or_intror eq_refl)) as [H1 H2], (live_at_same impl1 impl d (or_intror eq_refl)) as [H3 H4].
    split; split; intros H; [apply H3, (st_sound_in _ _ _ _ _ _ Hst'); auto | apply Hin'; auto | apply H4, (st_sound_out _ _ _ _ _ _ Hst'); auto | apply Hout'; auto].
Qed.
