(* ===== verification/NirInterfere.v ===== *)
(** * Properties of the liveness analysis and of the interference test
      (nir_liveness.c) *)

From stdpp Require Import base list sets numbers.
From Stdlib Require Import ZArith Lia.
From S2P Require Import Prelude Arrays Bitset NirCfg NirImpl NirWorklist NirLiveness NirLiveFacts.
From S2P Require Import NirLiveProps.
#[local] Open Scope bool_scope.
#[local] Open Scope Z_scope.
#[local] Open Scope c_scope.

(** ** Positions *)

Definition instr_at (impl : nir_function_impl) (at_ : nat * nat) : option nir_instr := instrs_of impl at_.1 !! at_.2.

(** The instruction at [at_] makes the definition [d]. *)
Definition defined_at (impl : nir_function_impl) (at_ : nat * nat) (i : nir_instr) (d : nat) : Prop :=
  instr_at impl at_ = Some i /\ d ∈ nir_foreach_ssa_def i.

(** [parent_instr] is where the definition is. *)
Definition parents_ok (impl : nir_function_impl) : Prop :=
  forall at_ i d, defined_at impl at_ i d -> parent_instr <$> ssa_defs impl !! d = Some at_.

Definition comes_before (p q : nat * nat) : Prop := (p.1 < q.1 \/ (p.1 = q.1 /\ p.2 < q.2))%nat.

(** The instructions of the block after a position. *)
Definition rest_of (impl : nir_function_impl) (at_ : nat * nat) : list nir_instr := drop (S at_.2) (instrs_of impl at_.1).

Definition used_in (d : nat) (l : list nir_instr) : Prop := exists i, i ∈ l /\ Src_ssa d ∈ nir_foreach_src i.

(** [d] is live just after the instruction at [at_]. *)
Definition live_after (impl : nir_function_impl) (d : nat) (at_ : nat * nat) : Prop :=
  exposed d (rest_of impl at_) \/
  (not_defined d (rest_of impl at_) /\ (condition_of impl at_.1 = Some (Src_ssa d) \/ live_out_at impl d at_.1)).

Lemma sublist_bind_two {A B} (f : A -> list B) l k1 k2 x y u v : l !! k1 = Some x -> l !! k2 = Some y -> (k1 < k2)%nat -> u ∈ f x -> v ∈ f y ->
  [u; v] `sublist_of` (l ≫= f).
Proof.
  intros H1 H2 Hlt Hu Hv. rewrite <- (take_drop (S k1) l), bind_app. apply (sublist_app [u] _ [v]); apply singleton_sublist_l, list_elem_of_bind.
  - exists x. split; [assumption|]. apply (list_elem_of_lookup_2 _ k1). rewrite lookup_take_lt by lia. assumption.
  - exists y. split; [assumption|]. apply (list_elem_of_lookup_2 _ (k2 - S k1)). rewrite lookup_drop. now replace (S k1 + (k2 - S k1))%nat with k2 by lia.
Qed.

Lemma sublist_bind_one {A B} (f : A -> list B) l k x s : l !! k = Some x -> s `sublist_of` f x -> s `sublist_of` (l ≫= f).
Proof.
  intros Hk Hs. rewrite <- (take_drop_middle l k x Hk), bind_app. apply sublist_inserts_l. cbn. now apply sublist_inserts_r.
Qed.

Lemma instr_block impl at_ i : instr_at impl at_ = Some i -> exists blk, blocks impl !! at_.1 = Some blk /\ instr_list blk !! at_.2 = Some i.
Proof. unfold instr_at, instrs_of, member. destruct (blocks impl !! at_.1) as [blk|]; [eauto | discriminate]. Qed.

(** Definitions are indexed in the order of the program. *)
Lemma defs_in_order impl p q i j a b : defined_at impl p i a -> defined_at impl q j b -> comes_before p q -> [(i, a); (j, b)] `sublist_of` all_defs impl.
Proof.
  intros [Hi Ha] [Hj Hb] Hlt. destruct (instr_block _ _ _ Hi) as (bp & Hbp & Hip), (instr_block _ _ _ Hj) as (bq & Hbq & Hjq).
  assert (Ha' : (i, a) ∈ instr_defs i) by (apply list_elem_of_fmap; eauto). assert (Hb' : (j, b) ∈ instr_defs j) by (apply list_elem_of_fmap; eauto).
  destruct Hlt as [Hlt|[E Hlt]].
  - apply (sublist_bind_two _ _ _ _ _ _ _ _ Hbp Hbq Hlt); apply list_elem_of_bind; eauto using list_elem_of_lookup_2.
  - rewrite E, Hbq in Hbp. injection Hbp as <-. apply (sublist_bind_one _ _ _ _ _ Hbq). exact (sublist_bind_two _ _ _ _ _ _ _ _ Hip Hjq Hlt Ha' Hb').
Qed.

Lemma def_known impl p i a : defined_at impl p i a -> (i, a) ∈ all_defs impl.
Proof.
  intros [Hi Ha]. destruct (instr_block _ _ _ Hi) as (bp & Hbp & Hip). apply list_elem_of_bind. exists bp. split; [|now apply list_elem_of_lookup_2 in Hbp].
  apply list_elem_of_bind. exists i. split; [apply list_elem_of_fmap; eauto | now apply list_elem_of_lookup_2 in Hip].
Qed.

(** A definition is not made again after a later one. *)
Lemma not_redefined impl p q i a : parents_ok impl -> defined_at impl p i a -> comes_before p q -> not_defined a (rest_of impl q).
Proof.
  intros Hpar Ha Hlt j Hj Hd. apply list_elem_of_lookup_1 in Hj as [k Hk]. unfold rest_of in Hk. rewrite lookup_drop in Hk.
  pose proof (Hpar _ _ _ Ha) as H1. assert (H2 : defined_at impl (q.1, (S q.2 + k)%nat) j a) by (split; [exact Hk | assumption]).
  apply Hpar in H2. rewrite H1 in H2. injection H2 as E. destruct p as [p1 p2]. injection E as -> ->. unfold comes_before in Hlt. cbn in Hlt. lia.
Qed.

Lemma exposed_used d l : not_defined d l -> exposed d l <-> used_in d l.
Proof.
  intros Hn. unfold used_in. split; [intros (l1 & i & l2 & -> & Hu & _); exists i; set_solver|].
  intros (i & Hi & Hu). apply list_elem_of_split in Hi as (l1 & l2 & ->). exists l1, i, l2. split; [reflexivity|]. split; [assumption|]. intros j Hj. apply Hn. set_solver.
Qed.

Lemma search_spec blk pos d : search_for_use_after_instr blk pos d = true <-> used_in d (drop (S pos) (instr_list blk)).
Proof.
  unfold search_for_use_after_instr, used_in. rewrite existsb_exists. setoid_rewrite existsb_exists. setoid_rewrite <- list_elem_of_In. split.
  - intros (i & Hi & s & Hs & Hd). exists i. split; [assumption|]. destruct s; cbn in Hd; [|discriminate]. apply bool_decide_eq_true in Hd as ->. assumption.
  - intros (i & Hi & Hs). exists i. split; [assumption|]. exists (Src_ssa d). split; [assumption|]. now apply bool_decide_eq_true.
Qed.

(** After a position that is not a phi there is only the body. *)
Lemma rest_in_body impl q j d : phis_first (instrs_of impl q.1) -> instr_at impl q = Some j -> is_phi j = false ->
  used_in d (rest_of impl q) -> not_defined d (instrs_of impl q.1) -> exposed d (body_of impl q.1).
Proof.
  intros Hf Hj Hphi (i & Hi & Hu) Hn. unfold body_of. set (l := instrs_of impl q.1) in *.
  assert (Hsub : forall x, x ∈ block_body l -> x ∈ l) by (intros x Hx; rewrite (block_split l); set_solver).
  apply exposed_used; [intros x Hx; apply Hn, Hsub, Hx|]. exists i. split; [|assumption]. unfold rest_of in Hi. fold l in Hi.
  assert (Hk : (length (leading_phis l) <= q.2)%nat).
  { apply Nat.nlt_ge. intros Hlt. unfold instr_at in Hj. fold l in Hj. rewrite (block_split l), lookup_app_l in Hj by assumption.
    apply list_elem_of_lookup_2, leading_are_phis in Hj. congruence. }
  apply list_elem_of_lookup_1 in Hi as [k Hi]. rewrite lookup_drop in Hi. unfold block_body. apply (list_elem_of_lookup_2 _ (S q.2 + k - length (leading_phis l))).
  rewrite lookup_drop. now replace (length (leading_phis l) + (S q.2 + k - length (leading_phis l)))%nat with (S q.2 + k)%nat by lia.
Qed.

(** ** The interference test *)

Section interference.
Context (impl impl' : nir_function_impl) (Hin : liveness_input impl) (Han : analysed impl impl') (Hpar : parents_ok impl).

Lemma def_at_spec p i a : defined_at impl p i a -> exists x, def_at impl' a = Ret x /\ live_index x = live_index_of impl' a /\ parent_instr x = p.
Proof using Han Hpar.
  intros Ha. pose proof (Hpar _ _ _ Ha) as E. rewrite <- (an_parent _ _ Han) in E. unfold def_at, live_index_of.
  destruct (ssa_defs impl' !! a) as [x|]; [|discriminate]. exists x. injection E as E. auto.
Qed.

Lemma block_kept b : (b < length (blocks impl))%nat -> exists blk, blocks impl' !! b = Some blk /\ instr_list blk = instrs_of impl b.
Proof using Han.
  intros Hb. destruct (lookup_lt_is_Some_2 _ _ Hb) as [blk0 H0]. pose proof (f_equal (fun l => l !! b) (an_code _ _ Han)) as E. cbn in E.
  rewrite !list_lookup_fmap, H0 in E. destruct (blocks impl' !! b) as [blk|]; [|discriminate]. exists blk. split; [reflexivity|].
  unfold instrs_of, member. rewrite H0. destruct blk, blk0. now injection E.
Qed.

Lemma is_live_at_spec p q i j a : defined_at impl p i a -> instr_type i <> nir_instr_type_ssa_undef -> comes_before p q ->
  instr_at impl q = Some j -> is_phi j = false ->
  exists t, nir_ssa_def_is_live_at impl' a q = Ret t /\ (t = true <-> used_in a (rest_of impl q) \/ live_out_at impl a q.1).
Proof using Hin Han Hpar.
  intros Ha Hi Hlt Hj Hphi. destruct (def_at_spec p i a Ha) as (x & Ex & Eidx & Epar). unfold nir_ssa_def_is_live_at. rewrite Ex. cbn [obind].
  destruct (instr_block _ _ _ Hj) as (blk0 & Hblk0 & _). destruct (block_kept q.1 ltac:(now apply lookup_lt_Some in Hblk0)) as (blk & Hblk & Eil).
  rewrite (deref_lookup _ _ _ Hblk), Eidx, Epar. cbn [obind]. destruct (an_live _ _ Han i a q.1 blk (def_known _ _ _ _ Ha) Hi Hblk) as [Hli Hlo].
  destruct (BITSET_TEST (live_out blk) (live_index_of impl' a)) eqn:Eout; [exists true; split; [reflexivity|]; split; [intros _; right; now apply Hlo | reflexivity]|].
  assert (Hnlo : ~ live_out_at impl a q.1) by (intros H; apply Hlo in H; discriminate).
  assert (Hs : search_for_use_after_instr blk q.2 a = true <-> used_in a (rest_of impl q)) by (unfold rest_of; rewrite search_spec, Eil; reflexivity).
  destruct (BITSET_TEST (live_in blk) (live_index_of impl' a)) eqn:Ein; [eexists; split; [reflexivity|]; tauto|].
  destruct (decide (p.1 = q.1)) as [E|Hne]; [rewrite bool_decide_true by assumption; eexists; split; [reflexivity|]; tauto|].
  rewrite bool_decide_false by assumption. exists false. split; [reflexivity|]. split; [discriminate|]. intros [Hu|?]; [|contradiction].
  assert (Hnd : not_defined a (instrs_of impl q.1)).
  { intros y [k Hk]%list_elem_of_lookup_1 Hd. assert (H : defined_at impl (q.1, k) y a) by (split; assumption). apply Hpar in H. rewrite (Hpar _ _ _ Ha) in H. injection H as ->. contradiction. }
  apply Hli, Live_exposed. exact (rest_in_body impl q j a (ln_first _ Hin q.1) Hj Hphi Hu Hnd).
Qed.

Lemma interfere_spec p q i j a b : defined_at impl p i a -> defined_at impl q j b -> comes_before p q -> is_phi j = false ->
  instr_type i <> nir_instr_type_ssa_undef -> instr_type j <> nir_instr_type_ssa_undef ->
  exists t, nir_ssa_defs_interfere impl' a b = Ret t /\ nir_ssa_defs_interfere impl' b a = Ret t /\
  (t = true <-> used_in a (rest_of impl q) \/ live_out_at impl a q.1).
Proof using Hin Han Hpar.
  intros Ha Hb Hlt Hphi Hi Hj. destruct (is_live_at_spec p q i j a Ha Hi Hlt (proj1 Hb) Hphi) as (t & Et & Ht). exists t.
  destruct (def_at_spec p i a Ha) as (x & Ex & Exi & Exp). destruct (def_at_spec q j b Hb) as (y & Ey & Eyi & Eyp).
  pose proof (an_order _ _ Han i j a b (defs_in_order _ _ _ _ _ _ _ Ha Hb Hlt) Hi Hj) as Hord.
  assert (Hax : live_index_of impl' a <> 0) by (rewrite (an_undef _ _ Han i a (def_known _ _ _ _ Ha)); assumption).
  assert (Hbx : live_index_of impl' b <> 0) by (rewrite (an_undef _ _ Han j b (def_known _ _ _ _ Hb)); assumption).
  assert (Hpq : p <> q) by (intros ->; unfold comes_before in Hlt; lia).
  unfold nir_ssa_defs_interfere. rewrite Ex, Ey. cbn [obind]. rewrite Exp, Eyp, Exi, Eyi, !bool_decide_false by congruence.
  rewrite (proj2 (Z.eqb_neq _ _) Hax), (proj2 (Z.eqb_neq _ _) Hbx). cbn [orb]. rewrite (proj2 (Z.ltb_lt _ _) Hord), (proj2 (Z.ltb_ge _ _)) by lia. auto.
Qed.
End interference.

(** ** A function with a loop *)

Definition alu (d : nat) (l : list nat) : nir_instr := Instr nir_instr_type_alu [Dest_ssa d] (Src_ssa <$> l) [].
Definition load_const (d : nat) : nir_instr := Instr nir_instr_type_load_const [Dest_ssa d] [] [].
Definition phi (d : nat) (l : list (nat * nat)) : nir_instr := Instr nir_instr_type_phi [Dest_ssa d] [] (prod_map id Src_ssa <$> l).

Definition code_block (l : list nir_instr) (c : option nir_src) (preds : list nat) : nir_block := MkBlock l c 0 preds None 0 [] [] 0 0 [] [].

(** [d0; d1; loop { d2 = phi(d0, d4); d3 = f(d2, d1); if (d3) break; d4 = g(d2) } d5 = h(d1)] *)
Definition loop_code : nir_function_impl :=
  MkImpl [code_block [load_const 0; load_const 1] None [];
          code_block [phi 2 [(0, 0); (3, 4)]; alu 3 [2; 1]]%nat (Some (Src_ssa 3)) [0; 3]%nat;
          code_block [Instr nir_instr_type_jump [] [] []] None [1]%nat;
          code_block [alu 4 [2]%nat] None [1]%nat;
          code_block [alu 5 [1]%nat] None [2]%nat]
         [MkDef 0 (0, 0); MkDef 0 (0, 1); MkDef 0 (1, 0); MkDef 0 (1, 1); MkDef 0 (3, 0); MkDef 0 (4, 0)]%nat 5 1.

(** Case analysis on the elements of a concrete list. *)
Ltac each_elem :=
  repeat match goal with
  | H : list_elem_of ?x ?l |- _ => change (x ∈ l) in H
  | H : _ ∈ [] |- _ => now apply not_elem_of_nil in H
  | H : _ ∈ _ :: _ |- _ => apply elem_of_cons in H as [?|H]
  | H : _ = _ :> nat * nir_src |- _ => injection H as ? ?; subst
  | H : _ = _ |- _ => progress subst
  end.

Ltac is_elem := vm_compute; repeat (first [apply list_elem_of_here | apply list_elem_of_further]).

(** The blocks of a function with at most five. *)
Ltac each_block b := do 5 (try destruct b as [|b]).

Ltac check_input :=
  split; [vm_compute; intuition congruence | reflexivity | | apply (bool_decide_unpack _); vm_compute; exact I | vm_compute; reflexivity | | | | |];
  [ intros b p Hp; each_block b; vm_compute in Hp; each_elem; vm_compute; lia
  | intros d Hd; vm_compute in Hd; each_elem; vm_compute; lia
  | intros b i Hi; each_block b; vm_compute in Hi; each_elem; (split; intros x Hx; vm_compute in Hx; each_elem; is_elem)
  | intros b s Hs; each_block b; vm_compute in Hs; try discriminate; injection Hs as <-; is_elem
  | intros b i Hi; each_block b; vm_compute in Hi; each_elem; reflexivity
  | intros b i Hi; each_block b; vm_compute in Hi; each_elem; (split; [eexists; split; [reflexivity | is_elem]|]; split;
      [apply (bool_decide_unpack _); vm_compute; exact I | intros p s Hs; vm_compute in Hs; each_elem; is_elem]) ].

Ltac check_parents :=
  intros [b k] i d [Hi Hd]; unfold instr_at in Hi; cbn [fst snd] in Hi; each_block b; destruct k as [|[|k]]; vm_compute in Hi;
  try discriminate; injection Hi as <-; vm_compute in Hd; each_elem; reflexivity.

Lemma loop_input : liveness_input loop_code.
Proof. check_input. Qed.

(** ** Properties *)

(** C6: [nir_live_ssa_defs_impl] terminates on every function in SSA form,
    changes nothing of the code, gives exactly the undefined values the index
    0, and leaves in [live_in] and [live_out] of each block exactly the values
    live there: a value is live in if some path uses it before it is defined,
    where a phi uses its sources at the end of the predecessors. *)
Theorem nir_live_ssa_defs_correct impl : liveness_input impl ->
  exists impl', nir_live_ssa_defs_impl impl = Ret impl' /\ no_live <$> blocks impl' = no_live <$> blocks impl /\
  forall i d, (i, d) ∈ all_defs impl ->
    (live_index_of impl' d = 0 <-> instr_type i = nir_instr_type_ssa_undef) /\
    (instr_type i <> nir_instr_type_ssa_undef -> forall b blk, blocks impl' !! b = Some blk ->
       (BITSET_TEST (live_in blk) (live_index_of impl' d) = true <-> live_in_at impl d b) /\
       (BITSET_TEST (live_out blk) (live_index_of impl' d) = true <-> live_out_at impl d b)).
Proof.
  intros Hin. destruct (live_ssa_defs_spec impl Hin) as (impl' & E & Han). exists impl'. split; [assumption|]. split; [apply Han|].
  intros i d Hd. split; [now apply Han|]. intros Hi b blk Hb. now apply (an_live _ _ Han i).
Qed.

(** The value [d1] lives around the loop. *)
Lemma nir_live_ssa_defs_correct_witness : exists impl' blk, nir_live_ssa_defs_impl loop_code = Ret impl' /\ blocks impl' !! 3%nat = Some blk /\
  BITSET_TEST (live_in blk) (live_index_of impl' 1) = true.
Proof.
  destruct (nir_live_ssa_defs_correct loop_code loop_input) as (impl' & E & Hc & H).
  destruct (blocks impl' !! 3%nat) as [blk|] eqn:Hb; [|apply (f_equal (fun l => l !! 3%nat)) in Hc; rewrite !list_lookup_fmap, Hb in Hc; discriminate].
  exists impl', blk. split; [assumption|]. split; [assumption|]. apply (proj1 (proj2 (H (load_const 1) 1%nat ltac:(is_elem)) ltac:(discriminate) 3%nat blk Hb)).
  apply Live_through; [|intros j Hj; vm_compute in Hj; each_elem; intros Hd; vm_compute in Hd; each_elem; discriminate].
  apply (Live_edge _ _ 3 1); [is_elem | | intros j Hj; vm_compute in Hj; each_elem; intros Hd; vm_compute in Hd; each_elem; discriminate].
  apply Live_exposed. exists [], (alu 3 [2; 1]%nat), []. split; [reflexivity|]. split; [is_elem | intros j Hj; now apply not_elem_of_nil in Hj].
Defined.

(** C30: after the analysis, the interference test on two values that are not
    undefined, [b] defined by a later instruction that is no phi, is symmetric
    and true exactly if [a] is used by a later instruction of the block of [b]
    or is live at its end.  So it is true if and only if [a] is live just after
    the definition of [b], unless the only remaining use of [a] is the
    condition of the if that follows the block, which the test misses. *)
Theorem nir_ssa_defs_interfere_exact impl impl' p q i j a b :
  liveness_input impl -> parents_ok impl -> nir_live_ssa_defs_impl impl = Ret impl' ->
  defined_at impl p i a -> defined_at impl q j b -> comes_before p q -> is_phi j = false ->
  instr_type i <> nir_instr_type_ssa_undef -> instr_type j <> nir_instr_type_ssa_undef ->
  exists t, nir_ssa_defs_interfere impl' a b = Ret t /\ nir_ssa_defs_interfere impl' b a = Ret t /\
  (t = true <-> used_in a (rest_of impl q) \/ live_out_at impl a q.1) /\
  (live_after impl a q <-> t = true \/ condition_of impl q.1 = Some (Src_ssa a)).
Proof.
  intros Hin Hpar E Ha Hb Hlt Hphi Hi Hj. destruct (live_ssa_defs_spec impl Hin) as (im & E' & Han). rewrite E in E'. injection E' as <-.
  destruct (interfere_spec impl impl' Hin Han Hpar p q i j a b Ha Hb Hlt Hphi Hi Hj) as (t & E1 & E2 & Ht). exists t. split; [assumption|]. split; [assumption|]. split; [assumption|].
  pose proof (not_redefined impl p q i a Hpar Ha Hlt) as Hn. unfold live_after. rewrite (exposed_used a _ Hn), Ht. tauto.
Qed.

(** In [c; x; if (c)] the test misses that [c] is live after [x]. *)
Definition if_code : nir_function_impl :=
  MkImpl [code_block [load_const 0; load_const 1] (Some (Src_ssa 0)) [];
          code_block [] None [0]%nat; code_block [] None [0]%nat;
          code_block [alu 2 [1]%nat] None [1; 2]%nat]
         [MkDef 0 (0, 0); MkDef 0 (0, 1); MkDef 0 (3, 0)]%nat 4 1.

Lemma if_input : liveness_input if_code.
Proof. check_input. Qed.

Lemma if_parents : parents_ok if_code.
Proof. check_parents. Qed.

Definition if_result : nir_function_impl := match nir_live_ssa_defs_impl if_code with Ret impl' => impl' | _ => if_code end.

Lemma nir_ssa_defs_interfere_exact_witness : nir_live_ssa_defs_impl if_code = Ret if_result /\
  nir_ssa_defs_interfere if_result 0 1 = Ret false /\ live_after if_code 0 (0, 1)%nat.
Proof.
  assert (E : nir_live_ssa_defs_impl if_code = Ret if_result) by (vm_compute; reflexivity). split; [exact E|]. split; [vm_compute; reflexivity|].
  destruct (nir_ssa_defs_interfere_exact if_code if_result (0, 0)%nat (0, 1)%nat (load_const 0) (load_const 1) 0%nat 1%nat if_input if_parents E) as (t & _ & _ & _ & H);
    [split; [reflexivity | is_elem].. | right; cbn; lia | reflexivity | discriminate | discriminate |].
  apply H. right. reflexivity.
Defined.
