(* ===== verification/Ralloc.v ===== *)
(** * Memory contexts: src/util/ralloc.c

    A block is a chunk of [malloc] that starts with a header; headers form
    trees through [parent], [child], [prev] and [next].  Addresses are
    integers and [NULL] is 0.  The heap has the chunks, their bytes ([None]
    before the first write) and, as typed overlays of the bytes at the start of
    a chunk, the headers; the overlay of the linear allocator is in the file
    RallocLinear.  An access outside the chunks, through a freed pointer or to
    a byte never written has no result, like a failed assertion.  The
    addresses that the C library returns come from [supply], 0 for a failure.
    Calls of destructors and of [free] are recorded in [events]. *)

From stdpp Require Import base gmap numbers list.
From Stdlib Require Import ZArith.
From S2P Require Import Prelude StateM.
#[local] Open Scope bool_scope.
#[local] Open Scope Z_scope.

(** ** State *)

Record ralloc_header := RallocHeader {
  canary : Z;
  parent : Z;
  child : Z;
  prev : Z;
  next : Z;
  destructor : Z
}.

(** [magic] and the rest of the struct at the start of a linear buffer. *)
Record linear_header := LinearHeader {
  magic : Z;
  offset : Z;
  lin_size : Z;
  lin_ralloc_parent : Z;
  lin_next : Z;
  latest : Z
}.

Inductive event :=
| Ev_destructor (f ptr : Z)
| Ev_free (info : Z).

Record heap := Heap {
  hdrs : gmap Z ralloc_header;
  lins : gmap Z linear_header;
  chunks : gmap Z Z;
  mem : gmap Z (option Z);
  supply : list Z;
  events : list event
}.

#[export] Instance ralloc_header_eta : Eta ralloc_header := fun b =>
  RallocHeader (canary b) (parent b) (child b) (prev b) (next b) (destructor b).
#[export] Instance linear_header_eta : Eta linear_header := fun b =>
  LinearHeader (magic b) (offset b) (lin_size b) (lin_ralloc_parent b) (lin_next b) (latest b).
#[export] Instance heap_eta : Eta heap := fun h => Heap (hdrs h) (lins h) (chunks h) (mem h) (supply h) (events h).

(** ** State and errors *)

Abbreviation M := (ST heap).
#[local] Open Scope c_scope.
#[local] Open Scope state_scope.

(** ** The C library *)

(** A canary and five pointers, aligned to 16 bytes. *)
Definition sizeof_ralloc_header : Z := 48.
(** Three [unsigned]s and three pointers, aligned to 16 bytes. *)
Definition sizeof_linear_header : Z := 48.

(** The addresses [a], [a + 1], ..., [a + n - 1]. *)
Definition range (a n : Z) : list Z := seqZ a n.

Definition reserve (a n : Z) (m : gmap Z (option Z)) : gmap Z (option Z) := foldr (fun i => <[i := None]>) m (range a n).
Definition release (a n : Z) (m : gmap Z (option Z)) : gmap Z (option Z) := foldr delete m (range a n).
(** Copies of the bytes from [src] on, uninitialised ones included. *)
Definition copy (dst src n : Z) (m m0 : gmap Z (option Z)) : gmap Z (option Z) :=
  foldr (fun i m => <[dst + i := default None (m0 !! (src + i))]> m) m (range 0 n).

Definition malloc (n : Z) : M Z := fun h =>
  match supply h with
  | [] => Ret (0, h)
  | a :: l =>
      let h := h <| supply := l |> in
      if a =? 0 then Ret (0, h)
      else Ret (a, h <| chunks := <[a := n]> (chunks h) |> <| mem := reserve a n (mem h) |>)
  end.

Definition free (a : Z) : M unit := fun h =>
  match chunks h !! a with
  | None => Assert_failed
  | Some n =>
      Ret (tt, h <| hdrs := delete a (hdrs h) |> <| lins := delete a (lins h) |> <| chunks := delete a (chunks h) |>
                 <| mem := release a n (mem h) |> <| events := events h ++ [Ev_free a] |>)
  end.

(** What is stored under the key [old] moves to the key [new], if it [fits]. *)
Definition move {A} (fits : bool) (new old : Z) (m : gmap Z A) : gmap Z A :=
  match m !! old with
  | Some v => if fits then <[new := v]> (delete old m) else delete old m
  | None => m
  end.

(** The chunk stays where it is, or its first bytes are copied to a new one. *)
Definition realloc (old n : Z) : M Z := fun h =>
  match chunks h !! old, supply h with
  | None, _ => Assert_failed
  | Some _, [] => Ret (0, h)
  | Some n0, a :: l =>
      let h := h <| supply := l |> in
      if a =? 0 then Ret (0, h)
      else
        Ret (a, h <| hdrs := move (sizeof_ralloc_header <=? n) a old (hdrs h) |>
                  <| lins := move (sizeof_ralloc_header + sizeof_linear_header <=? n) a old (lins h) |>
                  <| chunks := <[a := n]> (delete old (chunks h)) |>
                  <| mem := copy a old (Z.min n0 n) (reserve a n (release old n0 (mem h))) (mem h) |>)
  end.

Definition load (a : Z) : M Z := fun h =>
  match mem h !! a with Some (Some v) => Ret (v, h) | _ => Assert_failed end.
Definition store (a v : Z) : M unit := fun h =>
  match mem h !! a with Some _ => Ret (tt, h <| mem := <[a := Some v]> (mem h) |>) | None => Assert_failed end.

(** The characters up to the terminating null, or up to [max] of them. *)
Fixpoint scan_string (fuel : nat) (max : option Z) (a : Z) : M Z :=
  match fuel with
  | O => out_of_fuel
  | S fuel =>
      if decide (max = Some 0) then ret 0
      else
        let* c := load a in
        if c =? 0 then ret 0 else let* n := scan_string fuel (Z.pred <$> max) (a + 1) in ret (n + 1)
  end.
Definition rounds : M nat := fun h => Ret (S (size (mem h)), h).
Definition strlen (str : Z) : M Z := let* n := rounds in scan_string n None str.
Definition strnlen (str max : Z) : M Z := let* n := rounds in scan_string n (Some max) str.

Fixpoint loads (l : list Z) : M (list (option Z)) :=
  match l with
  | [] => ret []
  | a :: l => fun h => match mem h !! a with Some v => bind (loads l) (fun vs => ret (v :: vs)) h | None => Assert_failed end
  end.
Fixpoint stores (a : Z) (vs : list (option Z)) : M unit :=
  match vs with
  | [] => ret tt
  | v :: vs => fun h => match mem h !! a with
                        | Some _ => stores (a + 1) vs (h <| mem := <[a := v]> (mem h) |>)
                        | None => Assert_failed
                        end
  end.
Definition memcpy (dst src n : Z) : M unit := let* vs := loads (range src n) in stores dst vs.
Definition memset (dst c n : Z) : M unit := stores dst (replicate (Z.to_nat n) (Some c)).

(** ** Headers *)

Definition CANARY : Z := 0x5A1106.
Definition SIZE_MAX : Z := 2 ^ 64 - 1.

Definition deref (info : Z) : M ralloc_header := fun h =>
  match hdrs h !! info with Some b => Ret (b, h) | None => Assert_failed end.
Definition modify (info : Z) (f : ralloc_header -> ralloc_header) : M unit := fun h =>
  match hdrs h !! info with Some b => Ret (tt, h <| hdrs := <[info := f b]> (hdrs h) |>) | None => Assert_failed end.
(** The first writes to the members of a new header. *)
Definition put_header (info : Z) (b : ralloc_header) : M unit := fun h =>
  match chunks h !! info with
  | Some n => if sizeof_ralloc_header <=? n then Ret (tt, h <| hdrs := <[info := b]> (hdrs h) |>) else Assert_failed
  | None => Assert_failed
  end.

Definition get_header (ptr : Z) : M Z :=
  let info := ptr - sizeof_ralloc_header in
  let* b := deref info in
  m_assert (canary b =? CANARY) ;;
  ret info.

Definition PTR_FROM_HEADER (info : Z) : Z := info + sizeof_ralloc_header.

Definition add_child (parent_ info : Z) : M unit :=
  when (negb (parent_ =? 0))
   (modify info (fun b => b <| parent := parent_ |>) ;;
    let* p := deref parent_ in
    modify info (fun b => b <| next := child p |>) ;;
    modify parent_ (fun b => b <| child := info |>) ;;
    let* i := deref info in
    when (negb (next i =? 0)) (modify (next i) (fun b => b <| prev := info |>))).

(** ** Allocation *)

Definition ralloc_size (ctx size : Z) : M Z :=
  let* block := malloc (u64 (size + sizeof_ralloc_header)) in
  if block =? 0 then ret 0
  else
    let info := block in
    put_header info (RallocHeader 0 0 0 0 0 0) ;;
    let* parent := if negb (ctx =? 0) then get_header ctx else ret 0 in
    add_child parent info ;;
    modify info (fun b => b <| canary := CANARY |>) ;;
    ret (PTR_FROM_HEADER info).

Definition ralloc_context (ctx : Z) : M Z := ralloc_size ctx 0.

Definition rzalloc_size (ctx size : Z) : M Z :=
  let* ptr := ralloc_size ctx size in
  when (negb (ptr =? 0)) (memset ptr 0 size) ;;
  ret ptr.

(** [for (child = c; child != NULL; child = child->next) child->parent = info] *)
Fixpoint set_parents (fuel : nat) (info c : Z) : M unit :=
  match fuel with
  | O => out_of_fuel
  | S fuel =>
      if c =? 0 then ret tt
      else
        modify c (fun b => b <| parent := info |>) ;;
        let* b := deref c in
        set_parents fuel info (next b)
  end.

(** One round more than there are blocks. *)
Definition blocks : M nat := fun h => Ret (S (size (hdrs h)), h).

(** The links to a block that [realloc] may have moved. *)
Definition relink (old info : Z) : M unit :=
  let* i := deref info in
  when (negb (info =? old) && negb (parent i =? 0))
   (let* p := deref (parent i) in
    when (child p =? old) (modify (parent i) (fun b => b <| child := info |>)) ;;
    when (negb (prev i =? 0)) (modify (prev i) (fun b => b <| next := info |>)) ;;
    when (negb (next i =? 0)) (modify (next i) (fun b => b <| prev := info |>))) ;;
  let* n := blocks in
  let* i := deref info in
  set_parents n info (child i).

Definition resize (ptr size : Z) : M Z :=
  let* old := get_header ptr in
  let* info := realloc old (u64 (size + sizeof_ralloc_header)) in
  if info =? 0 then ret 0
  else
    relink old info ;;
    ret (PTR_FROM_HEADER info).

Definition ralloc_parent (ptr : Z) : M Z :=
  if ptr =? 0 then ret 0
  else
    let* info := get_header ptr in
    let* b := deref info in
    ret (if negb (parent b =? 0) then PTR_FROM_HEADER (parent b) else 0).

Definition reralloc_size (ctx ptr size : Z) : M Z :=
  if ptr =? 0 then ralloc_size ctx size
  else
    let* p := ralloc_parent ptr in
    m_assert (p =? ctx) ;;
    resize ptr size.

(** [count > SIZE_MAX/size], with a trap when [size] is 0. *)
Definition array_size (size count : Z) (k : Z -> M Z) : M Z :=
  m_assert (negb (size =? 0)) ;;
  if count >? SIZE_MAX / size then ret 0 else k (u64 (size * count)).

Definition ralloc_array_size (ctx size count : Z) : M Z := array_size size count (ralloc_size ctx).
Definition rzalloc_array_size (ctx size count : Z) : M Z := array_size size count (rzalloc_size ctx).
Definition reralloc_array_size (ctx ptr size count : Z) : M Z := array_size size count (reralloc_size ctx ptr).

(** ** Release and reparenting *)

Definition unlink_block (info : Z) : M unit :=
  let* i := deref info in
  when (negb (parent i =? 0))
   (let* p := deref (parent i) in
    when (child p =? info) (modify (parent i) (fun b => b <| child := next i |>)) ;;
    when (negb (prev i =? 0)) (modify (prev i) (fun b => b <| next := next i |>)) ;;
    when (negb (next i =? 0)) (modify (next i) (fun b => b <| prev := prev i |>))) ;;
  modify info (fun b => b <| parent := 0 |> <| prev := 0 |> <| next := 0 |>).

Definition call_destructor (f ptr : Z) : M unit := fun h => Ret (tt, h <| events := events h ++ [Ev_destructor f ptr] |>).

(** The second call on [info] is the next round of the loop; each call but the
    first one comes after a block has left the tree. *)
Fixpoint unsafe_free (fuel : nat) (info : Z) : M unit :=
  match fuel with
  | O => out_of_fuel
  | S fuel =>
      let* i := deref info in
      if negb (child i =? 0) then
        let temp := child i in
        let* t := deref temp in
        modify info (fun b => b <| child := next t |>) ;;
        unsafe_free fuel temp ;;
        unsafe_free fuel info
      else
        when (negb (destructor i =? 0)) (call_destructor (destructor i) (PTR_FROM_HEADER info)) ;;
        free info
  end.

Definition ralloc_free (ptr : Z) : M unit :=
  when (negb (ptr =? 0))
   (let* info := get_header ptr in
    unlink_block info ;;
    let* n := blocks in
    unsafe_free n info).

Definition ralloc_steal (new_ctx ptr : Z) : M unit :=
  when (negb (ptr =? 0))
   (let* info := get_header ptr in
    let* parent := if negb (new_ctx =? 0) then get_header new_ctx else ret 0 in
    unlink_block info ;;
    add_child parent info).

(** The loop of [ralloc_adopt] and the statement after it; the result is the
    last child. *)
Fixpoint adopt_children (fuel : nat) (new_info c : Z) : M Z :=
  match fuel with
  | O => out_of_fuel
  | S fuel =>
      let* b := deref c in
      modify c (fun b => b <| parent := new_info |>) ;;
      if negb (next b =? 0) then adopt_children fuel new_info (next b) else ret c
  end.

Definition ralloc_adopt (new_ctx old_ctx : Z) : M unit :=
  when (negb (old_ctx =? 0))
   (let* old_info := get_header old_ctx in
    let* new_info := get_header new_ctx in
    let* o := deref old_info in
    when (negb (child o =? 0))
     (let* n := blocks in
      let* c := adopt_children n new_info (child o) in
      let* nw := deref new_info in
      modify c (fun b => b <| next := child nw |>) ;;
      when (negb (child nw =? 0)) (modify (child nw) (fun b => b <| prev := c |>)) ;;
      let* o := deref old_info in
      modify new_info (fun b => b <| child := child o |>) ;;
      modify old_info (fun b => b <| child := 0 |>))).

Definition ralloc_set_destructor (ptr f : Z) : M unit :=
  let* info := get_header ptr in
  modify info (fun b => b <| destructor := f |>).

(** ** Strings *)

Definition ralloc_strndup_n (ctx str n : Z) : M Z :=
  let* ptr := ralloc_array_size ctx 1 (u32 (n + 1)) in
  memcpy ptr str n ;;
  store (ptr + n) 0 ;;
  ret ptr.

Definition ralloc_strdup (ctx str : Z) : M Z :=
  if str =? 0 then ret 0 else let* n := strlen str in ralloc_strndup_n ctx str n.

Definition ralloc_strndup (ctx str max : Z) : M Z :=
  if str =? 0 then ret 0 else let* n := strnlen str max in ralloc_strndup_n ctx str n.

(** The result is the new value of [*dest] with the returned flag. *)
Definition ralloc_str_append (dest str existing_length str_size : Z) : M (bool * Z) :=
  m_assert (negb (dest =? 0)) ;;
  let* both := resize dest (u64 (existing_length + str_size + 1)) in
  if both =? 0 then ret (false, dest)
  else
    memcpy (both + existing_length) str str_size ;;
    store (both + (existing_length + str_size)) 0 ;;
    ret (true, both).

Definition cat (dest str n : Z) : M (bool * Z) :=
  m_assert (negb (dest =? 0)) ;;
  let* existing_length := strlen dest in
  let* both := resize dest (u64 (existing_length + n + 1)) in
  if both =? 0 then ret (false, dest)
  else
    memcpy (both + existing_length) str n ;;
    store (both + (existing_length + n)) 0 ;;
    ret (true, both).

Definition ralloc_strcat (dest str : Z) : M (bool * Z) := let* n := strlen str in cat dest str n.
Definition ralloc_strncat (dest str n : Z) : M (bool * Z) := let* n := strnlen str n in cat dest str n.

(** [vsnprintf(ptr, size, fmt, args)], where [text] is the formatted output. *)
Definition vsnprintf (ptr size : Z) (text : list Z) : M unit :=
  when (0 <? size) (stores ptr (Some <$> take (Z.to_nat (size - 1)) text ++ [0])).

(** The return value of [vsnprintf] is negative when it is not an [int]. *)
Definition printf_length (text : list Z) : M Z :=
  let size := if Z.of_nat (length text) <? 2 ^ 31 then Z.of_nat (length text) else -1 in
  m_assert (0 <=? size) ;;
  ret size.

Definition ralloc_vasprintf (ctx : Z) (text : list Z) : M Z :=
  let* n := printf_length text in
  let size := u64 (n + 1) in
  let* ptr := ralloc_size ctx size in
  when (negb (ptr =? 0)) (vsnprintf ptr size text) ;;
  ret ptr.

Definition ralloc_asprintf (ctx : Z) (text : list Z) : M Z := ralloc_vasprintf ctx text.

(** The result is the flag with the new values of [*str] and [*start]. *)
Definition ralloc_vasprintf_rewrite_tail (str start : Z) (text : list Z) : M (bool * Z * Z) :=
  if str =? 0 then
    let* str := ralloc_vasprintf 0 text in
    let* start := strlen str in
    ret (true, str, start)
  else
    let* new_length := printf_length text in
    let* ptr := resize str (u64 (start + new_length + 1)) in
    if ptr =? 0 then ret (false, str, start)
    else
      vsnprintf (ptr + start) (u64 (new_length + 1)) text ;;
      ret (true, ptr, u64 (start + new_length)).

Definition ralloc_asprintf_rewrite_tail (str start : Z) (text : list Z) : M (bool * Z * Z) := ralloc_vasprintf_rewrite_tail str start text.

Definition ralloc_vasprintf_append (str : Z) (text : list Z) : M (bool * Z) :=
  let* existing_length := if negb (str =? 0) then strlen str else ret 0 in
  let* (r, str, _) := ralloc_vasprintf_rewrite_tail str existing_length text in
  ret (r, str).

Definition ralloc_asprintf_append (str : Z) (text : list Z) : M (bool * Z) := ralloc_vasprintf_append str text.
