(* ===== verification/RallocForest.v ===== *)
(** * The forest of memory contexts

    The abstract state of ralloc: every block has a parent (0 for none), its
    children, the last added first, and a destructor.  The operations are those
    of src/util/ralloc.h without the sibling links; the file has the
    well-formedness of a forest, the descendants of a block, the order in which
    a block and its descendants are released, and preservation. *)

From stdpp Require Import base gmap numbers list.
From Stdlib Require Import ZArith Lia.
From S2P Require Import Prelude StateM Ralloc.
#[local] Open Scope Z_scope.
#[local] Open Scope c_scope.

Record anode := ANode { a_parent : Z; a_children : list Z; a_destructor : Z }.
#[export] Instance anode_eta : Eta anode := fun n => ANode (a_parent n) (a_children n) (a_destructor n).
Abbreviation forest := (gmap Z anode).

Definition up (f : forest) (p : Z) : Z := default 0 (a_parent <$> f !! p).
Definition kids (f : forest) (p : Z) : list Z := default [] (a_children <$> f !! p).
Definition dtor (f : forest) (p : Z) : Z := default 0 (a_destructor <$> f !! p).
Definition live (f : forest) (p : Z) : Prop := is_Some (f !! p).

(** ** Operations *)

Definition set_up (q p : Z) (f : forest) : forest := alter (fun n => n <| a_parent := q |>) p f.
Definition set_kids (l : list Z) (p : Z) (f : forest) : forest := alter (fun n => n <| a_children := l |>) p f.

Definition f_unlink (p : Z) (f : forest) : forest := set_up 0 p (set_kids (filter (.≠ p) (kids f (up f p))) (up f p) f).
Definition f_link (q p : Z) (f : forest) : forest := set_up q p (set_kids (p :: kids f q) q f).
Definition f_alloc (ctx p : Z) (f : forest) : forest := f_link ctx p (<[p := ANode 0 [] 0]> f).
Definition f_steal (q p : Z) (f : forest) : forest := f_link q p (f_unlink p f).
Definition f_adopt (new old : Z) (f : forest) : forest :=
  (fun n => if decide (a_parent n = old) then n <| a_parent := new |> else n)
    <$> set_kids (kids f old ++ kids f new) new (set_kids [] old f).
Definition f_set_destructor (p d : Z) (f : forest) : forest := alter (fun n => n <| a_destructor := d |>) p f.

Definition rename (new old x : Z) : Z := if decide (x = old) then new else x.
Definition f_move (new old : Z) (f : forest) : forest :=
  (fun n => ANode (rename new old (a_parent n)) (rename new old <$> a_children n) (a_destructor n)) <$> move true new old f.

(** A block after its descendants, the children in order. *)
Fixpoint postorder (fuel : nat) (f : forest) (p : Z) : list Z :=
  match fuel with
  | O => []
  | S fuel => (kids f p ≫= postorder fuel f) ++ [p]
  end.
Definition released (f : forest) (p : Z) : list Z := postorder (size f) f p.

Definition f_free (p : Z) (f : forest) : forest := filter (fun kv => kv.1 ∉ released f p) (f_unlink p f).

(** ** Ancestors *)

Lemma nodup_size {A} (m : gmap Z A) l : NoDup l -> (forall x, x ∈ l -> is_Some (m !! x)) -> (length l <= size m)%nat.
Proof.
  intros Hnd Hin. rewrite <- size_dom, <- (size_list_to_set (C := gset Z) l) by assumption.
  apply subseteq_size. intros x Hx. apply elem_of_dom, Hin. set_solver.
Qed.


(** A block, its parent and so on up to a root. *)
Inductive ancestry (f : forest) : Z -> list Z -> Prop :=
| anc_root p : live f p -> up f p = 0 -> ancestry f p [p]
| anc_up p l : live f p -> up f p <> 0 -> ancestry f (up f p) l -> ancestry f p (p :: l).

Definition descends (f : forest) (q p : Z) : Prop := exists l, ancestry f q l /\ p ∈ l.

Record wf (f : forest) : Prop := {
  wf_null : f !! 0 = None;
  wf_child : forall p c, c ∈ kids f p -> live f c /\ up f c = p;
  wf_parent : forall c, live f c -> up f c <> 0 -> c ∈ kids f (up f c);
  wf_nodup : forall p, NoDup (kids f p);
  wf_rooted : forall p, live f p -> exists l, ancestry f p l
}.

Section ancestors.
Context (f : forest).

Lemma ancestry_head p l : ancestry f p l -> exists l', l = p :: l'.
Proof. destruct 1; eauto. Qed.

Lemma ancestry_live p l : ancestry f p l -> forall x, x ∈ l -> live f x.
Proof.
  induction 1 as [p Hp H0|p l Hp H0 _ IH]; intros x Hx; [apply list_elem_of_singleton in Hx; congruence|].
  apply elem_of_cons in Hx as [->|Hx]; auto.
Qed.

Lemma ancestry_unique p l l' : ancestry f p l -> ancestry f p l' -> l = l'.
Proof.
  intros H. revert l'. induction H as [p Hp H0|p l Hp H0 H IH]; intros l' H'; inversion H'; subst; try congruence.
  f_equal. auto.
Qed.

(** The ancestry of an ancestor is the rest of the list. *)
Lemma ancestry_suffix p l x : ancestry f p l -> x ∈ l -> exists l1 l2, l = l1 ++ l2 /\ ancestry f x l2.
Proof.
  induction 1 as [p Hp H0|p l Hp H0 H IH]; intros Hx.
  - apply list_elem_of_singleton in Hx as ->. exists [], [p]. split; [reflexivity | now constructor].
  - apply elem_of_cons in Hx as [->|Hx]; [exists [], (p :: l); split; [reflexivity | now constructor]|].
    destruct (IH Hx) as (l1 & l2 & -> & H2). exists (p :: l1), l2. auto.
Qed.

Lemma ancestry_nodup p l : ancestry f p l -> NoDup l.
Proof.
  induction 1 as [p Hp H0|p l Hp H0 H IH]; [apply NoDup_singleton|]. constructor; [|assumption].
  intros Hin. destruct (ancestry_suffix _ _ _ H Hin) as (l1 & l2 & -> & H2).
  assert (E : p :: l1 ++ l2 = l2) by (eapply ancestry_unique; [now apply anc_up | assumption]).
  apply (f_equal length) in E. cbn in E. rewrite length_app in E. lia.
Qed.

Lemma ancestry_length p l : ancestry f p l -> (length l <= size f)%nat.
Proof.
  intros H. apply nodup_size; [now apply (ancestry_nodup p) | apply (ancestry_live p l H)].
Qed.

Lemma descends_refl p l : ancestry f p l -> descends f p p.
Proof. intros H. exists l. split; [assumption|]. destruct (ancestry_head _ _ H) as [l' ->]. set_solver. Qed.

Lemma descends_up q p : live f q -> up f q <> 0 -> descends f (up f q) p -> descends f q p.
Proof. intros Hq H0 (l & Hl & Hp). exists (q :: l). split; [now apply anc_up | set_solver]. Qed.

(** A descendant of [p] is [p] or comes through the parent. *)
Lemma descends_inv q p : descends f q p -> q = p \/ (up f q <> 0 /\ descends f (up f q) p).
Proof.
  intros (l & Hl & Hp). destruct Hl as [q Hq H0|q l Hq H0 Hl].
  - left. set_solver.
  - apply elem_of_cons in Hp as [->|Hp]; [now left|]. right. split; [assumption | now exists l].
Qed.

Lemma descends_trans x y z : descends f x y -> descends f y z -> descends f x z.
Proof.
  intros (l & Hl & Hy) (l' & Hl' & Hz). exists l. split; [assumption|].
  destruct (ancestry_suffix _ _ _ Hl Hy) as (l1 & l2 & -> & H2). rewrite (ancestry_unique _ _ _ Hl' H2) in Hz. set_solver.
Qed.

Lemma not_own_descendant c : live f c -> up f c <> 0 -> ~ descends f (up f c) c.
Proof.
  intros Hc H0 (l & Hl & Hin). pose proof (ancestry_nodup _ _ (anc_up f c l Hc H0 Hl)) as Hnd.
  apply NoDup_cons in Hnd as [Hnd _]. auto.
Qed.

(** Two blocks with the same parent have no common descendant. *)
Lemma siblings_disjoint c d x : live f c -> live f d -> up f c <> 0 -> up f c = up f d -> descends f x c -> descends f x d -> c = d.
Proof.
  intros Hc Hd H0 E (l & Hl & Hxc) (l' & Hl' & Hxd). rewrite <- (ancestry_unique _ _ _ Hl Hl') in *. clear l' Hl'.
  assert (Hcase : descends f c d \/ descends f d c).
  { clear Hd H0 E Hc. revert Hxc Hxd. induction Hl as [x Hx H1|x l Hx H1 Hl IH]; intros Hxc Hxd.
    - left. exists [x]. split; [|assumption]. apply list_elem_of_singleton in Hxc as ->. now constructor.
    - apply elem_of_cons in Hxc as [->|Hxc]; [left; exists (x :: l); split; [now apply anc_up | assumption]|].
      apply elem_of_cons in Hxd as [->|Hxd]; [right; exists (x :: l); split; [now apply anc_up | set_solver]|]. auto. }
  destruct Hcase as [Hcd|Hcd]; apply descends_inv in Hcd as [?|[_ Hcd]]; try congruence;
    [rewrite E in Hcd; rewrite E in H0 | rewrite <- E in Hcd]; now apply not_own_descendant in Hcd.
Qed.
End ancestors.

(** ** Release order *)

Section release_order.
Context (f : forest) (Hwf : wf f).

Lemma kid_ancestry p l c : ancestry f p l -> c ∈ kids f p -> ancestry f c (c :: l).
Proof.
  intros Hl Hc. destruct (wf_child f Hwf p c Hc) as [Hlive Hup].
  apply anc_up; [assumption | | now rewrite Hup]. rewrite Hup. intros ->.
  unfold kids in Hc. rewrite (wf_null f Hwf) in Hc. set_solver.
Qed.

Lemma live_not_null p : live f p -> p <> 0.
Proof. intros [n Hn] ->. rewrite (wf_null f Hwf) in Hn. discriminate. Qed.

Lemma descends_kid q p : p <> 0 -> descends f q p -> q = p \/ exists c, c ∈ kids f p /\ descends f q c.
Proof.
  intros Hp (l & Hl & Hin). induction Hl as [q Hq H0|q l Hq H0 Hl IH].
  - left. set_solver.
  - apply elem_of_cons in Hin as [->|Hin]; [now left|]. right. destruct (IH Hin) as [E|(c & Hc & Hd)].
    + exists q. split; [rewrite <- E; now apply (wf_parent f Hwf) | apply (descends_refl f q (q :: l)); now apply anc_up].
    + exists c. split; [assumption | now apply descends_up].
Qed.

(** The blocks released with [p] are its descendants, each once. *)
Lemma postorder_spec n : forall p l, ancestry f p l -> (size f < length l + n)%nat ->
  NoDup (postorder n f p) /\ forall q, q ∈ postorder n f p <-> descends f q p.
Proof.
  induction n as [|n IH]; intros p l Hl Hn; [pose proof (ancestry_length f p l Hl); lia|].
  assert (Hk : forall c, c ∈ kids f p -> NoDup (postorder n f c) /\ forall q, q ∈ postorder n f c <-> descends f q c)
    by (intros c Hc; apply (IH c (c :: l)); [now apply (kid_ancestry p) | cbn; lia]).
  assert (Hp : p <> 0) by (apply live_not_null, (ancestry_live f p l Hl); destruct (ancestry_head f p l Hl) as [l' ->]; set_solver).
  assert (Hup : forall c, c ∈ kids f p -> live f c /\ up f c <> 0 /\ up f c = p)
    by (intros c Hc; destruct (wf_child f Hwf p c Hc) as [H1 H2]; rewrite H2; auto).
  assert (Hmem : forall q, q ∈ kids f p ≫= postorder n f <-> exists c, c ∈ kids f p /\ descends f q c).
  { intros q. rewrite list_elem_of_bind. split; intros (c & H1 & H2); exists c; [split; [|apply Hk] | split; [apply Hk|]]; assumption. }
  cbn [postorder]. split.
  - apply list.NoDup_app. split; [|split; [|apply NoDup_singleton]].
    + apply NoDup_bind; [|intros c Hc; now apply Hk | apply (wf_nodup f Hwf)]. intros c d q Hc Hd Hqc Hqd.
      apply Hk in Hqc, Hqd; [|assumption..]. destruct (Hup c Hc) as (? & ? & E), (Hup d Hd) as (? & ? & E').
      apply (siblings_disjoint f c d q); congruence.
    + intros q Hq Hqp. apply list_elem_of_singleton in Hqp as ->. apply Hmem in Hq as (c & Hc & Hd).
      destruct (Hup c Hc) as (? & ? & E). rewrite <- E in Hd at 1. now apply not_own_descendant in Hd.
  - intros q. rewrite elem_of_app, Hmem, list_elem_of_singleton. split.
    + intros [(c & Hc & Hd)| ->]; [|now apply (descends_refl f p l)]. apply (descends_trans f q c p Hd).
      destruct (Hup c Hc) as (? & ? & E). apply descends_up; [assumption..|]. rewrite E. now apply (descends_refl f _ l).
    + intros [->|Hd]%descends_kid; auto.
Qed.

Lemma released_spec p : live f p -> NoDup (released f p) /\ forall q, q ∈ released f p <-> descends f q p.
Proof.
  intros Hp. destruct (wf_rooted f Hwf p Hp) as [l Hl]. apply (postorder_spec _ p l Hl).
  destruct (ancestry_head f p l Hl) as [l' ->]. cbn. lia.
Qed.

(** A block comes after each of its own descendants. *)
Lemma postorder_before n : forall p l, ancestry f p l -> (size f < length l + n)%nat ->
  forall x y, descends f y p -> descends f x y -> x <> y -> exists l1 l2 l3, postorder n f p = l1 ++ x :: l2 ++ y :: l3.
Proof.
  induction n as [|n IH]; intros p l Hl Hn x y Hy Hx Hne; [pose proof (ancestry_length f p l Hl); lia|].
  assert (Hp : p <> 0) by (apply live_not_null, (ancestry_live f p l Hl); destruct (ancestry_head f p l Hl) as [l' ->]; set_solver).
  cbn [postorder]. apply descends_kid in Hy as [->|(c & Hc & Hy)]; [| |assumption].
  - apply descends_kid in Hx as [->|(c & Hc & Hx)]; [done| |assumption].
    assert (Hin : x ∈ postorder n f c) by (apply (postorder_spec n c (c :: l)); [now apply (kid_ancestry p) | cbn; lia | assumption]).
    assert (Hall : x ∈ kids f p ≫= postorder n f) by (apply list_elem_of_bind; eauto).
    apply list_elem_of_split in Hall as (l1 & l2 & ->). exists l1, l2, []. now rewrite <- app_assoc.
  - destruct (IH c (c :: l)) with (x := x) (y := y) as (l1 & l2 & l3 & E); [now apply (kid_ancestry p) | cbn; lia | assumption..|].
    apply list_elem_of_split in Hc as (k1 & k2 & ->). rewrite bind_app, bind_cons, E.
    exists ((k1 ≫= postorder n f) ++ l1), l2, (l3 ++ (k2 ≫= postorder n f) ++ [p]). rewrite <- !app_assoc. cbn. now rewrite <- !app_assoc.
Qed.
End release_order.

(** ** Pointwise effects of the operations *)

Lemma live_set_up q p f x : live (set_up q p f) x <-> live f x.
Proof. unfold live, set_up. rewrite lookup_alter. case_decide; subst; now rewrite ?fmap_is_Some. Qed.

Lemma live_set_kids l p f x : live (set_kids l p f) x <-> live f x.
Proof. unfold live, set_kids. rewrite lookup_alter. case_decide; subst; now rewrite ?fmap_is_Some. Qed.

Lemma up_set_up q p f x : live f p -> up (set_up q p f) x = if decide (x = p) then q else up f x.
Proof.
  intros [n Hn]. unfold up, set_up. destruct (decide (x = p)) as [->|Hne].
  - now rewrite lookup_alter_eq, Hn.
  - now rewrite lookup_alter_ne by auto.
Qed.

Lemma kids_set_up q p f x : kids (set_up q p f) x = kids f x.
Proof. unfold kids, set_up. rewrite lookup_alter. case_decide; subst; [|reflexivity]. now destruct (f !! _). Qed.

Lemma up_set_kids l p f x : up (set_kids l p f) x = up f x.
Proof. unfold up, set_kids. rewrite lookup_alter. case_decide; subst; [|reflexivity]. now destruct (f !! _). Qed.

Lemma kids_set_kids l p f x : live f p -> kids (set_kids l p f) x = if decide (x = p) then l else kids f x.
Proof.
  intros [n Hn]. unfold kids, set_kids. destruct (decide (x = p)) as [->|Hne].
  - now rewrite lookup_alter_eq, Hn.
  - now rewrite lookup_alter_ne by auto.
Qed.

Lemma set_kids_dead l p f : f !! p = None -> set_kids l p f = f.
Proof. intros H. apply map_eq. intros x. unfold set_kids. rewrite lookup_alter. case_decide; subst; [now rewrite H | reflexivity]. Qed.

Lemma dtor_set_up q p f x : dtor (set_up q p f) x = dtor f x.
Proof. unfold dtor, set_up. rewrite lookup_alter. case_decide; subst; [|reflexivity]. now destruct (f !! _). Qed.

Lemma dtor_set_kids l p f x : dtor (set_kids l p f) x = dtor f x.
Proof. unfold dtor, set_kids. rewrite lookup_alter. case_decide; subst; [|reflexivity]. now destruct (f !! _). Qed.

(** [f'] is [f] with [p] moved below [q], or made a root if [q] is 0. *)
Record relinked (q p : Z) (f f' : forest) : Prop := {
  rl_live : forall x, live f' x <-> live f x;
  rl_up : forall x, up f' x = if decide (x = p) then q else up f x;
  rl_kids : forall x, kids f' x = (if decide (x = q /\ q <> 0) then [p] else []) ++ filter (.≠ p) (kids f x)
}.

Lemma kids_null f : f !! 0 = None -> kids f 0 = [].
Proof. unfold kids. now intros ->. Qed.

Lemma filter_other (p : Z) (l : list Z) : p ∉ l -> filter (.≠ p) l = l.
Proof.
  induction l as [|a l IH]; intros H; [reflexivity|]. rewrite filter_cons, decide_True, IH; [reflexivity | set_solver..].
Qed.

Section relink.
Context (f : forest) (Hwf : wf f).

Lemma null_not_live : ~ live f 0.
Proof. intros [n Hn]. rewrite (wf_null f Hwf) in Hn. discriminate. Qed.

Lemma up_live c : live f c -> up f c <> 0 -> live f (up f c).
Proof.
  intros Hc H0. destruct (wf_rooted f Hwf c Hc) as [l Hl]. destruct Hl as [|c l _ _ Hl]; [done|].
  apply (ancestry_live f _ l Hl). destruct (ancestry_head f _ l Hl) as [l' ->]. set_solver.
Qed.

(** Only the parent has a block among its children. *)
Lemma kids_filter p x : live f p -> x <> up f p -> filter (.≠ p) (kids f x) = kids f x.
Proof. intros Hp Hx. apply filter_other. intros Hin. apply Hx. symmetry. now apply (wf_child f Hwf). Qed.

Lemma f_unlink_relinked p : live f p -> relinked 0 p f (f_unlink p f).
Proof.
  intros Hp. unfold f_unlink. assert (Hl : live (set_kids (filter (.≠ p) (kids f (up f p))) (up f p) f) p) by now apply live_set_kids.
  split; intros x.
  - now rewrite live_set_up, live_set_kids.
  - rewrite up_set_up by assumption. case_decide; [reflexivity | apply up_set_kids].
  - rewrite kids_set_up, decide_False by (now intros [_ ?]). cbn [app]. destruct (decide (up f p = 0)) as [E|E].
    + rewrite E, set_kids_dead by apply (wf_null f Hwf). destruct (decide (x = 0)) as [->|Hx]; [now rewrite kids_null by apply (wf_null f Hwf)|].
      symmetry. apply kids_filter; congruence.
    + rewrite kids_set_kids by now apply up_live. case_decide as Hx; [now rewrite Hx | symmetry; now apply kids_filter].
Qed.

(** Linking a root. *)
Lemma f_link_relinked q p : live f p -> up f p = 0 -> q = 0 \/ live f q -> relinked q p f (f_link q p f).
Proof.
  intros Hp Hup Hq. unfold f_link. assert (Hl : live (set_kids (p :: kids f q) q f) p) by now apply live_set_kids.
  assert (Hk : forall x, filter (.≠ p) (kids f x) = kids f x).
  { intros x. destruct (decide (x = 0)) as [->|Hx]; [now rewrite kids_null by apply (wf_null f Hwf) | apply kids_filter; congruence]. }
  split; intros x; rewrite ?Hk.
  - now rewrite live_set_up, live_set_kids.
  - rewrite up_set_up by assumption. case_decide; [reflexivity | apply up_set_kids].
  - rewrite kids_set_up. destruct Hq as [->|Hq].
    + now rewrite set_kids_dead, decide_False by (apply (wf_null f Hwf) || now intros [_ ?]).
    + rewrite kids_set_kids by assumption. case_decide as Hx; [rewrite decide_True; [now rewrite Hx|] | now rewrite decide_False by (now intros [? _])].
      split; [assumption | intros ->; now apply null_not_live].
Qed.
End relink.

Lemma relinked_trans q p f f1 f2 : relinked 0 p f f1 -> relinked q p f1 f2 -> relinked q p f f2.
Proof.
  intros H1 H2. split; intros x.
  - rewrite (rl_live _ _ _ _ H2). apply (rl_live _ _ _ _ H1).
  - rewrite (rl_up _ _ _ _ H2), (rl_up _ _ _ _ H1). now case_decide.
  - rewrite (rl_kids _ _ _ _ H2), (rl_kids _ _ _ _ H1), (decide_False (P := x = 0 /\ _)) by (now intros [_ ?]). cbn [app]. f_equal.
    apply filter_other. intros H. apply list_elem_of_filter in H as [H _]. auto.
Qed.

(** An ancestry that the change does not meet stays. *)
Lemma ancestry_ext f f' x l : ancestry f x l -> (forall y, y ∈ l -> live f' y /\ up f' y = up f y) -> ancestry f' x l.
Proof.
  induction 1 as [x Hx H0|x l Hx H0 H IH]; intros Hy; destruct (Hy x) as [H1 H2]; try set_solver; [apply anc_root; congruence|].
  apply anc_up; [assumption | congruence|]. rewrite H2. apply IH. intros y Hin. apply Hy. set_solver.
Qed.

Section preservation.
Context (f f' : forest) (Hwf : wf f).

(** Moving a block below one that is not among its descendants. *)
Lemma relinked_wf q p : relinked q p f f' -> live f p -> q = 0 \/ live f q -> ~ descends f q p -> wf f'.
Proof.
  intros HR Hp Hq Hnd. pose proof (wf_null f Hwf) as H0. pose proof (live_not_null f Hwf p Hp) as Hp0.
  assert (Hnull : f' !! 0 = None) by (apply eq_None_not_Some; intros H; apply (rl_live _ _ _ _ HR) in H; destruct H; congruence).
  split; [assumption|..].
  - intros x c Hc. rewrite (rl_kids _ _ _ _ HR), elem_of_app in Hc. rewrite (rl_live _ _ _ _ HR), (rl_up _ _ _ _ HR).
    destruct Hc as [Hc|Hc].
    + case_decide as Hx; [|set_solver]. apply list_elem_of_singleton in Hc as ->. rewrite decide_True by reflexivity. now destruct Hx as [-> _].
    + apply list_elem_of_filter in Hc as [Hne Hc]. rewrite decide_False by assumption. now apply (wf_child f Hwf).
  - intros c Hc Hu. apply (rl_live _ _ _ _ HR) in Hc. rewrite (rl_up _ _ _ _ HR) in *. rewrite (rl_kids _ _ _ _ HR), elem_of_app.
    case_decide as Hcp; [left; rewrite decide_True by auto; set_solver|]. right. apply list_elem_of_filter. split; [assumption|]. now apply (wf_parent f Hwf).
  - intros x. rewrite (rl_kids _ _ _ _ HR). pose proof (NoDup_filter (.≠ p) _ (wf_nodup f Hwf x)) as Hn.
    case_decide; cbn [app]; [|assumption]. constructor; [|assumption]. intros H2. apply list_elem_of_filter in H2 as [H2 _]. auto.
  - assert (Hpath : exists lp, ancestry f' p lp).
    { destruct Hq as [->|Hq]; [exists [p]; apply anc_root; [now apply (rl_live _ _ _ _ HR) | now rewrite (rl_up _ _ _ _ HR), decide_True]|].
      destruct (wf_rooted f Hwf q Hq) as [l Hl]. exists (p :: l). assert (Eq : up f' p = q) by now rewrite (rl_up _ _ _ _ HR), decide_True.
      apply anc_up; [now apply (rl_live _ _ _ _ HR) | rewrite Eq; now apply (live_not_null f Hwf) | rewrite Eq].
      apply (ancestry_ext f); [assumption|]. intros y Hy. split; [apply (rl_live _ _ _ _ HR), (ancestry_live f q l Hl), Hy|].
      rewrite (rl_up _ _ _ _ HR), decide_False; [reflexivity|]. intros ->. apply Hnd. now exists l. }
    intros x Hx. apply (rl_live _ _ _ _ HR) in Hx. destruct (wf_rooted f Hwf x Hx) as [l Hl].
    induction Hl as [x _ Hu|x l _ Hu Hl IH]; (destruct (decide (x = p)) as [->|Hne]; [assumption|]);
      assert (Eu : up f' x = up f x) by (now rewrite (rl_up _ _ _ _ HR), decide_False).
    + exists [x]. apply anc_root; [now apply (rl_live _ _ _ _ HR) | congruence].
    + destruct IH as [l' Hl']; [now apply up_live|]. exists (x :: l'). apply anc_up; [now apply (rl_live _ _ _ _ HR) | congruence | now rewrite Eu].
Qed.
End preservation.

(** A new root. *)
Definition f_new (p : Z) (f : forest) : forest := <[p := ANode 0 [] 0]> f.

Lemma up_new f p x : f !! p = None -> up (f_new p f) x = up f x.
Proof. intros H. unfold up, f_new. rewrite lookup_insert. case_decide; subst; [now rewrite H | reflexivity]. Qed.

Lemma kids_new f p x : f !! p = None -> kids (f_new p f) x = kids f x.
Proof. intros H. unfold kids, f_new. rewrite lookup_insert. case_decide; subst; [now rewrite H | reflexivity]. Qed.

Lemma live_new f p x : live (f_new p f) x <-> x = p \/ live f x.
Proof. unfold live, f_new. rewrite lookup_insert_is_Some'. intuition congruence. Qed.

(** A change of destructors alone, and a new root, keep everything else. *)
Lemma wf_same_links f f' : wf f -> f' !! 0 = None -> (forall x, live f x -> live f' x) -> (forall x, live f' x -> live f x \/ up f' x = 0) ->
  (forall x, up f' x = up f x) -> (forall x, kids f' x = kids f x) -> wf f'.
Proof.
  intros Hwf H0 Hl Hl' Hu Hk. split; [assumption|..].
  - intros p c Hc. rewrite Hk in Hc. rewrite Hu. destruct (wf_child f Hwf p c Hc). auto.
  - intros c Hc Hn. rewrite Hk, Hu in *. apply (wf_parent f Hwf); [|assumption]. destruct (Hl' c Hc) as [|E]; [assumption|]. rewrite Hu in E. congruence.
  - intros p. rewrite Hk. apply (wf_nodup f Hwf).
  - intros p Hp. destruct (Hl' p Hp) as [Hp'|E]; [|exists [p]; now apply anc_root].
    destruct (wf_rooted f Hwf p Hp') as [l Hlp]. exists l. apply (ancestry_ext f); [assumption|].
    intros y Hy. split; [apply Hl, (ancestry_live f p l Hlp), Hy | apply Hu].
Qed.

Lemma f_new_wf f p : wf f -> f !! p = None -> p <> 0 -> wf (f_new p f).
Proof.
  intros Hwf Hp H0. apply (wf_same_links f); [assumption|..]; intros; rewrite ?up_new, ?kids_new by assumption; try reflexivity.
  - unfold f_new. rewrite lookup_insert_ne by assumption. apply (wf_null f Hwf).
  - apply live_new. auto.
  - apply live_new in H as [->|H]; [right | now left]. unfold up. now rewrite Hp.
Qed.

Lemma f_set_destructor_wf f p d : wf f -> wf (f_set_destructor p d f).
Proof.
  intros Hwf. assert (E : forall x, f_set_destructor p d f !! x = (fun n => if decide (x = p) then n <| a_destructor := d |> else n) <$> f !! x).
  { intros x. unfold f_set_destructor. rewrite lookup_alter. case_decide; case_decide; subst; try congruence; now destruct (f !! _). }
  apply (wf_same_links f); [assumption|..]; intros; unfold live, up, kids in *; rewrite ?E in *; rewrite ?fmap_is_Some in *; auto;
    try (now rewrite (wf_null f Hwf)); destruct (f !! x); try reflexivity; cbn; now case_decide.
Qed.

(** ** Release *)

Section f_free.
Context (f : forest) (Hwf : wf f) (p : Z) (Hp : live f p).

Lemma f_unlink_wf : wf (f_unlink p f).
Proof.
  apply (relinked_wf f _ Hwf 0 p); [now apply f_unlink_relinked | assumption | now left|].
  intros (l & Hl & _). destruct (ancestry_head f 0 l Hl) as [l' ->]. eapply null_not_live; [exact Hwf|]. eapply ancestry_live; [exact Hl | set_solver].
Qed.

Let HR : relinked 0 p f (f_unlink p f) := f_unlink_relinked f Hwf p Hp.

Lemma f_free_lookup x : f_free p f !! x = if decide (x ∈ released f p) then None else f_unlink p f !! x.
Proof.
  unfold f_free. case_decide as Hin.
  - apply map_lookup_filter_None_2. right. intros n _ H. now apply H.
  - destruct (f_unlink p f !! x) as [n|] eqn:E.
    + now apply map_lookup_filter_Some_2.
    + apply map_lookup_filter_None_2. now left.
Qed.

Lemma f_free_live x : live (f_free p f) x <-> live f x /\ ~ descends f x p.
Proof.
  unfold live at 1. rewrite f_free_lookup, <- (rl_live _ _ _ _ HR). pose proof (proj2 (released_spec f Hwf p Hp) x).
  case_decide; split; [now intros [] | tauto | tauto | tauto].
Qed.

Lemma f_free_other x : ~ descends f x p -> up (f_free p f) x = up f x /\ kids (f_free p f) x = filter (.≠ p) (kids f x).
Proof.
  intros Hx. unfold up at 1, kids at 1. rewrite f_free_lookup, decide_False by (now rewrite (proj2 (released_spec f Hwf p Hp) x)).
  pose proof (rl_up _ _ _ _ HR x) as Eu. pose proof (rl_kids _ _ _ _ HR x) as Ek. unfold up at 1 in Eu. unfold kids at 1 in Ek.
  rewrite Eu, Ek, decide_False; [rewrite decide_False by (now intros [_ ?]); auto|].
  intros ->. apply Hx. destruct (wf_rooted f Hwf p Hp) as [l Hl]. now apply (descends_refl f p l).
Qed.

Lemma f_free_wf : wf (f_free p f).
Proof.
  assert (Hself : descends f p p) by (destruct (wf_rooted f Hwf p Hp) as [l Hl]; now apply (descends_refl f p l)).
  assert (H0 : f_free p f !! 0 = None) by (rewrite f_free_lookup, (wf_null _ f_unlink_wf); now case_decide).
  split; [assumption|..].
  - intros x c Hc. destruct (decide (x ∈ released f p)) as [Hx|Hx].
    { unfold kids in Hc. rewrite f_free_lookup, decide_True in Hc by assumption. cbn in Hc. set_solver. }
    rewrite (proj2 (released_spec f Hwf p Hp) x) in Hx. rewrite (proj2 (f_free_other x Hx)) in Hc. apply list_elem_of_filter in Hc as [Hne Hc].
    destruct (wf_child f Hwf x c Hc) as [Hlc Huc].
    assert (Hd : ~ descends f c p) by (intros [?|[_ Hd]]%descends_inv; [done | rewrite Huc in Hd; auto]).
    rewrite f_free_live, (proj1 (f_free_other c Hd)). auto.
  - intros c [Hlc Hd]%f_free_live Hu. rewrite (proj1 (f_free_other c Hd)) in *.
    assert (Hdu : ~ descends f (up f c) p) by (intros H; apply Hd; now apply descends_up).
    rewrite (proj2 (f_free_other _ Hdu)). apply list_elem_of_filter. split; [|now apply (wf_parent f Hwf)]. intros ->. auto.
  - intros x. destruct (decide (x ∈ released f p)) as [Hx|Hx].
    + unfold kids. rewrite f_free_lookup, decide_True by assumption. constructor.
    + rewrite (proj2 (released_spec f Hwf p Hp) x) in Hx. rewrite (proj2 (f_free_other x Hx)). apply NoDup_filter, (wf_nodup f Hwf).
  - intros x [Hx Hd]%f_free_live. destruct (wf_rooted f Hwf x Hx) as [l Hl]. exists l. apply (ancestry_ext f); [assumption|].
    intros y Hy. assert (Hdy : ~ descends f y p).
    { intros H. apply Hd, (descends_trans f x y p); [|assumption]. now exists l. }
    split; [apply f_free_live; split; [now apply (ancestry_live f x l Hl) | assumption] | apply (f_free_other y Hdy)].
Qed.
End f_free.

(** ** Adoption *)

Section f_adopt.
Context (f : forest) (Hwf : wf f) (new old : Z) (Hnew : live f new) (Hold : live f old) (Hnd : ~ descends f new old).

Lemma adopt_distinct : new <> old.
Proof. intros ->. apply Hnd. destruct (wf_rooted f Hwf old Hold) as [l Hl]. now apply (descends_refl f old l). Qed.

Lemma f_adopt_live x : live (f_adopt new old f) x <-> live f x.
Proof. unfold live at 1, f_adopt. rewrite lookup_fmap, fmap_is_Some. etransitivity; apply live_set_kids. Qed.

Lemma f_adopt_up x : up (f_adopt new old f) x = if decide (up f x = old) then new else up f x.
Proof.
  unfold up at 1, f_adopt. rewrite lookup_fmap. set (g := set_kids _ new _).
  assert (E : up g x = up f x) by (unfold g; now rewrite !up_set_kids). unfold up at 1 in E.
  pose proof (live_not_null f Hwf old Hold). rewrite <- E. destruct (g !! x) as [n|]; cbn [fmap option_fmap option_map default from_option id]; [now case_decide | case_decide; congruence].
Qed.

Lemma f_adopt_kids x : kids (f_adopt new old f) x = if decide (x = new) then kids f old ++ kids f new else if decide (x = old) then [] else kids f x.
Proof.
  unfold kids at 1, f_adopt. rewrite lookup_fmap. set (g := set_kids _ new _).
  assert (E : kids g x = if decide (x = new) then kids f old ++ kids f new else if decide (x = old) then [] else kids f x).
  { unfold g. rewrite kids_set_kids by now apply live_set_kids. case_decide; [reflexivity|]. now rewrite kids_set_kids. }
  rewrite <- E. unfold kids. destruct (g !! x) as [n|]; [|reflexivity]. cbn. now destruct (decide (a_parent n = old)).
Qed.

Lemma f_adopt_wf : wf (f_adopt new old f).
Proof.
  pose proof adopt_distinct as Hne. pose proof (live_not_null f Hwf old Hold) as Ho. pose proof (live_not_null f Hwf new Hnew) as Hn.
  assert (Hkid : forall x c, c ∈ kids f x -> live f c /\ up f c = x) by apply (wf_child f Hwf).
  split.
  - apply eq_None_not_Some. intros H. apply f_adopt_live in H. now apply (null_not_live f Hwf).
  - intros x c Hc. rewrite f_adopt_live, f_adopt_up. rewrite f_adopt_kids in Hc.
    destruct (decide (x = new)) as [->|Hxn]; [|destruct (decide (x = old)); [set_solver|]].
    + apply elem_of_app in Hc as [Hc|Hc]; apply Hkid in Hc as [Hl E]; (split; [assumption|]); rewrite E; [now rewrite decide_True | now rewrite decide_False].
    + apply Hkid in Hc as [Hl E]. rewrite E, decide_False; auto.
  - intros c Hc Hu. apply f_adopt_live in Hc. rewrite f_adopt_up in *. rewrite f_adopt_kids. case_decide as E.
    + rewrite decide_True by reflexivity. apply elem_of_app. left. rewrite <- E. apply (wf_parent f Hwf); congruence.
    + pose proof (wf_parent f Hwf c Hc Hu) as Hin. case_decide as E'; [rewrite E' in Hin; set_solver | now rewrite decide_False].
  - intros x. rewrite f_adopt_kids. repeat case_decide; subst; [|constructor | apply (wf_nodup f Hwf)].
    apply list.NoDup_app. split; [apply (wf_nodup f Hwf)|]. split; [|apply (wf_nodup f Hwf)].
    intros c [_ H1]%Hkid [_ H2]%Hkid. congruence.
  - assert (Hpath : exists ln, ancestry (f_adopt new old f) new ln).
    { destruct (wf_rooted f Hwf new Hnew) as [l Hl]. exists l. apply (ancestry_ext f); [assumption|]. intros y Hy.
      split; [apply f_adopt_live, (ancestry_live f new l Hl), Hy|]. rewrite f_adopt_up, decide_False; [reflexivity|]. intros E. apply Hnd.
      apply (descends_trans f new y old); [now exists l|]. apply descends_up; [now apply (ancestry_live f new l Hl) | congruence|].
      rewrite E. destruct (wf_rooted f Hwf old Hold) as [l' Hl']. now apply (descends_refl f old l'). }
    destruct Hpath as [ln Hln].
    intros x Hx. apply f_adopt_live in Hx. destruct (wf_rooted f Hwf x Hx) as [l Hl].
    induction Hl as [x _ Hu|x l _ Hu Hl IH].
    + exists [x]. apply anc_root; [now apply f_adopt_live|]. rewrite f_adopt_up, Hu. case_decide; congruence.
    + pose proof (f_adopt_up x) as Eu. destruct IH as [l' Hl']; [now apply up_live|]. case_decide.
      * exists (x :: ln). apply anc_up; [now apply f_adopt_live | congruence | now rewrite Eu].
      * exists (x :: l'). apply anc_up; [now apply f_adopt_live | congruence | now rewrite Eu].
Qed.
End f_adopt.

(** ** A block that [realloc] moves *)

Section f_move.
Context (f : forest) (Hwf : wf f) (new old : Z) (Hold : live f old) (Hnew : new = old \/ f !! new = None) (Hn0 : new <> 0).
Local Abbreviation ren := (rename new old).

Lemma rename_inj x y : live f x \/ x = 0 -> live f y \/ y = 0 -> ren x = ren y -> x = y.
Proof.
  unfold rename. intros Hx Hy. repeat case_decide; subst; try congruence; intros <- || intros ->;
    (destruct Hnew as [E|E]; [congruence|]).
  - destruct Hy as [[? Hy]|Hy]; congruence.
  - destruct Hx as [[? Hx]|Hx]; congruence.
Qed.

Lemma rename_null : ren 0 = 0.
Proof. unfold rename. rewrite decide_False; [reflexivity|]. intros <-. now apply (null_not_live f Hwf). Qed.

Lemma move_lookup x : move true new old f !! x = if decide (x = new) then f !! old else if decide (x = old) then None else f !! x.
Proof.
  unfold move. destruct Hold as [n Hn]. rewrite Hn, lookup_insert. repeat case_decide; subst; try congruence; [apply lookup_delete_eq | now apply lookup_delete_ne].
Qed.

Lemma f_move_lookup x : live f x -> f_move new old f !! ren x = (fun n => ANode (ren (a_parent n)) (ren <$> a_children n) (a_destructor n)) <$> f !! x.
Proof.
  intros [n Hn]. unfold f_move. rewrite lookup_fmap, move_lookup. f_equal. unfold rename.
  destruct (decide (x = old)) as [->|E]; [now rewrite decide_True|]. rewrite (decide_False (P := x = new)); [now rewrite decide_False|].
  intros ->. destruct Hnew; congruence.
Qed.

Lemma f_move_live y : live (f_move new old f) y <-> exists x, live f x /\ y = ren x.
Proof.
  split.
  - unfold live at 1, f_move. rewrite lookup_fmap, fmap_is_Some, move_lookup. unfold rename. repeat case_decide; subst.
    + intros _. exists old. now rewrite decide_True.
    + now intros [].
    + intros Hy. exists y. now rewrite decide_False.
  - intros (x & Hx & ->). unfold live. rewrite (f_move_lookup x Hx). now apply fmap_is_Some.
Qed.

Lemma f_move_up x : live f x -> up (f_move new old f) (ren x) = ren (up f x).
Proof. intros Hx. unfold up. rewrite (f_move_lookup x Hx). now destruct Hx as [n ->]. Qed.

Lemma f_move_kids x : live f x -> kids (f_move new old f) (ren x) = ren <$> kids f x.
Proof. intros Hx. unfold kids. rewrite (f_move_lookup x Hx). now destruct Hx as [n ->]. Qed.

Lemma f_move_ancestry x l : ancestry f x l -> ancestry (f_move new old f) (ren x) (ren <$> l).
Proof.
  assert (Hr : forall x, live f x -> ren x <> 0) by (intros y Hy E; rewrite <- rename_null in E; apply rename_inj in E; [subst; now apply (null_not_live f Hwf) | auto..]).
  induction 1 as [x Hx H0|x l Hx H0 H IH]; cbn [fmap list_fmap].
  - apply anc_root; [apply f_move_live; eauto | rewrite f_move_up, H0 by assumption; apply rename_null].
  - apply anc_up; [apply f_move_live; eauto | rewrite f_move_up by assumption; now apply Hr, (up_live f Hwf) | now rewrite f_move_up].
Qed.

Lemma f_move_wf : wf (f_move new old f).
Proof.
  assert (Hkl : forall x c, c ∈ kids f x -> live f x).
  { intros x c Hc. unfold kids in Hc. unfold live. destruct (f !! x); [eauto | cbn in Hc; set_solver]. }
  assert (Hdead : forall y, ~ live (f_move new old f) y -> kids (f_move new old f) y = []).
  { intros y Hy. unfold live in Hy. apply eq_None_not_Some in Hy. unfold kids. now rewrite Hy. }
  assert (Hdec : forall y, live (f_move new old f) y \/ ~ live (f_move new old f) y) by (intros y; unfold live; destruct (f_move new old f !! y); [left; eauto | right; now intros []]).
  split.
  - apply eq_None_not_Some. intros (x & Hx & E)%f_move_live. rewrite <- rename_null in E. apply rename_inj in E; [subst; now apply (null_not_live f Hwf) | auto..].
  - intros y c Hc. destruct (Hdec y) as [Hy|Hy]; [|rewrite (Hdead y Hy) in Hc; set_solver].
    apply f_move_live in Hy as (x & Hx & ->). rewrite f_move_kids in Hc by assumption. apply list_elem_of_fmap in Hc as (c0 & -> & Hc).
    destruct (wf_child f Hwf x c0 Hc) as [Hl Hu]. split; [apply f_move_live; eauto | rewrite f_move_up by assumption; congruence].
  - intros y (x & Hx & ->)%f_move_live Hu. rewrite f_move_up in * by assumption.
    assert (H0 : up f x <> 0) by (intros E; rewrite E, rename_null in Hu; auto).
    rewrite f_move_kids by (now apply (up_live f Hwf)). apply list_elem_of_fmap_2, (wf_parent f Hwf); assumption.
  - intros y. destruct (Hdec y) as [Hy|Hy]; [|rewrite (Hdead y Hy); constructor].
    apply f_move_live in Hy as (x & Hx & ->). rewrite f_move_kids by assumption. apply NoDup_fmap_2_strong; [|apply (wf_nodup f Hwf)].
    intros a b Ha Hb. apply rename_inj; left; eapply (wf_child f Hwf); eassumption.
  - intros y (x & Hx & ->)%f_move_live. destruct (wf_rooted f Hwf x Hx) as [l Hl]. exists (ren <$> l). now apply f_move_ancestry.
Qed.
End f_move.
