(* ===== verification/RallocLinks.v ===== *)
(** * The sibling links of memory contexts

    The headers of a heap represent a forest: [header] computes what each of
    them holds, the sibling links from the position among the children.  The
    file proves that linking, unlinking, reparenting and moving a block, as
    src/util/ralloc.c does them, are the operations on the forest. *)

From stdpp Require Import base gmap numbers list.
From Stdlib Require Import ZArith Lia.
From S2P Require Import Prelude StateM Ralloc RallocForest.
#[local] Open Scope bool_scope.
#[local] Open Scope Z_scope.
#[local] Open Scope c_scope.
#[local] Open Scope state_scope.

(** ** Neighbours in a list *)

Definition head0 (l : list Z) : Z := default 0 (list.head l).
Definition last_from (v : Z) (l : list Z) : Z := default v (list.last l).

(** The element before [x], [v] for the first one; 0 if [x] is not there. *)
Fixpoint prev_from (v : Z) (l : list Z) (x : Z) : Z :=
  match l with
  | [] => 0
  | a :: l => if decide (x = a) then v else prev_from a l x
  end.
Fixpoint next_in (l : list Z) (x : Z) : Z :=
  match l with
  | [] => 0
  | a :: l => if decide (x = a) then head0 l else next_in l x
  end.

Lemma last_from_cons v a l : last_from v (a :: l) = last_from a l.
Proof. unfold last_from. rewrite last_cons. now destruct (list.last l). Qed.

Lemma prev_from_other v l x : x ∉ l -> prev_from v l x = 0.
Proof. revert v. induction l as [|a l IH]; intros v H; [reflexivity|]. cbn. rewrite decide_False, IH; set_solver. Qed.

Lemma next_in_other l x : x ∉ l -> next_in l x = 0.
Proof. induction l as [|a l IH]; intros H; [reflexivity|]. cbn. rewrite decide_False, IH; set_solver. Qed.

Lemma prev_from_mid v l1 x l2 : x ∉ l1 -> prev_from v (l1 ++ x :: l2) x = last_from v l1.
Proof.
  revert v. induction l1 as [|a l1 IH]; intros v H; cbn; [now rewrite decide_True|].
  rewrite decide_False, IH by set_solver. symmetry. apply last_from_cons.
Qed.

Lemma next_in_mid l1 x l2 : x ∉ l1 -> next_in (l1 ++ x :: l2) x = head0 l2.
Proof. induction l1 as [|a l1 IH]; intros H; cbn; [now rewrite decide_True|]. rewrite decide_False, IH by set_solver. reflexivity. Qed.

Lemma head0_in l : 0 ∉ l -> head0 l <> 0 -> head0 l ∈ l.
Proof. destruct l; [done|]. cbn. set_solver. Qed.

Lemma last_from_in v l : last_from v l <> v -> last_from v l ∈ l.
Proof.
  unfold last_from. destruct (list.last l) as [x|] eqn:E; [|done]. intros _. cbn. now apply last_Some_elem_of.
Qed.

(** A list starts with [v] or another element: the one before the first. *)
Lemma prev_from_start v w l x : prev_from v l x = if decide (x ∈ l /\ x = head0 l) then v else prev_from w l x.
Proof.
  destruct l as [|a l]; cbn; [rewrite decide_False by set_solver; reflexivity|].
  destruct (decide (x = a)) as [->|Hne]; [rewrite decide_True; [reflexivity | split; [set_solver | reflexivity]]|].
  rewrite decide_False; [reflexivity|]. now intros [_ ?].
Qed.

Section removal.
Context (p : Z) (l2 : list Z) (x : Z) (Hx0 : x <> 0) (Hxp : x <> p).

Lemma prev_from_remove v l1 : NoDup (l1 ++ p :: l2) ->
  prev_from v (l1 ++ l2) x = if decide (x = head0 l2) then last_from v l1 else prev_from v (l1 ++ p :: l2) x.
Proof.
  revert v. induction l1 as [|a l1 IH]; intros v Hnd; cbn.
  - rewrite (decide_False (P := x = p)) by assumption. rewrite (prev_from_start v p). destruct l2 as [|b l]; cbn.
    + now rewrite decide_False, decide_False by (congruence || set_solver).
    + destruct (decide (x = b)) as [->|Hb]; [rewrite decide_True; [reflexivity | split; [set_solver | reflexivity]]|]. rewrite decide_False; [reflexivity|]. now intros [_ ?].
  - apply NoDup_cons in Hnd as [Ha Hnd]. rewrite (IH a Hnd), last_from_cons. destruct (decide (x = a)) as [->|Hne]; [|reflexivity].
    rewrite decide_False; [reflexivity|]. intros E. apply Ha. rewrite E in *. apply elem_of_app. right. right.
    destruct l2; [done | cbn; set_solver].
Qed.

Lemma next_in_remove l1 : NoDup (l1 ++ p :: l2) -> 0 ∉ l1 ->
  next_in (l1 ++ l2) x = if decide (x = last_from 0 l1) then head0 l2 else next_in (l1 ++ p :: l2) x.
Proof.
  induction l1 as [|a l1 IH]; intros Hnd H0; cbn.
  - now rewrite decide_False, decide_False by (cbn; assumption).
  - apply NoDup_cons in Hnd as [Ha Hnd]. rewrite IH by (assumption || set_solver). rewrite last_from_cons.
    destruct l1 as [|b l1]; cbn [app].
    + unfold last_from. cbn. destruct (decide (x = a)); [reflexivity|]. now rewrite (decide_False (P := x = 0)).
    + rewrite !last_from_cons. destruct (decide (x = a)) as [->|]; [|reflexivity]. rewrite decide_False; [reflexivity|].
      intros ->. apply Ha. destruct (decide (last_from b l1 = b)) as [->|Hb]; [set_solver|]. apply last_from_in in Hb. set_solver.
Qed.
End removal.

(** ** Headers of a forest *)

Definition header (f : forest) (p : Z) : ralloc_header :=
  RallocHeader CANARY (up f p) (head0 (kids f p)) (prev_from 0 (kids f (up f p)) p) (next_in (kids f (up f p)) p) (dtor f p).

Definition rep (f : forest) (hs : gmap Z ralloc_header) : Prop := forall p, hs !! p = (fun _ => header f p) <$> f !! p.

Lemma rep_live f hs p : rep f hs -> live f p -> hs !! p = Some (header f p).
Proof. intros H [n Hn]. now rewrite H, Hn. Qed.

Lemma rep_dead f hs p : rep f hs -> f !! p = None -> hs !! p = None.
Proof. intros H Hn. now rewrite H, Hn. Qed.

Lemma rep_size f hs : rep f hs -> size hs = size f.
Proof.
  intros H. rewrite <- !size_dom. f_equal. apply set_eq. intros p. rewrite !elem_of_dom, H. apply fmap_is_Some.
Qed.

(** To represent [f'] it is enough to have the right headers on live blocks. *)
Lemma rep_intro f hs : (forall p, live f p -> hs !! p = Some (header f p)) -> (forall p, is_Some (hs !! p) -> live f p) -> rep f hs.
Proof.
  intros H1 H2 p. destruct (f !! p) as [n|] eqn:E; cbn; [apply H1; now exists n|].
  apply eq_None_not_Some. intros H. apply H2 in H. destruct H; congruence.
Qed.

Lemma lookup_alter_at {A} (g : A -> A) p (m : gmap Z A) x : alter g p m !! x = (fun b => if decide (x = p) then g b else b) <$> m !! x.
Proof. destruct (decide (x = p)) as [->|H]; [now rewrite lookup_alter_eq | rewrite lookup_alter_ne by auto; now destruct (m !! x)]. Qed.

Lemma alter_insert {A} (g : A -> A) p (m : gmap Z A) v : m !! p = Some v -> <[p := g v]> m = alter g p m.
Proof. intros H. apply map_eq. intros x. rewrite lookup_insert, lookup_alter. repeat case_decide; subst; [now rewrite H | reflexivity]. Qed.

Lemma alter_null {A} (m : gmap Z A) g : m !! 0 = None -> alter g 0 m = m.
Proof. intros H. apply map_eq. intros x. rewrite lookup_alter_at. case_decide; subst; [now rewrite H | now destruct (m !! x)]. Qed.

(** ** Total correctness of the operations *)

Lemma wp_read p b Q h : hdrs h !! p = Some b -> Q b h -> wp (deref p) Q h.
Proof. intros H HQ. unfold wp, deref. now rewrite H. Qed.

Lemma wp_write p g Q h : is_Some (hdrs h !! p) -> Q tt (h <| hdrs := alter g p (hdrs h) |>) -> wp (modify p g) Q h.
Proof. intros [b Hb] HQ. unfold wp, modify. now rewrite Hb, (alter_insert g p _ b Hb). Qed.

(** [if (p) p->member = ...] changes nothing for [NULL]. *)
Lemma wp_when_write p g Q h : hdrs h !! 0 = None -> p = 0 \/ is_Some (hdrs h !! p) -> Q tt (h <| hdrs := alter g p (hdrs h) |>) ->
  wp (when (negb (p =? 0)) (modify p g)) Q h.
Proof.
  intros H0 Hp HQ. destruct (Z.eqb_spec p 0) as [->|Hne]; cbn [negb].
  - apply wp_ret. replace h with (h <| hdrs := alter g 0 (hdrs h) |>); [assumption|]. destruct h. unfold update. cbn in *. f_equal.
    apply map_eq. intros x. rewrite lookup_alter. case_decide; subst; [now rewrite H0 | reflexivity].
  - apply wp_write; [|assumption]. now destruct Hp.
Qed.

Lemma wp_when {A} (b : bool) (m : M unit) (k : M A) Q h : (b = true -> wp (m ;; k) Q h) -> (b = false -> wp k Q h) -> wp (when b m ;; k) Q h.
Proof. intros H1 H2. destruct b; [now apply H1|]. apply wp_bind, wp_ret. now apply H2. Qed.

Lemma update_hdrs h u v : u = v -> h <| hdrs := u |> = h <| hdrs := v |>.
Proof. now intros ->. Qed.

Lemma update_same h v : v = hdrs h -> h <| hdrs := v |> = h.
Proof. intros ->. now destruct h. Qed.

(** [if (q->child == p) q->child = v] *)
Lemma wp_redirect q b p v Q h : hdrs h !! q = Some b ->
  Q tt (h <| hdrs := alter (fun b => if child b =? p then b <| child := v |> else b) q (hdrs h) |>) ->
  wp (when (child b =? p) (modify q (fun b => b <| child := v |>))) Q h.
Proof.
  intros Hq HQ. destruct (child b =? p) eqn:E; [apply wp_write; [now rewrite Hq|] | apply wp_ret].
  - erewrite update_hdrs; [exact HQ|]. apply map_eq. intros x. rewrite !lookup_alter_at. case_decide as Hx; [|reflexivity]. subst x.
    rewrite Hq. cbn. now rewrite E.
  - erewrite <- (update_same h) at 1; [exact HQ|]. apply map_eq. intros x. rewrite lookup_alter_at.
    destruct (decide (x = q)) as [->|]; [rewrite Hq; cbn; now rewrite E | now destruct (hdrs h !! x)].
Qed.

Lemma wp_blocks Q h : Q (S (size (hdrs h))) h -> wp blocks Q h.
Proof. done. Qed.

Lemma wp_get_header f ptr Q h : rep f (hdrs h) -> live f (ptr - sizeof_ralloc_header) -> Q (ptr - sizeof_ralloc_header) h -> wp (get_header ptr) Q h.
Proof.
  intros HR Hl HQ. unfold get_header. apply wp_bind, (wp_read _ _ _ _ (rep_live f _ _ HR Hl)), wp_bind, wp_assert; [apply Z.eqb_refl|].
  now apply wp_ret.
Qed.

Lemma hdrs_update h v : hdrs (h <| hdrs := v |>) = v.
Proof. reflexivity. Qed.

Lemma update_twice h u v : (h <| hdrs := u |>) <| hdrs := v |> = h <| hdrs := v |>.
Proof. reflexivity. Qed.

Create Rewrite HintDb hdrs.
#[export] Hint Rewrite hdrs_update update_twice : hdrs.

(** Lookups in headers after updates. *)
Ltac look :=
  autorewrite with hdrs; rewrite ?lookup_alter_at;
  repeat match goal with
  | H : ?m !! ?x = Some _ |- context [?m !! ?x] => rewrite H
  | H : ?m !! ?x = None |- context [?m !! ?x] => rewrite H
  end; cbn [fmap option_fmap option_map];
  repeat match goal with
  | |- context [decide (?x = ?x)] => rewrite (decide_True (P := x = x)) by reflexivity
  | |- context [decide (?x = ?y)] => rewrite (decide_False (P := x = y)) by congruence
  end.

(** ** Adding a child *)

(** The headers after [add_child q p], where [c] is the first child of [q]. *)
Definition link_hdrs (q p c : Z) (hs : gmap Z ralloc_header) : gmap Z ralloc_header :=
  alter (fun b => b <| prev := p |>) c
   (alter (fun b => b <| child := p |>) q
     (alter (fun b => b <| next := c |>) p
       (alter (fun b => b <| parent := q |>) p hs))).

Lemma wp_add_child q p bq bp Q h : hdrs h !! 0 = None -> q <> p -> hdrs h !! q = Some bq -> hdrs h !! p = Some bp -> q <> 0 ->
  child bq = 0 \/ is_Some (hdrs h !! child bq) ->
  Q tt (h <| hdrs := link_hdrs q p (child bq) (hdrs h) |>) -> wp (add_child q p) Q h.
Proof.
  intros H0 Hne Hq Hp Hq0 Hc HQ. unfold add_child. rewrite (proj2 (Z.eqb_neq q 0) Hq0). cbn [negb].
  apply wp_bind, wp_write; [now rewrite Hp|]. apply wp_bind, (wp_read _ bq); [now look|].
  apply wp_bind, wp_write; [now look; eexists|]. apply wp_bind, wp_write; [now look; eexists|].
  apply wp_bind, (wp_read _ (bp <| parent := q |> <| next := child bq |>)); [now look|].
  apply wp_when_write; [now look| |exact HQ]. cbn. destruct Hc as [Hc|[bc Hc]]; [now left | right]. autorewrite with hdrs. rewrite !lookup_alter_at, Hc. now eexists.
Qed.

Section links.
Context (f : forest) (Hwf : wf f).

Lemma kids_not_null q : 0 ∉ kids f q.
Proof. intros H. destruct (wf_child f Hwf q 0 H) as [H0 _]. now apply (null_not_live f Hwf). Qed.

Lemma first_kid q : head0 (kids f q) = 0 \/ head0 (kids f q) ∈ kids f q.
Proof. destruct (decide (head0 (kids f q) = 0)); [now left | right]. apply head0_in; [apply kids_not_null | assumption]. Qed.

Lemma header_root p : up f p = 0 -> header f p = RallocHeader CANARY 0 (head0 (kids f p)) 0 0 (dtor f p).
Proof. intros E. unfold header. now rewrite E, (kids_null f (wf_null f Hwf)). Qed.

Lemma link_rep q p hs : rep f hs -> live f p -> up f p = 0 -> live f q -> q <> p ->
  rep (f_link q p f) (link_hdrs q p (head0 (kids f q)) hs).
Proof.
  intros HR Hp Hup Hq Hne. pose proof (f_link_relinked f Hwf q p Hp Hup (or_intror Hq)) as HL.
  pose proof (live_not_null f Hwf q Hq) as Hq0. set (c := head0 (kids f q)).
  assert (Hk : forall y, kids (f_link q p f) y = if decide (y = q) then p :: kids f q else kids f y).
  { intros y. rewrite (rl_kids _ _ _ _ HL), filter_other.
    - destruct (decide (y = q)) as [->|]; [now rewrite decide_True | rewrite decide_False; [reflexivity | now intros [? _]]].
    - intros H. destruct (wf_child f Hwf y p H) as [_ E]. rewrite Hup in E. subst y. rewrite (kids_null f (wf_null f Hwf)) in H. set_solver. }
  assert (Hc : forall x, live f x -> x = c -> x ∈ kids f q).
  { intros x Hx ->. destruct (first_kid q) as [E|E]; [|assumption]. unfold c in Hx. rewrite E in Hx. now apply (null_not_live f Hwf) in Hx. }
  apply rep_intro; [|intros x Hx; apply (rl_live _ _ _ _ HL); unfold link_hdrs in Hx; rewrite !lookup_alter_at, !fmap_is_Some, HR, fmap_is_Some in Hx; assumption].
  intros x Hx. apply (rl_live _ _ _ _ HL) in Hx. unfold link_hdrs. rewrite !lookup_alter_at, (rep_live f hs x HR Hx). cbn [fmap option_fmap option_map]. f_equal.
  assert (Ed : dtor (f_link q p f) x = dtor f x) by (unfold f_link; now rewrite dtor_set_up, dtor_set_kids).
  unfold header. rewrite (rl_up _ _ _ _ HL), Ed, !Hk. destruct (decide (x = p)) as [->|Hxp].
  - rewrite (decide_False (P := p = c)) by (intros E; pose proof (proj2 (wf_child f Hwf q p (Hc p Hx E))); congruence).
    rewrite (decide_True (P := q = q)), !(decide_False (P := p = q)) by congruence. cbn [prev_from next_in].
    rewrite !decide_True, Hup, (kids_null f (wf_null f Hwf)) by reflexivity. reflexivity.
  - destruct (decide (up f x = q)) as [E|E].
    + rewrite E. cbn [prev_from next_in]. rewrite !(decide_False (P := x = p)) by assumption.
      assert (Hin : x ∈ kids f q) by (rewrite <- E; apply (wf_parent f Hwf); congruence).
      assert (Hxq : x <> q) by (intros ->; apply (not_own_descendant f q); [assumption | congruence|]; rewrite E;
        destruct (wf_rooted f Hwf q Hq) as [l Hl]; now apply (descends_refl f q l)).
      rewrite (prev_from_start p 0 (kids f q) x), !(decide_False (P := x = q)) by assumption. fold c.
      destruct (decide (x = c)) as [Exc|Exc]; [rewrite decide_True by auto; reflexivity | rewrite decide_False by tauto; reflexivity].
    + rewrite (decide_False (P := x = c)) by (intros Exc; apply E, (wf_child f Hwf), Hc; assumption).
      destruct (decide (x = q)); reflexivity.
Qed.

(** ** Removing a child *)

(** The headers after the neighbours of [p] are joined. *)
Definition bypass_hdrs (q p pv nx : Z) (hs : gmap Z ralloc_header) : gmap Z ralloc_header :=
  alter (fun b => b <| prev := pv |>) nx
   (alter (fun b => b <| next := nx |>) pv
     (alter (fun b => if child b =? p then b <| child := nx |> else b) q hs)).

Definition reset_links (b : ralloc_header) : ralloc_header := b <| parent := 0 |> <| prev := 0 |> <| next := 0 |>.

(** A block with a parent, between its siblings. *)
Lemma siblings p : live f p -> up f p <> 0 -> exists l1 l2, kids f (up f p) = l1 ++ p :: l2 /\ p ∉ l1 /\ p ∉ l2 /\
  prev (header f p) = last_from 0 l1 /\ next (header f p) = head0 l2.
Proof.
  intros Hp H0. pose proof (wf_parent f Hwf p Hp H0) as Hin. apply list_elem_of_split in Hin as (l1 & l2 & E). exists l1, l2.
  pose proof (wf_nodup f Hwf (up f p)) as Hnd. rewrite E in Hnd. apply list.NoDup_app in Hnd as (_ & H1 & H2). apply NoDup_cons in H2 as [H2 _].
  assert (Hl1 : p ∉ l1) by (intros H; apply (H1 p H); set_solver).
  unfold header. cbn. rewrite E, prev_from_mid, next_in_mid by assumption. auto.
Qed.

Lemma sibling_live p x : live f p -> up f p <> 0 -> x = prev (header f p) \/ x = next (header f p) ->
  x = 0 \/ (live f x /\ up f x = up f p /\ x <> p /\ x <> up f p).
Proof.
  intros Hp H0 Hx. destruct (siblings p Hp H0) as (l1 & l2 & E & H1 & H2 & Epv & Enx). destruct (decide (x = 0)) as [|Hx0]; [now left | right].
  assert (Hin : x ∈ kids f (up f p) /\ x <> p).
  { rewrite E. pose proof (kids_not_null (up f p)) as Hn. rewrite E in Hn. destruct Hx as [->| ->].
    - rewrite Epv in *. apply last_from_in in Hx0. set_solver.
    - rewrite Enx in *. apply head0_in in Hx0; set_solver. }
  destruct Hin as [Hin Hne]. destruct (wf_child f Hwf _ x Hin) as [Hl Hu]. repeat split; auto. intros ->.
  apply (not_own_descendant f (up f p)); [assumption | congruence|]. rewrite Hu. destruct (wf_rooted f Hwf _ Hl) as [l Hlp]. now apply (descends_refl f _ l).
Qed.

Lemma unlink_rep p hs : rep f hs -> live f p -> up f p <> 0 ->
  rep (f_unlink p f) (alter reset_links p (bypass_hdrs (up f p) p (prev (header f p)) (next (header f p)) hs)).
Proof.
  intros HR Hp Hup. pose proof (f_unlink_relinked f Hwf p Hp) as HL. set (q := up f p) in *.
  destruct (siblings p Hp Hup) as (l1 & l2 & Ek & H1 & H2 & -> & ->). fold q in Ek.
  pose proof (wf_nodup f Hwf q) as Hnd. pose proof (kids_not_null q) as Hn0. rewrite Ek in Hnd, Hn0.
  assert (Hk : forall y, kids (f_unlink p f) y = if decide (y = q) then l1 ++ l2 else kids f y).
  { intros y. rewrite (rl_kids _ _ _ _ HL), decide_False by (now intros [_ ?]). cbn [app]. destruct (decide (y = q)) as [->|Hy]; [|now apply kids_filter].
    now rewrite Ek, filter_app, filter_cons, decide_False, !filter_other by auto. }
  assert (Hsib : forall x, x = last_from 0 l1 \/ x = head0 l2 -> x <> 0 -> up f x = q).
  { intros x Hx Hx0. apply (wf_child f Hwf). rewrite Ek. destruct Hx as [->| ->]; [apply last_from_in in Hx0 | apply head0_in in Hx0]; set_solver. }
  apply rep_intro; [|intros x Hx; apply (rl_live _ _ _ _ HL); unfold bypass_hdrs in Hx; rewrite !lookup_alter_at, !fmap_is_Some, HR, fmap_is_Some in Hx; assumption].
  intros x Hx. apply (rl_live _ _ _ _ HL) in Hx. unfold bypass_hdrs. rewrite !lookup_alter_at, (rep_live f hs x HR Hx). cbn [fmap option_fmap option_map]. f_equal.
  assert (Ed : dtor (f_unlink p f) x = dtor f x) by (unfold f_unlink; now rewrite dtor_set_up, dtor_set_kids).
  pose proof (live_not_null f Hwf x Hx) as Hx0.
  assert (Hcycle : forall y, live f y -> y <> 0 -> up f y <> y).
  { intros y Hy Hy0 E. apply (not_own_descendant f y); [assumption | congruence|]. rewrite E. destruct (wf_rooted f Hwf y Hy) as [l Hl]. now apply (descends_refl f y l). }
  unfold header. rewrite (rl_up _ _ _ _ HL), Ed, !Hk. destruct (decide (x = p)) as [->|Hxp].
  - assert (Hpq : p <> q) by (intros E; now apply (Hcycle p Hp Hx0)).
    rewrite !(decide_False (P := 0 = q)), !(decide_False (P := p = q)), (kids_null f (wf_null f Hwf)) by congruence. cbn [prev_from next_in].
    destruct (decide (p = head0 l2)), (decide (p = last_from 0 l1)); reflexivity.
  - destruct (decide (x = q)) as [->|Hxq].
    + assert (Hqq : up f q <> q) by now apply Hcycle. rewrite !(decide_False (P := up f q = q)) by assumption.
      rewrite !(decide_False (P := q = head0 l2)), !(decide_False (P := q = last_from 0 l1)) by (intros E; now apply Hqq, Hsib; [tauto|]).
      rewrite Ek. cbn [child]. destruct l1 as [|a l1]; cbn; [now rewrite Z.eqb_refl|]. rewrite (proj2 (Z.eqb_neq a p)); [reflexivity | set_solver].
    + destruct (decide (up f x = q)) as [Eu|Eu].
      * rewrite Eu, Ek, (prev_from_remove p l2 x Hx0 Hxp 0 l1 Hnd), (next_in_remove p l2 x Hx0 Hxp l1 Hnd) by set_solver.
        destruct (decide (x = head0 l2)), (decide (x = last_from 0 l1)); reflexivity.
      * rewrite (decide_False (P := x = head0 l2)), (decide_False (P := x = last_from 0 l1)) by (intros E; now apply Eu, Hsib; [tauto|]). reflexivity.
Qed.
End links.
