(* ===== verification/RallocReparent.v ===== *)
(** * Unlinking, stealing, adopting and moving blocks

    The functions of src/util/ralloc.c that change the links of headers are the
    operations on the forest: they return, and the headers represent the
    forest after the operation.  The second half is about blocks that
    [realloc] moves. *)

From stdpp Require Import base gmap numbers list.
From Stdlib Require Import ZArith Lia.
From S2P Require Import Prelude StateM Ralloc RallocForest RallocLinks.
#[local] Open Scope bool_scope.
#[local] Open Scope Z_scope.
#[local] Open Scope c_scope.
#[local] Open Scope state_scope.

Lemma rep_null f hs : wf f -> rep f hs -> hs !! 0 = None.
Proof. intros Hwf HR. apply (rep_dead f); [assumption | apply (wf_null f Hwf)]. Qed.

Lemma rep_ext f f' hs : rep f hs -> (forall x, live f' x <-> live f x) -> (forall x, up f' x = up f x) -> (forall x, kids f' x = kids f x) ->
  (forall x, dtor f' x = dtor f x) -> rep f' hs.
Proof.
  intros HR Hl Hu Hk Hd. apply rep_intro.
  - intros x Hx. apply Hl in Hx. rewrite (rep_live f hs x HR Hx). unfold header. now rewrite !Hu, !Hk, Hd.
  - intros x Hx. apply Hl. rewrite HR, fmap_is_Some in Hx. exact Hx.
Qed.

Lemma link_null_rep f hs p : wf f -> rep f hs -> live f p -> up f p = 0 -> rep (f_link 0 p f) hs.
Proof.
  intros Hwf HR Hp Hup. pose proof (f_link_relinked f Hwf 0 p Hp Hup (or_introl eq_refl)) as HL.
  apply (rep_ext f); [assumption | apply (rl_live _ _ _ _ HL) | intros x; rewrite (rl_up _ _ _ _ HL); case_decide; congruence|..]; intros x; unfold f_link.
  - now rewrite kids_set_up, set_kids_dead by apply (wf_null f Hwf).
  - now rewrite dtor_set_up, dtor_set_kids.
Qed.

Section operations.
Context (f : forest) (Hwf : wf f) (h : heap) (HR : rep f (hdrs h)).

(** ** Unlinking *)

Lemma unlink_root p : live f p -> up f p = 0 -> rep (f_unlink p f) (alter reset_links p (hdrs h)).
Proof.
  intros Hp H0. apply (rep_ext f).
  - intros x. rewrite lookup_alter_at, HR. destruct (f !! x) as [n|] eqn:E; [|reflexivity]. cbn. f_equal. case_decide as Hx; [|reflexivity].
    subst x. now rewrite (header_root f Hwf p H0).
  - apply (rl_live _ _ _ _ (f_unlink_relinked f Hwf p Hp)).
  - intros x. rewrite (rl_up _ _ _ _ (f_unlink_relinked f Hwf p Hp)). case_decide; congruence.
  - intros x. unfold f_unlink. now rewrite kids_set_up, H0, set_kids_dead by apply (wf_null f Hwf).
  - intros x. unfold f_unlink. now rewrite dtor_set_up, dtor_set_kids.
Qed.

Lemma wp_unlink_block p Q : live f p -> (forall hs', rep (f_unlink p f) hs' -> Q tt (h <| hdrs := hs' |>)) -> wp (unlink_block p) Q h.
Proof.
  intros Hp HQ. pose proof (rep_live f _ p HR Hp) as Ep. pose proof (rep_null f _ Hwf HR) as H0. unfold unlink_block.
  apply wp_bind, (wp_read _ _ _ _ Ep). change (parent (header f p)) with (up f p). destruct (Z.eqb_spec (up f p) 0) as [Hup|Hup]; cbn [negb].
  - apply wp_bind, wp_ret, wp_write; [now rewrite Ep|]. now apply HQ, unlink_root.
  - pose proof (up_live f Hwf p Hp Hup) as Hq. pose proof (rep_live f _ _ HR Hq) as Eq. apply wp_bind, wp_bind, (wp_read _ _ _ _ Eq).
    assert (Hpv : forall g, prev (header f p) = 0 \/ is_Some (alter g (up f p) (hdrs h) !! prev (header f p))).
    { intros g. destruct (sibling_live f Hwf p _ Hp Hup (or_introl eq_refl)) as [E|(Hl & _)]; [now left | right].
      rewrite lookup_alter_at, (rep_live f _ _ HR Hl). now eexists. }
    assert (Hnx : forall g g', next (header f p) = 0 \/ is_Some (alter g' (prev (header f p)) (alter g (up f p) (hdrs h)) !! next (header f p))).
    { intros g g'. destruct (sibling_live f Hwf p _ Hp Hup (or_intror eq_refl)) as [E|(Hl & _)]; [now left | right].
      rewrite !lookup_alter_at, (rep_live f _ _ HR Hl). now eexists. }
    apply (wp_mono _ (fun _ h' => h' = h <| hdrs := bypass_hdrs (up f p) p (prev (header f p)) (next (header f p)) (hdrs h) |>)).
    + apply wp_bind, wp_redirect; [assumption|]. apply wp_bind, wp_when_write; [autorewrite with hdrs; now rewrite lookup_alter_at, H0 | apply Hpv|].
      apply wp_when_write; [autorewrite with hdrs; now rewrite !lookup_alter_at, H0 | apply Hnx|]. reflexivity.
    + intros _ h' ->. apply wp_write; [unfold bypass_hdrs; autorewrite with hdrs; rewrite !lookup_alter_at, Ep; now eexists|].
      autorewrite with hdrs. now apply HQ, unlink_rep.
Qed.

(** ** Linking *)

Lemma wp_link q p Q : live f p -> up f p = 0 -> q = 0 \/ live f q -> q <> p ->
  (forall hs', rep (f_link q p f) hs' -> Q tt (h <| hdrs := hs' |>)) -> wp (add_child q p) Q h.
Proof.
  intros Hp Hup Hq Hne HQ. destruct (decide (q = 0)) as [->|Hq0].
  - apply wp_ret. replace h with (h <| hdrs := hdrs h |>) by (now destruct h). now apply HQ, link_null_rep.
  - destruct Hq as [|Hq]; [done|]. apply (wp_add_child q p (header f q) (header f p)); try assumption.
    + now apply (rep_null f).
    + now apply rep_live.
    + now apply rep_live.
    + change (child (header f q)) with (head0 (kids f q)). destruct (first_kid f Hwf q) as [E|E]; [now left | right].
      rewrite (rep_live f); [now eexists | assumption|]. now apply (wf_child f Hwf q).
    + now apply HQ, link_rep.
Qed.
End operations.

(** ** Loops over the children *)

Definition reparent (q : Z) (l : list Z) (hs : gmap Z ralloc_header) : gmap Z ralloc_header :=
  foldl (fun hs c => alter (fun b => b <| parent := q |>) c hs) hs l.

Lemma lookup_reparent q l hs x : reparent q l hs !! x = (fun b => if decide (x ∈ l) then b <| parent := q |> else b) <$> hs !! x.
Proof.
  revert hs. induction l as [|c l IH]; intros hs; cbn [reparent foldl].
  - destruct (hs !! x); [|reflexivity]. cbn [fmap option_fmap option_map]. now rewrite decide_False by set_solver.
  - fold (reparent q l (alter (fun b => b <| parent := q |>) c hs)). rewrite IH, lookup_alter_at. destruct (hs !! x) as [b|]; [|reflexivity]. cbn [fmap option_fmap option_map]. f_equal.
    destruct (decide (x = c)) as [->|Hne].
    + rewrite (decide_True (P := c ∈ c :: l)) by set_solver. now case_decide.
    + destruct (decide (x ∈ l)); [now rewrite decide_True by set_solver | now rewrite decide_False by set_solver].
Qed.

(** The blocks of [l] are linked by [next], from [c] on. *)
Fixpoint chain (hs : gmap Z ralloc_header) (c : Z) (l : list Z) : Prop :=
  match l with
  | [] => c = 0
  | a :: l => c = a /\ a <> 0 /\ exists b, hs !! a = Some b /\ chain hs (next b) l
  end.

Lemma chain_same_next hs hs' l c : chain hs c l -> (forall x, x ∈ l -> next <$> hs' !! x = next <$> hs !! x) -> chain hs' c l.
Proof.
  revert c. induction l as [|a l IH]; intros c; [auto|]. cbn. intros (-> & Ha & b & Hb & Hl) Hx. repeat split; [assumption|].
  pose proof (Hx a ltac:(set_solver)) as E. rewrite Hb in E. destruct (hs' !! a) as [b'|]; [|discriminate]. cbn in E. injection E as E. exists b'. split; [reflexivity|].
  rewrite E. apply IH; [assumption|]. intros x Hin. apply Hx. set_solver.
Qed.

Lemma chain_alter hs l c p q : chain hs c l -> chain (alter (fun b => b <| parent := q |>) p hs) c l.
Proof.
  intros H. apply (chain_same_next hs); [assumption|]. intros x _. rewrite lookup_alter_at. destruct (hs !! x); [|reflexivity]. cbn. now case_decide.
Qed.

Lemma wp_set_parents q l : forall fuel c h Q, chain (hdrs h) c l -> (length l < fuel)%nat ->
  Q tt (h <| hdrs := reparent q l (hdrs h) |>) -> wp (set_parents fuel q c) Q h.
Proof.
  induction l as [|a l IH]; intros [|fuel] c h Q Hc Hf HQ; [cbn in Hf; lia| |cbn in Hf; lia|]; cbn [set_parents].
  - cbn in Hc. subst c. cbn. apply wp_ret. cbn in HQ. rewrite update_same in HQ; [assumption | reflexivity].
  - cbn in Hc. destruct Hc as (-> & Ha & b & Hb & Hl). rewrite (proj2 (Z.eqb_neq a 0) Ha). apply wp_bind, wp_write; [now rewrite Hb|].
    apply wp_bind, (wp_read _ (b <| parent := q |>)); [look; reflexivity|]. cbn [next]. apply IH; [autorewrite with hdrs; now apply chain_alter | cbn in Hf; lia|]. exact HQ.
Qed.

Lemma wp_adopt_children q l : forall fuel a h Q, chain (hdrs h) a (a :: l) -> (length l < fuel)%nat ->
  Q (last_from a l) (h <| hdrs := reparent q (a :: l) (hdrs h) |>) -> wp (adopt_children fuel q a) Q h.
Proof.
  induction l as [|a' l IH]; intros [|fuel] a h Q Hc Hf HQ; [cbn in Hf; lia| |cbn in Hf; lia|]; cbn [adopt_children];
    destruct Hc as (_ & Ha & b & Hb & Hl); (apply wp_bind, (wp_read _ _ _ _ Hb), wp_bind, wp_write; [now rewrite Hb|]).
  - cbn in Hl. rewrite Hl. cbn. apply wp_ret. exact HQ.
  - destruct Hl as (E & Ha' & Hl). rewrite E, (proj2 (Z.eqb_neq a' 0) Ha'). cbn [negb]. apply IH.
    + autorewrite with hdrs. apply chain_alter. cbn. auto.
    + cbn in Hf. lia.
    + rewrite last_from_cons in HQ. exact HQ.
Qed.

Lemma chain_kids f hs q l1 l2 : wf f -> rep f hs -> kids f q = l1 ++ l2 -> chain hs (head0 l2) l2.
Proof.
  intros Hwf HR. revert l1. induction l2 as [|a l2 IH]; intros l1 E; [reflexivity|]. cbn.
  assert (Ha : a ∈ kids f q) by (rewrite E; set_solver). destruct (wf_child f Hwf q a Ha) as [Hl Hu].
  split; [reflexivity|]. split; [now apply (live_not_null f Hwf)|]. exists (header f a). split; [now apply rep_live|].
  assert (En : next (header f a) = head0 l2).
  { unfold header. cbn. rewrite Hu, E. pose proof (wf_nodup f Hwf q) as Hnd. rewrite E in Hnd. apply list.NoDup_app in Hnd as (_ & H1 & _).
    apply next_in_mid. intros Hin. apply (H1 a Hin). set_solver. }
  rewrite En. apply (IH (l1 ++ [a])). now rewrite <- app_assoc.
Qed.

Lemma kids_length f q : wf f -> (length (kids f q) <= size f)%nat.
Proof.
  intros Hwf. apply nodup_size; [apply (wf_nodup f Hwf)|]. intros x Hx. now apply (wf_child f Hwf q).
Qed.

(** ** Adoption *)

Lemma prev_from_app v l1 l2 x : prev_from v (l1 ++ l2) x = if decide (x ∈ l1) then prev_from v l1 x else prev_from (last_from v l1) l2 x.
Proof.
  revert v. induction l1 as [|a l1 IH]; intros v.
  - now rewrite decide_False by set_solver.
  - cbn [app prev_from]. rewrite IH, last_from_cons. destruct (decide (x = a)) as [->|Hne]; [now rewrite decide_True by set_solver|].
    destruct (decide (x ∈ l1)); [now rewrite decide_True by set_solver | now rewrite decide_False by set_solver].
Qed.

Lemma next_in_app l1 l2 x : NoDup l1 ->
  next_in (l1 ++ l2) x = if decide (x ∈ l1) then (if decide (x = last_from 0 l1) then head0 l2 else next_in l1 x) else next_in l2 x.
Proof.
  induction l1 as [|a l1 IH]; intros Hnd; [now rewrite decide_False by set_solver|].
  apply NoDup_cons in Hnd as [Ha Hnd]. cbn [app next_in]. rewrite (IH Hnd). destruct (decide (x = a)) as [->|Hne].
  - rewrite (decide_True (P := a ∈ a :: l1)) by set_solver. destruct l1 as [|b l1]; [unfold last_from; cbn; now rewrite decide_True|]. rewrite decide_False; [reflexivity|].
    rewrite !last_from_cons. intros ->. apply Ha. destruct (decide (last_from b l1 = b)) as [->|Hb]; [set_solver|]. apply last_from_in in Hb. set_solver.
  - destruct (decide (x ∈ l1)) as [Hin|Hin]; [rewrite (decide_True (P := x ∈ a :: l1)) by set_solver | now rewrite (decide_False (P := x ∈ a :: l1)) by set_solver].
    destruct l1 as [|b l1]; [set_solver|]. now rewrite !last_from_cons.
Qed.

Section adopt.
Context (f : forest) (Hwf : wf f) (h : heap) (HR : rep f (hdrs h)).
Context (new old : Z) (Hnew : live f new) (Hold : live f old) (Hnd : ~ descends f new old).
Local Abbreviation lo := (kids f old).
Local Abbreviation ln := (kids f new).

Lemma dtor_adopt x : dtor (f_adopt new old f) x = dtor f x.
Proof.
  unfold dtor at 1, f_adopt. rewrite lookup_fmap. set (g := set_kids _ new _).
  assert (E : dtor g x = dtor f x) by (unfold g; now rewrite !dtor_set_kids). rewrite <- E. unfold dtor. destruct (g !! x) as [n|]; [|reflexivity]. cbn. now destruct (decide (a_parent n = old)).
Qed.

Lemma adopt_none : lo = [] -> rep (f_adopt new old f) (hdrs h).
Proof.
  intros El. pose proof (live_not_null f Hwf old Hold) as Ho.
  assert (Hu : forall x, up f x <> old).
  { intros x E. destruct (f !! x) as [n|] eqn:Ex; [|unfold up in E; rewrite Ex in E; cbn in E; congruence].
    assert (Hin : x ∈ lo) by (rewrite <- E; apply (wf_parent f Hwf); [now exists n | congruence]). rewrite El in Hin. set_solver. }
  apply (rep_ext f); [assumption | apply f_adopt_live | | |apply dtor_adopt]; intros x.
  - now rewrite (f_adopt_up f Hwf new old Hold), decide_False by apply Hu.
  - rewrite (f_adopt_kids f new old Hnew Hold), El. repeat case_decide; subst; auto.
Qed.

Lemma adopt_rep : lo <> [] -> rep (f_adopt new old f)
  (alter (fun b => b <| child := 0 |>) old (alter (fun b => b <| child := head0 lo |>) new
    (alter (fun b => b <| prev := last_from 0 lo |>) (head0 ln) (alter (fun b => b <| next := head0 ln |>) (last_from 0 lo) (reparent new lo (hdrs h)))))).
Proof.
  intros Hlo0. pose proof (adopt_distinct f Hwf new old Hnew Hold Hnd) as Hne. pose proof (live_not_null f Hwf old Hold) as Ho. pose proof (live_not_null f Hwf new Hnew) as Hn.
  assert (Hmem : forall q x, live f x -> q <> 0 -> x ∈ kids f q <-> up f x = q).
  { intros q x Hx Hq. split; [apply (wf_child f Hwf) | intros <-; now apply (wf_parent f Hwf)]. }
  assert (Hh : head0 (lo ++ ln) = head0 lo) by (now destruct lo).
  apply rep_intro; [|intros x Hx; apply f_adopt_live; rewrite !lookup_alter_at, lookup_reparent, !fmap_is_Some, HR, fmap_is_Some in Hx; assumption].
  intros x Hx. apply f_adopt_live in Hx. rewrite !lookup_alter_at, lookup_reparent, (rep_live f _ x HR Hx). cbn [fmap option_fmap option_map]. f_equal.
  pose proof (live_not_null f Hwf x Hx) as Hx0.
  assert (Hlast : x = last_from 0 lo -> x ∈ lo) by (intros ->; now apply last_from_in).
  assert (Hfirst : x = head0 ln -> x ∈ ln) by (intros ->; apply head0_in; [apply (kids_not_null f Hwf) | assumption]).
  unfold header. rewrite !(f_adopt_up f Hwf new old Hold), dtor_adopt, !(f_adopt_kids f new old Hnew Hold).
  pose proof (Hmem old x Hx Ho) as Hlo. pose proof (Hmem new x Hx Hn) as Hln. destruct (decide (up f x = old)) as [Eu|Eu].
  - rewrite (decide_True (P := x ∈ lo)), (decide_False (P := x = head0 ln)) by (tauto || (intros E; apply Hfirst, Hln in E; congruence)).
    rewrite !(decide_True (P := new = new)) by reflexivity.
    rewrite prev_from_app, next_in_app, !(decide_True (P := x ∈ lo)), Eu by (apply (wf_nodup f Hwf) || tauto).
    destruct (decide (x = last_from 0 lo)), (decide (x = new)), (decide (x = old)); try congruence; unfold update; cbn; now rewrite ?Hh.
  - rewrite (decide_False (P := x ∈ lo)), (decide_False (P := x = last_from 0 lo)) by tauto. destruct (decide (up f x = new)) as [En|En].
    + rewrite prev_from_app, next_in_app, !(decide_False (P := x ∈ lo)), En, (prev_from_start (last_from 0 lo) 0 ln x) by (apply (wf_nodup f Hwf) || tauto).
      destruct (decide (x = head0 ln)); [rewrite (decide_True (P := x ∈ ln /\ _)) by tauto | rewrite (decide_False (P := x ∈ ln /\ _)) by tauto];
        destruct (decide (x = new)), (decide (x = old)); try congruence; unfold update; cbn; now rewrite ?Hh.
    + rewrite !(decide_False (P := up f x = old)), (decide_False (P := x = head0 ln)) by (assumption || tauto).
      destruct (decide (x = new)), (decide (x = old)); try congruence; unfold update; cbn; now rewrite ?Hh.
Qed.

Lemma wp_adopt new_ctx old_ctx Q : new_ctx - sizeof_ralloc_header = new -> old_ctx - sizeof_ralloc_header = old -> old_ctx <> 0 ->
  (forall hs', rep (f_adopt new old f) hs' -> Q tt (h <| hdrs := hs' |>)) -> wp (ralloc_adopt new_ctx old_ctx) Q h.
Proof.
  intros En Eo Hoc HQ. pose proof (rep_null f _ Hwf HR) as H0. pose proof (rep_live f _ old HR Hold) as Lo. pose proof (rep_live f _ new HR Hnew) as Ln.
  pose proof (adopt_distinct f Hwf new old Hnew Hold Hnd) as Hne. unfold ralloc_adopt. rewrite (proj2 (Z.eqb_neq old_ctx 0) Hoc). cbn [negb].
  apply wp_bind, (wp_get_header f); [assumption | now rewrite Eo|]. rewrite Eo. apply wp_bind, (wp_get_header f); [assumption | now rewrite En|]. rewrite En.
  apply wp_bind, (wp_read _ _ _ _ Lo). change (child (header f old)) with (head0 lo).
  pose proof (chain_kids f (hdrs h) old [] lo Hwf HR eq_refl) as Hc. pose proof (kids_length f old Hwf) as Hlen.
  destruct lo as [|a l] eqn:El.
  { cbn. apply wp_ret. rewrite <- (update_same h (hdrs h)) by reflexivity. now apply HQ, adopt_none. }
  assert (Ha : head0 (a :: l) <> 0) by apply Hc. rewrite (proj2 (Z.eqb_neq _ 0) Ha). cbn [negb].
  assert (Hrep : forall x, live f x -> is_Some (reparent new (a :: l) (hdrs h) !! x)) by (intros x Hx; rewrite lookup_reparent, (rep_live f _ x HR Hx); now eexists).
  assert (Hlast : live f (last_from 0 (a :: l))).
  { apply (wf_child f Hwf old). rewrite El. apply last_from_in. rewrite last_from_cons. intros E.
    assert (Hin : last_from a l ∈ a :: l) by (destruct (decide (last_from a l = a)) as [->|Hd]; [set_solver | apply last_from_in in Hd; set_solver]).
    rewrite E, <- El in Hin. now apply (kids_not_null f Hwf old). }
  apply wp_bind, wp_blocks. rewrite (rep_size f _ HR). apply wp_bind, (wp_adopt_children new l); [exact Hc | cbn in Hlen; lia|]. rewrite <- last_from_cons with (v := 0).
  assert (Ln' : reparent new (a :: l) (hdrs h) !! new = Some (header f new)).
  { rewrite lookup_reparent, Ln. cbn [fmap option_fmap option_map]. f_equal. apply decide_False. intros Hin. rewrite <- El in Hin.
    apply Hnd. destruct (wf_child f Hwf old new Hin) as [_ E]. apply descends_up; [assumption | rewrite E; now apply (live_not_null f Hwf)|].
    rewrite E. destruct (wf_rooted f Hwf old Hold) as [l' Hl']. now apply (descends_refl f old l'). }
  apply wp_bind, (wp_read _ (header f new)); [exact Ln'|]. change (child (header f new)) with (head0 ln).
  apply wp_bind, wp_write; [now apply Hrep|]. autorewrite with hdrs. apply wp_bind, wp_when_write.
  - autorewrite with hdrs. now rewrite lookup_alter_at, lookup_reparent, H0.
  - autorewrite with hdrs. rewrite lookup_alter_at, fmap_is_Some. destruct (first_kid f Hwf new) as [E|E]; [now left | right]. apply Hrep. now apply (wf_child f Hwf new).
  - set (hs1 := alter _ (head0 ln) _).
    assert (Lo' : exists bo, hs1 !! old = Some bo /\ child bo = head0 (a :: l)).
    { unfold hs1. autorewrite with hdrs. rewrite !lookup_alter_at, lookup_reparent, Lo. eexists. split; [reflexivity|].
      repeat match goal with |- context [decide ?P] => destruct (decide P) end; unfold update; cbn; now rewrite El. }
    destruct Lo' as (bo & Lo' & Ec). apply wp_bind, (wp_read _ bo); [exact Lo'|]. rewrite Ec.
    apply wp_bind, wp_write; [unfold hs1; autorewrite with hdrs; rewrite !lookup_alter_at, !fmap_is_Some; now apply Hrep|].
    apply wp_write; [unfold hs1; autorewrite with hdrs; rewrite !lookup_alter_at, !fmap_is_Some; now apply Hrep|].
    apply HQ. pose proof adopt_rep as Hfin. rewrite El in Hfin. apply Hfin. discriminate.
Qed.
End adopt.

(** ** Blocks that [realloc] moves

    [resize] of src/util/ralloc.c renames a block in the forest. *)

(** ** Neighbours *)

Lemma next_in_tail a l x : next_in (a :: l) x = 0 \/ next_in (a :: l) x ∈ l.
Proof.
  revert a. induction l as [|b l IH]; intros a; cbn [next_in]; [case_decide; now left|].
  destruct (decide (x = a)); [right; cbn; set_solver|]. destruct (IH b) as [E|E]; cbn [next_in] in E; [now left | right; set_solver].
Qed.

Lemma prev_from_in v l x : prev_from v l x = 0 \/ prev_from v l x ∈ v :: l.
Proof.
  revert v. induction l as [|a l IH]; intros v; cbn [prev_from]; [now left|]. case_decide; [right; set_solver|].
  destruct (IH a) as [E|E]; [now left | right; set_solver].
Qed.

Lemma prev_next_from v l x p : NoDup (v :: l) -> x <> 0 -> p <> 0 -> prev_from v l p = x <-> next_in (v :: l) x = p.
Proof.
  intros Hnd Hx Hp. revert v Hnd. induction l as [|a l IH]; intros v Hnd.
  - cbn. case_decide; cbn; split; intros; congruence.
  - apply NoDup_cons in Hnd as [Hv Hnd]. pose proof (IH a Hnd) as IHa. cbn [prev_from]. change (next_in (v :: a :: l) x) with (if decide (x = v) then a else next_in (a :: l) x).
    apply NoDup_cons in Hnd as [Ha Hnd]. destruct (decide (p = a)) as [->|Hpa], (decide (x = v)) as [->|Hxv]; [split; congruence | | |exact IHa].
    + split; [congruence|]. intros E. destruct (next_in_tail a l x) as [E'|E']; [congruence|]. rewrite E in E'. contradiction.
    + split; [|congruence]. intros E. destruct (prev_from_in a l p) as [E'|E']; [congruence|]. rewrite E in E'. contradiction.
Qed.

(** Two elements are neighbours in both directions. *)
Lemma prev_next l x p : NoDup l -> 0 ∉ l -> x <> 0 -> p <> 0 -> prev_from 0 l p = x <-> next_in l x = p.
Proof.
  intros Hnd H0 Hx Hp. rewrite (prev_next_from 0 l x p) by (assumption || now constructor). cbn [next_in]. now rewrite decide_False.
Qed.

Section renaming.
Context (r : Z -> Z) (r0 : r 0 = 0).

Lemma head0_fmap l : head0 (r <$> l) = r (head0 l).
Proof using r0. now destruct l. Qed.

Lemma prev_from_fmap v l x : (forall y, y ∈ l -> r x = r y -> x = y) -> prev_from (r v) (r <$> l) (r x) = r (prev_from v l x).
Proof using r0.
  revert v. induction l as [|a l IH]; intros v H; cbn [fmap list_fmap prev_from]; [now rewrite r0|]. fold (r <$> l).
  destruct (decide (x = a)) as [->|Hne]; [now rewrite decide_True|]. rewrite decide_False by (intros E; apply Hne, H; set_solver).
  apply IH. intros y Hy. apply H. set_solver.
Qed.

Lemma next_in_fmap l x : (forall y, y ∈ l -> r x = r y -> x = y) -> next_in (r <$> l) (r x) = r (next_in l x).
Proof using r0.
  induction l as [|a l IH]; intros H; cbn [fmap list_fmap next_in]; [now rewrite r0|]. fold (r <$> l).
  destruct (decide (x = a)) as [->|Hne]; [rewrite decide_True by reflexivity; apply head0_fmap|]. rewrite decide_False by (intros E; apply Hne, H; set_solver).
  apply IH. intros y Hy. apply H. set_solver.
Qed.
End renaming.

Section move.
Context (f : forest) (Hwf : wf f) (new old : Z) (Hold : live f old) (Hnew : new = old \/ f !! new = None) (Hn0 : new <> 0).
Local Abbreviation ren := (rename new old).
Local Abbreviation f' := (f_move new old f).

Lemma move_kids y : live f y \/ y = 0 -> kids f' (ren y) = ren <$> kids f y.
Proof.
  intros [Hy| ->]; [now apply f_move_kids|]. rewrite (rename_null f Hwf new old Hold Hnew), (kids_null f (wf_null f Hwf)).
  apply kids_null, (wf_null f'). now apply f_move_wf.
Qed.

Lemma header_move x : live f x -> header f' (ren x) =
  RallocHeader CANARY (ren (up f x)) (ren (head0 (kids f x))) (ren (prev (header f x))) (ren (next (header f x))) (dtor f x).
Proof.
  intros Hx. pose proof (rename_null f Hwf new old Hold Hnew) as r0.
  assert (Hu : live f (up f x) \/ up f x = 0) by (destruct (decide (up f x = 0)); [now right | left; now apply (up_live f Hwf)]).
  assert (Hinj : forall y, y ∈ kids f (up f x) -> ren x = ren y -> x = y).
  { intros y Hy. apply (rename_inj f new old Hnew Hn0); left; [assumption|]. now apply (wf_child f Hwf (up f x)). }
  unfold header at 1. rewrite (f_move_up f new old Hold Hnew Hn0 x Hx), (move_kids x (or_introl Hx)), (move_kids _ Hu), head0_fmap by assumption.
  rewrite <- r0 at 1. rewrite (prev_from_fmap ren r0 0), (next_in_fmap ren r0) by assumption. f_equal.
  unfold dtor. rewrite (f_move_lookup f new old Hold Hnew Hn0 x Hx). now destruct Hx as [n ->].
Qed.

(** The headers after [realloc] and the updates of the links. *)
Definition moved_hdrs (hs : gmap Z ralloc_header) : gmap Z ralloc_header :=
  reparent new (kids f old)
   (alter (fun b => b <| prev := new |>) (next (header f old))
     (alter (fun b => b <| next := new |>) (prev (header f old))
       (alter (fun b => if child b =? old then b <| child := new |> else b) (up f old) (move true new old hs)))).

Lemma move_hdrs hs x : rep f hs -> move true new old hs !! x = if decide (x = new) then Some (header f old) else if decide (x = old) then None else hs !! x.
Proof.
  intros HR. unfold move. rewrite (rep_live f hs old HR Hold), lookup_insert. repeat case_decide; subst; try congruence; [apply lookup_delete_eq | now apply lookup_delete_ne].
Qed.

(** *** A block that moves to a new address *)

Section fresh.
Context (Hne : new <> old).

Lemma new_dead : ~ live f new.
Proof using Hnew Hne. intros [n E]. destruct Hnew; congruence. Qed.

Lemma ren_id y : y <> old -> ren y = y.
Proof. intros Hy. unfold rename. now rewrite decide_False. Qed.

Lemma up_irrefl x : live f x -> up f x <> x.
Proof using Hwf.
  intros Hx E. pose proof (live_not_null f Hwf x Hx). apply (not_own_descendant f x); [assumption | congruence|]. rewrite E.
  destruct (wf_rooted f Hwf x Hx) as [l Hl]. now apply (descends_refl f x l).
Qed.

Lemma sibling_of_old x : x = prev (header f old) \/ x = next (header f old) -> x <> 0 -> live f x /\ up f x = up f old /\ x <> old.
Proof using Hwf Hold.
  intros Hx Hx0. destruct (decide (up f old = 0)) as [E|E]; [rewrite (header_root f Hwf old E) in Hx; cbn in Hx; destruct Hx; congruence|].
  destruct (sibling_live f Hwf old x Hold E Hx) as [|(H1 & H2 & H3 & _)]; [done | auto].
Qed.

(** The moved header itself is copied, and no link in it leads to itself. *)
Lemma moved_self hs : rep f hs -> moved_hdrs hs !! ren old = Some (header f' (ren old)).
Proof using Hwf Hold Hnew Hn0 Hne.
  intros HR. pose proof new_dead as Hdead. rewrite (header_move old Hold). unfold moved_hdrs. rewrite lookup_reparent, !lookup_alter_at, (move_hdrs hs (ren old) HR).
  assert (En : ren old = new) by (unfold rename; now rewrite decide_True). rewrite En, (decide_True (P := new = new)) by reflexivity. cbn [fmap option_fmap option_map].
  assert (Hk : new ∉ kids f old) by (intros H; now apply Hdead, (wf_child f Hwf old)).
  assert (Hnup : new <> up f old) by (intros E; apply Hdead; rewrite E in *; now apply (up_live f Hwf)).
  assert (Hns : ~ (new = prev (header f old) \/ new = next (header f old))) by (intros H; now apply Hdead, sibling_of_old).
  rewrite (decide_False (P := new ∈ kids f old)), (decide_False (P := new = next (header f old))), (decide_False (P := new = prev (header f old))), (decide_False (P := new = up f old)) by tauto.
  pose proof (live_not_null f Hwf old Hold) as Ho. f_equal. unfold header at 1. f_equal; symmetry; apply ren_id.
  - now apply up_irrefl.
  - intros E. destruct (first_kid f Hwf old) as [E0|Hin]; [congruence|]. rewrite E in Hin. now apply (up_irrefl old Hold), (wf_child f Hwf old).
  - intros E. destruct (sibling_of_old old) as (_ & _ & ?); auto.
  - intros E. destruct (sibling_of_old old) as (_ & _ & ?); auto.
Qed.

(** The links that lead to the moved block are those of its neighbours. *)
Lemma links_to_old x : live f x ->
  (x ∈ kids f old <-> up f x = old) /\ (head0 (kids f x) = old -> x = up f old) /\
  (x = prev (header f old) <-> next (header f x) = old) /\ (x = next (header f old) <-> prev (header f x) = old).
Proof using Hwf Hold.
  intros Hx. pose proof (live_not_null f Hwf x Hx) as Hx0. pose proof (live_not_null f Hwf old Hold) as Ho. split; [|split; [|split]].
  - split; [apply (wf_child f Hwf) | intros E; rewrite <- E; apply (wf_parent f Hwf); congruence].
  - intros E. destruct (first_kid f Hwf x) as [E0|Hin]; [congruence|]. rewrite E in Hin. symmetry. now apply (wf_child f Hwf).
  - unfold header. cbn. rewrite <- (prev_next (kids f (up f x)) x old) by (apply (wf_nodup f Hwf) || apply (kids_not_null f Hwf) || assumption).
    split; [intros E; destruct (sibling_of_old x (or_introl E) Hx0) as (_ & -> & _); now symmetry|]. intros E.
    assert (Hin : old ∈ kids f (up f x)) by (destruct (decide (old ∈ kids f (up f x))) as [|Hni]; [assumption | rewrite prev_from_other in E by assumption; congruence]).
    now rewrite (proj2 (wf_child f Hwf _ old Hin)).
  - unfold header. cbn. rewrite (prev_next (kids f (up f x)) old x) by (apply (wf_nodup f Hwf) || apply (kids_not_null f Hwf) || assumption).
    split; [intros E; destruct (sibling_of_old x (or_intror E) Hx0) as (_ & -> & _); now symmetry|]. intros E.
    assert (Hin : old ∈ kids f (up f x)) by (destruct (decide (old ∈ kids f (up f x))) as [|Hni]; [assumption | rewrite next_in_other in E by assumption; congruence]).
    now rewrite (proj2 (wf_child f Hwf _ old Hin)).
Qed.

Lemma moved_other hs x : rep f hs -> live f x -> x <> old -> moved_hdrs hs !! ren x = Some (header f' (ren x)).
Proof using Hwf Hold Hnew Hn0 Hne.
  intros HR Hx Hxo. destruct (links_to_old x Hx) as (Hkid & Hch & Hpv & Hnx). assert (Hxn : x <> new) by (intros ->; now apply new_dead).
  rewrite (header_move x Hx). unfold moved_hdrs. rewrite lookup_reparent, !lookup_alter_at, (move_hdrs hs (ren x) HR).
  rewrite (ren_id x Hxo), (decide_False (P := x = new)), (decide_False (P := x = old)), (rep_live f hs x HR Hx) by assumption.
  cbn [fmap option_fmap option_map]. f_equal. set (b := header f x) in *.
  change (up f x) with (parent b) in *. change (head0 (kids f x)) with (child b) in *. change (dtor f x) with (destructor b). change CANARY with (canary b).
  generalize dependent (prev (header f old)). intros pvo Hpv. generalize dependent (next (header f old)). intros nxo Hnx.
  clearbody b. destruct b as [k pa ch pv nx d]. cbn in *. unfold rename, update.
  destruct (decide (x ∈ kids f old)), (decide (x = nxo)), (decide (x = pvo)), (decide (x = up f old)), (Z.eqb_spec ch old); cbn;
    f_equal; symmetry; (apply decide_True || apply decide_False); tauto.
Qed.

Lemma moved_rep hs : rep f hs -> rep f' (moved_hdrs hs).
Proof using Hwf Hold Hnew Hn0 Hne.
  intros HR. apply rep_intro.
  - intros y Hy. apply (f_move_live f new old Hold Hnew Hn0) in Hy as (x & Hx & ->). destruct (decide (x = old)) as [->|Hxo]; [now apply moved_self | now apply moved_other].
  - intros y Hy. unfold moved_hdrs in Hy. rewrite lookup_reparent, !lookup_alter_at, !fmap_is_Some, (move_hdrs hs y HR) in Hy.
    apply (f_move_live f new old Hold Hnew Hn0). case_decide; [exists old; unfold rename; now rewrite decide_True|]. case_decide; [now destruct Hy|].
    exists y. rewrite HR, fmap_is_Some in Hy. split; [exact Hy | now rewrite ren_id].
Qed.
End fresh.

(** *** The code *)

Lemma move_same_rep hs : new = old -> rep f hs -> rep f' (reparent new (kids f old) (move true new old hs)).
Proof.
  intros E HR. assert (Hid : forall x, ren x = x) by (intros x; unfold rename; case_decide; congruence).
  apply (rep_ext f).
  - intros x. rewrite lookup_reparent, (move_hdrs hs x HR). destruct (decide (x = new)) as [->|Hx].
    + destruct (f !! new) as [n|] eqn:En; [|destruct Hold; congruence]. cbn [fmap option_fmap option_map]. f_equal. rewrite decide_False; [congruence|].
      rewrite E. intros H. now apply (up_irrefl old Hold), (wf_child f Hwf old).
    + rewrite (decide_False (P := x = old)), HR by congruence. destruct (f !! x) as [n|]; [|reflexivity]. cbn [fmap option_fmap option_map]. f_equal. case_decide as Hin; [|reflexivity].
      destruct (wf_child f Hwf old x Hin) as [_ Eu]. unfold header, update. cbn. congruence.
  - intros x. rewrite (f_move_live f new old Hold Hnew Hn0). setoid_rewrite Hid. split; [intros (? & ? & ->); assumption | eauto].
  - intros x. destruct (f !! x) as [n|] eqn:Ex.
    + pose proof (f_move_up f new old Hold Hnew Hn0 x (ex_intro _ n Ex)) as H. now rewrite !Hid in H.
    + unfold up, f_move. rewrite lookup_fmap, (move_lookup f new old Hold Hnew Hn0). rewrite !decide_False, Ex by (intros ->; destruct Hold; congruence). reflexivity.
  - intros x. destruct (f !! x) as [n|] eqn:Ex.
    + pose proof (f_move_kids f new old Hold Hnew Hn0 x (ex_intro _ n Ex)) as H. rewrite Hid in H. rewrite H. rewrite <- (list_fmap_id (kids f x)) at 2. apply list_fmap_ext. auto.
    + unfold kids, f_move. rewrite lookup_fmap, (move_lookup f new old Hold Hnew Hn0). rewrite !decide_False, Ex by (intros ->; destruct Hold; congruence). reflexivity.
  - intros x. unfold dtor, f_move. rewrite lookup_fmap, (move_lookup f new old Hold Hnew Hn0). destruct (decide (x = new)) as [->|]; [rewrite E; now destruct (f !! old)|]. rewrite decide_False by congruence. now destruct (f !! x).
Qed.

Section relink.
Context (hs : gmap Z ralloc_header) (HR : rep f hs) (h : heap) (Eh : hdrs h = move true new old hs).

Lemma kid_after_move c : c ∈ kids f old -> hdrs h !! c = Some (header f c).
Proof using Hwf Hold Hnew Hn0 HR Eh.
  intros Hc. destruct (wf_child f Hwf old c Hc) as [Hl Hu]. rewrite Eh, (move_hdrs hs c HR).
  assert (Hco : c <> old) by (intros ->; now apply (up_irrefl old Hold)).
  rewrite (decide_False (P := c = new)), (decide_False (P := c = old)); [now apply rep_live | assumption|]. intros ->. destruct Hnew; [congruence|]. destruct Hl; congruence.
Qed.

Lemma wp_fix_children (hs1 : gmap Z ralloc_header) Q : (forall c, c ∈ kids f old -> next <$> hs1 !! c = next <$> hdrs h !! c) ->
  child <$> hs1 !! new = Some (head0 (kids f old)) -> Q tt (h <| hdrs := reparent new (kids f old) hs1 |>) ->
  wp (let* n := blocks in let* i := deref new in set_parents n new (child i)) Q (h <| hdrs := hs1 |>).
Proof using Hwf Hold Hnew Hn0 HR Eh.
  intros Hc Hn HQ. apply wp_bind, wp_blocks. destruct (hs1 !! new) as [b|] eqn:Eb; [|discriminate]. cbn in Hn. injection Hn as Hn.
  apply wp_bind, (wp_read _ b); [exact Eb|]. rewrite Hn. apply (wp_set_parents new (kids f old)); [| |exact HQ].
  - apply (chain_same_next hs); [now apply (chain_kids f hs old [] (kids f old))|]. intros x Hx. change (hdrs (h <| hdrs := hs1 |>)) with hs1. rewrite (Hc x Hx), (kid_after_move x Hx), (rep_live f hs x HR); [reflexivity|].
    now apply (wf_child f Hwf old).
  - change (hdrs (h <| hdrs := hs1 |>)) with hs1. apply Nat.lt_succ_r, nodup_size; [apply (wf_nodup f Hwf)|]. intros x Hx. pose proof (Hc x Hx) as E. rewrite (kid_after_move x Hx) in E. destruct (hs1 !! x); [now eexists | discriminate].
Qed.

Lemma wp_relink Q : (forall hs', rep f' hs' -> Q tt (h <| hdrs := hs' |>)) -> wp (relink old new) Q h.
Proof using Hwf Hold Hnew Hn0 HR Eh.
  intros HQ. assert (En : hdrs h !! new = Some (header f old)) by (rewrite Eh, (move_hdrs hs new HR); now rewrite decide_True).
  assert (H0 : hdrs h !! 0 = None) by (rewrite Eh, (move_hdrs hs 0 HR), !decide_False by (congruence || (intros <-; now apply (null_not_live f Hwf))); now apply (rep_null f)).
  unfold relink. apply wp_bind, (wp_read _ _ _ _ En). apply wp_when; intros Hcond.
  - apply andb_true_iff in Hcond as [Hne Hup]. apply negb_true_iff, Z.eqb_neq in Hne, Hup. change (parent (header f old)) with (up f old) in *.
    assert (Hlk : forall x, live f x -> x <> old -> hdrs h !! x = Some (header f x)).
    { intros x Hx Hxo. rewrite Eh, (move_hdrs hs x HR), !decide_False; [now apply rep_live | assumption|]. intros ->. now apply (new_dead Hne). }
    pose proof (up_live f Hwf old Hold Hup) as Hq. pose proof (Hlk _ Hq (up_irrefl old Hold)) as Eq.
    assert (Hsib : forall x, x = prev (header f old) \/ x = next (header f old) -> x = 0 \/ is_Some (hdrs h !! x)).
    { intros x Hx. destruct (decide (x = 0)) as [|Hx0]; [now left | right]. destruct (sibling_of_old x Hx Hx0) as (Hl & _ & Hxo). rewrite (Hlk x Hl Hxo). now eexists. }
    apply wp_bind, wp_bind, (wp_read _ _ _ _ Eq), wp_bind, wp_redirect; [exact Eq|].
    apply wp_bind, wp_when_write; [autorewrite with hdrs; now rewrite lookup_alter_at, H0 | autorewrite with hdrs; rewrite lookup_alter_at, fmap_is_Some; auto|].
    apply wp_when_write; [autorewrite with hdrs; now rewrite !lookup_alter_at, H0 | autorewrite with hdrs; rewrite !lookup_alter_at, !fmap_is_Some; auto|].
    autorewrite with hdrs. apply wp_fix_children.
    + intros c Hc. rewrite !lookup_alter_at, (kid_after_move c Hc). cbn [fmap option_fmap option_map]. f_equal.
      destruct (wf_child f Hwf old c Hc) as [Hl Hu]. rewrite (decide_False (P := c = prev (header f old))).
      * destruct (decide (c = next (header f old))), (decide (c = up f old)); try reflexivity; unfold update; cbn [next]; now destruct (child _ =? old).
      * intros E. destruct (sibling_of_old c (or_introl E) (live_not_null f Hwf c Hl)) as (_ & E2 & _). rewrite Hu in E2. symmetry in E2. now apply (up_irrefl old Hold).
    + rewrite !lookup_alter_at, En. cbn [fmap option_fmap option_map]. f_equal. pose proof (new_dead Hne) as Hd.
      assert (Hns : ~ (new = prev (header f old) \/ new = next (header f old))) by (intros H; now apply Hd, sibling_of_old).
      rewrite (decide_False (P := new = next (header f old))), (decide_False (P := new = prev (header f old))), (decide_False (P := new = up f old)); [reflexivity | congruence | tauto | tauto].
    + apply HQ. rewrite Eh. now apply moved_rep.
  - assert (Hdir : rep f' (reparent new (kids f old) (hdrs h))).
    { rewrite Eh. destruct (decide (new = old)) as [E|Hne]; [now apply move_same_rep|]. rewrite (proj2 (Z.eqb_neq new old) Hne) in Hcond. cbn [negb andb] in Hcond.
      apply negb_false_iff, Z.eqb_eq in Hcond. change (parent (header f old)) with (up f old) in Hcond. pose proof (moved_rep Hne hs HR) as Hm. unfold moved_hdrs in Hm.
      rewrite (header_root f Hwf old Hcond), Hcond in Hm. cbn [prev next] in Hm. rewrite <- Eh in *. now rewrite !alter_null in Hm by (rewrite ?lookup_alter_at, H0; reflexivity). }
    replace h with (h <| hdrs := hdrs h |>) at 1 by now apply update_same. apply wp_fix_children; [reflexivity | now rewrite En | now apply HQ].
Qed.
End relink.
End move.
