(* ===== verification/RallocHeap.v ===== *)
(** * Chunks, bytes and the release of a tree

    The chunks of a heap are disjoint and their bytes are addressable; the
    file has the effects of the C library's allocation functions on bytes, and
    proves that [unsafe_free] of src/util/ralloc.c releases exactly the blocks
    of a tree, each once and after its descendants. *)

From stdpp Require Import base gmap numbers list.
From Stdlib Require Import ZArith Lia.
From S2P Require Import Prelude StateM Ralloc RallocForest RallocLinks.
#[local] Open Scope bool_scope.
#[local] Open Scope Z_scope.
#[local] Open Scope c_scope.
#[local] Open Scope state_scope.

(** ** Bytes *)

Lemma fold_insert {A} (d : Z) (g : Z -> A) l (m : gmap Z A) i :
  foldr (fun j m => <[d + j := g j]> m) m l !! i = if decide (i - d ∈ l) then Some (g (i - d)) else m !! i.
Proof.
  induction l as [|j l IH]; [now rewrite decide_False by set_solver|]. cbn [foldr]. rewrite lookup_insert, IH. destruct (decide (d + j = i)) as [<-|Hne].
  - replace (d + j - d) with j by lia. now rewrite decide_True by set_solver.
  - destruct (decide (i - d ∈ l)); [now rewrite decide_True by set_solver|]. rewrite decide_False; [reflexivity|]. intros [?|?]%elem_of_cons; [lia | done].
Qed.

Lemma range_in a n i : i ∈ range a n <-> a <= i < a + n.
Proof. apply elem_of_seqZ. Qed.

Lemma reserve_lookup a n m i : reserve a n m !! i = if decide (a <= i < a + n) then Some None else m !! i.
Proof.
  unfold reserve. pose proof (fold_insert 0 (fun _ => None (A := Z)) (range a n) m i) as H. refine (eq_trans H _). rewrite Z.sub_0_r.
  apply decide_ext, range_in.
Qed.

Lemma release_lookup a n m i : release a n m !! i = if decide (a <= i < a + n) then None else m !! i.
Proof.
  unfold release. rewrite <- (decide_ext _ _ _ _ (range_in a n i)). induction (range a n) as [|j l IH]; [now rewrite decide_False by set_solver|].
  cbn [foldr]. rewrite lookup_delete, IH. destruct (decide (j = i)) as [<-|Hne]; [now rewrite decide_True by set_solver|].
  destruct (decide (i ∈ l)); [now rewrite decide_True by set_solver | now rewrite decide_False by set_solver].
Qed.

Lemma copy_lookup dst src n m m0 i :
  copy dst src n m m0 !! i = if decide (dst <= i < dst + n) then Some (default None (m0 !! (src + (i - dst)))) else m !! i.
Proof. unfold copy. rewrite (fold_insert dst (fun j => default None (m0 !! (src + j)))). apply decide_ext. rewrite range_in. lia. Qed.

(** ** The chunks *)

Record heap_ok (h : heap) : Prop := {
  ok_dom : forall p, is_Some (hdrs h !! p) <-> is_Some (chunks h !! p);
  ok_chunk : forall a n, chunks h !! a = Some n -> 0 < a /\ sizeof_ralloc_header <= n /\ forall i, a <= i < a + n -> is_Some (mem h !! i);
  ok_disj : forall a b n m, chunks h !! a = Some n -> chunks h !! b = Some m -> a <> b -> a + n <= b \/ b + m <= a
}.

(** What the C library promises of the next call of [malloc n]: it fails, or
    the bytes it returns were not in use. *)
Definition malloc_fresh (h : heap) (n : Z) : Prop :=
  match supply h with [] => True | a :: _ => a = 0 \/ (0 < a /\ forall i, a <= i < a + n -> mem h !! i = None) end.
(** The bytes that [realloc] returns were not in use except by [old]. *)
Definition realloc_fresh (h : heap) (old n : Z) : Prop :=
  match supply h with
  | [] => True
  | a :: _ => a = 0 \/ (0 < a /\ forall i, a <= i < a + n -> mem h !! i = None \/ exists n0, chunks h !! old = Some n0 /\ old <= i < old + n0)
  end.

(** ** Release of a tree *)

Definition obituary (f : forest) (x : Z) : list event :=
  (if dtor f x =? 0 then [] else [Ev_destructor (dtor f x) (PTR_FROM_HEADER x)]) ++ [Ev_free x].

Definition covers (h : heap) (i x : Z) : bool :=
  match chunks h !! x with Some n => (x <=? i) && (i <? x + n) | None => false end.

(** The blocks of [ps], and nothing else, are gone. *)
Record gone (f : forest) (ps : list Z) (h h' : heap) : Prop := {
  gone_hdrs : forall x, hdrs h' !! x = if decide (x ∈ ps) then None else hdrs h !! x;
  gone_lins : forall x, lins h' !! x = if decide (x ∈ ps) then None else lins h !! x;
  gone_chunks : forall x, chunks h' !! x = if decide (x ∈ ps) then None else chunks h !! x;
  gone_mem : forall i, mem h' !! i = if existsb (covers h i) ps then None else mem h !! i;
  gone_supply : supply h' = supply h;
  gone_events : events h' = events h ++ (ps ≫= obituary f)
}.

Lemma gone_alter f ps g p h h' : p ∈ ps -> gone f ps (h <| hdrs := alter g p (hdrs h) |>) h' -> gone f ps h h'.
Proof.
  intros Hp [H1 H2 H3 H4 H5 H6]. split; [|assumption..]. intros x. rewrite H1. autorewrite with hdrs. case_decide as Hx; [reflexivity|].
  rewrite lookup_alter_ne; [reflexivity | congruence].
Qed.

Lemma existsb_covers f ps1 ps2 h h1 i : gone f ps1 h h1 -> (forall x, x ∈ ps2 -> x ∉ ps1) -> existsb (covers h1 i) ps2 = existsb (covers h i) ps2.
Proof.
  intros H1 Hd. induction ps2 as [|x ps IH]; [reflexivity|]. cbn. rewrite IH by (intros; apply Hd; set_solver). f_equal.
  unfold covers. rewrite (gone_chunks _ _ _ _ H1), decide_False by (apply Hd; set_solver). reflexivity.
Qed.

Lemma gone_app f ps1 ps2 h h1 h2 : gone f ps1 h h1 -> gone f ps2 h1 h2 -> (forall x, x ∈ ps2 -> x ∉ ps1) -> gone f (ps1 ++ ps2) h h2.
Proof.
  intros H1 H2 Hd.
  assert (Happ : forall {A} (m m1 m2 : gmap Z A), (forall x, m1 !! x = if decide (x ∈ ps1) then None else m !! x) ->
    (forall x, m2 !! x = if decide (x ∈ ps2) then None else m1 !! x) -> forall x, m2 !! x = if decide (x ∈ ps1 ++ ps2) then None else m !! x).
  { intros A m m1 m2 E1 E2 x. rewrite E2, E1. repeat case_decide; try reflexivity; set_solver. }
  split.
  - apply (Happ _ _ (hdrs h1)); [apply (gone_hdrs _ _ _ _ H1) | apply (gone_hdrs _ _ _ _ H2)].
  - apply (Happ _ _ (lins h1)); [apply (gone_lins _ _ _ _ H1) | apply (gone_lins _ _ _ _ H2)].
  - apply (Happ _ _ (chunks h1)); [apply (gone_chunks _ _ _ _ H1) | apply (gone_chunks _ _ _ _ H2)].
  - intros i. rewrite (gone_mem _ _ _ _ H2), (gone_mem _ _ _ _ H1), existsb_app, (existsb_covers f ps1 ps2 h h1 i H1 Hd).
    now destruct (existsb (covers h i) ps1), (existsb (covers h i) ps2).
  - rewrite (gone_supply _ _ _ _ H2). apply (gone_supply _ _ _ _ H1).
  - rewrite (gone_events _ _ _ _ H2), (gone_events _ _ _ _ H1), bind_app. symmetry. apply app_assoc.
Qed.

Lemma heap_ok_gone g ps h0 h' : heap_ok h0 -> gone g ps h0 h' -> heap_ok h'.
Proof.
  intros Hok G. assert (Hch : forall a n, chunks h' !! a = Some n -> a ∉ ps /\ chunks h0 !! a = Some n).
  { intros a n Ha. rewrite (gone_chunks _ _ _ _ G) in Ha. case_decide; [discriminate | auto]. }
  split.
  - intros x. rewrite (gone_hdrs _ _ _ _ G), (gone_chunks _ _ _ _ G). case_decide; [split; now intros [] | apply (ok_dom h0 Hok)].
  - intros a n Ha. destruct (Hch a n Ha) as [Hin Ha0]. destruct (ok_chunk h0 Hok a n Ha0) as (H1 & H2 & H3). repeat split; [assumption..|]. intros i Hi.
    rewrite (gone_mem _ _ _ _ G). destruct (existsb (covers h0 i) ps) eqn:E; [|now apply H3]. exfalso. apply existsb_exists in E as (x & Hx & Hc). apply list_elem_of_In in Hx.
    unfold covers in Hc. destruct (chunks h0 !! x) as [m|] eqn:Em; [|discriminate]. zbool. destruct (ok_disj h0 Hok a x n m Ha0 Em ltac:(congruence)); lia.
  - intros a b n m Ha Hb. apply (ok_disj h0 Hok); now apply Hch.
Qed.

(** [free] of one block, after its destructor. *)
Lemma free_gone f p b h : hdrs h !! p = Some b -> destructor b = dtor f p -> is_Some (chunks h !! p) ->
  exists h', (when (negb (destructor b =? 0)) (call_destructor (destructor b) (PTR_FROM_HEADER p)) ;; free p) h = Ret (tt, h') /\ gone f [p] h h'.
Proof.
  intros Hb Hd [n Hn]. rewrite Hd.
  assert (Hdel : forall {A} (m : gmap Z A) x, delete p m !! x = if decide (x ∈ [p]) then None else m !! x).
  { intros A m x. rewrite lookup_delete. destruct (decide (p = x)) as [->|]; [now rewrite decide_True by set_solver | now rewrite decide_False by set_solver]. }
  assert (Hmem : forall i, release p n (mem h) !! i = if existsb (covers h i) [p] then None else mem h !! i).
  { intros i. rewrite release_lookup. cbn. rewrite orb_false_r. unfold covers. rewrite Hn.
    destruct (Z.leb_spec p i), (Z.ltb_spec i (p + n)); cbn; [rewrite decide_True by lia | rewrite decide_False by lia..]; reflexivity. }
  unfold bind, free, call_destructor, ret. destruct (Z.eqb_spec (dtor f p) 0) as [E|E]; cbn; rewrite Hn; eexists; (split; [reflexivity|]); split; cbn;
    try (apply Hdel) || apply Hmem || reflexivity; unfold obituary.
  - now rewrite (proj2 (Z.eqb_eq _ _) E).
  - rewrite (proj2 (Z.eqb_neq _ _) E). cbn. now rewrite <- app_assoc.
Qed.

Section release_tree.
Context (f : forest) (Hwf : wf f).

(** The members of a header that the release of a tree reads. *)
Definition matches (h : heap) (x : Z) : Prop := exists b, hdrs h !! x = Some b /\ child b = head0 (kids f x) /\
  destructor b = dtor f x /\ next b = next_in (kids f (up f x)) x /\ is_Some (chunks h !! x).

Lemma matches_gone ps h h' x : gone f ps h h' -> x ∉ ps -> matches h x -> matches h' x.
Proof.
  intros Hg Hx (b & Hb & H1 & H2 & H3 & H4). exists b. rewrite (gone_hdrs _ _ _ _ Hg), (gone_chunks _ _ _ _ Hg), !decide_False by assumption. auto.
Qed.

Lemma matches_alter g p h x : x <> p -> matches h x -> matches (h <| hdrs := alter g p (hdrs h) |>) x.
Proof. intros Hx (b & Hb & H). exists b. split; [autorewrite with hdrs; now rewrite lookup_alter_ne | assumption]. Qed.

Definition released_by (n : nat) (p : Z) : Prop := forall fuel h, (length (postorder n f p) <= fuel)%nat ->
  (forall x, x ∈ postorder n f p -> matches h x) -> exists h', unsafe_free fuel p h = Ret (tt, h') /\ gone f (postorder n f p) h h'.

(** The loop over the children that are left. *)
Lemma unsafe_free_loop n p : (forall c, c ∈ kids f p -> released_by n c) -> forall ks pre, kids f p = pre ++ ks ->
  forall fuel h b, (length (ks ≫= postorder n f) < fuel)%nat -> NoDup ((ks ≫= postorder n f) ++ [p]) ->
  (forall c, c ∈ ks -> c ∈ postorder n f c) -> (forall x, x ∈ ks ≫= postorder n f -> matches h x) ->
  hdrs h !! p = Some b -> child b = head0 ks -> destructor b = dtor f p -> is_Some (chunks h !! p) ->
  exists h', unsafe_free fuel p h = Ret (tt, h') /\ gone f ((ks ≫= postorder n f) ++ [p]) h h'.
Proof.
  intros Hrel. induction ks as [|c ks IH]; intros pre Ek [|fuel] h b Hf Hnd Hself Hm Hb Hch Hd Hc; [cbn in Hf; lia| |cbn in Hf; lia|]; cbn [unsafe_free].
  - unfold bind at 1, deref. rewrite Hb. cbn [obind]. rewrite Hch. cbn [head0 list.head default from_option Z.eqb negb]. now apply (free_gone f p b h).
  - assert (Hck : c ∈ kids f p) by (rewrite Ek; set_solver). destruct (wf_child f Hwf p c Hck) as [Hlive Hup].
    pose proof (Hself c ltac:(set_solver)) as Hcc. rewrite bind_cons in Hf, Hnd, Hm |- *. rewrite length_app in Hf. rewrite <- app_assoc in Hnd |- *.
    apply list.NoDup_app in Hnd as (Hnd1 & Hdis & Hnd2). assert (Hcp : forall x, x ∈ postorder n f c -> x <> p) by (intros x Hx ->; apply (Hdis p Hx); set_solver).
    destruct (Hm c) as (t & Ht & _ & _ & Hnx & _); [set_solver|].
    assert (Enx : next t = head0 ks).
    { rewrite Hnx, Hup, Ek. apply next_in_mid. pose proof (wf_nodup f Hwf p) as Hn. rewrite Ek in Hn. apply list.NoDup_app in Hn as (_ & Hn & _). intros Hin. apply (Hn c Hin). set_solver. }
    unfold bind at 1, deref. rewrite Hb. cbn [obind]. rewrite Hch. change (head0 (c :: ks)) with c. rewrite (proj2 (Z.eqb_neq c 0)) by now apply (live_not_null f Hwf).
    cbn [negb]. unfold bind at 1, deref. rewrite Ht. cbn [obind]. unfold bind at 1, modify. rewrite Hb. cbn [obind]. rewrite (alter_insert (fun b => b <| child := next t |>) p _ b Hb).
    set (h1 := h <| hdrs := _ |>).
    assert (Hlen : (length (postorder n f c) <= fuel)%nat) by lia.
    destruct (Hrel c Hck fuel h1 Hlen) as (h2 & E2 & G2). { intros x Hx. apply matches_alter; [auto | apply Hm; set_solver]. }
    unfold bind at 1. rewrite E2. cbn [obind].
    assert (Hp2 : p ∉ postorder n f c) by (intros Hx; now apply (Hcp p Hx)).
    destruct (IH (pre ++ [c]) ltac:(now rewrite Ek, <- app_assoc) fuel h2 (b <| child := next t |>)) as (h3 & E3 & G3).
    + assert (length (postorder n f c) <> 0)%nat by (destruct (postorder n f c); [set_solver | discriminate]). lia.
    + assumption.
    + intros d Hdk. apply Hself. set_solver.
    + intros x Hx. assert (x ∉ postorder n f c) by (intros Hx'; apply (Hdis x Hx'); set_solver).
      apply (matches_gone (postorder n f c) h1); [assumption..|]. apply matches_alter; [|apply Hm; set_solver]. intros ->. apply list.NoDup_app in Hnd2 as (_ & Hnd2 & _). apply (Hnd2 p Hx). set_solver.
    + rewrite (gone_hdrs _ _ _ _ G2), decide_False by assumption. unfold h1. autorewrite with hdrs. now rewrite lookup_alter_eq, Hb.
    + exact Enx.
    + exact Hd.
    + now rewrite (gone_chunks _ _ _ _ G2), decide_False by assumption.
    + exists h3. split; [assumption|]. apply (gone_alter f _ (fun b => b <| child := next t |>) p); [set_solver|]. apply (gone_app f _ _ h1 h2 h3); [assumption..|].
      intros x Hx Hx'. now apply (Hdis x).
Qed.

Lemma unsafe_free_spec n : forall p l, ancestry f p l -> (size f < length l + n)%nat -> released_by n p.
Proof.
  induction n as [|n IH]; intros p l Hl Hn fuel h Hf Hm; [pose proof (ancestry_length f p l Hl); lia|].
  destruct (postorder_spec f Hwf (S n) p l Hl Hn) as [Hnd _]. cbn [postorder] in Hnd, Hf, Hm |- *. rewrite length_app in Hf. cbn in Hf.
  destruct (Hm p ltac:(set_solver)) as (b & Hb & H1 & H2 & _ & H4).
  apply (unsafe_free_loop n p) with (pre := []) (b := b); auto; [|lia| |intros x Hx; apply Hm; set_solver].
  - intros c Hc. apply (IH c (c :: l)); [now apply (kid_ancestry f Hwf p) | cbn; lia].
  - intros c Hc. pose proof (kid_ancestry f Hwf p l c Hl Hc) as Hlc. apply (postorder_spec f Hwf n c (c :: l) Hlc); [cbn; lia|]. now apply (descends_refl f c (c :: l)).
Qed.
End release_tree.
