(* ===== verification/RallocOps.v ===== *)
(** * The operations of memory contexts on the heap

    Each function of src/util/ralloc.c keeps the invariant that relates a heap
    to a forest, and does to the forest what its documentation says. *)

From stdpp Require Import base gmap numbers list.
From Stdlib Require Import ZArith Lia.
From S2P Require Import Prelude StateM Ralloc RallocForest RallocLinks RallocReparent RallocHeap.
#[local] Open Scope bool_scope.
#[local] Open Scope Z_scope.
#[local] Open Scope c_scope.
#[local] Open Scope state_scope.

(** The heap holds the forest. *)
Record holds (f : forest) (h : heap) : Prop := {
  holds_wf : wf f;
  holds_rep : rep f (hdrs h);
  holds_ok : heap_ok h
}.

(** The block of a pointer that the user has; [NULL] has none. *)
Definition block_of (ptr : Z) : Z := if ptr =? 0 then 0 else ptr - sizeof_ralloc_header.

Lemma rep_dom f hs x : rep f hs -> is_Some (hs !! x) <-> live f x.
Proof. intros HR. now rewrite HR, fmap_is_Some. Qed.

(** A change of the headers alone. *)
Lemma holds_hdrs f f' h hs : holds f h -> wf f' -> rep f' hs -> (forall x, live f' x <-> live f x) -> holds f' (h <| hdrs := hs |>).
Proof.
  intros [Hwf HR [H1 H2 H3]] Hwf' HR' Hl. split; [assumption..|]. split; [|exact H2 | exact H3].
  intros x. change (chunks (h <| hdrs := hs |>)) with (chunks h). rewrite <- H1, !rep_dom by eassumption. apply Hl.
Qed.

Section operations.
Context (f : forest) (h : heap) (H : holds f h).
Let Hwf : wf f := holds_wf f h H.
Let HR : rep f (hdrs h) := holds_rep f h H.
Let Hok : heap_ok h := holds_ok f h H.

Lemma live_positive x : live f x -> 0 < x.
Proof using H Hok. intros Hx. apply (rep_dom f (hdrs h)) in Hx; [|exact HR]. apply (ok_dom h Hok) in Hx as [n Hn]. apply (ok_chunk h Hok x n Hn). Qed.

(** ** Parents and destructors *)

Lemma wp_ralloc_parent ptr Q : ptr = 0 \/ live f (block_of ptr) ->
  Q (if decide (up f (block_of ptr) = 0) then 0 else PTR_FROM_HEADER (up f (block_of ptr))) h -> wp (ralloc_parent ptr) Q h.
Proof using H.
  intros Hp HQ. unfold ralloc_parent, block_of in *. destruct (Z.eqb_spec ptr 0) as [->|Hne].
  - apply wp_ret. rewrite decide_True in HQ; [assumption|]. unfold up. now rewrite (wf_null f Hwf).
  - destruct Hp as [|Hp]; [done|]. apply wp_bind, (wp_get_header f); [assumption..|]. apply wp_bind, (wp_read _ _ _ _ (rep_live f _ _ HR Hp)), wp_ret.
    change (parent (header f (ptr - sizeof_ralloc_header))) with (up f (ptr - sizeof_ralloc_header)). destruct (Z.eqb_spec (up f (ptr - sizeof_ralloc_header)) 0) as [E|E]; cbn [negb];
      [now rewrite decide_True in HQ | now rewrite decide_False in HQ].
Qed.

Lemma set_destructor_rep p d : rep (f_set_destructor p d f) (alter (fun b => b <| destructor := d |>) p (hdrs h)).
Proof using H.
  assert (E : forall x, f_set_destructor p d f !! x = (fun n => if decide (x = p) then n <| a_destructor := d |> else n) <$> f !! x) by (intros x; apply lookup_alter_at).
  assert (Eu : forall x, up (f_set_destructor p d f) x = up f x) by (intros x; unfold up; rewrite E; destruct (f !! x); [cbn; now case_decide | reflexivity]).
  assert (Ek : forall x, kids (f_set_destructor p d f) x = kids f x) by (intros x; unfold kids; rewrite E; destruct (f !! x); [cbn; now case_decide | reflexivity]).
  intros x. rewrite lookup_alter_at, HR, E. destruct (f !! x) as [n|] eqn:En; [|reflexivity]. cbn [fmap option_fmap option_map]. f_equal.
  unfold header. rewrite !Eu, !Ek. unfold dtor. rewrite E, En. cbn. now case_decide.
Qed.

Lemma wp_ralloc_set_destructor ptr d Q : ptr <> 0 -> live f (block_of ptr) ->
  (forall h', holds (f_set_destructor (block_of ptr) d f) h' -> events h' = events h -> Q tt h') -> wp (ralloc_set_destructor ptr d) Q h.
Proof using H.
  intros Hp Hl HQ. unfold ralloc_set_destructor. unfold block_of in *. rewrite (proj2 (Z.eqb_neq ptr 0) Hp) in *.
  apply wp_bind, (wp_get_header f); [assumption..|]. apply wp_write; [rewrite (rep_live f _ _ HR Hl); now eexists|]. apply HQ; [|reflexivity].
  apply (holds_hdrs f); [assumption | now apply f_set_destructor_wf | apply set_destructor_rep|].
  intros x. unfold live, f_set_destructor. rewrite lookup_alter_at. apply fmap_is_Some.
Qed.

(** ** Reparenting *)

Lemma f_steal_relinked q p : live f p -> q = 0 \/ live f q -> relinked q p f (f_steal q p f).
Proof using H.
  intros Hp Hq. pose proof (f_unlink_relinked f Hwf p Hp) as HU. apply (relinked_trans q p f (f_unlink p f)); [assumption|].
  apply f_link_relinked; [now apply f_unlink_wf | now apply (rl_live _ _ _ _ HU) | rewrite (rl_up _ _ _ _ HU); now rewrite decide_True|].
  destruct Hq; [now left | right; now apply (rl_live _ _ _ _ HU)].
Qed.

Lemma not_below_self q p : live f p -> ~ descends f q p -> q <> p.
Proof using H. intros Hp Hnd ->. apply Hnd. destruct (wf_rooted f Hwf p Hp) as [l Hl]. now apply (descends_refl f p l). Qed.

Lemma f_steal_wf q p : live f p -> q = 0 \/ live f q -> ~ descends f q p -> wf (f_steal q p f).
Proof using H. intros Hp Hq Hnd. apply (relinked_wf f _ Hwf q p); [now apply f_steal_relinked | assumption..]. Qed.

Lemma wp_ralloc_steal new_ctx ptr Q : ptr <> 0 -> live f (block_of ptr) -> new_ctx = 0 \/ live f (block_of new_ctx) ->
  ~ descends f (block_of new_ctx) (block_of ptr) ->
  (forall h', holds (f_steal (block_of new_ctx) (block_of ptr) f) h' -> events h' = events h -> Q tt h') -> wp (ralloc_steal new_ctx ptr) Q h.
Proof using H.
  intros Hp Hl Hq Hnd HQ. set (p := block_of ptr) in *. set (q := block_of new_ctx) in *.
  assert (Ep : ptr - sizeof_ralloc_header = p) by (unfold p, block_of; now rewrite (proj2 (Z.eqb_neq ptr 0) Hp)).
  assert (Hq' : q = 0 \/ live f q) by (destruct Hq as [->|]; [now left | now right]). pose proof (f_unlink_relinked f Hwf p Hl) as HU.
  unfold ralloc_steal. rewrite (proj2 (Z.eqb_neq ptr 0) Hp). cbn [negb]. apply wp_bind, (wp_get_header f); [assumption | now rewrite Ep|]. rewrite Ep.
  apply wp_bind. apply (wp_mono _ (fun a h' => a = q /\ h' = h)).
  { destruct (Z.eqb_spec new_ctx 0) as [E|E]; cbn [negb]; [apply wp_ret; unfold q; now rewrite E|].
    assert (Eq : new_ctx - sizeof_ralloc_header = q) by (unfold q, block_of; now rewrite (proj2 (Z.eqb_neq new_ctx 0) E)).
    apply (wp_get_header f); [assumption | rewrite Eq; destruct Hq; [done | assumption] | auto]. }
  intros a h' [-> ->]. apply wp_bind, (wp_unlink_block f Hwf h HR p); [assumption|]. intros hs1 HR1.
  apply (wp_link (f_unlink p f) (f_unlink_wf f Hwf p Hl)).
  - exact HR1.
  - now apply (rl_live _ _ _ _ HU).
  - rewrite (rl_up _ _ _ _ HU). now rewrite decide_True.
  - destruct Hq'; [now left | right; now apply (rl_live _ _ _ _ HU)].
  - now apply not_below_self.
  - intros hs2 HR2. autorewrite with hdrs. apply HQ; [|reflexivity]. apply (holds_hdrs f); [assumption | now apply f_steal_wf | assumption|].
    apply (rl_live _ _ _ _ (f_steal_relinked q p Hl Hq')).
Qed.

Lemma wp_ralloc_adopt new_ctx old_ctx Q : old_ctx <> 0 -> new_ctx <> 0 -> live f (block_of old_ctx) -> live f (block_of new_ctx) ->
  ~ descends f (block_of new_ctx) (block_of old_ctx) ->
  (forall h', holds (f_adopt (block_of new_ctx) (block_of old_ctx) f) h' -> events h' = events h -> Q tt h') -> wp (ralloc_adopt new_ctx old_ctx) Q h.
Proof using H.
  intros Ho Hn Hlo Hln Hnd HQ. unfold block_of in *. rewrite (proj2 (Z.eqb_neq old_ctx 0) Ho), (proj2 (Z.eqb_neq new_ctx 0) Hn) in *.
  apply (wp_adopt f Hwf h HR _ _ Hln Hlo Hnd); [reflexivity..|assumption|]. intros hs' HR'. apply HQ; [|reflexivity].
  apply (holds_hdrs f); [assumption | now apply f_adopt_wf | assumption | apply f_adopt_live].
Qed.
End operations.

(** ** Allocation, reallocation and release of blocks *)

(** The address that the next call of [malloc] or [realloc] returns. *)
Definition answer (h : heap) : Z := default 0 (list.head (supply h)).

Lemma heap_tail h l : h <| supply := l |> = Heap (hdrs h) (lins h) (chunks h) (mem h) l (events h).
Proof. reflexivity. Qed.

Lemma wp_get_header_at ptr b Q h : hdrs h !! (ptr - sizeof_ralloc_header) = Some b -> canary b = CANARY ->
  Q (ptr - sizeof_ralloc_header) h -> wp (get_header ptr) Q h.
Proof.
  intros Hb Hc HQ. unfold get_header. apply wp_bind, (wp_read _ _ _ _ Hb), wp_bind, wp_assert; [now rewrite Hc, Z.eqb_refl|]. now apply wp_ret.
Qed.

Lemma fresh_not_live f h a n : holds f h -> 0 < n -> (forall i, a <= i < a + n -> mem h !! i = None) -> f !! a = None.
Proof.
  intros H Hn Hf. apply eq_None_not_Some. intros Hl. apply (rep_dom f (hdrs h) a (holds_rep f h H)) in Hl. apply (ok_dom h (holds_ok f h H)) in Hl as [m Hm].
  destruct (ok_chunk h (holds_ok f h H) a m Hm) as (_ & Hs & Hi). unfold sizeof_ralloc_header in Hs. destruct (Hi a ltac:(lia)) as [v Hv]. rewrite Hf in Hv by lia. discriminate.
Qed.

(** A fresh chunk does not meet the others. *)
Lemma fresh_disjoint h a n b m : heap_ok h -> 0 < n -> (forall i, a <= i < a + n -> mem h !! i = None) -> chunks h !! b = Some m -> a + n <= b \/ b + m <= a.
Proof.
  intros Hok Hn Hf Hb. destruct (ok_chunk h Hok b m Hb) as (_ & Hs & Hi). unfold sizeof_ralloc_header in Hs.
  destruct (Z.le_gt_cases (a + n) b); [now left|]. destruct (Z.le_gt_cases (b + m) a); [now right|].
  destruct (Hi (Z.max a b) ltac:(lia)) as [v Hv]. rewrite Hf in Hv by lia. discriminate.
Qed.

Lemma heap_ok_alloc h a n hs l : heap_ok h -> 0 < a -> sizeof_ralloc_header <= n -> (forall i, a <= i < a + n -> mem h !! i = None) ->
  (forall x, is_Some (hs !! x) <-> x = a \/ is_Some (hdrs h !! x)) ->
  heap_ok (Heap hs (lins h) (<[a := n]> (chunks h)) (reserve a n (mem h)) l (events h)).
Proof.
  intros Hok Ha Hn Hf Hd. unfold sizeof_ralloc_header in Hn. split; cbn.
  - intros x. rewrite Hd, lookup_insert_is_Some', (ok_dom h Hok). naive_solver.
  - intros b m Hb. setoid_rewrite reserve_lookup. unfold sizeof_ralloc_header. apply lookup_insert_Some in Hb as [[<- <-]|[_ Hb]].
    + repeat split; [assumption..|]. intros i Hi. rewrite decide_True by assumption. now eexists.
    + destruct (ok_chunk h Hok b m Hb) as (H1 & H2 & H3). unfold sizeof_ralloc_header in H2. repeat split; [assumption..|]. intros i Hi. case_decide; [now eexists | now apply H3].
  - intros b c m k Hb Hc Hne. apply lookup_insert_Some in Hb as [[<- <-]|[_ Hb]]; apply lookup_insert_Some in Hc as [[<- <-]|[_ Hc]]; [done| | |].
    + apply (fresh_disjoint h a n c k Hok); [lia | assumption..].
    + destruct (fresh_disjoint h a n b m Hok) as [E|E]; [lia | assumption.. | right; lia | left; lia].
    + now apply (ok_disj h Hok b c).
Qed.

Definition zero_header : ralloc_header := RallocHeader 0 0 0 0 0 0.

Lemma new_rep f hs a : wf f -> rep f hs -> f !! a = None -> a <> 0 -> rep (f_new a f) (<[a := zero_header <| canary := CANARY |>]> hs).
Proof.
  intros Hwf HR Ha Ha0 x. unfold f_new at 2. rewrite !lookup_insert. case_decide as Hx; [subst x|].
  - cbn. f_equal. assert (E0 : up f a = 0 /\ kids f a = []) by (unfold up, kids; now rewrite Ha). destruct E0 as [E1 E2].
    unfold header. rewrite !(up_new f a) by assumption. rewrite !(kids_new f a), E1, E2, (kids_null f (wf_null f Hwf)) by assumption. unfold dtor, f_new. now rewrite lookup_insert_eq.
  - rewrite HR. destruct (f !! x) as [n|]; [|reflexivity]. cbn. f_equal. unfold header. rewrite !(up_new f a), !(kids_new f a) by assumption.
    unfold dtor, f_new. now rewrite lookup_insert_ne.
Qed.

(** The canary of a new block may be written after the links. *)
Lemma link_canary q a c hs : alter (fun b => b <| canary := CANARY |>) a (link_hdrs q a c (<[a := zero_header]> hs)) = link_hdrs q a c (<[a := zero_header <| canary := CANARY |>]> hs).
Proof.
  apply map_eq. intros x. unfold link_hdrs. rewrite !lookup_alter_at, !lookup_insert. destruct (decide (x = a)) as [->|Hx].
  - rewrite !(decide_True (P := a = a)) by reflexivity. cbn. f_equal. repeat match goal with |- context [decide ?P] => destruct (decide P) end; reflexivity.
  - rewrite !(decide_False (P := a = x)) by congruence. cbn. now destruct (hs !! x).
Qed.

Section operations.
Context (f : forest) (h : heap) (H : holds f h).
Let Hwf : wf f := holds_wf f h H.
Let HR : rep f (hdrs h) := holds_rep f h H.
Let Hok : heap_ok h := holds_ok f h H.

Lemma f_alloc_wf q a : f !! a = None -> a <> 0 -> q = 0 \/ live f q -> wf (f_alloc q a f) /\ forall x, live (f_alloc q a f) x <-> x = a \/ live f x.
Proof using H.
  intros Ha Ha0 Hq. pose proof (f_new_wf f a Hwf Ha Ha0) as Hw.
  assert (Hla : live (f_new a f) a) by (apply live_new; now left). assert (Hua : up (f_new a f) a = 0) by (rewrite up_new by assumption; unfold up; now rewrite Ha).
  assert (Hlq : q = 0 \/ live (f_new a f) q) by (destruct Hq; [now left | right; apply live_new; now right]).
  pose proof (f_link_relinked (f_new a f) Hw q a Hla Hua Hlq) as HL. split; [|intros x; now rewrite (rl_live _ _ _ _ HL), live_new].
  apply (relinked_wf (f_new a f) _ Hw q a HL Hla Hlq). intros Hd. apply (descends_kid _ Hw) in Hd as [->|(c & Hc & _)]; [|rewrite kids_new in Hc by assumption; unfold kids in Hc; rewrite Ha in Hc; cbn in Hc; set_solver | assumption].
  destruct Hq as [->|[n Hn]]; congruence.
Qed.

Definition alloc_heap (hs : gmap Z ralloc_header) (n : Z) : heap :=
  Heap hs (lins h) (<[answer h := n]> (chunks h)) (reserve (answer h) n (mem h)) (tail (supply h)) (events h).

Lemma wp_ralloc_size ctx size Q : ctx = 0 \/ live f (block_of ctx) -> 0 <= size -> size + sizeof_ralloc_header < 2 ^ 64 -> malloc_fresh h (size + sizeof_ralloc_header) ->
  (answer h = 0 -> Q 0 (h <| supply := tail (supply h) |>)) ->
  (answer h <> 0 -> f !! answer h = None -> forall hs, holds (f_alloc (block_of ctx) (answer h) f) (alloc_heap hs (size + sizeof_ralloc_header)) ->
    Q (PTR_FROM_HEADER (answer h)) (alloc_heap hs (size + sizeof_ralloc_header))) ->
  wp (ralloc_size ctx size) Q h.
Proof using H.
  intros Hctx Hs0 Hs1 Hfr HQ0 HQ. unfold ralloc_size. rewrite wrap_small by (unfold sizeof_ralloc_header in *; lia). set (n := size + sizeof_ralloc_header) in *.
  unfold malloc_fresh, alloc_heap, answer in *. apply wp_bind. destruct (supply h) as [|a l] eqn:Es; cbn [list.head default from_option tail id] in *.
  { apply (wp_intro _ _ _ 0 h); [unfold malloc; now rewrite Es|]. cbn [Z.eqb]. apply wp_ret. assert (E : h <| supply := [] |> = h) by (rewrite <- Es; now destruct h). rewrite E in HQ0. auto. }
  destruct (Z.eqb_spec a 0) as [->|Ha0].
  { apply (wp_intro _ _ _ 0 (h <| supply := l |>)); [unfold malloc; now rewrite Es|]. cbn [Z.eqb]. apply wp_ret. now apply HQ0. }
  destruct Hfr as [|[Ha Hfr]]; [done|]. eapply wp_intro; [unfold malloc; rewrite Es, (proj2 (Z.eqb_neq a 0) Ha0); reflexivity|].
  assert (Hn : sizeof_ralloc_header <= n) by (unfold n; lia). assert (Hnew : f !! a = None) by (apply (fresh_not_live f h a n H); [unfold sizeof_ralloc_header in Hn; lia | assumption]).
  set (q := block_of ctx) in *. assert (Hq : q = 0 \/ live f q) by (destruct Hctx as [->|]; [now left | now right]).
  destruct (f_alloc_wf q a Hnew Ha0 Hq) as [Hw Hl]. set (h1 := Heap (<[a := zero_header]> (hdrs h)) (lins h) (<[a := n]> (chunks h)) (reserve a n (mem h)) l (events h)).
  rewrite (proj2 (Z.eqb_neq a 0) Ha0). apply wp_bind, (wp_intro _ _ _ tt h1).
  { unfold put_header. cbn. rewrite lookup_insert_eq, (proj2 (Z.leb_le _ _) Hn). reflexivity. }
  apply wp_bind, (wp_mono _ (fun p h' => p = q /\ h' = h1)).
  { destruct (Z.eqb_spec ctx 0) as [E|E]; cbn [negb]; [apply wp_ret; unfold q; now rewrite E|]. destruct Hctx as [|Hctx]; [done|].
    assert (Eq : ctx - sizeof_ralloc_header = q) by (unfold q, block_of; now rewrite (proj2 (Z.eqb_neq ctx 0) E)).
    apply (wp_get_header_at _ (header f q)); rewrite ?Eq; [|reflexivity | auto]. cbn. rewrite lookup_insert_ne; [now apply rep_live | intros ->; destruct Hctx; congruence]. }
  intros p h' [-> ->]. pose proof (new_rep f (hdrs h) a Hwf HR Hnew Ha0) as HRn. pose proof (f_new_wf f a Hwf Hnew Ha0) as Hwn.
  assert (Hfin : forall hs, rep (f_alloc q a f) hs -> wp (ret (PTR_FROM_HEADER a)) Q (h1 <| hdrs := hs |>)).
  { intros hs Hrep. apply wp_ret. apply HQ; [assumption..|]. split; [assumption..|]. apply heap_ok_alloc; [assumption..|].
    intros x. rewrite (rep_dom _ _ x Hrep), Hl, (rep_dom f (hdrs h)) by assumption. reflexivity. }
  destruct (decide (q = 0)) as [E0|Hq0].
  - rewrite E0. apply wp_bind, wp_ret. apply wp_bind, wp_write; [cbn; rewrite lookup_insert_eq; now eexists|]. apply Hfin. unfold f_alloc. rewrite E0.
    cbn [hdrs h1]. rewrite alter_insert_eq. fold (f_new a f). apply link_null_rep; [assumption.. | apply live_new; now left | rewrite up_new by assumption; unfold up; now rewrite Hnew].
  - destruct Hq as [|Hq]; [done|]. assert (Hqa : q <> a) by (intros ->; destruct Hq; congruence). pose proof (rep_live f _ q HR Hq) as Eq.
    assert (E2 : head0 (kids (f_new a f) q) = head0 (kids f q)) by now rewrite kids_new.
    apply wp_bind, (wp_add_child q a (header f q) zero_header); cbn [hdrs h1]; [rewrite lookup_insert_ne by auto; now apply (rep_null f) | assumption | now rewrite lookup_insert_ne by auto | apply lookup_insert_eq | assumption | |].
    + change (child (header f q)) with (head0 (kids f q)). destruct (first_kid f Hwf q) as [E|E]; [now left | right]. apply lookup_insert_is_Some'. right.
      apply (rep_dom f); [assumption|]. now apply (wf_child f Hwf q).
    + apply wp_bind, wp_write; [autorewrite with hdrs; unfold link_hdrs; rewrite !lookup_alter_at, !fmap_is_Some, lookup_insert_eq; now eexists|].
      autorewrite with hdrs. rewrite link_canary. apply Hfin. change (child (header f q)) with (head0 (kids f q)). rewrite <- E2. apply link_rep; try assumption.
      * apply live_new. now left.
      * rewrite up_new by assumption. unfold up. now rewrite Hnew.
      * apply live_new. now right.
Qed.

(** ** Reallocation *)

Definition realloc_heap (old n0 : Z) (hs : gmap Z ralloc_header) (n : Z) : heap :=
  Heap hs (move (sizeof_ralloc_header + sizeof_linear_header <=? n) (answer h) old (lins h)) (<[answer h := n]> (delete old (chunks h)))
    (copy (answer h) old (Z.min n0 n) (reserve (answer h) n (release old n0 (mem h))) (mem h)) (tail (supply h)) (events h).

Section moved.
Context (p n0 n a : Z) (Hp : live f p) (Hn0 : chunks h !! p = Some n0) (Ha : 0 < a) (Hn : sizeof_ralloc_header <= n).
Context (Hfr : forall i, a <= i < a + n -> mem h !! i = None \/ exists n0, chunks h !! p = Some n0 /\ p <= i < p + n0).

(** The bytes of the other blocks are not those of the result. *)
Lemma moved_disjoint b m : chunks h !! b = Some m -> b <> p -> a + n <= b \/ b + m <= a.
Proof using Hok Hn0 Hn Hfr.
  intros Hb Hne. destruct (ok_chunk h Hok b m Hb) as (_ & Hs & Hi). unfold sizeof_ralloc_header in *.
  destruct (Z.le_gt_cases (a + n) b); [now left|]. destruct (Z.le_gt_cases (b + m) a); [now right|]. exfalso.
  destruct (Hi (Z.max a b) ltac:(lia)) as [v Hv]. destruct (Hfr (Z.max a b) ltac:(lia)) as [E|(k & Hk & Hr)]; [congruence|].
  destruct (ok_disj h Hok b p m k Hb Hk Hne); lia.
Qed.

Lemma moved_fresh : a = p \/ f !! a = None.
Proof using H Hok Hn0 Hn Hfr.
  destruct (decide (a = p)) as [|Hne]; [now left | right]. apply eq_None_not_Some. intros Hl.
  apply (rep_dom f (hdrs h) a HR) in Hl. apply (ok_dom h Hok) in Hl as [m Hm]. destruct (ok_chunk h Hok a m Hm) as (_ & Hs & _). unfold sizeof_ralloc_header in *.
  destruct (moved_disjoint a m Hm Hne); lia.
Qed.

Lemma heap_ok_move hs lns l : (forall x, is_Some (hs !! x) <-> x = a \/ (x <> p /\ is_Some (hdrs h !! x))) ->
  heap_ok (Heap hs lns (<[a := n]> (delete p (chunks h))) (copy a p (Z.min n0 n) (reserve a n (release p n0 (mem h))) (mem h)) l (events h)).
Proof using H Hok Hn0 Ha Hn Hfr.
  intros Hd. assert (Hmem : forall i, a <= i < a + n \/ (is_Some (mem h !! i) /\ ~ (p <= i < p + n0)) ->
    is_Some (copy a p (Z.min n0 n) (reserve a n (release p n0 (mem h))) (mem h) !! i)).
  { intros i Hi. rewrite copy_lookup, reserve_lookup, release_lookup. repeat case_decide; try (now eexists); destruct Hi; tauto. }
  split; cbn.
  - intros x. rewrite Hd, lookup_insert_is_Some', (ok_dom h Hok). rewrite lookup_delete_is_Some. naive_solver.
  - intros b m Hb. apply lookup_insert_Some in Hb as [[<- <-]|[_ Hb]]; [repeat split; auto|]. apply lookup_delete_Some in Hb as [Hne Hb].
    destruct (ok_chunk h Hok b m Hb) as (H1 & H2 & H3). repeat split; [assumption..|]. intros i Hi. apply Hmem. right. split; [now apply H3|].
    destruct (ok_disj h Hok b p m n0 Hb Hn0 ltac:(congruence)); lia.
  - intros b c m k Hb Hc Hne. apply lookup_insert_Some in Hb as [[<- <-]|[_ Hb]]; apply lookup_insert_Some in Hc as [[<- <-]|[_ Hc]]; [done|..];
      repeat match goal with X : delete _ _ !! _ = Some _ |- _ => apply lookup_delete_Some in X as [? X] end.
    + apply moved_disjoint; congruence.
    + destruct (moved_disjoint b m Hb); [congruence|right|left]; lia.
    + now apply (ok_disj h Hok b c).
Qed.
End moved.

Lemma wp_resize ptr size Q : ptr <> 0 -> live f (block_of ptr) -> 0 <= size -> size + sizeof_ralloc_header < 2 ^ 64 ->
  realloc_fresh h (block_of ptr) (size + sizeof_ralloc_header) ->
  (answer h = 0 -> Q 0 (h <| supply := tail (supply h) |>)) ->
  (answer h <> 0 -> forall n0 hs, chunks h !! block_of ptr = Some n0 -> answer h = block_of ptr \/ f !! answer h = None ->
    holds (f_move (answer h) (block_of ptr) f) (realloc_heap (block_of ptr) n0 hs (size + sizeof_ralloc_header)) ->
    Q (PTR_FROM_HEADER (answer h)) (realloc_heap (block_of ptr) n0 hs (size + sizeof_ralloc_header))) ->
  wp (resize ptr size) Q h.
Proof using H.
  intros Hp0 Hp Hs0 Hs1 Hfr HQ0 HQ. set (p := block_of ptr) in *. unfold resize. rewrite wrap_small by (unfold sizeof_ralloc_header in *; lia).
  set (n := size + sizeof_ralloc_header) in *. assert (Ep : ptr - sizeof_ralloc_header = p) by (unfold p, block_of; now rewrite (proj2 (Z.eqb_neq ptr 0) Hp0)).
  apply wp_bind, (wp_get_header f); [assumption | now rewrite Ep|]. rewrite Ep.
  destruct (proj1 (ok_dom h Hok p) (proj2 (rep_dom f _ p HR) Hp)) as [n0 Hn0]. apply wp_bind. unfold realloc_fresh, realloc_heap, answer in *.
  destruct (supply h) as [|a l] eqn:Es; cbn [list.head default from_option tail id] in *.
  { apply (wp_intro _ _ _ 0 h); [unfold realloc; now rewrite Hn0, Es|]. cbn [Z.eqb]. apply wp_ret. assert (E : h <| supply := [] |> = h) by (rewrite <- Es; now destruct h). rewrite E in HQ0. auto. }
  destruct (Z.eqb_spec a 0) as [->|Ha0].
  { apply (wp_intro _ _ _ 0 (h <| supply := l |>)); [unfold realloc; now rewrite Hn0, Es|]. cbn [Z.eqb]. apply wp_ret. now apply HQ0. }
  destruct Hfr as [|[Ha Hfr]]; [done|]. assert (Hn : sizeof_ralloc_header <= n) by (unfold n; lia).
  pose proof (moved_fresh p n0 n a Hn0 Hn Hfr) as Hnew. eapply wp_intro; [unfold realloc; rewrite Hn0, Es, (proj2 (Z.eqb_neq a 0) Ha0); reflexivity|].
  rewrite (proj2 (Z.eqb_neq a 0) Ha0). apply wp_bind. apply (wp_relink f Hwf a p Hp Hnew Ha0 (hdrs h) HR); [cbn; now rewrite (proj2 (Z.leb_le _ _) Hn)|].
  intros hs HRm. apply wp_ret. apply (HQ Ha0 n0 hs Hn0 Hnew). split; [now apply f_move_wf | assumption|].
  apply (heap_ok_move p n0 n a); [assumption..|]. intros x. rewrite (rep_dom _ _ x HRm), (f_move_live f a p Hp Hnew Ha0), (rep_dom f (hdrs h)) by assumption.
  unfold rename. split.
  - intros (y & Hy & ->). case_decide; [now left | right]. split; assumption.
  - intros [->|[Hx Hl]]; [exists p; now rewrite decide_True | exists x; now rewrite decide_False].
Qed.
End operations.

(** ** Bytes and strings in the heap

    The effects of the C library's memory and string functions that
    src/util/ralloc.c calls. *)

(** ** Writes *)

(** The bytes after [stores]. *)
Fixpoint written (a : Z) (vs : list (option Z)) (m : gmap Z (option Z)) : gmap Z (option Z) :=
  match vs with
  | [] => m
  | v :: vs => written (a + 1) vs (<[a := v]> m)
  end.

Lemma written_other a vs m i : ~ (a <= i < a + Z.of_nat (length vs)) -> written a vs m !! i = m !! i.
Proof.
  revert a m. induction vs as [|v vs IH]; intros a m Hi; [reflexivity|]. cbn [written]. cbn [length] in Hi.
  rewrite IH by lia. apply lookup_insert_ne. lia.
Qed.

Lemma written_dom a vs m i : is_Some (m !! i) -> is_Some (written a vs m !! i).
Proof. revert a m. induction vs as [|v vs IH]; intros a m Hi; [assumption|]. cbn [written]. apply IH, lookup_insert_is_Some'. now right. Qed.

Lemma written_at a vs m k v : vs !! k = Some v -> written a vs m !! (a + Z.of_nat k) = Some v.
Proof.
  revert a m k. induction vs as [|w vs IH]; intros a m k Hk; [discriminate|]. cbn [written]. destruct k as [|k]; cbn in Hk.
  - injection Hk as ->. rewrite written_other by lia. replace (a + Z.of_nat 0) with a by lia. apply lookup_insert_eq.
  - replace (a + Z.of_nat (S k)) with (a + 1 + Z.of_nat k) by lia. now apply IH.
Qed.

Lemma wp_stores vs : forall a h (Q : unit -> heap -> Prop), (forall i, a <= i < a + Z.of_nat (length vs) -> is_Some (mem h !! i)) ->
  Q tt (h <| mem := written a vs (mem h) |>) -> wp (stores a vs) Q h.
Proof.
  induction vs as [|v vs IH]; intros a h Q Hm HQ.
  - cbn in *. apply wp_ret. now replace h with (h <| mem := mem h |>) by (now destruct h).
  - cbn [stores]. cbn [length] in Hm. destruct (Hm a ltac:(lia)) as [w Hw].
    unfold wp. rewrite Hw. apply (IH (a + 1) (h <| mem := <[a := v]> (mem h) |>) Q); [|exact HQ].
    intros i Hi. cbn. apply lookup_insert_is_Some'. right. apply Hm. lia.
Qed.

Lemma holds_written f h a vs : holds f h -> holds f (h <| mem := written a vs (mem h) |>).
Proof.
  intros [H1 H2 [H3 H4 H5]]. split; [exact H1 | exact H2|]. split; [exact H3| |exact H5]. intros b n Hb. destruct (H4 b n Hb) as (E1 & E2 & E3).
  repeat split; [assumption..|]. intros i Hi. cbn. apply written_dom. now apply E3.
Qed.

Lemma holds_insert f h m a v : is_Some (m !! a) -> holds f (h <| mem := m |>) -> holds f (h <| mem := <[a := v]> m |>).
Proof.
  intros Ha [H1 H2 [H3 H4 H5]]. split; [exact H1 | exact H2|]. split; [exact H3| |exact H5]. intros b n Hb. destruct (H4 b n Hb) as (E1 & E2 & E3).
  repeat split; [assumption..|]. intros i Hi. cbn. apply lookup_insert_is_Some'. right. now apply E3.
Qed.

(** The bytes from [a] on. *)
Definition bytes_at (m : gmap Z (option Z)) (a n : Z) : list (option Z) := (fun i => default None (m !! i)) <$> range a n.

Lemma wp_loads l : forall h (Q : list (option Z) -> heap -> Prop), (forall i, i ∈ l -> is_Some (mem h !! i)) ->
  Q ((fun i => default None (mem h !! i)) <$> l) h -> wp (loads l) Q h.
Proof.
  induction l as [|a l IH]; intros h Q Hm HQ; [now apply wp_ret|]. cbn [loads]. destruct (Hm a ltac:(set_solver)) as [v Hv]. unfold wp. rewrite Hv.
  apply wp_bind, IH; [intros i Hi; apply Hm; set_solver|]. apply wp_ret. cbn in HQ. now rewrite Hv in HQ.
Qed.

Lemma range_length a n : 0 <= n -> Z.of_nat (length (range a n)) = n.
Proof. intros Hn. unfold range. rewrite length_seqZ. lia. Qed.

Lemma wp_memcpy dst src n h (Q : unit -> heap -> Prop) : 0 <= n -> (forall i, src <= i < src + n -> is_Some (mem h !! i)) ->
  (forall i, dst <= i < dst + n -> is_Some (mem h !! i)) -> Q tt (h <| mem := written dst (bytes_at (mem h) src n) (mem h) |>) -> wp (memcpy dst src n) Q h.
Proof.
  intros Hn Hs Hd HQ. apply wp_bind, wp_loads; [intros i Hi; now apply Hs, range_in|]. apply wp_stores; [|exact HQ].
  intros i Hi. rewrite length_fmap, range_length in Hi by assumption. now apply Hd.
Qed.

Lemma wp_store a v h (Q : unit -> heap -> Prop) : is_Some (mem h !! a) -> Q tt (h <| mem := <[a := Some v]> (mem h) |>) -> wp (store a v) Q h.
Proof. intros [w Hw] HQ. unfold wp, store. now rewrite Hw. Qed.

Lemma bytes_at_lookup m a n k : 0 <= Z.of_nat k < n -> bytes_at m a n !! k = Some (default None (m !! (a + Z.of_nat k))).
Proof. intros Hk. unfold bytes_at, range. rewrite list_lookup_fmap, lookup_seqZ_lt by lia. reflexivity. Qed.

(** ** Strings *)

(** The characters [s] and a null at the address [a]. *)
Record cstr (m : gmap Z (option Z)) (a : Z) (s : list Z) : Prop := {
  cstr_char : forall k c, s !! k = Some c -> c <> 0 /\ m !! (a + Z.of_nat k) = Some (Some c);
  cstr_end : m !! (a + Z.of_nat (length s)) = Some (Some 0)
}.

Lemma cstr_mem m a s i : cstr m a s -> a <= i <= a + Z.of_nat (length s) -> is_Some (m !! i).
Proof.
  intros [Hc He] Hi. destruct (decide (i = a + Z.of_nat (length s))) as [->|Hne]; [rewrite He; now eexists|].
  destruct (lookup_lt_is_Some_2 s (Z.to_nat (i - a)) ltac:(lia)) as [c Hk]. destruct (Hc _ _ Hk) as [_ E]. replace (a + Z.of_nat (Z.to_nat (i - a))) with i in E by lia. rewrite E. now eexists.
Qed.

Lemma cstr_tail m a c s : cstr m a (c :: s) -> c <> 0 /\ m !! a = Some (Some c) /\ cstr m (a + 1) s.
Proof.
  intros [Hc He]. destruct (Hc O c eq_refl) as [H0 Ha]. rewrite Z.add_0_r in Ha. split; [assumption|]. split; [assumption|]. split.
  - intros k d Hk. destruct (Hc (S k) d Hk) as [Hd Ek]. split; [assumption|]. now replace (a + 1 + Z.of_nat k) with (a + Z.of_nat (S k)) by lia.
  - replace (a + 1 + Z.of_nat (length s)) with (a + Z.of_nat (length (c :: s))) by (cbn; lia). exact He.
Qed.

(** [strlen] and [strnlen] on a string. *)
Lemma wp_scan_string s : forall fuel max a h (Q : Z -> heap -> Prop), cstr (mem h) a s -> (length s < fuel)%nat -> (forall n, max = Some n -> 0 <= n) ->
  Q (match max with None => Z.of_nat (length s) | Some n => Z.min n (Z.of_nat (length s)) end) h -> wp (scan_string fuel max a) Q h.
Proof.
  induction s as [|c s IH]; intros [|fuel] max a h Q Hs Hf Hmax HQ; [cbn in Hf; lia| |cbn in Hf; lia|]; cbn [scan_string];
    (destruct (decide (max = Some 0)) as [->|Hm]; [apply wp_ret; rewrite Z.min_l in HQ by lia; exact HQ|]).
  - pose proof (cstr_end _ _ _ Hs) as He. cbn in He. rewrite Z.add_0_r in He. apply wp_bind. unfold wp at 1, load. rewrite He. cbn. apply wp_ret.
    destruct max as [n|]; [pose proof (Hmax n eq_refl); cbn in HQ; rewrite Z.min_r in HQ by lia; exact HQ | exact HQ].
  - apply cstr_tail in Hs as (H0 & Ha & Hs). apply wp_bind. unfold wp at 1, load. rewrite Ha, (proj2 (Z.eqb_neq c 0) H0).
    apply wp_bind, (IH fuel (Z.pred <$> max) (a + 1)); [assumption | cbn in Hf; lia | |apply wp_ret].
    + intros n En. destruct max as [m|]; [|discriminate]. cbn in En. injection En as <-. pose proof (Hmax m eq_refl). assert (m <> 0) by congruence. lia.
    + destruct max as [n|]; cbn [fmap option_fmap option_map]; cbn [length] in HQ; [replace (Z.min (Z.pred n) (Z.of_nat (length s)) + 1) with (Z.min n (Z.of_nat (S (length s)))) by lia
        | replace (Z.of_nat (length s) + 1) with (Z.of_nat (S (length s))) by lia]; exact HQ.
Qed.

Lemma cstr_size m a s : cstr m a s -> (length s < size m)%nat.
Proof.
  intros Hs. pose proof (nodup_size m (seqZ a (Z.of_nat (S (length s)))) (NoDup_seqZ _ _)) as H. rewrite length_seqZ, Nat2Z.id in H. apply H.
  intros x Hx. apply elem_of_seqZ in Hx. apply (cstr_mem m a s); [assumption | lia].
Qed.

Lemma wp_strlen a s h (Q : Z -> heap -> Prop) : cstr (mem h) a s -> Q (Z.of_nat (length s)) h -> wp (strlen a) Q h.
Proof. intros Hs HQ. unfold strlen. apply wp_bind. unfold wp at 1, rounds. apply (wp_scan_string s); [assumption | pose proof (cstr_size _ _ _ Hs); lia | discriminate | exact HQ]. Qed.

Lemma wp_strnlen a s max h (Q : Z -> heap -> Prop) : cstr (mem h) a s -> 0 <= max -> Q (Z.min max (Z.of_nat (length s))) h -> wp (strnlen a max) Q h.
Proof. intros Hs Hm HQ. unfold strnlen. apply wp_bind. unfold wp at 1, rounds. apply (wp_scan_string s); [assumption | pose proof (cstr_size _ _ _ Hs); lia | congruence | exact HQ]. Qed.
