(* ===== verification/RallocProps.v ===== *)
(** * Memory contexts: theorems

    Any sequence of calls on the heap does what the same calls on a forest do;
    [ralloc_free] releases a block and its descendants and nothing else. *)

From stdpp Require Import base gmap numbers list.
From Stdlib Require Import ZArith Lia.
From S2P Require Import Prelude StateM Ralloc RallocForest RallocLinks RallocReparent RallocHeap.
From S2P Require Import RallocOps.
#[local] Open Scope bool_scope.
#[local] Open Scope Z_scope.
#[local] Open Scope c_scope.
#[local] Open Scope state_scope.

(** ** Release *)

Section free.
Context (f : forest) (h : heap) (H : holds f h).
Let Hwf : wf f := holds_wf f h H.
Let HR : rep f (hdrs h) := holds_rep f h H.

Lemma postorder_ext n f1 : forall p, (forall x, x ∈ postorder n f p -> kids f1 x = kids f x) -> postorder n f1 p = postorder n f p.
Proof.
  induction n as [|n IH]; intros p Hx; [reflexivity|]. cbn [postorder] in *. rewrite (Hx p) by set_solver. f_equal.
  assert (Hk : forall c, c ∈ kids f p -> postorder n f1 c = postorder n f c) by (intros c Hc; apply IH; intros x Hin; apply Hx, elem_of_app; left; apply list_elem_of_bind; eauto).
  revert Hk. generalize (kids f p) as l. intros l. induction l as [|c l IHl]; intros Hk; [reflexivity|]. rewrite !bind_cons, Hk by set_solver. f_equal. apply IHl. set_solver.
Qed.

Lemma released_unlinked p : live f p -> released (f_unlink p f) p = released f p.
Proof using H.
  intros Hp. pose proof (f_unlink_relinked f Hwf p Hp) as HL. unfold released. replace (size (f_unlink p f)) with (size f).
  - apply postorder_ext. intros x Hx. rewrite (rl_kids _ _ _ _ HL), decide_False by (now intros [_ ?]). cbn [app]. apply kids_filter; [assumption..|].
    apply (released_spec f Hwf p Hp) in Hx. intros ->. destruct (decide (up f p = 0)) as [E|E]; [|now apply (not_own_descendant f p) in Hx].
    rewrite E in Hx. destruct Hx as (l & Hl & _). destruct (ancestry_head f 0 l Hl) as [l' ->]. apply (null_not_live f Hwf). apply (ancestry_live f 0 _ Hl). set_solver.
  - rewrite <- !size_dom. f_equal. apply set_eq. intros x. rewrite !elem_of_dom. symmetry. apply (rl_live _ _ _ _ HL).
Qed.

Lemma obituary_unlinked p x : obituary (f_unlink p f) x = obituary f x.
Proof. unfold obituary, f_unlink. now rewrite dtor_set_up, dtor_set_kids. Qed.

(** The headers that are left represent the rest of the forest. *)
Lemma free_rep p hs hs' : live f p -> rep (f_unlink p f) hs -> (forall x, hs' !! x = if decide (x ∈ released f p) then None else hs !! x) -> rep (f_free p f) hs'.
Proof using H.
  intros Hp Hu Hx. pose proof (f_unlink_relinked f Hwf p Hp) as HL.
  assert (Hrel : forall x, x ∈ released f p <-> descends f x p) by apply (released_spec f Hwf p Hp).
  assert (Hkids : forall x, x = 0 \/ ~ descends f x p -> kids (f_free p f) x = kids (f_unlink p f) x).
  { intros x [->|Hnx]; [rewrite !kids_null; [reflexivity | apply (wf_null _ (f_unlink_wf f Hwf p Hp)) | apply (wf_null _ (f_free_wf f Hwf p Hp))]|].
    rewrite (proj2 (f_free_other f Hwf p Hp x Hnx)), (rl_kids _ _ _ _ HL), decide_False by (now intros [_ ?]). reflexivity. }
  apply rep_intro.
  - intros x Hlx. apply (f_free_live f Hwf p Hp) in Hlx as [Hlx Hnx]. rewrite Hx, decide_False by (now rewrite Hrel).
    rewrite (rep_live (f_unlink p f) hs x Hu) by now apply (rl_live _ _ _ _ HL). f_equal. unfold header.
    assert (Hxp : x <> p) by (intros ->; apply Hnx; destruct (wf_rooted f Hwf p Hp) as [l Hl]; now apply (descends_refl f p l)).
    assert (Hux : up f x = 0 \/ ~ descends f (up f x) p).
    { destruct (decide (up f x = 0)) as [E|E]; [now left | right]. intros Hd. apply Hnx. now apply descends_up. }
    rewrite (proj1 (f_free_other f Hwf p Hp x Hnx)), (rl_up _ _ _ _ HL), decide_False, (Hkids x), (Hkids (up f x)) by auto.
    f_equal. unfold dtor. now rewrite (f_free_lookup f p), decide_False by (now rewrite Hrel).
  - intros x Hs. rewrite Hx in Hs. apply (f_free_live f Hwf p Hp). case_decide as Hin; [now destruct Hs|]. rewrite Hrel in Hin. split; [|assumption].
    apply (rl_live _ _ _ _ HL). now apply (rep_dom _ _ x Hu).
Qed.

Lemma wp_ralloc_free ptr Q : ptr <> 0 -> live f (block_of ptr) ->
  (forall h' hs, holds (f_free (block_of ptr) f) h' -> gone f (released f (block_of ptr)) (h <| hdrs := hs |>) h' -> Q tt h') -> wp (ralloc_free ptr) Q h.
Proof using H.
  intros Hp0 Hp HQ. set (p := block_of ptr) in *. assert (Ep : ptr - sizeof_ralloc_header = p) by (unfold p, block_of; now rewrite (proj2 (Z.eqb_neq ptr 0) Hp0)).
  pose proof (f_unlink_relinked f Hwf p Hp) as HL. pose proof (f_unlink_wf f Hwf p Hp) as Hwu. assert (Hpu : live (f_unlink p f) p) by now apply (rl_live _ _ _ _ HL).
  unfold ralloc_free. rewrite (proj2 (Z.eqb_neq ptr 0) Hp0). cbn [negb]. apply wp_bind, (wp_get_header f); [assumption | now rewrite Ep|]. rewrite Ep.
  apply wp_bind, (wp_unlink_block f Hwf h HR p); [assumption|]. intros hs HRu. apply wp_bind, wp_blocks. set (h1 := h <| hdrs := hs |>).
  assert (Hok1 : holds (f_unlink p f) h1) by (apply (holds_hdrs f); [assumption.. | apply (rl_live _ _ _ _ HL)]).
  destruct (wf_rooted _ Hwu p Hpu) as [l Hl]. pose proof (released_spec _ Hwu p Hpu) as [Hnd Hrel].
  destruct (unsafe_free_spec _ Hwu (size (f_unlink p f)) p l Hl ltac:(destruct (ancestry_head _ _ _ Hl) as [l' ->]; cbn; lia) (S (size (hdrs h1))) h1) as (h' & E & G).
  - apply le_S. fold (released (f_unlink p f) p). apply nodup_size; [assumption|]. intros x Hx. apply (rep_dom _ _ x HRu). apply Hrel in Hx as (l' & Hl' & _).
    destruct (ancestry_head _ _ _ Hl') as [l'' ->]. eapply ancestry_live; [exact Hl' | set_solver].
  - intros x Hx. fold (released (f_unlink p f) p) in Hx. apply Hrel in Hx as (l' & Hl' & _).
    assert (Hlx : live (f_unlink p f) x) by (destruct (ancestry_head _ _ _ Hl') as [l'' ->]; eapply ancestry_live; [exact Hl' | set_solver]).
    exists (header (f_unlink p f) x). split; [now apply rep_live|]. repeat split. apply (ok_dom h1 (holds_ok _ _ Hok1)), (rep_dom _ _ x HRu), Hlx.
  - fold (released (f_unlink p f) p) in G. rewrite (released_unlinked p Hp) in G. apply (wp_intro _ _ _ tt h'); [exact E|].
    assert (G' : gone f (released f p) h1 h').
    { destruct G as [G1 G2 G3 G4 G5 G6]. split; try assumption. rewrite G6. f_equal. apply list_bind_ext; [|reflexivity]. intros x. apply obituary_unlinked. }
    apply (HQ h' hs); [|assumption]. split; [now apply f_free_wf | apply (free_rep p hs); [assumption..|]; apply (gone_hdrs _ _ _ _ G')|].
    apply (heap_ok_gone f (released f p) h1); [apply (holds_ok _ _ Hok1) | assumption].
Qed.
End free.

(** ** Sequences of calls *)

Inductive cmd :=
| Alloc (ctx size : Z)
| Array (ctx size count : Z)
| Realloc (ctx ptr size : Z)
| Free (ptr : Z)
| Steal (new_ctx ptr : Z)
| Adopt (new_ctx old_ctx : Z)
| Set_destructor (ptr d : Z)
| Parent (ptr : Z).

Definition run (c : cmd) : M Z :=
  match c with
  | Alloc ctx size => ralloc_size ctx size
  | Array ctx size count => ralloc_array_size ctx size count
  | Realloc ctx ptr size => reralloc_size ctx ptr size
  | Free ptr => ralloc_free ptr ;; ret 0
  | Steal new_ctx ptr => ralloc_steal new_ctx ptr ;; ret 0
  | Adopt new_ctx old_ctx => ralloc_adopt new_ctx old_ctx ;; ret 0
  | Set_destructor ptr d => ralloc_set_destructor ptr d ;; ret 0
  | Parent ptr => ralloc_parent ptr
  end.

(** The pointer that the user has of a block; [NULL] for none. *)
Definition user_ptr (p : Z) : Z := if decide (p = 0) then 0 else PTR_FROM_HEADER p.

Definition f_new_block (ctx a : Z) (f : forest) : Z * list event * forest :=
  if decide (a = 0) then (0, [], f) else (PTR_FROM_HEADER a, [], f_alloc (block_of ctx) a f).

(** The result, the destructor and [free] calls, and the forest after a call,
    where [a] is what the C library answers to a request for memory. *)
Definition f_run (c : cmd) (a : Z) (f : forest) : Z * list event * forest :=
  match c with
  | Alloc ctx _ => f_new_block ctx a f
  | Array ctx size count => if count >? SIZE_MAX / size then (0, [], f) else f_new_block ctx a f
  | Realloc ctx ptr _ =>
      if decide (ptr = 0) then f_new_block ctx a f
      else if decide (a = 0) then (0, [], f) else (PTR_FROM_HEADER a, [], f_move a (block_of ptr) f)
  | Free ptr => if decide (ptr = 0) then (0, [], f) else (0, released f (block_of ptr) ≫= obituary f, f_free (block_of ptr) f)
  | Steal new_ctx ptr => (0, [], if decide (ptr = 0) then f else f_steal (block_of new_ctx) (block_of ptr) f)
  | Adopt new_ctx old_ctx => (0, [], if decide (old_ctx = 0) then f else f_adopt (block_of new_ctx) (block_of old_ctx) f)
  | Set_destructor ptr d => (0, [], f_set_destructor (block_of ptr) d f)
  | Parent ptr => (user_ptr (up f (block_of ptr)), [], f)
  end.

Definition is_ctx (f : forest) (ctx : Z) : Prop := ctx = 0 \/ live f (block_of ctx).
Definition size_ok (size : Z) : Prop := 0 <= size /\ size + sizeof_ralloc_header < 2 ^ 64.

(** What the callers must ensure, and what the C library promises. *)
Definition allowed (c : cmd) (f : forest) (h : heap) : Prop :=
  match c with
  | Alloc ctx size => is_ctx f ctx /\ size_ok size /\ malloc_fresh h (size + sizeof_ralloc_header)
  | Array ctx size count => is_ctx f ctx /\ 0 < size /\ 0 <= count /\
      (count <= SIZE_MAX / size -> size_ok (size * count) /\ malloc_fresh h (size * count + sizeof_ralloc_header))
  | Realloc ctx ptr size => is_ctx f ctx /\ size_ok size /\
      (if decide (ptr = 0) then malloc_fresh h (size + sizeof_ralloc_header)
       else live f (block_of ptr) /\ ctx = user_ptr (up f (block_of ptr)) /\ realloc_fresh h (block_of ptr) (size + sizeof_ralloc_header))
  | Free ptr => is_ctx f ptr
  | Steal new_ctx ptr => ptr = 0 \/ (live f (block_of ptr) /\ is_ctx f new_ctx /\ ~ descends f (block_of new_ctx) (block_of ptr))
  | Adopt new_ctx old_ctx => old_ctx = 0 \/
      (live f (block_of old_ctx) /\ live f (block_of new_ctx) /\ ~ descends f (block_of new_ctx) (block_of old_ctx))
  | Set_destructor ptr _ => live f (block_of ptr)
  | Parent ptr => is_ctx f ptr
  end.

(** Each call comes with the answer of the C library. *)
Fixpoint run_all (l : list (cmd * Z)) (h : heap) : outcome (list Z * heap) :=
  match l with
  | [] => Ret ([], h)
  | (c, a) :: l =>
      let! (r, h) := run c (h <| supply := [a] |>) in
      let! (rs, h) := run_all l h in
      Ret (r :: rs, h)
  end.
Fixpoint f_run_all (l : list (cmd * Z)) (f : forest) : list Z * list event * forest :=
  match l with
  | [] => ([], [], f)
  | (c, a) :: l =>
      let '(r, es, f) := f_run c a f in
      let '(rs, es', f) := f_run_all l f in
      (r :: rs, es ++ es', f)
  end.
Fixpoint allowed_all (l : list (cmd * Z)) (f : forest) (h : heap) : Prop :=
  match l with
  | [] => True
  | (c, a) :: l =>
      allowed c f (h <| supply := [a] |>) /\
      forall r h', run c (h <| supply := [a] |>) = Ret (r, h') -> allowed_all l (f_run c a f).2 h'
  end.

(** ** One call *)

Definition does (c : cmd) (a : Z) (f : forest) (h : heap) : Prop :=
  let '(r, es, f') := f_run c a f in wp (run c) (fun r' h' => r' = r /\ events h' = events h ++ es /\ holds f' h') h.

Lemma live_block f ptr : wf f -> live f (block_of ptr) -> ptr <> 0.
Proof. intros Hwf Hl ->. now apply (null_not_live f Hwf). Qed.

Section one_call.
Context (f : forest) (h : heap) (H : holds f h) (a : Z) (Ea : supply h = [a]).
Let Hwf : wf f := holds_wf f h H.

Lemma answer_is : answer h = a.
Proof using Ea. unfold answer. now rewrite Ea. Qed.

Lemma holds_supply l : holds f (h <| supply := l |>).
Proof using H. destruct H as [H1 H2 [H3 H4 H5]]. split; [exact H1 | exact H2|]. split; [exact H3 | exact H4 | exact H5]. Qed.

Lemma alloc_does ctx size : is_ctx f ctx -> size_ok size -> malloc_fresh h (size + sizeof_ralloc_header) ->
  let '(r, es, f') := f_new_block ctx a f in wp (ralloc_size ctx size) (fun r' h' => r' = r /\ events h' = events h ++ es /\ holds f' h') h.
Proof using H Ea.
  intros Hc [Hs0 Hs1] Hf. unfold f_new_block. case_decide as E; apply (wp_ralloc_size f h H ctx size); rewrite ?answer_is; try assumption; try (intros; congruence).
  - intros _. rewrite app_nil_r. split; [reflexivity|]. split; [reflexivity | apply holds_supply].
  - intros _ _ hs Hh. rewrite app_nil_r. split; [reflexivity|]. split; [reflexivity | assumption].
Qed.

Lemma realloc_does ctx ptr size : allowed (Realloc ctx ptr size) f h -> does (Realloc ctx ptr size) a f h.
Proof using H Ea.
  intros (Hc & [Hs0 Hs1] & Hp). unfold does. cbn [f_run run]. unfold reralloc_size. destruct (Z.eqb_spec ptr 0) as [E|E].
  - rewrite decide_True in Hp by assumption. rewrite decide_True by assumption. apply alloc_does; [assumption | split; assumption | assumption].
  - rewrite decide_False in Hp by assumption. rewrite decide_False by assumption. destruct Hp as (Hl & Hctx & Hf).
    assert (Hpar : forall (Q : Z -> heap -> Prop), wp (resize ptr size) Q h -> wp (let* p := ralloc_parent ptr in m_assert (p =? ctx) ;; resize ptr size) Q h).
    { intros Q HQ. apply wp_bind, (wp_ralloc_parent f h H); [now right|]. apply wp_bind, wp_assert; [rewrite Hctx; apply Z.eqb_refl | exact HQ]. }
    case_decide as Ez; apply Hpar, (wp_resize f h H ptr size); rewrite ?answer_is; try assumption; try (intros; congruence).
    + intros _. rewrite app_nil_r. split; [reflexivity|]. split; [reflexivity | apply holds_supply].
    + intros _ n0 hs _ _ Hh. rewrite app_nil_r. split; [reflexivity|]. split; [reflexivity | assumption].
Qed.

Lemma call_does c : allowed c f h -> does c a f h.
Proof using H Ea.
  assert (Hret : forall (m : M unit) f', wp m (fun _ h' => events h' = events h /\ holds f' h') h -> wp (m ;; ret 0) (fun r' h' => r' = 0 /\ events h' = events h ++ [] /\ holds f' h') h).
  { intros m f' Hm. apply wp_bind, (wp_mono _ _ _ _ Hm). intros _ h' [H1 H2]. apply wp_ret. now rewrite app_nil_r. }
  assert (Hskip : wp (ret tt) (fun _ h' => events h' = events h /\ holds f h') h) by now apply wp_ret.
  destruct c as [ctx size|ctx size count|ctx ptr size|ptr|q ptr|q o|ptr d|ptr]; intros Hal; [| |now apply realloc_does|..]; unfold does; cbn [f_run run] in *.
  - destruct Hal as (H1 & H2 & H3). now apply alloc_does.
  - destruct Hal as (H1 & H2 & H3 & H4). unfold ralloc_array_size, array_size.
    assert (Hz : negb (size =? 0) = true) by (apply negb_true_iff, Z.eqb_neq; lia). destruct (count >? SIZE_MAX / size) eqn:E; rewrite Z.gtb_ltb in E; [apply Z.ltb_lt in E | apply Z.ltb_ge in E].
    + apply wp_bind, wp_assert; [exact Hz|]. apply wp_ret. now rewrite app_nil_r.
    + destruct (H4 E) as [[Hp0 Hp] Hf]. pose proof (alloc_does ctx (size * count) H1 (conj Hp0 Hp) Hf) as Hal. destruct (f_new_block ctx a f) as [[r es] f'].
      apply wp_bind, wp_assert; [exact Hz|]. rewrite wrap_small; [exact Hal | unfold sizeof_ralloc_header in Hp; lia].
  - unfold ralloc_free at 1. case_decide as E; [subst ptr; now apply Hret|]. destruct Hal as [|Hl]; [done|]. apply wp_bind, (wp_ralloc_free f h H ptr); [assumption..|].
    intros h' hs Hh G. apply wp_ret. split; [reflexivity|]. split; [exact (gone_events _ _ _ _ G) | assumption].
  - apply Hret. case_decide as E; [now subst ptr|]. destruct Hal as [|(Hl & Hq & Hnd)]; [done|]. apply (wp_ralloc_steal f h H); auto.
  - apply Hret. case_decide as E; [now subst o|]. destruct Hal as [|(Hl & Hq & Hnd)]; [done|]. apply (wp_ralloc_adopt f h H); auto. now apply (live_block f).
  - apply Hret, (wp_ralloc_set_destructor f h H); auto. now apply (live_block f).
  - apply (wp_ralloc_parent f h H); [assumption|]. now rewrite app_nil_r.
Qed.
End one_call.

Lemma run_all_spec l : forall f h, holds f h -> allowed_all l f h ->
  let '(rs, es, f') := f_run_all l f in exists h', run_all l h = Ret (rs, h') /\ events h' = events h ++ es /\ holds f' h'.
Proof.
  induction l as [|[c a] l IH]; intros f h H Hal; cbn [f_run_all run_all allowed_all] in *.
  - exists h. split; [reflexivity|]. split; [now rewrite app_nil_r | assumption].
  - destruct Hal as [Hc Hl]. pose proof (call_does f (h <| supply := [a] |>) (holds_supply f h H [a]) a eq_refl c Hc) as Hd. unfold does in Hd.
    destruct (f_run c a f) as [[r es] f1]. apply wp_elim in Hd as (r' & h1 & E & -> & Ev & H1). rewrite E. cbn [obind]. pose proof (IH f1 h1 H1 (Hl r h1 E)) as Hrest.
    destruct (f_run_all l f1) as [[rs es'] f2]. destruct Hrest as (h2 & E2 & Ev2 & H2). rewrite E2. exists h2. split; [reflexivity|]. split; [|assumption].
    rewrite Ev2, Ev. symmetry. apply app_assoc.
Qed.

Lemma holds_empty m l es : holds ∅ (Heap ∅ ∅ ∅ m l es).
Proof.
  assert (Hl : forall x, ~ live ∅ x) by (intros x [n Hn]; now rewrite lookup_empty in Hn). assert (Hk : forall x, kids ∅ x = []) by (intros x; unfold kids; now rewrite lookup_empty).
  split; [|intros x; cbn; now rewrite !lookup_empty|].
  - split; [apply lookup_empty | intros p c Hc; rewrite Hk in Hc; set_solver | intros c Hc; now apply Hl in Hc | intros p; rewrite Hk; constructor | intros p Hp; now apply Hl in Hp].
  - split; cbn; [intros p; rewrite !lookup_empty; split; now intros [] | intros a n Ha; now rewrite lookup_empty in Ha | intros a b n m' Ha; now rewrite lookup_empty in Ha].
Qed.

(** A heap with one block, for examples. *)
Lemma one_block m size l : 0 <= size <= 100 -> (forall i, 1024 <= i < 1024 + (size + 48) -> m !! i = None) ->
  exists hs, holds (f_alloc 0 1024 ∅) (Heap hs ∅ {[1024 := size + 48]} (reserve 1024 (size + 48) m) l []).
Proof.
  intros Hs Hm. assert (W : wp (ralloc_size 0 size) (fun _ h' => exists hs, h' = Heap hs ∅ {[1024 := size + 48]} (reserve 1024 (size + 48) m) l [] /\ holds (f_alloc 0 1024 ∅) h') (Heap ∅ ∅ ∅ m (1024 :: l) [])).
  { apply (wp_ralloc_size ∅ _ (holds_empty m (1024 :: l) [])); [now left | lia | unfold sizeof_ralloc_header; lia | right; split; [lia | exact Hm] | done|].
    intros _ _ hs Hh. exists hs. split; [reflexivity | exact Hh]. }
  apply wp_elim in W as (_ & h' & _ & hs & -> & H). now exists hs.
Qed.

(** A sufficient test of [malloc_fresh]. *)
Lemma fresh_by_range h a l n : supply h = a :: l -> 0 < a -> Forall (fun i => mem h !! i = None) (range a n) -> malloc_fresh h n.
Proof. intros E Ha Hf. unfold malloc_fresh. rewrite E. right. split; [assumption|]. intros i Hi. rewrite list.Forall_forall in Hf. now apply Hf, range_in. Qed.

Lemma refresh_by_range h a l old n : supply h = a :: l -> 0 < a -> Forall (fun i => mem h !! i = None) (range a n) -> realloc_fresh h old n.
Proof. intros E Ha Hf. unfold realloc_fresh. rewrite E. right. split; [assumption|]. intros i Hi. left. rewrite list.Forall_forall in Hf. now apply Hf, range_in. Qed.

(** C5: Any sequence of calls of ralloc (allocation, arrays, reallocation,
    release, stealing, adoption, destructors, parents), of which each respects
    the documented conditions, returns; the pointers returned, the calls of
    destructors and of [free] and their order are those of the same calls on an
    abstract forest without sibling links, and the headers represent that
    forest again, with all blocks disjoint. *)
Theorem ralloc_refines_forest l f h : holds f h -> allowed_all l f h ->
  let '(rs, es, f') := f_run_all l f in exists h', run_all l h = Ret (rs, h') /\ events h' = events h ++ es /\ holds f' h'.
Proof. apply run_all_spec. Qed.

(** A context with a child; the context is released. *)
Definition sample : list (cmd * Z) := [(Alloc 0 0, 1024); (Alloc 1072 4, 2048); (Free 1072, 0)].

Lemma ralloc_refines_forest_witness : exists h', run_all sample (Heap ∅ ∅ ∅ ∅ [] []) = Ret ([1072; 2096; 0], h') /\
  events h' = [Ev_free 2048; Ev_free 1024] /\ holds ∅ h'.
Proof.
  refine (ralloc_refines_forest sample ∅ (Heap ∅ ∅ ∅ ∅ [] []) (holds_empty _ _ _) _).
  assert (Hsz : forall n, 0 <= n <= 8 -> size_ok n) by (intros n Hn; unfold size_ok, sizeof_ralloc_header; lia).
  unfold sample, allowed_all, allowed, is_ctx.
  split; [split; [now left|]; split; [apply Hsz; lia | apply (fresh_by_range _ 1024 []); [reflexivity | lia | vm_compute; repeat constructor]]|].
  intros r h' E. vm_compute in E. injection E as <- <-.
  split; [split; [right; vm_compute; now eexists|]; split; [apply Hsz; lia | apply (fresh_by_range _ 2048 []); [reflexivity | lia | vm_compute; repeat constructor]]|].
  intros r h' _. split; [right; vm_compute; now eexists | auto].
Defined.

(** C24: [ralloc_free] of a block returns and releases the block with all its
    descendants, each exactly once and after its own descendants, the destructor
    of a block just before its memory; what is left is the rest of the forest,
    and the bytes of the blocks that are left are unchanged. *)
Theorem ralloc_free_exact f h ptr : holds f h -> live f (block_of ptr) ->
  let p := block_of ptr in
  exists h', ralloc_free ptr h = Ret (tt, h') /\ holds (f_free p f) h' /\
    events h' = events h ++ (released f p ≫= obituary f) /\
    NoDup (released f p) /\ (forall q, q ∈ released f p <-> descends f q p) /\
    (forall x y, descends f y p -> descends f x y -> x <> y -> exists l1 l2 l3, released f p = l1 ++ x :: l2 ++ y :: l3) /\
    (forall q n i, chunks h !! q = Some n -> q <= i < q + n -> mem h' !! i = if decide (q ∈ released f p) then None else mem h !! i).
Proof.
  intros H Hl p. pose proof (holds_wf f h H) as Hwf. destruct (released_spec f Hwf p Hl) as [Hnd Hrel].
  assert (W : wp (ralloc_free ptr) (fun _ h' => holds (f_free p f) h' /\ exists hs, gone f (released f p) (h <| hdrs := hs |>) h') h)
    by (apply (wp_ralloc_free f h H ptr); [now apply (live_block f) | assumption | intros h' hs Hh G; eauto]).
  apply wp_elim in W as ([] & h' & E & Hh & hs & G).
  exists h'. split; [exact E|]. split; [exact Hh|]. split; [exact (gone_events _ _ _ _ G)|]. split; [exact Hnd|]. split; [exact Hrel|]. split.
  - destruct (wf_rooted f Hwf p Hl) as [l Hlp]. intros x y Hy Hx Hne. unfold released. apply (postorder_before f Hwf _ p l Hlp); [|assumption..]. destruct (ancestry_head f p l Hlp) as [l' ->]. cbn. lia.
  - intros q n i Hq Hi. rewrite (gone_mem _ _ _ _ G). change (mem (h <| hdrs := hs |>)) with (mem h). destruct (existsb (covers (h <| hdrs := hs |>) i) (released f p)) eqn:Ex.
    + apply existsb_exists in Ex as (x & Hx & Hc). apply list_elem_of_In in Hx. unfold covers in Hc. cbn in Hc. destruct (chunks h !! x) as [m|] eqn:Em; [|discriminate]. zbool.
      destruct (decide (q = x)) as [->|Hne]; [now rewrite decide_True|]. destruct (ok_disj h (holds_ok f h H) q x n m Hq Em Hne); lia.
    + rewrite decide_False; [reflexivity|]. intros Hin. rewrite <- not_true_iff_false in Ex. apply Ex, existsb_exists. exists q. split; [now apply list_elem_of_In|].
      unfold covers. cbn. rewrite Hq. apply andb_true_iff. split; [apply Z.leb_le | apply Z.ltb_lt]; lia.
Qed.

Lemma ralloc_free_exact_witness : exists h h', ralloc_free 1072 h = Ret (tt, h') /\ events h' = events h ++ [Ev_free 2048; Ev_free 1024].
Proof.
  assert (Hal : allowed_all (take 2 sample) ∅ (Heap ∅ ∅ ∅ ∅ [] [])).
  { assert (Hsz : forall n, 0 <= n <= 8 -> size_ok n) by (intros n Hn; unfold size_ok, sizeof_ralloc_header; lia).
    split; [split; [now left|]; split; [apply Hsz; lia | apply (fresh_by_range _ 1024 []); [reflexivity | lia | vm_compute; repeat constructor]]|].
    intros r h' E. vm_compute in E. injection E as <- <-.
    split; [split; [right; vm_compute; now eexists|]; split; [apply Hsz; lia | apply (fresh_by_range _ 2048 []); [reflexivity | lia | vm_compute; repeat constructor]] | now intros]. }
  destruct (run_all_spec (take 2 sample) ∅ (Heap ∅ ∅ ∅ ∅ [] []) (holds_empty _ _ _) Hal) as (h & _ & _ & H). exists h.
  destruct (ralloc_free_exact _ h 1072 H) as (h' & E & _ & Ev & _); [vm_compute; now eexists|]. exists h'. split; [exact E | exact Ev].
Defined.

(** The comment on [ralloc_adopt] says that it acts like [ralloc_steal] on each
    child of the old context.  With the same context twice it does not: the
    last child becomes its own next sibling, and the context loses the child, so
    that releasing the context does not release it; [ralloc_steal] keeps it. *)
Lemma ralloc_adopt_self_loses_children :
  let calls (m : Z -> Z -> M unit) := (let* a := ralloc_context 0 in let* b := ralloc_context a in m a b ;; ralloc_free a) (Heap ∅ ∅ ∅ ∅ [1024; 2048] []) in
  let seen := omap_out (fun '(_, h) => (events h, next <$> hdrs h !! 2048)) in
  seen (calls (fun a b => ralloc_adopt a a)) = Ret ([Ev_free 1024], Some 2048) /\
  seen (calls (fun a b => ralloc_steal a b)) = Ret ([Ev_free 2048; Ev_free 1024], None).
Proof. split; vm_compute; reflexivity. Qed.
