(* ===== verification/RallocLinear.v ===== *)
(** * The linear allocator: src/util/ralloc.c, second part

    A parent is a chain of buffers, each a block of ralloc with a header; the
    space of a buffer is given out from its start, each piece after a word with
    its size.  A node is the address of the block that ralloc returned. *)

From stdpp Require Import base gmap numbers list.
From Stdlib Require Import ZArith.
From S2P Require Import Prelude StateM Ralloc.
#[local] Open Scope bool_scope.
#[local] Open Scope Z_scope.
#[local] Open Scope c_scope.
#[local] Open Scope state_scope.

Definition MIN_LINEAR_BUFSIZE : Z := 2048.
Definition SUBALLOC_ALIGNMENT : Z := 8.
Definition LMAGIC : Z := 0x87b9c7d3.
Definition sizeof_linear_size_chunk : Z := 8.

(** ** Accesses *)

Definition deref_lin (node : Z) : M linear_header := fun h =>
  match lins h !! (node - sizeof_ralloc_header) with Some b => Ret (b, h) | None => Assert_failed end.
Definition modify_lin (node : Z) (f : linear_header -> linear_header) : M unit := fun h =>
  match lins h !! (node - sizeof_ralloc_header) with
  | Some b => Ret (tt, h <| lins := <[node - sizeof_ralloc_header := f b]> (lins h) |>)
  | None => Assert_failed
  end.
(** The first writes to the members of a new header. *)
Definition put_lin (node : Z) (b : linear_header) : M unit := fun h =>
  match chunks h !! (node - sizeof_ralloc_header) with
  | Some n =>
      if sizeof_ralloc_header + sizeof_linear_header <=? n
      then Ret (tt, h <| lins := <[node - sizeof_ralloc_header := b]> (lins h) |>) else Assert_failed
  | None => Assert_failed
  end.

(** A 32-bit word in memory, the low byte first. *)
Definition store32 (a v : Z) : M unit := stores a (Some <$> [v mod 256; v / 256 mod 256; v / 65536 mod 256; v / 16777216]).
Definition load32 (a : Z) : M Z :=
  let* b0 := load a in let* b1 := load (a + 1) in let* b2 := load (a + 2) in let* b3 := load (a + 3) in
  ret (b0 + 256 * b1 + 65536 * b2 + 16777216 * b3).

Definition ALIGN_POT (x pot_align : Z) : Z := Z.land (u32 (x + pot_align - 1)) (u32 (Z.lnot (pot_align - 1))).

Definition LINEAR_PARENT_TO_HEADER (parent : Z) : Z := parent - sizeof_linear_size_chunk - sizeof_linear_header.

(** ** Allocation *)

Definition create_linear_node (ralloc_ctx min_size : Z) : M Z :=
  let min_size := u32 (min_size + sizeof_linear_size_chunk) in
  let min_size := if min_size <? MIN_LINEAR_BUFSIZE then MIN_LINEAR_BUFSIZE else min_size in
  let* node := ralloc_size ralloc_ctx (sizeof_linear_header + min_size) in
  if node =? 0 then ret 0
  else
    put_lin node (LinearHeader LMAGIC 0 min_size ralloc_ctx 0 node) ;;
    ret node.

(** The buffer with room for [full_size] bytes: the latest one or a new one;
    0 when there is no memory. *)
Definition linear_room (first latest_ size full_size : Z) : M Z :=
  let* l := deref_lin latest_ in
  if u32 (offset l + full_size) >? lin_size l then
    let* new_node := create_linear_node (lin_ralloc_parent l) size in
    if new_node =? 0 then ret 0
    else
      modify_lin first (fun b => b <| latest := new_node |>) ;;
      modify_lin latest_ (fun b => b <| latest := new_node |>) ;;
      modify_lin latest_ (fun b => b <| lin_next := new_node |>) ;;
      ret new_node
  else ret latest_.

Definition linear_alloc_child (parent size : Z) : M Z :=
  let first := LINEAR_PARENT_TO_HEADER parent in
  let* f := deref_lin first in
  let* l := deref_lin (latest f) in
  m_assert (magic f =? LMAGIC) ;;
  m_assert (lin_next l =? 0) ;;
  let size := ALIGN_POT size SUBALLOC_ALIGNMENT in
  let full_size := u32 (sizeof_linear_size_chunk + size) in
  let* latest := linear_room first (latest f) size full_size in
  if latest =? 0 then ret 0
  else
    let* l := deref_lin latest in
    let ptr := latest + sizeof_linear_header + offset l in
    store32 ptr size ;;
    modify_lin latest (fun b => b <| offset := u32 (offset l + full_size) |>) ;;
    m_assert ((ptr + sizeof_linear_size_chunk) mod SUBALLOC_ALIGNMENT =? 0) ;;
    ret (ptr + sizeof_linear_size_chunk).

Definition linear_alloc_parent (ralloc_ctx size : Z) : M Z :=
  if ralloc_ctx =? 0 then ret 0
  else
    let size := ALIGN_POT size SUBALLOC_ALIGNMENT in
    let* node := create_linear_node ralloc_ctx size in
    if node =? 0 then ret 0
    else linear_alloc_child (node + sizeof_linear_header + sizeof_linear_size_chunk) size.

Definition linear_zalloc_child (parent size : Z) : M Z :=
  let* ptr := linear_alloc_child parent size in
  when (negb (ptr =? 0)) (memset ptr 0 size) ;;
  ret ptr.

Definition linear_zalloc_parent (parent size : Z) : M Z :=
  let* ptr := linear_alloc_parent parent size in
  when (negb (ptr =? 0)) (memset ptr 0 size) ;;
  ret ptr.

(** ** The chain of buffers *)

(** One round more than there are buffers. *)
Definition buffers : M nat := fun h => Ret (S (size (lins h)), h).

Fixpoint free_nodes (fuel : nat) (node : Z) : M unit :=
  match fuel with
  | O => out_of_fuel
  | S fuel =>
      if node =? 0 then ret tt
      else
        let* b := deref_lin node in
        ralloc_free node ;;
        free_nodes fuel (lin_next b)
  end.

Definition linear_free_parent (ptr : Z) : M unit :=
  when (negb (ptr =? 0))
   (let node := LINEAR_PARENT_TO_HEADER ptr in
    let* b := deref_lin node in
    m_assert (magic b =? LMAGIC) ;;
    let* n := buffers in
    free_nodes n node).

Fixpoint steal_nodes (fuel : nat) (new_ralloc_ctx node : Z) : M unit :=
  match fuel with
  | O => out_of_fuel
  | S fuel =>
      if node =? 0 then ret tt
      else
        ralloc_steal new_ralloc_ctx node ;;
        modify_lin node (fun b => b <| lin_ralloc_parent := new_ralloc_ctx |>) ;;
        let* b := deref_lin node in
        steal_nodes fuel new_ralloc_ctx (lin_next b)
  end.

Definition ralloc_steal_linear_parent (new_ralloc_ctx ptr : Z) : M unit :=
  when (negb (ptr =? 0))
   (let node := LINEAR_PARENT_TO_HEADER ptr in
    let* b := deref_lin node in
    m_assert (magic b =? LMAGIC) ;;
    let* n := buffers in
    steal_nodes n new_ralloc_ctx node).

Definition ralloc_parent_of_linear_parent (ptr : Z) : M Z :=
  let* b := deref_lin (LINEAR_PARENT_TO_HEADER ptr) in
  m_assert (magic b =? LMAGIC) ;;
  ret (lin_ralloc_parent b).

Definition linear_realloc (parent old new_size : Z) : M Z :=
  let* new_ptr := linear_alloc_child parent new_size in
  if old =? 0 then ret new_ptr
  else
    let* old_size := load32 (old - sizeof_linear_size_chunk) in
    when (negb (new_ptr =? 0) && negb (old_size =? 0)) (memcpy new_ptr old (Z.min old_size new_size)) ;;
    ret new_ptr.

(** ** Strings *)

Definition linear_strdup (parent str : Z) : M Z :=
  if str =? 0 then ret 0
  else
    let* len := strlen str in
    let n := u32 len in
    let* ptr := linear_alloc_child parent (u32 (n + 1)) in
    if ptr =? 0 then ret 0
    else
      memcpy ptr str n ;;
      store (ptr + n) 0 ;;
      ret ptr.

Definition linear_vasprintf (parent : Z) (text : list Z) : M Z :=
  let* n := printf_length text in
  let size := u32 (n + 1) in
  let* ptr := linear_alloc_child parent size in
  when (negb (ptr =? 0)) (vsnprintf ptr size text) ;;
  ret ptr.

Definition linear_asprintf (parent : Z) (text : list Z) : M Z := linear_vasprintf parent text.

Definition linear_vasprintf_rewrite_tail (parent str start : Z) (text : list Z) : M (bool * Z * Z) :=
  if str =? 0 then
    let* str := linear_vasprintf parent text in
    let* start := strlen str in
    ret (true, str, start)
  else
    let* new_length := printf_length text in
    let* ptr := linear_realloc parent str (u32 (start + new_length + 1)) in
    if ptr =? 0 then ret (false, str, start)
    else
      vsnprintf (ptr + start) (u64 (new_length + 1)) text ;;
      ret (true, ptr, u64 (start + new_length)).

Definition linear_asprintf_rewrite_tail (parent str start : Z) (text : list Z) : M (bool * Z * Z) :=
  linear_vasprintf_rewrite_tail parent str start text.

Definition linear_vasprintf_append (parent str : Z) (text : list Z) : M (bool * Z) :=
  let* existing_length := if negb (str =? 0) then strlen str else ret 0 in
  let* (r, str, _) := linear_vasprintf_rewrite_tail parent str existing_length text in
  ret (r, str).

Definition linear_asprintf_append (parent str : Z) (text : list Z) : M (bool * Z) := linear_vasprintf_append parent str text.

Definition linear_cat (parent dest str n : Z) : M (bool * Z) :=
  m_assert (negb (dest =? 0)) ;;
  let* len := strlen dest in
  let existing_length := u32 len in
  let* both := linear_realloc parent dest (u32 (existing_length + n + 1)) in
  if both =? 0 then ret (false, dest)
  else
    memcpy (both + existing_length) str n ;;
    store (both + u32 (existing_length + n)) 0 ;;
    ret (true, both).

Definition linear_strcat (parent dest str : Z) : M (bool * Z) := let* n := strlen str in linear_cat parent dest str (u32 n).
