(* ===== verification/RallocArena.v ===== *)
(** * The linear allocator: theorems

    Pieces given out by [linear_alloc_child] are aligned, lie in buffers that
    are children of the same context, and never overlap. *)

From stdpp Require Import base gmap numbers list.
From Stdlib Require Import ZArith Lia.
From S2P Require Import Prelude StateM Ralloc RallocForest RallocLinks RallocReparent RallocHeap.
From S2P Require Import RallocOps RallocProps RallocLinear.
#[local] Open Scope bool_scope.
#[local] Open Scope Z_scope.
#[local] Open Scope c_scope.
#[local] Open Scope state_scope.

(** ** Accesses *)

Lemma wp_deref_lin node b Q h : lins h !! (node - sizeof_ralloc_header) = Some b -> Q b h -> wp (deref_lin node) Q h.
Proof. intros E HQ. unfold wp, deref_lin. now rewrite E. Qed.

Lemma wp_modify_lin node g Q h : is_Some (lins h !! (node - sizeof_ralloc_header)) ->
  Q tt (h <| lins := alter g (node - sizeof_ralloc_header) (lins h) |>) -> wp (modify_lin node g) Q h.
Proof. intros [b E] HQ. unfold wp, modify_lin. now rewrite E, <- (alter_insert g _ _ b E) in *. Qed.

(** A change that keeps the forest. *)
Lemma holds_lins f h l : holds f h -> holds f (h <| lins := l |>).
Proof. intros [H1 H2 [H3 H4 H5]]. split; [exact H1 | exact H2|]. split; [exact H3 | exact H4 | exact H5]. Qed.

(** ** Sizes *)

Lemma align_pot_8 x : 0 <= x < 2 ^ 31 -> ALIGN_POT x SUBALLOC_ALIGNMENT = 8 * ((x + 7) / 8).
Proof.
  intros Hx. unfold ALIGN_POT, SUBALLOC_ALIGNMENT. rewrite wrap_small by lia. change (u32 (Z.lnot (8 - 1))) with (Z.shiftl (Z.ones 29) 3).
  replace (x + 8 - 1) with (x + 7) by lia.
  assert (E : Z.land (x + 7) (Z.shiftl (Z.ones 29) 3) = Z.shiftl (Z.land (Z.shiftr (x + 7) 3) (Z.ones 29)) 3).
  { apply Z.bits_inj'. intros i Hi. rewrite Z.land_spec, !Z.shiftl_spec, Z.land_spec by lia. destruct (Z.lt_ge_cases i 3).
    - rewrite !Z.testbit_neg_r with (n := i - 3) by lia. now rewrite andb_false_r.
    - rewrite Z.shiftr_spec by lia. now replace (i - 3 + 3) with i by lia. }
  rewrite E, Z.land_ones, Z.shiftl_mul_pow2, Z.shiftr_div_pow2 by lia. change (2 ^ 3) with 8. rewrite Z.mod_small; [lia|].
  split; [apply Z.div_pos; lia|]. apply Z.div_lt_upper_bound; lia.
Qed.

(** The bytes of a piece, without the word before it. *)
Definition padded (size : Z) : Z := 8 * ((size + 7) / 8).

Lemma padded_range size : 0 <= size <= 2 ^ 31 - 16 -> size <= padded size <= 2 ^ 31 - 16 /\ padded size mod 8 = 0.
Proof.
  intros Hs. unfold padded. pose proof (Z.div_mod (size + 7) 8 ltac:(lia)). pose proof (Z.mod_pos_bound (size + 7) 8 ltac:(lia)). split; [|rewrite Z.mul_comm; apply Z.mod_mul; lia].
  split; [lia|]. assert ((size + 7) / 8 <= 2 ^ 28 - 2); [|lia]. apply Z.lt_succ_r, Z.div_lt_upper_bound; lia.
Qed.

(** ** A new buffer *)

Section new_buffer.
Context (f : forest) (h : heap) (H : holds f h) (rp : Z) (Hctx : live f (block_of rp)).


Definition buffer_size (size : Z) : Z := Z.max MIN_LINEAR_BUFSIZE (8 + size).
Definition node_size (size : Z) : Z := sizeof_linear_header + buffer_size size + sizeof_ralloc_header.

Lemma f_alloc_up q a x : f !! a = None -> a <> 0 -> q = 0 \/ live f q -> up (f_alloc q a f) x = if decide (x = a) then q else up f x.
Proof using H Hctx.
  intros Ha Ha0 Hq. pose proof (holds_wf f h H) as Hwf. unfold f_alloc.
  assert (HL : relinked q a (f_new a f) (f_link q a (f_new a f))).
  { apply f_link_relinked; [now apply f_new_wf | apply live_new; now left | rewrite up_new by assumption; unfold up; now rewrite Ha|]. destruct Hq; [now left | right; apply live_new; now right]. }
  fold (f_new a f). rewrite (rl_up _ _ _ _ HL), up_new by assumption. reflexivity.
Qed.

(** The heap with one more block, without the links to it. *)
Definition grown (hs : gmap Z ralloc_header) (size : Z) : heap :=
  (alloc_heap h hs (node_size size)) <| lins := <[answer h := LinearHeader LMAGIC 0 (buffer_size size) rp 0 (PTR_FROM_HEADER (answer h))]> (lins h) |>.

Lemma wp_create_linear_node size (Q : Z -> heap -> Prop) : 0 <= size <= 2 ^ 31 - 16 -> malloc_fresh h (node_size size) ->
  (answer h = 0 -> Q 0 (h <| supply := tail (supply h) |>)) ->
  (answer h <> 0 -> f !! answer h = None -> forall hs, holds (f_alloc (block_of rp) (answer h) f) (grown hs size) -> Q (PTR_FROM_HEADER (answer h)) (grown hs size)) ->
  wp (create_linear_node rp size) Q h.
Proof using H Hctx.
  intros Hs Hf HQ0 HQ. unfold create_linear_node, sizeof_linear_size_chunk. rewrite (wrap_small 32 (size + 8)) by lia.
  assert (Em : (if size + 8 <? MIN_LINEAR_BUFSIZE then MIN_LINEAR_BUFSIZE else size + 8) = buffer_size size) by (unfold buffer_size; destruct (Z.ltb_spec (size + 8) MIN_LINEAR_BUFSIZE); lia).
  cbv zeta. rewrite Em. assert (Hb : 0 <= buffer_size size <= 2 ^ 31 - 8) by (unfold buffer_size, MIN_LINEAR_BUFSIZE; lia).
  apply wp_bind, (wp_ralloc_size f h H rp).
  - now right.
  - unfold sizeof_linear_header. lia.
  - unfold sizeof_linear_header, sizeof_ralloc_header. lia.
  - exact Hf.
  - intros E. cbn [Z.eqb]. apply wp_ret. auto.
  - intros Ha Hfresh hs Hh. assert (Hpos : 0 < answer h) by (unfold malloc_fresh, answer in *; destruct (supply h); cbn in *; [done|]; destruct Hf as [|[]]; [done | assumption]).
    rewrite (proj2 (Z.eqb_neq (PTR_FROM_HEADER (answer h)) 0)) by (unfold PTR_FROM_HEADER, sizeof_ralloc_header; lia).
    apply wp_bind, (wp_intro _ _ _ tt (grown hs size)); [|apply wp_ret; apply HQ; [assumption..|]; now apply holds_lins].
    unfold put_lin. replace (PTR_FROM_HEADER (answer h) - sizeof_ralloc_header) with (answer h) by (unfold PTR_FROM_HEADER; lia).
    unfold alloc_heap at 1. cbn [chunks]. rewrite lookup_insert_eq, (proj2 (Z.leb_le _ _)); [reflexivity|]. lia.
Qed.
End new_buffer.

(** ** The buffers of a parent *)

Record buffer_ok (f : forest) (h : heap) (rp n : Z) (b : linear_header) : Prop := {
  bo_lin : lins h !! (n - sizeof_ralloc_header) = Some b;
  bo_magic : magic b = LMAGIC;
  bo_offset : 0 <= offset b <= lin_size b;
  bo_offset_aligned : offset b mod 8 = 0;
  bo_size : lin_size b <= 2 ^ 31 - 8;
  bo_ctx : lin_ralloc_parent b = rp;
  bo_chunk : chunks h !! (n - sizeof_ralloc_header) = Some (sizeof_ralloc_header + sizeof_linear_header + lin_size b);
  bo_child : up f (n - sizeof_ralloc_header) = block_of rp;
  bo_aligned : n mod 8 = 0
}.

(** The buffers [ns] of one parent, the first of them its handle. *)
Record arena (f : forest) (h : heap) (rp : Z) (ns : list Z) : Prop := {
  ar_holds : holds f h;
  ar_ctx : live f (block_of rp);
  ar_nonempty : ns <> [];
  ar_nodup : NoDup ns;
  ar_buffer : forall n, n ∈ ns -> exists b, buffer_ok f h rp n b /\ lin_next b = next_in ns n;
  ar_latest : exists b, lins h !! (head0 ns - sizeof_ralloc_header) = Some b /\ latest b = last_from 0 ns
}.

(** The bytes given out so far. *)
Definition used (h : heap) (ns : list Z) (i : Z) : Prop := exists n b, n ∈ ns /\ lins h !! (n - sizeof_ralloc_header) = Some b /\
  n + sizeof_linear_header <= i < n + sizeof_linear_header + offset b.

Lemma next_in_last ns : NoDup ns -> 0 ∉ ns -> next_in ns (last_from 0 ns) = 0.
Proof.
  intros Hnd H0. destruct (list.last ns) as [x|] eqn:E.
  - apply last_Some in E as [l ->]. unfold last_from. rewrite last_snoc. cbn. apply list.NoDup_app in Hnd as (_ & Hnd & _). apply next_in_mid. intros Hin. apply (Hnd x Hin). set_solver.
  - apply last_None in E as ->. reflexivity.
Qed.

Lemma last_in ns : ns <> [] -> last_from 0 ns ∈ ns.
Proof.
  intros Hne. destruct (list.last ns) as [x|] eqn:E; [|now apply last_None in E].
  unfold last_from. rewrite E. cbn. now apply last_Some_elem_of.
Qed.

Lemma head_in (ns : list Z) : ns <> [] -> head0 ns ∈ ns.
Proof. destruct ns; [done|]. cbn. set_solver. Qed.

Lemma head_app (ns : list Z) n : ns <> [] -> head0 (ns ++ [n]) = head0 ns.
Proof. now destruct ns. Qed.

Section arena.
Context (f : forest) (h : heap) (rp : Z) (ns : list Z) (A : arena f h rp ns).

Lemma node_positive n : n ∈ ns -> sizeof_ralloc_header < n.
Proof using A.
  intros Hn. destruct (ar_buffer f h rp ns A n Hn) as (b & Hb & _). pose proof (ok_chunk h (holds_ok f h (ar_holds f h rp ns A)) _ _ (bo_chunk _ _ _ _ _ Hb)). lia.
Qed.

Lemma node_not_null : 0 ∉ ns.
Proof using A. intros H0. apply node_positive in H0. unfold sizeof_ralloc_header in H0. lia. Qed.

Lemma used_mem i : used h ns i -> is_Some (mem h !! i).
Proof using A.
  intros (n & b & Hn & Hb & Hi). destruct (ar_buffer f h rp ns A n Hn) as (b' & Hb' & _). pose proof (bo_lin _ _ _ _ _ Hb') as E. rewrite Hb in E. injection E as <-.
  destruct (ok_chunk h (holds_ok f h (ar_holds f h rp ns A)) _ _ (bo_chunk _ _ _ _ _ Hb')) as (_ & _ & Hm). apply Hm. pose proof (bo_offset _ _ _ _ _ Hb').
  unfold sizeof_ralloc_header, sizeof_linear_header in *. lia.
Qed.

(** *** Giving out a piece of the latest buffer *)

Let lst : Z := last_from 0 ns.

Lemma wp_piece b size (Q : Z -> heap -> Prop) : buffer_ok f h rp lst b -> 0 <= size -> size mod 8 = 0 -> offset b + (8 + size) <= lin_size b ->
  (forall h', arena f h' rp ns -> (forall i, used h' ns i <-> used h ns i \/ lst + 48 + offset b <= i < lst + 48 + offset b + (8 + size)) ->
    (forall i, ~ (lst + 48 + offset b <= i < lst + 48 + offset b + 8) -> mem h' !! i = mem h !! i) -> events h' = events h ->
    Q (lst + 48 + offset b + 8) h') ->
  wp (let* l := deref_lin lst in
      let ptr := lst + sizeof_linear_header + offset l in
      store32 ptr size ;;
      modify_lin lst (fun b => b <| offset := u32 (offset l + u32 (sizeof_linear_size_chunk + size)) |>) ;;
      m_assert ((ptr + sizeof_linear_size_chunk) mod SUBALLOC_ALIGNMENT =? 0) ;;
      ret (ptr + sizeof_linear_size_chunk)) Q h.
Proof using A.
  intros Hb Hs0 Hs8 Hfit HQ. pose proof (bo_lin _ _ _ _ _ Hb) as El. pose proof (bo_offset _ _ _ _ _ Hb) as Ho. pose proof (bo_size _ _ _ _ _ Hb) as Hsz.
  destruct (ok_chunk h (holds_ok f h (ar_holds f h rp ns A)) _ _ (bo_chunk _ _ _ _ _ Hb)) as (_ & _ & Hm).
  apply wp_bind, (wp_deref_lin _ _ _ _ El). cbv zeta. apply wp_bind, wp_stores; [intros i Hi; cbn in Hi; apply Hm; unfold sizeof_ralloc_header, sizeof_linear_header in *; lia|].
  set (h1 := h <| mem := _ |>). apply wp_bind, wp_modify_lin; [change (lins h1) with (lins h); rewrite El; now eexists|].
  unfold sizeof_linear_size_chunk. rewrite (wrap_small 32 (8 + size)), (wrap_small 32 (offset b + (8 + size))) by lia.
  apply wp_bind, wp_assert.
  { apply Z.eqb_eq. unfold sizeof_linear_header, SUBALLOC_ALIGNMENT. pose proof (bo_aligned _ _ _ _ _ Hb). pose proof (bo_offset_aligned _ _ _ _ _ Hb).
    rewrite (Z.add_mod _ 8), (Z.add_mod _ (offset b)), (Z.add_mod lst 48) by lia. now replace (lst mod 8) with 0; replace (offset b mod 8) with 0. }
  apply wp_ret. pose proof (last_in ns (ar_nonempty f h rp ns A)) as Hlst. fold lst in Hlst.
  assert (Hg : forall n, lins (h1 <| lins := alter (fun c => c <| offset := offset b + (8 + size) |>) (lst - sizeof_ralloc_header) (lins h1) |>) !! (n - sizeof_ralloc_header)
    = (fun c => if decide (n = lst) then c <| offset := offset b + (8 + size) |> else c) <$> lins h !! (n - sizeof_ralloc_header)).
  { intros n. change (lins h1) with (lins h). unfold update at 1. cbn [lins]. rewrite lookup_alter_at. destruct (lins h !! (n - sizeof_ralloc_header)); [|reflexivity]. cbn [fmap option_fmap option_map]. f_equal.
    destruct (decide (n = lst)) as [->|Hn]; [now rewrite decide_True | rewrite decide_False by (intros E; apply Hn; lia); reflexivity]. }
  set (h2 := h1 <| lins := _ |>) in *. apply HQ; [| | |reflexivity].
  - split; [apply holds_lins, holds_written, (ar_holds _ _ _ _ A) | apply (ar_ctx _ _ _ _ A) | apply (ar_nonempty _ _ _ _ A) | apply (ar_nodup _ _ _ _ A) | |].
    + intros n Hn. destruct (ar_buffer _ _ _ _ A n Hn) as (c & Hc & Enx). exists (if decide (n = lst) then c <| offset := offset b + (8 + size) |> else c).
      split; [|destruct (decide (n = lst)); exact Enx]. destruct Hc as [C1 C2 C3 C4 C5 C6 C7 C8 C9]. pose proof (Hg n) as E. rewrite C1 in E. destruct (decide (n = lst)) as [->|Hne]; [|split; assumption].
      rewrite El in C1. injection C1 as <-. split; try assumption; cbn; [lia|]. rewrite Z.add_mod, C4, (Z.add_mod 8 size), Hs8 by lia. reflexivity.
    + destruct (ar_latest _ _ _ _ A) as (c & Hc & Ec). eexists. rewrite Hg, Hc. split; [reflexivity|]. destruct (decide (head0 ns = lst)); exact Ec.
  - intros i. unfold used. setoid_rewrite Hg. split.
    + intros (n & c & Hn & Hc & Hi). destruct (lins h !! (n - sizeof_ralloc_header)) as [c0|] eqn:E0; [|discriminate]. cbn in Hc. injection Hc as <-.
      destruct (decide (n = lst)) as [->|Hne]; [|left; eauto]. rewrite El in E0. injection E0 as <-. cbn in Hi. unfold sizeof_linear_header in *.
      destruct (Z.lt_ge_cases i (lst + 48 + offset b)); [left; exists lst, b; unfold sizeof_linear_header; repeat split; [assumption..|lia|lia] | right; lia].
    + intros [(n & c & Hn & Hc & Hi)|Hi].
      * eexists n, _. rewrite Hc. split; [assumption|]. split; [reflexivity|]. destruct (decide (n = lst)) as [->|]; [|assumption]. rewrite El in Hc. injection Hc as <-. cbn. unfold sizeof_linear_header in *. lia.
      * eexists lst, _. rewrite El. split; [assumption|]. split; [reflexivity|]. rewrite decide_True by reflexivity. cbn. unfold sizeof_linear_header. lia.
  - intros i Hi. apply written_other. cbn. unfold sizeof_linear_header. lia.
Qed.

Lemma node_live n : n ∈ ns -> live f (n - sizeof_ralloc_header).
Proof using A.
  intros Hn. destruct (ar_buffer _ _ _ _ A n Hn) as (b & Hb & _). destruct (ar_holds _ _ _ _ A) as [_ HR Hok].
  apply (rep_dom f (hdrs h)); [assumption|]. apply (ok_dom h Hok). rewrite (bo_chunk _ _ _ _ _ Hb). now eexists.
Qed.

(** *** A new buffer of the parent *)

Section grow.
Context (size : Z) (Hs : 0 <= size <= 2 ^ 31 - 16) (a : Z) (Ea : a = answer h) (Ha : 0 < a) (Hal : a mod 8 = 0) (Hf : f !! a = None).
Context (Hfresh : forall i, a <= i < a + node_size size -> mem h !! i = None).
Local Abbreviation node := (PTR_FROM_HEADER a).
Local Abbreviation f' := (f_alloc (block_of rp) a f).

(** The links to the new buffer from the first and the latest one. *)
Definition linked_lins : gmap Z linear_header :=
  alter (fun b => b <| lin_next := node |>) (lst - sizeof_ralloc_header)
   (alter (fun b => b <| latest := node |>) (lst - sizeof_ralloc_header)
     (alter (fun b => b <| latest := node |>) (head0 ns - sizeof_ralloc_header)
       (<[a := LinearHeader LMAGIC 0 (buffer_size size) rp 0 node]> (lins h)))).

Lemma node_key n : n ∈ ns -> n - sizeof_ralloc_header <> a.
Proof using A Hf. intros Hn E. destruct (node_live n Hn) as [x Hx]. congruence. Qed.

Let first_in : head0 ns ∈ ns := head_in ns (ar_nonempty _ _ _ _ A).

Lemma linked_old n b : n ∈ ns -> lins h !! (n - sizeof_ralloc_header) = Some b -> exists b', linked_lins !! (n - sizeof_ralloc_header) = Some b' /\
  magic b' = magic b /\ offset b' = offset b /\ lin_size b' = lin_size b /\ lin_ralloc_parent b' = lin_ralloc_parent b /\
  lin_next b' = (if decide (n = lst) then node else lin_next b) /\ (n = head0 ns -> latest b' = node).
Proof using A Hf.
  intros Hn Hb. unfold linked_lins. rewrite !lookup_alter_at, lookup_insert_ne, Hb by (intros E; symmetry in E; now apply (node_key n Hn)).
  cbn [fmap option_fmap option_map]. eexists. split; [reflexivity|].
  destruct (decide (n - sizeof_ralloc_header = lst - sizeof_ralloc_header)) as [E1|E1], (decide (n - sizeof_ralloc_header = head0 ns - sizeof_ralloc_header)) as [E2|E2];
    destruct (decide (n = lst)); try lia; unfold update; cbn; repeat split; auto; lia.
Qed.

Lemma linked_new : linked_lins !! a = Some (LinearHeader LMAGIC 0 (buffer_size size) rp 0 node).
Proof using A Hf.
  pose proof (node_key _ first_in) as H1. pose proof (node_key _ (last_in ns (ar_nonempty _ _ _ _ A))) as H2. fold lst in H2.
  unfold linked_lins. rewrite !lookup_alter_at, lookup_insert_eq. cbn [fmap option_fmap option_map]. now rewrite !decide_False by congruence.
Qed.

Lemma node_new : node ∉ ns.
Proof using A Hf. intros Hn. apply (node_key _ Hn). unfold PTR_FROM_HEADER. lia. Qed.

Lemma grown_arena hs : holds f' (grown h rp hs size) -> arena f' ((grown h rp hs size) <| lins := linked_lins |>) rp (ns ++ [node]).
Proof using A Hf Ha Hal Ea Hs.
  intros Hh. pose proof (ar_nodup _ _ _ _ A) as Hnd. pose proof (ar_ctx _ _ _ _ A) as Hctx. pose proof (holds_wf f h (ar_holds _ _ _ _ A)) as Hwf.
  assert (Hup : forall x, up f' x = if decide (x = a) then block_of rp else up f x) by (intros x; apply (f_alloc_up f h (ar_holds _ _ _ _ A) rp Hctx); [assumption | lia | now right]).
  split; [now apply holds_lins | | now intros []%app_nil | | |].
  - destruct (f_alloc_wf f h (ar_holds _ _ _ _ A) (block_of rp) a Hf) as [_ Hl]; [lia | now right|]. apply Hl. now right.
  - apply list.NoDup_app. split; [assumption|]. split; [|apply NoDup_singleton]. intros x Hx Hx'. apply list_elem_of_singleton in Hx' as ->. now apply node_new.
  - intros n Hn. rewrite next_in_app by assumption. unfold grown, alloc_heap. rewrite <- Ea. apply elem_of_app in Hn as [Hn|Hn].
    + rewrite decide_True by assumption. destruct (ar_buffer _ _ _ _ A n Hn) as (b & [C1 C2 C3 C4 C5 C6 C7 C8 C9] & Enx). destruct (linked_old n b Hn C1) as (b' & E & E1 & E2 & E3 & E4 & E5 & _).
      exists b'. split; [|rewrite E5; change (last_from 0 ns) with lst; destruct (decide (n = lst)); [reflexivity | exact Enx]]. rewrite <- E1, <- E2, <- E3, <- E4 in *. split; try assumption.
      * cbn. rewrite lookup_insert_ne by (intros X; symmetry in X; now apply (node_key n Hn)). exact C7.
      * rewrite Hup, decide_False by now apply node_key. assumption.
    + apply list_elem_of_singleton in Hn as ->. rewrite decide_False by apply node_new. eexists. assert (Ek : node - sizeof_ralloc_header = a) by (unfold PTR_FROM_HEADER; lia). split.
      * split; rewrite ?Ek; [exact linked_new|..]; cbn; try reflexivity; try (unfold buffer_size, MIN_LINEAR_BUFSIZE; lia).
        -- rewrite lookup_insert_eq. f_equal. unfold node_size. lia.
        -- now rewrite Hup, decide_True.
        -- unfold PTR_FROM_HEADER, sizeof_ralloc_header. rewrite Z.add_mod, Hal by lia. reflexivity.
      * cbn. now rewrite decide_True.
  - destruct (ar_latest _ _ _ _ A) as (b & Hb & _). destruct (linked_old _ b first_in Hb) as (b' & E & _ & _ & _ & _ & _ & El). exists b'.
    rewrite head_app by apply (ar_nonempty _ _ _ _ A). split; [exact E|].
    rewrite El by reflexivity. unfold last_from. now rewrite last_snoc.
Qed.

Lemma grown_used hs i : used ((grown h rp hs size) <| lins := linked_lins |>) (ns ++ [node]) i <-> used h ns i.
Proof using A Ea Ha Hal Hf Hfresh Hs.
  unfold used. change (lins ((grown h rp hs size) <| lins := linked_lins |>)) with linked_lins. split.
  - intros (n & c & Hn & Hc & Hi). apply elem_of_app in Hn as [Hn|Hn].
    + destruct (ar_buffer _ _ _ _ A n Hn) as (b & Hb & _). destruct (linked_old n b Hn (bo_lin _ _ _ _ _ Hb)) as (b' & E & _ & E2 & _). rewrite E in Hc. injection Hc as <-.
      exists n, b. split; [assumption|]. split; [apply (bo_lin _ _ _ _ _ Hb) | congruence].
    + apply list_elem_of_singleton in Hn as ->. replace (node - sizeof_ralloc_header) with a in Hc by (unfold PTR_FROM_HEADER; lia). rewrite linked_new in Hc. injection Hc as <-. cbn in Hi. lia.
  - intros (n & b & Hn & Hb & Hi). destruct (linked_old n b Hn Hb) as (b' & E & _ & E2 & _). exists n, b'. split; [set_solver|]. split; [assumption | congruence].
Qed.

Lemma grown_mem hs i : is_Some (mem h !! i) -> mem ((grown h rp hs size) <| lins := linked_lins |>) !! i = mem h !! i.
Proof using Ea Hfresh.
  intros [v Hv]. unfold grown, alloc_heap. cbn. rewrite reserve_lookup, decide_False; [reflexivity|]. rewrite <- Ea. intros Hi. rewrite Hfresh in Hv by assumption. discriminate.
Qed.
End grow.

(** What holds after the search for room: the buffer [n] with header [b]. *)
Definition room_post (size : Z) (Q : Z -> heap -> Prop) : Prop := forall f' h' ns' b,
  arena f' h' rp ns' -> buffer_ok f' h' rp (last_from 0 ns') b -> offset b + (8 + size) <= lin_size b ->
  head0 ns' = head0 ns -> (forall i, used h' ns' i <-> used h ns i) -> (forall i, is_Some (mem h !! i) -> mem h' !! i = mem h !! i) ->
  (forall b0, lins h !! (lst - sizeof_ralloc_header) = Some b0 -> offset b0 + (8 + size) <= lin_size b0 -> ns' = ns /\ b = b0) ->
  Q (last_from 0 ns') h'.

Lemma wp_room size (Q : Z -> heap -> Prop) : 0 <= size <= 2 ^ 31 - 16 -> malloc_fresh h (node_size size) -> answer h mod 8 = 0 ->
  (forall b, buffer_ok f h rp lst b -> lin_size b < offset b + (8 + size) -> answer h = 0 -> Q 0 (h <| supply := tail (supply h) |>)) -> room_post size Q -> wp (linear_room (head0 ns) lst size (8 + size)) Q h.
Proof using A.
  intros Hs Hf Hal HQ0 HQ. pose proof (ar_nonempty _ _ _ _ A) as Hne. pose proof (last_in ns Hne) as Hlst. fold lst in Hlst.
  destruct (ar_buffer _ _ _ _ A lst Hlst) as (b & Hb & _). pose proof (bo_offset _ _ _ _ _ Hb). pose proof (bo_size _ _ _ _ _ Hb).
  unfold linear_room. apply wp_bind, (wp_deref_lin _ _ _ _ (bo_lin _ _ _ _ _ Hb)). rewrite wrap_small by lia. rewrite Z.gtb_ltb.
  destruct (Z.ltb_spec (lin_size b) (offset b + (8 + size))) as [Hfull|Hfit].
  2: { apply wp_ret. apply (HQ f h ns b); auto. intros b0 Hb0 _. rewrite (bo_lin _ _ _ _ _ Hb) in Hb0. split; congruence. }
  rewrite (bo_ctx _ _ _ _ _ Hb). apply wp_bind, (wp_create_linear_node f h (ar_holds _ _ _ _ A) rp (ar_ctx _ _ _ _ A)); [assumption..| |].
  - intros E0. cbn [Z.eqb]. apply wp_ret. now apply (HQ0 b).
  - intros Ha Hfr hs Hh. assert (Hpos : 0 < answer h /\ forall i, answer h <= i < answer h + node_size size -> mem h !! i = None)
      by (unfold malloc_fresh, answer in *; destruct (supply h); cbn in *; [done|]; destruct Hf as [|Hf]; [done | assumption]). destruct Hpos as [Hpos Hfresh].
    rewrite (proj2 (Z.eqb_neq (PTR_FROM_HEADER (answer h)) 0)) by (unfold PTR_FROM_HEADER, sizeof_ralloc_header; lia).
    assert (Hk : forall n, n ∈ ns -> is_Some (lins (grown h rp hs size) !! (n - sizeof_ralloc_header))).
    { intros n Hn. destruct (ar_buffer _ _ _ _ A n Hn) as (c & Hc & _). cbn. apply lookup_insert_is_Some'. right. rewrite (bo_lin _ _ _ _ _ Hc). now eexists. }
    apply wp_bind, wp_modify_lin; [now apply Hk, head_in|]. apply wp_bind, wp_modify_lin; [cbn; rewrite lookup_alter_at, fmap_is_Some; now apply Hk|].
    apply wp_bind, wp_modify_lin; [cbn; rewrite !lookup_alter_at, !fmap_is_Some; now apply Hk|]. apply wp_ret.
    set (new := PTR_FROM_HEADER (answer h)). assert (El : last_from 0 (ns ++ [new]) = new) by (unfold last_from; now rewrite last_snoc).
    pose proof (grown_arena size Hs (answer h) eq_refl Hpos Hal Hfr hs Hh) as HA.
    destruct (ar_buffer _ _ _ _ HA new) as (c & Hc & _); [set_solver|]. pose proof (bo_lin _ _ _ _ _ Hc) as E. replace (new - sizeof_ralloc_header) with (answer h) in E by (unfold new, PTR_FROM_HEADER; lia).
    cbn [lins] in E. change (linked_lins size (answer h) !! answer h = Some c) in E. rewrite (linked_new size (answer h) Hfr) in E. injection E as <-.
    rewrite <- El at 1. eapply (HQ _ _ (ns ++ [new])); [exact HA | rewrite El; exact Hc | cbn; unfold buffer_size; lia | now apply head_app | | |].
    + intros i. now apply (grown_used size Hs (answer h) eq_refl Hpos Hal Hfr Hfresh).
    + intros i. now apply (grown_mem size (answer h) eq_refl Hfresh).
    + intros b0 Hb0. rewrite (bo_lin _ _ _ _ _ Hb) in Hb0. injection Hb0 as <-. lia.
Qed.

(** Room that is left in the latest buffer was not given out. *)
Lemma room_not_used b i : buffer_ok f h rp lst b -> lst + 48 + offset b <= i < lst + 48 + lin_size b -> ~ used h ns i.
Proof using A.
  intros Hb Hi (n & c & Hn & Hc & Hu). destruct (ar_buffer _ _ _ _ A n Hn) as (c' & Hc' & _). pose proof (bo_lin _ _ _ _ _ Hc') as E. rewrite Hc in E. injection E as <-.
  unfold sizeof_linear_header in *. destruct (decide (n = lst)) as [->|Hne].
  - rewrite (bo_lin _ _ _ _ _ Hb) in Hc. injection Hc as <-. lia.
  - destruct (ok_disj h (holds_ok f h (ar_holds _ _ _ _ A)) _ _ _ _ (bo_chunk _ _ _ _ _ Hb) (bo_chunk _ _ _ _ _ Hc')); [lia|..];
      pose proof (bo_offset _ _ _ _ _ Hc'); pose proof (bo_offset _ _ _ _ _ Hb); unfold sizeof_ralloc_header, sizeof_linear_header in *; lia.
Qed.
End arena.

(** ** Allocation of a piece *)

(** The piece [p] of [size] bytes after its size word, with the word. *)
Definition piece (p size i : Z) : Prop := p - 8 <= i < p + padded size.

Record alloc_post (f : forest) (h : heap) (rp : Z) (ns : list Z) (size p : Z) (f' : forest) (h' : heap) (ns' : list Z) : Prop := {
  ap_arena : arena f' h' rp ns';
  ap_head : head0 ns' = head0 ns;
  ap_aligned : p mod 8 = 0;
  ap_used : forall i, used h' ns' i <-> used h ns i \/ piece p size i;
  ap_fresh : forall i, piece p size i -> ~ used h ns i;
  ap_mem : forall i, used h ns i -> mem h' !! i = mem h !! i;
  ap_place : forall b, lins h !! (last_from 0 ns - sizeof_ralloc_header) = Some b -> offset b + (8 + padded size) <= lin_size b ->
    p = last_from 0 ns + 48 + offset b + 8
}.

Lemma wp_linear_alloc_child f h rp ns size (Q : Z -> heap -> Prop) : arena f h rp ns -> 0 <= size <= 2 ^ 31 - 16 ->
  malloc_fresh h (node_size (padded size)) -> answer h mod 8 = 0 ->
  (forall b, buffer_ok f h rp (last_from 0 ns) b -> lin_size b < offset b + (8 + padded size) -> answer h = 0 -> Q 0 (h <| supply := tail (supply h) |>)) ->
  (forall p f' h' ns', p <> 0 -> alloc_post f h rp ns size p f' h' ns' -> Q p h') ->
  wp (linear_alloc_child (head0 ns + sizeof_linear_header + sizeof_linear_size_chunk) size) Q h.
Proof.
  intros A Hs Hf Hal HQ0 HQ. destruct (padded_range size Hs) as [Hp Hp8]. unfold linear_alloc_child.
  replace (LINEAR_PARENT_TO_HEADER (head0 ns + sizeof_linear_header + sizeof_linear_size_chunk)) with (head0 ns) by (unfold LINEAR_PARENT_TO_HEADER; lia).
  pose proof (ar_nonempty _ _ _ _ A) as Hne. destruct (ar_latest _ _ _ _ A) as (b1 & Hb1 & El). destruct (ar_buffer _ _ _ _ A _ (head_in ns Hne)) as (b1' & Hb1' & _).
  pose proof (bo_lin _ _ _ _ _ Hb1') as E. rewrite Hb1 in E. injection E as <-. destruct (ar_buffer _ _ _ _ A _ (last_in ns Hne)) as (b & Hb & Enx).
  rewrite next_in_last in Enx by (apply (ar_nodup _ _ _ _ A) || apply (node_not_null f h rp ns A)).
  apply wp_bind, (wp_deref_lin _ _ _ _ Hb1). rewrite El. apply wp_bind, (wp_deref_lin _ _ _ _ (bo_lin _ _ _ _ _ Hb)).
  apply wp_bind, wp_assert; [rewrite (bo_magic _ _ _ _ _ Hb1'); reflexivity|]. apply wp_bind, wp_assert; [now rewrite Enx|].
  rewrite align_pot_8 by lia. fold (padded size). cbv zeta. change (sizeof_linear_size_chunk + padded size) with (8 + padded size).
  rewrite (wrap_small 32 (8 + padded size)) by lia. apply wp_bind, (wp_room f h rp ns A (padded size)); [lia | assumption..| |].
  - intros c Hc Hfull E0. cbn [Z.eqb]. apply wp_ret. now apply (HQ0 c).
  - intros f' h' ns' c A' Hc Hfit Eh Hu Hm Hsame. assert (Hl0 : last_from 0 ns' <> 0) by (intros X; apply (node_not_null f' h' rp ns' A'); rewrite <- X; apply last_in, (ar_nonempty _ _ _ _ A')).
    rewrite (proj2 (Z.eqb_neq _ 0) Hl0). rewrite <- (wrap_small 32 (8 + padded size)) by lia. apply (wp_piece f' h' rp ns' A' c (padded size)); [assumption | lia | assumption..|].
    intros h2 A2 Hu2 Hm2 _. set (p := last_from 0 ns' + 48 + offset c + 8) in *. pose proof (node_positive f' h' rp ns' A' _ (last_in ns' (ar_nonempty _ _ _ _ A'))).
    pose proof (bo_offset _ _ _ _ _ Hc). apply (HQ p f' h2 ns'); [unfold p, sizeof_ralloc_header in *; lia|]. split; try assumption.
    + unfold p. rewrite Z.add_mod, (Z.add_mod _ (offset c)), (Z.add_mod _ 48) by lia. now rewrite (bo_aligned _ _ _ _ _ Hc), (bo_offset_aligned _ _ _ _ _ Hc).
    + intros i. rewrite Hu2, Hu. unfold piece, p. split; (intros [?|?]; [now left | right; lia]).
    + intros i Hi. rewrite <- Hu. apply (room_not_used f' h' rp ns' A' c); [assumption|]. unfold piece, p in Hi. lia.
    + intros i Hi. rewrite Hm2; [apply Hm; now apply (used_mem f h rp ns A)|]. intros Hi'. apply Hu in Hi. revert Hi. apply (room_not_used f' h' rp ns' A' c); [assumption | lia].
    + intros b0 Hb0 Hfit0. destruct (Hsame b0 Hb0 Hfit0) as [-> ->]. reflexivity.
Qed.

(** ** A parent and its pieces *)

Lemma padded_idem size : padded (padded size) = padded size.
Proof. unfold padded. f_equal. rewrite Z.mul_comm, Z.div_add_l by lia. change (7 / 8) with 0. lia. Qed.

Lemma first_arena f h rp hs size a : holds f h -> live f (block_of rp) -> 0 <= size <= 2 ^ 31 - 16 -> answer h = a -> 0 < a -> a mod 8 = 0 -> f !! a = None ->
  holds (f_alloc (block_of rp) a f) (grown h rp hs size) -> arena (f_alloc (block_of rp) a f) (grown h rp hs size) rp [PTR_FROM_HEADER a].
Proof.
  intros H Hctx Hs Ea Ha Hal Hf Hh. assert (Ek : PTR_FROM_HEADER a - sizeof_ralloc_header = a) by (unfold PTR_FROM_HEADER; lia).
  assert (El : lins (grown h rp hs size) !! a = Some (LinearHeader LMAGIC 0 (buffer_size size) rp 0 (PTR_FROM_HEADER a))) by (unfold grown; cbn; rewrite Ea; apply lookup_insert_eq).
  split; [assumption | | discriminate | apply NoDup_singleton | |].
  - destruct (f_alloc_wf f h H (block_of rp) a Hf) as [_ Hl]; [lia | now right|]. apply Hl. now right.
  - intros n Hn. apply list_elem_of_singleton in Hn as ->. exists (LinearHeader LMAGIC 0 (buffer_size size) rp 0 (PTR_FROM_HEADER a)). split; [|cbn; now rewrite decide_True].
    split; rewrite ?Ek; [exact El|..]; cbn; try reflexivity; try (unfold buffer_size, MIN_LINEAR_BUFSIZE; lia).
    + rewrite Ea, lookup_insert_eq. f_equal. unfold node_size. lia.
    + rewrite (f_alloc_up f h H rp Hctx), decide_True; [reflexivity | reflexivity | assumption | lia | now right].
    + unfold PTR_FROM_HEADER, sizeof_ralloc_header. rewrite Z.add_mod, Hal by lia. reflexivity.
  - eexists. cbn [head0 list.head default from_option id]. rewrite Ek. split; [exact El | reflexivity].
Qed.

(** The pieces of a sequence of calls, each with the answer of the C library. *)
Fixpoint linear_children (parent : Z) (l : list (Z * Z)) (h : heap) : outcome (list Z * heap) :=
  match l with
  | [] => Ret ([], h)
  | (size, a) :: l =>
      let! (p, h) := linear_alloc_child parent size (h <| supply := [a] |>) in
      let! (ps, h) := linear_children parent l h in
      Ret (p :: ps, h)
  end.

(** A request that does not overflow, and a fresh aligned answer to it. *)
Definition request_ok (size a : Z) (h : heap) : Prop :=
  0 <= size <= 2 ^ 31 - 16 /\ malloc_fresh (h <| supply := [a] |>) (node_size (padded size)) /\ a mod 8 = 0.
Fixpoint children_ok (parent : Z) (l : list (Z * Z)) (h : heap) : Prop :=
  match l with
  | [] => True
  | (size, a) :: l => request_ok size a h /\ forall p h', linear_alloc_child parent size (h <| supply := [a] |>) = Ret (p, h') -> children_ok parent l h'
  end.

(** The pieces that were given out, with their sizes. *)
Definition given (ps : list Z) (l : list (Z * Z)) : list (Z * Z) := filter (fun x => x.1 <> 0) (zip ps l.*1).

Definition disjoint_pieces (l : list (Z * Z)) : Prop :=
  forall j k x y, l !! j = Some x -> l !! k = Some y -> j <> k -> forall i, piece x.1 x.2 i -> ~ piece y.1 y.2 i.

Lemma disjoint_cons p size l : (forall y, y ∈ l -> forall i, piece p size i -> ~ piece y.1 y.2 i) -> disjoint_pieces l -> disjoint_pieces ((p, size) :: l).
Proof.
  intros Hnew H [|j] [|k] x y Hx Hy Hne i Hi; cbn in Hx, Hy; [done| | |now apply (H j k x y); [..|lia|]].
  - injection Hx as <-. apply list_elem_of_lookup_2 in Hy. now apply Hnew.
  - injection Hy as <-. intros Hi'. apply list_elem_of_lookup_2 in Hx. now apply (Hnew x Hx i Hi').
Qed.

Lemma arena_supply f h rp ns l : arena f h rp ns -> arena f (h <| supply := l |>) rp ns.
Proof.
  intros [[H1 H2 [H3 H4 H5]] A1 A2 A3 A4 A5]. split; [split; [exact H1 | exact H2 | split; [exact H3 | exact H4 | exact H5]] | exact A1 | exact A2 | exact A3 | |exact A5].
  intros n Hn. destruct (A4 n Hn) as (b & [B1 B2 B3 B4 B5 B6 B7 B8 B9] & Eb). exists b. split; [split; assumption | assumption].
Qed.

Lemma children_spec rp l : forall f h ns parent, arena f h rp ns -> parent = head0 ns + sizeof_linear_header + sizeof_linear_size_chunk -> children_ok parent l h ->
  exists ps h' f' ns', linear_children parent l h = Ret (ps, h') /\ arena f' h' rp ns' /\ length ps = length l /\
    (forall i, used h ns i -> used h' ns' i /\ mem h' !! i = mem h !! i) /\
    (forall x, x ∈ given ps l -> x.1 mod 8 = 0 /\ forall i, piece x.1 x.2 i -> used h' ns' i /\ ~ used h ns i) /\
    disjoint_pieces (given ps l).
Proof.
  induction l as [|[size a] l IH]; intros f h ns parent A Ep Hok; cbn [linear_children children_ok] in *.
  - exists [], h, f, ns. split; [reflexivity|]. split; [assumption|]. split; [reflexivity|]. split; [auto|]. split; [intros x Hx; now apply elem_of_nil in Hx | intros j k x y Hj; discriminate].
  - destruct Hok as [(Hs & Hf & Hal) Hrest]. set (h0 := h <| supply := [a] |>) in *. pose proof (arena_supply f h rp ns [a] A) as A0. fold h0 in A0.
    assert (W : wp (linear_alloc_child parent size) (fun p h1 => (p = 0 /\ h1 = h0 <| supply := [] |>) \/ (p <> 0 /\ exists f1 ns1, alloc_post f h0 rp ns size p f1 h1 ns1)) h0)
      by (rewrite Ep; apply (wp_linear_alloc_child f h0 rp ns size); [assumption.. | intros; now left | intros p f' h' ns' Hp Hpost; right; eauto]).
    apply wp_elim in W as (p & h1 & E & Hcase). rewrite E. cbn [obind]. destruct Hcase as [[-> ->]|(Hp & f1 & ns1 & Hpost)].
    + destruct (IH f (h0 <| supply := [] |>) ns parent (arena_supply f h0 rp ns [] A0) Ep (Hrest 0 _ E)) as (ps & h' & f' & ns' & E' & A' & Hlen & H1 & H2 & H3).
      exists (0 :: ps), h', f', ns'. rewrite E'. split; [reflexivity|]. split; [assumption|]. split; [cbn; lia|]. split; [exact H1|]. unfold given. cbn [fmap list_fmap zip zip_with fst]. rewrite filter_cons_False by (cbn; lia). split; assumption.
    + destruct Hpost as [A1 Eh Hal1 Hu1 Hfr1 Hm1 _]. destruct (IH f1 h1 ns1 parent A1 ltac:(now rewrite Eh) (Hrest p h1 E)) as (ps & h' & f' & ns' & E' & A' & Hlen & H1 & H2 & H3).
      exists (p :: ps), h', f', ns'. rewrite E'. split; [reflexivity|]. split; [assumption|]. split; [cbn; lia|].
      assert (Hold : forall i, used h ns i -> used h' ns' i /\ mem h' !! i = mem h !! i).
      { intros i Hi. destruct (H1 i) as [H4 H5]; [apply Hu1; now left|]. split; [assumption|]. rewrite H5. now apply Hm1. }
      assert (Eg : given (p :: ps) ((size, a) :: l) = (p, size) :: given ps l) by (unfold given; cbn [fmap list_fmap zip zip_with fst]; now rewrite filter_cons_True).
      rewrite Eg. split; [exact Hold|]. split.
      * intros x [->|Hx]%elem_of_cons; cbn [fst snd].
        -- split; [assumption|]. intros i Hi. split; [apply H1, Hu1; now right | now apply Hfr1].
        -- destruct (H2 x Hx) as [H4 H5]. split; [assumption|]. intros i Hi. destruct (H5 i Hi) as [H6 H7]. split; [assumption|]. intros Hi'. apply H7, Hu1. now left.
      * apply disjoint_cons; [|assumption]. intros y Hy i Hi Hi'. destruct (H2 y Hy) as [_ H4]. apply (H4 i Hi'). apply Hu1. now right.
Qed.

Lemma wp_linear_alloc_parent f h rp size (Q : Z -> heap -> Prop) : holds f h -> live f (block_of rp) -> 0 <= size <= 2 ^ 31 - 16 ->
  supply h = [answer h] -> malloc_fresh h (node_size (padded size)) -> answer h mod 8 = 0 -> answer h <> 0 ->
  (forall p f' h' ns, p <> 0 -> p = head0 ns + sizeof_linear_header + sizeof_linear_size_chunk -> arena f' h' rp ns -> p mod 8 = 0 -> (forall i, piece p size i -> used h' ns i) -> Q p h') ->
  wp (linear_alloc_parent rp size) Q h.
Proof.
  intros H Hctx Hs Es Hf Hal Ha HQ. destruct (padded_range size Hs) as [Hp Hp8]. pose proof (holds_wf f h H) as Hwf.
  assert (Hrp : rp <> 0) by (intros ->; now apply (null_not_live f Hwf)). assert (Hpos : 0 < answer h) by (unfold malloc_fresh in Hf; rewrite Es in Hf; destruct Hf as [|[]]; [done | assumption]).
  unfold linear_alloc_parent. rewrite (proj2 (Z.eqb_neq rp 0) Hrp), align_pot_8 by lia. fold (padded size). cbv zeta.
  apply wp_bind, (wp_create_linear_node f h H rp Hctx (padded size)); [lia | assumption | done|]. intros _ Hfr hs Hh.
  rewrite (proj2 (Z.eqb_neq (PTR_FROM_HEADER (answer h)) 0)) by (unfold PTR_FROM_HEADER, sizeof_ralloc_header; lia).
  pose proof (first_arena f h rp hs (padded size) (answer h) H Hctx ltac:(lia) eq_refl Hpos Hal Hfr Hh) as A.
  assert (Es' : supply (grown h rp hs (padded size)) = []) by (unfold grown, alloc_heap; cbn; now rewrite Es).
  assert (El : lins (grown h rp hs (padded size)) !! (last_from 0 [PTR_FROM_HEADER (answer h)] - sizeof_ralloc_header) = Some (LinearHeader LMAGIC 0 (buffer_size (padded size)) rp 0 (PTR_FROM_HEADER (answer h)))).
  { replace (last_from 0 [PTR_FROM_HEADER (answer h)] - sizeof_ralloc_header) with (answer h) by (unfold PTR_FROM_HEADER; cbn; lia). apply lookup_insert_eq. }
  assert (Hfit : 0 + (8 + padded (padded size)) <= buffer_size (padded size)) by (rewrite padded_idem; unfold buffer_size; lia).
  apply (wp_linear_alloc_child _ _ rp [PTR_FROM_HEADER (answer h)] (padded size) Q A); [lia | unfold malloc_fresh; now rewrite Es' | unfold answer; now rewrite Es'| |].
  - intros b Hb Hfull. pose proof (bo_lin _ _ _ _ _ Hb) as E. rewrite El in E. injection E as <-. cbn in Hfull. lia.
  - intros p f' h' ns' Hp0 [A' Eh Hal' Hu _ _ Hpl]. apply (HQ p f' h' ns'); try assumption.
    + rewrite (Hpl _ El Hfit), Eh. unfold last_from, sizeof_linear_header, sizeof_linear_size_chunk. cbn. lia.
    + intros i Hi. apply Hu. right. unfold piece in *. now rewrite padded_idem.
Qed.

(** C26: The pieces that [linear_alloc_parent] and any sequence of calls of
    [linear_alloc_child] on its result return, for sizes up to [2^31 - 16] (see
    [request_ok]), never overlap, the word before a piece included; they are aligned to 8 bytes, and lie in buffers that are
    children of the parent's context, so that they are released with it.  A
    call that needs a new buffer and gets no memory returns [NULL] and gives
    nothing out. *)
Theorem linear_pieces_disjoint f h rp size a l : holds f h -> live f (block_of rp) -> request_ok size a h -> a <> 0 ->
  (forall p h1, linear_alloc_parent rp size (h <| supply := [a] |>) = Ret (p, h1) -> children_ok p l h1) ->
  exists p h1 ps h2 f' ns, linear_alloc_parent rp size (h <| supply := [a] |>) = Ret (p, h1) /\ linear_children p l h1 = Ret (ps, h2) /\
    p <> 0 /\ length ps = length l /\ arena f' h2 rp ns /\
    (forall x, x ∈ given (p :: ps) ((size, a) :: l) -> x.1 mod 8 = 0 /\ forall i, piece x.1 x.2 i -> used h2 ns i) /\
    disjoint_pieces (given (p :: ps) ((size, a) :: l)).
Proof.
  intros H Hctx (Hs & Hf & Hal) Ha Hok. set (h0 := h <| supply := [a] |>) in *. assert (H0 : holds f h0) by (destruct H as [H1 H2 [H3 H4 H5]]; split; [exact H1 | exact H2 | split; [exact H3 | exact H4 | exact H5]]).
  assert (W : wp (linear_alloc_parent rp size) (fun p h1 => exists f1 ns1, p <> 0 /\ p = head0 ns1 + sizeof_linear_header + sizeof_linear_size_chunk /\ arena f1 h1 rp ns1 /\
    p mod 8 = 0 /\ forall i, piece p size i -> used h1 ns1 i) h0) by (apply (wp_linear_alloc_parent f h0 rp size); try assumption; [reflexivity|]; intros p f' h' ns; intros; exists f', ns; auto).
  apply wp_elim in W as (p & h1 & E & f1 & ns1 & Hp & Ep & A1 & Hal1 & Hu1).
  destruct (children_spec rp l f1 h1 ns1 p A1 Ep (Hok p h1 E)) as (ps & h2 & f2 & ns2 & E2 & A2 & Hlen & Hold & Hnew & Hdis).
  exists p, h1, ps, h2, f2, ns2. split; [exact E|]. split; [exact E2|]. split; [assumption|]. split; [assumption|]. split; [assumption|].
  assert (Eg : given (p :: ps) ((size, a) :: l) = (p, size) :: given ps l) by (unfold given; cbn [fmap list_fmap zip zip_with fst]; now rewrite filter_cons_True).
  rewrite Eg. split.
  - intros x [->|Hx]%elem_of_cons; cbn [fst snd]; [split; [assumption|]; intros i Hi; now apply Hold, Hu1|]. destruct (Hnew x Hx) as [H1 H2]. split; [assumption|]. intros i Hi. now apply H2.
  - apply disjoint_cons; [|assumption]. intros y Hy i Hi Hi'. destruct (Hnew y Hy) as [_ H2]. apply (H2 i Hi'). now apply Hu1.
Qed.

Lemma linear_pieces_disjoint_witness : exists h p h1 ps h2, linear_alloc_parent 1072 10 (h <| supply := [4096] |>) = Ret (p, h1) /\
  linear_children p [(16, 0); (4000, 0)] h1 = Ret (ps, h2) /\ disjoint_pieces (given (p :: ps) [(10, 4096); (16, 0); (4000, 0)]).
Proof.
  destruct (one_block ∅ 0 []) as [hs H]; [lia | intros; apply lookup_empty|]. exists (Heap hs ∅ {[1024 := 48]} (reserve 1024 48 ∅) [] []).
  destruct (linear_pieces_disjoint (f_alloc 0 1024 ∅) _ 1072 10 4096 [(16, 0); (4000, 0)] H) as (p & h1 & ps & h2 & f' & ns & E1 & E2 & _ & _ & _ & _ & Hd).
  - vm_compute. now eexists.
  - split; [lia|]. split; [|reflexivity]. right. split; [lia|]. intros i Hi. cbn [mem update]. rewrite reserve_lookup, decide_False by lia. apply lookup_empty.
  - lia.
  - intros p h1 _. split; [split; [lia | split; [now left | reflexivity]]|]. intros q h2 _. split; [split; [lia | split; [now left | reflexivity]] | now intros].
  - exists p, h1, ps, h2. split; [exact E1|]. split; [exact E2 | exact Hd].
Defined.

(** The request is rounded up in 32 bits: one of more than [2^32 - 8] bytes gets
    a piece of no bytes. *)
Lemma linear_alloc_child_overflows size parent : 2 ^ 32 - 8 < size < 2 ^ 32 -> linear_alloc_child parent size = linear_alloc_child parent 0.
Proof.
  intros Hs. unfold linear_alloc_child. replace (ALIGN_POT size SUBALLOC_ALIGNMENT) with (ALIGN_POT 0 SUBALLOC_ALIGNMENT); [reflexivity|].
  unfold ALIGN_POT, SUBALLOC_ALIGNMENT. rewrite (wrap_once 32 (size + 8 - 1)) by lia. change (u32 (Z.lnot (8 - 1))) with (Z.shiftl (Z.ones 29) 3).
  change (Z.land (u32 (0 + 8 - 1)) (Z.shiftl (Z.ones 29) 3)) with 0. symmetry. apply Z.bits_inj'. intros i Hi. rewrite Z.land_spec, Z.bits_0.
  destruct (Z.lt_ge_cases i 3); [rewrite Z.shiftl_spec, (Z.testbit_neg_r _ (i - 3)) by lia; apply andb_false_r|].
  rewrite (Z.bits_above_log2 (size + 8 - 1 - 2 ^ 32)); [reflexivity | lia|]. apply Z.le_lt_trans with 2; [|lia].
  apply (Z.log2_le_mono _ 7). lia.
Qed.
