(* ===== verification/RallocStrings.v ===== *)
(** * Strings in memory contexts: src/util/ralloc.c

    Appending to a string that is a block keeps its place in the forest and
    gives the concatenation. *)

From stdpp Require Import base gmap numbers list.
From Stdlib Require Import ZArith Lia.
From S2P Require Import Prelude StateM Ralloc RallocForest RallocLinks RallocReparent RallocHeap.
From S2P Require Import RallocOps RallocProps.
#[local] Open Scope bool_scope.
#[local] Open Scope Z_scope.
#[local] Open Scope c_scope.
#[local] Open Scope state_scope.

(** A copied string and the null after it. *)
Lemma cstr_append m a s1 src n s2 : (forall k c, s1 !! k = Some c -> c <> 0 /\ m !! (a + Z.of_nat k) = Some (Some c)) ->
  0 <= n -> Z.of_nat (length s2) = n -> (forall k c, s2 !! k = Some c -> c <> 0 /\ m !! (src + Z.of_nat k) = Some (Some c)) ->
  cstr (<[a + (Z.of_nat (length s1) + n) := Some 0]> (written (a + Z.of_nat (length s1)) (bytes_at m src n) m)) a (s1 ++ s2).
Proof.
  intros H1 Hn Hl H2. assert (Hlen : length (bytes_at m src n) = length s2) by (unfold bytes_at; rewrite length_fmap; pose proof (range_length src n Hn); lia).
  split; [|rewrite length_app; replace (a + Z.of_nat (length s1 + length s2)) with (a + (Z.of_nat (length s1) + n)) by lia; apply lookup_insert_eq].
  intros k c Hk. pose proof (lookup_lt_Some _ _ _ Hk) as Hb. rewrite length_app in Hb. rewrite lookup_insert_ne by lia. apply lookup_app_Some in Hk as [Hk|[Hge Hk]].
  - destruct (H1 k c Hk) as [H0 E]. split; [assumption|]. rewrite written_other; [assumption|]. apply lookup_lt_Some in Hk. rewrite Hlen. lia.
  - destruct (H2 _ c Hk) as [H0 E]. split; [assumption|]. replace (a + Z.of_nat k) with (a + Z.of_nat (length s1) + Z.of_nat (k - length s1)) by lia.
    apply written_at. rewrite bytes_at_lookup, E; [reflexivity|]. apply lookup_lt_Some in Hk. lia.
Qed.

Lemma ptr_block ptr : ptr <> 0 -> ptr = block_of ptr + sizeof_ralloc_header.
Proof. intros H. unfold block_of. rewrite (proj2 (Z.eqb_neq ptr 0) H). lia. Qed.

Section append.
Context (f : forest) (h : heap) (H : holds f h).
Context (dest : Z) (s1 : list Z) (n0 : Z).
Local Abbreviation p := (block_of dest).
Context (Hd0 : dest <> 0) (Hp : live f p) (Hn0 : chunks h !! p = Some n0) (Hs1 : cstr (mem h) dest s1) (Hroom : dest + Z.of_nat (length s1) < p + n0).

Section copied.
Context (len a : Z).
Local Abbreviation N := (len + sizeof_ralloc_header).
Context (Hfr : forall i, a <= i < a + N -> mem h !! i = None \/ exists n0, chunks h !! p = Some n0 /\ p <= i < p + n0).

Definition grown_mem_ : gmap Z (option Z) := copy a p (Z.min n0 N) (reserve a N (release p n0 (mem h))) (mem h).

Lemma grown_string k c : Z.of_nat (length s1) < len -> s1 !! k = Some c -> c <> 0 /\ grown_mem_ !! (a + sizeof_ralloc_header + Z.of_nat k) = Some (Some c).
Proof using Hd0 Hs1 Hroom.
  intros Hlen Hk. destruct (cstr_char _ _ _ Hs1 k c Hk) as [H0 E]. split; [assumption|]. pose proof (lookup_lt_Some _ _ _ Hk). pose proof (ptr_block dest Hd0) as Ed.
  unfold grown_mem_. rewrite copy_lookup. unfold sizeof_ralloc_header in *. rewrite decide_True by lia.
  replace (p + (a + 48 + Z.of_nat k - a)) with (dest + Z.of_nat k) by lia. now rewrite E.
Qed.

Lemma grown_addressable i : a <= i < a + N -> is_Some (grown_mem_ !! i).
Proof. intros Hi. unfold grown_mem_. rewrite copy_lookup, reserve_lookup. case_decide; [now eexists|]. rewrite decide_True by assumption. now eexists. Qed.

Lemma grown_other i v : mem h !! i = Some v -> ~ (p <= i < p + n0) -> grown_mem_ !! i = Some v /\ ~ (a <= i < a + N).
Proof using Hn0 Hfr s1.
  intros Hv Hi. assert (Ho : ~ (a <= i < a + N)).
  { intros Hin. destruct (Hfr i Hin) as [E|(m & Em & Hm)]; [congruence|]. rewrite Hn0 in Em. injection Em as <-. auto. }
  split; [|assumption]. unfold grown_mem_. rewrite copy_lookup, reserve_lookup, release_lookup, !decide_False by (assumption || lia). assumption.
Qed.
End copied.

(** The heap after an append: the block has moved, holds the string [s], and
    the other blocks have their bytes. *)
Definition appended (s : list Z) (h' : heap) : Prop :=
  holds (f_move (answer h) p f) h' /\ cstr (mem h') (PTR_FROM_HEADER (answer h)) s /\ events h' = events h /\
  forall b m i, chunks h !! b = Some m -> b <> p -> b <= i < b + m -> mem h' !! i = mem h !! i.

Lemma wp_cat str s2 n (Q : bool * Z -> heap -> Prop) : 0 <= n -> Z.of_nat (length s2) = n ->
  (forall k c, s2 !! k = Some c -> c <> 0 /\ mem h !! (str + Z.of_nat k) = Some (Some c) /\ ~ (p <= str + Z.of_nat k < p + n0)) ->
  size_ok (Z.of_nat (length s1) + n + 1) -> realloc_fresh h p (Z.of_nat (length s1) + n + 1 + sizeof_ralloc_header) ->
  (answer h = 0 -> Q (false, dest) (h <| supply := tail (supply h) |>)) ->
  (answer h <> 0 -> forall h', appended (s1 ++ s2) h' -> Q (true, PTR_FROM_HEADER (answer h)) h') -> wp (cat dest str n) Q h.
Proof using H Hd0 Hp Hn0 Hs1 Hroom.
  intros Hn Hl2 Hs2 [Hz0 Hz] Hf HQ0 HQ. set (l1 := Z.of_nat (length s1)) in *. unfold cat. rewrite (proj2 (Z.eqb_neq dest 0) Hd0). apply wp_bind, wp_assert; [reflexivity|].
  apply wp_bind, (wp_strlen dest s1); [assumption|]. fold l1. rewrite wrap_small by (unfold sizeof_ralloc_header in *; lia).
  apply wp_bind, (wp_resize f h H dest); [assumption..| |].
  { intros E0. cbn [Z.eqb]. apply wp_ret. auto. }
  intros Ha n0' hs Hn0' _ Hh. rewrite Hn0 in Hn0'. injection Hn0' as <-. set (a := answer h) in *. set (N := l1 + n + 1 + sizeof_ralloc_header) in *.
  assert (Hpos : 0 < a /\ forall i, a <= i < a + N -> mem h !! i = None \/ exists n0, chunks h !! p = Some n0 /\ p <= i < p + n0)
    by (unfold realloc_fresh, a, answer in *; destruct (supply h); cbn in *; [done|]; destruct Hf; [done | assumption]). destruct Hpos as [Hpos Hfr].
  assert (Hl1 : Z.of_nat (length s1) < l1 + n + 1) by lia. set (h1 := realloc_heap h p n0 hs N) in *. set (m1 := grown_mem_ (l1 + n + 1) a).
  assert (Em : mem h1 = m1) by reflexivity.
  assert (Hsrc : forall k c, s2 !! k = Some c -> c <> 0 /\ m1 !! (str + Z.of_nat k) = Some (Some c)).
  { intros k c Hk. destruct (Hs2 k c Hk) as (H0 & E & Ho). split; [assumption|]. now apply (grown_other (l1 + n + 1) a Hfr). }
  assert (Hin : forall i, str <= i < str + n -> is_Some (m1 !! i)).
  { intros i Hi. destruct (lookup_lt_is_Some_2 s2 (Z.to_nat (i - str)) ltac:(lia)) as [c Hk]. destruct (Hsrc _ _ Hk) as [_ E]. replace (str + Z.of_nat (Z.to_nat (i - str))) with i in E by lia. rewrite E. now eexists. }
  assert (Hgr : forall i, a + 48 + l1 <= i <= a + 48 + l1 + n -> is_Some (m1 !! i)) by (intros i Hi; apply grown_addressable; unfold sizeof_ralloc_header; lia).
  rewrite (proj2 (Z.eqb_neq (PTR_FROM_HEADER a) 0)) by (unfold PTR_FROM_HEADER, sizeof_ralloc_header; lia). change (PTR_FROM_HEADER a) with (a + 48) in *.
  apply wp_bind, wp_memcpy; rewrite ?Em; [assumption.. | intros i Hi; apply Hgr; lia|].
  apply wp_bind, wp_store; [cbn; apply written_dom, Hgr; lia|]. apply wp_ret. apply HQ; [assumption|]. split; [|split; [|split; [reflexivity|]]].
  - cbn. apply holds_insert; [apply written_dom, Hgr; lia|]. exact (holds_written _ h1 _ _ Hh).
  - cbn. apply cstr_append; [|assumption..]. intros k c Hk. now apply (grown_string (l1 + n + 1) a).
  - intros b m i Hb Hne Hi. destruct (ok_chunk h (holds_ok f h H) b m Hb) as (_ & _ & Hm). destruct (Hm i Hi) as [v Hv].
    assert (Ho : ~ (p <= i < p + n0)) by (destruct (ok_disj h (holds_ok f h H) b p m n0 Hb Hn0 Hne); lia).
    destruct (grown_other (l1 + n + 1) a Hfr i v Hv Ho) as [E Hout]. fold m1 in E. unfold sizeof_ralloc_header in Hout. cbn. rewrite lookup_insert_ne by lia.
    rewrite written_other; [congruence|]. unfold bytes_at. rewrite length_fmap, range_length by assumption. lia.
Qed.
End append.

(** [str] is a string whose characters are not in the block of [dest]. *)
Definition apart (h : heap) (dest n0 str : Z) (s : list Z) : Prop :=
  cstr (mem h) str s /\ forall i, str <= i < str + Z.of_nat (length s) -> ~ (block_of dest <= i < block_of dest + n0).

Lemma apart_take h dest n0 str s n : apart h dest n0 str s -> forall k c, take n s !! k = Some c ->
  c <> 0 /\ mem h !! (str + Z.of_nat k) = Some (Some c) /\ ~ (block_of dest <= str + Z.of_nat k < block_of dest + n0).
Proof.
  intros [Hs Ho] k c [Hk _]%lookup_take_Some. destruct (cstr_char _ _ _ Hs k c Hk) as [H0 E]. apply lookup_lt_Some in Hk. repeat split; [assumption..|]. apply Ho. lia.
Qed.

(** The result of an append: nothing but the supply has changed if there is no
    memory. *)
Definition append_result (f : forest) (h : heap) (dest : Z) (s : list Z) (r : bool * Z) (h' : heap) : Prop :=
  if decide (answer h = 0) then r = (false, dest) /\ h' = h <| supply := tail (supply h) |>
  else r = (true, PTR_FROM_HEADER (answer h)) /\ appended f h dest s h'.

Section strings.
Context (f : forest) (h : heap) (dest : Z) (s1 : list Z) (n0 str : Z) (s2 : list Z).
Context (H : holds f h) (Hp : live f (block_of dest)) (Hn0 : chunks h !! block_of dest = Some n0) (Hs1 : cstr (mem h) dest s1).
Context (Hroom : dest + Z.of_nat (length s1) < block_of dest + n0) (Hs2 : apart h dest n0 str s2).

Lemma cat_spec n : (n <= length s2)%nat -> size_ok (Z.of_nat (length s1) + Z.of_nat n + 1) ->
  realloc_fresh h (block_of dest) (Z.of_nat (length s1) + Z.of_nat n + 1 + sizeof_ralloc_header) ->
  wp (cat dest str (Z.of_nat n)) (append_result f h dest (s1 ++ take n s2)) h.
Proof using H Hp Hn0 Hs1 Hroom Hs2.
  intros Hn Hz Hf. apply (wp_cat f h H dest s1 n0) with (s2 := take n s2); try assumption.
  - now apply (live_block f), Hp; apply (holds_wf f h H).
  - lia.
  - rewrite length_take. lia.
  - intros k c. now apply apart_take.
  - intros E. unfold append_result. now rewrite decide_True.
  - intros E h' Ha. unfold append_result. rewrite decide_False by assumption. auto.
Qed.

Lemma ralloc_strncat_spec max : 0 <= max -> let n := Z.to_nat (Z.min max (Z.of_nat (length s2))) in size_ok (Z.of_nat (length s1) + Z.of_nat n + 1) ->
  realloc_fresh h (block_of dest) (Z.of_nat (length s1) + Z.of_nat n + 1 + sizeof_ralloc_header) ->
  wp (ralloc_strncat dest str max) (append_result f h dest (s1 ++ take n s2)) h.
Proof using H Hp Hn0 Hs1 Hroom Hs2.
  intros Hm n Hz Hf. apply wp_bind, (wp_strnlen str s2); [apply Hs2 | assumption|]. replace (Z.min max (Z.of_nat (length s2))) with (Z.of_nat n) by lia. apply cat_spec; [lia | assumption..].
Qed.

Lemma ralloc_strcat_spec : size_ok (Z.of_nat (length s1) + Z.of_nat (length s2) + 1) ->
  realloc_fresh h (block_of dest) (Z.of_nat (length s1) + Z.of_nat (length s2) + 1 + sizeof_ralloc_header) ->
  wp (ralloc_strcat dest str) (append_result f h dest (s1 ++ s2)) h.
Proof using H Hp Hn0 Hs1 Hroom Hs2.
  intros Hz Hf. apply wp_bind, (wp_strlen str s2); [apply Hs2|]. rewrite <- (firstn_all s2) at 2. now apply cat_spec.
Qed.
End strings.

(** C27: [ralloc_strcat] appends a string that is elsewhere to a string that is
    a block: it returns, the block has the place it had among the contexts, it
    holds the concatenation, and the bytes of the other blocks are unchanged.
    Without memory it returns false and changes nothing. *)
Theorem ralloc_strcat_correct f h dest s1 n0 str s2 : holds f h -> live f (block_of dest) -> chunks h !! block_of dest = Some n0 ->
  cstr (mem h) dest s1 -> dest + Z.of_nat (length s1) < block_of dest + n0 -> apart h dest n0 str s2 ->
  size_ok (Z.of_nat (length s1) + Z.of_nat (length s2) + 1) ->
  realloc_fresh h (block_of dest) (Z.of_nat (length s1) + Z.of_nat (length s2) + 1 + sizeof_ralloc_header) ->
  exists r h', ralloc_strcat dest str h = Ret (r, h') /\ append_result f h dest (s1 ++ s2) r h'.
Proof. intros H1 H2 H3 H4 H5 H6 H7 H8. now apply wp_elim, (ralloc_strcat_spec f h dest s1 n0 str s2). Qed.

Lemma ralloc_strcat_correct_witness : exists h r h', ralloc_strcat 1072 10 h = Ret (r, h') /\ r = (true, 4144) /\ cstr (mem h') 4144 [67; 65].
Proof.
  set (m0 := <[11 := Some 0]> (<[10 := Some 65]> (∅ : gmap Z (option Z)))).
  destruct (one_block m0 4 [4096]) as [hs H]; [lia | intros i Hi; unfold m0; rewrite !lookup_insert_ne by lia; apply lookup_empty|].
  apply (holds_written _ _ 1072 [Some 67; Some 0]) in H. set (h := _ <| mem := _ |>) in H. exists h.
  assert (Em : forall i, i < 1024 -> mem h !! i = m0 !! i) by (intros i Hi; cbn; rewrite !lookup_insert_ne, reserve_lookup, decide_False by lia; reflexivity).
  destruct (ralloc_strcat_correct _ h 1072 [67] 52 10 [65] H) as (r & h' & E & Hr).
  - vm_compute. now eexists.
  - reflexivity.
  - split; [|reflexivity]. intros [|k] c Hk; [|now destruct k]. injection Hk as <-. split; [lia | reflexivity].
  - vm_compute. reflexivity.
  - split; [|intros i Hi; change (block_of 1072) with 1024; cbn in Hi; lia]. split; [|rewrite Em by (cbn; lia); reflexivity].
    intros [|k] c Hk; [|now destruct k]. injection Hk as <-. split; [lia | rewrite Em by lia; reflexivity].
  - split; [cbn; lia | cbn; unfold sizeof_ralloc_header; lia].
  - right. split; [lia|]. intros i Hi. left. cbn. rewrite !lookup_insert_ne, reserve_lookup, decide_False by lia. unfold m0. rewrite !lookup_insert_ne by lia. apply lookup_empty.
  - exists r, h'. split; [exact E|]. destruct Hr as [-> (_ & Hs & _)]. split; [reflexivity | exact Hs].
Defined.

(** [ralloc_strdup] counts the bytes of the copy in 32 bits: for a string of
    [2^32 - 1] characters it asks for none. *)
Lemma ralloc_strdup_overflows ctx str : ralloc_strndup_n ctx str (2 ^ 32 - 1) = (let* ptr := ralloc_array_size ctx 1 0 in memcpy ptr str (2 ^ 32 - 1) ;; store (ptr + (2 ^ 32 - 1)) 0 ;; ret ptr).
Proof. reflexivity. Qed.
