(* ===== verification/Slab.v ===== *)
(** * Slab allocator: src/util/slab.c and slab.h

    Objects of one size come from pages; a page belongs to a child pool, and
    all child pools have one parent.  Addresses are integers and [NULL] is 0.
    The state has the element headers and the page headers of all pages that
    are allocated; an access to any other address fails like an assertion.

    Each child pool is used by one thread at a time, but different pools are
    used at the same time.  A call is therefore a sequence of steps that
    steps on other pools may separate: a step is one section under the mutex of
    the parent, one atomic operation on a page, or code that only uses the
    pool of the call.  [running] has the call in progress on a pool.  The
    addresses that [malloc] returns are an argument of the step, 0 for a
    failure. *)

From stdpp Require Import base gmap numbers list.
From Stdlib Require Import ZArith Lia.
From S2P Require Import Prelude StateM.
#[local] Open Scope bool_scope.
#[local] Open Scope Z_scope.
#[local] Open Scope c_scope.
#[local] Open Scope state_scope.

(** ** State *)

Record slab_element_header := SlabElement {
  elt_next : Z;
  owner : Z
}.

(** The union of a page header. *)
Inductive slab_page_header :=
| Page_next (next : Z)
| Num_remaining (num : Z).

Record slab_parent_pool := SlabParent {
  element_size : Z;
  num_elements : Z
}.

(** [has_parent] says whether [parent] is set. *)
Record slab_child_pool := SlabChild {
  has_parent : bool;
  pages : Z;
  free_list : Z;
  migrated : Z
}.

(** Where the call on a pool is: after the elements that other pools freed
    have been taken, before the mutex is locked for the element, before the
    element of an orphaned page is released, in the last loop of the
    destruction. *)
Inductive slab_call :=
| In_alloc
| In_free (elt : Z)
| In_orphan (elt : Z)
| In_destroy.

Record slabs := Slabs {
  parent_pool : slab_parent_pool;
  elements : gmap Z slab_element_header;
  page_headers : gmap Z slab_page_header;
  children : gmap Z slab_child_pool;
  running : gmap Z slab_call
}.

#[export] Instance slab_element_eta : Eta slab_element_header := fun e => SlabElement (elt_next e) (owner e).
#[export] Instance slab_child_eta : Eta slab_child_pool := fun c =>
  SlabChild (has_parent c) (pages c) (free_list c) (migrated c).
#[export] Instance slabs_eta : Eta slabs := fun s =>
  Slabs (parent_pool s) (elements s) (page_headers s) (children s) (running s).

Abbreviation SM := (ST slabs).

Definition element (elt : Z) : SM slab_element_header := fun s =>
  match elements s !! elt with Some e => Ret (e, s) | None => Assert_failed end.
Definition set_element (elt : Z) (f : slab_element_header -> slab_element_header) : SM unit := fun s =>
  match elements s !! elt with
  | Some e => Ret (tt, s <| elements := <[elt := f e]> (elements s) |>)
  | None => Assert_failed
  end.
Definition page_header (page : Z) : SM slab_page_header := fun s =>
  match page_headers s !! page with Some u => Ret (u, s) | None => Assert_failed end.
Definition set_page (page : Z) (u : slab_page_header) : SM unit := fun s =>
  match page_headers s !! page with
  | Some _ => Ret (tt, s <| page_headers := <[page := u]> (page_headers s) |>)
  | None => Assert_failed
  end.
Definition child_pool (pool : Z) : SM slab_child_pool := fun s =>
  match children s !! pool with Some c => Ret (c, s) | None => Assert_failed end.
Definition set_child (pool : Z) (f : slab_child_pool -> slab_child_pool) : SM unit := fun s =>
  match children s !! pool with
  | Some c => Ret (tt, s <| children := <[pool := f c]> (children s) |>)
  | None => Assert_failed
  end.
Definition the_parent : SM slab_parent_pool := fun s => Ret (parent_pool s, s).

Definition sizeof_element_header : Z := 16.
Definition sizeof_page_header : Z := 8.

(** ** Functions *)

Definition slab_get_element (parent : slab_parent_pool) (page index : Z) : Z :=
  page + sizeof_page_header + u32 (element_size parent * index).

(** The elements of a page. *)
Definition page_elements (parent : slab_parent_pool) (page : Z) : list Z :=
  slab_get_element parent page <$> seqZ 0 (num_elements parent).

(** [free(page)] *)
Definition free_page (page : Z) : SM unit := fun s =>
  match page_headers s !! page with
  | Some _ =>
      Ret (tt, s <| page_headers := delete page (page_headers s) |>
                 <| elements := foldr delete (elements s) (page_elements (parent_pool s) page) |>)
  | None => Assert_failed
  end.

(** [p_atomic_dec_return(&page->u.num_remaining)] *)
Definition dec_remaining (page : Z) : SM Z :=
  let* u := page_header page in
  match u with
  | Num_remaining k => set_page page (Num_remaining (u32 (k - 1))) ;; ret (u32 (k - 1))
  | Page_next _ => m_assert false ;; ret 0
  end.

Definition slab_free_orphaned (elt : Z) : SM unit :=
  let* e := element elt in
  m_assert (negb (Z.land (owner e) 1 =? 0)) ;;
  let page := Z.ldiff (owner e) 1 in
  let* k := dec_remaining page in
  when (k =? 0) (free_page page).

(** [ALIGN_POT(x, pot_align)] in [size_t]. *)
Definition ALIGN_POT (x pot_align : Z) : Z := Z.land (u64 (x + pot_align - 1)) (u64 (Z.lnot (pot_align - 1))).

Definition slab_create_parent (item_size num_items : Z) : slab_parent_pool :=
  SlabParent (u32 (ALIGN_POT (sizeof_element_header + item_size) 8)) num_items.

Definition slab_create_child (pool : Z) : SM unit := fun s =>
  Ret (tt, s <| children := <[pool := SlabChild true 0 0 0]> (children s) |>).

(** [for (i = 0; i < num_elements; ++i) p_atomic_set(&elt->owner, page | 1)] *)
Fixpoint orphan_elements (page : Z) (l : list Z) : SM unit :=
  match l with
  | [] => ret tt
  | elt :: l => set_element elt (fun e => e <| owner := Z.lor page 1 |>) ;; orphan_elements page l
  end.

Definition next_page (page : Z) : SM Z :=
  let* u := page_header page in
  match u with Page_next n => ret n | Num_remaining _ => m_assert false ;; ret 0 end.

Fixpoint orphan_pages (fuel : nat) (pool : Z) : SM unit :=
  match fuel with
  | O => out_of_fuel
  | S fuel =>
      let* c := child_pool pool in
      if pages c =? 0 then ret tt
      else
        let page := pages c in
        let* n := next_page page in
        set_child pool (fun c => c <| pages := n |>) ;;
        let* par := the_parent in
        set_page page (Num_remaining (num_elements par)) ;;
        orphan_elements page (page_elements par page) ;;
        orphan_pages fuel pool
  end.

Fixpoint free_migrated (fuel : nat) (pool : Z) : SM unit :=
  match fuel with
  | O => out_of_fuel
  | S fuel =>
      let* c := child_pool pool in
      if migrated c =? 0 then ret tt
      else
        let elt := migrated c in
        let* e := element elt in
        set_child pool (fun c => c <| migrated := elt_next e |>) ;;
        slab_free_orphaned elt ;;
        free_migrated fuel pool
  end.

(** Rounds for the loops over pages and over elements. *)
Definition page_rounds : SM nat := fun s => Ret (S (size (page_headers s)), s).
Definition element_rounds : SM nat := fun s => Ret (S (size (elements s)), s).

(** [slab_destroy_child] up to [mtx_unlock]; the result is whether the call
    goes on. *)
Definition slab_destroy_locked (pool : Z) : SM bool :=
  let* c := child_pool pool in
  if negb (has_parent c) then ret false
  else
    let* n := page_rounds in
    orphan_pages n pool ;;
    let* n := element_rounds in
    free_migrated n pool ;;
    ret true.

(** One round of the last loop of [slab_destroy_child], and the statement
    after it; the result is whether the loop goes on. *)
Definition slab_destroy_round (pool : Z) : SM bool :=
  let* c := child_pool pool in
  if free_list c =? 0 then set_child pool (fun c => c <| has_parent := false |>) ;; ret false
  else
    let elt := free_list c in
    let* e := element elt in
    set_child pool (fun c => c <| free_list := elt_next e |>) ;;
    slab_free_orphaned elt ;;
    ret true.

(** The loop of [slab_add_new_page] over the elements of a chunk of [size]
    bytes. *)
Fixpoint add_elements (pool page size : Z) (l : list Z) : SM unit :=
  match l with
  | [] => ret tt
  | elt :: l =>
      m_assert (elt + sizeof_element_header <=? page + size) ;;
      m_assert (Z.land pool 1 =? 0) ;;
      let* c := child_pool pool in
      (fun s => Ret (tt, s <| elements := <[elt := SlabElement (free_list c) pool]> (elements s) |>)) ;;
      set_child pool (fun c => c <| free_list := elt |>) ;;
      add_elements pool page size l
  end.

Definition slab_add_new_page (pool answer : Z) : SM bool :=
  let* par := the_parent in
  let size := sizeof_page_header + u32 (num_elements par * element_size par) in
  let page := answer in
  if page =? 0 then ret false
  else
    add_elements pool page size (page_elements par page) ;;
    let* c := child_pool pool in
    (fun s => Ret (tt, s <| page_headers := <[page := Page_next (pages c)]> (page_headers s) |>)) ;;
    set_child pool (fun c => c <| pages := page |>) ;;
    ret true.

(** The pointer that the caller gets. *)
Definition object_of (elt : Z) : Z := elt + sizeof_element_header.
Definition element_of (ptr : Z) : Z := ptr - sizeof_element_header.

(** The end of [slab_alloc]. *)
Definition slab_pop (pool : Z) : SM Z :=
  let* c := child_pool pool in
  let elt := free_list c in
  let* e := element elt in
  set_child pool (fun c => c <| free_list := elt_next e |>) ;;
  ret (object_of elt).

(** [slab_alloc] up to [mtx_unlock]; the result is empty when the call goes
    on. *)
Definition slab_alloc_begin (pool : Z) : SM (option Z) :=
  let* c := child_pool pool in
  if free_list c =? 0 then
    m_assert (has_parent c) ;;
    set_child pool (fun c => c <| free_list := migrated c |> <| migrated := 0 |>) ;;
    ret None
  else let* p := slab_pop pool in ret (Some p).

Definition slab_alloc_end (pool answer : Z) : SM Z :=
  let* c := child_pool pool in
  let* ok := if free_list c =? 0 then slab_add_new_page pool answer else ret true in
  if ok then slab_pop pool else ret 0.

(** [slab_free] up to [mtx_lock]; the result is whether the call goes on. *)
Definition slab_free_begin (pool ptr : Z) : SM bool :=
  let elt := element_of ptr in
  let* e := element elt in
  if owner e =? pool then
    let* c := child_pool pool in
    set_element elt (fun e => e <| elt_next := free_list c |>) ;;
    set_child pool (fun c => c <| free_list := elt |>) ;;
    ret false
  else ret true.

(** The section of [slab_free] under the mutex; the result is whether the
    page is orphaned. *)
Definition slab_free_locked (pool elt : Z) : SM bool :=
  let* c := child_pool pool in
  m_assert (has_parent c) ;;
  let* e := element elt in
  if Z.land (owner e) 1 =? 0 then
    let* o := child_pool (owner e) in
    set_element elt (fun e => e <| elt_next := migrated o |>) ;;
    set_child (owner e) (fun c => c <| migrated := elt |>) ;;
    ret false
  else ret true.

(** ** Steps *)

Inductive slab_action :=
| Create_child
| Alloc
| Free (ptr : Z)
| Destroy_child
| Resume (answer : Z).

Definition call_of (pool : Z) : SM (option slab_call) := fun s => Ret (running s !! pool, s).
Definition set_call (pool : Z) (c : option slab_call) : SM unit := fun s =>
  Ret (tt, s <| running := match c with Some c => <[pool := c]> (running s) | None => delete pool (running s) end |>).

(** A step of the thread that uses [pool]: it starts a call or goes on with
    the one in progress.  The result is the pointer that [slab_alloc] returns
    in this step. *)
Definition slab_step (pool : Z) (a : slab_action) : SM (option Z) :=
  let* r := call_of pool in
  match r, a with
  | None, Create_child => slab_create_child pool ;; ret None
  | None, Alloc =>
      let* p := slab_alloc_begin pool in
      match p with
      | Some p => ret (Some p)
      | None => set_call pool (Some In_alloc) ;; ret None
      end
  | Some In_alloc, Resume answer =>
      let* p := slab_alloc_end pool answer in
      set_call pool None ;; ret (Some p)
  | None, Free ptr =>
      let* more := slab_free_begin pool ptr in
      when more (set_call pool (Some (In_free (element_of ptr)))) ;; ret None
  | Some (In_free elt), Resume _ =>
      let* orphaned := slab_free_locked pool elt in
      set_call pool (if orphaned then Some (In_orphan elt) else None) ;; ret None
  | Some (In_orphan elt), Resume _ =>
      slab_free_orphaned elt ;; set_call pool None ;; ret None
  | None, Destroy_child =>
      let* more := slab_destroy_locked pool in
      when more (set_call pool (Some In_destroy)) ;; ret None
  | Some In_destroy, Resume _ =>
      let* more := slab_destroy_round pool in
      set_call pool (if more then Some In_destroy else None) ;; ret None
  | _, _ => m_assert false ;; ret None
  end.

(** The single-threaded interface: a parent with one child, whose calls run to
    their end. *)
Definition slab_alloc_st (pool answer : Z) : SM Z :=
  let* p := slab_alloc_begin pool in
  match p with Some p => ret p | None => slab_alloc_end pool answer end.

Definition slab_free_st (pool ptr : Z) : SM unit :=
  let* more := slab_free_begin pool ptr in
  when more
    (let* orphaned := slab_free_locked pool (element_of ptr) in
     when orphaned (slab_free_orphaned (element_of ptr))).

Fixpoint destroy_rounds (fuel : nat) (pool : Z) : SM unit :=
  match fuel with
  | O => out_of_fuel
  | S fuel => let* more := slab_destroy_round pool in when more (destroy_rounds fuel pool)
  end.

Definition slab_destroy (pool : Z) : SM unit :=
  let* more := slab_destroy_locked pool in
  let* n := element_rounds in
  when more (destroy_rounds n pool).

Definition slab_create (pool item_size num_items : Z) : slabs :=
  Slabs (slab_create_parent item_size num_items) ∅ ∅ {[ pool := SlabChild true 0 0 0 ]} ∅.
