(* ===== verification/SlabHeap.v ===== *)
(** * The memory of the slab allocator

    Every element of a page that is not released is in one place: on a list of
    a pool, with a user, or with a call in progress.  The invariant [heap_ok]
    relates the places to the lists, to the owners of the pages and to the
    counters of the orphaned ones.  The functions of slab.c keep it. *)

From stdpp Require Import base gmap numbers list.
From Stdlib Require Import ZArith Lia.
From S2P Require Import Prelude StateM Slab.
#[local] Open Scope bool_scope.
#[local] Open Scope Z_scope.
#[local] Open Scope c_scope.
#[local] Open Scope state_scope.
#[local] Set Default Proof Using "Type".

(** ** Linked lists *)

Fixpoint linked (nxt : Z -> option Z) (a : Z) (l : list Z) : Prop :=
  match l with
  | [] => a = 0
  | x :: l => a = x /\ x <> 0 /\ exists b, nxt x = Some b /\ linked nxt b l
  end.

Lemma linked_ext nxt nxt' l : forall a, (forall x, x ∈ l -> nxt' x = nxt x) -> linked nxt a l -> linked nxt' a l.
Proof.
  induction l as [|x l IH]; cbn; intros a H; [done|]. intros (-> & Hx & b & Hb & Hl). split; [done|]. split; [done|].
  exists b. split; [rewrite H by set_solver; exact Hb | apply IH; [set_solver | exact Hl]].
Qed.

(** The list from [a] has exactly the members that satisfy [P]. *)
Definition lists (nxt : Z -> option Z) (a : Z) (P : Z -> Prop) : Prop :=
  exists l, linked nxt a l /\ NoDup l /\ forall x, x ∈ l <-> P x.

Lemma lists_ext nxt nxt' a P P' : (forall x, P x -> nxt' x = nxt x) -> (forall x, P' x <-> P x) ->
  lists nxt a P -> lists nxt' a P'.
Proof.
  intros Hn HP (l & Hl & Hd & Hm). exists l. split; [|split; [done|]].
  - apply (linked_ext nxt); [|done]. intros x Hx. apply Hn, Hm, Hx.
  - intros x. rewrite Hm, HP. done.
Qed.

Lemma lists_push nxt nxt' a e P P' : e <> 0 -> ~ P e -> nxt' e = Some a -> (forall x, P x -> nxt' x = nxt x) ->
  (forall x, P' x <-> x = e \/ P x) -> lists nxt a P -> lists nxt' e P'.
Proof.
  intros He Hne Ha Hn HP (l & Hl & Hd & Hm). exists (e :: l). split; [|split].
  - split; [done|]. split; [done|]. exists a. split; [done|]. apply (linked_ext nxt); [|done]. intros x Hx. apply Hn, Hm, Hx.
  - constructor; [|done]. by rewrite Hm.
  - intros x. rewrite elem_of_cons, Hm, HP. done.
Qed.

Lemma lists_pop nxt a P : a <> 0 -> lists nxt a P ->
  P a /\ exists b, nxt a = Some b /\ lists nxt b (fun x => P x /\ x <> a).
Proof.
  intros Ha (l & Hl & Hd & Hm). destruct l as [|x l]; cbn in Hl; [done|]. destruct Hl as (-> & _ & b & Hb & Hl).
  inversion Hd as [|? ? Hx Hd']; subst. split; [apply Hm; set_solver|]. exists b. split; [done|].
  exists l. split; [done|]. split; [done|]. intros y. rewrite <- Hm, elem_of_cons. split; [|intros [[->|] ?]; done].
  intros Hy. split; [by right | by intros ->].
Qed.

Lemma lists_null nxt P : lists nxt 0 P -> forall x, ~ P x.
Proof.
  intros (l & Hl & _ & Hm) x Hx. apply Hm in Hx. destruct l as [|y l]; [set_solver|]. cbn in Hl. destruct Hl as (E & Hy & _). done.
Qed.

Lemma lists_nil nxt P : (forall x, ~ P x) -> lists nxt 0 P.
Proof. intros H. exists []. split; [done|]. split; [constructor|]. intros x. split; [set_solver | intros Hx; by apply H in Hx]. Qed.

(** ** Places *)

Inductive place :=
| On_free (pool : Z)
| On_migrated (pool : Z)
| Held
| In_call (pool : Z).

#[export] Instance place_eq_dec : EqDecision place.
Proof. solve_decision. Defined.

Definition next_of (s : slabs) (e : Z) : option Z := elt_next <$> elements s !! e.
Definition owner_of (s : slabs) (e : Z) : option Z := owner <$> elements s !! e.
Definition page_next_of (s : slabs) (p : Z) : option Z :=
  match page_headers s !! p with Some (Page_next n) => Some n | _ => None end.

(** ** Counting *)

(** The members of [l] that have a place. *)
Definition count (loc : gmap Z place) (l : list Z) : Z := Z.of_nat (length (filter (fun e => is_Some (loc !! e)) l)).

Definition alive (s : slabs) (q : Z) : Prop := exists c, children s !! q = Some c /\ has_parent c = true.

Lemma count_cons loc e l : count loc (e :: l) = (if decide (is_Some (loc !! e)) then 1 else 0) + count loc l.
Proof. unfold count. rewrite filter_cons. case_decide; cbn [length]; lia. Qed.

Lemma count_ext loc loc' l : (forall e, e ∈ l -> is_Some (loc' !! e) <-> is_Some (loc !! e)) -> count loc' l = count loc l.
Proof.
  induction l as [|x l IH]; intros H; [done|]. rewrite !count_cons, IH by set_solver. f_equal.
  apply decide_ext. apply H. set_solver.
Qed.

Lemma count_all loc l : (forall e, e ∈ l -> is_Some (loc !! e)) -> count loc l = Z.of_nat (length l).
Proof.
  induction l as [|x l IH]; intros H; [done|]. rewrite count_cons, IH, decide_True by set_solver. cbn [length]. lia.
Qed.

Lemma count_none loc l : count loc l <= 0 -> forall e, e ∈ l -> loc !! e = None.
Proof.
  induction l as [|x l IH]; intros H e He; [set_solver|]. rewrite count_cons in H.
  assert (0 <= count loc l) by (unfold count; lia). case_decide as Hx; [lia|].
  apply elem_of_cons in He as [->|He]; [by apply eq_None_not_Some | apply IH; [lia | done]].
Qed.

Lemma count_some loc l : 0 < count loc l -> exists e, e ∈ l /\ is_Some (loc !! e).
Proof.
  induction l as [|x l IH]; [done|]. rewrite count_cons. case_decide as Hx; intros H; [exists x; set_solver|].
  destruct IH as (e & He & Hs); [lia|]. exists e. set_solver.
Qed.

Lemma count_delete loc l e : NoDup l -> e ∈ l -> is_Some (loc !! e) -> count (delete e loc) l = count loc l - 1.
Proof.
  induction l as [|x l IH]; intros Hd He Hs; [set_solver|]. inversion Hd as [|? ? Hx Hd']; subst.
  rewrite !count_cons. destruct (decide (x = e)) as [->|Hne].
  - rewrite lookup_delete_eq, decide_False, decide_True by (done || by intros [? ?]).
    rewrite (count_ext loc) by (intros y Hy; rewrite lookup_delete_ne by set_solver; done). lia.
  - rewrite IH by set_solver. rewrite lookup_delete_ne by done. lia.
Qed.

Lemma count_bound loc l : 0 <= count loc l <= Z.of_nat (length l).
Proof. unfold count. pose proof (length_filter (fun e => is_Some (loc !! e)) l). lia. Qed.

(** ** Places and lists *)

(** The places that are on no list. *)
Definition loose (l : place) : Prop := match l with Held | In_call _ => True | _ => False end.

Lemma next_of_Some s e b : next_of s e = Some b -> exists h, elements s !! e = Some h /\ elt_next h = b.
Proof. unfold next_of. destruct (elements s !! e) as [h|]; [|done]. intros E. injection E as <-. eauto. Qed.

Lemma insert_loose (loc : gmap Z place) e l x k : loose l -> ~ loose k ->
  (<[e := l]> loc) !! x = Some k <-> loc !! x = Some k /\ x <> e.
Proof.
  intros Hl Hk. destruct (decide (x = e)) as [->|Hx].
  - rewrite lookup_insert_eq. split; [intros E; injection E as ->; done | tauto].
  - rewrite lookup_insert_ne by done. tauto.
Qed.

Lemma insert_is_Some (loc : gmap Z place) e l x : is_Some (loc !! e) -> is_Some ((<[e := l]> loc) !! x) <-> is_Some (loc !! x).
Proof. intros He. destruct (decide (x = e)) as [->|Hx]; [rewrite lookup_insert_eq; split; eauto | by rewrite lookup_insert_ne]. Qed.

(** A loose element gets a place on a list. *)
Lemma insert_listed (loc : gmap Z place) e k0 k x k' : loc !! e = Some k0 -> loose k0 -> ~ loose k -> ~ loose k' ->
  (<[e := k]> loc) !! x = Some k' <-> (x = e /\ k' = k) \/ loc !! x = Some k'.
Proof.
  intros He H0 Hk Hk'. destruct (decide (x = e)) as [->|Hx].
  - rewrite lookup_insert_eq, He. split; [intros E; injection E as <-; auto | intros [[_ ->]|E]; [done|]]. injection E as ->. done.
  - rewrite lookup_insert_ne by done. split; [auto | intros [[-> _]|]; done].
Qed.

(** The two lists of a pool. *)
Definition on_list (q : Z) (k : place) : Prop := k = On_free q \/ k = On_migrated q.

Definition list_head (k : place) (c : slab_child_pool) : Z :=
  match k with On_free _ => free_list c | On_migrated _ => migrated c | _ => 0 end.

Definition set_head (k : place) (a : Z) (c : slab_child_pool) : slab_child_pool :=
  match k with On_free _ => c <| free_list := a |> | On_migrated _ => c <| migrated := a |> | _ => c end.

Lemma on_list_listed q k : on_list q k -> ~ loose k.
Proof. intros [-> | ->]; auto. Qed.

Lemma set_head_other q k a c k' : on_list q k -> on_list q k' -> k' <> k -> list_head k' (set_head k a c) = list_head k' c.
Proof. intros [-> | ->] [-> | ->]; done. Qed.

Lemma set_head_same q k a c : on_list q k -> list_head k (set_head k a c) = a.
Proof. intros [-> | ->]; done. Qed.

Lemma set_head_rest k a c : has_parent (set_head k a c) = has_parent c /\ pages (set_head k a c) = pages c.
Proof. destruct k; done. Qed.

Lemma owner_of_Some s e o : owner_of s e = Some o -> exists h, elements s !! e = Some h /\ owner h = o.
Proof. unfold owner_of. destruct (elements s !! e) as [h|]; [|done]. intros E. injection E as <-. eauto. Qed.

(** Where the [next] of one element changes. *)
Lemma relink_owner s e h n cs x : elements s !! e = Some h ->
  owner_of (s <| elements := <[e := h <| elt_next := n |>]> (elements s) |> <| children := cs |>) x = owner_of s x.
Proof.
  intros He. unfold owner_of. cbn. destruct (decide (x = e)) as [->|Hx]; [by rewrite lookup_insert_eq, He | by rewrite lookup_insert_ne].
Qed.

Lemma relink_next s e h n cs x :
  next_of (s <| elements := <[e := h <| elt_next := n |>]> (elements s) |> <| children := cs |>) x =
  if decide (x = e) then Some n else next_of s x.
Proof. unfold next_of. cbn. case_decide as Hx; [subst; by rewrite lookup_insert_eq | by rewrite lookup_insert_ne]. Qed.

(** The migrated list becomes the free list. *)
Definition taken (q : Z) (l : place) : place := if decide (l = On_migrated q) then On_free q else l.

Lemma delete_loose (loc : gmap Z place) e k0 x k : loc !! e = Some k0 -> loose k0 -> ~ loose k ->
  delete e loc !! x = Some k <-> loc !! x = Some k.
Proof.
  intros He H0 Hk. destruct (decide (x = e)) as [->|Hx]; [|by rewrite lookup_delete_ne].
  rewrite lookup_delete_eq, He. split; [done|]. intros E. injection E as ->. done.
Qed.

Lemma lookup_delete_all {A} (m : gmap Z A) l x : foldr delete m l !! x = if decide (x ∈ l) then None else m !! x.
Proof.
  induction l as [|y l IH]; cbn [foldr]; [by rewrite decide_False by set_solver|].
  destruct (decide (x = y)) as [->|Hne]; [rewrite lookup_delete_eq, decide_True by set_solver; done|].
  rewrite lookup_delete_ne, IH by done. apply decide_ext. set_solver.
Qed.

(** What [slab_free_orphaned] leaves alone. *)
Definition spared (loc : gmap Z place) (s s' : slabs) : Prop :=
  children s' = children s /\ running s' = running s /\ forall x, is_Some (loc !! x) -> elements s' !! x = elements s !! x.

(** ** The tag of an owner *)

Lemma tag_clear o : (Z.land o 1 =? 0) = Z.even o.
Proof. change 1 with (Z.ones 1). rewrite Z.land_ones by lia. change (2 ^ 1) with 2. rewrite Zeven_mod. done. Qed.

Lemma tag_set p : Z.even p = true -> Z.lor p 1 = p + 1.
Proof.
  intros H. assert (H0 : Z.land p 1 = 0) by (rewrite <- tag_clear in H; lia).
  rewrite (Z.add_nocarry_lxor p 1 H0), Z.lxor_lor by done. done.
Qed.

Lemma tag_removed p : Z.even p = true -> Z.ldiff (p + 1) 1 = p.
Proof.
  intros H. change 1 with (Z.ones 1) at 2. rewrite Z.ldiff_ones_r, Z.shiftl_mul_pow2, Z.shiftr_div_pow2 by lia.
  apply Z.even_spec in H as [m ->]. change (2 ^ 1) with 2. rewrite <- (Z.div_unique (2 * m + 1) 2 m 1) by lia. lia.
Qed.

(** ** Accesses *)

Lemma wp_element e h (Q : _ -> _ -> Prop) s : elements s !! e = Some h -> Q h s -> wp (element e) Q s.
Proof. intros H HQ. unfold wp, element. by rewrite H. Qed.

Lemma wp_set_element e h f (Q : _ -> _ -> Prop) s : elements s !! e = Some h -> Q tt (s <| elements := <[e := f h]> (elements s) |>) ->
  wp (set_element e f) Q s.
Proof. intros H HQ. unfold wp, set_element. by rewrite H. Qed.

Lemma wp_page p u (Q : _ -> _ -> Prop) s : page_headers s !! p = Some u -> Q u s -> wp (page_header p) Q s.
Proof. intros H HQ. unfold wp, page_header. by rewrite H. Qed.

Lemma wp_set_page p u (Q : _ -> _ -> Prop) s : is_Some (page_headers s !! p) -> Q tt (s <| page_headers := <[p := u]> (page_headers s) |>) ->
  wp (set_page p u) Q s.
Proof. intros [u' H] HQ. unfold wp, set_page. by rewrite H. Qed.

Lemma wp_child q c (Q : _ -> _ -> Prop) s : children s !! q = Some c -> Q c s -> wp (child_pool q) Q s.
Proof. intros H HQ. unfold wp, child_pool. by rewrite H. Qed.

Lemma wp_set_child q c f (Q : _ -> _ -> Prop) s : children s !! q = Some c -> Q tt (s <| children := <[q := f c]> (children s) |>) ->
  wp (set_child q f) Q s.
Proof. intros H HQ. unfold wp, set_child. by rewrite H. Qed.

(** ** Loops over the elements of a page *)

Lemma wp_orphan_elements p (Q : _ -> _ -> Prop) l : forall s, NoDup l -> (forall x, x ∈ l -> is_Some (elements s !! x)) ->
  (forall es, (forall x, es !! x = (if decide (x ∈ l) then fun e => e <| owner := Z.lor p 1 |> else id) <$> elements s !! x) ->
     Q tt (s <| elements := es |>)) ->
  wp (orphan_elements p l) Q s.
Proof.
  induction l as [|y l IH]; intros s Hd Hl HQ; cbn [orphan_elements].
  - apply wp_ret. replace s with (s <| elements := elements s |>) by (by destruct s). apply HQ. intros x. rewrite decide_False by set_solver.
    by destruct (elements s !! x).
  - inversion Hd as [|? ? Hy Hd']; subst. destruct (Hl y) as [h Hh]; [set_solver|]. apply wp_bind, (wp_set_element y h); [done|].
    apply IH; [done | |].
    + intros x Hx. cbn. rewrite lookup_insert_ne by set_solver. apply Hl. set_solver.
    + intros es Hes. cbn in Hes. apply HQ. intros x. rewrite Hes. destruct (decide (x = y)) as [->|Hne].
      * rewrite lookup_insert_eq, Hh, decide_False, decide_True by set_solver. done.
      * rewrite lookup_insert_ne by done. do 2 case_decide; set_solver.
Qed.

Lemma page_next_of_Some s p n : page_next_of s p = Some n -> page_headers s !! p = Some (Page_next n).
Proof. unfold page_next_of. destruct (page_headers s !! p) as [[]|]; naive_solver. Qed.

(** What the loops of the destruction of [q] leave alone. *)
Definition other_pools (q : Z) (s s' : slabs) : Prop :=
  running s' = running s /\ (forall x, x <> q -> children s' !! x = children s !! x) /\
  has_parent <$> children s' !! q = has_parent <$> children s !! q.

Lemma other_pools_trans q s s' s'' : other_pools q s s' -> other_pools q s' s'' -> other_pools q s s''.
Proof. intros (H1 & H2 & H3) (H4 & H5 & H6). split; [congruence|]. split; [|congruence]. intros x Hx. by rewrite H5, H2. Qed.

Lemma length_le_size {A} (m : gmap Z A) (l : list Z) : NoDup l -> (forall x, x ∈ l -> is_Some (m !! x)) -> (length l <= size m)%nat.
Proof.
  intros Hd Hl. rewrite <- (size_list_to_set (C := gset Z) l Hd), <- (size_dom (D := gset Z) m). apply subseteq_size. intros x Hx.
  apply elem_of_dom, Hl. by apply elem_of_list_to_set in Hx.
Qed.

Lemma wp_page_rounds (Q : _ -> _ -> Prop) s : Q (S (size (page_headers s))) s -> wp page_rounds Q s.
Proof. done. Qed.

Lemma wp_element_rounds (Q : _ -> _ -> Prop) s : Q (S (size (elements s))) s -> wp element_rounds Q s.
Proof. done. Qed.

Lemma wp_add_elements q p (P : Z -> Prop) sz l : forall s c (Q : _ -> _ -> Prop), children s !! q = Some c -> Z.even q = true ->
  NoDup l -> (forall x, x ∈ l -> x <> 0 /\ ~ P x /\ x + sizeof_element_header <= p + sz) ->
  lists (next_of s) (free_list c) P ->
  (forall es a, (forall x, x ∉ l -> es !! x = elements s !! x) -> (forall x, x ∈ l -> owner <$> es !! x = Some q) ->
     (l <> [] -> a <> 0) ->
     lists (fun x => elt_next <$> es !! x) a (fun x => x ∈ l \/ P x) ->
     Q tt (s <| elements := es |> <| children := <[q := c <| free_list := a |>]> (children s) |>)) ->
  wp (add_elements q p sz l) Q s.
Proof.
  revert P. induction l as [|y l IH]; intros P s c Q Hc Hq Hd Hl Hf HQ; cbn [add_elements].
  - apply wp_ret. assert (Es : s = s <| elements := elements s |> <| children := <[q := c <| free_list := free_list c |>]> (children s) |>).
    { destruct s, c. unfold update. cbn. f_equal. symmetry. by apply insert_id. }
    rewrite Es. apply HQ; try done; [intros x Hx; set_solver |]. revert Hf. apply lists_ext; [done|]. intros x. set_solver.
  - inversion Hd as [|? ? Hy Hd']; subst. destruct (Hl y) as (Hy0 & HPy & Hyb); [set_solver|].
    apply wp_bind, wp_assert; [lia|]. apply wp_bind, wp_assert; [by rewrite tag_clear|]. apply wp_bind, (wp_child q c); [done|].
    apply wp_bind. unfold wp at 1. apply wp_bind, (wp_set_child q c); [done|].
    apply (IH (fun x => x = y \/ P x) _ (c <| free_list := y |>)); [cbn; apply lookup_insert_eq | done | done | | |].
    + intros x Hx. destruct (Hl x) as (? & ? & ?); [set_solver|]. split; [done|]. split; [|done]. intros [->|]; done.
    + revert Hf. apply lists_push; [done | done | | | done].
      * unfold next_of. cbn. by rewrite lookup_insert_eq.
      * intros x Hx. unfold next_of. cbn. rewrite lookup_insert_ne; [done|]. by intros ->.
    + intros es a He Ho Ha Hli. cbn in He. 
      replace (_ <| children := _ |>) with (s <| elements := es |> <| children := <[q := c <| free_list := a |>]> (children s) |>).
      2: { unfold update. cbn. by rewrite insert_insert_eq. }
      apply HQ.
      * intros x Hx. rewrite He by set_solver. rewrite lookup_insert_ne by set_solver. done.
      * intros x Hx. destruct (decide (x ∈ l)) as [Hxl|Hxl]; [by apply Ho|]. assert (x = y) as -> by set_solver.
        rewrite He, lookup_insert_eq by done. done.
      * intros _. destruct l as [|z l]; [|by apply Ha]. intros ->. by apply (lists_null _ _ Hli y); auto.
      * revert Hli. apply lists_ext; [done|]. intros x. rewrite elem_of_cons. tauto.
Qed.

(** ** The invariant *)

Section pools.
Context (par : slab_parent_pool).

(** The sizes of [slab_create_parent]: a page has an element, and its size is
    not truncated to 32 bits. *)
Definition parent_ok : Prop :=
  1 <= num_elements par /\ sizeof_element_header <= element_size par /\ num_elements par * element_size par < 2 ^ 32.
Context (Hpar : parent_ok).

Definition page_size : Z := sizeof_page_header + num_elements par * element_size par.

Lemma page_elements_in p e : e ∈ page_elements par p <->
  exists i, 0 <= i < num_elements par /\ e = p + sizeof_page_header + element_size par * i.
Proof using Hpar.
  destruct Hpar as (Hn & Hs & Hm). unfold page_elements, sizeof_element_header in *. rewrite list_elem_of_fmap. split.
  - intros (i & -> & Hi). apply elem_of_seqZ in Hi. exists i. split; [lia|]. unfold slab_get_element. rewrite wrap_small by nia. done.
  - intros (i & Hi & ->). exists i. split; [|apply elem_of_seqZ; lia]. unfold slab_get_element. rewrite wrap_small by nia. done.
Qed.

Lemma page_elements_NoDup p : NoDup (page_elements par p).
Proof using Hpar.
  destruct Hpar as (Hn & Hs & Hm). unfold page_elements, sizeof_element_header in *. apply NoDup_fmap_2_strong; [|apply NoDup_seqZ].
  intros i j Hi Hj E. apply elem_of_seqZ in Hi, Hj. unfold slab_get_element in E. rewrite !wrap_small in E by nia. nia.
Qed.

(** An element lies inside its page. *)
Lemma page_elements_inside p e : e ∈ page_elements par p -> p + sizeof_page_header <= e /\ e + element_size par <= p + page_size.
Proof using Hpar.
  intros He. apply page_elements_in in He as (i & Hi & ->). destruct Hpar as (Hn & Hs & Hm).
  unfold page_size, sizeof_element_header, sizeof_page_header in *. nia.
Qed.

Definition apart (p p' : Z) : Prop := p + page_size <= p' \/ p' + page_size <= p.

Lemma apart_elements p p' e : apart p p' -> e ∈ page_elements par p -> e ∈ page_elements par p' -> False.
Proof using Hpar.
  intros Hap H1 H2. apply page_elements_inside in H1, H2. destruct Hpar as (Hn & Hs & Hm).
  unfold apart, sizeof_element_header, sizeof_page_header in *. lia.
Qed.

Definition remaining (loc : gmap Z place) (p : Z) : Z := count loc (page_elements par p).

Definition child_ok (loc : gmap Z place) (pg : gmap Z Z) (s : slabs) (q : Z) (c : slab_child_pool) : Prop :=
  Z.even q = true /\ q <> 0 /\
  lists (next_of s) (free_list c) (fun e => loc !! e = Some (On_free q)) /\
  lists (next_of s) (migrated c) (fun e => loc !! e = Some (On_migrated q)) /\
  lists (page_next_of s) (pages c) (fun p => pg !! p = Some q) /\
  (has_parent c = false -> pages c = 0 /\ free_list c = 0 /\ migrated c = 0).

(** [pg] has the pages, each with the owner of its elements: a pool, which is
    even, or the page itself plus 1. *)
Record heap_ok (loc : gmap Z place) (pg : gmap Z Z) (s : slabs) : Prop := {
  ok_parent : parent_pool s = par;
  ok_pages : forall p, is_Some (page_headers s !! p) <-> is_Some (pg !! p);
  ok_page : forall p o, pg !! p = Some o -> 0 < p /\ Z.even p = true;
  ok_apart : forall p p', is_Some (pg !! p) -> is_Some (pg !! p') -> p <> p' -> apart p p';
  ok_elements : forall e o, owner_of s e = Some o -> exists p, pg !! p = Some o /\ e ∈ page_elements par p;
  ok_owner : forall p o e, pg !! p = Some o -> e ∈ page_elements par p -> owner_of s e = Some o;
  ok_owned : forall p q, pg !! p = Some q -> Z.even q = true -> alive s q /\ is_Some (page_next_of s p) /\
    forall e, e ∈ page_elements par p -> is_Some (loc !! e);
  ok_orphan : forall p o, pg !! p = Some o -> Z.even o = false -> o = p + 1 /\
    page_headers s !! p = Some (Num_remaining (remaining loc p)) /\ 0 < remaining loc p;
  ok_loc : forall e l, loc !! e = Some l -> is_Some (owner_of s e);
  ok_home : forall e q, loc !! e = Some (On_free q) \/ loc !! e = Some (On_migrated q) ->
    is_Some (children s !! q) /\ exists o, owner_of s e = Some o /\ (o = q \/ Z.even o = false);
  ok_children : forall q c, children s !! q = Some c -> child_ok loc pg s q c
}.

Lemma page_elements_length p : Z.of_nat (length (page_elements par p)) = num_elements par.
Proof using Hpar. destruct Hpar as (Hn & _). unfold page_elements. rewrite length_fmap, length_seqZ. lia. Qed.

(** ** Changes that leave the pages alone *)

Lemma child_ok_other loc pg s loc' pg' s' q c : child_ok loc pg s q c ->
  (forall e l, l = On_free q \/ l = On_migrated q -> loc' !! e = Some l <-> loc !! e = Some l) ->
  (forall e l, l = On_free q \/ l = On_migrated q -> loc !! e = Some l -> next_of s' e = next_of s e) ->
  (forall p, pg' !! p = Some q <-> pg !! p = Some q) ->
  (forall p, pg !! p = Some q -> page_next_of s' p = page_next_of s p) ->
  child_ok loc' pg' s' q c.
Proof.
  intros (He & H0 & Hf & Hm & Hp & Hd) Hl Hn Hpg Hpn. split; [done|]. split; [done|].
  split; [|split; [|split; [|done]]].
  - revert Hf. apply lists_ext; intros e; [intros H; apply (Hn e (On_free q)); auto | apply Hl; auto].
  - revert Hm. apply lists_ext; intros e; [intros H; apply (Hn e (On_migrated q)); auto | apply Hl; auto].
  - revert Hp. apply lists_ext; auto.
Qed.

Lemma heap_ok_moved loc pg s loc' s' : heap_ok loc pg s ->
  parent_pool s' = parent_pool s -> page_headers s' = page_headers s ->
  (forall e, owner_of s' e = owner_of s e) -> (forall e, is_Some (loc' !! e) <-> is_Some (loc !! e)) ->
  (forall q, has_parent <$> children s' !! q = has_parent <$> children s !! q) ->
  (forall e q, loc' !! e = Some (On_free q) \/ loc' !! e = Some (On_migrated q) ->
    is_Some (children s !! q) /\ exists o, owner_of s e = Some o /\ (o = q \/ Z.even o = false)) ->
  (forall q c, children s' !! q = Some c -> child_ok loc' pg s' q c) ->
  heap_ok loc' pg s'.
Proof.
  intros [] Hpp Hph Ho Hl Hc Hh Hch.
  assert (Hpn : forall p, page_next_of s' p = page_next_of s p) by (intros p; unfold page_next_of; by rewrite Hph).
  constructor; [congruence | by rewrite Hph | done | done | | | | | | | done].
  - intros e o. rewrite Ho. apply ok_elements0.
  - intros p o e. rewrite Ho. apply ok_owner0.
  - intros p q Hp Hq. destruct (ok_owned0 p q Hp Hq) as ((c & Ec & Ep) & Hn & He). split; [|split].
    + specialize (Hc q). rewrite Ec in Hc. cbn in Hc. destruct (children s' !! q) as [c'|] eqn:Ec'; [|done].
      injection Hc as Hc. exists c'. split; [done | congruence].
    + by rewrite Hpn.
    + intros e Hin. apply Hl. auto.
  - intros p o Hp Hev. destruct (ok_orphan0 p o Hp Hev) as (E & Hu & Hr). unfold remaining in *.
    rewrite (count_ext loc loc') by (intros; apply Hl). by rewrite Hph.
  - intros e l He. rewrite Ho. assert (Hs : is_Some (loc !! e)) by (apply Hl; eauto). destruct Hs as [l' Hl']. eauto.
  - intros e q H. rewrite Ho. destruct (Hh e q H) as [Hcq Hown]. split; [|done].
    specialize (Hc q). destruct Hcq as [c Ec]. rewrite Ec in Hc. cbn in Hc. destruct (children s' !! q); [eauto | done].
Qed.
(** Changes of the lists of one pool. *)
Lemma heap_ok_relist loc pg s q c c' loc' es :
  let s' := s <| elements := es |> <| children := <[q := c']> (children s) |> in
  heap_ok loc pg s -> children s !! q = Some c ->
  has_parent c' = has_parent c -> pages c' = pages c -> (has_parent c = false -> free_list c' = 0 /\ migrated c' = 0) ->
  (forall e, owner_of s' e = owner_of s e) -> (forall e, is_Some (loc' !! e) <-> is_Some (loc !! e)) ->
  (forall e l q', q' <> q -> l = On_free q' \/ l = On_migrated q' ->
     (loc' !! e = Some l <-> loc !! e = Some l) /\ (loc !! e = Some l -> next_of s' e = next_of s e)) ->
  (forall e, loc' !! e = Some (On_free q) \/ loc' !! e = Some (On_migrated q) ->
     exists o, owner_of s e = Some o /\ (o = q \/ Z.even o = false)) ->
  lists (next_of s') (free_list c') (fun e => loc' !! e = Some (On_free q)) ->
  lists (next_of s') (migrated c') (fun e => loc' !! e = Some (On_migrated q)) ->
  heap_ok loc' pg s'.
Proof.
  intros s' Hok Hc Hhp Hpg Hdead Ho Hl Hother Hhome Hf Hm.
  assert (Hlk : forall x, children s' !! x = if decide (x = q) then Some c' else children s !! x).
  { intros x. unfold s'. cbn. case_decide; [subst; apply lookup_insert_eq | by apply lookup_insert_ne]. }
  apply (heap_ok_moved loc pg s); try done.
  - intros x. rewrite Hlk. case_decide; [subst; rewrite Hc; cbn; by rewrite Hhp | done].
  - intros e x H. destruct (decide (x = q)) as [->|Hne]; [split; [eauto | by apply Hhome]|].
    apply (ok_home _ _ _ Hok). destruct H as [H|H]; [left | right]; (apply (Hother e _ x Hne) in H; [done | auto]).
  - intros x d. rewrite Hlk. case_decide as Hx; intros Hd; pose proof (ok_children _ _ _ Hok) as Hch.
    + subst x. injection Hd as <-. destruct (Hch q c Hc) as (He & H0 & _ & _ & Hp & Hdd). split; [done|]. split; [done|].
      split; [done|]. split; [done|]. split; [rewrite Hpg; exact Hp|]. intros Hfa. rewrite Hhp in Hfa.
      destruct (Hdead Hfa) as [-> ->]. rewrite Hpg. split; [by apply Hdd | done].
    + apply (child_ok_other loc pg s); [by apply Hch | | | done | done].
      * intros e l Hcase. by apply (Hother e l x).
      * intros e l Hcase. by apply (Hother e l x).
Qed.

Lemma child_lists loc pg s q c k : heap_ok loc pg s -> children s !! q = Some c -> on_list q k ->
  lists (next_of s) (list_head k c) (fun e => loc !! e = Some k).
Proof. intros Hok Hc Hk. destruct (ok_children _ _ _ Hok q c Hc) as (_ & _ & Hf & Hm & _). destruct Hk as [-> | ->]; done. Qed.

(** [heap_ok_relist] for a change of the list [k]. *)
Lemma heap_ok_head loc pg s q c k a loc' es :
  let s' := s <| elements := es |> <| children := <[q := set_head k a c]> (children s) |> in
  heap_ok loc pg s -> children s !! q = Some c -> on_list q k -> (has_parent c = false -> a = 0) ->
  (forall e, owner_of s' e = owner_of s e) -> (forall e, is_Some (loc' !! e) <-> is_Some (loc !! e)) ->
  (forall e k', ~ loose k' -> k' <> k -> (loc' !! e = Some k' <-> loc !! e = Some k') /\
     (loc !! e = Some k' -> next_of s' e = next_of s e)) ->
  (forall e, loc' !! e = Some k -> exists o, owner_of s e = Some o /\ (o = q \/ Z.even o = false)) ->
  lists (next_of s') a (fun e => loc' !! e = Some k) ->
  heap_ok loc' pg s'.
Proof.
  intros s' Hok Hc Hk Hdead Ho Hl Hother Hhome Ha.
  assert (Hlists : forall k', on_list q k' -> lists (next_of s') (list_head k' (set_head k a c)) (fun e => loc' !! e = Some k')).
  { intros k' Hk'. destruct (decide (k' = k)) as [->|Hne]; [by rewrite (set_head_same q)|].
    rewrite (set_head_other q) by done. pose proof (child_lists loc pg s q c k' Hok Hc Hk') as H. revert H.
    apply lists_ext; intros x; [apply Hother | apply Hother]; eauto using on_list_listed. }
  apply (heap_ok_relist loc pg s q c); try done; try apply set_head_rest.
  - intros Hfa. specialize (Hdead Hfa). destruct (ok_children _ _ _ Hok q c Hc) as (_ & _ & _ & _ & _ & Hd).
    destruct (Hd Hfa) as (_ & Hf & Hm). destruct Hk as [-> | ->]; done.
  - intros e l q' Hq Hlq. apply Hother; [destruct Hlq; subst; auto | destruct Hk, Hlq; congruence].
  - intros e He. assert (Hall : forall k', on_list q k' -> loc' !! e = Some k' -> exists o, owner_of s e = Some o /\ (o = q \/ Z.even o = false)).
    { intros k' Hk' Hek. destruct (decide (k' = k)) as [->|Hne]; [by apply Hhome|].
      apply (Hother e k' (on_list_listed q k' Hk') Hne) in Hek. apply (ok_home _ _ _ Hok). destruct Hk' as [-> | ->]; auto. }
    destruct He as [He|He]; (eapply Hall; [|exact He]); [by left | by right].
  - apply (Hlists (On_free q)). by left.
  - apply (Hlists (On_migrated q)). by right.
Qed.

Lemma pop_list loc pg s q c k : heap_ok loc pg s -> children s !! q = Some c -> on_list q k -> list_head k c <> 0 ->
  exists h, elements s !! list_head k c = Some h /\ loc !! list_head k c = Some k /\
    forall l, loose l ->
      heap_ok (<[list_head k c := l]> loc) pg (s <| children := <[q := set_head k (elt_next h) c]> (children s) |>).
Proof.
  intros Hok Hc Hk Hne. pose proof (on_list_listed q k Hk) as Hnl.
  destruct (lists_pop _ _ _ Hne (child_lists loc pg s q c k Hok Hc Hk)) as (Hloc & b & Hb & Hf).
  destruct (next_of_Some s _ b Hb) as (h & Hh & <-). exists h. split; [done|]. split; [done|]. intros l Hl.
  set (e := list_head k c) in *. pose proof (fun x k' => insert_loose loc e l x k' Hl) as Hins.
  apply (heap_ok_head loc pg s q c k (elt_next h) _ (elements s)); try done.
  - intros Hfa. destruct (ok_children _ _ _ Hok q c Hc) as (_ & _ & _ & _ & _ & Hd). destruct (Hd Hfa) as (_ & E1 & E2).
    destruct Hk as [-> | ->]; done.
  - intros x. apply insert_is_Some. eauto.
  - intros x k' Hk' Hkk. split; [|done]. rewrite Hins by done. split; [tauto|]. intros Hx. split; [done|]. intros ->. congruence.
  - intros x Hx. apply Hins in Hx as [Hx _]; [|done]. apply (ok_home _ _ _ Hok). destruct Hk as [-> | ->]; auto.
  - revert Hf. apply lists_ext; [done|]. intros x. by apply Hins.
Qed.

Lemma element_not_null loc pg s e o : heap_ok loc pg s -> owner_of s e = Some o -> e <> 0.
Proof using Hpar.
  intros Hok He. destruct (ok_elements _ _ _ Hok e o He) as (p & Hp & Hin). apply page_elements_inside in Hin.
  destruct (ok_page _ _ _ Hok p o Hp) as [? _]. unfold sizeof_page_header in *. lia.
Qed.

Lemma push_list loc pg s q c k e h k0 : heap_ok loc pg s -> children s !! q = Some c -> has_parent c = true -> on_list q k ->
  loc !! e = Some k0 -> loose k0 -> elements s !! e = Some h -> owner h = q ->
  heap_ok (<[e := k]> loc) pg (s <| elements := <[e := h <| elt_next := list_head k c |>]> (elements s) |>
    <| children := <[q := set_head k e c]> (children s) |>).
Proof using Hpar.
  intros Hok Hc Hhp Hk He Hk0 Hh Ho. pose proof (on_list_listed q k Hk) as Hnl.
  assert (Hoe : owner_of s e = Some q) by (unfold owner_of; rewrite Hh; cbn; by rewrite Ho).
  assert (Hni : forall x k', ~ loose k' -> loc !! x = Some k' -> x <> e) by (intros x k' Hk' Hx ->; congruence).
  pose proof (fun x k' => insert_listed loc e k0 k x k' He Hk0 Hnl) as Hins.
  apply (heap_ok_head loc pg s q c k); try done.
  - intros Hfa. congruence.
  - intros x. by apply relink_owner.
  - intros x. apply insert_is_Some. eauto.
  - intros x k' Hk' Hkk. split.
    + rewrite Hins by done. split; [intros [[_ ?]|]; done | auto].
    + intros Hx. rewrite relink_next, decide_False by (by apply (Hni x k')). done.
  - intros x Hx. apply Hins in Hx as [[-> _]|Hx]; [eauto| |done]. apply (ok_home _ _ _ Hok). destruct Hk as [-> | ->]; auto.
  - pose proof (child_lists loc pg s q c k Hok Hc Hk) as H. revert H. apply lists_push.
    + by apply (element_not_null loc pg s e q).
    + intros Hx. by apply (Hni e k).
    + by rewrite relink_next, decide_True.
    + intros x Hx. rewrite relink_next, decide_False by (by apply (Hni x k)). done.
    + intros x. rewrite Hins by done. tauto.
Qed.

Lemma take_migrated loc pg s q c : heap_ok loc pg s -> children s !! q = Some c -> free_list c = 0 ->
  heap_ok (taken q <$> loc) pg (s <| children := <[q := c <| free_list := migrated c |> <| migrated := 0 |>]> (children s) |>).
Proof.
  intros Hok Hc H0. destruct (ok_children _ _ _ Hok q c Hc) as (_ & _ & Hf & Hm & _ & Hd). rewrite H0 in Hf.
  pose proof (lists_null _ _ Hf) as Hnone.
  assert (Hl : forall x k, k <> On_free q -> (taken q <$> loc) !! x = Some k <-> loc !! x = Some k /\ k <> On_migrated q).
  { intros x k Hk. rewrite lookup_fmap. unfold taken. destruct (loc !! x) as [k'|]; cbn; [|split; [done | by intros [? _]]].
    case_decide as Hd'; split; intros Ht; [congruence | destruct Ht; congruence | split; congruence | destruct Ht; congruence]. }
  assert (Hlf : forall x, (taken q <$> loc) !! x = Some (On_free q) <-> loc !! x = Some (On_migrated q)).
  { intros x. rewrite lookup_fmap. unfold taken. assert (Hx : loc !! x <> Some (On_free q)) by apply Hnone. destruct (loc !! x) as [k'|]; cbn; [|split; done].
    case_decide as Hd'; split; intros Ht; congruence. }
  apply (heap_ok_relist loc pg s q c _ _ (elements s)); try done.
  - intros Hfa. cbn. split; [by apply Hd | done].
  - intros x. rewrite lookup_fmap, fmap_is_Some. done.
  - intros x k q' Hq Hk. split; [|done]. rewrite Hl by (destruct Hk; congruence). split; [tauto|]. intros Hx. split; [done|]. destruct Hk; congruence.
  - intros x Hx. apply (ok_home _ _ _ Hok). right. destruct Hx as [Hx|Hx]; [by apply Hlf | by apply Hl in Hx as [? _]].
  - revert Hm. apply lists_ext; [done | exact Hlf].
  - apply lists_nil. intros x Hx. apply Hl in Hx as [_ ?]; done.
Qed.
(** ** Elements of orphaned pages *)

Lemma pages_differ loc pg s p p' e : heap_ok loc pg s -> is_Some (pg !! p) -> is_Some (pg !! p') -> p' <> p ->
  e ∈ page_elements par p -> e ∉ page_elements par p'.
Proof using Hpar.
  intros Hok Hp Hp' Hne He He'. apply (apart_elements p p' e); [|done|done]. apply (ok_apart _ _ _ Hok); auto.
Qed.

Section release.
Context (loc : gmap Z place) (pg : gmap Z Z) (s : slabs) (e : Z) (k0 : place) (p : Z).
Context (Hok : heap_ok loc pg s) (He : loc !! e = Some k0) (Hk0 : loose k0).
Context (Hp : pg !! p = Some (p + 1)) (Hin : e ∈ page_elements par p).

Lemma orphan_odd : Z.even (p + 1) = false.
Proof using Hok Hp. destruct (ok_page _ _ _ Hok p _ Hp) as [_ Hev]. rewrite Z.even_add, Hev. done. Qed.

Lemma not_orphan x q : pg !! x = Some q -> Z.even q = true -> x <> p.
Proof using Hok Hp. intros Hx Hq ->. rewrite Hp in Hx. injection Hx as <-. rewrite orphan_odd in Hq. done. Qed.

Lemma elsewhere x : is_Some (pg !! x) -> x <> p -> e ∉ page_elements par x.
Proof using Hok Hp Hin Hpar. intros Hx Hne. apply (pages_differ loc pg s p x e); eauto. Qed.

Lemma remaining_deleted : remaining (delete e loc) p = remaining loc p - 1.
Proof using He Hin Hpar. apply count_delete; [apply page_elements_NoDup | done | eauto]. Qed.

Lemma remaining_elsewhere x : is_Some (pg !! x) -> x <> p -> remaining (delete e loc) x = remaining loc x.
Proof using Hok Hp Hin Hpar.
  intros Hx Hne. apply count_ext. intros y Hy. rewrite lookup_delete_ne; [done|]. intros <-. by apply (elsewhere x).
Qed.

Lemma released_child s' pg' q c : children s !! q = Some c ->
  (forall x, pg' !! x = Some q <-> pg !! x = Some q) ->
  (forall x, pg !! x = Some q -> page_next_of s' x = page_next_of s x) ->
  (forall x, is_Some (delete e loc !! x) -> next_of s' x = next_of s x) ->
  child_ok (delete e loc) pg' s' q c.
Proof using Hok He Hk0.
  intros Hc Hpg Hpn Hn. apply (child_ok_other loc pg s); [by apply (ok_children _ _ _ Hok) | | | done | done].
  - intros x k Hk. apply (delete_loose loc e k0); auto. destruct Hk; subst; auto.
  - intros x k Hk Hx. apply Hn. exists k. apply (delete_loose loc e k0); auto. destruct Hk; subst; auto.
Qed.

(** The page keeps other elements. *)
Lemma release_some : let s' := s <| page_headers := <[p := Num_remaining (remaining loc p - 1)]> (page_headers s) |> in
  1 < remaining loc p -> heap_ok (delete e loc) pg s'.
Proof using Hok He Hk0 Hp Hin Hpar.
  intros s' Hr. pose proof Hok as [].
  assert (Hpn : forall x, x <> p -> page_headers s' !! x = page_headers s !! x) by (intros x Hx; unfold s'; cbn; by rewrite lookup_insert_ne).
  assert (Hpn' : forall x, x <> p -> page_next_of s' x = page_next_of s x) by (intros x Hx; unfold page_next_of; by rewrite Hpn).
  constructor; try done.
  - intros x. destruct (decide (x = p)) as [->|Hx]; [|by rewrite Hpn]. unfold s'. cbn. rewrite lookup_insert_eq, Hp. split; eauto.
  - intros x q Hx Hq. destruct (ok_owned0 x q Hx Hq) as (Ha & Hn & Hl). pose proof (not_orphan x q Hx Hq) as Hne.
    split; [done|]. split; [by rewrite Hpn'|]. intros y Hy. rewrite lookup_delete_ne; [by apply Hl|]. intros <-. by apply (elsewhere x); eauto.
  - intros x o Hx Ho. destruct (ok_orphan0 x o Hx Ho) as (E & Hu & Hlt). split; [done|]. destruct (decide (x = p)) as [->|Hne].
    + rewrite remaining_deleted. unfold s'. cbn. rewrite lookup_insert_eq. split; [done | lia].
    + rewrite remaining_elsewhere, Hpn by eauto. done.
  - intros x k Hx. apply lookup_delete_Some in Hx as [_ Hx]. by apply (ok_loc0 x k).
  - intros x q Hx. rewrite !(delete_loose loc e k0) in Hx by auto. by apply ok_home0.
  - intros q c Hc. apply released_child; [done | done | | done]. intros x Hx. apply Hpn'.
    destruct (ok_children0 q c Hc) as (Hq & _). by apply (not_orphan x q).
Qed.

(** The page is freed with its last element. *)
Lemma release_last : let s' := s <| page_headers := delete p (page_headers s) |> <| elements := foldr delete (elements s) (page_elements par p) |> in
  remaining loc p = 1 -> heap_ok (delete e loc) (delete p pg) s'.
Proof using Hok He Hk0 Hp Hin Hpar.
  intros s' Hr. pose proof Hok as []. pose proof remaining_deleted as Hz.
  assert (Hgone : forall x, x ∈ page_elements par p -> delete e loc !! x = None) by (apply count_none; unfold remaining in *; lia).
  assert (Hel : forall x, elements s' !! x = if decide (x ∈ page_elements par p) then None else elements s !! x) by (intros x; apply lookup_delete_all).
  assert (Hkeep : forall x, is_Some (delete e loc !! x) -> elements s' !! x = elements s !! x).
  { intros x [k Hx]. rewrite Hel. case_decide as Hd; [|done]. by rewrite Hgone in Hx. }
  assert (Hpn' : forall x, x <> p -> page_next_of s' x = page_next_of s x) by (intros x Hx; unfold page_next_of, s'; cbn; by rewrite lookup_delete_ne).
  assert (Hpg : forall x o, delete p pg !! x = Some o <-> x <> p /\ pg !! x = Some o) by (intros x o; rewrite lookup_delete_Some; naive_solver).
  constructor; try done.
  - intros x. unfold s'. cbn. destruct (decide (x = p)) as [->|Hx]; [rewrite !lookup_delete_eq; done | by rewrite !lookup_delete_ne].
  - intros x o Hx. apply Hpg in Hx as [_ Hx]. by apply (ok_page0 x o).
  - intros x y [o Hx] [o' Hy]. apply Hpg in Hx as [_ Hx]. apply Hpg in Hy as [_ Hy]. apply ok_apart0; eauto.
  - intros x o. unfold owner_of. rewrite Hel. case_decide as Hd; [done|]. intros Hx. destruct (ok_elements0 x o Hx) as (y & Hy & Hi).
    exists y. split; [|done]. apply Hpg. split; [by intros -> | done].
  - intros x o y Hx Hy. apply Hpg in Hx as [Hne Hx]. unfold owner_of. rewrite Hel, decide_False; [by apply (ok_owner0 x o y)|].
    apply (pages_differ loc pg s x p y); eauto.
  - intros x q Hx Hq. apply Hpg in Hx as [Hne Hx]. destruct (ok_owned0 x q Hx Hq) as (Ha & Hn & Hl).
    split; [done|]. split; [by rewrite Hpn'|]. intros y Hy. rewrite lookup_delete_ne; [by apply Hl|]. intros <-. by apply (elsewhere x); eauto.
  - intros x o Hx Ho. apply Hpg in Hx as [Hne Hx]. destruct (ok_orphan0 x o Hx Ho) as (E & Hu & Hlt). split; [done|].
    rewrite remaining_elsewhere by eauto. unfold s'. cbn. by rewrite lookup_delete_ne.
  - intros x k Hx. unfold owner_of. rewrite Hkeep by eauto. apply lookup_delete_Some in Hx as [_ Hx]. by apply (ok_loc0 x k).
  - intros x q Hx. assert (Hkx : owner_of s' x = owner_of s x) by (unfold owner_of; rewrite Hkeep; [done | destruct Hx; eauto]).
    rewrite Hkx. rewrite !(delete_loose loc e k0) in Hx by auto. by apply ok_home0.
  - intros q c Hc. destruct (ok_children0 q c Hc) as (Hq & _). apply released_child; [done | | |].
    + intros x. rewrite Hpg. split; [tauto|]. intros Hx. split; [by apply (not_orphan x q) | done].
    + intros x Hx. apply Hpn'. by apply (not_orphan x q).
    + intros x Hx. unfold next_of. by rewrite Hkeep.
Qed.
End release.

(** An orphaned element that has left the lists is released. *)
Lemma wp_free_orphaned loc pg s e k0 o (Q : _ -> _ -> Prop) : heap_ok loc pg s -> loc !! e = Some k0 -> loose k0 ->
  owner_of s e = Some o -> Z.even o = false ->
  (forall pg' s', heap_ok (delete e loc) pg' s' -> spared (delete e loc) s s' -> (forall x q, Z.even q = true -> pg' !! x = Some q <-> pg !! x = Some q) -> Q tt s') ->
  wp (slab_free_orphaned e) Q s.
Proof using Hpar.
  intros Hok He Hk0 Ho Hodd HQ. destruct (owner_of_Some s e o Ho) as (h & Hh & <-).
  destruct (ok_elements _ _ _ Hok e _ Ho) as (p & Hp & Hin). destruct (ok_orphan _ _ _ Hok p _ Hp Hodd) as (Eo & Hu & Hr).
  destruct (ok_page _ _ _ Hok p _ Hp) as [_ Hev]. rewrite Eo in Hp.
  assert (Hlt : remaining loc p < 2 ^ 32).
  { pose proof (count_bound loc (page_elements par p)) as Hb. rewrite page_elements_length in Hb. unfold remaining. destruct Hpar as (? & Hs & ?).
    unfold sizeof_element_header in Hs. nia. }
  unfold slab_free_orphaned, dec_remaining. apply wp_bind, (wp_element e h); [done|]. apply wp_bind, wp_assert; [by rewrite tag_clear, Hodd|].
  rewrite Eo, tag_removed by done. apply wp_bind, wp_bind, (wp_page p _ _ _ Hu), wp_bind, wp_set_page; [by rewrite Hu|].
  apply wp_ret. rewrite wrap_small by lia. destruct (remaining loc p - 1 =? 0) eqn:E.
  - unfold wp, free_page. cbn. rewrite lookup_insert_eq, delete_insert_eq, (ok_parent _ _ _ Hok).
    apply (HQ (delete p pg)); [apply (release_last loc pg s e k0 p); try done; lia| |].
    + split; [done|]. split; [done|]. intros x [k Hx]. cbn. rewrite lookup_delete_all, decide_False; [done|]. intros Hxp.
      assert (Hgone : delete e loc !! x = None); [|congruence]. apply (count_none _ (page_elements par p)); [|done].
      change (remaining (delete e loc) p <= 0). rewrite remaining_deleted with (k0 := k0); [lia|done..].
    + intros x q Hq. rewrite lookup_delete_Some. split; [tauto|]. intros Hx. split; [|done]. intros <-. by eapply not_orphan.
  - apply wp_ret. apply (HQ pg); [apply (release_some loc pg s e k0 p); try done; lia | done | done].
Qed.

(** ** The destruction of a pool *)

Section orphan.
Context (loc : gmap Z place) (pg : gmap Z Z) (s : slabs) (q p : Z) (c : slab_child_pool) (n : Z).
Context (Hok : heap_ok loc pg s) (Hc : children s !! q = Some c) (Hp : pages c = p) (H0 : p <> 0).
Context (Hpq : pg !! p = Some q).
Context (Hrest : lists (page_next_of s) n (fun x => pg !! x = Some q /\ x <> p)).
Context (es : gmap Z slab_element_header).
Context (Hes : forall x, es !! x = (if decide (x ∈ page_elements par p) then fun e => e <| owner := p + 1 |> else id) <$> elements s !! x).

Definition orphaned : slabs := s <| children := <[q := c <| pages := n |>]> (children s) |>
  <| page_headers := <[p := Num_remaining (num_elements par)]> (page_headers s) |> <| elements := es |>.

Lemma orphaned_next x : next_of orphaned x = next_of s x.
Proof using Hes. unfold next_of. cbn. rewrite Hes. case_decide; destruct (elements s !! x); done. Qed.

Lemma orphaned_owner x : owner_of orphaned x = (if decide (x ∈ page_elements par p) then fun _ => p + 1 else id) <$> owner_of s x.
Proof using Hes. unfold owner_of. cbn. rewrite Hes. case_decide; destruct (elements s !! x); done. Qed.

Lemma orphaned_page_next x : x <> p -> page_next_of orphaned x = page_next_of s x.
Proof. intros Hx. unfold page_next_of. cbn. by rewrite lookup_insert_ne. Qed.

Lemma orphaned_child x d : children orphaned !! x = Some d ->
  exists d0, children s !! x = Some d0 /\ has_parent d = has_parent d0 /\ free_list d = free_list d0 /\ migrated d = migrated d0.
Proof using Hc.
  cbn. destruct (decide (x = q)) as [->|Hx]; [|rewrite lookup_insert_ne by done; eauto].
  rewrite lookup_insert_eq. intros E. injection E as <-. eauto.
Qed.

Lemma orphaned_some x : is_Some (children s !! x) -> is_Some (children orphaned !! x).
Proof. intros Hx. cbn. destruct (decide (x = q)) as [->|Hq]; [rewrite lookup_insert_eq; eauto | by rewrite lookup_insert_ne]. Qed.

Lemma orphaned_alive x : alive s x -> alive orphaned x.
Proof using Hc.
  intros (d & Hd & Ha). unfold alive. cbn. destruct (decide (x = q)) as [->|Hx]; [|rewrite lookup_insert_ne by done; eauto].
  rewrite lookup_insert_eq. exists (c <| pages := n |>). split; [done|]. cbn. congruence.
Qed.

Lemma orphaned_lists x d : children orphaned !! x = Some d -> child_ok loc (<[p := p + 1]> pg) orphaned x d.
Proof using Hok Hc Hp H0 Hpq Hrest Hes.
  intros Hd. destruct (ok_page _ _ _ Hok p q Hpq) as [_ Hev].
  assert (Hodd : forall y z, Z.even z = true -> <[p := p + 1]> pg !! y = Some z <-> pg !! y = Some z /\ y <> p).
  { intros y z Hz. destruct (decide (y = p)) as [->|Hy]; [|rewrite lookup_insert_ne by done; tauto].
    rewrite lookup_insert_eq. split; [|tauto]. intros E. injection E as <-. rewrite Z.even_add, Hev in Hz. done. }
  cbn in Hd. destruct (decide (x = q)) as [->|Hx].
  - rewrite lookup_insert_eq in Hd. injection Hd as <-. destruct (ok_children _ _ _ Hok q c Hc) as (Hq & Hq0 & Hf & Hm & Hl & Hdd).
    split; [done|]. split; [done|]. cbn. split; [|split; [|split]].
    + revert Hf. apply lists_ext; [intros; apply orphaned_next | done].
    + revert Hm. apply lists_ext; [intros; apply orphaned_next | done].
    + revert Hrest. apply lists_ext; [intros y [_ Hy]; by apply orphaned_page_next | intros y; by apply Hodd].
    + intros Hfa. destruct (Hdd Hfa) as (E & _). congruence.
  - rewrite lookup_insert_ne in Hd by done. pose proof (ok_children _ _ _ Hok x d Hd) as Hch. assert (Hq : Z.even x = true) by apply Hch.
    assert (Hxp : forall y, pg !! y = Some x -> y <> p) by (intros y Hy ->; congruence).
    apply (child_ok_other loc pg s); [done | done | intros; apply orphaned_next | |].
    + intros y. rewrite Hodd by done. split; [tauto|]. intros Hy. split; [done | by apply Hxp].
    + intros y Hy. apply orphaned_page_next. by apply Hxp.
Qed.

Lemma heap_ok_orphan : heap_ok loc (<[p := p + 1]> pg) orphaned.
Proof using Hok Hc Hp H0 Hpq Hrest Hes Hpar.
  pose proof Hok as []. destruct (ok_page0 p q Hpq) as [Hpos Hev]. destruct (ok_children0 q c Hc) as (Hqe & _).
  assert (Hodd : Z.even (p + 1) = false) by (rewrite Z.even_add, Hev; done).
  destruct (ok_owned0 p q Hpq Hqe) as (_ & _ & Hall).
  assert (Hsome : forall x, is_Some (<[p := p + 1]> pg !! x) <-> is_Some (pg !! x)).
  { intros x. destruct (decide (x = p)) as [->|Hx]; [rewrite lookup_insert_eq, Hpq; split; eauto | by rewrite lookup_insert_ne]. }
  assert (Hcase : forall x o, <[p := p + 1]> pg !! x = Some o -> (x = p /\ o = p + 1) \/ (x <> p /\ pg !! x = Some o)).
  { intros x o. destruct (decide (x = p)) as [->|Hx]; [rewrite lookup_insert_eq; naive_solver | rewrite lookup_insert_ne by done; auto]. }
  assert (Hout : forall x o y, pg !! x = Some o -> x <> p -> y ∈ page_elements par x -> y ∉ page_elements par p).
  { intros x o y Hx Hne Hy. apply (pages_differ loc pg s x p y); eauto. }
  constructor; [done | | | | | | | | | | exact orphaned_lists].
  - intros x. rewrite Hsome, <- ok_pages0. cbn. destruct (decide (x = p)) as [->|Hx]; [|by rewrite lookup_insert_ne].
    rewrite lookup_insert_eq. split; [|eauto]. intros _. apply ok_pages0. eauto.
  - intros x o Hx. apply Hcase in Hx as [[-> _]|[_ Hx]]; eauto.
  - intros x y Hx Hy. apply ok_apart0; by apply Hsome.
  - intros x o. rewrite orphaned_owner. destruct (owner_of s x) as [o'|] eqn:Eo; [|done]. cbn. intros E. injection E as <-.
    case_decide as Hd; [exists p; by rewrite lookup_insert_eq|]. destruct (ok_elements0 x o' Eo) as (y & Hy & Hin). exists y.
    split; [|done]. rewrite lookup_insert_ne; [done|]. intros <-. done.
  - intros x o y Hx Hy. rewrite orphaned_owner. apply Hcase in Hx as [[-> ->]|[Hne Hx]].
    + by rewrite decide_True, (ok_owner0 p q y).
    + rewrite decide_False, (ok_owner0 x o y) by eauto. done.
  - intros x z Hx Hz. apply Hcase in Hx as [[_ ->]|[Hne Hx]]; [congruence|]. destruct (ok_owned0 x z Hx Hz) as (Ha & Hx' & Hl).
    split; [by apply orphaned_alive|]. split; [by rewrite orphaned_page_next | done].
  - intros x o Hx Ho. apply Hcase in Hx as [[-> ->]|[Hne Hx]].
    + assert (Hr : remaining loc p = num_elements par) by (unfold remaining; rewrite count_all by done; apply page_elements_length).
      rewrite Hr. cbn. rewrite lookup_insert_eq. destruct Hpar. split; [done|]. split; [done | lia].
    + destruct (ok_orphan0 x o Hx Ho) as (E & Hu & Hr). cbn. by rewrite lookup_insert_ne.
  - intros x k Hx. rewrite orphaned_owner, fmap_is_Some. eauto.
  - intros x z Hx. destruct (ok_home0 x z Hx) as (Hz & o & Ho & Hcs). split; [by apply orphaned_some|].
    rewrite orphaned_owner, Ho. cbn. eexists. split; [done|]. case_decide; [by right | done].
Qed.
End orphan.

Lemma wp_orphan_pages loc q l : forall fuel pg s c (Q : _ -> _ -> Prop), heap_ok loc pg s -> children s !! q = Some c ->
  linked (page_next_of s) (pages c) l -> NoDup l -> (length l < fuel)%nat ->
  (forall pg' s' c', heap_ok loc pg' s' -> children s' !! q = Some c' -> pages c' = 0 -> other_pools q s s' ->
     (forall e o, owner_of s e = Some o -> Z.even o = false -> owner_of s' e = Some o) -> Q tt s') ->
  wp (orphan_pages fuel q) Q s.
Proof using Hpar.
  induction l as [|p l IH]; intros fuel pg s c Q Hok Hc Hl Hd Hf HQ; (destruct fuel as [|fuel]; [cbn in Hf; lia|]); cbn [orphan_pages];
    apply wp_bind, (wp_child q c); try done.
  - cbn in Hl. rewrite Hl. cbn. apply wp_ret. apply (HQ pg s c); done.
  - cbn in Hl. destruct Hl as (Ep & Hp0 & n & Hn & Hl). inversion Hd as [|? ? Hpl Hd']; subst.
    rewrite (proj2 (Z.eqb_neq _ _)) by congruence. pose proof (ok_children _ _ _ Hok q c Hc) as (Hqe & _ & _ & _ & Hpages & _).
    apply lists_pop in Hpages as (Hpq & n' & Hn' & Hrest); [|congruence]. assert (n' = n) as -> by congruence.
    destruct (ok_page _ _ _ Hok _ _ Hpq) as [_ Hev]. pose proof (page_next_of_Some _ _ _ Hn) as Hph.
    apply wp_bind, wp_bind, (wp_page _ _ _ _ Hph), wp_ret, wp_bind, (wp_set_child q c); [done|]. apply wp_bind. unfold the_parent, wp at 1. cbn.
    rewrite (ok_parent _ _ _ Hok). apply wp_bind, wp_set_page; [cbn; by rewrite Hph|]. apply wp_bind, wp_orphan_elements.
    + apply page_elements_NoDup.
    + intros x Hx. cbn. pose proof (ok_owner _ _ _ Hok _ q x Hpq Hx) as Ho. apply owner_of_Some in Ho as (h & Hh & _). eauto.
    + intros es Hes. cbn in Hes. rewrite tag_set in Hes by done.
      pose proof (heap_ok_orphan loc pg s q (pages c) c n Hok Hc eq_refl Hp0 Hpq Hrest es Hes) as Hok'.
      apply (IH fuel _ _ (c <| pages := n |>) _ Hok').
      * cbn. by rewrite lookup_insert_eq.
      * cbn. revert Hl. apply linked_ext. intros x Hx. apply orphaned_page_next. set_solver.
      * done.
      * cbn in Hf. lia.
      * intros pg' s' c' Hs' Hc' Hz Ho Hodd. apply (HQ pg' s' c'); try done.
        -- eapply other_pools_trans; [|exact Ho]. split; [done|]. cbn. rewrite lookup_insert_eq, Hc. split; [|done].
           intros x Hx. by rewrite lookup_insert_ne.
        -- intros e o He Heo. apply Hodd; [|done]. rewrite (orphaned_owner s q (pages c) c n es Hes), He. case_decide as Hde; [|done].
           rewrite (ok_owner _ _ _ Hok _ q e Hpq Hde) in He. congruence.
Qed.

Lemma no_pages loc pg s q c : heap_ok loc pg s -> children s !! q = Some c -> pages c = 0 -> forall p, pg !! p <> Some q.
Proof. intros Hok Hc H0. destruct (ok_children _ _ _ Hok q c Hc) as (_ & _ & _ & _ & Hp & _). rewrite H0 in Hp. exact (lists_null _ _ Hp). Qed.

(** The head of a list of a pool without pages is released. *)
Lemma wp_release_head loc pg s q c k (Q : _ -> _ -> Prop) : heap_ok loc pg s -> children s !! q = Some c -> pages c = 0 -> on_list q k ->
  list_head k c <> 0 ->
  let e := list_head k c in
  exists h, elements s !! e = Some h /\ loc !! e = Some k /\
    let s1 := s <| children := <[q := set_head k (elt_next h) c]> (children s) |> in
    ((forall pg' s', heap_ok (delete e loc) pg' s' -> spared (delete e loc) s1 s' -> Q tt s') -> wp (slab_free_orphaned e) Q s1).
Proof using Hpar.
  intros Hok Hc Hp Hk Hne e. destruct (pop_list loc pg s q c k Hok Hc Hk Hne) as (h & Hh & Hl & Hpop). exists h. split; [done|].
  split; [done|]. intros s1 HQ. specialize (Hpop Held I).
  assert (Ho : exists o, owner_of s e = Some o /\ Z.even o = false).
  { destruct (ok_home _ _ _ Hok e q) as (_ & o & Ho & Hcase); [destruct Hk as [-> | ->]; auto|]. exists o. split; [done|].
    destruct Hcase as [->|]; [|done]. destruct (ok_elements _ _ _ Hok e q Ho) as (p & Hpq & _). by apply (no_pages loc pg s q c) in Hpq. }
  destruct Ho as (o & Ho & Hodd).
  apply (wp_free_orphaned (<[e := Held]> loc) pg s1 e Held o); [done | apply lookup_insert_eq | done | done | done |].
  intros pg' s' Hok' Hsp _. rewrite delete_insert_eq in Hok', Hsp. by apply (HQ pg').
Qed.

Lemma wp_free_migrated q l : forall fuel loc pg s c (Q : _ -> _ -> Prop), heap_ok loc pg s -> children s !! q = Some c -> pages c = 0 ->
  linked (next_of s) (migrated c) l -> NoDup l -> (forall x, x ∈ l -> loc !! x = Some (On_migrated q)) -> (length l < fuel)%nat ->
  (forall loc' pg' s', heap_ok loc' pg' s' -> children s' !! q = Some (c <| migrated := 0 |>) -> other_pools q s s' ->
     (forall x k, k <> On_migrated q -> loc' !! x = Some k <-> loc !! x = Some k) ->
     (forall x, is_Some (loc' !! x) -> elements s' !! x = elements s !! x) -> Q tt s') ->
  wp (free_migrated fuel q) Q s.
Proof using Hpar.
  induction l as [|e l IH]; intros fuel loc pg s c Q Hok Hc Hp Hl Hd Hin Hf HQ; (destruct fuel as [|fuel]; [cbn in Hf; lia|]);
    cbn [free_migrated]; apply wp_bind, (wp_child q c); try done.
  - cbn in Hl. rewrite Hl. cbn. apply wp_ret. apply (HQ loc pg s); try done. rewrite Hc. f_equal. destruct c. cbn in Hl. by subst.
  - cbn in Hl. destruct Hl as (Ee & He0 & n & Hn & Hl). inversion Hd as [|? ? Hel Hd']; subst.
    rewrite (proj2 (Z.eqb_neq _ _)) by congruence.
    edestruct (wp_release_head loc pg s q c (On_migrated q)) as (h & Hh & Hloc & Hwp); [done.. | by right | done |]. cbn in Hh, Hloc, Hwp.
    assert (elt_next h = n) as En by (unfold next_of in Hn; rewrite Hh in Hn; by injection Hn).
    apply wp_bind, (wp_element _ h); [done|]. apply wp_bind, (wp_set_child q c); [done|]. apply wp_bind, Hwp.
    clear Hwp. intros pg' s' Hok' (Hsc & Hsr & Hse). cbn in Hsc, Hsr, Hse.
    assert (Hrest : forall x, x ∈ l -> delete (migrated c) loc !! x = Some (On_migrated q)) by (intros x Hx; rewrite lookup_delete_ne; [apply Hin | ]; set_solver).
    apply (IH fuel (delete (migrated c) loc) pg' s' (c <| migrated := n |>)); try done.
    + rewrite Hsc, lookup_insert_eq, En. done.
    + cbn. revert Hl. apply linked_ext. intros x Hx. unfold next_of. rewrite Hse; [done|]. rewrite Hrest by done. eauto.
    + cbn in Hf. lia.
    + intros loc' pg'' s'' Hok'' Hc'' Ho Hloc' Hel'. apply (HQ loc' pg'' s''); try done.
      * eapply other_pools_trans; [|exact Ho]. split; [done|]. rewrite Hsc, lookup_insert_eq, Hc. split; [|done]. intros x Hx. by rewrite lookup_insert_ne.
      * intros x k Hk. rewrite Hloc' by done. destruct (decide (x = migrated c)) as [->|Hx]; [|by rewrite lookup_delete_ne].
        rewrite lookup_delete_eq, Hloc. split; [done | congruence].
      * intros x Hx. rewrite Hel' by done. apply Hse. destruct Hx as [k Hx]. destruct (decide (k = On_migrated q)) as [->|Hk]; [|exists k; by apply Hloc'].
        destruct (ok_children _ _ _ Hok'' q _ Hc'') as (_ & _ & _ & Hm & _). by apply (lists_null _ _ Hm) in Hx.
Qed.

Lemma wp_destroy_locked loc pg s q c (Q : _ -> _ -> Prop) : heap_ok loc pg s -> children s !! q = Some c -> has_parent c = true ->
  (forall loc' pg' s' c', heap_ok loc' pg' s' -> children s' !! q = Some c' -> has_parent c' = true -> pages c' = 0 -> migrated c' = 0 ->
     other_pools q s s' -> (forall x k, loose k -> loc' !! x = Some k <-> loc !! x = Some k) ->
     (forall x o, is_Some (loc' !! x) -> owner_of s x = Some o -> Z.even o = false -> owner_of s' x = Some o) -> Q true s') ->
  wp (slab_destroy_locked q) Q s.
Proof using Hpar.
  intros Hok Hc Hhp HQ. unfold slab_destroy_locked. apply wp_bind, (wp_child q c); [done|]. rewrite Hhp. cbn [negb].
  apply wp_bind, wp_page_rounds.
  pose proof (ok_children _ _ _ Hok q c Hc) as (_ & _ & _ & _ & (l & Hl & Hd & Hm) & _).
  assert (Hlen : (length l < S (size (page_headers s)))%nat).
  { apply Nat.lt_succ_r, length_le_size; [done|]. intros x Hx. apply (ok_pages _ _ _ Hok). apply Hm in Hx. eauto. }
  apply wp_bind, (wp_orphan_pages loc q l _ pg s c); try done. intros pg1 s1 c1 Hok1 Hc1 Hp1 Ho1 Hodd1.
  apply wp_bind, wp_element_rounds. clear l Hl Hd Hm Hlen.
  pose proof (ok_children _ _ _ Hok1 q c1 Hc1) as (_ & _ & _ & (l & Hl & Hd & Hm) & _).
  assert (Hlen : (length l < S (size (elements s1)))%nat).
  { apply Nat.lt_succ_r, length_le_size; [done|]. intros x Hx. apply Hm, (ok_loc _ _ _ Hok1) in Hx. by apply fmap_is_Some in Hx. }
  apply wp_bind, (wp_free_migrated q l _ loc pg1 s1 c1); try done; [by intros x; apply Hm|]. intros loc' pg' s' Hok' Hc' Ho' Hloc Hel.
  apply wp_ret, (HQ loc' pg' s' (c1 <| migrated := 0 |>)); try done.
  - cbn. destruct Ho1 as (_ & _ & E). rewrite Hc1, Hc in E. injection E as ->. done.
  - by eapply other_pools_trans.
  - intros x k Hk. apply Hloc. by intros ->.
  - intros x o Hx Hxo Hodd. unfold owner_of. rewrite Hel by done. by apply Hodd1.
Qed.

(** ** New pages *)

(** [malloc] returns an aligned block that overlaps no page. *)
Definition fresh_page (s : slabs) (p : Z) : Prop :=
  0 < p /\ Z.even p = true /\ forall p', is_Some (page_headers s !! p') -> apart p p'.

Section new_page.
Context (loc loc' : gmap Z place) (pg : gmap Z Z) (s : slabs) (q p a : Z) (c : slab_child_pool) (es : gmap Z slab_element_header).
Context (Hok : heap_ok loc pg s) (Hc : children s !! q = Some c) (Hhp : has_parent c = true) (Hfresh : fresh_page s p).
Context (Hold : forall x, x ∉ page_elements par p -> es !! x = elements s !! x).
Context (Hnew : forall x, x ∈ page_elements par p -> owner <$> es !! x = Some q).
Context (Hlist : lists (fun x => elt_next <$> es !! x) a (fun x => x ∈ page_elements par p \/ loc !! x = Some (On_free q))).
Context (Hloc : forall x, loc' !! x = if decide (x ∈ page_elements par p) then Some (On_free q) else loc !! x).

Definition page_added : slabs := s <| elements := es |>
  <| page_headers := <[p := Page_next (pages c)]> (page_headers s) |>
  <| children := <[q := c <| free_list := a |> <| pages := p |>]> (children s) |>.

Lemma fresh_not_page x : is_Some (pg !! x) -> x <> p.
Proof using Hok Hfresh Hpar.
  intros Hx ->. apply (ok_pages _ _ _ Hok) in Hx. destruct Hfresh as (_ & _ & H). apply H in Hx.
  destruct Hpar as (? & Hs & _). unfold apart, page_size, sizeof_page_header, sizeof_element_header in *. nia.
Qed.

Lemma fresh_elements x : is_Some (elements s !! x) -> x ∉ page_elements par p.
Proof using Hok Hfresh Hpar.
  intros [h Hx] Hin. destruct (ok_elements _ _ _ Hok x (owner h)) as (y & Hy & Hin'); [unfold owner_of; by rewrite Hx|].
  apply (apart_elements p y x); [|done|done]. apply Hfresh, (ok_pages _ _ _ Hok). eauto.
Qed.

Lemma fresh_loc x k : loc !! x = Some k -> x ∉ page_elements par p.
Proof using Hok Hfresh Hpar. intros Hx. apply fresh_elements. apply (ok_loc _ _ _ Hok) in Hx. by apply fmap_is_Some in Hx. Qed.

Lemma added_old x : x ∉ page_elements par p -> next_of page_added x = next_of s x /\ owner_of page_added x = owner_of s x.
Proof using Hold. intros Hx. unfold next_of, owner_of. cbn. by rewrite Hold. Qed.

Lemma added_owner_old x o : owner_of s x = Some o -> owner_of page_added x = Some o.
Proof using Hok Hfresh Hpar Hold. intros Hx. rewrite <- Hx. apply added_old, fresh_elements. unfold owner_of in Hx. destruct (elements s !! x); eauto || done. Qed.

Lemma added_page_next x : x <> p -> page_next_of page_added x = page_next_of s x.
Proof. intros Hx. unfold page_next_of. cbn. by rewrite lookup_insert_ne. Qed.

Lemma added_loc_keep x k : loc !! x = Some k -> loc' !! x = Some k.
Proof using Hok Hfresh Hpar Hloc. intros Hx. rewrite Hloc, decide_False; [done | by eapply fresh_loc]. Qed.

Lemma added_loc_other x k : k <> On_free q -> loc' !! x = Some k <-> loc !! x = Some k.
Proof using Hok Hfresh Hpar Hloc. intros Hk. split; [|apply added_loc_keep]. rewrite Hloc. case_decide; [congruence | done]. Qed.

Lemma added_alive x : alive s x -> alive page_added x.
Proof using Hc Hhp.
  intros (d & Hd & Ha). unfold alive. cbn. destruct (decide (x = q)) as [->|Hx]; [|rewrite lookup_insert_ne by done; eauto].
  rewrite lookup_insert_eq. eauto.
Qed.

Lemma added_lists x d : children page_added !! x = Some d -> child_ok loc' (<[p := q]> pg) page_added x d.
Proof using Hok Hc Hhp Hfresh Hold Hnew Hlist Hloc Hpar.
  intros Hd. assert (Hnp : forall y z, pg !! y = Some z -> y <> p) by (intros y z Hy; apply fresh_not_page; eauto).
  assert (Hnx : forall y k, loc !! y = Some k -> next_of page_added y = next_of s y) by (intros y k Hy; apply added_old; by eapply fresh_loc).
  cbn in Hd. destruct (decide (x = q)) as [->|Hx].
  - rewrite lookup_insert_eq in Hd. injection Hd as <-. destruct (ok_children _ _ _ Hok q c Hc) as (Hq & Hq0 & Hf & Hm & Hl & Hdd).
    split; [done|]. split; [done|]. cbn. split; [|split; [|split]].
    + revert Hlist. apply lists_ext; [done|]. intros y. rewrite Hloc. case_decide; tauto.
    + revert Hm. apply lists_ext; [eauto | intros y; by apply added_loc_other].
    + destruct Hfresh as (Hp0 & _). revert Hl. apply lists_push; [lia | | | |].
      * intros Hp. by apply Hnp in Hp.
      * unfold page_next_of. cbn. by rewrite lookup_insert_eq.
      * intros y Hy. apply added_page_next. eauto.
      * intros y. destruct (decide (y = p)) as [->|Hy]; [rewrite lookup_insert_eq; tauto | rewrite lookup_insert_ne by done; tauto].
    + intros Hfa. congruence.
  - rewrite lookup_insert_ne in Hd by done. apply (child_ok_other loc pg s); [by apply (ok_children _ _ _ Hok) | | eauto | |].
    + intros y k Hk. apply added_loc_other. destruct Hk; congruence.
    + intros y. destruct (decide (y = p)) as [->|Hy]; [|by rewrite lookup_insert_ne]. rewrite lookup_insert_eq.
      split; [congruence|]. intros Hp. by apply Hnp in Hp.
    + intros y Hy. apply added_page_next. eauto.
Qed.

Lemma heap_ok_added : heap_ok loc' (<[p := q]> pg) page_added.
Proof using Hok Hc Hhp Hfresh Hold Hnew Hlist Hloc Hpar.
  pose proof Hok as []. pose proof Hfresh as (Hp0 & Hpe & Hap). destruct (ok_children0 q c Hc) as (Hqe & _).
  assert (Hcase : forall x o, <[p := q]> pg !! x = Some o -> (x = p /\ o = q) \/ (x <> p /\ pg !! x = Some o)).
  { intros x o. destruct (decide (x = p)) as [->|Hx]; [rewrite lookup_insert_eq; naive_solver | rewrite lookup_insert_ne by done; auto]. }
  assert (Hold_rem : forall x o, pg !! x = Some o -> remaining loc' x = remaining loc x).
  { intros x o Hx. apply count_ext. intros y Hy. rewrite Hloc, decide_False; [done|]. apply fresh_elements.
    pose proof (ok_owner0 x o y Hx Hy) as Ho. apply owner_of_Some in Ho as (h & Hh & _). eauto. }
  constructor; [done | | | | | | | | | | exact added_lists].
  - intros x. cbn. destruct (decide (x = p)) as [->|Hx]; [rewrite !lookup_insert_eq; split; eauto | by rewrite !lookup_insert_ne].
  - intros x o Hx. apply Hcase in Hx as [[-> _]|[_ Hx]]; eauto.
  - intros x y [o Hx] [o' Hy] Hne. apply Hcase in Hx as [[-> _]|[_ Hx]]; apply Hcase in Hy as [[-> _]|[_ Hy]]; [done | | | eauto].
    + apply Hap, ok_pages0. eauto.
    + destruct (Hap x) as [|]; [apply ok_pages0; eauto | by right | by left].
  - intros x o Hx. destruct (decide (x ∈ page_elements par p)) as [Hin|Hin].
    + unfold owner_of in Hx. cbn in Hx. rewrite Hnew in Hx by done. injection Hx as <-. exists p. by rewrite lookup_insert_eq.
    + rewrite (proj2 (added_old x Hin)) in Hx. destruct (ok_elements0 x o Hx) as (y & Hy & Hiny). exists y. split; [|done].
      rewrite lookup_insert_ne; [done|]. intros <-. done.
  - intros x o y Hx Hy. apply Hcase in Hx as [[-> ->]|[_ Hx]]; [by apply Hnew | apply added_owner_old; eauto].
  - intros x z Hx Hz. apply Hcase in Hx as [[-> ->]|[Hne Hx]].
    + split; [apply added_alive; by exists c|]. unfold page_next_of. cbn. rewrite lookup_insert_eq. split; [eauto|].
      intros y Hy. rewrite Hloc, decide_True by done. eauto.
    + destruct (ok_owned0 x z Hx Hz) as (Ha & Hn & Hl). split; [by apply added_alive|]. split; [by rewrite added_page_next|].
      intros y Hy. destruct (Hl y Hy) as [k Hk]. exists k. by apply added_loc_keep.
  - intros x o Hx Ho. apply Hcase in Hx as [[_ ->]|[Hne Hx]]; [congruence|]. rewrite (Hold_rem x o Hx). cbn. rewrite lookup_insert_ne by done. eauto.
  - intros x k. rewrite Hloc. case_decide as Hin; intros Hx.
    + unfold owner_of. cbn. rewrite Hnew by done. eauto.
    + destruct (ok_loc0 x k Hx) as [o Ho]. exists o. by apply added_owner_old.
  - intros x z Hx. assert (Hz : is_Some (children page_added !! z) <-> is_Some (children s !! z)).
    { cbn. destruct (decide (z = q)) as [->|Hz]; [rewrite lookup_insert_eq, Hc; split; eauto | by rewrite lookup_insert_ne]. }
    rewrite Hz. rewrite Hloc in Hx. case_decide as Hin.
    + assert (z = q) as -> by (destruct Hx; congruence). split; [eauto|]. exists q. split; [by apply Hnew | by left].
    + destruct (ok_home0 x z Hx) as (Hcz & o & Ho & Hcs). split; [done|]. exists o. split; [by apply added_owner_old | done].
Qed.
End new_page.
End pools.
