(* ===== verification/SlabProps.v ===== *)
(** * Safety of the slab allocator

    The steps of all threads keep the invariant: no step fails, no two users
    have the same object, and all pages are released in the end. *)

From stdpp Require Import base gmap numbers list.
From Stdlib Require Import ZArith Lia.
From S2P Require Import Prelude StateM Slab SlabHeap.
#[local] Open Scope bool_scope.
#[local] Open Scope Z_scope.
#[local] Open Scope c_scope.
#[local] Open Scope state_scope.
#[local] Set Default Proof Using "Type".

(** ** Calls in progress *)

(** The call in progress on [q] has the elements that [loc] says. *)
Definition call_ok (loc : gmap Z place) (s : slabs) (q : Z) : Prop :=
  match running s !! q with
  | None => forall x, loc !! x <> Some (In_call q)
  | Some r =>
      alive s q /\
      match r with
      | In_alloc => forall x, loc !! x <> Some (In_call q)
      | In_free e => forall x, loc !! x = Some (In_call q) <-> x = e
      | In_orphan e => (forall x, loc !! x = Some (In_call q) <-> x = e) /\ exists o, owner_of s e = Some o /\ Z.even o = false
      | In_destroy => (forall x, loc !! x <> Some (In_call q)) /\ forall c, children s !! q = Some c -> pages c = 0 /\ migrated c = 0
      end
  end.

(** What the steps of other pools may change of a pool: they put elements on
    its migrated list while it has pages. *)
Definition kept (s s' : slabs) (q : Z) : Prop := forall c, children s !! q = Some c ->
  exists c', children s' !! q = Some c' /\ has_parent c' = has_parent c /\ pages c' = pages c /\ (migrated c' = migrated c \/ pages c <> 0).

Lemma kept_same s s' q : children s' !! q = children s !! q -> kept s s' q.
Proof. intros E c Hc. exists c. split; [congruence | auto]. Qed.

Lemma call_ok_other loc s loc' s' q : call_ok loc s q -> running s' !! q = running s !! q -> kept s s' q ->
  (forall x, loc' !! x = Some (In_call q) <-> loc !! x = Some (In_call q)) ->
  (forall x o, loc !! x = Some (In_call q) -> owner_of s x = Some o -> Z.even o = false -> owner_of s' x = Some o) ->
  call_ok loc' s' q.
Proof.
  unfold call_ok. intros H Hr Hk Hl Ho. rewrite Hr. destruct (running s !! q) as [r|]; [|intros x; by rewrite Hl].
  destruct H as [(c & Hc & Hp) H]. destruct (Hk c Hc) as (c' & Hc' & Hp' & Hpg & Hm). split; [exists c'; split; congruence|].
  destruct r as [|e|e|]; [intros x; by rewrite Hl | intros x; by rewrite Hl | |].
  - destruct H as (Hx & o & Hxo & Hodd). split; [intros x; by rewrite Hl|]. exists o. split; [|done]. apply Ho; [by apply Hx | done | done].
  - destruct H as [Hx H]. split; [intros x; by rewrite Hl|]. intros d Hd. assert (d = c') as -> by congruence.
    destruct (H c Hc) as [E1 E2]. destruct Hm as [Hm|]; [|done]. split; congruence.
Qed.

Lemma lookup_insert_all {A} (m : gmap Z A) v l x :
  foldr (fun e m => <[e := v]> m) m l !! x = if decide (x ∈ l) then Some v else m !! x.
Proof.
  induction l as [|y l IH]; cbn [foldr]; [by rewrite decide_False by set_solver|].
  destruct (decide (x = y)) as [->|Hne]; [rewrite lookup_insert_eq, decide_True by set_solver; done|].
  rewrite lookup_insert_ne, IH by done. apply decide_ext. set_solver.
Qed.

(** ** The invariant of the allocator *)

Section steps.
Context (par : slab_parent_pool) (Hpar : parent_ok par).

Definition held_ok (loc : gmap Z place) (held : gset Z) : Prop :=
  forall p, p ∈ held <-> loc !! element_of p = Some Held.

Definition slab_ok (held : gset Z) (s : slabs) : Prop :=
  exists loc pg, heap_ok par loc pg s /\ (forall q, call_ok loc s q) /\ held_ok loc held.

(** What the callers have to respect: one call at a time on a pool, pools that
    exist, objects that are in use, and a [malloc] that returns free
    memory. *)
Definition allowed (held : gset Z) (s : slabs) (q : Z) (a : slab_action) : Prop :=
  match running s !! q, a with
  | None, Create_child => Z.even q = true /\ q <> 0 /\ ~ alive s q
  | None, Alloc => alive s q
  | None, Free ptr => alive s q /\ ptr ∈ held
  | None, Destroy_child => is_Some (children s !! q)
  | Some In_alloc, Resume answer => answer = 0 \/ fresh_page par s answer
  | Some _, Resume _ => True
  | _, _ => False
  end.

Definition held_after (held : gset Z) (a : slab_action) (r : option Z) : gset Z :=
  match a, r with
  | Free ptr, _ => held ∖ {[ptr]}
  | _, Some p => if p =? 0 then held else {[p]} ∪ held
  | _, None => held
  end.

(** The result of a step: an object that nobody has, or [NULL] when [malloc]
    fails. *)
Definition result_ok (held : gset Z) (a : slab_action) (r : option Z) : Prop :=
  forall p, r = Some p -> p ∉ held /\ (p = 0 -> a = Resume 0).

Definition step_ok (held : gset Z) (a : slab_action) (r : option Z) (s' : slabs) : Prop :=
  slab_ok (held_after held a r) s' /\ result_ok held a r.

(** A step of [q] leaves the calls of the other pools alone. *)
Lemma calls_ok_step loc s loc' s' q : (forall q', call_ok loc s q') -> call_ok loc' s' q ->
  (forall q', q' <> q -> running s' !! q' = running s !! q' /\ kept s s' q') ->
  (forall x q', q' <> q -> loc' !! x = Some (In_call q') <-> loc !! x = Some (In_call q')) ->
  (forall x q' o, q' <> q -> loc !! x = Some (In_call q') -> owner_of s x = Some o -> Z.even o = false -> owner_of s' x = Some o) ->
  forall q', call_ok loc' s' q'.
Proof.
  intros Hall Hq Hr Hl Ho q'. destruct (decide (q' = q)) as [->|Hne]; [done|]. destruct (Hr q' Hne) as [Er Hk].
  apply (call_ok_other loc s); eauto.
Qed.

Lemma held_ok_ext loc loc' held : held_ok loc held -> (forall x, loc' !! x = Some Held <-> loc !! x = Some Held) -> held_ok loc' held.
Proof. intros H Hl p. rewrite Hl. apply H. Qed.

Lemma element_of_object e : element_of (object_of e) = e.
Proof. unfold element_of, object_of. lia. Qed.

Lemma held_ok_take loc held e k : held_ok loc held -> loc !! e = Some k -> k <> Held ->
  held_ok (<[e := Held]> loc) ({[object_of e]} ∪ held) /\ object_of e ∉ held.
Proof.
  intros H He Hk. split; [|rewrite (H (object_of e)), element_of_object, He; congruence]. intros p. rewrite elem_of_union, elem_of_singleton, (H p).
  destruct (decide (element_of p = e)) as [E|Hne].
  - rewrite E, lookup_insert_eq. split; [done|]. intros _. left. unfold element_of, object_of in *. lia.
  - rewrite lookup_insert_ne by done. split; [intros [->|]; [by rewrite element_of_object in Hne | done] | auto].
Qed.

Lemma held_ok_drop loc held p k : held_ok loc held -> k <> Held -> held_ok (<[element_of p := k]> loc) (held ∖ {[p]}).
Proof.
  intros H Hk x. rewrite elem_of_difference, elem_of_singleton, (H x). destruct (decide (x = p)) as [->|Hne].
  - rewrite lookup_insert_eq. split; [tauto | congruence].
  - rewrite lookup_insert_ne by (unfold element_of; lia). tauto.
Qed.

Lemma held_not_null loc pg s held : heap_ok par loc pg s -> held_ok loc held -> 0 ∉ held.
Proof using Hpar.
  intros Hok H H0. apply H, (ok_loc _ _ _ _ Hok) in H0 as [o Ho]. destruct (ok_elements _ _ _ _ Hok _ o Ho) as (p & Hp & Hin).
  apply page_elements_inside in Hin; [|done]. destruct (ok_page _ _ _ _ Hok p o Hp). unfold element_of, sizeof_page_header, sizeof_element_header in *. lia.
Qed.

Lemma object_not_null loc pg s e k : heap_ok par loc pg s -> loc !! e = Some k -> object_of e <> 0.
Proof using Hpar.
  intros Hok He. apply (ok_loc _ _ _ _ Hok) in He as [o Ho]. destruct (ok_elements _ _ _ _ Hok _ o Ho) as (p & Hp & Hin).
  apply page_elements_inside in Hin; [|done]. destruct (ok_page _ _ _ _ Hok p o Hp). unfold object_of, sizeof_page_header, sizeof_element_header in *. lia.
Qed.

(** ** Allocation *)

Lemma wp_slab_pop loc pg s q c (Q : _ -> _ -> Prop) : heap_ok par loc pg s -> children s !! q = Some c -> free_list c <> 0 ->
  (forall s', let e := free_list c in loc !! e = Some (On_free q) -> heap_ok par (<[e := Held]> loc) pg s' ->
     running s' = running s -> elements s' = elements s -> (forall x, x <> q -> children s' !! x = children s !! x) -> alive s' q ->
     Q (object_of e) s') ->
  wp (slab_pop q) Q s.
Proof.
  intros Hok Hc Hne HQ. destruct (pop_list par loc pg s q c (On_free q) Hok Hc) as (h & Hh & Hl & Hpop); [by left | done|].
  unfold slab_pop. apply wp_bind, (wp_child q c); [done|]. apply wp_bind, (wp_element _ h); [done|]. apply wp_bind, (wp_set_child q c); [done|].
  apply wp_ret, HQ; try done; [by apply Hpop | intros x Hx; cbn; by rewrite lookup_insert_ne|].
  exists (c <| free_list := elt_next h |>). cbn. rewrite lookup_insert_eq. split; [done|].
  destruct (ok_children _ _ _ _ Hok q c Hc) as (_ & _ & _ & _ & _ & Hd). destruct (has_parent c); [done|]. destruct Hd as (_ & E & _); done.
Qed.

Lemma wp_add_new_page loc pg s q c p (Q : _ -> _ -> Prop) : heap_ok par loc pg s -> children s !! q = Some c -> has_parent c = true ->
  fresh_page par s p ->
  (forall loc' pg' s' c', heap_ok par loc' pg' s' -> children s' !! q = Some c' -> free_list c' <> 0 -> running s' = running s ->
     (forall x, x <> q -> children s' !! x = children s !! x) ->
     (forall x k, k <> On_free q -> loc' !! x = Some k <-> loc !! x = Some k) ->
     (forall x o, owner_of s x = Some o -> owner_of s' x = Some o) -> Q true s') ->
  wp (slab_add_new_page q p) Q s.
Proof using Hpar.
  intros Hok Hc Hhp Hfr HQ. pose proof Hfr as (Hp0 & _). unfold slab_add_new_page. apply wp_bind. unfold the_parent, wp at 1.
  rewrite (ok_parent _ _ _ _ Hok), (proj2 (Z.eqb_neq _ _)) by lia. pose proof Hpar as (Hn1 & Hs & Hm). unfold sizeof_element_header in Hs.
  pose proof (ok_children _ _ _ _ Hok q c Hc) as (Hqe & _ & Hf & _).
  apply wp_bind, (wp_add_elements q p (fun x => loc !! x = Some (On_free q)) _ _ s c); try done.
  - by apply page_elements_NoDup.
  - intros x Hx. pose proof (page_elements_inside par Hpar p x Hx) as Hin. unfold page_size, sizeof_page_header, sizeof_element_header in *.
    rewrite wrap_small by nia. split; [lia|]. split; [|lia]. intros Hl. by apply (fresh_loc par Hpar loc pg s p Hok Hfr x (On_free q)).
  - intros es a Hold Hnew Ha Hl. apply wp_bind, (wp_child q (c <| free_list := a |>)); [cbn; by rewrite lookup_insert_eq|].
    apply wp_bind. unfold wp at 1. apply wp_bind, (wp_set_child q (c <| free_list := a |>)); [cbn; by rewrite lookup_insert_eq|]. apply wp_ret.
    set (loc' := foldr (fun e m => <[e := On_free q]> m) loc (page_elements par p)).
    assert (Hloc : forall x, loc' !! x = if decide (x ∈ page_elements par p) then Some (On_free q) else loc !! x) by (intros x; apply lookup_insert_all).
    pose proof (heap_ok_added par Hpar loc loc' pg s q p a c es Hok Hc Hhp Hfr Hold Hnew Hl Hloc) as Hok'.
    replace (_ <| children := _ |>) with (page_added s q p a c es) by (unfold page_added, update; cbn; by rewrite insert_insert_eq).
    apply (HQ loc' _ _ (c <| free_list := a |> <| pages := p |>) Hok'); try done.
    + cbn. by rewrite lookup_insert_eq.
    + cbn. apply Ha. intros E. pose proof (page_elements_length par Hpar p) as El. rewrite E in El. cbn in El. lia.
    + intros x Hx. cbn. by rewrite lookup_insert_ne.
    + intros x k Hk. by apply (added_loc_other par Hpar loc loc' pg s q p Hok Hfr Hloc).
    + intros x o. by apply (added_owner_old par Hpar loc pg s q p a c es Hok Hfr Hold).
Qed.

Lemma heap_ok_running loc pg s r : heap_ok par loc pg s -> heap_ok par loc pg (s <| running := r |>).
Proof. intros []. by constructor. Qed.

Lemma insert_call (loc : gmap Z place) e k k' x q : loc !! e = Some k -> (k <> In_call q) -> (k' <> In_call q) ->
  <[e := k']> loc !! x = Some (In_call q) <-> loc !! x = Some (In_call q).
Proof.
  intros He Hk Hk'. destruct (decide (x = e)) as [->|Hx]; [|by rewrite lookup_insert_ne]. rewrite lookup_insert_eq, He. split; congruence.
Qed.

(** An object goes to a user while the call of its pool ends. *)
Lemma wp_pop_step loc pg s held q c a (Q : _ -> _ -> Prop) : heap_ok par loc pg s -> (forall q', q' <> q -> call_ok loc s q') -> held_ok loc held ->
  (forall x, loc !! x <> Some (In_call q)) -> children s !! q = Some c -> free_list c <> 0 -> a = Alloc \/ (exists z, a = Resume z) ->
  (forall p s', running s' = running s -> step_ok held a (Some p) (s' <| running := delete q (running s') |>) -> Q p s') ->
  wp (slab_pop q) Q s.
Proof using Hpar.
  intros Hok Hcalls Hheld Hno Hc Hne Ha HQ. apply (wp_slab_pop loc pg s q c); [done..|]. intros s' e Hl Hok' Hr He Hch Halive. apply HQ; [done|].
  pose proof (object_not_null loc pg s e _ Hok Hl) as Hnz. destruct (held_ok_take loc held e (On_free q) Hheld Hl) as [Hh Hnew]; [done|].
  split; [|intros p Hp; injection Hp as <-; done]. exists (<[e := Held]> loc), pg. split; [|split].
  - by apply heap_ok_running.
  - intros q'. pose proof (fun x => insert_call loc e _ Held x q' Hl) as Hin. destruct (decide (q' = q)) as [->|Hq].
    + unfold call_ok. cbn. rewrite lookup_delete_eq. intros x. by rewrite Hin.
    + apply (call_ok_other loc s); [by apply Hcalls | cbn; rewrite lookup_delete_ne by done; by rewrite Hr | | by intros x; apply Hin |].
      * apply kept_same. cbn. by apply Hch.
      * intros x o _ Ho _. unfold owner_of in *. cbn. by rewrite He.
  - unfold held_after. rewrite (proj2 (Z.eqb_neq _ _)) by done. destruct Ha as [-> | [z ->]]; done.
Qed.

Lemma taken_loose q (loc : gmap Z place) x k : loose k -> (taken q <$> loc) !! x = Some k <-> loc !! x = Some k.
Proof.
  intros Hk. rewrite lookup_fmap. unfold taken. destruct (loc !! x) as [k'|]; cbn; [|done].
  case_decide as Hd; split; intros E; injection E as <-; subst; done.
Qed.

Lemma delete_running_id s q : running s !! q = None -> s <| running := delete q (running s) |> = s.
Proof. intros H. destruct s. unfold update. cbn in *. f_equal. by apply delete_id. Qed.

Lemma step_alloc held s q : slab_ok held s -> running s !! q = None -> alive s q -> wp (slab_step q Alloc) (step_ok held Alloc) s.
Proof using Hpar.
  intros (loc & pg & Hok & Hcalls & Hheld) Hr (c & Hc & Hhp). unfold slab_step. apply wp_bind. unfold call_of, wp at 1. rewrite Hr.
  assert (Hno : forall x, loc !! x <> Some (In_call q)) by (specialize (Hcalls q); unfold call_ok in Hcalls; by rewrite Hr in Hcalls).
  apply wp_bind. unfold slab_alloc_begin. apply wp_bind, (wp_child q c); [done|]. destruct (free_list c =? 0) eqn:E.
  - apply wp_bind, wp_assert; [done|]. apply wp_bind, (wp_set_child q c); [done|]. apply wp_ret, wp_bind. unfold set_call, wp at 1.
    apply wp_ret. split; [|done]. exists (taken q <$> loc), pg. split; [|split].
    + apply heap_ok_running, (take_migrated par loc pg s q c Hok Hc). lia.
    + apply (calls_ok_step loc s _ _ q); [done | | | |].
      * unfold call_ok. cbn. rewrite lookup_insert_eq. split; [|intros x; by rewrite taken_loose].
        exists (c <| free_list := migrated c |> <| migrated := 0 |>). cbn. by rewrite lookup_insert_eq.
      * intros q' Hq. cbn. rewrite lookup_insert_ne by done. split; [done|]. apply kept_same. cbn. by rewrite lookup_insert_ne.
      * intros x q' _. by apply taken_loose.
      * done.
    + apply (held_ok_ext loc); [done|]. intros x. by apply taken_loose.
  - apply wp_bind, (wp_pop_step loc pg s held q c Alloc); [done.. | lia | by left |]. intros p s' Hr' Hs'. apply wp_ret, wp_ret.
    rewrite delete_running_id in Hs' by congruence. done.
Qed.

Lemma step_alloc_end held s q z : slab_ok held s -> running s !! q = Some In_alloc -> z = 0 \/ fresh_page par s z ->
  wp (slab_step q (Resume z)) (step_ok held (Resume z)) s.
Proof using Hpar.
  intros (loc & pg & Hok & Hcalls & Hheld) Hr Hz. unfold slab_step. apply wp_bind. unfold call_of, wp at 1. rewrite Hr.
  pose proof (Hcalls q) as Hq. unfold call_ok in Hq. rewrite Hr in Hq. destruct Hq as ((c & Hc & Hhp) & Hno).
  assert (Hpop : forall loc pg s c, heap_ok par loc pg s -> (forall q', q' <> q -> call_ok loc s q') -> held_ok loc held ->
    (forall x, loc !! x <> Some (In_call q)) -> children s !! q = Some c -> free_list c <> 0 ->
    wp (slab_pop q) (fun p s => wp (set_call q None ;; ret (Some p)) (step_ok held (Resume z)) s) s).
  { clear -Hpar. intros loc pg s c Hok Hcalls Hheld Hno Hc Hne. apply (wp_pop_step loc pg s held q c (Resume z)); eauto. }
  apply wp_bind. unfold slab_alloc_end. apply wp_bind, (wp_child q c); [done|]. apply wp_bind. destruct (free_list c =? 0) eqn:E.
  - destruct Hz as [->|Hfr].
    + apply wp_ret, wp_ret, wp_bind. unfold set_call, wp at 1. apply wp_ret. split; [|intros p Hp; injection Hp as <-; split; [by eapply held_not_null | done]].
      exists loc, pg. split; [by apply heap_ok_running|]. split; [|done]. apply (calls_ok_step loc s _ _ q); try done.
      * unfold call_ok. cbn. by rewrite lookup_delete_eq.
      * intros q' Hq. cbn. rewrite lookup_delete_ne by done. split; [done | by apply kept_same].
    + apply (wp_add_new_page loc pg s q c z); [done..|]. intros loc' pg' s' c' Hok' Hc' Hne Hr' Hch Hloc Hown.
      apply (Hpop loc' pg' s' c'); [done | | | by intros x; rewrite Hloc | done | done].
      * intros q' Hq. apply (call_ok_other loc s); [done | by rewrite Hr' | by apply kept_same, Hch | by intros x; apply Hloc | eauto].
      * apply (held_ok_ext loc); [done|]. intros x. by apply Hloc.
  - apply wp_ret. apply (Hpop loc pg s c); auto. lia.
Qed.

(** ** Release *)

Lemma heap_ok_relabel loc pg s e k k' : heap_ok par loc pg s -> loc !! e = Some k -> loose k -> loose k' -> heap_ok par (<[e := k']> loc) pg s.
Proof.
  intros Hok He Hk Hk'. assert (Hl : forall x k1, ~ loose k1 -> <[e := k']> loc !! x = Some k1 <-> loc !! x = Some k1).
  { intros x k1 Hk1. rewrite insert_loose by done. split; [tauto|]. intros Hx. split; [done|]. intros ->. congruence. }
  apply (heap_ok_moved par loc pg s); try done.
  - intros x. apply insert_is_Some. eauto.
  - intros x q Hx. rewrite !Hl in Hx by auto. by apply (ok_home _ _ _ _ Hok).
  - intros q c Hc. apply (child_ok_other loc pg s); [by apply (ok_children _ _ _ _ Hok) | | done..].
    intros x k1 Hk1. apply Hl. destruct Hk1; subst; auto.
Qed.

Lemma step_free held s q p : slab_ok held s -> running s !! q = None -> alive s q -> p ∈ held ->
  wp (slab_step q (Free p)) (step_ok held (Free p)) s.
Proof using Hpar.
  intros (loc & pg & Hok & Hcalls & Hheld) Hr (c & Hc & Hhp) Hp. unfold slab_step. apply wp_bind. unfold call_of, wp at 1. rewrite Hr.
  pose proof (Hcalls q) as Hno. unfold call_ok in Hno. rewrite Hr in Hno.
  pose proof (proj1 (Hheld p) Hp) as He. destruct (ok_loc _ _ _ _ Hok _ _ He) as [o Ho]. destruct (owner_of_Some s _ o Ho) as (h & Hh & <-).
  apply wp_bind. unfold slab_free_begin. apply wp_bind, (wp_element _ h); [done|]. destruct (owner h =? q) eqn:E.
  - apply wp_bind, (wp_child q c); [done|]. apply wp_bind, (wp_set_element _ h); [done|]. apply wp_bind, (wp_set_child q c); [done|].
    apply wp_ret, wp_bind, wp_ret, wp_ret. split; [|done]. exists (<[element_of p := On_free q]> loc), pg. split; [|split].
    + apply (push_list par Hpar loc pg s q c (On_free q) (element_of p) h Held); try done; [by left | lia].
    + apply (calls_ok_step loc s _ _ q); try done.
      * unfold call_ok. cbn. rewrite Hr. intros x. by rewrite (insert_call loc _ Held).
      * intros q' Hq. split; [done|]. apply kept_same. cbn. by rewrite lookup_insert_ne.
      * intros x q' Hq. by apply (insert_call loc _ Held).
      * intros x q' o Hq Hx Hxo _. rewrite relink_owner by done. done.
    + by apply held_ok_drop.
  - apply wp_ret, wp_bind. unfold set_call, wp at 1. apply wp_ret. split; [|done]. exists (<[element_of p := In_call q]> loc), pg. split; [|split].
    + by apply heap_ok_running, (heap_ok_relabel _ _ _ _ Held).
    + apply (calls_ok_step loc s _ _ q); try done.
      * unfold call_ok. cbn. rewrite lookup_insert_eq. split; [by exists c|]. intros x.
        destruct (decide (x = element_of p)) as [->|Hx]; [by rewrite lookup_insert_eq | rewrite lookup_insert_ne by done]. split; [|done].
        intros Hx'. by apply Hno in Hx'.
      * intros q' Hq. cbn. rewrite lookup_insert_ne by done. split; [done | by apply kept_same].
      * intros x q' Hq. apply (insert_call loc _ Held); [done | done | congruence].
    + by apply held_ok_drop.
Qed.

Lemma step_free_locked held s q e z : slab_ok held s -> running s !! q = Some (In_free e) ->
  wp (slab_step q (Resume z)) (step_ok held (Resume z)) s.
Proof using Hpar.
  intros (loc & pg & Hok & Hcalls & Hheld) Hr. unfold slab_step. apply wp_bind. unfold call_of, wp at 1. rewrite Hr.
  pose proof (Hcalls q) as Hq. unfold call_ok in Hq. rewrite Hr in Hq. destruct Hq as ((c & Hc & Hhp) & Hin).
  pose proof (proj2 (Hin e) eq_refl) as He. destruct (ok_loc _ _ _ _ Hok _ _ He) as [o Ho]. destruct (owner_of_Some s _ o Ho) as (h & Hh & <-).
  apply wp_bind. unfold slab_free_locked. apply wp_bind, (wp_child q c); [done|]. apply wp_bind, wp_assert; [done|].
  apply wp_bind, (wp_element _ h); [done|]. rewrite tag_clear. destruct (Z.even (owner h)) eqn:E.
  - destruct (ok_elements _ _ _ _ Hok e _ Ho) as (pa & Hpa & _). destruct (ok_owned _ _ _ _ Hok pa _ Hpa E) as ((co & Hco & Hal) & _).
    assert (Hpages : pages co <> 0) by (intros H0; by apply (no_pages par loc pg s _ co Hok Hco H0) in Hpa).
    apply wp_bind, (wp_child _ co); [done|]. apply wp_bind, (wp_set_element e h); [done|]. apply wp_bind, (wp_set_child _ co); [done|].
    apply wp_ret, wp_bind. unfold set_call, wp at 1. apply wp_ret. split; [|done]. exists (<[e := On_migrated (owner h)]> loc), pg. split; [|split].
    + apply heap_ok_running. apply (push_list par Hpar loc pg s _ co (On_migrated (owner h)) e h (In_call q)); try done. by right.
    + apply (calls_ok_step loc s _ _ q); try done.
      * unfold call_ok. cbn. rewrite lookup_delete_eq. intros x. destruct (decide (x = e)) as [->|Hx]; [by rewrite lookup_insert_eq|].
        rewrite lookup_insert_ne by done. intros Hx'. by apply Hin in Hx'.
      * intros q' Hq. cbn. rewrite lookup_delete_ne by done. split; [done|]. intros d Hd. cbn. destruct (decide (q' = owner h)) as [->|Hqo].
        -- rewrite lookup_insert_eq. assert (d = co) as -> by congruence. eexists. split; [done|]. auto.
        -- rewrite lookup_insert_ne by done. exists d. auto.
      * intros x q' Hq. apply (insert_call loc _ (In_call q)); congruence.
      * intros x q' o Hq Hx Hxo _. by rewrite <- Hxo, <- (relink_owner s e h (migrated co) (children s) x Hh).
    + apply (held_ok_ext loc); [done|]. intros x. destruct (decide (x = e)) as [->|Hx]; [by rewrite lookup_insert_eq, He | by rewrite lookup_insert_ne].
  - apply wp_ret, wp_bind. unfold set_call, wp at 1. apply wp_ret. split; [|done]. exists loc, pg. split; [by apply heap_ok_running|]. split; [|done].
    apply (calls_ok_step loc s _ _ q); try done.
    + unfold call_ok. cbn. rewrite lookup_insert_eq. split; [by exists c|]. split; [done|]. exists (owner h). done.
    + intros q' Hq. cbn. rewrite lookup_insert_ne by done. split; [done | by apply kept_same].
Qed.

Lemma delete_call (loc : gmap Z place) e k x k' : loc !! e = Some k -> k' <> k -> delete e loc !! x = Some k' <-> loc !! x = Some k'.
Proof.
  intros He Hk. destruct (decide (x = e)) as [->|Hx]; [|by rewrite lookup_delete_ne]. rewrite lookup_delete_eq, He. split; congruence.
Qed.

Lemma step_orphan held s q e z : slab_ok held s -> running s !! q = Some (In_orphan e) ->
  wp (slab_step q (Resume z)) (step_ok held (Resume z)) s.
Proof using Hpar.
  intros (loc & pg & Hok & Hcalls & Hheld) Hr. unfold slab_step. apply wp_bind. unfold call_of, wp at 1. rewrite Hr.
  pose proof (Hcalls q) as Hq. unfold call_ok in Hq. rewrite Hr in Hq. destruct Hq as ((c & Hc & Hhp) & Hin & o & Ho & Hodd).
  pose proof (proj2 (Hin e) eq_refl) as He. apply wp_bind, (wp_free_orphaned par Hpar loc pg s e (In_call q) o); try done.
  intros pg' s' Hok' (Hsc & Hsr & Hse) _. apply wp_bind. unfold set_call, wp at 1. apply wp_ret. split; [|done].
  exists (delete e loc), pg'. split; [by apply heap_ok_running|]. split; [|apply (held_ok_ext loc); [done|]; intros x; by apply (delete_call loc e (In_call q))].
  apply (calls_ok_step loc s _ _ q); try done.
  - unfold call_ok. cbn. rewrite lookup_delete_eq. intros x Hx. apply lookup_delete_Some in Hx as [Hne Hx]. by apply Hin in Hx.
  - intros q' Hq. cbn. rewrite lookup_delete_ne, Hsr by done. split; [done|]. apply kept_same. cbn. by rewrite Hsc.
  - intros x q' Hq. apply (delete_call loc e (In_call q)); congruence.
  - intros x q' o' Hq Hx Hxo _. unfold owner_of in *. cbn. rewrite Hse; [done|]. exists (In_call q'). apply (delete_call loc e (In_call q)); congruence.
Qed.

(** ** Creation and destruction *)

Lemma step_destroy held s q : slab_ok held s -> running s !! q = None -> is_Some (children s !! q) ->
  wp (slab_step q Destroy_child) (step_ok held Destroy_child) s.
Proof using Hpar.
  intros (loc & pg & Hok & Hcalls & Hheld) Hr [c Hc]. unfold slab_step. apply wp_bind. unfold call_of, wp at 1. rewrite Hr.
  pose proof (Hcalls q) as Hno. unfold call_ok in Hno. rewrite Hr in Hno. apply wp_bind. destruct (has_parent c) eqn:Hhp.
  - apply (wp_destroy_locked par Hpar loc pg s q c); try done. intros loc' pg' s' c' Hok' Hc' Hhp' Hp' Hm' (Hor & Hoc & _) Hl Ho.
    apply wp_bind. unfold set_call, wp at 1. apply wp_ret. split; [|done]. exists loc', pg'. split; [by apply heap_ok_running|].
    split; [|apply (held_ok_ext loc); [done|]; intros x; by apply Hl]. apply (calls_ok_step loc s _ _ q); try done.
    + unfold call_ok. cbn. rewrite lookup_insert_eq. split; [by exists c'|]. split; [intros x; by rewrite Hl|]. intros d Hd.
      assert (d = c') as -> by congruence. done.
    + intros q' Hq. cbn. rewrite lookup_insert_ne, Hor by done. split; [done|]. by apply kept_same, Hoc.
    + intros x q' _. by apply Hl.
    + intros x q' o Hq Hx Hxo Hodd. apply Ho; [|done|done]. exists (In_call q'). by apply Hl.
  - unfold slab_destroy_locked. apply wp_bind, (wp_child q c); [done|]. rewrite Hhp. apply wp_ret, wp_bind, wp_ret, wp_ret.
    split; [by exists loc, pg | done].
Qed.

(** A pool without elements and pages is created or closed. *)
Lemma heap_ok_pool loc pg s q b : heap_ok par loc pg s -> Z.even q = true -> q <> 0 -> (forall p, pg !! p <> Some q) ->
  (forall x k, on_list q k -> loc !! x <> Some k) -> heap_ok par loc pg (s <| children := <[q := SlabChild b 0 0 0]> (children s) |>).
Proof.
  intros [] Hq Hq0 Hp Hl. constructor; try done.
  - intros p z Hpz Hz. destruct (ok_owned p z Hpz Hz) as ((c & Hc & Ha) & H). split; [|done]. exists c. cbn.
    rewrite lookup_insert_ne; [done|]. intros ->. by apply Hp in Hpz.
  - intros x z Hx. destruct (ok_home x z Hx) as (Hz & H). split; [|done]. cbn. rewrite lookup_insert_ne; [done|]. intros ->.
    destruct Hx as [Hx|Hx]; (eapply Hl; [|exact Hx]); [by left | by right].
  - intros x d. cbn. destruct (decide (x = q)) as [->|Hx]; [rewrite lookup_insert_eq | rewrite lookup_insert_ne by done; apply ok_children].
    intros E. injection E as <-. split; [done|]. split; [done|]. cbn. split; [|split; [|split; [|done]]]; apply lists_nil; auto;
      intros x; apply Hl; [by left | by right].
Qed.

Lemma wp_destroy_round loc pg s q c (Q : _ -> _ -> Prop) : heap_ok par loc pg s -> children s !! q = Some c -> pages c = 0 -> migrated c = 0 ->
  let closed := s <| children := <[q := SlabChild false 0 0 0]> (children s) |> in
  (free_list c = 0 -> heap_ok par loc pg closed -> Q false closed) ->
  (forall h pg' s', let e := free_list c in elements s !! e = Some h -> loc !! e = Some (On_free q) -> heap_ok par (delete e loc) pg' s' ->
     spared (delete e loc) (s <| children := <[q := c <| free_list := elt_next h |>]> (children s) |>) s' -> Q true s') ->
  wp (slab_destroy_round q) Q s.
Proof using Hpar.
  intros Hok Hc Hp Hm closed HQ0 HQ. unfold slab_destroy_round. apply wp_bind, (wp_child q c); [done|]. destruct (free_list c =? 0) eqn:E.
  - apply wp_bind, (wp_set_child q c); [done|]. apply wp_ret.
    assert (Ec : c <| has_parent := false |> = SlabChild false 0 0 0) by (destruct c; unfold update; cbn in *; f_equal; lia). rewrite Ec.
    apply Z.eqb_eq in E. pose proof (ok_children _ _ _ _ Hok q c Hc) as (Hqe & Hq0 & Hf & Hmi & _).
    apply HQ0; [done|]. apply heap_ok_pool; try done; [by apply (no_pages par loc pg s q c)|].
    intros x k [-> | ->]; [rewrite E in Hf; by apply (lists_null _ _ Hf) | rewrite Hm in Hmi; by apply (lists_null _ _ Hmi)].
  - edestruct (wp_release_head par Hpar loc pg s q c (On_free q)) as (h & Hh & Hloc & Hwp); [done.. | by left | cbn; lia |]. cbn in Hh, Hloc, Hwp.
    apply wp_bind, (wp_element _ h); [done|]. apply wp_bind, (wp_set_child q c); [done|]. apply wp_bind, Hwp.
    intros pg' s' Hok' Hsp. by apply wp_ret, (HQ h pg').
Qed.

(** The calls of the other pools while [q] is destroyed. *)
Lemma calls_ok_round loc s loc' s' q k e : (forall q', call_ok loc s q') -> call_ok loc' s' q -> loc !! e = Some k -> ~ loose k ->
  (forall x k', k' <> k -> loc' !! x = Some k' <-> loc !! x = Some k') ->
  (forall q', q' <> q -> running s' !! q' = running s !! q' /\ children s' !! q' = children s !! q') ->
  (forall x, is_Some (loc' !! x) -> elements s' !! x = elements s !! x) -> forall q', call_ok loc' s' q'.
Proof.
  intros Hcalls Hq He Hk Hl Hr Hel. apply (calls_ok_step loc s _ _ q); try done.
  - intros q' Hne. destruct (Hr q' Hne) as [Er Ec]. split; [done | by apply kept_same].
  - intros x q' _. apply Hl. by intros <-.
  - intros x q' o _ Hx Ho _. unfold owner_of in *. rewrite Hel; [done|]. exists (In_call q'). apply Hl; [by intros <- | done].
Qed.

Lemma step_destroy_round held s q z : slab_ok held s -> running s !! q = Some In_destroy ->
  wp (slab_step q (Resume z)) (step_ok held (Resume z)) s.
Proof using Hpar.
  intros (loc & pg & Hok & Hcalls & Hheld) Hr. unfold slab_step. apply wp_bind. unfold call_of, wp at 1. rewrite Hr.
  pose proof (Hcalls q) as Hq. unfold call_ok in Hq. rewrite Hr in Hq. destruct Hq as ((c & Hc & Hhp) & Hno & Hz). destruct (Hz c Hc) as [Hp Hm].
  apply wp_bind, (wp_destroy_round loc pg s q c); try done.
  - intros _ Hok'. apply wp_bind. unfold set_call, wp at 1. apply wp_ret. split; [|done]. exists loc, pg. split; [by apply heap_ok_running|].
    split; [|done]. apply (calls_ok_step loc s _ _ q); try done.
    + unfold call_ok. cbn. by rewrite lookup_delete_eq.
    + intros q' Hq. cbn. rewrite lookup_delete_ne by done. split; [done|]. apply kept_same. cbn. by rewrite lookup_insert_ne.
  - intros h pg' s' e Hh Hloc Hok' (Hsc & Hsr & Hse). cbn in Hsc, Hsr, Hse. apply wp_bind. unfold set_call, wp at 1. apply wp_ret. split; [|done].
    pose proof (fun x k => delete_call loc _ _ x k Hloc) as Hdel. exists (delete e loc), pg'. split; [by apply heap_ok_running|].
    split; [|apply (held_ok_ext loc); [done|]; intros x; by apply Hdel]. apply (calls_ok_round loc s _ _ q (On_free q) e); try done; auto.
    + unfold call_ok. cbn. rewrite lookup_insert_eq. split; [eexists; cbn; rewrite Hsc, lookup_insert_eq; by split|].
      split; [intros x; by rewrite Hdel|]. intros d. rewrite Hsc, lookup_insert_eq. intros Hd. injection Hd as <-. done.
    + intros q' Hq. cbn. by rewrite lookup_insert_ne, Hsr, Hsc, lookup_insert_ne.
Qed.

Lemma step_create held s q : slab_ok held s -> running s !! q = None -> Z.even q = true -> q <> 0 -> ~ alive s q ->
  wp (slab_step q Create_child) (step_ok held Create_child) s.
Proof using Hpar.
  intros (loc & pg & Hok & Hcalls & Hheld) Hr Hq Hq0 Hdead. unfold slab_step. apply wp_bind. unfold call_of, wp at 1. rewrite Hr.
  pose proof (Hcalls q) as Hno. unfold call_ok in Hno. rewrite Hr in Hno. apply wp_bind. unfold slab_create_child, wp at 1. apply wp_ret.
  split; [|done]. exists loc, pg. split; [|split; [|done]].
  - apply heap_ok_pool; try done.
    + intros p Hp. destruct (ok_owned _ _ _ _ Hok p q Hp Hq) as (Ha & _). done.
    + intros x k Hk Hx. destruct (ok_home _ _ _ _ Hok x q) as ([c Hc] & _); [destruct Hk as [-> | ->]; auto|].
      pose proof (ok_children _ _ _ _ Hok q c Hc) as (_ & _ & Hf & Hm & _ & Hd).
      destruct Hd as (_ & E1 & E2); [destruct (has_parent c) eqn:Eh; [|done]; exfalso; apply Hdead; by exists c|]. rewrite E1 in Hf. rewrite E2 in Hm.
      destruct Hk as [-> | ->]; [by apply (lists_null _ _ Hf) in Hx | by apply (lists_null _ _ Hm) in Hx].
  - apply (calls_ok_step loc s _ _ q); try done.
    + unfold call_ok. cbn. by rewrite Hr.
    + intros q' Hq'. split; [done|]. apply kept_same. cbn. by rewrite lookup_insert_ne.
Qed.

(** Every allowed step returns and keeps the invariant. *)
Lemma slab_step_ok held s q a : slab_ok held s -> allowed held s q a -> wp (slab_step q a) (step_ok held a) s.
Proof using Hpar.
  intros Hok Ha. unfold allowed in Ha. destruct (running s !! q) as [r|] eqn:Er.
  - destruct a as [| | | |z]; try (by destruct r). destruct r as [|e|e|];
      [by apply step_alloc_end | by apply (step_free_locked _ _ _ e) | by apply (step_orphan _ _ _ e) | by apply step_destroy_round].
  - destruct a as [| |p| |z]; [apply step_create; tauto | by apply step_alloc | apply step_free; tauto | by apply step_destroy | done].
Qed.

(** ** The whole destruction of a pool *)

Lemma wp_destroy_rounds held q l : forall fuel loc pg s c (Q : _ -> _ -> Prop), heap_ok par loc pg s -> (forall q', call_ok loc s q') -> held_ok loc held ->
  running s !! q = None -> children s !! q = Some c -> pages c = 0 -> migrated c = 0 ->
  linked (next_of s) (free_list c) l -> NoDup l -> (forall x, x ∈ l -> loc !! x = Some (On_free q)) -> (length l < fuel)%nat ->
  (forall s', slab_ok held s' -> children s' = <[q := SlabChild false 0 0 0]> (children s) -> running s' = running s -> Q tt s') ->
  wp (destroy_rounds fuel q) Q s.
Proof using Hpar.
  induction l as [|e l IH]; intros fuel loc pg s c Q Hok Hcalls Hheld Hr Hc Hp Hm Hl Hd Hin Hf HQ;
    (destruct fuel as [|fuel]; [cbn in Hf; lia|]); cbn [destroy_rounds]; apply wp_bind;
    pose proof (Hcalls q) as Hno; unfold call_ok in Hno; rewrite Hr in Hno; cbn in Hl.
  - apply (wp_destroy_round loc pg s q c); try done.
    + intros _ Hok'. apply wp_ret, HQ; try done. exists loc, pg. split; [done|]. split; [|done]. apply (calls_ok_step loc s _ _ q); try done.
      * unfold call_ok. cbn. by rewrite Hr.
      * intros q' Hq. split; [done|]. apply kept_same. cbn. by rewrite lookup_insert_ne.
    + intros h pg' s' e Hh Hloc Hok'. pose proof (ok_children _ _ _ _ Hok q c Hc) as (_ & _ & Hfl & _). rewrite Hl in Hfl.
      unfold e in Hloc. rewrite Hl in Hloc. by apply (lists_null _ _ Hfl) in Hloc.
  - destruct Hl as (Ee & He0 & n & Hn & Hl). inversion Hd as [|? ? Hel Hd']; subst. apply (wp_destroy_round loc pg s q c); try done.
    intros h pg' s' e Hh Hloc Hok' (Hsc & Hsr & Hse). cbn in Hsc, Hsr, Hse.
    assert (En : elt_next h = n) by (unfold next_of in Hn; unfold e in Hh; rewrite Hh in Hn; by injection Hn). rewrite En in Hsc.
    pose proof (fun x k => delete_call loc _ _ x k Hloc) as Hdel.
    assert (Hrest : forall x, x ∈ l -> delete e loc !! x = Some (On_free q)) by (intros x Hx; unfold e; rewrite lookup_delete_ne; [apply Hin|]; set_solver).
    apply (IH fuel (delete e loc) pg' s' (c <| free_list := n |>)); try done.
    + apply (calls_ok_round loc s _ _ q (On_free q) e); try done; auto.
      * unfold call_ok. rewrite Hsr, Hr. intros x. by rewrite Hdel.
      * intros q' Hq. by rewrite Hsr, Hsc, lookup_insert_ne.
    + apply (held_ok_ext loc); [done|]. intros x. by apply Hdel.
    + by rewrite Hsr.
    + by rewrite Hsc, lookup_insert_eq.
    + cbn. revert Hl. apply linked_ext. intros x Hx. unfold next_of. rewrite Hse; [done|]. rewrite Hrest by done. eauto.
    + cbn in Hf. lia.
    + intros s'' Hs'' Hc'' Hr''. apply HQ; [done | by rewrite Hc'', Hsc, insert_insert_eq | congruence].
Qed.

(** [slab_destroy] of a live pool returns. *)
Lemma wp_slab_destroy held s q c (Q : _ -> _ -> Prop) : slab_ok held s -> running s !! q = None -> children s !! q = Some c -> has_parent c = true ->
  (forall s', slab_ok held s' -> running s' = running s -> (forall x, x <> q -> children s' !! x = children s !! x) ->
     children s' !! q = Some (SlabChild false 0 0 0) -> Q tt s') ->
  wp (slab_destroy q) Q s.
Proof using Hpar.
  intros (loc & pg & Hok & Hcalls & Hheld) Hr Hc Hhp HQ. pose proof (Hcalls q) as Hno. unfold call_ok in Hno. rewrite Hr in Hno.
  unfold slab_destroy. apply wp_bind, (wp_destroy_locked par Hpar loc pg s q c); try done.
  intros loc' pg' s' c' Hok' Hc' Hhp' Hp' Hm' (Hor & Hoc & _) Hl Ho. apply wp_bind, wp_element_rounds.
  pose proof (ok_children _ _ _ _ Hok' q c' Hc') as (_ & _ & (l & Hli & Hd & Hmem) & _).
  apply (wp_destroy_rounds held q l _ loc' pg' s' c'); try done.
  - apply (calls_ok_step loc s _ _ q); try done.
    + unfold call_ok. rewrite Hor, Hr. intros x. by rewrite Hl.
    + intros q' Hq. split; [by rewrite Hor | by apply kept_same, Hoc].
    + intros x q' _. by apply Hl.
    + intros x q' o _ Hx Hxo Hodd. apply Ho; [|done|done]. exists (In_call q'). by apply Hl.
  - apply (held_ok_ext loc); [done|]. intros x. by apply Hl.
  - by rewrite Hor.
  - intros x. by apply Hmem.
  - apply Nat.lt_succ_r, length_le_size; [done|]. intros x Hx. apply Hmem, (ok_loc _ _ _ _ Hok') in Hx. by apply fmap_is_Some in Hx.
  - intros s'' Hs'' Hc'' Hr''. apply HQ; [done | congruence | | by rewrite Hc'', lookup_insert_eq].
    intros x Hx. rewrite Hc'', lookup_insert_ne by done. by apply Hoc.
Qed.

(** ** Consequences of the invariant *)

Lemma slab_ok_start : slab_ok ∅ (Slabs par ∅ ∅ ∅ ∅).
Proof.
  clear Hpar.
  assert (Hnone : forall {A} (x : Z) (v : A), (∅ : gmap Z A) !! x = Some v -> False) by (intros A x v; by rewrite lookup_empty).
  exists ∅, ∅. split; [|split].
  - constructor; cbn; try done; try (intros * H; by apply Hnone in H).
    + intros p. by rewrite !lookup_empty.
    + intros p p' [o Hp]. by apply Hnone in Hp.
    + intros e q [H|H]; by apply Hnone in H.
  - intros q. unfold call_ok. cbn. rewrite lookup_empty. intros x H. by apply Hnone in H.
  - intros p. split; [set_solver | intros H; by apply Hnone in H].
Qed.

(** The elements of a page that the users have, the header included. *)
Lemma slab_ok_inside held s p : slab_ok held s -> p ∈ held ->
  exists page, is_Some (page_headers s !! page) /\ element_of p ∈ page_elements par page.
Proof.
  intros (loc & pg & Hok & _ & Hheld) Hp. apply Hheld in Hp. destruct (ok_loc _ _ _ _ Hok _ _ Hp) as [o Ho].
  destruct (ok_elements _ _ _ _ Hok _ o Ho) as (page & Hpage & Hin). exists page. split; [|done]. apply (ok_pages _ _ _ _ Hok). eauto.
Qed.

Lemma slab_ok_apart held s p p' : slab_ok held s -> is_Some (page_headers s !! p) -> is_Some (page_headers s !! p') -> p <> p' -> apart par p p'.
Proof. intros (loc & pg & Hok & _) Hp Hp'. apply (ok_apart _ _ _ _ Hok); by apply (ok_pages _ _ _ _ Hok). Qed.

Lemma slab_ok_disjoint held s p p' : slab_ok held s -> p ∈ held -> p' ∈ held -> p <> p' ->
  p + element_size par <= p' \/ p' + element_size par <= p.
Proof using Hpar.
  intros Hok Hp Hp' Hne. destruct (slab_ok_inside held s p Hok Hp) as (page & Hpage & Hin). destruct (slab_ok_inside held s p' Hok Hp') as (page' & Hpage' & Hin').
  destruct (decide (page = page')) as [<-|Hpp].
  - apply page_elements_in in Hin as (i & Hi & Ei); [|done]. apply page_elements_in in Hin' as (j & Hj & Ej); [|done].
    destruct Hpar as (_ & Hs & _). unfold element_of, sizeof_element_header in *. assert (i < j \/ j < i) as [H|H] by nia; nia.
  - pose proof (slab_ok_apart held s page page' Hok Hpage Hpage' Hpp) as Hap. apply page_elements_inside in Hin, Hin'; [|done..].
    destruct Hpar as (_ & Hs & _). unfold apart, element_of, sizeof_page_header in *. lia.
Qed.

Lemma slab_ok_empty s : slab_ok ∅ s -> running s = ∅ -> (forall q, ~ alive s q) -> page_headers s = ∅ /\ elements s = ∅.
Proof using Hpar.
  intros (loc & pg & Hok & Hcalls & Hheld) Hr Hdead.
  assert (Hloc : forall e, loc !! e = None).
  { intros e. destruct (loc !! e) as [k|] eqn:Hk; [|done]. exfalso.
    assert (Hlist : forall q, on_list q k -> False).
    { intros q Hq. destruct (ok_home _ _ _ _ Hok e q) as ([c Hc] & _); [destruct Hq as [-> | ->]; auto|].
      pose proof (ok_children _ _ _ _ Hok q c Hc) as (_ & _ & _ & _ & _ & Hd). pose proof (child_lists par loc pg s q c k Hok Hc Hq) as Hl.
      destruct Hd as (_ & E1 & E2); [destruct (has_parent c) eqn:E; [|done]; exfalso; apply (Hdead q); by exists c|].
      assert (E : list_head k c = 0) by (destruct Hq as [-> | ->]; done). rewrite E in Hl. by apply (lists_null _ _ Hl) in Hk. }
    destruct k as [q|q| |q]; [apply (Hlist q); by left | apply (Hlist q); by right | |].
    - assert (H : object_of e ∈ (∅ : gset Z)) by (apply Hheld; by rewrite element_of_object). set_solver.
    - specialize (Hcalls q). unfold call_ok in Hcalls. rewrite Hr, lookup_empty in Hcalls. by apply Hcalls in Hk. }
  assert (Hpg : forall p, pg !! p = None).
  { intros p. destruct (pg !! p) as [o|] eqn:Hp; [|done]. exfalso. destruct (Z.even o) eqn:E.
    - destruct (ok_owned _ _ _ _ Hok p o Hp E) as (Ha & _). by apply Hdead in Ha.
    - destruct (ok_orphan _ _ _ _ Hok p o Hp E) as (_ & _ & Hlt). apply count_some in Hlt as (e & _ & [k Hk]). by rewrite Hloc in Hk. }
  split; apply map_eq; intros x; rewrite lookup_empty; apply eq_None_not_Some; intros Hx.
  - apply (ok_pages _ _ _ _ Hok) in Hx as [o Hx]. by rewrite Hpg in Hx.
  - destruct Hx as [h Hx]. destruct (ok_elements _ _ _ _ Hok x (owner h)) as (p & Hp & _); [unfold owner_of; by rewrite Hx | by rewrite Hpg in Hp].
Qed.
End steps.

(** ** Sizes *)

Lemma align_8 x : 0 <= x < 2 ^ 63 -> x <= ALIGN_POT x 8 <= x + 7.
Proof.
  intros Hx. unfold ALIGN_POT. rewrite wrap_small by lia. replace (x + 8 - 1) with (x + 7) by lia.
  assert (E : Z.land (x + 7) (u64 (Z.lnot (8 - 1))) = Z.shiftl (Z.land (Z.shiftr (x + 7) 3) (Z.ones 61)) 3).
  { change (u64 (Z.lnot (8 - 1))) with (Z.shiftl (Z.ones 61) 3). apply Z.bits_inj'. intros i Hi.
    rewrite Z.land_spec, !Z.shiftl_spec, Z.land_spec by lia. destruct (Z.lt_ge_cases i 3).
    - rewrite !Z.testbit_neg_r with (n := i - 3) by lia. by rewrite andb_false_r.
    - rewrite Z.shiftr_spec by lia. by replace (i - 3 + 3) with i by lia. }
  rewrite E, Z.land_ones, Z.shiftl_mul_pow2, Z.shiftr_div_pow2 by lia. change (2 ^ 3) with 8.
  pose proof (Z.div_mod (x + 7) 8 ltac:(lia)) as Hdm. pose proof (Z.mod_pos_bound (x + 7) 8 ltac:(lia)) as Hm.
  rewrite Z.mod_small by lia. lia.
Qed.

(** The sizes that [slab_create_parent] supports: a page fits in 32 bits. *)
Definition sizes_ok (item_size num_items : Z) : Prop :=
  0 <= item_size /\ 1 <= num_items /\ num_items * (item_size + 23) < 2 ^ 32.

Lemma create_parent_ok item_size num_items : sizes_ok item_size num_items ->
  let par := slab_create_parent item_size num_items in
  parent_ok par /\ sizeof_element_header + item_size <= element_size par.
Proof.
  intros (H0 & H1 & Hm) par. assert (Hi : item_size + 23 < 2 ^ 32) by nia. pose proof (align_8 (sizeof_element_header + item_size)) as Ha.
  unfold sizeof_element_header in Ha. assert (Hs : element_size par = ALIGN_POT (16 + item_size) 8) by (cbn; apply wrap_small; lia).
  unfold parent_ok, sizeof_element_header. rewrite Hs. cbn [num_elements par slab_create_parent].
  assert (Hb : ALIGN_POT (16 + item_size) 8 <= item_size + 23) by lia. split; [split; [done | split; [lia | nia]] | lia].
Qed.

(** ** Runs of any number of threads *)

(** The states after allowed steps, with the objects that the users have. *)
Inductive reachable (par : slab_parent_pool) : gset Z -> slabs -> Prop :=
| reach_start : reachable par ∅ (Slabs par ∅ ∅ ∅ ∅)
| reach_step held s q a r s' : reachable par held s -> allowed par held s q a -> slab_step q a s = Ret (r, s') ->
    reachable par (held_after held a r) s'.

Lemma reachable_ok par held s : parent_ok par -> reachable par held s -> slab_ok par held s.
Proof.
  intros Hpar H. induction H as [|held s q a r s' _ IH Ha Hs]; [apply slab_ok_start|].
  pose proof (slab_step_ok par Hpar held s q a IH Ha) as H. unfold wp in H. rewrite Hs in H. apply H.
Qed.

(** Runs that check each step. *)
Definition alive_b (s : slabs) (q : Z) : bool := match children s !! q with Some c => has_parent c | None => false end.
Definition fresh_page_b (par : slab_parent_pool) (s : slabs) (p : Z) : bool :=
  (0 <? p) && Z.even p && forallb (fun '(p', _) => (p + page_size par <=? p') || (p' + page_size par <=? p)) (map_to_list (page_headers s)).
Definition allowed_b (par : slab_parent_pool) (held : gset Z) (s : slabs) (q : Z) (a : slab_action) : bool :=
  match running s !! q, a with
  | None, Create_child => Z.even q && negb (q =? 0) && negb (alive_b s q)
  | None, Alloc => alive_b s q
  | None, Free ptr => alive_b s q && bool_decide (ptr ∈ held)
  | None, Destroy_child => bool_decide (is_Some (children s !! q))
  | Some In_alloc, Resume answer => (answer =? 0) || fresh_page_b par s answer
  | Some _, Resume _ => true
  | _, _ => false
  end.

Lemma alive_b_spec s q : alive_b s q = true <-> alive s q.
Proof. unfold alive_b, alive. destruct (children s !! q) as [c|]; [|split; [done | intros (? & ? & _); done]]. naive_solver. Qed.

Lemma fresh_page_b_spec par s p : fresh_page_b par s p = true -> fresh_page par s p.
Proof.
  unfold fresh_page_b. intros H. apply andb_prop in H as [H H3]. apply andb_prop in H as [H1 H2]. split; [lia|]. split; [done|].
  intros p' [u Hu]. rewrite forallb_forall in H3. specialize (H3 (p', u)). cbn in H3. unfold apart.
  assert (Hin : (p', u) ∈ map_to_list (page_headers s)) by by apply elem_of_map_to_list. apply list_elem_of_In, H3 in Hin.
  apply orb_prop in Hin. lia.
Qed.

Lemma allowed_b_spec par held s q a : allowed_b par held s q a = true -> allowed par held s q a.
Proof.
  unfold allowed_b, allowed. destruct (running s !! q) as [[]|], a as [| |p| |z]; try done; intros H.
  - apply orb_prop in H as [H|H]; [left; lia | right; by apply fresh_page_b_spec].
  - apply andb_prop in H as [H H3]. apply andb_prop in H as [H1 H2]. rewrite <- alive_b_spec. split; [done|]. split; [lia|]. by destruct (alive_b s q).
  - by apply alive_b_spec.
  - apply andb_prop in H as [H1 H2]. rewrite alive_b_spec in H1. by apply bool_decide_eq_true in H2.
  - by apply bool_decide_eq_true in H.
Qed.

Fixpoint slab_run (par : slab_parent_pool) (l : list (Z * slab_action)) (held : gset Z) (s : slabs) : option (gset Z * slabs) :=
  match l with
  | [] => Some (held, s)
  | (q, a) :: l =>
      if allowed_b par held s q a then
        match slab_step q a s with Ret (r, s') => slab_run par l (held_after held a r) s' | _ => None end
      else None
  end.

Lemma slab_run_reachable par l : forall held s held' s', reachable par held s -> slab_run par l held s = Some (held', s') -> reachable par held' s'.
Proof.
  induction l as [|[q a] l IH]; intros held s held' s' Hr; cbn [slab_run]; [congruence|].
  destruct (allowed_b par held s q a) eqn:Ea; [|done]. destruct (slab_step q a s) as [[r s1]| |] eqn:Es; [|done..].
  apply IH. apply (reach_step par held s q a); [done | by apply allowed_b_spec | done].
Qed.

(** Two pools share a page of two objects: the pool 4 frees the objects of the
    pool 2, one before and one after the pool 2 is destroyed. *)
Definition two_pools : slab_parent_pool := slab_create_parent 8 2.
Definition migrating : list (Z * slab_action) :=
  [(2, Create_child); (4, Create_child); (2, Alloc); (2, Resume 1000); (2, Alloc)].
Definition migrating_end : list (Z * slab_action) :=
  [(4, Free 1024); (4, Resume 0); (2, Destroy_child); (4, Free 1048); (4, Resume 0); (2, Resume 0); (4, Resume 0); (4, Destroy_child); (4, Resume 0)].

Definition run_checks (l : list (Z * slab_action)) (f : gset Z -> slabs -> bool) : bool :=
  match slab_run two_pools l ∅ (Slabs two_pools ∅ ∅ ∅ ∅) with Some (held, s) => f held s | None => false end.

Lemma run_checked l f : run_checks l f = true -> exists held s, reachable two_pools held s /\ f held s = true.
Proof.
  unfold run_checks. destruct (slab_run two_pools l ∅ _) as [[held s]|] eqn:E; [|done]. intros H. exists held, s. split; [|done].
  eapply slab_run_reachable; [|exact E]. constructor.
Qed.

(** C8: whatever threads do in whatever order on pools of one parent, with at
    most one call at a time on a pool and with pages below [2^32] bytes
    ([sizes_ok]): every step that the callers may take
    returns, so no access leaves the pages that are allocated, no assertion
    fails and the loops end; an object that [slab_alloc] returns is in nobody's
    hands, and it is [NULL] only if [malloc] fails; the objects in use, with
    their headers, are in allocated pages and do not overlap. *)
Theorem slab_threads_are_safe item_size num_items held s : sizes_ok item_size num_items ->
  let par := slab_create_parent item_size num_items in
  reachable par held s ->
  (forall q a, allowed par held s q a -> exists r s', slab_step q a s = Ret (r, s') /\ result_ok held a r) /\
  (forall p, p ∈ held -> exists page, is_Some (page_headers s !! page) /\
     page + sizeof_page_header <= element_of p /\ p + item_size <= page + page_size par) /\
  (forall p p', p ∈ held -> p' ∈ held -> p <> p' -> p + item_size <= element_of p' \/ p' + item_size <= element_of p).
Proof.
  intros Hsz par Hr. destruct (create_parent_ok item_size num_items Hsz) as [Hpar Hsize]. pose proof (reachable_ok par held s Hpar Hr) as Hok.
  fold par in Hsize, Hpar. split; [|split].
  - intros q a Ha. destruct (wp_elim _ _ _ (slab_step_ok par Hpar held s q a Hok Ha)) as (r & s' & E & _ & Hres). eauto.
  - intros p Hp. destruct (slab_ok_inside par held s p Hok Hp) as (page & Hpage & Hin). exists page. split; [done|].
    apply page_elements_inside in Hin; [|done]. unfold element_of in *. lia.
  - intros p p' Hp Hp' Hne. pose proof (slab_ok_disjoint par Hpar held s p p' Hok Hp Hp' Hne). unfold element_of. lia.
Qed.

Lemma slab_threads_are_safe_witness : exists held s, reachable two_pools held s /\ 1024 ∈ held /\ 1048 ∈ held /\
  (exists r s', slab_step 4 (Free 1024) s = Ret (r, s')) /\ (1024 + 8 <= element_of 1048 \/ 1048 + 8 <= element_of 1024).
Proof.
  destruct (run_checked migrating (fun held s => bool_decide (1024 ∈ held) && bool_decide (1048 ∈ held) && allowed_b two_pools held s 4 (Free 1024)))
    as (held & s & Hr & Hc); [vm_compute; reflexivity|].
  apply andb_prop in Hc as [Hc Ha]. apply andb_prop in Hc as [H1 H2]. apply bool_decide_eq_true in H1, H2. apply allowed_b_spec in Ha.
  assert (Hsz : sizes_ok 8 2) by (split; [lia | split; lia]).
  destruct (slab_threads_are_safe 8 2 held s Hsz Hr) as (Hsteps & _ & Hdis). exists held, s. split; [exact Hr|]. split; [exact H1|]. split; [exact H2|].
  split; [destruct (Hsteps 4 (Free 1024) Ha) as (r & s' & E & _); eauto | by apply Hdis].
Defined.

(** C25: nothing leaks: once all objects are freed, all calls have returned and
    all pools are destroyed, in whatever order this happened, every page has
    been given back. *)
Theorem slab_pages_are_freed item_size num_items s : sizes_ok item_size num_items ->
  reachable (slab_create_parent item_size num_items) ∅ s -> running s = ∅ -> (forall q, ~ alive s q) ->
  page_headers s = ∅ /\ elements s = ∅.
Proof.
  intros Hsz Hr. destruct (create_parent_ok item_size num_items Hsz) as [Hpar _]. apply (slab_ok_empty _ Hpar). by apply reachable_ok.
Qed.

Lemma slab_pages_are_freed_witness : exists s, reachable two_pools ∅ s /\ size (children s) = 2%nat /\ page_headers s = ∅ /\ elements s = ∅.
Proof.
  destruct (run_checked (migrating ++ migrating_end) (fun held s => bool_decide (held = ∅) && bool_decide (running s = ∅) &&
    bool_decide (size (children s) = 2%nat) && bool_decide (map_Forall (fun _ c => has_parent c = false) (children s))))
    as (held & s & Hr & Hc); [vm_compute; reflexivity|].
  apply andb_prop in Hc as [Hc Hd]. apply andb_prop in Hc as [Hc H2]. apply andb_prop in Hc as [H0 H1].
  apply bool_decide_eq_true in H0, H1, H2, Hd. subst held. assert (Hsz : sizes_ok 8 2) by (split; [lia | split; lia]).
  exists s. split; [exact Hr|]. split; [exact H2|]. apply (slab_pages_are_freed 8 2 s Hsz Hr H1). intros q (c & Hq & Ha).
  specialize (Hd q c Hq). cbn in Hd. congruence.
Defined.

(** [slab_destroy] returns, and gives back every page of the last pool. *)
Lemma slab_destroy_frees item_size num_items s q : sizes_ok item_size num_items ->
  reachable (slab_create_parent item_size num_items) ∅ s -> running s = ∅ -> (forall q', alive s q' <-> q' = q) ->
  exists s', slab_destroy q s = Ret (tt, s') /\ page_headers s' = ∅ /\ elements s' = ∅.
Proof.
  intros Hsz Hr Hrun Hq. destruct (create_parent_ok item_size num_items Hsz) as [Hpar _]. pose proof (reachable_ok _ _ s Hpar Hr) as Hok.
  destruct (proj2 (Hq q) eq_refl) as (c & Hc & Hhp).
  assert (H : wp (slab_destroy q) (fun _ s' => page_headers s' = ∅ /\ elements s' = ∅) s).
  { apply (wp_slab_destroy _ Hpar ∅ s q c); [done | by rewrite Hrun | done | done|]. intros s' Hok' Hr' Hch Hc'.
    apply (slab_ok_empty _ Hpar); [done | congruence|]. intros q' (d & Hd & Ha). destruct (decide (q' = q)) as [->|Hne].
    { rewrite Hc' in Hd. by injection Hd as <-. }
    apply Hne, Hq. exists d. by rewrite <- Hch. }
  apply wp_elim in H as ([] & s' & E & H). eauto.
Qed.

(** The sizes matter: the size of a page of two elements of [2 ^ 31] bytes is
    truncated to that of its header, and the first header is written behind
    it. *)
Lemma slab_page_size_is_truncated :
  slab_alloc_st 2 1000 (slab_create 2 (2 ^ 31 - 16) 2) = Assert_failed.
Proof. reflexivity. Qed.
